(* ===== verification/_CoqProject ===== *)
-Q . S2P
Prelude.v
Wildcard.v
MinHeap.v
MinHeapOps.v
ExprLex.v
ExprComp.v
ExprProg.v
ExprVM.v
ExprSpec.v
ExprLexProof.v
ExprTerm.v
ExprMono.v
ExprParse.v
ExprRunProof.v
ExprSym.v
ExprReloc.v
ExprMain.v
ExprLoad.v
Bpf.v
BpfIsa.v
BpfArith.v
BpfProof.v
BpfSim.v
BpfFrag.v
BpfMain.v
RingBuf.v
RingBufMain.v
SampleLayout.v
Hweight.v
SampleProof.v
SampleAbi.v
SampleMain.v
Clock.v
ClockProof.v
ClockMain.v
Order.v
OrderProof.v
OrderInv.v
OrderPass.v
OrderStart.v
OrderMain.v
OrderSetup.v
OrderDev.v
Rbtree.v
Rblist.v
MultiTrace.v
MultiProof.v
MultiOps.v
MultiInv.v
MultiSafe.v
MultiPlain.v
MultiPair.v
Latency.v
Count.v
Localtime.v
Comm.v
CommProof.v
KeyValue.v
Kmemleak.v
KmemleakProof.v
KmemleakMain.v
ProfDev.v
ProfDevProof.v
ProfDevLoop.v
ProfDevLevel.v
ProfDevOpen.v
ProfDevMain.v
