(* ===== verification/Prelude.v ===== *)
(** * perf-prof: a verification of its core

    perf-prof (src/) is a system profiler for Linux: it opens perf events,
    reads the records the kernel writes into shared ring buffers, brings the
    records of all buffers into the order of their times, filters them and
    computes with expressions over their fields, and hands them to profilers.
    This library models the parts that carry this path, in Rocq definitions that
    follow the C functions one by one, and proves what they promise.

    ** The program and the files that model it

    - Strings: [wildcard_match] of src/src/expr.c.  [Wildcard].
    - The binary heap of src/include/linux/min_heap.h, on byte offsets as in the
      code, and the same algorithm on indexes.  [MinHeap], and [MinHeapOps] for
      the operations that the ordering does not use.
    - The expression compiler of src/src/expr.c.  [ExprLex] is the lexer with
      the symbol table, [ExprComp] the precedence-climbing compiler, [ExprProg]
      the compilation from text to program, relocation, destruction and the
      loading of event data, [ExprVM] the virtual machine.  [ExprSpec] is the
      reference: spelling, grammar, types, code and value of expressions.
      [ExprLexProof], [ExprTerm], [ExprMono], [ExprParse], [ExprRunProof],
      [ExprSym], [ExprReloc] hold the lemmas, [ExprMain] and [ExprLoad] the
      theorems.
    - The BPF backend of src/src/expr.c, which turns a program into a kernel
      filter.  [Bpf] is the translator, [BpfIsa] the documented instructions as
      a class of machines; [BpfArith], [BpfProof], [BpfSim], [BpfFrag] hold the
      lemmas, [BpfMain] the theorem.
    - The reader of the ring buffers (src/lib/perf/mmap.c, the device loop of
      src/src/monitor.c).  [RingBuf] with the kernel as a class, [RingBufMain].
    - Sample records (src/src/convert.c, src/lib/perf/evsel.c): the table of the
      members of a record, the offsets of its fields, the data for the unwinder,
      the positions a device uses.  [SampleLayout] is the code, [Hweight] shows
      that its bit count counts bits, [SampleProof] what the table finds,
      [SampleAbi] the records the kernel writes, from uapi/linux/perf_event.h and
      not from the table, and that the table describes them, [SampleMain] the
      theorems.
    - Clocks (src/src/convert.c, src/include/linux/math64.h, the control page of
      src/lib/perf/mmap.c, pvclock.h).  [Clock], [ClockProof], [ClockMain].
    - The ordering of events (src/src/order.c) on top of the heap, the ring
      buffers and the clocks.  [Order] is the code, [OrderProof] the weakest
      preconditions of its handlers, [OrderInv] the invariant, [OrderPass] one
      pass, [OrderStart] the start and the end of a run, [OrderMain] the
      theorem; [OrderSetup] are sample sizes and watermarks, [OrderDev] the set-up
      and joining of devices and the registration of streams.
    - Sorted trees.  [Rbtree]: the red-black trees of src/lib/rbtree.c with their
      rotations, on a node and the path to its root.  [Rblist]: src/lib/rblist.c on
      them, the same on the list of the nodes from left to right, and the class
      [KeyOrder] of the comparisons that order nodes.
    - The pairing of events (src/src/multi-trace.c, the engine of multi-trace,
      kmemprof, syscalls, nested-trace and rundelay).  [MultiTrace] is the code,
      [MultiProof] the weakest preconditions, [MultiOps] the steps that both
      modes share, proved against the classes [EngineInv] and [HeldInv],
      [MultiInv] and [MultiSafe] the mode with a timeline, [MultiPlain] the mode
      without, [MultiPair] the pairs that are found.
    - The statistics of the profilers (src/src/latency_helpers.c,
      src/src/count_helpers.c).  [Latency], [Count].
    - Dates (src/src/localtime.c).  [Localtime].
    - The names of tasks (src/src/comm.c).  [Comm] is the service on two trees and a
      heap of nodes, with the map from pids to names that specifies it,
      [CommProof] the relation, over a map that also has the pid looked up last, and
      the theorem.
    - Memory leaks (src/src/kmemleak.c).  [KeyValue] is the table by call chain of
      src/src/stack_helpers.c, [Kmemleak] the profiler, [KmemleakProof] its
      specification by a map of the live allocations and the relation,
      [KmemleakMain] the ranges of lost events and the leaked bytes.

    - The devices of the profilers (src/src/monitor.c).  [ProfDev]: opening, clones,
      forwarding, the delivery of events, flushing, disabling, closing and the
      references, which call each other.  [ProfDevProof] is the invariant,
      [ProfDevLoop] the loops over sources and children, [ProfDevLevel] the calls on
      one device, [ProfDevOpen] what adds devices and links, [ProfDevMain] the runs.

    How they interact: the kernel writes records into the ring buffers
    ([RingBuf]); a device without ordering takes them with
    [perf_event_handle_mmap]; a device with ordering gives its buffers to
    [order_process], which keeps the head of each buffer in the heap
    ([MinHeap]), compares the times found at the positions of [SampleLayout],
    converts clocks with [Clock] and hands each record to its profiler.  The
    profilers that measure the time between two events give each record to
    [multi_trace_sample] ([MultiTrace]), which calls them with the pairs; what
    they measure goes into [latency_dist_input] ([Latency]).  [Kmemleak] takes the
    records in order and the ranges of lost events that the ordering knows.  The
    fields of a record are found with the member table ([SampleLayout]);
    filters and computed values are expressions ([ExprProg], [ExprVM]), or BPF
    programs made of them ([Bpf]).  The interfaces are classes: [StrictWeak] is
    what the heap asks of a comparison, [EventRing] and [EventStream] with their
    laws what the ordering asks of its sources, [EngineInv] what the steps of the
    pairing engine ask of its invariant, [KeyOrder] what the sorted trees ask of
    a comparison, [BpfMachine] what the backend
    asks of the kernel, [RingProducer] what the reader asks of it.

    ** Conventions

    A machine integer is a [Z] with the wrap-around written out ([uwrap],
    [swrap], below); bit operations are those of [Z].  Bytes are [Z]s, memory is
    a list or a function of them, a pointer is an index, an address or the
    remaining suffix of a text.  What C leaves undefined, a failed allocation or
    a NULL pointer is [None], [Fault] or an error value.  Stateful code is
    explicit state passing or a small monad ([Order.OM], [MultiTrace.MT], [let*]
    of [ExprLex]).
    Code outside src/ is a parameter: the kernel, the allocator, the C library
    functions of the virtual machine, the sizes libtraceevent knows.  A tree of
    rblist.c is the list of its nodes from left to right in [MultiTrace], [Latency],
    [Count] and [KeyValue], which [rblist_refines] justifies; [Comm] and [Kmemleak]
    work on the trees themselves.

    Loops that are not structural have fuel.  The theorems give the fuel and say
    that it is enough: a bound on the text for the compiler, the size of the
    pattern and the subject for [wildcard_match], the events that are left for
    the loops over a ring buffer, events plus sources for a run of the ordering,
    the nodes of the lists for the loops of the pairing engine, the nodes of a tree
    for the loops that empty it, the days for the years of a date, for the calls
    on devices any amount from some number on ([steps_to]),
    10001 passes for the control page (the bound in the code).

    ** What the theorems show

    - Expressions: for every text that spells expressions of the grammar, the
      compiled program computes their values ([expr_compile_run_correct]);
      compilation ends on every text, with a program, an error or one of four named
      faults; declared variables are bound; reference counts balance; [expr_load_data] and [expr_load_glo] read what was loaded.
    - BPF: the emitted filter computes the same value on every machine with the
      documented instructions ([expr_to_bpf_correct]).
    - Strings: [wildcard_match] decides the language of the pattern.
    - Heap: any operations together are those of a priority queue, for every
      element size.
    - Ring buffer: every record is delivered once, whole and in order while the
      kernel writes; reading and putting back is the identity; the range found
      in overwrite mode is exactly the whole records.
    - Sample records: the member table finds every field of every record of the
      ABI, fits its allocation, and agrees with the positions of the device.
    - Clocks: conversions other than to kvmclock round-trip up to one tick and keep
      the order; the
      control page is read consistently or an error is returned; converting an
      event changes its time only; the portable wide arithmetic is exact where its
      intermediate products fit.
    - Ordering: a run ends, hands over the samples of all sources in the order
      of their times over any sequence of runs, and loses or duplicates none;
      the size of a sample is enough for every record but for the fields it leaves
      out, which are named; watermarks stay in a buffer whose size times 100 fits 32
      bits; the set-up of devices that sample the time, with memory for the arrays of
      their buffers, loses no source and the heap has room for all.
    - Sorted trees: any calls of rblist.c return and free what the same calls on a
      sorted list do, on a tree that stays red-black and of logarithmic height
      ([rblist_refines]).
    - Pairs: whatever the samples and losses, in both modes no freed event is
      used, the events that are kept are those that wait or may be needed, the
      statistics are right and the flush frees all; the pairs are exactly those
      of a specification without trees and memory, the same in both modes; the
      reported earliest time is never too late ([minevtime_bound]).
    - Statistics: after any operations, with allocations failing, the nodes hold
      the statistics of their inputs; the sorted print shows each of them once
      and in order; the arrays of counts are never left.
    - Dates: the fields are those of the Gregorian calendar.
    - Devices that nobody uses and that do not order their events: along any run every
      operation returns and uses no freed device ([devices_safe]); each device has one
      reference between the operations, limits are respected, closing frees the device
      ([close_frees]).
    - Names of tasks: with no use of a freed node and no leak, the service is a map
      from pids to names, but for the stale name of a flushed pid that is looked up
      twice in a row ([comm_refines]).
    - Memory leaks: every report goes through exactly the allocations that were not
      freed ([kmemleak_refines]); events inside a loss are dropped and nothing is
      matched across one ([kmemleak_losses]); the leaked bytes are the sums by call
      chain ([leaked_bytes_correct]).

    Divergences found on the way are examples next to the theorems
    ([folded_load_is_a_jump_target], [widening_cast_reads_neighbour],
    [kvmclock_back_is_off], [cache_id_is_stream_id], [stack_user_not_counted],
    [contexts_not_counted], [hw_idx_not_counted], [watermark_overflow],
    [source_not_counted], [cached_name_not_flushed], [node_without_memory],
    [target_limit_fault] and others).

    ** Not modelled

    The set-up of perf events, epoll, signals and option parsing (src/src/monitor.c
    and the profilers' own option tables): system calls.  The users of a device
    ([dev_users], [prof_dev_use]), by which a tracepoint list keeps the profilers that
    are its event sources until its own device is freed and ptrace the devices of a
    workload, the ordered branch of [perf_event_handle_mmap] in the model of the
    devices (the ordering itself is [Order]), and what the callbacks of a profiler do
    to devices.  The
    profilers whose work is printing or calls of other libraries (SQLite,
    CPython, libtraceevent, libbpf, elfutils): src/src/sql.c, src/src/python.c,
    src/src/tep.c, and all of src/src/stack_helpers.c but its table by call chain.
    Vendored code (src/src/sqlite, src/lib/bpf, src/lib/traceevent).  The
    t-digest of src/lib/tdigest.c (floating point numbers) is a parameter of
    [Latency].  The details and the help that multi-trace prints.  Memory barriers and concurrent access to
    the ring buffer beyond the states the kernel may leave it in. *)

From Stdlib Require Export ZArith Lia.
From stdpp Require Export base list gmap strings option numbers.
#[export] Set Default Goal Selector "!".
Open Scope Z_scope.

(** ** Machine integers

    A C object of width [w] is kept as a [Z].  [uwrap w] and [swrap w] are the
    conversions to the unsigned and to the (two's complement) signed type. *)
Definition uwrap (w z : Z) : Z := z mod 2 ^ w.
Definition swrap (w z : Z) : Z := (z + 2 ^ (w - 1)) mod 2 ^ w - 2 ^ (w - 1).

Abbreviation u8 := (uwrap 8).
Abbreviation u16 := (uwrap 16).
Abbreviation u32 := (uwrap 32).
Abbreviation u64 := (uwrap 64).
Abbreviation s8 := (swrap 8).
Abbreviation s16 := (swrap 16).
Abbreviation s32 := (swrap 32).
Abbreviation s64 := (swrap 64).

(** [b2z] is C's [int] value of a comparison. *)
Definition b2z (b : bool) : Z := if b then 1 else 0.

Definition in_u (w z : Z) : Prop := 0 <= z < 2 ^ w.
Definition in_s (w z : Z) : Prop := - 2 ^ (w - 1) <= z < 2 ^ (w - 1).

Create HintDb machint.
Create Rewrite HintDb machint.

Section MachInt.
Context (w : Z) (Hw : 0 < w).

Lemma pow2_pos : 0 < 2 ^ w.
Proof using Hw. apply Z.pow_pos_nonneg; lia. Qed.

Lemma pow2_half : 2 ^ w = 2 * 2 ^ (w - 1).
Proof using Hw. rewrite <- Z.pow_succ_r by lia. f_equal; lia. Qed.

Lemma uwrap_range z : in_u w (uwrap w z).
Proof using Hw. apply Z.mod_pos_bound, pow2_pos. Qed.

Lemma swrap_range z : in_s w (swrap w z).
Proof using Hw.
  unfold in_s, swrap. pose proof pow2_half.
  pose proof (Z.mod_pos_bound (z + 2 ^ (w - 1)) (2 ^ w) pow2_pos). lia.
Qed.

Lemma uwrap_small z : in_u w z -> uwrap w z = z.
Proof using Hw. apply Z.mod_small. Qed.

Lemma swrap_small z : in_s w z -> swrap w z = z.
Proof using Hw.
  unfold in_s, swrap. pose proof pow2_half. intros ?. rewrite Z.mod_small; lia.
Qed.

Lemma uwrap_eq a b : uwrap w a = uwrap w b <-> exists k, a = b + k * 2 ^ w.
Proof using Hw.
  pose proof pow2_pos. unfold uwrap. split.
  - intros E. exists (a / 2 ^ w - b / 2 ^ w).
    pose proof (Z.div_mod a (2 ^ w)). pose proof (Z.div_mod b (2 ^ w)). nia.
  - intros [k ->]. apply Z.mod_add. lia.
Qed.

Lemma swrap_shift z : exists k, swrap w z = z + k * 2 ^ w.
Proof using Hw.
  pose proof pow2_pos. unfold swrap.
  exists (- ((z + 2 ^ (w - 1)) / 2 ^ w)).
  pose proof (Z.div_mod (z + 2 ^ (w - 1)) (2 ^ w)). nia.
Qed.

Lemma uwrap_shift z : exists k, uwrap w z = z + k * 2 ^ w.
Proof using Hw.
  pose proof pow2_pos. unfold uwrap. exists (- (z / 2 ^ w)).
  pose proof (Z.div_mod z (2 ^ w)). nia.
Qed.

Lemma swrap_eq a b : swrap w a = swrap w b <-> uwrap w a = uwrap w b.
Proof using Hw.
  pose proof pow2_pos. rewrite uwrap_eq. split.
  - intros E. destruct (swrap_shift a) as [ka Ha], (swrap_shift b) as [kb Hb].
    exists (kb - ka). nia.
  - intros [k ->]. unfold swrap.
    replace (b + k * 2 ^ w + 2 ^ (w - 1)) with (b + 2 ^ (w - 1) + k * 2 ^ w) by lia.
    rewrite Z.mod_add; lia.
Qed.

Lemma uwrap_swrap z : uwrap w (swrap w z) = uwrap w z.
Proof using Hw. destruct (swrap_shift z) as [k E]. apply uwrap_eq. eauto. Qed.

Lemma swrap_uwrap z : swrap w (uwrap w z) = swrap w z.
Proof using Hw.
  apply swrap_eq. destruct (uwrap_shift z) as [k E]. apply uwrap_eq. eauto.
Qed.

Lemma uwrap_uwrap z : uwrap w (uwrap w z) = uwrap w z.
Proof using Hw. apply uwrap_small, uwrap_range. Qed.

Lemma swrap_swrap z : swrap w (swrap w z) = swrap w z.
Proof using Hw. apply swrap_small, swrap_range. Qed.

Lemma uwrap_add_l a b : uwrap w (uwrap w a + b) = uwrap w (a + b).
Proof using Hw.
  apply uwrap_eq. destruct (uwrap_shift a) as [k ->]. exists k. lia.
Qed.

Lemma uwrap_add_r a b : uwrap w (a + uwrap w b) = uwrap w (a + b).
Proof using Hw. rewrite Z.add_comm, uwrap_add_l, Z.add_comm. done. Qed.

Lemma uwrap_sub_l a b : uwrap w (uwrap w a - b) = uwrap w (a - b).
Proof using Hw.
  apply uwrap_eq. destruct (uwrap_shift a) as [k ->]. exists k. lia.
Qed.

Lemma uwrap_sub_r a b : uwrap w (a - uwrap w b) = uwrap w (a - b).
Proof using Hw.
  apply uwrap_eq. destruct (uwrap_shift b) as [k ->]. exists (- k). lia.
Qed.

Lemma uwrap_mul_l a b : uwrap w (uwrap w a * b) = uwrap w (a * b).
Proof using Hw.
  apply uwrap_eq. destruct (uwrap_shift a) as [k ->]. exists (k * b). lia.
Qed.

Lemma uwrap_mul_r a b : uwrap w (a * uwrap w b) = uwrap w (a * b).
Proof using Hw. rewrite Z.mul_comm, uwrap_mul_l, Z.mul_comm. done. Qed.
End MachInt.

#[export] Hint Rewrite uwrap_swrap swrap_uwrap uwrap_uwrap swrap_swrap
  uwrap_add_l uwrap_add_r uwrap_sub_l uwrap_sub_r uwrap_mul_l uwrap_mul_r
  using lia : machint.
#[export] Hint Resolve uwrap_range swrap_range : machint.

(** ** Tactics *)

(** Splits conjunctions and closes the parts by computation or arithmetic. *)
Ltac split_done := split_and?; simpl in *; auto; try done; try lia.

#[global] Arguments Nat.div : simpl never.
#[global] Arguments Nat.modulo : simpl never.
#[global] Arguments uwrap : simpl never.
#[global] Arguments swrap : simpl never.
