(* ===== verification/Wildcard.v ===== *)
(** * Wildcard: the [~] operator of the expression language

    Models [wildcard_match] of src/src/expr.c, the matcher behind the [MATCH]
    instruction.  A C string is the list of its characters without the
    terminating NUL; a pointer into it is the remaining suffix, so dereferencing
    it is [hd0 p].  The backtracking loop is run with a fuel that is shown to be
    enough, and is proved equivalent to a declarative semantics of patterns. *)

From S2P Require Import Prelude.

Module Wildcard.

(** The character a pointer points at; NUL at the end of the string. *)
Definition hd0 (p : list Z) : Z := match p with [] => 0 | c :: _ => c end.

Definition c_star : Z := 42.
Definition c_quest : Z := 63.
Definition c_lbrk : Z := 91.
Definition c_rbrk : Z := 93.
Definition c_caret : Z := 94.
Definition c_bang : Z := 33.
Definition c_dash : Z := 45.

(** The loop that skips consecutive stars. *)
Fixpoint skip_stars (p : list Z) : list Z :=
  match p with
  | [] => []
  | a :: q => if a =? c_star then skip_stars q else p
  end.

(** The loop over a class up to its closing bracket: [m] is the C variable
    [match], [c] is the subject character; returns [match] and the position the scan stopped at. *)
Fixpoint class_scan (c : Z) (m : bool) (p : list Z) : bool * list Z :=
  match p with
  | [] => (m, [])
  | a :: p1 =>
      if a =? c_rbrk then (m, p)
      else match p1 with
           | d :: b :: p3 =>
               if (d =? c_dash) && negb (b =? c_rbrk) && negb (b =? 0)
               then class_scan c (m || ((a <=? c) && (c <=? b))) p3
               else class_scan c (m || (c =? a)) p1
           | _ => class_scan c (m || (c =? a)) p1
           end
  end.

(** The character-class branch: [p] is just after the opening bracket; returns whether
    [c] is accepted and the position after the class. *)
Definition char_class (c : Z) (p : list Z) : bool * list Z :=
  let invert := (hd0 p =? c_caret) || (hd0 p =? c_bang) in
  let p1 := if invert then tl p else p in
  let '(m, p2) := class_scan c false p1 in
  let p3 := if hd0 p2 =? c_rbrk then tl p2 else p2 in
  (if invert then negb m else m, p3).

(** The local variables of the loop: [s], [p], and [star]/[str_backup], which
    are set together. *)
Record wst := mkW { w_s : list Z; w_p : list Z; w_star : option (list Z * list Z) }.

(** The "no match" arm: go back to the last star, one character further. *)
Definition backtrack (st : wst) : wst + bool :=
  match w_star st with
  | Some (p, b) => inl (mkW (tl b) p (Some (p, tl b)))
  | None => inr false
  end.

(** One iteration of the main loop, with the code after the loop when the
    subject is exhausted. *)
Definition wstep (st : wst) : wst + bool :=
  match w_s st with
  | [] => inr (match skip_stars (w_p st) with [] => true | _ => false end)
  | c :: s1 =>
      match w_p st with
      | [] => backtrack st
      | a :: p1 =>
          if a =? c_star then
            match skip_stars p1 with
            | [] => inr true
            | p2 => inl (mkW (w_s st) p2 (Some (p2, w_s st)))
            end
          else if a =? c_quest then inl (mkW s1 p1 (w_star st))
          else if a =? c_lbrk then
            let '(ok, p2) := char_class c p1 in
            if ok then inl (mkW s1 p2 (w_star st)) else backtrack st
          else if a =? c then inl (mkW s1 p1 (w_star st))
          else backtrack st
      end
  end.

Fixpoint wloop (n : nat) (st : wst) : option bool :=
  match n with
  | O => None
  | S n => match wstep st with inl st' => wloop n st' | inr b => Some b end
  end.

Definition wfuel (s p : list Z) : nat :=
  S ((length p + 2) * ((length s + 2) * (length s + length p + 2)))%nat.

(** [wildcard_match (str, pattern)]; a NULL argument is [None]. *)
Definition wildcard_match (str pattern : option (list Z)) : option bool :=
  match str, pattern with
  | Some s, Some p => wloop (wfuel s p) (mkW s p None)
  | _, _ => Some false
  end.

(** ** What a pattern means *)

Inductive item := Star | One (accepts : Z -> bool).

(** The pattern as a sequence of items: [Star] is any string, every other item
    takes exactly one character. *)
Fixpoint parse_fuel (n : nat) (p : list Z) : list item :=
  match n, p with
  | S n, a :: p1 =>
      if a =? c_star then Star :: parse_fuel n p1
      else if a =? c_quest then One (fun _ => true) :: parse_fuel n p1
      else if a =? c_lbrk then
        One (fun c => (char_class c p1).1) :: parse_fuel n (char_class 0 p1).2
      else One (Z.eqb a) :: parse_fuel n p1
  | _, _ => []
  end.

Definition parse (p : list Z) : list item := parse_fuel (length p) p.

Inductive matches : list item -> list Z -> Prop :=
| m_nil : matches [] []
| m_skip r s : matches r s -> matches (Star :: r) s
| m_take r c s : matches (Star :: r) s -> matches (Star :: r) (c :: s)
| m_one f r c s : f c = true -> matches r s -> matches (One f :: r) (c :: s).

(** ** Positions only move forward *)

Lemma skip_stars_len p : (length (skip_stars p) <= length p)%nat.
Proof. induction p as [|a p IH]; simpl; [lia|]. destruct (a =? c_star); simpl; lia. Qed.

Lemma list_len_ind {A} (P : list A -> Prop) :
  (forall p, (forall q, (length q < length p)%nat -> P q) -> P p) -> forall p, P p.
Proof.
  intros H p. remember (length p) as n eqn:E. revert p E.
  induction (Nat.lt_wf_0 n) as [n _ IH]. intros p ->. eauto.
Qed.

Lemma class_scan_cons c m a p1 : class_scan c m (a :: p1) =
  if a =? c_rbrk then (m, a :: p1)
  else match p1 with
       | d :: b :: p3 =>
           if (d =? c_dash) && negb (b =? c_rbrk) && negb (b =? 0)
           then class_scan c (m || ((a <=? c) && (c <=? b))) p3
           else class_scan c (m || (c =? a)) p1
       | _ => class_scan c (m || (c =? a)) p1
       end.
Proof. done. Qed.

(** Where a class ends does not depend on the subject character, and the scan
    never moves backwards. *)
Lemma class_scan_pos p : forall c m,
  (class_scan c m p).2 = (class_scan 0 false p).2 /\
  (length (class_scan c m p).2 <= length p)%nat.
Proof.
  induction p as [p IH] using list_len_ind. intros c m.
  destruct p as [|a p1]; [done|]. rewrite !class_scan_cons.
  destruct (a =? c_rbrk); [done|].
  destruct p1 as [|d [|b p3]]; [by split; simpl; [|lia] | |].
  - destruct (IH [d]) with (c := c) (m := m || (c =? a)) as [-> ?]; [simpl; lia|].
    destruct (IH [d]) with (c := 0) (m := false || (0 =? a)) as [-> ?]; [simpl; lia|].
    simpl in *. split; [done|lia].
  - destruct (_ && _ && _).
    + destruct (IH p3) with (c := c) (m := m || ((a <=? c) && (c <=? b))) as [-> ?]; [simpl; lia|].
      destruct (IH p3) with (c := 0) (m := false || ((a <=? 0) && (0 <=? b))) as [-> ?]; [simpl; lia|].
      simpl. split; [done|lia].
    + destruct (IH (d :: b :: p3)) with (c := c) (m := m || (c =? a)) as [-> ?]; [simpl; lia|].
      destruct (IH (d :: b :: p3)) with (c := 0) (m := false || (0 =? a)) as [-> ?]; [simpl; lia|].
      split; [done|]. simpl in *. lia.
Qed.

Lemma char_class_pos c p :
  (char_class c p).2 = (char_class 0 p).2 /\ (length (char_class c p).2 <= length p)%nat.
Proof.
  unfold char_class.
  set (p1 := if (hd0 p =? c_caret) || (hd0 p =? c_bang) then tl p else p).
  assert (length p1 <= length p)%nat by (subst p1; destruct p, (_ || _); simpl; lia).
  clearbody p1.
  destruct (class_scan_pos p1 c false) as [Ec Hc], (class_scan_pos p1 0 false) as [E0 H0].
  destruct (class_scan c false p1) as [mc qc], (class_scan 0 false p1) as [m0 q0].
  simpl in *. subst qc. destruct (hd0 q0 =? c_rbrk), q0; simpl in *; split; try done; try lia.
Qed.

Lemma parse_fuel_more n p : (length p <= n)%nat -> parse_fuel n p = parse p.
Proof.
  unfold parse. revert p. induction (Nat.lt_wf_0 n) as [n _ IH]. intros p Hn.
  destruct n as [|n], p as [|a p1]; simpl in *; try done; try lia.
  assert (H : forall q, (length q <= length p1)%nat -> parse_fuel n q = parse_fuel (length p1) q).
  { intros q Hq. destruct (decide (n = length p1)) as [->|]; [done|].
    by rewrite (IH n), (IH (length p1)) by lia. }
  pose proof (char_class_pos 0 p1) as [_ Hc].
  repeat case_match; f_equal; try (by apply H); by apply H.
Qed.

Lemma parse_cons a p1 : parse (a :: p1) =
  if a =? c_star then Star :: parse p1
  else if a =? c_quest then One (fun _ => true) :: parse p1
  else if a =? c_lbrk then
    One (fun c => (char_class c p1).1) :: parse (char_class 0 p1).2
  else One (Z.eqb a) :: parse p1.
Proof.
  unfold parse at 1. simpl. pose proof (char_class_pos 0 p1) as [_ Hc].
  by rewrite !parse_fuel_more by lia.
Qed.

(** ** Facts about [matches] *)

Lemma matches_star_app s r t : matches r t -> matches (Star :: r) (s ++ t).
Proof. intros H. induction s; simpl; by constructor. Qed.

Lemma matches_star_inv r s : matches (Star :: r) s <-> exists k, matches r (drop k s).
Proof.
  split.
  - intros H. remember (Star :: r) as it eqn:E.
    induction H as [|r' s H IH|r' c s H IH|]; simplify_eq.
    + by exists O.
    + destruct (IH eq_refl) as [k Hk]. by exists (S k).
  - intros [k H]. rewrite <- (take_drop k s). by apply matches_star_app.
Qed.

Lemma matches_star_drop r s k : matches (Star :: r) (drop k s) -> matches (Star :: r) s.
Proof.
  rewrite !matches_star_inv. intros [j H]. exists (k + j)%nat. by rewrite <- drop_drop.
Qed.

Lemma matches_star_star r s : matches (Star :: Star :: r) s <-> matches (Star :: r) s.
Proof.
  rewrite matches_star_inv. split.
  - intros [k H]. by eapply matches_star_drop.
  - intros H. by exists O.
Qed.

(** A sequence of one-character items followed by [r] matches exactly when [r]
    matches after as many characters. *)
Lemma matches_ones_inv pre r s :
  Forall (fun i => i <> Star) pre -> matches (pre ++ r) s -> matches r (drop (length pre) s).
Proof.
  intros Hp. revert s. induction Hp as [|i pre Hi _ IH]; intros s H; simpl in *; [done|].
  inversion H; subst; try done. simpl. auto.
Qed.

Lemma matches_ones_len pre r s :
  Forall (fun i => i <> Star) pre -> matches (pre ++ r) s -> (length pre <= length s)%nat.
Proof.
  intros Hp. revert s. induction Hp as [|i pre Hi _ IH]; intros s H; simpl in *; [lia|].
  inversion H; subst; try done. apply IH in H4. simpl. lia.
Qed.

Lemma parse_skip_stars p s :
  matches (Star :: parse (skip_stars p)) s <-> matches (Star :: parse p) s.
Proof.
  induction p as [|a p IH]; [done|]. simpl. destruct (a =? c_star) eqn:E; [|done].
  rewrite IH, parse_cons, E. by rewrite matches_star_star.
Qed.

Lemma skip_stars_nil p : skip_stars p = [] <-> matches (parse p) [].
Proof.
  induction p as [|a p IH]; [split; [constructor|done]|].
  simpl. rewrite parse_cons. destruct (a =? c_star).
  - rewrite IH. split; [by constructor|]. by inversion 1.
  - split; [done|]. repeat case_match; by inversion 1.
Qed.

(** ** The invariant of the loop

    [star] is a position whose items, up to the current [p], are the
    one-character items matched since [str_backup]. *)
Definition winv (st : wst) : Prop :=
  match w_star st with
  | None => True
  | Some (sp, b) => exists pre,
      parse sp = pre ++ parse (w_p st) /\ Forall (fun i => i <> Star) pre /\
      w_s st = drop (length pre) b /\ (length pre <= length b)%nat
  end.

(** What a state can still match. *)
Definition wsem (st : wst) : Prop :=
  matches (parse (w_p st)) (w_s st) \/
  match w_star st with
  | None => False
  | Some (sp, b) => exists k, (1 <= k)%nat /\ matches (parse sp) (drop k b)
  end.

Definition wgoal (st : wst) (r : wst + bool) : Prop :=
  match r with
  | inr b => b = true <-> wsem st
  | inl st' => winv st' /\ (wsem st' <-> wsem st)
  end.

Lemma drop_tl {A} k (b : list A) : drop k (tl b) = drop (S k) b.
Proof. destruct b; simpl; by rewrite ?drop_nil. Qed.

Lemma backtrack_ok st :
  ~ matches (parse (w_p st)) (w_s st) -> wgoal st (backtrack st).
Proof.
  intros Hn. unfold backtrack, wgoal, winv, wsem.
  destruct (w_star st) as [[p b]|]; simpl; [|split; [done|by intros [?|[]]]].
  split; [exists []; rewrite drop_0; simpl; split_done|].
  setoid_rewrite drop_tl. split.
  - intros [H|(k & Hk & H)]; right; [exists 1%nat; destruct b; auto|exists (S k); split_done].
  - intros [H|(k & Hk & H)]; [done|]. destruct k as [|[|k]]; [lia| |].
    + left. by destruct b.
    + right. exists (S k). split_done.
Qed.

Lemma advance_ok st c s1 p' f :
  winv st -> w_s st = c :: s1 -> parse (w_p st) = One f :: parse p' -> f c = true ->
  wgoal st (inl (mkW s1 p' (w_star st))).
Proof.
  intros Hi Es Ep Hf. unfold wgoal, wsem, winv in *. simpl. split.
  - destruct (w_star st) as [[sp b]|]; [|done].
    destruct Hi as (pre & E1 & H1 & E2 & Hl). exists (pre ++ [One f]).
    rewrite length_app, <- drop_drop, <- E2, Es, <- app_assoc. simpl. rewrite <- Ep.
    split_and!; [done| by apply Forall_app_2; auto | by rewrite drop_0 |].
    assert (length (drop (length pre) b) = S (length s1)) by by rewrite <- E2, Es.
    rewrite length_drop in *. lia.
  - rewrite Es, Ep. split; intros [H|H]; auto.
    + left. by constructor.
    + left. by inversion H.
Qed.

Lemma mismatch_one f r c s : f c = false -> ~ matches (One f :: r) (c :: s).
Proof. inversion 2. congruence. Qed.

(** A star makes every earlier alternative redundant. *)
Lemma new_star_ok st p1 p2 :
  winv st -> w_p st = c_star :: p1 -> skip_stars p1 = p2 ->
  wsem st <-> matches (Star :: parse p2) (w_s st).
Proof.
  intros Hi Ep <-. unfold wsem. rewrite Ep, parse_cons, parse_skip_stars.
  change (c_star =? c_star) with true. simpl. split; [|auto].
  intros [H|H]; [done|]. unfold winv in Hi.
  destruct (w_star st) as [[sp b]|]; [|done].
  destruct Hi as (pre & E1 & H1 & E2 & Hl), H as (k & Hk & H).
  rewrite E1, Ep, parse_cons in H. change (c_star =? c_star) with true in H.
  apply matches_ones_inv in H; [|done].
  rewrite E2. apply (matches_star_drop _ _ k).
  by rewrite drop_drop, Nat.add_comm, <- drop_drop.
Qed.

Lemma end_of_subject_ok st :
  winv st -> w_s st = [] ->
  wsem st <-> skip_stars (w_p st) = [].
Proof.
  intros Hi Es. rewrite skip_stars_nil. unfold wsem. rewrite Es. split; [|auto].
  intros [H|H]; [done|]. unfold winv in Hi.
  destruct (w_star st) as [[sp b]|]; [|done].
  destruct Hi as (pre & E1 & H1 & E2 & Hl), H as (k & Hk & H). rewrite E1 in H.
  pose proof (matches_ones_len _ _ _ H1 H) as Hlen. apply matches_ones_inv in H; [|done].
  rewrite Es in E2. assert (length b <= length pre)%nat.
  { rewrite <- Nat.sub_0_le, <- length_drop, <- E2. done. }
  rewrite drop_drop in H. rewrite drop_ge in H by lia. done.
Qed.

Lemma wstep_ok st : winv st -> wgoal st (wstep st).
Proof.
  intros Hi. unfold wstep. destruct (w_s st) as [|c s1] eqn:Es.
  { unfold wgoal. rewrite end_of_subject_ok by done. by destruct (skip_stars _). }
  destruct (w_p st) as [|a p1] eqn:Ep.
  { apply backtrack_ok. rewrite Es, Ep. by inversion 1. }
  pose proof (parse_cons a p1) as Hp.
  destruct (a =? c_star) eqn:Ea.
  { apply Z.eqb_eq in Ea. subst a.
    destruct (skip_stars p1) as [|a2 p2] eqn:Ek.
    - unfold wgoal. rewrite (new_star_ok st p1 []) by done. split; [|done]. intros _.
      rewrite <- (app_nil_r (w_s st)). apply matches_star_app. constructor.
    - unfold wgoal. rewrite (new_star_ok st p1 (a2 :: p2)) by done. split.
      + unfold winv. simpl. exists []. rewrite drop_0. simpl. split_done.
      + unfold wsem. simpl. rewrite Es, matches_star_inv. split.
        * intros [H|(k & _ & H)]; [by exists O|eauto].
        * intros [[|k] H]; [left; by rewrite drop_0 in H|right; exists (S k); split_done]. }
  destruct (a =? c_quest) eqn:Eq.
  { eapply advance_ok; eauto. by rewrite Ep. }
  destruct (a =? c_lbrk) eqn:Eb.
  { pose proof (char_class_pos c p1) as [Epos _].
    destruct (char_class c p1) as [ok p2] eqn:Ec. simpl in Epos. subst p2.
    destruct ok.
    - apply (advance_ok st c s1 _ (fun c => (char_class c p1).1)); [done|done|by rewrite Ep|by rewrite Ec].
    - apply backtrack_ok. rewrite Es, Ep, Hp. apply mismatch_one. by rewrite Ec. }
  destruct (a =? c) eqn:Ex.
  - eapply advance_ok; eauto. by rewrite Ep.
  - apply backtrack_ok. rewrite Es, Ep, Hp. by apply mismatch_one.
Qed.

(** ** Termination

    Lexicographically: a new star is further right in the pattern, a backtrack
    moves the backup forward, and every other step consumes a character. *)
Definition wbound (N M : nat) (st : wst) : Prop :=
  (length (w_s st) <= N /\ length (w_p st) <= M)%nat /\
  match w_star st with
  | None => True
  | Some (sp, b) => (length sp <= M /\ length b <= N /\
                     length (w_p st) <= length sp /\ length (w_s st) <= length b)%nat
  end.

Definition wmeasure (N M : nat) (st : wst) : nat :=
  let K := (N + M + 2)%nat in
  let '(P, B) := match w_star st with
                 | None => (S M, O)
                 | Some (sp, b) => (length sp, length b)
                 end in
  (P * ((N + 2) * K) + B * K + (length (w_s st) + length (w_p st)))%nat.

Lemma lex_star_decr (N M P P' B B' r r' : nat) :
  (P' < P -> B' <= N -> r' <= N + M ->
   P' * ((N + 2) * (N + M + 2)) + B' * (N + M + 2) + r' <
   P * ((N + 2) * (N + M + 2)) + B * (N + M + 2) + r)%nat.
Proof.
  intros HP HB Hr. set (K := (N + M + 2)%nat).
  assert (P' * ((N + 2) * K) + (N + 2) * K <= P * ((N + 2) * K))%nat by nia.
  assert (B' * K <= N * K)%nat by nia. lia.
Qed.

Lemma backtrack_decr N M st st' :
  wbound N M st -> w_s st <> [] -> backtrack st = inl st' ->
  wbound N M st' /\ (wmeasure N M st' < wmeasure N M st)%nat.
Proof.
  unfold backtrack, wbound, wmeasure. intros [[Hs Hp] Hb] Hne.
  destruct (w_star st) as [[p [|x b]]|]; intros [= <-]; simpl in *.
  - destruct (w_s st); simpl in *; [done|lia].
  - split; [lia|]. nia.
Qed.

Lemma wstep_decr N M st st' :
  wbound N M st -> wstep st = inl st' ->
  wbound N M st' /\ (wmeasure N M st' < wmeasure N M st)%nat.
Proof.
  intros Hb. unfold wstep. pose proof (backtrack_decr N M st st' Hb) as HB.
  destruct (w_s st) as [|c s1] eqn:Es; [done|].
  destruct (w_p st) as [|a p1] eqn:Ep; [intros; by apply HB|].
  assert (Hadv : forall p', (length p' <= length p1)%nat -> @inl wst bool (mkW s1 p' (w_star st)) = inl st' ->
    wbound N M st' /\ (wmeasure N M st' < wmeasure N M st)%nat).
  { intros p' Hp' [= <-]. unfold wbound, wmeasure in *. simpl.
    rewrite Es, Ep in *. destruct (w_star st) as [[sp b]|]; simpl in *; lia. }
  destruct (a =? c_star) eqn:Ea.
  { pose proof (skip_stars_len p1) as Hk. destruct (skip_stars p1) as [|a2 p2]; intros [= <-].
    unfold wbound, wmeasure in *. rewrite Es, Ep in *. cbn [w_s w_p w_star].
    destruct Hb as [[Hs Hp] Hb]. split; [simpl in *; lia|].
    destruct (w_star st) as [[sp b]|]; apply lex_star_decr; simpl in *; lia. }
  destruct (a =? c_quest); [by apply Hadv|].
  destruct (a =? c_lbrk).
  { pose proof (char_class_pos c p1) as [_ Hl].
    destruct (char_class c p1) as [[] p2]; [by apply Hadv|]. intros; by apply HB. }
  destruct (a =? c); [by apply Hadv|]. intros; by apply HB.
Qed.

Lemma wloop_ok N M : forall n st,
  winv st -> wbound N M st -> (wmeasure N M st < n)%nat ->
  exists b, wloop n st = Some b /\ (b = true <-> wsem st).
Proof.
  induction n as [|n IH]; intros st Hi Hb Hn; [lia|]. simpl.
  pose proof (wstep_ok st Hi) as Hok. destruct (wstep st) as [st'|b] eqn:E; simpl in Hok.
  - destruct Hok as [Hi' Hs]. destruct (wstep_decr N M st st' Hb E) as [Hb' Hlt].
    destruct (IH st' Hi' Hb') as (b & -> & Hbb); [lia|]. exists b. by rewrite Hbb.
  - by exists b.
Qed.

Lemma wildcard_match_spec s p :
  exists b, wildcard_match (Some s) (Some p) = Some b /\ (b = true <-> matches (parse p) s).
Proof.
  unfold wildcard_match.
  destruct (wloop_ok (length s) (length p) (wfuel s p) (mkW s p None)) as (b & E & H); try done.
  - unfold wmeasure, wfuel. simpl. nia.
  - exists b. split; [done|]. rewrite H. unfold wsem. simpl. tauto.
Qed.

(** C10: [wildcard_match] terminates on every subject and pattern, and answers
    1 exactly when the pattern matches: the greedy loop with one backtrack point
    decides the declarative semantics, in which a star stands for any string and
    every other item for one character. *)
Theorem wildcard_match_correct (s p : list Z) :
  (wildcard_match (Some s) (Some p) = Some true <-> matches (parse p) s) /\
  (wildcard_match (Some s) (Some p) = Some false <-> ~ matches (parse p) s).
Proof.
  destruct (wildcard_match_spec s p) as (b & -> & H).
  destruct b; split; split; try done; intros E.
  - by apply H.
  - exfalso. by apply E, H.
  - by apply H in E.
  - intros Hm. by apply H in Hm.
Qed.

End Wildcard.
