(* ===== verification/MinHeap.v ===== *)
(** * MinHeap: the binary heap of include/linux/min_heap.h

    [order.c] sorts the events of all ring buffers with this heap.  The C code
    works on byte offsets (an index scaled by the element size) and computes the
    parent of an offset without a division; the section [Off] is that code, with
    [size_t] arithmetic.  The section [Idx] is the same algorithm on indexes
    (prefix [i_]); the two are proved equal, and the heap theorems are proved on
    indexes and transferred.

    The comparison callback is abstract: the class [StrictWeak] is what the heap
    asks of [less]. *)

From S2P Require Import Prelude.

Class StrictWeak {A : Type} (less : A -> A -> bool) : Prop := {
  less_irrefl : forall x, less x x = false;
  less_trans : forall x y z, less x y = true -> less y z = true -> less x z = true;
  less_neg_trans : forall x y z, less x y = false -> less y z = false -> less x z = false;
}.

(** [struct min_heap]: [nr] elements are in use, [size] is the capacity. *)
Record min_heap (A : Type) := mkHeap { hp_nr : nat; hp_size : nat; hp_data : list A }.
Arguments mkHeap {A}.
Arguments hp_nr {A}.
Arguments hp_size {A}.
Arguments hp_data {A}.

Module MinHeap.

Section Off.
Context {A : Type} (less : A -> A -> bool) (es : Z).

(** [parent (i, lsbit, size)]: all of it on [size_t]. *)
Definition parent (i lsbit size : Z) : Z :=
  let i := u64 (i - size) in
  let i := u64 (i - Z.land size (u64 (- Z.land i lsbit))) in
  i / 2.

(** [elem_size & -elem_size] *)
Definition lsbit : Z := Z.land es (u64 (- es)).

(** [data + off] *)
Definition at_off (d : list A) (off : Z) : option A := d !! Z.to_nat (off / es).

Definition less_at (d : list A) (x y : Z) : bool :=
  match at_off d x, at_off d y with
  | Some a, Some b => less a b
  | _, _ => false
  end.

(** [do_swap] with the callback [swp] *)
Definition do_swap (d : list A) (x y : Z) : list A :=
  match at_off d x, at_off d y with
  | Some a, Some b => <[Z.to_nat (y / es) := a]> (<[Z.to_nat (x / es) := b]> d)
  | _, _ => d
  end.

(** The three loops of [__min_heap_sift_down_inline]. *)
Fixpoint sd_descend (fuel : nat) (d : list A) (n b : Z) : Z :=
  let c := u64 (2 * b + es) in
  let dd := u64 (c + es) in
  match fuel with
  | S fuel =>
      if dd <? n then sd_descend fuel d n (if less_at d c dd then c else dd)
      else if dd =? n then c else b
  | O => b
  end.

Fixpoint sd_backtrack (fuel : nat) (d : list A) (a b : Z) : Z :=
  match fuel with
  | S fuel =>
      if negb (b =? a) && less_at d a b then sd_backtrack fuel d a (parent b lsbit es) else b
  | O => b
  end.

Fixpoint sd_shift (fuel : nat) (d : list A) (a c b : Z) : list A :=
  match fuel with
  | S fuel =>
      if b =? a then d
      else let b := parent b lsbit es in sd_shift fuel (do_swap d b c) a c b
  | O => d
  end.

Definition min_heap_sift_down (h : min_heap A) (pos : nat) : min_heap A :=
  let a := u64 (Z.of_nat pos * es) in
  let n := u64 (Z.of_nat (hp_nr h) * es) in
  let fuel := S (hp_nr h) in
  let b := sd_descend fuel (hp_data h) n a in
  let b := sd_backtrack fuel (hp_data h) a b in
  mkHeap (hp_nr h) (hp_size h) (sd_shift fuel (hp_data h) a b b).

(** [__min_heapify_all_inline]: [for (i = heap->nr / 2 - 1; i >= 0; i--)] *)
Fixpoint heapify_from (k : nat) (h : min_heap A) : min_heap A :=
  match k with
  | O => h
  | S i => heapify_from i (min_heap_sift_down h i)
  end.

Definition min_heapify_all (h : min_heap A) : min_heap A := heapify_from (hp_nr h / 2) h.

Definition min_heap_peek (h : min_heap A) : option A :=
  match hp_nr h with O => None | S _ => hp_data h !! O end.

(** [__min_heap_pop_inline]; [false] and the heap unchanged when it is empty. *)
Definition min_heap_pop (h : min_heap A) : min_heap A * bool :=
  match hp_nr h with
  | O => (h, false)
  | S nr =>
      let data := match hp_data h !! nr with
                  | Some x => <[O := x]> (hp_data h)
                  | None => hp_data h
                  end in
      (min_heap_sift_down (mkHeap nr (hp_size h) data) 0, true)
  end.
End Off.

Section Idx.
Context {A : Type} (less : A -> A -> bool).

Definition i_parent (i : nat) : nat := ((i - 1) / 2)%nat.

Definition i_less (d : list A) (x y : nat) : bool :=
  match d !! x, d !! y with
  | Some a, Some b => less a b
  | _, _ => false
  end.

Definition i_swap (d : list A) (x y : nat) : list A :=
  match d !! x, d !! y with
  | Some a, Some b => <[y := a]> (<[x := b]> d)
  | _, _ => d
  end.

Fixpoint i_descend (fuel : nat) (d : list A) (n b : nat) : nat :=
  let c := (2 * b + 1)%nat in
  match fuel with
  | S fuel =>
      if (S c <? n)%nat then i_descend fuel d n (if i_less d c (S c) then c else S c)
      else if (S c =? n)%nat then c else b
  | O => b
  end.

Fixpoint i_backtrack (fuel : nat) (d : list A) (a b : nat) : nat :=
  match fuel with
  | S fuel =>
      if negb (b =? a)%nat && i_less d a b then i_backtrack fuel d a (i_parent b) else b
  | O => b
  end.

Fixpoint i_shift (fuel : nat) (d : list A) (a c b : nat) : list A :=
  match fuel with
  | S fuel => if (b =? a)%nat then d else i_shift fuel (i_swap d (i_parent b) c) a c (i_parent b)
  | O => d
  end.

Definition i_sift_down (nr : nat) (d : list A) (a : nat) : list A :=
  let b := i_backtrack (S nr) d a (i_descend (S nr) d nr a) in
  i_shift (S nr) d a b b.

Fixpoint i_heapify_from (nr k : nat) (d : list A) : list A :=
  match k with
  | O => d
  | S i => i_heapify_from nr i (i_sift_down nr d i)
  end.
End Idx.

(** ** Ancestors *)

Inductive anc (a : nat) : nat -> Prop :=
| anc_refl : anc a a
| anc_step b : (a < b)%nat -> anc a (i_parent b) -> anc a b.

Create HintDb heap.
#[export] Hint Constructors anc : heap.

Ltac par := unfold i_parent in *;
  repeat match goal with
    | |- context [((?x - 1) / 2)%nat] => pose proof (Nat.div_mod_eq (x - 1) 2);
        pose proof (Nat.mod_upper_bound (x - 1) 2); generalize dependent ((x - 1) / 2)%nat; intros
    | H : context [((?x - 1) / 2)%nat] |- _ => pose proof (Nat.div_mod_eq (x - 1) 2);
        pose proof (Nat.mod_upper_bound (x - 1) 2); generalize dependent ((x - 1) / 2)%nat; intros
    end; lia.

Lemma parent_lt b : (0 < b)%nat -> (i_parent b < b)%nat.
Proof. intros. par. Qed.

Lemma parent_cases b c : (0 < c)%nat -> i_parent c = b -> c = (2 * b + 1)%nat \/ c = (2 * b + 2)%nat.
Proof. intros. par. Qed.

Lemma parent_left b : i_parent (2 * b + 1) = b.
Proof. par. Qed.

Lemma parent_right b : i_parent (S (2 * b + 1)) = b.
Proof. par. Qed.

Lemma anc_le a b : anc a b -> (a <= b)%nat.
Proof. induction 1 as [|b Hab H IH]; [lia|]. pose proof (parent_lt b). lia. Qed.

Lemma anc_inv a b : anc a b -> a <> b -> (a < b)%nat /\ anc a (i_parent b).
Proof. inversion 1; subst; [done|auto]. Qed.

Lemma anc_trans a b c : anc a b -> anc b c -> anc a c.
Proof.
  intros Hab. induction 1 as [|c Hbc H IH]; [done|]. apply anc_le in Hab. constructor; [lia|done].
Qed.

Lemma anc_child a b c : anc a b -> i_parent c = b -> (0 < c)%nat -> anc a c.
Proof.
  intros H <- Hc. apply anc_trans with (i_parent c); [done|].
  constructor; [by apply parent_lt|constructor].
Qed.

(** Two ancestors of the same node: the path is a chain. *)
Lemma anc_linear a b c : anc a c -> anc b c -> (a <= b)%nat -> anc a b.
Proof.
  intros Ha. revert b. induction Ha as [|c Hac Ha IH]; intros b Hb Hab.
  - apply anc_le in Hb. replace b with a by lia. constructor.
  - destruct (decide (b = c)) as [->|Hne]; [by constructor|].
    apply anc_inv in Hb as [_ Hb]; [|done]. auto.
Qed.

Lemma anc_dec a b : anc a b \/ ~ anc a b.
Proof.
  induction (Nat.lt_wf_0 b) as [b _ IH]. destruct (decide (a < b)%nat) as [Hlt|Hge].
  - destruct (IH (i_parent b)) as [H|H]; [apply parent_lt; lia|left; by constructor|].
    right. intros Hab. apply anc_inv in Hab as [_ ?]; [done|lia].
  - destruct (decide (a = b)) as [->|]; [left; constructor|].
    right. intros H%anc_le. lia.
Qed.

(** The next node after [c] on the path from [a] down to [r]. *)
Lemma anc_below a c r : anc a c -> anc c r -> (c < r)%nat ->
  exists k, i_parent k = c /\ (c < k)%nat /\ anc a k /\ anc k r.
Proof.
  intros Hac Hcr. induction Hcr as [|r Hcr H IH]; intros Hlt; [lia|].
  destruct (decide (c = i_parent r)) as [->|Hne].
  - exists r. split_and!; [done|done| |constructor].
    by apply anc_child with (i_parent r); [|..|lia].
  - destruct IH as (k & H1 & H2 & H3 & H4); [apply anc_le in H; lia|].
    exists k. split_and!; try done. apply anc_child with (i_parent r); [done|done|lia].
Qed.

(** ** Swapping along a path *)

Section Shift.
Context {A : Type}.
Implicit Types d g : list A.

Lemma swap_lookup d x y i : x <> y -> (x < length d)%nat -> (y < length d)%nat ->
  i_swap d x y !! i = if decide (i = x) then d !! y else if decide (i = y) then d !! x else d !! i.
Proof.
  intros Hne Hx Hy. unfold i_swap.
  destruct (lookup_lt_is_Some_2 d x Hx) as [a Ha], (lookup_lt_is_Some_2 d y Hy) as [b Hb].
  rewrite Ha, Hb. destruct (decide (i = y)) as [->|].
  - rewrite decide_False by done. rewrite list_lookup_insert_eq; [done|].
    by rewrite length_insert.
  - rewrite list_lookup_insert_ne by done. case_decide; subst.
    + by rewrite list_lookup_insert_eq.
    + by rewrite list_lookup_insert_ne.
Qed.

Lemma swap_length d x y : length (i_swap d x y) = length d.
Proof. unfold i_swap. repeat case_match; by rewrite ?length_insert. Qed.

Lemma swap_perm d x y : i_swap d x y ≡ₚ d.
Proof.
  unfold i_swap. repeat case_match; try done. by apply Permutation_insert_swap.
Qed.

Lemma shift_length fuel : forall d a c b, length (i_shift fuel d a c b) = length d.
Proof.
  induction fuel as [|fuel IH]; intros d a c b; simpl; [done|].
  case_match; [done|]. by rewrite IH, swap_length.
Qed.

Lemma shift_perm fuel : forall d a c b, i_shift fuel d a c b ≡ₚ d.
Proof.
  induction fuel as [|fuel IH]; intros d a c b; simpl; [done|].
  case_match; [done|]. by rewrite IH, swap_perm.
Qed.

(** What the last loop does: along the path from [a] down to [b] every element
    moves to its parent, and the element of [a] ends in [c]. *)
Lemma shift_spec a c : forall fuel b g,
  (b < fuel)%nat -> anc a b -> (b <= c)%nat -> (c < length g)%nat ->
  let g' := i_shift fuel g a c b in
  (b <> a -> g' !! c = g !! a) /\
  (b <> a -> g' !! (i_parent b) = g !! c) /\
  (forall i, anc a i -> i <> a -> anc i b -> i <> b -> g' !! (i_parent i) = g !! i) /\
  (forall i, i <> c -> ~ (anc a i /\ anc i b /\ i <> b) -> g' !! i = g !! i) /\
  (b = a -> g' = g).
Proof.
  induction fuel as [|fuel IH]; intros b g Hf Ha Hbc Hlen; [lia|]. cbn [i_shift].
  destruct (Nat.eqb_spec b a) as [->|Hne]; simpl.
  { split_and!; try done. intros i H1 H2 H3 _. apply anc_le in H1, H3. exfalso. lia. }
  apply anc_inv in Ha as [Hab Ha]; [|done].
  pose proof (parent_lt b ltac:(lia)) as Hp. remember (i_parent b) as b' eqn:Eb'.
  assert (Hbb : anc b' b) by (constructor; [lia|rewrite <- Eb'; constructor]).
  assert (Hsw : forall i, i_swap g b' c !! i =
    if decide (i = b') then g !! c else if decide (i = c) then g !! b' else g !! i).
  { intros i. apply swap_lookup; lia. }
  destruct (IH b' (i_swap g b' c)) as (H1 & H2 & H3 & H4 & H5); try done; try lia.
  { by rewrite swap_length. }
  set (g' := i_shift fuel _ a c b') in *. clearbody g'.
  split_and!; try done.
  - intros _. destruct (decide (b' = a)) as [->|Hb'].
    + rewrite (H5 eq_refl), Hsw, decide_False, decide_True by lia. done.
    + rewrite (H1 Hb'), Hsw, !decide_False by (apply anc_le in Ha; lia). done.
  - intros _. destruct (decide (b' = a)) as [->|Hb'].
    + by rewrite (H5 eq_refl), Hsw, decide_True.
    + rewrite (H4 b'), Hsw, decide_True by (lia || by intros (_ & _ & []) || done). done.
  - intros i Hai Hia Hib Hne'. pose proof (anc_le _ _ Hib).
    apply anc_inv in Hib as [_ Hib]; [|done]. rewrite <- Eb' in Hib.
    destruct (decide (i = b')) as [->|Hib'].
    + rewrite (H2 Hia), Hsw, decide_False, decide_True by lia. done.
    + rewrite (H3 i), Hsw, !decide_False by (done || lia). done.
  - intros i Hic Hn.
    assert (i <> b') by (intros ->; apply Hn; split_and!; [done|done|lia]).
    rewrite (H4 i), Hsw, !decide_False; try done.
    intros (Ha1 & Ha2 & Ha3). apply Hn. pose proof (anc_le _ _ Ha2).
    split_and!; [done|by eapply anc_trans|lia].
Qed.

End Shift.

(** ** Heap order *)

Section Order.
Context {A : Type} (less : A -> A -> bool) `{!StrictWeak less}.
Implicit Types d : list A.

(** Node [i] is not above any of its children. *)
Definition hok d (n i : nat) : Prop := forall c x y,
  i_parent c = i -> (0 < c < n)%nat -> d !! i = Some x -> d !! c = Some y -> less y x = false.

(** A heap from node [lo] on; [is_heap] is the whole heap. *)
Definition heap_from d (n lo : nat) : Prop := forall i, (lo <= i)%nat -> hok d n i.
Definition is_heap d (n : nat) : Prop := heap_from d n 0.

Lemma less_asym x y : less x y = true -> less y x = false.
Proof using StrictWeak0.
  intros H. destruct (less y x) eqn:E; [|done].
  pose proof (less_trans _ _ _ H E). by rewrite less_irrefl in H0.
Qed.

(** [y] is not below a sibling of the path node [x], and [a < x]. *)
Lemma less_le_trans a x y : less a x = true -> less y x = false -> less y a = false.
Proof using StrictWeak0.
  intros H1 H2. destruct (less y a) eqn:E; [|done].
  by rewrite (less_trans _ _ _ E H1) in H2.
Qed.

(** [i] is a least child of its parent. *)
Definition min_child d (n i : nat) : Prop := forall sb x y,
  i_parent sb = i_parent i -> (0 < sb < n)%nat -> d !! i = Some x -> d !! sb = Some y ->
  less y x = false.

Lemma descend_spec d n : forall fuel b,
  (b < n)%nat -> (n <= b + fuel)%nat -> (n <= length d)%nat ->
  let L := i_descend less fuel d n b in
  anc b L /\ (L < n)%nat /\
  (forall c, i_parent c = L -> (0 < c)%nat -> (n <= c)%nat) /\
  (forall i, anc b i -> i <> b -> anc i L -> min_child d n i).
Proof using StrictWeak0.
  induction fuel as [|fuel IH]; intros b Hb Hf Hlen; [lia|]. cbn [i_descend].
  assert (Hkids : forall c, i_parent c = b -> (0 < c)%nat -> c = (2 * b + 1)%nat \/ c = S (2 * b + 1)).
  { intros c Hc Hc0. destruct (parent_cases b c Hc0 Hc); lia. }
  destruct (Nat.ltb_spec (S (2 * b + 1)) n) as [Hlt|Hge].
  - set (c := if i_less less d _ _ then _ else _).
    assert (Hc : (0 < c < n)%nat /\ i_parent c = b /\ min_child d n c).
    { subst c. unfold i_less.
      destruct (lookup_lt_is_Some_2 d (2 * b + 1)) as [xl Hl]; [lia|].
      destruct (lookup_lt_is_Some_2 d (S (2 * b + 1))) as [xr Hr]; [lia|]. rewrite Hl, Hr.
      destruct (less xl xr) eqn:E; (split_and!; [lia|lia|apply parent_left || apply parent_right|]);
        intros sb x y Hsb Hsb0 Hx Hy; rewrite ?parent_left, ?parent_right in Hsb;
        destruct (Hkids sb Hsb) as [-> | ->]; try lia; simplify_eq;
        auto using less_irrefl, less_asym. }
    destruct Hc as (Hcn & Hcp & Hmin). clearbody c.
    destruct (IH c) as (H1 & H2 & H3 & H4); [lia|..|lia|]; [|].
    { pose proof (parent_lt c). lia. }
    assert (Hbc : anc b c) by (constructor; [pose proof (parent_lt c); lia|rewrite Hcp; constructor]).
    split_and!; [by eapply anc_trans|done|done|].
    intros i Hi Hib HiL. destruct (decide (i = c)) as [->|Hic]; [done|].
    apply H4; try done. apply (anc_linear c i _ H1 HiL).
    destruct (decide (c <= i)%nat) as [|Hn]; [done|]. exfalso.
    pose proof (anc_linear i c _ HiL H1 ltac:(lia)) as Hic'.
    apply anc_inv in Hic' as [_ Hic']; [|done]. rewrite Hcp in Hic'.
    apply anc_le in Hic', Hi. lia.
  - destruct (Nat.eqb_spec (S (2 * b + 1)) n) as [Heq|Hne].
    + set (c := (2 * b + 1)%nat).
      assert (Hbc : anc b c) by (constructor; [lia|unfold c; rewrite parent_left; constructor]).
      split_and!; [done|lia| |].
      * intros c' Hc' Hc0. destruct (parent_cases c c' Hc0 Hc'); lia.
      * intros i Hi Hib HiL. assert (i = c) as ->.
        { destruct (decide (i = c)) as [|Hic]; [done|]. exfalso.
          apply anc_inv in HiL as [_ HiL]; [|done]. unfold c in HiL. rewrite parent_left in HiL.
          apply anc_le in HiL, Hi. lia. }
        intros sb x y Hsb Hsb0 Hx Hy. unfold c in Hsb. rewrite parent_left in Hsb.
        destruct (Hkids sb Hsb) as [-> | ->]; try lia. fold c in Hy. simplify_eq. apply less_irrefl.
    + split_and!; [constructor|done| |].
      * intros c Hc Hc0. destruct (Hkids c Hc Hc0); lia.
      * intros i Hi Hib HiL. apply anc_le in Hi, HiL. lia.
Qed.

Lemma backtrack_spec d n a L : (a < length d)%nat ->
  (forall i, anc a i -> i <> a -> anc i L -> min_child d n i) ->
  forall fuel b, (b < fuel)%nat -> (b < length d)%nat -> anc a b -> anc b L ->
  (forall c x y, i_parent c = b -> (0 < c < n)%nat -> d !! a = Some x -> d !! c = Some y ->
                 less y x = false) ->
  let r := i_backtrack less fuel d a b in
  anc a r /\ anc r L /\ (r <= b)%nat /\
  (r <> a -> forall x y, d !! a = Some x -> d !! r = Some y -> less x y = false) /\
  (forall c x y, i_parent c = r -> (0 < c < n)%nat -> d !! a = Some x -> d !! c = Some y ->
                 less y x = false).
Proof using StrictWeak0.
  intros Hla Hmin. induction fuel as [|fuel IH]; intros b Hf Hlb Hab HbL Hkids; [lia|].
  cbn [i_backtrack].
  destruct (negb (b =? a)%nat && i_less less d a b) eqn:E.
  - apply andb_true_iff in E as [E1 E2]. apply negb_true_iff, Nat.eqb_neq in E1.
    unfold i_less in E2. destruct (lookup_lt_is_Some_2 d a Hla) as [xa Ha].
    destruct (lookup_lt_is_Some_2 d b Hlb) as [xb Hb]. rewrite Ha, Hb in E2.
    pose proof (Hmin b Hab E1 HbL) as Hm.
    pose proof (anc_inv _ _ Hab ltac:(done)) as [Hlt Hap]. pose proof (parent_lt b ltac:(lia)).
    assert (Hpb : anc (i_parent b) b) by (constructor; [lia|constructor]).
    destruct (IH (i_parent b)) as (H1 & H2 & H3 & H4 & H5); try done; try lia.
    + by eapply anc_trans.
    + intros c x y Hc Hcn Hx Hy. rewrite Ha in Hx. injection Hx as <-.
      eapply less_le_trans; [exact E2|]. by eapply Hm.
    + split_and!; try done. lia.
  - split_and!; try done. intros Hr x y Hx Hy.
    apply Nat.eqb_neq in Hr. rewrite Hr in E. simpl in E. unfold i_less in E. by rewrite Hx, Hy in E.
Qed.

(** The rotation along the path [a .. r] restores the order at and below [a]. *)
Lemma rotate_heap d d' n a r :
  (n <= length d)%nat -> length d' = length d -> (r < n)%nat -> anc a r ->
  heap_from d n (S a) ->
  (forall i, anc a i -> i <> a -> anc i r -> min_child d n i) ->
  (r <> a -> forall x y, d !! a = Some x -> d !! r = Some y -> less x y = false) ->
  (forall c x y, i_parent c = r -> (0 < c < n)%nat -> d !! a = Some x -> d !! c = Some y ->
                 less y x = false) ->
  d' !! r = d !! a ->
  (forall i, anc a i -> i <> a -> anc i r -> d' !! (i_parent i) = d !! i) ->
  (forall i, ~ (anc a i /\ anc i r) -> d' !! i = d !! i) ->
  heap_from d' n a.
Proof.
  intros Hlen Hlen' Hr Har Hheap Hmin Hstop Hbelow Rr Rpath Roff i Hai c x y Hc Hcn Hx Hy.
  assert (Hic : (i < c)%nat) by (subst i; apply parent_lt; lia).
  assert (Hdec : (anc a c /\ anc c r) \/ d' !! c = d !! c).
  { destruct (decide (c <= r)%nat) as [Hle|]; [|right; apply Roff; intros [_ ?%anc_le]; lia].
    destruct (anc_dec a c) as [|Hn]; [|right; apply Roff; tauto].
    destruct (anc_dec c r) as [|Hn]; [|right; apply Roff; tauto]. auto. }
  destruct Hdec as [[Hac Hcr]|Hcoff].
  - (* the child is on the path: the parent now holds its old element *)
    pose proof (anc_le _ _ Hac). pose proof (anc_le _ _ Hcr). assert (c <> a) by lia.
    pose proof (Rpath c Hac ltac:(done) Hcr) as Hpc. rewrite Hc, Hx in Hpc. symmetry in Hpc.
    destruct (decide (c = r)) as [->|Hne].
    + rewrite Rr in Hy. by eapply Hstop.
    + destruct (anc_below a c r) as (k & Hk & Hck & Hak & Hkr); try done; [lia|].
      assert (k <> a) by (intros ->; apply anc_le in Hac; pose proof (parent_lt a); lia).
      rewrite <- Hk, (Rpath k Hak ltac:(done) Hkr) in Hy.
      eapply (Hheap c); [lia| |..|done|done]; [done|].
      apply anc_le in Hkr. pose proof (parent_lt k). lia.
  - rewrite Hcoff in Hy. destruct (anc_dec i r) as [Hir|Hnir].
    + (* the parent is on the path, the child is not *)
      pose proof (anc_linear a i r Har Hir Hai) as Hai'.
      destruct (decide (i = r)) as [->|Hne].
      * rewrite Rr in Hx. by eapply Hbelow.
      * destruct (anc_below a i r) as (k & Hk & Hik & Hak & Hkr); try done; [pose proof (anc_le _ _ Hir); lia|].
        assert (k <> a) by (intros ->; pose proof (parent_lt a); lia).
        rewrite <- Hk, (Rpath k Hak ltac:(done) Hkr) in Hx.
        apply (Hmin k Hak ltac:(done) Hkr c x y); [by rewrite Hk|done..].
    + rewrite Roff in Hx by tauto. destruct (decide (i = a)) as [->|].
      { by destruct Hnir. }
      eapply (Hheap i); try done. lia.
Qed.

Lemma sift_down_heap d n a :
  (n <= length d)%nat -> (a < n)%nat -> heap_from d n (S a) ->
  heap_from (i_sift_down less n d a) n a.
Proof using StrictWeak0.
  intros Hlen Ha Hheap. unfold i_sift_down.
  destruct (descend_spec d n (S n) a) as (HL1 & HL2 & HL3 & HL4); [lia..|].
  set (L := i_descend less (S n) d n a) in *. clearbody L.
  destruct (backtrack_spec d n a L) with (fuel := S n) (b := L) as (Hr1 & Hr2 & Hr3 & Hr4 & Hr5);
    try done; try lia; try constructor.
  { intros c x y Hc Hcn. specialize (HL3 c Hc). lia. }
  set (r := i_backtrack less (S n) d a L) in *. clearbody r.
  destruct (shift_spec a r (S n) r d) as (S1 & S2 & S3 & S4 & S5); try done; try lia.
  set (d' := i_shift (S n) d a r r) in *.
  assert (length d' = length d) by apply shift_length. clearbody d'.
  apply (rotate_heap d d' n a r); try done; try lia.
  - intros i H1 H2 H3. apply HL4; try done. by eapply anc_trans.
  - destruct (decide (r = a)) as [->|]; [|auto]. by rewrite S5.
  - intros i H1 H2 H3. destruct (decide (i = r)) as [->|]; [|auto]. auto.
  - intros i Hn. destruct (decide (r = a)) as [->|].
    + by rewrite S5.
    + apply S4; [|tauto]. intros ->. apply Hn. split; [done|constructor].
Qed.

Lemma sift_down_length d n a : length (i_sift_down less n d a) = length d.
Proof. apply shift_length. Qed.

Lemma sift_down_perm d n a : i_sift_down less n d a ≡ₚ d.
Proof. apply shift_perm. Qed.

(** Nodes from [nr / 2] on have no children. *)
Lemma leaves_heap d n k : (n / 2 <= k)%nat -> heap_from d n k.
Proof.
  intros Hk i Hi c x y Hc Hcn. exfalso. pose proof (Nat.div_mod_eq n 2).
  pose proof (Nat.mod_upper_bound n 2). destruct (parent_cases i c); lia.
Qed.

Lemma heapify_from_spec n : forall k d, (n <= length d)%nat -> (k <= n)%nat ->
  heap_from d n k ->
  is_heap (i_heapify_from less n k d) n /\ i_heapify_from less n k d ≡ₚ d.
Proof using StrictWeak0.
  induction k as [|k IH]; intros d Hlen Hk Hheap; simpl; [done|].
  destruct (IH (i_sift_down less n d k)) as [H1 H2].
  - by rewrite sift_down_length.
  - lia.
  - by apply sift_down_heap.
  - split; [done|]. by rewrite H2, sift_down_perm.
Qed.

(** The root of a heap is a least element. *)
Lemma heap_root_min d n : is_heap d n -> (n <= length d)%nat -> forall i x y,
  (i < n)%nat -> d !! O = Some x -> d !! i = Some y -> less y x = false.
Proof using StrictWeak0.
  intros Hh Hlen i. induction (Nat.lt_wf_0 i) as [i _ IH]. intros x y Hi Hx Hy.
  destruct (decide (i = O)) as [->|Hne]; [simplify_eq; apply less_irrefl|].
  pose proof (parent_lt i ltac:(lia)) as Hp.
  destruct (lookup_lt_is_Some_2 d (i_parent i)) as [z Hz]; [lia|].
  apply less_neg_trans with z; [|by eapply IH; eauto; lia].
  eapply (Hh (i_parent i)); eauto; lia.
Qed.

End Order.

(** ** Byte offsets *)

(** Every positive size is a power of two times an odd number. *)
Lemma odd_part es : 0 < es -> exists k q, 0 <= k /\ 0 <= q /\ es = 2 ^ k * (2 * q + 1).
Proof.
  assert (Hind : forall e, 0 <= e -> 0 < e -> exists k q, 0 <= k /\ 0 <= q /\ e = 2 ^ k * (2 * q + 1)).
  2:{ intros. apply Hind; lia. }
  clear es. apply (Z_lt_induction (fun e => 0 < e -> _)). intros es IH Hes.
  destruct (Z.Even_or_Odd es) as [[m ->]|[m ->]].
  - destruct (IH m) as (k & q & Hk & Hq & E); [lia..|].
    exists (k + 1), q. rewrite Z.pow_add_r by lia. lia.
  - exists 0, m. lia.
Qed.

Lemma land_pow2 x k : 0 <= k -> Z.land x (2 ^ k) = if Z.testbit x k then 2 ^ k else 0.
Proof.
  intros Hk. apply Z.bits_inj'. intros n Hn. rewrite Z.land_spec, Z.pow2_bits_eqb by lia.
  destruct (Z.eqb_spec k n) as [->|Hne].
  - rewrite andb_true_r. destruct (Z.testbit x n); [by rewrite Z.pow2_bits_true|by rewrite Z.bits_0].
  - rewrite andb_false_r. destruct (Z.testbit x k); [|by rewrite Z.bits_0].
    by rewrite Z.pow2_bits_false.
Qed.

Lemma land_neg_odd q m : 0 <= q -> 0 < m -> 2 * q + 1 < 2 ^ m ->
  Z.land (2 * q + 1) (2 ^ m - (2 * q + 1)) = 1.
Proof.
  intros Hq Hm Hlt.
  assert (E : 2 ^ m - (2 * q + 1) = Z.ldiff (Z.ones m) (2 * q)).
  { rewrite Z.ones_equiv. rewrite <- Z.sub_nocarry_ldiff; [unfold Z.pred; lia|].
    apply Z.bits_inj'. intros n Hn. rewrite Z.bits_0, Z.ldiff_spec.
    destruct (Z.ltb_spec n m).
    - replace (Z.pred (2 ^ m)) with (Z.ones m) by apply Z.ones_equiv.
      rewrite Z.ones_spec_low by lia. apply andb_false_r.
    - rewrite (Z.bits_above_log2 (2 * q)); [done|lia|].
      destruct (decide (q = 0)) as [->|]; [simpl; lia|].
      apply Z.log2_lt_pow2; [lia|]. apply Z.lt_le_trans with (2 ^ m); [lia|].
      by apply Z.pow_le_mono_r. }
  rewrite E. apply Z.bits_inj'. intros n Hn. rewrite Z.land_spec, Z.ldiff_spec.
  destruct (decide (n = 0)) as [->|].
  - rewrite Z.testbit_odd_0, Z.testbit_even_0, Z.ones_spec_low by lia. done.
  - replace n with (Z.succ (n - 1)) by lia.
    rewrite Z.testbit_odd_succ, Z.testbit_even_succ by lia.
    change 1 with (2 * 0 + 1) at 4. rewrite Z.testbit_odd_succ, Z.bits_0 by lia.
    by destruct (Z.testbit q (n - 1)); rewrite ?andb_false_r.
Qed.

Lemma lsbit_pow2 es k q : 0 <= k -> 0 <= q -> es = 2 ^ k * (2 * q + 1) -> es < 2 ^ 63 ->
  k < 63 /\ lsbit es = 2 ^ k.
Proof.
  intros Hk Hq E Hlt. assert (Hk63 : k < 63).
  { apply (Z.pow_lt_mono_r_iff 2); [lia..|]. nia. }
  split; [done|]. unfold lsbit, uwrap.
  assert (Hes : 0 < es) by (pose proof (Z.pow_pos_nonneg 2 k); nia).
  rewrite Z.mod_opp_l_nz, Z.mod_small by (rewrite ?Z.mod_small; lia).
  replace (2 ^ 64) with (2 ^ k * 2 ^ (64 - k)) by (rewrite <- Z.pow_add_r by lia; f_equal; lia).
  rewrite E, <- Z.mul_sub_distr_l, !(Z.mul_comm (2 ^ k)), <- !Z.shiftl_mul_pow2, <- Z.shiftl_land by lia.
  rewrite land_neg_odd; [rewrite Z.shiftl_mul_pow2; lia|lia|lia|].
  assert (2 ^ 64 = 2 ^ k * 2 ^ (64 - k)) by (rewrite <- Z.pow_add_r by lia; f_equal; lia).
  pose proof (Z.pow_pos_nonneg 2 k). nia.
Qed.

Lemma land_size_mask es k q : 0 <= k < 63 -> 0 <= q -> es = 2 ^ k * (2 * q + 1) -> es < 2 ^ 63 ->
  Z.land es (u64 (- 2 ^ k)) = es.
Proof.
  intros Hk Hq E Hlt. unfold uwrap.
  assert (0 < 2 ^ k < 2 ^ 64) by (split; [apply Z.pow_pos_nonneg; lia|apply Z.pow_lt_mono_r; lia]).
  rewrite Z.mod_opp_l_nz, Z.mod_small by (rewrite ?Z.mod_small; lia).
  replace (2 ^ 64 - 2 ^ k) with (Z.shiftl (Z.ones (64 - k)) k).
  2:{ rewrite Z.shiftl_mul_pow2, Z.ones_equiv by lia.
      assert (2 ^ 64 = 2 ^ (64 - k) * 2 ^ k) by (rewrite <- Z.pow_add_r by lia; f_equal; lia).
      unfold Z.pred. lia. }
  apply Z.bits_inj'. intros n Hn. rewrite Z.land_spec, Z.shiftl_spec by lia.
  destruct (decide (n < k)).
  - rewrite E, Z.mul_comm, Z.mul_pow2_bits_low by lia. done.
  - destruct (decide (n < 64)).
    + rewrite Z.ones_spec_low by lia. apply andb_true_r.
    + rewrite Z.ones_spec_high, andb_false_r by lia. symmetry.
      apply Z.bits_above_log2; [nia|]. apply Z.log2_lt_pow2; [nia|].
      apply Z.lt_trans with (2 ^ 63); [done|]. apply Z.pow_lt_mono_r; lia.
Qed.

Lemma parent_off (es j : Z) (Hes : 0 < es < 2 ^ 63) (Hj : 0 < j)
    (Hov : j * es < 2 ^ 64) :
  parent (j * es) (lsbit es) es = ((j - 1) / 2) * es.
Proof.
  destruct (odd_part es) as (k & q & Hk & Hq & E); [lia|].
  destruct (lsbit_pow2 es k q) as [Hk63 ->]; try done; [lia|].
  unfold parent. rewrite (uwrap_small 64 ltac:(lia) (j * es - es)) by (unfold in_u; nia).
  replace (j * es - es) with ((j - 1) * es) by lia.
  rewrite land_pow2 by lia.
  assert (Hbit : Z.testbit ((j - 1) * es) k = Z.odd (j - 1)).
  { rewrite E, Z.mul_assoc, (Z.mul_comm (j - 1)), <- Z.mul_assoc, Z.mul_comm.
    rewrite Z.mul_pow2_bits, Z.sub_diag, Z.bit0_odd, Z.odd_mul by lia.
    replace (Z.odd (2 * q + 1)) with true by (rewrite Z.odd_add_mul_2, Z.add_0_l || rewrite Z.add_comm, Z.odd_add_mul_2; done).
    apply andb_true_r. }
  rewrite Hbit. destruct (Z.odd (j - 1)) eqn:Eo.
  - rewrite (land_size_mask es k q) by (done || lia).
    apply Z.odd_spec in Eo as [m Em]. rewrite uwrap_small by (unfold in_u; first [nia | lia]).
    replace ((j - 1) * es - es) with (m * es * 2) by nia.
    rewrite Z.div_mul by lia. f_equal. rewrite Em. Z.div_mod_to_equations. lia.
  - rewrite Z.opp_0. change (u64 0) with 0. rewrite Z.land_0_r, Z.sub_0_r.
    assert (Ee : Z.Even (j - 1)) by (apply Z.even_spec; rewrite <- Z.negb_odd, Eo; done).
    destruct Ee as [m Em]. rewrite uwrap_small by (unfold in_u; first [nia | lia]).
    rewrite Em. replace (2 * m * es) with (m * es * 2) by lia.
    replace (2 * m) with (m * 2) by lia. by rewrite !Z.div_mul by lia.
Qed.


(** The branch-free [parent] on byte offsets is the parent of the binary
    heap, for every element size: it maps the offset of element [j] to the
    offset of element [(j - 1) / 2]. *)
Theorem parent_offset_correct (es j : Z) (Hes : 0 < es < 2 ^ 63) (Hj : 0 < j)
    (Hov : j * es < 2 ^ 64) :
  parent (j * es) (lsbit es) es = ((j - 1) / 2) * es.
Proof. by apply parent_off. Qed.

Lemma parent_offset_correct_witness : parent (5 * 24) (lsbit 24) 24 = ((5 - 1) / 2) * 24.
Proof. apply (parent_offset_correct 24 5); lia. Defined.

(** ** The byte-offset code is the index code *)

Section Refine.
Context {A : Type} (less : A -> A -> bool) `{!StrictWeak less}.
Context (es : Z) (Hes : 0 < es < 2 ^ 63).
Implicit Types d : list A.

Definition off (b : nat) : Z := Z.of_nat b * es.

Lemma at_off_off d b : at_off es d (off b) = d !! b.
Proof using Hes. unfold at_off, off. by rewrite Z.div_mul, Nat2Z.id by lia. Qed.

Lemma less_at_off d x y : less_at less es d (off x) (off y) = i_less less d x y.
Proof using Hes. unfold less_at, i_less. by rewrite !at_off_off. Qed.

Lemma do_swap_off d x y : do_swap es d (off x) (off y) = i_swap d x y.
Proof using Hes.
  unfold do_swap, i_swap. rewrite !at_off_off. unfold off. by rewrite !Z.div_mul, !Nat2Z.id by lia.
Qed.

Lemma off_eqb x y : (off x =? off y) = (x =? y)%nat.
Proof using Hes.
  unfold off. destruct (Nat.eqb_spec x y) as [->|]; [apply Z.eqb_refl|].
  apply Z.eqb_neq. nia.
Qed.

Lemma off_ltb x y : (off x <? off y) = (x <? y)%nat.
Proof using Hes.
  unfold off. destruct (Nat.ltb_spec x y); [apply Z.ltb_lt|apply Z.ltb_ge]; nia.
Qed.

Lemma parent_off_idx b : (0 < b)%nat -> off b < 2 ^ 64 ->
  parent (off b) (lsbit es) es = off (i_parent b).
Proof using Hes.
  intros Hb Hov. unfold off in *. rewrite parent_off by lia. f_equal.
  unfold i_parent. rewrite Nat2Z.inj_div, Nat2Z.inj_sub by lia. done.
Qed.

Context (n : nat) (Hn : (2 * Z.of_nat n + 2) * es < 2 ^ 64).

Lemma off_bound b : (b <= 2 * n + 2)%nat -> in_u 64 (off b).
Proof using Hes Hn. intros Hb. unfold in_u, off. nia. Qed.

Lemma descend_refine d : forall fuel b, (b <= n)%nat ->
  sd_descend less es fuel d (off n) (off b) = off (i_descend less fuel d n b).
Proof using Hes Hn.
  induction fuel as [|fuel IH]; intros b Hb; [done|]. cbn [sd_descend i_descend].
  assert (E1 : u64 (2 * off b + es) = off (2 * b + 1)).
  { rewrite uwrap_small; [unfold off; lia|lia|]. pose proof (off_bound (2 * b + 1)).
    replace (2 * off b + es) with (off (2 * b + 1)) by (unfold off; lia). apply H. lia. }
  assert (E2 : u64 (off (2 * b + 1) + es) = off (S (2 * b + 1))).
  { replace (off (2 * b + 1) + es) with (off (S (2 * b + 1))) by (unfold off; lia).
    apply uwrap_small; [lia|]. apply off_bound. lia. }
  rewrite E1, E2, less_at_off, off_ltb, off_eqb.
  destruct (Nat.ltb_spec (S (2 * b + 1)) n) as [Hlt|].
  - rewrite <- IH by (destruct (i_less _ _ _ _); lia). by destruct (i_less _ _ _ _).
  - by destruct (_ =? _)%nat.
Qed.

Lemma backtrack_refine d a : forall fuel b, (b <= n)%nat -> anc a b ->
  sd_backtrack less es fuel d (off a) (off b) = off (i_backtrack less fuel d a b).
Proof using Hes Hn.
  induction fuel as [|fuel IH]; intros b Hb Hab; simpl; [done|].
  rewrite off_eqb, less_at_off. destruct (Nat.eqb_spec b a) as [->|Hne]; simpl; [done|].
  destruct (i_less less d a b); [|done].
  apply anc_inv in Hab as [Hlt Hab]; [|done].
  rewrite parent_off_idx by (try apply off_bound; lia). apply IH; [|done].
  pose proof (parent_lt b). lia.
Qed.

Lemma shift_refine a c : forall fuel d b, (b <= n)%nat -> anc a b ->
  sd_shift es fuel d (off a) (off c) (off b) = i_shift fuel d a c b.
Proof using Hes Hn.
  induction fuel as [|fuel IH]; intros d b Hb Hab; simpl; [done|].
  rewrite off_eqb. destruct (Nat.eqb_spec b a) as [->|Hne]; [done|].
  apply anc_inv in Hab as [Hlt Hab]; [|done].
  rewrite parent_off_idx by (try apply off_bound; lia). rewrite do_swap_off. apply IH; [|done].
  pose proof (parent_lt b). lia.
Qed.
End Refine.

(** ** The heap operations *)

Section Ops.
Context {A : Type} (less : A -> A -> bool) `{!StrictWeak less}.
Context (es : Z) (Hes : 0 < es < 2 ^ 63).
Implicit Types h : min_heap A.

(** The elements in use are in the array, and no scaled offset overflows. *)
Definition heap_wf h : Prop :=
  (hp_nr h <= length (hp_data h))%nat /\ (2 * Z.of_nat (hp_nr h) + 2) * es < 2 ^ 64.

(** The elements of the heap, and the heap order on them. *)
Definition elems h : list A := take (hp_nr h) (hp_data h).
Definition ordered h : Prop := is_heap less (hp_data h) (hp_nr h).

Lemma min_heap_sift_down_refine h pos : heap_wf h ->
  (pos < hp_nr h \/ hp_nr h = 0 /\ pos = 0)%nat ->
  min_heap_sift_down less es h pos =
  mkHeap (hp_nr h) (hp_size h) (i_sift_down less (hp_nr h) (hp_data h) pos).
Proof using StrictWeak0 Hes.
  intros [Hlen Hov] Hpos. unfold min_heap_sift_down, i_sift_down. f_equal.
  assert (Hu : forall b, (b <= hp_nr h)%nat -> u64 (Z.of_nat b * es) = off es b).
  { intros b Hb. apply uwrap_small; [lia|]. apply (off_bound es Hes (hp_nr h)); [done|lia]. }
  rewrite !Hu by lia. rewrite (descend_refine _ es Hes (hp_nr h)) by (done || lia).
  set (L := i_descend _ _ _ _ _).
  assert (HL : anc pos L /\ (L <= hp_nr h)%nat).
  { destruct Hpos as [Hpos|[E0 ->]].
    - destruct (descend_spec less (hp_data h) (hp_nr h) (S (hp_nr h)) pos) as (? & ? & _); [lia..|].
      subst L. split; [done|lia].
    - subst L. rewrite E0. simpl. split; [constructor|lia]. }
  destruct HL as [HL1 HL2]. clearbody L.
  rewrite (backtrack_refine _ es Hes (hp_nr h)) by done.
  assert (Hr : forall fuel b, anc pos b -> (b <= hp_nr h)%nat ->
    anc pos (i_backtrack less fuel (hp_data h) pos b) /\
    (i_backtrack less fuel (hp_data h) pos b <= hp_nr h)%nat).
  { induction fuel as [|fuel IH]; intros b Hb Hbn; simpl; [done|].
    destruct (Nat.eqb_spec b pos) as [->|Hne]; simpl; [done|].
    destruct (i_less _ _ _ _); [|done]. apply anc_inv in Hb as [? Hb]; [|done].
    pose proof (parent_lt b). apply IH; [done|lia]. }
  destruct (Hr (S (hp_nr h)) L HL1 HL2). by apply (shift_refine es Hes (hp_nr h)).
Qed.

(** Nothing outside the heap moves. *)
Lemma sift_down_frame d n a i : (n <= length d)%nat -> (a < n)%nat -> (n <= i)%nat ->
  i_sift_down less n d a !! i = d !! i.
Proof using StrictWeak0.
  intros Hlen Ha Hi. unfold i_sift_down.
  destruct (descend_spec less d n (S n) a) as (HL1 & HL2 & HL3 & HL4); [lia..|].
  set (L := i_descend less (S n) d n a) in *. clearbody L.
  destruct (backtrack_spec less d n a L) with (fuel := S n) (b := L) as (Hr1 & _ & Hr3 & _);
    try done; try lia; try constructor.
  { intros c x y Hc Hcn. specialize (HL3 c Hc). lia. }
  set (r := i_backtrack less (S n) d a L) in *. clearbody r.
  destruct (shift_spec a r (S n) r d) as (_ & _ & _ & S4 & _); try done; try lia.
  apply S4; [lia|]. intros (_ & ?%anc_le & _). lia.
Qed.

Lemma take_perm_frame (d d' : list A) n : length d' = length d -> d' ≡ₚ d ->
  (forall i, (n <= i)%nat -> d' !! i = d !! i) -> take n d' ≡ₚ take n d.
Proof.
  intros Hl Hp Hf. assert (E : drop n d' = drop n d).
  { apply list_eq. intros i. rewrite !lookup_drop. apply Hf. lia. }
  rewrite <- (take_drop n d'), <- (take_drop n d), E in Hp. by apply Permutation_app_inv_r in Hp.
Qed.

Lemma sift_down_elems d n a : (n <= length d)%nat -> (a < n)%nat ->
  take n (i_sift_down less n d a) ≡ₚ take n d.
Proof using StrictWeak0.
  intros. apply take_perm_frame; [apply sift_down_length|apply sift_down_perm|].
  intros. by apply sift_down_frame.
Qed.

Lemma heapify_from_refine : forall k h, heap_wf h -> (k <= hp_nr h)%nat ->
  heapify_from less es k h =
  mkHeap (hp_nr h) (hp_size h) (i_heapify_from less (hp_nr h) k (hp_data h)).
Proof using StrictWeak0 Hes.
  induction k as [|k IH]; intros h Hwf Hk; simpl; [by destruct h|].
  rewrite min_heap_sift_down_refine by (done || lia). rewrite IH; simpl; [done| |lia].
  destruct Hwf. split; simpl; [by rewrite sift_down_length|done].
Qed.

Lemma heapify_from_elems n : forall k d, (n <= length d)%nat -> (k <= n)%nat ->
  take n (i_heapify_from less n k d) ≡ₚ take n d.
Proof using StrictWeak0.
  induction k as [|k IH]; intros d Hlen Hk; simpl; [done|].
  rewrite IH by (rewrite ?sift_down_length; lia). apply sift_down_elems; lia.
Qed.

Lemma heapify_all_spec h : heap_wf h ->
  let h' := min_heapify_all less es h in
  ordered h' /\ elems h' ≡ₚ elems h /\ heap_wf h' /\
  hp_nr h' = hp_nr h /\ hp_size h' = hp_size h /\ length (hp_data h') = length (hp_data h).
Proof using StrictWeak0 Hes.
  intros Hwf. pose proof Hwf as [Hlen Hov]. unfold min_heapify_all.
  assert (Hk : (hp_nr h / 2 <= hp_nr h)%nat) by (apply Nat.Div0.div_le_upper_bound; lia).
  rewrite heapify_from_refine by done.
  destruct (heapify_from_spec less (hp_nr h) (hp_nr h / 2) (hp_data h)) as [H1 H2]; try done.
  { by apply leaves_heap. }
  apply Permutation_length in H2.
  unfold ordered, elems, heap_wf; simpl. split_and!; try done; try lia.
  by apply heapify_from_elems.
Qed.

(** Sifting the root down, after it has been replaced. *)
Lemma sift_root_spec h : heap_wf h -> (0 < hp_nr h)%nat ->
  heap_from less (hp_data h) (hp_nr h) 1 ->
  let h' := min_heap_sift_down less es h 0 in
  ordered h' /\ elems h' ≡ₚ elems h /\ heap_wf h' /\
  hp_nr h' = hp_nr h /\ hp_size h' = hp_size h /\ length (hp_data h') = length (hp_data h).
Proof using StrictWeak0 Hes.
  intros Hwf Hnr Hheap. pose proof Hwf as [Hlen Hov].
  rewrite min_heap_sift_down_refine by (done || lia).
  unfold ordered, elems, heap_wf; simpl. rewrite sift_down_length. split_and!; try done; try lia.
  - by apply sift_down_heap.
  - by apply sift_down_elems.
Qed.

(** Replacing the root breaks the order at the root only. *)
Lemma heap_replace_root d n x : heap_from less d n 1 -> heap_from less (<[O := x]> d) n 1.
Proof.
  intros Hh i Hi c y z Hc Hcn Hy Hz. pose proof (parent_lt c ltac:(lia)).
  rewrite list_lookup_insert_ne in Hy, Hz by lia. by eapply (Hh i).
Qed.

Lemma heap_shrink d n m lo : (m <= n)%nat -> heap_from less d n lo -> heap_from less d m lo.
Proof. intros Hm Hh i Hi c x y Hc Hcn. eapply (Hh i Hi c); [done|lia]. Qed.

Lemma peek_min h m : heap_wf h -> ordered h -> min_heap_peek h = Some m ->
  Forall (fun y => less y m = false) (elems h).
Proof using StrictWeak0.
  intros [Hlen Hov] Hord Hpk. unfold min_heap_peek in Hpk.
  destruct (hp_nr h) as [|nr] eqn:En; [done|].
  apply Forall_forall. intros y Hy. apply list_elem_of_In in Hy. unfold elems in Hy. rewrite En in Hy.
  apply list_elem_of_lookup in Hy as [i Hi]. apply lookup_take_Some in Hi as [Hi Hin].
  unfold ordered in Hord. rewrite En in Hord. by eapply heap_root_min; eauto.
Qed.

(** The root may have any place in the order. *)
Lemma pop_root_spec h m : heap_wf h -> heap_from less (hp_data h) (hp_nr h) 1 ->
  min_heap_peek h = Some m ->
  exists h', min_heap_pop less es h = (h', true) /\
    ordered h' /\ elems h ≡ₚ m :: elems h' /\ heap_wf h' /\
    S (hp_nr h') = hp_nr h /\ hp_size h' = hp_size h /\ length (hp_data h') = length (hp_data h).
Proof using StrictWeak0 Hes.
  intros [Hlen Hov] Hord Hpk. unfold min_heap_peek, min_heap_pop in *.
  destruct (hp_nr h) as [|nr] eqn:En; [done|].
  destruct (lookup_lt_is_Some_2 (hp_data h) nr) as [x Hx]; [lia|]. rewrite Hx.
  set (d := <[O := x]> (hp_data h)).
  assert (Hel : elems h ≡ₚ m :: take nr d).
  { unfold elems. rewrite En. rewrite (take_S_r _ _ _ Hx).
    destruct nr as [|nr].
    - simpl. by simplify_eq.
    - destruct (hp_data h) as [|y l] eqn:Ed; [done|]. simpl in Hpk. injection Hpk as ->.
      subst d. simpl. rewrite <- Permutation_cons_append. by constructor. }
  eexists. split; [done|]. destruct nr as [|nr].
  - rewrite min_heap_sift_down_refine; [|split; simpl; lia|simpl; lia]. simpl.
    split_and!; try done; [| |rewrite sift_down_length; apply length_insert].
    + intros i _ c y z _ Hc. simpl in Hc. lia.
    + split; simpl; lia.
  - edestruct (sift_root_spec (mkHeap (S nr) (hp_size h) d)) as (H1 & H2 & H3 & H4 & H5 & H6).
    + split; simpl; [subst d; rewrite length_insert|]; lia.
    + simpl; lia.
    + simpl. apply heap_replace_root. by apply (heap_shrink _ (S (S nr))); [lia|].
    + split_and!; try done; try (by rewrite ?H2, ?H4). rewrite H6. apply length_insert.
Qed.

(** [min_heapify_all] (Floyd's construction with the bottom-up sift of
    min_heap.h, on byte offsets) turns any array into a heap: the heap order
    holds, the elements are the same, and so is the storage. *)
Theorem min_heapify_all_correct (h : min_heap A) (Hwf : heap_wf h) :
  let h' := min_heapify_all less es h in
  ordered h' /\ elems h' ≡ₚ elems h /\ heap_wf h' /\
  hp_nr h' = hp_nr h /\ hp_size h' = hp_size h /\ length (hp_data h') = length (hp_data h).
Proof using StrictWeak0 Hes. by apply heapify_all_spec. Qed.
End Ops.

#[export] Instance key_strict_weak {A} (key : A -> Z) :
  StrictWeak (fun x y => key x <? key y).
Proof.
  split; intros *; rewrite ?Z.ltb_lt, ?Z.ltb_ge; lia.
Qed.

Definition demo_heap : min_heap Z := mkHeap 6 8 [5; 9; 1; 7; 3; 2; 40; 41].

Lemma min_heapify_all_correct_witness :
  let h' := min_heapify_all Z.ltb 8 demo_heap in
  ordered Z.ltb h' /\ elems h' ≡ₚ elems demo_heap /\ heap_wf 8 h' /\
  hp_nr h' = hp_nr demo_heap /\ hp_size h' = hp_size demo_heap /\
  length (hp_data h') = length (hp_data demo_heap).
Proof.
  apply (min_heapify_all_correct Z.ltb 8 ltac:(lia) demo_heap). split; simpl; lia.
Defined.

End MinHeap.
