(* ===== verification/MinHeapOps.v ===== *)
(** * MinHeapOps: the other operations of include/linux/min_heap.h

    Insertion, replacement of the minimum and removal at any place, on the byte
    offsets of [MinHeap], and the functions that exchange two elements in memory.
    The theorem says that the heap is a priority queue: whatever the operations,
    their results are those of a queue that is a collection of elements. *)

From S2P Require Import Prelude MinHeap.

Module MinHeapOps.
Import MinHeap.

(** ** The code *)

Section Off.
Context {A : Type} (less : A -> A -> bool) (es : Z).

(** [__min_heap_init_inline]; [preallocated]: the array of the heap itself. *)
Definition min_heap_init (preallocated : list A) (data : option (list A)) (size : nat) : min_heap A :=
  mkHeap 0 size (match data with Some d => d | None => preallocated end).

Definition min_heap_full (h : min_heap A) : bool := (hp_nr h =? hp_size h)%nat.

(** The loop of [__min_heap_sift_up_inline]. *)
Fixpoint su_loop (fuel : nat) (d : list A) (a : Z) : list A :=
  match fuel with
  | S fuel =>
      if a =? 0 then d
      else
        let b := parent a (lsbit es) es in
        if less_at less es d b a then d else su_loop fuel (do_swap es d a b) b
  | O => d
  end.

Definition min_heap_sift_up (h : min_heap A) (idx : nat) : min_heap A :=
  mkHeap (hp_nr h) (hp_size h) (su_loop (S idx) (hp_data h) (u64 (Z.of_nat idx * es))).

Definition min_heap_pop_push (h : min_heap A) (element : A) : min_heap A :=
  min_heap_sift_down less es (mkHeap (hp_nr h) (hp_size h) (<[O := element]> (hp_data h))) 0.

(** [false] and the heap unchanged when it is full. *)
Definition min_heap_push (h : min_heap A) (element : A) : min_heap A * bool :=
  if (hp_size h <=? hp_nr h)%nat then (h, false)
  else
    let pos := hp_nr h in
    (min_heap_sift_up (mkHeap (S pos) (hp_size h) (<[pos := element]> (hp_data h))) pos, true).

Definition min_heap_del (h : min_heap A) (idx : nat) : min_heap A * bool :=
  match hp_nr h with
  | O => (h, false)
  | S nr =>
      if (idx =? nr)%nat then (mkHeap nr (hp_size h) (hp_data h), true)
      else
        let d := do_swap es (hp_data h) (u64 (Z.of_nat idx * es)) (u64 (Z.of_nat nr * es)) in
        let h := min_heap_sift_up (mkHeap nr (hp_size h) d) idx in
        (min_heap_sift_down less es h idx, true)
  end.

End Off.

(** ** Exchange of elements in memory *)

Section Bytes.

(** [*(uN * )p] of [w] bytes, and the store. *)
Definition load_word (m : Z -> Z) (p : Z) (w : nat) : list Z := map (fun i => m (p + Z.of_nat i)) (seq 0 w).

Definition store_word (m : Z -> Z) (p : Z) (bs : list Z) : Z -> Z :=
  fun x => if (p <=? x) && (x <? p + Z.of_nat (length bs)) then default 0 (bs !! Z.to_nat (x - p)) else m x.

(** The three assignments of [swap_words_64], [swap_words_32] and [swap_bytes]: [n]
    is already reduced. *)
Definition swap_chunk (w : nat) (m : Z -> Z) (a b n : Z) : Z -> Z :=
  let t := load_word m (a + n) w in
  let m := store_word m (a + n) (load_word m (b + n) w) in
  store_word m (b + n) t.

(** [do { ... n -= w ... } while (n)] of [swap_words_32] and [swap_bytes], and of
    [swap_words_64] with [CONFIG_64BIT]; [None]: [n] is not a multiple of the width
    and the loop goes below the elements. *)
Fixpoint swap_words (w : nat) (fuel : nat) (m : Z -> Z) (a b n : Z) : option (Z -> Z) :=
  match fuel with
  | O => None
  | S fuel =>
      if n <? Z.of_nat w then None
      else
        let n := n - Z.of_nat w in
        let m := swap_chunk w m a b n in
        if n =? 0 then Some m else swap_words w fuel m a b n
  end.

(** [swap_words_64]; without [CONFIG_64BIT] a round is two transfers of 32 bits. *)
Fixpoint swap_words_2x32 (fuel : nat) (m : Z -> Z) (a b n : Z) : option (Z -> Z) :=
  match fuel with
  | O => None
  | S fuel =>
      if n <? 8 then None
      else
        let n := n - 4 in
        let m := swap_chunk 4 m a b n in
        let n := n - 4 in
        let m := swap_chunk 4 m a b n in
        if n =? 0 then Some m else swap_words_2x32 fuel m a b n
  end.

Definition swap_words_64 (config_64bit : bool) (fuel : nat) (m : Z -> Z) (a b n : Z) : option (Z -> Z) :=
  if config_64bit then swap_words 8 fuel m a b n else swap_words_2x32 fuel m a b n.

(** [is_aligned] without [CONFIG_HAVE_EFFICIENT_UNALIGNED_ACCESS] *)
Definition is_aligned (base size align : Z) : bool :=
  Z.land (Z.lor (uwrap 8 size) (uwrap 8 base)) (align - 1) =? 0.

Inductive swap_func := SWAP_WORDS_64 | SWAP_WORDS_32 | SWAP_BYTES.

Definition select_swap_func (base size : Z) : swap_func :=
  if is_aligned base size 8 then SWAP_WORDS_64
  else if is_aligned base size 4 then SWAP_WORDS_32
  else SWAP_BYTES.

(** [do_swap] without a callback. *)
Definition do_swap_bytes (config_64bit : bool) (f : swap_func) (m : Z -> Z) (a b size : Z) : option (Z -> Z) :=
  match f with
  | SWAP_WORDS_64 => swap_words_64 config_64bit (Z.to_nat size) m a b size
  | SWAP_WORDS_32 => swap_words 4 (Z.to_nat size) m a b size
  | SWAP_BYTES => swap_words 1 (Z.to_nat size) m a b size
  end.

End Bytes.

(** ** The same on indexes *)

Section Idx.
Context {A : Type} (less : A -> A -> bool) `{!StrictWeak less}.
Implicit Types d : list A.

Fixpoint i_sift_up (fuel : nat) d (a : nat) : list A :=
  match fuel with
  | S fuel =>
      match a with
      | O => d
      | S _ => let b := i_parent a in if i_less less d b a then d else i_sift_up fuel (i_swap d a b) b
      end
  | O => d
  end.

(** The node [c] is not before its parent. *)
Definition edge d (c : nat) : Prop := forall x y, d !! (i_parent c) = Some x -> d !! c = Some y -> less y x = false.

(** The children of [i] are not before the parent of [i]. *)
Definition grand d (n i : nat) : Prop := (0 < i)%nat -> forall c x y,
  i_parent c = i -> (0 < c < n)%nat -> d !! (i_parent i) = Some x -> d !! c = Some y -> less y x = false.

(** The order holds but for the node [i] and its parent; but for [i] and its
    children; but for both. *)
Definition up_ok d (n i : nat) : Prop := (forall c, (0 < c < n)%nat -> c <> i -> edge d c) /\ grand d n i.
Definition down_ok d (n i : nat) : Prop := (forall c, (0 < c < n)%nat -> i_parent c <> i -> edge d c) /\ grand d n i.
Definition both_ok d (n i : nat) : Prop :=
  (forall c, (0 < c < n)%nat -> c <> i -> i_parent c <> i -> edge d c) /\ grand d n i.

Lemma heap_edges d n : is_heap less d n <-> forall c, (0 < c < n)%nat -> edge d c.
Proof.
  unfold is_heap, heap_from, hok, edge. split.
  - intros H c Hc x y Hx Hy. apply (H (i_parent c) ltac:(lia) c x y); done.
  - intros H i _ c x y <- Hc Hx Hy. apply (H c Hc x y); done.
Qed.

Lemma edge_trans d c x y z : d !! c = Some z -> edge d (i_parent c) -> edge d c ->
  d !! i_parent (i_parent c) = Some x -> d !! i_parent c = Some y -> less z x = false.
Proof using StrictWeak0. intros Hz H1 H2 Hx Hy. apply less_neg_trans with y; [apply (H2 y z)|apply (H1 x y)]; done. Qed.

Lemma heap_down_ok d n i : (n <= length d)%nat -> (i < n)%nat -> is_heap less d n -> down_ok d n i.
Proof using StrictWeak0.
  intros Hl Hi H. rewrite heap_edges in H. split; [auto|]. intros Hi0 c x y <- Hc Hx Hy.
  destruct (lookup_lt_is_Some_2 d (i_parent c)) as [z Hz]; [lia|].
  eapply edge_trans; [exact Hy|apply H; lia|apply H; done|exact Hx|exact Hz].
Qed.

(** One round of the sift up. *)
Lemma swap_up d n i : (n <= length d)%nat -> (0 < i < n)%nat -> both_ok d n i ->
  i_less less d (i_parent i) i = false -> up_ok (i_swap d i (i_parent i)) n (i_parent i).
Proof using StrictWeak0.
  intros Hl Hi [He Hg] Hless. pose proof (parent_lt i ltac:(lia)) as Hp. set (p := i_parent i) in *.
  assert (forall j, i_swap d i p !! j = if decide (j = i) then d !! p else if decide (j = p) then d !! i else d !! j) as Hs.
  { intros j. apply swap_lookup; lia. }
  destruct (lookup_lt_is_Some_2 d p) as [xp Hxp]; [lia|]. destruct (lookup_lt_is_Some_2 d i) as [xi Hxi]; [lia|].
  unfold i_less in Hless. rewrite Hxp, Hxi in Hless.
  assert (forall c, i_parent c = p -> (0 < c < n)%nat -> c <> i -> forall y, d !! c = Some y -> less y xp = false) as Hsib.
  { intros c Hc Hcn Hne y Hy. apply (He c Hcn Hne ltac:(lia) xp y); [rewrite Hc|]; done. }
  split.
  - intros c Hc Hne x y Hx Hy. rewrite !Hs in *. pose proof (parent_lt c ltac:(lia)).
    destruct (decide (c = i)) as [->|Hci].
    { fold p in Hx. rewrite decide_False, decide_True in Hx by lia. simplify_eq. done. }
    rewrite (decide_False (P := c = p)) in Hy by done. destruct (decide (i_parent c = i)) as [Hci'|Hci'].
    { rewrite Hxp in Hx. injection Hx as <-. apply (Hg ltac:(lia) c xp y); done. }
    destruct (decide (i_parent c = p)) as [Hcp|Hcp].
    { simplify_eq. apply less_neg_trans with xp; [eapply Hsib; done|done]. }
    apply (He c Hc Hci Hci' x y); done.
  - intros Hp0 c x y Hc Hcn Hx Hy. pose proof (parent_lt p ltac:(lia)). rewrite !Hs in *.
    rewrite !decide_False in Hx by lia.
    assert (less xp x = false) as Hpx by (apply (He p ltac:(lia) ltac:(lia) ltac:(lia) x xp); done).
    destruct (decide (c = i)) as [->|Hci]; [simplify_eq; done|].
    rewrite decide_False in Hy by (intros ->; pose proof (parent_lt p); lia).
    apply less_neg_trans with xp; [eapply Hsib; done|done].
Qed.

Lemma up_both d n i : up_ok d n i -> both_ok d n i.
Proof. intros [H1 H2]. split; auto. Qed.

Lemma less_edge d i : i_less less d (i_parent i) i = true -> edge d i.
Proof using StrictWeak0.
  unfold i_less. intros H x y Hx Hy. rewrite Hx, Hy in H. apply less_asym; done.
Qed.

Lemma sift_up_heap n : forall fuel d i, (n <= length d)%nat -> (i < n)%nat -> (i < fuel)%nat -> up_ok d n i ->
  is_heap less (i_sift_up fuel d i) n.
Proof using StrictWeak0.
  induction fuel as [|fuel IH]; intros d i Hl Hi Hf Hu; [lia|]. destruct i as [|i]; cbn [i_sift_up].
  - apply heap_edges. intros c Hc. apply Hu; lia.
  - pose proof (parent_lt (S i) ltac:(lia)). destruct (i_less less d (i_parent (S i)) (S i)) eqn:E.
    + apply heap_edges. intros c Hc. destruct (decide (c = S i)) as [->|Hne]; [apply less_edge, E|apply Hu; done].
    + apply IH; [rewrite swap_length; lia|lia|lia|]. apply swap_up; [done|lia|apply up_both, Hu|done].
Qed.

Lemma sift_up_length fuel : forall d i, length (i_sift_up fuel d i) = length d.
Proof.
  induction fuel as [|fuel IH]; intros d i; simpl; [done|]. destruct i; [done|].
  destruct (i_less _ _ _ _); [done|]. rewrite IH, swap_length. done.
Qed.

Lemma sift_up_perm fuel : forall d i, i_sift_up fuel d i ≡ₚ d.
Proof.
  induction fuel as [|fuel IH]; intros d i; simpl; [done|]. destruct i; [done|].
  destruct (i_less _ _ _ _); [done|]. rewrite IH, swap_perm. done.
Qed.

Lemma sift_up_S fuel d i : i_sift_up (S fuel) d (S i) =
  if i_less less d (i_parent (S i)) (S i) then d else i_sift_up fuel (i_swap d (S i) (i_parent (S i))) (i_parent (S i)).
Proof. done. Qed.

(** What the sift up leaves when the node may also be after its children. *)
Lemma sift_up_down d n i : (n <= length d)%nat -> (i < n)%nat -> both_ok d n i ->
  down_ok (i_sift_up (S i) d i) n i.
Proof using StrictWeak0.
  intros Hl Hi Hb. destruct i as [|i].
  - destruct Hb as [H1 H2]. split; [|done]. intros c Hc Hp. apply H1; lia.
  - rewrite sift_up_S. destruct (i_less less d (i_parent (S i)) (S i)) eqn:E.
    + destruct Hb as [H1 H2]. split; [|done]. intros c Hc Hp.
      destruct (decide (c = S i)) as [->|Hne]; [apply less_edge, E|auto].
    + pose proof (parent_lt (S i) ltac:(lia)). apply heap_down_ok; [|done|].
      * rewrite sift_up_length, swap_length. done.
      * apply sift_up_heap; [rewrite swap_length; done|lia|lia|]. apply swap_up; [done|lia|done|done].
Qed.

(** ** Sifting down inside a heap *)

(** What is above [a] stays, and [a] gets its own element or that of a child. *)
Lemma sift_down_path d n a : (n <= length d)%nat -> (a < n)%nat ->
  (forall i, ~ anc a i -> i_sift_down less n d a !! i = d !! i) /\
  (i_sift_down less n d a !! a = d !! a \/
   exists k, i_parent k = a /\ (0 < k < n)%nat /\ i_sift_down less n d a !! a = d !! k).
Proof using StrictWeak0.
  intros Hlen Ha. unfold i_sift_down.
  destruct (descend_spec less d n (S n) a) as (HL1 & HL2 & HL3 & HL4); [lia..|].
  set (L := i_descend less (S n) d n a) in *. clearbody L.
  destruct (backtrack_spec less d n a L) with (fuel := S n) (b := L) as (Hr1 & Hr2 & Hr3 & _);
    try done; try lia; try apply anc_refl.
  { intros c x y Hc Hcn. specialize (HL3 c Hc). lia. }
  set (r := i_backtrack less (S n) d a L) in *. clearbody r.
  destruct (shift_spec a r (S n) r d) as (S1 & S2 & S3 & S4 & S5); try done; try lia. split.
  - intros i Hi. apply S4; [intros ->; done|tauto].
  - destruct (decide (r = a)) as [->|Hra]; [left; rewrite S5; done|]. right.
    destruct (anc_below a a r) as (k & Hk & Hak & Hk1 & Hk2); [constructor|done|apply anc_le in Hr1; lia|].
    exists k. split; [done|]. apply anc_le in Hk2 as Hkr. split; [lia|].
    assert (i_shift (S n) d a r r !! i_parent k = d !! k) as E; [|rewrite Hk in E; exact E].
    destruct (decide (k = r)) as [->|Hkr']; [apply S2; done|]. apply S3; try done. lia.
Qed.

Lemma sift_down_whole d n a : (n <= length d)%nat -> (a < n)%nat -> down_ok d n a ->
  is_heap less (i_sift_down less n d a) n.
Proof using StrictWeak0.
  intros Hl Ha [He Hg]. destruct (sift_down_path d n a Hl Ha) as [Hf Hr].
  assert (heap_from less (i_sift_down less n d a) n a) as Hh.
  { apply sift_down_heap; [done|done|done|]. intros i Hi c x y <- Hc Hx Hy. apply (He c Hc ltac:(lia) x y); done. }
  intros i _. destruct (decide (a <= i)%nat) as [|Hi]; [apply Hh; done|].
  intros c x y <- Hc Hx Hy. rewrite Hf in Hx by (intros ?%anc_le; lia).
  destruct (decide (c = a)) as [->|Hca].
  - destruct Hr as [Hr|(k & Hk & Hkn & Hr)]; rewrite Hr in Hy.
    + apply (He a Hc ltac:(lia) x y); done.
    + apply (Hg ltac:(lia) k x y); done.
  - rewrite Hf in Hy; [apply (He c Hc ltac:(lia) x y); done|].
    intros Hac. apply anc_inv in Hac as [_ Hac]; [|done]. apply anc_le in Hac. lia.
Qed.

(** Nothing outside the heap moves. *)
Lemma sift_up_frame n : forall fuel d i j, (i < n)%nat -> (n <= j)%nat -> (n <= length d)%nat ->
  i_sift_up fuel d i !! j = d !! j.
Proof.
  induction fuel as [|fuel IH]; intros d i j Hi Hj Hl; simpl; [done|]. destruct i as [|i]; [done|].
  destruct (i_less _ _ _ _); [done|]. pose proof (parent_lt (S i) ltac:(lia)).
  rewrite IH by (rewrite ?swap_length; lia). rewrite swap_lookup by lia. rewrite !decide_False by lia. done.
Qed.

Lemma sift_up_elems d n i : (n <= length d)%nat -> (i < n)%nat -> take n (i_sift_up (S i) d i) ≡ₚ take n d.
Proof.
  intros Hl Hi. apply take_perm_frame; [apply sift_up_length|apply sift_up_perm|]. intros j Hj.
  apply (sift_up_frame n); done.
Qed.

(** A new element at the end. *)
Lemma push_up_ok d n x : (n < length d)%nat -> is_heap less d n -> up_ok (<[n := x]> d) (S n) n.
Proof.
  intros Hl H. rewrite heap_edges in H. split.
  - intros c Hc Hne y z Hy Hz. pose proof (parent_lt c ltac:(lia)). rewrite list_lookup_insert_ne in Hy, Hz by lia.
    apply (H c ltac:(lia) y z); done.
  - intros _ c y z Hc Hcn. pose proof (parent_lt c ltac:(lia)). lia.
Qed.

(** The last element at the place of another one. *)
Lemma del_both_ok d n i : (n < length d)%nat -> (i < n)%nat -> is_heap less d (S n) -> both_ok (i_swap d i n) n i.
Proof using StrictWeak0.
  intros Hl Hi H. destruct (heap_down_ok d (S n) i ltac:(lia) ltac:(lia) H) as [_ Hg]. rewrite heap_edges in H.
  assert (forall j, (j < n)%nat -> j <> i -> i_swap d i n !! j = d !! j) as Hs.
  { intros j Hj Hne. rewrite swap_lookup by lia. rewrite !decide_False by lia. done. }
  split.
  - intros c Hc Hne Hp x y Hx Hy. pose proof (parent_lt c ltac:(lia)). rewrite Hs in Hx, Hy by lia.
    apply (H c ltac:(lia) x y); done.
  - intros Hi0 c x y Hc Hcn Hx Hy. pose proof (parent_lt c ltac:(lia)). pose proof (parent_lt i ltac:(lia)).
    rewrite Hs in Hx, Hy by lia. apply (Hg Hi0 c x y); [done|lia|done|done].
Qed.

Lemma swap_last d n i : (n < length d)%nat -> (i < n)%nat ->
  exists y, d !! i = Some y /\ take (S n) d ≡ₚ y :: take n (i_swap d i n).
Proof.
  intros Hl Hi. destruct (lookup_lt_is_Some_2 d i) as [y Hy]; [lia|]. exists y. split; [done|].
  assert (i_swap d i n !! n = Some y) as Hn.
  { rewrite swap_lookup by lia. rewrite decide_False, decide_True by lia. done. }
  transitivity (take (S n) (i_swap d i n)).
  - symmetry. apply take_perm_frame; [apply swap_length|apply swap_perm|]. intros j Hj.
    rewrite swap_lookup by lia. rewrite !decide_False by lia. done.
  - rewrite (take_S_r _ _ _ Hn). symmetry. apply Permutation_cons_append.
Qed.

End Idx.

(** ** The operations *)

Section Ops.
Context {A : Type} (less : A -> A -> bool) `{!StrictWeak less}.
Context (es : Z) (Hes : 0 < es < 2 ^ 63).
Implicit Types h : min_heap A.

(** The heap fits its capacity, the capacity its array, and no offset overflows. *)
Definition cap_wf h : Prop :=
  (hp_nr h <= hp_size h <= length (hp_data h))%nat /\ (2 * Z.of_nat (hp_size h) + 2) * es < 2 ^ 64.

Lemma cap_heap_wf h : cap_wf h -> heap_wf es h.
Proof using Hes. intros [Hn Ho]. split; [lia|nia]. Qed.

Lemma su_refine n : (2 * Z.of_nat n + 2) * es < 2 ^ 64 -> forall fuel (d : list A) a, (a <= n)%nat ->
  su_loop less es fuel d (off es a) = i_sift_up less fuel d a.
Proof using Hes.
  intros Hn. induction fuel as [|fuel IH]; intros d a Ha; simpl; [done|].
  change 0 with (off es 0). rewrite off_eqb by done. destruct a as [|a]; [done|]. simpl (_ =? 0)%nat.
  assert (off es (S a) < 2 ^ 64) as Hb by (apply (off_bound es Hes n Hn); lia).
  rewrite parent_off_idx by (done || lia). rewrite less_at_off by done. destruct (i_less _ _ _ _); [done|].
  rewrite do_swap_off by done. apply IH. pose proof (parent_lt (S a)). lia.
Qed.

Lemma sift_up_refine h idx : (2 * Z.of_nat (hp_size h) + 2) * es < 2 ^ 64 -> (idx <= hp_size h)%nat ->
  min_heap_sift_up less es h idx = mkHeap (hp_nr h) (hp_size h) (i_sift_up less (S idx) (hp_data h) idx).
Proof using Hes.
  intros Ho Hi. unfold min_heap_sift_up. f_equal. rewrite uwrap_small; [|lia|].
  - apply (su_refine (hp_size h)); done.
  - apply (off_bound es Hes (hp_size h) Ho). lia.
Qed.

Lemma push_spec h x : cap_wf h -> ordered less h -> (hp_nr h < hp_size h)%nat ->
  exists h', min_heap_push less es h x = (h', true) /\ cap_wf h' /\ ordered less h' /\
  elems h' ≡ₚ x :: elems h /\ hp_size h' = hp_size h.
Proof using StrictWeak0 Hes.
  intros [Hn Ho] Hord Hlt. unfold min_heap_push. destruct (Nat.leb_spec (hp_size h) (hp_nr h)); [lia|].
  eexists. split; [reflexivity|]. rewrite sift_up_refine by (simpl; done || lia).
  set (d := <[hp_nr h := x]> (hp_data h)).
  assert (length d = length (hp_data h)) as Hl by apply length_insert.
  unfold cap_wf, ordered, elems. cbn [hp_nr hp_size hp_data]. rewrite sift_up_length, Hl.
  split_and!; [lia|lia|done| | |done].
  - apply (sift_up_heap less (S (hp_nr h)) (S (hp_nr h)) d (hp_nr h)); [lia|lia|lia|]. apply push_up_ok; [lia|done].
  - rewrite sift_up_elems by lia. rewrite (take_S_r d (hp_nr h) x) by (apply list_lookup_insert_eq; lia).
    unfold d. rewrite take_insert_ge by lia. symmetry. apply Permutation_cons_append.
Qed.

Lemma pop_push_spec h x m : cap_wf h -> ordered less h -> min_heap_peek h = Some m ->
  let h' := min_heap_pop_push less es h x in
  cap_wf h' /\ ordered less h' /\ (exists s, elems h ≡ₚ m :: s /\ elems h' ≡ₚ x :: s) /\ hp_size h' = hp_size h.
Proof using StrictWeak0 Hes.
  intros Hw Hord Hpk. pose proof (cap_heap_wf _ Hw) as [Hl Ho]. unfold min_heap_peek in Hpk.
  destruct (hp_nr h) as [|nr] eqn:En; [done|]. unfold min_heap_pop_push. rewrite En.
  destruct (sift_root_spec less es Hes (mkHeap (S nr) (hp_size h) (<[O := x]> (hp_data h)))) as (H1 & H2 & _ & H4 & H5 & H6).
  - split; simpl; [rewrite length_insert|]; lia.
  - simpl. lia.
  - simpl. apply heap_replace_root. intros i Hi. unfold ordered in Hord. rewrite En in Hord. apply Hord. lia.
  - cbv zeta. destruct Hw as [Hn Ho']. split_and!; [|done| |done].
    + unfold cap_wf. rewrite H4, H5, H6. cbn [hp_nr hp_size hp_data]. rewrite length_insert. split; [lia|done].
    + destruct (hp_data h) as [|y l] eqn:Ed; [done|]. injection Hpk as ->. exists (take nr l).
      rewrite H2. unfold elems. rewrite En, Ed. done.
Qed.

Lemma del_spec h idx : cap_wf h -> ordered less h -> (idx < hp_nr h)%nat ->
  exists h' y, min_heap_del less es h idx = (h', true) /\ hp_data h !! idx = Some y /\ cap_wf h' /\ ordered less h' /\
  elems h ≡ₚ y :: elems h' /\ hp_size h' = hp_size h.
Proof using StrictWeak0 Hes.
  intros [Hn Ho] Hord Hi. unfold min_heap_del. unfold ordered in Hord. destruct (hp_nr h) as [|nr] eqn:En; [lia|].
  destruct (Nat.eqb_spec idx nr) as [->|Hne].
  - destruct (lookup_lt_is_Some_2 (hp_data h) nr) as [y Hy]; [lia|]. eexists _, y. split; [reflexivity|].
    unfold cap_wf, ordered, elems. simpl. rewrite En. split_and!; [done|lia|lia|done| | |done].
    + apply (heap_shrink less _ (S nr)); [lia|done].
    + rewrite (take_S_r _ _ _ Hy). symmetry. apply Permutation_cons_append.
  - destruct (swap_last (hp_data h) nr idx) as (y & Hy & Hp); [lia|lia|]. eexists _, y. split; [reflexivity|].
    assert (forall b, (b <= hp_size h)%nat -> u64 (Z.of_nat b * es) = off es b) as Hu.
    { intros b Hb. apply uwrap_small; [lia|]. apply (off_bound es Hes (hp_size h) Ho). lia. }
    rewrite !Hu, do_swap_off, sift_up_refine by (simpl; done || lia).
    pose proof (sift_up_length less (S idx) (i_swap (hp_data h) idx nr) idx) as Hl. rewrite swap_length in Hl.
    rewrite (min_heap_sift_down_refine less es Hes); cbn [hp_nr hp_size hp_data]; [|split; cbn [hp_nr hp_data]; [lia|nia]|lia].
    unfold cap_wf, ordered, elems. cbn [hp_nr hp_size hp_data]. rewrite sift_down_length, Hl, En.
    split_and!; [done|lia|lia|done| | |done].
    + apply (sift_down_whole less _ nr idx); [rewrite Hl; lia|lia|].
      apply (sift_up_down less _ nr idx); [rewrite swap_length; lia|lia|]. apply (del_both_ok less); [lia|lia|done].
    + rewrite (sift_down_elems less _ nr idx) by lia. rewrite sift_up_elems by (rewrite ?swap_length; lia). done.
Qed.

(** ** A queue *)

Inductive op := Push (x : A) | Pop | Pop_push (x : A) | Del (idx : nat).

(** The result of an operation: what it returns, and the element that leaves. The
    callers of [min_heap_del] give the index of an element. *)
Definition step h (o : op) : min_heap A * (bool * option A) :=
  match o with
  | Push x => let '(h', b) := min_heap_push less es h x in (h', (b, None))
  | Pop => let '(h', b) := min_heap_pop less es h in (h', (b, min_heap_peek h))
  | Pop_push x => (min_heap_pop_push less es h x, (true, min_heap_peek h))
  | Del idx =>
      if (idx <? hp_nr h)%nat then let '(h', b) := min_heap_del less es h idx in (h', (b, hp_data h !! idx))
      else (h, (false, None))
  end.

Fixpoint run h (ops : list op) : min_heap A * list (bool * option A) :=
  match ops with
  | [] => (h, [])
  | o :: ops => let '(h, r) := step h o in let '(h, rs) := run h ops in (h, r :: rs)
  end.

(** A collection [s] of at most [size] elements: a minimum leaves first. *)
Inductive qstep (size : nat) : list A -> op -> bool * option A -> list A -> Prop :=
  | q_push s x : (length s < size)%nat -> qstep size s (Push x) (true, None) (x :: s)
  | q_full s x : length s = size -> qstep size s (Push x) (false, None) s
  | q_pop s m s' : s ≡ₚ m :: s' -> Forall (fun y => less y m = false) s -> qstep size s Pop (true, Some m) s'
  | q_pop_empty : qstep size [] Pop (false, None) []
  | q_pop_push s m s' x : s ≡ₚ m :: s' -> Forall (fun y => less y m = false) s ->
      qstep size s (Pop_push x) (true, Some m) (x :: s')
  | q_pop_push_empty x : qstep size [] (Pop_push x) (true, None) []
  | q_del s idx y s' : s ≡ₚ y :: s' -> qstep size s (Del idx) (true, Some y) s'
  | q_del_none s idx : (length s <= idx)%nat -> qstep size s (Del idx) (false, None) s.

Inductive qrun (size : nat) : list A -> list op -> list (bool * option A) -> list A -> Prop :=
  | q_nil s : qrun size s [] [] s
  | q_cons s o r s' ops rs s'' : qstep size s o r s' -> qrun size s' ops rs s'' -> qrun size s (o :: ops) (r :: rs) s''.

Lemma elems_length h : cap_wf h -> length (elems h) = hp_nr h.
Proof. intros [Hn _]. unfold elems. rewrite length_take. lia. Qed.

Lemma peek_none h : cap_wf h -> min_heap_peek h = None -> hp_nr h = 0%nat.
Proof.
  intros [Hn _]. unfold min_heap_peek. destruct (hp_nr h); [done|]. intros H%lookup_ge_None. lia.
Qed.

Lemma peek_forall h m s : cap_wf h -> ordered less h -> min_heap_peek h = Some m -> s ≡ₚ elems h ->
  Forall (fun y => less y m = false) s.
Proof using StrictWeak0 Hes. intros Hw Ho Hp ->. apply (peek_min less es h m); [apply cap_heap_wf|..]; done. Qed.

Lemma step_simulates h o s h' r : cap_wf h -> ordered less h -> s ≡ₚ elems h -> step h o = (h', r) ->
  cap_wf h' /\ ordered less h' /\ hp_size h' = hp_size h /\ exists s', qstep (hp_size h) s o r s' /\ s' ≡ₚ elems h'.
Proof using StrictWeak0 Hes.
  intros Hw Ho Hs. pose proof (Permutation_length Hs) as Hl. rewrite elems_length in Hl by done.
  assert (hp_nr h = 0%nat -> s = []) as Hnil by (intros E; apply nil_length_inv; lia).
  destruct o as [x| |x|idx]; unfold step.
  - destruct (decide (hp_nr h < hp_size h)%nat) as [Hlt|Hge].
    + destruct (push_spec h x Hw Ho Hlt) as (h1 & -> & Hw1 & Ho1 & He & Hz). intros [= <- <-].
      split_and!; try done. exists (x :: s). split; [constructor; lia|]. rewrite He, Hs. done.
    + unfold min_heap_push. destruct (Nat.leb_spec (hp_size h) (hp_nr h)); [|lia]. intros [= <- <-].
      split_and!; try done. exists s. split; [|done]. apply q_full. destruct Hw. lia.
  - destruct (min_heap_peek h) as [m|] eqn:Ep.
    + destruct (pop_root_spec less es Hes h m (cap_heap_wf h Hw)) as (h1 & -> & Ho1 & He & _ & Hn & Hz & Hd);
        [intros i Hi; apply Ho; lia|done|].
      intros [= <- <-]. destruct Hw as [Hw1 Hw2] eqn:Ew. split_and!; try done.
      * unfold cap_wf. rewrite Hz, Hd. split; [lia|done].
      * exists (elems h1). split; [|done]. apply q_pop; [rewrite Hs; done|]. apply (peek_forall h m s); done.
    + apply peek_none in Ep; [|done]. unfold min_heap_pop. rewrite Ep. intros [= <- <-]. split_and!; try done.
      exists []. rewrite (Hnil Ep) in *. split; [constructor|done].
  - intros [= <- <-]. destruct (min_heap_peek h) as [m|] eqn:Ep.
    + destruct (pop_push_spec h x m Hw Ho Ep) as (Hw1 & Ho1 & (s' & He & He') & Hz). split_and!; try done.
      exists (x :: s'). split; [|rewrite He'; done]. apply q_pop_push; [rewrite Hs; exact He|].
      apply (peek_forall h m s); done.
    + apply peek_none in Ep; [|done]. pose proof (cap_heap_wf h Hw) as [_ Hov]. unfold min_heap_pop_push.
      rewrite (min_heap_sift_down_refine less es Hes); cbn [hp_nr hp_size hp_data]; [|split; cbn [hp_nr hp_data]; lia|lia].
      rewrite Ep. split_and!; [|intros i _ c y z _ Hc; simpl in Hc; lia|done|].
      * destruct Hw as [Hn Hw]. unfold cap_wf. cbn [hp_nr hp_size hp_data].
        rewrite sift_down_length, length_insert. split; [lia|done].
      * exists []. rewrite (Hnil Ep) in *. split; [constructor|done].
  - destruct (Nat.ltb_spec idx (hp_nr h)) as [Hlt|Hge].
    + destruct (del_spec h idx Hw Ho Hlt) as (h1 & y & -> & -> & Hw1 & Ho1 & He & Hz). intros [= <- <-].
      split_and!; try done. exists (elems h1). split; [|done]. apply q_del. rewrite Hs. done.
    + intros [= <- <-]. split_and!; try done. exists s. split; [|done]. apply q_del_none. lia.
Qed.

(** C16: the heap is a priority queue: starting from an ordered heap, whatever the
    sequence of insertions, removals of the minimum, replacements of the minimum
    and removals at an index, the results are those of a collection of elements
    of the same capacity; the array stays a heap of that collection. *)
Theorem min_heap_is_queue h ops : cap_wf h -> ordered less h ->
  let '(h', rs) := run h ops in
  exists s, qrun (hp_size h) (elems h) ops rs s /\ s ≡ₚ elems h' /\ ordered less h' /\ cap_wf h'.
Proof using StrictWeak0 Hes.
  assert (forall ops h s, cap_wf h -> ordered less h -> s ≡ₚ elems h ->
    exists s', qrun (hp_size h) s ops (run h ops).2 s' /\ s' ≡ₚ elems (run h ops).1 /\
      ordered less (run h ops).1 /\ cap_wf (run h ops).1) as Hrun.
  { clear h ops. induction ops as [|o ops IH]; intros h s Hw Ho Hs; simpl; [exists s; split; [constructor|done]|].
    destruct (step h o) as [h1 r] eqn:E.
    destruct (step_simulates h o s h1 r Hw Ho Hs E) as (Hw1 & Ho1 & Hz & s1 & Hq & Hs1).
    destruct (IH h1 s1 Hw1 Ho1 Hs1) as (s2 & Hq2 & H2). rewrite Hz in Hq2.
    destruct (run h1 ops) as [h2 rs]. exists s2. split; [econstructor; done|exact H2]. }
  intros Hw Ho. specialize (Hrun ops h (elems h) Hw Ho (reflexivity _)). destruct (run h ops) as [h' rs]. exact Hrun.
Qed.

End Ops.

Lemma min_heap_is_queue_witness :
  let h := min_heap_init [] (Some [0; 0; 0; 0]) 4 in
  let ops := [Push 5; Push 3; Push 9; Push 4; Push 1; Del 1; Pop; Pop_push 7; Pop] in
  cap_wf 8 h /\ ordered Z.ltb h /\
  exists s, qrun Z.ltb 4 [] ops
    [(true, None); (true, None); (true, None); (true, None); (false, None); (true, Some 4); (true, Some 3);
     (true, Some 5); (true, Some 7)] s /\ s ≡ₚ [9].
Proof.
  intros h ops. assert (cap_wf 8 h) as Hw by (split; simpl; lia).
  assert (ordered Z.ltb h) as Ho by (intros i _ c x y _ Hc; simpl in Hc; lia).
  split; [exact Hw|]. split; [exact Ho|].
  pose proof (min_heap_is_queue Z.ltb 8 ltac:(lia) h ops Hw Ho) as H.
  assert (run Z.ltb 8 h ops = (mkHeap 1 4 [9; 9; 9; 4], [(true, None); (true, None); (true, None); (true, None); (false, None);
    (true, Some 4); (true, Some 3); (true, Some 5); (true, Some 7)])) as E by (vm_compute; reflexivity).
  rewrite E in H. destruct H as (s & Hq & Hs & _). exists s. split; [exact Hq|exact Hs].
Defined.

(** ** The exchange in memory *)

(** The [n] bytes at [a] and those at [b] change places. *)
Definition exchanged (m : Z -> Z) (a b n : Z) (x : Z) : Z :=
  if (a <=? x) && (x <? a + n) then m (x - a + b)
  else if (b <=? x) && (x <? b + n) then m (x - b + a)
  else m x.

Lemma load_length m p w : length (load_word m p w) = w.
Proof. unfold load_word. rewrite length_map, length_seq. done. Qed.

Lemma store_load m m' p q w x : store_word m p (load_word m' q w) x =
  if (p <=? x) && (x <? p + Z.of_nat w) then m' (x - p + q) else m x.
Proof.
  unfold store_word. rewrite load_length. destruct (Z.leb_spec p x), (Z.ltb_spec x (p + Z.of_nat w)); simpl; try done.
  unfold load_word. rewrite list_lookup_fmap, lookup_seq_lt by lia. simpl. f_equal. lia.
Qed.

Lemma swap_chunk_exchanged w m a b n x : a + n + Z.of_nat w <= b + n \/ b + n + Z.of_nat w <= a + n ->
  swap_chunk w m a b n x = exchanged m (a + n) (b + n) (Z.of_nat w) x.
Proof.
  intros H. unfold swap_chunk, exchanged. rewrite !store_load.
  destruct (Z.leb_spec (b + n) x), (Z.ltb_spec x (b + n + Z.of_nat w)), (Z.leb_spec (a + n) x),
    (Z.ltb_spec x (a + n + Z.of_nat w)); simpl; try done; try lia; try (f_equal; lia).
Qed.

Lemma swap_words_exchanged w k : forall fuel m a b, (0 < w)%nat -> (0 < k <= fuel)%nat ->
  let n := Z.of_nat k * Z.of_nat w in
  a + n <= b \/ b + n <= a ->
  exists m', swap_words w fuel m a b n = Some m' /\ forall x, m' x = exchanged m a b n x.
Proof.
  induction k as [|k IH]; intros fuel m a b Hw Hk n Hd; [lia|]. destruct fuel as [|fuel]; [lia|]. subst n. simpl swap_words.
  destruct (Z.ltb_spec (Z.of_nat (S k) * Z.of_nat w) (Z.of_nat w)); [nia|].
  replace (Z.of_nat (S k) * Z.of_nat w - Z.of_nat w) with (Z.of_nat k * Z.of_nat w) by lia.
  set (n := Z.of_nat k * Z.of_nat w) in *. assert (Z.of_nat (S k) * Z.of_nat w = n + Z.of_nat w) as En by lia.
  rewrite En in *. pose proof (fun x => swap_chunk_exchanged w m a b n x ltac:(lia)) as Hc.
  destruct (Z.eqb_spec n 0) as [E0|E0].
  - eexists. split; [reflexivity|]. intros x. rewrite Hc, E0, !Z.add_0_r. done.
  - destruct (IH fuel (swap_chunk w m a b n) a b Hw) as (m' & E & Hm); [destruct k; [done|lia]|lia|].
    exists m'. split; [done|]. intros x. rewrite Hm. unfold exchanged. rewrite !Hc. unfold exchanged.
    assert (0 < n) by nia.
    repeat match goal with
      | |- context [?u <=? ?v] => destruct (Z.leb_spec u v); try lia
      | |- context [?u <? ?v] => destruct (Z.ltb_spec u v); try lia
      end; simpl; try done; f_equal; lia.
Qed.

(** Two transfers of 32 bits for one of 64. *)
Lemma swap_2x32 k : forall fuel m a b, (0 < k <= fuel)%nat ->
  swap_words_2x32 fuel m a b (8 * Z.of_nat k) = swap_words 4 (2 * fuel) m a b (8 * Z.of_nat k).
Proof.
  induction k as [|k IH]; intros fuel m a b Hk; [lia|]. destruct fuel as [|fuel]; [lia|].
  replace (2 * S fuel)%nat with (S (S (2 * fuel))) by lia. cbn [swap_words_2x32 swap_words]. change (Z.of_nat 4) with 4.
  destruct (Z.ltb_spec (8 * Z.of_nat (S k)) 8), (Z.ltb_spec (8 * Z.of_nat (S k)) 4); try lia.
  destruct (Z.eqb_spec (8 * Z.of_nat (S k) - 4) 0), (Z.ltb_spec (8 * Z.of_nat (S k) - 4) 4); try lia.
  replace (8 * Z.of_nat (S k) - 4 - 4) with (8 * Z.of_nat k) by lia.
  destruct (Z.eqb_spec (8 * Z.of_nat k) 0) as [|Hk0]; [done|]. apply IH. lia.
Qed.

Lemma aligned_mod base size k : 0 <= k <= 8 -> is_aligned base size (2 ^ k) = true -> size mod 2 ^ k = 0.
Proof.
  intros Hk. unfold is_aligned. rewrite Z.eqb_eq, Z.land_lor_distr_l. intros H. apply Z.lor_eq_0_iff in H as [H _].
  replace (2 ^ k - 1) with (Z.ones k) in H by (rewrite Z.ones_equiv; lia). rewrite Z.land_ones in H by lia.
  unfold uwrap in H. rewrite <- H. replace (2 ^ 8) with (2 ^ k * 2 ^ (8 - k)) by (rewrite <- Z.pow_add_r by lia; f_equal; lia).
  pose proof (Z.pow_pos_nonneg 2 k). pose proof (Z.pow_pos_nonneg 2 (8 - k)).
  rewrite Z.rem_mul_r by lia. rewrite (Z.mul_comm (2 ^ k) (_ mod _)), Z.mod_add by lia. symmetry. apply Z.mod_mod. lia.
Qed.

(** The function that is selected exchanges the elements, whatever their size and
    address. *)
Lemma select_swap_exchanged cfg base m a b size : 0 < size -> a + size <= b \/ b + size <= a ->
  exists m', do_swap_bytes cfg (select_swap_func base size) m a b size = Some m' /\ forall x, m' x = exchanged m a b size x.
Proof.
  intros Hs Hd. assert (forall w, (0 < w)%nat -> size mod Z.of_nat w = 0 ->
    exists m', swap_words w (Z.to_nat size) m a b size = Some m' /\ forall x, m' x = exchanged m a b size x) as Hw.
  { intros w Hw Hm. pose proof (Z.div_exact size (Z.of_nat w) ltac:(lia)) as [_ E]. specialize (E Hm).
    assert (0 < size / Z.of_nat w <= size) as Hq by (split; nia).
    destruct (swap_words_exchanged w (Z.to_nat (size / Z.of_nat w)) (Z.to_nat size) m a b Hw ltac:(lia)) as (m' & E' & H);
      replace (Z.of_nat (Z.to_nat (size / Z.of_nat w)) * Z.of_nat w) with size in * by lia; [lia|eauto]. }
  unfold select_swap_func, do_swap_bytes. destruct (is_aligned base size 8) eqn:E8.
  - apply (aligned_mod base size 3) in E8; [|lia]. destruct cfg; [apply Hw; [lia|done]|]. simpl.
    pose proof (Z.div_exact size 8 ltac:(lia)) as [_ E]. specialize (E E8).
    assert (size = 8 * Z.of_nat (Z.to_nat (size / 8))) as Ek by lia.
    pose proof (swap_2x32 (Z.to_nat (size / 8)) (Z.to_nat size) m a b ltac:(lia)) as E2. rewrite <- Ek in E2. rewrite E2.
    destruct (swap_words_exchanged 4 (2 * Z.to_nat (size / 8)) (2 * Z.to_nat size) m a b) as (m' & Em & H); [lia|lia| |];
      replace (Z.of_nat (2 * Z.to_nat (size / 8)) * Z.of_nat 4) with size in * by lia; [lia|].
    exists m'. done.
  - destruct (is_aligned base size 4) eqn:E4; apply Hw; try lia; [apply (aligned_mod base size 2); [lia|done]|].
    apply Z.mod_1_r.
Qed.

End MinHeapOps.
