(* ===== verification/ExprLex.v ===== *)
(** * ExprLex: the lexer of the expression compiler

    Models the tokens, opcodes and types of src/src/expr.c, the symbol table
    and [next].  A pointer into the source text is the remaining suffix of it,
    the terminating NUL included, so that dereferencing the empty suffix is a
    read past the end of the text and is reported as a [Fault]. *)

From Stdlib Require Import Ascii.
From S2P Require Import Prelude.

(** ** Results of the compiler

    [Syn] is the [longjmp] of [synerr]; [Fault] is behaviour C leaves
    undefined (an access out of the bounds of an object, a dangling pointer);
    [NoFuel] is shown not to occur. *)
Inductive cerr :=
  | Syn (msg : string)
  | Fault (what : string)
  | NoFuel.

Inductive res (A : Type) :=
  | Ok (a : A)
  | Err (e : cerr).
Arguments Ok {A} a.
Arguments Err {A} e.

Declare Scope res_scope.
Delimit Scope res_scope with res.
Notation "'let*' x ':=' m 'in' k" :=
  (match m with Ok x => k | Err er => Err er end)
  (at level 10, x pattern, m at level 100, k at level 200) : res_scope.
Open Scope res_scope.

(** The character code of a character constant. *)
Definition ch (c : Ascii.ascii) : Z := Z.of_N (Ascii.N_of_ascii c).
Arguments ch _%_char.

(** The characters of a string constant, without and with its NUL. *)
Fixpoint chars (s : string) : list Z :=
  match s with
  | EmptyString => []
  | String c r => ch c :: chars r
  end.
Definition cstr (s : string) : list Z := chars s ++ [0].

(** Tokens and classes, operators last and in precedence order. *)
Module Tk.
Definition Num : Z := 128.
Definition Fun : Z := 129.
Definition Sys : Z := 130.
Definition Glo : Z := 131.
Definition Loc : Z := 132.
Definition Id : Z := 133.
Definition Int : Z := 134.
Definition Sizeof : Z := 135.
Definition Assign : Z := 136.
Definition Cond : Z := 137.
Definition Lor : Z := 138.
Definition Lan : Z := 139.
Definition Or : Z := 140.
Definition Xor : Z := 141.
Definition And : Z := 142.
Definition Eq : Z := 143.
Definition Ne : Z := 144.
Definition Lt : Z := 145.
Definition Gt : Z := 146.
Definition Le : Z := 147.
Definition Ge : Z := 148.
Definition Match : Z := 149.
Definition Shl : Z := 150.
Definition Shr : Z := 151.
Definition Add : Z := 152.
Definition Sub : Z := 153.
Definition Mul : Z := 154.
Definition Div : Z := 155.
Definition Mod : Z := 156.
Definition Inc : Z := 157.
Definition Dec : Z := 158.
Definition Brak : Z := 159.
End Tk.

(** Opcodes.  [LEA] to [SI] are followed by one operand word. *)
Module Op.
Definition LEA : Z := 0.
Definition IMM : Z := 1.
Definition JMP : Z := 2.
Definition JSR : Z := 3.
Definition BZ : Z := 4.
Definition BNZ : Z := 5.
Definition ENT : Z := 6.
Definition ADJ : Z := 7.
Definition LI : Z := 8.
Definition SI : Z := 9.
Definition LEV : Z := 10.
Definition PSH : Z := 11.
Definition LTu : Z := 12.
Definition GTu : Z := 13.
Definition LEu : Z := 14.
Definition GEu : Z := 15.
Definition OR : Z := 16.
Definition XOR : Z := 17.
Definition AND : Z := 18.
Definition EQ : Z := 19.
Definition NE : Z := 20.
Definition LT : Z := 21.
Definition GT : Z := 22.
Definition LE : Z := 23.
Definition GE : Z := 24.
Definition SHL : Z := 25.
Definition SHR : Z := 26.
Definition SAR : Z := 27.
Definition ADD : Z := 28.
Definition SUB : Z := 29.
Definition MUL : Z := 30.
Definition DIV : Z := 31.
Definition MOD : Z := 32.
Definition DIVu : Z := 33.
Definition MODu : Z := 34.
Definition PRTF : Z := 35.
Definition KSYM : Z := 36.
Definition NTHL : Z := 37.
Definition NTHS : Z := 38.
Definition STRNCMP : Z := 39.
Definition COMM : Z := 40.
Definition MATCH : Z := 41.
Definition STREQ : Z := 42.
Definition STRNE : Z := 43.
Definition SYSCALL : Z := 44.
Definition KVMEXIT : Z := 45.
Definition SYSTEM : Z := 46.
Definition EXIT : Z := 47.
End Op.

(** Types: a size, with flags; each level of pointer adds [PTR]. *)
Module Ty.
Definition CHAR : Z := 0.
Definition SHORT : Z := 1.
Definition INT : Z := 2.
Definition LONG : Z := 3.
Definition ARRAY : Z := 4.
Definition UNSIGNED : Z := 8.
Definition PTR : Z := 16.
End Ty.

(** ** Symbol table *)

(** [struct symbol_table].  [s_name] is the text from the name onwards. *)
Record sym := mkSym {
  s_token : Z;
  s_class : Z;
  s_name : list Z;
  s_hash : Z;
  s_ref : Z;
  s_type : Z;
  s_nr_elm : Z;
  s_value : Z
}.

(** An entry as [calloc] and [memset] leave it. *)
Definition sym0 : sym := mkSym 0 0 [] 0 0 0 0 0.

(** The globals the lexer works on.  [symtab] has [nr_syms] entries, of which
    the first [n_syms] are in use. *)
Record lex := mkLex {
  l_p : list Z;
  l_str : list Z;
  l_tk : Z;
  l_ival : Z;
  l_id : nat;
  l_symtab : list sym;
  l_n_syms : nat
}.

Definition nr_syms (l : lex) : nat := length (l_symtab l).

Definition set_p (q : list Z) (l : lex) : lex :=
  mkLex q (l_str l) (l_tk l) (l_ival l) (l_id l) (l_symtab l) (l_n_syms l).
Definition set_tk (t : Z) (l : lex) : lex :=
  mkLex (l_p l) (l_str l) t (l_ival l) (l_id l) (l_symtab l) (l_n_syms l).
Definition set_ival (v : Z) (l : lex) : lex :=
  mkLex (l_p l) (l_str l) (l_tk l) v (l_id l) (l_symtab l) (l_n_syms l).
Definition set_str (s : list Z) (l : lex) : lex :=
  mkLex (l_p l) s (l_tk l) (l_ival l) (l_id l) (l_symtab l) (l_n_syms l).
Definition set_symtab (s : list sym) (l : lex) : lex :=
  mkLex (l_p l) (l_str l) (l_tk l) (l_ival l) (l_id l) s (l_n_syms l).

Definition TK_SHIFT : Z := 6.
Definition HASH (h len : Z) : Z := s64 (Z.shiftl h TK_SHIFT + len).
Definition LEN (hash : Z) : Z := Z.land hash (Z.shiftl 1 TK_SHIFT - 1).

(** ** Reading the text *)

Definition eof_fault {A} : res A := Err (Fault "read past the end of the text").

(** Dereference of a text pointer. *)
Definition rd (q : list Z) : res Z :=
  match q with [] => eof_fault | c :: _ => Ok c end.

Definition is_digit (c : Z) : bool := (ch "0" <=? c) && (c <=? ch "9").
Definition is_octal (c : Z) : bool := (ch "0" <=? c) && (c <=? ch "7").
Definition is_hex (c : Z) : bool :=
  is_digit c || ((ch "a" <=? c) && (c <=? ch "f")) || ((ch "A" <=? c) && (c <=? ch "F")).
Definition is_alpha (c : Z) : bool :=
  ((ch "a" <=? c) && (c <=? ch "z")) || ((ch "A" <=? c) && (c <=? ch "Z")) || (c =? ch "_").
Definition is_alnum (c : Z) : bool := is_alpha c || is_digit c.

Definition c_nl : Z := 10.
Definition c_bslash : Z := 92.
Definition c_dquote : Z := 34.
Definition c_squote : Z := 39.

(** Skips a comment up to the end of its line. *)
Fixpoint skip_line (q : list Z) : res (list Z) :=
  match q with
  | [] => eof_fault
  | c :: r => if (c =? 0) || (c =? c_nl) then Ok q else skip_line r
  end.

(** The loop over the characters of an identifier: the running hash, the
    number of characters and the position after them. *)
Fixpoint ident_rest (h : Z) (n : nat) (q : list Z) : res (Z * nat * list Z) :=
  match q with
  | [] => eof_fault
  | c :: r => if is_alnum c then ident_rest (s64 (h * 147 + c)) (S n) r else Ok (h, n, q)
  end.

(** [memcmp(a, b, n) == 0] on the text of two names. *)
Definition same_name (n : nat) (a b : list Z) : bool := bool_decide (take n a = take n b).

(** The scan of the symbol table: the index it stops at, and the entry when it
    stopped because the entry has the same name. *)
Fixpoint find_sym (h : Z) (n : nat) (pp : list Z) (tab : list sym) (i : nat) : nat * option sym :=
  match tab with
  | [] => (i, None)
  | s :: tab' =>
      if s_token s =? 0 then (i, None)
      else if (h =? s_hash s) && same_name n (s_name s) pp then (i, Some s)
      else find_sym h n pp tab' (S i)
  end.

(** The identifier branch: [c] is its first character, [q] the text after. *)
Definition lex_ident (c : Z) (q : list Z) (l : lex) : res lex :=
  let* (h, n, r) := ident_rest c 1 q in
  let hash := HASH h (Z.of_nat n) in
  let pp := c :: q in
  match find_sym hash n pp (l_symtab l) 0 with
  | (i, Some s) => Ok (mkLex r (l_str l) (s_token s) (l_ival l) i (l_symtab l) (l_n_syms l))
  | (i, None) =>
      let '(tab, i) :=
        if (i =? nr_syms l)%nat then (l_symtab l ++ replicate 16 sym0, l_n_syms l)
        else (l_symtab l, i) in
      match tab !! i with
      | None => Err (Fault "symbol table overrun")
      | Some s =>
          let s := mkSym Tk.Id (s_class s) pp hash (s_ref s) (s_type s) (s_nr_elm s) (s_value s) in
          Ok (mkLex r (l_str l) Tk.Id (l_ival l) i (<[i := s]> tab) (S (l_n_syms l)))
      end
  end.

Fixpoint dec_rest (v : Z) (q : list Z) : res (Z * list Z) :=
  match q with
  | [] => eof_fault
  | c :: r => if is_digit c then dec_rest (s64 (v * 10 + c - ch "0")) r else Ok (v, q)
  end.

Fixpoint hex_rest (v : Z) (q : list Z) : res (Z * list Z) :=
  match q with
  | [] => eof_fault
  | c :: r =>
      if negb (c =? 0) && is_hex c
      then hex_rest (s64 (v * 16 + Z.land c 15 + if ch "A" <=? c then 9 else 0)) r
      else Ok (v, q)
  end.

Fixpoint oct_rest (v : Z) (q : list Z) : res (Z * list Z) :=
  match q with
  | [] => eof_fault
  | c :: r => if is_octal c then oct_rest (s64 (v * 8 + c - ch "0")) r else Ok (v, q)
  end.

(** The number branch: [c] is the first digit, [q] the text after it. *)
Definition lex_number (c : Z) (q : list Z) (l : lex) : res lex :=
  let v := c - ch "0" in
  let* (v, r) :=
    if negb (v =? 0) then dec_rest v q
    else match q with
         | [] => eof_fault
         | x :: q' => if (x =? ch "x") || (x =? ch "X") then hex_rest v q' else oct_rest v q
         end in
  Ok (set_tk Tk.Num (set_ival v (set_p r l))).

Section Next.
(** The literal buffer: its address and its size. *)
Context (str_base : Z) (strsize : nat).

(** [*str++ = c] *)
Definition put_str (c : Z) (s : list Z) : res (list Z) :=
  if (length s <? strsize)%nat then Ok (s ++ [c]) else Err (Fault "literal buffer overrun").

(** The loop over the characters of a literal delimited by [d]: [ival], the
    literal buffer and the position it stops at. *)
Fixpoint quote_rest (d v : Z) (s : list Z) (q : list Z) : res (Z * list Z * list Z) :=
  match q with
  | [] => eof_fault
  | c :: r =>
      if (c =? 0) || (c =? d) then Ok (v, s, q)
      else if c =? c_bslash then
        match r with
        | [] => eof_fault
        | c' :: r' =>
            let v := if c' =? ch "n" then c_nl else c' in
            if d =? c_dquote then let* s := put_str v s in quote_rest d v s r'
            else quote_rest d v s r'
        end
      else if d =? c_dquote then let* s := put_str c s in quote_rest d c s r
      else quote_rest d c s r
  end.

(** The literal branch: [d] is the delimiter, [q] the text after it. *)
Definition lex_quote (d : Z) (q : list Z) (l : lex) : res lex :=
  let pp := str_base + Z.of_nat (length (l_str l)) in
  let* (v, s, r) := quote_rest d (l_ival l) (l_str l) q in
  let* s := put_str 0 s in
  let l := set_str s (set_p (tl r) l) in
  Ok (if d =? c_dquote then set_tk d (set_ival pp l) else set_tk Tk.Num (set_ival v l)).

(** Tokens of one or two characters: [t] when the next character is [c]. *)
Definition two (q : list Z) (c t t' : Z) (l : lex) : res lex :=
  let* x := rd q in
  Ok (if x =? c then set_tk t (set_p (tl q) l) else set_tk t' (set_p q l)).

Definition three (q : list Z) (c t c' t' t'' : Z) (l : lex) : res lex :=
  let* x := rd q in
  Ok (if x =? c then set_tk t (set_p (tl q) l)
      else if x =? c' then set_tk t' (set_p (tl q) l) else set_tk t'' (set_p q l)).

(** The branches that return a token: [None] when the character starts none
    and the loop goes on. *)
Definition lex_op (c : Z) (q : list Z) (l : lex) : option (res lex) :=
  let one t := Some (Ok (set_tk t (set_p q l))) in
  if c =? ch "=" then Some (two q (ch "=") Tk.Eq Tk.Assign l)
  else if c =? ch "+" then Some (two q (ch "+") Tk.Inc Tk.Add l)
  else if c =? ch "-" then Some (two q (ch "-") Tk.Dec Tk.Sub l)
  else if c =? ch "!" then Some (two q (ch "=") Tk.Ne c l)
  else if c =? ch "<" then Some (three q (ch "=") Tk.Le (ch "<") Tk.Shl Tk.Lt l)
  else if c =? ch ">" then Some (three q (ch "=") Tk.Ge (ch ">") Tk.Shr Tk.Gt l)
  else if c =? ch "|" then Some (two q (ch "|") Tk.Lor Tk.Or l)
  else if c =? ch "&" then Some (two q (ch "&") Tk.Lan Tk.And l)
  else if c =? ch "^" then one Tk.Xor
  else if c =? ch "%" then one Tk.Mod
  else if c =? ch "*" then one Tk.Mul
  else if c =? ch "[" then one Tk.Brak
  else if c =? ch "?" then one Tk.Cond
  else if c =? ch "~" then one Tk.Match
  else if (c =? ch ";") || (c =? ch "{") || (c =? ch "}") || (c =? ch "(") || (c =? ch ")")
          || (c =? ch "]") || (c =? ch ",") || (c =? ch ":") then one c
  else None.

(** The loop of [next]; each iteration consumes at least one character, so
    [S (length (l_p l))] iterations are enough. *)
Fixpoint next_loop (n : nat) (l : lex) : res lex :=
  match n with
  | O => Err NoFuel
  | S n =>
      let* c := rd (l_p l) in
      if c =? 0 then Ok (set_tk 0 l)
      else
        let q := tl (l_p l) in
        if c =? c_nl then next_loop n (set_p q l)
        else if c =? ch "#" then let* r := skip_line q in next_loop n (set_p r l)
        else if is_alpha c then lex_ident c q l
        else if is_digit c then lex_number c q l
        else if c =? ch "/" then
          let* x := rd q in
          if x =? ch "/" then let* r := skip_line (tl q) in next_loop n (set_p r l)
          else Ok (set_tk Tk.Div (set_p q l))
        else if (c =? c_squote) || (c =? c_dquote) then lex_quote c q l
        else match lex_op c q l with
             | Some r => r
             | None => next_loop n (set_p q l)
             end
  end.

Definition next (l : lex) : res lex := next_loop (S (length (l_p l))) l.
End Next.
