(* ===== verification/ExprComp.v ===== *)
(** * ExprComp: the precedence-climbing compiler

    Models [typeop], [is_char_ptr] and [expr] of src/src/expr.c.  The code
    buffer [le] is kept as a zipper: [c_code] is [le[0..e]], the words emitted
    so far with [*e] last, and [c_free] is what lies after [e] in the buffer,
    stale words included, so that [++e] without a store, [e -= 2] and [*--e]
    are what they are in C.  Running out of [c_free] is a store past the
    buffer and a [Fault]. *)

From Stdlib Require Import Ascii.
From S2P Require Import Prelude ExprLex.

(** The globals of the compiler. *)
Record cst := mkC {
  c_lex : lex;
  c_code : list Z;
  c_free : list Z;
  c_ty : Z
}.

Definition set_lex (l : lex) (st : cst) : cst := mkC l (c_code st) (c_free st) (c_ty st).
Definition set_ty (t : Z) (st : cst) : cst := mkC (c_lex st) (c_code st) (c_free st) t.
Definition tk (st : cst) : Z := l_tk (c_lex st).
Definition ival (st : cst) : Z := l_ival (c_lex st).

Definition synerr {A} (s : string) : res A := Err (Syn s).

(** [loc], the local variable offset, is never changed. *)
Definition loc : Z := 0.

(** ** Types *)

Definition sizeof_ptr : Z := 8.

(** [is_char_ptr] *)
Definition is_char_ptr (t : Z) : bool :=
  Z.land t (Z.lnot Ty.UNSIGNED) =? Z.lor Ty.CHAR Ty.PTR.

(** [1 << (ty & ~UNSIGNED)] *)
Definition base_size (t : Z) : Z := Z.shiftl 1 (Z.land t (Z.lnot Ty.UNSIGNED)).

(** [typeop(op)] for the current type [ty]. *)
Definition typeop (op ty : Z) : res Z :=
  if op =? Tk.Sizeof then Ok (if Ty.PTR <=? ty then sizeof_ptr else base_size ty)
  else if op =? Tk.Assign then Ok (if Ty.PTR <=? ty then Ty.PTR else ty)
  else if (op =? Tk.Inc) || (op =? Tk.Dec) then
    Ok (if Ty.PTR + Ty.PTR <=? ty then sizeof_ptr
        else if Ty.PTR <=? ty then base_size (ty - Ty.PTR) else 1)
  else if (op =? Tk.Add) || (op =? Tk.Sub) || (op =? Tk.Brak) then
    Ok (if Ty.PTR + Ty.PTR <=? ty then sizeof_ptr else base_size (ty - Ty.PTR))
  else synerr "bad typeop".

(** The condition under which the unsigned form of an operator is emitted. *)
Definition use_unsigned (t ty : Z) : bool :=
  (Ty.PTR <=? t) || (Ty.PTR <=? ty) || negb (Z.land (Z.lor t ty) Ty.UNSIGNED =? 0).

(** ** The code buffer *)

Definition code_fault {A} : res A := Err (Fault "code buffer overrun").

(** [*++e = w] *)
Definition emit (w : Z) (st : cst) : res cst :=
  match c_free st with
  | [] => code_fault
  | _ :: f => Ok (mkC (c_lex st) (c_code st ++ [w]) f (c_ty st))
  end.

Fixpoint emits (ws : list Z) (st : cst) : res cst :=
  match ws with
  | [] => Ok st
  | w :: ws => let* st := emit w st in emits ws st
  end.

(** [++e], which leaves what the word held. *)
Definition skip (st : cst) : res cst :=
  match c_free st with
  | [] => code_fault
  | w :: f => Ok (mkC (c_lex st) (c_code st ++ [w]) f (c_ty st))
  end.

(** The index of [e] in the buffer. *)
Definition e_idx (st : cst) : nat := (length (c_code st) - 1)%nat.

(** [*d = w] *)
Definition patch (d : nat) (w : Z) (st : cst) : cst :=
  mkC (c_lex st) (<[d := w]> (c_code st)) (c_free st) (c_ty st).

(** [*(e-1)] *)
Definition word_before (st : cst) : Z := nth (length (c_code st) - 2) (c_code st) 0.
Definition ends_in_LI (st : cst) : bool := word_before st =? Op.LI.

(** [e -= n] *)
Definition drop_words (n : nat) (st : cst) : cst :=
  let k := (length (c_code st) - n)%nat in
  mkC (c_lex st) (take k (c_code st)) (drop k (c_code st) ++ c_free st) (c_ty st).

(** [*++e = typeop(op)] *)
Definition emit_typeop (op : Z) (st : cst) : res cst :=
  let* v := typeop op (c_ty st) in emit v st.

(** When the word before [*e] is [LI], rewrites [LI ty] to [PSH LI ty]: keeps the address of the lvalue on the stack below the loaded value. *)
Definition keep_address (msg : string) (st : cst) : res cst :=
  if ends_in_LI st then
    let e := e_idx st in
    let st := patch (e - 1) Op.PSH st in
    let* st := skip st in
    let e := e_idx st in
    let st := patch e (nth (e - 1) (c_code st) 0) st in
    Ok (patch (e - 1) Op.LI st)
  else synerr msg.

Section Compile.
(** The literal buffer, and the address of the code buffer. *)
Context (str_base : Z) (strsize : nat) (le_base : Z).

Definition code_addr (i : nat) : Z := le_base + 8 * Z.of_nat i.

Definition nxt (st : cst) : res cst :=
  let* l := next str_base strsize (c_lex st) in Ok (set_lex l st).

(** [if (tk == t) next(); else synerr(msg);] *)
Definition expect (t : Z) (msg : string) (st : cst) : res cst :=
  if tk st =? t then nxt st else synerr msg.

(** [id->type] *)
Definition id_type (st : cst) : res Z :=
  match l_symtab (c_lex st) !! l_id (c_lex st) with
  | Some s => Ok (s_type s)
  | None => Err (Fault "symbol table overrun")
  end.

(** [s->...] for an entry [i] obtained when the table had [nr] entries: when
    the table was reallocated since, [s] dangles. *)
Definition sym_at (nr i : nat) (st : cst) : res sym :=
  if (nr_syms (c_lex st) =? nr)%nat then
    match l_symtab (c_lex st) !! i with
    | Some s => Ok s
    | None => Err (Fault "symbol table overrun")
    end
  else Err (Fault "symbol used after the table was reallocated").

(** [s->ref++] *)
Definition add_ref (i : nat) (st : cst) : cst :=
  let bump s := mkSym (s_token s) (s_class s) (s_name s) (s_hash s) (s32 (s_ref s + 1))
                  (s_type s) (s_nr_elm s) (s_value s) in
  set_lex (set_symtab (alter bump i (l_symtab (c_lex st))) (c_lex st)) st.

(** [while (tk == Mul) { next(); t = t + PTR; }] *)
Fixpoint stars (n : nat) (t : Z) (st : cst) : res (Z * cst) :=
  match n with
  | O => Err NoFuel
  | S n =>
      if tk st =? Tk.Mul then let* st := nxt st in stars n (t + Ty.PTR) st
      else Ok (t, st)
  end.

(** A type name, in a cast or in [sizeof]: the current token is [Int]. *)
Definition type_name (n : nat) (st : cst) : res (Z * cst) :=
  let* t := id_type st in
  let t := if t =? Ty.UNSIGNED then Z.lor t Ty.INT else t in
  let* st := nxt st in
  let* (t, st) :=
    if tk st =? Tk.Int then
      let* t' := id_type st in
      let t := Z.lor (Z.land t Ty.UNSIGNED) t' in
      let* st := nxt st in Ok (t, st)
    else Ok (t, st) in
  stars n t st.

(** Adjacent literals are skipped: [next] while the token is a double quote. *)
Fixpoint strings (n : nat) (st : cst) : res cst :=
  match n with
  | O => Err NoFuel
  | S n => if tk st =? c_dquote then let* st := nxt st in strings n st else Ok st
  end.

(** ** The operand part of [expr]

    [rec] is the recursive call; the branches are in the order of the code. *)
Section Rec.
Context (rec : Z -> cst -> res cst).

Definition prim_num (st : cst) : res cst :=
  let* st := emits [Op.IMM; ival st] st in
  let* st := nxt st in
  Ok (set_ty Ty.INT st).

Definition prim_string (n : nat) (st : cst) : res cst :=
  let* st := emits [Op.IMM; ival st] st in
  let* st := nxt st in
  let* st := strings n st in
  Ok (set_ty (Z.lor Ty.CHAR Ty.PTR) st).

Definition prim_sizeof (n : nat) (st : cst) : res cst :=
  let* st := nxt st in
  let* st := expect (ch "(") "open paren expected in sizeof" st in
  let* (t, st) := if tk st =? Tk.Int then type_name n st else synerr "wrong type" in
  let st := set_ty t st in
  let* st := expect (ch ")") "close paren expected in sizeof" st in
  let* st := emit Op.IMM st in
  let* st := emit_typeop Tk.Sizeof st in
  Ok (set_ty Ty.INT st).

(** The loop over the arguments of a call; [t] counts them. *)
Fixpoint call_args (n : nat) (t : Z) (st : cst) : res (Z * cst) :=
  match n with
  | O => Err NoFuel
  | S n =>
      if tk st =? ch ")" then Ok (t, st)
      else
        let* st := rec Tk.Assign st in
        let* st := emit Op.PSH st in
        let* st := if tk st =? ch "," then nxt st else Ok st in
        call_args n (t + 1) st
  end.

Definition prim_call (n nr i : nat) (st : cst) : res cst :=
  let* st := nxt st in
  let* (t, st) := call_args n 0 st in
  let* st := nxt st in
  let* s := sym_at nr i st in
  let* st :=
    if s_class s =? Tk.Sys then let* st := emit (s_value s) st in Ok (add_ref i st)
    else if s_class s =? Tk.Fun then let* st := emits [Op.JSR; s_value s] st in Ok (add_ref i st)
    else synerr "bad function call" in
  let* st := if t =? 0 then Ok st else emits [Op.ADJ; t] st in
  Ok (set_ty (s_type s) st).

Definition prim_var (i : nat) (s : sym) (st : cst) : res cst :=
  let* st :=
    if s_class s =? Tk.Loc then
      let* st := emits [Op.LEA; loc - s_value s] st in Ok (add_ref i st)
    else if s_class s =? Tk.Glo then
      let* st := emits [Op.IMM; s_value s] st in Ok (add_ref i st)
    else synerr "undefined variable" in
  if negb (Z.land (s_type s) Ty.ARRAY =? 0) then
    Ok (set_ty (Z.lor (Z.land (s_type s) (Z.lnot Ty.ARRAY)) Ty.PTR) st)
  else
    let st := set_ty (s_type s) st in
    let* st := emit Op.LI st in
    emit_typeop Tk.Assign st.

Definition prim_id (n : nat) (st : cst) : res cst :=
  let i := l_id (c_lex st) in
  let nr := nr_syms (c_lex st) in
  let* st := nxt st in
  if tk st =? ch "(" then prim_call n nr i st
  else
    let* s := sym_at nr i st in
    if s_class s =? Tk.Num then
      let* st := emits [Op.IMM; s_value s] st in Ok (set_ty Ty.INT st)
    else prim_var i s st.

Definition prim_paren (n : nat) (st : cst) : res cst :=
  let* st := nxt st in
  if tk st =? Tk.Int then
    let* (t, st) := type_name n st in
    let* st := expect (ch ")") "bad cast" st in
    let* st := rec Tk.Inc st in
    let st := set_ty t st in
    if ends_in_LI st then
      let* v := typeop Tk.Assign (c_ty st) in Ok (patch (e_idx st) v st)
    else Ok st
  else
    let* st := rec Tk.Assign st in
    expect (ch ")") "close paren expected" st.

Definition prim_deref (st : cst) : res cst :=
  let* st := nxt st in
  let* st := rec Tk.Inc st in
  let* st := if Ty.PTR <=? c_ty st then Ok (set_ty (c_ty st - Ty.PTR) st)
             else synerr "bad dereference" in
  let* st := emit Op.LI st in
  emit_typeop Tk.Assign st.

Definition prim_addr (st : cst) : res cst :=
  let* st := nxt st in
  let* st := rec Tk.Inc st in
  let* st := if ends_in_LI st then Ok (drop_words 2 st) else synerr "bad address-of" in
  Ok (set_ty (c_ty st + Ty.PTR) st).

Definition prim_not (st : cst) : res cst :=
  let* st := nxt st in
  let* st := rec Tk.Inc st in
  let* st := emits [Op.PSH; Op.IMM; 0; Op.EQ] st in
  Ok (set_ty Ty.INT st).

Definition prim_bitnot (st : cst) : res cst :=
  let* st := nxt st in
  let* st := rec Tk.Inc st in
  let* st := emits [Op.PSH; Op.IMM; -1; Op.XOR] st in
  Ok (set_ty Ty.INT st).

Definition prim_plus (st : cst) : res cst :=
  let* st := nxt st in
  let* st := rec Tk.Inc st in
  Ok (set_ty Ty.INT st).

Definition prim_minus (st : cst) : res cst :=
  let* st := nxt st in
  let* st := emit Op.IMM st in
  let* st :=
    if tk st =? Tk.Num then
      let* st := emit (s64 (- ival st)) st in nxt st
    else
      let* st := emits [-1; Op.PSH] st in
      let* st := rec Tk.Inc st in
      emit Op.MUL st in
  Ok (set_ty Ty.INT st).

Definition prim_incdec (st : cst) : res cst :=
  let t := tk st in
  let* st := nxt st in
  let* st := rec Tk.Inc st in
  let* st := keep_address "bad lvalue in pre-increment" st in
  let* st := emits [Op.PSH; Op.IMM] st in
  let* st := emit_typeop t st in
  let* st := emits [if t =? Tk.Inc then Op.ADD else Op.SUB; Op.SI] st in
  emit_typeop Tk.Assign st.

Definition primary (n : nat) (st : cst) : res cst :=
  let t := tk st in
  if t =? 0 then synerr "unexpected eof in expression"
  else if t =? Tk.Num then prim_num st
  else if t =? c_dquote then prim_string n st
  else if t =? Tk.Sizeof then prim_sizeof n st
  else if t =? Tk.Id then prim_id n st
  else if t =? ch "(" then prim_paren n st
  else if t =? Tk.Mul then prim_deref st
  else if t =? Tk.And then prim_addr st
  else if t =? ch "!" then prim_not st
  else if t =? Tk.Match then prim_bitnot st
  else if t =? Tk.Add then prim_plus st
  else if t =? Tk.Sub then prim_minus st
  else if (t =? Tk.Inc) || (t =? Tk.Dec) then prim_incdec st
  else synerr "bad expression".

(** ** The operator part of [expr] *)

Definition bin_assign (t : Z) (st : cst) : res cst :=
  let* st := nxt st in
  let* st := if ends_in_LI st
             then (let st := drop_words 1 st in Ok (patch (e_idx st) Op.PSH st))
             else synerr "bad lvalue in assignment" in
  let* st := rec Tk.Assign st in
  let st := set_ty t st in
  let* st := emit Op.SI st in
  emit_typeop Tk.Assign st.

Definition bin_cond (st : cst) : res cst :=
  let* st := nxt st in
  let* st := emit Op.BZ st in
  let* st := skip st in
  let d := e_idx st in
  let* st := rec Tk.Assign st in
  let* st := expect (ch ":") "conditional missing colon" st in
  let st := patch d (code_addr (e_idx st + 3)) st in
  let* st := emit Op.JMP st in
  let* st := skip st in
  let d := e_idx st in
  let* st := rec Tk.Cond st in
  Ok (patch d (code_addr (e_idx st + 1)) st).

(** [||] and [&&]: jump over the right operand. *)
Definition bin_logic (jmp lev : Z) (st : cst) : res cst :=
  let* st := nxt st in
  let* st := emit jmp st in
  let* st := skip st in
  let d := e_idx st in
  let* st := rec lev st in
  Ok (set_ty Ty.INT (patch d (code_addr (e_idx st + 1)) st)).

(** The operators of the form [next; PSH; expr(lev); op; ty = INT], with the
    opcode chosen from the types of the operands. *)
Definition bin_simple (t lev : Z) (op : Z -> Z -> Z) (st : cst) : res cst :=
  let* st := nxt st in
  let* st := emit Op.PSH st in
  let* st := rec lev st in
  let* st := emit (op t (c_ty st)) st in
  Ok (set_ty Ty.INT st).

Definition bin_match (t : Z) (st : cst) : res cst :=
  if negb (is_char_ptr t) then synerr "~ operator requires char * operand"
  else
    let* st := nxt st in
    let* st := emit Op.PSH st in
    let* st := rec Tk.Shl st in
    if negb (is_char_ptr (c_ty st)) then synerr "~ operator requires char * operand"
    else let* st := emit Op.MATCH st in Ok (set_ty Ty.INT st).

Definition bin_add (t : Z) (st : cst) : res cst :=
  let* st := nxt st in
  let* st := emit Op.PSH st in
  let* st := rec Tk.Mul st in
  let st := set_ty t st in
  let* st :=
    if Ty.PTR <? t then
      let* st := emits [Op.PSH; Op.IMM] st in
      let* st := emit_typeop Tk.Add st in
      emit Op.MUL st
    else Ok st in
  emit Op.ADD st.

Definition bin_sub (t : Z) (st : cst) : res cst :=
  let* st := nxt st in
  let* st := emit Op.PSH st in
  let* st := rec Tk.Mul st in
  if (Ty.PTR <? t) && (t =? c_ty st) then
    let* st := emits [Op.SUB; Op.PSH; Op.IMM] st in
    let* st := emit_typeop Tk.Sub st in
    let* st := emit Op.DIV st in
    Ok (set_ty Ty.INT st)
  else
    let st := set_ty t st in
    if Ty.PTR <? t then
      let* st := emits [Op.PSH; Op.IMM] st in
      let* st := emit_typeop Tk.Sub st in
      emits [Op.MUL; Op.SUB] st
    else emit Op.SUB st.

Definition bin_incdec (st : cst) : res cst :=
  let o := tk st in
  let* st := keep_address "bad lvalue in post-increment" st in
  let* st := emits [Op.PSH; Op.IMM] st in
  let* st := emit_typeop o st in
  let* st := emits [if o =? Tk.Inc then Op.ADD else Op.SUB; Op.SI] st in
  let* st := emit_typeop Tk.Assign st in
  let* st := emits [Op.PSH; Op.IMM] st in
  let* st := emit_typeop o st in
  let* st := emit (if o =? Tk.Inc then Op.SUB else Op.ADD) st in
  nxt st.

Definition bin_brak (t : Z) (st : cst) : res cst :=
  let* st := nxt st in
  let* st := emit Op.PSH st in
  let* st := rec Tk.Assign st in
  let* st := expect (ch "]") "close bracket expected" st in
  let* st :=
    if Ty.PTR <? t then
      let* st := emits [Op.PSH; Op.IMM] st in
      let* st := emit_typeop Tk.Brak (set_ty t st) in
      emit Op.MUL st
    else if t <? Ty.PTR then synerr "pointer type expected"
    else Ok st in
  let* st := emit Op.ADD st in
  let st := set_ty (t - Ty.PTR) st in
  let* st := emit Op.LI st in
  emit_typeop Tk.Assign st.

Definition str_or (op_str op : Z) (t ty : Z) : Z :=
  if is_char_ptr t && is_char_ptr ty then op_str else op.
Definition uns_or (op_u op : Z) (t ty : Z) : Z := if use_unsigned t ty then op_u else op.
Definition always (op : Z) (t ty : Z) : Z := op.

(** One iteration of the operator loop; [t] is the type of the left operand. *)
Definition binop (st : cst) : res cst :=
  let t := c_ty st in
  let o := tk st in
  if o =? Tk.Assign then bin_assign t st
  else if o =? Tk.Cond then bin_cond st
  else if o =? Tk.Lor then bin_logic Op.BNZ Tk.Lan st
  else if o =? Tk.Lan then bin_logic Op.BZ Tk.Or st
  else if o =? Tk.Or then bin_simple t Tk.Xor (always Op.OR) st
  else if o =? Tk.Xor then bin_simple t Tk.And (always Op.XOR) st
  else if o =? Tk.And then bin_simple t Tk.Eq (always Op.AND) st
  else if o =? Tk.Eq then bin_simple t Tk.Lt (str_or Op.STREQ Op.EQ) st
  else if o =? Tk.Ne then bin_simple t Tk.Lt (str_or Op.STRNE Op.NE) st
  else if o =? Tk.Lt then bin_simple t Tk.Shl (uns_or Op.LTu Op.LT) st
  else if o =? Tk.Gt then bin_simple t Tk.Shl (uns_or Op.GTu Op.GT) st
  else if o =? Tk.Le then bin_simple t Tk.Shl (uns_or Op.LEu Op.LE) st
  else if o =? Tk.Ge then bin_simple t Tk.Shl (uns_or Op.GEu Op.GE) st
  else if o =? Tk.Match then bin_match t st
  else if o =? Tk.Shl then bin_simple t Tk.Add (always Op.SHL) st
  else if o =? Tk.Shr then bin_simple t Tk.Add (uns_or Op.SHR Op.SAR) st
  else if o =? Tk.Add then bin_add t st
  else if o =? Tk.Sub then bin_sub t st
  else if o =? Tk.Mul then bin_simple t Tk.Inc (always Op.MUL) st
  else if o =? Tk.Div then bin_simple t Tk.Inc (uns_or Op.DIVu Op.DIV) st
  else if o =? Tk.Mod then bin_simple t Tk.Inc (uns_or Op.MODu Op.MOD) st
  else if (o =? Tk.Inc) || (o =? Tk.Dec) then bin_incdec st
  else if o =? Tk.Brak then bin_brak t st
  else synerr "compiler error".

(** [while (tk >= lev) ...] *)
Fixpoint climb (n : nat) (lev : Z) (st : cst) : res cst :=
  match n with
  | O => Err NoFuel
  | S n => if lev <=? tk st then let* st := binop st in climb n lev st else Ok st
  end.
End Rec.

(** [expr(lev)]. *)
Fixpoint expr (n : nat) (lev : Z) (st : cst) : res cst :=
  match n with
  | O => Err NoFuel
  | S n => let* st := primary (expr n) n st in climb (expr n) n lev st
  end.
End Compile.
