(* ===== verification/ExprProg.v ===== *)
(** * ExprProg: compiled programs

    Models [expr_compile_flags], [expr_compile], [expr_load_glo],
    [expr_load_data], [expr_load_global] and [expr_destroy] of src/src/expr.c,
    and the byte memory the programs work on.  The addresses the allocator
    returns are parameters. *)

From Stdlib Require Import Ascii.
From S2P Require Import Prelude ExprLex ExprComp.

(** ** Memory: little-endian bytes *)

Abbreviation mem := (gmap Z Z).

(** The [n] bytes at [a], when all of them are allocated. *)
Fixpoint read_bytes (m : mem) (a : Z) (n : nat) : option (list Z) :=
  match n with
  | O => Some []
  | S n =>
      match m !! a, read_bytes m (a + 1) n with
      | Some b, Some r => Some (b :: r)
      | _, _ => None
      end
  end.

Fixpoint le_combine (bs : list Z) : Z :=
  match bs with [] => 0 | b :: r => b + 256 * le_combine r end.

Fixpoint le_split (n : nat) (v : Z) : list Z :=
  match n with O => [] | S n => v mod 256 :: le_split n (v / 256) end.

(** Writes without asking whether the bytes are allocated. *)
Fixpoint poke_bytes (m : mem) (a : Z) (bs : list Z) : mem :=
  match bs with [] => m | b :: r => <[a := b]> (poke_bytes m (a + 1) r) end.

Definition allocated (m : mem) (a : Z) (n : nat) : bool :=
  match read_bytes m a n with Some _ => true | None => false end.

Definition load (m : mem) (a : Z) (n : nat) : option Z :=
  match read_bytes m a n with Some bs => Some (le_combine bs) | None => None end.

Definition store (m : mem) (a : Z) (n : nat) (v : Z) : option mem :=
  if allocated m a n then Some (poke_bytes m a (le_split n v)) else None.

(** The width in bytes and the signedness of an access of type [t], for the
    types the load and store instructions accept. *)
Definition access (t : Z) : option (nat * bool) :=
  if t =? Ty.CHAR then Some (1%nat, true)
  else if t =? Z.lor Ty.UNSIGNED Ty.CHAR then Some (1%nat, false)
  else if t =? Ty.SHORT then Some (2%nat, true)
  else if t =? Z.lor Ty.UNSIGNED Ty.SHORT then Some (2%nat, false)
  else if t =? Ty.INT then Some (4%nat, true)
  else if t =? Z.lor Ty.UNSIGNED Ty.INT then Some (4%nat, false)
  else if t =? Ty.LONG then Some (8%nat, true)
  else if t =? Z.lor Ty.UNSIGNED Ty.LONG then Some (8%nat, false)
  else None.

(** The [long] an object of [n] bytes is converted to. *)
Definition extend (n : nat) (signed : bool) (v : Z) : Z :=
  if signed then swrap (8 * Z.of_nat n) v else s64 (uwrap (8 * Z.of_nat n) v).

(** ** Programs *)

(** What the allocator returns: whether the allocations succeed, the address
    of the data buffer after each reallocation, of the literals, of the code
    before and after the final [realloc], and of [prog->glo]. *)
Record alloc := mkAlloc {
  a_symtab_ok : bool;
  a_bufs_ok : bool;
  a_names_ok : bool;
  a_data : nat -> Z;
  a_str : Z;
  a_le : Z;
  a_insn : Z;
  a_glo_cpu : Z;
  a_glo_pid : Z
}.

(** [struct global_var_declare]; the name is without its NUL. *)
Record global_var_declare := mkDecl {
  v_name : list Z;
  v_offset : Z;
  v_size : Z;
  v_elementsize : Z;
  v_is_unsigned : bool
}.

(** [struct expr_prog].  [g_data] and [g_str] are [None] for a null pointer;
    [g_mem] is the memory that holds the data, the literals and [glo]. *)
Record prog := mkProg {
  g_symtab : list sym;
  g_data : option Z;
  g_datasize : Z;
  g_datalen : Z;
  g_str : option Z;
  g_strsize : Z;
  g_base : Z;
  g_insn : list Z;
  g_cpu : Z;
  g_pid : Z;
  g_mem : mem
}.

Definition set_mem (m : mem) (g : prog) : prog :=
  mkProg (g_symtab g) (g_data g) (g_datasize g) (g_datalen g) (g_str g) (g_strsize g)
    (g_base g) (g_insn g) (g_cpu g) (g_pid g) m.

(** The reference counts of the symbol resolver and of the comm cache. *)
Record refs := mkRefs { resolver_ref : Z; comm_ref : Z }.

(** ** Symbols *)

(** An update of [*id]. *)
Definition upd_id (f : sym -> sym) (l : lex) : lex :=
  set_symtab (alter f (l_id l) (l_symtab l)) l.

Definition set_sym (tok cls typ val : Z) (s : sym) : sym :=
  mkSym tok cls (s_name s) (s_hash s) (s_ref s) typ (s_nr_elm s) val.

Section Prog.
Context (A : alloc).

(** [p = name; next();] outside of the expression: no literal is written. *)
Definition next_in (strsize : nat) (name : list Z) (l : lex) : res lex :=
  next (a_str A) strsize (set_p name l).

Definition ADD_KEY (n : nat) (name : string) (token typ : Z) (l : lex) : res lex :=
  let* l := next_in n (cstr name) l in Ok (upd_id (set_sym token 0 typ 0) l).

Definition ADD_LIB (n : nat) (name : string) (typ insn : Z) (l : lex) : res lex :=
  let* l := next_in n (cstr name) l in
  Ok (upd_id (fun s => set_sym (s_token s) Tk.Sys typ insn s) l).

Definition ADD_GLO (n : nat) (name : string) (typ value : Z) (l : lex) : res lex :=
  let* l := next_in n (cstr name) l in
  Ok (upd_id (fun s => mkSym (s_token s) Tk.Glo (s_name s) (s_hash s) (s_ref s) typ 1 value) l).

Definition CHAR_PTR : Z := Z.lor Ty.CHAR Ty.PTR.

(** The keywords, the library and, unless [EXPR_F_NO_SAMPLE_GLO], the sample
    header globals. *)
Definition default_symbols (n : nat) (no_sample_glo : bool) (l : lex) : res lex :=
  let* l := ADD_KEY n "char" Tk.Int Ty.CHAR l in
  let* l := ADD_KEY n "short" Tk.Int Ty.SHORT l in
  let* l := ADD_KEY n "int" Tk.Int Ty.INT l in
  let* l := ADD_KEY n "long" Tk.Int Ty.LONG l in
  let* l := ADD_KEY n "unsigned" Tk.Int Ty.UNSIGNED l in
  let* l := ADD_KEY n "sizeof" Tk.Sizeof Ty.INT l in
  let* l := ADD_LIB n "printf" Ty.INT Op.PRTF l in
  let* l := ADD_LIB n "ksymbol" CHAR_PTR Op.KSYM l in
  let* l := ADD_LIB n "ntohl" Ty.INT Op.NTHL l in
  let* l := ADD_LIB n "ntohs" Ty.SHORT Op.NTHS l in
  let* l := ADD_LIB n "strncmp" Ty.INT Op.STRNCMP l in
  let* l := ADD_LIB n "comm_get" CHAR_PTR Op.COMM l in
  let* l := ADD_LIB n "syscall_name" CHAR_PTR Op.SYSCALL l in
  let* l := ADD_LIB n "exit_reason_str" CHAR_PTR Op.KVMEXIT l in
  let* l := ADD_LIB n "system" Ty.INT Op.SYSTEM l in
  if no_sample_glo then Ok l
  else
    let* l := ADD_GLO n "_cpu" Ty.INT (a_glo_cpu A) l in
    ADD_GLO n "_pid" Ty.INT (a_glo_pid A) l.

(** The type of a declared variable; [None] is the [default] arm. *)
Definition decl_type (d : global_var_declare) : option Z :=
  let base :=
    if v_elementsize d =? 1 then Some Ty.CHAR
    else if v_elementsize d =? 2 then Some Ty.SHORT
    else if v_elementsize d =? 4 then Some Ty.INT
    else if v_elementsize d =? 8 then Some Ty.LONG
    else None in
  match base with
  | None => None
  | Some t =>
      let t := if negb (v_size d =? v_elementsize d) then Z.lor t Ty.ARRAY else t in
      Some (if v_is_unsigned d then Z.lor t Ty.UNSIGNED else t)
  end.

Definition decl_end (d : global_var_declare) : Z := s32 (v_offset d + v_size d).

(** The loop over the declarations, with the data buffer at [data].  [inr] is
    the jump to [err_return]. *)
Fixpoint declare_all (n : nat) (data : Z) (ds : list global_var_declare) (mx : Z) (l : lex)
  : res (lex * Z + unit) :=
  match ds with
  | [] => Ok (inl (l, mx))
  | d :: ds =>
      let* l := next_in n (v_name d ++ [0]) l in
      match decl_type d with
      | None => Ok (inr tt)
      | Some t =>
          let f s := mkSym (s_token s) Tk.Glo (s_name s) (s_hash s) (s_ref s) t
                       (Z.quot (v_size d) (v_elementsize d)) (data + v_offset d) in
          declare_all n data ds (if mx <? decl_end d then decl_end d else mx) (upd_id f l)
      end
  end.

(** The [restart] loop: [k] counts the reallocations of the data buffer. *)
Fixpoint declare_loop (fuel : nat) (n : nat) (ds : list global_var_declare) (k : nat) (l : lex)
  : res (lex * Z * nat + unit) :=
  match fuel with
  | O => Err NoFuel
  | S fuel =>
      let* r := declare_all n (a_data A k) ds 0 l in
      match r with
      | inr tt => Ok (inr tt)
      | inl (l, mx) =>
          if 256 + 256 * Z.of_nat k <? mx then declare_loop fuel n ds (S k) l
          else Ok (inl (l, mx, k))
      end
  end.

(** Enough restarts for the largest extent a declaration can have. *)
Definition declare_fuel (ds : list global_var_declare) : nat :=
  S (Z.to_nat (foldr (fun d m => Z.max (decl_end d) m) 0 ds / 256 + 1)).

(** [do { next(); expr(Assign); } while (tk == ',');] *)
Fixpoint parse_loop (n : nat) (strsize : nat) (fuel : nat) (st : cst) : res cst :=
  match n with
  | O => Err NoFuel
  | S n =>
      let* st := nxt (a_str A) strsize st in
      let* st := expr (a_str A) strsize (a_le A) fuel Tk.Assign st in
      if tk st =? ch "," then parse_loop n strsize fuel st else Ok st
  end.

(** The relocation loop over the code after [realloc] moved it by [delta]. *)
Fixpoint reloc_loop (n : nat) (delta : Z) (i : nat) (code : list Z) : res (list Z) :=
  match n with
  | O => Err NoFuel
  | S n =>
      match code !! i with
      | None => Ok code
      | Some w =>
          let* code :=
            if (w =? Op.JMP) || (w =? Op.JSR) || (w =? Op.BZ) || (w =? Op.BNZ) then
              match code !! S i with
              | Some t => Ok (<[S i := t - delta]> code)
              | None => code_fault
              end
            else Ok code in
          reloc_loop n delta (if w <=? Op.SI then S (S i) else S i) code
      end
  end.

Definition relocate (code : list Z) : res (list Z) :=
  if a_insn A =? a_le A then Ok code
  else reloc_loop (S (length code)) (a_le A - a_insn A) 1 code.

Definition uses (op : Z) (s : sym) : bool :=
  (s_class s =? Tk.Sys) && (s_value s =? op) && negb (s_ref s =? 0).

(** The loop that takes ([d = 1]) or drops ([d = -1]) the references. *)
Fixpoint ref_syms (d : Z) (tab : list sym) (r : refs) : refs :=
  match tab with
  | [] => r
  | s :: tab =>
      let r := if uses Op.KSYM s then mkRefs (resolver_ref r + d) (comm_ref r) else r in
      let r := if uses Op.COMM s then mkRefs (resolver_ref r) (comm_ref r + d) else r in
      ref_syms d tab r
  end.

Definition nr_insn_max : nat := 1024.

Definition parse_fuel (text : list Z) : nat := (3 * length text + 16)%nat.

(** The memory of a fresh program. *)
Definition init_mem (data : Z) (datasize : Z) (lits : list Z) : mem :=
  let m := poke_bytes ∅ (a_glo_cpu A) (replicate 4 0) in
  let m := poke_bytes m (a_glo_pid A) (replicate 4 0) in
  let m := poke_bytes m data (replicate (Z.to_nat datasize) 0) in
  poke_bytes m (a_str A) lits.

(** What follows the parse: the program is packed and relocated, and the
    references are taken. *)
Definition finish (k : nat) (mx : Z) (st : cst) (r : refs) : res (option prog * refs) :=
  let* st := emit Op.EXIT st in
  let l := c_lex st in
  let* code := relocate (c_code st) in
  let tab := take (l_n_syms l) (l_symtab l) in
  let datasize := 256 + 256 * Z.of_nat k in
  let data := a_data A k in
  let hasdata := negb (mx =? 0) in
  let hasstr := negb (length (l_str l) =? 0)%nat in
  let g := mkProg tab
             (if hasdata then Some data else None) (if hasdata then datasize else 0)
             (if hasdata then mx else 0)
             (if hasstr then Some (a_str A) else None) (Z.of_nat (length (l_str l)))
             (a_insn A) code (a_glo_cpu A) (a_glo_pid A)
             (init_mem data (if hasdata then datasize else 0) (l_str l)) in
  Ok (Some g, ref_syms 1 tab r).

(** The global variable declarations; [None] is a null pointer.  [inl] has the
    extent of the declared data and the number of reallocations. *)
Definition declare_vars (n : nat) (declare : option (list global_var_declare)) (l : lex)
  : res (lex * Z * nat + unit) :=
  match declare with
  | None => Ok (inl (l, 0, O))
  | Some ds =>
      if negb (a_names_ok A) then Ok (inr tt) else declare_loop (declare_fuel ds) n ds 0 l
  end.

Definition lex0 : lex := mkLex [] [] 0 0 0 (replicate 32 sym0) 0.

(** The symbol table an expression is compiled with. *)
Definition setup (n : nat) (declare : option (list global_var_declare)) (no_sample_glo : bool)
  : res (lex * Z * nat + unit) :=
  let* l := default_symbols n no_sample_glo lex0 in declare_vars n declare l.

(** [expr_compile_flags]; [text] includes its NUL.  The result [None] is the
    null pointer of [err_return]. *)
Definition expr_compile_flags (text : list Z) (declare : option (list global_var_declare))
    (no_sample_glo : bool) (r : refs) : res (option prog * refs) :=
  let n := length text in
  if negb (a_symtab_ok A) then Err (Fault "null symbol table")
  else if negb (a_bufs_ok A) then Ok (None, r)
  else
    let* d := setup n declare no_sample_glo in
    match d with
    | inr tt => Ok (None, r)
    | inl (l, mx, k) =>
        let st := mkC (set_p text l) [0] (replicate (nr_insn_max - 1) 0) 0 in
        match parse_loop (parse_fuel text) n (parse_fuel text) st with
        | Err (Syn _) => Ok (None, r)
        | Err e => Err e
        | Ok st => finish k mx st r
        end
    end.

Definition expr_compile (text : list Z) (declare : option (list global_var_declare)) (r : refs) :=
  expr_compile_flags text declare false r.
End Prog.

(** ** Loading values *)

(** [s->value] as an lvalue of the type of [s], for [expr_load_glo]. *)
Definition glo_matches (name : list Z) (s : sym) : bool :=
  (s_token s =? Tk.Id) && (s_class s =? Tk.Glo)
  && same_name (Z.to_nat (LEN (s_hash s))) (s_name s) name.

(** The loop from the last symbol down: [tab] is the reversed table. *)
Fixpoint load_glo_from (tab : list sym) (name : list Z) (value : Z) (m : mem) : res (Z * mem) :=
  match tab with
  | [] => Ok (-1, m)
  | s :: tab =>
      if glo_matches name s then
        match access (s_type s) with
        | None => Ok (-1, m)
        | Some (n, _) =>
            match store m (s_value s) n value with
            | Some m => Ok (0, m)
            | None => Err (Fault "store out of bounds")
            end
        end
      else load_glo_from tab name value m
  end.

Definition expr_load_glo (g : option prog) (name : list Z) (value : Z) : res (Z * option prog) :=
  match g with
  | None => Ok (0, None)
  | Some g =>
      let* (r, m) := load_glo_from (rev (g_symtab g)) name value (g_mem g) in
      Ok (r, Some (set_mem m g))
  end.

(** [memcpy] of [size] bytes of [d], then the NUL. *)
Definition expr_load_data (g : option prog) (d : list Z) (size : Z) : res (Z * option prog) :=
  match g with
  | None => Ok (-1, None)
  | Some g =>
      if g_datasize g <? size then Ok (-1, Some g)
      else
        match g_data g with
        | None => Err (Fault "null data")
        | Some data =>
            if (size <? 0) || (Z.of_nat (length d) <? size) then Err (Fault "read out of bounds")
            else
              if allocated (g_mem g) data (S (Z.to_nat size)) then
                Ok (0, Some (set_mem (poke_bytes (g_mem g) data (take (Z.to_nat size) d ++ [0])) g))
              else Err (Fault "store out of bounds")
        end
  end.

(** [struct expr_global]; [e_data = None] is a null pointer. *)
Record expr_global := mkGlobal {
  e_cpu : Z;
  e_pid : Z;
  e_data : option (list Z);
  e_size : Z
}.

Definition expr_load_global (g : option prog) (gl : option expr_global) : res (Z * option prog) :=
  match g, gl with
  | Some g0, Some gl =>
      let* (r, g) :=
        match e_data gl with
        | Some d => if 0 <? e_size gl then expr_load_data g d (e_size gl) else Ok (0, g)
        | None => Ok (0, g)
        end in
      if negb (r =? 0) then Ok (-1, g)
      else
        match g with
        | None => Ok (-1, None)
        | Some g =>
            let m := poke_bytes (g_mem g) (g_cpu g) (le_split 4 (e_cpu gl)) in
            Ok (0, Some (set_mem (poke_bytes m (g_pid g) (le_split 4 (e_pid gl))) g))
        end
  | _, _ => Ok (-1, g)
  end.

(** [expr_destroy]: the references taken by the compiler are dropped. *)
Definition expr_destroy (g : option prog) (r : refs) : refs :=
  match g with None => r | Some g => ref_syms (-1) (g_symtab g) r end.
