(* ===== verification/ExprVM.v ===== *)
(** * ExprVM: the virtual machine

    Models [expr_run] of src/src/expr.c: one [step] per iteration of its loop.
    The code is read at the addresses [g_base + 8 i]; the stack has 512 words
    and [sp], [bp] are indices into it.  What C leaves undefined (an access out
    of bounds, a division that traps, a shift by a count out of range) is a
    [Fault]; signed arithmetic wraps around.  The library functions are the
    fields of [syslib]. *)

From S2P Require Import Prelude ExprLex ExprComp ExprProg Wildcard.

(** The functions a program may call; strings are addresses. *)
Record syslib := mkLib {
  lib_printf : mem -> list Z -> Z;
  lib_ksymbol : Z -> Z;
  lib_comm_get : Z -> Z;
  lib_syscall_name : Z -> Z;
  lib_exit_reason : Z -> Z -> Z;
  lib_system : mem -> list Z -> Z
}.

(** The C string at [a]: the bytes as [char]s up to the NUL. *)
Fixpoint read_cstr (fuel : nat) (m : mem) (a : Z) : option (list Z) :=
  match fuel with
  | O => None
  | S fuel =>
      match m !! a with
      | None => None
      | Some b =>
          if b =? 0 then Some []
          else match read_cstr fuel m (a + 1) with
               | Some r => Some (s8 b :: r)
               | None => None
               end
      end
  end.

(** A string is no longer than the memory. *)
Definition cstr_at (m : mem) (a : Z) : option (list Z) := read_cstr (S (size m)) m a.

(** [strncmp]: the sign of the first difference, as unsigned characters. *)
Fixpoint strncmp_at (n : nat) (m : mem) (a b : Z) : option Z :=
  match n with
  | O => Some 0
  | S n =>
      match m !! a, m !! b with
      | Some x, Some y =>
          if negb (x =? y) then Some (x - y)
          else if x =? 0 then Some 0
          else strncmp_at n m (a + 1) (b + 1)
      | _, _ => None
      end
  end.

(** Network to host byte order on a little-endian host. *)
Definition ntohl (v : Z) : Z := le_combine (rev (le_split 4 v)).
Definition ntohs (v : Z) : Z := le_combine (rev (le_split 2 v)).

Definition stack_words : Z := 512.

(** The registers, the stack and the memory. *)
Record vm := mkVM {
  v_pc : Z;
  v_sp : Z;
  v_bp : Z;
  v_a : Z;
  v_stack : list Z;
  v_mem : mem
}.

(** Where an iteration ends: at the next one, or by returning from the run. *)
Inductive outcome :=
  | Next (s : vm)
  | Return (v : Z) (m : mem).

Definition stack_fault {A} : res A := Err (Fault "stack access out of bounds").
Definition mem_fault {A} : res A := Err (Fault "memory access out of bounds").
Definition arith_fault {A} : res A := Err (Fault "undefined arithmetic").

Definition set_pc (pc : Z) (s : vm) : vm :=
  mkVM pc (v_sp s) (v_bp s) (v_a s) (v_stack s) (v_mem s).
Definition set_a (a : Z) (s : vm) : vm :=
  mkVM (v_pc s) (v_sp s) (v_bp s) a (v_stack s) (v_mem s).
Definition set_vmem (m : mem) (s : vm) : vm :=
  mkVM (v_pc s) (v_sp s) (v_bp s) (v_a s) (v_stack s) m.

(** The stack word at index [i]. *)
Definition stack_at (i : Z) (s : vm) : res Z :=
  if (0 <=? i) && (i <? stack_words) then
    match v_stack s !! Z.to_nat i with Some w => Ok w | None => stack_fault end
  else stack_fault.

(** [sp = i] *)
Definition move_sp (i : Z) (s : vm) : res vm :=
  if (0 <=? i) && (i <=? stack_words)
  then Ok (mkVM (v_pc s) i (v_bp s) (v_a s) (v_stack s) (v_mem s)) else stack_fault.

(** [*--sp = w] *)
Definition push (w : Z) (s : vm) : res vm :=
  let i := v_sp s - 1 in
  if (0 <=? i) && (i <? stack_words)
  then Ok (mkVM (v_pc s) i (v_bp s) (v_a s) (<[Z.to_nat i := w]> (v_stack s)) (v_mem s))
  else stack_fault.

(** [*sp++] *)
Definition pop (s : vm) : res (Z * vm) :=
  let* w := stack_at (v_sp s) s in
  let* s := move_sp (v_sp s + 1) s in
  Ok (w, s).

(** The value of [x op a] for the binary instructions without memory access. *)
Definition alu (op x a : Z) : res Z :=
  if op =? Op.OR then Ok (Z.lor x a)
  else if op =? Op.XOR then Ok (Z.lxor x a)
  else if op =? Op.AND then Ok (Z.land x a)
  else if op =? Op.EQ then Ok (b2z (x =? a))
  else if op =? Op.NE then Ok (b2z (negb (x =? a)))
  else if op =? Op.LT then Ok (b2z (x <? a))
  else if op =? Op.GT then Ok (b2z (a <? x))
  else if op =? Op.LE then Ok (b2z (x <=? a))
  else if op =? Op.GE then Ok (b2z (a <=? x))
  else if op =? Op.LTu then Ok (b2z (u64 x <? u64 a))
  else if op =? Op.GTu then Ok (b2z (u64 a <? u64 x))
  else if op =? Op.LEu then Ok (b2z (u64 x <=? u64 a))
  else if op =? Op.GEu then Ok (b2z (u64 a <=? u64 x))
  else if op =? Op.SHL then
    if (0 <=? a) && (a <? 64) then Ok (s64 (Z.shiftl x a)) else arith_fault
  else if op =? Op.SHR then
    if (0 <=? a) && (a <? 64) then Ok (s64 (Z.shiftr (u64 x) a)) else arith_fault
  else if op =? Op.SAR then
    if (0 <=? a) && (a <? 64) then Ok (Z.shiftr x a) else arith_fault
  else if op =? Op.ADD then Ok (s64 (x + a))
  else if op =? Op.SUB then Ok (s64 (x - a))
  else if op =? Op.MUL then Ok (s64 (x * a))
  else if op =? Op.DIV then
    if (a =? 0) || ((x =? - 2 ^ 63) && (a =? -1)) then arith_fault else Ok (Z.quot x a)
  else if op =? Op.DIVu then if a =? 0 then arith_fault else Ok (s64 (u64 x / u64 a))
  else if op =? Op.MOD then
    if (a =? 0) || ((x =? - 2 ^ 63) && (a =? -1)) then arith_fault else Ok (Z.rem x a)
  else if op =? Op.MODu then if a =? 0 then arith_fault else Ok (s64 (u64 x mod u64 a))
  else Err (Fault "not an arithmetic instruction").

Definition is_alu (op : Z) : bool :=
  ((Op.LTu <=? op) && (op <=? Op.MODu)).

(** The string instructions [x op a]. *)
Definition str_op (op x a : Z) (m : mem) : res Z :=
  if op =? Op.MATCH then
    let cs y := if y =? 0 then Some None
                else match cstr_at m y with Some s => Some (Some s) | None => None end in
    match cs x, cs a with
    | Some s, Some q =>
        match Wildcard.wildcard_match s q with
        | Some b => Ok (b2z b)
        | None => Err NoFuel
        end
    | _, _ => mem_fault
    end
  else
    match cstr_at m x, cstr_at m a with
    | Some s, Some q =>
        let eq := bool_decide (s = q) in
        Ok (b2z (if op =? Op.STREQ then eq else negb eq))
    | _, _ => mem_fault
    end.

(** The types [LI] and [SI] accept. *)
Definition vm_access (t : Z) : option (nat * bool) :=
  if t =? Ty.PTR then Some (8%nat, false) else access t.

(** [LI t] and [SI t]; the [inr] case is the wrong-instruction return. *)
Definition load_int (t : Z) (s : vm) : res outcome :=
  match vm_access t with
  | None => Ok (Return (-1) (v_mem s))
  | Some (n, sg) =>
      match load (v_mem s) (v_a s) n with
      | Some v => Ok (Next (set_a (extend n sg v) s))
      | None => mem_fault
      end
  end.

Definition store_int (t : Z) (s : vm) : res outcome :=
  match vm_access t with
  | None => Ok (Return (-1) (v_mem s))
  | Some (n, _) =>
      let* (x, s) := pop s in
      match store (v_mem s) x n (v_a s) with
      | Some m => Ok (Next (set_vmem m s))
      | None => mem_fault
      end
  end.

Section Run.
Context (L : syslib) (stk_base : Z).

(** The code word at address [pc]. *)
Definition fetch (g : prog) (pc : Z) : res Z :=
  let d := pc - g_base g in
  if (0 <=? d) && (d mod 8 =? 0) then
    match g_insn g !! Z.to_nat (d / 8) with
    | Some w => Ok w
    | None => Err (Fault "fetch out of bounds")
    end
  else Err (Fault "fetch out of bounds").

Definition stk_addr (i : Z) : Z := stk_base + 8 * i.
Definition stk_index (a : Z) : Z := (a - stk_base) / 8.

(** The words [t[-1] .. t[-n]] for [t = sp + pc[1]]. *)
Fixpoint args_below (n : nat) (t : Z) (s : vm) : res (list Z) :=
  match n with
  | O => Ok []
  | S n =>
      let* w := stack_at (t - 1) s in
      let* r := args_below n (t - 1) s in
      Ok (w :: r)
  end.

(** The first [n] arguments of a call; [pc] is after the call instruction. *)
Definition call_words (n : nat) (g : prog) (s : vm) : res (list Z) :=
  let* c := fetch g (v_pc s + 8) in args_below n (v_sp s + c) s.

(** The calls of library functions. *)
Definition sys_op (op : Z) (g : prog) (s : vm) : res outcome :=
  let ret v := Ok (Next (set_a v s)) in
  if op =? Op.PRTF then let* w := call_words 7 g s in ret (lib_printf L (v_mem s) w)
  else if op =? Op.KSYM then let* w := stack_at (v_sp s) s in ret (lib_ksymbol L (u64 w))
  else if op =? Op.NTHL then let* w := stack_at (v_sp s) s in ret (s32 (ntohl (u32 w)))
  else if op =? Op.NTHS then let* w := stack_at (v_sp s) s in ret (s16 (ntohs (u16 w)))
  else if op =? Op.STRNCMP then
    let* w := call_words 3 g s in
    match w with
    | [x; y; n] =>
        match strncmp_at (Z.to_nat (u64 n)) (v_mem s) x y with
        | Some v => ret v
        | None => mem_fault
        end
    | _ => stack_fault
    end
  else if op =? Op.COMM then let* w := stack_at (v_sp s) s in ret (lib_comm_get L (s32 w))
  else if op =? Op.SYSCALL then let* w := stack_at (v_sp s) s in ret (lib_syscall_name L (s32 w))
  else if op =? Op.KVMEXIT then
    let* w := call_words 2 g s in
    match w with [x; y] => ret (lib_exit_reason L (u32 x) (u32 y)) | _ => stack_fault end
  else if op =? Op.SYSTEM then let* w := call_words 7 g s in ret (lib_system L (v_mem s) w)
  else Ok (Return (-1) (v_mem s)).

Definition is_str_op (op : Z) : bool :=
  (op =? Op.MATCH) || (op =? Op.STREQ) || (op =? Op.STRNE).

(** The instructions with an operand: [s] has [pc] at the operand [w]. *)
Definition operand_op (op w : Z) (s : vm) : res outcome :=
  let pc := v_pc s in
  let s1 := set_pc (pc + 8) s in
  if op =? Op.LEA then Ok (Next (set_a (stk_addr (v_bp s + w)) s1))
  else if op =? Op.IMM then Ok (Next (set_a w s1))
  else if op =? Op.JMP then Ok (Next (set_pc w s))
  else if op =? Op.JSR then let* s := push (pc + 8) s in Ok (Next (set_pc w s))
  else if op =? Op.BZ then Ok (Next (if v_a s =? 0 then set_pc w s else s1))
  else if op =? Op.BNZ then Ok (Next (if v_a s =? 0 then s1 else set_pc w s))
  else if op =? Op.ENT then
    let* s := push (stk_addr (v_bp s)) s1 in
    let s := mkVM (v_pc s) (v_sp s) (v_sp s) (v_a s) (v_stack s) (v_mem s) in
    let* s := move_sp (v_sp s - w) s in Ok (Next s)
  else if op =? Op.ADJ then let* s := move_sp (v_sp s + w) s1 in Ok (Next s)
  else if op =? Op.LI then load_int w s1
  else store_int w s1.

(** One iteration of the loop of [expr_run]. *)
Definition step (g : prog) (s : vm) : res outcome :=
  let* op := fetch g (v_pc s) in
  let s := set_pc (v_pc s + 8) s in
  if (Op.LEA <=? op) && (op <=? Op.SI) then
    let* w := fetch g (v_pc s) in operand_op op w s
  else if op =? Op.LEV then
    let* s := move_sp (v_bp s) s in
    let* (b, s) := pop s in
    let* (r, s) := pop s in
    Ok (Next (mkVM r (v_sp s) (stk_index b) (v_a s) (v_stack s) (v_mem s)))
  else if op =? Op.PSH then let* s := push (v_a s) s in Ok (Next s)
  else if is_alu op then
    let* (x, s) := pop s in
    let* v := alu op x (v_a s) in Ok (Next (set_a v s))
  else if is_str_op op then
    let* (x, s) := pop s in
    let* v := str_op op x (v_a s) (v_mem s) in Ok (Next (set_a v s))
  else if op =? Op.EXIT then Ok (Return (v_a s) (v_mem s))
  else sys_op op g s.

Fixpoint run (n : nat) (g : prog) (s : vm) : res (Z * mem) :=
  match n with
  | O => Err NoFuel
  | S n =>
      let* o := step g s in
      match o with
      | Next s => run n g s
      | Return v m => Ok (v, m)
      end
  end.

(** The state [expr_run] starts in; [stack0] is the uninitialised stack. *)
Definition vm_init (stack0 : list Z) (g : prog) : vm :=
  mkVM (g_base g + 8) stack_words stack_words 0 stack0 (g_mem g).

(** [expr_run]; compiled code only jumps forward, so that each instruction is
    executed at most once. *)
Definition expr_run (stack0 : list Z) (g : prog) : res (Z * prog) :=
  let* (v, m) := run (S (length (g_insn g))) g (vm_init stack0 g) in
  Ok (v, set_mem m g).
End Run.
