(* ===== verification/ExprSpec.v ===== *)
(** * ExprSpec: the expression language

    The reference the compiler and the virtual machine of src/src/expr.c are
    verified against: how a text spells a sequence of tokens, the abstract
    syntax, the grammar with its precedence levels, the static types, the code
    an expression stands for and its value. *)

From Stdlib Require Import Ascii.
From S2P Require Import Prelude Wildcard ExprLex ExprComp ExprProg ExprVM.

(** ** Tokens and their spelling *)

Inductive tok :=
  | TNum (v : Z)
  | TChr (c : Z)
  | TStr (s : list Z)
  | TName (x : list Z)
  | TOp (t : Z).

Definition dec_val (s : list Z) (v : Z) : Z := foldl (fun v c => v * 10 + (c - 48)) v s.
Definition oct_val (s : list Z) (v : Z) : Z := foldl (fun v c => v * 8 + (c - 48)) v s.
Definition hex_digit (c : Z) : Z := Z.land c 15 + (if ch "A" <=? c then 9 else 0).
Definition hex_val (s : list Z) (v : Z) : Z := foldl (fun v c => v * 16 + hex_digit c) v s.

(** The characters between the quotes of a literal and what they stand for. *)
Inductive escaped : list Z -> list Z -> Prop :=
  | esc_nil : escaped [] []
  | esc_char c r s : c <> 0 -> c <> c_dquote -> c <> c_bslash ->
      escaped r s -> escaped (c :: r) (c :: s)
  | esc_nl r s : escaped r s -> escaped (c_bslash :: ch "n" :: r) (c_nl :: s)
  | esc_other c r s : c <> 0 -> c <> ch "n" ->
      escaped r s -> escaped (c_bslash :: c :: r) (c :: s).

(** The spelling of the operators and of the punctuation. *)
Definition op_spelling (t : Z) : list Z :=
  if t =? Tk.Assign then chars "=" else if t =? Tk.Cond then chars "?"
  else if t =? Tk.Lor then chars "||" else if t =? Tk.Lan then chars "&&"
  else if t =? Tk.Or then chars "|" else if t =? Tk.Xor then chars "^"
  else if t =? Tk.And then chars "&" else if t =? Tk.Eq then chars "=="
  else if t =? Tk.Ne then chars "!=" else if t =? Tk.Lt then chars "<"
  else if t =? Tk.Gt then chars ">" else if t =? Tk.Le then chars "<="
  else if t =? Tk.Ge then chars ">=" else if t =? Tk.Match then chars "~"
  else if t =? Tk.Shl then chars "<<" else if t =? Tk.Shr then chars ">>"
  else if t =? Tk.Add then chars "+" else if t =? Tk.Sub then chars "-"
  else if t =? Tk.Mul then chars "*" else if t =? Tk.Div then chars "/"
  else if t =? Tk.Mod then chars "%" else if t =? Tk.Inc then chars "++"
  else if t =? Tk.Dec then chars "--" else if t =? Tk.Brak then chars "["
  else if t =? ch "(" then chars "(" else if t =? ch ")" then chars ")"
  else if t =? ch "]" then chars "]" else if t =? ch ":" then chars ":"
  else if t =? ch "," then chars "," else if t =? ch "!" then chars "!"
  else [].

(** The characters that would make the operator a longer one. *)
Definition op_extends (t c : Z) : bool :=
  if (t =? Tk.Assign) || (t =? ch "!") then c =? ch "="
  else if t =? Tk.Or then c =? ch "|" else if t =? Tk.And then c =? ch "&"
  else if t =? Tk.Add then c =? ch "+" else if t =? Tk.Sub then c =? ch "-"
  else if t =? Tk.Div then c =? ch "/"
  else if t =? Tk.Lt then (c =? ch "=") || (c =? ch "<")
  else if t =? Tk.Gt then (c =? ch "=") || (c =? ch ">")
  else false.

Inductive spells : tok -> list Z -> Prop :=
  | sp_dec c s : is_digit c = true -> c <> 48 -> Forall (fun c => is_digit c = true) s ->
      dec_val (c :: s) 0 < 2 ^ 63 -> spells (TNum (dec_val (c :: s) 0)) (c :: s)
  | sp_hex x s : x = ch "x" \/ x = ch "X" -> Forall (fun c => is_hex c = true) s ->
      hex_val s 0 < 2 ^ 63 -> spells (TNum (hex_val s 0)) (48 :: x :: s)
  | sp_oct s : Forall (fun c => is_octal c = true) s ->
      oct_val s 0 < 2 ^ 63 -> spells (TNum (oct_val s 0)) (48 :: s)
  | sp_chr c : c <> 0 -> c <> c_squote -> c <> c_bslash ->
      spells (TChr c) [c_squote; c; c_squote]
  | sp_str r s : escaped r s -> spells (TStr s) (c_dquote :: r ++ [c_dquote])
  | sp_name c x : is_alpha c = true -> Forall (fun c => is_alnum c = true) x ->
      spells (TName (c :: x)) (c :: x)
  | sp_op t : op_spelling t <> [] -> spells (TOp t) (op_spelling t).

(** Whether [c] may follow the token without a separator. *)
Definition may_follow (t : tok) (c : Z) : bool :=
  match t with
  | TNum _ | TName _ => negb (is_alnum c)
  | TChr _ | TStr _ => true
  | TOp t => negb (op_extends t c)
  end.

Definition blank (c : Z) : bool := (c =? 32) || (c =? 9) || (c =? c_nl).

(** [denotes q ts]: the text [q], which ends in a NUL, spells the tokens [ts],
    with blanks and [#] comments between them. *)
Inductive denotes : list Z -> list tok -> Prop :=
  | dn_end q : denotes (0 :: q) []
  | dn_blank c q ts : blank c = true -> denotes q ts -> denotes (c :: q) ts
  | dn_comment s q ts : Forall (fun c => c <> 0 /\ c <> c_nl) s ->
      Wildcard.hd0 q = 0 \/ Wildcard.hd0 q = c_nl ->
      denotes q ts -> denotes (ch "#" :: s ++ q) ts
  | dn_tok t s q ts : spells t s -> may_follow t (Wildcard.hd0 q) = true ->
      denotes q ts -> denotes (s ++ q) (t :: ts).

(** ** Names *)

Definition name_hash (x : list Z) : Z :=
  match x with
  | [] => 0
  | c :: r => HASH (foldl (fun h c => s64 (h * 147 + c)) c r) (Z.of_nat (length x))
  end.

Definition lookup_name (tab : list sym) (x : list Z) : nat * option sym :=
  find_sym (name_hash x) (length x) x tab 0.

(** ** Abstract syntax *)

Inductive unop := Not | BitNot | Plus.
Inductive bop :=
  | BOr | BXor | BAnd | BEq | BNe | BLt | BGt | BLe | BGe | BMatch
  | BShl | BShr | BAdd | BSub | BMul | BDiv | BMod.

Inductive ast :=
  | ENum (v : Z)
  | EChr (c : Z)
  | EStr (s : list Z)
  | EVar (x : list Z)
  | ESizeof (t : Z)
  | EUn (o : unop) (a : ast)
  | ENeg (a : ast)
  | EDeref (a : ast)
  | EAddr (a : ast)
  | ECast (t : Z) (a : ast)
  | EPre (inc : bool) (a : ast)
  | EPost (inc : bool) (a : ast)
  | EBin (o : bop) (a b : ast)
  | ELogic (cj : bool) (a b : ast)
  | ECond (a b c : ast)
  | EAssign (a b : ast)
  | EIndex (a b : ast).

#[global] Instance bop_eq_dec : EqDecision bop.
Proof. solve_decision. Defined.

Definition un_tok (o : unop) : Z :=
  match o with Not => ch "!" | BitNot => Tk.Match | Plus => Tk.Add end.
Definition bop_tok (o : bop) : Z :=
  match o with
  | BOr => Tk.Or | BXor => Tk.Xor | BAnd => Tk.And | BEq => Tk.Eq | BNe => Tk.Ne
  | BLt => Tk.Lt | BGt => Tk.Gt | BLe => Tk.Le | BGe => Tk.Ge | BMatch => Tk.Match
  | BShl => Tk.Shl | BShr => Tk.Shr | BAdd => Tk.Add | BSub => Tk.Sub
  | BMul => Tk.Mul | BDiv => Tk.Div | BMod => Tk.Mod
  end.

(** The precedence level of an operator, which is the level of its left
    operand, and the level of its right operand. *)
Definition bop_level (o : bop) : Z :=
  match o with
  | BOr => Tk.Or | BXor => Tk.Xor | BAnd => Tk.And | BEq | BNe => Tk.Eq
  | BLt | BGt | BLe | BGe | BMatch => Tk.Lt | BShl | BShr => Tk.Shl
  | BAdd | BSub => Tk.Add | BMul | BDiv | BMod => Tk.Mul
  end.
Definition bop_right (o : bop) : Z :=
  match o with
  | BOr => Tk.Xor | BXor => Tk.And | BAnd => Tk.Eq | BEq | BNe => Tk.Lt
  | BLt | BGt | BLe | BGe | BMatch => Tk.Shl | BShl | BShr => Tk.Add
  | BAdd | BSub => Tk.Mul | BMul | BDiv | BMod => Tk.Inc
  end.

(** The level of the postfix expressions and of the operands. *)
Definition Postfix : Z := 160.

Section Lang.
(** The symbol table, the address of the literals and of the code. *)
Context (tab : list sym) (str_base code_base : Z).

Definition var_sym (x : list Z) : sym := default sym0 (snd (lookup_name tab x)).

Definition is_array (x : list Z) : bool := negb (Z.land (s_type (var_sym x)) Ty.ARRAY =? 0).

(** A type name: one or two keywords and stars. *)
Inductive type_spelled : Z -> list tok -> Prop :=
  | ty_one x : s_token (var_sym x) = Tk.Int ->
      type_spelled (let t := s_type (var_sym x) in
                    if t =? Ty.UNSIGNED then Z.lor t Ty.INT else t) [TName x]
  | ty_two x y : s_token (var_sym x) = Tk.Int -> s_token (var_sym y) = Tk.Int ->
      type_spelled (let t := s_type (var_sym x) in
                    let t := if t =? Ty.UNSIGNED then Z.lor t Ty.INT else t in
                    Z.lor (Z.land t Ty.UNSIGNED) (s_type (var_sym y))) [TName x; TName y]
  | ty_ptr t ts : type_spelled t ts -> type_spelled (t + Ty.PTR) (ts ++ [TOp Tk.Mul]).

(** ** Grammar

    [gram L a ts]: the tokens [ts] are a spelling of [a] at a precedence level
    of at least [L]. *)
Inductive gram : Z -> ast -> list tok -> Prop :=
  | g_num v : gram Postfix (ENum v) [TNum v]
  | g_chr c : gram Postfix (EChr c) [TChr c]
  | g_str s : gram Postfix (EStr s) [TStr s]
  | g_var x : gram Postfix (EVar x) [TName x]
  | g_sizeof x t ts : s_token (var_sym x) = Tk.Sizeof -> type_spelled t ts ->
      gram Postfix (ESizeof t) (TName x :: TOp (ch "(") :: ts ++ [TOp (ch ")")])
  | g_paren a ts : gram Tk.Assign a ts ->
      gram Postfix a (TOp (ch "(") :: ts ++ [TOp (ch ")")])
  | g_post inc a ts : gram Postfix a ts ->
      gram Postfix (EPost inc a) (ts ++ [TOp (if inc then Tk.Inc else Tk.Dec)])
  | g_index a b ts us : gram Postfix a ts -> gram Tk.Assign b us ->
      gram Postfix (EIndex a b) (ts ++ TOp Tk.Brak :: us ++ [TOp (ch "]")])
  | g_minus_num v : gram Tk.Inc (ENum (- v)) [TOp Tk.Sub; TNum v]
  | g_neg a t ts : (forall v, t <> TNum v) -> (forall c, t <> TChr c) ->
      gram Tk.Inc a (t :: ts) -> gram Tk.Inc (ENeg a) (TOp Tk.Sub :: t :: ts)
  | g_un o a ts : gram Tk.Inc a ts -> gram Tk.Inc (EUn o a) (TOp (un_tok o) :: ts)
  | g_deref a ts : gram Tk.Inc a ts -> gram Tk.Inc (EDeref a) (TOp Tk.Mul :: ts)
  | g_addr a ts : gram Tk.Inc a ts -> gram Tk.Inc (EAddr a) (TOp Tk.And :: ts)
  | g_cast t us a ts : type_spelled t us -> gram Tk.Inc a ts ->
      gram Tk.Inc (ECast t a) (TOp (ch "(") :: us ++ TOp (ch ")") :: ts)
  | g_pre inc a ts : gram Tk.Inc a ts ->
      gram Tk.Inc (EPre inc a) (TOp (if inc then Tk.Inc else Tk.Dec) :: ts)
  | g_bin o a b ts us : gram (bop_level o) a ts -> gram (bop_right o) b us ->
      gram (bop_level o) (EBin o a b) (ts ++ TOp (bop_tok o) :: us)
  | g_lor a b ts us : gram Tk.Lor a ts -> gram Tk.Lan b us ->
      gram Tk.Lor (ELogic false a b) (ts ++ TOp Tk.Lor :: us)
  | g_lan a b ts us : gram Tk.Lan a ts -> gram Tk.Or b us ->
      gram Tk.Lan (ELogic true a b) (ts ++ TOp Tk.Lan :: us)
  | g_cond a b c ts us vs : gram Tk.Lor a ts -> gram Tk.Assign b us -> gram Tk.Cond c vs ->
      gram Tk.Cond (ECond a b c) (ts ++ TOp Tk.Cond :: us ++ TOp (ch ":") :: vs)
  | g_assign a b ts us : gram Tk.Inc a ts -> gram Tk.Assign b us ->
      gram Tk.Assign (EAssign a b) (ts ++ TOp Tk.Assign :: us)
  | g_up L L' a ts : L' <= L -> gram L a ts -> gram L' a ts.

(** ** Static semantics *)

Definition ptr_scale (t : Z) : Z :=
  if Ty.PTR + Ty.PTR <=? t then sizeof_ptr else base_size (t - Ty.PTR).
Definition inc_step (t : Z) : Z :=
  if Ty.PTR + Ty.PTR <=? t then sizeof_ptr
  else if Ty.PTR <=? t then base_size (t - Ty.PTR) else 1.
Definition asn (t : Z) : Z := if Ty.PTR <=? t then Ty.PTR else t.

(** The type of an expression. *)
Fixpoint tyof (e : ast) : Z :=
  match e with
  | ENum _ | EChr _ | ESizeof _ | EUn _ _ | ENeg _ | ELogic _ _ _ => Ty.INT
  | EStr _ => CHAR_PTR
  | EVar x =>
      let t := s_type (var_sym x) in
      if is_array x then Z.lor (Z.land t (Z.lnot Ty.ARRAY)) Ty.PTR else t
  | EDeref a | EIndex a _ => tyof a - Ty.PTR
  | EAddr a => tyof a + Ty.PTR
  | ECast t _ => t
  | EPre _ a | EPost _ a | EAssign a _ => tyof a
  | EBin BAdd a _ => tyof a
  | EBin BSub a b =>
      if (Ty.PTR <? tyof a) && (tyof a =? tyof b) then Ty.INT else tyof a
  | EBin _ _ _ => Ty.INT
  | ECond _ _ c => tyof c
  end.

(** The expressions whose value is loaded from an address. *)
Fixpoint lv (e : ast) : bool :=
  match e with
  | EVar x => negb (is_array x)
  | EDeref _ | EIndex _ _ => true
  | ECast _ a | EUn Plus a => lv a
  | _ => false
  end.

(** The type a lvalue is loaded with. *)
Fixpoint ldty (e : ast) : Z :=
  match e with
  | EUn Plus a => ldty a
  | e => asn (tyof e)
  end.

(** The characters the literals of an expression put in the literal buffer. *)
Fixpoint lits (e : ast) : list Z :=
  match e with
  | EChr _ => [0]
  | EStr s => s ++ [0]
  | ENum _ | EVar _ | ESizeof _ => []
  | EUn _ a | ENeg a | EDeref a | EAddr a | ECast _ a | EPre _ a | EPost _ a => lits a
  | EBin _ a b | ELogic _ a b | EAssign a b | EIndex a b => lits a ++ lits b
  | ECond a b c => lits a ++ lits b ++ lits c
  end.
Definition nlits (e : ast) : Z := Z.of_nat (length (lits e)).

(** ** Code

    [cg b k md e] is the code of [e] at index [b] of the buffer, when the
    literals of [e] start at offset [k] of the literal buffer; with [md] it is
    the code of the address of the lvalue [e]. *)

Definition bop_code (o : bop) (t ty : Z) : list Z :=
  match o with
  | BOr => [Op.OR] | BXor => [Op.XOR] | BAnd => [Op.AND]
  | BEq => [str_or Op.STREQ Op.EQ t ty] | BNe => [str_or Op.STRNE Op.NE t ty]
  | BLt => [uns_or Op.LTu Op.LT t ty] | BGt => [uns_or Op.GTu Op.GT t ty]
  | BLe => [uns_or Op.LEu Op.LE t ty] | BGe => [uns_or Op.GEu Op.GE t ty]
  | BMatch => [Op.MATCH]
  | BShl => [Op.SHL] | BShr => [uns_or Op.SHR Op.SAR t ty]
  | BAdd => if Ty.PTR <? t then [Op.PSH; Op.IMM; ptr_scale t; Op.MUL; Op.ADD] else [Op.ADD]
  | BSub =>
      if (Ty.PTR <? t) && (t =? ty) then [Op.SUB; Op.PSH; Op.IMM; ptr_scale ty; Op.DIV]
      else if Ty.PTR <? t then [Op.PSH; Op.IMM; ptr_scale t; Op.MUL; Op.SUB]
      else [Op.SUB]
  | BMul => [Op.MUL] | BDiv => [uns_or Op.DIVu Op.DIV t ty] | BMod => [uns_or Op.MODu Op.MOD t ty]
  end.

Definition at_idx (i : nat) : Z := code_base + 8 * Z.of_nat i.

Definition incdec_code (inc : bool) (ld t : Z) : list Z :=
  [Op.PSH; Op.LI; ld; Op.PSH; Op.IMM; inc_step t; if inc then Op.ADD else Op.SUB; Op.SI; asn t].

Fixpoint cg (b : nat) (k : Z) (md : bool) (e : ast) : list Z :=
  match e with
  | ENum v => [Op.IMM; v]
  | EChr c => [Op.IMM; c]
  | EStr _ => [Op.IMM; str_base + k]
  | EVar x =>
      [Op.IMM; s_value (var_sym x)]
      ++ (if md || is_array x then [] else [Op.LI; asn (s_type (var_sym x))])
  | ESizeof t => [Op.IMM; if Ty.PTR <=? t then sizeof_ptr else base_size t]
  | EUn Not a => cg b k false a ++ [Op.PSH; Op.IMM; 0; Op.EQ]
  | EUn BitNot a => cg b k false a ++ [Op.PSH; Op.IMM; -1; Op.XOR]
  | EUn Plus a => cg b k md a
  | ENeg a => [Op.IMM; -1; Op.PSH] ++ cg (b + 3) k false a ++ [Op.MUL]
  | EDeref a => cg b k false a ++ (if md then [] else [Op.LI; asn (tyof a - Ty.PTR)])
  | EAddr a => cg b k true a
  | ECast t a =>
      if lv a then cg b k true a ++ (if md then [] else [Op.LI; asn t])
      else cg b k false a
  | EPre inc a => cg b k true a ++ incdec_code inc (ldty a) (tyof a)
  | EPost inc a =>
      cg b k true a ++ incdec_code inc (ldty a) (tyof a)
      ++ [Op.PSH; Op.IMM; inc_step (tyof a); if inc then Op.SUB else Op.ADD]
  | EBin o a1 a2 =>
      let c1 := cg b k false a1 in
      c1 ++ [Op.PSH] ++ cg (b + length c1 + 1) (k + nlits a1) false a2
      ++ bop_code o (tyof a1) (tyof a2)
  | ELogic cj a1 a2 =>
      let c1 := cg b k false a1 in
      let c2 := cg (b + length c1 + 2) (k + nlits a1) false a2 in
      c1 ++ [if cj then Op.BZ else Op.BNZ; at_idx (b + length c1 + 2 + length c2)] ++ c2
  | ECond a1 a2 a3 =>
      let c1 := cg b k false a1 in
      let b2 := (b + length c1 + 2)%nat in
      let c2 := cg b2 (k + nlits a1) false a2 in
      let b3 := (b2 + length c2 + 2)%nat in
      let c3 := cg b3 (k + nlits a1 + nlits a2) false a3 in
      c1 ++ [Op.BZ; at_idx b3] ++ c2 ++ [Op.JMP; at_idx (b3 + length c3)] ++ c3
  | EAssign a1 a2 =>
      let c1 := cg b k true a1 in
      c1 ++ [Op.PSH] ++ cg (b + length c1 + 1) (k + nlits a1) false a2 ++ [Op.SI; asn (tyof a1)]
  | EIndex a1 a2 =>
      let c1 := cg b k false a1 in
      c1 ++ [Op.PSH] ++ cg (b + length c1 + 1) (k + nlits a1) false a2
      ++ (if Ty.PTR <? tyof a1 then [Op.PSH; Op.IMM; ptr_scale (tyof a1); Op.MUL] else [])
      ++ [Op.ADD] ++ (if md then [] else [Op.LI; asn (tyof a1 - Ty.PTR)])
  end.

(** The words the compiler emits for an expression, a bound of the code it
    leaves and of what it needs on the way. *)
Fixpoint cost (e : ast) : nat :=
  match e with
  | ENum _ | EChr _ | EStr _ | ESizeof _ => 2
  | EVar _ => 4
  | EUn _ a | ENeg a => cost a + 4
  | EDeref a | ECast _ a => cost a + 2
  | EAddr a => cost a
  | EPre _ a => cost a + 9
  | EPost _ a => cost a + 13
  | EBin _ a b => cost a + cost b + 6
  | ELogic _ a b => cost a + cost b + 2
  | ECond a b c => cost a + cost b + cost c + 4
  | EAssign a b => cost a + cost b + 3
  | EIndex a b => cost a + cost b + 8
  end.

(** The word before the last of a code. *)
Definition before_last (c : list Z) : Z := nth (length c - 2) c 0.

(** The expressions the compiler accepts: the operands have the types and the
    forms the operators ask for, and the operand of a cast that is not a
    lvalue does not end in a word that would be taken for a load. *)
Fixpoint wt (b : nat) (k : Z) (e : ast) : bool :=
  match e with
  | ENum v => (- 2 ^ 63 <? v) && (v <? 2 ^ 63)
  | EChr _ | EStr _ | ESizeof _ => true
  | EVar x => (s_token (var_sym x) =? Tk.Id) && (s_class (var_sym x) =? Tk.Glo)
  | EUn _ a => wt b k a
  | ENeg a => wt (b + 3) k a
  | EDeref a => wt b k a && (Ty.PTR <=? tyof a)
  | EAddr a | EPre _ a | EPost _ a => wt b k a && lv a
  | ECast t a => wt b k a && (lv a || negb (before_last (cg b k false a) =? Op.LI))
  | EBin o a1 a2 =>
      wt b k a1 && wt (b + length (cg b k false a1) + 1) (k + nlits a1) a2
      && (if decide (o = BMatch) then is_char_ptr (tyof a1) && is_char_ptr (tyof a2) else true)
  | ELogic _ a1 a2 => wt b k a1 && wt (b + length (cg b k false a1) + 2) (k + nlits a1) a2
  | ECond a1 a2 a3 =>
      let b2 := (b + length (cg b k false a1) + 2)%nat in
      let b3 := (b2 + length (cg b2 (k + nlits a1) false a2) + 2)%nat in
      wt b k a1 && wt b2 (k + nlits a1) a2 && wt b3 (k + nlits a1 + nlits a2) a3
  | EAssign a1 a2 =>
      wt b k a1 && lv a1 && wt (b + length (cg b k true a1) + 1) (k + nlits a1) a2
  | EIndex a1 a2 =>
      wt b k a1 && (Ty.PTR <=? tyof a1)
      && wt (b + length (cg b k false a1) + 1) (k + nlits a1) a2
  end.

(** ** Values *)

Definition ok {A} (r : res A) : option A := match r with Ok v => Some v | Err _ => None end.

(** The value of an object of type [t] (a type of [LI] and [SI]). *)
Definition load_ty (m : mem) (a t : Z) : option Z :=
  match vm_access t with
  | Some (n, sg) => match load m a n with Some v => Some (extend n sg v) | None => None end
  | None => None
  end.
Definition store_ty (m : mem) (a t v : Z) : option mem :=
  match vm_access t with Some (n, _) => store m a n v | None => None end.

(** [x o y] for operands of types [t] and [ty]: pointer arithmetic is scaled,
    comparison, shift and division are unsigned when an operand is unsigned
    or a pointer, equality of character pointers compares strings. *)
Definition bop_val (o : bop) (t ty x y : Z) (m : mem) : option Z :=
  match o with
  | BOr => ok (alu Op.OR x y) | BXor => ok (alu Op.XOR x y) | BAnd => ok (alu Op.AND x y)
  | BEq => if is_char_ptr t && is_char_ptr ty then ok (str_op Op.STREQ x y m)
           else ok (alu Op.EQ x y)
  | BNe => if is_char_ptr t && is_char_ptr ty then ok (str_op Op.STRNE x y m)
           else ok (alu Op.NE x y)
  | BLt => ok (alu (uns_or Op.LTu Op.LT t ty) x y)
  | BGt => ok (alu (uns_or Op.GTu Op.GT t ty) x y)
  | BLe => ok (alu (uns_or Op.LEu Op.LE t ty) x y)
  | BGe => ok (alu (uns_or Op.GEu Op.GE t ty) x y)
  | BMatch => ok (str_op Op.MATCH x y m)
  | BShl => ok (alu Op.SHL x y)
  | BShr => ok (alu (uns_or Op.SHR Op.SAR t ty) x y)
  | BAdd => if Ty.PTR <? t then Some (s64 (x + s64 (y * ptr_scale t))) else Some (s64 (x + y))
  | BSub =>
      if (Ty.PTR <? t) && (t =? ty) then ok (alu Op.DIV (s64 (x - y)) (ptr_scale ty))
      else if Ty.PTR <? t then Some (s64 (x - s64 (y * ptr_scale t)))
      else Some (s64 (x - y))
  | BMul => Some (s64 (x * y))
  | BDiv => ok (alu (uns_or Op.DIVu Op.DIV t ty) x y)
  | BMod => ok (alu (uns_or Op.MODu Op.MOD t ty) x y)
  end.

Definition step_val (inc : bool) (x d : Z) : Z := if inc then s64 (x + d) else s64 (x - d).

(** The address [r] evaluates to, or ([md = false]) the object of type [t]
    there. *)
Definition loaded (md : bool) (t : Z) (r : option (Z * mem)) : option (Z * mem) :=
  '(x, m) ← r;
  if md then Some (x, m) else v ← load_ty m x t; Some (v, m).

(** The value of [e] in memory [m] and the memory after; with [md] the address
    of the lvalue [e].  [None] when the evaluation is undefined. *)
Fixpoint ev (k : Z) (md : bool) (e : ast) (m : mem) : option (Z * mem) :=
  match e with
  | ENum v => Some (v, m)
  | EChr c => Some (c, m)
  | EStr _ => Some (str_base + k, m)
  | EVar x => loaded (md || is_array x) (asn (s_type (var_sym x))) (Some (s_value (var_sym x), m))
  | ESizeof t => Some (if Ty.PTR <=? t then sizeof_ptr else base_size t, m)
  | EUn Not a => '(x, m) ← ev k false a m; Some (b2z (x =? 0), m)
  | EUn BitNot a => '(x, m) ← ev k false a m; Some (Z.lxor x (-1), m)
  | EUn Plus a => ev k md a m
  | ENeg a => '(x, m) ← ev k false a m; Some (s64 (-1 * x), m)
  | EDeref a => loaded md (asn (tyof a - Ty.PTR)) (ev k false a m)
  | EAddr a => ev k true a m
  | ECast t a => if lv a then loaded md (asn t) (ev k true a m) else ev k false a m
  | EPre inc a =>
      '(x, m) ← ev k true a m;
      v ← load_ty m x (ldty a);
      let v := step_val inc v (inc_step (tyof a)) in
      m ← store_ty m x (asn (tyof a)) v;
      Some (v, m)
  | EPost inc a =>
      '(x, m) ← ev k true a m;
      v ← load_ty m x (ldty a);
      let v := step_val inc v (inc_step (tyof a)) in
      m ← store_ty m x (asn (tyof a)) v;
      Some (step_val (negb inc) v (inc_step (tyof a)), m)
  | EBin o a1 a2 =>
      '(x, m) ← ev k false a1 m;
      '(y, m) ← ev (k + nlits a1) false a2 m;
      v ← bop_val o (tyof a1) (tyof a2) x y m;
      Some (v, m)
  | ELogic cj a1 a2 =>
      '(x, m) ← ev k false a1 m;
      if Bool.eqb (x =? 0) cj then Some (x, m) else ev (k + nlits a1) false a2 m
  | ECond a1 a2 a3 =>
      '(x, m) ← ev k false a1 m;
      if x =? 0 then ev (k + nlits a1 + nlits a2) false a3 m else ev (k + nlits a1) false a2 m
  | EAssign a1 a2 =>
      '(x, m) ← ev k true a1 m;
      '(v, m) ← ev (k + nlits a1) false a2 m;
      m ← store_ty m x (asn (tyof a1)) v;
      Some (v, m)
  | EIndex a1 a2 =>
      '(x, m) ← ev k false a1 m;
      '(y, m) ← ev (k + nlits a1) false a2 m;
      let y := if Ty.PTR <? tyof a1 then s64 (y * ptr_scale (tyof a1)) else y in
      loaded md (asn (tyof a1 - Ty.PTR)) (Some (s64 (x + y), m))
  end.

(** ** Lengths of the code *)

Lemma cg_len2 e : forall b k md, (2 <= length (cg b k md e))%nat.
Proof.
  induction e; intros b k md; cbn [cg];
    try (destruct o); try (destruct (lv e)); rewrite ?length_app; simpl; try lia;
    repeat match goal with H : forall b k md, (2 <= length (cg b k md ?x))%nat |- _ =>
      pose proof (H b k false); pose proof (H b k true); pose proof (H b k md);
      pose proof (H (b + 3)%nat k false); clear H end; try done; lia.
Qed.

Lemma bop_code_len o t ty : (1 <= length (bop_code o t ty) <= 5)%nat.
Proof. destruct o; simpl; repeat case_match; simpl; lia. Qed.

Lemma cg_cost e : forall b k md, (length (cg b k md e) <= cost e)%nat.
Proof.
  induction e; intros b k md; cbn [cg cost];
    try (destruct o); try (destruct (lv e)); rewrite ?length_app; simpl; try lia;
    repeat match goal with |- context [length (cg ?b ?k ?md ?x)] =>
      lazymatch goal with H : (length (cg b k md x) <= _)%nat |- _ => fail | _ => idtac end;
      match goal with IH : forall b k md, (length (cg b k md x) <= _)%nat |- _ =>
        pose proof (IH b k md) end end;
    rewrite ?length_app; simpl; repeat case_match; simpl; try lia.
Qed.
End Lang.
