(* ===== verification/ExprLexProof.v ===== *)
(** * ExprLexProof: properties of the lexer

    The lexer consumes its text, never writes past the literal buffer and keeps
    the symbol table well formed, on every input; and it reads back every text
    that spells a sequence of tokens. *)

From Stdlib Require Import Ascii.
From S2P Require Import Prelude Wildcard ExprLex ExprSpec.

Definition eof : cerr := Fault "read past the end of the text".

(** ** The loops over the text *)

Lemma skip_line_post q :
  match skip_line q with
  | Ok r => (length r <= length q)%nat
  | Err e => e = eof
  end.
Proof.
  induction q as [|c r IH]; [done|]. cbn [skip_line].
  destruct (_ || _); [done|]. destruct (skip_line r); simpl; [lia | done].
Qed.

Lemma ident_rest_post q : forall h n,
  match ident_rest h n q with
  | Ok (_, n', r) => (length r <= length q)%nat /\ (n' + length r = n + length q)%nat
  | Err e => e = eof
  end.
Proof.
  induction q as [|c r IH]; intros h n; [done|]. cbn [ident_rest].
  destruct (is_alnum c); [|simpl; lia].
  specialize (IH (s64 (h * 147 + c)) (S n)).
  destruct (ident_rest _ _ r) as [[[h' n'] r']|]; [simpl; lia | done].
Qed.

Definition num_post (q : list Z) (o : res (Z * list Z)) : Prop :=
  match o with
  | Ok (_, r) => (length r <= length q)%nat
  | Err e => e = eof
  end.

Lemma dec_rest_post q : forall v, num_post q (dec_rest v q).
Proof.
  induction q as [|c r IH]; intros v; [done|]. cbn [dec_rest].
  destruct (is_digit c); [|simpl; lia]. specialize (IH (s64 (v * 10 + c - ch "0"))).
  destruct (dec_rest _ r) as [[v' r']|]; simpl in *; [lia | done].
Qed.

Lemma oct_rest_post q : forall v, num_post q (oct_rest v q).
Proof.
  induction q as [|c r IH]; intros v; [done|]. cbn [oct_rest].
  destruct (is_octal c); [|simpl; lia]. specialize (IH (s64 (v * 8 + c - ch "0"))).
  destruct (oct_rest _ r) as [[v' r']|]; simpl in *; [lia | done].
Qed.

Lemma hex_rest_post q : forall v, num_post q (hex_rest v q).
Proof.
  induction q as [|c r IH]; intros v; [done|]. cbn [hex_rest].
  destruct (_ && _); [|simpl; lia].
  specialize (IH (s64 (v * 16 + Z.land c 15 + (if ch "A" <=? c then 9 else 0)))).
  destruct (hex_rest _ r) as [[v' r']|]; simpl in *; [lia | done].
Qed.

Lemma find_sym_post h n pp tab : forall i,
  match find_sym h n pp tab i with
  | (j, Some s) => (i <= j)%nat /\ tab !! (j - i)%nat = Some s /\ s_token s <> 0
  | (j, None) => (i <= j)%nat /\
      (j = (i + length tab)%nat \/ exists s, tab !! (j - i)%nat = Some s /\ s_token s = 0)
  end.
Proof.
  induction tab as [|s tab IH]; intros i; cbn [find_sym]; [simpl; lia|].
  destruct (Z.eqb_spec (s_token s) 0) as [E|E].
  { split; [lia|]. right. exists s. by rewrite Nat.sub_diag. }
  destruct (_ && _).
  { split; [lia|]. by rewrite Nat.sub_diag. }
  specialize (IH (S i)). destruct (find_sym h n pp tab (S i)) as [j [s'|]].
  - destruct IH as (Hle & Hl & Ht). split; [lia|]. split; [|done].
    replace (j - i)%nat with (S (j - S i)) by lia. done.
  - destruct IH as (Hle & [->|(s' & Hl & Ht)]).
    + split; [lia|]. left. simpl. lia.
    + split; [lia|]. right. exists s'. split; [|done].
      replace (j - i)%nat with (S (j - S i)) by lia. done.
Qed.

(** ** The invariant of the lexer *)

(** The first [n_syms] entries of the table are in use and the others are
    zero, [id] points into it, and what is left of the text fits in what is
    left of the literal buffer. *)
Record lex_wf (strsize : nat) (l : lex) : Prop := {
  wf_str : (length (l_str l) + length (l_p l) <= strsize)%nat;
  wf_nsyms : (l_n_syms l <= nr_syms l)%nat;
  wf_id : (l_id l < nr_syms l)%nat;
  wf_used : Forall (fun s => s_token s <> 0) (take (l_n_syms l) (l_symtab l));
  wf_unused : Forall (fun s => s = sym0) (drop (l_n_syms l) (l_symtab l));
  wf_cur : l_n_syms l = 0%nat \/ (l_id l < l_n_syms l)%nat
}.

(** What a call of the lexer does to the state: the text shrinks, strictly
    unless the end was reached, and the table only grows. *)
Definition advances (l l' : lex) : Prop :=
  (length (l_p l') <= length (l_p l))%nat /\
  (l_tk l' <> 0 -> (length (l_p l') < length (l_p l))%nat) /\
  (nr_syms l <= nr_syms l')%nat /\ (l_n_syms l <= l_n_syms l')%nat.

Definition next_post (strsize : nat) (l : lex) (r : res lex) : Prop :=
  match r with
  | Ok l' => lex_wf strsize l' /\ advances l l'
  | Err e => e = eof
  end.

Lemma used_lookup n l i s :
  lex_wf n l -> l_symtab l !! i = Some s -> s_token s = 0 -> (l_n_syms l <= i)%nat.
Proof.
  intros W Hi Ht. destruct (decide (l_n_syms l <= i)%nat) as [|Hn]; [done|].
  exfalso. pose proof (wf_used _ _ W) as Hu. rewrite Forall_lookup in Hu.
  apply (Hu i s); [|done]. rewrite lookup_take_lt by lia. done.
Qed.

Lemma unused_lookup n l i :
  lex_wf n l -> (l_n_syms l <= i < nr_syms l)%nat -> l_symtab l !! i = Some sym0.
Proof.
  intros W Hi. destruct (lookup_lt_is_Some_2 (l_symtab l) i) as [s Hs];
    [unfold nr_syms in Hi; lia|].
  rewrite Hs. f_equal. pose proof (wf_unused _ _ W) as Hu. rewrite Forall_lookup in Hu.
  apply (Hu (i - l_n_syms l)%nat). rewrite lookup_drop.
  replace (l_n_syms l + (i - l_n_syms l))%nat with i by lia. done.
Qed.

(** The entries before the one a failed scan stops at are in use. *)
Lemma find_sym_before h k pp i tab : forall j,
  find_sym h k pp tab j = (i, None) ->
  forall q s, tab !! q = Some s -> (j + q < i)%nat -> s_token s <> 0.
Proof.
  induction tab as [|s tab IH]; intros j E q s' Hq Hlt; [done|].
  cbn [find_sym] in E.
  destruct (Z.eqb_spec (s_token s) 0) as [|Hs]; [injection E; lia|].
  destruct (_ && _); [done|].
  destruct q as [|q]; simpl in Hq; [congruence|].
  apply (IH (S j) E q); [done | lia].
Qed.

(** The scan of the table stops at the first unused entry. *)
Lemma find_free n l h k pp i :
  lex_wf n l -> find_sym h k pp (l_symtab l) 0 = (i, None) -> i = l_n_syms l.
Proof.
  intros W E. pose proof (find_sym_post h k pp (l_symtab l) 0) as P. rewrite E in P.
  pose proof (wf_nsyms _ _ W) as Hn. unfold nr_syms in Hn.
  assert (Hle : (l_n_syms l <= i)%nat).
  { destruct P as (_ & [->|(s & Hs & Ht)]); [done|].
    rewrite Nat.sub_0_r in Hs. by apply (used_lookup n l i s). }
  destruct (decide (i = l_n_syms l)) as [|Hne]; [done|]. exfalso.
  assert (Hi : (i <= length (l_symtab l))%nat).
  { destruct P as (_ & [->|(s & Hs & Ht)]); [done|].
    rewrite Nat.sub_0_r in Hs. apply Nat.lt_le_incl, lookup_lt_is_Some_1. eauto. }
  apply (find_sym_before _ _ _ _ _ _ E (l_n_syms l) sym0); [|lia|done].
  apply (unused_lookup n); [done | unfold nr_syms; lia].
Qed.

(** ** The branches of the loop *)

Section Next.
Context (str_base : Z) (strsize : nat).

Lemma lex_ident_post c q l :
  lex_wf strsize l -> l_p l = c :: q -> next_post strsize l (lex_ident c q l).
Proof.
  intros W Hp. unfold lex_ident. pose proof (ident_rest_post q c 1) as I.
  destruct (ident_rest c 1 q) as [[[h n] r]|e]; [|done]. destruct I as [I1 I2].
  pose proof (wf_str _ _ W) as Hs. pose proof (wf_nsyms _ _ W) as Hn.
  pose proof (wf_used _ _ W) as Hu. pose proof (wf_unused _ _ W) as Hf.
  rewrite Hp in Hs. simpl in Hs.
  destruct (find_sym _ n (c :: q) (l_symtab l) 0) as [i [s|]] eqn:E.
  - pose proof (find_sym_post (HASH h (Z.of_nat n)) n (c :: q) (l_symtab l) 0) as P.
    rewrite E in P. destruct P as (_ & Hl & Ht). rewrite Nat.sub_0_r in Hl.
    split.
    + constructor; unfold nr_syms; simpl; try done; [lia| |].
      * apply lookup_lt_is_Some_1. eauto.
      * right. destruct (decide (i < l_n_syms l)%nat) as [|Hge]; [done|]. exfalso. apply Ht.
        assert (i < length (l_symtab l))%nat by (apply lookup_lt_is_Some_1; eauto).
        rewrite (unused_lookup strsize l i) in Hl by (done || unfold nr_syms; lia).
        by injection Hl as <-.
    + unfold advances, nr_syms. rewrite Hp. simpl. split_and!; intros; lia.
  - apply (find_free strsize) in E as ->; [|done]. unfold nr_syms in *.
    set (tab := if (l_n_syms l =? length (l_symtab l))%nat
                then l_symtab l ++ replicate 16 sym0 else l_symtab l).
    assert (Ht : (if (l_n_syms l =? length (l_symtab l))%nat
                  then (l_symtab l ++ replicate 16 sym0, l_n_syms l)
                  else (l_symtab l, l_n_syms l)) = (tab, l_n_syms l))
      by (unfold tab; by destruct (_ =? _)%nat).
    rewrite Ht. clear Ht.
    assert (Hlen : (length (l_symtab l) <= length tab)%nat /\ (l_n_syms l < length tab)%nat).
    { unfold tab. destruct (Nat.eqb_spec (l_n_syms l) (length (l_symtab l)));
        rewrite ?length_app, ?length_replicate; lia. }
    assert (Htake : take (l_n_syms l) tab = take (l_n_syms l) (l_symtab l)).
    { unfold tab. destruct (Nat.eqb_spec (l_n_syms l) (length (l_symtab l))); [|done].
      rewrite take_app_le; [done | lia]. }
    assert (Hdrop : Forall (fun s => s = sym0) (drop (l_n_syms l) tab)).
    { unfold tab. destruct (Nat.eqb_spec (l_n_syms l) (length (l_symtab l))); [|done].
      rewrite drop_app_le by lia. apply Forall_app. split; [done|].
      by apply Forall_replicate. }
    destruct (lookup_lt_is_Some_2 tab (l_n_syms l)) as [s Hsym]; [lia|]. rewrite Hsym.
    split.
    + constructor; unfold nr_syms; simpl; rewrite ?length_insert; [lia|lia|lia| | |lia].
      * rewrite (take_S_r _ _ (mkSym Tk.Id (s_class s) (c :: q) (HASH h (Z.of_nat n)) (s_ref s)
                                (s_type s) (s_nr_elm s) (s_value s)))
          by (apply list_lookup_insert_eq; lia).
        rewrite take_insert_ge by lia. apply Forall_app. split; [by rewrite Htake|].
        by constructor.
      * rewrite drop_insert_lt by lia.
        rewrite (drop_S _ _ _ Hsym) in Hdrop. by inversion Hdrop.
    + unfold advances, nr_syms. rewrite Hp. simpl. rewrite length_insert. split_and!; intros; lia.
Qed.

Lemma lex_number_post c q l :
  lex_wf strsize l -> l_p l = c :: q -> next_post strsize l (lex_number c q l).
Proof.
  intros [Hs Hn Hi Hu Hf Hcur] Hp. unfold lex_number. rewrite Hp in Hs. simpl in Hs.
  assert (N : num_post q (if negb (c - ch "0" =? 0) then dec_rest (c - ch "0") q
     else match q with
          | [] => eof_fault
          | x :: q' => if (x =? ch "x") || (x =? ch "X") then hex_rest (c - ch "0") q'
                       else oct_rest (c - ch "0") q
          end)).
  { destruct (negb _); [apply dec_rest_post|]. destruct q as [|x q']; [done|].
    destruct (_ || _); [|apply oct_rest_post].
    pose proof (hex_rest_post q' (c - ch "0")) as H. unfold num_post in *.
    destruct (hex_rest _ q') as [[v r]|]; simpl; [lia | done]. }
  destruct (if negb _ then _ else _) as [[v r]|e]; [|done].
  simpl in N. split; [constructor; simpl; try done; lia|].
  unfold advances. rewrite Hp. unfold nr_syms. simpl. split_and!; intros; lia.
Qed.

Lemma quote_rest_post d q : forall v s,
  (length s + length q < strsize)%nat ->
  match quote_rest strsize d v s q with
  | Ok (_, s', r) => (length s' + length r <= length s + length q)%nat /\ (length r <= length q)%nat /\ (1 <= length r)%nat
  | Err e => e = eof
  end.
Proof.
  induction q as [q IH] using (Nat.measure_induction _ length). intros v s Hs.
  destruct q as [|c r]; [done|]. cbn [quote_rest]. simpl in Hs.
  destruct (_ || _); [simpl; lia|].
  assert (K : forall r', (length r' < length (c :: r))%nat -> forall v' w,
    match (if d =? c_dquote then match put_str strsize w s with
             Ok s => quote_rest strsize d v' s r' | Err er => Err er end
           else quote_rest strsize d v' s r') with
    | Ok (_, s', q') => (length s' + length q' <= length s + length (c :: r))%nat /\ (length q' <= length (c :: r))%nat /\ (1 <= length q')%nat
    | Err e => e = eof
    end).
  { intros r' Hr' v' w. simpl in Hr'. unfold put_str.
    destruct (Nat.ltb_spec (length s) strsize); [|lia].
    destruct (d =? c_dquote).
    - specialize (IH r' Hr' v' (s ++ [w])). rewrite length_app in IH. simpl in IH.
      destruct (quote_rest strsize d v' (s ++ [w]) r') as [[[v1 s1] r1]|];
        [simpl; lia | apply IH; lia].
    - specialize (IH r' Hr' v' s).
      destruct (quote_rest strsize d v' s r') as [[[v1 s1] r1]|];
        [simpl; lia | apply IH; lia]. }
  destruct (c =? c_bslash).
  - destruct r as [|c' r']; [done|]. apply (K r'). simpl. lia.
  - apply (K r). simpl. lia.
Qed.

Lemma lex_quote_post d q l :
  lex_wf strsize l -> l_p l = d :: q -> d <> 0 ->
  next_post strsize l (lex_quote str_base strsize d q l).
Proof.
  intros [Hs Hn Hi Hu Hf Hcur] Hp Hd. unfold lex_quote. rewrite Hp in Hs. simpl in Hs.
  pose proof (quote_rest_post d q (l_ival l) (l_str l)) as Q.
  destruct (quote_rest _ d (l_ival l) (l_str l) q) as [[[v s] r]|e]; [|apply Q; lia].
  destruct Q as (Q1 & Q2 & Q3); [lia|]. unfold put_str.
  destruct (Nat.ltb_spec (length s) strsize); [|lia].
  assert (Ht : (length (tl r) = length r - 1)%nat) by (destruct r; simpl; lia).
  assert (W : forall t v', lex_wf strsize (set_tk t (set_ival v' (set_str (s ++ [0]) (set_p (tl r) l))))
    /\ advances l (set_tk t (set_ival v' (set_str (s ++ [0]) (set_p (tl r) l))))).
  { intros t v'. split.
    - constructor; simpl; rewrite ?length_app; simpl; try done; lia.
    - unfold advances. rewrite Hp. unfold nr_syms. simpl. split_and!; intros; lia. }
  destruct (d =? c_dquote); apply W.
Qed.

Lemma lex_op_post c q l r :
  lex_wf strsize l -> l_p l = c :: q -> lex_op c q l = Some r -> next_post strsize l r.
Proof.
  intros [Hs Hn Hi Hu Hf Hcur] Hp. rewrite Hp in Hs. simpl in Hs.
  assert (S1 : forall t, next_post strsize l (Ok (set_tk t (set_p q l)))).
  { intros t. split; [constructor; simpl; try done; lia|].
    unfold advances. rewrite Hp. unfold nr_syms. simpl. split_and!; intros; lia. }
  assert (S2 : forall t, next_post strsize l (Ok (set_tk t (set_p (tl q) l)))).
  { intros t. assert (length (tl q) <= length q)%nat by (destruct q; simpl; lia).
    split; [constructor; simpl; try done; lia|].
    unfold advances. rewrite Hp. unfold nr_syms. simpl. split_and!; intros; lia. }
  assert (T2 : forall x t t', next_post strsize l (two q x t t' l)).
  { intros x t t'. unfold two, rd. destruct q as [|y q']; [done|].
    destruct (y =? x); [apply S2 | apply S1]. }
  assert (T3 : forall x t x' t' t'', next_post strsize l (three q x t x' t' t'' l)).
  { intros x t x' t' t''. unfold three, rd. destruct q as [|y q']; [done|].
    destruct (y =? x); [apply S2|]. destruct (y =? x'); [apply S2 | apply S1]. }
  unfold lex_op. intros E.
  repeat (case_match; [injection E as <-; first [apply T2 | apply T3 | apply S1]|]).
  done.
Qed.

Lemma next_loop_post n : forall l,
  (length (l_p l) < n)%nat -> lex_wf strsize l ->
  next_post strsize l (next_loop str_base strsize n l).
Proof.
  induction n as [|n IH]; intros l Hn W; [lia|]. cbn [next_loop].
  destruct (l_p l) as [|c q] eqn:Hp; [done|]. cbn [rd tl].
  assert (REC : forall r, (length r <= length q)%nat ->
    next_post strsize l (next_loop str_base strsize n (set_p r l))).
  { intros r Hr. simpl in Hn. specialize (IH (set_p r l)).
    assert (W' : lex_wf strsize (set_p r l)).
    { destruct W as [Hs ? ? ? ? ?]. constructor; simpl; try done. rewrite Hp in Hs.
      simpl in Hs. lia. }
    specialize (IH ltac:(simpl; lia) W'). unfold next_post in *.
    destruct (next_loop _ _ n _) as [l'|]; [|done]. destruct IH as [IH1 (A1 & A2 & A3 & A4)].
    split; [done|]. unfold advances in *. rewrite Hp. simpl in *. unfold nr_syms in *.
    simpl in *. split_and!; intros; lia. }
  destruct (Z.eqb_spec c 0) as [->|Hc].
  { destruct W as [Hs ? ? ? ? ?]. split; [constructor; simpl; try done|].
    unfold advances, nr_syms. simpl. rewrite Hp. simpl. split_and!; [lia | done | lia | lia]. }
  destruct (c =? c_nl); [apply REC; lia|].
  destruct (c =? ch "#").
  { pose proof (skip_line_post q) as P. destruct (skip_line q) as [r|]; [by apply REC | done]. }
  destruct (is_alpha c); [by apply lex_ident_post|].
  destruct (is_digit c); [by apply lex_number_post|].
  destruct (c =? ch "/").
  { destruct q as [|x q']; [done|]. cbn [rd tl]. destruct (x =? ch "/").
    - pose proof (skip_line_post q') as P.
      destruct (skip_line q') as [r|]; [apply REC; simpl; lia | done].
    - destruct W as [Hs ? ? ? ? ?]. rewrite Hp in Hs. simpl in Hs.
      split; [constructor; simpl; try done; lia|].
      unfold advances. rewrite Hp. unfold nr_syms. simpl. split_and!; intros; lia. }
  destruct (_ || _); [by apply lex_quote_post|].
  destruct (lex_op c q l) as [r|] eqn:E; [by eapply lex_op_post|].
  apply REC. lia.
Qed.

Lemma next_spec l :
  lex_wf strsize l -> next_post strsize l (next str_base strsize l).
Proof. intros W. apply next_loop_post; [lia | done]. Qed.
End Next.

(** ** Reading back a text *)

(** Computes the character constants and turns comparisons into arithmetic. *)
Ltac ch_compute :=
  unfold is_alnum, is_hex, is_alpha, is_digit, is_octal, c_nl, c_bslash, c_dquote, c_squote in *;
  repeat match goal with
  | |- context [ch ?c] => let v := eval vm_compute in (ch c) in change (ch c) with v
  | H : context [ch ?c] |- _ => let v := eval vm_compute in (ch c) in change (ch c) with v in H
  end.

Ltac bool_lia :=
  repeat match goal with
  | H : _ && _ = true |- _ => apply andb_prop in H; destruct H
  | H : _ || _ = true |- _ => apply orb_prop in H; destruct H
  | H : negb _ = true |- _ => apply negb_true_iff in H
  | H : _ || _ = false |- _ => apply orb_false_iff in H; destruct H
  end; try lia.

(** The characters of the token [t], in the literal buffer and as a code. *)
Definition tok_lit (t : tok) : list Z :=
  match t with TStr s => s ++ [0] | TChr _ => [0] | _ => [] end.

Definition tok_code (tab : list sym) (t : tok) : Z :=
  match t with
  | TNum _ | TChr _ => Tk.Num
  | TStr _ => c_dquote
  | TName x => s_token (var_sym tab x)
  | TOp t => t
  end.

(** A token the table knows, when it is a name. *)
Definition known (tab : list sym) (t : tok) : Prop :=
  match t with
  | TName x => exists i s, lookup_name tab x = (i, Some s)
  | _ => True
  end.

(** The globals after the token [t] was read from state [l]. *)
Definition shows (str_base : Z) (l : lex) (t : tok) (l' : lex) : Prop :=
  l_tk l' = tok_code (l_symtab l) t /\
  l_str l' = l_str l ++ tok_lit t /\
  l_symtab l' = l_symtab l /\ l_n_syms l' = l_n_syms l /\
  match t with
  | TNum v | TChr v => l_ival l' = v
  | TStr _ => l_ival l' = str_base + Z.of_nat (length (l_str l))
  | TName x => l_id l' = fst (lookup_name (l_symtab l) x)
  | TOp _ => True
  end.

Lemma denotes_cons q ts : denotes q ts -> exists c r, q = c :: r.
Proof.
  induction 1 as [| | |t s q ts Hs _ _ _]; eauto.
  inversion Hs; subst; eauto.
  destruct (op_spelling t0) as [|c r]; [done|]. eauto.
Qed.

Lemma hd0_rd q : (exists c r, q = c :: r) -> rd q = Ok (Wildcard.hd0 q).
Proof. by intros (c & r & ->). Qed.

Lemma skip_line_app s q :
  Forall (fun c => c <> 0 /\ c <> c_nl) s ->
  Wildcard.hd0 q = 0 \/ Wildcard.hd0 q = c_nl -> (exists c r, q = c :: r) ->
  skip_line (s ++ q) = Ok q.
Proof.
  intros Hs Hq (c & r & ->). simpl in Hq.
  induction Hs as [|x s [Hx1 Hx2] Hs IH]; simpl.
  - destruct (Z.eqb_spec c 0), (Z.eqb_spec c c_nl); simpl; try done. tauto.
  - apply Z.eqb_neq in Hx1, Hx2. by rewrite Hx1, Hx2.
Qed.

(** The identifier and number loops stop at the first other character. *)
Lemma ident_rest_app s q : forall h n,
  Forall (fun c => is_alnum c = true) s -> is_alnum (Wildcard.hd0 q) = false ->
  (exists c r, q = c :: r) ->
  ident_rest h n (s ++ q) =
    Ok (foldl (fun h c => s64 (h * 147 + c)) h s, (n + length s)%nat, q).
Proof.
  intros h n Hs Hq (c & r & ->). simpl in Hq. revert h n.
  induction Hs as [|x s Hx Hs IH]; intros h n; simpl.
  - rewrite Hq. by rewrite Nat.add_0_r.
  - by rewrite Hx, IH, Nat.add_succ_r.
Qed.

Definition dec_step (v c : Z) : Z := v * 10 + (c - 48).

Section Number.
(** The three number loops, with base [B] and digit value [dig]. *)
Context (B : Z) (dig : Z -> Z) (isd : Z -> bool) (loop : Z -> list Z -> res (Z * list Z)).
Context (HB : 1 <= B).
Hypothesis dig_nonneg : forall c, isd c = true -> 0 <= dig c.
Hypothesis loop_cons : forall v c r,
  loop v (c :: r) = if isd c then loop (s64 (v * B + dig c)) r else Ok (v, c :: r).

Lemma digits_mono s : forall v, 0 <= v -> Forall (fun c => isd c = true) s ->
  v <= foldl (fun v c => v * B + dig c) v s.
Proof using HB dig_nonneg.
  induction s as [|c s IH]; intros v Hv Hs; simpl; [lia|].
  apply Forall_cons_1 in Hs as [Hc Hs]. pose proof (dig_nonneg c Hc).
  etransitivity; [|apply IH; [nia | done]]. nia.
Qed.

Lemma loop_app s q : forall v, 0 <= v -> Forall (fun c => isd c = true) s ->
  foldl (fun v c => v * B + dig c) v s < 2 ^ 63 ->
  (exists c r, q = c :: r) -> isd (Wildcard.hd0 q) = false ->
  loop v (s ++ q) = Ok (foldl (fun v c => v * B + dig c) v s, q).
Proof using HB dig_nonneg loop_cons.
  intros v Hv Hs Hlt (x & r & ->) Hq. simpl in Hq. revert v Hv Hlt.
  induction s as [|c s IH]; intros v Hv Hlt; simpl.
  - by rewrite loop_cons, Hq.
  - apply Forall_cons_1 in Hs as [Hc Hs]. pose proof (dig_nonneg c Hc).
    rewrite loop_cons, Hc. simpl in Hlt.
    pose proof (digits_mono s (v * B + dig c) ltac:(nia) Hs).
    rewrite swrap_small by (unfold in_s; nia). apply IH; [done | nia | done].
Qed.
End Number.

Lemma dec_rest_app s q v : 0 <= v -> Forall (fun c => is_digit c = true) s ->
  dec_val s v < 2 ^ 63 -> (exists c r, q = c :: r) -> is_digit (Wildcard.hd0 q) = false ->
  dec_rest v (s ++ q) = Ok (dec_val s v, q).
Proof.
  intros. apply (loop_app 10 (fun c => c - 48) is_digit); try done.
  - intros c Hc. ch_compute. bool_lia.
  - intros v' c r. cbn [dec_rest]. change (ch "0") with 48.
    destruct (is_digit c); [|done]. do 2 f_equal. lia.
Qed.

Lemma oct_rest_app s q v : 0 <= v -> Forall (fun c => is_octal c = true) s ->
  oct_val s v < 2 ^ 63 -> (exists c r, q = c :: r) -> is_octal (Wildcard.hd0 q) = false ->
  oct_rest v (s ++ q) = Ok (oct_val s v, q).
Proof.
  intros. apply (loop_app 8 (fun c => c - 48) is_octal); try done.
  - intros c Hc. ch_compute. bool_lia.
  - intros v' c r. cbn [oct_rest]. change (ch "0") with 48.
    destruct (is_octal c); [|done]. do 2 f_equal. lia.
Qed.

Lemma hex_rest_app s q v : 0 <= v -> Forall (fun c => is_hex c = true) s ->
  hex_val s v < 2 ^ 63 -> (exists c r, q = c :: r) -> is_hex (Wildcard.hd0 q) = false ->
  hex_rest v (s ++ q) = Ok (hex_val s v, q).
Proof.
  intros. apply (loop_app 16 hex_digit is_hex); try done.
  - intros c _. unfold hex_digit. assert (0 <= Z.land c 15) by (apply Z.land_nonneg; lia).
    case_match; lia.
  - intros v' c r. cbn [hex_rest].
    destruct (is_hex c) eqn:Hc; rewrite ?andb_false_r; [|done].
    assert (negb (c =? 0) = true) as -> by (ch_compute; bool_lia). simpl.
    unfold hex_digit. do 2 f_equal. lia.
Qed.

Section Read.
Context (str_base : Z) (strsize : nat).

Lemma put_str_ok w s : (length s < strsize)%nat -> put_str strsize w s = Ok (s ++ [w]).
Proof. intros H. unfold put_str. by apply Nat.ltb_lt in H as ->. Qed.

Lemma escaped_len r s : escaped r s -> (length s <= length r)%nat.
Proof. induction 1; simpl; lia. Qed.

Lemma quote_rest_str r body q : escaped r body -> forall v s,
  (length s + length r < strsize)%nat ->
  exists v', quote_rest strsize c_dquote v s (r ++ c_dquote :: q)
             = Ok (v', s ++ body, c_dquote :: q).
Proof.
  induction 1 as [|c r b H1 H2 H3 _ IH|r b _ IH|c r b H1 H2 _ IH]; intros v s Hs;
    cbn [app quote_rest]; simpl in Hs.
  - exists v. simpl. by rewrite app_nil_r.
  - apply Z.eqb_neq in H1, H2, H3. rewrite H1, H2, H3. simpl. rewrite put_str_ok by lia.
    destruct (IH c (s ++ [c])) as [v' ->]; [rewrite length_app; simpl; lia|].
    rewrite <- (assoc_L (++)). eauto.
  - simpl. rewrite put_str_ok by lia.
    destruct (IH c_nl (s ++ [c_nl])) as [v' ->]; [rewrite length_app; simpl; lia|].
    rewrite <- (assoc_L (++)). eauto.
  - simpl. apply Z.eqb_neq in H2. rewrite H2, put_str_ok by lia.
    destruct (IH c (s ++ [c])) as [v' ->]; [rewrite length_app; simpl; lia|].
    rewrite <- (assoc_L (++)). eauto.
Qed.

(** The scan of the table only looks at the characters of the name. *)
Lemma find_sym_name h x q tab : forall i,
  find_sym h (length x) (x ++ q) tab i = find_sym h (length x) x tab i.
Proof.
  induction tab as [|s tab IH]; intros i; cbn [find_sym]; [done|].
  unfold same_name. rewrite take_app_le, IH by lia. done.
Qed.

(** What the first character of a token decides. *)
Lemma spells_first t s q : spells t s ->
  exists c r, s ++ q = c :: r /\ c <> 0 /\ c <> c_nl /\ c <> ch "#".
Proof.
  intros H. inversion H as [c s0 Hc Hn0 Hs Hv|x s0 Hx Hs Hv|s0 Hs Hv|c|r b Hb|c x Hc Hx|t0 Ht]; subst.
  - do 2 eexists. split; [done|]. ch_compute. bool_lia.
  - do 2 eexists. split; [done|]. ch_compute. lia.
  - do 2 eexists. split; [done|]. ch_compute. lia.
  - do 2 eexists. split; [done|]. ch_compute. lia.
  - do 2 eexists. split; [done|]. ch_compute. lia.
  - do 2 eexists. split; [done|]. ch_compute. bool_lia.
  - revert Ht. unfold op_spelling. repeat case_match; intros Ht; try done;
      do 2 eexists; (split; [done|]); ch_compute; lia.
Qed.

(** The iteration that reads a token starts like this. *)
Lemma next_loop_tok n l c r : l_p l = c :: r -> c <> 0 -> c <> c_nl -> c <> ch "#" ->
  next_loop str_base strsize (S n) l =
    (if is_alpha c then lex_ident c r l
     else if is_digit c then lex_number c r l
     else if c =? ch "/" then
       match rd r with
       | Ok x => if x =? ch "/"
                 then match skip_line (tl r) with
                      | Ok r => next_loop str_base strsize n (set_p r l) | Err e => Err e end
                 else Ok (set_tk Tk.Div (set_p r l))
       | Err e => Err e
       end
     else if (c =? c_squote) || (c =? c_dquote) then lex_quote str_base strsize c r l
     else match lex_op c r l with
          | Some r => r
          | None => next_loop str_base strsize n (set_p r l)
          end).
Proof.
  intros Hp H1 H2 H3. cbn [next_loop]. rewrite Hp. cbn [rd tl].
  apply Z.eqb_neq in H1, H2, H3. by rewrite H1, H2, H3.
Qed.

Lemma digit_not_alpha c : is_digit c = true -> is_alpha c = false.
Proof. intros H. ch_compute. bool_lia. Qed.

Lemma not_alnum c : is_alnum c = false ->
  is_digit c = false /\ is_octal c = false /\ is_hex c = false /\ c <> ch "x" /\ c <> ch "X".
Proof. intros H. ch_compute. bool_lia. Qed.

Lemma read_number l s v q n :
  lex_wf strsize l -> spells (TNum v) s -> l_p l = s ++ q -> (exists c r, q = c :: r) ->
  is_alnum (Wildcard.hd0 q) = false ->
  exists l', next_loop str_base strsize (S n) l = Ok l' /\ l_p l' = q /\
             shows str_base l (TNum v) l'.
Proof.
  intros W Hs Hp Hq Hf. apply not_alnum in Hf as (Hf1 & Hf2 & Hf3 & Hf4 & Hf5).
  destruct (spells_first _ _ q Hs) as (c & r & Hc & H0 & Hnl & Hh).
  assert (F : forall v' r', (if negb (c - ch "0" =? 0) then dec_rest (c - ch "0") r
     else match r with [] => eof_fault
          | x :: q' => if (x =? ch "x") || (x =? ch "X") then hex_rest (c - ch "0") q'
                       else oct_rest (c - ch "0") r end) = Ok (v', r') -> is_digit c = true ->
     v' = v -> r' = q ->
     exists l', next_loop str_base strsize (S n) l = Ok l' /\ l_p l' = q /\
             shows str_base l (TNum v) l').
  { intros v' r' E Hd -> ->. rewrite (next_loop_tok n l c r) by congruence.
    rewrite digit_not_alpha, Hd by done. unfold lex_number. rewrite E.
    eexists. split; [done|]. split; [done|]. unfold shows. simpl.
    by rewrite app_nil_r. }
  inversion Hs as [c' s' Hd Hn0 Hds Hv|x s' Hx Hds Hv|s' Hds Hv| | | |]; subst;
    simpl in Hc; injection Hc as <- <-.
  - apply (F (dec_val (c' :: s') 0) q); try done.
    assert (c' - ch "0" <> 0) as E by (ch_compute; lia).
    apply Z.eqb_neq in E. rewrite E. cbn [negb].
    change (dec_val (c' :: s') 0) with (dec_val s' (0 * 10 + (c' - 48))) in *.
    change (0 * 10 + (c' - 48)) with (c' - 48) in *. ch_compute.
    apply dec_rest_app; try done. bool_lia.
  - apply (F (hex_val s' 0) q); try done.
    change (negb (48 - ch "0" =? 0)) with false. cbn match.
    assert ((x =? ch "x") || (x =? ch "X") = true) as ->
      by (destruct Hx as [->| ->]; done).
    by apply hex_rest_app.
  - apply (F (oct_val s' 0) q); try done.
    change (negb (48 - ch "0" =? 0)) with false. cbn match.
    assert (E : exists y q', s' ++ q = y :: q' /\ y <> ch "x" /\ y <> ch "X").
    { destruct s' as [|y s']; simpl.
      - destruct Hq as (y & q' & ->). simpl in *. eauto.
      - apply Forall_cons_1 in Hds as [Hy _]. do 2 eexists. split; [done|].
        ch_compute. bool_lia. }
    destruct E as (y & q' & E & Hy1 & Hy2). rewrite E.
    apply Z.eqb_neq in Hy1, Hy2. rewrite Hy1, Hy2. cbn [orb]. rewrite <- E.
    by apply oct_rest_app.
Qed.

Lemma read_name l x q n :
  lex_wf strsize l -> spells (TName x) x -> l_p l = x ++ q -> (exists c r, q = c :: r) ->
  is_alnum (Wildcard.hd0 q) = false -> known (l_symtab l) (TName x) ->
  exists l', next_loop str_base strsize (S n) l = Ok l' /\ l_p l' = q /\
             shows str_base l (TName x) l'.
Proof.
  intros W Hs Hp Hq Hf (i & s & Hl).
  destruct (spells_first _ _ q Hs) as (c & r & Hc & H0 & Hnl & Hh).
  rewrite (next_loop_tok n l c r) by congruence.
  inversion Hs as [| | | | |c' x' Hd Hx|]; subst. simpl in Hc. injection Hc as <- <-.
  rewrite Hd. unfold lex_ident. rewrite ident_rest_app by done.
  change (c' :: x' ++ q) with ((c' :: x') ++ q).
  change (1 + length x')%nat with (length (c' :: x')).
  rewrite find_sym_name. unfold lookup_name in Hl. cbn [name_hash] in Hl. rewrite Hl.
  eexists. split; [done|]. split; [done|]. unfold shows, tok_code, var_sym, lookup_name.
  cbn [name_hash]. rewrite Hl. simpl. by rewrite app_nil_r.
Qed.

Lemma read_literal l t s q n :
  lex_wf strsize l -> spells t s -> (exists c, t = TChr c) \/ (exists b, t = TStr b) ->
  l_p l = s ++ q ->
  exists l', next_loop str_base strsize (S n) l = Ok l' /\ l_p l' = q /\
             shows str_base l t l'.
Proof.
  intros W Hs Ht Hp.
  destruct (spells_first _ _ q Hs) as (c & r & Hc & H0 & Hnl & Hh).
  pose proof (wf_str _ _ W) as Hlen. rewrite Hp in Hlen.
  rewrite (next_loop_tok n l c r) by congruence.
  destruct Ht as [[c0 ->]|[b ->]];
    inversion Hs as [| | |c' Hc0 Hc1 Hc2|raw b' Hb| |]; subst; injection Hc as <- <-.
  - simpl in Hlen. cbn. unfold lex_quote.
    apply Z.eqb_neq in Hc0, Hc1, Hc2.
    assert (quote_rest strsize c_squote (l_ival l) (l_str l) ([c0; c_squote] ++ q)
            = Ok (c0, l_str l, c_squote :: q)) as E
      by (cbn [app quote_rest]; rewrite Hc0, Hc1, Hc2; done).
    cbn [app] in E. rewrite E, put_str_ok by lia. eexists. split; [done|]. split; [done|].
    done.
  - simpl in Hlen. rewrite !length_app in Hlen. simpl in Hlen. cbn. unfold lex_quote.
    destruct (quote_rest_str raw b q Hb (l_ival l) (l_str l)) as [v E]; [lia|].
    rewrite <- (assoc_L (++)). cbn [app]. rewrite E. pose proof (escaped_len _ _ Hb).
    rewrite put_str_ok by (rewrite length_app; lia).
    eexists. split; [done|]. split; [done|]. unfold shows. simpl.
    by rewrite (assoc_L (++)).
Qed.

Lemma read_op l t q n :
  op_spelling t <> [] -> l_p l = op_spelling t ++ q -> (exists c r, q = c :: r) ->
  op_extends t (Wildcard.hd0 q) = false ->
  exists l', next_loop str_base strsize (S n) l = Ok l' /\ l_p l' = q /\
             shows str_base l (TOp t) l'.
Proof.
  intros Ht Hp (c & r & ->) He. simpl in He.
  assert (next_loop str_base strsize (S n) l = Ok (set_tk t (set_p (c :: r) l))) as ->.
  { revert Ht Hp. unfold op_spelling.
    repeat case_match; intros Ht Hp; try done;
      match goal with H : (t =? _) = true |- _ => apply Z.eqb_eq in H; subst t end;
      unfold op_extends in He; ch_compute; cbn in He; try (apply orb_false_iff in He; destruct He as [He He']);
      rewrite (next_loop_tok _ _ _ _ Hp) by done; unfold lex_op, two, three; ch_compute;
      cbn; rewrite ?He, ?He'; reflexivity. }
  eexists. split; [done|]. split; [done|]. unfold shows. simpl. by rewrite app_nil_r.
Qed.

(** The lexer reads back the tokens a text spells. *)
Lemma next_denotes l t ts :
  lex_wf strsize l -> denotes (l_p l) (t :: ts) -> known (l_symtab l) t ->
  exists l', next str_base strsize l = Ok l' /\ denotes (l_p l') ts /\ shows str_base l t l'.
Proof.
  intros W D K. unfold next. remember (S (length (l_p l))) as n eqn:Hn.
  assert (Hlt : (length (l_p l) < n)%nat) by lia. clear Hn.
  remember (l_p l) as q eqn:Hq. remember (t :: ts) as us eqn:Hus.
  revert n l W Hq K Hlt.
  induction D as [|c q us Hb D IH|s q us Hs Hh D IH|t' s q us Hs Hf D IH];
    intros n l W Hq K Hlt; [done| | |].
  - destruct n as [|n]; [simpl in Hlt; lia|]. specialize (IH Hus n (set_p q l)).
    assert (W' : lex_wf strsize (set_p q l)).
    { destruct W as [Hw ? ? ? ? ?]. constructor; simpl; try done. rewrite <- Hq in Hw.
      simpl in Hw. lia. }
    destruct (IH W' eq_refl K ltac:(simpl in Hlt; lia)) as (l' & E & D' & S').
    exists l'. split; [|done]. rewrite <- E. cbn [next_loop]. rewrite <- Hq. cbn [rd tl].
    unfold blank in Hb. destruct (Z.eqb_spec c c_nl) as [->|]; [done|].
    assert (c = 32 \/ c = 9) as [->| ->] by bool_lia; done.
  - destruct n as [|n]; [simpl in Hlt; lia|]. specialize (IH Hus n (set_p q l)).
    simpl in Hlt. rewrite length_app in Hlt.
    assert (W' : lex_wf strsize (set_p q l)).
    { destruct W as [Hw ? ? ? ? ?]. constructor; simpl; try done. rewrite <- Hq in Hw.
      simpl in Hw. rewrite length_app in Hw. lia. }
    destruct (IH W' eq_refl K ltac:(simpl; lia)) as (l' & E & D' & S').
    exists l'. split; [|done]. rewrite <- E. cbn [next_loop]. rewrite <- Hq. cbn [rd tl].
    rewrite skip_line_app by eauto using denotes_cons. done.
  - injection Hus as -> ->. destruct n as [|n]; [lia|]. symmetry in Hq.
    pose proof (denotes_cons _ _ D) as Hne.
    assert (exists l', next_loop str_base strsize (S n) l = Ok l' /\ l_p l' = q /\
              shows str_base l t l') as (l' & E & Hl & Hsh); [|subst q; eauto].
    destruct t; cbn [may_follow] in Hf; try apply negb_true_iff in Hf.
    + by eapply read_number.
    + eapply read_literal; eauto.
    + eapply read_literal; eauto.
    + assert (s = x) as -> by (by inversion Hs). by apply read_name.
    + assert (s = op_spelling t /\ op_spelling t <> []) as [-> ?] by (by inversion Hs).
      by apply read_op.
Qed.

Lemma next_end l :
  denotes (l_p l) [] ->
  lex_wf strsize l ->
  exists l', next str_base strsize l = Ok l' /\ l_tk l' = 0 /\ l_str l' = l_str l /\
    l_symtab l' = l_symtab l /\ l_n_syms l' = l_n_syms l /\ denotes (l_p l') [].
Proof.
  intros D W. unfold next. remember (S (length (l_p l))) as n eqn:Hn.
  assert (Hlt : (length (l_p l) < n)%nat) by lia. clear Hn.
  remember (l_p l) as q eqn:Hq. remember [] as us eqn:Hus.
  revert n l W Hq Hlt.
  induction D as [q|c q us Hb D IH|s q us Hs Hh D IH|t' s q us Hs Hf D IH];
    intros n l W Hq Hlt; (destruct n as [|n]; [lia|]); [| | |done];
    cbn [next_loop]; rewrite <- Hq; cbn [rd tl].
  - eexists. split; [done|]. simpl. split_and!; try done. rewrite <- Hq. constructor.
  - assert (W' : lex_wf strsize (set_p q l)).
    { destruct W as [Hw ? ? ? ? ?]. constructor; simpl; try done. rewrite <- Hq in Hw.
      simpl in Hw. lia. }
    unfold blank in Hb.
    destruct (IH Hus n (set_p q l) W' eq_refl ltac:(simpl in Hlt; lia)) as (l' & E & R).
    exists l'. split; [|done]. rewrite <- E.
    destruct (Z.eqb_spec c c_nl) as [->|]; [done|].
    assert (c = 32 \/ c = 9) as [->| ->] by bool_lia; done.
  - simpl in Hlt. rewrite length_app in Hlt.
    assert (W' : lex_wf strsize (set_p q l)).
    { destruct W as [Hw ? ? ? ? ?]. constructor; simpl; try done. rewrite <- Hq in Hw.
      simpl in Hw. rewrite length_app in Hw. lia. }
    destruct (IH Hus n (set_p q l) W' eq_refl ltac:(simpl in Hlt; lia)) as (l' & E & R).
    exists l'. split; [|done]. rewrite <- E. simpl.
    rewrite skip_line_app by eauto using denotes_cons. done.
Qed.
End Read.
