(* ===== verification/ExprTerm.v ===== *)
(** * ExprTerm: the compiler terminates on every input

    For every text the recursion of [expr] of src/src/expr.c ends: with the
    fuel the model gives it, the compiler never runs out of it.  On the way the
    literal buffer is never overrun and the symbol table stays well formed; the
    only failures are syntax errors, reads past an unterminated literal, and
    the two missing checks of the code (the size of the code buffer, and the
    symbol pointer held across a growth of the table). *)

From Stdlib Require Import Ascii.
From S2P Require Import Prelude ExprLex ExprComp ExprProg ExprSpec ExprLexProof.

(** The ways a compilation can fail. *)
Definition allowed (e : cerr) : Prop :=
  (exists m, e = Syn m) \/ e = eof \/ e = Fault "code buffer overrun"
  \/ e = Fault "symbol used after the table was reallocated".

(** What is left to read: the text, and the token read ahead. *)
Definition todo (l : lex) : nat := (2 * length (l_p l) + if (l_tk l =? 0)%Z then 0 else 1)%nat.

Section Term.
Context (str_base : Z) (strsize : nat) (le_base : Z).

(** [below m st]: the state is well formed and has less than [m] to read. *)
Definition below (k m : nat) (st : cst) : Prop :=
  lex_wf strsize (c_lex st) /\ (k < l_n_syms (c_lex st))%nat /\ (todo (c_lex st) < m)%nat.

Definition post (k m : nat) (r : res cst) : Prop :=
  match r with Ok st => below k m st | Err e => allowed e end.
Definition post2 (k m : nat) (r : res (Z * cst)) : Prop :=
  match r with Ok (_, st) => below k m st | Err e => allowed e end.

(** A computation that leaves the lexer alone. *)
Definition keeps (st : cst) (r : res cst) : Prop :=
  match r with Ok st' => c_lex st' = c_lex st | Err e => allowed e end.

Lemma below_le k m m' st : below k m st -> (m <= m')%nat -> below k m' st.
Proof. intros (H1 & H2 & H3) H. split_and!; [done | done | lia]. Qed.

Lemma post_le k m m' r : post k m r -> (m <= m')%nat -> post k m' r.
Proof. destruct r; [|done]. intros. by eapply below_le. Qed.

Lemma below_lex k m st st' : c_lex st' = c_lex st -> below k m st -> below k m st'.
Proof. unfold below. by intros ->. Qed.

Lemma post_keeps k m st r : below k m st -> keeps st r -> post k m r.
Proof. destruct r; simpl; [|done]. intros H E. by eapply below_lex. Qed.

(** Sequencing. *)
Lemma bind_post k m m' r f : post k m r -> (forall st, below k m st -> post k m' (f st)) ->
  post k m' (let* st := r in f st).
Proof. destruct r; simpl; auto. Qed.
Lemma bind_post2 k m m' r f :
  post2 k m r -> (forall t st, below k m st -> post k m' (f t st)) ->
  post k m' (match r with Ok (t, st) => f t st | Err e => Err e end).
Proof. destruct r as [[t st]|]; simpl; auto. Qed.
Lemma bind_keeps k m st r f : keeps st r -> (forall st', c_lex st' = c_lex st -> post k m (f st')) ->
  post k m (let* st := r in f st).
Proof. destruct r; simpl; auto. Qed.
Lemma keeps_trans st r k : keeps st r -> (forall st', c_lex st' = c_lex st -> keeps st' (k st')) ->
  keeps st (let* st := r in k st).
Proof.
  destruct r as [st'|]; simpl; [|done]. intros E H. specialize (H st' E).
  destruct (k st'); simpl in *; congruence.
Qed.

Lemma allowed_syn s : allowed (Syn s).
Proof. left. eauto. Qed.
Lemma allowed_code : allowed (Fault "code buffer overrun").
Proof. unfold allowed. tauto. Qed.
Lemma post_syn k m s : post k m (synerr s).
Proof. apply allowed_syn. Qed.
Lemma keeps_syn st s : keeps st (synerr s).
Proof. apply allowed_syn. Qed.

(** The code buffer. *)
Lemma emit_keeps w st : keeps st (emit w st).
Proof. unfold emit. destruct (c_free st); simpl; [apply allowed_code | done]. Qed.
Lemma skip_keeps st : keeps st (skip st).
Proof. unfold skip. destruct (c_free st); simpl; [apply allowed_code | done]. Qed.
Lemma emits_keeps ws : forall st, keeps st (emits ws st).
Proof.
  induction ws as [|w ws IH]; intros st; [done|]. cbn [emits].
  apply keeps_trans; [apply emit_keeps|]. intros st' E. apply IH.
Qed.
Lemma typeop_allowed op t : match typeop op t with Ok _ => True | Err e => allowed e end.
Proof. unfold typeop. repeat (destruct (_ =? Tk.Sizeof) || destruct (_ || _) || destruct (op =? _)); try done.
  apply allowed_syn. Qed.
Lemma emit_typeop_keeps op st : keeps st (emit_typeop op st).
Proof.
  unfold emit_typeop. pose proof (typeop_allowed op (c_ty st)).
  destruct (typeop op (c_ty st)); [apply emit_keeps | done].
Qed.
Lemma keep_address_keeps msg st : keeps st (keep_address msg st).
Proof.
  unfold keep_address. destruct (ends_in_LI st); [|apply keeps_syn].
  pose proof (skip_keeps (patch (e_idx st - 1) Op.PSH st)) as H.
  destruct (skip _); simpl in *; [|done]. by rewrite H.
Qed.

(** The lexer. *)
Lemma nxt_below k m st : below k m st -> post k m (nxt str_base strsize st).
Proof.
  intros (W & H0 & H). unfold nxt. pose proof (next_spec str_base strsize (c_lex st) W) as P.
  destruct (next _ _ _) as [l'|e]; simpl in *; [|subst; right; left; done].
  destruct P as (W' & A1 & A2 & _ & A4). split; [done|]. split; [simpl; lia|]. simpl. unfold todo in *.
  destruct (Z.eqb_spec (l_tk l') 0); [destruct (l_tk (c_lex st) =? 0); lia|].
  specialize (A2 n). destruct (l_tk (c_lex st) =? 0); lia.
Qed.

Lemma nxt_lt k m st : below k (S m) st -> tk st <> 0 -> post k m (nxt str_base strsize st).
Proof.
  intros (W & H0 & H) Ht. unfold nxt. pose proof (next_spec str_base strsize (c_lex st) W) as P.
  destruct (next _ _ _) as [l'|e]; simpl in *; [|subst; right; left; done].
  destruct P as (W' & A1 & A2 & _ & A4). split; [done|]. split; [simpl; lia|]. simpl. unfold todo, tk in *.
  apply Z.eqb_neq in Ht. rewrite Ht in H.
  destruct (Z.eqb_spec (l_tk l') 0); [lia|]. specialize (A2 n). lia.
Qed.

Lemma expect_below k m t msg st : below k m st -> post k m (expect str_base strsize t msg st).
Proof.
  intros H. unfold expect. destruct (_ =? _); [by apply nxt_below | apply post_syn].
Qed.

Lemma id_type_ok k m st : below k m st -> exists t, id_type st = Ok t.
Proof.
  intros (W & _). unfold id_type.
  destruct (lookup_lt_is_Some_2 (l_symtab (c_lex st)) (l_id (c_lex st))) as [s ->]; [|eauto].
  apply (wf_id _ _ W).
Qed.

Lemma alter_bump_wf f i l : (forall s, s_token (f s) = s_token s) -> (i < l_n_syms l)%nat ->
  lex_wf strsize l -> lex_wf strsize (set_symtab (alter f i (l_symtab l)) l).
Proof.
  intros Hf Hi [H1 H2 H3 H4 H5 H6]. unfold nr_syms in *.
  constructor; unfold nr_syms; simpl; rewrite ?length_alter; try done.
  - apply Forall_lookup. intros j s Hj. rewrite Forall_lookup in H4.
    apply lookup_take_Some in Hj as [Hj Hlt].
    destruct (decide (j = i)) as [->|Hne].
    + rewrite list_lookup_alter_eq in Hj. destruct (l_symtab l !! i) as [s0|] eqn:E; [|done].
      injection Hj as <-. rewrite Hf. apply (H4 i). rewrite lookup_take_lt by lia. done.
    + rewrite list_lookup_alter_ne in Hj by done. apply (H4 j).
      rewrite lookup_take_lt by lia. done.
  - apply Forall_lookup. intros j s Hj. rewrite Forall_lookup in H5.
    rewrite lookup_drop in Hj. rewrite list_lookup_alter_ne in Hj by lia.
    apply (H5 j). by rewrite lookup_drop.
Qed.

Lemma stars_below n : forall k m t st, (m <= n)%nat -> below k m st ->
  post2 k m (stars str_base strsize n t st).
Proof.
  induction n as [|n IH]; intros k m t st Hm H; cbn [stars].
  { destruct H as (_ & _ & ?). lia. }
  destruct (Z.eqb_spec (tk st) Tk.Mul) as [E|]; [|done].
  destruct m as [|m]; [destruct H as (_ & _ & ?); lia|].
  assert (P : post k m (nxt str_base strsize st)) by (apply nxt_lt; [done | by rewrite E]).
  destruct (nxt _ _ st) as [st'|]; simpl in P; [|done].
  specialize (IH k m (t + Ty.PTR) st' ltac:(lia) P). unfold post2 in *.
  destruct (stars _ _ _ _ _) as [[t' s]|]; [|done]. eapply below_le; [done | lia].
Qed.

Lemma strings_below n : forall k m st, (m <= n)%nat -> below k m st ->
  post k m (strings str_base strsize n st).
Proof.
  induction n as [|n IH]; intros k m st Hm H; cbn [strings].
  { destruct H as (_ & _ & ?). lia. }
  destruct (Z.eqb_spec (tk st) c_dquote) as [E|]; [|done].
  destruct m as [|m]; [destruct H as (_ & _ & ?); lia|].
  eapply bind_post; [apply (nxt_lt k m); [done | by rewrite E]|].
  intros st' H'. eapply post_le; [apply (IH k m); [lia | done] | lia].
Qed.

Lemma type_name_below n k m st : (m <= n)%nat -> below k m st ->
  post2 k m (type_name str_base strsize n st).
Proof.
  intros Hm H. unfold type_name. destruct (id_type_ok k m st H) as [t ->].
  pose proof (nxt_below k m st H) as P1. destruct (nxt _ _ st) as [st1|]; simpl in P1; [|done].
  destruct (tk st1 =? Tk.Int).
  - destruct (id_type_ok k m st1 P1) as [t' ->].
    pose proof (nxt_below k m st1 P1) as P2. destruct (nxt _ _ st1) as [st2|]; simpl in P2; [|done].
    by apply stars_below.
  - by apply stars_below.
Qed.

Lemma sym_at_post k m nr i st f : below k m st ->
  (forall s, l_symtab (c_lex st) !! i = Some s -> post k m (f s)) ->
  (i < l_n_syms (c_lex st))%nat ->
  post k m (let* s := sym_at nr i st in f s).
Proof.
  intros (W & _ & _) K Hi. unfold sym_at. destruct (_ =? nr)%nat.
  - pose proof (wf_nsyms _ _ W) as Hn. unfold nr_syms in Hn.
    destruct (lookup_lt_is_Some_2 (l_symtab (c_lex st)) i) as [s Hs]; [lia|].
    rewrite Hs. by apply K.
  - unfold post, allowed. tauto.
Qed.

Lemma add_ref_below k m i st : (i < l_n_syms (c_lex st))%nat -> below k m st -> below k m (add_ref i st).
Proof. intros Hi (W & Hn & Ht). split_and!; [|done|done]. by apply alter_bump_wf. Qed.

Lemma below_id k m st : below k m st -> below (l_id (c_lex st)) m st.
Proof. intros (W & Hn & H). split_and!; [done| |done]. destruct (wf_cur _ _ W); lia. Qed.

Lemma post_weaken k k' m r : (k <= k')%nat -> post k' m r -> post k m r.
Proof. destruct r; [|done]. intros Hk (? & ? & ?). split_and!; [done|lia|done]. Qed.

(** ** The recursive functions *)

(** Steps over the code buffer, which leave the state [below] its bound, and
    over the lexer. *)
Ltac keeps_tac :=
  first [apply emits_keeps | apply emit_keeps | apply skip_keeps
        | apply emit_typeop_keeps | apply keep_address_keeps].
Ltac carry E :=
  match type of E with c_lex ?s' = _ =>
    match goal with H : below ?k ?m ?s |- _ =>
      let H' := fresh "B" in pose proof (below_lex k m s s' E H) as H'; clear H end end.
Ltac pstep :=
  match goal with
  | |- post _ _ (let* _ := nxt _ _ _ in _) =>
      eapply bind_post; [apply nxt_below; eassumption | intros ? ?; cbv beta]
  | |- post _ _ (let* _ := expect _ _ _ _ _ in _) =>
      eapply bind_post; [apply expect_below; eassumption | intros ? ?; cbv beta]
  | |- post _ _ (synerr _) => apply post_syn
  | |- post _ _ (match synerr _ with _ => _ end) => apply post_syn
  | |- post _ _ (nxt _ _ _) => apply nxt_below; eassumption
  | |- post _ _ (expect _ _ _ _ _) => apply expect_below; eassumption
  | |- post _ _ (Ok _) => solve [simpl; eassumption]
  | |- post _ _ (match _ with Ok _ => _ | Err _ => _ end) =>
      eapply bind_keeps; [keeps_tac
        | let s := fresh "st" in let E := fresh "E" in intros s E; cbv beta; carry E]
  | |- post _ _ _ => eapply post_keeps; [eassumption | keeps_tac]
  end.

Section Rec.
Context (rec : Z -> cst -> res cst) (n : nat).
Hypothesis Hrec : forall k lev m st, 0 < lev -> (m < n)%nat ->
  below k (S m) st -> post k m (rec lev st).

Lemma rec_le k m lev st : 0 < lev -> (m <= n)%nat -> below k m st -> post k m (rec lev st).
Proof using Hrec.
  intros Hl Hm H. destruct m as [|m]; [destruct H as (_ & _ & ?); lia|].
  apply (post_le k m); [apply Hrec; [done | lia | done] | lia].
Qed.

Ltac rstep := eapply bind_post; [apply rec_le; [done | eassumption | eassumption] | intros ? ?; cbv beta].

Lemma call_args_below N : forall k m t st, (m <= N)%nat -> (m <= n)%nat -> below k m st ->
  post2 k m (call_args str_base strsize rec N t st).
Proof using Hrec.
  induction N as [|N IH]; intros k m t st HN Hm H; cbn [call_args].
  { destruct H as (_ & _ & ?). lia. }
  destruct (_ =? ch ")"); [done|].
  destruct m as [|m]; [destruct H as (_ & _ & ?); lia|].
  pose proof (Hrec k Tk.Assign m st ltac:(done) ltac:(lia) H) as P.
  destruct (rec _ _) as [st1|]; simpl in P; [|done].
  pose proof (emit_keeps Op.PSH st1) as E. destruct (emit _ st1) as [st2|]; simpl in E; [|done].
  pose proof (below_lex k m st1 st2 E P) as P2.
  assert (P3 : post k m (if tk st2 =? ch "," then nxt str_base strsize st2 else Ok st2)).
  { destruct (_ =? _); [by apply nxt_below | done]. }
  destruct (if tk st2 =? ch "," then _ else _) as [st3|]; simpl in P3; [|done].
  specialize (IH k m (t + 1) st3 ltac:(lia) ltac:(lia) P3). unfold post2 in *.
  destruct (call_args _ _ _ _ _ _) as [[t' s]|]; [|done]. eapply below_le; [done|lia].
Qed.

Lemma prim_id_below k m st : (m <= n)%nat -> below k (S m) st -> tk st = Tk.Id ->
  post k m (prim_id str_base strsize rec n st).
Proof using Hrec.
  intros Hm H Ht. unfold prim_id.
  assert (Hk : (k <= l_n_syms (c_lex st))%nat) by (destruct H as (_ & ? & _); lia).
  set (i := l_id (c_lex st)). pose proof (below_id _ _ _ H) as Hi. fold i in Hi.
  assert (Hkn : (k < l_n_syms (c_lex st))%nat) by (destruct H as (_ & ? & _); lia).
  assert (Hmx : below (Nat.max k i) (S m) st).
  { destruct Hi as (W & Hi & Ht'). split_and!; [done | lia | done]. }
  apply (post_weaken k (Nat.max k i)); [lia|]. clear H Hi. generalize dependent i.
  intros i Hmx. set (K := Nat.max k i) in *.
  assert (HK : (i <= K)%nat) by lia. clearbody K.
  eapply bind_post; [apply (nxt_lt K m); [done | by rewrite Ht]|]. intros st1 H1. cbv beta.
  destruct (_ =? ch "(").
  - unfold prim_call. pstep. eapply bind_post2; [by apply call_args_below|].
    intros t st3 H3. cbv beta. pstep. rename st0 into st4. rename H0 into H4.
    apply sym_at_post; [done| |destruct H4 as (_ & ? & _); lia].
    intros s _. apply (bind_post K m).
    + destruct (s_class s =? Tk.Sys); [|destruct (s_class s =? Tk.Fun)].
      * pstep. apply add_ref_below; [|done]. destruct B as (_ & ? & _). lia.
      * pstep. apply add_ref_below; [|done]. destruct B as (_ & ? & _). lia.
      * apply post_syn.
    + intros st5 H5. destruct (t =? 0); [done|]. pstep. pstep.
  - apply sym_at_post; [done| |destruct H1 as (_ & ? & _); lia].
    intros s _. destruct (s_class s =? Tk.Num); [pstep; pstep|].
    unfold prim_var. apply (bind_post K m).
    + destruct (s_class s =? Tk.Loc); [|destruct (s_class s =? Tk.Glo)].
      * pstep. apply add_ref_below; [|done]. destruct B as (_ & ? & _). lia.
      * pstep. apply add_ref_below; [|done]. destruct B as (_ & ? & _). lia.
      * apply post_syn.
    + intros st2 H2. destruct (negb _); [done|]. pstep. pstep.
Qed.

Lemma primary_below k m st : (m <= n)%nat -> below k (S m) st ->
  post k m (primary str_base strsize rec n st).
Proof using Hrec.
  intros Hm H. unfold primary.
  destruct (Z.eqb_spec (tk st) 0) as [|Hn0]; [apply post_syn|].
  assert (N : post k m (nxt str_base strsize st)) by (by apply nxt_lt).
  destruct (Z.eqb_spec (tk st) Tk.Num).
  { unfold prim_num. eapply bind_keeps; [apply emits_keeps|]. intros st1 E.
    eapply bind_post; [apply (nxt_lt k m); [by eapply below_lex | by unfold tk; rewrite E]|].
    intros st2 H2. done. }
  destruct (Z.eqb_spec (tk st) c_dquote).
  { unfold prim_string. eapply bind_keeps; [apply emits_keeps|]. intros st1 E.
    eapply bind_post; [apply (nxt_lt k m); [by eapply below_lex | by unfold tk; rewrite E]|].
    intros st2 H2. eapply bind_post; [by apply strings_below|]. intros st3 H3. done. }
  destruct (_ =? Tk.Sizeof).
  { unfold prim_sizeof. eapply bind_post; [exact N|]. intros st1 H1. cbv beta. pstep.
    destruct (_ =? Tk.Int); [|apply post_syn].
    eapply bind_post2; [by apply type_name_below|]. intros t st3 H3. cbv beta.
    eapply bind_post; [by apply expect_below|]. intros st4 H4. cbv beta. pstep. pstep. pstep. }
  destruct (Z.eqb_spec (tk st) Tk.Id); [by apply prim_id_below|].
  destruct (_ =? ch "(").
  { unfold prim_paren. eapply bind_post; [exact N|]. intros st1 H1. cbv beta.
    destruct (_ =? Tk.Int).
    - eapply bind_post2; [by apply type_name_below|]. intros t st2 H2. cbv beta. pstep. rstep.
      destruct (ends_in_LI _); [|done].
      pose proof (typeop_allowed Tk.Assign (c_ty (set_ty t st3))).
      destruct (typeop _ _); done.
    - rstep. pstep. }
  destruct (_ =? Tk.Mul).
  { unfold prim_deref. eapply bind_post; [exact N|]. intros st1 H1. cbv beta. rstep.
    destruct (_ <=? _); [|apply post_syn]. pstep. pstep. }
  destruct (_ =? Tk.And).
  { unfold prim_addr. eapply bind_post; [exact N|]. intros st1 H1. cbv beta. rstep.
    destruct (ends_in_LI _); [done | apply post_syn]. }
  destruct (_ =? ch "!").
  { unfold prim_not. eapply bind_post; [exact N|]. intros st1 H1. cbv beta. rstep. pstep. pstep. }
  destruct (_ =? Tk.Match).
  { unfold prim_bitnot. eapply bind_post; [exact N|]. intros st1 H1. cbv beta. rstep. pstep. pstep. }
  destruct (_ =? Tk.Add).
  { unfold prim_plus. eapply bind_post; [exact N|]. intros st1 H1. cbv beta. rstep. pstep. }
  destruct (_ =? Tk.Sub).
  { unfold prim_minus. eapply bind_post; [exact N|]. intros st1 H1. cbv beta. pstep.
    apply (bind_post k m).
    - destruct (_ =? Tk.Num); [pstep; pstep|]. pstep. rstep. pstep.
    - intros st3 H3. done. }
  destruct (_ || _); [|apply post_syn].
  unfold prim_incdec. eapply bind_post; [exact N|]. intros st1 H1. cbv beta. rstep.
  pstep. pstep. pstep. pstep. pstep.
Qed.

Lemma binop_below k m st : (m <= n)%nat -> below k (S m) st -> tk st <> 0 ->
  post k m (binop str_base strsize le_base rec st).
Proof using Hrec.
  intros Hm H Hn0. unfold binop.
  assert (N : post k m (nxt str_base strsize st)) by (by apply nxt_lt).
  assert (SI : forall t lev op, 0 < lev -> post k m (bin_simple str_base strsize rec t lev op st)).
  { intros t lev op Hl. unfold bin_simple. eapply bind_post; [exact N|]. intros st1 H1. cbv beta.
    pstep. eapply bind_post; [by apply rec_le|]. intros st2 H2. cbv beta. pstep. pstep. }
  assert (LO : forall j lev, 0 < lev -> post k m (bin_logic str_base strsize le_base rec j lev st)).
  { intros j lev Hl. unfold bin_logic. eapply bind_post; [exact N|]. intros st1 H1. cbv beta.
    pstep. pstep. eapply bind_post; [by apply rec_le|]. intros st3 H3. done. }
  destruct (_ =? Tk.Assign).
  { unfold bin_assign. eapply bind_post; [exact N|]. intros st1 H1. cbv beta.
    destruct (ends_in_LI _); [|apply post_syn]. rstep. pstep. pstep. }
  destruct (_ =? Tk.Cond).
  { unfold bin_cond. eapply bind_post; [exact N|]. intros st1 H1. cbv beta. pstep. pstep. rstep.
    pstep. pstep. pstep. rstep. pstep. }
  destruct (_ =? Tk.Lor); [by apply LO|].
  destruct (_ =? Tk.Lan); [by apply LO|].
  destruct (_ =? Tk.Or); [by apply SI|].
  destruct (_ =? Tk.Xor); [by apply SI|].
  destruct (_ =? Tk.And); [by apply SI|].
  destruct (_ =? Tk.Eq); [by apply SI|].
  destruct (_ =? Tk.Ne); [by apply SI|].
  destruct (_ =? Tk.Lt); [by apply SI|].
  destruct (_ =? Tk.Gt); [by apply SI|].
  destruct (_ =? Tk.Le); [by apply SI|].
  destruct (_ =? Tk.Ge); [by apply SI|].
  destruct (_ =? Tk.Match).
  { unfold bin_match. destruct (negb _); [apply post_syn|].
    eapply bind_post; [exact N|]. intros st1 H1. cbv beta. pstep. rstep.
    destruct (negb _); [apply post_syn|]. pstep. pstep. }
  destruct (_ =? Tk.Shl); [by apply SI|].
  destruct (_ =? Tk.Shr); [by apply SI|].
  destruct (_ =? Tk.Add).
  { unfold bin_add. eapply bind_post; [exact N|]. intros st1 H1. cbv beta. pstep. rstep.
    apply (bind_post k m); [|intros st3 H3; pstep].
    destruct (_ <? _); [|done]. pstep. pstep. pstep. }
  destruct (_ =? Tk.Sub).
  { unfold bin_sub. eapply bind_post; [exact N|]. intros st1 H1. cbv beta. pstep. rstep.
    destruct (_ && _); [pstep; pstep; pstep; pstep|].
    destruct (_ <? _); [pstep; pstep; pstep|]. apply (post_keeps k m (set_ty (c_ty st) st2)); [done|].
    apply emit_keeps. }
  destruct (_ =? Tk.Mul); [by apply SI|].
  destruct (_ =? Tk.Div); [by apply SI|].
  destruct (_ =? Tk.Mod); [by apply SI|].
  destruct (_ || _) eqn:?.
  { unfold bin_incdec. eapply bind_keeps; [apply keep_address_keeps|]. intros st1 E1.
    eapply bind_keeps; [apply emits_keeps|]. intros st2 E2.
    eapply bind_keeps; [apply emit_typeop_keeps|]. intros st3 E3.
    eapply bind_keeps; [apply emits_keeps|]. intros st4 E4.
    eapply bind_keeps; [apply emit_typeop_keeps|]. intros st5 E5.
    eapply bind_keeps; [apply emits_keeps|]. intros st6 E6.
    eapply bind_keeps; [apply emit_typeop_keeps|]. intros st7 E7.
    eapply bind_keeps; [apply emit_keeps|]. intros st8 E8.
    assert (E : c_lex st8 = c_lex st) by congruence.
    apply nxt_lt; [by eapply below_lex | unfold tk; by rewrite E]. }
  destruct (_ =? Tk.Brak); [|apply post_syn].
  unfold bin_brak. eapply bind_post; [exact N|]. intros st1 H1. cbv beta. pstep. rstep. pstep.
  apply (bind_post k m).
  - destruct (_ <? _); [|destruct (_ <? _); [apply post_syn | done]]. pstep. pstep. pstep.
  - intros st4 H4. pstep. pstep. pstep.
Qed.

Lemma climb_below N : forall k m lev st, 0 < lev -> (m <= N)%nat -> (m <= n)%nat ->
  below k m st -> post k m (climb str_base strsize le_base rec N lev st).
Proof using Hrec.
  induction N as [|N IH]; intros k m lev st Hl HN Hm H; cbn [climb].
  { destruct H as (_ & _ & ?). lia. }
  destruct (Z.leb_spec lev (tk st)); [|done].
  destruct m as [|m]; [destruct H as (_ & _ & ?); lia|].
  eapply bind_post; [apply (binop_below k m); [lia | done | lia]|].
  intros st1 H1. cbv beta. apply (post_le k m); [apply IH; [done | lia | lia | done] | lia].
Qed.
End Rec.

Lemma expr_below n : forall k lev m st, 0 < lev -> (m < n)%nat ->
  below k (S m) st -> post k m (expr str_base strsize le_base n lev st).
Proof.
  induction n as [|n IH]; intros k lev m st Hl Hm H; [lia|]. cbn [expr].
  eapply bind_post; [apply (primary_below _ n IH k m); [lia | done]|].
  intros st1 H1. cbv beta. apply (climb_below _ n IH); [done | lia | lia | done].
Qed.
End Term.
