(* ===== verification/ExprMono.v ===== *)
(** * ExprMono: the fuel of the compiler

    A run of the compiler that does not exhaust its fuel gives the same result
    with more fuel. *)

From Stdlib Require Import Ascii.
From S2P Require Import Prelude ExprLex ExprComp.

(** [refines r r']: [r'] is [r], unless [r] ran out of fuel. *)
Definition refines {A} (r r' : res A) : Prop := r = Err NoFuel \/ r = r'.

Lemma refines_refl {A} (r : res A) : refines r r.
Proof. by right. Qed.
Lemma refines_nofuel {A} (r : res A) : refines (Err NoFuel) r.
Proof. by left. Qed.
Lemma bind_refines {A B} (r r' : res A) (f f' : A -> res B) :
  refines r r' -> (forall a, refines (f a) (f' a)) ->
  refines (let* a := r in f a) (let* a := r' in f' a).
Proof.
  intros [->| ->] H; [apply refines_nofuel|]. destruct r'; [apply H | apply refines_refl].
Qed.

Create HintDb refine.
#[export] Hint Resolve refines_refl refines_nofuel : refine.

(** Walks through two programs of the same shape. *)
Ltac refine_step :=
  match goal with
  | |- refines ?r ?r => apply refines_refl
  | |- refines (match ?r with Ok _ => _ | Err _ => _ end) _ => apply bind_refines
  | |- refines (match ?b with true => _ | false => _ end) _ => destruct b
  | |- refines (match ?x with pair _ _ => _ end) _ => destruct x
  | |- forall _, _ => intros ?
  | |- _ => solve [eauto with refine]
  end; cbv beta.
Ltac refine_walk := repeat refine_step.

Section Mono.
Context (str_base : Z) (strsize : nat) (le_base : Z).

Lemma stars_refines n : forall n' t st, (n <= n')%nat ->
  refines (stars str_base strsize n t st) (stars str_base strsize n' t st).
Proof.
  induction n as [|n IH]; intros [|n'] t st Hn; try lia; cbn [stars]; auto with refine.
  assert (forall t st, refines (stars str_base strsize n t st) (stars str_base strsize n' t st))
    by (intros; apply IH; lia).
  refine_walk.
Qed.

Lemma strings_refines n : forall n' st, (n <= n')%nat ->
  refines (strings str_base strsize n st) (strings str_base strsize n' st).
Proof.
  induction n as [|n IH]; intros [|n'] st Hn; try lia; cbn [strings]; auto with refine.
  assert (forall st, refines (strings str_base strsize n st) (strings str_base strsize n' st))
    by (intros; apply IH; lia).
  refine_walk.
Qed.

Lemma type_name_refines n n' st : (n <= n')%nat ->
  refines (type_name str_base strsize n st) (type_name str_base strsize n' st).
Proof.
  intros Hn. pose proof (fun t st => stars_refines n n' t st Hn). unfold type_name.
  refine_walk.
Qed.

Section Rec.
Context (rec rec' : Z -> cst -> res cst).
Hypothesis Hrec : forall lev st, refines (rec lev st) (rec' lev st).

Lemma call_args_refines n : forall n' t st, (n <= n')%nat ->
  refines (call_args str_base strsize rec n t st) (call_args str_base strsize rec' n' t st).
Proof using Hrec.
  induction n as [|n IH]; intros [|n'] t st Hn; try lia; cbn [call_args]; auto with refine.
  assert (forall t st, refines (call_args str_base strsize rec n t st)
                         (call_args str_base strsize rec' n' t st)) by (intros; apply IH; lia).
  refine_walk.
Qed.

Lemma primary_refines n n' st : (n <= n')%nat ->
  refines (primary str_base strsize rec n st) (primary str_base strsize rec' n' st).
Proof using Hrec.
  intros Hn. pose proof (fun st => strings_refines n n' st Hn).
  pose proof (fun st => type_name_refines n n' st Hn).
  pose proof (fun t st => call_args_refines n n' t st Hn).
  unfold primary, prim_num, prim_string, prim_sizeof, prim_id, prim_call, prim_var, prim_paren,
    prim_deref, prim_addr, prim_not, prim_bitnot, prim_plus, prim_minus, prim_incdec.
  refine_walk.
Qed.

Lemma binop_refines st :
  refines (binop str_base strsize le_base rec st) (binop str_base strsize le_base rec' st).
Proof using Hrec.
  unfold binop, bin_assign, bin_cond, bin_logic, bin_simple, bin_match, bin_add, bin_sub,
    bin_incdec, bin_brak.
  refine_walk.
Qed.

Lemma climb_refines n : forall n' lev st, (n <= n')%nat ->
  refines (climb str_base strsize le_base rec n lev st)
    (climb str_base strsize le_base rec' n' lev st).
Proof using Hrec.
  induction n as [|n IH]; intros [|n'] lev st Hn; try lia; cbn [climb]; auto with refine.
  assert (forall lev st, refines (climb str_base strsize le_base rec n lev st)
                           (climb str_base strsize le_base rec' n' lev st))
    by (intros; apply IH; lia).
  pose proof binop_refines. refine_walk.
Qed.
End Rec.

Lemma expr_refines n : forall n' lev st, (n <= n')%nat ->
  refines (expr str_base strsize le_base n lev st) (expr str_base strsize le_base n' lev st).
Proof.
  induction n as [|n IH]; intros [|n'] lev st Hn; try lia; cbn [expr]; auto with refine.
  assert (R : forall lev st, refines (expr str_base strsize le_base n lev st)
                               (expr str_base strsize le_base n' lev st))
    by (intros; apply IH; lia).
  apply bind_refines; [apply primary_refines; [done | lia]|].
  intros st'. apply climb_refines; [done | lia].
Qed.

(** The fuel does not matter once there is enough of it. *)
Lemma expr_fuel n n' lev st r :
  expr str_base strsize le_base n lev st <> Err NoFuel ->
  expr str_base strsize le_base n' lev st = r -> r <> Err NoFuel ->
  expr str_base strsize le_base n lev st = r.
Proof.
  intros Hn <- Hr. destruct (Nat.le_ge_cases n n') as [H|H].
  - by destruct (expr_refines n n' lev st H).
  - by destruct (expr_refines n' n lev st H).
Qed.
End Mono.
