(* ===== verification/ExprParse.v ===== *)
(** * ExprParse: the compiler implements the grammar

    For every spelling of an expression of the grammar, [expr] of src/src/expr.c
    consumes exactly its tokens and emits exactly its code, with the type of the
    expression: the precedence climbing gives every operator the level and the
    associativity of the grammar. *)

From Stdlib Require Import Ascii.
From S2P Require Import Prelude Wildcard ExprLex ExprComp ExprProg ExprVM ExprSpec ExprLexProof ExprTerm.

(** ** Symbol tables up to the reference counts *)

Definition noref (s : sym) : sym :=
  mkSym (s_token s) (s_class s) (s_name s) (s_hash s) 0 (s_type s) (s_nr_elm s) (s_value s).
Definition same_tab (t t' : list sym) : Prop := map noref t = map noref t'.

#[global] Instance same_tab_equiv : Equivalence same_tab.
Proof. split; unfold same_tab; congruence. Qed.

Lemma noref_fields s s' : noref s = noref s' ->
  s_token s = s_token s' /\ s_class s = s_class s' /\ s_name s = s_name s' /\
  s_hash s = s_hash s' /\ s_type s = s_type s' /\ s_value s = s_value s'.
Proof. intros H. injection H. tauto. Qed.

Lemma same_tab_lookup t t' i s : same_tab t t' -> t !! i = Some s ->
  exists s', t' !! i = Some s' /\ noref s = noref s'.
Proof.
  intros H Hi. assert (E : map noref t !! i = map noref t' !! i) by (by rewrite H).
  rewrite !list_lookup_fmap, Hi in E. destruct (t' !! i) as [s'|]; [|done].
  apply (inj Some) in E. eauto.
Qed.

Lemma same_tab_length t t' : same_tab t t' -> length t = length t'.
Proof. intros H. rewrite <- (length_map noref t), <- (length_map noref t'). by rewrite H. Qed.

Lemma find_sym_same h n pp t : forall t' i, same_tab t t' ->
  fst (find_sym h n pp t i) = fst (find_sym h n pp t' i) /\
  (noref <$> snd (find_sym h n pp t i)) = (noref <$> snd (find_sym h n pp t' i)).
Proof.
  induction t as [|s t IH]; intros [|s' t'] i H; try done.
  unfold same_tab in H. simpl in H. injection H as Hs Ht. cbn [find_sym].
  assert (N : noref s = noref s') by (unfold noref; congruence).
  destruct (noref_fields _ _ N) as (E1 & _ & E3 & E4 & _). rewrite E1, E3, E4.
  destruct (_ =? 0); [done|]. destruct (_ && _); [|by apply IH]. simpl. by rewrite N.
Qed.

Lemma var_sym_same t t' x : same_tab t t' -> noref (var_sym t x) = noref (var_sym t' x).
Proof.
  intros H. unfold var_sym, lookup_name.
  destruct (find_sym_same (name_hash x) (length x) x t t' 0 H) as [_ E].
  destruct (snd (find_sym _ _ x t 0)), (snd (find_sym _ _ x t' 0)); simpl in *; congruence.
Qed.

Lemma tok_code_same t t' k : same_tab t t' -> tok_code t k = tok_code t' k.
Proof.
  intros H. destruct k; try done. simpl.
  by destruct (noref_fields _ _ (var_sym_same _ _ x H)) as (-> & _).
Qed.

Lemma known_same t t' k : same_tab t t' -> known t k -> known t' k.
Proof.
  intros H. destruct k; try done. simpl. intros (i & s & E). unfold lookup_name in *.
  destruct (find_sym_same (name_hash x) (length x) x t t' 0 H) as [E1 E2].
  rewrite E in E1, E2. simpl in *.
  destruct (find_sym _ _ x t' 0) as [j [s'|]]; [eauto | done].
Qed.

Lemma same_tab_alter f i t : (forall s, noref (f s) = noref s) -> same_tab (alter f i t) t.
Proof.
  intros Hf. unfold same_tab. apply list_eq. intros j. rewrite !list_lookup_fmap.
  destruct (decide (i = j)) as [->|Hne].
  - rewrite list_lookup_alter_eq. destruct (t !! j); simpl; [by rewrite Hf | done].
  - by rewrite list_lookup_alter_ne.
Qed.

(** ** Lists *)

Lemma insert_mid {A} (l1 l2 : list A) w v i :
  i = length l1 -> <[i := v]> (l1 ++ w :: l2) = l1 ++ v :: l2.
Proof. intros ->. rewrite <- (Nat.add_0_r (length l1)), insert_app_r. done. Qed.

Lemma nth_before_last l w1 w2 : nth (length (l ++ [w1; w2]) - 2) (l ++ [w1; w2]) 0 = w1.
Proof.
  rewrite length_app. simpl. replace (length l + 2 - 2)%nat with (length l) by lia.
  rewrite app_nth2 by lia. by rewrite Nat.sub_diag.
Qed.

(** ** Eventually: for every fuel from some point on *)

Definition ev_ok {A} (f : nat -> res A) (r : A) : Prop :=
  exists n0, forall n, (n0 <= n)%nat -> f n = Ok r.

Lemma ev_const {A} (f : nat -> res A) r : (forall n, f n = Ok r) -> ev_ok f r.
Proof. exists 0%nat. auto. Qed.
Lemma ev_bind {A B} (f : nat -> res A) r (g : nat -> A -> res B) r' :
  ev_ok f r -> ev_ok (fun n => g n r) r' -> ev_ok (fun n => let* x := f n in g n x) r'.
Proof.
  intros [n1 H1] [n2 H2]. exists (Nat.max n1 n2). intros n Hn. rewrite H1 by lia.
  apply H2. lia.
Qed.
Lemma ev_now {A B} (m : res A) r (g : nat -> A -> res B) r' :
  m = Ok r -> ev_ok (fun n => g n r) r' -> ev_ok (fun n => let* x := m in g n x) r'.
Proof. intros -> H. done. Qed.

Section Parse.
Context (tab : list sym) (str_base : Z) (strsize : nat) (le_base : Z).

Abbreviation nxt := (nxt str_base strsize).
Abbreviation expr := (expr str_base strsize le_base).
Abbreviation climb := (climb str_base strsize le_base).
Abbreviation cg := (cg tab str_base le_base).
Abbreviation tyof := (tyof tab).
Abbreviation wt := (wt tab str_base le_base).

(** The code of the first token; 0 at the end of the text. *)
Definition first (ts : list tok) : Z :=
  match ts with [] => 0 | t :: _ => tok_code tab t end.

(** [stream pre l ts]: the current token and the text of [l] are the tokens
    [ts]; [pre] is what the tokens before them left in the literal buffer. *)
Definition stream (pre : list Z) (l : lex) (ts : list tok) : Prop :=
  lex_wf strsize l /\ same_tab (l_symtab l) tab /\ Forall (known tab) ts /\
  l_tk l = first ts /\
  match ts with
  | [] => l_str l = pre /\ denotes (l_p l) []
  | t :: ts' =>
      l_str l = pre ++ tok_lit t /\ denotes (l_p l) ts' /\
      match t with
      | TNum v | TChr v => l_ival l = v
      | TStr _ => l_ival l = str_base + Z.of_nat (length pre)
      | TName x => l_id l = fst (lookup_name tab x)
      | TOp _ => True
      end
  end.

Lemma stream_tk pre l ts : stream pre l ts -> l_tk l = first ts.
Proof. intros H. apply H. Qed.

(** Reading the next token. *)
Lemma next_stream pre l t ts : stream pre l (t :: ts) ->
  exists l', next str_base strsize l = Ok l' /\ stream (pre ++ tok_lit t) l' ts.
Proof.
  intros (W & T & K & _ & Hs & D & _). apply Forall_cons_1 in K as [_ K].
  pose proof (next_spec str_base strsize l W) as NP.
  destruct ts as [|t' ts].
  - destruct (next_end str_base strsize l D W) as (l' & E & H1 & H2 & H3 & H4 & H5).
    exists l'. split; [done|]. rewrite E in NP. destruct NP as [W' _].
    split_and!; try done; congruence.
  - apply Forall_cons_1 in K as K'. destruct K' as [K' _].
    destruct (next_denotes str_base strsize l t' ts W D) as (l' & E & D' & S1 & S2 & S3 & S4 & S5).
    { by eapply known_same. }
    exists l'. split; [done|]. rewrite E in NP. destruct NP as [W' _].
    split_and!; try done.
    + by rewrite S3.
    + rewrite S1. by apply tok_code_same.
    + by rewrite S2, Hs.
    + destruct t'; try done.
      * rewrite S5, Hs. done.
      * rewrite S5. unfold lookup_name.
        apply (find_sym_same (name_hash x) (length x) x _ _ 0 T).
Qed.

Lemma nxt_stream pre l t ts c f ty : stream pre l (t :: ts) ->
  exists l', nxt (mkC l c f ty) = Ok (mkC l' c f ty) /\ stream (pre ++ tok_lit t) l' ts.
Proof.
  intros H. destruct (next_stream _ _ _ _ H) as (l' & E & S'). exists l'.
  unfold ExprComp.nxt. simpl. by rewrite E.
Qed.

(** A token that is no literal. *)
Lemma nxt_op pre l t ts c f ty : stream pre l (t :: ts) -> tok_lit t = [] ->
  exists l', nxt (mkC l c f ty) = Ok (mkC l' c f ty) /\ stream pre l' ts.
Proof.
  intros H E. destruct (nxt_stream _ _ _ _ c f ty H) as (l' & E' & S').
  rewrite E, app_nil_r in S'. eauto.
Qed.

Lemma expect_op pre l t ts c f ty msg : stream pre l (TOp t :: ts) ->
  exists l', expect str_base strsize t msg (mkC l c f ty) = Ok (mkC l' c f ty) /\ stream pre l' ts.
Proof.
  intros H. unfold expect, tk. simpl. rewrite (stream_tk _ _ _ H). simpl. rewrite Z.eqb_refl.
  by apply (nxt_op _ _ _ _ _ _ _ H).
Qed.

(** ** The code buffer on explicit states *)

Lemma emit_ok w l c f ty : (1 <= length f)%nat ->
  emit w (mkC l c f ty) = Ok (mkC l (c ++ [w]) (drop 1 f) ty).
Proof. intros H. unfold emit. simpl. destruct f; [simpl in H; lia | done]. Qed.

Lemma emits_ok ws l ty : forall c f, (length ws <= length f)%nat ->
  emits ws (mkC l c f ty) = Ok (mkC l (c ++ ws) (drop (length ws) f) ty).
Proof.
  induction ws as [|w ws IH]; intros c f Hf; cbn [emits].
  - by rewrite app_nil_r.
  - simpl in Hf. rewrite emit_ok by lia. rewrite IH by (rewrite length_drop; lia).
    by rewrite <- app_assoc, drop_drop.
Qed.

Lemma skip_ok l c f ty : (1 <= length f)%nat ->
  exists w, skip (mkC l c f ty) = Ok (mkC l (c ++ [w]) (drop 1 f) ty).
Proof. intros H. unfold skip. simpl. destruct f as [|w f]; [simpl in H; lia|]. by exists w. Qed.

Lemma typeop_Assign t : typeop Tk.Assign t = Ok (asn t).
Proof. done. Qed.
Lemma typeop_scale op t : op = Tk.Add \/ op = Tk.Sub \/ op = Tk.Brak ->
  typeop op t = Ok (ptr_scale t).
Proof. by intros [->|[->| ->]]. Qed.
Lemma typeop_step (inc : bool) t : typeop (if inc then Tk.Inc else Tk.Dec) t = Ok (inc_step t).
Proof. by destruct inc. Qed.

Lemma emit_typeop_ok op v l c f ty : typeop op ty = Ok v -> (1 <= length f)%nat ->
  emit_typeop op (mkC l c f ty) = Ok (mkC l (c ++ [v]) (drop 1 f) ty).
Proof. intros E Hf. unfold emit_typeop. simpl. rewrite E. by apply emit_ok. Qed.

Lemma ends_in_LI_app l c w1 w2 f ty :
  ends_in_LI (mkC l (c ++ [w1; w2]) f ty) = (w1 =? Op.LI).
Proof. unfold ends_in_LI, word_before. simpl. by rewrite nth_before_last. Qed.

Lemma drop_words_app l c ws f ty n : n = length ws ->
  drop_words n (mkC l (c ++ ws) f ty) = mkC l c (ws ++ f) ty.
Proof.
  intros ->. unfold drop_words. simpl. rewrite length_app, Nat.add_sub.
  by rewrite take_app_length, drop_app_length.
Qed.

Lemma patch_app l c w c' f ty d v : d = length c ->
  patch d v (mkC l (c ++ w :: c') f ty) = mkC l (c ++ v :: c') f ty.
Proof. intros H. unfold patch. simpl. by rewrite insert_mid. Qed.

Lemma e_idx_eq l c f ty : e_idx (mkC l c f ty) = (length c - 1)%nat.
Proof. done. Qed.

(** The address of a lvalue is kept below its value. *)
Lemma keep_address_ok msg l c t f ty : (1 <= length f)%nat ->
  keep_address msg (mkC l (c ++ [Op.LI; t]) f ty)
  = Ok (mkC l (c ++ [Op.PSH; Op.LI; t]) (drop 1 f) ty).
Proof.
  intros Hf. unfold keep_address. rewrite ends_in_LI_app, Z.eqb_refl.
  rewrite e_idx_eq, length_app. simpl length.
  rewrite patch_app by lia.
  destruct (skip_ok l (c ++ [Op.PSH; t]) f ty Hf) as [w ->].
  rewrite e_idx_eq, !length_app. simpl length. cbn [c_code].
  rewrite <- app_assoc. simpl app.
  replace (length c + 2 + 1 - 1)%nat with (length (c ++ [Op.PSH; t])) by (rewrite length_app; simpl; lia).
  assert (E : nth (length (c ++ [Op.PSH; t]) - 1) (c ++ [Op.PSH; t; w]) 0 = t).
  { rewrite length_app, app_nth2 by (simpl; lia). simpl.
    by replace (length c + 2 - 1 - length c)%nat with 1%nat by lia. }
  rewrite E. change (c ++ [Op.PSH; t; w]) with (c ++ [Op.PSH; t] ++ [w]).
  rewrite (app_assoc c). rewrite patch_app by done.
  rewrite <- (app_assoc c). simpl app.
  replace (c ++ [Op.PSH; t; t]) with ((c ++ [Op.PSH]) ++ t :: [t]) by (by rewrite <- app_assoc).
  rewrite patch_app by (rewrite !length_app; simpl; lia).
  by rewrite <- app_assoc.
Qed.

(** ** Properties of the code *)

Lemma cg_lv e : forall b k, lv tab e = true ->
  cg b k false e = cg b k true e ++ [Op.LI; ldty tab e].
Proof.
  induction e; intros b k H; try done; cbn [ExprSpec.cg ldty].
  - simpl in H. apply negb_true_iff in H. rewrite H. cbn [orb]. simpl. by rewrite H.
  - destruct o; try done. by apply IHe.
  - by rewrite app_nil_r.
  - simpl in H. rewrite H. by rewrite app_nil_r.
  - by rewrite <- !app_assoc.
Qed.

(** ** Runs of the compiler *)

Definition expr_ok (lev : Z) (st r : cst) : Prop := ev_ok (fun n => expr n lev st) r.
Definition prim_ok (st r : cst) : Prop := ev_ok (fun n => primary str_base strsize (expr n) n st) r.
Definition binop_ok (st r : cst) : Prop :=
  ev_ok (fun n => binop str_base strsize le_base (expr n) st) r.
Definition climb_ok (lev : Z) (st r : cst) : Prop :=
  exists n0, forall n m, (n0 <= n)%nat -> (n0 <= m)%nat -> climb (expr m) n lev st = Ok r.

(** [leads lev st st']: [expr(lev)] from [st] comes to the operator loop in
    state [st']. *)
Definition leads (lev : Z) (st st' : cst) : Prop :=
  forall r, climb_ok lev st' r -> expr_ok lev st r.

Lemma leads_prim lev st st' : prim_ok st st' -> leads lev st st'.
Proof.
  intros [n1 H1] r [n2 H2]. exists (S (Nat.max n1 n2)). intros [|n] Hn; [lia|].
  cbn [ExprComp.expr]. rewrite H1 by lia. apply H2; lia.
Qed.

Lemma leads_binop lev st st1 st2 :
  leads lev st st1 -> lev <= tk st1 -> binop_ok st1 st2 -> leads lev st st2.
Proof.
  intros L Hle [n1 H1] r [n2 H2]. apply L. exists (S (Nat.max n1 n2)).
  intros [|n] m Hn Hm; [lia|]. cbn [ExprComp.climb].
  apply Z.leb_le in Hle. rewrite Hle, H1 by lia. apply H2; lia.
Qed.

Lemma leads_done lev st st' : leads lev st st' -> tk st' < lev -> expr_ok lev st st'.
Proof.
  intros L Hlt. apply L. exists 1%nat. intros [|n] m Hn Hm; [lia|]. cbn [ExprComp.climb].
  apply Z.leb_gt in Hlt. by rewrite Hlt.
Qed.

(** The token after an expression of level [L] does not continue it. *)
Definition bnd (L : Z) : Z :=
  if Postfix <=? L then 1000 else if Tk.Mul <=? L then Tk.Inc else if Tk.Add <=? L then Tk.Mul
  else if Tk.Shl <=? L then Tk.Add else if Tk.Lt <=? L then Tk.Shl
  else if Tk.Eq <=? L then Tk.Lt else if Tk.Lor <=? L then L + 1 else L.
Definition follow (L c : Z) : Prop := c < bnd L /\ c <> c_dquote /\ c <> ch "(".

Lemma bnd_mono L L' : L' <= L -> bnd L' <= bnd L.
Proof.
  unfold bnd, Postfix, Tk.Mul, Tk.Inc, Tk.Add, Tk.Shl, Tk.Lt, Tk.Eq, Tk.Lor. intros H.
  repeat case_match; lia.
Qed.

(** The state after an expression: its tokens are read, its code is emitted. *)
Definition parses (L : Z) (e : ast) (ts : list tok) : Prop :=
  forall rest pre l c f ty,
  stream pre l (ts ++ rest) -> follow L (first rest) ->
  wt (length c) (Z.of_nat (length pre)) e = true -> (cost e <= length f)%nat ->
  exists l' f',
    stream (pre ++ lits e) l' rest /\
    (length f' + length (cg (length c) (Z.of_nat (length pre)) false e) = length f)%nat /\
    forall lev, lev <= L -> lev <= Tk.Inc ->
      leads lev (mkC l c f ty)
        (mkC l' (c ++ cg (length c) (Z.of_nat (length pre)) false e) f' (tyof e)).

(** The result of a whole operand. *)
Lemma parses_operand L e ts lev : parses L e ts -> lev <= L -> lev <= Tk.Inc ->
  forall rest pre l c f ty,
  stream pre l (ts ++ rest) -> follow L (first rest) -> first rest < lev ->
  wt (length c) (Z.of_nat (length pre)) e = true -> (cost e <= length f)%nat ->
  exists l' f',
    stream (pre ++ lits e) l' rest /\
    (length f' + length (cg (length c) (Z.of_nat (length pre)) false e) = length f)%nat /\
    expr_ok lev (mkC l c f ty)
      (mkC l' (c ++ cg (length c) (Z.of_nat (length pre)) false e) f' (tyof e)).
Proof.
  intros P HL Hi rest pre l c f ty S F Hlt W C.
  destruct (P rest pre l c f ty S F W C) as (l' & f' & S' & Hf & Hl).
  exists l', f'. split; [done|]. split; [done|]. apply leads_done; [by apply Hl|].
  unfold tk. simpl. by rewrite (stream_tk _ _ _ S').
Qed.

(** ** Operands *)

Ltac tk_is H := unfold tk; cbn [c_lex]; rewrite (stream_tk _ _ _ H); cbn [first app].

(** An operand that is read by [primary] alone. *)
Lemma parses_primary L e ts :
  (forall rest pre l c f ty,
    stream pre l (ts ++ rest) -> follow L (first rest) ->
    wt (length c) (Z.of_nat (length pre)) e = true -> (cost e <= length f)%nat ->
    exists l' f',
      stream (pre ++ lits e) l' rest /\
      (length f' + length (cg (length c) (Z.of_nat (length pre)) false e) = length f)%nat /\
      prim_ok (mkC l c f ty)
        (mkC l' (c ++ cg (length c) (Z.of_nat (length pre)) false e) f' (tyof e))) ->
  parses L e ts.
Proof.
  intros H rest pre l c f ty S F W C. destruct (H rest pre l c f ty S F W C) as (l' & f' & S' & E & P).
  exists l', f'. split; [done|]. split; [done|]. intros lev _ _. by apply leads_prim.
Qed.

Lemma parses_num_like e t v : (t = TNum v /\ e = ENum v) \/ (t = TChr v /\ e = EChr v) ->
  parses Postfix e [t].
Proof.
  intros He. apply parses_primary. intros rest pre l c f ty S F W C.
  assert (tok_lit t = lits e /\ cost e = 2%nat /\ tok_code tab t = Tk.Num /\ l_ival l = v
    /\ tyof e = Ty.INT /\ forall b k, cg b k false e = [Op.IMM; v]) as (E1 & E2 & E3 & E4 & E5 & E6).
  { destruct S as (_ & _ & _ & _ & _ & _ & Hv). by destruct He as [[-> ->]|[-> ->]]. }
  destruct (nxt_stream pre l t rest (c ++ [Op.IMM; v]) (drop 2 f) ty S) as (l' & EN & S').
  exists l', (drop 2 f). rewrite E1 in S'. split; [done|]. rewrite E6, length_drop. simpl length.
  split; [lia|]. apply ev_const. intros n. unfold primary. tk_is S. rewrite E3. cbn.
  unfold prim_num, ival. cbn [c_lex]. rewrite E4, emits_ok by (simpl; lia).
  simpl length. rewrite EN, E5. done.
Qed.

Lemma parses_str s : parses Postfix (EStr s) [TStr s].
Proof.
  apply parses_primary. intros rest pre l c f ty S F W C. simpl in C.
  assert (l_ival l = str_base + Z.of_nat (length pre)) as E by apply S.
  destruct (nxt_stream pre l _ rest (c ++ [Op.IMM; str_base + Z.of_nat (length pre)]) (drop 2 f) ty S)
    as (l' & EN & S').
  exists l', (drop 2 f). split; [done|]. simpl length. rewrite length_drop. split; [lia|].
  exists 1%nat. intros [|n] Hn; [lia|]. unfold primary. tk_is S. cbn -[ExprComp.strings].
  unfold prim_string, ival. cbn [c_lex]. rewrite E, emits_ok by (simpl; lia).
  simpl length. rewrite EN. cbn [strings]. tk_is S'. destruct F as (_ & F & _).
  apply Z.eqb_neq in F. by rewrite F.
Qed.

(** The entry of a name the stream knows. *)
Lemma stream_sym pre l x ts i s : stream pre l ts -> lookup_name tab x = (i, Some s) ->
  exists s', l_symtab l !! i = Some s' /\ noref s' = noref s /\ (i < l_n_syms l)%nat.
Proof.
  intros (W & T & _) E. pose proof (find_sym_post (name_hash x) (length x) x tab 0) as P.
  unfold lookup_name in E. rewrite E in P. destruct P as (_ & Hl & Ht).
  rewrite Nat.sub_0_r in Hl. symmetry in T.
  destruct (same_tab_lookup _ _ _ _ T Hl) as (s' & Hs' & Hn). exists s'. split_and!; [done..|].
  destruct (decide (i < l_n_syms l)%nat) as [|Hge]; [done|]. exfalso.
  rewrite (unused_lookup strsize l i) in Hs'; [|done|].
  - injection Hs' as <-. apply Ht. by destruct (noref_fields _ _ Hn) as (-> & _).
  - split; [lia|]. unfold nr_syms. apply lookup_lt_is_Some_1. eauto.
Qed.

Lemma var_sym_found x i s : lookup_name tab x = (i, Some s) -> var_sym tab x = s.
Proof. unfold var_sym. by intros ->. Qed.

Lemma add_ref_stream pre l ts i c f ty : stream pre l ts -> (i < l_n_syms l)%nat ->
  exists l', add_ref i (mkC l c f ty) = mkC l' c f ty /\ stream pre l' ts.
Proof.
  intros (W & T & K & Ht & R) Hi. eexists. split; [unfold add_ref, set_lex; simpl; done|].
  split; [by apply alter_bump_wf|]. split.
  { etransitivity; [|exact T]. by apply same_tab_alter. }
  split; [done|]. split; [done|]. by destruct ts as [|[] ts].
Qed.

Lemma parses_var x : parses Postfix (EVar x) [TName x].
Proof.
  apply parses_primary. intros rest pre l c f ty S F W C. simpl in C.
  cbn [ExprSpec.wt] in W. apply andb_prop in W as [W1 W2]. apply Z.eqb_eq in W1, W2.
  assert (known tab (TName x)) as (i & s & Hs).
  { destruct S as (_ & _ & K & _). by apply Forall_cons_1 in K as [K _]. }
  pose proof (var_sym_found _ _ _ Hs) as Hv. rewrite Hv in W1, W2.
  assert (l_id l = i) as Hid by (destruct S as (_ & _ & _ & _ & _ & _ & ->); by rewrite Hs).
  destruct (nxt_op pre l _ rest c f ty S eq_refl) as (l1 & EN & S1).
  destruct (stream_sym pre l1 x rest i s S1 Hs) as (s' & Hs' & Hn & Hi).
  destruct (noref_fields _ _ Hn) as (_ & N2 & _ & _ & N5 & N6).
  destruct (add_ref_stream pre l1 rest i (c ++ [Op.IMM; s_value s]) (drop 2 f) ty S1 Hi)
    as (l2 & EA & S2).
  assert (Hnr : nr_syms l1 = nr_syms l).
  { unfold nr_syms. rewrite (same_tab_length (l_symtab l1) tab), (same_tab_length (l_symtab l) tab);
      [done | apply S | apply S1]. }
  set (d := if is_array tab x then [] else [Op.LI; asn (s_type s)]).
  exists l2, (drop (length d) (drop 2 f)). split; [by rewrite app_nil_r|].
  cbn [ExprSpec.cg orb ExprSpec.tyof]. rewrite Hv. fold d.
  split.
  { rewrite length_app, !length_drop. assert (length d <= 2)%nat by (unfold d; case_match; simpl; lia).
    simpl. lia. }
  apply ev_const. intros n. unfold primary. tk_is S. cbn [tok_code]. rewrite Hv, W1. cbn -[prim_id].
  unfold prim_id. cbn [c_lex]. rewrite EN, Hid. tk_is S1. destruct F as (_ & _ & F).
  apply Z.eqb_neq in F. rewrite F. unfold sym_at. cbn [c_lex]. rewrite Hnr, Nat.eqb_refl, Hs'.
  rewrite N2, W2. cbn -[prim_var]. unfold prim_var. rewrite N2, W2, N5, N6.
  change (Tk.Glo =? Tk.Loc) with false. change (Tk.Glo =? Tk.Glo) with true. cbv iota.
  rewrite emits_ok by (simpl; lia). simpl length. rewrite EA.
  unfold d. unfold is_array. rewrite Hv. destruct (negb _).
  - cbn [length]. by rewrite drop_0.
  - unfold set_ty. cbn [c_lex c_code c_free]. rewrite emit_ok by (rewrite length_drop; lia).
    rewrite (emit_typeop_ok _ (asn (s_type s))) by (done || rewrite !length_drop; lia).
    cbn [length]. rewrite !drop_drop, <- !app_assoc. done.
Qed.
(** ** Type names *)

Lemma id_type_stream pre l x ts c f ty : stream pre l (TName x :: ts) ->
  id_type (mkC l c f ty) = Ok (s_type (var_sym tab x)).
Proof.
  intros S. assert (known tab (TName x)) as (i & s & Hs).
  { destruct S as (_ & _ & K & _). by apply Forall_cons_1 in K as [K _]. }
  assert (l_id l = i) as Hid by (destruct S as (_ & _ & _ & _ & _ & _ & ->); by rewrite Hs).
  destruct (stream_sym pre l x _ i s S Hs) as (s' & Hs' & Hn & _).
  destruct (noref_fields _ _ Hn) as (_ & _ & _ & _ & N5 & _).
  unfold id_type. cbn [c_lex]. by rewrite Hid, Hs', N5, (var_sym_found _ _ _ Hs).
Qed.

Lemma stars_ok q c f ty rest pre : forall t l,
  stream pre l (replicate q (TOp Tk.Mul) ++ TOp (ch ")") :: rest) ->
  exists l', stream pre l' (TOp (ch ")") :: rest) /\
    ev_ok (fun n => stars str_base strsize n t (mkC l c f ty)) (t + Z.of_nat q * Ty.PTR, mkC l' c f ty).
Proof.
  induction q as [|q IH]; intros t l S.
  - exists l. split; [done|]. exists 1%nat. intros [|n] Hn; [lia|]. cbn [stars]. tk_is S.
    cbn [tok_code]. change (ch ")" =? Tk.Mul) with false. by rewrite Z.add_0_r.
  - cbn [replicate app] in S.
    destruct (nxt_op pre l _ _ c f ty S eq_refl) as (l1 & EN & S1).
    destruct (IH (t + Ty.PTR) l1 S1) as (l' & S' & n0 & H0). exists l'. split; [done|].
    exists (Datatypes.S n0). intros [|n] Hn; [lia|]. cbn [stars]. tk_is S. cbn [tok_code].
    rewrite Z.eqb_refl, EN, H0 by lia.
    by replace (t + Z.of_nat (Datatypes.S q) * Ty.PTR) with (t + Ty.PTR + Z.of_nat q * Ty.PTR) by lia.
Qed.

(** A type name is one or two keywords followed by stars. *)
Lemma type_shape t ts : type_spelled tab t ts ->
  exists t0 us q, type_spelled tab t0 us /\ ts = us ++ replicate q (TOp Tk.Mul) /\
    t = t0 + Z.of_nat q * Ty.PTR /\
    ((exists x, us = [TName x]) \/ exists x y, us = [TName x; TName y]).
Proof.
  induction 1 as [x H|x y H H'|t ts H (t0 & us & q & T & -> & -> & U)].
  - exists (let t := s_type (var_sym tab x) in if t =? Ty.UNSIGNED then Z.lor t Ty.INT else t),
      [TName x], 0%nat. split; [by constructor|]. split; [done|].
    split; [by rewrite Z.add_0_r | eauto].
  - eexists _, [TName x; TName y], 0%nat. split; [by apply ty_two|]. split; [done|].
    split; [by rewrite Z.add_0_r | eauto].
  - exists t0, us, (S q). split; [done|]. split.
    { rewrite <- app_assoc. f_equal. by rewrite <- replicate_S_end. }
    split; [lia | done].
Qed.

Lemma type_name_ok t ts rest pre l c f ty : type_spelled tab t ts ->
  stream pre l (ts ++ TOp (ch ")") :: rest) ->
  exists l', stream pre l' (TOp (ch ")") :: rest) /\
    ev_ok (fun n => type_name str_base strsize n (mkC l c f ty)) (t, mkC l' c f ty).
Proof.
  intros T S. apply type_shape in T as (t0 & us & q & T & -> & -> & U).
  rewrite <- app_assoc in S. destruct U as [[x ->]|(x & y & ->)].
  - inversion T as [x' Hx E|x' y' ? ? E|? us' H E E']; subst;
      [|by destruct us' as [|? [|? ?]]; [inversion H..|]].
    cbn [app] in S. destruct (nxt_op pre l _ _ c f ty S eq_refl) as (l1 & EN & S1).
    set (t0 := if s_type (var_sym tab x) =? Ty.UNSIGNED then _ else _).
    destruct (stars_ok q c f ty rest pre t0 l1 S1) as (l' & S' & n0 & H0). exists l'. split; [done|].
    exists n0. intros n Hn. unfold type_name. rewrite (id_type_stream _ _ _ _ _ _ _ S), EN. fold t0.
    assert (tk (mkC l1 c f ty) <> Tk.Int) as HI by (tk_is S1; by destruct q).
    apply Z.eqb_neq in HI. rewrite HI. by apply H0.
  - inversion T as [x' Hx E|x' y' Hx Hy E|? us' H E E']; subst.
    2: { by destruct us' as [|? [|? [|? ?]]]. }
    cbn [app] in S. destruct (nxt_op pre l _ _ c f ty S eq_refl) as (l1 & EN & S1).
    destruct (nxt_op pre l1 _ _ c f ty S1 eq_refl) as (l2 & EN2 & S2).
    set (t0 := Z.lor _ (s_type (var_sym tab y))).
    destruct (stars_ok q c f ty rest pre t0 l2 S2) as (l' & S' & n0 & H0). exists l'. split; [done|].
    exists n0. intros n Hn. unfold type_name. rewrite (id_type_stream _ _ _ _ _ _ _ S), EN.
    tk_is S1. cbn [tok_code]. rewrite Hy, Z.eqb_refl, (id_type_stream _ _ _ _ _ _ _ S1), EN2. fold t0.
    by apply H0.
Qed.

Lemma type_spelled_first t ts : type_spelled tab t ts ->
  exists x us, ts = TName x :: us /\ s_token (var_sym tab x) = Tk.Int.
Proof.
  induction 1 as [x H|x y H H'|t ts H (x & us & -> & E)]; [eauto..|].
  exists x, (us ++ [TOp Tk.Mul]). done.
Qed.
(** ** The other operands *)

Lemma parses_sizeof x t ts : s_token (var_sym tab x) = Tk.Sizeof -> type_spelled tab t ts ->
  parses Postfix (ESizeof t) (TName x :: TOp (ch "(") :: ts ++ [TOp (ch ")")]).
Proof.
  intros Hx T. apply parses_primary. intros rest pre l c f ty S F W C. simpl in C.
  replace ((TName x :: TOp (ch "(") :: ts ++ [TOp (ch ")")]) ++ rest)
    with (TName x :: TOp (ch "(") :: ts ++ TOp (ch ")") :: rest) in S
    by (simpl; by rewrite <- app_assoc).
  destruct (nxt_op pre l _ _ c f ty S eq_refl) as (l1 & E1 & S1).
  destruct (expect_op pre l1 _ _ c f ty "open paren expected in sizeof" S1) as (l2 & E2 & S2).
  destruct (type_name_ok t ts rest pre l2 c f ty T S2) as (l3 & S3 & n0 & H3).
  destruct (expect_op pre l3 _ _ c f t "close paren expected in sizeof" S3) as (l4 & E4 & S4).
  exists l4, (drop 2 f). split; [by rewrite app_nil_r|]. simpl length. rewrite length_drop.
  split; [lia|]. exists n0. intros n Hn. unfold primary. tk_is S. cbn [tok_code]. rewrite Hx.
  cbn -[prim_sizeof]. unfold prim_sizeof. rewrite E1, E2.
  assert (tk (mkC l2 c f ty) = Tk.Int) as ->.
  { tk_is S2. destruct (type_spelled_first _ _ T) as (y & us & -> & E). done. }
  rewrite Z.eqb_refl, H3 by lia. unfold set_ty at 1. cbn [c_lex c_code c_free].
  rewrite E4.
  rewrite emit_ok by lia.
  rewrite (emit_typeop_ok _ (if Ty.PTR <=? t then sizeof_ptr else base_size t))
    by (done || rewrite length_drop; lia).
  by rewrite <- app_assoc, drop_drop.
Qed.

(** The first token of an expression is not a type, and is a number only when
    the expression starts with one. *)
Lemma gram_first L e ts : gram tab L e ts -> forall b k, wt b k e = true ->
  exists t us, ts = t :: us /\ tok_code tab t <> Tk.Int /\
    (tok_code tab t = Tk.Num -> (exists v, t = TNum v) \/ exists c, t = TChr c).
Proof.
  induction 1; intros b0 k0 W; cbn [ExprSpec.wt] in W;
    repeat match goal with H : _ && _ = true |- _ => apply andb_prop in H; destruct H end;
    try match goal with IH : forall b k, wt b k ?a = true -> exists t us, ?ts = t :: us /\ _,
                        H : wt _ _ ?a = true |- exists t us, ?ts ++ _ = _ /\ _ =>
      destruct (IH _ _ H) as (t' & us' & -> & Hi & Hn); simpl; eauto end;
    try (eexists _, _; split; [done|]; split; [done|]; by eauto).
  - eexists _, _. split; [done|]. simpl. match goal with H : (_ =? Tk.Id) = true |- _ =>
      apply Z.eqb_eq in H; rewrite H end. done.
  - eexists _, _. split; [done|]. simpl. by rewrite H.
  - eexists _, _. split; [done|]. by destruct o.
  - eexists _, _. split; [done|]. by destruct inc.
  - eauto.
Qed.

Lemma parses_paren e ts : gram tab Tk.Assign e ts -> parses Tk.Assign e ts ->
  parses Postfix e (TOp (ch "(") :: ts ++ [TOp (ch ")")]).
Proof.
  intros G P. apply parses_primary. intros rest pre l c f ty S F W C.
  replace ((TOp (ch "(") :: ts ++ [TOp (ch ")")]) ++ rest)
    with (TOp (ch "(") :: ts ++ TOp (ch ")") :: rest) in S by (simpl; by rewrite <- app_assoc).
  destruct (nxt_op pre l _ _ c f ty S eq_refl) as (l1 & E1 & S1).
  destruct (parses_operand _ _ _ Tk.Assign P ltac:(done) ltac:(done) _ pre l1 c f ty S1)
    as (l2 & f2 & S2 & Hf & n0 & H2); [done|done|done|done|].
  destruct (expect_op _ l2 _ _ (c ++ cg (length c) (Z.of_nat (length pre)) false e) f2 (tyof e)
              "close paren expected" S2) as (l3 & E3 & S3).
  exists l3, f2. split; [done|]. split; [done|]. exists n0. intros n Hn.
  unfold primary. tk_is S. cbn [tok_code]. cbn -[prim_paren].
  unfold prim_paren. rewrite E1.
  assert (tk (mkC l1 c f ty) <> Tk.Int) as HI.
  { tk_is S1. destruct (gram_first _ _ _ G _ _ W) as (t & us & -> & Hi & _). done. }
  apply Z.eqb_neq in HI. by rewrite HI, H2, E3.
Qed.

(** Prefix operators: the operand is parsed at level [Inc] first. *)
Lemma unary_operand e ts : parses Tk.Inc e ts -> forall rest pre l c f ty t,
  stream pre l (TOp t :: ts ++ rest) -> follow Tk.Inc (first rest) ->
  wt (length c) (Z.of_nat (length pre)) e = true -> (cost e <= length f)%nat ->
  exists l1 l' f',
    stream (pre ++ lits e) l' rest /\
    (length f' + length (cg (length c) (Z.of_nat (length pre)) false e) = length f)%nat /\
    nxt (mkC l c f ty) = Ok (mkC l1 c f ty) /\
    expr_ok Tk.Inc (mkC l1 c f ty)
      (mkC l' (c ++ cg (length c) (Z.of_nat (length pre)) false e) f' (tyof e)).
Proof.
  intros P rest pre l c f ty t S F W C.
  destruct (nxt_op pre l _ _ c f ty S eq_refl) as (l1 & E1 & S1).
  destruct (parses_operand _ _ _ Tk.Inc P ltac:(done) ltac:(done) _ pre l1 c f ty S1)
    as (l2 & f2 & S2 & Hf & H2); [done|by destruct F|done|done|].
  by exists l1, l2, f2.
Qed.

Lemma parses_un o e ts : parses Tk.Inc e ts -> parses Tk.Inc (EUn o e) (TOp (un_tok o) :: ts).
Proof.
  intros P. apply parses_primary. intros rest pre l c f ty S F W C.
  cbn [ExprSpec.wt cost] in W, C.
  destruct (unary_operand e ts P rest pre l c f ty _ S F W) as (l1 & l2 & f2 & S2 & Hf & E1 & n0 & H2);
    [lia|].
  pose proof (cg_cost tab str_base le_base e (length c) (Z.of_nat (length pre)) false) as Hc.
  destruct o; cbn [ExprSpec.cg ExprSpec.tyof lits].
  - exists l2, (drop 4 f2). split; [done|]. rewrite length_app, length_drop. simpl length.
    split; [lia|]. exists n0. intros n Hn. unfold primary. tk_is S. cbn -[prim_not].
    unfold prim_not. rewrite E1, H2, emits_ok by (simpl; lia). by rewrite <- app_assoc.
  - exists l2, (drop 4 f2). split; [done|]. rewrite length_app, length_drop. simpl length.
    split; [lia|]. exists n0. intros n Hn. unfold primary. tk_is S. cbn -[prim_bitnot].
    unfold prim_bitnot. rewrite E1, H2, emits_ok by (simpl; lia). by rewrite <- app_assoc.
  - exists l2, f2. split; [done|].
    split; [lia|]. exists n0. intros n Hn. unfold primary. tk_is S. cbn -[prim_plus].
    unfold prim_plus. by rewrite E1, H2.
Qed.

Lemma parses_neg e t ts : gram tab Tk.Inc e (t :: ts) ->
  (forall v, t <> TNum v) -> (forall c, t <> TChr c) ->
  parses Tk.Inc e (t :: ts) -> parses Tk.Inc (ENeg e) (TOp Tk.Sub :: t :: ts).
Proof.
  intros G N1 N2 P. apply parses_primary. intros rest pre l c f ty S F W C.
  cbn [ExprSpec.wt cost] in W, C.
  destruct (nxt_op pre l _ _ c f ty S eq_refl) as (l1 & E1 & S1).
  set (c1 := (c ++ [Op.IMM]) ++ [-1; Op.PSH]).
  assert (Hb : (length c + 3)%nat = length c1) by (unfold c1; rewrite !length_app; simpl; lia).
  rewrite Hb in W.
  destruct (parses_operand _ _ _ Tk.Inc P ltac:(done) ltac:(done) _ pre l1 c1 (drop 2 (drop 1 f)) ty S1)
    as (l2 & f2 & S2 & Hf & n0 & H2); [done|by destruct F|done|rewrite !length_drop; lia|].
  rewrite !length_drop in Hf.
  pose proof (cg_cost tab str_base le_base e (length c1) (Z.of_nat (length pre)) false) as Hc.
  exists l2, (drop 1 f2). split; [done|]. cbn [ExprSpec.cg ExprSpec.tyof]. rewrite Hb.
  split; [rewrite !length_app, length_drop; simpl; lia|]. exists n0. intros n Hn.
  unfold primary. tk_is S. cbn -[prim_minus]. unfold prim_minus. rewrite E1, emit_ok by lia.
  assert (tk (mkC l1 (c ++ [Op.IMM]) (drop 1 f) ty) <> Tk.Num) as HI.
  { tk_is S1. destruct (gram_first _ _ _ G _ _ W) as (t' & us & E & _ & Hn').
    injection E as <- <-. intros Hnum. destruct (Hn' Hnum) as [[v ->]|[v ->]]; [by eapply N1|by eapply N2]. }
  apply Z.eqb_neq in HI. rewrite HI, emits_ok by (simpl; rewrite length_drop; lia).
  fold c1. simpl length. rewrite H2, emit_ok by (try rewrite length_drop; lia). unfold set_ty. simpl.
  unfold c1. by rewrite <- !app_assoc.
Qed.

Lemma parses_minus_num v : parses Tk.Inc (ENum (- v)) [TOp Tk.Sub; TNum v].
Proof.
  apply parses_primary. intros rest pre l c f ty S F W C. simpl in C.
  cbn [ExprSpec.wt] in W. apply andb_prop in W as [W1 W2].
  destruct (nxt_op pre l _ _ c f ty S eq_refl) as (l1 & E1 & S1).
  assert (l_ival l1 = v) as Hv by apply S1.
  destruct (nxt_op pre l1 _ _ (c ++ [Op.IMM; - v]) (drop 2 f) ty S1 eq_refl) as (l2 & E2 & S2).
  exists l2, (drop 2 f). split; [by rewrite app_nil_r|]. simpl length. rewrite length_drop.
  split; [lia|]. apply ev_const. intros n. unfold primary. tk_is S. cbn -[prim_minus].
  unfold prim_minus. rewrite E1, emit_ok by lia. tk_is S1. cbn -[emit].
  unfold ival. cbn [c_lex]. rewrite Hv, swrap_small by (unfold in_s; lia).
  rewrite emit_ok by (rewrite length_drop; lia). rewrite <- app_assoc, drop_drop. cbn [app Nat.add].
  by rewrite E2.
Qed.

Lemma parses_deref e ts : parses Tk.Inc e ts -> parses Tk.Inc (EDeref e) (TOp Tk.Mul :: ts).
Proof.
  intros P. apply parses_primary. intros rest pre l c f ty S F W C.
  cbn [ExprSpec.wt cost] in W, C. apply andb_prop in W as [W W2].
  destruct (unary_operand e ts P rest pre l c f ty _ S F W) as (l1 & l2 & f2 & S2 & Hf & E1 & n0 & H2);
    [lia|].
  pose proof (cg_cost tab str_base le_base e (length c) (Z.of_nat (length pre)) false) as Hc.
  exists l2, (drop 2 f2). split; [done|]. cbn [ExprSpec.cg ExprSpec.tyof].
  split; [rewrite length_app, length_drop; simpl; lia|]. exists n0. intros n Hn.
  unfold primary. tk_is S. cbn -[prim_deref]. unfold prim_deref. rewrite E1, H2 by lia.
  cbn [c_ty]. rewrite W2. unfold set_ty. cbn [c_lex c_code c_free]. rewrite emit_ok by lia.
  rewrite (emit_typeop_ok _ (asn (tyof e - Ty.PTR))) by (done || rewrite length_drop; lia).
  by rewrite <- !app_assoc, drop_drop.
Qed.

Lemma parses_addr e ts : parses Tk.Inc e ts -> parses Tk.Inc (EAddr e) (TOp Tk.And :: ts).
Proof.
  intros P. apply parses_primary. intros rest pre l c f ty S F W C.
  cbn [ExprSpec.wt cost] in W, C. apply andb_prop in W as [W W2].
  destruct (unary_operand e ts P rest pre l c f ty _ S F W) as (l1 & l2 & f2 & S2 & Hf & E1 & n0 & H2);
    [lia|].
  rewrite (cg_lv e _ _ W2) in *. rewrite length_app in Hf. simpl in Hf.
  exists l2, ([Op.LI; ldty tab e] ++ f2). split; [done|]. cbn [ExprSpec.cg ExprSpec.tyof].
  split; [simpl; lia|]. exists n0. intros n Hn.
  unfold primary. tk_is S. cbn -[prim_addr]. unfold prim_addr. rewrite E1, H2 by lia.
  rewrite app_assoc, ends_in_LI_app, Z.eqb_refl, drop_words_app by done. done.
Qed.

Lemma parses_pre inc e ts : parses Tk.Inc e ts ->
  parses Tk.Inc (EPre inc e) (TOp (if inc then Tk.Inc else Tk.Dec) :: ts).
Proof.
  intros P. apply parses_primary. intros rest pre l c f ty S F W C.
  cbn [ExprSpec.wt cost] in W, C. apply andb_prop in W as [W W2].
  destruct (unary_operand e ts P rest pre l c f ty _ S F W) as (l1 & l2 & f2 & S2 & Hf & E1 & n0 & H2);
    [lia|].
  pose proof (cg_cost tab str_base le_base e (length c) (Z.of_nat (length pre)) false) as Hc.
  rewrite (cg_lv e _ _ W2) in *. rewrite length_app in Hf, Hc. simpl in Hf, Hc.
  exists l2, (drop 7 f2). split; [done|]. cbn [ExprSpec.cg ExprSpec.tyof].
  split; [rewrite length_app, length_drop; simpl; lia|]. exists n0. intros n Hn.
  assert (primary str_base strsize (expr n) n (mkC l c f ty)
          = prim_incdec str_base strsize (expr n) (mkC l c f ty)) as ->.
  { unfold primary. tk_is S. by destruct inc. }
  unfold prim_incdec. tk_is S. cbn [tok_code]. rewrite E1, H2 by lia.
  rewrite app_assoc, keep_address_ok by lia.
  rewrite emits_ok by (simpl; rewrite length_drop; lia).
  rewrite (emit_typeop_ok _ _ _ _ _ _ (typeop_step inc _)) by (rewrite !length_drop; simpl; lia).
  rewrite emits_ok by (simpl; rewrite !length_drop; simpl; lia).
  rewrite (emit_typeop_ok _ _ _ _ _ _ (typeop_Assign _)) by (rewrite !length_drop; simpl; lia).
  simpl length. rewrite !drop_drop, <- !app_assoc. simpl app. unfold incdec_code.
  by destruct inc.
Qed.
Lemma parses_cast t us e ts : type_spelled tab t us -> parses Tk.Inc e ts ->
  parses Tk.Inc (ECast t e) (TOp (ch "(") :: us ++ TOp (ch ")") :: ts).
Proof.
  intros T P. apply parses_primary. intros rest pre l c f ty S F W C.
  cbn [ExprSpec.wt cost] in W, C. apply andb_prop in W as [W W2].
  replace ((TOp (ch "(") :: us ++ TOp (ch ")") :: ts) ++ rest)
    with (TOp (ch "(") :: us ++ TOp (ch ")") :: ts ++ rest) in S by (simpl; by rewrite <- app_assoc).
  destruct (nxt_op pre l _ _ c f ty S eq_refl) as (l1 & E1 & S1).
  destruct (type_name_ok t us _ pre l1 c f ty T S1) as (l2 & S2 & n1 & H2).
  destruct (expect_op pre l2 _ _ c f ty "bad cast" S2) as (l3 & E3 & S3).
  destruct (parses_operand _ _ _ Tk.Inc P ltac:(done) ltac:(done) _ pre l3 c f ty S3)
    as (l4 & f4 & S4 & Hf & n2 & H4); [done|by destruct F|done|lia|].
  assert (HI : tk (mkC l1 c f ty) = Tk.Int).
  { tk_is S1. destruct (type_spelled_first _ _ T) as (y & vs & -> & E). done. }
  exists l4, f4. split; [done|]. cbn [ExprSpec.cg ExprSpec.tyof].
  assert (R : forall n, (Nat.max n1 n2 <= n)%nat ->
    primary str_base strsize (expr n) n (mkC l c f ty) =
    let st := mkC l4 (c ++ cg (length c) (Z.of_nat (length pre)) false e) f4 t in
    if ends_in_LI st then Ok (patch (e_idx st) (asn t) st) else Ok st).
  { intros n Hn. unfold primary. tk_is S. cbn -[prim_paren]. unfold prim_paren.
    rewrite E1, HI, Z.eqb_refl, H2, E3, H4 by lia. done. }
  destruct (lv tab e) eqn:Hlv.
  - rewrite (cg_lv e _ _ Hlv) in *. rewrite !length_app in *. simpl in *. split; [lia|].
    exists (Nat.max n1 n2). intros n Hn. rewrite R by done.
    rewrite app_assoc, ends_in_LI_app, Z.eqb_refl, e_idx_eq. f_equal.
    change (?x ++ [Op.LI; ldty tab e]) with (x ++ [Op.LI] ++ [ldty tab e]).
    rewrite (app_assoc _ [Op.LI]), patch_app by (rewrite !length_app; simpl; lia).
    by rewrite <- !app_assoc.
  - split; [lia|]. exists (Nat.max n1 n2). intros n Hn. rewrite R by done.
    cbn [orb] in W2. apply negb_true_iff in W2. unfold ends_in_LI, word_before.
    cbn zeta. cbn [c_code]. unfold before_last in W2.
    pose proof (cg_len2 tab str_base le_base e (length c) (Z.of_nat (length pre)) false) as H.
    rewrite length_app, app_nth2 by lia.
    replace (length c + length (cg (length c) (Z.of_nat (length pre)) false e) - 2 - length c)%nat
      with (length (cg (length c) (Z.of_nat (length pre)) false e) - 2)%nat by lia.
    by rewrite W2.
Qed.

(** ** Operators *)

(** A left operand followed by an iteration of the operator loop. *)
Lemma parses_binop L L1 e e1 ts1 o us :
  parses L1 e1 ts1 -> L <= L1 -> follow L1 o -> L <= o \/ Tk.Inc <= o ->
  (forall b k, wt b k e = true -> wt b k e1 = true) -> (cost e1 <= cost e)%nat ->
  (forall rest pre l c f,
    stream pre l (TOp o :: us ++ rest) -> follow L (first rest) -> forall c0 k0,
    c = c0 ++ cg (length c0) k0 false e1 -> Z.of_nat (length pre) = k0 + nlits e1 ->
    wt (length c0) k0 e = true ->
    (cost e <= length f + length (cg (length c0) k0 false e1))%nat ->
    exists l' f' pre',
      stream (pre ++ pre') l' rest /\ lits e = lits e1 ++ pre' /\
      (length f' + length (cg (length c0) k0 false e)
       = length f + length (cg (length c0) k0 false e1))%nat /\
      binop_ok (mkC l c f (tyof e1)) (mkC l' (c0 ++ cg (length c0) k0 false e) f' (tyof e))) ->
  parses L e (ts1 ++ TOp o :: us).
Proof.
  intros P1 HL Fo HLo HW HC HB rest pre l c f ty S F W C.
  rewrite <- app_assoc in S. cbn [app] in S.
  destruct (P1 _ pre l c f ty S Fo (HW _ _ W) ltac:(lia)) as (l1 & f1 & S1 & Hf1 & Ld1).
  destruct (HB rest _ l1 _ f1 S1 F c (Z.of_nat (length pre)) eq_refl)
    as (l2 & f2 & pre2 & S2 & Hp & Hf2 & B).
  { rewrite length_app. unfold nlits. lia. }
  { done. }
  { lia. }
  exists l2, f2. rewrite Hp, app_assoc. split; [done|]. split; [lia|].
  intros lev Hl1 Hl2. eapply leads_binop; [apply Ld1; lia| |done].
  unfold tk. cbn [c_lex]. rewrite (stream_tk _ _ _ S1). cbn [first tok_code]. lia.
Qed.

(** Reading the operator, emitting [ws] and parsing the right operand. *)
Lemma right_operand L e ts lev ws : parses L e ts -> lev <= L -> lev <= Tk.Inc ->
  forall rest pre l c f ty t,
  stream pre l (TOp t :: ts ++ rest) -> follow L (first rest) -> first rest < lev ->
  wt (length c + length ws) (Z.of_nat (length pre)) e = true ->
  (length ws + cost e <= length f)%nat ->
  exists l1 l' f',
    stream (pre ++ lits e) l' rest /\
    (length f' + length ws
     + length (cg (length c + length ws) (Z.of_nat (length pre)) false e) = length f)%nat /\
    nxt (mkC l c f ty) = Ok (mkC l1 c f ty) /\
    expr_ok lev (mkC l1 (c ++ ws) (drop (length ws) f) ty)
      (mkC l' (c ++ ws ++ cg (length c + length ws) (Z.of_nat (length pre)) false e) f' (tyof e)).
Proof.
  intros P HL Hi rest pre l c f ty t S F Hlt W C.
  destruct (nxt_op pre l _ _ c f ty S eq_refl) as (l1 & E1 & S1).
  rewrite <- length_app in *.
  destruct (parses_operand _ _ _ lev P HL Hi _ pre l1 (c ++ ws) (drop (length ws) f) ty S1)
    as (l2 & f2 & S2 & Hf & H2); [done|done|done|rewrite length_drop; lia|].
  rewrite length_drop in Hf.
  exists l1, l2, f2. split; [done|]. split; [lia|]. split; [done|]. by rewrite app_assoc.
Qed.

(** The compilation of a binary operator, as the operator loop selects it. *)
Definition bop_compile (o : bop) (rec : Z -> cst -> res cst) (t : Z) (st : cst) : res cst :=
  match o with
  | BMatch => bin_match str_base strsize rec t st
  | BAdd => bin_add str_base strsize rec t st
  | BSub => bin_sub str_base strsize rec t st
  | _ => bin_simple str_base strsize rec t (bop_right o)
           (fun t ty => nth 0 (bop_code o t ty) 0) st
  end.

Lemma binop_bop o rec st : tk st = bop_tok o ->
  binop str_base strsize le_base rec st = bop_compile o rec (c_ty st) st.
Proof. intros H. unfold binop. rewrite H. by destruct o. Qed.

Lemma parses_bin o a b ts us : parses (bop_level o) a ts -> parses (bop_right o) b us ->
  parses (bop_level o) (EBin o a b) (ts ++ TOp (bop_tok o) :: us).
Proof.
  intros Pa Pb. eapply parses_binop; [exact Pa|done|by destruct o|left; by destruct o| | |].
  { intros b0 k W. cbn [ExprSpec.wt] in W. by repeat apply andb_prop in W as [W ?]. }
  { cbn [cost]. lia. }
  intros rest pre l c f S F c0 k0 -> Hk W C. cbn [ExprSpec.wt] in W.
  apply andb_prop in W as [W Wm]. apply andb_prop in W as [_ W]. rewrite <- Hk in W.
  cbn [cost] in C. pose proof (cg_cost tab str_base le_base a (length c0) k0 false) as Ca.
  replace (length c0 + length (cg (length c0) k0 false a) + 1)%nat
    with (length (c0 ++ cg (length c0) k0 false a) + length [Op.PSH])%nat in W
    by (rewrite length_app; simpl; lia).
  destruct (right_operand _ _ _ (bop_right o) [Op.PSH] Pb ltac:(done) ltac:(by destruct o)
    rest pre l (c0 ++ cg (length c0) k0 false a) f (tyof a) _ S) as (l1 & l2 & f2 & S2 & Hf & E1 & n0 & H2);
    [| |done|simpl; lia|].
  { destruct F as [F F']. split; [|done]. eapply Z.lt_le_trans; [done|]. by destruct o. }
  { destruct F as [F _]. eapply Z.lt_le_trans; [done|]. by destruct o. }
  pose proof (bop_code_len o (tyof a) (tyof b)) as Hlen.
  exists l2, (drop (length (bop_code o (tyof a) (tyof b))) f2), (lits b).
  split; [done|]. split; [done|]. cbn [ExprSpec.cg]. rewrite <- Hk.
  replace (length c0 + length (cg (length c0) k0 false a) + 1)%nat
    with (length (c0 ++ cg (length c0) k0 false a) + length [Op.PSH])%nat
    by (rewrite length_app; simpl; lia).
  set (cb := cg _ (Z.of_nat (length pre)) false b) in *.
  assert (Hcb : (length cb <= cost b)%nat) by apply cg_cost.
  simpl length in Hf. simpl drop in H2.
  split; [rewrite !length_app, length_drop; simpl length; lia|].
  exists n0. intros n Hn. rewrite (binop_bop o) by (tk_is S; done). cbn [c_ty].
  set (ca := c0 ++ cg (length c0) k0 false a) in *.
  assert (FIN : forall t, Ok (mkC l2 ((ca ++ [Op.PSH] ++ cb) ++ bop_code o (tyof a) (tyof b))
     (drop (length (bop_code o (tyof a) (tyof b))) f2) t)
    = Ok (mkC l2 (c0 ++ cg (length c0) k0 false a ++ [Op.PSH] ++ cb ++ bop_code o (tyof a) (tyof b))
     (drop (length (bop_code o (tyof a) (tyof b))) f2) t)).
  { intros t. unfold ca. by rewrite <- !app_assoc. }
  assert (SIM : bop_code o (tyof a) (tyof b) = [nth 0 (bop_code o (tyof a) (tyof b)) 0] ->
    tyof (EBin o a b) = Ty.INT ->
    bin_simple str_base strsize (expr n) (tyof a) (bop_right o)
      (fun t ty => nth 0 (bop_code o t ty) 0) (mkC l ca f (tyof a)) =
    Ok (mkC l2 (c0 ++ cg (length c0) k0 false a ++ [Op.PSH] ++ cb ++ bop_code o (tyof a) (tyof b))
     (drop (length (bop_code o (tyof a) (tyof b))) f2) (tyof (EBin o a b)))).
  { intros Hc Ht. unfold bin_simple. rewrite E1, emit_ok by lia. simpl drop.
    rewrite H2 by lia. cbn [c_ty]. rewrite emit_ok by lia. rewrite Ht.
    rewrite <- FIN. rewrite Hc at 2 3. done. }
  destruct o; cbn [bop_compile]; try (apply SIM; done); clear SIM.
  - (* Match *)
    change (if decide (BMatch = BMatch) then _ else true) with
      (is_char_ptr (tyof a) && is_char_ptr (tyof b)) in Wm.
    apply andb_prop in Wm as [Wm1 Wm2]. unfold bin_match. rewrite Wm1. cbn [negb].
    rewrite E1, emit_ok by lia. simpl drop. rewrite H2 by lia. cbn [c_ty]. rewrite Wm2. cbn [negb].
    rewrite emit_ok by lia. rewrite <- FIN. done.
  - (* Add *)
    unfold bin_add. rewrite E1, emit_ok by lia. simpl drop. rewrite H2 by lia.
    unfold set_ty. cbn [c_lex c_code c_free ExprSpec.tyof]. rewrite <- FIN. unfold bop_code in *.
    destruct (Ty.PTR <? tyof a).
    + simpl length in *. rewrite emits_ok by (simpl; lia).
      rewrite (emit_typeop_ok _ _ _ _ _ _ (typeop_scale Tk.Add _ ltac:(tauto)))
        by (rewrite !length_drop; simpl; lia).
      rewrite emit_ok by (rewrite !length_drop; simpl; lia).
      rewrite emit_ok by (rewrite !length_drop; simpl; lia).
      rewrite !drop_drop, <- !app_assoc. done.
    + simpl length in *. rewrite emit_ok by lia. done.
  - (* Sub *)
    unfold bin_sub. rewrite E1, emit_ok by lia. simpl drop. rewrite H2 by lia.
    unfold set_ty. cbn [c_lex c_code c_free c_ty ExprSpec.tyof]. rewrite <- FIN. unfold bop_code in *.
    destruct ((Ty.PTR <? tyof a) && (tyof a =? tyof b)); [|destruct (Ty.PTR <? tyof a)].
    + simpl length in *. rewrite emits_ok by (simpl; lia).
      rewrite (emit_typeop_ok _ _ _ _ _ _ (typeop_scale Tk.Sub _ ltac:(tauto)))
        by (rewrite !length_drop; simpl; lia).
      rewrite emit_ok by (rewrite !length_drop; simpl; lia).
      cbn [c_lex c_code c_free]. rewrite !drop_drop, <- !app_assoc. done.
    + simpl length in *. rewrite emits_ok by (simpl; lia).
      rewrite (emit_typeop_ok _ _ _ _ _ _ (typeop_scale Tk.Sub _ ltac:(tauto)))
        by (rewrite !length_drop; simpl; lia).
      rewrite emits_ok by (rewrite !length_drop; simpl; lia).
      rewrite !drop_drop, <- !app_assoc. done.
    + simpl length in *. rewrite emit_ok by lia. done.
Qed.
(** A forward jump: the opcode, and the operand that is patched later. *)
Lemma emit_skip (j : Z) (l : lex) (c f : list Z) (ty : Z) : (2 <= length f)%nat ->
  exists w, (let* st := emit j (mkC l c f ty) in skip st)
            = Ok (mkC l (c ++ [j; w]) (drop 2 f) ty).
Proof.
  intros Hf. rewrite emit_ok by lia.
  destruct (skip_ok l (c ++ [j]) (drop 1 f) ty) as [w E]; [rewrite length_drop; lia|].
  exists w. rewrite E. by rewrite <- app_assoc, drop_drop.
Qed.

Lemma patch_jump l X j w Y f ty v d : d = (length X + 1)%nat ->
  patch d v (mkC l ((X ++ [j; w]) ++ Y) f ty) = mkC l (X ++ [j; v] ++ Y) f ty.
Proof.
  intros ->. rewrite <- app_assoc. change ([j; w] ++ Y) with ([j] ++ w :: Y).
  rewrite app_assoc, patch_app by (rewrite length_app; simpl; lia). by rewrite <- app_assoc.
Qed.

Lemma e_idx_jump l (X : list Z) j w f ty : e_idx (mkC l (X ++ [j; w]) f ty) = (length X + 1)%nat.
Proof. rewrite e_idx_eq, length_app. simpl. lia. Qed.

Lemma e_idx_end l (X Y : list Z) j w f ty n :
  (e_idx (mkC l ((X ++ [j; w]) ++ Y) f ty) + S n)%nat = (length X + 2 + length Y + n)%nat.
Proof. rewrite e_idx_eq, !length_app. simpl. lia. Qed.

(** The jump of a logical operator is patched to the end of its code. *)
Lemma parses_logic (cj : bool) a b ts us :
  let L := if cj then Tk.Lan else Tk.Lor in
  let R := if cj then Tk.Or else Tk.Lan in
  parses L a ts -> parses R b us -> parses L (ELogic cj a b) (ts ++ TOp L :: us).
Proof.
  intros L R Pa Pb. eapply parses_binop; [exact Pa|done|by destruct cj|by left| | |].
  { intros b0 k W. cbn [ExprSpec.wt] in W. by apply andb_prop in W as [W ?]. }
  { cbn [cost]. lia. }
  intros rest pre l c f S F c0 k0 -> Hk W C. cbn [ExprSpec.wt] in W.
  apply andb_prop in W as [_ W]. rewrite <- Hk in W.
  cbn [cost] in C. pose proof (cg_cost tab str_base le_base a (length c0) k0 false) as Ca.
  set (j := if cj then Op.BZ else Op.BNZ).
  set (ca := c0 ++ cg (length c0) k0 false a).
  assert (Hl : (length c0 + length (cg (length c0) k0 false a) + 2)%nat = (length ca + 2)%nat)
    by (unfold ca; rewrite length_app; lia).
  rewrite Hl in W.
  destruct (nxt_op pre l _ _ ca f (tyof a) S eq_refl) as (l1 & E1 & S1).
  destruct (emit_skip j l1 ca f (tyof a)) as [w EW]; [lia|].
  rewrite <- (length_app ca [j; w] : _ = (length ca + 2)%nat) in W.
  destruct (parses_operand _ _ _ R Pb ltac:(done) ltac:(by destruct cj) rest pre l1
    (ca ++ [j; w]) (drop 2 f) (tyof a) S1) as (l2 & f2 & S2 & Hf & n0 & H2).
  { destruct F as [F F']. split; [|done]. eapply Z.lt_le_trans; [done|]. by destruct cj. }
  { destruct F as [F _]. eapply Z.lt_le_trans; [done|]. by destruct cj. }
  { done. }
  { rewrite length_drop; lia. }
  rewrite length_drop in Hf. rewrite (length_app ca [j; w] : _ = (length ca + 2)%nat) in *.
  exists l2, f2, (lits b). split; [done|]. split; [done|]. cbn [ExprSpec.cg]. rewrite <- Hk, Hl.
  set (cb := cg (length ca + 2) (Z.of_nat (length pre)) false b) in *.
  split.
  { unfold ca in *. rewrite !length_app in *. simpl. lia. }
  exists n0. intros n Hn.
  assert (binop str_base strsize le_base (expr n) (mkC l ca f (tyof a))
          = bin_logic str_base strsize le_base (expr n) j R (mkC l ca f (tyof a))) as ->.
  { unfold binop. tk_is S. by destruct cj. }
  unfold bin_logic. rewrite E1. destruct (emit j _) as [st|]; [|done]. rewrite EW, H2 by lia.
  rewrite e_idx_jump, e_idx_end, Nat.add_0_r, patch_jump by done.
  unfold ca at 1. by rewrite <- app_assoc.
Qed.
Lemma parses_cond a b d ts us vs :
  parses Tk.Lor a ts -> parses Tk.Assign b us -> parses Tk.Cond d vs ->
  parses Tk.Cond (ECond a b d) (ts ++ TOp Tk.Cond :: us ++ TOp (ch ":") :: vs).
Proof.
  intros Pa Pb Pd. eapply parses_binop; [exact Pa|done|done|by left| | |].
  { intros b0 k W. cbn [ExprSpec.wt] in W. by repeat apply andb_prop in W as [W ?]. }
  { cbn [cost]. lia. }
  intros rest pre l c f S F c0 k0 -> Hk W C. cbn [ExprSpec.wt] in W.
  apply andb_prop in W as [W Wd]. apply andb_prop in W as [_ Wb].
  cbn [cost] in C. pose proof (cg_cost tab str_base le_base a (length c0) k0 false) as Ca.
  set (ca := c0 ++ cg (length c0) k0 false a).
  assert (Hl : (length c0 + length (cg (length c0) k0 false a) + 2)%nat = (length ca + 2)%nat)
    by (unfold ca; rewrite length_app; lia).
  rewrite Hl, <- Hk in Wb, Wd. rewrite <- app_assoc in S. cbn [app] in S.
  set (cb := cg (length ca + 2) (Z.of_nat (length pre)) false b) in *.
  assert (Hcb : (length cb <= cost b)%nat) by apply cg_cost.
  destruct (nxt_op pre l _ _ ca f (tyof a) S eq_refl) as (l1 & E1 & S1).
  destruct (emit_skip Op.BZ l1 ca f (tyof a)) as [w EW]; [lia|].
  rewrite <- (length_app ca [Op.BZ; w] : _ = (length ca + 2)%nat) in Wb.
  destruct (parses_operand _ _ _ Tk.Assign Pb ltac:(done) ltac:(done) _ pre l1
    (ca ++ [Op.BZ; w]) (drop 2 f) (tyof a) S1) as (l2 & f2 & S2 & Hf & n1 & H2);
    [done|done|done|rewrite length_drop; lia|].
  rewrite length_drop in Hf. rewrite (length_app ca [Op.BZ; w] : _ = (length ca + 2)%nat) in *.
  fold cb in Hf, H2.
  destruct (expect_op _ l2 _ _ ((ca ++ [Op.BZ; w]) ++ cb) f2 (tyof b) "conditional missing colon" S2)
    as (l3 & E3 & S3).
  set (b3 := (length ca + 2 + length cb + 2)%nat) in *.
  set (cab := ca ++ [Op.BZ; code_addr le_base b3] ++ cb).
  destruct (emit_skip Op.JMP l3 cab f2 (tyof b)) as [w' EW']; [lia|].
  assert (Hb3 : length (cab ++ [Op.JMP; w']) = b3).
  { unfold cab, b3. rewrite !length_app. simpl. lia. }
  assert (Hk3 : k0 + nlits a + nlits b = Z.of_nat (length (pre ++ lits b))).
  { rewrite length_app. unfold nlits in *. lia. }
  rewrite <- Hk in Hk3. rewrite <- Hb3, Hk3 in Wd.
  destruct (parses_operand _ _ _ Tk.Cond Pd ltac:(done) ltac:(done) rest _ l3
    (cab ++ [Op.JMP; w']) (drop 2 f2) (tyof b) S3) as (l4 & f4 & S4 & Hf4 & n2 & H4);
    [done|by destruct F|done|rewrite length_drop; lia|].
  rewrite length_drop, Hb3, <- Hk3 in *.
  set (cd := cg b3 _ false d) in *.
  exists l4, f4, (lits b ++ lits d). split; [by rewrite app_assoc|]. split; [done|].
  cbn [ExprSpec.cg]. rewrite <- Hk, Hl. fold cb b3 cd.
  split. { rewrite !length_app. simpl. lia. }
  exists (Nat.max n1 n2). intros n Hn. unfold binop. tk_is S. cbn -[bin_cond].
  unfold bin_cond. rewrite E1. destruct (emit Op.BZ _) as [st|]; [|done]. rewrite EW, H2, E3 by lia.
  rewrite e_idx_jump, e_idx_end, patch_jump by done. fold b3 cab.
  destruct (emit Op.JMP _) as [st'|]; [|done]. rewrite EW', H4 by lia.
  rewrite e_idx_jump, e_idx_end, Nat.add_0_r, patch_jump by done.
  replace (length cab + 2)%nat with b3 by (rewrite <- Hb3, length_app; simpl; lia).
  unfold cab, ca. by rewrite <- !app_assoc.
Qed.

Lemma parses_assign a b ts us : parses Tk.Inc a ts -> parses Tk.Assign b us ->
  parses Tk.Assign (EAssign a b) (ts ++ TOp Tk.Assign :: us).
Proof.
  intros Pa Pb. eapply parses_binop; [exact Pa|done|done|by left| | |].
  { intros b0 k W. cbn [ExprSpec.wt] in W. by repeat apply andb_prop in W as [W ?]. }
  { cbn [cost]. lia. }
  intros rest pre l c f S F c0 k0 -> Hk W C. cbn [ExprSpec.wt] in W.
  apply andb_prop in W as [W Wb]. apply andb_prop in W as [_ Wl].
  cbn [cost] in C. pose proof (cg_cost tab str_base le_base a (length c0) k0 false) as Ca.
  cbn [ExprSpec.cg]. rewrite (cg_lv a _ _ Wl) in *. rewrite length_app in Ca, C. simpl length in *.
  set (ca := c0 ++ cg (length c0) k0 true a).
  assert (Hl : (length c0 + length (cg (length c0) k0 true a) + 1)%nat = length (ca ++ [Op.PSH]))
    by (unfold ca; rewrite !length_app; simpl; lia).
  rewrite Hl, <- Hk in Wb |- *. rewrite app_assoc. fold ca.
  destruct (nxt_op pre l _ _ (ca ++ [Op.LI; ldty tab a]) f (tyof a) S eq_refl) as (l1 & E1 & S1).
  set (f1 := [ldty tab a] ++ f).
  destruct (parses_operand _ _ _ Tk.Assign Pb ltac:(done) ltac:(done) rest pre l1
    (ca ++ [Op.PSH]) f1 (tyof a) S1) as (l2 & f2 & S2 & Hf & n1 & H2);
    [done|by destruct F|done|unfold f1; simpl; lia|].
  set (cb := cg (length (ca ++ [Op.PSH])) (Z.of_nat (length pre)) false b) in *.
  assert (Hcb : (length cb <= cost b)%nat) by apply cg_cost.
  assert (Hf1 : length f1 = (1 + length f)%nat) by done.
  exists l2, (drop 2 f2), (lits b). split; [done|]. split; [done|].
  split. { rewrite !length_app, length_drop. simpl length. rewrite length_app. simpl length. lia. }
  exists n1. intros n Hn. unfold binop. tk_is S. cbn -[bin_assign].
  unfold bin_assign. rewrite E1, ends_in_LI_app, Z.eqb_refl.
  change (ca ++ [Op.LI; ldty tab a]) with (ca ++ [Op.LI] ++ [ldty tab a]).
  rewrite app_assoc, drop_words_app by done. fold f1. rewrite e_idx_eq.
  rewrite patch_app by (rewrite length_app; simpl; lia). rewrite H2 by lia.
  unfold set_ty. cbn [c_lex c_code c_free]. rewrite emit_ok by lia.
  rewrite (emit_typeop_ok _ _ _ _ _ _ (typeop_Assign _)) by (rewrite length_drop; lia).
  unfold ca. by rewrite <- !app_assoc, drop_drop.
Qed.

Lemma parses_post inc a ts : parses Postfix a ts ->
  parses Postfix (EPost inc a) (ts ++ [TOp (if inc then Tk.Inc else Tk.Dec)]).
Proof.
  intros Pa. eapply parses_binop; [exact Pa|done|by destruct inc|right; by destruct inc| | |].
  { intros b0 k W. cbn [ExprSpec.wt] in W. by apply andb_prop in W as [W ?]. }
  { cbn [cost]. lia. }
  intros rest pre l c f S F c0 k0 -> Hk W C. cbn [ExprSpec.wt] in W.
  apply andb_prop in W as [_ Wl]. cbn [app] in S.
  cbn [cost] in C. pose proof (cg_cost tab str_base le_base a (length c0) k0 false) as Ca.
  cbn [ExprSpec.cg]. rewrite (cg_lv a _ _ Wl) in *. rewrite length_app in Ca, C |- *. simpl length in *.
  set (ca := c0 ++ cg (length c0) k0 true a). rewrite app_assoc. fold ca.
  set (cf := ca ++ incdec_code inc (ldty tab a) (tyof a)
             ++ [Op.PSH; Op.IMM; inc_step (tyof a); if inc then Op.SUB else Op.ADD]).
  destruct (nxt_op pre l _ _ cf (drop 11 f) (tyof a) S eq_refl) as (l1 & E1 & S1).
  exists l1, (drop 11 f), []. rewrite !app_nil_r. split; [done|]. split; [done|].
  split. { rewrite !length_app, length_drop. simpl. lia. }
  apply ev_const. intros n.
  assert (forall st, tk st = (if inc then Tk.Inc else Tk.Dec) ->
    binop str_base strsize le_base (expr n) st = bin_incdec str_base strsize st) as ->.
  { intros st Ht. unfold binop. rewrite Ht. by destruct inc. }
  2: { tk_is S. done. }
  unfold bin_incdec. tk_is S. cbn [tok_code]. rewrite keep_address_ok by lia.
  rewrite emits_ok by (simpl; rewrite length_drop; lia).
  rewrite (emit_typeop_ok _ _ _ _ _ _ (typeop_step inc _)) by (rewrite !length_drop; simpl; lia).
  rewrite emits_ok by (simpl; rewrite !length_drop; simpl; lia).
  rewrite (emit_typeop_ok _ _ _ _ _ _ (typeop_Assign _)) by (rewrite !length_drop; simpl; lia).
  rewrite emits_ok by (simpl; rewrite !length_drop; simpl; lia).
  rewrite (emit_typeop_ok _ _ _ _ _ _ (typeop_step inc _)) by (rewrite !length_drop; simpl; lia).
  rewrite emit_ok by (rewrite !length_drop; simpl; lia).
  simpl length. rewrite !drop_drop, <- !app_assoc. simpl app. cbn [Nat.add].
  replace (ca ++ Op.PSH :: _) with cf; [by rewrite E1; unfold cf, ca; rewrite <- !app_assoc|].
  unfold cf, incdec_code. by destruct inc.
Qed.

Lemma parses_index a b ts us : parses Postfix a ts -> parses Tk.Assign b us ->
  parses Postfix (EIndex a b) (ts ++ TOp Tk.Brak :: us ++ [TOp (ch "]")]).
Proof.
  intros Pa Pb. eapply parses_binop; [exact Pa|done|done|by right| | |].
  { intros b0 k W. cbn [ExprSpec.wt] in W. by repeat apply andb_prop in W as [W ?]. }
  { cbn [cost]. lia. }
  intros rest pre l c f S F c0 k0 -> Hk W C. cbn [ExprSpec.wt] in W.
  apply andb_prop in W as [W Wb]. apply andb_prop in W as [_ Wp].
  cbn [cost] in C. pose proof (cg_cost tab str_base le_base a (length c0) k0 false) as Ca.
  rewrite <- app_assoc in S. cbn [app] in S. cbn [ExprSpec.cg].
  set (ca := c0 ++ cg (length c0) k0 false a).
  assert (Hl : (length c0 + length (cg (length c0) k0 false a) + 1)%nat = (length ca + length [Op.PSH])%nat)
    by (unfold ca; rewrite !length_app; simpl; lia).
  rewrite Hl, <- Hk in Wb |- *.
  destruct (right_operand _ _ _ Tk.Assign [Op.PSH] Pb ltac:(done) ltac:(done)
    _ pre l ca f (tyof a) _ S) as (l1 & l2 & f2 & S2 & Hf & E1 & n0 & H2);
    [done|done|done|simpl; lia|].
  set (cb := cg (length ca + length [Op.PSH]) (Z.of_nat (length pre)) false b) in *.
  assert (Hcb : (length cb <= cost b)%nat) by apply cg_cost. simpl length in Hf.
  destruct (expect_op _ l2 _ _ (ca ++ [Op.PSH] ++ cb) f2 (tyof b) "close bracket expected" S2)
    as (l3 & E3 & S3).
  set (sc := if Ty.PTR <? tyof a then [Op.PSH; Op.IMM; ptr_scale (tyof a); Op.MUL] else []).
  assert (Hsc : (length sc <= 4)%nat) by (unfold sc; case_match; simpl; lia).
  exists l3, (drop 2 (drop 1 (drop (length sc) f2))), (lits b). split; [done|]. split; [done|].
  split. { rewrite !length_app, !length_drop. simpl. lia. }
  exists n0. intros n Hn. unfold binop. tk_is S. cbn -[bin_brak].
  unfold bin_brak. rewrite E1, emit_ok by lia. rewrite H2, E3 by lia.
  assert (exists t, (if Ty.PTR <? tyof a then
      match emits [Op.PSH; Op.IMM] (mkC l3 (ca ++ [Op.PSH] ++ cb) f2 (tyof b)) with
      | Ok st => match emit_typeop Tk.Brak (set_ty (tyof a) st) with
                 | Ok st => emit Op.MUL st | Err e => Err e end
      | Err e => Err e end
    else if tyof a <? Ty.PTR then synerr "pointer type expected"
    else Ok (mkC l3 (ca ++ [Op.PSH] ++ cb) f2 (tyof b)))
    = Ok (mkC l3 ((ca ++ [Op.PSH] ++ cb) ++ sc) (drop (length sc) f2) t)) as [t ->].
  { unfold sc in *. destruct (Ty.PTR <? tyof a).
    - exists (tyof a). simpl length in *. rewrite emits_ok by (simpl; lia).
      unfold set_ty. cbn [c_lex c_code c_free].
      rewrite (emit_typeop_ok _ _ _ _ _ _ (typeop_scale Tk.Brak _ ltac:(tauto)))
        by (rewrite !length_drop; simpl; lia).
      rewrite emit_ok by (rewrite !length_drop; simpl; lia).
      simpl length. rewrite !drop_drop, <- !app_assoc. done.
    - exists (tyof b). assert ((tyof a <? Ty.PTR) = false) as -> by lia.
      simpl length. by rewrite app_nil_r, drop_0. }
  rewrite emit_ok by (rewrite length_drop; lia). unfold set_ty. cbn [c_lex c_code c_free].
  rewrite emit_ok by (rewrite !length_drop; lia).
  rewrite (emit_typeop_ok _ _ _ _ _ _ (typeop_Assign _)) by (rewrite !length_drop; lia).
  unfold ca. rewrite <- !app_assoc, !drop_drop. done.
Qed.

(** Every spelling of the grammar is parsed as the expression it spells. *)
Lemma gram_parses L e ts : gram tab L e ts -> parses L e ts.
Proof.
  induction 1.
  - apply (parses_num_like _ _ v). by left.
  - apply (parses_num_like _ _ c). by right.
  - apply parses_str.
  - apply parses_var.
  - by apply parses_sizeof.
  - by apply parses_paren.
  - by apply parses_post.
  - by apply parses_index.
  - apply parses_minus_num.
  - by apply parses_neg.
  - by apply parses_un.
  - by apply parses_deref.
  - by apply parses_addr.
  - by apply parses_cast.
  - by apply parses_pre.
  - by apply parses_bin.
  - by apply (parses_logic false).
  - by apply (parses_logic true).
  - by apply parses_cond.
  - by apply parses_assign.
  - intros rest pre l c f ty S F W C.
    destruct (IHgram rest pre l c f ty S) as (l' & f' & S' & Hf & HL); [|done|done|].
    { destruct F as [F F']. split; [|done]. eapply Z.lt_le_trans; [exact F|]. by apply bnd_mono. }
    exists l', f'. split; [done|]. split; [done|]. intros lev H1 H2. apply HL; [lia | done].
Qed.
End Parse.
