(* ===== verification/ExprRunProof.v ===== *)
(** * ExprRunProof: the virtual machine computes the value

    The code of an expression, run by [expr_run] of src/src/expr.c, leaves the
    value of the expression in the accumulator, its effect in the memory and
    the stack as it was. *)

From S2P Require Import Prelude Wildcard ExprLex ExprComp ExprProg ExprVM ExprSpec.

(** The stack words an expression needs. *)
Fixpoint depth (e : ast) : nat :=
  match e with
  | ENum _ | EChr _ | EStr _ | EVar _ | ESizeof _ => 0
  | EUn Plus a | EDeref a | EAddr a | ECast _ a => depth a
  | EUn _ a => Nat.max (depth a) 1
  | ENeg a => S (depth a)
  | EPre _ a | EPost _ a => Nat.max (depth a) 2
  | EBin _ a b | EIndex a b => Nat.max (depth a) (S (Nat.max (depth b) 1))
  | ELogic _ a b => Nat.max (depth a) (depth b)
  | ECond a b c => Nat.max (depth a) (Nat.max (depth b) (depth c))
  | EAssign a b => Nat.max (depth a) (S (depth b))
  end.

Section Sim.
Context (L : syslib) (stk_base : Z) (g : prog).

(** The words [ws] are the code at index [i]. *)
Definition code_at (i : nat) (ws : list Z) : Prop :=
  forall j w, ws !! j = Some w -> g_insn g !! (i + j)%nat = Some w.

Lemma code_at_app i ws ws' :
  code_at i (ws ++ ws') <-> code_at i ws /\ code_at (i + length ws) ws'.
Proof.
  unfold code_at. split.
  - intros H. split; intros j w Hj.
    + apply H. by rewrite lookup_app_l by (eapply lookup_lt_Some; done).
    + replace (i + length ws + j)%nat with (i + (length ws + j))%nat by lia. apply H.
      rewrite lookup_app_r by lia. by replace (length ws + j - length ws)%nat with j by lia.
  - intros [H1 H2] j w Hj. apply lookup_app_Some in Hj as [Hj|[Hle Hj]]; [by apply H1|].
    replace (i + j)%nat with (i + length ws + (j - length ws))%nat by lia. by apply H2.
Qed.

Lemma code_at_cons i w ws : code_at i (w :: ws) <-> code_at i [w] /\ code_at (S i) ws.
Proof. change (w :: ws) with ([w] ++ ws). rewrite code_at_app. simpl. by rewrite Nat.add_1_r. Qed.

Lemma code_at_one i w : code_at i [w] -> g_insn g !! i = Some w.
Proof. intros H. rewrite <- (Nat.add_0_r i). by apply H. Qed.

Definition pc_of (i : nat) : Z := g_base g + 8 * Z.of_nat i.

Lemma fetch_at i w : g_insn g !! i = Some w -> fetch g (pc_of i) = Ok w.
Proof.
  intros H. unfold fetch, pc_of.
  replace (g_base g + 8 * Z.of_nat i - g_base g) with (Z.of_nat i * 8) by lia.
  rewrite Z.mod_mul, Z.div_mul, Nat2Z.id, H by lia.
  destruct (Z.leb_spec 0 (Z.of_nat i * 8)); [done | lia].
Qed.

(** The configuration of the machine: [pc] at index [i], the stack holding
    [σ], the accumulator [a] and the memory [m]. *)
Record conf (s : vm) (i : nat) (σ : list Z) (a : Z) (m : mem) : Prop := {
  cf_pc : v_pc s = pc_of i;
  cf_sp : 0 <= v_sp s <= 512;
  cf_len : length (v_stack s) = 512%nat;
  cf_stk : drop (Z.to_nat (v_sp s)) (v_stack s) = σ;
  cf_a : v_a s = a;
  cf_mem : v_mem s = m
}.

Lemma conf_sp s i σ a m : conf s i σ a m -> v_sp s = 512 - Z.of_nat (length σ).
Proof.
  intros [_ Hsp Hl <- _ _]. rewrite length_drop, Hl. lia.
Qed.

(** [n] iterations lead from [s] to [s']. *)
Definition reach (n : nat) (s s' : vm) : Prop :=
  forall k, run L stk_base (n + k) g s = run L stk_base k g s'.

Lemma reach_step s s' : step L stk_base g s = Ok (Next s') -> reach 1 s s'.
Proof. intros E k. simpl. by rewrite E. Qed.
Lemma reach_trans n m s s' s'' : reach n s s' -> reach m s' s'' -> reach (n + m) s s''.
Proof. intros H1 H2 k. rewrite <- Nat.add_assoc. by rewrite H1, H2. Qed.

(** The machine goes from one configuration to another in [n] iterations. *)
Definition goes (n : nat) (i : nat) (σ : list Z) (a : Z) (m : mem)
    (i' : nat) (σ' : list Z) (a' : Z) (m' : mem) : Prop :=
  forall s, conf s i σ a m -> exists s', reach n s s' /\ conf s' i' σ' a' m'.

Lemma goes_trans n n' i σ a m i1 σ1 a1 m1 i2 σ2 a2 m2 :
  goes n i σ a m i1 σ1 a1 m1 -> goes n' i1 σ1 a1 m1 i2 σ2 a2 m2 ->
  goes (n + n') i σ a m i2 σ2 a2 m2.
Proof.
  intros H1 H2 s C. destruct (H1 s C) as (s1 & R1 & C1). destruct (H2 s1 C1) as (s2 & R2 & C2).
  exists s2. split; [by eapply reach_trans | done].
Qed.

Lemma goes_step i σ a m i' σ' a' m' :
  (forall s, conf s i σ a m -> exists s', step L stk_base g s = Ok (Next s') /\ conf s' i' σ' a' m') ->
  goes 1 i σ a m i' σ' a' m'.
Proof.
  intros H s C. destruct (H s C) as (s' & E & C'). exists s'. split; [by apply reach_step | done].
Qed.

(** ** The instructions *)

Lemma pc_succ i : pc_of i + 8 = pc_of (S i).
Proof. unfold pc_of. lia. Qed.

(** The instructions with an operand fetch it. *)
Lemma step_operand i σ a m op w s : conf s i σ a m -> code_at i [op; w] ->
  Op.LEA <= op <= Op.SI ->
  step L stk_base g s = operand_op stk_base op w (set_pc (pc_of (S i)) s).
Proof.
  intros [Hpc _ _ _ _ _] Hc Hop. apply code_at_cons in Hc as [Hc1 Hc2].
  unfold step. rewrite Hpc, (fetch_at i op) by (by apply code_at_one).
  destruct (Z.leb_spec Op.LEA op), (Z.leb_spec op Op.SI); try lia. cbn [andb].
  unfold set_pc at 1 2. cbn [v_pc]. rewrite pc_succ.
  rewrite (fetch_at (S i) w) by (by apply code_at_one). by rewrite <- pc_succ, <- Hpc.
Qed.

Lemma go_imm i σ a m w : code_at i [Op.IMM; w] -> goes 1 i σ a m (i + 2) σ w m.
Proof.
  intros Hc. apply goes_step. intros s C. rewrite (step_operand i σ a m Op.IMM w s C Hc) by done.
  eexists. split; [done|]. destruct C. constructor; simpl; try done. rewrite pc_succ. f_equal. lia.
Qed.

Lemma go_jmp i σ a m j : code_at i [Op.JMP; pc_of j] -> goes 1 i σ a m j σ a m.
Proof.
  intros Hc. apply goes_step. intros s C. rewrite (step_operand i σ a m Op.JMP _ s C Hc) by done.
  eexists. split; [done|]. by destruct C.
Qed.

Lemma go_branch i σ a m j (z : bool) :
  code_at i [if z then Op.BZ else Op.BNZ; pc_of j] ->
  goes 1 i σ a m (if Bool.eqb (a =? 0) z then j else i + 2) σ a m.
Proof.
  intros Hc. apply goes_step. intros s C.
  rewrite (step_operand i σ a m _ _ s C Hc) by (by destruct z).
  assert (Ha : v_a s = a) by apply C.
  destruct z; cbn; rewrite Ha; destruct (a =? 0); cbn;
    (eexists; split; [done|]); destruct C; constructor; simpl; try done; rewrite pc_succ; f_equal; lia.
Qed.

Lemma go_li i σ a m t v : code_at i [Op.LI; t] -> load_ty m a t = Some v ->
  goes 1 i σ a m (i + 2) σ v m.
Proof.
  intros Hc Hv. apply goes_step. intros s C. rewrite (step_operand i σ a m Op.LI t s C Hc) by done.
  unfold operand_op. cbn. unfold load_int. cbn. destruct C as [Hpc ? ? ? Ha Hm]. rewrite Ha, Hm.
  unfold load_ty in Hv. destruct (vm_access t) as [[n sg]|]; [|done].
  destruct (load m a n); [|done]. injection Hv as <-. eexists. split; [done|].
  constructor; simpl; try done. rewrite pc_succ. f_equal. lia.
Qed.

Lemma push_ok s i σ a m w : conf s i σ a m -> (length σ < 512)%nat ->
  exists s', push w s = Ok s' /\ conf s' i (w :: σ) a m.
Proof.
  intros C Hl. pose proof (conf_sp _ _ _ _ _ C) as Hsp. unfold push, stack_words.
  destruct (Z.leb_spec 0 (v_sp s - 1)); [|lia]. destruct (Z.ltb_spec (v_sp s - 1) 512); [|lia].
  eexists. split; [done|]. destruct C as [Hpc Hs Hlen Hd Ha Hm].
  constructor; simpl; try done; [lia|by rewrite length_insert|].
  rewrite (drop_S _ w (Z.to_nat (v_sp s - 1))) by (apply list_lookup_insert_eq; lia).
  f_equal. rewrite drop_insert_lt by lia. by replace (S (Z.to_nat (v_sp s - 1))) with (Z.to_nat (v_sp s)) by lia.
Qed.

Lemma pop_ok s i w σ a m : conf s i (w :: σ) a m ->
  exists s', pop s = Ok (w, s') /\ conf s' i σ a m.
Proof.
  intros C. pose proof (conf_sp _ _ _ _ _ C) as Hsp. destruct C as [Hpc Hs Hlen Hd Ha Hm].
  unfold pop, stack_at, move_sp, stack_words. simpl length in Hsp.
  destruct (Z.leb_spec 0 (v_sp s)); [|lia]. destruct (Z.ltb_spec (v_sp s) 512); [|lia]. cbn [andb].
  assert (v_stack s !! Z.to_nat (v_sp s) = Some w) as ->.
  { rewrite <- (Nat.add_0_r (Z.to_nat (v_sp s))), <- lookup_drop, Hd. done. }
  destruct (Z.leb_spec 0 (v_sp s + 1)); [|lia]. destruct (Z.leb_spec (v_sp s + 1) 512); [|lia].
  eexists. split; [done|]. constructor; simpl; try done; try lia.
  replace (Z.to_nat (v_sp s + 1)) with (Z.to_nat (v_sp s) + 1)%nat by lia.
  by rewrite <- drop_drop, Hd.
Qed.

Lemma go_si i σ a m x t m' : code_at i [Op.SI; t] -> store_ty m x t a = Some m' ->
  goes 1 i (x :: σ) a m (i + 2) σ a m'.
Proof.
  intros Hc Hv. apply goes_step. intros s C. rewrite (step_operand i _ a m Op.SI t s C Hc) by done.
  unfold operand_op. cbn. unfold store_int. unfold store_ty in Hv.
  destruct (vm_access t) as [[n sg]|]; [|done].
  destruct (pop_ok (set_pc (pc_of (S i) + 8) (set_pc (pc_of (S i)) s)) (i + 2) x σ a m)
    as (s' & E & [Hpc ? ? ? Ha Hm]).
  { destruct C. constructor; simpl; try done. rewrite pc_succ. f_equal. lia. }
  cbn in E |- *. rewrite E, Hm, Ha, Hv. eexists. split; [done|]. done.
Qed.

(** The instructions without operand. *)
Lemma step_plain i σ a m op s : conf s i σ a m -> code_at i [op] -> Op.SI < op ->
  step L stk_base g s =
    let s := set_pc (pc_of (S i)) s in
    if op =? Op.LEV then
      match move_sp (v_bp s) s with
      | Ok s => match pop s with
                | Ok (b, s) => match pop s with
                   | Ok (r, s) => Ok (Next (mkVM r (v_sp s) (stk_index stk_base b) (v_a s) (v_stack s) (v_mem s)))
                   | Err e => Err e end
                | Err e => Err e end
      | Err e => Err e end
    else if op =? Op.PSH then match push (v_a s) s with Ok s => Ok (Next s) | Err e => Err e end
    else if is_alu op then
      match pop s with
      | Ok (x, s) => match alu op x (v_a s) with Ok v => Ok (Next (set_a v s)) | Err e => Err e end
      | Err e => Err e end
    else if is_str_op op then
      match pop s with
      | Ok (x, s) => match str_op op x (v_a s) (v_mem s) with Ok v => Ok (Next (set_a v s)) | Err e => Err e end
      | Err e => Err e end
    else if op =? Op.EXIT then Ok (Return (v_a s) (v_mem s))
    else sys_op L op g s.
Proof.
  intros [Hpc _ _ _ _ _] Hc Hop.
  unfold step. rewrite Hpc, (fetch_at i op) by (by apply code_at_one).
  destruct (Z.leb_spec op Op.SI); [lia|]. rewrite andb_false_r.
  by rewrite pc_succ.
Qed.

Lemma conf_set_pc s i j σ a m : conf s i σ a m -> conf (set_pc (pc_of j) s) j σ a m.
Proof. by intros []. Qed.

Lemma go_psh i σ a m : code_at i [Op.PSH] -> (length σ < 512)%nat ->
  goes 1 i σ a m (i + 1) (a :: σ) a m.
Proof.
  intros Hc Hl. apply goes_step. intros s C. rewrite (step_plain i σ a m Op.PSH s C Hc) by done.
  cbn. destruct (push_ok _ (S i) σ a m (v_a s) (conf_set_pc s i (S i) σ a m C) Hl) as (s' & E & C').
  rewrite E. eexists. split; [done|]. rewrite Nat.add_1_r. by destruct C as [_ _ _ _ <- _].
Qed.

Lemma go_alu i σ x a m op v : code_at i [op] -> is_alu op = true -> alu op x a = Ok v ->
  goes 1 i (x :: σ) a m (i + 1) σ v m.
Proof.
  intros Hc Hop Hv. assert (Op.LTu <= op <= Op.MODu).
  { unfold is_alu in Hop. lia. }
  apply goes_step. intros s C. rewrite (step_plain i _ a m op s C Hc) by (unfold Op.SI, Op.LTu in *; lia).
  cbv zeta. destruct (Z.eqb_spec op Op.LEV); [unfold Op.LEV, Op.LTu in *; lia|].
  destruct (Z.eqb_spec op Op.PSH); [unfold Op.PSH, Op.LTu in *; lia|]. rewrite Hop.
  destruct (pop_ok _ (S i) x σ a m (conf_set_pc s i (S i) _ a m C)) as (s' & E & C').
  rewrite E. destruct C'. rewrite cf_a0, Hv. eexists. split; [done|]. by rewrite Nat.add_1_r.
Qed.

Lemma go_str i σ x a m op v : code_at i [op] -> is_str_op op = true -> str_op op x a m = Ok v ->
  goes 1 i (x :: σ) a m (i + 1) σ v m.
Proof.
  intros Hc Hop Hv. assert (op = Op.MATCH \/ op = Op.STREQ \/ op = Op.STRNE) as Ho.
  { unfold is_str_op in Hop. lia. }
  apply goes_step. intros s C.
  rewrite (step_plain i _ a m op s C Hc) by (destruct Ho as [->|[->| ->]]; done).
  destruct (pop_ok _ (S i) x σ a m (conf_set_pc s i (S i) _ a m C)) as (s' & E & C').
  exists (set_a v s'). split.
  - destruct C' as [_ _ _ _ Ha Hm].
    destruct Ho as [->|[->| ->]]; cbn -[str_op pop]; cbn in E; rewrite E, Ha, Hm, Hv; done.
  - destruct C'. by rewrite Nat.add_1_r.
Qed.
(** ** Sequences of instructions *)

(** The machine goes from one configuration to another in at most [len]
    iterations. *)
Definition runs (len : nat) (i : nat) (σ : list Z) (a : Z) (m : mem)
    (i' : nat) (σ' : list Z) (a' : Z) (m' : mem) : Prop :=
  exists n, (n <= len)%nat /\ goes n i σ a m i' σ' a' m'.

Lemma runs_trans len len' i σ a m i1 σ1 a1 m1 i2 σ2 a2 m2 :
  runs len i σ a m i1 σ1 a1 m1 -> runs len' i1 σ1 a1 m1 i2 σ2 a2 m2 ->
  runs (len + len') i σ a m i2 σ2 a2 m2.
Proof.
  intros (n & Hn & G) (n' & Hn' & G'). exists (n + n')%nat. split; [lia|].
  by eapply goes_trans.
Qed.

Lemma runs_refl len i σ a m : runs len i σ a m i σ a m.
Proof. exists 0%nat. split; [lia|]. intros s C. exists s. by split. Qed.

Lemma runs_one i σ a m i' σ' a' m' : goes 1 i σ a m i' σ' a' m' -> runs 1 i σ a m i' σ' a' m'.
Proof. intros H. exists 1%nat. by split. Qed.

Lemma runs_le len len' i σ a m i' σ' a' m' :
  runs len i σ a m i' σ' a' m' -> (len <= len')%nat -> runs len' i σ a m i' σ' a' m'.
Proof. intros (n & Hn & G) H. exists n. split; [lia | done]. Qed.

(** Composition, with the positions written as the code has them. *)
Lemma runs_seq len len' len2 i σ a m i1 σ1 a1 m1 i2 σ2 a2 m2 :
  runs len i σ a m i1 σ1 a1 m1 -> runs len' i1 σ1 a1 m1 i2 σ2 a2 m2 ->
  (len + len' <= len2)%nat -> runs len2 i σ a m i2 σ2 a2 m2.
Proof. intros H1 H2 H. eapply runs_le; [by eapply runs_trans | done]. Qed.

(** The constant operand of a binary instruction. *)
Lemma runs_const_op i σ a m w op v :
  code_at i [Op.PSH; Op.IMM; w; op] -> (length σ < 512)%nat -> is_alu op = true ->
  alu op a w = Ok v -> runs 4 i σ a m (i + 4) σ v m.
Proof.
  intros Hc Hl Ho Hv. apply code_at_cons in Hc as [H1 Hc].
  apply (code_at_app _ [_; _]) in Hc as [H2 H3]. simpl length in H3.
  eapply runs_seq; [apply runs_one, go_psh; done| |].
  - rewrite Nat.add_1_r.
    eapply runs_trans; [apply runs_one, go_imm; done|].
    replace (i + 4)%nat with (S i + 2 + 1)%nat by lia. apply runs_one. by eapply go_alu.
  - simpl. lia.
Qed.

Lemma runs_loaded i σ x m (md : bool) t v m' :
  code_at i (if md then [] else [Op.LI; t]) -> loaded md t (Some (x, m)) = Some (v, m') ->
  runs (if md then 0 else 2) i σ x m (i + (if md then 0 else 2)) σ v m'.
Proof.
  intros Hc Hv. destruct md; simpl in Hv.
  - injection Hv as <- <-. rewrite Nat.add_0_r. apply runs_refl.
  - destruct (load_ty m x t) as [w|] eqn:E; [|done]. injection Hv as <- <-.
    eapply runs_le; [apply runs_one; by eapply go_li | lia].
Qed.

Lemma is_alu_uns o o' t ty : is_alu o = true -> is_alu o' = true -> is_alu (uns_or o o' t ty) = true.
Proof. unfold uns_or. by destruct (use_unsigned t ty). Qed.

Lemma runs_one_alu i σ x y m op v :
  code_at i [op] -> is_alu op = true -> ok (alu op x y) = Some v ->
  runs 1 i (x :: σ) y m (i + 1) σ v m.
Proof.
  intros Hc Ho Hv. destruct (alu op x y) as [w|] eqn:E; [|done]. injection Hv as <-.
  apply runs_one. by eapply go_alu.
Qed.

Lemma runs_one_str i σ x y m op v :
  code_at i [op] -> is_str_op op = true -> ok (str_op op x y m) = Some v ->
  runs 1 i (x :: σ) y m (i + 1) σ v m.
Proof.
  intros Hc Ho Hv. destruct (str_op op x y m) as [w|] eqn:E; [|done]. injection Hv as <-.
  apply runs_one. by eapply go_str.
Qed.

Lemma runs_bop o t ty i σ x y m v :
  code_at i (bop_code o t ty) -> bop_val o t ty x y m = Some v -> (length σ + 2 <= 512)%nat ->
  runs (length (bop_code o t ty)) i (x :: σ) y m (i + length (bop_code o t ty)) σ v m.
Proof.
  intros Hc Hv Hl. destruct o; cbn [bop_code bop_val] in *;
    try (eapply runs_one_alu; [eassumption | first [done | by apply is_alu_uns] | done]).
  - unfold str_or in *. destruct (_ && _); [by eapply runs_one_str | by eapply runs_one_alu].
  - unfold str_or in *. destruct (_ && _); [by eapply runs_one_str | by eapply runs_one_alu].
  - by eapply runs_one_str.
  - destruct (Ty.PTR <? t); [|by eapply runs_one_alu].
    apply (code_at_app _ [_; _; _; _]) in Hc as [H1 H2]. simpl length in *.
    eapply runs_seq; [eapply runs_const_op; [done|simpl; lia|done|done]| |].
    + replace (i + 5)%nat with (i + 4 + 1)%nat by lia. by eapply runs_one_alu.
    + lia.
  - destruct (_ && _); [|destruct (Ty.PTR <? t); [|by eapply runs_one_alu]].
    + apply (code_at_app _ [_]) in Hc as [H1 H2]. simpl length in *.
      eapply runs_seq; [by apply (runs_one_alu _ σ x y m Op.SUB (s64 (x - y)))| |].
      * destruct (alu Op.DIV (s64 (x - y)) (ptr_scale ty)) as [w|] eqn:E; [|done]. injection Hv as <-.
        replace (i + 5)%nat with (i + 1 + 4)%nat by lia.
        eapply runs_const_op; [done|simpl; lia|done|done].
      * lia.
    + apply (code_at_app _ [_; _; _; _]) in Hc as [H1 H2]. simpl length in *.
      eapply runs_seq; [eapply runs_const_op; [done|simpl; lia|done|done]| |].
      * replace (i + 5)%nat with (i + 4 + 1)%nat by lia. by eapply runs_one_alu.
      * lia.
Qed.

Lemma runs_incdec i σ x m (inc : bool) ld t w v m' :
  code_at i (incdec_code inc ld t) -> (length σ + 2 <= 512)%nat ->
  load_ty m x ld = Some w -> v = step_val inc w (inc_step t) ->
  store_ty m x (asn t) v = Some m' ->
  runs 9 i σ x m (i + 9) σ v m'.
Proof.
  intros Hc Hl Hw -> Hm. unfold incdec_code in Hc.
  apply (code_at_app _ [_]) in Hc as [H1 Hc].
  apply (code_at_app _ [_; _]) in Hc as [H2 Hc].
  apply (code_at_app _ [_; _; _; _]) in Hc as [H3 H4]. simpl length in *.
  eapply runs_seq; [apply runs_one, go_psh; [done | lia]| |].
  - eapply runs_trans; [apply runs_one; by eapply go_li|].
    eapply runs_trans; [eapply runs_const_op; [done|simpl; lia|by destruct inc|]|].
    + instantiate (1 := step_val inc w (inc_step t)). by destruct inc.
    + replace (i + 9)%nat with (i + 1 + 2 + 4 + 2)%nat by lia. apply runs_one. by eapply go_si.
  - lia.
Qed.
(** ** Expressions *)

Section Expr.
Context (tab : list sym) (str_base : Z).
Abbreviation cg := (cg tab str_base (g_base g)).
Abbreviation ev := (ev tab str_base).

Definition simulates (e : ast) : Prop :=
  forall b k md σ a m v m', code_at b (cg b k md e) -> ev k md e m = Some (v, m') ->
  (length σ + depth e <= 512)%nat ->
  runs (length (cg b k md e)) b σ a m (b + length (cg b k md e)) σ v m'.

(** Inversion of the evaluation of a sequence. *)
Ltac ev_inv H :=
  cbn [ExprSpec.ev] in H;
  repeat match type of H with
  | mbind _ ?r = Some _ => let E := fresh "E" in destruct r as [[? ?]|] eqn:E; [|discriminate H]; cbn [mbind option_bind] in H
  end.

Lemma sim_push2 a1 a2 b k md1 σ a m x m1 y m2 :
  simulates a1 -> simulates a2 ->
  code_at b (cg b k md1 a1 ++ [Op.PSH]
    ++ cg (b + length (cg b k md1 a1) + 1) (k + nlits a1) false a2) ->
  ev k md1 a1 m = Some (x, m1) -> ev (k + nlits a1) false a2 m1 = Some (y, m2) ->
  (length σ + depth a1 <= 512)%nat -> (length σ + S (depth a2) <= 512)%nat ->
  runs (length (cg b k md1 a1) + 1
        + length (cg (b + length (cg b k md1 a1) + 1) (k + nlits a1) false a2))
    b σ a m
    (b + length (cg b k md1 a1) + 1
     + length (cg (b + length (cg b k md1 a1) + 1) (k + nlits a1) false a2)) (x :: σ) y m2.
Proof.
  intros S1 S2 Hc E1 E2 D1 D2. apply code_at_app in Hc as [H1 Hc].
  apply code_at_app in Hc as [H2 H3]. simpl length in H3.
  eapply runs_trans; [eapply runs_trans; [by apply S1|]|].
  - apply runs_one, go_psh; [done | lia].
  - apply S2; [done..|simpl; lia].
Qed.

Lemma sim_expr e : simulates e.
Proof.
  induction e; intros b k md σ a0 m v0 m' Hc Hv Hd.
  - injection Hv as <- <-. eapply runs_le; [by apply runs_one, go_imm | simpl; lia].
  - injection Hv as <- <-. eapply runs_le; [by apply runs_one, go_imm | simpl; lia].
  - injection Hv as <- <-. eapply runs_le; [by apply runs_one, go_imm | simpl; lia].
  - (* EVar *)
    cbn [ExprSpec.cg ExprSpec.ev] in *. apply code_at_app in Hc as [H1 H2]. simpl length in H2.
    rewrite length_app. cbn [length].
    eapply runs_seq; [by apply runs_one, go_imm| |].
    + rewrite Nat.add_assoc.
      replace (length (if md || is_array tab x then [] else [Op.LI; asn (s_type (var_sym tab x))]))
        with (if md || is_array tab x then 0%nat else 2%nat) by (by destruct (md || is_array tab x)).
      by eapply runs_loaded.
    + destruct (md || is_array tab x); simpl; lia.
  - injection Hv as <- <-. eapply runs_le; [by apply runs_one, go_imm | simpl; lia].
  - (* EUn *)
    destruct o; cbn [depth] in Hd.
    + ev_inv Hv. cbn [ExprSpec.cg] in *. injection Hv as <- <-. apply code_at_app in Hc as [H1 H2].
      rewrite length_app, Nat.add_assoc. eapply runs_trans; [apply IHe; [done..|lia]|].
      eapply runs_const_op; [done|lia|done|done].
    + ev_inv Hv. cbn [ExprSpec.cg] in *. injection Hv as <- <-. apply code_at_app in Hc as [H1 H2].
      rewrite length_app, Nat.add_assoc. eapply runs_trans; [apply IHe; [done..|lia]|].
      eapply runs_const_op; [done|lia|done|done].
    + by apply IHe.
  - (* ENeg *)
    ev_inv Hv. cbn [ExprSpec.cg depth] in *. injection Hv as <- <-.
    change ([Op.IMM; -1; Op.PSH] ++ ?x) with ([Op.IMM; -1] ++ [Op.PSH] ++ x) in Hc.
    apply code_at_app in Hc as [H1 Hc]. apply code_at_app in Hc as [H2 Hc].
    apply code_at_app in Hc as [H3 H4]. simpl length in *.
    rewrite length_app. simpl length.
    eapply runs_seq; [by apply runs_one, go_imm| |].
    + eapply runs_trans; [apply runs_one, go_psh; [done|lia]|].
      replace (b + 2 + 1)%nat with (b + 3)%nat in * by lia.
      eapply runs_trans; [apply IHe; [done..|simpl; lia]|].
      replace (b + S (S (S (length (cg (b + 3) k false e) + 1))))%nat
        with (b + 3 + length (cg (b + 3) k false e) + 1)%nat by lia.
      by eapply runs_one_alu.
    + lia.
  - (* EDeref *)
    cbn [ExprSpec.cg ExprSpec.ev depth] in *. apply code_at_app in Hc as [H1 H2].
    destruct (ev k false e m) as [[x m1]|] eqn:E; [|done].
    rewrite length_app, Nat.add_assoc.
    replace (length (if md then [] else [Op.LI; asn (tyof tab e - Ty.PTR)]))
      with (if md then 0%nat else 2%nat) by (by destruct md).
    eapply runs_trans; [by apply IHe|]. by eapply runs_loaded.
  - by apply IHe.
  - (* ECast *)
    cbn [ExprSpec.cg ExprSpec.ev depth] in *. destruct (lv tab e); [|by apply IHe].
    apply code_at_app in Hc as [H1 H2].
    destruct (ev k true e m) as [[x m1]|] eqn:E; [|done].
    rewrite length_app, Nat.add_assoc.
    replace (length (if md then [] else [Op.LI; asn t])) with (if md then 0%nat else 2%nat)
      by (by destruct md).
    eapply runs_trans; [by apply IHe|]. by eapply runs_loaded.
  - (* EPre *)
    cbn [ExprSpec.ev] in Hv. destruct (ev k true e m) as [[x m1]|] eqn:E; [|done].
    cbn [mbind option_bind] in Hv. destruct (load_ty m1 x (ldty tab e)) as [w|] eqn:Ew; [|done].
    cbn [mbind option_bind] in Hv.
    destruct (store_ty _ _ _ _) as [m2|] eqn:Em; [|done]. injection Hv as <- <-.
    cbn [ExprSpec.cg depth] in *. apply code_at_app in Hc as [H1 H2].
    rewrite length_app, Nat.add_assoc. change (length (incdec_code _ _ _)) with 9%nat.
    eapply runs_trans; [apply IHe; [done..|lia]|]. eapply runs_incdec; [done|lia|done..].
  - (* EPost *)
    cbn [ExprSpec.ev] in Hv. destruct (ev k true e m) as [[x m1]|] eqn:E; [|done].
    cbn [mbind option_bind] in Hv. destruct (load_ty m1 x (ldty tab e)) as [w|] eqn:Ew; [|done].
    cbn [mbind option_bind] in Hv.
    destruct (store_ty _ _ _ _) as [m2|] eqn:Em; [|done]. injection Hv as <- <-.
    cbn [ExprSpec.cg depth] in *. apply code_at_app in Hc as [H1 Hc].
    apply code_at_app in Hc as [H2 H3].
    rewrite !length_app. change (length (incdec_code _ _ _)) with 9%nat in *. cbn [length].
    replace (b + (length (cg b k true e) + (9 + 4)))%nat with (b + length (cg b k true e) + 9 + 4)%nat by lia.
    eapply runs_trans; [apply IHe; [done..|lia]|].
    eapply runs_trans; [eapply runs_incdec; [done|lia|done..]|].
    eapply runs_const_op; [done|lia|by destruct inc|by destruct inc].
  - (* EBin *)
    cbn [ExprSpec.ev] in Hv. destruct (ev k false e1 m) as [[x m1]|] eqn:E1; [|done].
    cbn [mbind option_bind] in Hv.
    destruct (ev (k + nlits e1) false e2 m1) as [[y m2]|] eqn:E2; [|done].
    cbn [mbind option_bind] in Hv. destruct (bop_val _ _ _ _ _ _) as [w|] eqn:Ew; [|done].
    injection Hv as <- <-. cbn [ExprSpec.cg depth] in *. rewrite !app_assoc in Hc.
    apply code_at_app in Hc as [Hc H3]. rewrite <- app_assoc in Hc.
    rewrite !length_app in *. cbn [length] in *.
    eapply runs_seq; [eapply sim_push2; [exact IHe1|exact IHe2|done..|lia|lia]| |].
    + replace (b + (length (cg b k false e1) + (1 + (length (cg (b + length (cg b k false e1) + 1)
        (k + nlits e1) false e2) + length (bop_code o (tyof tab e1) (tyof tab e2))))))%nat
        with (b + (length (cg b k false e1) + 1 + length (cg (b + length (cg b k false e1) + 1)
        (k + nlits e1) false e2)) + length (bop_code o (tyof tab e1) (tyof tab e2)))%nat by lia.
      replace (b + length (cg b k false e1) + 1 + length (cg (b + length (cg b k false e1) + 1)
        (k + nlits e1) false e2))%nat with (b + (length (cg b k false e1) + 1 +
        length (cg (b + length (cg b k false e1) + 1) (k + nlits e1) false e2)))%nat by lia.
      eapply runs_bop; [done..|lia].
    + lia.
  - (* ELogic *)
    cbn [ExprSpec.ev] in Hv. destruct (ev k false e1 m) as [[x m1]|] eqn:E1; [|done].
    cbn [mbind option_bind] in Hv. cbn [ExprSpec.cg depth] in *.
    apply code_at_app in Hc as [H1 Hc]. apply code_at_app in Hc as [H2 H3]. cbn [length] in H3.
    rewrite !length_app. cbn [length].
    eapply runs_seq; [apply IHe1; [done..|lia]| |].
    + eapply runs_trans; [apply runs_one, go_branch; exact H2|].
      destruct (Bool.eqb (x =? 0) cj).
      * injection Hv as <- <-. rewrite !Nat.add_assoc. apply runs_refl.
      * rewrite !Nat.add_assoc. apply IHe2; [done..|lia].
    + lia.
  - (* ECond *)
    cbn [ExprSpec.ev] in Hv. destruct (ev k false e1 m) as [[x m1]|] eqn:E1; [|done].
    cbn [mbind option_bind] in Hv. cbn [ExprSpec.cg depth] in *.
    set (ca := cg b k false e1) in *. set (cb := cg (b + length ca + 2) (k + nlits e1) false e2) in *.
    set (b3 := (b + length ca + 2 + length cb + 2)%nat) in *.
    set (cd := cg b3 (k + nlits e1 + nlits e2) false e3) in *.
    apply code_at_app in Hc as [H1 Hc]. apply code_at_app in Hc as [H2 Hc].
    apply code_at_app in Hc as [H3 Hc]. apply code_at_app in Hc as [H4 H5].
    cbn [length] in *. rewrite !length_app. cbn [length].
    replace (b + (length ca + (2 + (length cb + (2 + length cd)))))%nat with (b3 + length cd)%nat
      by (unfold b3; lia).
    eapply (runs_seq (length ca) (1 + (length cb + 1 + length cd))); [apply IHe1; [done..|lia]| |lia].
    eapply runs_trans; [apply runs_one, (go_branch _ _ _ _ b3 true); exact H2|].
    destruct (x =? 0); cbn [Bool.eqb] in *.
    + eapply runs_le; [apply IHe3; [done..|lia]|]. fold cd. lia.
    + eapply (runs_le (length cb + 1)); [|lia].
      eapply runs_trans; [apply IHe2; [done..|lia]|]. apply runs_one, go_jmp. exact H4.
  - (* EAssign *)
    cbn [ExprSpec.ev] in Hv. destruct (ev k true e1 m) as [[x m1]|] eqn:E1; [|done].
    cbn [mbind option_bind] in Hv.
    destruct (ev (k + nlits e1) false e2 m1) as [[y m2]|] eqn:E2; [|done].
    cbn [mbind option_bind] in Hv. destruct (store_ty _ _ _ _) as [m3|] eqn:Em; [|done].
    injection Hv as <- <-. cbn [ExprSpec.cg depth] in *. rewrite !app_assoc in Hc.
    apply code_at_app in Hc as [Hc H3]. rewrite <- app_assoc in Hc.
    rewrite !length_app in *. cbn [length] in *.
    eapply runs_seq; [eapply sim_push2; [exact IHe1|exact IHe2|done..|lia|lia]| |].
    + eapply runs_le; [apply runs_one|exact (Nat.le_refl _)].
      rewrite !Nat.add_assoc in *. by eapply go_si.
    + lia.
  - (* EIndex *)
    cbn [ExprSpec.ev] in Hv. destruct (ev k false e1 m) as [[x m1]|] eqn:E1; [|done].
    cbn [mbind option_bind] in Hv.
    destruct (ev (k + nlits e1) false e2 m1) as [[y m2]|] eqn:E2; [|done].
    cbn [mbind option_bind] in Hv. cbn [ExprSpec.cg depth] in *.
    set (ca := cg b k false e1) in *. set (cb := cg (b + length ca + 1) (k + nlits e1) false e2) in *.
    set (sc := if Ty.PTR <? tyof tab e1 then _ else []) in *.
    set (y' := if Ty.PTR <? tyof tab e1 then _ else y) in *.
    set (ld := if md then [] else _) in *.
    rewrite !app_assoc in Hc. apply code_at_app in Hc as [Hc H5]. apply code_at_app in Hc as [Hc H4].
    apply code_at_app in Hc as [Hc H3]. rewrite <- app_assoc in Hc.
    rewrite !length_app in *. cbn [length] in *. rewrite !Nat.add_assoc in *.
    eapply runs_seq; [eapply sim_push2; [exact IHe1|exact IHe2|done..|lia|lia]| |].
    + fold ca cb. eapply (runs_trans (length sc) (1 + length ld)).
      * instantiate (1 := m2). instantiate (1 := y').
        instantiate (1 := x :: σ). instantiate (1 := (b + length ca + 1 + length cb + length sc)%nat).
        unfold sc, y'. destruct (Ty.PTR <? tyof tab e1); cbn [length].
        -- eapply runs_const_op; [done|simpl; lia|done|done].
        -- rewrite Nat.add_0_r. apply runs_refl.
      * eapply runs_trans; [by apply (runs_one_alu _ σ x y' m2 Op.ADD (s64 (x + y')))|].
        assert (length ld = if md then 0%nat else 2%nat) as -> by (unfold ld; by destruct md).
        by eapply runs_loaded.
    + fold ca cb. lia.
Qed.

(** The depth of the stack is bounded by the length of the code. *)
Lemma depth_bound e : forall b k md, (3 * depth e <= length (cg b k md e))%nat.
Proof.
  induction e; intros b k md; cbn [ExprSpec.cg depth];
    try (destruct o); try (destruct (lv tab e)); try (destruct md);
    rewrite ?length_app; simpl length; rewrite ?length_app; simpl length;
    repeat match goal with |- context [length (cg ?b ?k ?md ?x)] =>
      lazymatch goal with H : (3 * _ <= length (cg b k md x))%nat |- _ => fail | _ => idtac end;
      match goal with IH : forall b k md, (3 * _ <= length (cg b k md x))%nat |- _ =>
        pose proof (IH b k md); pose proof (cg_len2 tab str_base (g_base g) x b k md) end end;
    try lia; repeat case_match; simpl length; lia.
Qed.
End Expr.
End Sim.
