(* ===== verification/ExprSym.v ===== *)
(** * ExprSym: the symbol table of a compilation

    The table [expr_compile_flags] of src/src/expr.c builds before it parses:
    the declarations always succeed for identifiers of supported sizes, and the
    table maps every declared variable to its type and its address. *)

From Stdlib Require Import Ascii.
From S2P Require Import Prelude ExprLex ExprComp ExprProg ExprSpec ExprLexProof.

(** ** Hashes *)

Lemma name_hash_len x : x <> [] -> (length x < 64)%nat ->
  name_hash x mod 64 = Z.of_nat (length x).
Proof.
  intros Hx Hl. destruct x as [|c r]; [done|]. cbn [name_hash]. unfold HASH, TK_SHIFT.
  destruct (swrap_shift 64 ltac:(lia) (Z.shiftl (foldl (fun h c => s64 (h * 147 + c)) c r) 6
    + Z.of_nat (length (c :: r)))) as [k ->].
  rewrite Z.shiftl_mul_pow2 by lia.
  set (h := foldl _ c r). set (n := Z.of_nat (length (c :: r))).
  replace (h * 2 ^ 6 + n + k * 2 ^ 64) with (n + (h + k * 2 ^ 58) * 64) by lia.
  rewrite Z.mod_add by lia. apply Z.mod_small. unfold n. lia.
Qed.

(** ** Entries and their names *)

(** [entry s x]: [s] is the entry of the name [x]. *)
Definition entry (s : sym) (x : list Z) : Prop :=
  s_token s <> 0 /\ s_hash s = name_hash x /\ (exists r, s_name s = x ++ r) /\
  x <> [] /\ (length x < 64)%nat.

Definition matches_name (y : list Z) (s : sym) : bool :=
  (name_hash y =? s_hash s) && same_name (length y) (s_name s) y.

(** A name matches its own entry and no other. *)
Lemma entry_matches s x y : entry s x -> y <> [] -> (length y < 64)%nat ->
  matches_name y s = true <-> x = y.
Proof.
  intros (_ & Hh & [r Hn] & Hx & Hl) Hy Hly. unfold matches_name, same_name. split.
  - intros H. apply andb_prop in H as [H1 H2]. apply Z.eqb_eq in H1.
    apply bool_decide_eq_true in H2.
    assert (length x = length y) as E.
    { pose proof (name_hash_len x Hx Hl). pose proof (name_hash_len y Hy Hly).
      rewrite Hh in H1. rewrite H1 in *. lia. }
    rewrite Hn, <- E, take_app_length in H2. rewrite H2. by rewrite E, firstn_all.
  - intros ->. rewrite Hh, Hn, Z.eqb_refl, take_app_length, firstn_all. by apply bool_decide_eq_true.
Qed.

(** An update of an entry that keeps its name is seen by its name only. *)
Lemma find_sym_alter h n pp f i tab : forall j,
  (forall s, s_token (f s) = s_token s /\ s_hash (f s) = s_hash s /\ s_name (f s) = s_name s) ->
  find_sym h n pp (alter f i tab) j =
    let '(q, o) := find_sym h n pp tab j in (q, if decide (q = j + i)%nat then f <$> o else o).
Proof.
  intros j Hf. revert i j. induction tab as [|s tab IH]; intros i j.
  - simpl. by destruct (decide _).
  - destruct (Hf s) as (H1 & H2 & H3). destruct i as [|i].
    + change (alter f 0%nat (s :: tab)) with (f s :: tab). cbn [find_sym]. rewrite H1, H2, H3.
      destruct (_ =? 0); [by destruct (decide _)|].
      destruct (_ && _); [by rewrite decide_True by lia|].
      pose proof (find_sym_post h n pp tab (S j)) as P.
      destruct (find_sym h n pp tab (S j)) as [q [s'|]]; [|by destruct (decide _)].
      rewrite decide_False by lia. done.
    + change (alter f (S i) (s :: tab)) with (s :: alter f i tab). cbn [find_sym].
      destruct (_ =? 0); [by destruct (decide _)|].
      destruct (_ && _); [by rewrite decide_False by lia|].
      rewrite IH. destruct (find_sym h n pp tab (S j)) as [q o].
      replace (S j + i)%nat with (j + S i)%nat by lia. done.
Qed.

Lemma find_sym_app h n pp tab tab' : forall j q s,
  find_sym h n pp tab j = (q, Some s) -> find_sym h n pp (tab ++ tab') j = (q, Some s).
Proof.
  induction tab as [|s0 tab IH]; intros j q s; [done|]. cbn [find_sym app].
  destruct (_ =? 0); [done|]. destruct (_ && _); [done|]. apply IH.
Qed.

(** The scan over used entries none of which matches. *)
Lemma find_sym_none h n pp tab : forall j, Forall (fun s => s_token s <> 0) tab ->
  snd (find_sym h n pp tab j) = None ->
  forall tab', find_sym h n pp (tab ++ tab') j = find_sym h n pp tab' (j + length tab).
Proof.
  induction tab as [|s0 tab IH]; intros j Hu Hs tab'; cbn [app length].
  - by rewrite Nat.add_0_r.
  - apply Forall_cons_1 in Hu as [Hu Hus]. cbn [find_sym] in *.
    apply Z.eqb_neq in Hu. rewrite Hu in *. destruct (_ && _); [done|].
    rewrite IH by done. f_equal. lia.
Qed.

Lemma find_sym_used h n pp used rest j : Forall (fun s => s_token s <> 0) used ->
  snd (find_sym h n pp (used ++ rest) j) =
    match snd (find_sym h n pp used j) with
    | Some s => Some s
    | None => snd (find_sym h n pp rest (j + length used))
    end.
Proof.
  intros Hu. destruct (find_sym h n pp used j) as [q [s|]] eqn:E; simpl.
  - by rewrite (find_sym_app _ _ _ _ _ _ _ _ E).
  - rewrite find_sym_none; [done..|]. by rewrite E.
Qed.

Lemma find_sym_zeros h n pp zs j : Forall (fun s => s = sym0) zs -> snd (find_sym h n pp zs j) = None.
Proof. intros H. destruct H as [|s zs -> _]; done. Qed.

Lemma find_sym_matches x tab : forall j i s,
  find_sym (name_hash x) (length x) x tab j = (i, Some s) -> matches_name x s = true.
Proof.
  induction tab as [|s0 tab IH]; intros j i s F; [done|]. cbn [find_sym] in F.
  destruct (_ =? 0); [done|]. unfold matches_name in *.
  destruct (_ && _) eqn:M; [by injection F as -> ->|by eapply IH].
Qed.

(** ** The invariant of the table *)

Record tab_wf (strsize : nat) (l : lex) : Prop := {
  tw_lex : lex_wf strsize l;
  tw_str : l_str l = [];
  tw_entries : forall i s, (i < l_n_syms l)%nat -> l_symtab l !! i = Some s -> exists x, entry s x
}.

Definition find (l : lex) (x : list Z) : option sym := snd (lookup_name (l_symtab l) x).

Definition good_name (x : list Z) : Prop := spells (TName x) x /\ (length x < 64)%nat.

(** The table as the used entries followed by zeros. *)
Lemma tab_split strsize l : lex_wf strsize l ->
  l_symtab l = take (l_n_syms l) (l_symtab l) ++ drop (l_n_syms l) (l_symtab l).
Proof. intros _. by rewrite take_drop. Qed.

Section Table.
Context (A : alloc) (strsize : nat).

(** Reading a name: it is in the table afterwards, at [id], and the other names
    are as they were. *)
Lemma next_name l x : tab_wf strsize l -> (0 < strsize)%nat -> good_name x ->
  exists l' s, next_in A strsize (x ++ [0]) l = Ok l' /\ tab_wf strsize l' /\
    lookup_name (l_symtab l') x = (l_id l', Some s) /\ entry s x /\
    (find l x = Some s \/ find l x = None /\ s_token s = Tk.Id) /\
    (forall y, y <> x -> good_name y -> find l' y = find l y) /\ (l_n_syms l <= l_n_syms l')%nat.
Proof.
  intros [W Hstr He] Hn [Hx Hlx].
  assert (Hx' := Hx). inversion Hx' as [| | | | |c x0 Hc Hx0 E|]; subst. set (x := c :: x0) in *.
  set (l1 := set_p (x ++ [0]) l).
  assert (W1 : lex_wf (strsize + length x) l1).
  { destruct W as [H1 H2 H3 H4 H5 H6]. constructor; try done. simpl.
    rewrite Hstr. simpl. rewrite length_app. simpl. lia. }
  assert (E : next_in A strsize (x ++ [0]) l = lex_ident c (x0 ++ [0]) l1).
  { unfold next_in, next. destruct (spells_first _ _ [0] Hx) as (c' & r & E1 & E2 & E3 & E4).
    injection E1 as <- <-.
    rewrite (next_loop_tok _ _ _ _ c (x0 ++ [0])) by done. by rewrite Hc. }
  pose proof (lex_ident_post (strsize + length x) c (x0 ++ [0]) l1 W1 eq_refl) as P.
  rewrite E. clear E. unfold lex_ident in *.
  rewrite ident_rest_app in * by (done || by eauto).
  change (1 + length x0)%nat with (length x) in *.
  change (c :: x0 ++ [0]) with (x ++ [0]) in *. rewrite find_sym_name in *.
  change (HASH (foldl (fun h c => s64 (h * 147 + c)) c x0) (Z.of_nat (length x))) with (name_hash x) in *.
  assert (Fin : forall l', lex_wf (strsize + length x) l' -> l_str l' = [] -> l_p l' = [0] ->
    lex_wf strsize l').
  { intros l' [? ? ? ? ? ?] Hs Hp. constructor; try done. rewrite Hs, Hp. simpl. lia. }
  change (l_symtab l1) with (l_symtab l) in *. change (l_n_syms l1) with (l_n_syms l) in *.
  change (nr_syms l1) with (nr_syms l) in *.
  destruct (find_sym (name_hash x) (length x) x (l_symtab l) 0) as [i [s|]] eqn:F.
  - eexists _, s. split; [done|]. destruct P as [P (_ & _ & _ & Pn)].
    split; [constructor; [by apply Fin|done|done]|].
    split; [unfold lookup_name; simpl; by rewrite <- F|].
    pose proof (find_sym_post (name_hash x) (length x) x (l_symtab l) 0) as Q. rewrite F in Q.
    destruct Q as (_ & Hi & Ht). rewrite Nat.sub_0_r in Hi.
    split.
    + assert (i < l_n_syms l)%nat as Hlt.
      { destruct (decide (i < l_n_syms l)%nat); [done|]. exfalso. apply Ht.
        rewrite (unused_lookup strsize l i W) in Hi; [by injection Hi as <-|].
        split; [lia|]. apply lookup_lt_is_Some_1. eauto. }
      destruct (He i s Hlt Hi) as [y Hy]. replace x with y; [done|].
      apply (entry_matches s y x Hy); [done..|].
      by eapply find_sym_matches.
    + split; [left; unfold find, lookup_name; by rewrite F|]. by split.
  - pose proof (find_free strsize l _ _ _ _ W F) as ->.
    set (n := l_n_syms l) in *. pose proof (wf_nsyms _ _ W) as Hnn. fold n in Hnn.
    set (used := take n (l_symtab l)).
    assert (Hlu : length used = n) by (unfold used, nr_syms in *; rewrite length_take; lia).
    assert (Hu : Forall (fun s => s_token s <> 0) used) by apply (wf_used _ _ W).
    assert (exists zs, (if (n =? nr_syms l)%nat then (l_symtab l ++ replicate 16 sym0, n)
       else (l_symtab l, n)) = (used ++ sym0 :: zs, n) /\ Forall (fun s => s = sym0) zs) as (zs & Ez & Hz).
    { pose proof (wf_unused _ _ W) as Hz. fold n in Hz. unfold used, nr_syms in *.
      destruct (Nat.eqb_spec n (length (l_symtab l))) as [En|En].
      - exists (replicate 15 sym0). split; [|by apply Forall_replicate]. rewrite En, firstn_all. done.
      - destruct (drop n (l_symtab l)) as [|z zs] eqn:Ed.
        { apply (f_equal length) in Ed. rewrite length_drop in Ed. simpl in Ed. lia. }
        inversion Hz as [|? ? -> Hz']; subst. exists zs. split; [|done].
        by rewrite <- Ed, take_drop. }
    rewrite Ez in *. rewrite (list_lookup_middle used zs sym0 n (eq_sym Hlu)) in *.
    set (s := mkSym Tk.Id (s_class sym0) (x ++ [0]) (name_hash x) (s_ref sym0) (s_type sym0)
                (s_nr_elm sym0) (s_value sym0)) in *.
    assert (Ei : <[n:=s]> (used ++ sym0 :: zs) = used ++ s :: zs).
    { rewrite <- Hlu, <- (Nat.add_0_r (length used)), insert_app_r. done. }
    rewrite Ei in *.
    assert (Hes : entry s x) by (split; [done|]; split; [done|]; split; [by exists [0] | by split]).
    assert (Fu : snd (find_sym (name_hash x) (length x) x used 0) = None).
    { pose proof (find_sym_used (name_hash x) (length x) x used (drop n (l_symtab l)) 0 Hu) as Q.
      unfold used in Q at 1. rewrite take_drop, F in Q. simpl in Q.
      by destruct (snd (find_sym _ _ x used 0)). }
    eexists _, s. split; [done|]. destruct P as [P (_ & _ & _ & Pn)].
    split; [constructor; [by apply Fin|done|]|].
    { simpl. intros j s' Hj Hs'. destruct (decide (j = n)) as [->|Hne].
      - rewrite (list_lookup_middle used zs s n (eq_sym Hlu)) in Hs'. injection Hs' as <-. eauto.
      - rewrite lookup_app_l in Hs' by lia. apply (He j); [lia|].
        unfold used in Hs'. rewrite lookup_take_lt in Hs' by lia. done. }
    split.
    { unfold lookup_name. simpl. rewrite (find_sym_none _ _ _ used 0 Hu Fu). rewrite Hlu. cbn [find_sym].
      change (s_token s =? 0) with false. cbv iota.
      change ((name_hash x =? s_hash s) && same_name (length x) (s_name s) x) with (matches_name x s).
      by rewrite (proj2 (entry_matches s x x Hes ltac:(done) Hlx) eq_refl). }
    split; [done|]. split; [right; split; [unfold find, lookup_name; by rewrite F|done]|].
    split; [|done]. intros y Hyx [Hy Hly]. unfold find, lookup_name. simpl.
    assert (Hy0 : y <> []) by (by inversion Hy).
    rewrite (find_sym_used _ _ _ used _ 0 Hu).
    pose proof (find_sym_used (name_hash y) (length y) y used (drop n (l_symtab l)) 0 Hu) as Q.
    unfold used in Q at 1. rewrite take_drop in Q. rewrite Q.
    destruct (snd (find_sym _ _ y used 0)); [done|].
    rewrite (find_sym_zeros _ _ _ (drop n (l_symtab l))) by apply (wf_unused _ _ W).
    cbn [find_sym]. change (s_token s =? 0) with false. cbv iota.
    change ((name_hash y =? s_hash s) && same_name (length y) (s_name s) y) with (matches_name y s).
    destruct (matches_name y s) eqn:M.
    { apply (entry_matches s x y Hes Hy0 Hly) in M. congruence. }
    by apply find_sym_zeros.
Qed.

(** Setting the fields of the symbol just read. *)
Lemma upd_id_spec l x s f : tab_wf strsize l ->
  lookup_name (l_symtab l) x = (l_id l, Some s) -> entry s x ->
  (forall s, s_token (f s) = s_token s /\ s_hash (f s) = s_hash s /\ s_name (f s) = s_name s) ->
  tab_wf strsize (upd_id f l) /\ find (upd_id f l) x = Some (f s) /\
  (forall y, y <> x -> good_name y -> find (upd_id f l) y = find l y).
Proof.
  intros [[H1 H2 H3 H4 H5 H6] Hs He] Hx Hes Hf.
  pose proof (find_sym_post (name_hash x) (length x) x (l_symtab l) 0) as Q.
  unfold lookup_name in Hx. rewrite Hx in Q. destruct Q as (_ & Hi & Ht). rewrite Nat.sub_0_r in Hi.
  assert (Hid : (l_id l < l_n_syms l)%nat).
  { destruct (decide (l_id l < l_n_syms l)%nat); [done|]. exfalso. apply Ht.
    rewrite (unused_lookup strsize l (l_id l)) in Hi; [by injection Hi as <-|done|lia]. }
  split; [|split].
  - constructor; [|done|].
    + constructor; unfold nr_syms in *; simpl; rewrite ?length_alter; try done.
      * apply Forall_lookup. intros j s' Hj. rewrite Forall_lookup in H4.
        apply lookup_take_Some in Hj as [Hj Hlt]. destruct (decide (j = l_id l)) as [->|Hne].
        -- rewrite list_lookup_alter_eq, Hi in Hj. injection Hj as <-. by rewrite (proj1 (Hf s)).
        -- rewrite list_lookup_alter_ne in Hj by done. apply (H4 j). by rewrite lookup_take_lt.
      * rewrite Forall_lookup in H5 |- *. intros j s' Hj. rewrite lookup_drop in Hj.
        rewrite list_lookup_alter_ne in Hj by lia. apply (H5 j). by rewrite lookup_drop.
    + simpl. intros j s' Hj Hs'. destruct (decide (j = l_id l)) as [->|Hne].
      * rewrite list_lookup_alter_eq, Hi in Hs'. injection Hs' as <-. exists x.
        destruct Hes as (E1 & E2 & E3 & E4). destruct (Hf s) as (F1 & F2 & F3).
        unfold entry. by rewrite F1, F2, F3.
      * rewrite list_lookup_alter_ne in Hs' by done. by apply (He j).
  - unfold find, lookup_name. simpl. rewrite find_sym_alter, Hx by done. simpl.
    by rewrite decide_True by done.
  - intros y Hy [Hys Hyl]. unfold find, lookup_name. simpl. rewrite find_sym_alter by done.
    destruct (find_sym (name_hash y) (length y) y (l_symtab l) 0) as [q o] eqn:E. simpl.
    destruct (decide (q = l_id l)) as [->|]; [|done]. destruct o as [s'|]; [|done].
    exfalso. apply Hy. symmetry. apply (entry_matches s x y Hes); [by inversion Hys|done|].
    pose proof (find_sym_post (name_hash y) (length y) y (l_symtab l) 0) as Q. rewrite E in Q.
    destruct Q as (_ & Hi' & _). rewrite Nat.sub_0_r, Hi in Hi'. injection Hi' as ->.
    by eapply find_sym_matches.
Qed.

(** ** Declarations *)

Definition good_decl (d : global_var_declare) : Prop :=
  good_name (v_name d) /\ decl_type d <> None.

(** The entry a declaration makes, with the data at [data]. *)
Definition declared (data : Z) (d : global_var_declare) (s : sym) : Prop :=
  s_class s = Tk.Glo /\ decl_type d = Some (s_type s) /\ s_value s = data + v_offset d.

Lemma declare_all_spec data : forall ds mx l,
  tab_wf strsize l -> (0 < strsize)%nat -> Forall good_decl ds ->
  exists l', declare_all A strsize data ds mx l
      = Ok (inl (l', foldl (fun m d => if m <? decl_end d then decl_end d else m) mx ds)) /\
    tab_wf strsize l' /\ (l_n_syms l <= l_n_syms l')%nat /\
    (forall y, good_name y -> y ∉ map v_name ds -> find l' y = find l y) /\
    (NoDup (map v_name ds) -> forall d, d ∈ ds -> exists s,
       find l' (v_name d) = Some s /\ declared data d s /\
       s_token s = match find l (v_name d) with Some s0 => s_token s0 | None => Tk.Id end).
Proof.
  induction ds as [|d ds IH]; intros mx l W Hn Hd; cbn [declare_all].
  { exists l. split_and!; try done. intros _ d Hd'. by apply not_elem_of_nil in Hd'. }
  apply Forall_cons_1 in Hd as [[Hd Ht] Hds].
  destruct (next_name l (v_name d) W Hn Hd) as (l1 & s & E & W1 & L1 & En & Fs & O1 & N1).
  rewrite E. destruct (decl_type d) as [t|] eqn:Et; [|done].
  set (f := fun s => mkSym (s_token s) Tk.Glo (s_name s) (s_hash s) (s_ref s) t
                       (Z.quot (v_size d) (v_elementsize d)) (data + v_offset d)).
  destruct (upd_id_spec l1 (v_name d) s f W1 L1 En ltac:(done)) as (W2 & F2 & O2).
  destruct (IH (if mx <? decl_end d then decl_end d else mx) (upd_id f l1) W2 Hn Hds)
    as (l' & E' & W' & N' & O' & B').
  exists l'. split; [done|]. split; [done|]. split; [simpl in N'; lia|]. split.
  - intros y Hy Hin. cbn [map] in Hin. apply not_elem_of_cons in Hin as [Hne Hin].
    by rewrite O', O2, O1.
  - intros Hnd d' Hd'. cbn [map] in Hnd. inversion_clear Hnd as [|? ? Hnin Hnd0]; rename Hnd0 into Hnd.
    apply elem_of_cons in Hd' as [->|Hd'].
    + exists (f s). rewrite O' by done. split; [done|]. split; [done|]. simpl.
      by destruct Fs as [->|[-> ->]].
    + destruct (B' Hnd d' Hd') as (s' & F' & D' & T'). exists s'. split; [done|]. split; [done|].
      rewrite T'. assert (v_name d' <> v_name d).
      { intros Eq. apply Hnin. rewrite <- Eq. apply list_elem_of_fmap. eauto. }
      assert (good_name (v_name d')).
      { rewrite Forall_forall in Hds. apply Hds. by apply list_elem_of_In. }
      by rewrite O2, O1.
Qed.
(** The extent of the declared data. *)
Definition extent (ds : list global_var_declare) : Z :=
  foldl (fun m d => if m <? decl_end d then decl_end d else m) 0 ds.

Lemma extent_max ds : extent ds = foldr (fun d m => Z.max (decl_end d) m) 0 ds.
Proof.
  unfold extent. assert (H : forall ds m, 0 <= m ->
    foldl (fun m d => if m <? decl_end d then decl_end d else m) m ds
    = Z.max m (foldr (fun d m => Z.max (decl_end d) m) 0 ds)).
  { clear. induction ds as [|d ds IH]; intros m Hm; simpl; [lia|].
    rewrite IH by (case_match; lia). destruct (Z.ltb_spec m (decl_end d)); lia. }
  rewrite H by lia. apply Z.max_r. clear. induction ds; simpl; lia.
Qed.

Lemma declare_loop_spec ds : (0 < strsize)%nat -> Forall good_decl ds -> forall fuel k l,
  tab_wf strsize l -> extent ds <= 256 * (Z.of_nat k + Z.of_nat fuel) -> (0 < fuel)%nat ->
  exists l' k', declare_loop A fuel strsize ds k l = Ok (inl (l', extent ds, k')) /\
    extent ds <= 256 + 256 * Z.of_nat k' /\ tab_wf strsize l' /\ (l_n_syms l <= l_n_syms l')%nat /\
    (forall y, good_name y -> y ∉ map v_name ds -> find l' y = find l y) /\
    (NoDup (map v_name ds) -> forall d, d ∈ ds -> exists s,
       find l' (v_name d) = Some s /\ declared (a_data A k') d s /\
       s_token s = match find l (v_name d) with Some s0 => s_token s0 | None => Tk.Id end).
Proof.
  intros Hn Hd. induction fuel as [|fuel IH]; intros k l W Hx Hf; [lia|]. cbn [declare_loop].
  destruct (declare_all_spec (a_data A k) ds 0 l W Hn Hd) as (l1 & E & W1 & N1 & O1 & B1).
  rewrite E. fold (extent ds). destruct (Z.ltb_spec (256 + 256 * Z.of_nat k) (extent ds)).
  - destruct (IH (S k) l1 W1) as (l' & k' & E' & X' & W' & N' & O' & B'); [lia|lia|].
    exists l', k'. split_and!; try done; [lia| |].
    + intros y Hy Hin. by rewrite O', O1.
    + intros Hnd d Hin. destruct (B' Hnd d Hin) as (s & Fs & Ds & Ts). exists s.
      split; [done|]. split; [done|]. rewrite Ts.
      destruct (B1 Hnd d Hin) as (s1 & F1 & _ & T1). by rewrite F1.
  - by exists l1, k.
Qed.

(** ** The table of a compilation *)

(** A decidable form of [entry], for concrete tables. *)
Definition check_entry (s : sym) : bool :=
  let x := take (Z.to_nat (LEN (s_hash s))) (s_name s) in
  negb (s_token s =? 0) && (s_hash s =? name_hash x) && (0 <? length x)%nat && (length x <? 64)%nat.

Lemma check_entry_ok s : check_entry s = true -> exists x, entry s x.
Proof.
  unfold check_entry. set (x := take _ _). intros H.
  repeat apply andb_prop in H as [H ?]. exists x. split_and!.
  - by apply Z.eqb_neq, negb_true_iff.
  - by apply Z.eqb_eq.
  - exists (drop (Z.to_nat (LEN (s_hash s))) (s_name s)). unfold x. by rewrite take_drop.
  - intros E. rewrite E in *. done.
  - by apply Nat.ltb_lt.
Qed.

(** The keywords and the library. *)
Lemma default_symbols_ok flag : (0 < strsize)%nat ->
  exists l, default_symbols A strsize flag lex0 = Ok l /\ tab_wf strsize l /\ (0 < l_n_syms l)%nat.
Proof.
  intros Hn. destruct flag; (eexists; split; [vm_compute; reflexivity|]; split; [|simpl; lia]).
  all: constructor; [constructor; cbn; try lia; repeat constructor; done|done|].
  all: intros i s Hi Hs; apply check_entry_ok; revert i s Hi Hs; simpl; intros i s Hi Hs;
    do 17 (destruct i as [|i]; [first [lia | injection Hs as <-; vm_compute; reflexivity]|]); lia.
Qed.

(** For declarations of identifiers with supported sizes, the table is built:
    every declared variable has its type, and the address of its field in the
    data buffer, which is large enough. *)
Lemma setup_spec ds flag : (0 < strsize)%nat -> a_names_ok A = true -> Forall good_decl ds ->
  exists l k, setup A strsize (Some ds) flag = Ok (inl (l, extent ds, k)) /\ tab_wf strsize l /\
    (0 < l_n_syms l)%nat /\
    extent ds <= 256 + 256 * Z.of_nat k /\
    (NoDup (map v_name ds) -> forall d, d ∈ ds -> exists s,
       find l (v_name d) = Some s /\ declared (a_data A k) d s).
Proof.
  intros Hn Hok Hd. unfold setup.
  destruct (default_symbols_ok flag Hn) as (l0 & E & W & N0). rewrite E.
  unfold declare_vars. rewrite Hok. cbn [negb].
  destruct (declare_loop_spec ds Hn Hd (declare_fuel ds) 0 l0 W) as (l & k & E' & X & W' & N & _ & B).
  { unfold declare_fuel. rewrite <- extent_max. pose proof (Z.div_mod (extent ds) 256 ltac:(lia)).
    pose proof (Z.mod_pos_bound (extent ds) 256 ltac:(lia)). lia. }
  { unfold declare_fuel. lia. }
  exists l, k. split; [exact E'|]. split; [exact W'|]. split; [lia|]. split; [exact X|]. intros Hnd d Hin.
  destruct (B Hnd d Hin) as (s & F & D & _). eauto.
Qed.

Lemma setup_none flag : (0 < strsize)%nat ->
  exists l, setup A strsize None flag = Ok (inl (l, 0, O)) /\ tab_wf strsize l /\ (0 < l_n_syms l)%nat.
Proof.
  intros Hn. unfold setup. destruct (default_symbols_ok flag Hn) as (l & E & W & N). rewrite E.
  exists l. split; [done|]. by split.
Qed.
End Table.
