(* ===== verification/ExprReloc.v ===== *)
(** * ExprReloc: relocation of the jumps

    After the code buffer is reallocated, the pass of [expr_compile_flags] of
    src/src/expr.c over the instructions turns the code for the old address
    into the code for the new one. *)

From S2P Require Import Prelude ExprLex ExprComp ExprProg ExprVM ExprSpec.

Section Reloc.
Context (delta : Z).

(** [relocs n ws ws']: [n] iterations of the pass turn [ws] into [ws']. *)
Definition relocs (n : nat) (ws ws' : list Z) : Prop :=
  length ws' = length ws /\ (n <= length ws)%nat /\
  forall q pre post, reloc_loop (n + q) delta (length pre) (pre ++ ws ++ post)
    = reloc_loop q delta (length pre + length ws) (pre ++ ws' ++ post).

(** The code is relocated when some number of iterations does it. *)
Definition relocated (ws ws' : list Z) : Prop := exists n, relocs n ws ws'.

Lemma relocated_app ws1 ws1' ws2 ws2' :
  relocated ws1 ws1' -> relocated ws2 ws2' -> relocated (ws1 ++ ws2) (ws1' ++ ws2').
Proof.
  intros (n1 & L1 & N1 & R1) (n2 & L2 & N2 & R2). exists (n1 + n2)%nat.
  split; [rewrite !length_app; lia|]. split; [rewrite !length_app; lia|]. intros q pre post.
  rewrite <- Nat.add_assoc, <- app_assoc, R1.
  specialize (R2 q (pre ++ ws1') post).
  rewrite !length_app, L1, <- !app_assoc in *. rewrite R2. f_equal. lia.
Qed.

Lemma relocated_nil : relocated [] [].
Proof. exists 0%nat. split; [done|]. split; [done|]. intros. by rewrite Nat.add_0_r. Qed.

Lemma lookup_mid {A} (pre post : list A) w : (pre ++ w :: post) !! length pre = Some w.
Proof. by rewrite list_lookup_middle. Qed.

Lemma lookup_mid2 {A} (pre post : list A) w t : (pre ++ w :: t :: post) !! S (length pre) = Some t.
Proof.
  change (w :: t :: post) with ([w] ++ t :: post). rewrite app_assoc.
  replace (S (length pre)) with (length (pre ++ [w])) by (rewrite length_app; simpl; lia).
  apply lookup_mid.
Qed.

(** An instruction with an operand that is no jump. *)
Lemma relocated_operand op w : op = Op.IMM \/ op = Op.LI \/ op = Op.SI -> relocated [op; w] [op; w].
Proof.
  intros Ho. exists 1%nat. split; [done|]. split; [simpl; lia|]. intros q pre post. cbn [Nat.add reloc_loop app].
  rewrite lookup_mid. assert ((op =? Op.JMP) || (op =? Op.JSR) || (op =? Op.BZ) || (op =? Op.BNZ) = false
    /\ (op <=? Op.SI) = true) as [-> ->] by (by destruct Ho as [->|[->| ->]]).
  f_equal. simpl. lia.
Qed.

(** An instruction without operand. *)
Lemma relocated_plain op : Op.SI < op -> relocated [op] [op].
Proof.
  intros Ho. exists 1%nat. split; [done|]. split; [simpl; lia|]. intros q pre post. cbn [Nat.add reloc_loop app].
  rewrite lookup_mid. assert ((op =? Op.JMP) || (op =? Op.JSR) || (op =? Op.BZ) || (op =? Op.BNZ) = false
    /\ (op <=? Op.SI) = false) as [-> ->]
    by (unfold Op.SI, Op.JMP, Op.JSR, Op.BZ, Op.BNZ in *; lia).
  f_equal. simpl. lia.
Qed.

Lemma relocated_jump op t : op = Op.JMP \/ op = Op.BZ \/ op = Op.BNZ ->
  relocated [op; t] [op; t - delta].
Proof.
  intros Ho. exists 1%nat. split; [done|]. split; [simpl; lia|]. intros q pre post. cbn [Nat.add reloc_loop app].
  rewrite lookup_mid, lookup_mid2.
  assert ((op =? Op.JMP) || (op =? Op.JSR) || (op =? Op.BZ) || (op =? Op.BNZ) = true
    /\ (op <=? Op.SI) = true) as [-> ->] by (by destruct Ho as [->|[->| ->]]).
  assert (<[S (length pre):=t - delta]> (pre ++ op :: t :: post) = pre ++ op :: t - delta :: post) as ->.
  { change (op :: t :: post) with ([op] ++ t :: post). rewrite app_assoc.
    replace (S (length pre)) with (length (pre ++ [op]) + 0)%nat by (rewrite length_app; simpl; lia).
    rewrite insert_app_r. simpl. by rewrite <- app_assoc. }
  f_equal. simpl. lia.
Qed.
End Reloc.

Section Code.
Context (tab : list sym) (str_base le insn : Z).
Abbreviation delta := (le - insn).

Lemma relocated_cons2 op w ws ws' : op = Op.IMM \/ op = Op.LI \/ op = Op.SI ->
  relocated delta ws ws' -> relocated delta (op :: w :: ws) (op :: w :: ws').
Proof.
  intros Ho H. apply (relocated_app delta [op; w] [op; w] ws ws'); [by apply relocated_operand | done].
Qed.
Lemma relocated_cons op ws ws' : Op.SI < op ->
  relocated delta ws ws' -> relocated delta (op :: ws) (op :: ws').
Proof.
  intros Ho H. apply (relocated_app delta [op] [op] ws ws'); [by apply relocated_plain | done].
Qed.

(** A sequence of instructions that does not jump. *)
Ltac straight :=
  repeat match goal with
  | |- relocated _ [] [] => apply relocated_nil
  | |- relocated _ (_ :: _ :: _) _ => apply relocated_cons2; [tauto|]
  | |- relocated _ (_ :: _) _ => apply relocated_cons; [done|]
  end.

Lemma relocated_bop o t ty : relocated delta (bop_code o t ty) (bop_code o t ty).
Proof.
  destruct o; cbn [bop_code]; unfold str_or, uns_or; repeat case_match; straight.
Qed.

Lemma relocated_incdec (inc : bool) ld t : relocated delta (incdec_code inc ld t) (incdec_code inc ld t).
Proof. unfold incdec_code. destruct inc; straight. Qed.

Lemma relocated_at op i : op = Op.JMP \/ op = Op.BZ \/ op = Op.BNZ ->
  relocated delta [op; at_idx le i] [op; at_idx insn i].
Proof.
  intros Ho. replace (at_idx insn i) with (at_idx le i - delta) by (unfold at_idx; lia).
  by apply relocated_jump.
Qed.

Lemma cg_length_base e : forall b k md,
  length (cg tab str_base le b k md e) = length (cg tab str_base insn b k md e).
Proof.
  induction e; intros b k md; cbn [cg]; try done; try (destruct o); try (destruct (lv tab e));
    rewrite ?length_app; simpl length; rewrite ?length_app; simpl length;
    rewrite ?IHe, ?IHe1, ?IHe2, ?IHe3; auto.
Qed.

Lemma relocated_cg e : forall b k md,
  relocated delta (cg tab str_base le b k md e) (cg tab str_base insn b k md e).
Proof.
  induction e; intros b k md; cbn [cg]; rewrite ?cg_length_base.
  - straight.
  - straight.
  - straight.
  - apply relocated_app; [straight|]. destruct (_ || _); straight.
  - straight.
  - destruct o; [apply relocated_app; [done|straight]..|done].
  - apply relocated_app; [straight|]. apply relocated_app; [done|straight].
  - apply relocated_app; [done|]. destruct md; straight.
  - done.
  - destruct (lv tab e); [|done]. apply relocated_app; [done|]. destruct md; straight.
  - apply relocated_app; [done | apply relocated_incdec].
  - apply relocated_app; [done|]. apply relocated_app; [apply relocated_incdec|]. destruct inc; straight.
  - apply relocated_app; [done|]. apply relocated_app; [straight|].
    apply relocated_app; [done | apply relocated_bop].
  - apply relocated_app; [done|]. apply relocated_app; [|done].
    apply relocated_at. destruct cj; tauto.
  - apply relocated_app; [done|]. apply relocated_app; [apply relocated_at; tauto|].
    apply relocated_app; [done|]. apply relocated_app; [|done]. apply relocated_at. tauto.
  - apply relocated_app; [done|]. apply relocated_app; [straight|]. apply relocated_app; [done|straight].
  - apply relocated_app; [done|]. apply relocated_app; [straight|]. apply relocated_app; [done|].
    apply relocated_app; [case_match; straight|]. apply relocated_app; [straight|]. destruct md; straight.
Qed.
End Code.
