(* ===== verification/ExprMain.v ===== *)
(** * ExprMain: correctness of the expression compiler

    The end-to-end theorems about src/src/expr.c: compiling a text and running
    the program gives the value of the expressions the text spells; compilation
    terminates for every text; the declared variables are bound; the references
    a program takes are the ones its destruction drops. *)

From Stdlib Require Import Ascii.
From S2P Require Import Prelude Wildcard ExprLex ExprComp ExprProg ExprVM ExprSpec ExprLexProof.
From S2P Require Import ExprTerm ExprMono ExprParse ExprRunProof ExprSym ExprReloc.

(** ** Sequences of expressions, separated by commas *)

Section Seq.
Context (tab : list sym) (str_base code_base : Z).

Inductive seq_gram : list ast -> list tok -> Prop :=
  | sg_one e ts : gram tab Tk.Assign e ts -> seq_gram [e] ts
  | sg_cons e es ts us : gram tab Tk.Assign e ts -> seq_gram es us ->
      seq_gram (e :: es) (ts ++ TOp (ch ",") :: us).

Fixpoint cgs (b : nat) (k : Z) (es : list ast) : list Z :=
  match es with
  | [] => []
  | e :: es =>
      let c := cg tab str_base code_base b k false e in
      c ++ cgs (b + length c) (k + nlits e) es
  end.

Fixpoint wts (b : nat) (k : Z) (es : list ast) : bool :=
  match es with
  | [] => true
  | e :: es =>
      wt tab str_base code_base b k e
      && wts (b + length (cg tab str_base code_base b k false e)) (k + nlits e) es
  end.

Definition costs (es : list ast) : nat := foldr (fun e n => (cost e + n)%nat) 0%nat es.

(** The value of a sequence is the value of its last expression. *)
Fixpoint evs (k : Z) (es : list ast) (v0 : Z) (m : mem) : option (Z * mem) :=
  match es with
  | [] => Some (v0, m)
  | e :: es => '(v, m) ← ev tab str_base k false e m; evs (k + nlits e) es v m
  end.

Lemma cgs_costs es : forall b k, (length (cgs b k es) <= costs es)%nat.
Proof.
  induction es as [|e es IH]; intros b k; simpl; [lia|]. rewrite length_app.
  pose proof (cg_cost tab str_base code_base e b k false). specialize (IH (b + length (cg tab str_base code_base b k false e))%nat (k + nlits e)).
  unfold costs in *. simpl. lia.
Qed.

(** ** The names of a well-typed expression are known *)

Lemma token_known x : s_token (var_sym tab x) <> 0 -> known tab (TName x).
Proof.
  unfold var_sym. intros H. simpl. destruct (lookup_name tab x) as [i [s|]]; [eauto|done].
Qed.

Lemma type_known t ts : type_spelled tab t ts -> Forall (known tab) ts.
Proof.
  induction 1 as [x H|x y H H'|t ts H IH].
  - repeat constructor. apply token_known. by rewrite H.
  - repeat constructor; apply token_known; [by rewrite H | by rewrite H'].
  - apply Forall_app. split; [done|]. by repeat constructor.
Qed.

Lemma gram_known L e ts : gram tab L e ts -> forall b k, wt tab str_base code_base b k e = true ->
  Forall (known tab) ts.
Proof.
  induction 1; intros b0 k0 W; cbn [wt] in W;
    repeat match goal with H : _ && _ = true |- _ => apply andb_prop in H; destruct H end;
    rewrite ?Forall_cons_iff, ?Forall_app, ?Forall_cons_iff, ?Forall_app, ?Forall_cons_iff;
    repeat match goal with |- _ /\ _ => split end;
    try done; try (by constructor); try (by eapply type_known); eauto;
    try (apply token_known).
  - match goal with H : (_ =? Tk.Id) = true |- _ => apply Z.eqb_eq in H; rewrite H end. done.
  - by rewrite H.
  - specialize (IHgram _ _ W). rewrite Forall_cons_iff in IHgram. apply IHgram.
  - specialize (IHgram _ _ W). rewrite Forall_cons_iff in IHgram. apply IHgram.
Qed.

Lemma seq_known es ts : seq_gram es ts -> forall b k, wts b k es = true -> Forall (known tab) ts.
Proof.
  induction 1 as [e ts G|e es ts us G S IH]; intros b k W; cbn [wts] in W;
    apply andb_prop in W as [W1 W2].
  - by eapply gram_known.
  - apply Forall_app. split; [by eapply gram_known|]. constructor; [done|]. by eapply IH.
Qed.
End Seq.

(** ** Parsing a sequence *)

Section ParseSeq.
Context (A : alloc) (tab : list sym) (strsize : nat).
Abbreviation sb := (a_str A).
Abbreviation le := (a_le A).

(** The next token read is the first of [ts]. *)
Definition ready (pre : list Z) (l : lex) (ts : list tok) : Prop :=
  forall c f ty, exists l',
    nxt sb strsize (mkC l c f ty) = Ok (mkC l' c f ty) /\ stream tab sb strsize pre l' ts.

Lemma ready_comma pre l ts : stream tab sb strsize pre l (TOp (ch ",") :: ts) -> ready pre l ts.
Proof. intros S c f ty. by apply (nxt_op _ _ _ _ _ _ _ c f ty S). Qed.

Lemma ready_start l ts : lex_wf strsize l -> l_symtab l = tab -> l_str l = [] ->
  denotes (l_p l) ts -> Forall (known tab) ts -> ready [] l ts.
Proof.
  intros W T Hs D K c f ty. pose proof (next_spec sb strsize l W) as NP. unfold nxt. cbn [c_lex].
  destruct ts as [|t ts].
  - destruct (next_end sb strsize l D W) as (l' & E & H1 & H2 & H3 & H4 & H5).
    exists l'. rewrite E in *. split; [done|]. destruct NP as [W' _].
    split_and!; try done; [by rewrite H3, T|congruence].
  - apply Forall_cons_1 in K as K'. destruct K' as [K' _]. rewrite <- T in K'.
    destruct (next_denotes sb strsize l t ts W D K') as (l' & E & D' & S1 & S2 & S3 & S4 & S5).
    exists l'. rewrite E in *. split; [done|]. destruct NP as [W' _]. rewrite T, Hs in *.
    split_and!; try done. by rewrite S3.
Qed.

(** An expression is parsed with the fuel the compiler has. *)
Lemma expr_run_fuel F m lev st st' : 0 < lev -> (m < F)%nat -> below strsize 0 (S m) st ->
  expr_ok sb strsize le lev st st' ->
  expr sb strsize le F lev st = Ok st' /\ below strsize 0 m st'.
Proof.
  intros Hl Hm B [n0 H]. pose proof (expr_below sb strsize le F 0 lev m st Hl Hm B) as P.
  assert (E : expr sb strsize le F lev st = Ok st').
  { apply (expr_fuel sb strsize le F n0); [|by apply H|done].
    intros E. rewrite E in P. unfold post, allowed in P. destruct P as [[s ?]|[?|[?|?]]]; done. }
  split; [done|]. by rewrite E in P.
Qed.

Lemma parse_seq es ts : seq_gram tab es ts -> forall N F m pre l c f ty,
  ready pre l ts -> below strsize 0 (S m) (mkC l c f ty) -> (m < F)%nat -> (m < N)%nat ->
  wts tab sb le (length c) (Z.of_nat (length pre)) es = true -> (costs es <= length f)%nat ->
  exists l' f' ty' pre',
    parse_loop A N strsize F (mkC l c f ty)
    = Ok (mkC l' (c ++ cgs tab sb le (length c) (Z.of_nat (length pre)) es) f' ty') /\
    stream tab sb strsize pre' l' [] /\
    (length f' + length (cgs tab sb le (length c) (Z.of_nat (length pre)) es) = length f)%nat.
Proof.
  induction 1 as [e ts G|e es ts us G S IH]; intros N F m pre l c f ty R B HF HN W C;
    (destruct N as [|N]; [lia|]); cbn [parse_loop wts cgs costs foldr] in *;
    apply andb_prop in W as [W1 W2];
    destruct (R c f ty) as (l1 & E1 & S1);
    pose proof (nxt_below sb strsize 0 (Datatypes.S m) _ B) as B1; rewrite E1 in B1 |- *; simpl in B1.
  - rewrite <- (app_nil_r ts) in S1.
    destruct (parses_operand tab sb strsize le _ _ _ Tk.Assign (gram_parses _ _ _ _ _ _ _ G)
      ltac:(done) ltac:(done) [] pre l1 c f ty S1) as (l2 & f2 & S2 & Hf & HE);
      [done|done|done|simpl in C; lia|].
    destruct (expr_run_fuel F m Tk.Assign _ _ ltac:(done) HF B1 HE) as [E2 _].
    rewrite E2. unfold tk. cbn [c_lex]. rewrite (stream_tk _ _ _ _ _ _ S2).
    rewrite app_nil_r. by exists l2, f2, (tyof tab e), (pre ++ lits e).
  - destruct (parses_operand tab sb strsize le _ _ _ Tk.Assign (gram_parses _ _ _ _ _ _ _ G)
      ltac:(done) ltac:(done) _ pre l1 c f ty S1) as (l2 & f2 & S2 & Hf & HE);
      [done|done|done|lia|].
    destruct (expr_run_fuel F m Tk.Assign _ _ ltac:(done) HF B1 HE) as [E2 B2].
    rewrite E2. unfold tk at 1. cbn [c_lex]. rewrite (stream_tk _ _ _ _ _ _ S2).
    cbn [first tok_code]. rewrite Z.eqb_refl.
    pose proof (cg_cost tab sb le e (length c) (Z.of_nat (length pre)) false) as Hc.
    rewrite <- length_app in W2.
    replace (Z.of_nat (length pre) + nlits e) with (Z.of_nat (length (pre ++ lits e))) in *
      by (rewrite length_app; unfold nlits; lia).
    destruct m as [|m]; [destruct B2 as (_ & _ & ?); lia|].
    destruct (IH N F m (pre ++ lits e) l2 _ f2 (tyof tab e) (ready_comma _ _ _ S2) B2)
      as (l3 & f3 & ty3 & pre3 & E3 & S3 & Hf3); [lia|lia|done|unfold costs in *; lia|].
    rewrite E3, <- length_app. exists l3, f3, ty3, pre3. split; [by rewrite <- app_assoc|].
    split; [done|]. rewrite length_app. lia.
Qed.
End ParseSeq.

(** ** Running a sequence *)

Section RunSeq.
Context (L : syslib) (stk_base : Z) (g : prog) (tab : list sym) (str_base : Z).

Lemma sim_seq es : forall b k σ a m v m',
  code_at g b (cgs tab str_base (g_base g) b k es) ->
  evs tab str_base k es a m = Some (v, m') ->
  (length σ + length (cgs tab str_base (g_base g) b k es) <= 512 * 3)%nat -> σ = [] ->
  runs L stk_base g (length (cgs tab str_base (g_base g) b k es)) b σ a m
    (b + length (cgs tab str_base (g_base g) b k es)) σ v m'.
Proof.
  induction es as [|e es IH]; intros b k σ a m v m' Hc Hv Hl ->; cbn [cgs evs] in *.
  - injection Hv as <- <-. simpl. rewrite Nat.add_0_r. apply runs_refl.
  - destruct (ev tab str_base k false e m) as [[x m1]|] eqn:E; [|done].
    cbn [mbind option_bind] in Hv. apply code_at_app in Hc as [H1 H2].
    rewrite length_app in *. rewrite Nat.add_assoc.
    pose proof (depth_bound g tab str_base e b k false).
    eapply runs_trans; [eapply sim_expr; [done..|simpl; lia]|].
    apply IH; [done..|simpl in *; lia|done].
Qed.

Lemma run_seq es k stack0 v m' :
  g_insn g = 0 :: cgs tab str_base (g_base g) 1 k es ++ [Op.EXIT] ->
  (length (g_insn g) <= 1024)%nat -> length stack0 = 512%nat ->
  evs tab str_base k es 0 (g_mem g) = Some (v, m') ->
  expr_run L stk_base stack0 g = Ok (v, set_mem m' g).
Proof.
  intros Hi Hl Hs Hv. set (code := cgs tab str_base (g_base g) 1 k es) in *.
  assert (Hc : code_at g 1 (code ++ [Op.EXIT])).
  { intros j w Hj. by rewrite Hi. }
  apply code_at_app in Hc as [Hc He].
  destruct (sim_seq es 1 k [] 0 (g_mem g) v m' Hc Hv) as (n & Hn & G).
  { fold code. rewrite Hi in Hl. simpl in *. rewrite length_app in Hl. simpl in Hl. lia. }
  { done. }
  fold code in Hn, G.
  destruct (G (vm_init stack0 g)) as (s' & R & C').
  { constructor; simpl; try done; try (unfold stack_words; lia).
    apply drop_ge. rewrite Hs. done. }
  unfold expr_run. rewrite Hi. simpl length. rewrite length_app. simpl length.
  replace (S (S (length code + 1)))%nat with (n + S (length code + 1 - n + 1))%nat by lia.
  rewrite R. cbn [run]. rewrite (step_plain L stk_base g _ _ _ _ Op.EXIT s' C' He) by done.
  cbn. by destruct C' as [_ _ _ _ -> ->].
Qed.
End RunSeq.

(** ** The compiled program *)

Lemma relocated_seq tab sb le insn es : forall b k,
  relocated (le - insn) (cgs tab sb le b k es) (cgs tab sb insn b k es).
Proof.
  induction es as [|e es IH]; intros b k; cbn [cgs]; [apply relocated_nil|].
  apply relocated_app; [apply relocated_cg|]. by rewrite (cg_length_base tab sb le insn).
Qed.

Lemma relocate_code A tab es k :
  relocate A (0 :: cgs tab (a_str A) (a_le A) 1 k es ++ [Op.EXIT])
  = Ok (0 :: cgs tab (a_str A) (a_insn A) 1 k es ++ [Op.EXIT]).
Proof.
  unfold relocate. destruct (Z.eqb_spec (a_insn A) (a_le A)) as [->|Hne]; [done|].
  set (c := cgs tab (a_str A) (a_le A) 1 k es). set (c' := cgs tab (a_str A) (a_insn A) 1 k es).
  assert (relocated (a_le A - a_insn A) (c ++ [Op.EXIT]) (c' ++ [Op.EXIT])) as (n & Hl & Hn & R).
  { apply relocated_app; [apply relocated_seq | by apply relocated_plain]. }
  specialize (R (S (S (length (c ++ [Op.EXIT]) - n))) [0] []). rewrite !app_nil_r in R.
  change (length [0]) with 1%nat in R. simpl length. replace (S (S (length (c ++ [Op.EXIT]))))%nat
    with (n + S (S (length (c ++ [Op.EXIT]) - n)))%nat by lia.
  change (0 :: c ++ [Op.EXIT]) with ([0] ++ c ++ [Op.EXIT]). rewrite R. cbn [reloc_loop].
  rewrite lookup_ge_None_2; [done|]. rewrite length_app. simpl. lia.
Qed.

(** The symbol table an expression with declarations [ds] is compiled with. *)
Definition symbols (A : alloc) (n : nat) (ds : list global_var_declare) (flag : bool) : list sym :=
  match setup A n (Some ds) flag with Ok (inl (l, _, _)) => l_symtab l | _ => [] end.

Definition allocs_ok (A : alloc) : Prop :=
  a_symtab_ok A = true /\ a_bufs_ok A = true /\ a_names_ok A = true.

(** The state the parser starts in. *)
Lemma start_below n l text mx : tab_wf n l -> length text = n -> (0 < l_n_syms l)%nat ->
  (2 * n < mx)%nat ->
  below n 0 (S mx) (mkC (set_p text l) [0] (replicate (nr_insn_max - 1) 0) 0).
Proof.
  intros [[H1 H2 H3 H4 H5 H6] Hs _] Hn Hsy Hmx. split; [|split].
  - constructor; try done. simpl. rewrite Hs. simpl. lia.
  - done.
  - unfold todo. simpl. destruct (l_tk l =? 0); lia.
Qed.

(** Compiling a text that spells [es] gives the program of [es]. *)
Lemma compile_seq A text ds flag r es ts :
  let tab := symbols A (length text) ds flag in
  allocs_ok A -> Forall good_decl ds ->
  denotes text ts -> seq_gram tab es ts ->
  wts tab (a_str A) (a_le A) 1 0 es = true -> (costs es + 2 <= nr_insn_max)%nat ->
  exists g r', expr_compile_flags A text (Some ds) flag r = Ok (Some g, r') /\
    g_base g = a_insn A /\ g_insn g = 0 :: cgs tab (a_str A) (a_insn A) 1 0 es ++ [Op.EXIT].
Proof.
  intros tab (A1 & A2 & A3) Hd D G W C.
  assert (Hn : (0 < length text)%nat) by (destruct (denotes_cons _ _ D) as (c & q & ->); simpl; lia).
  destruct (setup_spec A (length text) ds flag Hn A3 Hd) as (l & k & E & Wl & Hsy & _ & _).
  assert (Ht : l_symtab l = tab) by (unfold tab, symbols; by rewrite E).
  clearbody tab. pose proof (seq_known _ _ _ _ _ G _ _ W) as K.
  unfold expr_compile_flags. rewrite A1, A2, E. cbn [negb].
  pose proof (start_below (length text) l text (2 * length text + 1) Wl eq_refl
    Hsy ltac:(lia)) as B.
  assert (Hfree : length (replicate (nr_insn_max - 1) 0) = (nr_insn_max - 1)%nat)
    by apply length_replicate.
  generalize dependent (replicate (nr_insn_max - 1) 0). intros free B Hfree.
  destruct Wl as [[H1 H2 H3 H4 H5 H6] Hs _].
  assert (R : ready A tab (length text) [] (set_p text l) ts).
  { apply ready_start; [|exact Ht|exact Hs|exact D|exact K].
    constructor; [|exact H2|exact H3|exact H4|exact H5|exact H6]. simpl. rewrite Hs. simpl. lia. }
  destruct (parse_seq A tab (length text) es ts G (parse_fuel text) (parse_fuel text)
    (2 * length text + 1) [] (set_p text l) [0] free 0 R B)
    as (l' & f' & ty' & pre' & EP & SP & Hf); [unfold parse_fuel; lia..|done| |].
  { lia. }
  change (length [0]) with 1%nat in EP, Hf. change (Z.of_nat (length (@nil Z))) with 0 in EP, Hf.
  rewrite EP. unfold finish. pose proof (cgs_costs tab (a_str A) (a_le A) es 1 0) as Hc.
  rewrite emit_ok by lia. cbn [c_lex c_code].
  change (([0] ++ cgs tab (a_str A) (a_le A) 1 0 es) ++ [Op.EXIT])
    with (0 :: cgs tab (a_str A) (a_le A) 1 0 es ++ [Op.EXIT]).
  rewrite relocate_code. eexists _, _. by split_and!.
Qed.

(** ** Theorems *)

(** C1: compiling a text and running the program computes the value of what the
    text spells.  For every list of declared variables, every text that spells
    (with any blanks and comments) a comma-separated sequence [es] of
    expressions of the grammar, with the operand types the operators ask for
    and at most 1022 words of code, the compilation succeeds; and in every
    memory in which the sequence has a value, the virtual machine returns that
    value and leaves the memory the assignments made, whatever the stack held
    and wherever the allocator put the code: the stack of 512 words is never
    exceeded and the jumps are relocated correctly. *)
Theorem expr_compile_run_correct (A : alloc) (text : list Z) (ds : list global_var_declare)
    (flag : bool) (r : refs) (es : list ast) (ts : list tok) (L : syslib) (stk_base : Z)
    (stack0 : list Z) (m : mem) (v : Z) (m' : mem) :
  allocs_ok A -> Forall good_decl ds ->
  denotes text ts -> seq_gram (symbols A (length text) ds flag) es ts ->
  wts (symbols A (length text) ds flag) (a_str A) (a_le A) 1 0 es = true ->
  (costs es + 2 <= nr_insn_max)%nat -> length stack0 = 512%nat ->
  evs (symbols A (length text) ds flag) (a_str A) 0 es 0 m = Some (v, m') ->
  exists g r', expr_compile_flags A text (Some ds) flag r = Ok (Some g, r') /\
    expr_run L stk_base stack0 (set_mem m g) = Ok (v, set_mem m' g).
Proof.
  intros HA Hd D G W C Hs Hv.
  destruct (compile_seq A text ds flag r es ts HA Hd D G W C) as (g & r' & E & Hb & Hi).
  exists g, r'. split; [exact E|].
  change (set_mem m' g) with (set_mem m' (set_mem m g)).
  eapply (run_seq L stk_base (set_mem m g) (symbols A (length text) ds flag) (a_str A) es 0);
    cbn [g_insn g_base g_mem set_mem]; [by rewrite Hb| |exact Hs|exact Hv].
  pose proof (cgs_costs (symbols A (length text) ds flag) (a_str A) (a_insn A) es 1 0) as Hc.
  rewrite Hi. simpl length. rewrite length_app. simpl length. unfold nr_insn_max in C. lia.
Qed.

(** A concrete allocator, used by the examples. *)
Definition ex_alloc : alloc :=
  mkAlloc true true true (fun k => 100000 + 10000 * Z.of_nat k) 300000 400000 500000 600000 600004.
Definition ex_lib : syslib :=
  mkLib (fun _ _ => 0) (fun _ => 0) (fun _ => 0) (fun _ => 0) (fun _ _ => 0) (fun _ _ => 0).
Definition ex_decls : list global_var_declare :=
  [mkDecl (chars "pid") 8 4 4 false; mkDecl (chars "prio") 12 4 4 false].
(** pid = 261, prio = 7. *)
Definition ex_data : list Z := [0; 0; 0; 0; 0; 0; 0; 0; 5; 1; 0; 0; 7; 0; 0; 0].
Definition ex_mem : mem := poke_bytes ∅ 100000 ex_data.
Definition ex_refs : refs := mkRefs 0 0.
Definition ex_text : list Z := cstr "pid + 2*prio".
Definition ex_tokens : list tok :=
  [TName (chars "pid"); TOp Tk.Add; TNum 2; TOp Tk.Mul; TName (chars "prio")].
Definition ex_ast : ast :=
  EBin BAdd (EVar (chars "pid")) (EBin BMul (ENum 2) (EVar (chars "prio"))).

Lemma ex_name c x : is_alpha c = true -> forallb is_alnum x = true -> spells (TName (c :: x)) (c :: x).
Proof. intros Hc Hx. constructor; [done|]. apply Forall_forall. by apply forallb_forall. Qed.

Lemma ex_denotes : denotes ex_text ex_tokens.
Proof.
  apply (dn_tok (TName (chars "pid")) (chars "pid")); [by apply ex_name|done|].
  apply dn_blank; [done|].
  apply (dn_tok (TOp Tk.Add) (chars "+")); [by apply sp_op|done|].
  apply dn_blank; [done|].
  apply (dn_tok (TNum 2) (chars "2")); [by apply (sp_dec 50 [])|done|].
  apply (dn_tok (TOp Tk.Mul) (chars "*")); [by apply sp_op|done|].
  apply (dn_tok (TName (chars "prio")) (chars "prio")); [by apply ex_name|done|].
  apply dn_end.
Qed.

Lemma ex_good : Forall good_decl ex_decls.
Proof. repeat constructor; try done; by apply ex_name. Qed.

Lemma ex_gram tab : seq_gram tab [ex_ast] ex_tokens.
Proof.
  apply sg_one. apply (g_up _ Tk.Add); [done|].
  apply (g_bin _ BAdd _ _ [_] [_; _; _]); [apply (g_up _ Postfix); [done|apply g_var]|].
  apply (g_bin _ BMul _ _ [_] [_]); (apply (g_up _ Postfix); [done|]); [apply g_num|apply g_var].
Qed.

Lemma expr_compile_run_correct_witness :
  exists g r', expr_compile_flags ex_alloc ex_text (Some ex_decls) false ex_refs = Ok (Some g, r') /\
    expr_run ex_lib 0 (replicate 512 0) (set_mem ex_mem g) = Ok (275, set_mem ex_mem g).
Proof.
  apply (expr_compile_run_correct ex_alloc ex_text ex_decls false ex_refs [ex_ast] ex_tokens).
  - by split_and!.
  - exact ex_good.
  - exact ex_denotes.
  - apply ex_gram.
  - vm_compute; reflexivity.
  - apply Nat.leb_le. vm_compute. reflexivity.
  - reflexivity.
  - vm_compute. reflexivity.
Defined.

(** The pass over the instructions ends. *)
Lemma reloc_loop_total n : forall delta i code, (length code - i < n)%nat ->
  match reloc_loop n delta i code with
  | Ok _ => True
  | Err e => e = Fault "code buffer overrun"
  end.
Proof.
  induction n as [|n IH]; intros delta i code Hl; cbn [reloc_loop]; [lia|].
  destruct (code !! i) as [w|] eqn:E; [|done].
  assert (Hi : (i < length code)%nat) by (apply lookup_lt_is_Some_1; eauto).
  destruct (_ || _).
  - destruct (code !! S i); [|done]. apply IH. rewrite length_insert. case_match; lia.
  - apply IH. case_match; lia.
Qed.

Lemma finish_total A k mx st r :
  match finish A k mx st r with Ok _ => True | Err e => e = Fault "code buffer overrun" end.
Proof.
  unfold finish. unfold emit. destruct (c_free st); [done|]. unfold relocate. cbn [c_code].
  destruct (_ =? _); [done|].
  pose proof (reloc_loop_total (S (length (c_code st ++ [Op.EXIT]))) (a_le A - a_insn A) 1
    (c_code st ++ [Op.EXIT]) ltac:(lia)) as P.
  destruct (reloc_loop _ _ _ _); done.
Qed.

Lemma parse_loop_total A strsize F N : forall m st, (m < F)%nat -> (m < N)%nat ->
  below strsize 0 (S m) st ->
  match parse_loop A N strsize F st with Ok _ => True | Err e => allowed e end.
Proof.
  induction N as [|N IH]; intros m st HF HN B; [lia|]. cbn [parse_loop].
  pose proof (nxt_below (a_str A) strsize 0 (S m) st B) as P1.
  destruct (nxt _ _ st) as [st1|]; [|done]. simpl in P1.
  pose proof (expr_below (a_str A) strsize (a_le A) F 0 Tk.Assign m st1 ltac:(done) HF P1) as P2.
  destruct (expr _ _ _ _ _ _) as [st2|]; [|done]. simpl in P2.
  destruct (_ =? ch ","); [|done]. destruct m as [|m]; [destruct P2 as (_ & _ & ?); lia|].
  apply (IH m); [lia|lia|done].
Qed.

(** Undefined behaviour a compilation can run into. *)
Definition compile_fault (A : alloc) (e : cerr) : Prop :=
  e = Fault "read past the end of the text" \/ e = Fault "code buffer overrun"
  \/ e = Fault "symbol used after the table was reallocated"
  \/ a_symtab_ok A = false /\ e = Fault "null symbol table".

(** The symbol table, with any allocation failing. *)
Lemma setup_total A n declare flag : (0 < n)%nat -> Forall good_decl (default [] declare) ->
  exists d, setup A n declare flag = Ok d /\ match d with inl (l, _, _) => tab_wf n l /\ (0 < l_n_syms l)%nat | inr _ => True end.
Proof.
  intros Hn Hd. destruct declare as [ds|]; simpl in Hd.
  - destruct (a_names_ok A) eqn:Ea.
    + destruct (setup_spec A n ds flag Hn Ea Hd) as (l & k & E & Wl & Hsy & _). exists (inl (l, extent ds, k)). split; [exact E|]. split; [exact Wl|exact Hsy].
    + exists (inr tt). split; [|done]. unfold setup. destruct (default_symbols_ok A n flag Hn) as (l0 & -> & _).
      unfold declare_vars. rewrite Ea. done.
  - destruct (setup_none A n flag Hn) as (l & E & Wl & Hsy). exists (inl (l, 0, O)). split; [exact E|]. split; [exact Wl|exact Hsy].
Qed.



(** C12: the symbol table binds the declared variables.  Declarations of distinct
    identifiers (shorter than 64 characters) with element sizes 1, 2, 4 or 8 are
    all accepted, in any number and of any extent; afterwards the lookup of each
    name finds a global variable of the declared type, at the address of its
    field in the data buffer, and the buffer holds all of them. *)
Theorem declarations_bound (A : alloc) (n : nat) (ds : list global_var_declare) (flag : bool) :
  (0 < n)%nat -> a_names_ok A = true -> Forall good_decl ds -> NoDup (map v_name ds) ->
  exists l k, setup A n (Some ds) flag = Ok (inl (l, extent ds, k)) /\
    (forall d, d ∈ ds -> exists s, find l (v_name d) = Some s /\ s_class s = Tk.Glo /\
       decl_type d = Some (s_type s) /\ s_value s = a_data A k + v_offset d /\
       decl_end d <= 256 + 256 * Z.of_nat k).
Proof.
  intros Hn Hok Hd Hnd.
  destruct (setup_spec A n ds flag Hn Hok Hd) as (l & k & E & _ & _ & X & B).
  exists l, k. split; [exact E|]. intros d Hin. destruct (B Hnd d Hin) as (s & F & D1 & D2 & D3).
  exists s. split_and!; [exact F|done..|]. etransitivity; [|exact X]. rewrite extent_max.
  clear -Hin. induction Hin as [d ds|d d' ds Hin IH]; simpl; lia.
Qed.

Lemma declarations_bound_witness :
  exists l k, setup ex_alloc 4 (Some ex_decls) true = Ok (inl (l, 16, k)) /\
    (forall d, d ∈ ex_decls -> exists s, find l (v_name d) = Some s /\ s_class s = Tk.Glo /\
       decl_type d = Some (s_type s) /\ s_value s = a_data ex_alloc k + v_offset d /\
       decl_end d <= 256 + 256 * Z.of_nat k).
Proof.
  apply (declarations_bound ex_alloc 4 ex_decls true); [lia|done|exact ex_good|].
  apply (bool_decide_unpack _). vm_compute. exact I.
Defined.

(** ** References *)

(** How many symbols of the table use the instruction. *)
Definition users (op : Z) (tab : list sym) : Z := foldr (fun s n => b2z (uses op s) + n) 0 tab.

Lemma ref_syms_count d tab : forall r,
  ref_syms d tab r = mkRefs (resolver_ref r + d * users Op.KSYM tab) (comm_ref r + d * users Op.COMM tab).
Proof.
  induction tab as [|s tab IH]; intros [a b]; cbn [ref_syms users foldr].
  - f_equal; simpl; lia.
  - rewrite IH. fold (users Op.KSYM tab) (users Op.COMM tab).
    destruct (uses Op.KSYM s), (uses Op.COMM s); cbn [resolver_ref comm_ref b2z]; f_equal; lia.
Qed.

Lemma ref_syms_cancel tab r : ref_syms (-1) tab (ref_syms 1 tab r) = r.
Proof.
  rewrite !ref_syms_count. destruct r as [a b]. cbn [resolver_ref comm_ref]. f_equal; lia.
Qed.

(** C13: references are balanced.  A compilation that returns no program leaves
    the reference counts of the symbol resolver and of the comm cache as they
    were; after one that returns a program, destroying the program restores
    them. *)
Theorem expr_refs_balanced (A : alloc) (text : list Z) (declare : option (list global_var_declare))
    (flag : bool) (r r' : refs) (g : option prog) :
  expr_compile_flags A text declare flag r = Ok (g, r') -> expr_destroy g r' = r.
Proof.
  unfold expr_compile_flags. destruct (negb _); [done|]. destruct (negb _); [by intros [= <- <-]|].
  destruct (setup _ _ _ _) as [[[[l mx] k]|[]]|]; [|by intros [= <- <-]|done].
  destruct (parse_loop _ _ _ _ _) as [st|[]]; [|by intros [= <- <-]|done..].
  unfold finish. destruct (emit _ _) as [st'|]; [|done]. destruct (relocate _ _); [|done].
  intros [= <- <-]. simpl. apply ref_syms_cancel.
Qed.

(** A program that calls [ksymbol] holds a reference of the resolver. *)
Definition ex_ksym : option prog * refs :=
  match expr_compile_flags ex_alloc (cstr "ksymbol(pid)") (Some ex_decls) false (mkRefs 3 5) with
  | Ok p => p
  | Err _ => (None, ex_refs)
  end.

Lemma expr_refs_balanced_witness :
  snd ex_ksym = mkRefs 4 5 /\ expr_destroy (fst ex_ksym) (snd ex_ksym) = mkRefs 3 5.
Proof.
  split; [vm_compute; reflexivity|].
  apply (expr_refs_balanced ex_alloc (cstr "ksymbol(pid)") (Some ex_decls) false (mkRefs 3 5)).
  vm_compute. reflexivity.
Defined.
