(* ===== verification/ExprLoad.v ===== *)
(** * ExprLoad: loading event data, and what variables and casts read

    Properties of the memory of compiled programs, of [expr_load_data],
    [expr_load_glo] and [expr_load_global] of src/src/expr.c, and of the loads
    the compiler emits for variables and casts. *)

From Stdlib Require Import Ascii.
From S2P Require Import Prelude ExprLex ExprComp ExprProg ExprVM ExprSpec ExprMain.

(** ** Memory *)

Lemma poke_bytes_outside bs : forall m a x, x < a \/ a + Z.of_nat (length bs) <= x ->
  poke_bytes m a bs !! x = m !! x.
Proof.
  induction bs as [|b bs IH]; intros m a x Hx; [done|]. cbn [poke_bytes]. simpl in Hx.
  rewrite lookup_insert_ne by lia. apply IH. lia.
Qed.

Lemma poke_bytes_inside bs : forall m a j b, bs !! j = Some b ->
  poke_bytes m a bs !! (a + Z.of_nat j) = Some b.
Proof.
  induction bs as [|b0 bs IH]; intros m a j b Hj; [done|]. cbn [poke_bytes].
  destruct j as [|j]; simpl in Hj.
  - injection Hj as ->. rewrite Z.add_0_r. apply lookup_insert_eq.
  - rewrite lookup_insert_ne by lia.
    replace (a + Z.of_nat (S j)) with (a + 1 + Z.of_nat j) by lia. by apply IH.
Qed.

Lemma read_bytes_poke n : forall m a bs off, (off + n <= length bs)%nat ->
  read_bytes (poke_bytes m a bs) (a + Z.of_nat off) n = Some (take n (drop off bs)).
Proof.
  induction n as [|n IH]; intros m a bs off Hl; [done|]. cbn [read_bytes].
  destruct (lookup_lt_is_Some_2 bs off) as [b Hb]; [lia|].
  rewrite (poke_bytes_inside _ _ _ _ _ Hb).
  replace (a + Z.of_nat off + 1) with (a + Z.of_nat (S off)) by lia.
  rewrite IH by lia. by rewrite (drop_S _ _ _ Hb).
Qed.

Lemma read_bytes_len n : forall m a bs, read_bytes m a n = Some bs -> length bs = n.
Proof.
  induction n as [|n IH]; intros m a bs H; cbn [read_bytes] in H; [by injection H as <-|].
  destruct (m !! a); [|done]. destruct (read_bytes m (a + 1) n) eqn:E; [|done].
  injection H as <-. simpl. f_equal. by eapply IH.
Qed.

Lemma read_bytes_prefix n : forall n' m a bs, (n <= n')%nat -> read_bytes m a n' = Some bs ->
  read_bytes m a n = Some (take n bs).
Proof.
  induction n as [|n IH]; intros [|n'] m a bs Hn H; try lia; [done..|]. cbn [read_bytes] in *.
  destruct (m !! a); [|done]. destruct (read_bytes m (a + 1) n') as [r|] eqn:E; [|done].
  injection H as <-. by rewrite (IH n' m (a + 1) r ltac:(lia) E).
Qed.

Lemma le_split_len n : forall v, length (le_split n v) = n.
Proof. induction n; intros v; simpl; auto. Qed.

Lemma le_combine_split n : forall v, le_combine (le_split n v) = uwrap (8 * Z.of_nat n) v.
Proof.
  induction n as [|n IH]; intros v; cbn [le_split le_combine].
  - unfold uwrap. by rewrite Z.mod_1_r.
  - rewrite IH. unfold uwrap. replace (8 * Z.of_nat (S n)) with (8 + 8 * Z.of_nat n) by lia.
    rewrite Z.pow_add_r by lia. change (2 ^ 8) with 256.
    rewrite (Z.rem_mul_r v 256 (2 ^ (8 * Z.of_nat n))) by lia. lia.
Qed.

Definition bytes (bs : list Z) : Prop := Forall (fun b => 0 <= b < 256) bs.

Lemma le_combine_range bs : bytes bs -> 0 <= le_combine bs < 2 ^ (8 * Z.of_nat (length bs)).
Proof.
  induction 1 as [|b bs Hb Hbs IH]; cbn [le_combine length]; [simpl; lia|].
  replace (8 * Z.of_nat (S (length bs))) with (8 + 8 * Z.of_nat (length bs)) by lia.
  rewrite Z.pow_add_r by lia. change (2 ^ 8) with 256. lia.
Qed.

Lemma le_combine_take n : forall bs, bytes bs -> (n <= length bs)%nat ->
  le_combine (take n bs) = uwrap (8 * Z.of_nat n) (le_combine bs).
Proof.
  induction n as [|n IH]; intros bs Hb Hn; cbn [take].
  - unfold uwrap. simpl. by rewrite Z.mod_1_r.
  - destruct bs as [|b bs]; [simpl in Hn; lia|]. inversion Hb as [|? ? Hb0 Hbs]; subst.
    simpl in Hn. cbn [take le_combine]. rewrite IH by (done || lia). unfold uwrap.
    replace (8 * Z.of_nat (S n)) with (8 + 8 * Z.of_nat n) by lia.
    rewrite Z.pow_add_r by lia. change (2 ^ 8) with 256.
    rewrite Z.rem_mul_r by lia.
    replace (b + 256 * le_combine bs) with (b + le_combine bs * 256) by lia.
    rewrite Z.mod_add, Z.div_add by lia. rewrite (Z.mod_small b), (Z.div_small b), Z.add_0_l by lia. lia.
Qed.

Lemma store_outside m a n v m' x : store m a n v = Some m' -> x < a \/ a + Z.of_nat n <= x -> m' !! x = m !! x.
Proof. unfold store. case_match; [|done]. intros [= <-] Hx. apply poke_bytes_outside. rewrite le_split_len. done. Qed.

Lemma load_store m a n v m' : store m a n v = Some m' -> load m' a n = Some (uwrap (8 * Z.of_nat n) v).
Proof.
  unfold store, load. destruct (allocated m a n); [|done]. intros [= <-].
  pose proof (read_bytes_poke n m a (le_split n v) 0 ltac:(rewrite le_split_len; lia)) as E.
  rewrite Z.add_0_r in E. rewrite E. rewrite drop_0, take_ge by (rewrite le_split_len; lia).
  by rewrite le_combine_split.
Qed.

(** ** Event data *)

(** C14: variables read the event.  When [expr_load_data] accepts an event of
    [size] bytes, every field that lies in it is read back, little-endian, at
    the address its variable has; the byte after the data is zeroed, and no
    other memory of the program changes. *)
Theorem expr_load_data_reads (g g' : prog) (d : list Z) (size base : Z) :
  g_data g = Some base ->
  expr_load_data (Some g) d size = Ok (0, Some g') ->
  0 <= size <= g_datasize g /\
  (forall off n, 0 <= off -> off + Z.of_nat n <= size ->
     load (g_mem g') (base + off) n = Some (le_combine (take n (drop (Z.to_nat off) d)))) /\
  g_mem g' !! (base + size) = Some 0 /\
  (forall x, x < base \/ base + size < x -> g_mem g' !! x = g_mem g !! x) /\
  g' = set_mem (g_mem g') g.
Proof.
  intros Hb. unfold expr_load_data. rewrite Hb.
  destruct (Z.ltb_spec (g_datasize g) size); [done|].
  destruct (_ || _) eqn:E; [done|]. apply orb_false_iff in E as [E1 E2].
  destruct (allocated _ _ _); [|done]. intros [= <-]. cbn [set_mem g_mem].
  assert (Hl : length (take (Z.to_nat size) d ++ [0]) = S (Z.to_nat size)).
  { rewrite length_app, length_take. simpl. lia. }
  split_and!; try lia.
  - intros off n Ho Hn. unfold load.
    pose proof (read_bytes_poke n (g_mem g) base (take (Z.to_nat size) d ++ [0]) (Z.to_nat off) ltac:(lia)) as R.
    rewrite Z2Nat.id in R by lia. rewrite R. do 2 f_equal.
    rewrite drop_app_le by (rewrite length_take; lia).
    rewrite take_app_le by (rewrite length_drop, length_take; lia).
    rewrite skipn_firstn_comm, take_take. f_equal. lia.
  - replace (base + size) with (base + Z.of_nat (Z.to_nat size)) by lia.
    apply poke_bytes_inside. rewrite lookup_app_r by (rewrite length_take; lia).
    rewrite length_take. by replace (Z.to_nat size - Z.to_nat size `min` length d)%nat with 0%nat by lia.
  - intros x Hx. apply poke_bytes_outside. rewrite Hl. lia.
  - done.
Qed.

(** The program of the examples. *)
Definition ex_prog (text : string) : option prog :=
  match expr_compile_flags ex_alloc (cstr text) (Some ex_decls) false ex_refs with
  | Ok (g, _) => g
  | Err _ => None
  end.

Definition no_prog : prog := mkProg [] None 0 0 None 0 0 [] 0 0 ∅.
Definition ex_g (text : string) : prog := default no_prog (ex_prog text).
(** The program a successful load leaves. *)
Definition loaded_prog (r : res (Z * option prog)) : prog :=
  match r with Ok (0, Some g) => g | _ => no_prog end.

Lemma expr_load_data_reads_witness :
  let g := ex_g "pid" in
  let g' := loaded_prog (expr_load_data (Some g) ex_data 16) in
  load (g_mem g') (100000 + 8) 4 = Some 261.
Proof.
  intros g g'. destruct (expr_load_data_reads g g' ex_data 16 100000) as (_ & R & _).
  - vm_compute. reflexivity.
  - vm_compute. reflexivity.
  - rewrite (R 8 4%nat); [vm_compute; reflexivity|lia|lia].
Defined.

(** ** Setting a variable by name *)

(** The variable a name selects: the last one of the table. *)
Definition selects (tab : list sym) (name : list Z) (s : sym) : Prop :=
  exists t1 t2, tab = t1 ++ s :: t2 /\ glo_matches name s = true /\
    Forall (fun s => glo_matches name s = false) t2.

Lemma load_glo_from_spec name v m : forall tab,
  match load_glo_from (rev tab) name v m with
  | Ok (r, m') =>
      (r = 0 /\ exists s n sg, selects tab name s /\ access (s_type s) = Some (n, sg) /\
         store m (s_value s) n v = Some m') \/
      (r = -1 /\ m' = m /\ forall s, selects tab name s -> access (s_type s) = None)
  | Err _ => exists s n sg, selects tab name s /\ access (s_type s) = Some (n, sg) /\
               store m (s_value s) n v = None
  end.
Proof.
  intros tab. induction tab as [|s tab IH] using rev_ind.
  { right. split_and!; try done. intros s (t1 & t2 & H & _). by destruct t1. }
  rewrite rev_app_distr. cbn [rev app load_glo_from].
  destruct (glo_matches name s) eqn:E.
  - assert (S : selects (tab ++ [s]) name s) by (exists tab, []; by split_and!).
    destruct (access (s_type s)) as [[n sg]|] eqn:Ea.
    + destruct (store m (s_value s) n v) as [m'|] eqn:Es.
      * left. split; [done|]. eauto 6.
      * eauto 6.
    + right. split_and!; try done. intros s' (t1 & t2 & H & H1 & H2).
      destruct t2 as [|s2 t2] using rev_ind.
      * apply app_inj_tail in H as [_ <-]. done.
      * rewrite app_comm_cons, app_assoc in H. apply app_inj_tail in H as [_ <-].
        apply Forall_app in H2 as [_ H2]. apply Forall_cons_1 in H2 as [H2 _]. congruence.
  - assert (S : forall s', selects (tab ++ [s]) name s' <-> selects tab name s').
    { intros s'. split.
      - intros (t1 & t2 & H & H1 & H2). destruct t2 as [|s2 t2 _] using rev_ind.
        + apply app_inj_tail in H as [_ ->]. congruence.
        + rewrite app_comm_cons, app_assoc in H. apply app_inj_tail in H as [-> _].
          apply Forall_app in H2 as [H2 _]. by exists t1, t2.
      - intros (t1 & t2 & -> & H1 & H2). exists t1, (t2 ++ [s]). split_and!; [by rewrite <- app_assoc|done|].
        apply Forall_app. split; [done|]. by constructor. }
    destruct (load_glo_from (rev tab) name v m) as [[r m']|].
    + destruct IH as [(Hr & s' & n & sg & H1 & H2)|(Hr & Hm & H)].
      * left. split; [done|]. exists s', n, sg. split; [by apply S|done].
      * right. split_and!; try done. intros s' Hs'. by apply H, S.
    + destruct IH as (s' & n & sg & H1 & H2). exists s', n, sg. split; [by apply S|done].
Qed.

(** C15: [expr_load_glo] sets one variable.  When it returns 0, the value was
    stored in the last global the name selects, reading the variable gives the
    value converted to its type, and no byte outside of the variable and nothing
    else of the program changed; when it returns -1 nothing changed, and the
    selected global, if any, is an array or a pointer. *)
Theorem expr_load_glo_correct (g g' : prog) (name : list Z) (value r : Z) :
  expr_load_glo (Some g) name value = Ok (r, Some g') ->
  (r = 0 /\ exists s n sg, selects (g_symtab g) name s /\ access (s_type s) = Some (n, sg) /\
     load_ty (g_mem g') (s_value s) (s_type s) = Some (extend n sg value) /\
     (forall x, ~ (s_value s <= x < s_value s + Z.of_nat n) -> g_mem g' !! x = g_mem g !! x) /\ g' = set_mem (g_mem g') g) \/
  (r = -1 /\ g' = g /\ forall s, selects (g_symtab g) name s -> access (s_type s) = None).
Proof.
  unfold expr_load_glo. pose proof (load_glo_from_spec name value (g_mem g) (g_symtab g)) as P.
  destruct (load_glo_from _ _ _ _) as [[r' m']|]; [|done]. intros [= <- <-].
  destruct P as [(-> & s & n & sg & Hs & Ha & Hst)|(-> & -> & H)].
  - left. split; [done|]. exists s, n, sg.
    assert (vm_access (s_type s) = Some (n, sg)) as Hv.
    { unfold vm_access. destruct (Z.eqb_spec (s_type s) Ty.PTR) as [E|]; [|done].
      rewrite E in Ha. done. }
    assert (0 < n)%nat by (unfold access in Ha; repeat case_match; simplify_eq; lia).
    split_and!; try done; cbn [set_mem g_mem].
    + unfold load_ty. rewrite Hv, (load_store _ _ _ _ _ Hst). f_equal. unfold extend.
      destruct sg; [by rewrite swrap_uwrap by lia | by rewrite uwrap_uwrap by lia].
    + intros x Hx. apply (store_outside _ _ _ _ _ _ Hst). lia.
  - right. split_and!; try done. by destruct g.
Qed.

Lemma expr_load_glo_correct_witness :
  let g := ex_g "prio" in
  let g' := loaded_prog (expr_load_glo (Some g) (cstr "prio") (2 ^ 32 + 9)) in
  exists s n sg, selects (g_symtab g) (cstr "prio") s /\ access (s_type s) = Some (n, sg) /\
    load_ty (g_mem g') (s_value s) (s_type s) = Some (extend n sg (2 ^ 32 + 9)) /\
    (forall x, ~ (s_value s <= x < s_value s + Z.of_nat n) -> g_mem g' !! x = g_mem g !! x) /\ g' = set_mem (g_mem g') g.
Proof.
  intros g g'. destruct (expr_load_glo_correct g g' (cstr "prio") (2 ^ 32 + 9) 0) as [(_ & H)|(H & _)].
  - vm_compute. reflexivity.
  - exact H.
  - discriminate H.
Defined.

(** ** Where the compiler departs from C *)

Definition ex_value (text : string) : option (res Z) :=
  match ex_prog text with
  | Some g => match expr_run ex_lib 0 (replicate 512 0) (set_mem ex_mem g) with
              | Ok (v, _) => Some (Ok v) | Err e => Some (Err e) end
  | None => None
  end.

(** A cast of a variable to a wider type loads the neighbouring field: the
    value of [(long)pid] has [prio] in its upper half. *)
Lemma widening_cast_reads_neighbour :
  ex_value "pid" = Some (Ok 261) /\ ex_value "(long)pid" = Some (Ok (261 + 7 * 2 ^ 32)).
Proof. split; vm_compute; reflexivity. Qed.

(** The constant 8 is taken for the opcode [LI]: the cast of [pid + 8] turns the
    addition into a jump, and the program runs into its own data; the address
    of [pid + 8] is accepted. *)
Lemma constant_taken_for_load :
  ex_value "pid + 9" = Some (Ok 270) /\ ex_value "(int)(pid + 9)" = Some (Ok 270) /\
  ex_value "(int)(pid + 8)" = Some (Err (Fault "fetch out of bounds")) /\
  ex_value "&(pid + 9)" = None /\ ex_value "&(pid + 8)" <> None.
Proof. split_and!; vm_compute; (reflexivity || done). Qed.

(** The logical operators return an operand, not 0 or 1. *)
Lemma logical_or_not_normalised :
  ex_value "pid || prio" = Some (Ok 261) /\ ex_value "pid && prio" = Some (Ok 7).
Proof. split; vm_compute; reflexivity. Qed.

(** A name selects the variable it starts with. *)
Lemma load_glo_matches_prefix :
  match ex_prog "pid" with
  | Some g => match expr_load_glo (Some g) (cstr "pid_of_the_parent") 7 with
              | Ok (0, Some g') => load (g_mem g') (100000 + 8) 4 = Some 7
              | _ => False
              end
  | None => False
  end.
Proof. vm_compute. reflexivity. Qed.
