(* ===== verification/Bpf.v ===== *)
(** * Bpf: the BPF backend of the expression compiler

    Models [expr_to_bpf] of src/src/expr.c and its helpers, which translate the
    instructions of a compiled expression into BPF instructions, and the
    instruction macros of src/include/linux/filter.h they use.  The emitter
    [struct bpf_emit] is threaded explicitly; its [failed] flag and message are
    the option [b_err].  A read past the end of the instructions is a
    [Fault]. *)

From S2P Require Import Prelude ExprLex ExprComp ExprProg.

(** [struct bpf_insn]; [off] is a [__s16] and [imm] a [__s32]. *)
Record bpf_insn := mkInsn {
  i_code : Z;
  i_dst : Z;
  i_src : Z;
  i_off : Z;
  i_imm : Z
}.

Global Instance bpf_insn_eq_dec : EqDecision bpf_insn.
Proof. solve_decision. Defined.

(** Instruction classes, sizes, modes and operations. *)
Definition BPF_LD : Z := 0.
Definition BPF_LDX : Z := 1.
Definition BPF_STX : Z := 3.
Definition BPF_ALU : Z := 4.
Definition BPF_JMP : Z := 5.
Definition BPF_ALU64 : Z := 7.
Definition BPF_W : Z := 0.
Definition BPF_H : Z := 8.
Definition BPF_B : Z := 16.
Definition BPF_DW : Z := 24.
Definition BPF_IMM : Z := 0.
Definition BPF_MEM : Z := 96.
Definition BPF_MEMSX : Z := 128.
Definition BPF_K : Z := 0.
Definition BPF_X : Z := 8.
Definition BPF_ADD : Z := 0.
Definition BPF_SUB : Z := 16.
Definition BPF_MUL : Z := 32.
Definition BPF_DIV : Z := 48.
Definition BPF_OR : Z := 64.
Definition BPF_AND : Z := 80.
Definition BPF_LSH : Z := 96.
Definition BPF_RSH : Z := 112.
Definition BPF_MOD : Z := 144.
Definition BPF_XOR : Z := 160.
Definition BPF_MOV : Z := 176.
Definition BPF_ARSH : Z := 192.
Definition BPF_END : Z := 208.
Definition BPF_TO_BE : Z := 8.
Definition BPF_JA : Z := 0.
Definition BPF_JEQ : Z := 16.
Definition BPF_JGT : Z := 32.
Definition BPF_JGE : Z := 48.
Definition BPF_JNE : Z := 80.
Definition BPF_JSGT : Z := 96.
Definition BPF_JSGE : Z := 112.
Definition BPF_EXIT : Z := 144.
Definition BPF_JLT : Z := 160.
Definition BPF_JLE : Z := 176.
Definition BPF_JSLT : Z := 192.
Definition BPF_JSLE : Z := 208.

(** The macros; the fields are stored at their width. *)
Definition BPF_RAW_INSN (code dst src off imm : Z) : bpf_insn :=
  mkInsn code dst src (s16 off) (s32 imm).
Definition BPF_ALU64_REG (op dst src : Z) : bpf_insn :=
  BPF_RAW_INSN (Z.lor (Z.lor BPF_ALU64 op) BPF_X) dst src 0 0.
Definition BPF_ALU64_IMM (op dst imm : Z) : bpf_insn :=
  BPF_RAW_INSN (Z.lor (Z.lor BPF_ALU64 op) BPF_K) dst 0 0 imm.
Definition BPF_ENDIAN (type dst len : Z) : bpf_insn :=
  BPF_RAW_INSN (Z.lor (Z.lor BPF_ALU BPF_END) type) dst 0 0 len.
Definition BPF_MOV64_REG (dst src : Z) : bpf_insn :=
  BPF_RAW_INSN (Z.lor (Z.lor BPF_ALU64 BPF_MOV) BPF_X) dst src 0 0.
Definition BPF_MOV64_IMM (dst imm : Z) : bpf_insn :=
  BPF_RAW_INSN (Z.lor (Z.lor BPF_ALU64 BPF_MOV) BPF_K) dst 0 0 imm.
Definition BPF_LDX_MEM (size dst src off : Z) : bpf_insn :=
  BPF_RAW_INSN (Z.lor (Z.lor BPF_LDX size) BPF_MEM) dst src off 0.
Definition BPF_STX_MEM (size dst src off : Z) : bpf_insn :=
  BPF_RAW_INSN (Z.lor (Z.lor BPF_STX size) BPF_MEM) dst src off 0.
Definition BPF_JMP_REG (op dst src off : Z) : bpf_insn :=
  BPF_RAW_INSN (Z.lor (Z.lor BPF_JMP op) BPF_X) dst src off 0.
Definition BPF_JMP_IMM (op dst imm off : Z) : bpf_insn :=
  BPF_RAW_INSN (Z.lor (Z.lor BPF_JMP op) BPF_K) dst 0 off imm.
Definition BPF_JMP_A (off : Z) : bpf_insn :=
  BPF_RAW_INSN (Z.lor BPF_JMP BPF_JA) 0 0 off 0.
Definition BPF_EXIT_INSN : bpf_insn :=
  BPF_RAW_INSN (Z.lor BPF_JMP BPF_EXIT) 0 0 0 0.

Definition BPF_ACC : Z := 0.
Definition BPF_EVENT : Z := 1.
Definition BPF_SLOT_LAST : Z := 9.
Definition BPF_INSN_PER_OP : Z := 8.

(** [struct bpf_emit]; the fixups are the pairs of [fixup_at] and
    [fixup_to]. *)
Record bpf_emit := mkEmit {
  b_insn : list bpf_insn;
  b_max : Z;
  b_depth : Z;
  b_err : option string;
  b_map : list Z;
  b_fix : list (Z * Z)
}.

Definition nr_insn (e : bpf_emit) : Z := Z.of_nat (length (b_insn e)).
Definition failed (e : bpf_emit) : bool := match b_err e with Some _ => true | None => false end.

Definition emit_fail (err : string) (e : bpf_emit) : bpf_emit :=
  if failed e then e
  else mkEmit (b_insn e) (b_max e) (b_depth e) (Some err) (b_map e) (b_fix e).

Definition bemit (i : bpf_insn) (e : bpf_emit) : bpf_emit :=
  if failed e then e
  else if b_max e <=? nr_insn e then emit_fail "instruction buffer overflow" e
  else mkEmit (b_insn e ++ [i]) (b_max e) (b_depth e) (b_err e) (b_map e) (b_fix e).

Definition set_depth (d : Z) (e : bpf_emit) : bpf_emit :=
  mkEmit (b_insn e) (b_max e) d (b_err e) (b_map e) (b_fix e).
Definition set_map (i : nat) (v : Z) (e : bpf_emit) : bpf_emit :=
  mkEmit (b_insn e) (b_max e) (b_depth e) (b_err e) (<[i := v]> (b_map e)) (b_fix e).
(** [if (!e.failed)] a fixup is recorded. *)
Definition add_fixup (at_ to : Z) (e : bpf_emit) : bpf_emit :=
  if failed e then e
  else mkEmit (b_insn e) (b_max e) (b_depth e) (b_err e) (b_map e) (b_fix e ++ [(at_, to)]).

Definition too_deep : string := "expression too deeply nested for register allocation".

(** [bpf_size_of] *)
Definition bpf_size_of (type : Z) (e : bpf_emit) : Z * bpf_emit :=
  if Ty.PTR <=? type then (BPF_DW, e)
  else
    let t := Z.land type (Z.lnot Ty.UNSIGNED) in
    if t =? Ty.CHAR then (BPF_B, e)
    else if t =? Ty.SHORT then (BPF_H, e)
    else if t =? Ty.INT then (BPF_W, e)
    else if t =? Ty.LONG then (BPF_DW, e)
    else (BPF_DW, emit_fail "unsupported type in load" e).

(** [emit_imm64] *)
Definition emit_imm64 (reg v : Z) (e : bpf_emit) : bpf_emit :=
  if v =? s32 v then bemit (BPF_MOV64_IMM reg (s32 v)) e
  else
    let e := bemit (BPF_RAW_INSN (Z.lor (Z.lor BPF_LD BPF_DW) BPF_IMM) reg 0 0 (u32 v)) e in
    bemit (BPF_RAW_INSN 0 0 0 0 (u32 (Z.shiftr (u64 v) 32))) e.

(** [emit_cmp] *)
Definition emit_cmp (op lhs : Z) (e : bpf_emit) : bpf_emit :=
  let e := bemit (BPF_JMP_REG op lhs BPF_ACC 2) e in
  let e := bemit (BPF_MOV64_IMM BPF_ACC 0) e in
  let e := bemit (BPF_JMP_A 1) e in
  bemit (BPF_MOV64_IMM BPF_ACC 1) e.

(** The BPF operation of the arithmetic instructions without a branch. *)
Definition alu_op (op : Z) : option Z :=
  if op =? Op.OR then Some BPF_OR
  else if op =? Op.XOR then Some BPF_XOR
  else if op =? Op.AND then Some BPF_AND
  else if op =? Op.SHL then Some BPF_LSH
  else if op =? Op.SHR then Some BPF_RSH
  else if op =? Op.SAR then Some BPF_ARSH
  else if op =? Op.ADD then Some BPF_ADD
  else if op =? Op.SUB then Some BPF_SUB
  else if op =? Op.MUL then Some BPF_MUL
  else if op =? Op.DIVu then Some BPF_DIV
  else if op =? Op.MODu then Some BPF_MOD
  else None.

(** The BPF jump of the comparisons. *)
Definition cmp_op (op : Z) : option Z :=
  if op =? Op.EQ then Some BPF_JEQ
  else if op =? Op.NE then Some BPF_JNE
  else if op =? Op.LT then Some BPF_JSLT
  else if op =? Op.GT then Some BPF_JSGT
  else if op =? Op.LE then Some BPF_JSLE
  else if op =? Op.GE then Some BPF_JSGE
  else if op =? Op.LTu then Some BPF_JLT
  else if op =? Op.GTu then Some BPF_JGT
  else if op =? Op.LEu then Some BPF_JLE
  else if op =? Op.GEu then Some BPF_JGE
  else None.

(** The opcodes of the binary operators. *)
Definition is_binop (op : Z) : bool :=
  ((Op.LTu <=? op) && (op <=? Op.MODu)).

(** The message for an instruction the backend has no translation of. *)
Definition refusal (op : Z) : string :=
  if op =? Op.PRTF then "printf() is not supported by the BPF backend"
  else if op =? Op.KSYM then "ksymbol() is not supported by the BPF backend"
  else if op =? Op.COMM then "comm_get() is not supported by the BPF backend"
  else if op =? Op.STRNCMP then "strncmp() is not supported by the BPF backend"
  else if op =? Op.MATCH then "~ is not supported by the BPF backend"
  else if (op =? Op.STREQ) || (op =? Op.STRNE) then
    "string comparison is not supported by the BPF backend"
  else if op =? Op.SYSCALL then "syscall_name() is not supported by the BPF backend"
  else if op =? Op.KVMEXIT then "exit_reason_str() is not supported by the BPF backend"
  else if op =? Op.SYSTEM then "system() is not supported by the BPF backend"
  else if op =? Op.ADJ then "function calls are not supported by the BPF backend"
  else "unsupported instruction".

Section Backend.
(** [slot_first] is [BPF_SLOT_FIRST]: r2, or r6 when the build check of the
    calling convention fails; [cpu_v4] is the answer of [bpf_have_cpu_v4]. *)
Context (slot_first : Z) (cpu_v4 : bool) (g : prog).

Definition BPF_NR_SLOTS : Z := BPF_SLOT_LAST - slot_first + 1.

(** [slot_reg] *)
Definition slot_reg (n : Z) (e : bpf_emit) : Z * bpf_emit :=
  if (n <? 0) || (BPF_NR_SLOTS <=? n) then (slot_first, emit_fail too_deep e)
  else (slot_first + n, e).

(** [emit_load] *)
Definition emit_load (type dst src off : Z) (e : bpf_emit) : bpf_emit :=
  let (sz, e) := bpf_size_of type e in
  if negb (Z.land type Ty.UNSIGNED =? 0) || (Ty.PTR <=? type) || (sz =? BPF_DW) then
    bemit (BPF_LDX_MEM sz dst src off) e
  else if cpu_v4 then
    bemit (BPF_RAW_INSN (Z.lor (Z.lor BPF_LDX sz) BPF_MEMSX) dst src off 0) e
  else
    let bits := if sz =? BPF_B then 56 else if sz =? BPF_H then 48 else 32 in
    let e := bemit (BPF_LDX_MEM sz dst src off) e in
    let e := bemit (BPF_ALU64_IMM BPF_LSH dst bits) e in
    bemit (BPF_ALU64_IMM BPF_ARSH dst bits) e.

(** [v] is the address of a declared field. *)
Definition in_data (v : Z) : bool :=
  match g_data g with Some d => (d <=? v) && (v <? d + g_datalen g) | None => false end.
Definition data_off (v : Z) : Z :=
  match g_data g with Some d => s32 (v - d) | None => 0 end.
Definition in_str (v : Z) : bool :=
  match g_str g with Some d => (d <=? v) && (v <? d + g_strsize g) | None => false end.

(** Every referenced variable is a field of the event. *)
Definition field_ok (s : sym) : bool :=
  negb (s_token s =? Tk.Id) || negb (s_class s =? Tk.Glo) || (s_ref s =? 0) || in_data (s_value s).

Definition word (i : nat) : res Z :=
  match g_insn g !! i with Some w => Ok w | None => Err (Fault "read past the instructions") end.

(** [case IMM]; [i] is the index of the operand.  The result is the index of
    the next instruction. *)
Definition tr_imm (i : nat) (e : bpf_emit) : res (nat * bpf_emit) :=
  let* v := word i in
  let i := S i in
  if in_data v then
    if (i <? length (g_insn g))%nat && (match g_insn g !! i with Some w => w =? Op.LI | None => false end) then
      let* type := word (S i) in
      Ok (S (S i), emit_load type BPF_ACC BPF_EVENT (data_off v) (set_map i (nr_insn e) e))
    else
      Ok (i, bemit (BPF_ALU64_IMM BPF_ADD BPF_ACC (data_off v)) (bemit (BPF_MOV64_REG BPF_ACC BPF_EVENT) e))
  else if in_str v then
    Ok (i, emit_fail "string literals are not supported by the BPF backend" e)
  else Ok (i, emit_imm64 BPF_ACC v e).

Definition tr_psh (e : bpf_emit) : bpf_emit :=
  let (r, e) := slot_reg (b_depth e) e in
  let e := bemit (BPF_MOV64_REG r BPF_ACC) e in
  let e := set_depth (b_depth e + 1) e in
  if BPF_NR_SLOTS <? b_depth e then emit_fail too_deep e else e.

(** [case BZ], [BNZ] and [JMP]; [i] is the index of the target. *)
Definition tr_jump (op : Z) (i : nat) (e : bpf_emit) : res (nat * bpf_emit) :=
  let* target := word i in
  let at_ := nr_insn e in
  let e := bemit (if op =? Op.JMP then BPF_JMP_A 0
                  else BPF_JMP_IMM (if op =? Op.BZ then BPF_JEQ else BPF_JNE) BPF_ACC 0 0) e in
  Ok (S i, add_fixup at_ (s32 ((target - g_base g) / 8)) e).

Definition tr_binop (op : Z) (e : bpf_emit) : bpf_emit :=
  if b_depth e <=? 0 then emit_fail "stack underflow" e
  else
    let e := set_depth (b_depth e - 1) e in
    let (lhs, e) := slot_reg (b_depth e) e in
    let commit e := bemit (BPF_MOV64_REG BPF_ACC lhs) e in
    match alu_op op, cmp_op op with
    | Some o, _ => commit (bemit (BPF_ALU64_REG o lhs BPF_ACC) e)
    | None, Some o => emit_cmp o lhs e
    | None, None =>
        if (op =? Op.DIV) || (op =? Op.MOD) then
          if negb cpu_v4 then emit_fail "signed division requires a 6.6+ kernel" e
          else commit (bemit (BPF_RAW_INSN (Z.lor (Z.lor BPF_ALU64 (if op =? Op.DIV then BPF_DIV else BPF_MOD)) BPF_X)
                                lhs BPF_ACC 1 0) e)
        else emit_fail "unsupported binary operator" e
    end.

Definition tr_si (i : nat) (e : bpf_emit) : res (nat * bpf_emit) :=
  let* type := word i in
  let (sz, e) := bpf_size_of type e in
  if b_depth e <=? 0 then Ok (S i, emit_fail "stack underflow" e)
  else
    let e := set_depth (b_depth e - 1) e in
    let (r, e) := slot_reg (b_depth e) e in
    Ok (S i, bemit (BPF_STX_MEM sz r BPF_ACC 0) e).

(** One iteration of the translation loop at the instruction of index [i]. *)
Definition tr_insn (i : nat) (e : bpf_emit) : res (nat * bpf_emit) :=
  let* op := word i in
  let e := set_map i (nr_insn e) e in
  let i := S i in
  if op =? Op.IMM then tr_imm i e
  else if op =? Op.LI then
    let* type := word i in Ok (S i, emit_load type BPF_ACC BPF_ACC 0 e)
  else if op =? Op.PSH then Ok (i, tr_psh e)
  else if (op =? Op.BZ) || (op =? Op.BNZ) || (op =? Op.JMP) then tr_jump op i e
  else if op =? Op.EXIT then Ok (i, bemit BPF_EXIT_INSN e)
  else if is_binop op then Ok (i, tr_binop op e)
  else if op =? Op.SI then tr_si i e
  else if op =? Op.NTHL then Ok (i, bemit (BPF_ENDIAN BPF_TO_BE BPF_ACC 32) e)
  else if op =? Op.NTHS then Ok (i, bemit (BPF_ENDIAN BPF_TO_BE BPF_ACC 16) e)
  else Ok (i, emit_fail (refusal op) e).

(** [while (pc < insn_end && !e.failed)] *)
Fixpoint tr_loop (fuel : nat) (i : nat) (e : bpf_emit) : res bpf_emit :=
  if (length (g_insn g) <=? i)%nat || failed e then Ok e
  else match fuel with
  | O => Err NoFuel
  | S fuel => let* (i, e) := tr_insn i e in tr_loop fuel i e
  end.

(** The resolution of the recorded jumps; [None] is an unresolved one. *)
Fixpoint resolve (map : list Z) (fix_ : list (Z * Z)) (code : list bpf_insn) : option (list bpf_insn) :=
  match fix_ with
  | [] => Some code
  | (at_, to) :: fix_ =>
      if (to <? 0) || (Z.of_nat (length (g_insn g)) <? to) then None
      else match map !! Z.to_nat to with
      | Some target =>
          if target <? 0 then None
          else
            let set_off i := mkInsn (i_code i) (i_dst i) (i_src i) (s16 (target - at_ - 1)) (i_imm i) in
            resolve map fix_ (alter set_off (Z.to_nat at_) code)
      | None => None
      end
  end.

Definition bpf_emit0 : bpf_emit :=
  mkEmit [] (Z.of_nat (length (g_insn g)) * BPF_INSN_PER_OP + 8) 0 None
    (replicate (S (length (g_insn g))) (-1)) [].

(** At least two instructions. *)
Definition pad (code : list bpf_insn) : list bpf_insn :=
  code ++ replicate (2 - length code) BPF_EXIT_INSN.

(** [expr_to_bpf] when its allocations succeed; [None] is the null pointer,
    with the diagnostic. *)
Definition expr_to_bpf : res (list bpf_insn + string) :=
  if negb (forallb field_ok (g_symtab g)) then Ok (inr "variable is not a field of the event"%string)
  else
    let n := length (g_insn g) in
    let* e := tr_loop n 1 bpf_emit0 in
    match b_err e with
    | Some err => Ok (inr err)
    | None =>
        let map := <[n := nr_insn e]> (b_map e) in
        match resolve map (b_fix e) (b_insn e) with
        | None => Ok (inr "unresolved jump target"%string)
        | Some code => Ok (inl (pad code))
        end
    end.
End Backend.
