(* ===== verification/BpfIsa.v ===== *)
(** * BpfIsa: the BPF machine

    The machine that runs the code of src/src/expr.c's BPF backend is in the
    kernel.  [isa] states the documented effect (RFC 9669) of the instruction
    forms the backend emits; the class [BpfMachine] is a machine that has these
    effects, and the theorems about the backend hold for each one.
    [reference_machine] is an executable instance.  Registers hold unsigned
    64-bit values and are unset before they are written; the memory is indexed
    by addresses read as signed 64-bit numbers. *)

From S2P Require Import Prelude ExprLex ExprProg Bpf.

Record bstate := mkB {
  r_pc : nat;
  r_reg : gmap Z Z;
  r_mem : mem
}.

(** Arithmetic on registers. *)
Definition bpf_alu (op x y : Z) : Z :=
  if op =? BPF_ADD then u64 (x + y)
  else if op =? BPF_SUB then u64 (x - y)
  else if op =? BPF_MUL then u64 (x * y)
  else if op =? BPF_OR then Z.lor x y
  else if op =? BPF_AND then Z.land x y
  else if op =? BPF_XOR then Z.lxor x y
  else if op =? BPF_LSH then u64 (Z.shiftl x (Z.land y 63))
  else if op =? BPF_RSH then Z.shiftr x (Z.land y 63)
  else if op =? BPF_ARSH then u64 (Z.shiftr (s64 x) (Z.land y 63))
  else if op =? BPF_DIV then (if y =? 0 then 0 else x / y)
  else (if y =? 0 then x else x mod y).

Definition alu_ops : list Z :=
  [BPF_ADD; BPF_SUB; BPF_MUL; BPF_OR; BPF_AND; BPF_XOR; BPF_LSH; BPF_RSH; BPF_ARSH; BPF_DIV; BPF_MOD].

(** Signed division and modulo, the forms with [off = 1]. *)
Definition bpf_sdiv (x y : Z) : Z :=
  if y =? 0 then 0
  else if s64 y =? -1 then u64 (- s64 x)
  else u64 (Z.quot (s64 x) (s64 y)).
Definition bpf_smod (x y : Z) : Z :=
  if y =? 0 then x
  else if s64 y =? -1 then 0
  else u64 (Z.rem (s64 x) (s64 y)).

(** Conditions of the jumps. *)
Definition bpf_cond (op x y : Z) : bool :=
  if op =? BPF_JEQ then x =? y
  else if op =? BPF_JNE then negb (x =? y)
  else if op =? BPF_JGT then y <? x
  else if op =? BPF_JGE then y <=? x
  else if op =? BPF_JLT then x <? y
  else if op =? BPF_JLE then x <=? y
  else if op =? BPF_JSGT then s64 y <? s64 x
  else if op =? BPF_JSGE then s64 y <=? s64 x
  else if op =? BPF_JSLT then s64 x <? s64 y
  else s64 x <=? s64 y.

Definition jmp_ops : list Z :=
  [BPF_JEQ; BPF_JNE; BPF_JGT; BPF_JGE; BPF_JLT; BPF_JLE; BPF_JSGT; BPF_JSGE; BPF_JSLT; BPF_JSLE].

(** The bytes of an access size. *)
Definition size_bytes (sz : Z) : nat :=
  if sz =? BPF_B then 1 else if sz =? BPF_H then 2 else if sz =? BPF_W then 4 else 8.
Definition sizes : list Z := [BPF_B; BPF_H; BPF_W; BPF_DW].

Definition jump_to (off : Z) (s : bstate) : bstate :=
  mkB (Z.to_nat (Z.of_nat (r_pc s) + 1 + off)) (r_reg s) (r_mem s).
Definition write_reg (d v : Z) (s : bstate) : bstate :=
  mkB (S (r_pc s)) (<[d := v]> (r_reg s)) (r_mem s).
Definition write_mem (m : mem) (s : bstate) : bstate := mkB (S (r_pc s)) (r_reg s) m.

(** The effect of the instruction at [r_pc]: the next state, or the result and
    the memory at the exit. *)
Inductive isa (code : list bpf_insn) (s : bstate) : bstate + Z * mem -> Prop :=
  | isa_alu_reg op d r x y : op ∈ alu_ops ->
      code !! r_pc s = Some (BPF_ALU64_REG op d r) ->
      r_reg s !! d = Some x -> r_reg s !! r = Some y ->
      isa code s (inl (write_reg d (bpf_alu op x y) s))
  | isa_alu_imm op d imm x : op ∈ alu_ops -> in_s 32 imm ->
      code !! r_pc s = Some (BPF_ALU64_IMM op d imm) ->
      r_reg s !! d = Some x ->
      isa code s (inl (write_reg d (bpf_alu op x (u64 imm)) s))
  | isa_sdiv d r x y :
      code !! r_pc s = Some (BPF_RAW_INSN (Z.lor (Z.lor BPF_ALU64 BPF_DIV) BPF_X) d r 1 0) ->
      r_reg s !! d = Some x -> r_reg s !! r = Some y ->
      isa code s (inl (write_reg d (bpf_sdiv x y) s))
  | isa_smod d r x y :
      code !! r_pc s = Some (BPF_RAW_INSN (Z.lor (Z.lor BPF_ALU64 BPF_MOD) BPF_X) d r 1 0) ->
      r_reg s !! d = Some x -> r_reg s !! r = Some y ->
      isa code s (inl (write_reg d (bpf_smod x y) s))
  | isa_mov_reg d r y :
      code !! r_pc s = Some (BPF_MOV64_REG d r) -> r_reg s !! r = Some y ->
      isa code s (inl (write_reg d y s))
  | isa_mov_imm d imm : in_s 32 imm ->
      code !! r_pc s = Some (BPF_MOV64_IMM d imm) ->
      isa code s (inl (write_reg d (u64 imm) s))
  | isa_ld_imm64 d lo hi : in_u 32 lo -> in_u 32 hi ->
      code !! r_pc s = Some (BPF_RAW_INSN (Z.lor (Z.lor BPF_LD BPF_DW) BPF_IMM) d 0 0 lo) ->
      code !! S (r_pc s) = Some (BPF_RAW_INSN 0 0 0 0 hi) ->
      isa code s (inl (mkB (S (S (r_pc s))) (<[d := lo + 2 ^ 32 * hi]> (r_reg s)) (r_mem s)))
  | isa_ldx sz d r off x v : sz ∈ sizes -> in_s 16 off ->
      code !! r_pc s = Some (BPF_LDX_MEM sz d r off) ->
      r_reg s !! r = Some x -> load (r_mem s) (s64 (x + off)) (size_bytes sz) = Some v ->
      isa code s (inl (write_reg d (uwrap (8 * Z.of_nat (size_bytes sz)) v) s))
  | isa_ldx_sx sz d r off x v : sz ∈ [BPF_B; BPF_H; BPF_W] -> in_s 16 off ->
      code !! r_pc s = Some (BPF_RAW_INSN (Z.lor (Z.lor BPF_LDX sz) BPF_MEMSX) d r off 0) ->
      r_reg s !! r = Some x -> load (r_mem s) (s64 (x + off)) (size_bytes sz) = Some v ->
      isa code s (inl (write_reg d (u64 (swrap (8 * Z.of_nat (size_bytes sz)) v)) s))
  | isa_stx sz d r off x v m : sz ∈ sizes -> in_s 16 off ->
      code !! r_pc s = Some (BPF_STX_MEM sz d r off) ->
      r_reg s !! d = Some x -> r_reg s !! r = Some v ->
      store (r_mem s) (s64 (x + off)) (size_bytes sz) v = Some m ->
      isa code s (inl (write_mem m s))
  | isa_jmp_reg op d r off x y : op ∈ jmp_ops -> in_s 16 off ->
      code !! r_pc s = Some (BPF_JMP_REG op d r off) ->
      r_reg s !! d = Some x -> r_reg s !! r = Some y ->
      isa code s (inl (jump_to (if bpf_cond op x y then off else 0) s))
  | isa_jmp_imm op d imm off x : op ∈ jmp_ops -> in_s 16 off -> in_s 32 imm ->
      code !! r_pc s = Some (BPF_JMP_IMM op d imm off) ->
      r_reg s !! d = Some x ->
      isa code s (inl (jump_to (if bpf_cond op x (u64 imm) then off else 0) s))
  | isa_ja off : in_s 16 off ->
      code !! r_pc s = Some (BPF_JMP_A off) ->
      isa code s (inl (jump_to off s))
  | isa_exit v :
      code !! r_pc s = Some BPF_EXIT_INSN -> r_reg s !! 0 = Some v ->
      isa code s (inr (v, r_mem s)).

(** A machine with the documented instructions. *)
Class BpfMachine := {
  bpf_step : list bpf_insn -> bstate -> option (bstate + Z * mem);
  bpf_step_isa : forall code s r, isa code s r -> bpf_step code s = Some r
}.

(** Running a program. *)
Fixpoint bpf_run `{BpfMachine} (n : nat) (code : list bpf_insn) (s : bstate) : option (Z * mem) :=
  match n with
  | O => None
  | S n =>
      match bpf_step code s with
      | Some (inl s) => bpf_run n code s
      | Some (inr r) => Some r
      | None => None
      end
  end.

(** The call of a filter: the event pointer is in r1. *)
Definition bpf_call (event : Z) (m : mem) : bstate := mkB 0 {[ BPF_EVENT := u64 event ]} m.

(** ** An executable machine *)

Definition ref_step (code : list bpf_insn) (s : bstate) : option (bstate + Z * mem) :=
  i ← code !! r_pc s;
  let c := i_code i in
  let cls := Z.land c 7 in
  let src := if Z.land c 8 =? 0 then Some (u64 (i_imm i)) else r_reg s !! i_src i in
  let op := Z.land c 240 in
  let sz := Z.land c 24 in
  let addr x := s64 (x + i_off i) in
  if cls =? BPF_ALU64 then
    if op =? BPF_MOV then y ← src; Some (inl (write_reg (i_dst i) y s))
    else
      x ← r_reg s !! i_dst i; y ← src;
      Some (inl (write_reg (i_dst i)
        (if i_off i =? 1 then (if op =? BPF_DIV then bpf_sdiv x y else bpf_smod x y)
         else bpf_alu op x y) s))
  else if cls =? BPF_LD then
    j ← code !! S (r_pc s);
    Some (inl (mkB (S (S (r_pc s))) (<[i_dst i := u32 (i_imm i) + 2 ^ 32 * u32 (i_imm j)]> (r_reg s)) (r_mem s)))
  else if cls =? BPF_LDX then
    x ← r_reg s !! i_src i;
    v ← load (r_mem s) (addr x) (size_bytes sz);
    Some (inl (write_reg (i_dst i)
      (if Z.land c 224 =? BPF_MEMSX then u64 (swrap (8 * Z.of_nat (size_bytes sz)) v) else uwrap (8 * Z.of_nat (size_bytes sz)) v) s))
  else if cls =? BPF_STX then
    x ← r_reg s !! i_dst i; v ← r_reg s !! i_src i;
    m ← store (r_mem s) (addr x) (size_bytes sz) v;
    Some (inl (write_mem m s))
  else if cls =? BPF_JMP then
    if op =? BPF_EXIT then v ← r_reg s !! 0; Some (inr (v, r_mem s))
    else if op =? BPF_JA then Some (inl (jump_to (i_off i) s))
    else
      x ← r_reg s !! i_dst i; y ← src;
      Some (inl (jump_to (if bpf_cond op x y then i_off i else 0) s))
  else None.

(** Splits a membership in a list of constants. *)
Ltac split_ops :=
  repeat match goal with H : _ ∈ _ |- _ => apply list_elem_of_In in H; simpl in H end;
  repeat match goal with
  | H : _ \/ _ |- _ => destruct H
  | H : False |- _ => destruct H
  end; subst.

(** Evaluates the fields of a known opcode. *)
Ltac eval_fields :=
  repeat match goal with |- context [Z.land ?a ?b] =>
    let v := eval vm_compute in (Z.land a b) in
    match v with Z0 => idtac | Zpos _ => idtac end; change (Z.land a b) with v end.

Lemma ref_step_isa code s r : isa code s r -> ref_step code s = Some r.
Proof.
  intros H. unfold ref_step. destruct H;
    match goal with H : code !! r_pc s = Some _ |- _ => rewrite H end; split_ops;
    cbn [mbind option_bind BPF_RAW_INSN BPF_ALU64_REG BPF_ALU64_IMM BPF_MOV64_REG BPF_MOV64_IMM
         BPF_LDX_MEM BPF_STX_MEM BPF_JMP_REG BPF_JMP_IMM BPF_JMP_A BPF_EXIT_INSN
         i_code i_dst i_src i_off i_imm]; eval_fields;
    rewrite ?(swrap_small 16), ?(swrap_small 32) by (done || (unfold in_s in *; lia));
    cbn -[load store Z.mul Z.add Z.pow bpf_alu bpf_cond size_bytes];
    repeat match goal with
    | H : _ !! _ = Some _ |- _ => rewrite H; clear H
    | H : load _ _ _ = Some _ |- _ => unfold BPF_B, BPF_H, BPF_W, BPF_DW in H; rewrite H; clear H
    | H : store _ _ _ _ = Some _ |- _ => unfold BPF_B, BPF_H, BPF_W, BPF_DW in H; rewrite H; clear H
    | |- _ => progress cbn -[load store Z.mul Z.add Z.pow bpf_alu bpf_cond size_bytes]
    end; try done.
  rewrite !(uwrap_swrap 32), !(uwrap_small 32) by done. done.
Qed.

#[export] Instance reference_machine : BpfMachine := {
  bpf_step := ref_step;
  bpf_step_isa := ref_step_isa
}.
