(* ===== verification/BpfArith.v ===== *)
(** * BpfArith: 64-bit arithmetic of the two machines

    The virtual machine of src/src/expr.c computes on signed longs, the BPF
    machine on unsigned registers; the operations the backend selects agree
    through the conversion [u64]. *)

From S2P Require Import Prelude ExprLex ExprComp ExprProg ExprVM Bpf BpfIsa.

Lemma in_s64_shiftr z : in_s 64 z <-> Z.shiftr z 63 = 0 \/ Z.shiftr z 63 = -1.
Proof.
  unfold in_s. rewrite Z.shiftr_div_pow2 by lia. change (64 - 1) with 63. split.
  - intros H. pose proof (Z.div_mod z (2 ^ 63)). pose proof (Z.mod_pos_bound z (2 ^ 63)). lia.
  - intros H. pose proof (Z.div_mod z (2 ^ 63)). pose proof (Z.mod_pos_bound z (2 ^ 63)). lia.
Qed.

Lemma in_s64_bits x y : in_s 64 x -> in_s 64 y ->
  in_s 64 (Z.lor x y) /\ in_s 64 (Z.lxor x y) /\ in_s 64 (Z.land x y).
Proof.
  rewrite !in_s64_shiftr, Z.shiftr_lor, Z.shiftr_lxor, Z.shiftr_land.
  intros [-> | ->] [-> | ->]; simpl; tauto.
Qed.

Lemma uwrap_bits w x y : 0 <= w ->
  uwrap w (Z.lor x y) = Z.lor (uwrap w x) (uwrap w y) /\
  uwrap w (Z.lxor x y) = Z.lxor (uwrap w x) (uwrap w y) /\
  uwrap w (Z.land x y) = Z.land (uwrap w x) (uwrap w y).
Proof.
  intros Hw. unfold uwrap. rewrite <- !Z.land_ones by done.
  split_and!; apply Z.bits_inj'; intros n Hn;
    rewrite ?Z.land_spec, ?Z.lor_spec, ?Z.lxor_spec, ?Z.land_spec;
    destruct (Z.testbit x n), (Z.testbit y n), (Z.testbit (Z.ones w) n); done.
Qed.

Lemma s64_u64 x : in_s 64 x -> s64 (u64 x) = x.
Proof. intros H. rewrite swrap_uwrap by lia. by apply swrap_small. Qed.

Lemma u64_s64 x : u64 (s64 x) = u64 x.
Proof. by rewrite uwrap_swrap by lia. Qed.

Lemma u64_inj x y : in_s 64 x -> in_s 64 y -> u64 x = u64 y -> x = y.
Proof. intros Hx Hy E. by rewrite <- (s64_u64 x), <- (s64_u64 y), E. Qed.

Lemma u64_eqb x y : in_s 64 x -> in_s 64 y -> (u64 x =? u64 y) = (x =? y).
Proof.
  intros Hx Hy. destruct (Z.eqb_spec x y) as [->|N]; [by rewrite Z.eqb_refl|].
  apply Z.eqb_neq. intros E. by apply N, u64_inj.
Qed.

Lemma u64_zero : u64 0 = 0.
Proof. done. Qed.

Lemma in_s64_small x : -1 <= x < 2 ^ 32 -> in_s 64 x.
Proof. unfold in_s. lia. Qed.

Lemma u64_nonneg x : 0 <= x -> in_s 64 x -> u64 x = x.
Proof. unfold in_s. intros H H'. apply uwrap_small; [lia|]. unfold in_u. lia. Qed.

Lemma land_63 a : 0 <= a < 64 -> Z.land a 63 = a.
Proof. intros H. change 63 with (Z.ones 6). rewrite Z.land_ones by lia. by apply Z.mod_small. Qed.

Lemma in_s64_shiftr_le x a : 0 <= a -> in_s 64 x -> in_s 64 (Z.shiftr x a).
Proof.
  intros Ha Hx. apply in_s64_shiftr in Hx. apply in_s64_shiftr.
  rewrite Z.shiftr_shiftr by lia. rewrite Z.add_comm, <- Z.shiftr_shiftr by lia.
  destruct Hx as [-> | ->]; [left; apply Z.shiftr_0_l|right].
  rewrite Z.shiftr_div_pow2 by lia. symmetry. apply (Z.div_unique _ _ _ (2 ^ a - 1)); [|lia].
  pose proof (Z.pow_pos_nonneg 2 a). lia.
Qed.

Lemma in_s64_quot x a : in_s 64 x -> a <> 0 -> (x = - 2 ^ 63 -> a <> -1) -> in_s 64 (Z.quot x a).
Proof.
  intros Hx Ha Hm. unfold in_s in *. change (64 - 1) with 63 in *.
  destruct (Z.eq_dec a (-1)) as [->|Ha1].
  - assert (x <> - 2 ^ 63) by (intros ->; by apply Hm).
    replace (Z.quot x (-1)) with (- x); [lia|]. apply (Z.quot_unique_exact x (-1)); lia.
  - destruct (Z.eq_dec a 1) as [->|Ha2]; [rewrite Z.quot_1_r; lia|].
    pose proof (Z.quot_abs x a Ha) as E.
    assert (Z.abs x ÷ Z.abs a <= Z.abs x ÷ 2).
    { apply Z.quot_le_compat_l; lia. }
    assert (Z.abs x ÷ 2 <= 2 ^ 63 ÷ 2) by (apply Z.quot_le_mono; lia).
    change (2 ^ 63 ÷ 2) with (2 ^ 62) in *. lia.
Qed.

Lemma in_s64_rem x a : in_s 64 x -> a <> 0 -> in_s 64 (Z.rem x a).
Proof.
  intros Hx Ha. unfold in_s in *. change (64 - 1) with 63 in *.
  pose proof (Z.rem_abs x a Ha). pose proof (Z.rem_le (Z.abs x) (Z.abs a)).
  pose proof (Z.rem_nonneg (Z.abs x) (Z.abs a)). pose proof (Z.rem_sign_mul x a Ha). nia.
Qed.

(** The operation selected for an arithmetic instruction computes its value. *)
Lemma alu_sim op o x a v : in_s 64 x -> in_s 64 a -> alu_op op = Some o -> alu op x a = Ok v ->
  o ∈ alu_ops /\ bpf_alu o (u64 x) (u64 a) = u64 v /\ in_s 64 v.
Proof.
  intros Hx Ha Ho Hv. destruct (in_s64_bits x a Hx Ha) as (B1 & B2 & B3).
  destruct (uwrap_bits 64 x a ltac:(lia)) as (U1 & U2 & U3).
  pose proof (fun z => swrap_range 64 ltac:(lia) z) as R.
  assert (Hu : a <> 0 -> u64 a <> 0).
  { intros N E. apply N. apply u64_inj; [done|by apply in_s64_small|done]. }
  unfold alu_op in Ho.
  repeat match type of Ho with
  | (if ?op =? ?c then _ else _) = _ => destruct (Z.eqb_spec op c) as [->|]
  end; [injection Ho as <-..|done]; (split; [apply list_elem_of_In; simpl; tauto|]);
    cbv [alu] in Hv; cbn in Hv; unfold bpf_alu; cbn.
  - injection Hv as <-. by rewrite U1.
  - injection Hv as <-. by rewrite U2.
  - injection Hv as <-. by rewrite U3.
  - destruct (Z.leb_spec 0 a), (Z.ltb_spec a 64); try done. injection Hv as <-.
    rewrite (u64_nonneg a), land_63, u64_s64, !Z.shiftl_mul_pow2 by (done || lia).
    by rewrite uwrap_mul_l by lia.
  - destruct (Z.leb_spec 0 a), (Z.ltb_spec a 64); try done. injection Hv as <-.
    rewrite (u64_nonneg a), land_63, u64_s64 by (done || lia).
    split; [|done]. symmetry. apply uwrap_small; [lia|].
    pose proof (uwrap_range 64 ltac:(lia) x) as Hr. unfold in_u in *.
    rewrite Z.shiftr_div_pow2 by lia. split; [apply Z.div_pos; lia|].
    apply Z.div_lt_upper_bound; [lia|]. pose proof (Z.pow_pos_nonneg 2 a). nia.
  - destruct (Z.leb_spec 0 a), (Z.ltb_spec a 64); try done. injection Hv as <-.
    rewrite (u64_nonneg a), land_63, s64_u64 by (done || lia). split; [done|].
    by apply in_s64_shiftr_le.
  - injection Hv as <-. by rewrite u64_s64, uwrap_add_l, uwrap_add_r by lia.
  - injection Hv as <-. by rewrite u64_s64, uwrap_sub_l, uwrap_sub_r by lia.
  - injection Hv as <-. by rewrite u64_s64, uwrap_mul_l, uwrap_mul_r by lia.
  - destruct (Z.eqb_spec a 0); [done|]. injection Hv as <-.
    destruct (Z.eqb_spec (u64 a) 0); [by exfalso; apply Hu|]. rewrite u64_s64. split; [|done].
    symmetry. apply uwrap_small; [lia|].
    pose proof (uwrap_range 64 ltac:(lia) x) as Hr. pose proof (uwrap_range 64 ltac:(lia) a) as Hr'.
    unfold in_u in *. split; [apply Z.div_pos; lia|]. apply Z.div_lt_upper_bound; nia.
  - destruct (Z.eqb_spec a 0); [done|]. injection Hv as <-.
    destruct (Z.eqb_spec (u64 a) 0); [by exfalso; apply Hu|]. rewrite u64_s64. split; [|done].
    symmetry. apply uwrap_small; [lia|].
    pose proof (uwrap_range 64 ltac:(lia) x) as Hr. pose proof (uwrap_range 64 ltac:(lia) a) as Hr'.
    unfold in_u in *. pose proof (Z.mod_pos_bound (u64 x) (u64 a)). lia.
Qed.

Lemma in_s64_b2z b : in_s 64 (b2z b).
Proof. apply in_s64_small. destruct b; simpl; lia. Qed.

(** The jump selected for a comparison decides it. *)
Lemma cmp_sim op o x a v : in_s 64 x -> in_s 64 a -> cmp_op op = Some o -> alu op x a = Ok v ->
  o ∈ jmp_ops /\ v = b2z (bpf_cond o (u64 x) (u64 a)).
Proof.
  intros Hx Ha Ho Hv. unfold cmp_op in Ho.
  repeat match type of Ho with
  | (if ?op =? ?c then _ else _) = _ => destruct (Z.eqb_spec op c) as [->|]
  end; [injection Ho as <-..|done]; (split; [apply list_elem_of_In; simpl; tauto|]);
    cbv [alu] in Hv; cbn in Hv; injection Hv as <-; unfold bpf_cond; cbn;
    rewrite ?u64_eqb, ?s64_u64 by done; done.
Qed.

(** Signed division. *)
Lemma div_sim x a v : in_s 64 x -> in_s 64 a -> alu Op.DIV x a = Ok v ->
  bpf_sdiv (u64 x) (u64 a) = u64 v /\ in_s 64 v.
Proof.
  intros Hx Ha Hv. cbv [alu] in Hv. cbn in Hv.
  destruct (Z.eqb_spec a 0); [done|]. cbn [orb] in Hv. unfold bpf_sdiv.
  rewrite <- u64_zero at 1. rewrite u64_eqb by (done || by apply in_s64_small).
  destruct (Z.eqb_spec a 0); [done|]. rewrite !s64_u64 by done.
  destruct (Z.eqb_spec a (-1)) as [->|]; destruct (Z.eqb_spec x (- 2 ^ 63)); try done;
    injection Hv as <-; (split; [|by apply in_s64_quot]); try done.
  f_equal. apply (Z.quot_unique_exact x (-1)); lia.
Qed.

Lemma mod_sim x a v : in_s 64 x -> in_s 64 a -> alu Op.MOD x a = Ok v ->
  bpf_smod (u64 x) (u64 a) = u64 v /\ in_s 64 v.
Proof.
  intros Hx Ha Hv. cbv [alu] in Hv. cbn in Hv.
  destruct (Z.eqb_spec a 0); [done|]. cbn [orb] in Hv. unfold bpf_smod.
  rewrite <- u64_zero at 1. rewrite u64_eqb by (done || by apply in_s64_small).
  destruct (Z.eqb_spec a 0); [done|]. rewrite !s64_u64 by done.
  destruct (Z.eqb_spec a (-1)) as [->|]; destruct (Z.eqb_spec x (- 2 ^ 63)); try done;
    injection Hv as <-; (split; [|by apply in_s64_rem]); try done.
  change (-1) with (- (1)). by rewrite (Z.rem_opp_r x 1), Z.rem_1_r by lia.
Qed.

(** ** Memory accesses *)

Lemma vm_access_size t n sg : vm_access t = Some (n, sg) ->
  (n = 1 \/ n = 2 \/ n = 4 \/ n = 8)%nat.
Proof.
  unfold vm_access, access. repeat case_match; intros [= <- <-]; tauto.
Qed.

(** The value of a load, in a register. *)
Lemma extend_unsigned n v : (n <= 8)%nat -> u64 (extend n false v) = uwrap (8 * Z.of_nat n) v.
Proof.
  intros Hn. unfold extend. rewrite u64_s64. unfold uwrap at 1. apply Z.mod_small.
  destruct n; [unfold uwrap; simpl; rewrite Zmod_1_r; lia|].
  pose proof (uwrap_range (8 * Z.of_nat (S n)) ltac:(lia) v) as H. unfold in_u in H.
  pose proof (Z.pow_le_mono_r 2 (8 * Z.of_nat (S n)) 64). lia.
Qed.

Lemma extend_range n sg v : (0 < n <= 8)%nat -> in_s 64 (extend n sg v).
Proof.
  intros Hn. unfold extend. destruct sg; [|apply swrap_range; lia].
  pose proof (swrap_range (8 * Z.of_nat n) ltac:(lia) v) as H. unfold in_s in *.
  pose proof (Z.pow_le_mono_r 2 (8 * Z.of_nat n - 1) (64 - 1)). lia.
Qed.

Lemma le_split_u64 n : (n <= 8)%nat -> forall v, le_split n (u64 v) = le_split n v.
Proof.
  intros Hn v. unfold uwrap. assert (8 * Z.of_nat n <= 64) as Hb by lia. clear Hn.
  change 64 with (0 + 64). generalize dependent 64. revert v.
  induction n as [|n IH]; intros v w Hb; [done|]. cbn [le_split].
  f_equal.
  - rewrite Z.add_0_l. replace w with (8 + (w - 8)) by lia. rewrite Z.pow_add_r by lia.
    change (2 ^ 8) with 256. rewrite Z.rem_mul_r by lia. 
    rewrite Z.mul_comm, Z.mod_add, Z.mod_mod by lia. done.
  - rewrite Z.add_0_l in *. replace w with (8 + (w - 8)) by lia. rewrite Z.pow_add_r by lia.
    change (2 ^ 8) with 256. rewrite Z.rem_mul_r by lia.
    rewrite (Z.mul_comm 256 (_ mod _)), Z.div_add by lia.
    rewrite (Z.div_small (v mod 256)) by (apply Z.mod_pos_bound; lia). rewrite Z.add_0_l.
    specialize (IH (v / 256) (w - 8) ltac:(lia)). rewrite Z.add_0_l in IH. done.
Qed.

Lemma store_u64 m x n v : (n <= 8)%nat -> store m x n (u64 v) = store m x n v.
Proof. intros Hn. unfold store. by rewrite le_split_u64. Qed.

(** Shifting the sign bit up and back sign-extends. *)
Lemma shift_extend n v : (0 < n <= 8)%nat ->
  let bits := 64 - 8 * Z.of_nat n in
  bpf_alu BPF_ARSH (bpf_alu BPF_LSH (uwrap (8 * Z.of_nat n) v) (u64 bits)) (u64 bits)
  = u64 (swrap (8 * Z.of_nat n) v).
Proof.
  intros Hn bits. set (w := 8 * Z.of_nat n) in *.
  assert (Hw : 0 < w <= 64) by lia. assert (Hb : 0 <= bits < 64) by lia.
  unfold bpf_alu. cbn -[Z.shiftl Z.shiftr Z.land]. rewrite (u64_nonneg bits) by (unfold in_s; lia).
  rewrite land_63 by done. rewrite swrap_uwrap by lia. f_equal.
  rewrite Z.shiftl_mul_pow2, Z.shiftr_div_pow2 by lia.
  destruct (uwrap_shift w ltac:(lia) v) as [k Hk]. destruct (swrap_shift w ltac:(lia) v) as [k' Hk'].
  pose proof (swrap_range w ltac:(lia) v) as Hr. unfold in_s in Hr.
  pose proof (Z.pow_pos_nonneg 2 bits).
  assert (E64 : 2 ^ 64 = 2 ^ w * 2 ^ bits) by (rewrite <- Z.pow_add_r by lia; f_equal; lia).
  assert (E63 : 2 ^ 63 = 2 ^ (w - 1) * 2 ^ bits) by (rewrite <- Z.pow_add_r by lia; f_equal; lia).
  assert (s64 (uwrap w v * 2 ^ bits) = swrap w v * 2 ^ bits) as ->.
  { rewrite <- (swrap_small 64 ltac:(lia) (swrap w v * 2 ^ bits)).
    - apply swrap_eq; [lia|]. apply uwrap_eq; [lia|]. exists (k - k'). rewrite Hk, Hk', E64. lia.
    - unfold in_s. change (64 - 1) with 63. rewrite E63. nia. }
  by rewrite Z.div_mul by lia.
Qed.
