(* ===== verification/BpfProof.v ===== *)
(** * BpfProof: the translation of a stream of instructions

    [flow] describes the instruction streams the backend of src/src/expr.c
    translates, with the stack depth before and after; [chunk] is the BPF code
    of one instruction.  The translator emits the chunks one after the other,
    records where each instruction starts, and resolves the jumps to these
    places. *)

From S2P Require Import Prelude ExprLex ExprComp ExprProg ExprVM Bpf BpfIsa BpfArith.

Definition size_code (n : nat) : Z :=
  match n with 1%nat => BPF_B | 2%nat => BPF_H | 4%nat => BPF_W | _ => BPF_DW end.

Lemma size_of_access t n sg e : vm_access t = Some (n, sg) ->
  bpf_size_of t e = (size_code n, e) /\
  negb (Z.land t Ty.UNSIGNED =? 0) || (Ty.PTR <=? t) || (size_code n =? BPF_DW) = negb sg || (n =? 8)%nat.
Proof.
  unfold vm_access, access.
  repeat match goal with |- (if ?t =? ?c then _ else _) = _ -> _ => destruct (Z.eqb_spec t c) as [->|] end;
    intros [= <- <-]; done.
Qed.

Definition bemits (cs : list bpf_insn) (e : bpf_emit) : bpf_emit := foldl (fun e c => bemit c e) e cs.

(** The emitter after code, fixups and depth. *)
Definition after (c : list bpf_insn) (fx : list (Z * Z)) (d : nat) (e : bpf_emit) : bpf_emit :=
  mkEmit (b_insn e ++ c) (b_max e) (Z.of_nat d) (b_err e) (b_map e) (b_fix e ++ fx).

Lemma bemits_ok cs : forall e, b_err e = None -> nr_insn e + Z.of_nat (length cs) <= b_max e ->
  bemits cs e = mkEmit (b_insn e ++ cs) (b_max e) (b_depth e) None (b_map e) (b_fix e).
Proof.
  induction cs as [|c cs IH]; intros [ins mx dp er mp fx] He Hn; simpl in *; subst.
  - by rewrite app_nil_r.
  - unfold bemit at 1. cbn. unfold nr_insn in *. cbn [b_insn] in *.
    destruct (Z.leb_spec mx (Z.of_nat (length ins))); [lia|].
    rewrite IH; [|done|simpl; rewrite length_app; simpl; lia]. simpl. by rewrite <- app_assoc.
Qed.

Section Chunk.
Context (sf : Z) (v4 : bool) (g : prog).

Definition slots : nat := Z.to_nat (BPF_NR_SLOTS sf).

Definition load_code (n : nat) (sg : bool) (src off : Z) : list bpf_insn :=
  if negb sg || (n =? 8)%nat then [BPF_LDX_MEM (size_code n) 0 src off]
  else if v4 then [BPF_RAW_INSN (Z.lor (Z.lor BPF_LDX (size_code n)) BPF_MEMSX) 0 src off 0]
  else let bits := 64 - 8 * Z.of_nat n in
       [BPF_LDX_MEM (size_code n) 0 src off; BPF_ALU64_IMM BPF_LSH 0 bits; BPF_ALU64_IMM BPF_ARSH 0 bits].

Definition imm_code (v : Z) : list bpf_insn :=
  if v =? s32 v then [BPF_MOV64_IMM 0 (s32 v)]
  else [BPF_RAW_INSN (Z.lor (Z.lor BPF_LD BPF_DW) BPF_IMM) 0 0 0 (u32 v);
        BPF_RAW_INSN 0 0 0 0 (u32 (Z.shiftr (u64 v) 32))].

Definition cmp_code (o lhs : Z) : list bpf_insn :=
  [BPF_JMP_REG o lhs 0 2; BPF_MOV64_IMM 0 0; BPF_JMP_A 1; BPF_MOV64_IMM 0 1].

Definition bin_code (op lhs : Z) : list bpf_insn :=
  match alu_op op, cmp_op op with
  | Some o, _ => [BPF_ALU64_REG o lhs 0; BPF_MOV64_REG 0 lhs]
  | None, Some o => cmp_code o lhs
  | None, None =>
      [BPF_RAW_INSN (Z.lor (Z.lor BPF_ALU64 (if op =? Op.DIV then BPF_DIV else BPF_MOD)) BPF_X) lhs 0 1 0;
       BPF_MOV64_REG 0 lhs]
  end.

Definition jump_code (op : Z) : bpf_insn :=
  if op =? Op.JMP then BPF_JMP_A 0 else BPF_JMP_IMM (if op =? Op.BZ then BPF_JEQ else BPF_JNE) 0 0 0.

Definition is_jump (op : Z) : bool := (op =? Op.BZ) || (op =? Op.BNZ) || (op =? Op.JMP).

Definition bin_ok (op : Z) : bool :=
  is_binop op && (v4 || negb ((op =? Op.DIV) || (op =? Op.MOD))).

(** The translation of the first instruction of [l] at depth [d]: the words it
    takes, the depth after it, its code and the target of its jump. *)
Definition chunk (d : nat) (l : list Z) : option (nat * nat * list bpf_insn * option Z) :=
  match l with
  | [] => None
  | op :: l =>
      if op =? Op.IMM then
        match l with
        | v :: l =>
            if in_data g v then
              match l with
              | o :: t :: _ =>
                  if o =? Op.LI then
                    match vm_access t with
                    | Some (n, sg) => Some (4%nat, d, load_code n sg 1 (data_off g v), None)
                    | None => None
                    end
                  else Some (2%nat, d, [BPF_MOV64_REG 0 1; BPF_ALU64_IMM BPF_ADD 0 (data_off g v)], None)
              | [o] =>
                  if o =? Op.LI then None
                  else Some (2%nat, d, [BPF_MOV64_REG 0 1; BPF_ALU64_IMM BPF_ADD 0 (data_off g v)], None)
              | [] => Some (2%nat, d, [BPF_MOV64_REG 0 1; BPF_ALU64_IMM BPF_ADD 0 (data_off g v)], None)
              end
            else if in_str g v then None
            else Some (2%nat, d, imm_code v, None)
        | [] => None
        end
      else if op =? Op.LI then
        match l with
        | t :: _ => match vm_access t with
                    | Some (n, sg) => Some (2%nat, d, load_code n sg 0 0, None)
                    | None => None
                    end
        | [] => None
        end
      else if op =? Op.PSH then
        if (d <? slots)%nat then Some (1%nat, S d, [BPF_MOV64_REG (sf + Z.of_nat d) 0], None) else None
      else if is_jump op then
        match l with
        | t :: _ => Some (2%nat, d, [jump_code op], Some (s32 ((t - g_base g) / 8)))
        | [] => None
        end
      else if op =? Op.EXIT then Some (1%nat, d, [BPF_EXIT_INSN], None)
      else if bin_ok op then
        match d with
        | S d => if (d <? slots)%nat then Some (1%nat, d, bin_code op (sf + Z.of_nat d), None) else None
        | O => None
        end
      else if op =? Op.SI then
        match l, d with
        | t :: _, S d =>
            match vm_access t with
            | Some (n, _) =>
                if (d <? slots)%nat
                then Some (2%nat, d, [BPF_STX_MEM (size_code n) (sf + Z.of_nat d) 0 0], None) else None
            | None => None
            end
        | _, _ => None
        end
      else None
  end.

Lemma chunk_len d l k d' c j : chunk d l = Some (k, d', c, j) ->
  (1 <= k <= length l /\ 1 <= length c <= 4)%nat.
Proof.
  unfold chunk, bin_code, cmp_code, imm_code, load_code.
  repeat case_match; intros [= <- <- <- <-]; simpl; lia.
Qed.

(** The position of the recorded jumps of a chunk emitted after [p]. *)
Definition fixups (p : nat) (j : option Z) : list (Z * Z) :=
  match j with Some t => [(Z.of_nat p, t)] | None => [] end.

(** The entries of the map a chunk at [i] adds. *)
Definition map_after (i k : nat) (v : Z) (m : list Z) : list Z :=
  if (k =? 4)%nat then <[(i + 2)%nat := v]> (<[i := v]> m) else <[i := v]> m.

Lemma word_at i l w k : drop i (g_insn g) = l -> l !! k = Some w -> word g (i + k) = Ok w.
Proof.
  intros Hd Hl. unfold word. rewrite <- lookup_drop, Hd, Hl. done.
Qed.

Lemma emit_load_ok t n sg src off e : vm_access t = Some (n, sg) ->
  emit_load v4 t 0 src off e = bemits (load_code n sg src off) e.
Proof.
  intros Ht. unfold emit_load. destruct (size_of_access t n sg e Ht) as [-> ->]. unfold load_code.
  destruct (negb sg || (n =? 8)%nat) eqn:E; [done|]. destruct v4; [done|].
  apply vm_access_size in Ht. destruct Ht as [->|[->|[->| ->]]]; [done..|].
  by rewrite orb_true_r in E.
Qed.

Lemma slot_reg_ok d e : (d < slots)%nat -> slot_reg sf (Z.of_nat d) e = (sf + Z.of_nat d, e).
Proof.
  intros Hd. unfold slot_reg, slots in *.
  destruct (Z.ltb_spec (Z.of_nat d) 0); [lia|]. destruct (Z.leb_spec (BPF_NR_SLOTS sf) (Z.of_nat d)); [lia|done].
Qed.
(** The emitter after the chunk of the instruction at [i]. *)
Definition emitted (i k : nat) (d' : nat) (c : list bpf_insn) (j : option Z) (e : bpf_emit) : bpf_emit :=
  mkEmit (b_insn e ++ c) (b_max e) (Z.of_nat d') None (map_after i k (nr_insn e) (b_map e))
    (b_fix e ++ fixups (length (b_insn e)) j).

Lemma tr_imm_ok i d l k d' c j e :
  drop i (g_insn g) = Op.IMM :: l -> chunk d (Op.IMM :: l) = Some (k, d', c, j) ->
  b_err e = None -> b_depth e = Z.of_nat d -> nr_insn e + 4 <= b_max e ->
  tr_imm v4 g (S i) (set_map i (nr_insn e) e) = Ok ((i + k)%nat, emitted i k d' c j e).
Proof.
  intros Hl Hc He Hd Hn. pose proof (chunk_len _ _ _ _ _ _ Hc) as Hlen.
  pose proof (fun k w => word_at i _ w k Hl) as Hw. pose proof (fun k => lookup_drop (g_insn g) i k) as Hk.
  rewrite Hl in Hk. assert (Hlt : forall k w, (Op.IMM :: l) !! k = Some w -> (i + k < length (g_insn g))%nat).
  { intros k0 w E. apply (lookup_lt_Some _ _ w). by rewrite <- Hk. }
  destruct e as [ins mx dp er mp fx]. cbn in He, Hd, Hn. subst er dp. cbn in Hc.
  destruct l as [|v l]; [done|]. unfold tr_imm. rewrite <- Nat.add_1_r, (Hw 1%nat v) by done.
  replace (S (i + 1)) with (i + 2)%nat by lia.
  unfold emitted. cbn [b_insn b_max b_map b_fix].
  destruct (in_data g v) eqn:Ev.
  - destruct l as [|o l].
    + injection Hc as <- <- <- <-. rewrite <- Hk. simpl. rewrite andb_false_r.
      f_equal. f_equal. change (bemit ?a (bemit ?b ?x)) with (bemits [b; a] x).
      rewrite bemits_ok; cbn; [by rewrite app_nil_r|done|unfold nr_insn in *; cbn in *; lia].
    + specialize (Hlt 2%nat o eq_refl). destruct (Nat.ltb_spec (i + 2) (length (g_insn g))); [|lia].
      rewrite <- Hk. change ((Op.IMM :: v :: o :: l) !! 2%nat) with (Some o). cbv beta iota. cbn [andb].
      destruct (o =? Op.LI) eqn:Eo.
      * destruct l as [|t l]; [done|]. replace (S (i + 2)) with (i + 3)%nat by lia.
        rewrite (Hw 3%nat t) by done. destruct (vm_access t) as [[n sg]|] eqn:Et; [|done].
        injection Hc as <- <- <- <-. replace (S (i + 3)) with (i + 4)%nat by lia. f_equal. f_equal.
        rewrite (emit_load_ok t n sg) by done. rewrite bemits_ok; [cbn; by rewrite app_nil_r|done|].
        unfold nr_insn, BPF_EVENT in *. cbn [b_insn b_max set_map] in *. lia.
      * destruct l as [|t l]; injection Hc as <- <- <- <-; f_equal; f_equal;
          change (bemit ?a (bemit ?b ?x)) with (bemits [b; a] x);
          (rewrite bemits_ok; cbn; [by rewrite app_nil_r|done|unfold nr_insn in *; cbn in *; lia]).
  - destruct (in_str g v); [done|]. injection Hc as <- <- <- <-. f_equal. f_equal.
    unfold nr_insn in *. cbn in Hn.
    assert (forall x, emit_imm64 BPF_ACC v x = bemits (imm_code v) x) as ->.
    { intros x. unfold emit_imm64, imm_code. by destruct (v =? s32 v). }
    rewrite bemits_ok; cbn; [by rewrite app_nil_r|done|]. unfold nr_insn. cbn.
    unfold imm_code. destruct (v =? s32 v); simpl; lia.
Qed.
Lemma tr_psh_ok d e : (d < slots)%nat -> b_err e = None -> b_depth e = Z.of_nat d ->
  nr_insn e + 1 <= b_max e ->
  tr_psh sf e = mkEmit (b_insn e ++ [BPF_MOV64_REG (sf + Z.of_nat d) 0]) (b_max e) (Z.of_nat (S d)) None
                  (b_map e) (b_fix e).
Proof.
  intros Hs He Hd Hn. unfold tr_psh. rewrite Hd, slot_reg_ok by done.
  change (bemit ?a ?x) with (bemits [a] x). rewrite bemits_ok by done. cbn. rewrite Hd.
  unfold slots in Hs. destruct (Z.ltb_spec (BPF_NR_SLOTS sf) (Z.of_nat d + 1)); [lia|].
  unfold set_depth. cbn. f_equal. lia.
Qed.

Lemma tr_binop_ok op d e : bin_ok op = true -> (d < slots)%nat -> b_err e = None ->
  b_depth e = Z.of_nat (S d) -> nr_insn e + 4 <= b_max e ->
  tr_binop sf v4 op e = mkEmit (b_insn e ++ bin_code op (sf + Z.of_nat d)) (b_max e) (Z.of_nat d) None
                       (b_map e) (b_fix e).
Proof.
  intros Ho Hs He Hd Hn. unfold tr_binop. destruct (Z.leb_spec (b_depth e) 0); [lia|].
  replace (b_depth e - 1) with (Z.of_nat d) by lia. cbn [set_depth b_depth].
  rewrite slot_reg_ok by done. unfold bin_code.
  assert (H4 : forall cs, (length cs <= 4)%nat -> bemits cs (set_depth (Z.of_nat d) e)
    = mkEmit (b_insn e ++ cs) (b_max e) (Z.of_nat d) None (b_map e) (b_fix e)).
  { intros cs Hcs. rewrite bemits_ok; [done|done|]. unfold nr_insn in *. cbn. lia. }
  change (mkEmit (b_insn e) (b_max e) (Z.of_nat d) (b_err e) (b_map e) (b_fix e))
    with (set_depth (Z.of_nat d) e).
  destruct (alu_op op) as [o|] eqn:Ea; [by rewrite <- H4 by (simpl; lia)|].
  destruct (cmp_op op) as [o|] eqn:Ec; [by rewrite <- H4 by (simpl; lia)|].
  assert ((op =? Op.DIV) || (op =? Op.MOD) = true) as Ho2.
  { unfold alu_op, cmp_op in *. unfold bin_ok, is_binop in Ho.
    repeat match goal with H : (if ?b then _ else _) = None |- _ => destruct b eqn:?; [done|] end.
    unfold Op.LTu, Op.GTu, Op.LEu, Op.GEu, Op.OR, Op.XOR, Op.AND, Op.EQ, Op.NE, Op.LT, Op.GT, Op.LE,
      Op.GE, Op.SHL, Op.SHR, Op.SAR, Op.ADD, Op.SUB, Op.MUL, Op.DIV, Op.MOD, Op.DIVu, Op.MODu in *. lia. }
  rewrite Ho2. unfold bin_ok in Ho. rewrite Ho2 in Ho. apply andb_prop in Ho as [_ Ho].
  rewrite orb_false_r in Ho. rewrite Ho. cbn [negb]. by rewrite <- H4 by (simpl; lia).
Qed.

Lemma tr_insn_ok i d l k d' c j e :
  drop i (g_insn g) = l -> chunk d l = Some (k, d', c, j) ->
  b_err e = None -> b_depth e = Z.of_nat d -> nr_insn e + 4 <= b_max e ->
  tr_insn sf v4 g i e = Ok ((i + k)%nat, emitted i k d' c j e).
Proof.
  intros Hl Hc He Hd Hn. pose proof (fun k w => word_at i _ w k Hl) as Hw.
  destruct l as [|op l]; [done|]. unfold tr_insn. rewrite <- (Nat.add_0_r i) at 1.
  rewrite (Hw 0%nat op) by done.
  set (e1 := set_map i (nr_insn e) e).
  assert (H1 : b_err e1 = None /\ b_depth e1 = Z.of_nat d /\ nr_insn e1 + 4 <= b_max e1) by done.
  destruct H1 as (He1 & Hd1 & Hn1).
  destruct (Z.eqb_spec op Op.IMM) as [->|N1]; [by eapply tr_imm_ok|].
  cbn [chunk] in Hc. destruct (Z.eqb_spec op Op.IMM) as [|_]; [done|].
  destruct (Z.eqb_spec op Op.LI) as [->|N2].
  { destruct l as [|t l]; [done|]. rewrite <- Nat.add_1_r, (Hw 1%nat t) by done.
    destruct (vm_access t) as [[n sg]|] eqn:Et; [|done]. injection Hc as <- <- <- <-.
    replace (S (i + 1)) with (i + 2)%nat by lia. f_equal. f_equal.
    rewrite (emit_load_ok t n sg) by done. rewrite bemits_ok; [|done|].
    - unfold emitted. cbn. by rewrite app_nil_r, Hd.
    - assert (length (load_code n sg 0 0) <= 4)%nat; [|unfold BPF_ACC; lia].
      unfold load_code. repeat case_match; simpl; lia. }
  destruct (Z.eqb_spec op Op.PSH) as [->|N3].
  { destruct (Nat.ltb_spec d slots); [|done]. injection Hc as <- <- <- <-. rewrite Nat.add_1_r.
    f_equal. f_equal. rewrite (tr_psh_ok d) by (done || lia). unfold emitted. by rewrite app_nil_r. }
  fold (is_jump op) in *. destruct (is_jump op) eqn:Ej.
  { destruct l as [|t l]; [done|]. injection Hc as <- <- <- <-. unfold tr_jump.
    rewrite <- Nat.add_1_r, (Hw 1%nat t) by done. replace (S (i + 1)) with (i + 2)%nat by lia.
    f_equal. f_equal. change (bemit ?a ?x) with (bemits [a] x). rewrite bemits_ok by (done || (cbn [length]; lia)).
    unfold emitted, add_fixup. cbn. by rewrite Hd. }
  destruct (Z.eqb_spec op Op.EXIT) as [->|N4].
  { injection Hc as <- <- <- <-. rewrite Nat.add_1_r. f_equal. f_equal.
    change (bemit ?a ?x) with (bemits [a] x). rewrite bemits_ok by (done || (cbn [length]; lia)).
    unfold emitted. cbn. by rewrite app_nil_r, Hd. }
  destruct (bin_ok op) eqn:Eb.
  { assert (is_binop op = true) as -> by (unfold bin_ok in Eb; by destruct (is_binop op)).
    destruct d as [|d]; [done|]. destruct (Nat.ltb_spec d slots); [|done]. injection Hc as <- <- <- <-.
    rewrite Nat.add_1_r. f_equal. f_equal. rewrite (tr_binop_ok op d) by done.
    unfold emitted. by rewrite app_nil_r. }
  destruct (Z.eqb_spec op Op.SI) as [->|N5]; [|done]. change (is_binop Op.SI) with false. cbv beta iota.
  destruct l as [|t l]; [done|]. destruct d as [|d]; [done|]. unfold tr_si.
  rewrite <- Nat.add_1_r, (Hw 1%nat t) by done. replace (S (i + 1)) with (i + 2)%nat by lia.
  destruct (vm_access t) as [[n sg]|] eqn:Et; [|done]. destruct (Nat.ltb_spec d slots); [|done].
  injection Hc as <- <- <- <-. destruct (size_of_access t n sg e1 Et) as [-> _].
  destruct (Z.leb_spec (b_depth e1) 0); [lia|]. replace (b_depth e1 - 1) with (Z.of_nat d) by lia.
  cbn [set_depth b_depth]. rewrite slot_reg_ok by done. f_equal. f_equal.
  change (bemit ?a ?x) with (bemits [a] x). rewrite bemits_ok; [|done|unfold nr_insn in *; cbn in *; lia].
  unfold emitted. cbn. by rewrite app_nil_r.
Qed.
(** ** The places the translation passes *)

(** The index and the depth of an instruction, and the code and the fixups
    emitted before it. *)
Record place := mkPl {
  p_i : nat;
  p_d : nat;
  p_code : list bpf_insn;
  p_fix : list (Z * Z)
}.

Definition advance (x : place) : option place :=
  '(k, d, c, j) ← chunk (p_d x) (drop (p_i x) (g_insn g));
  Some (mkPl (p_i x + k) d (p_code x ++ c) (p_fix x ++ fixups (length (p_code x)) j)).

(** The place after [k] instructions. *)
Fixpoint pos (k : nat) : option place :=
  match k with O => Some (mkPl 1 0 [] []) | S k => x ← pos k; advance x end.

Abbreviation len := (length (g_insn g)).

Lemma advance_inv x y : advance x = Some y -> exists k d c j,
  chunk (p_d x) (drop (p_i x) (g_insn g)) = Some (k, d, c, j) /\
  y = mkPl (p_i x + k) d (p_code x ++ c) (p_fix x ++ fixups (length (p_code x)) j) /\
  (1 <= k)%nat /\ (p_i x + k <= len)%nat /\ (1 <= length c <= 4)%nat.
Proof.
  unfold advance. destruct (chunk _ _) as [[[[k d] c] j]|] eqn:E; [|done]. intros [= <-].
  exists k, d, c, j. apply chunk_len in E as H. rewrite length_drop in H.
  split_and!; try done; lia.
Qed.

Lemma pos_S k y : pos (S k) = Some y -> exists x, pos k = Some x /\ advance x = Some y.
Proof. simpl. destruct (pos k) as [x|]; [|done]. eauto. Qed.

Lemma pos_le m : forall k x y, pos k = Some x -> pos (k + m) = Some y ->
  (p_i x + m <= p_i y)%nat /\ p_code x `prefix_of` p_code y /\ p_fix x `prefix_of` p_fix y.
Proof.
  induction m as [|m IH]; intros k x y Hx Hy.
  - rewrite Nat.add_0_r, Hx in Hy. injection Hy as <-. split_and!; [lia|done..].
  - rewrite Nat.add_succ_r in Hy. apply pos_S in Hy as (z & Hz & A).
    destruct (IH k x z Hx Hz) as (H1 & H2 & H3).
    apply advance_inv in A as (k' & d & c & j & _ & -> & Hk & _ & _). cbn.
    split_and!; [lia|by apply prefix_app_r..].
Qed.

Lemma pos_down K k x : pos K = Some x -> (k <= K)%nat -> exists y, pos k = Some y.
Proof.
  revert x. induction K as [|K IH]; intros x Hx Hk.
  - replace k with 0%nat by lia. eauto.
  - destruct (Nat.eq_dec k (S K)) as [->|]; [eauto|]. apply pos_S in Hx as (y & Hy & _).
    apply (IH y Hy). lia.
Qed.

(** A place is determined by its index. *)
Lemma pos_uniq k k' x y : pos k = Some x -> pos k' = Some y -> p_i x = p_i y -> k = k' /\ x = y.
Proof.
  intros Hx Hy E. assert (k = k').
  { destruct (Nat.lt_trichotomy k k') as [H|[H|H]]; [|done|].
    - pose proof (pos_le (k' - k) k x y Hx) as P. replace (k + (k' - k))%nat with k' in P by lia.
      destruct (P Hy). lia.
    - pose proof (pos_le (k - k') k' y x Hy) as P. replace (k' + (k - k'))%nat with k in P by lia.
      destruct (P Hx). lia. }
  subst. split; [done|]. congruence.
Qed.

Lemma pos_prefix k k' x y : pos k = Some x -> pos k' = Some y -> (p_i x <= p_i y)%nat ->
  p_code x `prefix_of` p_code y /\ p_fix x `prefix_of` p_fix y.
Proof.
  intros Hx Hy E. destruct (Nat.le_gt_cases k k') as [H|H].
  - pose proof (pos_le (k' - k) k x y Hx) as P. replace (k + (k' - k))%nat with k' in P by lia.
    by destruct (P Hy) as (_ & ? & ?).
  - pose proof (pos_le (k - k') k' y x Hy) as P. replace (k' + (k - k'))%nat with k in P by lia.
    destruct (P Hx). lia.
Qed.

Lemma pos_bound k x : (1 <= len)%nat -> pos k = Some x ->
  (1 <= p_i x <= len)%nat /\ (length (p_code x) + 4 <= 4 * p_i x)%nat.
Proof.
  intros Hl. revert x. induction k as [|k IH]; intros x Hx.
  - injection Hx as <-. simpl. lia.
  - apply pos_S in Hx as (y & Hy & A). apply IH in Hy.
    apply advance_inv in A as (k' & d & c & j & _ & -> & Hk & Hk' & Hc). cbn. rewrite length_app. lia.
Qed.

(** The map after [k] instructions. *)
Fixpoint pmap (k : nat) : list Z :=
  match k with
  | O => replicate (S len) (-1)
  | S k =>
      match pos k, pos (S k) with
      | Some x, Some y => map_after (p_i x) (p_i y - p_i x) (Z.of_nat (length (p_code x))) (pmap k)
      | _, _ => pmap k
      end
  end.

Lemma pmap_length k : length (pmap k) = S len.
Proof.
  induction k as [|k IH]; [apply length_replicate|]. simpl.
  repeat case_match; try done; unfold map_after; case_match; by rewrite ?length_insert.
Qed.

Lemma pmap_place k k' x y : (1 <= len)%nat -> pos k = Some x -> pos k' = Some y -> (k < k')%nat ->
  pmap k' !! p_i x = Some (Z.of_nat (length (p_code x))).
Proof.
  intros Hlen Hx. revert y. induction k' as [|k' IH]; intros y Hy Hk; [lia|].
  pose proof (pos_bound _ _ Hlen Hx) as Bx.
  cbn [pmap]. rewrite Hy. apply pos_S in Hy as (z & Hz & A). rewrite Hz.
  destruct (Nat.eq_dec k k') as [<-|Hne].
  - assert (z = x) as -> by congruence. unfold map_after. case_match.
    + rewrite list_lookup_insert_ne by lia. apply list_lookup_insert_eq. rewrite pmap_length. lia.
    + apply list_lookup_insert_eq. rewrite pmap_length. lia.
  - pose proof (pos_le (k' - k) k x z Hx) as P. replace (k + (k' - k))%nat with k' in P by lia.
    destruct (P Hz) as (Hi & _). unfold map_after. case_match;
      rewrite !list_lookup_insert_ne by lia; apply (IH z); (done || lia).
Qed.

(** The emitter at a place. *)
Definition emit_at (k : nat) (x : place) : bpf_emit :=
  mkEmit (p_code x) (Z.of_nat len * BPF_INSN_PER_OP + 8) (Z.of_nat (p_d x)) None (pmap k) (p_fix x).

Lemma tr_loop_ok K y : (1 <= len)%nat -> pos K = Some y -> p_i y = len ->
  forall m k x fuel, pos k = Some x -> (K = k + m)%nat -> (m <= fuel)%nat ->
  tr_loop sf v4 g fuel (p_i x) (emit_at k x) = Ok (emit_at K y).
Proof.
  intros Hlen Hy Hend. induction m as [|m IH]; intros k x fuel Hx -> Hf.
  - rewrite Nat.add_0_r in Hy. assert (x = y) as -> by congruence. rewrite Nat.add_0_r.
    destruct fuel; cbn [tr_loop]; destruct (Nat.leb_spec len (p_i y)); (done || lia).
  - destruct fuel as [|fuel]; [lia|].
    destruct (pos_down _ (S k) _ Hy ltac:(lia)) as (z & Hz). pose proof Hz as Hz'.
    apply pos_S in Hz' as (x' & Hx' & A). assert (x' = x) as -> by congruence.
    pose proof (pos_bound _ _ Hlen Hx) as Bx.
    pose proof (pos_le (S m) k x y Hx Hy) as (Hi & _).
    cbn [tr_loop]. destruct (Nat.leb_spec len (p_i x)); [lia|]. cbn [orb].
    change (failed (emit_at k x)) with false. cbv beta iota.
    apply advance_inv in A as (kk & d & c & j & Ec & Ez & Hk1 & Hk2 & Hc).
    assert (Hroom : nr_insn (emit_at k x) + 4 <= b_max (emit_at k x)).
    { unfold nr_insn, BPF_INSN_PER_OP. cbn [b_insn b_max emit_at]. unfold BPF_INSN_PER_OP. lia. }
    rewrite (tr_insn_ok _ _ _ _ _ _ _ (emit_at k x) eq_refl Ec eq_refl eq_refl Hroom).
    specialize (IH (S k) z fuel Hz ltac:(lia) ltac:(lia)).
    rewrite <- IH. rewrite Ez. cbn [p_i].
    f_equal. unfold emitted, emit_at. cbn [p_code p_d p_fix b_insn b_max b_map b_fix].
    f_equal. change (pmap (S k)) with (match pos k, pos (S k) with
      | Some x, Some y => map_after (p_i x) (p_i y - p_i x) (Z.of_nat (length (p_code x))) (pmap k)
      | _, _ => pmap k
      end). rewrite Hx, Hz, Ez. cbn [p_i]. by replace (p_i x + kk - p_i x)%nat with kk by lia.
Qed.
(** ** Instruction streams *)

Section Flow.
(** The variables of [g] are moved by [delta]; [J d t] holds of the targets
    [t] of the jumps at depth [d]. *)
Context (delta : Z).

Definition imm_like (w w' : Z) : Prop :=
  in_s 64 w' /\
  if in_data g w then w' = w + delta else in_str g w = false /\ w' = w.

(** [flow J d l l' d']: the stream [l] takes the stack from depth [d] to [d'],
    within the slots, and [l'] is [l] with the variables moved. *)
Inductive flow (J : nat -> Z -> Prop) : nat -> list Z -> list Z -> nat -> Prop :=
  | fl_nil d : flow J d [] [] d
  | fl_imm d w w' l l' d2 : imm_like w w' -> flow J d l l' d2 ->
      flow J d (Op.IMM :: w :: l) (Op.IMM :: w' :: l') d2
  | fl_li d t a l l' d2 : vm_access t = Some a -> flow J d l l' d2 ->
      flow J d (Op.LI :: t :: l) (Op.LI :: t :: l') d2
  | fl_si d t a l l' d2 : vm_access t = Some a -> (d < slots)%nat -> flow J d l l' d2 ->
      flow J (S d) (Op.SI :: t :: l) (Op.SI :: t :: l') d2
  | fl_psh d l l' d2 : (d < slots)%nat -> flow J (S d) l l' d2 ->
      flow J d (Op.PSH :: l) (Op.PSH :: l') d2
  | fl_jump d op t l l' d2 : is_jump op = true -> J d t -> flow J d l l' d2 ->
      flow J d (op :: t :: l) (op :: t :: l') d2
  | fl_bin d op l l' d2 : bin_ok op = true -> (d < slots)%nat -> flow J d l l' d2 ->
      flow J (S d) (op :: l) (op :: l') d2
  | fl_exit d l l' d2 : flow J d l l' d2 ->
      flow J d (Op.EXIT :: l) (Op.EXIT :: l') d2.

Lemma flow_app J d l1 l1' d1 l2 l2' d2 :
  flow J d l1 l1' d1 -> flow J d1 l2 l2' d2 -> flow J d (l1 ++ l2) (l1' ++ l2') d2.
Proof. induction 1; intros; simpl; try (econstructor; eauto); done. Qed.

Lemma flow_mono (J J' : nat -> Z -> Prop) d l l' d2 :
  (forall d t, J d t -> J' d t) -> flow J d l l' d2 -> flow J' d l l' d2.
Proof. induction 2; econstructor; eauto. Qed.

Lemma flow_len J d l l' d2 : flow J d l l' d2 -> length l = length l'.
Proof. induction 1; simpl; lia. Qed.

Lemma bin_ok_binop op : bin_ok op = true -> Op.LTu <= op <= Op.MODu.
Proof. unfold bin_ok, is_binop. intros H. lia. Qed.

Ltac op_dec := repeat (match goal with
  | |- context [?a =? ?b] => destruct (Z.eqb_spec a b); [lia|]
  end).

Lemma jump_cases op : is_jump op = true -> op = Op.BZ \/ op = Op.BNZ \/ op = Op.JMP.
Proof. unfold is_jump. lia. Qed.

(** The first instruction of a stream that is followed by [r] is translated,
    and the rest is a stream. *)
Lemma flow_chunk J d l l' d2 r : flow J d l l' d2 -> l <> [] -> head r <> Some Op.LI ->
  exists k d' c j, chunk d (l ++ r) = Some (k, d', c, j) /\ (k <= length l)%nat /\
    flow J d' (drop k l) (drop k l') d2.
Proof.
  intros Hf Hl Hr. destruct Hf as [d|d w w' l l' d2 Hi Hf|d t a l l' d2 Ht Hf|d t a l l' d2 Ht Hs Hf
    |d l l' d2 Hs Hf|d op t l l' d2 Hj HJ Hf|d op l l' d2 Hb Hs Hf|d l l' d2 Hf]; cbn [app chunk].
  - done.
  - destruct Hi as [_ Hi]. cbn. destruct (in_data g w).
    + destruct (l ++ r) as [|o q] eqn:E.
      { eexists _, _, _, _. split_and!; [done|simpl; lia|done]. }
      assert (o = Op.LI -> exists t a l1 l1', q = t :: l1 ++ r /\ l = Op.LI :: t :: l1 /\
        l' = Op.LI :: t :: l1' /\ vm_access t = Some a /\ flow J d l1 l1' d2) as HLI.
      { intros ->. inversion Hf; subst; simpl in E; try (injection E as ? ?); try done.
        - subst r. done.
        - naive_solver.
        - match goal with H : is_jump _ = true |- _ => apply jump_cases in H end. naive_solver.
        - match goal with H : bin_ok _ = true |- _ => apply bin_ok_binop in H end.
          unfold Op.LTu, Op.LI in *. naive_solver lia. }
      destruct (Z.eqb_spec o Op.LI) as [->|Hne].
      * destruct (HLI eq_refl) as (t & [n sg] & l1 & l1' & -> & -> & -> & Et & Hf1). rewrite Et.
        eexists _, _, _, _. split_and!; [done|simpl; lia|done].
      * destruct q; eexists _, _, _, _; (split_and!; [done|simpl; lia|done]).
    + destruct Hi as [-> _]. eexists _, _, _, _. split_and!; [done|simpl; lia|done].
  - cbn. rewrite Ht. destruct a as [n sg]. eexists _, _, _, _. split_and!; [done|simpl; lia|done].
  - cbn -[Nat.ltb]. rewrite Ht. destruct a as [n sg]. destruct (Nat.ltb_spec d slots); [|lia].
    eexists _, _, _, _. split_and!; [done|simpl; lia|done].
  - cbn -[Nat.ltb]. destruct (Nat.ltb_spec d slots); [|lia]. eexists _, _, _, _. split_and!; [done|simpl; lia|done].
  - apply jump_cases in Hj as Ho. exists 2%nat, d, [jump_code op], (Some (s32 ((t - g_base g) / 8))).
    split; [destruct Ho as [->|[->| ->]]; reflexivity|]. split; [simpl; lia|done].
  - apply bin_ok_binop in Hb as Ho.
    unfold Op.LTu, Op.MODu in Ho. unfold is_jump, Op.IMM, Op.LI, Op.PSH, Op.BZ, Op.BNZ, Op.JMP, Op.EXIT.
    op_dec. cbn [orb]. rewrite Hb. destruct (Nat.ltb_spec d slots); [|lia].
    eexists _, _, _, _. split_and!; [done|simpl; lia|done].
  - cbn. eexists _, _, _, _. split_and!; [done|simpl; lia|done].
Qed.

(** ** Streams and places *)

Context (insn' : list Z).

Lemma head_drop {A} (l : list A) i : head (drop i l) = l !! i.
Proof. revert i. induction l as [|a l IH]; intros [|i]; simpl; [done..|]. apply IH. Qed.

Lemma pos_flow J k : forall x, flow J 0 (drop 1 (g_insn g)) (drop 1 insn') 0 -> pos k = Some x ->
  flow J (p_d x) (drop (p_i x) (g_insn g)) (drop (p_i x) insn') 0.
Proof.
  induction k as [|k IH]; intros x Hf Hx; [injection Hx as <-; done|].
  apply pos_S in Hx as (y & Hy & A). specialize (IH y Hf Hy).
  apply advance_inv in A as (n & d & c & j & Ec & -> & Hk & Hk' & _).
  destruct (flow_chunk J _ _ _ _ [] IH) as (n' & d' & c' & j' & Ec' & _ & Hf').
  - intros E. by rewrite E in Ec.
  - done.
  - rewrite app_nil_r, Ec in Ec'. injection Ec' as <- <- <- <-. cbn. by rewrite !drop_drop in Hf'.
Qed.

(** The translation reaches the end. *)
Lemma pos_end J : (1 <= len)%nat -> flow J 0 (drop 1 (g_insn g)) (drop 1 insn') 0 ->
  exists K y, pos K = Some y /\ p_i y = len.
Proof.
  intros Hlen Hf.
  assert (H : forall m k x, pos k = Some x -> (len - p_i x <= m)%nat -> exists K y, pos K = Some y /\ p_i y = len).
  { induction m as [|m IH]; intros k x Hx Hm; pose proof (pos_bound _ _ Hlen Hx) as B.
    - exists k, x. split; [done|lia].
    - destruct (Nat.eq_dec (p_i x) len) as [|Hne]; [eauto|].
      pose proof (pos_flow J k x Hf Hx) as Hfx.
      destruct (flow_chunk J _ _ _ _ [] Hfx) as (n' & d' & c' & j' & Ec' & Hn & _).
      { intros E. apply (f_equal length) in E. rewrite length_drop in E. simpl in E. lia. }
      { done. }
      rewrite app_nil_r in Ec'. apply chunk_len in Ec' as H.
      apply (IH (S k) (mkPl (p_i x + n') d' (p_code x ++ c') (p_fix x ++ fixups (length (p_code x)) j'))).
      + simpl. rewrite Hx. simpl. unfold advance. by rewrite Ec'.
      + simpl. lia. }
  apply (H len 0%nat (mkPl 1 0 [] [])); [done|simpl; lia].
Qed.

(** The depth at index [j], from the stream before it. *)
Definition split_at (j d : nat) : Prop :=
  exists l', (1 <= j <= len)%nat /\ flow (fun _ _ => True) 0 (drop 1 (take j (g_insn g))) l' d.

Lemma pos_split j d : split_at j d -> g_insn g !! j <> Some Op.LI ->
  exists k x, pos k = Some x /\ p_i x = j /\ p_d x = d.
Proof.
  intros (l' & Hj & Hf) Hli.
  assert (H : forall m k x l', pos k = Some x -> (p_i x <= j)%nat -> (j - p_i x <= m)%nat ->
    flow (fun _ _ => True) (p_d x) (drop (p_i x) (take j (g_insn g))) l' d ->
    exists k x, pos k = Some x /\ p_i x = j /\ p_d x = d).
  { induction m as [|m IH]; intros k x q Hx Hle Hm Hq.
    - assert (p_i x = j) as E by lia. exists k, x. split; [done|]. split; [done|].
      rewrite E, drop_ge in Hq by (rewrite length_take; lia). by inversion Hq.
    - destruct (Nat.eq_dec (p_i x) j) as [E|Hne].
      { exists k, x. split; [done|]. split; [done|].
        rewrite E, drop_ge in Hq by (rewrite length_take; lia). by inversion Hq. }
      destruct (flow_chunk _ _ _ _ _ (drop j (g_insn g)) Hq) as (n & d' & c & jj & Ec & Hn & Hf').
      { intros E. apply (f_equal length) in E. rewrite length_drop, length_take in E. simpl in E. lia. }
      { by rewrite head_drop. }
      assert (Ed : drop (p_i x) (take j (g_insn g)) ++ drop j (g_insn g) = drop (p_i x) (g_insn g)).
      { rewrite <- (take_drop j (g_insn g)) at 3. rewrite drop_app_le by (rewrite length_take; lia). done. }
      rewrite Ed in Ec. apply chunk_len in Ec as Hc. rewrite length_drop, length_take in Hn.
      apply (IH (S k) (mkPl (p_i x + n) d' (p_code x ++ c) (p_fix x ++ fixups (length (p_code x)) jj)) (drop n q)).
      + simpl. rewrite Hx. simpl. unfold advance. by rewrite Ec.
      + simpl. lia.
      + simpl. lia.
      + simpl. by rewrite drop_drop in Hf'. }
  apply (H j 0%nat (mkPl 1 0 [] []) l'); [done|simpl; lia|simpl; lia|done].
Qed.

(** ** Resolution of the jumps *)

Definition set_off (off : Z) (i : bpf_insn) : bpf_insn :=
  mkInsn (i_code i) (i_dst i) (i_src i) (s16 off) (i_imm i).

Lemma resolve_ok mp fx : forall code,
  (forall a t, (a, t) ∈ fx -> exists q j v, a = Z.of_nat q /\ (q < length code)%nat /\
     t = Z.of_nat j /\ (j <= len)%nat /\ mp !! j = Some v /\ 0 <= v) ->
  NoDup fx.*1 ->
  exists B, resolve g mp fx code = Some B /\ length B = length code /\
    (forall q, Z.of_nat q ∉ fx.*1 -> B !! q = code !! q) /\
    (forall q j v, (Z.of_nat q, Z.of_nat j) ∈ fx -> mp !! j = Some v ->
       B !! q = set_off (v - Z.of_nat q - 1) <$> code !! q).
Proof.
  induction fx as [|[a t] fx IH]; intros code Hok Hnd.
  - exists code. split_and!; try done. intros q j v H. by apply elem_of_nil in H.
  - destruct (Hok a t) as (q & j & v & -> & Hq & -> & Hj & Hv & Hpos); [left|].
    cbn [resolve]. destruct (Z.ltb_spec (Z.of_nat j) 0); [lia|].
    destruct (Z.ltb_spec (Z.of_nat len) (Z.of_nat j)); [lia|]. cbn [orb].
    rewrite !Nat2Z.id, Hv. destruct (Z.ltb_spec v 0); [lia|].
    fold (set_off (v - Z.of_nat q - 1)). cbn in Hnd. inversion Hnd as [|? ? Hni' Hnd' _E]; subst.
    destruct (IH (alter (set_off (v - Z.of_nat q - 1)) q code)) as (B & E & Hl & B1 & B2).
    { intros a t Hat. destruct (Hok a t) as (q' & j' & v' & ?); [by right|].
      exists q', j', v'. by rewrite length_alter. }
    { done. }
    exists B. split; [exact E|]. rewrite length_alter in Hl. split; [done|].
    split.
    + intros q' Hq'. cbn in Hq'. rewrite not_elem_of_cons in Hq'. destruct Hq' as [Hne Hq'].
      rewrite B1 by done. apply list_lookup_alter_ne. intros ->. done.
    + intros q' j' v' Hin Hv'. apply elem_of_cons in Hin as [[= E1 E2]|Hin].
      * apply Nat2Z.inj in E1, E2. subst. rewrite B1 by done. rewrite list_lookup_alter_eq.
        by rewrite Hv in Hv'; injection Hv' as <-.
      * rewrite (B2 _ j' _ Hin Hv'). rewrite list_lookup_alter_ne; [done|]. intros ->.
        apply Hni'. apply (list_elem_of_fmap_2 fst _ _ Hin).
Qed.

(** The recorded jumps are those of the places before. *)
Lemma fix_inv k : forall y a t, pos k = Some y -> (a, t) ∈ p_fix y ->
  exists k' x n d c, pos k' = Some x /\ (k' < k)%nat /\ a = Z.of_nat (length (p_code x)) /\
    chunk (p_d x) (drop (p_i x) (g_insn g)) = Some (n, d, c, Some t).
Proof.
  induction k as [|k IH]; intros y a t Hy Hin.
  - injection Hy as <-. by apply elem_of_nil in Hin.
  - apply pos_S in Hy as (x & Hx & A). apply advance_inv in A as (n & d & c & j & Ec & -> & _).
    cbn in Hin. apply elem_of_app in Hin as [Hin|Hin].
    + destruct (IH x a t Hx Hin) as (k' & x' & n' & d' & c' & H1 & H2 & H3).
      exists k', x', n', d', c'. split; [done|]. split; [lia|done].
    + destruct j as [t'|]; [|by apply elem_of_nil in Hin]. apply list_elem_of_singleton in Hin.
      injection Hin as -> ->. exists k, x, n, d, c. split_and!; try done; lia.
Qed.

Lemma code_grows k k' x y : pos k = Some x -> pos k' = Some y -> (k < k')%nat ->
  (length (p_code x) < length (p_code y))%nat.
Proof.
  intros Hx Hy Hk. destruct (pos_down _ (S k) _ Hy ltac:(lia)) as (z & Hz). pose proof Hz as Hz'.
  apply pos_S in Hz as (x' & Hx' & A). assert (x' = x) as -> by congruence.
  apply advance_inv in A as (n & d & c & j & _ & -> & _ & _ & Hc).
  pose proof (pos_le (k' - S k) (S k) _ y Hz') as P. replace (S k + (k' - S k))%nat with k' in P by lia.
  destruct (P Hy) as (_ & Hp & _). cbn in Hp. apply prefix_length in Hp. rewrite length_app in Hp. lia.
Qed.

Lemma fix_nodup k : forall y, pos k = Some y -> NoDup (p_fix y).*1.
Proof.
  induction k as [|k IH]; intros y Hy.
  - injection Hy as <-. constructor.
  - pose proof Hy as Hy'. apply pos_S in Hy as (x & Hx & A).
    apply advance_inv in A as (n & d & c & j & Ec & -> & _). cbn. rewrite fmap_app.
    destruct j as [t|]; simpl; [|rewrite app_nil_r; by apply IH].
    apply list.NoDup_app. split_and!.
    + by apply IH.
    + intros a Ha Hs. apply list_elem_of_singleton in Hs as ->.
      apply list_elem_of_fmap in Ha as ([a t'] & Ea & Ha). simpl in Ea. subst a.
      destruct (fix_inv k x _ _ Hx Ha) as (k' & x' & n' & d' & c' & Hx' & Hk & E & _).
      pose proof (code_grows k' k x' x Hx' Hx Hk). lia.
    + apply NoDup_singleton.
Qed.

(** ** The result *)

(** The targets of the jumps are instructions at the same depth; a load is
    none, because it may be folded. *)
Definition target (d : nat) (t : Z) : Prop :=
  exists j, t = g_base g + 8 * Z.of_nat j /\ split_at j d /\ g_insn g !! j <> Some Op.LI.

Lemma chunk_jump J d l l' d2 n d' c t : flow J d l l' d2 -> chunk d l = Some (n, d', c, Some t) ->
  exists op w q, l = op :: w :: q /\ is_jump op = true /\ J d w /\ t = s32 ((w - g_base g) / 8) /\
    c = [jump_code op] /\ n = 2%nat /\ d' = d.
Proof.
  intros Hf. destruct Hf as [d|d w w' l l' d2 Hi Hf|d w a l l' d2 Ht Hf|d w a l l' d2 Ht Hs Hf
    |d l l' d2 Hs Hf|d op w l l' d2 Hj HJ Hf|d op l l' d2 Hb Hs Hf|d l l' d2 Hf]; cbn [chunk].
  - done.
  - cbn. repeat case_match; intros; congruence.
  - cbn. repeat case_match; intros; congruence.
  - cbn -[Nat.ltb]. repeat case_match; intros; congruence.
  - cbn -[Nat.ltb]. repeat case_match; intros; congruence.
  - intros Hc. assert (chunk d (op :: w :: l) = Some (2%nat, d, [jump_code op], Some (s32 ((w - g_base g) / 8)))) as E.
    { apply jump_cases in Hj as [->|[->| ->]]; reflexivity. }
    cbn [chunk] in E. rewrite E in Hc. injection Hc as <- <- <- <-. by exists op, w, l.
  - apply bin_ok_binop in Hb as Ho.
    unfold Op.LTu, Op.MODu in Ho. unfold is_jump, Op.IMM, Op.LI, Op.PSH, Op.BZ, Op.BNZ, Op.JMP, Op.EXIT.
    op_dec. cbn [orb]. rewrite Hb. case_match; intros; congruence.
  - cbn. intros; congruence.
Qed.

(** The program [B] has the code of the instruction at place [x]; a jump is
    resolved to the place of its target. *)
Definition linked (B : list bpf_insn) (x : place) : Prop :=
  forall n d c j, chunk (p_d x) (drop (p_i x) (g_insn g)) = Some (n, d, c, j) ->
  match j with
  | None => forall q i, c !! q = Some i -> B !! (length (p_code x) + q)%nat = Some i
  | Some _ => exists op w k y, g_insn g !! S (p_i x) = Some w /\ c = [jump_code op] /\
      g_insn g !! p_i x = Some op /\
      w = g_base g + 8 * Z.of_nat (p_i y) /\ pos k = Some y /\ p_d y = p_d x /\
      in_s 16 (Z.of_nat (length (p_code y)) - Z.of_nat (length (p_code x)) - 1) /\
      B !! length (p_code x) =
        Some (set_off (Z.of_nat (length (p_code y)) - Z.of_nat (length (p_code x)) - 1) (jump_code op))
  end.

Lemma target_place d t : (1 <= len <= 4096)%nat -> target d t -> exists k y,
  pos k = Some y /\ p_d y = d /\ t = g_base g + 8 * Z.of_nat (p_i y) /\ s32 ((t - g_base g) / 8) = Z.of_nat (p_i y).
Proof.
  intros Hlen (j & -> & Hs & Hli). destruct (pos_split j d Hs Hli) as (k & y & Hy & Ei & Ed).
  exists k, y. rewrite Ei. split_and!; try done.
  replace (g_base g + 8 * Z.of_nat j - g_base g) with (Z.of_nat j * 8) by lia.
  rewrite Z.div_mul by lia. apply swrap_small; [lia|]. pose proof (pos_bound _ _ (proj1 Hlen) Hy) as B.
  unfold in_s. lia.
Qed.

Lemma translate_ok : (1 <= len <= 4096)%nat ->
  flow target 0 (drop 1 (g_insn g)) (drop 1 insn') 0 ->
  forallb (field_ok g) (g_symtab g) = true ->
  exists B, expr_to_bpf sf v4 g = Ok (inl B) /\ forall k x, pos k = Some x -> linked B x.
Proof.
  intros Hlen Hf Hsym. destruct (pos_end target (proj1 Hlen) Hf) as (K & y & Hy & Ey).
  unfold expr_to_bpf. rewrite Hsym. cbn [negb].
  pose proof (pos_bound _ _ (proj1 Hlen) Hy) as By.
  pose proof (pos_le K 0 (mkPl 1 0 [] []) y eq_refl Hy) as (HK & _). cbn [p_i] in HK.
  pose proof (tr_loop_ok K y (proj1 Hlen) Hy Ey K 0 (mkPl 1 0 [] []) len eq_refl eq_refl ltac:(lia)) as E.
  change (emit_at 0 (mkPl 1 0 [] [])) with (bpf_emit0 g) in E. cbn [p_i] in E. rewrite E.
  cbn [b_err emit_at b_map b_fix b_insn]. change (nr_insn (emit_at K y)) with (Z.of_nat (length (p_code y))).
  set (mp := <[len := Z.of_nat (length (p_code y))]> (pmap K)).
  assert (Hmp : forall k x, pos k = Some x -> mp !! p_i x = Some (Z.of_nat (length (p_code x)))).
  { intros k x Hx. unfold mp. destruct (Nat.eq_dec (p_i x) len) as [E1|Hne].
    - destruct (pos_uniq k K x y Hx Hy ltac:(lia)) as [-> ->]. rewrite Ey.
      apply list_lookup_insert_eq. rewrite pmap_length. lia.
    - rewrite list_lookup_insert_ne by lia. apply (pmap_place k K x y (proj1 Hlen) Hx Hy).
      destruct (Nat.le_gt_cases K k) as [H|H]; [|done].
      pose proof (pos_le (k - K) K y x Hy) as P. replace (K + (k - K))%nat with k in P by lia.
      destruct (P Hx). pose proof (pos_bound _ _ (proj1 Hlen) Hx). lia. }
  (* the fixup of a jump *)
  assert (Hfx : forall k x n d c t, pos k = Some x ->
    chunk (p_d x) (drop (p_i x) (g_insn g)) = Some (n, d, c, Some t) ->
    exists op w q k' z, drop (p_i x) (g_insn g) = op :: w :: q /\ is_jump op = true /\ c = [jump_code op] /\
      pos k' = Some z /\ p_d z = p_d x /\ w = g_base g + 8 * Z.of_nat (p_i z) /\ t = Z.of_nat (p_i z)).
  { intros k x n d c t Hx Ec. pose proof (pos_flow target k x Hf Hx) as Hfl.
    destruct (chunk_jump _ _ _ _ _ _ _ _ _ Hfl Ec) as (op & w & q & El & Hj & HJ & -> & -> & _).
    destruct (target_place _ _ Hlen HJ) as (k' & z & Hz & Ed & Ew & Et).
    exists op, w, q, k', z. split_and!; done. }
  destruct (resolve_ok mp (p_fix y) (p_code y)) as (B & EB & HlB & B1 & B2).
  { intros a t Hat. destruct (fix_inv K y a t Hy Hat) as (k & x & n & d & c & Hx & Hk & -> & Ec).
    destruct (Hfx k x n d c t Hx Ec) as (op & w & q & k' & z & _ & _ & _ & Hz & _ & _ & ->).
    pose proof (pos_bound _ _ (proj1 Hlen) Hz). pose proof (code_grows k K x y Hx Hy Hk).
    exists (length (p_code x)), (p_i z), (Z.of_nat (length (p_code z))). split_and!; try done; try lia.
    by apply (Hmp k'). }
  { by apply (fix_nodup K). }
  rewrite EB. exists (pad B). split; [done|].
  assert (Hpad : forall q i, B !! q = Some i -> pad B !! q = Some i).
  { intros q i Hq. unfold pad. by apply lookup_app_l_Some. }
  intros k x Hx n d c j Ec.
  (* the chunk is in the code *)
  assert (HA : advance x = Some (mkPl (p_i x + n) d (p_code x ++ c) (p_fix x ++ fixups (length (p_code x)) j)))
    by (unfold advance; by rewrite Ec).
  assert (HS : pos (S k) = Some (mkPl (p_i x + n) d (p_code x ++ c) (p_fix x ++ fixups (length (p_code x)) j)))
    by (simpl; by rewrite Hx).
  pose proof (pos_bound _ _ (proj1 Hlen) HS) as BS. cbn in BS.
  destruct (pos_prefix (S k) K _ y HS Hy) as [[c2 Hp] Hpf]; [cbn; lia|]. cbn in Hp, Hpf.
  assert (Hcode : forall q i, c !! q = Some i -> p_code y !! (length (p_code x) + q)%nat = Some i).
  { intros q i Hq. rewrite Hp, <- app_assoc, lookup_app_r by lia.
    replace (length (p_code x) + q - length (p_code x))%nat with q by lia. by apply lookup_app_l_Some. }
  destruct j as [t|].
  - destruct (Hfx k x n d c t Hx Ec) as (op & w & q & k' & z & El & _ & -> & Hz & Ed & Ew & ->).
    exists op, w, k', z.
    assert (Hd : forall s, g_insn g !! (p_i x + s)%nat = (op :: w :: q) !! s)
      by (intros s0; by rewrite <- El, lookup_drop).
    split_and!; try done.
    + specialize (Hd 1%nat). by rewrite Nat.add_1_r in Hd.
    + specialize (Hd 0%nat). by rewrite Nat.add_0_r in Hd.
    + pose proof (pos_bound _ _ (proj1 Hlen) Hz). pose proof (pos_bound _ _ (proj1 Hlen) Hx).
      unfold in_s. change (2 ^ (16 - 1)) with 32768. lia.
    + apply Hpad. rewrite (B2 _ (p_i z) (Z.of_nat (length (p_code z)))); [|destruct Hpf as [fx ->]|by apply (Hmp k')].
      * specialize (Hcode 0%nat (jump_code op) eq_refl). rewrite Nat.add_0_r in Hcode. by rewrite Hcode.
      * rewrite !elem_of_app. left. right. by apply list_elem_of_singleton.
  - intros q i Hq. apply Hpad. rewrite B1; [by apply Hcode|].
    intros Hin. apply list_elem_of_fmap in Hin as ([a t] & Ea & Hin). simpl in Ea. subst a.
    destruct (fix_inv K y _ t Hy Hin) as (k2 & x2 & n2 & d2 & c2' & Hx2 & Hk2 & E2 & Ec2).
    apply Nat2Z.inj in E2. apply lookup_lt_Some in Hq.
    destruct (Nat.lt_trichotomy k k2) as [H|[H|H]].
    + destruct (pos_prefix (S k) k2 _ x2 HS Hx2) as [P2 _].
      { pose proof (pos_le (k2 - S k) (S k) _ x2 HS) as P. replace (S k + (k2 - S k))%nat with k2 in P by lia.
        destruct (P Hx2). lia. }
      cbn in P2. apply prefix_length in P2. rewrite length_app in P2. lia.
    + subst. assert (x2 = x) as -> by congruence. congruence.
    + pose proof (code_grows k2 k x2 x Hx2 Hx H). lia.
Qed.
End Flow.
End Chunk.
