(* ===== verification/BpfSim.v ===== *)
(** * BpfSim: the emitted code simulates the virtual machine

    Each instruction of the virtual machine of src/src/expr.c is simulated by
    the BPF code the backend emits for it, on every machine with the documented
    instructions: the accumulator is in r0, the stack words are in the slot
    registers and the event pointer stays in r1. *)

From S2P Require Import Prelude ExprLex ExprComp ExprProg ExprVM ExprSpec ExprRunProof.
From S2P Require Import Bpf BpfIsa BpfArith BpfProof.

Section Code.
Context `{BpfMachine} (B : list bpf_insn).

(** The instructions [c] are at [pc]. *)
Definition at_code (pc : nat) (c : list bpf_insn) : Prop :=
  forall q i, c !! q = Some i -> B !! (pc + q)%nat = Some i.

Lemma at_code_cons pc i c : at_code pc (i :: c) -> B !! pc = Some i /\ at_code (S pc) c.
Proof.
  intros H0. split; [specialize (H0 0%nat i eq_refl); by rewrite Nat.add_0_r in H0|].
  intros q j Hq. specialize (H0 (S q) j Hq). by rewrite Nat.add_succ_r in H0.
Qed.

(** The machine goes from one state to another. *)
Definition bgoes (b b' : bstate) : Prop :=
  exists n, forall m, bpf_run (n + m) B b = bpf_run m B b'.

Lemma bgoes_refl b : bgoes b b.
Proof. by exists 0%nat. Qed.
Lemma bgoes_trans b1 b2 b3 : bgoes b1 b2 -> bgoes b2 b3 -> bgoes b1 b3.
Proof.
  intros [n E] [n' E']. exists (n + n')%nat. intros m. by rewrite <- Nat.add_assoc, E, E'.
Qed.
Lemma bgoes_isa b b' : isa B b (inl b') -> bgoes b b'.
Proof. intros I. exists 1%nat. intros m. cbn. by rewrite (bpf_step_isa _ _ _ I). Qed.
Lemma bgoes_step b b1 b2 : isa B b (inl b1) -> bgoes b1 b2 -> bgoes b b2.
Proof. intros I G. eapply bgoes_trans; [by apply bgoes_isa | done]. Qed.

Lemma size_code_ok n : (n = 1 \/ n = 2 \/ n = 4 \/ n = 8)%nat ->
  size_code n ∈ sizes /\ size_bytes (size_code n) = n /\
  (n <> 8%nat -> size_code n ∈ [BPF_B; BPF_H; BPF_W]).
Proof.
  intros [->|[->|[->| ->]]]; split_and!; try done; intros;
    try (apply list_elem_of_In; simpl; tauto); done.
Qed.

(** The code of a load leaves the extended value in r0. *)
Lemma load_goes v4 pc regs m n sg src off base v :
  (n = 1 \/ n = 2 \/ n = 4 \/ n = 8)%nat -> in_s 16 off ->
  at_code pc (load_code v4 n sg src off) -> regs !! src = Some base ->
  load m (s64 (base + off)) n = Some v ->
  bgoes (mkB pc regs m)
    (mkB (pc + length (load_code v4 n sg src off)) (<[0 := u64 (extend n sg v)]> regs) m).
Proof.
  intros Hn Ho Hc Hr Hv. destruct (size_code_ok n Hn) as (Hs & Hb & Hs').
  unfold load_code in *. destruct (negb sg || (n =? 8)%nat) eqn:E.
  - apply at_code_cons in Hc as [Hc _]. eapply bgoes_step; [|cbn; rewrite Nat.add_1_r; apply bgoes_refl].
    assert (u64 (extend n sg v) = uwrap (8 * Z.of_nat n) v) as ->.
    { destruct sg; [|apply extend_unsigned; lia]. simpl in E. apply Nat.eqb_eq in E as ->.
      unfold extend. by rewrite u64_s64. }
    pose proof (isa_ldx B (mkB pc regs m) (size_code n) 0 src off base v Hs Ho Hc Hr) as I.
    rewrite Hb in I. apply I. done.
  - apply orb_false_iff in E as [Esg En]. destruct sg; [|done]. apply Nat.eqb_neq in En.
    destruct v4.
    + apply at_code_cons in Hc as [Hc _]. eapply bgoes_step; [|cbn; rewrite Nat.add_1_r; apply bgoes_refl].
      pose proof (isa_ldx_sx B (mkB pc regs m) (size_code n) 0 src off base v (Hs' En) Ho Hc Hr) as I.
      rewrite Hb in I. apply I. done.
    + apply at_code_cons in Hc as [Hc1 Hc]. apply at_code_cons in Hc as [Hc2 Hc].
      apply at_code_cons in Hc as [Hc3 _].
      pose proof (isa_ldx B (mkB pc regs m) (size_code n) 0 src off base v Hs Ho Hc1 Hr) as I.
      rewrite Hb in I. eapply bgoes_step; [by apply I|]. unfold write_reg. cbn [r_pc r_reg r_mem].
      assert (Hi : in_s 32 (64 - 8 * Z.of_nat n)) by (unfold in_s; lia).
      eapply bgoes_step; [eapply (isa_alu_imm _ _ BPF_LSH 0 _ _); [|exact Hi|exact Hc2|apply lookup_insert_eq];
        apply list_elem_of_In; simpl; tauto|].
      unfold write_reg. cbn [r_pc r_reg r_mem]. rewrite insert_insert_eq.
      eapply bgoes_step; [eapply (isa_alu_imm _ _ BPF_ARSH 0 _ _); [|exact Hi|exact Hc3|apply lookup_insert_eq];
        apply list_elem_of_In; simpl; tauto|].
      unfold write_reg. cbn [r_pc r_reg r_mem]. rewrite insert_insert_eq, shift_extend by lia.
      replace (S (S (S pc))) with (pc + 3)%nat by lia. apply bgoes_refl.
Qed.

(** The code of a constant. *)
Lemma imm_goes pc regs m v : in_s 64 v -> at_code pc (imm_code v) ->
  bgoes (mkB pc regs m) (mkB (pc + length (imm_code v)) (<[0 := u64 v]> regs) m).
Proof.
  intros Hv Hc. unfold imm_code in *. destruct (Z.eqb_spec v (s32 v)) as [E|N].
  - apply at_code_cons in Hc as [Hc _]. replace (u64 v) with (u64 (s32 v)) by (by rewrite <- E). cbn. rewrite Nat.add_1_r. apply bgoes_isa.
    apply (isa_mov_imm B (mkB pc regs m) 0 (s32 v)); [apply swrap_range; lia|done].
  - apply at_code_cons in Hc as [Hc1 Hc]. apply at_code_cons in Hc as [Hc2 _].
    cbn [length]. apply bgoes_isa.
    pose proof (isa_ld_imm64 B (mkB pc regs m) 0 (u32 v) (u32 (Z.shiftr (u64 v) 32))
      (uwrap_range 32 ltac:(lia) _) (uwrap_range 32 ltac:(lia) _) Hc1 Hc2) as I.
    cbn [r_pc r_reg r_mem] in I. replace (pc + 2)%nat with (S (S pc)) by lia.
    assert (u64 v = u32 v + 2 ^ 32 * u32 (Z.shiftr (u64 v) 32)) as ->; [|done].
    pose proof (uwrap_range 64 ltac:(lia) v) as Hr. unfold in_u in Hr.
    rewrite Z.shiftr_div_pow2 by lia.
    rewrite (uwrap_small 32 ltac:(lia) (u64 v / _)).
    + unfold uwrap at 2. rewrite <- (Z.mod_mod_divide v (2 ^ 64) (2 ^ 32)).
      * pose proof (Z.div_mod (u64 v) (2 ^ 32)). unfold uwrap in *. lia.
      * exists (2 ^ 32). done.
    + unfold in_u. split; [apply Z.div_pos; lia|]. apply Z.div_lt_upper_bound; lia.
Qed.
(** The jumps within the code of a comparison. *)
Lemma cmp_goes pc regs m o lhs x a : o ∈ jmp_ops -> at_code pc (cmp_code o lhs) ->
  regs !! lhs = Some x -> regs !! 0 = Some a ->
  bgoes (mkB pc regs m) (mkB (pc + 4) (<[0 := u64 (b2z (bpf_cond o x a))]> regs) m).
Proof.
  intros Ho Hc Hx Ha. unfold cmp_code in Hc.
  apply at_code_cons in Hc as [Hc1 Hc]. apply at_code_cons in Hc as [Hc2 Hc].
  apply at_code_cons in Hc as [Hc3 Hc]. apply at_code_cons in Hc as [Hc4 _].
  assert (H16 : in_s 16 2 /\ in_s 16 1) by (unfold in_s; lia). destruct H16 as [H2 H1].
  eapply bgoes_step; [by eapply (isa_jmp_reg _ _ o lhs 0 2 x a)|]. unfold jump_to. cbn [r_pc r_reg r_mem].
  destruct (bpf_cond o x a).
  - replace (Z.to_nat (Z.of_nat pc + 1 + 2)) with (S (S (S pc))) by lia.
    replace (pc + 4)%nat with (S (S (S (S pc)))) by lia. apply bgoes_isa.
    apply (isa_mov_imm B (mkB (S (S (S pc))) regs m) 0 1); [unfold in_s; lia|done].
  - replace (Z.to_nat (Z.of_nat pc + 1 + 0)) with (S pc) by lia.
    eapply bgoes_step; [apply (isa_mov_imm B (mkB (S pc) regs m) 0 0); [unfold in_s; lia|done]|].
    unfold write_reg. cbn [r_pc r_reg r_mem].
    eapply bgoes_step; [by eapply (isa_ja _ _ 1)|]. unfold jump_to. cbn [r_pc r_reg r_mem].
    replace (Z.to_nat (Z.of_nat (S (S pc)) + 1 + 1)) with (pc + 4)%nat by lia. apply bgoes_refl.
Qed.

(** The code of a binary operator. *)
Lemma bin_goes v4 pc regs m op lhs x a v : bin_ok v4 op = true -> lhs <> 0 ->
  at_code pc (bin_code op lhs) -> regs !! lhs = Some (u64 x) -> regs !! 0 = Some (u64 a) ->
  in_s 64 x -> in_s 64 a -> alu op x a = Ok v ->
  in_s 64 v /\ exists regs', bgoes (mkB pc regs m) (mkB (pc + length (bin_code op lhs)) regs' m) /\
    regs' !! 0 = Some (u64 v) /\ forall r, r <> 0 -> r <> lhs -> regs' !! r = regs !! r.
Proof.
  intros Hok Hl Hc Hx Ha Rx Ra Hv. unfold bin_code in *.
  (* an operation into the slot, then the move to the accumulator *)
  assert (Hcommit : forall i y, at_code pc [i; BPF_MOV64_REG 0 lhs] -> y = u64 v ->
    isa B (mkB pc regs m) (inl (write_reg lhs y (mkB pc regs m))) ->
    exists regs', bgoes (mkB pc regs m) (mkB (pc + 2) regs' m) /\
      regs' !! 0 = Some (u64 v) /\ forall r, r <> 0 -> r <> lhs -> regs' !! r = regs !! r).
  { intros i y Hc2 -> Hi. apply at_code_cons in Hc2 as [_ Hc2]. apply at_code_cons in Hc2 as [Hc2 _].
    eexists. split; [eapply bgoes_step; [exact Hi|]|].
    - unfold write_reg. cbn [r_pc r_reg r_mem]. replace (pc + 2)%nat with (S (S pc)) by lia. apply bgoes_isa.
      eapply (isa_mov_reg B (mkB (S pc) _ m) 0 lhs); [exact Hc2|apply lookup_insert_eq].
    - cbn [r_reg]. split; [apply lookup_insert_eq|]. intros r H1 H2. by rewrite !lookup_insert_ne by done. }
  destruct (alu_op op) as [o|] eqn:Eo.
  - destruct (alu_sim op o x a v Rx Ra Eo Hv) as (Ho & Ev & Rv). split; [done|].
    eapply Hcommit; [exact Hc|exact Ev|]. apply at_code_cons in Hc as [Hc _].
    by eapply (isa_alu_reg B (mkB pc regs m)).
  - destruct (cmp_op op) as [o|] eqn:Ec.
    + destruct (cmp_sim op o x a v Rx Ra Ec Hv) as (Ho & ->). split; [apply in_s64_b2z|].
      eexists. split; [by apply (cmp_goes pc regs m o lhs)|]. split; [apply lookup_insert_eq|].
      intros r H1 _. by rewrite lookup_insert_ne.
    + assert (op = Op.DIV \/ op = Op.MOD) as [-> | ->].
      { apply bin_ok_binop in Hok. unfold alu_op, cmp_op in Eo, Ec.
        repeat match goal with H : (if ?b then _ else _) = None |- _ => destruct b eqn:?; [done|] end.
        unfold Op.LTu, Op.GTu, Op.LEu, Op.GEu, Op.OR, Op.XOR, Op.AND, Op.EQ, Op.NE, Op.LT, Op.GT, Op.LE,
          Op.GE, Op.SHL, Op.SHR, Op.SAR, Op.ADD, Op.SUB, Op.MUL, Op.DIV, Op.MOD, Op.DIVu, Op.MODu in *. lia. }
      * destruct (div_sim x a v Rx Ra Hv) as [Ev Rv]. split; [done|].
        eapply Hcommit; [exact Hc|exact Ev|]. apply at_code_cons in Hc as [Hc _].
        by eapply (isa_sdiv B (mkB pc regs m)).
      * destruct (mod_sim x a v Rx Ra Hv) as [Ev Rv]. split; [done|].
        eapply Hcommit; [exact Hc|exact Ev|]. apply at_code_cons in Hc as [Hc _].
        by eapply (isa_smod B (mkB pc regs m)).
Qed.
End Code.

(** ** Steps of the virtual machine that return *)

Section Vm.
Context (L : syslib) (stk_base : Z) (g : prog).

Lemma vm_goes n s i σ a m i' σ' a' m' r :
  goes L stk_base g 1 i σ a m i' σ' a' m' -> conf g s i σ a m -> run L stk_base (S n) g s = Ok r ->
  exists s', conf g s' i' σ' a' m' /\ run L stk_base n g s' = Ok r.
Proof.
  intros G C E. destruct (G s C) as (s' & R & C'). exists s'. split; [done|].
  specialize (R n). simpl in R. by rewrite <- R.
Qed.

Lemma vm_li n s i σ a m t r : code_at g i [Op.LI; t] -> conf g s i σ a m ->
  vm_access t <> None -> run L stk_base (S n) g s = Ok r ->
  exists v s', load_ty m a t = Some v /\ conf g s' (i + 2) σ v m /\ run L stk_base n g s' = Ok r.
Proof.
  intros Hc C Ht E. destruct (load_ty m a t) as [v|] eqn:El.
  - destruct (vm_goes n s i σ a m (i + 2) σ v m r) as (s' & C' & E'); try done; [by eapply go_li|].
    by exists v, s'.
  - cbn [run] in E. rewrite (step_operand L stk_base g i σ a m Op.LI t s C Hc) in E by done.
    unfold operand_op in E. cbn in E. unfold load_int in E. cbn in E.
    destruct C as [_ _ _ _ Ha Hm]. rewrite Ha, Hm in E. unfold load_ty in El.
    destruct (vm_access t) as [[k sg]|]; [|done]. by destruct (load m a k).
Qed.

Lemma vm_si n s i σ a m t r : code_at g i [Op.SI; t] -> conf g s i σ a m ->
  vm_access t <> None -> run L stk_base (S n) g s = Ok r -> σ <> [] ->
  exists x σ' m' s', σ = x :: σ' /\ store_ty m x t a = Some m' /\ conf g s' (i + 2) σ' a m' /\
    run L stk_base n g s' = Ok r.
Proof.
  intros Hc C Ht E Hn. destruct σ as [|x σ]; [done|]. destruct (store_ty m x t a) as [m'|] eqn:El.
  - destruct (vm_goes n s i (x :: σ) a m (i + 2) σ a m' r) as (s' & C' & E'); try done; [by eapply go_si|].
    by exists x, σ, m', s'.
  - cbn [run] in E. rewrite (step_operand L stk_base g i _ a m Op.SI t s C Hc) in E by done.
    unfold operand_op in E. cbn in E. unfold store_int in E. unfold store_ty in El.
    destruct (vm_access t) as [[k sg]|]; [|done].
    destruct (pop_ok g (set_pc (pc_of g (S i) + 8) (set_pc (pc_of g (S i)) s)) (i + 2) x σ a m)
      as (s' & Ep & [_ _ _ _ Ha Hm]).
    { destruct C. constructor; simpl; try done. rewrite pc_succ. f_equal. lia. }
    cbn in Ep, E. rewrite Ep, Hm, Ha, El in E. done.
Qed.

Lemma vm_alu n s i σ a m op r : code_at g i [op] -> conf g s i σ a m -> is_alu op = true ->
  run L stk_base (S n) g s = Ok r -> σ <> [] ->
  exists x σ' v s', σ = x :: σ' /\ alu op x a = Ok v /\ conf g s' (i + 1) σ' v m /\
    run L stk_base n g s' = Ok r.
Proof.
  intros Hc C Ho E Hn. destruct σ as [|x σ]; [done|]. destruct (alu op x a) as [v|] eqn:El.
  - destruct (vm_goes n s i (x :: σ) a m (i + 1) σ v m r) as (s' & C' & E'); try done; [by eapply go_alu|].
    by exists x, σ, v, s'.
  - cbn [run] in E. assert (Op.LTu <= op <= Op.MODu) as Hop by (unfold is_alu in Ho; lia).
    rewrite (step_plain L stk_base g i _ a m op s C Hc) in E by (unfold Op.SI, Op.LTu in *; lia).
    cbv zeta in E. destruct (Z.eqb_spec op Op.LEV); [unfold Op.LEV, Op.LTu in *; lia|].
    destruct (Z.eqb_spec op Op.PSH); [unfold Op.PSH, Op.LTu in *; lia|]. rewrite Ho in E.
    destruct (pop_ok g _ (S i) x σ a m (conf_set_pc g s i (S i) _ a m C)) as (s' & Ep & C').
    rewrite Ep in E. destruct C' as [_ _ _ _ Ha _]. rewrite Ha, El in E. done.
Qed.
End Vm.

(** ** The simulation *)

Section Sim.
Context `{BpfMachine} (L : syslib) (stk_base sf : Z) (v4 : bool).
(** [g] is the program the backend translates; [g'] has the same code with the
    variables at the event. *)
Context (g g' : prog) (data event : Z) (B : list bpf_insn).
Context (Hsf : 2 <= sf <= 9) (Hdata : g_data g = Some data).
Context (Hdlen : g_datalen g <= 32768).
Context (Hbase : g_base g' = g_base g).
Abbreviation delta := (event - data).
Abbreviation insn' := (g_insn g').
Context (Hlen : (1 <= length (g_insn g) <= 4096)%nat).
Context (Hflow : flow sf v4 g delta (target sf v4 g delta) 0 (drop 1 (g_insn g)) (drop 1 insn') 0).
Context (Hlink : forall k x, pos sf v4 g k = Some x -> linked sf v4 g B x).

(** The registers hold the event pointer, the accumulator (once it is set) and
    the stack. *)
Record regs_ok (first : bool) (regs : gmap Z Z) (σ : list Z) (a : Z) : Prop := {
  ro_event : regs !! 1 = Some (u64 event);
  ro_acc : first = true \/ regs !! 0 = Some (u64 a);
  ro_stack : forall q v, rev σ !! q = Some v -> regs !! (sf + Z.of_nat q) = Some (u64 v);
  ro_a : in_s 64 a;
  ro_vals : Forall (in_s 64) σ
}.

(** The states of the two machines at a place. *)
Record rel (x : place) (s : vm) (b : bstate) (σ : list Z) (a : Z) (m : mem) : Prop := {
  re_conf : conf g' s (p_i x) σ a m;
  re_depth : length σ = p_d x;
  re_pc : r_pc b = length (p_code x);
  re_mem : r_mem b = m;
  re_regs : regs_ok (bool_decide (p_i x = 1%nat)) (r_reg b) σ a
}.

(** Writing the accumulator. *)
Lemma regs_acc first regs σ a v : regs_ok first regs σ a -> in_s 64 v ->
  forall first', regs_ok first' (<[0 := u64 v]> regs) σ v.
Proof.
  intros [H1 H2 H3 H4 H5] Hv first'. constructor; try done.
  - by rewrite lookup_insert_ne.
  - right. apply lookup_insert_eq.
  - intros q w Hq. rewrite lookup_insert_ne by lia. by apply H3.
Qed.

Lemma in_data_off w : in_data g w = true ->
  in_s 16 (data_off g w) /\ data_off g w = w - data /\ 0 <= data_off g w.
Proof.
  unfold in_data, data_off. rewrite Hdata. intros E.
  assert (0 <= w - data < 32768) as Hw by lia.
  rewrite swrap_small by (unfold in_s; lia). unfold in_s. change (2 ^ (16 - 1)) with 32768. lia.
Qed.

(** The value of an access in the range of a long. *)
Lemma load_ty_inv m a t v : load_ty m a t = Some v -> exists n sg u,
  vm_access t = Some (n, sg) /\ (n = 1 \/ n = 2 \/ n = 4 \/ n = 8)%nat /\
  load m a n = Some u /\ v = extend n sg u /\ in_s 64 v.
Proof.
  unfold load_ty. destruct (vm_access t) as [[n sg]|] eqn:E; [|done].
  destruct (load m a n) as [u|] eqn:El; [|done]. intros [= <-]. exists n, sg, u.
  pose proof (vm_access_size _ _ _ E) as Hn. split_and!; try done. apply extend_range. lia.
Qed.

(** The next place, and the code of the instruction at a place. *)
Lemma place_next k x n d c j : pos sf v4 g k = Some x ->
  chunk sf v4 g (p_d x) (drop (p_i x) (g_insn g)) = Some (n, d, c, j) ->
  pos sf v4 g (S k) = Some (mkPl (p_i x + n) d (p_code x ++ c) (p_fix x ++ fixups (length (p_code x)) j)).
Proof. intros Hx Ec. simpl. rewrite Hx. simpl. unfold advance. by rewrite Ec. Qed.

(** The simulated instruction leads to the next place. *)
Definition simulated (k : nat) (x : place) (s : vm) (b : bstate) (n : nat) (r : Z * mem) : Prop :=
  (exists k' y s' b' σ a m n', pos sf v4 g k' = Some y /\ bgoes B b b' /\ rel y s' b' σ a m /\
     (n' < n)%nat /\ run L stk_base n' g' s' = Ok r) \/
  (exists b' v, bgoes B b b' /\ isa B b' (inr (u64 (fst r), snd r)) /\ v = fst r).
Context (k : nat) (x : place) (s : vm) (b : bstate) (σ : list Z) (a : Z) (m : mem) (r : Z * mem).
Context (Hx : pos sf v4 g k = Some x) (Hr : rel x s b σ a m).

Abbreviation here := (p_i x).
Abbreviation pc := (length (p_code x)).

Lemma code_here l : drop here insn' = l -> forall ws q, l = ws ++ q -> code_at g' here ws.
Proof.
  intros Hl ws q ->. intros j w Hj. rewrite <- lookup_drop, Hl. by apply lookup_app_l_Some.
Qed.

Lemma at_here nn d c : chunk sf v4 g (p_d x) (drop here (g_insn g)) = Some (nn, d, c, None) ->
  at_code B pc c.
Proof. intros Ec. exact (Hlink k x Hx nn d c None Ec). Qed.

(** From the states at the next place. *)
Lemma sim_next n nn d c j s' b' σ' a' m' n' :
  chunk sf v4 g (p_d x) (drop here (g_insn g)) = Some (nn, d, c, j) ->
  bgoes B b b' -> conf g' s' (here + nn) σ' a' m' -> length σ' = d ->
  r_pc b' = (pc + length c)%nat -> r_mem b' = m' -> regs_ok false (r_reg b') σ' a' ->
  run L stk_base n' g' s' = Ok r -> (n' <= n)%nat -> simulated k x s b (S n) r.
Proof.
  intros Ec Hb C Hd Hpc Hm Ho E Hn. left.
  exists (S k), (mkPl (here + nn) d (p_code x ++ c) (p_fix x ++ fixups pc j)), s', b', σ', a', m', n'.
  split; [by eapply place_next|]. split; [done|]. split; [|split; [lia|done]].
  pose proof (chunk_len _ _ _ _ _ _ _ _ _ Ec) as Hl. pose proof (pos_bound _ _ _ k x (proj1 Hlen) Hx) as Bx.
  constructor; cbn; try done; [by rewrite length_app|].
  rewrite bool_decide_eq_false_2 by lia. done.
Qed.

Context (n : nat) (Hrun : run L stk_base (S n) g' s = Ok r).

Lemma sim_const w l l' : drop here (g_insn g) = Op.IMM :: w :: l -> drop here insn' = Op.IMM :: w :: l' ->
  in_data g w = false -> in_str g w = false -> in_s 64 w -> simulated k x s b (S n) r.
Proof.
  intros El El' Ed Es Hw. assert (Ec : chunk sf v4 g (p_d x) (drop here (g_insn g))
    = Some (2%nat, p_d x, imm_code w, None)) by (rewrite El; cbn; by rewrite Ed, Es).
  destruct Hr as [C Hd Hpc Hm Ho].
  destruct (vm_goes L stk_base g' n s _ _ _ _ _ _ _ _ r (go_imm L stk_base g' here σ a m w
    (code_here _ El' [Op.IMM; w] l' eq_refl)) C Hrun) as (s' & C' & E').
  eapply (sim_next _ _ _ _ _ s' (mkB (pc + length (imm_code w)) (<[0 := u64 w]> (r_reg b)) m)); try done.
  - destruct b as [bp br bm]. cbn in Hpc, Hm. subst. apply imm_goes; [done|]. by eapply at_here.
  - by eapply regs_acc.
Qed.

Lemma sim_addr w w' l l' : drop here (g_insn g) = Op.IMM :: w :: l -> drop here insn' = Op.IMM :: w' :: l' ->
  in_data g w = true -> w' = w + delta -> in_s 64 w' ->
  chunk sf v4 g (p_d x) (drop here (g_insn g))
    = Some (2%nat, p_d x, [BPF_MOV64_REG 0 1; BPF_ALU64_IMM BPF_ADD 0 (data_off g w)], None) ->
  simulated k x s b (S n) r.
Proof.
  intros El El' Ed Ew Hw Ec. destruct Hr as [C Hd Hpc Hm Ho]. destruct (in_data_off w Ed) as (H16 & Eo & H0).
  destruct (vm_goes L stk_base g' n s _ _ _ _ _ _ _ _ r (go_imm L stk_base g' here σ a m w'
    (code_here _ El' [Op.IMM; w'] l' eq_refl)) C Hrun) as (s' & C' & E').
  eapply (sim_next _ _ _ _ _ s' (mkB (pc + 2) (<[0 := u64 w']> (r_reg b)) m)); try done.
  - pose proof (at_here _ _ _ Ec) as Hc. apply at_code_cons in Hc as [Hc1 Hc]. apply at_code_cons in Hc as [Hc2 _].
    destruct b as [bp br bm]. cbn in Hpc, Hm, Ho. subst bp bm.
    eapply bgoes_step; [eapply (isa_mov_reg _ _ 0 1); [exact Hc1|by apply Ho]|].
    unfold write_reg. cbn [r_pc r_reg r_mem].
    eapply bgoes_step; [eapply (isa_alu_imm _ _ BPF_ADD 0 (data_off g w));
      [apply list_elem_of_In; simpl; tauto| |exact Hc2|apply lookup_insert_eq]|].
    { unfold in_s in *. lia. }
    unfold write_reg. cbn [r_pc r_reg r_mem]. rewrite insert_insert_eq.
    replace (bpf_alu BPF_ADD (u64 event) (u64 (data_off g w))) with (u64 w').
    + replace (S (S pc)) with (pc + 2)%nat by lia. apply bgoes_refl.
    + unfold bpf_alu. cbn. rewrite uwrap_add_l, uwrap_add_r by lia. f_equal. lia.
  - by eapply regs_acc.
Qed.

Lemma sim_field w w' t a' l l' :
  drop here (g_insn g) = Op.IMM :: w :: Op.LI :: t :: l ->
  drop here insn' = Op.IMM :: w' :: Op.LI :: t :: l' ->
  in_data g w = true -> w' = w + delta -> in_s 64 w' -> vm_access t = Some a' ->
  simulated k x s b (S n) r.
Proof.
  intros El El' Ed Ew Hw Ht. destruct a' as [sz sg].
  assert (Ec : chunk sf v4 g (p_d x) (drop here (g_insn g))
    = Some (4%nat, p_d x, load_code v4 sz sg 1 (data_off g w), None)) by (rewrite El; cbn; by rewrite Ed, Ht).
  destruct Hr as [C Hd Hpc Hm Ho]. destruct (in_data_off w Ed) as (H16 & Eo & H0).
  pose proof (code_here _ El' [Op.IMM; w'; Op.LI; t] l' eq_refl) as Hc.
  apply (code_at_app g' here [Op.IMM; w'] [Op.LI; t]) in Hc as [Hc1 Hc2]. cbn [length] in Hc2.
  destruct (vm_goes L stk_base g' n s _ _ _ _ _ _ _ _ r (go_imm L stk_base g' here σ a m w' Hc1) C Hrun)
    as (s1 & C1 & E1).
  destruct n as [|n']; [done|].
  destruct (vm_li L stk_base g' n' s1 _ _ _ _ _ r Hc2 C1 ltac:(by rewrite Ht) E1) as (v & s2 & Hv & C2 & E2).
  destruct (load_ty_inv _ _ _ _ Hv) as (sz' & sg' & u & Ht' & Hsz & Hu & -> & Rv).
  rewrite Ht in Ht'. injection Ht' as <- <-.
  replace (here + 2 + 2)%nat with (here + 4)%nat in C2 by lia.
  eapply (sim_next _ _ _ _ _ s2 (mkB (pc + length (load_code v4 sz sg 1 (data_off g w)))
    (<[0 := u64 (extend sz sg u)]> (r_reg b)) m)); try done.
  - destruct b as [bp br bm]. cbn in Hpc, Hm, Ho |- *. subst bp bm.
    eapply load_goes; [done|done|by eapply at_here|by apply Ho|].
    replace (s64 (u64 event + data_off g w)) with w'; [done|].
    rewrite <- (swrap_uwrap 64), uwrap_add_l, swrap_uwrap by lia.
    replace (event + data_off g w) with w' by lia. symmetry. apply swrap_small; [lia|done].
  - by eapply regs_acc.
  - lia.
Qed.
(** Past the first instruction the accumulator is set. *)
Lemma acc_set op l : drop here (g_insn g) = op :: l -> op <> Op.IMM ->
  g_insn g !! 1%nat = Some Op.IMM -> r_reg b !! 0 = Some (u64 a).
Proof.
  intros El Ho H1. destruct Hr as [_ _ _ _ Ho']. destruct (ro_acc _ _ _ _ Ho') as [Hf|]; [|done].
  apply bool_decide_eq_true in Hf. rewrite Hf in El.
  rewrite <- (Nat.add_0_r 1), <- lookup_drop, El in H1. injection H1 as ->. done.
Qed.

Lemma sim_li t a' l l' : r_reg b !! 0 = Some (u64 a) ->
  drop here (g_insn g) = Op.LI :: t :: l -> drop here insn' = Op.LI :: t :: l' ->
  vm_access t = Some a' -> simulated k x s b (S n) r.
Proof.
  intros Hacc El El' Ht. destruct a' as [sz sg].
  assert (Ec : chunk sf v4 g (p_d x) (drop here (g_insn g))
    = Some (2%nat, p_d x, load_code v4 sz sg 0 0, None)) by (rewrite El; cbn; by rewrite Ht).
  destruct Hr as [C Hd Hpc Hm Ho].
  destruct (vm_li L stk_base g' n s _ _ _ _ _ r (code_here _ El' [Op.LI; t] l' eq_refl) C
    ltac:(by rewrite Ht) Hrun) as (v & s2 & Hv & C2 & E2).
  destruct (load_ty_inv _ _ _ _ Hv) as (sz' & sg' & u & Ht' & Hsz & Hu & -> & Rv).
  rewrite Ht in Ht'. injection Ht' as <- <-.
  eapply (sim_next _ _ _ _ _ s2 (mkB (pc + length (load_code v4 sz sg 0 0))
    (<[0 := u64 (extend sz sg u)]> (r_reg b)) m)); try done.
  - destruct b as [bp br bm]. cbn in Hpc, Hm, Ho, Hacc |- *. subst bp bm.
    eapply load_goes; [done|unfold in_s; lia|by eapply at_here|done|].
    rewrite Z.add_0_r, s64_u64; [done|apply Ho].
  - by eapply regs_acc.
Qed.

Lemma sim_psh l l' : r_reg b !! 0 = Some (u64 a) ->
  drop here (g_insn g) = Op.PSH :: l -> drop here insn' = Op.PSH :: l' -> (p_d x < slots sf)%nat ->
  simulated k x s b (S n) r.
Proof.
  intros Hacc El El' Hs. destruct Hr as [C Hd Hpc Hm Ho].
  assert (Ec : chunk sf v4 g (p_d x) (drop here (g_insn g))
    = Some (1%nat, S (p_d x), [BPF_MOV64_REG (sf + Z.of_nat (p_d x)) 0], None)).
  { rewrite El. cbn -[Nat.ltb]. by destruct (Nat.ltb_spec (p_d x) (slots sf)); [|lia]. }
  assert (Hsl : (slots sf <= 8)%nat) by (unfold slots, BPF_NR_SLOTS, BPF_SLOT_LAST; lia).
  destruct (vm_goes L stk_base g' n s _ _ _ _ _ _ _ _ r (go_psh L stk_base g' here σ a m
    (code_here _ El' [Op.PSH] l' eq_refl) ltac:(lia)) C Hrun) as (s' & C' & E').
  eapply (sim_next _ _ _ _ _ s' (mkB (pc + 1) (<[sf + Z.of_nat (p_d x) := u64 a]> (r_reg b)) m)); try done.
  - pose proof (at_here _ _ _ Ec) as Hc. apply at_code_cons in Hc as [Hc1 _].
    destruct b as [bp br bm]. cbn in Hpc, Hm, Ho, Hacc |- *. subst bp bm. rewrite Nat.add_1_r.
    apply bgoes_isa. by apply (isa_mov_reg _ (mkB pc br m) (sf + Z.of_nat (p_d x)) 0).
  - simpl. lia.
  - destruct Ho as [H1 _ H3 H4 H5]. cbn. constructor.
    + by rewrite lookup_insert_ne by lia.
    + right. by rewrite lookup_insert_ne by lia.
    + intros q v Hq. cbn [rev] in Hq. apply lookup_app_Some in Hq as [Hq|[Hle Hq]].
      * apply lookup_lt_Some in Hq as Hlt. rewrite length_rev in Hlt.
        rewrite lookup_insert_ne by lia. by apply H3.
      * rewrite length_rev in *. apply list_lookup_singleton_Some in Hq as [Hq <-].
        replace q with (p_d x) by lia. apply lookup_insert_eq.
    + done.
    + by constructor.
Qed.

(** The stack after a pop. *)
Lemma regs_pop first regs y σ0 v : regs_ok first regs (y :: σ0) v ->
  regs !! (sf + Z.of_nat (length σ0)) = Some (u64 y) /\ in_s 64 y /\ Forall (in_s 64) σ0 /\
  forall q w, rev σ0 !! q = Some w -> (q < length σ0)%nat /\ regs !! (sf + Z.of_nat q) = Some (u64 w).
Proof.
  intros [_ _ H3 _ H5]. inversion H5; subst. cbn [rev] in H3. split_and!; try done.
  - apply H3. rewrite lookup_app_r by (rewrite length_rev; lia). by rewrite length_rev, Nat.sub_diag.
  - intros q w Hq. apply lookup_lt_Some in Hq as Hlt. rewrite length_rev in Hlt. split; [done|].
    apply H3. by apply lookup_app_l_Some.
Qed.

Lemma sim_si t a' d l l' : r_reg b !! 0 = Some (u64 a) ->
  drop here (g_insn g) = Op.SI :: t :: l -> drop here insn' = Op.SI :: t :: l' ->
  vm_access t = Some a' -> p_d x = S d -> (d < slots sf)%nat -> simulated k x s b (S n) r.
Proof.
  intros Hacc El El' Ht Hpd Hs. destruct a' as [sz sg]. destruct Hr as [C Hd Hpc Hm Ho].
  assert (Ec : chunk sf v4 g (p_d x) (drop here (g_insn g))
    = Some (2%nat, d, [BPF_STX_MEM (size_code sz) (sf + Z.of_nat d) 0 0], None)).
  { rewrite El, Hpd. cbn -[Nat.ltb]. rewrite Ht. by destruct (Nat.ltb_spec d (slots sf)); [|lia]. }
  destruct (vm_si L stk_base g' n s _ _ _ _ _ r (code_here _ El' [Op.SI; t] l' eq_refl) C
    ltac:(by rewrite Ht) Hrun) as (y & σ0 & m' & s2 & -> & Hst & C2 & E2).
  { intros ->. simpl in Hd. lia. }
  simpl in Hd. assert (Hd0 : length σ0 = d) by lia.
  destruct (regs_pop _ _ _ _ _ Ho) as (Hy & Ry & Rs & Hq). rewrite Hd0 in Hy.
  unfold store_ty in Hst. rewrite Ht in Hst. pose proof (vm_access_size _ _ _ Ht) as Hsz.
  destruct (size_code_ok sz Hsz) as (S1 & S2 & _).
  eapply (sim_next _ _ _ _ _ s2 (mkB (pc + 1) (r_reg b) m')); try done.
  - pose proof (at_here _ _ _ Ec) as Hc. apply at_code_cons in Hc as [Hc1 _].
    destruct b as [bp br bm]. cbn in Hpc, Hm, Ho, Hacc, Hy |- *. subst bp bm. rewrite Nat.add_1_r.
    apply bgoes_isa. eapply (isa_stx _ (mkB pc br m) (size_code sz) _ 0 0);
      [done|unfold in_s; lia|exact Hc1|exact Hy|exact Hacc|].
    cbn [r_mem]. rewrite S2, Z.add_0_r, s64_u64, store_u64 by (done || lia). done.
  - destruct Ho as [H1 _ _ H4 _]. constructor; try done; [by right|]. intros q w Hw. by apply Hq.
Qed.

Lemma sim_bin op d l l' : r_reg b !! 0 = Some (u64 a) ->
  drop here (g_insn g) = op :: l -> drop here insn' = op :: l' ->
  bin_ok v4 op = true -> p_d x = S d -> (d < slots sf)%nat -> simulated k x s b (S n) r.
Proof.
  intros Hacc El El' Hb Hpd Hs. destruct Hr as [C Hd Hpc Hm Ho].
  assert (Ec : chunk sf v4 g (p_d x) (drop here (g_insn g))
    = Some (1%nat, d, bin_code op (sf + Z.of_nat d), None)).
  { rewrite El, Hpd. apply bin_ok_binop in Hb as Hop. unfold Op.LTu, Op.MODu in Hop. cbn [chunk].
    unfold is_jump, Op.IMM, Op.LI, Op.PSH, Op.BZ, Op.BNZ, Op.JMP, Op.EXIT.
    repeat match goal with |- context [?u =? ?v] => destruct (Z.eqb_spec u v); [lia|] end.
    cbn [orb]. rewrite Hb. by destruct (Nat.ltb_spec d (slots sf)); [|lia]. }
  destruct (vm_alu L stk_base g' n s _ _ _ _ op r (code_here _ El' [op] l' eq_refl) C) as
    (y & σ0 & v & s2 & -> & Hv & C2 & E2); [|done| |].
  { unfold is_alu. apply bin_ok_binop in Hb. lia. }
  { intros ->. simpl in Hd. lia. }
  simpl in Hd. assert (Hd0 : length σ0 = d) by lia.
  destruct (regs_pop _ _ _ _ _ Ho) as (Hy & Ry & Rs & Hq). rewrite Hd0 in Hy.
  destruct (bin_goes B v4 pc (r_reg b) m op (sf + Z.of_nat d) y a v Hb ltac:(lia) (at_here _ _ _ Ec) Hy Hacc Ry
    (ro_a _ _ _ _ Ho) Hv) as (Rv & regs' & G & G0 & Gr).
  eapply (sim_next _ _ _ _ _ s2 (mkB (pc + length (bin_code op (sf + Z.of_nat d))) regs' m)); try done.
  - destruct b as [bp br bm]. cbn in Hpc, Hm |- *. subst bp bm. done.
  - destruct Ho as [H1 _ _ _ _]. constructor; cbn; try done.
    + rewrite Gr by lia. done.
    + by right.
    + intros q w Hw. destruct (Hq q w Hw) as [Hlt Hw']. by rewrite Gr by lia.
Qed.
(** A jump that is taken. *)
Lemma sim_taken k' y s' b' : pos sf v4 g k' = Some y -> p_d y = p_d x -> bgoes B b b' ->
  r_reg b !! 0 = Some (u64 a) ->
  conf g' s' (p_i y) σ a m -> r_pc b' = length (p_code y) -> r_mem b' = m -> r_reg b' = r_reg b ->
  run L stk_base n g' s' = Ok r -> simulated k x s b (S n) r.
Proof.
  intros Hy Hd G Hacc C' Hpc Hm Hrg E. left. exists k', y, s', b', σ, a, m, n.
  split_and!; try done; [|lia]. destruct Hr as [C Hd' _ _ [H1 _ H3 H4 H5]].
  constructor; try done; [congruence|]. rewrite Hrg. constructor; try done. by right.
Qed.

Lemma sim_jump op w l l' : r_reg b !! 0 = Some (u64 a) -> is_jump op = true ->
  drop here (g_insn g) = op :: w :: l -> drop here insn' = op :: w :: l' ->
  simulated k x s b (S n) r.
Proof.
  intros Hacc Hj El El'. assert (Ec : chunk sf v4 g (p_d x) (drop here (g_insn g))
    = Some (2%nat, p_d x, [jump_code op], Some (s32 ((w - g_base g) / 8)))).
  { rewrite El. apply jump_cases in Hj as [->|[->| ->]]; reflexivity. }
  pose proof (Hlink k x Hx _ _ _ _ Ec) as (op' & w' & k' & y & Hw & _ & Hop & Ew & Hy & Hdy & H16 & HB).
  assert (w' = w) as ->.
  { rewrite <- Nat.add_1_r, <- lookup_drop, El in Hw. by injection Hw. }
  assert (op' = op) as ->.
  { rewrite <- (Nat.add_0_r here), <- lookup_drop, El in Hop. by injection Hop. }
  set (off := Z.of_nat (length (p_code y)) - Z.of_nat pc - 1) in *.
  pose proof (code_here _ El' [op; w] l' eq_refl) as Hc.
  assert (Epc : w = pc_of g' (p_i y)) by (unfold pc_of; by rewrite Hbase).
  pose proof (re_conf _ _ _ _ _ _ Hr) as C.
  pose proof (re_pc _ _ _ _ _ _ Hr) as Hpc. pose proof (re_mem _ _ _ _ _ _ Hr) as Hm.
  pose proof (re_regs _ _ _ _ _ _ Hr) as Ho.
  assert (Eb : b = mkB pc (r_reg b) m) by (rewrite <- Hpc, <- Hm; by destruct b).
  assert (Hto : Z.to_nat (Z.of_nat pc + 1 + off) = length (p_code y)) by (unfold off; lia).
  destruct (Z.eq_dec op Op.JMP) as [->|Hne].
  - rewrite Epc in Hc.
    destruct (vm_goes L stk_base g' n s _ _ _ _ _ _ _ _ r (go_jmp L stk_base g' here σ a m _ Hc) C Hrun) as (s' & C' & E').
    eapply (sim_taken k' y s' (jump_to off b)); try done; [|rewrite Eb; by cbn; rewrite Hto].
    rewrite Eb. apply bgoes_isa. by apply (isa_ja _ (mkB pc (r_reg b) m)).
  - assert (exists z : bool, op = if z then Op.BZ else Op.BNZ) as [z ->].
    { apply jump_cases in Hj as [->|[->|]]; [by exists true|by exists false|done]. }
    rewrite Epc in Hc.
    destruct (vm_goes L stk_base g' n s _ _ _ _ _ _ _ _ r (go_branch L stk_base g' here σ a m (p_i y) z Hc) C Hrun)
      as (s' & C' & E').
    assert (G : bgoes B b (jump_to (if Bool.eqb (a =? 0) z then off else 0) b)).
    { rewrite Eb at 1. apply bgoes_isa.
      assert (Ha0 : (u64 a =? 0) = (a =? 0)).
      { rewrite <- u64_zero at 1. apply u64_eqb; [apply Ho|by apply in_s64_small]. }
      pose proof (isa_jmp_imm B (mkB pc (r_reg b) m) (if z then BPF_JEQ else BPF_JNE) 0 0 off (u64 a)) as I.
      rewrite <- Eb in *. rewrite u64_zero in I.
      replace (if Bool.eqb (a =? 0) z then off else 0)
        with (if bpf_cond (if z then BPF_JEQ else BPF_JNE) (u64 a) 0 then off else 0).
      - apply I; try done; [destruct z; apply list_elem_of_In; simpl; tauto|].
        rewrite Hpc, HB. by destruct z.
      - unfold bpf_cond. destruct z; cbn; rewrite Ha0; by destruct (a =? 0). }
    destruct (Bool.eqb (a =? 0) z) eqn:Et.
    + eapply (sim_taken k' y s' (jump_to off b)); try done. rewrite Eb; by cbn; rewrite Hto.
    + eapply (sim_next _ _ _ _ _ s' (jump_to 0 b)); try done.
      * apply Hr.
      * rewrite Eb. cbn. lia.
      * rewrite Eb. cbn. destruct Ho as [H1 _ H3 H4 H5]. constructor; try done. by right.
Qed.

Lemma sim_exit l l' : r_reg b !! 0 = Some (u64 a) ->
  drop here (g_insn g) = Op.EXIT :: l -> drop here insn' = Op.EXIT :: l' ->
  simulated k x s b (S n) r.
Proof.
  intros Hacc El El'. assert (Ec : chunk sf v4 g (p_d x) (drop here (g_insn g))
    = Some (1%nat, p_d x, [BPF_EXIT_INSN], None)) by by rewrite El.
  pose proof (at_here _ _ _ Ec) as Hc. apply at_code_cons in Hc as [Hc1 _].
  destruct Hr as [C Hd Hpc Hm Ho]. right. exists b, (fst r). split; [apply bgoes_refl|]. split; [|done].
  cbn [run] in Hrun. rewrite (step_plain L stk_base g' here σ a m Op.EXIT s C
    (code_here _ El' [Op.EXIT] l' eq_refl)) in Hrun by done. cbn in Hrun.
  injection Hrun as <-. cbn. destruct C as [_ _ _ _ -> ->].
  rewrite <- Hm. apply isa_exit; [by rewrite Hpc|done].
Qed.
(** The first instruction sets the accumulator. *)
Context (Hfirst : g_insn g !! 1%nat = Some Op.IMM).

Lemma sim_step : simulated k x s b (S n) r.
Proof.
  pose proof (pos_flow _ _ _ _ _ _ k x Hflow Hx) as Hfl. pose proof (acc_set) as Hacc.
  remember 0%nat as z eqn:Ez in Hfl. clear Ez.
  remember (drop here (g_insn g)) as l eqn:El. remember (drop here insn') as l' eqn:El'.
  remember (p_d x) as d eqn:Ed. symmetry in El, El', Ed.
  destruct Hfl as [d|d w w' l l' d2 Hi Hf|d t a' l l' d2 Ht Hf|d t a' l l' d2 Ht Hs Hf
    |d l l' d2 Hs Hf|d op t l l' d2 Hj HJ Hf|d op l l' d2 Hb Hs Hf|d l l' d2 Hf].
  - cbn [run] in Hrun. unfold step in Hrun. destruct Hr as [[Hpc _ _ _ _ _] _ _ _ _].
    assert (fetch g' (v_pc s) = Err (Fault "fetch out of bounds")) as E; [|by rewrite E in Hrun].
    rewrite Hpc. unfold fetch, pc_of.
    replace (g_base g' + 8 * Z.of_nat here - g_base g') with (Z.of_nat here * 8) by lia.
    rewrite Z.mod_mul, Z.div_mul, Nat2Z.id by lia.
    assert (insn' !! here = None) as ->; [|by destruct (0 <=? _)].
    by rewrite <- (Nat.add_0_r here), <- lookup_drop, El'.
  - destruct Hi as [Hw Hi]. destruct (in_data g w) eqn:Ew.
    + assert (Hchunk : (exists t a' l1 l1', l = Op.LI :: t :: l1 /\ l' = Op.LI :: t :: l1' /\ vm_access t = Some a') \/
        chunk sf v4 g (p_d x) (drop here (g_insn g))
        = Some (2%nat, p_d x, [BPF_MOV64_REG 0 1; BPF_ALU64_IMM BPF_ADD 0 (data_off g w)], None)).
      { rewrite El. cbn. rewrite Ew, Ed. clear -Hf. destruct Hf as [d|d v v' l l' d2 Hi Hf|d t a' l l' d2 Ht Hf|d t a' l l' d2 Ht Hs Hf
          |d l l' d2 Hs Hf|d op t l l' d2 Hj HJ Hf|d op l l' d2 Hb Hs Hf|d l l' d2 Hf]; try (by right).
        - left. by exists t, a', l, l'.
        - right. destruct l; done.
        - right. apply jump_cases in Hj as [->|[->| ->]]; done.
        - right. apply bin_ok_binop in Hb. unfold Op.LTu, Op.LI in *.
          destruct (Z.eqb_spec op 8); [lia|]. by destruct l.
        - right. by destruct l. }
      destruct Hchunk as [(t & a' & l1 & l1' & -> & -> & Ht)|Hchunk].
      * by eapply sim_field.
      * by eapply (sim_addr w w').
    + destruct Hi as [Es ->]. by eapply sim_const.
  - eapply sim_li; eauto.
  - eapply sim_si; eauto.
  - eapply sim_psh; eauto. by rewrite Ed.
  - eapply sim_jump; eauto. eapply acc_set; [exact El| |done]. by apply jump_cases in Hj as [->|[->| ->]].
  - eapply sim_bin; eauto. eapply acc_set; [exact El| |done]. apply bin_ok_binop in Hb.
    unfold Op.LTu, Op.IMM in *. lia.
  - eapply sim_exit; eauto.
Qed.
End Sim.

(** The emitted program returns what the virtual machine returns. *)
Lemma sim_run `{BpfMachine} (L : syslib) (stk_base sf : Z) (v4 : bool) (g g' : prog) (data event : Z)
    (B : list bpf_insn) :
  2 <= sf <= 9 -> g_data g = Some data -> g_datalen g <= 32768 -> g_base g' = g_base g ->
  (1 <= length (g_insn g) <= 4096)%nat ->
  flow sf v4 g (event - data) (target sf v4 g (event - data)) 0 (drop 1 (g_insn g)) (drop 1 (g_insn g')) 0 ->
  (forall k x, pos sf v4 g k = Some x -> linked sf v4 g B x) ->
  g_insn g !! 1%nat = Some Op.IMM ->
  forall n k x s b σ a m v m', pos sf v4 g k = Some x -> rel sf g' event x s b σ a m ->
    run L stk_base n g' s = Ok (v, m') ->
    exists n', bpf_run n' B b = Some (u64 v, m').
Proof.
  intros Hsf Hdata Hdlen Hbase Hlen Hflow Hlink Hfirst n.
  induction n as [n IH] using lt_wf_ind. intros k x s b σ a m v m' Hx Hr Hrun.
  destruct n as [|n]; [done|].
  destruct (sim_step L stk_base sf v4 g g' data event B Hsf Hdata Hdlen Hbase Hlen Hflow Hlink
    k x s b σ a m (v, m') Hx Hr n Hrun Hfirst)
    as [(k' & y & s' & b' & σ' & a' & m1 & n' & Hy & [c G] & Hr' & Hn & Hrun')|(b' & v' & [c G] & I & _)].
  - destruct (IH n' Hn _ _ _ _ _ _ _ _ _ Hy Hr' Hrun') as (n2 & E). exists (c + n2)%nat. by rewrite G.
  - exists (c + 1)%nat. rewrite G. cbn. by rewrite (bpf_step_isa _ _ _ I).
Qed.
