(* ===== verification/BpfFrag.v ===== *)
(** * BpfFrag: the expressions the BPF backend translates

    [bpf_ok] describes the expressions of src/src/expr.c the backend accepts:
    no strings, the variables in the event, the constants not taken for
    addresses, the nesting within the slot registers, and no load that follows
    the target of a jump.  The code of such an expression is a stream of
    instructions with the depth the backend computes. *)

From S2P Require Import Prelude ExprLex ExprComp ExprProg ExprVM ExprSpec ExprRunProof.
From S2P Require Import Bpf BpfIsa BpfArith BpfProof BpfSim.

(** ** Moving the variables *)

Section Moved.
Context (delta : Z).

Definition move_sym (s : sym) : sym :=
  if s_class s =? Tk.Glo
  then mkSym (s_token s) (s_class s) (s_name s) (s_hash s) (s_ref s) (s_type s) (s_nr_elm s) (s_value s + delta)
  else s.

(** The symbol table with the variables at another address. *)
Definition moved (tab : list sym) : list sym := map move_sym tab.

Lemma move_fields s : s_token (move_sym s) = s_token s /\ s_class (move_sym s) = s_class s /\
  s_name (move_sym s) = s_name s /\ s_hash (move_sym s) = s_hash s /\ s_type (move_sym s) = s_type s.
Proof. unfold move_sym. by destruct (s_class s =? Tk.Glo). Qed.

Lemma find_sym_moved h n pp tab : forall i,
  find_sym h n pp (moved tab) i
  = (fst (find_sym h n pp tab i), move_sym <$> snd (find_sym h n pp tab i)).
Proof.
  induction tab as [|s tab IH]; intros i; [done|]. cbn.
  destruct (move_fields s) as (-> & _ & -> & -> & _). rewrite IH. by repeat case_match.
Qed.

Lemma var_sym_moved tab x : var_sym (moved tab) x = move_sym (var_sym tab x).
Proof.
  unfold var_sym, lookup_name. rewrite find_sym_moved. cbn [snd]. by destruct (snd _).
Qed.

Lemma is_array_moved tab x : is_array (moved tab) x = is_array tab x.
Proof. unfold is_array. rewrite var_sym_moved. by destruct (move_fields (var_sym tab x)) as (_ & _ & _ & _ & ->). Qed.

Lemma tyof_moved tab e : tyof (moved tab) e = tyof tab e.
Proof.
  induction e; cbn; try done; try congruence.
  - rewrite is_array_moved, var_sym_moved. by destruct (move_fields (var_sym tab x)) as (_ & _ & _ & _ & ->).
  - rewrite IHe1, IHe2. done.
Qed.

Lemma lv_moved tab e : lv (moved tab) e = lv tab e.
Proof. induction e; cbn; try done; [by rewrite is_array_moved|by destruct o]. Qed.

Lemma ldty_moved tab e : ldty (moved tab) e = ldty tab e.
Proof. induction e; cbn [ldty]; rewrite ?tyof_moved; try done. destruct o; [done..|]. by rewrite IHe. Qed.
End Moved.

(** ** The fragment *)

Section Frag.
Context (sf : Z) (v4 : bool) (g : prog) (tab : list sym).

(** A constant that is taken for a constant. *)
Definition lit_ok (v : Z) : bool :=
  negb (in_data g v) && negb (in_str g v) && ((- 2 ^ 63 <=? v) && (v <? 2 ^ 63)).

Definition type_ok (t : Z) : bool := match vm_access t with Some _ => true | None => false end.

(** The depth after instructions without jumps. *)
Fixpoint line (d : nat) (l : list Z) : option nat :=
  match l with
  | [] => Some d
  | op :: l' =>
      if op =? Op.PSH then if (d <? slots sf)%nat then line (S d) l' else None
      else if bin_ok v4 op then
        match d with S d => if (d <? slots sf)%nat then line d l' else None | O => None end
      else
        match l' with
        | [] => None
        | w :: l =>
            if op =? Op.IMM then if lit_ok w then line d l else None
            else if op =? Op.LI then if type_ok w then line d l else None
            else if op =? Op.SI then
              match d with
              | S d => if type_ok w && (d <? slots sf)%nat then line d l else None
              | O => None
              end
            else None
        end
  end.

Definition line_ok (d : nat) (l : list Z) (d' : nat) : bool := bool_decide (line d l = Some d').

(** The code of [e] ends at the target of a jump. *)
Fixpoint ends_at_jump (md : bool) (e : ast) : bool :=
  match e with
  | ECond _ _ _ | ELogic _ _ _ => true
  | EUn Plus a => ends_at_jump md a
  | EAddr a => ends_at_jump true a
  | ECast _ a => if lv tab a then md && ends_at_jump true a else ends_at_jump false a
  | EDeref a => md && ends_at_jump false a
  | _ => false
  end.

(** [e] is translated at depth [d]. *)
Fixpoint bpf_ok (d : nat) (md : bool) (e : ast) : bool :=
  match e with
  | ENum v | EChr v => lit_ok v
  | EStr _ => false
  | ESizeof t => lit_ok (if Ty.PTR <=? t then sizeof_ptr else base_size t)
  | EVar x =>
      in_data g (s_value (var_sym tab x)) && (s_class (var_sym tab x) =? Tk.Glo)
      && (md || is_array tab x || type_ok (asn (s_type (var_sym tab x))))
  | EUn Not a => bpf_ok d false a && line_ok d [Op.PSH; Op.IMM; 0; Op.EQ] d
  | EUn BitNot a => bpf_ok d false a && line_ok d [Op.PSH; Op.IMM; -1; Op.XOR] d
  | EUn Plus a => bpf_ok d md a
  | ENeg a =>
      line_ok d [Op.IMM; -1; Op.PSH] (S d) && bpf_ok (S d) false a && line_ok (S d) [Op.MUL] d
  | EDeref a =>
      bpf_ok d false a && (md || (type_ok (asn (tyof tab a - Ty.PTR)) && negb (ends_at_jump false a)))
  | EAddr a => bpf_ok d true a
  | ECast t a =>
      if lv tab a then bpf_ok d true a && (md || (type_ok (asn t) && negb (ends_at_jump true a)))
      else bpf_ok d false a
  | EPre inc a => bpf_ok d true a && line_ok d (incdec_code inc (ldty tab a) (tyof tab a)) d
  | EPost inc a =>
      bpf_ok d true a && line_ok d (incdec_code inc (ldty tab a) (tyof tab a)) d
      && line_ok d [Op.PSH; Op.IMM; inc_step (tyof tab a); if inc then Op.SUB else Op.ADD] d
  | EBin o a1 a2 =>
      bpf_ok d false a1 && line_ok d [Op.PSH] (S d) && bpf_ok (S d) false a2
      && line_ok (S d) (bop_code o (tyof tab a1) (tyof tab a2)) d
  | ELogic _ a1 a2 => bpf_ok d false a1 && bpf_ok d false a2
  | ECond a1 a2 a3 => bpf_ok d false a1 && bpf_ok d false a2 && bpf_ok d false a3
  | EAssign a1 a2 =>
      bpf_ok d true a1 && line_ok d [Op.PSH] (S d) && bpf_ok (S d) false a2
      && line_ok (S d) [Op.SI; asn (tyof tab a1)] d
  | EIndex a1 a2 =>
      bpf_ok d false a1 && line_ok d [Op.PSH] (S d) && bpf_ok (S d) false a2
      && line_ok (S d) ((if Ty.PTR <? tyof tab a1 then [Op.PSH; Op.IMM; ptr_scale (tyof tab a1); Op.MUL] else [])
            ++ [Op.ADD] ++ (if md then [] else [Op.LI; asn (tyof tab a1 - Ty.PTR)])) d
  end.

Context (data event : Z) (Hdata : g_data g = Some data).
Context (Hrange : - 2 ^ 63 <= event /\ event + g_datalen g <= 2 ^ 63).
Abbreviation delta := (event - data).
Abbreviation tab' := (moved delta tab).

Lemma lit_imm v : lit_ok v = true -> imm_like g delta v v.
Proof.
  unfold lit_ok, imm_like. destruct (in_data g v); [done|]. destruct (in_str g v); [done|].
  simpl. intros E. split; [|done]. unfold in_s. change (2 ^ (64 - 1)) with (2 ^ 63). lia.
Qed.

Lemma line_flow J l d d' : line_ok d l d' = true -> flow sf v4 g delta J d l l d'.
Proof.
  intros E. apply bool_decide_eq_true in E.
  remember (length l) as n eqn:Hn. assert (Hl : (length l <= n)%nat) by lia. clear Hn.
  revert l d E Hl. induction n as [|n IH]; intros l d E Hl.
  - destruct l; [|simpl in Hl; lia]. injection E as <-. constructor.
  - destruct l as [|op l]; [injection E as <-; constructor|]. cbn [line] in E. simpl in Hl.
    destruct (Z.eqb_spec op Op.PSH) as [->|].
    { destruct (Nat.ltb_spec d (slots sf)); [|done]. constructor; [done|]. apply IH; [done|lia]. }
    destruct (bin_ok v4 op) eqn:Eb.
    { destruct d as [|d]; [done|]. destruct (Nat.ltb_spec d (slots sf)); [|done].
      constructor; [done|done|]. apply IH; [done|lia]. }
    destruct l as [|w l]; [done|]. simpl in Hl.
    destruct (Z.eqb_spec op Op.IMM) as [->|].
    { destruct (lit_ok w) eqn:Ew; [|done]. constructor; [by apply lit_imm|]. apply IH; [done|lia]. }
    unfold type_ok in E. destruct (Z.eqb_spec op Op.LI) as [->|].
    { destruct (vm_access w) eqn:Ew; [|done]. econstructor; [done|]. apply IH; [done|lia]. }
    destruct (Z.eqb_spec op Op.SI) as [->|]; [|done]. destruct d as [|d]; [done|].
    destruct (vm_access w) eqn:Ew; [|done]. destruct (Nat.ltb_spec d (slots sf)); [|done].
    econstructor; [done|done|]. apply IH; [done|lia].
Qed.
(** ** The code of the fragment *)

Context (sb : Z).
Abbreviation base := (g_base g).
Abbreviation code := (cg tab sb base).
Abbreviation code' := (cg tab' sb base).
Abbreviation J := (target sf v4 g delta).
Abbreviation split := (split_at sf v4 g delta).
Abbreviation flows := (flow sf v4 g delta J).

Lemma code_moved_len e : forall b k md, length (code' b k md e) = length (code b k md e).
Proof.
  induction e; intros b k md; cbn [cg]; try done;
    rewrite ?is_array_moved, ?tyof_moved, ?lv_moved, ?ldty_moved;
    try (destruct o); try (destruct (lv tab e));
    rewrite ?length_app; simpl length; rewrite ?length_app; simpl length;
    rewrite ?IHe, ?IHe1, ?IHe2, ?IHe3; try done.
  by destruct (md || is_array tab x).
Qed.

Lemma code_first e : forall b k md, exists w q, code b k md e = Op.IMM :: w :: q.
Proof.
  induction e; intros b k md; cbn [cg]; try (by eexists _, _);
    try (destruct (IHe b k false) as (w & q & ->); by eexists _, _);
    try (destruct (IHe b k true) as (w & q & ->); by eexists _, _);
    try (destruct (IHe1 b k false) as (w & q & ->); by eexists _, _);
    try (destruct (IHe1 b k true) as (w & q & ->); by eexists _, _).
  - destruct o; [destruct (IHe b k false) as (w & q & ->); by eexists _, _..|apply IHe].
  - destruct (lv tab e); [|apply IHe]. destruct (IHe b k true) as (w & q & ->). by eexists _, _.
Qed.

Lemma split_step b d l l' d' : split b d -> code_at g b l ->
  flow sf v4 g delta (fun _ _ => True) d l l' d' -> split (b + length l) d'.
Proof.
  intros (q & Hb & Hq) Hc Hf. exists (q ++ l').
  assert (Hlen : (b + length l <= length (g_insn g))%nat).
  { destruct l as [|w l0]; [simpl; lia|]. destruct (lookup_lt_is_Some_2 (w :: l0) (length l0)) as [u Hu]; [simpl; lia|].
    apply Hc, lookup_lt_Some in Hu. simpl. lia. }
  split; [lia|].
  assert (take (b + length l) (g_insn g) = take b (g_insn g) ++ l) as ->.
  { rewrite <- (take_drop b (g_insn g)) at 1. rewrite take_app_ge by (rewrite length_take; lia).
    f_equal. rewrite length_take. replace (b + length l - b `min` length (g_insn g))%nat with (length l) by lia.
    apply list_eq_same_length with (length l); [done|rewrite length_take, length_drop; lia|].
    intros j u v Hj Hu Hv. rewrite lookup_take_lt, lookup_drop in Hu by done. specialize (Hc j v Hv). congruence. }
  rewrite drop_app_le by (rewrite length_take; lia).
  by eapply flow_app.
Qed.

Lemma jump_target j d : split j d -> g_insn g !! j <> Some Op.LI -> J d (at_idx base j).
Proof. intros Hs Hl. by exists j. Qed.

Lemma var_imm x : in_data g (s_value (var_sym tab x)) = true -> s_class (var_sym tab x) = Tk.Glo ->
  imm_like g delta (s_value (var_sym tab x)) (s_value (var_sym tab' x)).
Proof.
  intros Hd Hc. unfold imm_like. rewrite Hd, var_sym_moved. unfold move_sym. rewrite Hc. cbn [Z.eqb].
  rewrite Z.eqb_refl. cbn [s_value]. split; [|done]. unfold in_data in Hd. rewrite Hdata in Hd.
  unfold in_s. change (2 ^ (64 - 1)) with (2 ^ 63). lia.
Qed.
(** A stream after the code at [b]. *)
Lemma split_line b d l d' : split b d -> code_at g b l -> line_ok d l d' = true ->
  flows d l l d' /\ split (b + length l) d'.
Proof.
  intros Hs Hc Hl. apply (line_flow J) in Hl. split; [done|].
  eapply split_step; [done..|]. by eapply flow_mono; [|exact Hl].
Qed.

(** The word at [i] is not a load. *)
Lemma next_not_li i w l : code_at g i (w :: l) -> w <> Op.LI -> g_insn g !! i <> Some Op.LI.
Proof. intros Hc Hw. apply code_at_cons in Hc as [Hc _]. rewrite (code_at_one g i w Hc). congruence. Qed.

Lemma next_expr i b k md e l : code_at g i (code b k md e ++ l) -> g_insn g !! i <> Some Op.LI.
Proof. destruct (code_first e b k md) as (w & q & ->). intros Hc. by eapply next_not_li. Qed.

Lemma bop_first o t ty l i : code_at g i (bop_code o t ty ++ l) -> g_insn g !! i <> Some Op.LI.
Proof.
  intros Hc. destruct (bop_code o t ty) as [|w q] eqn:E; [destruct o; cbn in E; by repeat case_match|].
  apply (next_not_li i w (q ++ l) Hc). intros ->.
  destruct o; cbn in E; unfold str_or, uns_or in E; repeat case_match; inversion E.
Qed.

(** What is proved of a subexpression. *)
Definition fits (e : ast) : Prop := forall d md b k, bpf_ok d md e = true -> split b d ->
  code_at g b (code b k md e) ->
  (ends_at_jump md e = true -> g_insn g !! (b + length (code b k md e))%nat <> Some Op.LI) ->
  flows d (code b k md e) (code' b k md e) d.

(** A subexpression that is followed by [l]. *)
Lemma fits_at e d md b k l : fits e -> bpf_ok d md e = true -> split b d ->
  code_at g b (code b k md e ++ l) ->
  (ends_at_jump md e = true -> g_insn g !! (b + length (code b k md e))%nat <> Some Op.LI) ->
  flows d (code b k md e) (code' b k md e) d /\
  split (b + length (code b k md e)) d /\ code_at g (b + length (code b k md e)) l.
Proof.
  intros He Ho Hs Hc Hn. apply code_at_app in Hc as [Hc Hl].
  assert (Hf := He d md b k Ho Hs Hc Hn). split; [done|]. split; [|done].
  eapply split_step; [done..|]. by eapply flow_mono; [|exact Hf].
Qed.

Ltac conj H := repeat match type of H with _ && _ = true =>
  let H' := fresh H in apply andb_prop in H; destruct H as [H H'] end.

Lemma fits_var x : fits (EVar x).
Proof.
  intros d md b k Ho Hs Hc Hn. cbn [bpf_ok cg] in *. conj Ho. apply Z.eqb_eq in Ho1.
  rewrite is_array_moved. constructor; [by apply var_imm|].
  rewrite var_sym_moved. destruct (move_fields delta (var_sym tab x)) as (_ & _ & _ & _ & ->).
  destruct (md || is_array tab x); [constructor|]. unfold type_ok in Ho0. simpl in Ho0.
  destruct (vm_access _) as [a|] eqn:E; [|done]. econstructor; [exact E|constructor].
Qed.

(** An operator whose code follows its operand. *)
Lemma fits_post e d md b k l : fits e -> bpf_ok d md e = true -> split b d ->
  code_at g b (code b k md e ++ l) -> line_ok d l d = true ->
  (ends_at_jump md e = true -> head l <> Some Op.LI) -> l <> [] ->
  flows d (code b k md e ++ l) (code' b k md e ++ l) d.
Proof.
  intros He Ho Hs Hc Hl Hn Hne. destruct (fits_at e d md b k l He Ho Hs Hc) as (F & S & C).
  - intros Hj. apply code_at_app in Hc as [_ Hc]. destruct l as [|w l]; [done|].
    eapply next_not_li; [exact Hc|]. specialize (Hn Hj). simpl in Hn. congruence.
  - eapply flow_app; [exact F|]. by apply line_flow.
Qed.

Lemma fits_bin o e1 e2 : fits e1 -> fits e2 -> fits (EBin o e1 e2).
Proof.
  intros H1 H2 d md b k Ho Hs Hc Hn. cbn [bpf_ok cg] in *. conj Ho. rewrite code_moved_len, !tyof_moved.
  destruct (fits_at e1 d false b k _ H1 Ho Hs Hc) as (F1 & S1 & C1).
  { intros _. apply code_at_app in Hc as [_ Hc]. by eapply next_not_li. }
  apply code_at_app in C1 as [C1 C2].
  destruct (split_line _ _ _ _ S1 C1 Ho2) as [F2 S2]. cbn [length] in *.
  destruct (fits_at e2 (S d) false _ (k + nlits e1) _ H2 Ho1 S2 C2) as (F3 & S3 & C3).
  { intros _. apply code_at_app in C2 as [_ C2]. eapply bop_first. by rewrite app_nil_r. }
  eapply flow_app; [exact F1|]. eapply flow_app; [exact F2|]. eapply flow_app; [exact F3|]. by apply line_flow.
Qed.

Lemma fits_logic cj e1 e2 : fits e1 -> fits e2 -> fits (ELogic cj e1 e2).
Proof.
  intros H1 H2 d md b k Ho Hs Hc Hn. cbn [bpf_ok cg] in *. conj Ho. rewrite !code_moved_len.
  set (c1 := code b k false e1) in *. set (b2 := (b + length c1 + 2)%nat) in *.
  set (c2 := code b2 (k + nlits e1) false e2) in *.
  destruct (fits_at e1 d false b k _ H1 Ho Hs Hc) as (F1 & S1 & C1).
  { intros _. apply code_at_app in Hc as [_ Hc]. eapply next_not_li; [exact Hc|by destruct cj]. }
  fold c1 in F1, S1, C1. apply code_at_app in C1 as [C1 C2]. cbn [length] in C2. fold b2 in C2.
  rewrite !length_app in Hn. cbn [length] in Hn.
  assert (Hend : (b + (length c1 + (2 + length c2)))%nat = (b2 + length c2)%nat) by (unfold b2; lia).
  rewrite Hend in Hn. specialize (Hn eq_refl).
  assert (S2 : split b2 d).
  { eapply (split_step (b + length c1) d _ _ d S1 C1). constructor; [by destruct cj|done|constructor]. }
  destruct (fits_at e2 d false b2 (k + nlits e1) [] H2 Ho0 S2) as (F3 & S3 & _);
    [by rewrite app_nil_r|done|]. fold c2 in F3, S3.
  eapply flow_app; [exact F1|]. eapply flow_app; [|exact F3].
  apply fl_jump; [by destruct cj| |constructor]. by apply jump_target.
Qed.

Lemma fits_cond e1 e2 e3 : fits e1 -> fits e2 -> fits e3 -> fits (ECond e1 e2 e3).
Proof.
  intros H1 H2 H3 d md b k Ho Hs Hc Hn. cbn [bpf_ok cg] in *. conj Ho. rewrite !code_moved_len.
  set (c1 := code b k false e1) in *. set (b2 := (b + length c1 + 2)%nat) in *.
  set (c2 := code b2 (k + nlits e1) false e2) in *. set (b3 := (b2 + length c2 + 2)%nat) in *.
  set (c3 := code b3 (k + nlits e1 + nlits e2) false e3) in *.
  destruct (fits_at e1 d false b k _ H1 Ho Hs Hc) as (F1 & S1 & C1).
  { intros _. apply code_at_app in Hc as [_ Hc]. by eapply next_not_li. }
  fold c1 in F1, S1, C1. apply code_at_app in C1 as [C1 C2]. cbn [length] in C2. fold b2 in C2.
  assert (S2 : split b2 d).
  { eapply (split_step (b + length c1) d _ _ d S1 C1). constructor; [done|done|constructor]. }
  destruct (fits_at e2 d false b2 (k + nlits e1) _ H2 Ho1 S2 C2) as (F2 & S3 & C3).
  { intros _. apply code_at_app in C2 as [_ C2]. by eapply next_not_li. }
  fold c2 in F2, S3, C3. apply code_at_app in C3 as [C3 C4]. cbn [length] in C4. fold b3 in C4.
  assert (S4 : split b3 d).
  { eapply (split_step (b2 + length c2) d _ _ d S3 C3). constructor; [done|done|constructor]. }
  rewrite !length_app in Hn. cbn [length] in Hn.
  assert (Hend : (b + (length c1 + (2 + (length c2 + (2 + length c3)))))%nat = (b3 + length c3)%nat)
    by (unfold b3, b2; lia).
  rewrite ?length_app in Hn. cbn [length] in Hn. rewrite ?length_app in Hn. rewrite Hend in Hn. specialize (Hn eq_refl).
  destruct (fits_at e3 d false b3 (k + nlits e1 + nlits e2) [] H3 Ho0 S4) as (F3 & S5 & _);
    [by rewrite app_nil_r|done|]. fold c3 in F3, S5.
  assert (Hb3 : g_insn g !! b3 <> Some Op.LI).
  { apply (next_expr b3 b3 (k + nlits e1 + nlits e2) false e3 []). by rewrite app_nil_r. }
  eapply flow_app; [exact F1|].
  eapply flow_app; [apply fl_jump; [done|by apply jump_target|constructor]|].
  eapply flow_app; [exact F2|].
  eapply flow_app; [apply fl_jump; [done|by apply jump_target|constructor]|exact F3].
Qed.
Lemma fits_un o e : fits e -> fits (EUn o e).
Proof.
  intros H1 d md b k Ho Hs Hc Hn. destruct o; cbn [bpf_ok cg] in *; [conj Ho..|].
  - by apply fits_post.
  - by apply fits_post.
  - by apply H1.
Qed.

Lemma fits_neg e : fits e -> fits (ENeg e).
Proof.
  intros H1 d md b k Ho Hs Hc Hn. cbn [bpf_ok cg] in *. conj Ho.
  apply code_at_app in Hc as [C1 C2]. destruct (split_line _ _ _ _ Hs C1 Ho) as [F1 S1]. cbn [length] in *.
  destruct (fits_at e (S d) false (b + 3) k _ H1 Ho1 S1 C2) as (F2 & S2 & C3).
  { intros _. apply code_at_app in C2 as [_ C2]. by eapply next_not_li. }
  eapply flow_app; [exact F1|]. eapply flow_app; [exact F2|]. by apply line_flow.
Qed.

(** A load after an address. *)
Lemma fits_load e d md b k t : fits e -> bpf_ok d md e = true -> split b d ->
  code_at g b (code b k md e ++ [Op.LI; t]) -> type_ok t = true -> ends_at_jump md e = false ->
  flows d (code b k md e ++ [Op.LI; t]) (code' b k md e ++ [Op.LI; t]) d.
Proof.
  intros He Ho Hs Hc Ht Hj. apply fits_post; try done; [|by rewrite Hj].
  unfold line_ok. cbn. change (bin_ok v4 Op.LI) with false. cbn. by rewrite Ht, bool_decide_eq_true_2.
Qed.

Lemma fits_deref e : fits e -> fits (EDeref e).
Proof.
  intros H1 d md b k Ho Hs Hc Hn. cbn [bpf_ok cg] in *. conj Ho. rewrite tyof_moved.
  destruct md; cbn [orb] in *.
  - rewrite !app_nil_r in *. apply H1; try done.
  - conj Ho0. apply fits_load; try done. by apply negb_true_iff.
Qed.

Lemma fits_cast t e : fits e -> fits (ECast t e).
Proof.
  intros H1 d md b k Ho Hs Hc Hn. cbn [bpf_ok cg ends_at_jump] in *. rewrite lv_moved in *.
  destruct (lv tab e); [|by apply H1]. conj Ho. destruct md; cbn [orb andb] in *.
  - rewrite !app_nil_r in *. apply H1; try done.
  - conj Ho0. apply fits_load; try done. by apply negb_true_iff.
Qed.

Lemma fits_incdec e inc : fits e -> fits (EPre inc e) /\ fits (EPost inc e).
Proof.
  intros H1. split; intros d md b k Ho Hs Hc Hn; cbn [bpf_ok cg] in *; conj Ho; rewrite ldty_moved, tyof_moved.
  - by apply fits_post.
  - rewrite app_assoc in Hc |- *. rewrite app_assoc.
    apply code_at_app in Hc as [C1 C2].
    eapply flow_app; [by apply fits_post|]. by apply line_flow.
Qed.

(** Operands of an operator whose code is straight. *)
Lemma fits_two e1 e2 d md b k l : fits e1 -> fits e2 -> bpf_ok d md e1 = true ->
  line_ok d [Op.PSH] (S d) = true -> bpf_ok (S d) false e2 = true -> line_ok (S d) l d = true ->
  split b d -> head l <> Some Op.LI -> l <> [] ->
  let c1 := code b k md e1 in
  code_at g b (c1 ++ [Op.PSH] ++ code (b + length c1 + 1) (k + nlits e1) false e2 ++ l) ->
  flows d (c1 ++ [Op.PSH] ++ code (b + length c1 + 1) (k + nlits e1) false e2 ++ l)
    (code' b k md e1 ++ [Op.PSH] ++ code' (b + length c1 + 1) (k + nlits e1) false e2 ++ l) d.
Proof.
  intros H1 H2 O1 O2 O3 O4 Hs Hl Hne c1 Hc.
  destruct (fits_at e1 d md b k _ H1 O1 Hs Hc) as (F1 & S1 & C1).
  { intros _. apply code_at_app in Hc as [_ Hc]. by eapply next_not_li. }
  apply code_at_app in C1 as [C1 C2].
  destruct (split_line _ _ _ _ S1 C1 O2) as [F2 S2]. cbn [length] in *.
  destruct (fits_at e2 (S d) false _ (k + nlits e1) _ H2 O3 S2 C2) as (F3 & S3 & C3).
  { intros _. apply code_at_app in C2 as [_ C2]. destruct l as [|w l]; [done|].
    eapply next_not_li; [exact C2|]. simpl in Hl. congruence. }
  eapply flow_app; [exact F1|]. eapply flow_app; [exact F2|]. eapply flow_app; [exact F3|]. by apply line_flow.
Qed.

Lemma fits_assign e1 e2 : fits e1 -> fits e2 -> fits (EAssign e1 e2).
Proof.
  intros H1 H2 d md b k Ho Hs Hc Hn. cbn [bpf_ok cg] in *. conj Ho. rewrite !code_moved_len, tyof_moved.
  by apply fits_two.
Qed.

Lemma fits_index e1 e2 : fits e1 -> fits e2 -> fits (EIndex e1 e2).
Proof.
  intros H1 H2 d md b k Ho Hs Hc Hn. cbn [bpf_ok cg] in *. conj Ho. rewrite !code_moved_len, tyof_moved.
  apply fits_two; try done; by destruct (Ty.PTR <? tyof tab e1).
Qed.

(** The code of an expression of the fragment is a stream. *)
Lemma fits_all e : fits e.
Proof.
  induction e.
  - intros d md b k Ho Hs Hc Hn. constructor; [by apply lit_imm|constructor].
  - intros d md b k Ho Hs Hc Hn. constructor; [by apply lit_imm|constructor].
  - intros d md b k Ho. done.
  - apply fits_var.
  - intros d md b k Ho Hs Hc Hn. constructor; [by apply lit_imm|constructor].
  - by apply fits_un.
  - by apply fits_neg.
  - by apply fits_deref.
  - intros d md b k Ho Hs Hc Hn. by apply IHe.
  - by apply fits_cast.
  - by apply fits_incdec.
  - by apply fits_incdec.
  - by apply fits_bin.
  - by apply fits_logic.
  - by apply fits_cond.
  - by apply fits_assign.
  - by apply fits_index.
Qed.
End Frag.
