(* ===== verification/BpfMain.v ===== *)
(** * BpfMain: correctness of the BPF backend

    The filter that [expr_to_bpf] of src/src/expr.c emits for a compiled text
    computes, in the kernel, the value of the expressions the text spells on
    the event it is called with. *)

From S2P Require Import Prelude ExprLex ExprComp ExprProg ExprVM ExprSpec ExprRunProof ExprSym.
From S2P Require Import ExprMain Bpf BpfIsa BpfArith BpfProof BpfSim BpfFrag.

Section Seq.
Context (sf : Z) (v4 : bool) (g : prog) (tab : list sym) (data event : Z) (Hdata : g_data g = Some data).
Context (Hrange : - 2 ^ 63 <= event /\ event + g_datalen g <= 2 ^ 63) (sb : Z).
Abbreviation base := (g_base g).
Abbreviation delta := (event - data).
Abbreviation tab' := (moved delta tab).

Lemma cgs_moved_len es : forall b k, length (cgs tab' sb base b k es) = length (cgs tab sb base b k es).
Proof.
  induction es as [|e es IH]; intros b k; [done|]. cbn [cgs].
  rewrite !length_app, (code_moved_len g tab data event sb), IH. done.
Qed.

Lemma cgs_flow es : forall b k l, forallb (bpf_ok sf v4 g tab 0 false) es = true ->
  split_at sf v4 g delta b 0 -> code_at g b (cgs tab sb base b k es ++ l) ->
  head l <> Some Op.LI -> l <> [] ->
  flow sf v4 g delta (target sf v4 g delta) 0 (cgs tab sb base b k es) (cgs tab' sb base b k es) 0.
Proof.
  induction es as [|e es IH]; intros b k l Ho Hs Hc Hl Hne; [constructor|].
  cbn [forallb] in Ho. apply andb_prop in Ho as [O1 O2].
  cbn [cgs] in *. rewrite (code_moved_len g tab data event sb). rewrite <- app_assoc in Hc.
  destruct (fits_at sf v4 g tab data event sb e 0 false b k _
    (fits_all sf v4 g tab data event Hdata Hrange sb e) O1 Hs Hc) as (F & S & C).
  { intros _. apply code_at_app in Hc as [_ Hc]. destruct es as [|e2 es].
    - cbn [cgs app] in Hc. destruct l as [|w l]; [done|]. eapply next_not_li; [exact Hc|]. simpl in Hl. congruence.
    - cbn [cgs] in Hc. rewrite <- app_assoc in Hc. by eapply (next_expr g tab sb). }
  eapply flow_app; [exact F|]. by eapply IH.
Qed.

(** The whole program. *)
Lemma program_flow es : g_insn g = 0 :: cgs tab sb base 1 0 es ++ [Op.EXIT] ->
  forallb (bpf_ok sf v4 g tab 0 false) es = true ->
  flow sf v4 g delta (target sf v4 g delta) 0 (drop 1 (g_insn g))
    (cgs tab' sb base 1 0 es ++ [Op.EXIT]) 0.
Proof.
  intros Hi Ho. rewrite Hi. cbn [drop]. eapply flow_app; [|by repeat constructor].
  eapply (cgs_flow es 1 0 [Op.EXIT]); try done.
  - exists []. rewrite Hi. cbn. rewrite length_app. cbn. split; [lia|constructor].
  - intros j w Hj. by rewrite Hi.
Qed.
End Seq.

(** The call of the program the backend returned. *)
Lemma bpf_seq `{BpfMachine} (sf : Z) (v4 : bool) (g : prog) (tab : list sym) (sb data event : Z)
    (es : list ast) (m : mem) (v : Z) (m' : mem) :
  2 <= sf <= 9 -> g_data g = Some data -> 0 <= g_datalen g <= 32768 ->
  - 2 ^ 63 <= event -> event + g_datalen g <= 2 ^ 63 ->
  g_insn g = 0 :: cgs tab sb (g_base g) 1 0 es ++ [Op.EXIT] -> es <> [] ->
  (length (g_insn g) <= 1024)%nat ->
  forallb (field_ok g) (g_symtab g) = true ->
  forallb (bpf_ok sf v4 g tab 0 false) es = true ->
  evs (moved (event - data) tab) sb 0 es 0 m = Some (v, m') ->
  exists B n, expr_to_bpf sf v4 g = Ok (inl B) /\
    bpf_run n B (bpf_call event m) = Some (u64 v, m').
Proof.
  intros Hsf Hdata Hdl He1 He2 Hi Hne Hlen Hsym Ho Hv.
  set (g' := mkProg [] None 0 0 None 0 (g_base g)
    (0 :: cgs (moved (event - data) tab) sb (g_base g) 1 0 es ++ [Op.EXIT]) 0 0 m).
  pose proof (program_flow sf v4 g tab data event Hdata (conj He1 He2) sb es Hi Ho) as Hfl.
  assert (Hlen' : (1 <= length (g_insn g) <= 4096)%nat) by (rewrite Hi in *; simpl in *; lia).
  destruct (translate_ok sf v4 g (event - data) (g_insn g') Hlen' Hfl Hsym) as (B & EB & HB).
  set (L := mkLib (fun _ _ => 0) (fun _ => 0) (fun _ => 0) (fun _ => 0) (fun _ _ => 0) (fun _ _ => 0)).
  assert (Hrun : expr_run L 0 (replicate 512 0) g' = Ok (v, set_mem m' g')).
  { eapply (run_seq L 0 g' (moved (event - data) tab) sb es 0); [done| |apply length_replicate|done].
    cbn [g' g_insn length]. rewrite length_app, cgs_moved_len. rewrite Hi in Hlen. cbn in Hlen.
    rewrite length_app in Hlen. done. }
  unfold expr_run in Hrun. destruct (run L 0 _ g' _) as [[v1 m1]|] eqn:E; [|done]. injection Hrun as -> ->.
  assert (Hfirst : g_insn g !! 1%nat = Some Op.IMM).
  { rewrite Hi. destruct es as [|e es0]; [done|]. cbn [cgs].
    destruct (code_first g tab sb e 1 0 false) as (w & q & ->). done. }
  destruct (sim_run L 0 sf v4 g g' data event B Hsf Hdata (proj2 Hdl) eq_refl Hlen' Hfl HB Hfirst
    (S (length (g_insn g'))) 0 (mkPl 1 0 [] []) (vm_init (replicate 512 0) g') (bpf_call event m) [] 0 m v m' eq_refl) as (n & En).
  - assert (conf g' (vm_init (replicate 512 0) g') 1 [] 0 m)
      by (constructor; try done; simpl; unfold stack_words; lia).
    constructor; try done.
    constructor; try done. by left.
  - exact E.
  - by exists B, n.
Qed.

(** C2: the BPF filter computes the expression.  Take a text that spells a
    comma-separated sequence [es] of expressions as in the theorem on
    compilation, and its compiled program [g].  When the expressions are in the
    fragment [bpf_ok] of the backend (variables in the event, no strings, at
    most as many nested operands as slot registers, no signed division before
    6.6, no load right after the target of a jump) the translation succeeds
    with every jump resolved, whichever register the slots start at and whether
    or not the kernel has sign-extending loads; and on every BPF machine with
    the documented instructions the emitted code, called with the address of an
    event, terminates and returns the value of the expressions with the
    variables read from (and assigned in) that event. *)
Theorem expr_to_bpf_correct `{BpfMachine} (sf : Z) (v4 : bool) (A : alloc) (text : list Z)
    (ds : list global_var_declare) (flag : bool) (r r' : refs) (es : list ast) (ts : list tok)
    (g : prog) (data event : Z) (m : mem) (v : Z) (m' : mem) :
  sf = 2 \/ sf = 6 ->
  allocs_ok A -> Forall good_decl ds ->
  denotes text ts -> seq_gram (symbols A (length text) ds flag) es ts ->
  wts (symbols A (length text) ds flag) (a_str A) (a_le A) 1 0 es = true ->
  (costs es + 2 <= nr_insn_max)%nat ->
  expr_compile_flags A text (Some ds) flag r = Ok (Some g, r') ->
  g_data g = Some data -> 0 <= g_datalen g <= 32768 ->
  - 2 ^ 63 <= event -> event + g_datalen g <= 2 ^ 63 ->
  forallb (field_ok g) (g_symtab g) = true ->
  forallb (bpf_ok sf v4 g (symbols A (length text) ds flag) 0 false) es = true ->
  evs (moved (event - data) (symbols A (length text) ds flag)) (a_str A) 0 es 0 m = Some (v, m') ->
  exists B n, expr_to_bpf sf v4 g = Ok (inl B) /\
    bpf_run n B (bpf_call event m) = Some (u64 v, m').
Proof.
  intros Hsf HA Hd D G W C E Hdata Hdl He1 He2 Hsym Ho Hv.
  destruct (compile_seq A text ds flag r es ts HA Hd D G W C) as (g2 & r2 & E2 & Hb & Hi).
  rewrite E in E2. injection E2 as <- <-. rewrite <- Hb in Hi.
  pose proof (cgs_costs (symbols A (length text) ds flag) (a_str A) (g_base g) es 1 0) as Hc.
  eapply (bpf_seq sf v4 g (symbols A (length text) ds flag) (a_str A) data event es m v m'); try done; try lia.
  - by destruct G.
  - rewrite Hi. cbn. rewrite length_app. cbn. unfold nr_insn_max in C. lia.
Qed.

(** The compiled example, and the event at a kernel address. *)
Definition ex_bpf_prog : prog :=
  match expr_compile_flags ex_alloc ex_text (Some ex_decls) true ex_refs with
  | Ok (Some g, _) => g
  | _ => mkProg [] None 0 0 None 0 0 [] 0 0 ∅
  end.
Definition ex_event : Z := - 2 ^ 47.
Definition ex_event_mem : mem := poke_bytes ∅ ex_event ex_data.

Lemma expr_to_bpf_correct_witness :
  exists B n, expr_to_bpf 2 false ex_bpf_prog = Ok (inl B) /\
    bpf_run n B (bpf_call ex_event ex_event_mem) = Some (u64 275, ex_event_mem).
Proof.
  apply (expr_to_bpf_correct 2 false ex_alloc ex_text ex_decls true ex_refs ex_refs [ex_ast] ex_tokens
    ex_bpf_prog 100000 ex_event ex_event_mem 275 ex_event_mem).
  - left. reflexivity.
  - by split_and!.
  - exact ex_good.
  - exact ex_denotes.
  - apply ex_gram.
  - vm_compute; reflexivity.
  - apply Nat.leb_le. vm_compute. reflexivity.
  - vm_compute. reflexivity.
  - vm_compute. reflexivity.
  - change (g_datalen ex_bpf_prog) with 16. lia.
  - unfold ex_event. lia.
  - change (g_datalen ex_bpf_prog) with 16. unfold ex_event. lia.
  - vm_compute. reflexivity.
  - vm_compute. reflexivity.
  - vm_compute. reflexivity.
Defined.

(** ** A load after a conditional *)

Definition compiled (text : string) : prog :=
  match expr_compile_flags ex_alloc (cstr text) (Some ex_decls) true ex_refs with
  | Ok (Some g, _) => g
  | _ => mkProg [] None 0 0 None 0 0 [] 0 0 ∅
  end.
Definition bpf_result (text : string) : option Z :=
  match expr_to_bpf 2 true (compiled text) with
  | Ok (inl B) => fst <$> bpf_run 100 B (bpf_call 100000 ex_mem)
  | _ => None
  end.
Definition vm_result (text : string) : option Z :=
  match expr_run ex_lib 0 (replicate 512 0) (set_mem ex_mem (compiled text)) with
  | Ok (v, _) => Some v
  | Err _ => None
  end.

(** The load that ends a conditional address is folded into its last branch,
    and the jump of the other branch leads to the folded load: the filter reads
    the wrong field.  With pid = 261 and prio = 7 the program reads pid, the
    filter reads prio. *)
Lemma folded_load_is_a_jump_target :
  vm_result "*(1 ? &pid : &prio)" = Some 261 /\ bpf_result "*(1 ? &pid : &prio)" = Some 7.
Proof. split; vm_compute; reflexivity. Qed.
