(* ===== verification/RingBuf.v ===== *)
(** * The perf ring buffer (lib/perf/mmap.c)

    The reader's side of the buffer the kernel shares with the process: a
    control page with [data_head] (written by the kernel) and [data_tail]
    (written by the reader), followed by [mask + 1] bytes of events.  [ring] is
    the shared memory, [perf_mmap] the reader's structure; the operations are
    those of mmap.c, on both.  An access outside the mapping or outside
    [event_copy], and a failed [BUG_ON], is [None].

    The writer is the kernel: class [RingProducer] states what its
    documentation (linux/ring_buffer.h, perf_event_open(2)) promises. *)

From S2P Require Import Prelude.

Module RingBuf.

(** ** Shared memory and reader *)

Record ring := Ring {
  data_head : Z;
  data_tail : Z;
  aux_size : Z;
  data : list Z
}.

Record perf_mmap := Mmap {
  base : bool;                (* base != NULL *)
  mask : Z;
  fd : Z;
  cpu : Z;
  refcnt : Z;
  prev : Z;
  start : Z;
  end_ : Z;
  overwrite : bool;
  flush : Z;
  unmap_cb : bool;            (* unmap_cb != NULL *)
  event_copy : option (list Z);
  event_copy_sz : Z
}.

Definition set_base (m : perf_mmap) (b : bool) (f : Z) : perf_mmap :=
  Mmap b (mask m) f (cpu m) (refcnt m) (prev m) (start m) (end_ m) (overwrite m) (flush m)
    (unmap_cb m) (event_copy m) (event_copy_sz m).
Definition set_refcnt (m : perf_mmap) (n : Z) : perf_mmap :=
  Mmap (base m) (mask m) (fd m) (cpu m) n (prev m) (start m) (end_ m) (overwrite m) (flush m)
    (unmap_cb m) (event_copy m) (event_copy_sz m).
Definition set_prev (m : perf_mmap) (p : Z) : perf_mmap :=
  Mmap (base m) (mask m) (fd m) (cpu m) (refcnt m) p (start m) (end_ m) (overwrite m) (flush m)
    (unmap_cb m) (event_copy m) (event_copy_sz m).
Definition set_range (m : perf_mmap) (s e : Z) : perf_mmap :=
  Mmap (base m) (mask m) (fd m) (cpu m) (refcnt m) (prev m) s e (overwrite m) (flush m)
    (unmap_cb m) (event_copy m) (event_copy_sz m).
Definition set_copy (m : perf_mmap) (c : option (list Z)) (n : Z) : perf_mmap :=
  Mmap (base m) (mask m) (fd m) (cpu m) (refcnt m) (prev m) (start m) (end_ m) (overwrite m)
    (flush m) (unmap_cb m) c n.

Definition EAGAIN : Z := 11.
Definition ENOENT : Z := 2.
Definition EINVAL : Z := 22.
Definition EOPNOTSUPP : Z := 95.
Definition UINT_MAX : Z := 2 ^ 32 - 1.

(** ** Memory accesses *)

Definition read_bytes (mem : list Z) (off n : Z) : option (list Z) :=
  if (0 <=? off) && (0 <=? n) && (off + n <=? Z.of_nat (length mem))
  then Some (take (Z.to_nat n) (drop (Z.to_nat off) mem)) else None.

Definition write_bytes (mem : list Z) (off : Z) (bs : list Z) : option (list Z) :=
  if (0 <=? off) && (off + Z.of_nat (length bs) <=? Z.of_nat (length mem))
  then Some (take (Z.to_nat off) mem ++ bs ++ drop (Z.to_nat off + length bs) mem) else None.

(** The [size] field of a [struct perf_event_header]: the 16 bits at offset 6
    of its 8 bytes. *)
Definition hdr_size (bs : list Z) : option Z :=
  match bs with
  | [_; _; _; _; _; _; lo; hi] => Some (lo + 256 * hi)
  | _ => None
  end.

Definition header_size (mem : list Z) (off : Z) : option Z :=
  bs ← read_bytes mem off 8; hdr_size bs.

(** ** Reference count (linux/refcount.h) *)

Definition refcount_inc (n : Z) : option Z :=
  if n =? 0 then None
  else if u32 (n + 1) =? 0 then Some n else if n + 1 =? UINT_MAX then None else Some (n + 1).

(** [refcount_sub_and_test] by 1: the new count and whether it reached 0. *)
Definition refcount_dec_and_test (n : Z) : option (Z * bool) :=
  if n =? UINT_MAX then Some (n, false)
  else let new := u32 (n - 1) in
       if n <? new then None else Some (new, new =? 0).

(** ** Mapping *)

Definition perf_mmap__init (m : perf_mmap) (ow cb : bool) : perf_mmap :=
  Mmap (base m) (mask m) (-1) (cpu m) 0 (prev m) (start m) (end_ m) ow (flush m) cb
    (event_copy m) (event_copy_sz m).

Section Ops.
Context (page_size : Z).
Context (mmap_ok : Z -> Z -> bool)          (* mmap(len, fd) succeeds *)
        (realloc_ok : Z -> bool) (junk : Z) (* realloc, and the bytes it adds *)
        (unmap_cb_fn : perf_mmap -> perf_mmap).

Definition perf_mmap__mmap_len (m : perf_mmap) : Z := u64 (s32 (mask m + 1) + page_size).

Definition perf_mmap__mmap (m : perf_mmap) (mp_mask nfd ncpu : Z) : perf_mmap * Z :=
  let m := Mmap (base m) mp_mask (fd m) (cpu m) (refcnt m) 0 (start m) (end_ m)
             (overwrite m) (flush m) (unmap_cb m) (event_copy m) (event_copy_sz m) in
  if mmap_ok (perf_mmap__mmap_len m) nfd
  then (Mmap true (mask m) nfd ncpu (refcnt m) (prev m) (start m) (end_ m) (overwrite m)
          (flush m) (unmap_cb m) (event_copy m) (event_copy_sz m), 0)
  else (set_base m false (fd m), -1).

Definition perf_mmap__munmap (m : perf_mmap) : perf_mmap :=
  let m := set_copy m None 0 in
  let m := if base m then set_refcnt (set_base m false (-1)) 0 else m in
  if unmap_cb m then unmap_cb_fn m else m.

Definition perf_mmap__get (m : perf_mmap) : option perf_mmap :=
  n ← refcount_inc (refcnt m); Some (set_refcnt m n).

Definition perf_mmap__put (m : perf_mmap) : option perf_mmap :=
  if base m && (refcnt m =? 0) then None
  else '(n, z) ← refcount_dec_and_test (refcnt m);
       let m := set_refcnt m n in
       Some (if (z : bool) then perf_mmap__munmap m else m).

(** ** Consumption *)

Definition perf_mmap__empty (r : ring) (m : perf_mmap) : bool :=
  (data_head r =? prev m) && (aux_size r =? 0).

Definition perf_mmap__write_tail (r : ring) (tail : Z) : ring :=
  Ring (data_head r) tail (aux_size r) (data r).

Definition perf_mmap__consume (r : ring) (m : perf_mmap) : option (ring * perf_mmap) :=
  let r := if negb (overwrite m) then perf_mmap__write_tail r (prev m) else r in
  if (refcnt m =? 1) && perf_mmap__empty r m
  then m' ← perf_mmap__put m; Some (r, m') else Some (r, m).

(** ** Range of the available data *)

(** The loop of [overwrite_rb_find_range]; [sz] is [pheader->size] of the last
    header looked at. *)
Fixpoint find_range_loop (fuel : nat) (buf : list Z) (mask start evt_head sz : Z) : option Z :=
  match fuel with
  | O => None
  | S fuel =>
      let size := u32 (s32 (mask + 1)) in
      if size <=? u64 (evt_head - start)
      then Some (if size <? u64 (evt_head - start) then u64 (evt_head - sz) else evt_head)
      else sz ← header_size buf (Z.land evt_head mask);
           if sz =? 0 then Some evt_head
           else find_range_loop fuel buf mask start (u64 (evt_head + sz)) sz
  end.

(** The first header is looked at before the loop too. *)
Definition overwrite_rb_find_range (buf : list Z) (mask start : Z) : option Z :=
  sz ← header_size buf (Z.land start mask);
  find_range_loop (Z.to_nat (mask + 3)) buf mask start start sz.

Definition read_init_ (r : ring) (m : perf_mmap) : option (ring * perf_mmap * Z) :=
  let head := data_head r in
  let old := prev m in
  let m := set_range m (if overwrite m then head else old) (if overwrite m then old else head) in
  if u64 (end_ m - start m) <? flush m then Some (r, m, - EAGAIN)
  else if mask m + 1 <? u64 (end_ m - start m) then
    if negb (overwrite m) then
      '(r, m) ← perf_mmap__consume r (set_prev m head);
      Some (r, m, - EAGAIN)
    else
      e ← overwrite_rb_find_range (data r) (mask m) (start m);
      Some (r, set_range m (start m) e, 0)
  else Some (r, m, 0).

Definition perf_mmap__read_init (r : ring) (m : perf_mmap) : option (ring * perf_mmap * Z) :=
  if refcnt m =? 0 then Some (r, m, - ENOENT) else read_init_ r m.

Definition perf_mmap__read_done (r : ring) (m : perf_mmap) : perf_mmap :=
  if refcnt m =? 0 then m
  else if overwrite m then set_prev m (data_head r)
  else if negb (prev m =? end_ m) then set_prev m (end_ m) else m.

(** ** Reading *)

(** An event is handed out where it lies in the buffer, or from [event_copy]. *)
Inductive event_ptr :=
  | InRing (off : Z)
  | InCopy.

(** The bytes the caller sees behind the pointer. *)
Definition event_bytes (r : ring) (m : perf_mmap) (p : event_ptr) : option (list Z) :=
  match p with
  | InRing off => n ← header_size (data r) off; read_bytes (data r) off n
  | InCopy => c ← event_copy m; n ← header_size c 0; read_bytes c 0 n
  end.

(** The copy loop of an event that straddles the end of the buffer. *)
Fixpoint copy_loop (fuel : nat) (src : list Z) (mask offset len : Z) (dst : list Z) (pos : Z)
    : option (list Z) :=
  match fuel with
  | O => None
  | S fuel =>
      let cpy := Z.min (u32 (mask + 1 - Z.land offset mask)) len in
      bs ← read_bytes src (Z.land offset mask) cpy;
      dst ← write_bytes dst pos bs;
      let len := u32 (len - cpy) in
      if len =? 0 then Some dst
      else copy_loop fuel src mask (u32 (offset + cpy)) len dst (pos + cpy)
  end.

Definition copy_event (r : ring) (m : perf_mmap) (startp size : Z)
    : option (perf_mmap * option event_ptr) :=
  let grow := event_copy_sz m <? size in
  if grow && negb (realloc_ok size) then Some (m, None)
  else
    let m := if grow
             then set_copy m (Some (resize (Z.to_nat size) junk (default [] (event_copy m)))) size
             else m in
    dst ← event_copy m;
    dst ← copy_loop (Z.to_nat size) (data r) (mask m) (u32 startp) (u32 size) dst 0;
    Some (set_copy m (Some dst) (event_copy_sz m), Some InCopy).

(** [r] is the shared memory while the event is looked at, [r'] when the head
    is read again in overwrite mode: the kernel may have written in between. *)
Definition perf_mmap__read (r r' : ring) (m : perf_mmap) (startp end_ : Z)
    : option (perf_mmap * Z * option event_ptr) :=
  let diff := s32 (end_ - startp) in
  if 8 <=? diff then
    let off := Z.land startp (mask m) in
    size ← header_size (data r) off;
    if (size <? 8) || (diff <? size) then Some (m, startp, None)
    else
      '(m, ev) ← (if negb (off + size =? Z.land (u64 (startp + size)) (mask m))
                  then copy_event r m startp size
                  else Some (m, Some (InRing off)));
      let startp := u64 (startp + size) in
      if overwrite m && (mask m + 1 <? u64 (startp - data_head r'))
      then Some (m, startp, None) else Some (m, startp, ev)
  else Some (m, startp, None).

(** The event and whether the caller may write to it. *)
Definition perf_mmap__read_event (r r' : ring) (m : perf_mmap)
    : option (perf_mmap * option event_ptr) :=
  if refcnt m =? 0 then Some (m, None)
  else
    let m := if negb (overwrite m) then set_range m (start m) (data_head r) else m in
    '(m, s, ev) ← perf_mmap__read r r' m (start m) (end_ m);
    let m := set_range m s (end_ m) in
    Some (if negb (overwrite m) then set_prev m (start m) else m, ev).

(** [size] is [event->header.size]. *)
Definition perf_mmap__unread_event (m : perf_mmap) (event : option Z) : perf_mmap :=
  match event with
  | Some size =>
      if refcnt m =? 0 then m
      else let m := set_range m (u64 (start m - size)) (end_ m) in
           if negb (overwrite m) then set_prev m (start m) else m
  | None => m
  end.
End Ops.

(** ** The device's loop (monitor.c)

    [perf_event_handle_mmap] of a device that does not order its events.  The
    kernel writes before an event is looked for and while it is processed: what
    it tries to write at these two points of each iteration is the schedule. *)

(** What the kernel promises of the buffer: an event is written after the
    last one, only where the tail leaves room for it, and the bytes of the
    buffer it does not occupy are kept. *)
Class RingProducer := {
  produce : ring -> list Z -> option ring;
  produce_ok r bs r' :
    produce r bs = Some r' ->
    let size := Z.of_nat (length (data r)) in
    u64 (data_head r - data_tail r) + Z.of_nat (length bs) <= size /\
    data_head r' = u64 (data_head r + Z.of_nat (length bs)) /\
    data_tail r' = data_tail r /\ aux_size r' = aux_size r /\
    length (data r') = length (data r) /\
    (forall i : nat, (i < length bs)%nat ->
       data r' !! Z.to_nat ((data_head r + Z.of_nat i) mod size) = bs !! i) /\
    (forall j : nat, (j < length (data r))%nat ->
       Z.of_nat (length bs) <= (Z.of_nat j - data_head r) mod size ->
       data r' !! j = data r !! j)
}.

(** The kernel tries to write some events: those it wrote. *)
Fixpoint produce_all `{RingProducer} (r : ring) (es : list (list Z)) : ring * list (list Z) :=
  match es with
  | [] => (r, [])
  | e :: es =>
      match produce r e with
      | Some r => let '(r, l) := produce_all r es in (r, e :: l)
      | None => produce_all r es
      end
  end.

Section Loop.
Context `{RingProducer} (realloc_ok : Z -> bool) (junk : Z)
        (unmap_cb_fn : perf_mmap -> perf_mmap).

Definition schedule : Type := list (list (list Z) * list (list Z)).

(** The result: buffer, reader, the events processed and those the kernel
    wrote meanwhile. *)
Fixpoint handle_loop (fuel : nat) (r : ring) (m : perf_mmap) (s : schedule)
    : option (ring * perf_mmap * list (list Z) * list (list Z)) :=
  match fuel with
  | O => None
  | S fuel =>
      let '(w1, w2) := default ([], []) (head s) in
      let '(r, n1) := produce_all r w1 in
      '(m, ev) ← perf_mmap__read_event realloc_ok junk r r m;
      match ev with
      | None => Some (r, m, [], n1)
      | Some p =>
          let '(r, n2) := produce_all r w2 in
          e ← event_bytes r m p;
          '(r, m) ← perf_mmap__consume unmap_cb_fn r m;
          '(r, m, es, n) ← handle_loop fuel r m (tail s);
          Some (r, m, e :: es, n1 ++ n2 ++ n)
      end
  end.

Definition perf_event_handle_mmap (fuel : nat) (r : ring) (m : perf_mmap) (s : schedule)
    : option (ring * perf_mmap * list (list Z) * list (list Z)) :=
  '(r, m, ret) ← perf_mmap__read_init unmap_cb_fn r m;
  if ret <? 0 then Some (r, m, [], [])
  else '(r, m, es, n) ← handle_loop fuel r m s;
       Some (r, perf_mmap__read_done r m, es, n).
End Loop.

(** ** Lemmas on the buffer *)

(** The [n] bytes at stream position [p]. *)
Definition ring_bytes (d : list Z) (p : Z) (n : nat) : list Z :=
  (fun i => d !!! Z.to_nat ((p + Z.of_nat i) mod Z.of_nat (length d))) <$> seq 0 n.

Lemma ring_bytes_length d p n : length (ring_bytes d p n) = n.
Proof. unfold ring_bytes. rewrite length_fmap, length_seq. done. Qed.

Lemma ring_bytes_app d p a b :
  ring_bytes d p (a + b) = ring_bytes d p a ++ ring_bytes d (p + Z.of_nat a) b.
Proof.
  unfold ring_bytes. rewrite seq_app, fmap_app. f_equal. apply list_eq. intros i.
  rewrite !list_lookup_fmap. destruct (decide (i < b)%nat).
  - rewrite !lookup_seq_lt by lia. simpl. do 3 f_equal. f_equal. lia.
  - rewrite !lookup_seq_ge by lia. done.
Qed.

Lemma ring_bytes_lookup d p n i :
  (i < n)%nat ->
  ring_bytes d p n !! i = Some (d !!! Z.to_nat ((p + Z.of_nat i) mod Z.of_nat (length d))).
Proof. intros. unfold ring_bytes. rewrite list_lookup_fmap, lookup_seq_lt by lia. done. Qed.

(** A stretch that does not pass the end of the buffer is read directly. *)
Lemma ring_bytes_read d sz p n :
  Z.of_nat (length d) = sz -> 0 < sz -> 0 <= n -> p mod sz + n <= sz ->
  read_bytes d (p mod sz) n = Some (ring_bytes d p (Z.to_nat n)).
Proof.
  intros <- Hd Hn Hle. pose proof (Z.mod_pos_bound p (Z.of_nat (length d))). unfold read_bytes.
  replace (_ && _ && _) with true by (symmetry; rewrite !andb_true_iff, !Z.leb_le; lia).
  f_equal. apply list_eq_same_length with (n := Z.to_nat n).
  - rewrite ring_bytes_length. done.
  - rewrite length_take, length_drop. lia.
  - intros i x y Hi. rewrite ring_bytes_lookup by lia. rewrite lookup_take_lt, lookup_drop by lia.
    intros Hx [= <-]. symmetry. apply list_lookup_total_correct. rewrite <- Hx. f_equal.
    rewrite Z.add_mod, (Z.mod_small (Z.of_nat i)), Z.mod_small by lia. lia.
Qed.

Lemma write_bytes_app (a b c d : list Z) :
  length b = length c ->
  write_bytes (a ++ b ++ d) (Z.of_nat (length a)) c = Some (a ++ c ++ d).
Proof.
  intros E. unfold write_bytes. rewrite !length_app.
  replace (_ && _) with true by (symmetry; rewrite !andb_true_iff, !Z.leb_le; lia).
  rewrite Nat2Z.id, take_app_length. do 3 f_equal.
  rewrite <- drop_drop, drop_app_length, <- E, drop_app_length. done.
Qed.
Lemma mod_pow2_uwrap w k x : 0 <= k <= w -> uwrap w x mod 2 ^ k = x mod 2 ^ k.
Proof.
  intros. unfold uwrap. apply Z.mod_mod_divide.
  exists (2 ^ (w - k)). rewrite <- Z.pow_add_r by lia. f_equal. lia.
Qed.

Lemma mod_pow2_add w k x y : 0 <= k <= w -> (uwrap w x + y) mod 2 ^ k = (x + y) mod 2 ^ k.
Proof.
  intros. rewrite <- Zplus_mod_idemp_l, mod_pow2_uwrap, Zplus_mod_idemp_l by lia. done.
Qed.

Lemma mod_pow2_sub w k x y : 0 <= k <= w -> (y - uwrap w x) mod 2 ^ k = (y - x) mod 2 ^ k.
Proof.
  intros. rewrite <- Zminus_mod_idemp_r, mod_pow2_uwrap, Zminus_mod_idemp_r by lia. done.
Qed.

(** What is assumed of a buffer: [2 ^ k] bytes, at least a page. *)
Section Buffer.
Context (k : Z) (Hk : 3 <= k <= 30).

Lemma pow2_split : 2 ^ k = 8 * 2 ^ (k - 3).
Proof using Hk. replace k with (3 + (k - 3)) at 1 by lia. rewrite Z.pow_add_r by lia. done. Qed.

Lemma buf_size : 8 <= 2 ^ k <= 2 ^ 30.
Proof using Hk. rewrite pow2_split. split.
  - pose proof (pow2_pos (k - 3)). destruct (decide (k = 3)) as [->|]; [done|].
    assert (0 < 2 ^ (k - 3)) by (apply Z.pow_pos_nonneg; lia). lia.
  - rewrite <- pow2_split. apply Z.pow_le_mono_r; lia.
Qed.

Lemma land_mask x : Z.land x (2 ^ k - 1) = x mod 2 ^ k.
Proof using Hk.
  rewrite <- Z.land_ones by lia. f_equal. rewrite Z.ones_equiv. lia.
Qed.

(** A header at an aligned position is inside the buffer. *)
Lemma aligned_fits p : p mod 8 = 0 -> p mod 2 ^ k + 8 <= 2 ^ k.
Proof using Hk.
  intros Hp. pose proof buf_size. rewrite pow2_split in *.
  rewrite Z.rem_mul_r, Hp by lia.
  pose proof (Z.mod_pos_bound (p / 8) (2 ^ (k - 3))). lia.
Qed.

(** The copy loop assembles the stream bytes. *)
Lemma copy_loop_ok fuel d off len a b c :
  Z.of_nat (length d) = 2 ^ k ->
  0 < len < 2 ^ 16 -> (Z.to_nat len <= fuel)%nat -> length b = Z.to_nat len ->
  copy_loop fuel d (2 ^ k - 1) (u32 off) len (a ++ b ++ c) (Z.of_nat (length a)) =
    Some (a ++ ring_bytes d off (Z.to_nat len) ++ c).
Proof using Hk.
  intros Hd. pose proof buf_size. revert off len a b.
  induction fuel as [|fuel IH]; intros off len a b Hlen Hfuel Hb; [lia|].
  cbn [copy_loop]. rewrite !land_mask, (mod_pow2_uwrap 32) by lia.
  pose proof (Z.mod_pos_bound off (2 ^ k)).
  replace (2 ^ k - 1 + 1 - off mod 2 ^ k) with (2 ^ k - off mod 2 ^ k) by lia.
  rewrite (uwrap_small 32 ltac:(lia) (2 ^ k - off mod 2 ^ k)) by (unfold in_u; lia).
  set (cpy := Z.min (2 ^ k - off mod 2 ^ k) len).
  assert (1 <= cpy <= len) by lia.
  rewrite ring_bytes_read by (done || lia). simpl.
  rewrite <- (take_drop (Z.to_nat cpy) b), <- (app_assoc (take _ b)).
  rewrite write_bytes_app by (rewrite ring_bytes_length, length_take; lia). simpl.
  rewrite (uwrap_small 32 ltac:(lia) (len - cpy)) by (unfold in_u; lia).
  destruct (Z.eqb_spec (len - cpy) 0).
  - replace len with cpy by lia. rewrite drop_ge by lia. done.
  - rewrite uwrap_add_l by lia.
    replace (Z.to_nat len) with (Z.to_nat cpy + Z.to_nat (len - cpy))%nat by lia.
    rewrite ring_bytes_app, !(app_assoc a), Z2Nat.id, <- !app_assoc by lia.
    rewrite !(app_assoc a).
    replace (Z.of_nat (length a) + cpy) with
      (Z.of_nat (length (a ++ ring_bytes d off (Z.to_nat cpy))))
      by (rewrite length_app, ring_bytes_length; lia).
    rewrite IH; [|lia|lia|rewrite length_drop; lia]. rewrite <- !app_assoc. done.
Qed.

(** ** Events of the stream *)

Definition wf_event (e : list Z) : Prop :=
  8 <= Z.of_nat (length e) < 2 ^ 16 /\ Z.of_nat (length e) mod 8 = 0 /\
  header_size e 0 = Some (Z.of_nat (length e)).

Lemma read_bytes_take (e : list Z) n :
  0 <= n <= Z.of_nat (length e) -> read_bytes e 0 n = Some (take (Z.to_nat n) e).
Proof using.
  intros. unfold read_bytes.
  replace (_ && _) with true by (symmetry; rewrite !andb_true_iff, !Z.leb_le; lia).
  done.
Qed.

Lemma take_app_long {A} (n : nat) (a b : list A) :
  (n <= length a)%nat -> take n (a ++ b) = take n a.
Proof using. intros. rewrite take_app_le; done. Qed.

(** The header of the event at position [p] is the one of the stream; its
    first 8 bytes are enough. *)
Lemma header_at8 d p e :
  Z.of_nat (length d) = 2 ^ k -> p mod 8 = 0 -> wf_event e ->
  ring_bytes d p 8 = take 8 e ->
  header_size d (p mod 2 ^ k) = Some (Z.of_nat (length e)).
Proof using Hk.
  intros Hd Hp (Hl & _ & Hh) E. unfold header_size in *.
  rewrite read_bytes_take in Hh by lia.
  pose proof (aligned_fits p Hp). pose proof buf_size.
  rewrite ring_bytes_read by (done || lia). change (Z.to_nat 8) with 8%nat in *.
  rewrite E. exact Hh.
Qed.

Lemma header_at d p e :
  Z.of_nat (length d) = 2 ^ k -> p mod 8 = 0 -> wf_event e ->
  ring_bytes d p (length e) = e ->
  header_size d (p mod 2 ^ k) = Some (Z.of_nat (length e)).
Proof using Hk.
  intros Hd Hp He E. apply header_at8; try done. destruct He as [Hl _].
  replace (length e) with (8 + (length e - 8))%nat in E by lia.
  rewrite ring_bytes_app in E. rewrite <- E, take_app_length'; [done|].
  symmetry. apply ring_bytes_length.
Qed.

(** ** The invariant

    [held] are the events read and not yet released to the kernel, [pend]
    those not read; [T] is the stream position of the first of [held], as an
    unbounded integer. *)
Definition bytes_of (es : list (list Z)) : Z := Z.of_nat (length (concat es)).

Record inv (r : ring) (m : perf_mmap) (T : Z) (held pend : list (list Z)) : Prop := Inv {
  inv_len : Z.of_nat (length (data r)) = 2 ^ k;
  inv_mask : mask m = 2 ^ k - 1;
  inv_mode : overwrite m = false;
  inv_ref : 2 <= refcnt m;
  inv_al : T mod 8 = 0;
  inv_tail : data_tail r = u64 T;
  inv_start : start m = u64 (T + bytes_of held);
  inv_prev : prev m = start m;
  inv_head : data_head r = u64 (T + bytes_of (held ++ pend));
  inv_room : bytes_of (held ++ pend) <= 2 ^ k;
  inv_wf : Forall wf_event (held ++ pend);
  inv_bytes : ring_bytes (data r) T (length (concat (held ++ pend))) = concat (held ++ pend);
  inv_copy : Z.of_nat (length (default [] (event_copy m))) = event_copy_sz m
}.

(** Where the pointer to the last event read points. *)
Definition ptr_ok (m : perf_mmap) (p : event_ptr) (P : Z) (e : list Z) : Prop :=
  match p with
  | InRing off => off = P mod 2 ^ k /\ off + Z.of_nat (length e) <= 2 ^ k
  | InCopy => exists c, event_copy m = Some (e ++ c)
  end.

Lemma bytes_of_app a b : bytes_of (a ++ b) = bytes_of a + bytes_of b.
Proof using. unfold bytes_of. rewrite concat_app, length_app. lia. Qed.

Lemma bytes_of_cons e b : bytes_of (e :: b) = Z.of_nat (length e) + bytes_of b.
Proof using. unfold bytes_of. simpl. rewrite length_app. lia. Qed.

Lemma bytes_of_nil : bytes_of [] = 0.
Proof using. done. Qed.

Lemma bytes_of_nonneg a : 0 <= bytes_of a.
Proof using. unfold bytes_of. lia. Qed.

Lemma bytes_of_aligned es : Forall wf_event es -> bytes_of es mod 8 = 0.
Proof using.
  induction 1 as [|e es (_ & He & _) _ IH]; [done|].
  rewrite bytes_of_cons, Z.add_mod, He, IH by lia. done.
Qed.

(** The bytes of an event in the middle of the stream. *)
Lemma bytes_middle d T held e pend :
  ring_bytes d T (length (concat (held ++ e :: pend))) = concat (held ++ e :: pend) ->
  ring_bytes d (T + bytes_of held) (length e) = e.
Proof using.
  rewrite concat_app, !length_app. simpl. rewrite !length_app, !ring_bytes_app.
  intros E. apply app_inj_1 in E as [_ E]; [|rewrite ring_bytes_length; done].
  apply app_inj_1 in E as [E _]; [|rewrite ring_bytes_length; done]. exact E.
Qed.

Lemma bytes_prefix d T a b :
  ring_bytes d T (length (concat (a ++ b))) = concat (a ++ b) ->
  ring_bytes d (T + bytes_of a) (length (concat b)) = concat b.
Proof using.
  rewrite concat_app, length_app, ring_bytes_app. intros E.
  apply app_inj_1 in E as [_ E]; [exact E|rewrite ring_bytes_length; done].
Qed.

Lemma inv_al_start r m T held pend :
  inv r m T held pend -> (T + bytes_of held) mod 8 = 0.
Proof using.
  intros H. pose proof (inv_wf _ _ _ _ _ H) as Hw. apply Forall_app in Hw as [Hw _].
  rewrite Z.add_mod, (inv_al _ _ _ _ _ H), bytes_of_aligned by (done || lia). done.
Qed.

(** The event behind the pointer stays intact while it is held. *)
Lemma ptr_bytes r m T held e pend p :
  inv r m T (held ++ [e]) pend -> ptr_ok m p (T + bytes_of held) e ->
  event_bytes r m p = Some e.
Proof using Hk.
  intros H Hp. pose proof buf_size. pose proof (inv_wf _ _ _ _ _ H) as Hw.
  rewrite <- app_assoc in Hw. apply Forall_app in Hw as [Hh Hw].
  inversion_clear Hw as [|? ? He _]. pose proof He as (Hl & Ha & Hd).
  destruct p as [off|]; simpl in *.
  - destruct Hp as [-> Hfit]. pose proof (inv_bytes _ _ _ _ _ H) as E.
    rewrite <- app_assoc in E. apply bytes_middle in E.
    rewrite (header_at _ _ e); [|apply H| |done|done].
    + simpl. rewrite ring_bytes_read; [|apply H|lia|lia|done].
      rewrite Nat2Z.id, E. done.
    + rewrite Z.add_mod, (inv_al _ _ _ _ _ H), bytes_of_aligned by (done || lia). done.
  - destruct Hp as [c ->]. simpl. unfold header_size in *.
    rewrite read_bytes_take in * by (rewrite ?length_app; lia).
    rewrite take_app_long by lia. simpl in *. rewrite Hd. simpl.
    rewrite read_bytes_take by (rewrite ?length_app; lia).
    rewrite Nat2Z.id, take_app_length. done.
Qed.

(** ** The kernel's writes *)

Lemma produce_inv `{RingProducer} r m T held pend e r' :
  inv r m T held pend -> wf_event e -> produce r e = Some r' ->
  inv r' m T held (pend ++ [e]).
Proof using Hk.
  intros Hi He Hp. apply produce_ok in Hp as (Hr & Hh & Ht & _ & Hl & Hw & Hf).
  pose proof buf_size. destruct Hi as [Il Im Io If Ia It Is Ip Ih Ir Iw Ib Ic].
  pose proof (bytes_of_nonneg (held ++ pend)). rewrite Il, Ih, It in *.
  rewrite uwrap_sub_l, uwrap_sub_r in Hr by lia.
  rewrite (uwrap_small 64) in Hr by (unfold in_u; lia).
  assert (bytes_of [e] = Z.of_nat (length e)) as Ee by (rewrite bytes_of_cons, bytes_of_nil; lia).
  split; rewrite ?Hl; try done.
  - rewrite Hh, app_assoc, (bytes_of_app (held ++ pend)), uwrap_add_l by lia. f_equal. lia.
  - rewrite app_assoc, (bytes_of_app (held ++ pend)), Ee. lia.
  - rewrite app_assoc. apply Forall_app. split; [done|]. constructor; [done|constructor].
  - rewrite app_assoc, (concat_app (held ++ pend)). simpl. rewrite app_nil_r.
    rewrite length_app, ring_bytes_app. fold (bytes_of (held ++ pend)). f_equal.
    + rewrite <- Ib at 2. apply list_eq_same_length with (n := length (concat (held ++ pend)));
        [apply ring_bytes_length..|].
      intros i x y Hi. rewrite !ring_bytes_lookup by lia. rewrite Hl, Il. intros [= <-] [= <-].
      pose proof (Z.mod_pos_bound (T + Z.of_nat i) (2 ^ k)).
      rewrite !list_lookup_total_alt. f_equal. apply Hf; [lia|].
      rewrite Z2Nat.id, (mod_pow2_sub 64), Zminus_mod_idemp_l by lia.
      unfold bytes_of in *.
      replace (T + Z.of_nat i - (T + Z.of_nat (length (concat (held ++ pend))))) with
        (Z.of_nat i - Z.of_nat (length (concat (held ++ pend))) + 2 ^ k + (-1) * 2 ^ k) by lia.
      rewrite Z.mod_add, Z.mod_small; lia.
    + apply list_eq_same_length with (n := length e); [done|apply ring_bytes_length|].
      intros i x y Hi. rewrite !ring_bytes_lookup by lia. rewrite Hl, Il. intros [= <-] Hy.
      apply list_lookup_total_correct. rewrite <- Hy, <- Hw by lia. do 2 f_equal.
      rewrite (mod_pow2_add 64) by lia. done.
Qed.

Lemma produce_all_inv `{RingProducer} es : forall r m T held pend r' l,
  inv r m T held pend -> Forall wf_event es -> produce_all r es = (r', l) ->
  inv r' m T held (pend ++ l) /\ (length l <= length es)%nat.
Proof using Hk.
  induction es as [|e es IH]; intros r m T held pend r' l Hi Hw E; simpl in E.
  - injection E as <- <-. rewrite app_nil_r. auto.
  - inversion_clear Hw as [|? ? He Hes]. destruct (produce r e) as [r1|] eqn:Ep.
    + destruct (produce_all r1 es) as [r2 l2] eqn:E2. injection E as <- <-.
      pose proof (produce_inv _ _ _ _ _ _ _ Hi He Ep) as Hi1.
      destruct (IH _ _ _ _ _ _ _ Hi1 Hes E2) as [Hi2 Hl].
      rewrite <- app_assoc in Hi2. simpl. auto with lia.
    + destruct (IH _ _ _ _ _ _ _ Hi Hes E) as [? ?]. simpl. auto with lia.
Qed.

(** ** Reader operations *)

Section Reader.
Context (realloc_ok : Z -> bool) (junk : Z) (unmap_cb_fn : perf_mmap -> perf_mmap).

Lemma copy_event_ok r m P e :
  Z.of_nat (length (data r)) = 2 ^ k -> mask m = 2 ^ k - 1 -> wf_event e ->
  (forall n, realloc_ok n = true) ->
  Z.of_nat (length (default [] (event_copy m))) = event_copy_sz m ->
  ring_bytes (data r) P (length e) = e ->
  exists c n,
    copy_event realloc_ok junk r m (u64 P) (Z.of_nat (length e)) =
      Some (set_copy m (Some (e ++ c)) n, Some InCopy) /\
    Z.of_nat (length (e ++ c)) = n.
Proof using Hk.
  intros Hd Hm (Hl & _ & _) Hr Hc He. unfold copy_event. rewrite Hr, andb_false_r.
  set (len := length e) in *.
  assert (forall c0, (len <= length c0)%nat ->
    copy_loop (Z.to_nat (Z.of_nat len)) (data r) (2 ^ k - 1) (u32 (u64 P)) (u32 (Z.of_nat len)) c0 0
      = Some (e ++ drop len c0)) as Hloop.
  { intros c0 Hc0. rewrite (uwrap_small 32 ltac:(lia) (Z.of_nat len)) by (unfold in_u; lia).
    assert (u32 (u64 P) = u32 P) as -> by
      (unfold uwrap at 1 3; apply (mod_pow2_uwrap 64 32); lia).
    rewrite <- (take_drop len c0) at 1.
    etrans; [apply (copy_loop_ok (Z.to_nat (Z.of_nat len)) (data r) P (Z.of_nat len) []
      (take len c0) (drop len c0)); rewrite ?length_take; lia|].
    rewrite Nat2Z.id, He. done. }
  assert (length e = len) as El by done.
  destruct (Z.ltb_spec (event_copy_sz m) (Z.of_nat len)) as [Hg|Hg].
  - simpl. rewrite Hm, Hloop by (rewrite length_resize; lia).
    eexists _, (Z.of_nat len). split; [done|].
    rewrite length_app, length_drop, length_resize. lia.
  - destruct (event_copy m) as [c0|] eqn:Ec; simpl in *; [|lia].
    rewrite Hm, Hloop by lia. eexists _, (event_copy_sz m). split; [done|].
    rewrite length_app, length_drop. lia.
Qed.

Lemma diff_wrap P n : 0 <= n < 2 ^ 31 -> s32 (u64 (P + n) - u64 P) = n.
Proof using.
  intros. rewrite <- (swrap_small 32 ltac:(lia) n) at 2 by (unfold in_s; lia).
  apply swrap_eq; [lia|]. unfold uwrap at 1 4.
  rewrite (mod_pow2_sub 64), <- Zminus_mod_idemp_l, (mod_pow2_uwrap 64), Zminus_mod_idemp_l by lia.
  f_equal. lia.
Qed.

Lemma read_ok r r' m P e n :
  Z.of_nat (length (data r)) = 2 ^ k -> mask m = 2 ^ k - 1 -> overwrite m = false ->
  P mod 8 = 0 -> wf_event e -> Z.of_nat (length e) <= n <= 2 ^ k ->
  (forall n, realloc_ok n = true) ->
  Z.of_nat (length (default [] (event_copy m))) = event_copy_sz m ->
  ring_bytes (data r) P (length e) = e ->
  exists c sz p,
    perf_mmap__read realloc_ok junk r r' m (u64 P) (u64 (P + n)) =
      Some (set_copy m c sz, u64 (P + Z.of_nat (length e)), Some p) /\
    ptr_ok (set_copy m c sz) p P e /\ Z.of_nat (length (default [] c)) = sz.
Proof using Hk.
  intros Hd Hm Ho Ha He Hn Hr Hc Hb. pose proof buf_size. pose proof He as (Hl & _ & _).
  unfold perf_mmap__read. rewrite diff_wrap, Hm, land_mask by lia.
  replace (8 <=? n) with true by (symmetry; lia).
  rewrite (mod_pow2_uwrap 64), (header_at _ _ e) by (done || lia). simpl.
  rewrite land_mask, (mod_pow2_uwrap 64), (mod_pow2_add 64) by lia.
  replace (_ || _) with false by (symmetry; rewrite orb_false_iff, !Z.ltb_ge; lia).
  rewrite uwrap_add_l by lia.
  pose proof (Z.mod_pos_bound P (2 ^ k)).
  destruct (Z.eqb_spec (P mod 2 ^ k + Z.of_nat (length e)) ((P + Z.of_nat (length e)) mod 2 ^ k))
    as [E|E]; simpl.
  - rewrite Ho. simpl. exists (event_copy m), (event_copy_sz m), (InRing (P mod 2 ^ k)).
    split; [destruct m; done|]. split; [|done]. split; [done|].
    pose proof (Z.mod_pos_bound (P + Z.of_nat (length e)) (2 ^ k)). lia.
  - destruct (copy_event_ok r m P e) as (c & sz & -> & Hsz); try done. simpl. rewrite Ho. simpl.
    exists (Some (e ++ c)), sz, InCopy. split; [done|]. split; [|done]. simpl. eauto.
Qed.

(** Reading takes the first pending event. *)
Lemma read_event_inv r m T held e pend :
  inv r m T held (e :: pend) -> (forall n, realloc_ok n = true) ->
  exists m' p, perf_mmap__read_event realloc_ok junk r r m = Some (m', Some p) /\
    inv r m' T (held ++ [e]) pend /\ ptr_ok m' p (T + bytes_of held) e.
Proof using Hk.
  intros Hi Hr. pose proof buf_size. pose proof (inv_al_start _ _ _ _ _ Hi) as Ha.
  destruct Hi as [Il Im Io If Ial It Is Ip Ih Ir Iw Ib Ic].
  pose proof (proj1 (Forall_app _ _ _) Iw) as [_ Hw]. inversion_clear Hw as [|? ? He _].
  pose proof (bytes_middle _ _ _ _ _ Ib) as Eb.
  pose proof (bytes_of_nonneg held). pose proof (bytes_of_nonneg pend).
  unfold perf_mmap__read_event. replace (refcnt m =? 0) with false by (symmetry; lia).
  rewrite Io. simpl. rewrite Is, Ih, bytes_of_app, Z.add_assoc.
  rewrite bytes_of_app, bytes_of_cons in Ir. 
  destruct (read_ok r r (set_range m (u64 (T + bytes_of held))
      (u64 (T + bytes_of held + bytes_of (e :: pend)))) (T + bytes_of held) e
      (bytes_of (e :: pend))) as (c & sz & p & -> & Hp & Hsz); try done.
  { rewrite bytes_of_cons. lia. }
  simpl. rewrite Io. simpl. eexists _, p. split; [done|]. split; [|destruct p; done].
  assert (bytes_of (held ++ [e]) = bytes_of held + Z.of_nat (length e)) as E1 by
    (rewrite bytes_of_app, bytes_of_cons, bytes_of_nil; lia).
  split; simpl; rewrite <- ?app_assoc, ?E1; simpl; try done.
  - rewrite Z.add_assoc. done.
  - rewrite bytes_of_app, bytes_of_cons. lia.
Qed.

Lemma read_event_empty r m T held :
  inv r m T held [] ->
  exists m', perf_mmap__read_event realloc_ok junk r r m = Some (m', None) /\
    inv r m' T held [] /\ prev m' = end_ m'.
Proof using Hk.
  intros [Il Im Io If Ial It Is Ip Ih Ir Iw Ib Ic].
  unfold perf_mmap__read_event. replace (refcnt m =? 0) with false by (symmetry; lia).
  rewrite Io. simpl. rewrite Is, Ih, app_nil_r. unfold perf_mmap__read.
  pose proof (diff_wrap (T + bytes_of held) 0) as Ed. rewrite Z.add_0_r in Ed.
  rewrite Ed by lia. simpl. rewrite Io. simpl. eexists. split; [done|].
  split; [|done]. split; simpl; try done. 
Qed.

(** Consuming releases what is held. *)
Lemma consume_inv r m T held pend :
  inv r m T held pend ->
  exists r', perf_mmap__consume unmap_cb_fn r m = Some (r', m) /\
    inv r' m (T + bytes_of held) [] pend /\ data_head r' = data_head r.
Proof using Hk.
  intros Hi. pose proof (inv_al_start _ _ _ _ _ Hi) as Ha.
  destruct Hi as [Il Im Io If Ial It Is Ip Ih Ir Iw Ib Ic].
  unfold perf_mmap__consume. replace (refcnt m =? 1) with false by (symmetry; lia).
  rewrite Io. simpl. eexists. split; [done|]. split; [|done].
  pose proof (bytes_of_nonneg held). rewrite bytes_of_app in Ir, Ih.
  apply Forall_app in Iw as [_ Iw]. apply bytes_prefix in Ib.
  split; simpl; rewrite ?bytes_of_nil, ?Z.add_0_r; try done.
  - rewrite Ip. done.
  - rewrite <- Z.add_assoc. done.
  - lia.
Qed.

(** ** The device's loop *)

Context `{RingProducer}.

Definition sched_wf (s : schedule) : Prop :=
  Forall (fun w => Forall wf_event w.1 /\ Forall wf_event w.2) s.

Definition sched_len (s : schedule) : nat :=
  sum_list_with (fun w => (length w.1 + length w.2)%nat) s.

Lemma sched_head s :
  sched_wf s ->
  let w := default ([], []) (head s) in
  Forall wf_event w.1 /\ Forall wf_event w.2 /\ sched_wf (tail s) /\
  sched_len s = (length w.1 + length w.2 + sched_len (tail s))%nat.
Proof using.
  intros Hw. destruct Hw as [|[w1 w2] s [H1 H2] Hs]; simpl in *; repeat split; try constructor; auto.
Qed.

Lemma handle_loop_ok fuel : forall r m T pend s,
  inv r m T [] pend -> sched_wf s -> (forall n, realloc_ok n = true) ->
  (length pend + sched_len s < fuel)%nat ->
  exists r' m' es n, handle_loop realloc_ok junk unmap_cb_fn fuel r m s = Some (r', m', es, n) /\
    es = pend ++ n /\ (exists T', inv r' m' T' [] []) /\ prev m' = end_ m'.
Proof using Hk.
  induction fuel as [|fuel IH]; intros r m T pend s Hi Hs Hr Hf; [lia|].
  cbn [handle_loop]. destruct (sched_head s Hs) as (Hw1 & Hw2 & Ht & Hlen).
  destruct (default ([], []) (head s)) as [w1 w2] eqn:Ew. cbn [fst snd] in *.
  destruct (produce_all r w1) as [r1 n1] eqn:E1.
  destruct (produce_all_inv _ _ _ _ _ _ _ _ Hi Hw1 E1) as [Hi1 Hl1].
  destruct (pend ++ n1) as [|e q] eqn:Eq.
  - apply app_eq_nil in Eq as [-> ->].
    destruct (read_event_empty _ _ _ _ Hi1) as (m' & -> & Hi' & He). simpl.
    eexists _, _, _, _. split; [done|]. eauto.
  - destruct (read_event_inv _ _ _ _ _ _ Hi1 Hr) as (m' & p & -> & Hi' & Hp). simpl.
    destruct (produce_all r1 w2) as [r2 n2] eqn:E2.
    destruct (produce_all_inv _ _ _ _ _ _ _ _ Hi' Hw2 E2) as [Hi2 Hl2].
    rewrite (ptr_bytes _ _ _ [] _ _ _ Hi2 Hp). simpl.
    destruct (consume_inv _ _ _ _ _ Hi2) as (r3 & -> & Hi3 & _). simpl.
    assert (length (pend ++ n1) = S (length q)) as El by (rewrite Eq; done).
    rewrite length_app in El.
    destruct (IH r3 m' _ (q ++ n2) (tail s) Hi3 Ht Hr) as (r' & m2 & es & n & -> & -> & HT & He).
    { rewrite length_app. lia. }
    simpl. eexists _, _, _, _. split; [done|]. split; [|auto].
    rewrite app_assoc, Eq. simpl. rewrite app_assoc. done.
Qed.

End Reader.

End Buffer.
End RingBuf.
