(* ===== verification/RingBufMain.v ===== *)
(** * Theorems on the ring buffer

    The loop of a device hands out every event once and in order, whatever the
    kernel writes meanwhile; an event that is read and put back is read again;
    the range of an overwritten buffer holds whole events only. *)

From S2P Require Import Prelude RingBuf.
Import RingBuf.

(** ** A writer that meets the promises *)

Definition kernel_write (r : ring) (bs : list Z) : option ring :=
  let size := Z.of_nat (length (data r)) in
  if u64 (data_head r - data_tail r) + Z.of_nat (length bs) <=? size
  then Some (Ring (u64 (data_head r + Z.of_nat (length bs))) (data_tail r) (aux_size r)
         (imap (fun j b => default b (bs !! Z.to_nat ((Z.of_nat j - data_head r) mod size))) (data r)))
  else None.

Lemma kernel_write_ok r bs r' :
  kernel_write r bs = Some r' ->
  let size := Z.of_nat (length (data r)) in
  u64 (data_head r - data_tail r) + Z.of_nat (length bs) <= size /\
  data_head r' = u64 (data_head r + Z.of_nat (length bs)) /\
  data_tail r' = data_tail r /\ aux_size r' = aux_size r /\
  length (data r') = length (data r) /\
  (forall i : nat, (i < length bs)%nat ->
     data r' !! Z.to_nat ((data_head r + Z.of_nat i) mod size) = bs !! i) /\
  (forall j : nat, (j < length (data r))%nat ->
     Z.of_nat (length bs) <= (Z.of_nat j - data_head r) mod size ->
     data r' !! j = data r !! j).
Proof.
  unfold kernel_write. intros E. case_match eqn:Hle; [|done]. apply Z.leb_le in Hle.
  injection E as <-. simpl. split; [done|]. split; [done|]. split; [done|]. split; [done|].
  pose proof (uwrap_range 64 ltac:(lia) (data_head r - data_tail r)) as [Hu _].
  split; [apply length_imap|]. split; intros i Hi.
  - set (size := Z.of_nat (length (data r))) in *.
    pose proof (Z.mod_pos_bound (data_head r + Z.of_nat i) size).
    rewrite list_lookup_imap, Z2Nat.id by lia.
    destruct (lookup_lt_is_Some_2 (data r) (Z.to_nat ((data_head r + Z.of_nat i) mod size)))
      as [x Hx]; [lia|].
    rewrite Hx. simpl. rewrite Zminus_mod_idemp_l.
    replace (data_head r + Z.of_nat i - data_head r) with (Z.of_nat i) by lia.
    rewrite Z.mod_small, Nat2Z.id by lia.
    destruct (lookup_lt_is_Some_2 bs i Hi) as [y ->]. done.
  - intros Hf. rewrite list_lookup_imap.
    destruct (lookup_lt_is_Some_2 (data r) i Hi) as [x ->]. simpl.
    rewrite lookup_ge_None_2 by lia. done.
Qed.

Definition reference_writer : RingProducer :=
  {| produce := kernel_write; produce_ok := kernel_write_ok |}.

(** ** The device's loop *)

(** C3: the loop of a device takes every event out of its ring buffer: started
    with the events [pend] in the buffer and with the kernel writing further
    events before each look at the buffer and while an event is processed, it
    processes [pend] and then exactly the events written meanwhile, each once,
    whole (also when it straddles the end of the buffer) and in order; it
    terminates, no access leaves the buffer or [event_copy], and the whole
    buffer is given back to the kernel. *)
Theorem handle_mmap_correct `{RingProducer} k realloc_ok junk cb r m T pend s :
  3 <= k <= 30 -> inv k r m T [] pend -> sched_wf s ->
  (forall n, realloc_ok n = true) -> flush m <= bytes_of pend ->
  exists r' m' n,
    perf_event_handle_mmap realloc_ok junk cb (S (length pend + sched_len s)) r m s =
      Some (r', m', pend ++ n, n) /\
    (exists T', inv k r' m' T' [] []) /\ data_tail r' = data_head r'.
Proof.
  intros Hk Hi Hs Hr Hf. remember (S _) as fuel eqn:Ef. pose proof (buf_size k Hk).
  pose proof Hi as [Il Im Io If Ial It Is Ip Ih Ir Iw Ib Ic].
  unfold perf_event_handle_mmap, perf_mmap__read_init.
  replace (refcnt m =? 0) with false by (symmetry; lia).
  unfold read_init_. rewrite Io. simpl. simpl in Ir, Ih. pose proof (bytes_of_nonneg pend).
  rewrite Ip, Is, Ih, bytes_of_nil, Z.add_0_r, uwrap_sub_l, uwrap_sub_r by lia.
  rewrite (uwrap_small 64) by (unfold in_u; lia).
  replace (T + bytes_of pend - T) with (bytes_of pend) by lia.
  replace (bytes_of pend <? flush m) with false by (symmetry; lia).
  rewrite Im. replace (_ <? bytes_of pend) with false by (symmetry; lia). simpl.
  edestruct (handle_loop_ok k Hk realloc_ok junk cb fuel r
    (set_range m (u64 T) (u64 (T + bytes_of pend))) T pend s)
    as (r' & m' & es & n & -> & -> & [T' Hi'] & He); [|done|done|lia|].
  - split; simpl; rewrite ?bytes_of_nil, ?Z.add_0_r; try done.
    rewrite Ip, Is, bytes_of_nil, Z.add_0_r. done.
  - simpl. eexists r', _, n. split; [done|].
    assert (perf_mmap__read_done r' m' = m') as ->.
    { unfold perf_mmap__read_done. rewrite (inv_mode _ _ _ _ _ _ Hi'), He, Z.eqb_refl.
      destruct (refcnt m' =? 0); done. }
    split; [eauto|]. rewrite (inv_tail _ _ _ _ _ _ Hi'), (inv_head _ _ _ _ _ _ Hi').
    simpl. rewrite bytes_of_nil, Z.add_0_r. done.
Qed.

Definition sample_event (ty n : Z) : list Z :=
  [ty; 0; 0; 0; 0; 0; n; 0] ++ repeat ty (Z.to_nat (n - 8)).

(** A buffer of 16 bytes with an event of 16 bytes at position 8. *)
Definition wrapped_ring : ring :=
  Ring 24 8 0 (repeat 9 8 ++ [9; 0; 0; 0; 0; 0; 16; 0]).
Definition wrapped_reader : perf_mmap :=
  Mmap true 15 3 0 2 8 8 0 false 0 false None 0.

Lemma wrapped_inv : inv 4 wrapped_ring wrapped_reader 8 [] [sample_event 9 16].
Proof. split; try (vm_compute; congruence). repeat constructor; vm_compute; congruence. Qed.

Definition wrapped_sched : schedule :=
  [([sample_event 7 8], [sample_event 6 8]); ([sample_event 5 8], [])].

Lemma handle_mmap_correct_witness :
  exists r' m' n,
    @perf_event_handle_mmap reference_writer (fun _ => true) 0 id
      (S (length [sample_event 9 16] + sched_len wrapped_sched)) wrapped_ring wrapped_reader
      wrapped_sched = Some (r', m', [sample_event 9 16] ++ n, n) /\
    (exists T', inv 4 r' m' T' [] []) /\ data_tail r' = data_head r'.
Proof.
  apply (@handle_mmap_correct reference_writer 4 (fun _ => true) 0 id wrapped_ring wrapped_reader 8
    [sample_event 9 16] wrapped_sched).
  - lia.
  - apply wrapped_inv.
  - repeat constructor; vm_compute; congruence.
  - done.
  - vm_compute. congruence.
Defined.

(** The kernel's first two attempts find the buffer full. *)
Example handle_mmap_run :
  (fun x => x.1.2) <$> @perf_event_handle_mmap reference_writer (fun _ => true) 0 id 4
    wrapped_ring wrapped_reader wrapped_sched =
  Some [sample_event 9 16; sample_event 5 8].
Proof. vm_compute. reflexivity. Qed.

(** ** Putting an event back *)

(** C17: an event that is read and put back with [perf_mmap__unread_event] is
    as if it had not been read: the read position, and with it the position
    the kernel is told of, are what they were, and the next read returns the
    same event again. *)
Theorem unread_read_roundtrip k realloc_ok junk r m T held e pend :
  3 <= k <= 30 -> inv k r m T held (e :: pend) -> (forall n, realloc_ok n = true) ->
  exists m' p, perf_mmap__read_event realloc_ok junk r r m = Some (m', Some p) /\
    event_bytes r m' p = Some e /\
    let back := perf_mmap__unread_event m' (Some (Z.of_nat (length e))) in
    start back = start m /\ prev back = prev m /\
    inv k r back T held (e :: pend) /\
    exists m2 p2, perf_mmap__read_event realloc_ok junk r r back = Some (m2, Some p2) /\
      event_bytes r m2 p2 = Some e.
Proof.
  intros Hk Hi Hr.
  destruct (read_event_inv k Hk realloc_ok junk _ _ _ _ _ _ Hi Hr) as (m' & p & E & Hi' & Hp).
  exists m', p. split; [done|]. split; [exact (ptr_bytes k Hk _ _ _ _ _ _ _ Hi' Hp)|].
  set (back := perf_mmap__unread_event m' (Some (Z.of_nat (length e)))).
  assert (start back = start m /\ prev back = start back /\ inv k r back T held (e :: pend))
    as (Es & Ep & Hb).
  { pose proof Hi as [Il Im Io If Ial It Is Ip Ih Ir Iw Ib Ic].
    destruct Hi' as [_ Im' Io' If' _ _ Is' _ _ _ _ _ Ic'].
    assert (start back = start m) as E1.
    { subst back. simpl. replace (refcnt m' =? 0) with false by (symmetry; lia).
      rewrite Io'. simpl. rewrite Is', Is, bytes_of_app, bytes_of_cons, bytes_of_nil.
      rewrite uwrap_sub_l by lia. f_equal. lia. }
    assert (overwrite back = false /\ mask back = mask m' /\ refcnt back = refcnt m' /\
      event_copy back = event_copy m' /\ event_copy_sz back = event_copy_sz m' /\
      prev back = start back) as (B1 & B2 & B3 & B4 & B5 & B6).
    { subst back. simpl. replace (refcnt m' =? 0) with false by (symmetry; lia).
      rewrite Io'. simpl. rewrite Io'. repeat split. }
    split; [done|]. split; [done|]. split; try done; congruence. }
  split; [done|]. split; [rewrite Ep, Es; symmetry; apply Hi|]. split; [done|].
  destruct (read_event_inv k Hk realloc_ok junk _ _ _ _ _ _ Hb Hr) as (m2 & p2 & E2 & Hi2 & Hp2).
  exists m2, p2. split; [done|]. exact (ptr_bytes k Hk _ _ _ _ _ _ _ Hi2 Hp2).
Qed.

Lemma unread_read_roundtrip_witness :
  exists m' p, perf_mmap__read_event (fun _ => true) 0 wrapped_ring wrapped_ring wrapped_reader =
      Some (m', Some p) /\
    event_bytes wrapped_ring m' p = Some (sample_event 9 16) /\
    let back := perf_mmap__unread_event m' (Some (Z.of_nat (length (sample_event 9 16)))) in
    start back = start wrapped_reader /\ prev back = prev wrapped_reader /\
    inv 4 wrapped_ring back 8 [] [sample_event 9 16] /\
    exists m2 p2, perf_mmap__read_event (fun _ => true) 0 wrapped_ring wrapped_ring back =
        Some (m2, Some p2) /\
      event_bytes wrapped_ring m2 p2 = Some (sample_event 9 16).
Proof.
  apply (unread_read_roundtrip 4 (fun _ => true) 0 wrapped_ring wrapped_reader 8 []).
  - lia.
  - apply wrapped_inv.
  - done.
Defined.

(** ** Range of an overwritten buffer *)

(** The events, newest first, that a buffer of [room] bytes holds whole. *)
Fixpoint fitting (room : Z) (es : list (list Z)) : list (list Z) :=
  match es with
  | e :: es => if Z.of_nat (length e) <=? room
               then e :: fitting (room - Z.of_nat (length e)) es else []
  | [] => []
  end.

(** The buffer, from position [S] on, holds [es] as far as it reaches, and an
    empty header after them when there is room left. *)
Record overwritten (k : Z) (d : list Z) (S : Z) (es : list (list Z)) : Prop := Overwritten {
  ow_len : Z.of_nat (length d) = 2 ^ k;
  ow_al : S mod 8 = 0;
  ow_wf : Forall wf_event es;
  ow_bytes : let n := Nat.min (length d) (length (concat es)) in
             ring_bytes d S n = take n (concat es);
  ow_end : bytes_of es < 2 ^ k -> header_size d ((S + bytes_of es) mod 2 ^ k) = Some 0
}.

Lemma ring_bytes_sub d S n c (i j : nat) :
  ring_bytes d S n = take n c -> (i + j <= n)%nat ->
  ring_bytes d (S + Z.of_nat i) j = take j (drop i c).
Proof.
  intros E Hn. replace n with (i + (j + (n - i - j)))%nat in E by lia.
  assert (length (take (i + (j + (n - i - j))) c) = (i + (j + (n - i - j)))%nat) as El by
    (rewrite <- E; apply ring_bytes_length).
  rewrite length_take in El.
  rewrite !ring_bytes_app, <- !take_take_drop in E.
  apply app_inj_1 in E as [_ E]; [|rewrite ring_bytes_length, length_take; lia].
  apply app_inj_1 in E as [E _]; [done|rewrite ring_bytes_length, length_take, length_drop; lia].
Qed.

Lemma fitting_app room a b :
  bytes_of a <= room -> fitting room (a ++ b) = a ++ fitting (room - bytes_of a) b.
Proof.
  revert room. induction a as [|e a IH]; intros room H; simpl.
  - rewrite bytes_of_nil, Z.sub_0_r. done.
  - rewrite bytes_of_cons in *. pose proof (bytes_of_nonneg a).
    destruct (Z.leb_spec (Z.of_nat (length e)) room); [|lia].
    rewrite IH by lia. do 2 f_equal. f_equal. lia.
Qed.

Lemma fitting_none room b :
  Forall wf_event b -> room < 8 -> fitting room b = [].
Proof.
  intros Hw Hr. destruct Hw as [|e b [Hl _] _]; [done|]. simpl.
  destruct (Z.leb_spec (Z.of_nat (length e)) room); [lia|done].
Qed.

Lemma fitting_stop room a x b :
  bytes_of a <= room < bytes_of a + Z.of_nat (length x) -> fitting room (a ++ x :: b) = a.
Proof.
  intros H. rewrite fitting_app by lia. simpl.
  destruct (Z.leb_spec (Z.of_nat (length x)) (room - bytes_of a)); [lia|]. apply app_nil_r.
Qed.

(** The headers met on the way are those of the events. *)
Lemma overwritten_header k d S a x b :
  3 <= k <= 30 -> overwritten k d S (a ++ x :: b) -> bytes_of a < 2 ^ k ->
  header_size d ((S + bytes_of a) mod 2 ^ k) = Some (Z.of_nat (length x)).
Proof.
  intros Hk [Hl Ha Hw Hb _] Hlt. apply Forall_app in Hw as [Hwa Hwx].
  inversion_clear Hwx as [|? ? Hx _]. pose proof (bytes_of_aligned _ Hwa) as Hal.
  pose proof (bytes_of_nonneg a). pose proof (pow2_split k Hk).
  assert (bytes_of a + 8 <= 2 ^ k) as Hfit.
  { pose proof (Z.div_mod (bytes_of a) 8 ltac:(lia)). lia. }
  apply header_at8; try done.
  - rewrite Z.add_mod, Ha, Hal by lia. done.
  - destruct Hx as [Hx _]. unfold bytes_of in *.
    rewrite (ring_bytes_sub _ _ _ _ _ 8 Hb).
    + rewrite concat_app, drop_app_length. simpl. rewrite take_app_long by lia. done.
    + rewrite concat_app, length_app. simpl. rewrite length_app. lia.
Qed.

Lemma find_range_loop_ok k d S es : 
  3 <= k <= 30 -> overwritten k d S es -> forall fuel a b sz,
  a ++ b = es -> 2 ^ k - bytes_of a < Z.of_nat fuel -> (0 < fuel)%nat ->
  (bytes_of a <= 2 ^ k \/ exists a0 x, a = a0 ++ [x] /\ bytes_of a0 < 2 ^ k /\ sz = Z.of_nat (length x)) ->
  find_range_loop fuel d (2 ^ k - 1) (u64 S) (u64 (S + bytes_of a)) sz =
    Some (u64 (S + bytes_of (fitting (2 ^ k) es))).
Proof.
  intros Hk Ho. pose proof (buf_size k Hk). pose proof (ow_wf _ _ _ _ Ho) as Hw.
  induction fuel as [|fuel IH]; intros a b sz <- Hf H0 Hsz; [lia|]. cbn [find_range_loop].
  pose proof (proj1 (Forall_app _ _ _) Hw) as [Hwa Hwb]. pose proof (bytes_of_nonneg a).
  replace (2 ^ k - 1 + 1) with (2 ^ k) by lia.
  rewrite (swrap_small 32), (uwrap_small 32 ltac:(lia) (2 ^ k)) by (unfold in_s, in_u; lia).
  assert (bytes_of a < 2 ^ 32) as Hmax.
  { destruct Hsz as [|(a0 & x & -> & ? & ?)]; [lia|]. rewrite bytes_of_app, bytes_of_cons, bytes_of_nil.
    apply Forall_app in Hwa as [_ Hx]. inversion_clear Hx as [|? ? [Hx' _] _]. lia. }
  rewrite uwrap_sub_l, uwrap_sub_r by lia. replace (S + bytes_of a - S) with (bytes_of a) by lia.
  rewrite (uwrap_small 64 ltac:(lia) (bytes_of a)) by (unfold in_u; lia).
  destruct (Z.leb_spec (2 ^ k) (bytes_of a)).
  - f_equal. destruct (Z.ltb_spec (2 ^ k) (bytes_of a)).
    + destruct Hsz as [|(a0 & x & -> & Ha0 & ->)]; [lia|].
      rewrite bytes_of_app, bytes_of_cons, bytes_of_nil in *.
      rewrite <- app_assoc. simpl. rewrite fitting_stop by lia.
      rewrite uwrap_sub_l by lia. f_equal. lia.
    + rewrite fitting_app, fitting_none, app_nil_r by (done || lia). done.
  - rewrite land_mask, (mod_pow2_uwrap 64) by lia. destruct b as [|x b].
    + rewrite app_nil_r in *. rewrite (ow_end _ _ _ _ Ho) by lia. simpl.
      rewrite <- (app_nil_r a) at 2. rewrite fitting_app, app_nil_r by lia. done.
    + rewrite (overwritten_header _ _ _ _ _ _ Hk Ho) by lia. simpl.
      inversion_clear Hwb as [|? ? [Hx _] _].
      destruct (Z.eqb_spec (Z.of_nat (length x)) 0); [lia|].
      rewrite uwrap_add_l by lia.
      assert (bytes_of (a ++ [x]) = bytes_of a + Z.of_nat (length x)) as E by
        (rewrite bytes_of_app, bytes_of_cons, bytes_of_nil; lia).
      rewrite <- Z.add_assoc, <- E. apply (IH _ b); rewrite ?E; try lia.
      * rewrite <- app_assoc. done.
      * right. exists a, x. auto with lia.
Qed.

(** C18: in a buffer the kernel overwrites backwards, the range found by
    [overwrite_rb_find_range] ends after the last event the buffer still holds
    whole: the newest events are all in the range, in full, an event that is
    partly overwritten is left out, and the search terminates and stays inside
    the buffer. *)
Theorem find_range_correct k d S es :
  3 <= k <= 30 -> overwritten k d S es ->
  overwrite_rb_find_range d (2 ^ k - 1) (u64 S) =
    Some (u64 (S + bytes_of (fitting (2 ^ k) es))).
Proof.
  intros Hk Ho. pose proof (buf_size k Hk). unfold overwrite_rb_find_range.
  rewrite land_mask, (mod_pow2_uwrap 64) by lia.
  assert (exists sz, header_size d (S mod 2 ^ k) = Some sz) as [sz E].
  { rewrite <- (Z.add_0_r S). rewrite <- bytes_of_nil. destruct es as [|x es].
    - rewrite (ow_end _ _ _ _ Ho); [eauto|rewrite bytes_of_nil; lia].
    - rewrite (overwritten_header k d S [] x es Hk Ho); [eauto|rewrite bytes_of_nil; lia]. }
  rewrite E. simpl. rewrite <- (Z.add_0_r S) at 2.
  rewrite <- bytes_of_nil. apply (find_range_loop_ok k d S es Hk Ho _ [] es); rewrite ?bytes_of_nil; [done|lia..].
Qed.

Lemma find_range_correct_witness :
  overwrite_rb_find_range
    ([4; 0; 0; 0; 0; 0; 16; 0] ++ sample_event 3 16 ++ sample_event 2 8) (2 ^ 5 - 1) (u64 8) =
    Some (u64 (8 + bytes_of (fitting (2 ^ 5) [sample_event 3 16; sample_event 2 8; sample_event 4 16]))).
Proof.
  apply find_range_correct.
  - lia.
  - split; try (vm_compute; congruence). repeat constructor; vm_compute; congruence.
Defined.
