(* ===== verification/SampleLayout.v ===== *)
(** * Layout of sample records (convert.c, lib/perf/evsel.c)

    A PERF_RECORD_SAMPLE holds the fields named by [attr.sample_type], in the
    order of the kernel's ABI; some have a size only the record tells.
    [perf_event_members] builds a table of the fields, [perf_event_member_offset]
    finds a field of a given record, [perf_sample_pos_init] computes the
    positions of the fixed fields a device looks at.

    A record is the list of its bytes after the header ([event->sample.array]).
    A read outside the record and the use of a NULL member is [None]. *)

From S2P Require Import Prelude.

Module SampleLayout.

(** ** Sample formats (uapi/linux/perf_event.h) *)

Definition PERF_SAMPLE_IP : Z := 2 ^ 0.
Definition PERF_SAMPLE_TID : Z := 2 ^ 1.
Definition PERF_SAMPLE_TIME : Z := 2 ^ 2.
Definition PERF_SAMPLE_ADDR : Z := 2 ^ 3.
Definition PERF_SAMPLE_READ : Z := 2 ^ 4.
Definition PERF_SAMPLE_CALLCHAIN : Z := 2 ^ 5.
Definition PERF_SAMPLE_ID : Z := 2 ^ 6.
Definition PERF_SAMPLE_CPU : Z := 2 ^ 7.
Definition PERF_SAMPLE_PERIOD : Z := 2 ^ 8.
Definition PERF_SAMPLE_STREAM_ID : Z := 2 ^ 9.
Definition PERF_SAMPLE_RAW : Z := 2 ^ 10.
Definition PERF_SAMPLE_BRANCH_STACK : Z := 2 ^ 11.
Definition PERF_SAMPLE_REGS_USER : Z := 2 ^ 12.
Definition PERF_SAMPLE_STACK_USER : Z := 2 ^ 13.
Definition PERF_SAMPLE_WEIGHT : Z := 2 ^ 14.
Definition PERF_SAMPLE_DATA_SRC : Z := 2 ^ 15.
Definition PERF_SAMPLE_IDENTIFIER : Z := 2 ^ 16.
Definition PERF_SAMPLE_TRANSACTION : Z := 2 ^ 17.
Definition PERF_SAMPLE_REGS_INTR : Z := 2 ^ 18.
Definition PERF_SAMPLE_PHYS_ADDR : Z := 2 ^ 19.
Definition PERF_SAMPLE_AUX : Z := 2 ^ 20.
Definition PERF_SAMPLE_CGROUP : Z := 2 ^ 21.
Definition PERF_SAMPLE_DATA_PAGE_SIZE : Z := 2 ^ 22.
Definition PERF_SAMPLE_CODE_PAGE_SIZE : Z := 2 ^ 23.
Definition PERF_SAMPLE_WEIGHT_STRUCT : Z := 2 ^ 24.
Definition PERF_SAMPLE_MAX : Z := 2 ^ 25.

Definition PERF_FORMAT_TOTAL_TIME_ENABLED : Z := 2 ^ 0.
Definition PERF_FORMAT_TOTAL_TIME_RUNNING : Z := 2 ^ 1.
Definition PERF_FORMAT_ID : Z := 2 ^ 2.
Definition PERF_FORMAT_GROUP : Z := 2 ^ 3.
Definition PERF_FORMAT_LOST : Z := 2 ^ 4.

(** [flags & bit] as a condition. *)
Definition has (flags bit : Z) : bool := negb (Z.land flags bit =? 0).

(** ** Events *)

(** What the layout depends on of a [struct perf_event_attr] and its evsel. *)
Record evsel := Evsel {
  sample_period : Z;
  sample_type : Z;
  read_format : Z;
  sample_regs_user : Z;
  sample_regs_intr : Z;
  nr_members : Z
}.

Definition perf_evsel__read_size (e : evsel) : Z :=
  let size := (if has (read_format e) PERF_FORMAT_TOTAL_TIME_ENABLED then 8 else 0) +
              (if has (read_format e) PERF_FORMAT_TOTAL_TIME_RUNNING then 8 else 0) in
  let entry := 8 + (if has (read_format e) PERF_FORMAT_ID then 8 else 0) +
               (if has (read_format e) PERF_FORMAT_LOST then 8 else 0) in
  if has (read_format e) PERF_FORMAT_GROUP
  then size + 8 + entry * nr_members e else size + entry.

(** Number of set bits, [__sw_hweight64] on 64-bit machines. *)
Definition hweight64 (w : Z) : Z :=
  let res := u64 (w - Z.land (Z.shiftr w 1) 0x5555555555555555) in
  let res := u64 (Z.land res 0x3333333333333333 +
                  Z.land (Z.shiftr res 2) 0x3333333333333333) in
  let res := Z.land (u64 (res + Z.shiftr res 4)) 0x0F0F0F0F0F0F0F0F in
  let res := u64 (res + Z.shiftr res 8) in
  let res := u64 (res + Z.shiftr res 16) in
  Z.land (u64 (res + Z.shiftr res 32)) 0xFF.

(** ** Member table *)

Record member := Member {
  name : string;
  offset : Z;
  size : Z;
  deps : Z;
  format : Z
}.

(** The quick-access pointers of [struct perf_event_member_cache]: each is an
    index into [members], or NULL. *)
Inductive cfield :=
  | F_id | F_time | F_cpu | F_pid | F_tid | F_callchain | F_raw | F_branch_stack
  | F_regs_user | F_stack_user | F_regs_intr | F_aux.

#[export] Instance cfield_eq_dec : EqDecision cfield.
Proof. solve_decision. Defined.

Record cache := Cache {
  members : list member;
  field : cfield -> option nat;
  cache_nr_members : Z;
  cache_sample_type : Z
}.

(** The variables [offset], [deps] and [i] of the construction, with the table
    built so far. *)
Record build := Build {
  b_members : list member;
  b_field : cfield -> option nat;
  b_offset : Z;
  b_deps : Z
}.

(** One use of the macro [ADD_MEMBER]: its arguments, and its statements
    [__VA_ARGS__]: the quick pointer they set, the bytes they skip and the
    size they store instead of [sz]. *)
Record add := Add {
  a_name : string;
  a_sz : Z;
  a_fmt : Z;
  a_field : option cfield;
  a_skip : Z;
  a_size : option Z
}.

Definition ADD_MEMBER (st : Z) (s : build) (a : add) : build :=
  if has st (a_fmt a)
  then Build (b_members s ++ [Member (a_name a) (b_offset s) (default (a_sz a) (a_size a)) (b_deps s)
                (a_fmt a)])
         (match a_field a with
          | Some f => fun g => if decide (g = f) then Some (length (b_members s)) else b_field s g
          | None => b_field s
          end)
         (b_offset s + a_skip a + a_sz a)
         (Z.lor (b_deps s) (if a_sz a =? 0 then a_fmt a else 0))
  else s.

(** The uses of the macro, in the order of the code. *)
Definition adds (st : Z) (e : evsel) : list add :=
  [Add "identifier" 8 PERF_SAMPLE_IDENTIFIER (Some F_id) 0 None;
   Add "ip" 8 PERF_SAMPLE_IP None 0 None;
   Add "pid" 4 PERF_SAMPLE_TID (Some F_pid) 0 None;
   Add "tid" 4 PERF_SAMPLE_TID (Some F_tid) 0 None;
   Add "time" 8 PERF_SAMPLE_TIME (Some F_time) 0 None;
   Add "addr" 8 PERF_SAMPLE_ADDR None 0 None;
   Add "id" 8 PERF_SAMPLE_ID (Some F_id) 0 None;
   Add "stream_id" 8 PERF_SAMPLE_STREAM_ID (Some F_id) 0 None;
   Add "cpu" 4 PERF_SAMPLE_CPU (Some F_cpu) 4 None;
   Add "period" 8 PERF_SAMPLE_PERIOD None 0 None;
   Add "read" (perf_evsel__read_size e) PERF_SAMPLE_READ None 0 None;
   Add "callchain" 0 PERF_SAMPLE_CALLCHAIN (Some F_callchain) 0 None;
   Add "raw" 0 PERF_SAMPLE_RAW (Some F_raw) 0 None;
   Add "branch_stack" 0 PERF_SAMPLE_BRANCH_STACK (Some F_branch_stack) 0 None;
   Add "regs_user" 0 PERF_SAMPLE_REGS_USER (Some F_regs_user) 0
     (Some (8 + hweight64 (sample_regs_user e) * 8));
   Add "stack_user" 0 PERF_SAMPLE_STACK_USER (Some F_stack_user) 0 None;
   Add "weight" 8 PERF_SAMPLE_WEIGHT None 0 None] ++
  (if has st PERF_SAMPLE_WEIGHT then []
   else [Add "weight" 8 PERF_SAMPLE_WEIGHT_STRUCT None 0 None]) ++
  [Add "data_src" 8 PERF_SAMPLE_DATA_SRC None 0 None;
   Add "transaction" 8 PERF_SAMPLE_TRANSACTION None 0 None;
   Add "regs_intr" 0 PERF_SAMPLE_REGS_INTR (Some F_regs_intr) 0
     (Some (8 + hweight64 (sample_regs_intr e) * 8));
   Add "phys_addr" 8 PERF_SAMPLE_PHYS_ADDR None 0 None;
   Add "aux" 0 PERF_SAMPLE_AUX (Some F_aux) 0 None;
   Add "cgroup" 8 PERF_SAMPLE_CGROUP None 0 None;
   Add "data_page_size" 8 PERF_SAMPLE_DATA_PAGE_SIZE None 0 None;
   Add "code_page_size" 8 PERF_SAMPLE_CODE_PAGE_SIZE None 0 None].

(** The number of members the table is allocated for. *)
Definition count_members (st : Z) : Z :=
  b2z (has st PERF_SAMPLE_IDENTIFIER) + b2z (has st PERF_SAMPLE_IP) +
  (if has st PERF_SAMPLE_TID then 2 else 0) + b2z (has st PERF_SAMPLE_TIME) +
  b2z (has st PERF_SAMPLE_ADDR) + b2z (has st PERF_SAMPLE_ID) +
  b2z (has st PERF_SAMPLE_STREAM_ID) + b2z (has st PERF_SAMPLE_CPU) +
  b2z (has st PERF_SAMPLE_PERIOD) + b2z (has st PERF_SAMPLE_READ) +
  b2z (has st PERF_SAMPLE_CALLCHAIN) + b2z (has st PERF_SAMPLE_RAW) +
  b2z (has st PERF_SAMPLE_BRANCH_STACK) + b2z (has st PERF_SAMPLE_REGS_USER) +
  b2z (has st PERF_SAMPLE_STACK_USER) +
  (if has st PERF_SAMPLE_WEIGHT then 1 else b2z (has st PERF_SAMPLE_WEIGHT_STRUCT)) +
  b2z (has st PERF_SAMPLE_DATA_SRC) + b2z (has st PERF_SAMPLE_TRANSACTION) +
  b2z (has st PERF_SAMPLE_REGS_INTR) + b2z (has st PERF_SAMPLE_PHYS_ADDR) +
  b2z (has st PERF_SAMPLE_AUX) + b2z (has st PERF_SAMPLE_CGROUP) +
  b2z (has st PERF_SAMPLE_DATA_PAGE_SIZE) + b2z (has st PERF_SAMPLE_CODE_PAGE_SIZE).

(** [None] when [sample_type] names no field or [malloc] fails. *)
Definition perf_event_members (malloc_ok : bool) (e : evsel) : option cache :=
  let st := Z.land (sample_type e) (PERF_SAMPLE_MAX - 1) in
  if st =? 0 then None
  else if negb malloc_ok then None
  else let s := foldl (ADD_MEMBER st) (Build [] (fun _ => None) 0 0) (adds st e) in
       Some (Cache (b_members s) (b_field s) (count_members st) st).

(** ** Fields of a record *)

Definition le (bs : list Z) : Z := foldr (fun b acc => b + 256 * acc) 0 bs.

Definition read_le (n : nat) (data : list Z) (off : Z) : option Z :=
  if (0 <=? off) && (off + Z.of_nat n <=? Z.of_nat (length data))
  then Some (le (take n (drop (Z.to_nat off) data))) else None.

Definition member_at (c : cache) (f : cfield) : option member :=
  i ← field c f; members c !! i.

(** One [if (member->deps & fmt)] of [perf_event_member_offset]: the size of
    the dependency is a function of its first [n] bytes. *)
Definition dep_step (c : cache) (m : member) (data : list Z)
    (acc : option Z) (d : Z * cfield * nat * (member -> Z -> Z)) : option Z :=
  let '(fmt, f, n, size_of) := d in
  deps_size ← acc;
  if has (deps m) fmt
  then p ← member_at c f;
       v ← read_le n data (offset p + deps_size);
       Some (s32 (deps_size + size_of p v))
  else Some deps_size.

Definition dep_table : list (Z * cfield * nat * (member -> Z -> Z)) :=
  [(PERF_SAMPLE_CALLCHAIN, F_callchain, 8%nat, fun _ nr => 8 + nr * 8);
   (PERF_SAMPLE_RAW, F_raw, 4%nat, fun _ size => 4 + size);
   (PERF_SAMPLE_BRANCH_STACK, F_branch_stack, 8%nat, fun _ nr => 8 + nr * 24);
   (PERF_SAMPLE_REGS_USER, F_regs_user, 8%nat,
     fun p abi => if negb (abi =? 0) then size p else 8);
   (PERF_SAMPLE_STACK_USER, F_stack_user, 8%nat,
     fun _ size => 8 + (if negb (size =? 0) then size + 8 else 0));
   (PERF_SAMPLE_REGS_INTR, F_regs_intr, 8%nat,
     fun p abi => if negb (abi =? 0) then size p else 8);
   (PERF_SAMPLE_AUX, F_aux, 8%nat, fun _ size => 8 + size)].

Definition perf_event_member_offset (c : cache) (m : member) (data : list Z) : option Z :=
  if deps m =? 0 then Some (offset m)
  else d ← foldl (dep_step c m data) (Some 0) dep_table; Some (s32 (offset m + d)).

(** [struct callchain_data]: the pointers are positions in the record. *)
Record callchain_data := CallchainData {
  cd_callchain : option Z;
  cd_pid : Z;
  cd_regs_abi : Z;
  cd_regs : option Z;
  cd_stack : option Z;
  cd_stack_sz : Z
}.

Definition perf_event_build_callchain_data (c : option cache) (data : list Z)
    : option callchain_data :=
  let get f := c ← c; member_at c f in
  pid ← match get F_pid with Some p => read_le 4 data (offset p) | None => Some 0 end;
  let callchain := offset <$> get F_callchain in
  match c, get F_regs_user, get F_stack_user with
  | Some c, Some regs_user, Some stack_user =>
      o ← perf_event_member_offset c regs_user data;
      abi ← read_le 8 data o;
      let regs := if negb (abi =? 0) then Some (o + 8) else None in
      o ← perf_event_member_offset c stack_user data;
      size ← read_le 8 data o;
      if negb (size =? 0)
      then sz ← read_le 8 data (o + 8 + size);
           Some (CallchainData callchain pid abi regs (Some (o + 8)) sz)
      else Some (CallchainData callchain pid abi regs None 0)
  | _, _, _ => Some (CallchainData callchain pid 0 None None 0)
  end.

(** ** Positions of a device *)

Record sample_pos := SamplePos {
  pos_sample_type : Z;
  tid_pos : Z;
  time_pos : Z;
  id_pos : Z;
  cpu_pos : Z;
  callchain_pos : Z
}.

Definition is_sampling_event (e : evsel) : bool := negb (sample_period e =? 0).

Definition POS_MASK : Z :=
  Z.lor PERF_SAMPLE_IDENTIFIER (Z.lor PERF_SAMPLE_IP (Z.lor PERF_SAMPLE_TID
  (Z.lor PERF_SAMPLE_TIME (Z.lor PERF_SAMPLE_ADDR (Z.lor PERF_SAMPLE_ID
  (Z.lor PERF_SAMPLE_STREAM_ID (Z.lor PERF_SAMPLE_CPU (Z.lor PERF_SAMPLE_PERIOD
  PERF_SAMPLE_READ)))))))).

(** The loop over the events of the list: their common sample type, and the
    event when there is only one. *)
Fixpoint common_type (st : Z) (onlyone : option evsel) (l : list evsel)
    : option (Z * option evsel) :=
  match l with
  | [] => Some (st, onlyone)
  | e :: l =>
      if is_sampling_event e then
        let t := Z.land (sample_type e) POS_MASK in
        if st =? 0 then common_type t (Some e) l
        else if negb (st =? t) then None
        else common_type st None l
      else common_type st onlyone l
  end.

(** [fix_sample_pos] is the profiler's hook, the identity when it has none. *)
Definition perf_sample_pos_init (fix_sample_pos : sample_pos -> sample_pos) (l : list evsel)
    : option sample_pos :=
  '(st, onlyone) ← common_type 0 None l;
  let pos := 0 in
  let pos := if has st PERF_SAMPLE_IDENTIFIER then pos + 8 else pos in
  let pos := if has st PERF_SAMPLE_IP then pos + 8 else pos in
  let tid_pos := if has st PERF_SAMPLE_TID then pos else -1 in
  let pos := if has st PERF_SAMPLE_TID then pos + (4 + 4) else pos in
  let time_pos := if has st PERF_SAMPLE_TIME then pos else -1 in
  let pos := if has st PERF_SAMPLE_TIME then pos + 8 else pos in
  let pos := if has st PERF_SAMPLE_ADDR then pos + 8 else pos in
  let id_pos := if has st PERF_SAMPLE_ID then pos else -1 in
  let pos := if has st PERF_SAMPLE_ID then pos + 8 else pos in
  let pos := if has st PERF_SAMPLE_STREAM_ID then pos + 8 else pos in
  let cpu_pos := if has st PERF_SAMPLE_CPU then pos else -1 in
  let pos := if has st PERF_SAMPLE_CPU then pos + (4 + 4) else pos in
  let pos := if has st PERF_SAMPLE_PERIOD then pos + 8 else pos in
  let callchain_pos :=
    if has st PERF_SAMPLE_READ
    then match onlyone with Some e => pos + perf_evsel__read_size e | None => -1 end
    else pos in
  Some (fix_sample_pos (SamplePos st tid_pos time_pos id_pos cpu_pos callchain_pos)).

Definition perf_sample_forward_init (fix_sample_pos : sample_pos -> sample_pos) (l : list evsel)
    : option sample_pos :=
  p ← perf_sample_pos_init fix_sample_pos l;
  let mask := Z.lor PERF_SAMPLE_TID (Z.lor PERF_SAMPLE_TIME PERF_SAMPLE_CPU) in
  let st := pos_sample_type p in
  if negb (st =? 0) && negb (Z.land st mask =? mask) then None else Some p.

(** The event a record belongs to; [id_to_evsel] is the lookup of the list
    (lib/perf/evlist.c). *)
Definition perf_event_evsel (id_to_evsel : Z -> option evsel) (l : list evsel) (p : sample_pos)
    (data : list Z) : option (option evsel) :=
  match l with
  | [e] => Some (Some e)
  | _ =>
      if id_pos p <? 0 then
        Some (match filter (fun e => is_sampling_event e = true) l with
              | [e] => Some e
              | _ => None
              end)
      else id ← read_le 8 data (id_pos p); Some (id_to_evsel id)
  end.
End SampleLayout.
