(* ===== verification/Hweight.v ===== *)
(** * Counting bits (__sw_hweight64)

    The parallel sums of [hweight64] are the number of set bits of the word: the
    sizes of the register fields of a sample are computed with it. *)

From S2P Require Import Prelude SampleLayout.
Import SampleLayout.

Module Hweight.

Local Open Scope Z_scope.

Lemma byte_bit d a i : 0 <= d < 256 -> 0 <= i -> Z.testbit (d + 256 * a) i = if i <? 8 then Z.testbit d i else Z.testbit a (i - 8).
Proof.
  intros Hd Hi. destruct (Z.ltb_spec i 8).
  - rewrite <- (Z.mod_pow2_bits_low _ 8) by lia. change (2 ^ 8) with 256. rewrite Z.mul_comm, Z.mod_add, Z.mod_small by lia. done.
  - replace i with ((i - 8) + 8) at 1 by lia. rewrite <- Z.div_pow2_bits by lia. change (2 ^ 8) with 256.
    rewrite Z.mul_comm, Z.div_add, Z.div_small by lia. done.
Qed.

Lemma land_byte d m : 0 <= d < 256 -> 0 <= Z.land d m < 256.
Proof.
  intros Hd. replace (Z.land d m) with (Z.land (Z.land d m) (Z.ones 8)).
  - rewrite Z.land_ones by lia. change (2 ^ 8) with 256. apply Z.mod_pos_bound. lia.
  - rewrite <- Z.land_assoc, (Z.land_comm m), Z.land_assoc, Z.land_ones, Z.mod_small by (change (2 ^ 8) with 256; lia). done.
Qed.

Lemma land_bytes d a m M : 0 <= d < 256 -> 0 <= m < 256 -> Z.land (d + 256 * a) (m + 256 * M) = Z.land d m + 256 * Z.land a M.
Proof.
  intros Hd Hm. apply Z.bits_inj'. intros i Hi. rewrite Z.land_spec, !byte_bit by (done || apply land_byte; done).
  destruct (i <? 8); rewrite Z.land_spec; done.
Qed.

(** What holds of every byte is checked on each. *)
Lemma on_all (P : Z -> bool) n : forallb P (seqZ 0 n) = true -> forall d, 0 <= d < n -> P d = true.
Proof. intros H d Hd. rewrite forallb_forall in H. apply H, list_elem_of_In, elem_of_seqZ. lia. Qed.

(** A mask of [n] equal bytes. *)
Fixpoint rep (n : nat) (m : Z) : Z := match n with O => 0 | S n => m + 256 * rep n m end.

Definition low_shift (s m d t : Z) : Z := Z.land (Z.shiftr d s + 2 ^ (8 - s) * t) m.

Lemma shift_bytes s m d a M : 0 <= s <= 8 -> 0 <= d < 256 -> 0 <= m < 256 -> low_shift s m d (a mod 2 ^ s) = low_shift s m d 0 ->
  Z.land (Z.shiftr (d + 256 * a) s) (m + 256 * M) = Z.land (Z.shiftr d s) m + 256 * Z.land (Z.shiftr a s) M.
Proof.
  intros Hs Hd Hm Hlow. unfold low_shift in Hlow. rewrite Z.mul_0_r, Z.add_0_r in Hlow.
  pose proof (Z.pow_pos_nonneg 2 s ltac:(lia) ltac:(lia)). pose proof (Z.pow_pos_nonneg 2 (8 - s) ltac:(lia) ltac:(lia)).
  assert (2 ^ s * 2 ^ (8 - s) = 256) as E by (rewrite <- Z.pow_add_r by lia; replace (s + (8 - s)) with 8 by lia; done).
  rewrite !Z.shiftr_div_pow2 in * by lia.
  pose proof (Z.mod_pos_bound a (2 ^ s) ltac:(lia)). pose proof (Z.div_pos d (2 ^ s) ltac:(lia) ltac:(lia)).
  assert (d / 2 ^ s < 2 ^ (8 - s)) by (apply Z.div_lt_upper_bound; lia).
  replace ((d + 256 * a) / 2 ^ s) with ((d / 2 ^ s + 2 ^ (8 - s) * (a mod 2 ^ s)) + 256 * (a / 2 ^ s)).
  - rewrite land_bytes by (done || nia). rewrite Hlow. done.
  - rewrite <- E. replace (d + 2 ^ s * 2 ^ (8 - s) * a) with (d + 2 ^ (8 - s) * a * 2 ^ s) by lia. rewrite Z.div_add by lia.
    rewrite (Z.div_mod a (2 ^ s)) at 3 by lia. nia.
Qed.

(** The three steps within bytes. *)
Definition pair_sums (n : nat) (w : Z) : Z := w - Z.land (Z.shiftr w 1) (rep n 0x55).
Definition nibble_sums (n : nat) (w : Z) : Z := Z.land w (rep n 0x33) + Z.land (Z.shiftr w 2) (rep n 0x33).
Definition byte_sums (n : nat) (w : Z) : Z := Z.land (w + Z.shiftr w 4) (rep n 0x0F).

Definition byte1 (d : Z) : Z := d - Z.land (Z.shiftr d 1) 0x55.
Definition byte2 (d : Z) : Z := Z.land d 0x33 + Z.land (Z.shiftr d 2) 0x33.

(** The number of set bits. *)
Definition weight (n : Z) (w : Z) : Z := foldr (fun i s => b2z (Z.testbit w i) + s) 0 (seqZ 0 n).

Ltac check_bytes Hd :=
  match type of Hd with 0 <= ?d < ?n => match goal with |- ?b = true =>
    let f := eval pattern d in b in match f with ?F _ => refine (on_all F n _ d Hd); vm_compute; reflexivity end end end.

Lemma pair_sums_bytes n d a : 0 <= d < 256 -> pair_sums (S n) (d + 256 * a) = byte1 d + 256 * pair_sums n a.
Proof.
  intros Hd. unfold pair_sums, byte1. cbn [rep]. rewrite shift_bytes; [lia|lia|lia|lia|].
  pose proof (Z.mod_pos_bound a (2 ^ 1) ltac:(lia)) as Ht. generalize dependent (a mod 2 ^ 1). intros t Ht.
  apply Z.eqb_eq. assert (forallb (fun t => low_shift 1 0x55 d t =? low_shift 1 0x55 d 0) (seqZ 0 2) = true) as H by check_bytes Hd.
  apply (on_all _ _ H t Ht).
Qed.

Lemma nibble_sums_bytes n d a : 0 <= d < 256 -> nibble_sums (S n) (d + 256 * a) = byte2 d + 256 * nibble_sums n a.
Proof.
  intros Hd. unfold nibble_sums, byte2. cbn [rep]. rewrite shift_bytes, land_bytes; [lia|lia|lia|lia|lia|lia|].
  pose proof (Z.mod_pos_bound a (2 ^ 2) ltac:(lia)) as Ht. generalize dependent (a mod 2 ^ 2). intros t Ht.
  apply Z.eqb_eq. assert (forallb (fun t => low_shift 2 0x33 d t =? low_shift 2 0x33 d 0) (seqZ 0 4) = true) as H by check_bytes Hd.
  apply (on_all _ _ H t Ht).
Qed.

Definition count3 (n : nat) (w : Z) : Z := nibble_sums n (pair_sums n w).

Lemma count3_bytes n d a : 0 <= d < 256 -> count3 (S n) (d + 256 * a) = byte2 (byte1 d) + 256 * count3 n a.
Proof.
  intros Hd. unfold count3. rewrite pair_sums_bytes by done. apply nibble_sums_bytes.
  assert ((0 <=? byte1 d) && (byte1 d <? 256) = true) as H by check_bytes Hd. lia.
Qed.

Lemma count3_low n a : 0 <= a < 256 ^ Z.of_nat n -> 0 <= count3 n a mod 16 <= 4.
Proof.
  destruct n as [|n]; intros Ha; [assert (a = 0) as -> by (simpl in Ha; lia); done|].
  rewrite (Z.div_mod a 256), Z.add_comm by lia. pose proof (Z.mod_pos_bound a 256 ltac:(lia)) as Hd. rewrite count3_bytes by done.
  replace (256 * count3 n (a / 256)) with (16 * count3 n (a / 256) * 16) by lia. rewrite Z.mod_add by lia. generalize dependent (a mod 256). intros d Hd.
  assert ((0 <=? byte2 (byte1 d) mod 16) && (byte2 (byte1 d) mod 16 <=? 4) = true) as H by check_bytes Hd. lia.
Qed.

Lemma byte_sums_bytes n d a : 0 <= d < 256 -> 0 <= a < 256 ^ Z.of_nat n ->
  byte_sums (S n) (count3 (S n) (d + 256 * a)) = weight 8 d + 256 * byte_sums n (count3 n a).
Proof.
  intros Hd Ha. rewrite count3_bytes by done. pose proof (count3_low n a Ha) as Ht. unfold byte_sums. cbn [rep].
  set (c := byte2 (byte1 d)) in *. set (A := count3 n a) in *.
  assert ((0 <=? c) && (c <=? 68) = true) as Hc by (unfold c; check_bytes Hd).
  rewrite !Z.shiftr_div_pow2 by lia. change (2 ^ 4) with 16.
  replace ((c + 256 * A) / 16) with (c / 16 + 16 * A) by (replace (c + 256 * A) with (c + 16 * A * 16) by lia; rewrite Z.div_add by lia; lia).
  pose proof (Z.div_mod A 16 ltac:(lia)) as EA. pose proof (Z.div_le_mono c 68 16 ltac:(lia) ltac:(lia)) as Hq. change (68 / 16) with 4 in Hq.
  pose proof (Z.div_pos c 16 ltac:(lia) ltac:(lia)).
  replace (c + 256 * A + (c / 16 + 16 * A)) with ((c + c / 16 + 16 * (A mod 16)) + 256 * (A + A / 16)) by lia.
  rewrite land_bytes by lia. f_equal. apply Z.eqb_eq. generalize dependent (A mod 16). intros t Ht _.
  assert (forallb (fun t => Z.land (byte2 (byte1 d) + byte2 (byte1 d) / 16 + 16 * t) 0x0F =? weight 8 d) (seqZ 0 5) = true) as Hall by check_bytes Hd.
  apply (on_all _ _ Hall t). lia.
Qed.

(** ** The word *)

Lemma weight_byte n d a : 8 <= n -> 0 <= d < 256 -> weight n (d + 256 * a) = weight 8 d + weight (n - 8) a.
Proof.
  intros Hn Hd. unfold weight. replace (seqZ 0 n) with (seqZ 0 8 ++ (Z.add 8 <$> seqZ 0 (n - 8))).
  - rewrite foldr_app, foldr_fmap.
    assert (forall l x y, (forall i, i ∈ l -> 0 <= i < 8) -> x = y -> foldr (fun i s => b2z (Z.testbit (d + 256 * a) i) + s) x l =
      foldr (fun i s => b2z (Z.testbit d i) + s) 0 l + y) as Hlow.
    { induction l as [|i l IH]; intros x y Hl Exy; [cbn; lia|]. cbn. rewrite (IH x y) by (done || intros; apply Hl; set_solver).
      rewrite byte_bit by (done || apply Hl; set_solver). destruct (Z.ltb_spec i 8); [lia|]. pose proof (Hl i ltac:(set_solver)). lia. }
    apply Hlow; [intros i Hi; apply elem_of_seqZ in Hi; lia|].
    assert (forall l, (forall i, i ∈ l -> 0 <= i) -> foldr (fun i s => b2z (Z.testbit (d + 256 * a) (8 + i)) + s) 0 l =
      foldr (fun i s => b2z (Z.testbit a i) + s) 0 l) as Hhigh.
    { induction l as [|i l IH]; intros Hl; [done|]. cbn. rewrite IH by (intros; apply Hl; set_solver).
      pose proof (Hl i ltac:(set_solver)). rewrite byte_bit by (done || lia). destruct (Z.ltb_spec (8 + i) 8); [lia|].
      replace (8 + i - 8) with i by lia. done. }
    apply Hhigh. intros i Hi. apply elem_of_seqZ in Hi. lia.
  - rewrite fmap_add_seqZ. change (8 + 0) with (0 + 8). rewrite <- seqZ_app by lia. f_equal. lia.
Qed.

Lemma weight_bound n d : 0 <= weight n d <= Z.max 0 n.
Proof.
  unfold weight. assert (forall l, 0 <= foldr (fun i s => b2z (Z.testbit d i) + s) 0 l <= Z.of_nat (length l)) as H.
  { induction l as [|i l IH]; cbn; [lia|]. destruct (Z.testbit d i); cbn; lia. }
  pose proof (H (seqZ 0 n)) as Hn. rewrite length_seqZ in Hn. lia.
Qed.

(** The sums of the bytes, all at once. *)
Fixpoint folded (n : nat) (w : Z) : Z :=
  match n with O => 0 | S n => weight 8 (w mod 256) + 256 * folded n (w / 256) end.

Lemma folded_sums n : forall w, 0 <= w < 256 ^ Z.of_nat n -> byte_sums n (count3 n w) = folded n w.
Proof.
  induction n as [|n IH]; intros w Hw; [assert (w = 0) as -> by (simpl in Hw; lia); done|].
  rewrite Nat2Z.inj_succ, Z.pow_succ_r in Hw by lia. pose proof (Z.mod_pos_bound w 256 ltac:(lia)).
  assert (0 <= w / 256 < 256 ^ Z.of_nat n) by (split; [apply Z.div_pos; lia|apply Z.div_lt_upper_bound; lia]).
  rewrite (Z.div_mod w 256) at 1 by lia. rewrite Z.add_comm, byte_sums_bytes, IH by done. done.
Qed.

Lemma folded_weight n : forall w, 0 <= w < 256 ^ Z.of_nat n -> weight (8 * Z.of_nat n) w =
  foldr (fun i s => weight 8 (w / 256 ^ Z.of_nat i mod 256) + s) 0 (seq 0 n).
Proof.
  induction n as [|n IH]; intros w Hw; [done|]. rewrite Nat2Z.inj_succ, Z.pow_succ_r in Hw by lia.
  pose proof (Z.mod_pos_bound w 256 ltac:(lia)).
  assert (0 <= w / 256 < 256 ^ Z.of_nat n) as Hq by (split; [apply Z.div_pos; lia|apply Z.div_lt_upper_bound; lia]).
  rewrite (Z.div_mod w 256) at 1 by lia. rewrite Z.add_comm, weight_byte by (done || lia).
  replace (8 * Z.of_nat (S n) - 8) with (8 * Z.of_nat n) by lia. rewrite (IH _ Hq). cbn [seq foldr].
  change (256 ^ Z.of_nat 0) with 1. rewrite Z.div_1_r. f_equal. rewrite <- fmap_S_seq, foldr_fmap.
  generalize (seq 0 n) as l. clear. induction l as [|i l IHl]; [done|]. cbn [foldr]. pose proof (Z.pow_pos_nonneg 256 (Z.of_nat i) ltac:(lia) ltac:(lia)).
  rewrite IHl, Nat2Z.inj_succ, Z.pow_succ_r, Z.div_div by lia. done.
Qed.

(** No step leaves 64 bits. *)
Lemma sums_bound n : forall w, 0 <= w < 256 ^ Z.of_nat n -> 0 <= pair_sums n w < 256 ^ Z.of_nat n /\ 0 <= count3 n w <= rep n 68.
Proof.
  induction n as [|n IH]; intros w Hw; [assert (w = 0) as -> by (simpl in Hw; lia); done|].
  rewrite Nat2Z.inj_succ, Z.pow_succ_r in * by lia. pose proof (Z.mod_pos_bound w 256 ltac:(lia)) as Hd.
  assert (0 <= w / 256 < 256 ^ Z.of_nat n) as Hq by (split; [apply Z.div_pos; lia|apply Z.div_lt_upper_bound; lia]).
  destruct (IH _ Hq) as [H1 H2]. rewrite (Z.div_mod w 256), Z.add_comm by lia. rewrite pair_sums_bytes, count3_bytes by done.
  generalize dependent (w mod 256). intros d Hd.
  assert ((0 <=? byte1 d) && (byte1 d <? 256) && (0 <=? byte2 (byte1 d)) && (byte2 (byte1 d) <=? 68) = true) as Hb by check_bytes Hd.
  cbn [rep]. lia.
Qed.

(** The last three steps add the bytes up in the lowest one. *)
Definition add_up (x : Z) : Z :=
  let x := u64 (x + Z.shiftr x 8) in
  let x := u64 (x + Z.shiftr x 16) in
  Z.land (u64 (x + Z.shiftr x 32)) 0xFF.

Lemma add_up_sum c0 c1 c2 c3 c4 c5 c6 c7 : Forall (fun c => 0 <= c <= 8) [c0; c1; c2; c3; c4; c5; c6; c7] ->
  add_up (c0 + 256 * (c1 + 256 * (c2 + 256 * (c3 + 256 * (c4 + 256 * (c5 + 256 * (c6 + 256 * (c7 + 256 * 0)))))))) =
    c0 + c1 + c2 + c3 + c4 + c5 + c6 + c7.
Proof.
  intros H. repeat (apply list.Forall_cons in H as [?Hc H]). clear H. unfold add_up. cbn zeta.
  change 0xFF with (Z.ones 8). rewrite Z.land_ones, !Z.shiftr_div_pow2 by lia. change (2 ^ 8) with 256. change (2 ^ 16) with 65536. change (2 ^ 32) with 4294967296.
  set (x := c0 + 256 * _). set (y := x + x / 256).
  assert (x / 256 = c1 + 256 * (c2 + 256 * (c3 + 256 * (c4 + 256 * (c5 + 256 * (c6 + 256 * c7)))))) as Ex
    by (symmetry; apply (Z.div_unique _ _ _ c0); unfold x; lia).
  assert (y / 65536 = (c2 + c3) + 256 * ((c3 + c4) + 256 * ((c4 + c5) + 256 * ((c5 + c6) + 256 * ((c6 + c7) + 256 * c7))))) as Ey
    by (symmetry; apply (Z.div_unique _ _ _ ((c0 + c1) + 256 * (c1 + c2))); unfold y, x in *; lia).
  rewrite (uwrap_small 64 ltac:(lia) y) by (unfold in_u, y, x in *; lia). set (z := y + y / 65536).
  rewrite (uwrap_small 64 ltac:(lia) z) by (unfold in_u, z, y, x in *; lia).
  assert (z / 4294967296 = (c4 + c5 + c6 + c7) + 256 * ((c5 + c6 + c7) + 256 * ((c6 + c7) + 256 * c7))) as Ez.
  { symmetry. apply (Z.div_unique _ _ _ ((c0 + c1 + c2 + c3) + 256 * ((c1 + c2 + c3 + c4) + 256 * ((c2 + c3 + c4 + c5) +
      256 * (c3 + c4 + c5 + c6))))); unfold z, y, x in *; lia. }
  rewrite uwrap_small by (unfold in_u, z, y, x in *; lia).
  symmetry. apply (Z.mod_unique _ _ (z / 256 + z / 4294967296 / 256)); [lia|].
  assert (z / 256 = (c1 + c2 + c3 + c4) + 256 * ((c2 + c3 + c4 + c5) + 256 * ((c3 + c4 + c5 + c6) + 256 * ((c4 + c5 + c6 + c7) +
    256 * ((c5 + c6 + c7) + 256 * ((c6 + c7) + 256 * c7)))))) as E1
    by (symmetry; apply (Z.div_unique _ _ _ (c0 + c1 + c2 + c3)); unfold z, y, x in *; lia).
  assert (z / 4294967296 / 256 = (c5 + c6 + c7) + 256 * ((c6 + c7) + 256 * c7)) as E2
    by (symmetry; apply (Z.div_unique _ _ _ (c4 + c5 + c6 + c7)); lia).
  rewrite E1, E2. rewrite Ez. unfold z. rewrite Ey. unfold y. rewrite Ex. unfold x. lia.
Qed.

(** [hweight64] is the number of set bits. *)
Lemma hweight64_weight w : 0 <= w < 2 ^ 64 -> hweight64 w = weight 64 w.
Proof.
  intros Hw. change (2 ^ 64) with (256 ^ Z.of_nat 8) in Hw. destruct (sums_bound 8 w Hw) as [Hp Hc].
  pose proof (folded_sums 8 w Hw) as Hf. change 64 with (8 * Z.of_nat 8). rewrite folded_weight by done.
  unfold hweight64. change 0x5555555555555555 with (rep 8 0x55). change 0x3333333333333333 with (rep 8 0x33).
  change 0x0F0F0F0F0F0F0F0F with (rep 8 0x0F). fold (pair_sums 8 w). cbn zeta.
  change (256 ^ Z.of_nat 8) with (2 ^ 64) in *. change (rep 8 68) with 4919131752989213764 in Hc.
  rewrite (uwrap_small 64 ltac:(lia) (pair_sums 8 w)) by (unfold in_u; lia). fold (nibble_sums 8 (pair_sums 8 w)). fold (count3 8 w).
  rewrite (uwrap_small 64 ltac:(lia) (count3 8 w)) by (unfold in_u; lia).
  rewrite (uwrap_small 64 ltac:(lia) (count3 8 w + _)).
  2:{ rewrite Z.shiftr_div_pow2 by lia. unfold in_u. change (2 ^ 4) with 16. Z.to_euclidean_division_equations. lia. }
  fold (byte_sums 8 (count3 8 w)). rewrite Hf. fold (add_up (folded 8 w)). cbn [folded]. rewrite add_up_sum.
  - rewrite !Z.div_div by lia. cbn [seq foldr]. change (256 ^ Z.of_nat 0) with 1. rewrite Z.div_1_r. rewrite Z.add_0_r, !Z.add_assoc. reflexivity.
  - repeat constructor; apply weight_bound.
Qed.

End Hweight.
