(* ===== verification/SampleProof.v ===== *)
(** * Correctness of the sample layout

    [field_bytes] are the bytes of each field as the table expects them; a record is
    the concatenation of the fields its sample type names, and the member table finds
    each of them.  That the kernel's records have this form is shown in the file on
    the ABI. *)

From S2P Require Import Prelude SampleLayout.
Import SampleLayout.

(** ** The fields of a record *)

(** [n] little-endian bytes. *)
Fixpoint enc (n : nat) (v : Z) : list Z :=
  match n with
  | O => []
  | S n => v mod 256 :: enc n (v / 256)
  end.

Definition word_formats : list Z :=
  [PERF_SAMPLE_IDENTIFIER; PERF_SAMPLE_IP; PERF_SAMPLE_TIME; PERF_SAMPLE_ADDR; PERF_SAMPLE_ID;
   PERF_SAMPLE_STREAM_ID; PERF_SAMPLE_PERIOD; PERF_SAMPLE_WEIGHT; PERF_SAMPLE_WEIGHT_STRUCT;
   PERF_SAMPLE_DATA_SRC; PERF_SAMPLE_TRANSACTION; PERF_SAMPLE_PHYS_ADDR; PERF_SAMPLE_CGROUP;
   PERF_SAMPLE_DATA_PAGE_SIZE; PERF_SAMPLE_CODE_PAGE_SIZE].

Abbreviation len l := (Z.of_nat (length l)).

Inductive field_bytes (e : evsel) : Z -> list Z -> Prop :=
  | FB_word fmt bs : fmt ∈ word_formats -> len bs = 8 -> field_bytes e fmt bs
  | FB_tid bs : len bs = 4 -> field_bytes e PERF_SAMPLE_TID bs  (* pid, then tid *)
  | FB_cpu cpu res : len cpu = 4 -> len res = 4 -> field_bytes e PERF_SAMPLE_CPU (cpu ++ res)
  | FB_read bs : len bs = perf_evsel__read_size e -> field_bytes e PERF_SAMPLE_READ bs
  | FB_callchain nr ips :
      0 <= nr < 2 ^ 64 -> len ips = nr * 8 -> field_bytes e PERF_SAMPLE_CALLCHAIN (enc 8 nr ++ ips)
  | FB_raw size data :
      0 <= size < 2 ^ 32 -> len data = size -> field_bytes e PERF_SAMPLE_RAW (enc 4 size ++ data)
  | FB_branch_stack nr lbr :
      0 <= nr < 2 ^ 64 -> len lbr = nr * 24 ->
      field_bytes e PERF_SAMPLE_BRANCH_STACK (enc 8 nr ++ lbr)
  | FB_regs_user_none : field_bytes e PERF_SAMPLE_REGS_USER (enc 8 0)
  | FB_regs_user abi regs :
      0 < abi < 2 ^ 64 -> len regs = hweight64 (sample_regs_user e) * 8 ->
      field_bytes e PERF_SAMPLE_REGS_USER (enc 8 abi ++ regs)
  | FB_stack_user_none : field_bytes e PERF_SAMPLE_STACK_USER (enc 8 0)
  | FB_stack_user size data dyn_size :
      0 < size < 2 ^ 64 -> len data = size -> 0 <= dyn_size < 2 ^ 64 ->
      field_bytes e PERF_SAMPLE_STACK_USER (enc 8 size ++ data ++ enc 8 dyn_size)
  | FB_regs_intr_none : field_bytes e PERF_SAMPLE_REGS_INTR (enc 8 0)
  | FB_regs_intr abi regs :
      0 < abi < 2 ^ 64 -> len regs = hweight64 (sample_regs_intr e) * 8 ->
      field_bytes e PERF_SAMPLE_REGS_INTR (enc 8 abi ++ regs)
  | FB_aux size data :
      0 <= size < 2 ^ 64 -> len data = size -> field_bytes e PERF_SAMPLE_AUX (enc 8 size ++ data).

(** The fields a sample type names, in the order of the table. *)
Definition present (st : Z) (e : evsel) : list add :=
  filter (fun a => has st (a_fmt a) = true) (adds st e).

Definition record_of (e : evsel) (st : Z) (segs : list (list Z)) : Prop :=
  Forall2 (fun a bs => field_bytes e (a_fmt a) bs) (present st e) segs.

(** ** Little-endian words *)

Lemma enc_length n v : length (enc n v) = n.
Proof. revert v. induction n; intros v; simpl; auto. Qed.

Lemma le_enc n v : 0 <= v < 256 ^ Z.of_nat n -> le (enc n v) = v.
Proof.
  revert v. induction n as [|n IH]; intros v Hv.
  - simpl in *. lia.
  - rewrite Nat2Z.inj_succ, Z.pow_succ_r in Hv by lia.
    cbn [enc le foldr]. fold (le (enc n (v / 256))). rewrite IH.
    + pose proof (Z.div_mod v 256). lia.
    + split; [apply Z.div_pos; lia|apply Z.div_lt_upper_bound; lia].
Qed.

(** Reading the word a field starts with. *)
Lemma read_le_at pre w rest n :
  length w = n -> read_le n (pre ++ w ++ rest) (len pre) = Some (le w).
Proof.
  intros <-. unfold read_le. rewrite !length_app.
  replace (_ && _) with true by (symmetry; rewrite andb_true_iff, !Z.leb_le; lia).
  rewrite Nat2Z.id, drop_app_length, take_app_length. done.
Qed.

(** ** The table *)

(** Size of the fixed part of a field, and whether it has one. *)
Definition fixed (a : add) : Z := a_skip a + a_sz a.
Definition var (a : add) : bool := a_sz a =? 0.

Definition fixed_sum (l : list add) : Z := foldr (fun a s => fixed a + s) 0 l.
Definition vfmts (l : list add) : list Z := a_fmt <$> filter (fun a => var a = true) l.
Definition lors (l : list Z) : Z := foldr Z.lor 0 l.

Definition member_of (pre : list add) (a : add) : member :=
  Member (a_name a) (fixed_sum pre) (default (a_sz a) (a_size a)) (lors (vfmts pre)) (a_fmt a).

Lemma fixed_sum_app a b : fixed_sum (a ++ b) = fixed_sum a + fixed_sum b.
Proof. induction a as [|x a IH]; [done|]. cbn in *. fold (fixed_sum (a ++ b)). rewrite IH.
  unfold fixed_sum. lia. Qed.

Lemma vfmts_app a b : vfmts (a ++ b) = vfmts a ++ vfmts b.
Proof. unfold vfmts. rewrite list.filter_app, fmap_app. done. Qed.

Lemma lors_app a b : lors (a ++ b) = Z.lor (lors a) (lors b).
Proof.
  induction a as [|x a IH]; [done|]. cbn. fold (lors (a ++ b)) (lors a).
  rewrite IH, Z.lor_assoc. done.
Qed.

Lemma foldl_present st e s :
  foldl (ADD_MEMBER st) s (adds st e) = foldl (ADD_MEMBER st) s (present st e).
Proof.
  unfold present. generalize (adds st e) as l. intros l. revert s.
  induction l as [|a l IH]; intros s; [done|].
  rewrite filter_cons. case_decide as H; simpl; rewrite IH; [done|].
  unfold ADD_MEMBER at 2. destruct (has st (a_fmt a)); done.
Qed.

(** The table after the fields [l], all present. *)
Definition built (st : Z) (l : list add) : build :=
  foldl (ADD_MEMBER st) (Build [] (fun _ => None) 0 0) l.

Section Built.
Context (st : Z).
Let ok (l : list add) : Prop := Forall (fun a => has st (a_fmt a) = true) l.

Lemma built_snoc l a :
  has st (a_fmt a) = true ->
  built st (l ++ [a]) = ADD_MEMBER st (built st l) a.
Proof using. intros. unfold built. rewrite foldl_app. done. Qed.

Lemma built_vars l :
  ok l -> b_offset (built st l) = fixed_sum l /\ b_deps (built st l) = lors (vfmts l) /\
    length (b_members (built st l)) = length l.
Proof using.
  induction l as [|a l IH] using rev_ind; intros H; [done|].
  apply Forall_app in H as [H1 H2]. inversion_clear H2 as [|? ? Ha _].
  destruct (IH H1) as (E1 & E2 & E3). rewrite built_snoc by done.
  unfold ADD_MEMBER. rewrite Ha. cbn [b_offset b_deps b_members].
  rewrite E1, E2, fixed_sum_app, vfmts_app, lors_app, !length_app, E3.
  split; [cbn; unfold fixed; lia|]. split; [|done]. f_equal.
  unfold vfmts. rewrite filter_cons. unfold var. cbn. destruct (a_sz a =? 0); cbn.
  - rewrite decide_True by done. cbn. rewrite Z.lor_0_r. done.
  - rewrite decide_False by done. done.
Qed.

Lemma built_member l i a :
  ok l -> l !! i = Some a -> b_members (built st l) !! i = Some (member_of (take i l) a).
Proof using.
  induction l as [|x l IH] using rev_ind; intros H Hi; [done|].
  apply Forall_app in H as [H1 H2]. inversion_clear H2 as [|? ? Hx _].
  destruct (built_vars _ H1) as (E1 & E2 & E3).
  rewrite built_snoc by done. unfold ADD_MEMBER. rewrite Hx. cbn [b_members].
  destruct (decide (i < length l)%nat) as [Hlt|Hge].
  - rewrite lookup_app_l in Hi by lia. rewrite lookup_app_l, take_app_le by lia. auto.
  - rewrite lookup_app_r in Hi by lia.
    apply list_lookup_singleton_Some in Hi as [Hi ->].
    rewrite lookup_app_r, E3 by lia. rewrite Hi, E1, E2.
    replace i with (length l) by lia. rewrite take_app_length. done.
Qed.

(** A quick pointer is the last field that sets it. *)
Lemma built_field pre a f rest :
  ok (pre ++ a :: rest) -> a_field a = Some f -> Forall (fun b => a_field b <> Some f) rest ->
  b_field (built st (pre ++ a :: rest)) f = Some (length pre).
Proof using.
  induction rest as [|x rest IH] using rev_ind; intros H Ha Hn.
  - apply Forall_app in H as [H1 H2]. inversion_clear H2 as [|? ? Hx _].
    destruct (built_vars _ H1) as (_ & _ & E3). rewrite built_snoc by done.
    unfold ADD_MEMBER. rewrite Hx, Ha. cbn. rewrite decide_True, E3; done.
  - apply Forall_app in Hn as [Hn1 Hn2]. inversion_clear Hn2 as [|? ? Hx' _].
    rewrite app_comm_cons, app_assoc in H |- *. apply Forall_app in H as [H1 H2].
    inversion_clear H2 as [|? ? Hx _]. rewrite built_snoc by done.
    unfold ADD_MEMBER. rewrite Hx. cbn. destruct (a_field x) as [g|]; [|auto].
    rewrite decide_False by congruence. auto.
Qed.
End Built.

(** ** Flag words *)

Lemma has_pow2 d n : 0 <= n -> has d (2 ^ n) = Z.testbit d n.
Proof.
  intros Hn. unfold has. destruct (Z.testbit d n) eqn:E.
  - apply negb_true_iff, Z.eqb_neq. intros H0.
    assert (Z.testbit (Z.land d (2 ^ n)) n = true) as H1
      by (rewrite Z.land_spec, E, Z.pow2_bits_true; done).
    rewrite H0, Z.bits_0 in H1. done.
  - apply negb_false_iff, Z.eqb_eq. apply Z.bits_inj_iff'. intros i Hi.
    rewrite Z.land_spec, Z.bits_0, Z.pow2_bits_eqb by done.
    destruct (Z.eqb_spec n i) as [<-|]; [rewrite E; done|apply andb_false_r].
Qed.

Definition is_flag (v : Z) : Prop := exists n, 0 <= n /\ v = 2 ^ n.

Lemma has_lors l v :
  Forall is_flag l -> is_flag v -> has (lors l) v = true <-> v ∈ l.
Proof.
  intros Hl (n & Hn & ->). rewrite has_pow2 by done.
  induction Hl as [|x l (k & Hk & ->) Hl IH].
  - cbn. rewrite Z.bits_0, elem_of_nil. split; done.
  - cbn. fold (lors l). rewrite Z.lor_spec, orb_true_iff, IH, elem_of_cons.
    rewrite Z.pow2_bits_eqb, Z.eqb_eq by done.
    split; (intros [E|]; [left|right; done]); [congruence|].
    apply Z.pow_inj_r in E; lia.
Qed.

(** ** Finding a field *)

(** The entries of [dep_table] are the fields of variable size. *)
Definition d_fmt (d : Z * cfield * nat * (member -> Z -> Z)) : Z := d.1.1.1.
Definition d_field (d : Z * cfield * nat * (member -> Z -> Z)) : cfield := d.1.1.2.

Lemma read_size_pos e : 0 <= nr_members e -> 8 <= perf_evsel__read_size e.
Proof. intros H. unfold perf_evsel__read_size. repeat case_match; lia. Qed.

Ltac each_add H :=
  unfold adds in H; rewrite !elem_of_app in H;
  repeat match type of H with
  | _ \/ _ => destruct H as [H|H]
  | _ ∈ (if ?b then _ else _) => destruct b
  | _ ∈ [] => apply elem_of_nil in H; destruct H
  | _ ∈ _ :: _ => apply elem_of_cons in H as [H|H]
  end.

Lemma vfmts_adds st e :
  0 <= nr_members e -> vfmts (adds st e) = d_fmt <$> dep_table.
Proof.
  intros Hn. pose proof (read_size_pos e Hn) as Hr. unfold adds.
  destruct (perf_evsel__read_size e); try lia.
  destruct (has st PERF_SAMPLE_WEIGHT); reflexivity.
Qed.

(** A field of variable size has the quick pointer of its entry, and no other
    field sets that pointer. *)
Lemma var_field st e a d :
  0 <= nr_members e -> a ∈ adds st e -> var a = true -> d ∈ dep_table -> d_fmt d = a_fmt a ->
  a_field a = Some (d_field d).
Proof.
  intros Hn Ha Hv Hd E. pose proof (read_size_pos e Hn) as Hr.
  each_add Ha; subst a; unfold var in Hv; cbn [a_sz] in Hv;
    try discriminate Hv; try (apply Z.eqb_eq in Hv; lia);
    unfold dep_table in Hd; repeat (apply elem_of_cons in Hd as [->|Hd]; [try done; discriminate E|]);
    apply elem_of_nil in Hd; done.
Qed.

Lemma var_fields_nodup st e :
  NoDup (filter (fun f => f <> F_id) (omap a_field (adds st e))).
Proof.
  unfold adds. destruct (has st PERF_SAMPLE_WEIGHT); vm_compute;
    repeat (constructor; [rewrite ?elem_of_cons, elem_of_nil; intuition discriminate|]); constructor.
Qed.

Ltac not_word H :=
  exfalso; unfold word_formats in H;
  repeat (apply elem_of_cons in H as [H|H]; [discriminate H|]); apply elem_of_nil in H; exact H.

(** A field of fixed size has the size of the table; the size of another is
    what its entry computes from its first bytes. *)
Lemma seg_fixed st e a bs :
  a ∈ adds st e -> var a = false -> field_bytes e (a_fmt a) bs -> len bs = fixed a.
Proof.
  intros Ha Hv H. unfold fixed.
  each_add Ha; subst a; cbn in Hv |- *; try discriminate Hv; cbn [a_fmt] in H;
    inversion H as [? ? Hw| | | | | | | | | | | | |]; subst; rewrite ?length_app; try lia;
    not_word Hw.
Qed.

#[local] Strategy opaque [hweight64].

Lemma seg_word (n : nat) (v : Z) (rest : list Z) (size_of : Z -> Z) :
  0 <= v < 256 ^ Z.of_nat n -> size_of v = Z.of_nat n + len rest ->
  exists w rest', enc n v ++ rest = w ++ rest' /\ length w = n /\
    size_of (le w) = len (enc n v ++ rest).
Proof.
  intros Hv Hs. exists (enc n v), rest. split; [done|]. split; [apply enc_length|].
  rewrite le_enc, length_app, enc_length by done. lia.
Qed.

Lemma seg_word0 (n : nat) (size_of : Z -> Z) :
  size_of 0 = Z.of_nat n ->
  exists w rest', enc n 0 = w ++ rest' /\ length w = n /\ size_of (le w) = len (enc n 0).
Proof.
  intros Hs. rewrite <- (app_nil_r (enc n 0)). apply seg_word; [|simpl; lia].
  split; [lia|]. apply Z.pow_pos_nonneg; lia.
Qed.

Lemma seg_var st e a bs d p :
  0 <= nr_members e -> a ∈ adds st e -> var a = true -> d ∈ dep_table -> d_fmt d = a_fmt a ->
  size p = default (a_sz a) (a_size a) -> field_bytes e (a_fmt a) bs ->
  exists w rest, bs = w ++ rest /\ length w = d.1.2 /\ d.2 p (le w) = len bs.
Proof.
  intros Hn Ha Hv Hd E Hp H. pose proof (read_size_pos e Hn) as Hr.
  each_add Ha; subst a; unfold var in Hv; cbn [a_sz a_fmt a_size] in *;
    try discriminate Hv; try (apply Z.eqb_eq in Hv; lia);
    unfold dep_table in Hd;
    repeat (apply elem_of_cons in Hd as [->|Hd]; [try discriminate E; clear E|]);
    try (apply elem_of_nil in Hd; done);
    (inversion H as [? ? Hw| | | | | | | | | | | | |]; subst; cbn [fst snd];
     [not_word Hw|..]); cbn [from_option id] in Hp.
  - apply (seg_word 8 nr ips (fun v => 8 + v * 8)); cbn; lia.
  - apply (seg_word 4 (len data) data (fun v => 4 + v)); cbn; lia.
  - apply (seg_word 8 nr lbr (fun v => 8 + v * 24)); cbn; lia.
  - apply (seg_word0 8 (fun v => if negb (v =? 0) then size p else 8)); done.
  - apply (seg_word 8 abi regs (fun v => if negb (v =? 0) then size p else 8)); [cbn; lia|].
    rewrite H1, Hp, (proj2 (Z.eqb_neq abi 0)) by lia. reflexivity.
  - apply (seg_word0 8 (fun v => 8 + (if negb (v =? 0) then v + 8 else 0))); done.
  - apply (seg_word 8 (len data) _ (fun v => 8 + (if negb (v =? 0) then v + 8 else 0))); [cbn; lia|].
    rewrite length_app, enc_length. destruct (Z.eqb_spec (len data) 0); cbn; lia.
  - apply (seg_word0 8 (fun v => if negb (v =? 0) then size p else 8)); done.
  - apply (seg_word 8 abi regs (fun v => if negb (v =? 0) then size p else 8)); [cbn; lia|].
    rewrite H1, Hp, (proj2 (Z.eqb_neq abi 0)) by lia. reflexivity.
  - apply (seg_word 8 (len data) data (fun v => 8 + v)); cbn; lia.
Qed.

(** ** Offsets *)

Lemma foldl_skip {A B} (f : A -> B -> A) (l : list B) (P : B -> Prop) `{forall x, Decision (P x)} a :
  (forall a x, x ∈ l -> ~ P x -> f a x = a) -> foldl f a l = foldl f a (filter P l).
Proof.
  revert a. induction l as [|x l IH]; intros a Hs; [done|]. rewrite filter_cons. simpl.
  case_decide; simpl.
  - apply IH. intros. apply Hs; [set_solver|done].
  - rewrite Hs by (set_solver || done). apply IH. intros. apply Hs; [set_solver|done].
Qed.

Lemma filter_agree {A} (l : list A) (P Q : A -> Prop)
    `{forall x, Decision (P x)} `{forall x, Decision (Q x)} :
  (forall x, x ∈ l -> P x <-> Q x) -> filter P l = filter Q l.
Proof.
  induction l as [|x l IH]; intros HPQ; [done|]. rewrite !filter_cons.
  rewrite IH by (intros; apply HPQ, elem_of_cons; auto).
  pose proof (HPQ x (list_elem_of_here _ _)) as Hx. repeat case_decide; tauto.
Qed.

(** The elements of [l] among a prefix of a selection of [l] are that prefix. *)
Lemma filter_take_filter {A} `{EqDecision A} (l : list A) (P : A -> Prop)
    `{forall x, Decision (P x)} k sel :
  NoDup l -> sel = filter P l -> filter (fun x => x ∈ take k sel) l = take k sel.
Proof.
  revert k sel. induction l as [|x l IH]; intros k sel Hd ->; [destruct k; done|].
  inversion_clear Hd as [|? ? Hx Hl].
  assert (forall k, x ∉ take k (filter P l)) as Hn.
  { intros k' Hin. apply elem_of_take in Hin as (i & Hi & _). apply list_elem_of_lookup_2 in Hi.
    apply list_elem_of_filter in Hi as [_ Hi]. done. }
  destruct (decide (P x)) as [Hp|Hp].
  - replace (filter P (x :: l)) with (x :: filter P l) by (rewrite filter_cons, decide_True; done).
    destruct k as [|k].
    + rewrite filter_cons, decide_False by (cbn; apply not_elem_of_nil).
      apply (IH 0%nat _ Hl eq_refl).
    + rewrite filter_cons, decide_True by (cbn; set_solver). cbn [take]. f_equal.
      etrans; [|apply (IH k _ Hl eq_refl)]. apply filter_agree.
      intros y Hy. rewrite elem_of_cons. split; [intros [->|]; done|auto].
  - replace (filter P (x :: l)) with (filter P l) by (rewrite filter_cons, decide_False; done).
    rewrite filter_cons, decide_False by apply Hn. apply (IH k _ Hl eq_refl).
Qed.

Lemma filter_take {A} (l : list A) (P : A -> Prop) `{forall x, Decision (P x)} i :
  exists k, filter P (take i l) = take k (filter P l).
Proof.
  exists (length (filter P (take i l))). rewrite <- (take_drop i l) at 3.
  rewrite list.filter_app, take_app_length. done.
Qed.

Lemma fmap_filter {A B} (f : A -> B) (l : list A) (P : B -> Prop)
    `{D1 : forall x, Decision (P (f x))} `{D2 : forall x, Decision (P x)} :
  f <$> filter (fun x => P (f x)) l = filter P (f <$> l).
Proof.
  induction l as [|x l IH]; [done|]. rewrite fmap_cons, !filter_cons.
  destruct (decide (P (f x))); [rewrite decide_True by done|rewrite decide_False by done];
    rewrite ?fmap_cons, IH; done.
Qed.

Lemma omap_filter_nodup {A B} (g : A -> option B) (l : list A) (h : A -> Prop) (Q : B -> Prop)
    `{forall x, Decision (h x)} `{forall x, Decision (Q x)} :
  NoDup (filter Q (omap g l)) -> NoDup (filter Q (omap g (filter h l))).
Proof.
  induction l as [|x l IH]; intros Hd; [done|]. rewrite (filter_cons h).
  cbn [omap list_omap] in Hd. destruct (g x) as [y|] eqn:Eg.
  - rewrite filter_cons in Hd. destruct (decide (h x)); [|case_decide; [inversion_clear Hd|]; auto].
    cbn [omap list_omap]. rewrite Eg, filter_cons. case_decide; [|auto].
    inversion_clear Hd as [|? ? Hy Hl]. constructor; [|auto]. intros Hin. apply Hy.
    apply list_elem_of_filter in Hin as [HQ Hin]. apply list_elem_of_filter. split; [done|].
    apply list_elem_of_omap in Hin as (z & Hz & Ez). apply list_elem_of_filter in Hz as [_ Hz].
    apply list_elem_of_omap. eauto.
  - destruct (decide (h x)); [|auto]. cbn [omap list_omap]. rewrite Eg. auto.
Qed.

Section Record.
Context (st : Z) (e : evsel) (Hn : 0 <= nr_members e).

Let P := present st e.

Lemma present_ok : Forall (fun a => has st (a_fmt a) = true) P.
Proof using. apply list.Forall_forall. intros a Ha. apply list_elem_of_filter in Ha as [Ha _]. done. Qed.

Lemma present_adds a : a ∈ P -> a ∈ adds st e.
Proof using. intros Ha. apply list_elem_of_filter in Ha as [_ Ha]. done. Qed.

(** The fields of variable size before a field are those of the table that
    its [deps] name, in the same order. *)
Lemma deps_table i :
  d_fmt <$> filter (fun d => d_fmt d ∈ vfmts (take i P)) dep_table = vfmts (take i P).
Proof using Hn.
  etrans; [apply (fmap_filter d_fmt dep_table (fun v => v ∈ vfmts (take i P)))|].
  destruct (filter_take P (fun a => var a = true) i) as [k Ek].
  assert (vfmts (take i P) = take k (filter (fun v => has st v = true) (d_fmt <$> dep_table))) as E.
  { unfold vfmts. rewrite Ek, fmap_take. f_equal. rewrite <- (vfmts_adds st e Hn). unfold vfmts.
    rewrite <- (fmap_filter a_fmt _ (fun v => has st v = true)). f_equal. unfold P, present. rewrite !list_filter_filter.
    apply filter_agree. intros. tauto. }
  rewrite E. apply (filter_take_filter _ (fun v => has st v = true) k _); [|done].
  vm_compute. repeat (constructor; [rewrite ?elem_of_cons, elem_of_nil; intuition discriminate|]).
  constructor.
Qed.

Lemma deps_flags i : Forall is_flag (vfmts (take i P)).
Proof using Hn.
  rewrite <- deps_table. apply Forall_fmap, list.Forall_forall. intros d Hd.
  apply list_elem_of_filter in Hd as [_ Hd]. unfold dep_table in Hd. unfold is_flag.
  repeat (apply elem_of_cons in Hd as [->|Hd]; [eexists; split; [|reflexivity]; lia|]).
  apply elem_of_nil in Hd. done.
Qed.

Lemma table_flag d : d ∈ dep_table -> is_flag (d_fmt d).
Proof using.
  intros Hd. unfold dep_table in Hd. unfold is_flag.
  repeat (apply elem_of_cons in Hd as [->|Hd]; [eexists; split; [|reflexivity]; lia|]).
  apply elem_of_nil in Hd. done.
Qed.

(** A quick pointer, [F_id] apart, is set by one field only. *)
Lemma quick_field pre a rest f :
  P = pre ++ a :: rest -> a_field a = Some f -> f <> F_id ->
  member_at (Cache (b_members (built st P)) (b_field (built st P)) (count_members st) st) f
    = Some (member_of pre a).
Proof using.
  intros EP Hf Hid. pose proof present_ok as Hok.
  unfold member_at. cbn [field members].
  rewrite EP, (built_field st pre a f rest); [|rewrite <- EP; done|done|].
  - cbn. rewrite (built_member st _ _ a); [|rewrite <- EP; done|apply list_lookup_middle; done].
    rewrite take_app_length. done.
  - apply list.Forall_forall. intros b Hb Hbf.
    pose proof (var_fields_nodup st e) as Hnd.
    apply (omap_filter_nodup _ _ (fun a => has st (a_fmt a) = true) _) in Hnd.
    fold (present st e) P in Hnd. rewrite EP, omap_app in Hnd. cbn [omap list_omap] in Hnd.
    rewrite Hf, list.filter_app, filter_cons, decide_True in Hnd by done.
    apply list.NoDup_app in Hnd as (_ & _ & Hnd). inversion_clear Hnd as [|? ? Hni _].
    apply Hni, list_elem_of_filter. split; [done|]. apply list_elem_of_omap. eauto.
Qed.

(** The quick pointer of a field of variable size is the field. *)
Lemma quick_pointer pre a rest d :
  P = pre ++ a :: rest -> var a = true -> d ∈ dep_table -> d_fmt d = a_fmt a ->
  member_at (Cache (b_members (built st P)) (b_field (built st P)) (count_members st) st) (d_field d)
    = Some (member_of pre a).
Proof using Hn.
  intros EP Hv Hd E.
  assert (a ∈ P) as Ha by (rewrite EP; apply elem_of_app; right; apply list_elem_of_here).
  apply (quick_field pre a rest); [done|apply (var_field st e a d Hn (present_adds _ Ha) Hv Hd E)|].
  intros Hid. unfold dep_table in Hd.
  repeat (apply elem_of_cons in Hd as [->|Hd]; [discriminate Hid|]).
  apply elem_of_nil in Hd. done.
Qed.

(** Bytes of the fields of fixed and of variable size among the first [i]. *)
Definition var_sum (ps : list add) (ss : list (list Z)) : Z :=
  foldr (fun x s => (if var x.1 then len x.2 else 0) + s) 0 (zip ps ss).

Lemma var_sum_nil ps : forall ss, vfmts ps = [] -> var_sum ps ss = 0.
Proof using.
  induction ps as [|a ps IH]; intros [|s ss] H; try done. unfold vfmts in H.
  rewrite filter_cons in H. destruct (decide (var a = true)) as [Hv|Hv]; [discriminate H|].
  cbn [var_sum foldr zip zip_with fst snd]. fold (var_sum ps ss).
  apply not_true_is_false in Hv. rewrite Hv, IH by exact H. done.
Qed.

Lemma record_split ps ss :
  Forall2 (fun a bs => field_bytes e (a_fmt a) bs) ps ss -> (forall a, a ∈ ps -> a ∈ adds st e) ->
  len (concat ss) = fixed_sum ps + var_sum ps ss /\ 0 <= var_sum ps ss /\ 0 <= fixed_sum ps.
Proof using Hn.
  induction 1 as [|a bs ps ss Hb Hs IH]; intros Hin; [done|].
  destruct IH as (IH1 & IH2 & IH3). { intros. apply Hin, elem_of_cons. auto. }
  cbn [concat fixed_sum var_sum foldr zip zip_with fst snd]. fold (fixed_sum ps) (var_sum ps ss).
  rewrite length_app, Nat2Z.inj_add, IH1.
  assert (a ∈ adds st e) as Ha by (apply Hin, list_elem_of_here).
  destruct (var a) eqn:Hv.
  - assert (fixed a = 0) as ->; [|lia]. unfold fixed, var in *. clear - Ha Hv Hn.
    pose proof (read_size_pos e Hn).
    each_add Ha; subst a; cbn in *; try done; try (apply Z.eqb_eq in Hv; lia).
  - pose proof (seg_fixed st e a bs Ha Hv Hb). lia.
Qed.

(** The fields before the call chain have a fixed size. *)
Lemma no_deps_before i a :
  P !! i = Some a -> a_field a = Some F_pid \/ a_field a = Some F_callchain ->
  vfmts (take i P) = [].
Proof using Hn.
  intros Hi Ha. pose proof (read_size_pos e Hn) as Hr.
  set (h := fun a => has st (a_fmt a) = true) in *.
  assert (P = filter h (take 11 (adds st e)) ++ filter h (drop 11 (adds st e))) as EP.
  { rewrite <- list.filter_app, take_drop. done. }
  assert (forall j, vfmts (take j (filter h (take 11 (adds st e)))) = []) as H1.
  { intros j. unfold vfmts. assert (forall l : list add, (forall x, x ∈ l -> var x = false) ->
      filter (fun a => var a = true) l = []) as Hf.
    { induction l as [|x l IH]; intros Hx; [done|]. rewrite filter_cons, decide_False.
      - apply IH. intros. apply Hx, elem_of_cons. auto.
      - rewrite Hx by apply list_elem_of_here. done. }
    rewrite Hf; [done|]. intros x Hx. apply elem_of_take in Hx as (k & Hk & _).
    apply list_elem_of_lookup_2, list_elem_of_filter in Hk as [_ Hk]. unfold var.
    cbn [adds take app] in Hk.
    repeat (apply elem_of_cons in Hk as [->|Hk]; [try reflexivity; cbn; lia|]).
    apply elem_of_nil in Hk. done. }
  rewrite EP in Hi |- *. destruct (decide (i < length (filter h (take 11 (adds st e))))%nat).
  - rewrite take_app_le by lia. apply H1.
  - rewrite lookup_app_r in Hi by lia. rewrite take_app, vfmts_app, (H1 i). cbn [app].
    set (A3 := drop 12 (adds st e)).
    assert (drop 11 (adds st e) = Add "callchain" 0 PERF_SAMPLE_CALLCHAIN (Some F_callchain) 0 None :: A3)
      as E2 by done.
    assert (forall x, x ∈ A3 -> a_field x <> Some F_pid /\ a_field x <> Some F_callchain) as H3.
    { intros x Hx. subst A3. cbn [adds drop app] in Hx.
      repeat match type of Hx with
        | _ ∈ _ :: _ => apply elem_of_cons in Hx as [->|Hx]; [done|]
        | _ ∈ _ ++ _ => apply elem_of_app in Hx as [Hx|Hx]
        | _ ∈ (if ?b then _ else _) => destruct b
        | _ ∈ [] => apply elem_of_nil in Hx; done
        end. }
    rewrite E2 in Hi |- *. generalize dependent (i - length (filter h (take 11 (adds st e))))%nat.
    intros j Hj. rewrite filter_cons in Hj |- *.
    assert (forall k, filter h A3 !! k <> Some a) as H4.
    { intros k Hk. apply list_elem_of_lookup_2, list_elem_of_filter in Hk as [_ Hk].
      destruct (H3 a Hk). tauto. }
    case_decide; [destruct j as [|j]; [done|]|]; exfalso; eapply H4, Hj.
Qed.

Context (segs : list (list Z)) (Hsegs : record_of e st segs)
        (Hsize : len (concat segs) < 2 ^ 31).

Let c := Cache (b_members (built st P)) (b_field (built st P)) (count_members st) st.

(** The fold over the entries that name a field before the one looked for. *)
Lemma dep_fold m : forall suf pre ss1 ss2 ps Q,
  P = pre ++ suf ++ ps -> segs = ss1 ++ ss2 -> length ss1 = length pre ->
  (forall d, d ∈ Q -> has (deps m) (d_fmt d) = true) -> (forall d, d ∈ Q -> d ∈ dep_table) ->
  d_fmt <$> Q = vfmts suf ->
  foldl (dep_step c m (concat segs)) (Some (var_sum pre ss1)) Q =
    Some (var_sum (pre ++ suf) (take (length (pre ++ suf)) segs)).
Proof using Hn Hsegs Hsize.
  induction suf as [|a suf IH]; intros pre ss1 ss2 ps Q EP Es El Hd Ht Eq.
  - destruct Q; [|discriminate Eq]. cbn. rewrite app_nil_r, Es, <- El, take_app_length. done.
  - assert (a ∈ P) as Ha.
    { rewrite EP. apply elem_of_app. right. apply list_elem_of_here. }
    pose proof Hsegs as H2. unfold record_of in H2. fold P in H2. rewrite EP, Es in H2.
    cbn [app] in H2. apply Forall2_app_inv in H2 as [H2 H3]; [|done].
    destruct ss2 as [|bs ss2]; [inversion H3|].
    apply Forall2_cons_1 in H3 as [Hb H4].
    destruct (record_split pre ss1 H2) as (E1 & E2 & E3).
    { intros x Hx. apply present_adds. fold P. rewrite EP. apply elem_of_app. auto. }
    assert (pre ++ a :: suf = (pre ++ [a]) ++ suf) as Ep by (rewrite <- app_assoc; done).
    assert (var_sum (pre ++ [a]) (ss1 ++ [bs]) =
      var_sum pre ss1 + (if var a then len bs else 0)) as Ev.
    { unfold var_sum. rewrite zip_with_app, foldr_app by done. cbn. rewrite Z.add_0_r.
      clear. induction (zip pre ss1) as [|x l IHl]; cbn; [lia|]. rewrite IHl. lia. }
    rewrite Ep. destruct (var a) eqn:Hv.
    + assert (vfmts (a :: suf) = a_fmt a :: vfmts suf) as Evf.
      { unfold vfmts. rewrite filter_cons, decide_True; done. }
      rewrite Evf in Eq. destruct Q as [|d Q]; [discriminate Eq|]. injection Eq as Ed Eq.
      assert (d ∈ dep_table) as Hdt by (apply Ht, list_elem_of_here).
      pose proof (quick_pointer pre a (suf ++ ps) d EP Hv Hdt Ed) as Hq.
      destruct (seg_var st e a bs d (member_of pre a) Hn (present_adds _ Ha) Hv Hdt Ed eq_refl Hb)
        as (w & rest & Ebs & Hw & Hsz).
      pose proof (Hd d (list_elem_of_here _ _)) as Hhas.
      assert (dep_step c m (concat segs) (Some (var_sum pre ss1)) d =
        Some (var_sum (pre ++ [a]) (ss1 ++ [bs]))) as Estep.
      { destruct d as [[[fmt f] n] size_of]. unfold d_fmt, d_field in *. cbn [fst snd] in *.
        unfold dep_step. cbn [mbind option_bind]. rewrite Hhas. fold c in Hq. rewrite Hq.
        cbn [mbind option_bind]. rewrite Es, concat_app. cbn [concat].
        rewrite Ebs at 1. rewrite <- !app_assoc.
        replace (offset (member_of pre a) + var_sum pre ss1) with (len (concat ss1))
          by (rewrite E1; cbn; lia).
        rewrite read_le_at by done. cbn [mbind option_bind]. rewrite Hsz, Ev. f_equal.
        apply swrap_small; [lia|]. rewrite Es, concat_app, length_app in Hsize.
        cbn [concat] in Hsize. rewrite length_app in Hsize. unfold in_s. lia. }
      cbn [foldl]. rewrite Estep.
      apply (IH (pre ++ [a]) (ss1 ++ [bs]) ss2 ps Q).
      * rewrite EP, <- (app_assoc pre). done.
      * rewrite <- app_assoc. done.
      * rewrite !length_app. cbn. lia.
      * intros. apply Hd, elem_of_cons. auto.
      * intros. apply Ht, elem_of_cons. auto.
      * done.
    + rewrite Z.add_0_r in Ev. rewrite <- Ev. apply (IH (pre ++ [a]) (ss1 ++ [bs]) ss2 ps Q).
      * rewrite EP, <- (app_assoc pre). done.
      * rewrite <- app_assoc. done.
      * rewrite !length_app. cbn. lia.
      * done.
      * done.
      * rewrite Eq. unfold vfmts. rewrite filter_cons, decide_False by (rewrite Hv; done). done.
Qed.

(** Every member of the table is found at the field's position. *)
Lemma member_offset_ok i m :
  members c !! i = Some m ->
  perf_event_member_offset c m (concat segs) = Some (len (concat (take i segs))).
Proof using Hn Hsegs Hsize.
  intros Hi. cbn [members c] in Hi. destruct (P !! i) as [a|] eqn:Ea.
  2:{ apply lookup_ge_None in Ea. pose proof (proj2 (proj2 (built_vars st P present_ok))).
      apply lookup_lt_Some in Hi. lia. }
  rewrite (built_member st P i a present_ok Ea) in Hi. injection Hi as <-.
  pose proof (take_drop_middle P i a Ea) as EP.
  assert (length P = length segs) as El by (eapply Forall2_length, Hsegs).
  pose proof (lookup_lt_Some _ _ _ Ea) as Hlt.
  assert (Forall2 (fun a bs => field_bytes e (a_fmt a) bs) (take i P) (take i segs)) as H2
    by (apply Forall2_take, Hsegs).
  destruct (record_split _ _ H2) as (E1 & E2 & E3).
  { intros x Hx. apply present_adds. fold P. rewrite <- (take_drop i P). apply elem_of_app. auto. }
  assert (len (concat (take i segs)) <= len (concat segs)) as Hle.
  { rewrite <- (take_drop i segs) at 2. rewrite concat_app, length_app. lia. }
  unfold perf_event_member_offset. destruct (Z.eqb_spec (deps (member_of (take i P) a)) 0) as [Hz|Hz].
  - cbn [offset member_of]. f_equal. rewrite E1.
    assert (vfmts (take i P) = []) as Hv0.
    { destruct (vfmts (take i P)) as [|v l] eqn:Ev; [done|exfalso].
      pose proof (deps_flags i) as Hf. assert (has (lors (vfmts (take i P))) v = true) as Hh.
      { apply has_lors; [done| |rewrite Ev; apply list_elem_of_here].
        rewrite Ev in Hf. inversion Hf. done. }
      cbn [deps member_of] in Hz. rewrite Hz in Hh. done. }
    rewrite (var_sum_nil _ _ Hv0). lia.
  - rewrite (foldl_skip _ dep_table (fun d => d_fmt d ∈ vfmts (take i P))).
    2:{ intros x d Hd Hnv. destruct d as [[[fmt f] n] sz]. destruct x as [x|]; [|done].
        unfold d_fmt in Hnv. cbn [fst] in Hnv. cbn [dep_step mbind option_bind deps member_of].
        destruct (has (lors (vfmts (take i P))) fmt) eqn:Hh; [|done]. exfalso. apply Hnv.
        apply has_lors in Hh; [done|apply deps_flags|]. apply (table_flag _ Hd). }
    rewrite (dep_fold (member_of (take i P) a) (take i P) [] [] segs (drop i P)); cbn [app length].
    + cbn [mbind option_bind offset member_of].
      rewrite length_take, Nat.min_l by lia. rewrite E1. f_equal.
      apply swrap_small; [lia|]. unfold in_s. lia.
    + rewrite take_drop. done.
    + done.
    + done.
    + intros d Hd. apply list_elem_of_filter in Hd as [Hd Hdt].
      apply has_lors; [apply deps_flags|apply table_flag, Hdt|done].
    + intros d Hd. apply list_elem_of_filter in Hd as [_ Hd]. done.
    + apply deps_table.
Qed.

End Record.
