(* ===== verification/SampleAbi.v ===== *)
(** * The ABI of a sample record

    What the kernel writes, from the comment on PERF_RECORD_SAMPLE in
    include/uapi/linux/perf_event.h and the one of [perf_event_members]
    (convert.c): the fields in their order, the bits of [sample_type] that ask
    for them and their bytes.  Nothing here is taken from the member table; the
    lemmas at the end show that the table describes these records. *)

From S2P Require Import Prelude SampleLayout SampleProof Hweight.
Import SampleLayout.

Module SampleAbi.

Inductive abi_field :=
  | A_identifier | A_ip | A_pid | A_tid | A_time | A_addr | A_id | A_stream_id | A_cpu | A_period
  | A_read | A_callchain | A_raw | A_branch_stack | A_regs_user | A_stack_user | A_weight | A_data_src
  | A_transaction | A_regs_intr | A_phys_addr | A_aux | A_cgroup | A_data_page_size | A_code_page_size.

#[export] Instance abi_field_eq_dec : EqDecision abi_field.
Proof. solve_decision. Defined.

(** The order of the fields in a record. *)
Definition abi_order : list abi_field :=
  [A_identifier; A_ip; A_pid; A_tid; A_time; A_addr; A_id; A_stream_id; A_cpu; A_period;
   A_read; A_callchain; A_raw; A_branch_stack; A_regs_user; A_stack_user; A_weight; A_data_src;
   A_transaction; A_regs_intr; A_phys_addr; A_aux; A_cgroup; A_data_page_size; A_code_page_size].

(** The bits of [sample_type] that ask for a field ([enum
    perf_event_sample_format]): the weight is asked for by two of them. *)
Definition abi_bits (f : abi_field) : list Z :=
  match f with
  | A_ip => [0] | A_pid | A_tid => [1] | A_time => [2] | A_addr => [3] | A_read => [4]
  | A_callchain => [5] | A_id => [6] | A_cpu => [7] | A_period => [8] | A_stream_id => [9]
  | A_raw => [10] | A_branch_stack => [11] | A_regs_user => [12] | A_stack_user => [13]
  | A_weight => [14; 24] | A_data_src => [15] | A_identifier => [16] | A_transaction => [17]
  | A_regs_intr => [18] | A_phys_addr => [19] | A_aux => [20] | A_cgroup => [21]
  | A_data_page_size => [22] | A_code_page_size => [23]
  end.

Definition abi_name (f : abi_field) : string :=
  match f with
  | A_identifier => "identifier" | A_ip => "ip" | A_pid => "pid" | A_tid => "tid" | A_time => "time"
  | A_addr => "addr" | A_id => "id" | A_stream_id => "stream_id" | A_cpu => "cpu" | A_period => "period"
  | A_read => "read" | A_callchain => "callchain" | A_raw => "raw" | A_branch_stack => "branch_stack"
  | A_regs_user => "regs_user" | A_stack_user => "stack_user" | A_weight => "weight"
  | A_data_src => "data_src" | A_transaction => "transaction" | A_regs_intr => "regs_intr"
  | A_phys_addr => "phys_addr" | A_aux => "aux" | A_cgroup => "cgroup"
  | A_data_page_size => "data_page_size" | A_code_page_size => "code_page_size"
  end.

Definition asked (sample_type : Z) (f : abi_field) : bool := existsb (Z.testbit sample_type) (abi_bits f).

(** The fields of the records of an event. *)
Definition abi_fields (e : evsel) : list abi_field := filter (fun f => asked (sample_type e) f = true) abi_order.

(** The words of [struct read_format] ([enum perf_event_read_format]: time
    enabled, time running, id, group, lost), for a group of [nr] counters. *)
Definition read_words (format nr : Z) : Z :=
  let bit i := b2z (Z.testbit format i) in
  let times := bit 0 + bit 1 in
  let counter := 1 + bit 2 + bit 4 in
  if Z.testbit format 3 then 1 + times + nr * counter else times + counter.

Definition u64_fields : list abi_field :=
  [A_identifier; A_ip; A_time; A_addr; A_id; A_stream_id; A_period; A_weight; A_data_src; A_transaction;
   A_phys_addr; A_cgroup; A_data_page_size; A_code_page_size].

(** The bytes of a field.  [hw_idx] and [counters] are the bits
    PERF_SAMPLE_BRANCH_HW_INDEX and PERF_SAMPLE_BRANCH_COUNTERS of
    [branch_sample_type]. *)
Inductive abi_bytes (hw_idx counters : bool) (e : evsel) : abi_field -> list Z -> Prop :=
  | AB_u64 f v : f ∈ u64_fields -> abi_bytes hw_idx counters e f (enc 8 v)
  | AB_pid v : abi_bytes hw_idx counters e A_pid (enc 4 v)
  | AB_tid v : abi_bytes hw_idx counters e A_tid (enc 4 v)
  | AB_cpu cpu res : abi_bytes hw_idx counters e A_cpu (enc 4 cpu ++ enc 4 res)
  | AB_read values : len values = 8 * read_words (read_format e) (nr_members e) ->
      abi_bytes hw_idx counters e A_read values
  | AB_callchain nr ips : 0 <= nr < 2 ^ 64 -> len ips = 8 * nr ->
      abi_bytes hw_idx counters e A_callchain (enc 8 nr ++ ips)
  | AB_raw size data : 0 <= size < 2 ^ 32 -> len data = size ->
      abi_bytes hw_idx counters e A_raw (enc 4 size ++ data)
  | AB_branch_stack nr hw lbr cntr : 0 <= nr < 2 ^ 64 -> len hw = (if hw_idx then 8 else 0) ->
      len lbr = 24 * nr -> len cntr = (if counters then 8 * nr else 0) ->
      abi_bytes hw_idx counters e A_branch_stack (enc 8 nr ++ hw ++ lbr ++ cntr)
  | AB_no_regs f : f = A_regs_user \/ f = A_regs_intr -> abi_bytes hw_idx counters e f (enc 8 0)
  | AB_regs_user abi regs : 0 < abi < 2 ^ 64 -> len regs = 8 * Hweight.weight 64 (sample_regs_user e) ->
      abi_bytes hw_idx counters e A_regs_user (enc 8 abi ++ regs)
  | AB_regs_intr abi regs : 0 < abi < 2 ^ 64 -> len regs = 8 * Hweight.weight 64 (sample_regs_intr e) ->
      abi_bytes hw_idx counters e A_regs_intr (enc 8 abi ++ regs)
  | AB_no_stack : abi_bytes hw_idx counters e A_stack_user (enc 8 0)
  | AB_stack_user size data dyn_size : 0 < size < 2 ^ 64 -> len data = size -> 0 <= dyn_size < 2 ^ 64 ->
      abi_bytes hw_idx counters e A_stack_user (enc 8 size ++ data ++ enc 8 dyn_size)
  | AB_aux size data : 0 <= size < 2 ^ 64 -> len data = size ->
      abi_bytes hw_idx counters e A_aux (enc 8 size ++ data).

(** A record is its fields one after the other. *)
Definition abi_record (hw_idx counters : bool) (e : evsel) (segs : list (list Z)) : Prop :=
  Forall2 (abi_bytes hw_idx counters e) (abi_fields e) segs.

(** The fields of [struct perf_event_attr] have their widths. *)
Record evsel_ok (e : evsel) : Prop := {
  ok_nr : 0 <= nr_members e;
  ok_regs_user : 0 <= sample_regs_user e < 2 ^ 64;
  ok_regs_intr : 0 <= sample_regs_intr e < 2 ^ 64
}.

(** The size the member of a field has: 0 when only the record tells it; the
    whole size with the registers present. *)
Definition abi_size (e : evsel) (f : abi_field) : Z :=
  match f with
  | A_pid | A_tid | A_cpu => 4
  | A_read => 8 * read_words (read_format e) (nr_members e)
  | A_callchain | A_raw | A_branch_stack | A_stack_user | A_aux => 0
  | A_regs_user => 8 + 8 * Hweight.weight 64 (sample_regs_user e)
  | A_regs_intr => 8 + 8 * Hweight.weight 64 (sample_regs_intr e)
  | _ => 8
  end.

(** ** The member table describes these records *)

Definition sample_mask (e : evsel) : Z := Z.land (sample_type e) (PERF_SAMPLE_MAX - 1).

(** The use of ADD_MEMBER for a field. *)
Definition add_of (st : Z) (e : evsel) (f : abi_field) : add :=
  match f with
  | A_identifier => Add "identifier" 8 PERF_SAMPLE_IDENTIFIER (Some F_id) 0 None
  | A_ip => Add "ip" 8 PERF_SAMPLE_IP None 0 None
  | A_pid => Add "pid" 4 PERF_SAMPLE_TID (Some F_pid) 0 None
  | A_tid => Add "tid" 4 PERF_SAMPLE_TID (Some F_tid) 0 None
  | A_time => Add "time" 8 PERF_SAMPLE_TIME (Some F_time) 0 None
  | A_addr => Add "addr" 8 PERF_SAMPLE_ADDR None 0 None
  | A_id => Add "id" 8 PERF_SAMPLE_ID (Some F_id) 0 None
  | A_stream_id => Add "stream_id" 8 PERF_SAMPLE_STREAM_ID (Some F_id) 0 None
  | A_cpu => Add "cpu" 4 PERF_SAMPLE_CPU (Some F_cpu) 4 None
  | A_period => Add "period" 8 PERF_SAMPLE_PERIOD None 0 None
  | A_read => Add "read" (perf_evsel__read_size e) PERF_SAMPLE_READ None 0 None
  | A_callchain => Add "callchain" 0 PERF_SAMPLE_CALLCHAIN (Some F_callchain) 0 None
  | A_raw => Add "raw" 0 PERF_SAMPLE_RAW (Some F_raw) 0 None
  | A_branch_stack => Add "branch_stack" 0 PERF_SAMPLE_BRANCH_STACK (Some F_branch_stack) 0 None
  | A_regs_user => Add "regs_user" 0 PERF_SAMPLE_REGS_USER (Some F_regs_user) 0
                     (Some (8 + hweight64 (sample_regs_user e) * 8))
  | A_stack_user => Add "stack_user" 0 PERF_SAMPLE_STACK_USER (Some F_stack_user) 0 None
  | A_weight => Add "weight" 8 (if has st PERF_SAMPLE_WEIGHT then PERF_SAMPLE_WEIGHT else PERF_SAMPLE_WEIGHT_STRUCT)
                  None 0 None
  | A_data_src => Add "data_src" 8 PERF_SAMPLE_DATA_SRC None 0 None
  | A_transaction => Add "transaction" 8 PERF_SAMPLE_TRANSACTION None 0 None
  | A_regs_intr => Add "regs_intr" 0 PERF_SAMPLE_REGS_INTR (Some F_regs_intr) 0
                     (Some (8 + hweight64 (sample_regs_intr e) * 8))
  | A_phys_addr => Add "phys_addr" 8 PERF_SAMPLE_PHYS_ADDR None 0 None
  | A_aux => Add "aux" 0 PERF_SAMPLE_AUX (Some F_aux) 0 None
  | A_cgroup => Add "cgroup" 8 PERF_SAMPLE_CGROUP None 0 None
  | A_data_page_size => Add "data_page_size" 8 PERF_SAMPLE_DATA_PAGE_SIZE None 0 None
  | A_code_page_size => Add "code_page_size" 8 PERF_SAMPLE_CODE_PAGE_SIZE None 0 None
  end.

#[local] Strategy opaque [hweight64].

Lemma read_words_size e : perf_evsel__read_size e = 8 * read_words (read_format e) (nr_members e).
Proof.
  unfold perf_evsel__read_size, read_words, PERF_FORMAT_TOTAL_TIME_ENABLED, PERF_FORMAT_TOTAL_TIME_RUNNING,
    PERF_FORMAT_ID, PERF_FORMAT_GROUP, PERF_FORMAT_LOST. rewrite !has_pow2 by lia.
  destruct (Z.testbit _ 0), (Z.testbit _ 1), (Z.testbit _ 2), (Z.testbit _ 3), (Z.testbit _ 4); cbn [b2z]; lia.
Qed.

(** The table asks for a field as the ABI does. *)
Lemma add_asked e f : has (sample_mask e) (a_fmt (add_of (sample_mask e) e f)) = asked (sample_type e) f.
Proof.
  assert (forall n, 0 <= n < 25 -> has (sample_mask e) (2 ^ n) = Z.testbit (sample_type e) n) as Hbit.
  { intros n Hn. rewrite has_pow2 by lia. unfold sample_mask. change (PERF_SAMPLE_MAX - 1) with (Z.ones 25).
    rewrite Z.land_spec, Z.ones_spec_low, andb_true_r by lia. done. }
  destruct f; cbn [add_of a_fmt abi_bits asked existsb]; unfold asked; cbn [abi_bits existsb]; rewrite ?orb_false_r;
    try (apply Hbit; lia).
  destruct (has (sample_mask e) PERF_SAMPLE_WEIGHT) eqn:E; pose proof (Hbit 14 ltac:(lia)) as E';
    change (2 ^ 14) with PERF_SAMPLE_WEIGHT in E'; rewrite E in E'; rewrite <- E'; [exact E|apply (Hbit 24); lia].
Qed.

Lemma filter_drop_one {A} (P : A -> Prop) `{forall x, Decision (P x)} l1 x l2 :
  ~ P x -> filter P (l1 ++ x :: l2) = filter P (l1 ++ l2).
Proof. intros Hx. rewrite !list.filter_app, filter_cons, decide_False by done. done. Qed.

(** The fields of the table are those of the ABI, in its order. *)
Lemma present_fields e : present (sample_mask e) e = add_of (sample_mask e) e <$> abi_fields e.
Proof.
  set (st := sample_mask e). trans (filter (fun a => has st (a_fmt a) = true) (add_of st e <$> abi_order)).
  - unfold present, adds. destruct (has st PERF_SAMPLE_WEIGHT) eqn:E.
    + cbn [app fmap list_fmap abi_order add_of]. rewrite E. done.
    + etrans; [refine (filter_drop_one _ (take 16 (add_of st e <$> abi_order)) (Add "weight" 8 PERF_SAMPLE_WEIGHT None 0 None)
        (Add "weight" 8 PERF_SAMPLE_WEIGHT_STRUCT None 0 None :: drop 17 (add_of st e <$> abi_order)) _)|].
      * cbn [a_fmt]. rewrite E. done.
      * cbn [take drop app fmap list_fmap abi_order add_of]. rewrite E. done.
  - unfold abi_fields. rewrite <- (fmap_filter (add_of st e) abi_order (fun a => has st (a_fmt a) = true)). f_equal.
    apply filter_agree. intros f _. unfold st. rewrite add_asked. done.
Qed.

Lemma add_of_name e f : a_name (add_of (sample_mask e) e f) = abi_name f.
Proof. destruct f; done. Qed.

Lemma add_of_size e f : evsel_ok e -> default (a_sz (add_of (sample_mask e) e f)) (a_size (add_of (sample_mask e) e f)) = abi_size e f.
Proof.
  intros [_ H1 H2]. destruct f; cbn [add_of a_sz a_size default abi_size]; unfold id; try done; rewrite ?read_words_size, ?Hweight.hweight64_weight by done; lia.
Qed.

(** Without hardware index and counters the bytes of a field are those the
    table expects. *)
Lemma abi_field_bytes e f bs : evsel_ok e -> abi_bytes false false e f bs -> field_bytes e (a_fmt (add_of (sample_mask e) e f)) bs.
Proof.
  intros [H0 H1 H2] Hb. destruct Hb as [f v Hf|v|v|cpu res|values Hl|nr ips Hn Hl|size data Hs Hl|nr hw lbr cntr Hn Hh Hl Hc|f Hf|
    abi regs Ha Hl|abi regs Ha Hl| |size data dyn Hs Hl Hd|size data Hs Hl]; cbn [add_of a_fmt].
  - apply FB_word; [|rewrite enc_length; done]. unfold u64_fields in Hf.
    repeat (apply elem_of_cons in Hf as [->|Hf]; [cbn [add_of a_fmt]; try case_match; unfold word_formats; rewrite !elem_of_cons; tauto|]).
    apply elem_of_nil in Hf. done.
  - apply FB_tid. rewrite enc_length. done.
  - apply FB_tid. rewrite enc_length. done.
  - apply FB_cpu; rewrite enc_length; done.
  - apply FB_read. rewrite read_words_size. done.
  - apply FB_callchain; lia.
  - apply FB_raw; lia.
  - destruct hw; [|cbn in Hh; lia]. destruct cntr; [|cbn in Hc; lia]. rewrite app_nil_r, app_nil_l. apply FB_branch_stack; [done|lia].
  - destruct Hf as [->| ->]; [apply FB_regs_user_none|apply FB_regs_intr_none].
  - apply FB_regs_user; [done|]. rewrite Hweight.hweight64_weight by done. lia.
  - apply FB_regs_intr; [done|]. rewrite Hweight.hweight64_weight by done. lia.
  - apply FB_stack_user_none.
  - apply FB_stack_user; done.
  - apply FB_aux; done.
Qed.

Lemma abi_record_of e segs : evsel_ok e -> abi_record false false e segs -> record_of e (sample_mask e) segs.
Proof.
  intros He Hr. unfold record_of. rewrite present_fields. apply Forall2_fmap_l. eapply Forall2_impl; [|exact Hr].
  intros f bs Hb. apply abi_field_bytes; done.
Qed.

End SampleAbi.
