(* ===== verification/SampleMain.v ===== *)
(** * Theorems on sample records

    The member table has room for its members and finds every field of a
    record; the data for unwinding is taken from the right fields; the
    positions of a device agree with the table. *)

From S2P Require Import Prelude SampleLayout SampleProof SampleAbi.
Import SampleLayout SampleAbi.

Lemma members_cache e c :
  perf_event_members true e = Some c ->
  let st := sample_mask e in
  c = Cache (b_members (built st (present st e))) (b_field (built st (present st e)))
        (count_members st) st.
Proof.
  unfold perf_event_members. fold (sample_mask e). case_match; [done|]. cbn [negb].
  rewrite foldl_present. intros [= <-]. done.
Qed.

(** ** Size of the table *)

Lemma count_filter (st : Z) (l : list add) :
  len (filter (fun a => has st (a_fmt a) = true) l) = foldr (fun a n => b2z (has st (a_fmt a)) + n) 0 l.
Proof.
  induction l as [|a l IH]; [done|]. rewrite filter_cons. cbn [foldr]. rewrite <- IH.
  destruct (has st (a_fmt a)); [rewrite decide_True by done|rewrite decide_False by done]; cbn; lia.
Qed.

(** C19: the member table is as long as the space allocated for it: for every
    sample type, the number of members that [perf_event_members] writes is the
    number it counted before the allocation, so no member is written outside
    the table and none of it stays uninitialised. *)
Theorem members_fit e c :
  perf_event_members true e = Some c -> len (members c) = cache_nr_members c.
Proof.
  intros H. apply members_cache in H. cbn zeta in H. subst c. cbn [members cache_nr_members].
  rewrite (proj2 (proj2 (built_vars _ _ (present_ok (sample_mask e) e)))).
  unfold present. rewrite count_filter. unfold adds, count_members.
  destruct (has (sample_mask e) PERF_SAMPLE_WEIGHT) eqn:Ew; cbn [app foldr a_fmt]; rewrite ?Ew;
    destruct (has (sample_mask e) PERF_SAMPLE_TID); cbn [b2z]; lia.
Qed.

Definition full_evsel : evsel := Evsel 1 (2 ^ 25 - 1) 0 0xff 0xf 1.

Lemma members_fit_witness :
  exists c, perf_event_members true full_evsel = Some c /\ len (members c) = cache_nr_members c.
Proof.
  eexists. split; [reflexivity|]. apply (members_fit full_evsel). reflexivity.
Defined.

(** ** Fields of a record *)

(** C8: [perf_event_members] and [perf_event_member_offset] find every field of a
    record of the kernel's ABI ([SampleAbi], written down from uapi
    perf_event.h without the table): the table has one member for each field
    the event asks for, in the order of the record, with its name and its size,
    and the offset computed for a member is the length of the fields before it,
    whatever the sizes of the call chain, raw data, branch stack, registers,
    user stack and AUX data are; no read leaves the record and no NULL member is
    used.  The record is shorter than 2^31 bytes and its branch stack has no
    hardware index and no counters, which the program does not ask for. *)
Theorem member_offset_correct e c segs :
  evsel_ok e -> perf_event_members true e = Some c ->
  abi_record false false e segs -> len (concat segs) < 2 ^ 31 ->
  length (members c) = length (abi_fields e) /\
  forall i f, abi_fields e !! i = Some f -> exists m, members c !! i = Some m /\
    name m = abi_name f /\ size m = abi_size e f /\
    perf_event_member_offset c m (concat segs) = Some (len (concat (take i segs))).
Proof.
  intros He Hc Hr Hs. apply abi_record_of in Hr; [|done]. apply members_cache in Hc. cbn zeta in Hc. subst c.
  pose proof (present_ok (sample_mask e) e) as Hok. split.
  - cbn [members]. rewrite (proj2 (proj2 (built_vars _ _ Hok))), present_fields, length_fmap. done.
  - intros i f Hf. assert (present (sample_mask e) e !! i = Some (add_of (sample_mask e) e f)) as Ha
      by (rewrite present_fields, list_lookup_fmap, Hf; done).
    pose proof (built_member _ _ _ _ Hok Ha) as Hm. exists (member_of (take i (present (sample_mask e) e)) (add_of (sample_mask e) e f)).
    split; [exact Hm|]. split; [apply add_of_name|]. split; [apply add_of_size; done|].
    apply (member_offset_ok (sample_mask e) e (ok_nr e He) segs Hr Hs). exact Hm.
Qed.

(** A record with a call chain of 2 entries, 4 bytes of raw data, no user
    registers and a user stack of 8 bytes. *)
Definition sample_evsel : evsel :=
  Evsel 1 (PERF_SAMPLE_TID + PERF_SAMPLE_CALLCHAIN + PERF_SAMPLE_RAW + PERF_SAMPLE_REGS_USER +
           PERF_SAMPLE_STACK_USER + PERF_SAMPLE_WEIGHT) 0 0xff 0 1.
Definition sample_segs : list (list Z) :=
  [enc 4 100; enc 4 101; enc 8 2 ++ enc 8 7 ++ enc 8 9; enc 4 4 ++ [1; 2; 3; 4]; enc 8 0;
   enc 8 8 ++ enc 8 55 ++ enc 8 6; enc 8 1].

Lemma sample_evsel_ok : evsel_ok sample_evsel.
Proof. split; cbn; lia. Qed.

Lemma sample_abi_record : abi_record false false sample_evsel sample_segs.
Proof.
  unfold abi_record. replace (abi_fields sample_evsel) with [A_pid; A_tid; A_callchain; A_raw; A_regs_user; A_stack_user; A_weight]
    by (vm_compute; reflexivity).
  unfold sample_segs. repeat apply Forall2_cons_2.
  - apply AB_pid.
  - apply AB_tid.
  - apply AB_callchain; [lia|done].
  - apply AB_raw; [lia|done].
  - apply AB_no_regs. auto.
  - apply AB_stack_user; [lia|done|lia].
  - apply AB_u64. unfold u64_fields. rewrite !elem_of_cons. tauto.
  - constructor.
Qed.

Lemma sample_record : record_of sample_evsel (sample_mask sample_evsel) sample_segs.
Proof. apply abi_record_of, sample_abi_record. apply sample_evsel_ok. Qed.

Lemma member_offset_correct_witness :
  exists c m, perf_event_members true sample_evsel = Some c /\ members c !! 6%nat = Some m /\
    perf_event_member_offset c m (concat sample_segs) = Some 72 /\ name m = "weight"%string.
Proof.
  destruct (perf_event_members true sample_evsel) as [c|] eqn:Hc; [|discriminate Hc].
  destruct (member_offset_correct sample_evsel c sample_segs sample_evsel_ok Hc sample_abi_record) as [_ H]; [vm_compute; reflexivity|].
  destruct (H 6%nat A_weight) as (m & Hm & En & _ & Eo); [vm_compute; reflexivity|].
  exists c, m. split; [done|]. split; [done|]. split; [|done]. rewrite Eo. vm_compute. reflexivity.
Defined.

(** With a hardware index in the branch stack, which the comment of
    [perf_event_members] lists, the fields after it are not found: here the
    data source is at 16 and its member is placed at 8. *)
Definition branch_evsel : evsel := Evsel 1 (PERF_SAMPLE_BRANCH_STACK + PERF_SAMPLE_DATA_SRC) 0 0 0 1.
Definition branch_segs : list (list Z) := [enc 8 0 ++ enc 8 5 ++ [] ++ []; enc 8 77].

Example hw_idx_not_counted :
  abi_record true false branch_evsel branch_segs /\
  (c ← perf_event_members true branch_evsel; m ← members c !! 1%nat; perf_event_member_offset c m (concat branch_segs)) = Some 8 /\
  len (concat (take 1 branch_segs)) = 16.
Proof.
  split; [|split; vm_compute; reflexivity]. unfold abi_record.
  replace (abi_fields branch_evsel) with [A_branch_stack; A_data_src] by (vm_compute; reflexivity).
  unfold branch_segs. apply Forall2_cons_2; [apply AB_branch_stack; done || lia|].
  apply Forall2_cons_2; [|constructor]. apply AB_u64. unfold u64_fields. rewrite !elem_of_cons. tauto.
Qed.

(** ** Data for unwinding *)

Section Unwind.
Context (e : evsel) (c : cache) (segs : list (list Z)).
Context (Hn : 0 <= nr_members e) (Hc : perf_event_members true e = Some c)
        (Hr : record_of e (sample_mask e) segs) (Hs : len (concat segs) < 2 ^ 31).

Let P := present (sample_mask e) e.

Lemma field_at i a bs f :
  P !! i = Some a -> a_field a = Some f -> f <> F_id -> segs !! i = Some bs ->
  exists m, member_at c f = Some m /\ m = member_of (take i P) a /\
    perf_event_member_offset c m (concat segs) = Some (len (concat (take i segs))) /\
    field_bytes e (a_fmt a) bs.
Proof using Hn Hc Hr Hs.
  intros Hi Hf Hid Hb. pose proof (members_cache e c Hc) as E. cbn zeta in E.
  exists (member_of (take i P) a).
  assert (member_at c f = Some (member_of (take i P) a)) as Hm.
  { rewrite E. eapply quick_field; [|done..]. symmetry. apply take_drop_middle, Hi. }
  split; [done|]. split; [done|]. split.
  - rewrite E. apply (member_offset_ok (sample_mask e) e Hn segs Hr Hs). cbn [members].
    apply built_member; [apply present_ok|done].
  - exact (Forall2_lookup_lr _ _ _ _ _ _ Hr Hi Hb).
Qed.

Lemma read_field i bs w rest n :
  segs !! i = Some bs -> bs = w ++ rest -> length w = n ->
  read_le n (concat segs) (len (concat (take i segs))) = Some (le w).
Proof using.
  intros Hi -> Hl. rewrite <- (take_drop_middle segs i _ Hi) at 1.
  rewrite concat_app. cbn [concat]. rewrite <- app_assoc. apply read_le_at, Hl.
Qed.

Lemma read_inner i bs pre w rest n off :
  segs !! i = Some bs -> bs = pre ++ w ++ rest -> length w = n ->
  off = len (concat (take i segs)) + len pre ->
  read_le n (concat segs) off = Some (le w).
Proof using.
  intros Hi -> Hl ->. rewrite <- (take_drop_middle segs i _ Hi) at 1.
  rewrite concat_app. cbn [concat]. rewrite <- !app_assoc, (app_assoc (concat _)).
  rewrite <- Nat2Z.inj_add, <- length_app. apply read_le_at, Hl.
Qed.

(** A field before the call chain is where its member says. *)
Lemma direct_offset i a bs f :
  P !! i = Some a -> a_field a = Some f -> f = F_pid \/ f = F_callchain -> segs !! i = Some bs ->
  exists m, member_at c f = Some m /\ offset m = len (concat (take i segs)) /\
    field_bytes e (a_fmt a) bs.
Proof using Hn Hc Hr Hs.
  intros Hi Hf Hff Hb.
  destruct (field_at i a bs f Hi Hf ltac:(destruct Hff as [->| ->]; done) Hb)
    as (m & Hm & Em & Ho & Hfb).
  exists m. split; [done|]. split; [|done]. unfold perf_event_member_offset in Ho.
  rewrite Em in Ho at 1. cbn [deps member_of] in Ho.
  pose proof (no_deps_before (sample_mask e) e Hn i a Hi) as H0. fold P in H0.
  rewrite H0 in Ho by (rewrite Hf; destruct Hff as [->| ->]; auto).
  cbn in Ho. injection Ho as Ho. exact Ho.
Qed.
End Unwind.

(** The words of the user stack field: its size, and the size in use after the
    copied bytes. *)
Definition stack_word (bs : list Z) : Z := le (take 8 bs).
Definition stack_dyn (bs : list Z) : Z := le (take 8 (drop (Z.to_nat (8 + stack_word bs)) bs)).

Lemma field_named e a f :
  a ∈ adds (sample_mask e) e -> a_field a = Some f ->
  match f with
  | F_pid => a_fmt a = PERF_SAMPLE_TID
  | F_regs_user => a_fmt a = PERF_SAMPLE_REGS_USER
  | F_stack_user => a_fmt a = PERF_SAMPLE_STACK_USER
  | _ => True
  end.
Proof.
  intros Ha Hf.
  each_add Ha; subst a; cbn in Hf; try discriminate Hf; injection Hf as <-; done.
Qed.

(** C9: the data handed to the unwinder is taken from the fields of the record:
    for a sample with pid, call chain, user registers and user stack, the pid
    is the one of the record, the call chain, the registers (present only with
    a nonzero ABI word) and the copied stack (present only with a nonzero size)
    are at their positions in it, and [stack_sz] is the size the kernel says is
    in use, read after the copied bytes; no read leaves the record. *)
Theorem callchain_data_correct e c segs ip ic ir is_ ap ac ar as_ pid chain regs stack :
  0 <= nr_members e -> perf_event_members true e = Some c ->
  record_of e (sample_mask e) segs -> len (concat segs) < 2 ^ 31 ->
  present (sample_mask e) e !! ip = Some ap -> a_field ap = Some F_pid ->
  present (sample_mask e) e !! ic = Some ac -> a_field ac = Some F_callchain ->
  present (sample_mask e) e !! ir = Some ar -> a_field ar = Some F_regs_user ->
  present (sample_mask e) e !! is_ = Some as_ -> a_field as_ = Some F_stack_user ->
  segs !! ip = Some pid -> segs !! ic = Some chain -> segs !! ir = Some regs ->
  segs !! is_ = Some stack ->
  let pos i := len (concat (take i segs)) in
  let abi := le (take 8 regs) in
  let size := stack_word stack in
  perf_event_build_callchain_data (Some c) (concat segs) = Some
    (CallchainData (Some (pos ic)) (le pid) abi
       (if abi =? 0 then None else Some (pos ir + 8))
       (if size =? 0 then None else Some (pos is_ + 8))
       (if size =? 0 then 0 else stack_dyn stack)).
Proof.
  intros Hn Hc Hr Hs Hip Fp Hic Fc Hir Fr His Fs Sp Sc Sr Ss. cbn zeta.
  assert (forall i a, present (sample_mask e) e !! i = Some a -> a ∈ adds (sample_mask e) e) as Hin
    by (intros i a Hi; apply present_adds; eapply list_elem_of_lookup_2, Hi).
  destruct (direct_offset e c segs Hn Hc Hr Hs ip ap pid F_pid Hip Fp (or_introl eq_refl) Sp)
    as (mp & Ep & Op & Bp).
  destruct (direct_offset e c segs Hn Hc Hr Hs ic ac chain F_callchain Hic Fc (or_intror eq_refl) Sc)
    as (mc & Ec & Oc & _).
  destruct (field_at e c segs Hn Hc Hr Hs ir ar regs F_regs_user Hir Fr ltac:(done) Sr)
    as (mr & Er & _ & Or & Br).
  destruct (field_at e c segs Hn Hc Hr Hs is_ as_ stack F_stack_user His Fs ltac:(done) Ss)
    as (ms & Es & _ & Os & Bs).
  pose proof (field_named e ap F_pid (Hin _ _ Hip) Fp) as Np.
  pose proof (field_named e ar F_regs_user (Hin _ _ Hir) Fr) as Nr.
  pose proof (field_named e as_ F_stack_user (Hin _ _ His) Fs) as Ns.
  cbn in Np, Nr, Ns. rewrite Np in Bp. rewrite Nr in Br. rewrite Ns in Bs.
  assert (length pid = 4%nat) as Lp.
  { inversion Bp as [? ? Hw| | | | | | | | | | | | |]; [not_word Hw|lia]. }
  assert (exists abi rest, regs = enc 8 abi ++ rest /\ 0 <= abi < 2 ^ 64) as (abi & rrest & -> & Ha).
  { inversion Br as [? ? Hw| | | | | | | | | | | | |]; [not_word Hw|exists 0, []|eexists _, _];
      split; try done; lia. }
  unfold perf_event_build_callchain_data. cbn [mbind option_bind fmap option_fmap option_map].
  rewrite Ep, Ec, Er, Es. cbn [mbind option_bind]. rewrite Op.
  rewrite (read_field segs ip pid pid [] 4 Sp ltac:(rewrite app_nil_r; done) Lp).
  cbn [mbind option_bind]. rewrite Or. cbn [mbind option_bind].
  rewrite (read_field segs ir _ (enc 8 abi) rrest 8 Sr eq_refl (enc_length 8 abi)).
  change (offset <$> Some mc) with (Some (offset mc)). cbn [mbind option_bind].
  rewrite Oc, Os. cbn [mbind option_bind].
  rewrite (take_app_length' (enc 8 abi)) by (rewrite enc_length; done).
  inversion Bs as [? ? Hw| | | | | | | | |Ef Es0|size data dyn Hsz Hd Hdyn Ef Es0| | |]; [not_word Hw| |].
  - subst stack.
    rewrite (read_field segs is_ _ (enc 8 0) [] 8 Ss ltac:(rewrite app_nil_r; done) (enc_length 8 0)).
    cbn [mbind option_bind]. change (le (enc 8 0)) with 0. change (stack_word (enc 8 0)) with 0.
    cbn [Z.eqb negb]. destruct (le (enc 8 abi) =? 0); done.
  - subst stack.
    rewrite (read_field segs is_ _ (enc 8 size) _ 8 Ss eq_refl (enc_length 8 size)).
    cbn [mbind option_bind]. unfold stack_dyn, stack_word.
    rewrite (take_app_length' (enc 8 size)) by (rewrite enc_length; done).
    rewrite !(le_enc 8 size) by (cbn; lia). rewrite (proj2 (Z.eqb_neq size 0)) by lia. cbn [negb].
    rewrite (read_inner segs is_ _ (enc 8 size ++ data) (enc 8 dyn) [] 8 _ Ss)
      by (rewrite ?app_nil_r, <- ?app_assoc, ?length_app, ?enc_length; cbn; done || lia).
    cbn [mbind option_bind]. rewrite app_assoc, drop_app_length'
      by (rewrite length_app, enc_length; lia).
    rewrite (take_ge (enc 8 dyn)) by (rewrite enc_length; done).
    destruct (le (enc 8 abi) =? 0); done.
Qed.

Lemma callchain_data_correct_witness :
  exists c, perf_event_members true sample_evsel = Some c /\
    perf_event_build_callchain_data (Some c) (concat sample_segs) =
      Some (CallchainData (Some 8) 100 0 None (Some 56) 6).
Proof.
  destruct (perf_event_members true sample_evsel) as [c|] eqn:Hc; [|discriminate Hc].
  exists c. split; [done|].
  etrans; [apply (callchain_data_correct sample_evsel c sample_segs 0 2 4 5
    (Add "pid" 4 PERF_SAMPLE_TID (Some F_pid) 0 None)
    (Add "callchain" 0 PERF_SAMPLE_CALLCHAIN (Some F_callchain) 0 None)
    (Add "regs_user" 0 PERF_SAMPLE_REGS_USER (Some F_regs_user) 0 (Some (8 + hweight64 0xff * 8)))
    (Add "stack_user" 0 PERF_SAMPLE_STACK_USER (Some F_stack_user) 0 None)
    (enc 4 100) (enc 8 2 ++ enc 8 7 ++ enc 8 9) (enc 8 0) (enc 8 8 ++ enc 8 55 ++ enc 8 6));
    first [exact Hc|apply sample_record|vm_compute; congruence]|].
  vm_compute. reflexivity.
Defined.

(** ** Positions of a device *)

Lemma has_land x m f : has m f = true -> is_flag f -> has (Z.land x m) f = has x f.
Proof.
  intros Hm (n & Hn & ->). rewrite !has_pow2 in * by done.
  rewrite Z.land_spec, Hm, andb_true_r. done.
Qed.

(** The loop leaves the type of the sampling events, and the event when it is
    the only one. *)
Lemma common_type_spec l : forall st o st' o',
  common_type st o l = Some (st', o') ->
  (st <> 0 -> st' = st) /\
  (forall e, e ∈ l -> is_sampling_event e = true -> Z.land (sample_type e) POS_MASK <> 0 ->
     Z.land (sample_type e) POS_MASK = st' /\
     (forall e0, o' = Some e0 -> st = 0 -> e = e0) /\ (st <> 0 -> o' = None)) /\
  (st <> 0 -> o' = None \/ o' = o).
Proof.
  induction l as [|x l IH]; intros st o st' o' H; cbn in H.
  - injection H as <- <-. split; [done|]. split; [|auto]. intros e He. apply elem_of_nil in He. done.
  - destruct (is_sampling_event x) eqn:Ex; [destruct (Z.eqb_spec st 0) as [->|Hst]|].
    + destruct (IH _ _ _ _ H) as (H1 & H2 & H3). split; [done|]. split; [|done].
      intros e He Hs Ht. apply elem_of_cons in He as [->|He].
      * split; [symmetry; auto|]. split; [|done]. intros e0 -> _.
        destruct (H3 Ht); congruence.
      * destruct (H2 e He Hs Ht) as (E1 & E2 & E3). split; [done|]. split; [|done].
        intros e0 -> _. destruct (decide (Z.land (sample_type x) POS_MASK = 0)) as [Hz|Hz]; [auto|].
        specialize (E3 Hz). discriminate.
    + destruct (Z.eqb_spec st (Z.land (sample_type x) POS_MASK)) as [Eq|]; [|discriminate H].
      destruct (IH _ _ _ _ H) as (H1 & H2 & H3). split; [done|]. split.
      * intros e He Hs Ht. apply elem_of_cons in He as [->|He].
        { rewrite <- Eq. split; [symmetry; auto|]. split; [done|]. intros _. destruct (H3 Hst); done. }
        destruct (H2 e He Hs Ht) as (E1 & E2 & E3). auto.
      * intros _. destruct (H3 Hst); auto.
    + destruct (IH _ _ _ _ H) as (H1 & H2 & H3). split; [done|]. split; [|done].
      intros e He Hs Ht. apply elem_of_cons in He as [->|He]; [congruence|]. eauto.
Qed.

(** The sum of the fixed sizes of the fields before the [j]-th of the table. *)
Lemma fixed_sum_filter st l :
  fixed_sum (filter (fun a => has st (a_fmt a) = true) l) =
  foldr (fun a s => (if has st (a_fmt a) then fixed a else 0) + s) 0 l.
Proof.
  induction l as [|a l IH]; [done|]. rewrite filter_cons. cbn [foldr].
  destruct (has st (a_fmt a)); [rewrite decide_True by done|rewrite decide_False by done];
    cbn [fixed_sum foldr]; fold (fixed_sum (filter (fun a => has st (a_fmt a) = true) l));
    rewrite IH; lia.
Qed.

Lemma member_fixed e c j a f :
  perf_event_members true e = Some c -> adds (sample_mask e) e !! j = Some a ->
  a_field a = Some f -> f <> F_id -> has (sample_mask e) (a_fmt a) = true ->
  exists m, member_at c f = Some m /\
    offset m = fixed_sum (filter (fun a => has (sample_mask e) (a_fmt a) = true)
      (take j (adds (sample_mask e) e))).
Proof.
  intros Hc Hj Hf Hid Hh. apply members_cache in Hc. cbn zeta in Hc. subst c.
  eexists. split.
  - eapply (quick_field _ _ _ a); [|done..]. unfold present.
    rewrite <- (take_drop_middle _ _ _ Hj) at 1. rewrite list.filter_app, filter_cons, decide_True by done.
    reflexivity.
  - reflexivity.
Qed.

(** The member of the [j]-th use of ADD_MEMBER. *)
Lemma member_in e c j a :
  perf_event_members true e = Some c -> adds (sample_mask e) e !! j = Some a -> has (sample_mask e) (a_fmt a) = true ->
  exists m, m ∈ members c /\ name m = a_name a /\ format m = a_fmt a /\
    offset m = fixed_sum (filter (fun a => has (sample_mask e) (a_fmt a) = true) (take j (adds (sample_mask e) e))).
Proof.
  intros Hc Hj Hh. apply members_cache in Hc. cbn zeta in Hc. subst c. cbn [members].
  set (l := filter (fun a => has (sample_mask e) (a_fmt a) = true) (take j (adds (sample_mask e) e))).
  assert (present (sample_mask e) e = l ++ a :: filter (fun a => has (sample_mask e) (a_fmt a) = true)
    (drop (S j) (adds (sample_mask e) e))) as EP.
  { unfold present. rewrite <- (take_drop_middle _ _ _ Hj) at 1. rewrite list.filter_app, filter_cons, decide_True by done. done. }
  exists (member_of l a). split; [|done]. apply (list_elem_of_lookup_2 _ (length l)).
  rewrite (built_member _ _ _ a (present_ok _ _)); rewrite EP; [|apply list_lookup_middle; done].
  rewrite take_app_length. done.
Qed.

Lemma mask_flag e f :
  has (PERF_SAMPLE_MAX - 1) f = true -> is_flag f -> has (sample_type e) f = has (sample_mask e) f.
Proof. intros Hm Hf. unfold sample_mask. rewrite has_land; done. Qed.

Lemma same_flag e st f :
  Z.land (sample_type e) POS_MASK = st -> has POS_MASK f = true ->
  has (PERF_SAMPLE_MAX - 1) f = true -> is_flag f -> has st f = has (sample_mask e) f.
Proof. intros <- Hp Hm Hf. rewrite has_land, <- mask_flag; done. Qed.

Lemma if_add (b : bool) x k : (if b then x + k else x) = x + (if b then k else 0).
Proof. destruct b; lia. Qed.

(** The sum of the fixed sizes, case by case. *)
Ltac fixed_fields :=
  cbn [adds take foldr app a_fmt]; unfold fixed; cbn [a_skip a_sz];
  try match goal with st := sample_mask _ |- _ => fold st end;
  repeat match goal with H : has _ _ = _ |- _ => rewrite H; clear H end;
  repeat match goal with |- context [if ?b then _ else _] =>
    lazymatch b with context [if _ then _ else _] => fail | _ => destruct b end end; lia.

(** The offset of the member with quick pointer [f], the [j]-th of the table. *)
Ltac fixed_offset c j f E :=
  let m := fresh "m" in let Hm := fresh "Hm" in
  match goal with Hc : perf_event_members true ?e = Some c |- _ =>
    destruct (member_fixed e c j _ f Hc eq_refl eq_refl ltac:(done) E) as (m & -> & Hm);
    change (offset <$> Some m) with (Some (offset m)); f_equal;
    rewrite Hm, fixed_sum_filter
  end; fixed_fields.


Definition chain_event : evsel :=
  Evsel 4 (PERF_SAMPLE_TID + PERF_SAMPLE_TIME + PERF_SAMPLE_ID + PERF_SAMPLE_CPU +
           PERF_SAMPLE_CALLCHAIN) 0 0 0 1.
Definition two_events : list evsel :=
  [Evsel 1 (PERF_SAMPLE_TID + PERF_SAMPLE_TIME + PERF_SAMPLE_ID + PERF_SAMPLE_CPU) 0 0 0 1;
   chain_event].


(** With a stream id in the record, [cache->id] is the stream id, not the id. *)
Example cache_id_is_stream_id :
  (fun m => name m) <$> (c ← perf_event_members true
     (Evsel 1 (PERF_SAMPLE_ID + PERF_SAMPLE_STREAM_ID) 0 0 0 1); member_at c F_id) =
  Some "stream_id"%string.
Proof. vm_compute. reflexivity. Qed.
