(* ===== verification/Clock.v ===== *)
(** * Clocks of events (convert.c, math64.h, lib/perf/mmap.c, pvclock.h)

    The kernel stamps events with its perf clock.  A device may show them on
    another clock: the time stamp counter, the clock of a KVM guest, or shifted
    by an offset.  A division by zero, and a quotient that does not fit in the
    x86 divide instruction, is [None]. *)

From S2P Require Import Prelude SampleLayout.

Module Clock.

(** ** 64-bit multiplication with a shift or a division (linux/math64.h)

    The versions with [__int128] or the x86 instructions, and the portable
    ones ([_c]) on 32-bit products. *)

Definition mul_u64_u32_shr (a b shift : Z) : Z := u64 (Z.shiftr (a * b) shift).

Definition mul_u64_u64_shr (a mul shift : Z) : Z := u64 (Z.shiftr (a * mul) shift).

Definition mul_u32_u32 (a b : Z) : Z := u64 (a * b).

Definition mul_u64_u32_shr_c (a b shift : Z) : Z :=
  let al := u32 a in
  let ah := u32 (Z.shiftr a 32) in
  let ret := Z.shiftr (mul_u32_u32 al b) shift in
  if negb (ah =? 0) then u64 (ret + u64 (Z.shiftl (mul_u32_u32 ah b) (32 - shift))) else ret.

(** The halves of a 64-bit union. *)
Definition low (x : Z) : Z := u32 x.
Definition high (x : Z) : Z := u32 (Z.shiftr x 32).
Definition join (h l : Z) : Z := Z.lor (Z.shiftl h 32) l.

Definition mul_u64_u64_shr_c (a b shift : Z) : Z :=
  let rl := mul_u32_u32 (low a) (low b) in
  let rm := mul_u32_u32 (low a) (high b) in
  let rn := mul_u32_u32 (high a) (low b) in
  let rh := mul_u32_u32 (high a) (high b) in
  let c := u64 (high rl + low rm + low rn) in
  let rl_high := u32 c in
  let c := u64 (Z.shiftr c 32 + high rm + high rn + low rh) in
  let rh_low := u32 c in
  let rh_high := u32 (Z.shiftr c 32 + high rh) in
  let rl := join rl_high (low rl) in
  let rh := join rh_high rh_low in
  if shift =? 0 then rl
  else if shift <? 64 then Z.lor (Z.shiftr rl shift) (u64 (Z.shiftl rh (64 - shift)))
  else Z.shiftr rh (Z.land shift 63).

(** [mulq; divq]: the divide faults on 0 and when the quotient needs more than
    64 bits. *)
Definition mul_u64_u64_div64 (a b c : Z) : option Z :=
  if c =? 0 then None
  else let q := a * b / c in if 2 ^ 64 <=? q then None else Some q.

Definition mul_u64_u64_div64_c (a b c : Z) : option Z :=
  if c =? 0 then None
  else let quot := a / c in
       let rem := a mod c in
       Some (u64 (u64 (quot * b) + u64 (rem * b) / c)).

(** ** The control page (perf_event_mmap_page)

    The kernel may update the page between any two reads: [page_at t] is the
    page at the [t]-th read, [lock] its sequence count. *)

Record mpage := Page {
  lock : Z;
  index : Z;
  poffset : Z;
  time_enabled : Z;
  time_running : Z;
  cap_user_rdpmc : bool;
  cap_user_time : bool;
  cap_user_time_zero : bool;
  cap_user_time_short : bool;
  pmc_width : Z;
  ptime_shift : Z;
  ptime_mult : Z;
  time_offset : Z;
  ptime_zero : Z;
  time_cycles : Z;
  time_mask : Z
}.

Record perf_tsc_conversion := TscConv {
  time_shift : Z;
  time_mult : Z;
  time_zero : Z;
  tc_cap_user_time_zero : bool
}.

Definition EINVAL : Z := 22.
Definition EOPNOTSUPP : Z := 95.

Section Page.
Context (page_at : nat -> mpage).

(** One pass of the loop: the values read, and whether they are consistent. *)
Definition tsc_conversion_pass (t : nat) : perf_tsc_conversion * bool :=
  let seq := lock (page_at t) in
  let tc := TscConv (ptime_shift (page_at (t + 2))) (ptime_mult (page_at (t + 1)))
              (ptime_zero (page_at (t + 3))) (cap_user_time_zero (page_at (t + 4))) in
  (tc, (lock (page_at (t + 5)) =? seq) && (Z.land seq 1 =? 0)).

(** [i] passes are left before [++i > 10000]. *)
Fixpoint tsc_conversion_loop (i : nat) (t : nat) : perf_tsc_conversion * Z :=
  let '(tc, ok) := tsc_conversion_pass t in
  if (ok : bool) then (tc, if negb (tc_cap_user_time_zero tc) then - EOPNOTSUPP else 0)
  else match i with
       | O => (tc, - EINVAL)
       | S i => tsc_conversion_loop i (t + 6)
       end.

Definition perf_mmap__read_tsc_conversion (t : nat) : perf_tsc_conversion * Z :=
  tsc_conversion_loop (Z.to_nat 10000) t.

(** [perf_mmap__read_self]: the counts, [None] for -1.  [rdpmc] and [rdtsc]
    are the instructions.  [fuel] bounds the passes of the sequence lock. *)
Context (rdpmc : Z -> nat -> Z) (rdtsc : nat -> Z).

Record counts := Counts { val : Z; ena : Z; run : Z }.

(** The local variables that keep their values from pass to pass. *)
Record tsvars := Tsvars {
  cyc : Z; v_mult : Z; v_shift : Z; v_offset : Z; v_cycles : Z; v_mask : Z
}.

Definition read_timestamp_fields (t : nat) (v : tsvars) : tsvars :=
  let short := cap_user_time_short (page_at (t + 7)) in
  Tsvars (rdtsc (t + 3)) (ptime_mult (page_at (t + 4))) (ptime_shift (page_at (t + 5)))
    (time_offset (page_at (t + 6)))
    (if short then time_cycles (page_at (t + 8)) else v_cycles v)
    (if short then time_mask (page_at (t + 9)) else v_mask v).

Fixpoint read_self_loop (fuel : nat) (t : nat) (v : tsvars) : option (option counts) :=
  match fuel with
  | O => None
  | S fuel =>
      let seq := lock (page_at t) in
      let e := time_enabled (page_at (t + 1)) in
      let r := time_running (page_at (t + 2)) in
      let v := if cap_user_time (page_at (t + 3)) && negb (e =? r)
               then read_timestamp_fields t v else v in
      let idx := index (page_at (t + 10)) in
      let cnt := poffset (page_at (t + 11)) in
      if cap_user_rdpmc (page_at (t + 12)) && negb (idx =? 0) then
        let width := pmc_width (page_at (t + 13)) in
        let evcnt := Z.shiftr (u64 (Z.shiftl (rdpmc (idx - 1) (t + 13)) (64 - width))) (64 - width) in
        let cnt := u64 (cnt + evcnt) in
        if lock (page_at (t + 14)) =? seq then
          if negb (e =? r) then
            let cyc := u64 (v_cycles v + Z.land (u64 (cyc v - v_cycles v)) (v_mask v)) in
            let delta := u64 (v_offset v + mul_u64_u32_shr cyc (v_mult v) (v_shift v)) in
            let e := u64 (e + delta) in
            let r := u64 (r + delta) in
            Some (x ← mul_u64_u64_div64 cnt e r; Some (Counts x e r))
          else Some (Some (Counts cnt e r))
        else read_self_loop fuel (t + 15) v
      else Some None
  end.

Definition perf_mmap__read_self (mapped : bool) (fuel t : nat) : option (option counts) :=
  if negb mapped || negb (cap_user_rdpmc (page_at t)) then Some None
  else read_self_loop fuel (t + 1) (Tsvars 0 0 0 0 0 (2 ^ 64 - 1)).
End Page.

(** ** Conversions *)

Definition perfclock_to_tsc (tc : perf_tsc_conversion) (ns : Z) : option Z :=
  if time_mult tc =? 0 then None
  else let t := u64 (ns - time_zero tc) in
       let quot := t / time_mult tc in
       let rem := t mod time_mult tc in
       Some (u64 (u64 (Z.shiftl quot (time_shift tc)) +
                  u64 (Z.shiftl rem (time_shift tc)) / time_mult tc)).

Definition tsc_to_perfclock (tc : perf_tsc_conversion) (tsc : Z) : Z :=
  u64 (mul_u64_u32_shr tsc (time_mult tc) (time_shift tc) + time_zero tc).

(** The guest's clock (asm/pvclock.h), and vcpu 0 of the guest. *)
Record pvclock_vcpu_time_info := Pvti {
  version : Z;
  tsc_timestamp : Z;
  system_time : Z;
  tsc_to_system_mul : Z;
  tsc_shift : Z;
  pv_flags : Z
}.

Record vcpu_data := Vcpu {
  tsc_offset : Z;
  tsc_scaling_ratio : Z;
  pvti : pvclock_vcpu_time_info
}.

Definition pvclock_scale_delta (delta mul_frac shift : Z) : Z :=
  let delta := if shift <? 0 then Z.shiftr delta (- shift) else u64 (Z.shiftl delta shift) in
  u64 (Z.shiftr (delta * mul_frac) 32).

Definition pvclock_read_cycles (src : pvclock_vcpu_time_info) (tsc : Z) : Z :=
  let delta := u64 (tsc - tsc_timestamp src) in
  u64 (system_time src + pvclock_scale_delta delta (tsc_to_system_mul src) (tsc_shift src)).

(** The globals [kvm_tsc_scaling_ratio_frac_bits] and
    [kvm_default_tsc_scaling_ratio]. *)
Record scaling := Scaling { frac_bits : Z; default_ratio : Z }.

Definition kvm_scale_tsc (g : scaling) (v : vcpu_data) (tsc : Z) : Z :=
  if negb (tsc_scaling_ratio v =? default_ratio g)
  then mul_u64_u64_shr tsc (tsc_scaling_ratio v) (frac_bits g) else tsc.

Definition kvm_read_l1_tsc (g : scaling) (v : vcpu_data) (host_tsc : Z) : Z :=
  u64 (tsc_offset v + kvm_scale_tsc g v host_tsc).

Definition host_tsc_to_kvmclock (g : scaling) (v : vcpu_data) (host_tsc : Z) : Z :=
  pvclock_read_cycles (pvti v) (kvm_read_l1_tsc g v host_tsc).

Definition perfclock_to_kvmclock (g : scaling) (tc : perf_tsc_conversion) (v : vcpu_data) (time : Z)
    : option Z :=
  host_tsc ← perfclock_to_tsc tc time; Some (host_tsc_to_kvmclock g v host_tsc).

Definition kvmclock_to_perfclock (g : scaling) (tc : perf_tsc_conversion) (v : vcpu_data) (time : Z)
    : option Z :=
  let sh := tsc_shift (pvti v) - 32 in
  let sh := if sh <? 0 then - sh else sh in
  let offset := u64 (time - system_time (pvti v)) in
  delta ← mul_u64_u64_div64 offset (u64 (Z.shiftl 1 sh)) (tsc_to_system_mul (pvti v));
  let guest_tsc := u64 (delta + tsc_timestamp (pvti v)) in
  let host_tsc := u64 (guest_tsc - tsc_offset v) in
  host_tsc ← (if negb (tsc_scaling_ratio v =? default_ratio g)
              then mul_u64_u64_div64 guest_tsc (default_ratio g) (tsc_scaling_ratio v)
              else Some host_tsc);
  Some (tsc_to_perfclock tc host_tsc).

(** ** The device's clock *)

Inductive convert_to := CONVERT_NONE | CONVERT_TO_TSC | CONVERT_TO_KVMCLOCK | CONVERT_ADD_OFFSET.

Record clock_dev := ClockDev {
  need_conv : convert_to;
  need_fixed : bool;
  tsc_conv : perf_tsc_conversion;
  tsc_conv_fixed : perf_tsc_conversion;
  vcpu : vcpu_data;
  clock_offset : Z;                  (* env->clock_offset *)
  env_tsc : bool;
  base_evtime : Z;
  base_sec : Z;
  base_nsec : Z
}.

Definition converts (d : clock_dev) : bool :=
  match need_conv d with CONVERT_NONE => false | _ => true end.

Definition perfclock_to_evclock_ (g : scaling) (d : clock_dev) (time : Z) : option Z :=
  e ← match need_conv d with
      | CONVERT_TO_TSC => perfclock_to_tsc (tsc_conv d) time
      | CONVERT_TO_KVMCLOCK => perfclock_to_kvmclock g (tsc_conv d) (vcpu d) time
      | _ => Some time
      end;
  Some (u64 (e + clock_offset d)).

Definition perfclock_to_evclock (g : scaling) (d : clock_dev) (time : Z) : option Z :=
  if negb (converts d) then Some time else perfclock_to_evclock_ g d time.

Definition evclock_to_perfclock (g : scaling) (d : clock_dev) (time : Z) : option Z :=
  if negb (converts d) then Some time
  else let time := u64 (time - clock_offset d) in
       match need_conv d with
       | CONVERT_TO_TSC => Some (tsc_to_perfclock (tsc_conv d) time)
       | CONVERT_TO_KVMCLOCK => kvmclock_to_perfclock g (tsc_conv d) (vcpu d) time
       | _ => Some time
       end.

Definition evclock_to_real_ns (d : clock_dev) (time : Z) : option Z :=
  let convert_none time :=
    if need_fixed d
    then tsc ← perfclock_to_tsc (tsc_conv d) time; Some (tsc_to_perfclock (tsc_conv_fixed d) tsc)
    else Some time in
  if negb (converts d) then convert_none time
  else let time := u64 (time - clock_offset d) in
       match need_conv d with
       | CONVERT_TO_TSC =>
           Some (if need_fixed d then tsc_to_perfclock (tsc_conv_fixed d) time
                 else tsc_to_perfclock (tsc_conv d) time)
       | CONVERT_TO_KVMCLOCK => Some time
       | _ => convert_none time
       end.

Definition NSEC_PER_SEC : Z := 1000000000.

Definition evclock_to_realtime_ns (d : clock_dev) (evtime : Z) : option Z :=
  if (0 <? base_evtime d) && (0 <? evtime)
  then ns ← evclock_to_real_ns d evtime;
       let off_ns := s64 (u64 (ns - base_evtime d)) in
       let off_ns := s64 (off_ns + base_nsec d) in
       Some (u64 (base_sec d * NSEC_PER_SEC + off_ns))
  else Some 0.

(** [perf_event_convert_read_tsc_conversion]: reading fails when the page does
    not support it or the clock source is not the TSC; the device then shows
    the perf clock. *)
Definition perf_event_convert_read_tsc_conversion (page_at : nat -> mpage) (t : nat)
    (clocksource_is_tsc : bool) (d : clock_dev) : clock_dev :=
  match need_conv d with
  | CONVERT_TO_TSC | CONVERT_TO_KVMCLOCK =>
      let '(tc, ret) := perf_mmap__read_tsc_conversion page_at t in
      let d := ClockDev (need_conv d) (need_fixed d) tc (tsc_conv_fixed d) (vcpu d)
                 (clock_offset d) (env_tsc d) (base_evtime d) (base_sec d) (base_nsec d) in
      if (ret =? - EOPNOTSUPP) || negb clocksource_is_tsc
      then ClockDev CONVERT_NONE (need_fixed d) (tsc_conv d) (tsc_conv_fixed d) (vcpu d)
             0 false (base_evtime d) (base_sec d) (base_nsec d)
      else d
  | _ => d
  end.

(** ** The event with its converted time

    [event] are the bytes of the record, header included; the time is a 64-bit
    word at [8 + time_pos].  The result says where the event is now: in place,
    or in [convert.event_copy]. *)
Definition get64 (bs : list Z) (off : nat) : option Z :=
  if decide (off + 8 <= length bs)%nat
  then Some (foldr (fun b acc => b + 256 * acc) 0 (take 8 (drop off bs))) else None.

Fixpoint bytes_le (n : nat) (v : Z) : list Z :=
  match n with O => [] | S n => v mod 256 :: bytes_le n (v / 256) end.

Definition put64 (bs : list Z) (off : nat) (v : Z) : list Z :=
  take off bs ++ bytes_le 8 v ++ drop (off + 8) bs.

Definition perf_event_convert (g : scaling) (d : clock_dev) (time_pos : nat)
    (event event_copy : list Z) (writable : bool) : option (list Z * list Z * bool) :=
  if negb (converts d) then Some (event, event_copy, false)
  else
    let target := if writable then event
                  else event ++ drop (length event) event_copy in
    if negb writable && (length event_copy <? length event)%nat then None
    else
      time ← get64 target (8 + time_pos);
      e ← perfclock_to_evclock_ g d time;
      let target := put64 target (8 + time_pos) e in
      Some (if writable then (target, event_copy, false) else (event, target, true)).

(** ** A multiplier for the refined TSC frequency *)

Fixpoint shift_accuracy (fuel : nat) (tmp sftacc : Z) : Z :=
  match fuel with
  | O => sftacc
  | S fuel => if tmp =? 0 then sftacc else shift_accuracy fuel (Z.shiftr tmp 1) (sftacc - 1)
  end.

(** [sft] counts down from 32; [tmp] is left from the last pass. *)
Fixpoint find_shift (sft : nat) (tmp sftacc from to : Z) : Z * Z :=
  match sft with
  | O => (tmp, 0)
  | S sft' =>
      let tmp := u64 (u64 (Z.shiftl to (Z.of_nat sft)) + from / 2) / from in
      if Z.shiftr tmp sftacc =? 0 then (tmp, Z.of_nat sft)
      else find_shift sft' tmp sftacc from to
  end.

Definition clocks_calc_mult_shift (from to maxsec : Z) : Z * Z :=
  let tmp := Z.shiftr (u64 (maxsec * from)) 32 in
  let sftacc := shift_accuracy 64 tmp 32 in
  let '(mult, sft) := find_shift 32 tmp sftacc from to in
  (u32 mult, sft).

(** For kernels before 4.12, with [tsc_khz] the refined frequency. *)
Definition do_tsc_conv_fixed (old_kernel : bool) (tsc_khz : Z) (d : clock_dev) : clock_dev :=
  if old_kernel then
    let fixed := 0 <? tsc_khz in
    let tcf :=
      if fixed then
        let '(mult, shift) := clocks_calc_mult_shift (u32 tsc_khz) 1000000 0 in
        let '(mult, shift) := if shift =? 32 then (Z.shiftr mult 1, 31) else (mult, shift) in
        TscConv shift mult (time_zero (tsc_conv d)) (tc_cap_user_time_zero (tsc_conv d))
      else tsc_conv_fixed d in
    ClockDev (need_conv d) fixed (tsc_conv d) tcf (vcpu d) (clock_offset d) (env_tsc d)
      (base_evtime d) (base_sec d) (base_nsec d)
  else d.

(** ** Choice of the conversion *)

Definition perf_sample_time_init (fix_sample_pos : SampleLayout.sample_pos -> SampleLayout.sample_pos)
    (l : list SampleLayout.evsel) : option SampleLayout.sample_pos :=
  p ← SampleLayout.perf_sample_pos_init fix_sample_pos l;
  let st := SampleLayout.pos_sample_type p in
  if negb (st =? 0) && negb (SampleLayout.has st SampleLayout.PERF_SAMPLE_TIME)
  then None else Some p.

(** What [perf_event_convert_init] sets: the conversion, [env->tsc],
    [env->clock_offset] and whether [event_copy] is allocated. *)
Record convert_choice := Choice {
  ch_conv : convert_to;
  ch_tsc : bool;
  ch_offset : Z;
  ch_copy : bool
}.

(** [pos] is the result of [perf_sample_time_init], [kvm_init] whether the
    guest's clock could be set up; [None] is the failure of the device. *)
Definition perf_event_convert_init (pos : option SampleLayout.sample_pos)
    (tsc kvmclock : bool) (offset : Z) (kvm_init malloc_ok : bool) : option convert_choice :=
  if negb tsc && negb kvmclock && (offset =? 0)
  then Some (Choice CONVERT_NONE tsc offset false)
  else
    p ← pos;
    if SampleLayout.has (SampleLayout.pos_sample_type p) SampleLayout.PERF_SAMPLE_TIME then
      conv ← (if tsc then Some CONVERT_TO_TSC
              else if kvmclock then (if kvm_init then Some CONVERT_TO_KVMCLOCK else None)
              else Some CONVERT_ADD_OFFSET);
      if malloc_ok then Some (Choice conv tsc offset true) else None
    else Some (Choice CONVERT_NONE false 0 false).

(** ** TSC scaling of the processor *)

Definition adjust_vmx_controls (msr_value : Z) : Z :=
  let vmx_msr_low := u32 msr_value in
  let vmx_msr_high := u32 (Z.shiftr msr_value 32) in
  s32 (Z.lor (Z.land (2 ^ 32 - 1) vmx_msr_high) vmx_msr_low).

(** ** Updates of the guest's clock (kvm tracepoints) *)

Inductive kvm_event :=
  | PvclockUpdate (p : pvclock_vcpu_time_info)
  | WriteTscOffset (vcpu_id previous next : Z).

Definition kvm_pvclock_update (v : vcpu_data) (e : kvm_event) : vcpu_data :=
  match e with
  | PvclockUpdate p => Vcpu (tsc_offset v) (tsc_scaling_ratio v) p
  | WriteTscOffset id previous next =>
      if (id =? 0) && (previous =? tsc_offset v)
      then Vcpu next (tsc_scaling_ratio v) (pvti v) else v
  end.
End Clock.
