(* ===== verification/ClockProof.v ===== *)
(** * Lemmas on clocks

    The portable multiplications compute the wide product; the conversion
    between the perf clock and the TSC is the exact rounded-down quotient. *)

From S2P Require Import Prelude Clock.
Import Clock.

(** ** Wide products on 32-bit halves *)

Lemma low_high x : 0 <= x < 2 ^ 64 ->
  x = high x * 2 ^ 32 + low x /\ 0 <= low x < 2 ^ 32 /\ 0 <= high x < 2 ^ 32.
Proof.
  intros Hx. unfold low, high, uwrap. rewrite Z.shiftr_div_pow2 by lia.
  assert (0 <= x / 2 ^ 32 < 2 ^ 32) as Hd
    by (split; [apply Z.div_pos; lia|apply Z.div_lt_upper_bound; lia]).
  rewrite (Z.mod_small (x / 2 ^ 32)) by done.
  pose proof (Z.div_mod x (2 ^ 32)). pose proof (Z.mod_pos_bound x (2 ^ 32)). lia.
Qed.

Lemma bits_high x n i : 0 <= x < 2 ^ n -> 0 <= n <= i -> Z.testbit x i = false.
Proof.
  intros Hx Hi. rewrite <- (Z.mod_small x (2 ^ n)) by lia. apply Z.mod_pow2_bits_high. lia.
Qed.

Lemma join_add h l : 0 <= l < 2 ^ 32 -> join h l = h * 2 ^ 32 + l.
Proof.
  intros Hl. unfold join. rewrite <- Z.add_nocarry_lor.
  - rewrite Z.shiftl_mul_pow2; lia.
  - apply Z.bits_inj'. intros i Hi. rewrite Z.land_spec, Z.shiftl_spec, Z.bits_0 by lia.
    destruct (Z.ltb_spec i 32); [rewrite Z.testbit_neg_r by lia; done|].
    rewrite (bits_high l 32) by lia. apply andb_false_r.
Qed.

Lemma mul32_small a b : 0 <= a < 2 ^ 32 -> 0 <= b < 2 ^ 32 -> mul_u32_u32 a b = a * b.
Proof. intros. unfold mul_u32_u32. apply uwrap_small; [lia|]. unfold in_u. nia. Qed.

(** The carries of the schoolbook product. *)
Lemma wide_product a b : 0 <= a < 2 ^ 64 -> 0 <= b < 2 ^ 64 ->
  let rl := mul_u32_u32 (low a) (low b) in
  let rm := mul_u32_u32 (low a) (high b) in
  let rn := mul_u32_u32 (high a) (low b) in
  let rh := mul_u32_u32 (high a) (high b) in
  let c := u64 (high rl + low rm + low rn) in
  let c' := u64 (Z.shiftr c 32 + high rm + high rn + low rh) in
  join (u32 c) (low rl) = (a * b) mod 2 ^ 64 /\
  join (u32 (Z.shiftr c' 32 + high rh)) (u32 c') = a * b / 2 ^ 64.
Proof.
  intros Ha Hb rl rm rn rh. cbn zeta.
  destruct (low_high a Ha) as (Ea & La & Ra). destruct (low_high b Hb) as (Eb & Lb & Rb).
  assert (rl = low a * low b) as El by (apply mul32_small; done).
  assert (rm = low a * high b) as Em by (apply mul32_small; done).
  assert (rn = high a * low b) as En by (apply mul32_small; done).
  assert (rh = high a * high b) as Eh by (apply mul32_small; done).
  set (M := 2 ^ 32) in *. assert (M = 4294967296) as EM by done.
  assert (forall x y, 0 <= x < M -> 0 <= y < M -> 0 <= x * y <= (M - 1) * (M - 1)) as Hp by nia.
  assert (2 ^ 64 = M * M) as E64 by done.
  destruct (low_high rl) as (Hl1 & Hl2 & Hl3); [rewrite El, E64; specialize (Hp (low a) (low b)); nia|].
  destruct (low_high rm) as (Hm1 & Hm2 & Hm3); [rewrite Em, E64; specialize (Hp (low a) (high b)); nia|].
  destruct (low_high rn) as (Hn1 & Hn2 & Hn3); [rewrite En, E64; specialize (Hp (high a) (low b)); nia|].
  destruct (low_high rh) as (Hh1 & Hh2 & Hh3); [rewrite Eh, E64; specialize (Hp (high a) (high b)); nia|].
  fold M in Hl1, Hl2, Hl3, Hm1, Hm2, Hm3, Hn1, Hn2, Hn3, Hh1, Hh2, Hh3.
  rewrite (uwrap_small 64 ltac:(lia) (high rl + low rm + low rn)) by (unfold in_u; lia).
  set (c := high rl + low rm + low rn).
  assert (0 <= c / M <= 2) as Hc.
  { split; [apply Z.div_pos; lia|]. assert (c / M < 3); [|lia]. apply Z.div_lt_upper_bound; lia. }
  rewrite !Z.shiftr_div_pow2 by lia. fold M.
  set (c' := c / M + high rm + high rn + low rh).
  rewrite (uwrap_small 64 ltac:(lia) c') by (unfold in_u; lia).
  unfold uwrap. fold M. pose proof (Z.div_mod c M ltac:(lia)) as Dc.
  pose proof (Z.div_mod c' M ltac:(lia)) as Dc'.
  pose proof (Z.mod_pos_bound c M ltac:(lia)). pose proof (Z.mod_pos_bound c' M ltac:(lia)).
  assert (0 <= c' / M <= 3).
  { split; [apply Z.div_pos; lia|]. assert (c' / M < 4); [|lia]. apply Z.div_lt_upper_bound; lia. }
  (* a * b in base M *)
  assert (a * b = (high rh + c' / M) * (M * M * M) + (c' mod M) * (M * M) + (c mod M) * M + low rl) as Eab.
  { rewrite Ea, Eb.
    transitivity (rh * (M * M) + (rm + rn) * M + rl); [rewrite El, Em, En, Eh; ring|].
    assert (c = high rl + low rm + low rn) as Ec by done.
    assert (c' = c / M + high rm + high rn + low rh) as Ec' by done.
    clearbody c c' rl rm rn rh. clear - EM Hl1 Hm1 Hn1 Hh1 Dc Dc' Ec Ec'.
    rewrite EM in *. lia. }
  assert (a * b < M * (M * M * M)) as Hlt.
  { rewrite E64 in Ha, Hb. assert (a * b < (M * M) * (M * M)) by nia. lia. }
  assert (c' / M + high rh < M) as Htop.
  { apply (Z.mul_lt_mono_pos_r (M * M * M)); [lia|].
    assert (0 <= c' mod M * (M * M)) by (apply Z.mul_nonneg_nonneg; lia).
    assert (0 <= c mod M * M) by (apply Z.mul_nonneg_nonneg; lia). lia. }
  rewrite (Z.mod_small (c' / M + high rh)) by lia.
  rewrite !join_add by lia. fold M. rewrite E64.
  split.
  - apply Z.mod_unique with ((high rh + c' / M) * M + c' mod M); [left; nia|]. rewrite Eab. ring.
  - apply Z.div_unique with (c mod M * M + low rl); [left; nia|]. rewrite Eab. ring.
Qed.

Lemma mul_u64_u64_shr_c_ok a b shift :
  0 <= a < 2 ^ 64 -> 0 <= b < 2 ^ 64 -> 0 <= shift < 128 ->
  mul_u64_u64_shr_c a b shift = mul_u64_u64_shr a b shift.
Proof.
  intros Ha Hb Hs. unfold mul_u64_u64_shr_c, mul_u64_u64_shr.
  destruct (wide_product a b Ha Hb) as [El Eh]. cbn zeta in El, Eh. rewrite El, Eh.
  assert (0 <= a * b < 2 ^ 128) as Hab by nia.
  assert (0 <= a * b / 2 ^ 64 < 2 ^ 64) as Hh
    by (split; [apply Z.div_pos; lia|apply Z.div_lt_upper_bound; lia]).
  rewrite <- (Z.shiftr_div_pow2 (a * b) 64) in * by lia.
  destruct (Z.eqb_spec shift 0) as [->|]; [rewrite Z.shiftr_0_r; done|].
  apply Z.bits_inj'. intros i Hi. unfold uwrap. destruct (Z.ltb_spec shift 64).
  - rewrite Z.lor_spec, Z.shiftr_spec by lia. destruct (Z.ltb_spec i 64).
    + rewrite (Z.mod_pow2_bits_low (Z.shiftl _ _)), (Z.mod_pow2_bits_low (Z.shiftr _ shift)) by lia.
      rewrite Z.shiftl_spec, (Z.shiftr_spec _ shift) by lia.
      destruct (Z.ltb_spec (i + shift) 64).
      * rewrite (Z.mod_pow2_bits_low (a * b)), (Z.testbit_neg_r _ (i - _)), orb_false_r by lia. done.
      * rewrite (Z.mod_pow2_bits_high (a * b)), Z.shiftr_spec by lia. cbn. f_equal. lia.
    + rewrite !Z.mod_pow2_bits_high by lia. done.
  - replace (Z.land shift 63) with (shift - 64).
    2:{ change 63 with (Z.ones 6). rewrite Z.land_ones by lia.
        apply Z.mod_unique with 1; [left|]; lia. }
    rewrite !Z.shiftr_spec by lia. replace (i + (shift - 64) + 64) with (i + shift) by lia.
    destruct (Z.ltb_spec i 64).
    + rewrite Z.mod_pow2_bits_low, Z.shiftr_spec by lia. done.
    + rewrite Z.mod_pow2_bits_high by lia. apply (bits_high _ 128); lia.
Qed.

Lemma mul_u64_u32_shr_c_ok a b shift :
  0 <= a < 2 ^ 64 -> 0 <= b < 2 ^ 32 -> 0 <= shift <= 32 ->
  mul_u64_u32_shr_c a b shift = mul_u64_u32_shr a b shift.
Proof.
  intros Ha Hb Hs. unfold mul_u64_u32_shr_c, mul_u64_u32_shr.
  fold (low a) (high a). destruct (low_high a Ha) as (Ea & La & Ra).
  rewrite !mul32_small by done.
  assert (0 < 2 ^ shift) by (apply Z.pow_pos_nonneg; lia).
  assert (2 ^ 32 = 2 ^ (32 - shift) * 2 ^ shift) as Ep by (rewrite <- Z.pow_add_r; [f_equal|..]; lia).
  assert (Z.shiftr (a * b) shift =
    Z.shiftr (low a * b) shift + Z.shiftl (high a * b) (32 - shift)) as E.
  { rewrite !Z.shiftr_div_pow2, Z.shiftl_mul_pow2 by lia.
    rewrite <- Z.div_add by lia. f_equal. rewrite Ea at 1. rewrite Ep. ring. }
  rewrite E. destruct (Z.eqb_spec (high a) 0) as [Eh|]; cbn [negb].
  - rewrite Eh, Z.mul_0_l, Z.shiftl_0_l, Z.add_0_r. symmetry. apply uwrap_small; [lia|].
    unfold in_u. rewrite Z.shiftr_div_pow2 by lia. split; [apply Z.div_pos; nia|].
    apply Z.div_lt_upper_bound; nia.
  - rewrite uwrap_add_r by lia. done.
Qed.

Lemma mul_u64_u64_div64_c_ok a b c :
  0 <= a < 2 ^ 64 -> 0 <= b < 2 ^ 64 -> 0 < c -> (a mod c) * b < 2 ^ 64 -> a * b / c < 2 ^ 64 ->
  mul_u64_u64_div64_c a b c = mul_u64_u64_div64 a b c.
Proof.
  intros Ha Hb Hc Hr Hq. unfold mul_u64_u64_div64_c, mul_u64_u64_div64.
  destruct (Z.eqb_spec c 0); [lia|]. rewrite (proj2 (Z.leb_gt _ _)) by done. f_equal.
  pose proof (Z.mod_pos_bound a c Hc). pose proof (Z.div_mod a c ltac:(lia)) as D.
  assert (a * b / c = a / c * b + a mod c * b / c) as E.
  { rewrite <- Z.div_add_l by lia. f_equal. rewrite D at 1. ring. }
  rewrite (uwrap_small 64 ltac:(lia) (a mod c * b)) by (unfold in_u; nia).
  rewrite uwrap_add_l, <- E by lia. apply uwrap_small; [lia|]. split; [|done].
  apply Z.div_pos; nia.
Qed.

(** ** Conversion between the perf clock and the TSC *)

Definition conv_ok (tc : perf_tsc_conversion) : Prop :=
  0 < time_mult tc < 2 ^ 32 /\ 0 <= time_shift tc <= 32 /\ 0 <= time_zero tc < 2 ^ 64.

(** The TSC of a time, as the exact quotient. *)
Definition tsc_of (tc : perf_tsc_conversion) (ns : Z) : Z :=
  (ns - time_zero tc) * 2 ^ time_shift tc / time_mult tc.

Lemma shift_range tc : conv_ok tc -> 1 <= 2 ^ time_shift tc <= 2 ^ 32.
Proof.
  intros (_ & Hs & _). split; [|apply Z.pow_le_mono_r; lia].
  pose proof (Z.pow_pos_nonneg 2 (time_shift tc)). lia.
Qed.

Lemma tsc_of_mono tc a b : conv_ok tc -> a <= b -> tsc_of tc a <= tsc_of tc b.
Proof.
  intros Hc Hab. pose proof (shift_range tc Hc). destruct Hc as (Hm & _ & _).
  unfold tsc_of. apply Z.div_le_mono; [lia|]. nia.
Qed.

Lemma tsc_of_nonneg tc ns : conv_ok tc -> time_zero tc <= ns -> 0 <= tsc_of tc ns.
Proof.
  intros Hc Hz. pose proof (shift_range tc Hc). destruct Hc as (Hm & _ & _).
  unfold tsc_of. apply Z.div_pos; [|lia]. nia.
Qed.

Lemma perfclock_to_tsc_exact tc ns :
  conv_ok tc -> time_zero tc <= ns < 2 ^ 64 -> tsc_of tc ns < 2 ^ 64 ->
  perfclock_to_tsc tc ns = Some (tsc_of tc ns).
Proof.
  intros Hc Hn Ht. pose proof (shift_range tc Hc) as Hp. pose proof (tsc_of_nonneg tc ns Hc) as Hge.
  destruct Hc as (Hm & Hs & Hz). unfold perfclock_to_tsc.
  destruct (Z.eqb_spec (time_mult tc) 0); [lia|]. f_equal.
  set (m := time_mult tc) in *. set (p := 2 ^ time_shift tc) in *.
  rewrite (uwrap_small 64 ltac:(lia) (ns - time_zero tc)) by (unfold in_u; lia).
  set (t := ns - time_zero tc) in *. rewrite !Z.shiftl_mul_pow2 by lia. fold p.
  pose proof (Z.div_mod t m ltac:(lia)) as D. pose proof (Z.mod_pos_bound t m ltac:(lia)) as B.
  rewrite (uwrap_small 64 ltac:(lia) (t mod m * p)) by (unfold in_u; nia).
  assert (tsc_of tc ns = t / m * p + t mod m * p / m) as E.
  { unfold tsc_of. fold t m p. rewrite <- Z.div_add_l by lia. f_equal. rewrite D at 1. ring. }
  rewrite uwrap_add_l, <- E by lia. apply uwrap_small; [lia|]. unfold in_u. lia.
Qed.

(** Going back loses at most the length of a tick. *)
Lemma tsc_to_perfclock_back tc ns :
  conv_ok tc -> time_zero tc <= ns < 2 ^ 64 ->
  ns - time_mult tc / 2 ^ time_shift tc - 1 <= tsc_to_perfclock tc (tsc_of tc ns) <= ns.
Proof.
  intros Hc Hn. pose proof (shift_range tc Hc) as Hp. pose proof (tsc_of_nonneg tc ns Hc) as Hge.
  destruct Hc as (Hm & Hs & Hz). unfold tsc_to_perfclock, mul_u64_u32_shr.
  rewrite Z.shiftr_div_pow2 by lia. unfold tsc_of in *.
  set (m := time_mult tc) in *. set (p := 2 ^ time_shift tc) in *.
  set (t := ns - time_zero tc) in *. set (q := t * p / m) in *.
  pose proof (Z.div_mod (t * p) m ltac:(lia)) as D. pose proof (Z.mod_pos_bound (t * p) m ltac:(lia)).
  fold q in D. assert (q * m / p <= t) as Hle by (apply Z.div_le_upper_bound; nia).
  assert (t - m / p - 1 <= q * m / p) as Hlb.
  { pose proof (Z.div_mod m p ltac:(lia)) as Dm. pose proof (Z.mod_pos_bound m p ltac:(lia)).
    apply Z.div_le_lower_bound; [lia|]. nia. }
  assert (0 <= q * m / p) by (apply Z.div_pos; nia).
  rewrite (uwrap_small 64 ltac:(lia) (q * m / p)) by (unfold in_u; lia).
  rewrite uwrap_small by (unfold in_u; lia). lia.
Qed.
