(* ===== verification/ClockMain.v ===== *)
(** * Theorems on clocks *)

From S2P Require Import Prelude Clock ClockProof.
Import Clock.

(** ** Wide arithmetic *)

(** C27: the portable versions of the 64-bit multiplications of math64.h agree
    with the versions on 128-bit products: with a shift of up to 127 bits for
    64-bit factors and of up to 32 bits for a 32-bit factor, and with a
    division whenever the product of the remainder does not overflow. *)
Theorem math64_portable a b c shift :
  0 <= a < 2 ^ 64 -> 0 <= b < 2 ^ 64 ->
  (0 <= shift < 128 -> mul_u64_u64_shr_c a b shift = mul_u64_u64_shr a b shift) /\
  (b < 2 ^ 32 -> 0 <= shift <= 32 -> mul_u64_u32_shr_c a b shift = mul_u64_u32_shr a b shift) /\
  (0 < c -> (a mod c) * b < 2 ^ 64 -> a * b / c < 2 ^ 64 ->
   mul_u64_u64_div64_c a b c = mul_u64_u64_div64 a b c).
Proof.
  intros Ha Hb. split; [|split]; intros.
  - apply mul_u64_u64_shr_c_ok; done.
  - apply mul_u64_u32_shr_c_ok; done || lia.
  - apply mul_u64_u64_div64_c_ok; done.
Qed.

Lemma math64_portable_witness :
  mul_u64_u64_shr_c (2 ^ 64 - 1) (2 ^ 63 + 5) 70 = mul_u64_u64_shr (2 ^ 64 - 1) (2 ^ 63 + 5) 70.
Proof. apply (math64_portable (2 ^ 64 - 1) (2 ^ 63 + 5) 1 70); lia. Defined.

(** ** The clock of a device *)

(** The time of an event on the device's clock, before the offset. *)
Definition ticks (d : clock_dev) (ns : Z) : Z :=
  match need_conv d with CONVERT_TO_TSC => tsc_of (tsc_conv d) ns | _ => ns end.

(** What the conversion back may lose. *)
Definition tick_length (d : clock_dev) : Z :=
  match need_conv d with
  | CONVERT_TO_TSC => time_mult (tsc_conv d) / 2 ^ time_shift (tsc_conv d) + 1
  | _ => 0
  end.

Definition in_clock (d : clock_dev) (ns : Z) : Prop :=
  0 <= ns < 2 ^ 64 /\
  match need_conv d with
  | CONVERT_TO_TSC => time_zero (tsc_conv d) <= ns /\ tsc_of (tsc_conv d) ns < 2 ^ 64
  | _ => True
  end.

Section Dev.
Context (g : scaling) (d : clock_dev).
Context (Hconv : conv_ok (tsc_conv d)) (Hkvm : need_conv d <> CONVERT_TO_KVMCLOCK)
        (Hnone : converts d = false -> clock_offset d = 0).

Lemma ticks_range ns : in_clock d ns -> 0 <= ticks d ns < 2 ^ 64.
Proof using Hconv Hkvm.
  unfold in_clock, ticks. intros [H1 H2]. destruct (need_conv d); try done.
  split; [apply tsc_of_nonneg|]; tauto.
Qed.

Lemma to_evclock ns :
  in_clock d ns -> perfclock_to_evclock g d ns = Some (u64 (ticks d ns + clock_offset d)).
Proof using Hconv Hkvm Hnone.
  intros Hi. pose proof (ticks_range ns Hi). unfold perfclock_to_evclock.
  destruct (converts d) eqn:Ec; cbn [negb].
  - unfold perfclock_to_evclock_. unfold in_clock, ticks in *. destruct Hi as [Hn Hi].
    destruct (need_conv d); try done.
    rewrite perfclock_to_tsc_exact by (done || tauto || lia). done.
  - rewrite (Hnone eq_refl), Z.add_0_r. unfold ticks. unfold converts in Ec.
    destruct (need_conv d); try done. rewrite uwrap_small; [done|lia|apply Hi].
Qed.

Lemma from_evclock ns :
  in_clock d ns ->
  exists back, evclock_to_perfclock g d (u64 (ticks d ns + clock_offset d)) = Some back /\
    ns - tick_length d <= back <= ns.
Proof using Hconv Hkvm Hnone.
  intros Hi. pose proof (ticks_range ns Hi) as Ht. unfold evclock_to_perfclock.
  assert (u64 (u64 (ticks d ns + clock_offset d) - clock_offset d) = ticks d ns) as Eb.
  { rewrite uwrap_sub_l, Z.add_simpl_r by lia. apply uwrap_small; [lia|done]. }
  destruct (converts d) eqn:Ec; cbn [negb].
  - rewrite Eb. unfold ticks, in_clock, tick_length in *. destruct Hi as [Hn Hi].
    destruct (need_conv d); try done; try (eexists; split; [done|lia]).
    eexists. split; [done|]. pose proof (tsc_to_perfclock_back (tsc_conv d) ns Hconv). lia.
  - rewrite (Hnone eq_refl) in *. exists ns. unfold ticks, tick_length, converts in *.
    destruct (need_conv d); try done. rewrite Z.add_0_r, uwrap_small by (done || lia).
    split; [done|lia].
Qed.
End Dev.

(** C24: the time shown for an event can be turned back: for a device that shows
    the perf clock, the TSC or the perf clock with an offset, converting the
    time of an event and converting it back gives the time, minus at most the
    length of a tick for the TSC, also when the offset makes the shown time
    wrap around. *)
Theorem evclock_roundtrip g d ns :
  conv_ok (tsc_conv d) -> need_conv d <> CONVERT_TO_KVMCLOCK ->
  (converts d = false -> clock_offset d = 0) -> in_clock d ns ->
  exists ev back, perfclock_to_evclock g d ns = Some ev /\ evclock_to_perfclock g d ev = Some back /\
    ns - tick_length d <= back <= ns.
Proof.
  intros Hc Hk Hn Hi. destruct (from_evclock g d Hc Hk Hn ns Hi) as (back & E & Hb).
  eexists _, back. split; [apply to_evclock; done|]. auto.
Qed.

Definition tsc_dev : clock_dev :=
  ClockDev CONVERT_TO_TSC false (TscConv 31 858993459 1000 true) (TscConv 0 0 0 false)
    (Vcpu 0 0 (Pvti 0 0 0 0 0 0)) (2 ^ 64 - 500) true 0 0 0.

Lemma evclock_roundtrip_witness :
  exists ev back, perfclock_to_evclock (Scaling 0 0) tsc_dev 123456 = Some ev /\
    evclock_to_perfclock (Scaling 0 0) tsc_dev ev = Some back /\
    123456 - tick_length tsc_dev <= back <= 123456.
Proof.
  apply (evclock_roundtrip (Scaling 0 0) tsc_dev 123456).
  - unfold conv_ok. cbn. lia.
  - done.
  - done.
  - unfold in_clock. vm_compute. intuition congruence.
Defined.

(** Converting the times of events keeps their order: when the shown times
    do not wrap around (the offset [o] may be negative), a later event is not
    shown before an earlier one. *)
Theorem evclock_monotone g d o ns1 ns2 ev1 ev2 :
  conv_ok (tsc_conv d) -> need_conv d <> CONVERT_TO_KVMCLOCK -> clock_offset d = u64 o ->
  (converts d = false -> clock_offset d = 0) -> in_clock d ns1 -> in_clock d ns2 ->
  0 <= ticks d ns1 + o -> ticks d ns2 + o < 2 ^ 64 -> ns1 <= ns2 ->
  perfclock_to_evclock g d ns1 = Some ev1 -> perfclock_to_evclock g d ns2 = Some ev2 ->
  ev1 <= ev2.
Proof.
  intros Hc Hk Ho Hn H1 H2 Hlo Hhi Hle E1 E2.
  assert (ticks d ns1 <= ticks d ns2) as Hm.
  { unfold ticks. destruct (need_conv d); try done. apply tsc_of_mono; done. }
  rewrite to_evclock in E1, E2 by done. injection E1 as <-. injection E2 as <-.
  rewrite Ho, !uwrap_add_r by lia. rewrite !(uwrap_small 64) by (unfold in_u; lia). lia.
Qed.

Lemma evclock_monotone_witness :
  exists ev1 ev2, perfclock_to_evclock (Scaling 0 0) tsc_dev 5000 = Some ev1 /\
    perfclock_to_evclock (Scaling 0 0) tsc_dev 5001 = Some ev2 /\ ev1 <= ev2.
Proof.
  eexists _, _. split; [vm_compute; reflexivity|]. split; [vm_compute; reflexivity|].
  apply (evclock_monotone (Scaling 0 0) tsc_dev (-500) 5000 5001);
    vm_compute; intuition congruence.
Defined.

(** ** Reading the control page *)

(** What the kernel promises of the page: while the sequence count is even and
    unchanged, the page does not change. *)
Definition seqlock (page_at : nat -> mpage) : Prop :=
  forall t1 t t2 : nat, (t1 <= t <= t2)%nat -> lock (page_at t1) = lock (page_at t2) ->
    Z.land (lock (page_at t1)) 1 = 0 -> page_at t = page_at t1.

Definition snapshot (p : mpage) : perf_tsc_conversion :=
  TscConv (ptime_shift p) (ptime_mult p) (ptime_zero p) (cap_user_time_zero p).

(** A pass that accepts what it read has read one state of the page. *)
Lemma pass_consistent page_at t :
  seqlock page_at -> (tsc_conversion_pass page_at t).2 = true ->
  (tsc_conversion_pass page_at t).1 = snapshot (page_at t) /\ Z.land (lock (page_at t)) 1 = 0.
Proof.
  intros Hs. cbn. rewrite andb_true_iff, !Z.eqb_eq. intros [El Ee]. split; [|done].
  unfold snapshot.
  rewrite (Hs t (t + 1)%nat (t + 5)%nat), (Hs t (t + 2)%nat (t + 5)%nat),
    (Hs t (t + 3)%nat (t + 5)%nat), (Hs t (t + 4)%nat (t + 5)%nat) by (done || lia).
  done.
Qed.

Lemma loop_consistent page_at i : seqlock page_at -> forall t tc ret,
  tsc_conversion_loop page_at i t = (tc, ret) ->
  (exists k, let p := page_at (t + 6 * k)%nat in
     tc = snapshot p /\ Z.land (lock p) 1 = 0 /\
     ret = if cap_user_time_zero p then 0 else - EOPNOTSUPP) \/
  (ret = - EINVAL /\ forall k, (k <= i)%nat ->
     (tsc_conversion_pass page_at (t + 6 * k)).2 = false).
Proof.
  intros Hs. induction i as [|i IH]; intros t tc ret E;
    cbn [tsc_conversion_loop] in E; pose proof (pass_consistent page_at t Hs) as Hp;
    destruct (tsc_conversion_pass page_at t) as [tc0 ok] eqn:Ep; cbn [fst snd] in Hp;
    destruct ok.
  1,3: left; exists 0%nat; rewrite Nat.mul_0_r, Nat.add_0_r; destruct (Hp eq_refl) as [-> He];
    injection E as <- <-; cbn zeta; split; [done|]; split; [done|]; cbn;
    destruct (cap_user_time_zero (page_at t)); done.
  - injection E as <- <-. right. split; [done|]. intros k Hk. replace k with 0%nat by lia.
    rewrite Nat.mul_0_r, Nat.add_0_r, Ep. done.
  - destruct (IH (t + 6)%nat _ _ E) as [(k & Hk)|[Hr Hk]].
    + left. exists (S k). replace (t + 6 * S k)%nat with (t + 6 + 6 * k)%nat by lia. done.
    + right. split; [done|]. intros [|k] Hkk; [rewrite Nat.mul_0_r, Nat.add_0_r, Ep; done|].
      replace (t + 6 * S k)%nat with (t + 6 + 6 * k)%nat by lia. apply Hk. lia.
Qed.

(** C25: [perf_mmap__read_tsc_conversion] returns, and what it returns is
    consistent: with a success, or with -EOPNOTSUPP for a page without the
    conversion, the four values are those of one state of the page the kernel
    had published, although it may update the page between any two reads;
    -EINVAL is returned only when 10001 passes in a row met an update. *)
Theorem read_tsc_conversion_consistent page_at t tc ret :
  seqlock page_at -> perf_mmap__read_tsc_conversion page_at t = (tc, ret) ->
  (exists k, let p := page_at (t + 6 * k)%nat in
     tc = snapshot p /\ Z.land (lock p) 1 = 0 /\
     ret = if cap_user_time_zero p then 0 else - EOPNOTSUPP) \/
  (ret = - EINVAL /\ forall k, Z.of_nat k <= 10000 ->
     (tsc_conversion_pass page_at (t + 6 * k)).2 = false).
Proof.
  intros Hs E. destruct (loop_consistent page_at _ Hs _ _ _ E) as [H|[Hr Hk]]; [auto|].
  right. split; [done|]. intros k Hkk. apply Hk. lia.
Qed.

(** A page that is being updated at the first look and published after it. *)
Definition updated_page (t : nat) : mpage :=
  if (t <? 3)%nat then Page 1 0 0 0 0 true true true false 48 31 7 0 5 0 0
  else Page 2 0 0 0 0 true true true false 48 30 9 0 6 0 0.

Lemma read_tsc_conversion_consistent_witness :
  seqlock updated_page /\
  (exists k, let p := updated_page (0 + 6 * k)%nat in
     TscConv 30 9 6 true = snapshot p /\ Z.land (lock p) 1 = 0 /\
     0 = if cap_user_time_zero p then 0 else - EOPNOTSUPP) \/
  (0 = - EINVAL /\ forall k, Z.of_nat k <= 10000 ->
     (tsc_conversion_pass updated_page (0 + 6 * k)).2 = false).
Proof.
  left. assert (seqlock updated_page) as Hs.
  { intros t1 t t2 Ht. unfold updated_page.
    destruct (Nat.ltb_spec t1 3), (Nat.ltb_spec t 3), (Nat.ltb_spec t2 3); try lia; done. }
  split; [exact Hs|].
  destruct (read_tsc_conversion_consistent updated_page 0 (TscConv 30 9 6 true) 0 Hs)
    as [H|[H _]]; [vm_compute; reflexivity|exact H|discriminate H].
Defined.

(** ** The converted event *)

Lemma bytes_le_length n v : length (bytes_le n v) = n.
Proof. revert v. induction n; intros v; cbn; auto. Qed.

Lemma bytes_le_value n v :
  0 <= v < 256 ^ Z.of_nat n -> foldr (fun b acc => b + 256 * acc) 0 (bytes_le n v) = v.
Proof.
  revert v. induction n as [|n IH]; intros v Hv; [cbn in *; lia|].
  rewrite Nat2Z.inj_succ, Z.pow_succ_r in Hv by lia. cbn [bytes_le foldr]. rewrite IH.
  - pose proof (Z.div_mod v 256). lia.
  - split; [apply Z.div_pos; lia|apply Z.div_lt_upper_bound; lia].
Qed.

Lemma put64_length bs off v : (off + 8 <= length bs)%nat -> length (put64 bs off v) = length bs.
Proof.
  intros H. unfold put64. rewrite !length_app, bytes_le_length, length_take, length_drop. lia.
Qed.

Lemma put64_get bs off v :
  (off + 8 <= length bs)%nat -> 0 <= v < 2 ^ 64 -> get64 (put64 bs off v) off = Some v.
Proof.
  intros H Hv. unfold get64. rewrite put64_length, decide_True by done. f_equal.
  unfold put64. rewrite drop_app_length' by (rewrite length_take; lia).
  rewrite take_app_length' by (rewrite bytes_le_length; done). apply bytes_le_value. cbn. lia.
Qed.

Lemma put64_frame bs off v i :
  (off + 8 <= length bs)%nat -> (i < off \/ off + 8 <= i)%nat -> put64 bs off v !! i = bs !! i.
Proof.
  intros H Hi. unfold put64. destruct Hi as [Hi|Hi].
  - rewrite lookup_app_l, lookup_take_lt by (rewrite ?length_take; lia). done.
  - rewrite lookup_app_r, lookup_app_r by (rewrite ?length_take, ?bytes_le_length; lia).
    rewrite lookup_drop, length_take, bytes_le_length. f_equal. lia.
Qed.

Lemma evclock_range g d t ev : perfclock_to_evclock_ g d t = Some ev -> 0 <= ev < 2 ^ 64.
Proof.
  unfold perfclock_to_evclock_. intros H. apply bind_Some in H as (e & _ & H).
  injection H as <-. apply (uwrap_range 64). lia.
Qed.

(** C26: [perf_event_convert] changes the time of the event and nothing else:
    the event it returns has the length of the original, its time is the
    converted time, and every byte outside the 8 bytes of the time is that of
    the original.  An event that may not be written to (it lies in the buffer
    shared with the kernel) is left alone and a copy returned, provided the
    copy's buffer is as large as the event. *)
Theorem convert_only_time g d pos event copy writable time ev :
  converts d = true -> (8 + pos + 8 <= length event)%nat ->
  (length event <= length copy)%nat ->
  get64 event (8 + pos) = Some time -> perfclock_to_evclock_ g d time = Some ev ->
  exists event' copy' in_copy,
    perf_event_convert g d pos event copy writable = Some (event', copy', in_copy) /\
    in_copy = negb writable /\ (writable = false -> event' = event) /\
    let out := take (length event) (if in_copy then copy' else event') in
    length out = length event /\ get64 out (8 + pos) = Some ev /\
    forall i, (i < 8 + pos \/ 8 + pos + 8 <= i)%nat -> out !! i = event !! i.
Proof.
  intros Hc Hp Hl Hg He. pose proof (evclock_range _ _ _ _ He) as Hr.
  unfold perf_event_convert. rewrite Hc. cbn [negb]. destruct writable; cbn [negb andb].
  - rewrite Hg. cbn [mbind option_bind]. rewrite He. cbn [mbind option_bind].
    eexists _, _, _. split; [done|]. split; [done|]. split; [done|]. cbn zeta.
    rewrite take_ge by (rewrite put64_length; lia).
    rewrite put64_length, put64_get by done. split; [done|]. split; [done|].
    intros i Hi. apply put64_frame; done.
  - rewrite (proj2 (Nat.ltb_ge _ _)) by done.
    set (target := event ++ drop (length event) copy).
    assert (get64 target (8 + pos) = Some time) as ->.
    { unfold get64 in *. rewrite decide_True in Hg by done.
      rewrite decide_True by (unfold target; rewrite length_app; lia).
      unfold target. rewrite drop_app_le, take_app_le by (rewrite ?length_drop; lia). done. }
    cbn [mbind option_bind]. rewrite He. cbn [mbind option_bind].
    eexists _, _, _. split; [done|]. split; [done|]. split; [done|]. cbn zeta.
    assert (take (length event) (put64 target (8 + pos) ev) = put64 event (8 + pos) ev) as ->.
    { unfold put64, target. rewrite (take_app_le event), (drop_app_le event) by lia.
      rewrite !app_assoc, take_app_length'; [rewrite <- app_assoc; done|].
      rewrite !length_app, length_take, length_drop, bytes_le_length. lia. }
    rewrite put64_length, put64_get by done. split; [done|]. split; [done|].
    intros i Hi. apply put64_frame; done.
Qed.

Definition short_event : list Z := [9; 0; 0; 0; 1; 0; 24; 0] ++ bytes_le 8 7 ++ bytes_le 8 5000.

Lemma convert_only_time_witness :
  exists event' copy' in_copy,
    perf_event_convert (Scaling 0 0) tsc_dev 8 short_event (repeat 0 32) false =
      Some (event', copy', in_copy) /\
    in_copy = negb false /\ (false = false -> event' = short_event) /\
    let out := take (length short_event) (if in_copy then copy' else event') in
    length out = length short_event /\ get64 out (8 + 8) = Some 9500 /\
    forall i, (i < 8 + 8 \/ 8 + 8 + 8 <= i)%nat -> out !! i = short_event !! i.
Proof.
  apply (convert_only_time (Scaling 0 0) tsc_dev 8 short_event (repeat 0 32) false 5000 9500);
    [reflexivity|cbn; lia|cbn; lia|vm_compute; reflexivity|vm_compute; reflexivity].
Defined.

(** ** The clock of a guest whose TSC is scaled

    On the way back the scaled guest TSC is taken with its offset: the time of
    an event at 1000 ns comes back as 5000 ns. *)
Definition scaled_dev : clock_dev :=
  ClockDev CONVERT_TO_KVMCLOCK false (TscConv 0 1 0 true) (TscConv 0 0 0 false)
    (Vcpu 2000 (2 ^ 47) (Pvti 2 0 0 (2 ^ 31) 1 0)) 0 false 0 0 0.

Example kvmclock_back_is_off :
  (ev ← perfclock_to_evclock (Scaling 48 (2 ^ 48)) scaled_dev 1000;
   evclock_to_perfclock (Scaling 48 (2 ^ 48)) scaled_dev ev) = Some 5000.
Proof. vm_compute. reflexivity. Qed.
