(* ===== verification/Order.v ===== *)
(** * Ordering of events (order.c)

    A device with --order merges the events of all its ring buffers, and of
    those of its children and of streams of remote events, by time.  Every
    source of events is a [hev] (struct heap_event); the binary heap holds
    pointers to them, indexes into [hevs] here, and compares the times they
    hold at that moment.

    What the code uses of a ring buffer is the class [EventRing], what it uses
    of a stream the class [EventStream]; both may grow between two calls.  The
    handlers are in a state monad: [None] is a failed access (an event or a
    conversion that is not there). *)

From S2P Require Import Prelude MinHeap SampleLayout Clock.

(** ** Records and their sources *)

Inductive rtype := PERF_RECORD_SAMPLE | PERF_RECORD_LOST | PERF_RECORD_ORDER_TIME | PERF_RECORD_OTHER.

#[export] Instance rtype_eq_dec : EqDecision rtype.
Proof. solve_decision. Defined.

(** An event as far as this code looks at it; [r_time] is the time of a sample
    (at [dev->pos.time_pos]) or the [order_time]. *)
Record rec := Rec {
  r_type : rtype;
  r_time : Z;
  r_id : Z;       (* of a lost event *)
  r_lost : Z;
  r_size : Z;     (* header.size *)
  r_tag : Z       (* the rest of the event *)
}.

Definition set_r_time (r : rec) (t : Z) : rec :=
  Rec (r_type r) t (r_id r) (r_lost r) (r_size r) (r_tag r).

(** [read_event] also says whether the event may be written to. *)
Class EventRing (M : Type) := {
  ring_empty : M -> bool;
  ring_read_init : M -> M * Z;
  ring_read_event : M -> M * option (rec * bool);
  ring_unread_event : M -> rec -> M;
  ring_consume : M -> M;
  ring_read_done : M -> M;
  ring_start : M -> Z;
  ring_end : M -> Z;
  ring_mask : M -> Z
}.

(** The event, its instance, whether it may be written to and whether its time
    is converted; the flag is [init]. *)
Class EventStream (S : Type) := {
  stream_read_event : S -> bool -> S * option (rec * Z * bool * bool)
}.

Module Order.

Inductive reason := ORDER_BREAK_NONE | ORDER_BREAK_EMPTY | ORDER_BREAK_STREAM_STOP
  | ORDER_BREAK_TARGET_TIME | ORDER_BREAK_TARGET_MAP | ORDER_BREAK_LOST_WAIT.

Inductive stat := nr_lost | nr_fixed_events | nr_unordered_events | nr_maybe_lost
  | nr_maybe_lost_pause | maybe_lost_pause_time | nr_stream_pause | stream_pause_time.

#[export] Instance stat_eq_dec : EqDecision stat.
Proof. solve_decision. Defined.

(** What a device does when it is called. *)
Inductive out :=
  | OSample (dev : nat) (r : rec) (ins : Z) (writable converted : bool)
  | ORecord (dev : nat) (r : rec) (ins : Z) (writable converted : bool)
  | OLost (dev : nat) (id lost ins lost_start lost_end : Z).

Section Order.
Context {M S : Type} `{EventRing M} `{EventStream S}.

(** ** State *)

(** struct perf_mmap_event and struct stream_event, without their base. *)
Record mmev := Mmev {
  map : M;
  event_mono_time : Z;
  maybe_lost_end : Z;
  pause_start_time : Z;
  lost_pause : bool
}.

Record stev := Stev {
  stream : S;
  s_pause_start_time : Z;
  empty_pause : bool
}.

Inductive source := PerfMmap (x : mmev) | Stream (x : stev).

Record hev := Hev {
  h_dev : nat;
  h_event : option rec;
  h_time : Z;
  h_ins : Z;
  h_writable : bool;
  h_converted : bool;
  h_unconsumed : bool;
  h_src : source
}.

(** The [order] part of a device; [has_lost] is [prof->lost != NULL], [refs]
    its reference count. *)
Record odev := Odev {
  has_lost : bool;
  wakeup_watermark : Z;
  heap_popped_time : Z;
  stats : stat -> Z;
  refs : Z
}.

Record ost := Ost {
  hevs : list hev;
  devs : list odev;
  heap : min_heap nat;
  heap_popped_ins : Z;
  prev_lost_time : Z;
  break_reason : reason;
  trace : list out;
  now : nat               (* calls of get_ktime_ns *)
}.

Definition set_hevs (s : ost) (l : list hev) : ost :=
  Ost l (devs s) (heap s) (heap_popped_ins s) (prev_lost_time s) (break_reason s) (trace s) (now s).
Definition set_devs (s : ost) (l : list odev) : ost :=
  Ost (hevs s) l (heap s) (heap_popped_ins s) (prev_lost_time s) (break_reason s) (trace s) (now s).
Definition set_heap (s : ost) (h : min_heap nat) : ost :=
  Ost (hevs s) (devs s) h (heap_popped_ins s) (prev_lost_time s) (break_reason s) (trace s) (now s).
Definition set_popped_ins (s : ost) (i : Z) : ost :=
  Ost (hevs s) (devs s) (heap s) i (prev_lost_time s) (break_reason s) (trace s) (now s).
Definition set_prev_lost (s : ost) (t : Z) : ost :=
  Ost (hevs s) (devs s) (heap s) (heap_popped_ins s) t (break_reason s) (trace s) (now s).
Definition set_reason (s : ost) (r : reason) : ost :=
  Ost (hevs s) (devs s) (heap s) (heap_popped_ins s) (prev_lost_time s) r (trace s) (now s).

(** ** The monad *)

Definition OM (A : Type) : Type := ost -> option (A * ost).
Definition ret {A} (x : A) : OM A := fun s => Some (x, s).
Definition bind {A B} (m : OM A) (k : A -> OM B) : OM B :=
  fun s => match m s with Some (x, s) => k x s | None => None end.
Definition modify (f : ost -> ost) : OM unit := fun s => Some (tt, f s).
Definition get_state : OM ost := fun s => Some (s, s).
Definition lift {A} (o : option A) : OM A := fun s => match o with Some x => Some (x, s) | None => None end.
#[global] Instance om_mbind : MBind OM := fun A B k m => bind m k.

Definition get_hev (i : nat) : OM hev := fun s => match hevs s !! i with Some h => Some (h, s) | None => None end.
Definition put_hev (i : nat) (h : hev) : OM unit := modify (fun s => set_hevs s (<[i := h]> (hevs s))).
Definition get_dev (d : nat) : OM odev := fun s => match devs s !! d with Some x => Some (x, s) | None => None end.
Definition put_dev (d : nat) (x : odev) : OM unit := modify (fun s => set_devs s (<[d := x]> (devs s))).
Definition emit (o : out) : OM unit := modify (fun s =>
  Ost (hevs s) (devs s) (heap s) (heap_popped_ins s) (prev_lost_time s) (break_reason s)
    (trace s ++ [o]) (now s)).

Context (get_ktime_ns : nat -> Z).
Definition ktime : OM Z := fun s =>
  Some (get_ktime_ns (now s),
        Ost (hevs s) (devs s) (heap s) (heap_popped_ins s) (prev_lost_time s) (break_reason s)
          (trace s) (Datatypes.S (now s))).

Definition add_stat (d : nat) (k : stat) (n : Z) : OM unit :=
  x ← get_dev d;
  put_dev d (Odev (has_lost x) (wakeup_watermark x) (heap_popped_time x)
    (fun j => if decide (j = k) then stats x j + n else stats x j) (refs x)).
Definition set_popped (d : nat) (t : Z) : OM unit :=
  x ← get_dev d; put_dev d (Odev (has_lost x) (wakeup_watermark x) t (stats x) (refs x)).
Definition add_ref (d : nat) (n : Z) : OM unit :=
  x ← get_dev d;
  put_dev d (Odev (has_lost x) (wakeup_watermark x) (heap_popped_time x) (stats x) (refs x + n)).
Definition prof_dev_get (d : nat) : OM unit := add_ref d 1.
Definition prof_dev_put (d : nat) : OM unit := add_ref d (-1).

Definition set_mm (h : hev) (x : mmev) : hev :=
  Hev (h_dev h) (h_event h) (h_time h) (h_ins h) (h_writable h) (h_converted h) (h_unconsumed h) (PerfMmap x).
Definition set_st (h : hev) (x : stev) : hev :=
  Hev (h_dev h) (h_event h) (h_time h) (h_ins h) (h_writable h) (h_converted h) (h_unconsumed h) (Stream x).
Definition set_map (x : mmev) (m : M) : mmev :=
  Mmev m (event_mono_time x) (maybe_lost_end x) (pause_start_time x) (lost_pause x).
Definition set_mono (x : mmev) (t : Z) : mmev :=
  Mmev (map x) t (maybe_lost_end x) (pause_start_time x) (lost_pause x).
Definition set_lost_end (x : mmev) (e : Z) : mmev :=
  Mmev (map x) (event_mono_time x) e (pause_start_time x) (lost_pause x).
Definition set_pause (x : mmev) (t : Z) (b : bool) : mmev :=
  Mmev (map x) (event_mono_time x) (maybe_lost_end x) t b.
(** The event now at the head of the source. *)
Definition set_event (h : hev) (r : rec) (t : Z) (w : bool) : hev :=
  Hev (h_dev h) (Some r) t (h_ins h) w (h_converted h) (h_unconsumed h) (h_src h).

Definition get_mm (i : nat) : OM (hev * mmev) :=
  h ← get_hev i; match h_src h with PerfMmap x => ret (h, x) | Stream _ => lift None end.
Definition get_st (i : nat) : OM (hev * stev) :=
  h ← get_hev i; match h_src h with Stream x => ret (h, x) | PerfMmap _ => lift None end.
(** Replaces the ring buffer of a source. *)
Definition put_map (i : nat) (m : M) : OM unit :=
  '(h, x) ← get_mm i; put_hev i (set_mm h (set_map x m)).

(** ** The device that sorts *)

Context (main : nat) (g : Clock.scaling) (clk : Clock.clock_dev) (nr_streams : Z).

(** [malloc] and [realloc] succeed. *)
Context (alloc_ok : bool).

(** Streams come with their times converted: the heap then sorts by the
    converted clock. *)
Definition heap_converts : bool := negb (nr_streams =? 0) && Clock.converts clk.

Definition heapclock (t : Z) : option Z :=
  if heap_converts then Clock.perfclock_to_evclock g clk t else Some t.
Definition heapclock_to_evclock (t : Z) : option Z :=
  if negb (Clock.converts clk) || negb (nr_streams =? 0) then Some t
  else Clock.perfclock_to_evclock g clk t.
Definition heapclock_to_perfclock (t : Z) : option Z :=
  if heap_converts then Clock.evclock_to_perfclock g clk t else Some t.

Definition perf_event_process_record (d : nat) (r : option rec) (ins : Z) (w c : bool) : OM unit :=
  r ← lift r;
  emit (if decide (r_type r = PERF_RECORD_SAMPLE) then OSample d r ins w c else ORecord d r ins w c).

Definition lost_callback (d : nat) (l : rec) (ins t0 t1 : Z) : OM unit :=
  t0 ← lift (heapclock_to_evclock t0);
  t1 ← lift (heapclock_to_evclock t1);
  emit (OLost d (r_id l) (r_lost l) ins t0 t1).

Definition popped_time : OM Z := x ← get_dev main; ret (heap_popped_time x).

(** The event is moved to [popped]; it is copied unless it may be written to.
    [None]: the copy could not be allocated. *)
Definition perf_mmap_fix_out_of_order (i : nat) (popped : Z) : OM (option rec) :=
  h ← get_hev i;
  if negb (h_writable h) && negb alloc_ok then ret None
  else
    r ← lift (h_event h);
    t ← lift (heapclock_to_perfclock popped);
    let r := set_r_time r t in
    put_hev i (set_event h r popped true);;
    add_stat (h_dev h) nr_fixed_events 1;;
    ret (Some r).

(** [CIRC_SPACE (end, start, mask + 1) >= size] *)
Definition perf_mmap_has_space (m : M) (size : Z) : bool :=
  u64 size <=? Z.land (u64 (ring_start m - (ring_end m + 1))) (ring_mask m).

(** ** Sources at the start of a run *)

Definition no_lost : rec := Rec PERF_RECORD_LOST 0 0 0 0 0.

(** From the label [retry]; [lost] is the last lost event. *)
Fixpoint mmap_init_loop (fuel : nat) (i : nat) (lost : rec) : OM bool :=
  match fuel with
  | O => lift None
  | Datatypes.S fuel =>
      '(h, x) ← get_mm i;
      let '(m, ev) := ring_read_event (map x) in
      put_map i m;;
      match ev with
      | None => put_map i (ring_read_done m);; ret false
      | Some (r, w) =>
          let d := h_dev h in
          x ← get_dev d;
          if negb (bool_decide (r_type r = PERF_RECORD_SAMPLE)) then
            (if decide (r_type r = PERF_RECORD_LOST) then add_stat d nr_lost 1 else ret tt);;
            if decide (r_type r = PERF_RECORD_LOST /\ has_lost x = true)
            then put_map i (ring_consume m);; mmap_init_loop fuel i r
            else perf_event_process_record d (Some r) (h_ins h) w false;;
                 put_map i (ring_consume m);; mmap_init_loop fuel i lost
          else
            t ← lift (heapclock (r_time r));
            h ← get_hev i;
            put_hev i (set_event h r t w);;
            p ← popped_time;
            (if t <? p then perf_mmap_fix_out_of_order i p else ret None);;
            (if negb (r_lost lost =? 0) then
               '(h, x) ← get_mm i;
               lost_callback d lost (h_ins h) (event_mono_time x) (h_time h)
             else ret tt);;
            ret true
      end
  end.

Definition perf_mmap_event_init (fuel : nat) (i : nat) : OM bool :=
  '(_, x) ← get_mm i;
  if ring_empty (map x) then ret false
  else let '(m, r) := ring_read_init (map x) in
       put_map i m;;
       if r <? 0 then ret false else mmap_init_loop fuel i no_lost.

Fixpoint stream_init_loop (fuel : nat) (i : nat) (init : bool) : OM bool :=
  match fuel with
  | O => lift None
  | Datatypes.S fuel =>
      '(h, x) ← get_st i;
      let '(st, ev) := stream_read_event (stream x) init in
      put_hev i (set_st h (Stev st (s_pause_start_time x) (empty_pause x)));;
      match ev with
      | None => ret false
      | Some (r, ins, w, c) =>
          if negb (bool_decide (r_type r = PERF_RECORD_SAMPLE \/ r_type r = PERF_RECORD_ORDER_TIME)) then
            perf_event_process_record (h_dev h) (Some r) ins w c;; stream_init_loop fuel i init
          else
            h ← get_hev i;
            put_hev i (Hev (h_dev h) (Some r) (r_time r) ins w c (h_unconsumed h) (h_src h));;
            ret true
      end
  end.

Definition stream_event_init (fuel : nat) (i : nat) (init : bool) : OM bool :=
  h ← get_hev i;
  if h_unconsumed h then
    put_hev i (Hev (h_dev h) (h_event h) (h_time h) (h_ins h) (h_writable h) (h_converted h) false
                 (h_src h));; ret true
  else stream_init_loop fuel i init.

(** The bookkeeping of a processed event. *)
Definition note_popped (d : nat) (time ins : Z) : OM unit :=
  (if decide (d = main) then ret tt else set_popped d time);;
  p ← popped_time;
  if time <? p then add_stat d nr_unordered_events 1
  else set_popped main time;; modify (fun s => set_popped_ins s ins).

Definition stream_event_process (fuel : nat) (i : nat) : OM bool :=
  '(h, _) ← get_st i;
  let d := h_dev h in
  note_popped d (h_time h) (h_ins h);;
  perf_event_process_record d (h_event h) (h_ins h) (h_writable h) (h_converted h);;
  more ← stream_event_init fuel i false;
  '(h, x) ← get_st i;
  if (more : bool) then
    if empty_pause x then
      t ← ktime;
      put_hev i (set_st h (Stev (stream x) (s_pause_start_time x) false));;
      add_stat d stream_pause_time (t - s_pause_start_time x);; ret true
    else ret true
  else
    t ← ktime;
    put_hev i (set_st h (Stev (stream x) t true));;
    add_stat d nr_stream_pause 1;; ret false.

(** ** The heap *)

(** [heap->data[heap->nr++] = heap_event], growing the array when it is full. *)
Definition heap_add (grow : nat) (i : nat) : OM bool :=
  s ← get_state;
  let h := heap s in
  if (hp_nr h =? hp_size h)%nat && negb alloc_ok then ret false
  else
    let h := if (hp_nr h =? hp_size h)%nat
             then mkHeap (hp_nr h) (hp_size h + grow) (hp_data h ++ repeat 0%nat grow) else h in
    modify (fun s => set_heap s (mkHeap (Datatypes.S (hp_nr h)) (hp_size h) (<[hp_nr h := i]> (hp_data h))));;
    ret true.

(** A device with its [heap_event_list], its [order.heap_size] and its
    children. *)
#[warnings="-register-all"]
Inductive dtree := DNode (events : list nat) (heap_size : nat) (children : list dtree).

Fixpoint heap_init_list (fuel : nat) (l : list nat) (heap_size : nat) : OM Z :=
  match l with
  | [] => ret 0
  | i :: l =>
      h ← get_hev i;
      let add := ok ← heap_add heap_size i;
                 if (ok : bool) then prof_dev_get (h_dev h);; heap_init_list fuel l heap_size
                 else ret (-1) in
      match h_src h with
      | PerfMmap _ =>
          ok ← perf_mmap_event_init fuel i;
          if (ok : bool) then add else heap_init_list fuel l heap_size
      | Stream _ =>
          ok ← stream_event_init fuel i true;
          if (ok : bool) then add
          else modify (fun s => set_reason s ORDER_BREAK_STREAM_STOP);; ret 1
      end
  end.

Fixpoint order_heap_init (fuel : nat) (t : dtree) : OM Z :=
  match t with
  | DNode events heap_size children =>
      r ← heap_init_list fuel events heap_size;
      if negb (r =? 0) then ret r
      else (fix go (l : list dtree) : OM Z :=
              match l with
              | [] => ret 0
              | c :: l => r ← order_heap_init fuel c; if negb (r =? 0) then ret r else go l
              end) children
  end.

(** [less_than] on the times at this moment; an element is a pointer of 8
    bytes. *)
Definition time_of (s : ost) (i : nat) : Z := match hevs s !! i with Some h => h_time h | None => 0 end.
Definition less_than (s : ost) (i j : nat) : bool := time_of s i <? time_of s j.

Definition heapify : OM unit := modify (fun s => set_heap s (MinHeap.min_heapify_all (less_than s) 8 (heap s))).
Definition sift_root : OM unit := modify (fun s => set_heap s (MinHeap.min_heap_sift_down (less_than s) 8 (heap s) 0)).
Definition pop_root : OM unit := modify (fun s => set_heap s (MinHeap.min_heap_pop (less_than s) 8 (heap s)).1).

(** ** One pass of the loop *)

(** [true]: no safe space can be expected; the run pauses. *)
Definition lost_detect (i : nat) : OM bool :=
  '(h, x) ← get_mm i;
  r ← lift (h_event h);
  d ← get_dev (h_dev h);
  if negb (has_lost d) then ret false
  else
    stop ← (if negb (ring_end (map x) =? maybe_lost_end x) then
               if perf_mmap_has_space (map x) (wakeup_watermark d + r_size r)
               then put_hev i (set_mm h (set_lost_end x (u64 (ring_end (map x) - 1))));; ret false
               else put_hev i (set_mm h (set_lost_end x (ring_end (map x))));;
                    add_stat (h_dev h) nr_maybe_lost 1;; ret false
             else if ring_empty (map x) then
               if lost_pause x then ret true
               else add_stat (h_dev h) nr_maybe_lost_pause 1;;
                    t ← ktime;
                    put_hev i (set_mm h (set_pause x t true));;
                    modify (fun s => set_reason s ORDER_BREAK_LOST_WAIT);; ret true
             else ret false);
    if (stop : bool) then ret true
    else
      '(h, x) ← get_mm i;
      (if lost_pause x then
         t ← ktime;
         put_hev i (set_mm h (set_pause x (pause_start_time x) false));;
         add_stat (h_dev h) maybe_lost_pause_time (t - pause_start_time x)
       else ret tt);;
      ret false.

(** The labels [process] and [consume], until the next sample of the ring
    buffer is at the head: [ev] is processed first ([None]: start at
    [consume]); the result is the next sample, and the last lost event. *)
Fixpoint consume_loop (fuel : nat) (i : nat) (target : bool) (target_end : Z)
    (ev : option (option rec * bool)) (lost : rec) (brk : bool) : OM (option (rec * bool) * rec * bool) :=
  match fuel with
  | O => lift None
  | Datatypes.S fuel =>
      '(h, x) ← get_mm i;
      (match ev with
       | Some (r, w) => perf_event_process_record (h_dev h) r (h_ins h) w false
       | None => ret tt
       end);;
      d ← get_dev (h_dev h);
      let m := map x in
      let m := if negb (ring_end m =? maybe_lost_end x) || perf_mmap_has_space m (wakeup_watermark d / 2)
               then ring_consume m else m in
      brk ← (if target && (ring_start m =? target_end)
              then modify (fun s => set_reason s ORDER_BREAK_TARGET_MAP);; ret true else ret brk);
      let '(m, next) := ring_read_event m in
      put_map i m;;
      match next with
      | None => put_map i (ring_read_done m);; ret (None, lost, brk)
      | Some (r, w) =>
          if decide (r_type r = PERF_RECORD_SAMPLE) then ret (Some (r, w), lost, brk)
          else if decide (r_type r = PERF_RECORD_LOST) then
            add_stat (h_dev h) nr_lost 1;;
            if has_lost d then consume_loop fuel i target target_end None r brk
            else consume_loop fuel i target target_end (Some (Some r, w)) lost brk
          else consume_loop fuel i target target_end (Some (Some r, w)) lost brk
      end
  end.

(** The lost event between two samples of a ring buffer. *)
Definition report_lost (i : nat) (lost : rec) : OM rec :=
  if r_lost lost =? 0 then ret lost
  else
    '(h, x) ← get_mm i;
    s ← get_state;
    (if event_mono_time x <? prev_lost_time s then ret tt
     else modify (fun s => set_prev_lost s (event_mono_time x)));;
    lost_callback (h_dev h) lost (h_ins h) (event_mono_time x) (h_time h);;
    ret no_lost.

(** The event at the head, its time and whether it may be written to: not
    before the last one of this ring buffer. *)
Definition mmap_head (i : nat) : OM (option rec * Z * bool) :=
  '(h, x) ← get_mm i;
  if h_time h <? event_mono_time x
  then r ← perf_mmap_fix_out_of_order i (event_mono_time x); ret (r, event_mono_time x, true)
  else put_hev i (set_mm h (set_mono x (h_time h)));; ret (h_event h, h_time h, h_writable h).

(** [next] is the new head; without one the ring buffer leaves the heap. *)
Definition mmap_next (i d : nat) (next : option (rec * bool)) (lost : rec) : OM rec :=
  match next with
  | Some (r, w) =>
      t ← lift (heapclock (r_time r));
      h ← get_hev i;
      put_hev i (set_event h r t w);;
      sift_root;;
      report_lost i lost
  | None => pop_root;; prof_dev_put d;; ret lost
  end.

Definition mmap_process (fuel : nat) (i : nat) (target_map : option nat) (target_end : Z) (lost : rec)
    : OM (rec * bool) :=
  '(ev, time, w) ← mmap_head i;
  h ← get_hev i;
  note_popped (h_dev h) time (h_ins h);;
  '(next, lost, brk) ← consume_loop fuel i (bool_decide (target_map = Some i)) target_end
                          (Some (ev, w)) lost false;
  lost ← mmap_next i (h_dev h) next lost;
  ret (lost, negb brk).

(** A ring buffer's event at the root of the heap.  The result: [lost], and
    whether the loop goes on. *)
Definition mmap_step (fuel : nat) (i : nat) (target_map : option nat) (target_end target_time : Z)
    (lost : rec) : OM (rec * bool) :=
  '(h, _) ← get_mm i;
  if target_time <? h_time h
  then modify (fun s => set_reason s ORDER_BREAK_TARGET_TIME);; ret (lost, false)
  else
    stop ← lost_detect i;
    if (stop : bool) then ret (lost, false)
    else mmap_process fuel i target_map target_end lost.

Definition order_step (fuel : nat) (target_map : option nat) (target_end target_time : Z) (lost : rec)
    : OM (rec * bool) :=
  s ← get_state;
  match MinHeap.min_heap_peek (heap s) with
  | None => modify (fun s => set_reason s ORDER_BREAK_EMPTY);; ret (lost, false)
  | Some i =>
      h ← get_hev i;
      match h_src h with
      | Stream _ =>
          more ← stream_event_process fuel i;
          if (more : bool) then sift_root;; ret (lost, true)
          else pop_root;; prof_dev_put (h_dev h);;
               modify (fun s => set_reason s ORDER_BREAK_STREAM_STOP);; ret (lost, false)
      | PerfMmap _ => mmap_step fuel i target_map target_end target_time lost
      end
  end.

(** [n] passes at most; the flag says whether the loop was left. *)
Fixpoint order_loop (n fuel : nat) (target_map : option nat) (target_end target_time : Z) (lost : rec)
    : OM bool :=
  match n with
  | O => ret false
  | Datatypes.S n =>
      '(lost, go) ← order_step fuel target_map target_end target_time lost;
      if (go : bool) then order_loop n fuel target_map target_end target_time lost else ret true
  end.

(** What is left in the heap goes back to its source. *)
Fixpoint put_back (l : list nat) : OM unit :=
  match l with
  | [] => ret tt
  | i :: l =>
      h ← get_hev i;
      (match h_src h with
       | PerfMmap x =>
           let m := match h_event h with Some r => ring_unread_event (map x) r | None => map x end in
           put_map i (ring_consume m)
       | Stream _ =>
           put_hev i (Hev (h_dev h) (h_event h) (h_time h) (h_ins h) (h_writable h) (h_converted h) true
                        (h_src h))
       end);;
      prof_dev_put (h_dev h);;
      put_back l
  end.

Definition stream_stop : OM unit :=
  s ← get_state;
  put_back (rev (take (hp_nr (heap s)) (hp_data (heap s))));;
  modify (fun s => set_heap s (mkHeap 0 (hp_size (heap s)) (hp_data (heap s)))).

(** [target_map] is the source whose newest event is waited for, [target_tm] a
    time (0: none).  [true]: the loop was left within [n] passes. *)
Definition order_process (n fuel : nat) (tree : dtree) (inprocess : bool)
    (target_map : option nat) (target_tm : Z) : OM bool :=
  if inprocess then ret true
  else
    ready ← (match target_map with
              | Some i =>
                  '(_, x) ← get_mm i;
                  let '(m, r) := ring_read_init (map x) in
                  put_map i m;; ret (negb (r <? 0) && negb (ring_empty m))
              | None => ret true
              end);
    if negb ready then ret true
    else
      prof_dev_get main;;
      target_end ← (match target_map with
                     | Some i => '(_, x) ← get_mm i; ret (ring_end (map x))
                     | None => ret 0
                     end);
      target_time ← (if negb (target_tm =? 0) then lift (heapclock target_tm) else ret (2 ^ 64 - 1));
      modify (fun s => set_heap s (mkHeap 0 (hp_size (heap s)) (hp_data (heap s))));;
      r ← order_heap_init fuel tree;
      done ← (if negb (r =? 0) then ret true
               else heapify;; order_loop n fuel target_map target_end target_time no_lost);
      stream_stop;;
      prof_dev_put main;;
      ret done.
End Order.
End Order.
