(* ===== verification/OrderProof.v ===== *)
(** * Lemmas on the ordering of events

    Weakest preconditions of the handlers of [Order], and the invariant that
    keeps the processed samples in order. *)

From S2P Require Import Prelude MinHeap SampleLayout Clock Order.
Import Order.

(** What a ring buffer promises, as far as the ordering relies on it:
    [ring_left] are the events it will still deliver, [ring_last] is the one it
    delivered last, which can be given back once. *)
Class EventRingLaws (M : Type) `{EventRing M} := {
  ring_left : M -> list rec;
  ring_last : M -> option rec;
  left_read_some m m' r w :
    ring_read_event m = (m', Some (r, w)) -> ring_left m = r :: ring_left m' /\ ring_last m' = Some r;
  left_read_none m m' : ring_read_event m = (m', None) -> ring_left m' = ring_left m;
  left_init m : ring_left (ring_read_init m).1 = ring_left m;
  left_consume m : ring_left (ring_consume m) = ring_left m;
  left_done m : ring_left (ring_read_done m) = ring_left m;
  left_unread m r r0 : ring_last m = Some r0 -> r_size r = r_size r0 ->
    ring_left (ring_unread_event m r) = r0 :: ring_left m
}.

(** A stream delivers its samples in the order of their times. *)
Class EventStreamLaws (S : Type) `{EventStream S} := {
  stream_left : S -> list rec;
  stream_read_some st st' b r ins w c :
    stream_read_event st b = (st', Some (r, ins, w, c)) -> stream_left st = r :: stream_left st';
  stream_read_none st st' b : stream_read_event st b = (st', None) -> stream_left st' = stream_left st
}.

Section Wp.
Context {M S : Type} `{EventRing M} `{EventStream S}.

Definition wp {A} (m : OM (M := M) (S := S) A) (s : ost) (Q : A -> ost -> Prop) : Prop :=
  match m s with Some (x, s') => Q x s' | None => False end.

Lemma wp_bind {A B} (m : OM (M := M) (S := S) A) (k : A -> OM B) s Q :
  wp m s (fun x s' => wp (k x) s' Q) -> wp (m ≫= k) s Q.
Proof using. unfold wp, mbind, om_mbind, bind. destruct (m s) as [[x s']|]; done. Qed.

Lemma wp_mono {A} (m : OM (M := M) (S := S) A) s (Q Q' : A -> ost -> Prop) :
  wp m s Q -> (forall x s', Q x s' -> Q' x s') -> wp m s Q'.
Proof using. unfold wp. destruct (m s) as [[x s']|]; auto. Qed.

Lemma wp_ret {A} (x : A) (s : ost (M := M) (S := S)) Q : Q x s -> wp (ret x) s Q.
Proof using. done. Qed.

Lemma wp_modify f (s : ost (M := M) (S := S)) Q : Q tt (f s) -> wp (modify f) s Q.
Proof using. done. Qed.

Lemma wp_get_state (s : ost (M := M) (S := S)) Q : Q s s -> wp get_state s Q.
Proof using. done. Qed.

Lemma wp_lift {A} (x : A) (s : ost (M := M) (S := S)) Q : Q x s -> wp (lift (Some x)) s Q.
Proof using. done. Qed.

Lemma wp_get_hev i h (s : ost (M := M) (S := S)) Q :
  hevs s !! i = Some h -> Q h s -> wp (get_hev i) s Q.
Proof using. unfold wp, get_hev. intros ->. done. Qed.

Lemma wp_get_dev d x (s : ost (M := M) (S := S)) Q :
  devs s !! d = Some x -> Q x s -> wp (get_dev d) s Q.
Proof using. unfold wp, get_dev. intros ->. done. Qed.

Lemma wp_get_mm i h x (s : ost (M := M) (S := S)) Q :
  hevs s !! i = Some h -> h_src h = PerfMmap x -> Q (h, x) s -> wp (get_mm i) s Q.
Proof using.
  intros Hi Hs HQ. unfold get_mm. apply wp_bind, (wp_get_hev i h); [done|]. rewrite Hs. done.
Qed.

Lemma wp_get_st i h x (s : ost (M := M) (S := S)) Q :
  hevs s !! i = Some h -> h_src h = Stream x -> Q (h, x) s -> wp (get_st i) s Q.
Proof using.
  intros Hi Hs HQ. unfold get_st. apply wp_bind, (wp_get_hev i h); [done|]. rewrite Hs. done.
Qed.

Lemma wp_put_map i h x m (s : ost (M := M) (S := S)) Q :
  hevs s !! i = Some h -> h_src h = PerfMmap x ->
  Q tt (set_hevs s (<[i := set_mm h (set_map x m)]> (hevs s))) -> wp (put_map i m) s Q.
Proof using.
  intros Hi Hs HQ. unfold put_map. apply wp_bind, (wp_get_mm i h x); [done|done|].
  apply wp_modify. done.
Qed.

(** ** Frames *)

(** The samples a device was given. *)
Definition samples (t : list out) : list Z :=
  omap (fun o => match o with OSample _ r _ _ _ => Some (r_time r) | _ => None end) t.

Lemma samples_app a b : samples (a ++ b) = samples a ++ samples b.
Proof using. apply omap_app. Qed.

(** The same samples by what identifies them: an event out of order is moved in
    time, nothing else of it changes. *)
Definition sample_tag (r : rec) : list Z := if decide (r_type r = PERF_RECORD_SAMPLE) then [r_tag r] else [].
Definition stags (t : list out) : list Z :=
  omap (fun o => match o with OSample _ r _ _ _ => Some (r_tag r) | _ => None end) t.
Definition rtags (l : list rec) : list Z := concat (sample_tag <$> l).

Lemma stags_app a b : stags (a ++ b) = stags a ++ stags b.
Proof using. apply omap_app. Qed.

Lemma stags_nil t : samples t = [] -> stags t = [].
Proof using.
  induction t as [|o t IH]; [done|]. destruct o; cbn; [done|auto|auto].
Qed.

Lemma rtags_cons r l : rtags (r :: l) = sample_tag r ++ rtags l.
Proof using. done. Qed.

Lemma sample_tag_true r : r_type r = PERF_RECORD_SAMPLE -> sample_tag r = [r_tag r].
Proof using. intros Hr. unfold sample_tag. rewrite decide_True; done. Qed.

Lemma sample_tag_false r : r_type r <> PERF_RECORD_SAMPLE -> sample_tag r = [].
Proof using. intros Hr. unfold sample_tag. rewrite decide_False; done. Qed.

(** The device's own fields that only its set-up changes. *)
Definition dev_same (x y : odev) : Prop :=
  has_lost x = has_lost y /\ wakeup_watermark x = wakeup_watermark y.

Context (main : nat).

Definition popped (s : ost (M := M) (S := S)) : Z :=
  match devs s !! main with Some x => heap_popped_time x | None => 0 end.

(** Only source [i] changes; the heap does not; [t] is appended to the trace
    and [p] is the new popped time. *)
Record step (i : nat) (p : Z) (t : list out) (s s' : ost (M := M) (S := S)) : Prop := Step {
  st_other j : j <> i -> hevs s' !! j = hevs s !! j;
  st_heap : heap s' = heap s;
  st_devs : Forall2 dev_same (devs s) (devs s');
  st_popped : popped s' = p;
  st_trace : trace s' = trace s ++ t
}.

Lemma step_refl i s : step i (popped s) [] s s.
Proof using.
  split; try done; [|rewrite app_nil_r; done].
  apply Forall2_same_length_lookup. split; [done|]. intros j x y -> [= ->]. done.
Qed.

Lemma devs_same_trans a b c :
  Forall2 dev_same a b -> Forall2 dev_same b c -> Forall2 dev_same a c.
Proof using.
  intros H1 H2. revert c H2. induction H1 as [|x y a b Hxy Hab IH]; intros c H2.
  - inversion H2. constructor.
  - inversion H2 as [|? z ? c' Hyz Hbc]; subst. constructor; [|auto].
    destruct Hxy, Hyz. split; congruence.
Qed.

Lemma step_trans i p1 p2 t1 t2 s1 s2 s3 :
  step i p1 t1 s1 s2 -> step i p2 t2 s2 s3 -> step i p2 (t1 ++ t2) s1 s3.
Proof using.
  intros [A1 A2 A3 A4 A5] [B1 B2 B3 B4 B5]. split.
  - intros j Hj. rewrite B1, A1; done.
  - congruence.
  - eapply devs_same_trans; eauto.
  - done.
  - rewrite B5, A5, app_assoc. done.
Qed.

(** [step_trans] with the second step at the popped time the first left. *)
Lemma step_then i p t1 t2 s1 s2 s3 :
  step i p t1 s1 s2 -> step i (popped s2) t2 s2 s3 -> step i p (t1 ++ t2) s1 s3.
Proof using. intros S1 S2. rewrite (st_popped _ _ _ _ _ S1) in S2. eapply step_trans; done. Qed.

Lemma step_then0 i p t s1 s2 s3 :
  step i p t s1 s2 -> step i (popped s2) [] s2 s3 -> step i p t s1 s3.
Proof using. intros S1 S2. rewrite <- (app_nil_r t). eapply step_then; done. Qed.

Lemma step_put_hev i h s : step i (popped s) [] s (set_hevs s (<[i := h]> (hevs s))).
Proof using.
  destruct (step_refl i s) as [A1 A2 A3 A4 A5]. split; try done.
  intros j Hj. cbn. apply list_lookup_insert_ne. done.
Qed.

Lemma step_then_put i p t h s1 s2 :
  step i p t s1 s2 -> step i p t s1 (set_hevs s2 (<[i := h]> (hevs s2))).
Proof using.
  intros S1. eapply step_then0; [exact S1|apply step_put_hev].
Qed.

Lemma wp_emit o (s : ost (M := M) (S := S)) Q :
  Q tt (Ost (hevs s) (devs s) (heap s) (heap_popped_ins s) (prev_lost_time s) (break_reason s)
          (trace s ++ [o]) (now s)) -> wp (emit o) s Q.
Proof using. done. Qed.

(** Changes of a device's counters and reference count. *)
Lemma devs_insert (l : list odev) d x y :
  l !! d = Some x -> dev_same x y -> Forall2 dev_same l (<[d := y]> l).
Proof using.
  intros Hd Hs. apply Forall2_same_length_lookup. split; [rewrite length_insert; done|].
  intros j a b Ha Hb. destruct (decide (j = d)) as [->|Hne].
  - rewrite list_lookup_insert_eq in Hb by (eapply lookup_lt_Some; done). congruence.
  - rewrite list_lookup_insert_ne in Hb by done. rewrite Ha in Hb. injection Hb as ->. done.
Qed.

Lemma popped_insert (s : ost (M := M) (S := S)) d x y :
  devs s !! d = Some x -> popped (set_devs s (<[d := y]> (devs s))) =
    if decide (d = main) then heap_popped_time y else popped s.
Proof using.
  intros Hd. unfold popped. cbn. case_decide as Hm.
  - subst. rewrite list_lookup_insert_eq; [done|]. eapply lookup_lt_Some; done.
  - rewrite list_lookup_insert_ne by done. done.
Qed.

Lemma wp_put_dev i d x y s Q :
  devs s !! d = Some x -> dev_same x y -> heap_popped_time y = heap_popped_time x ->
  (forall s', step i (popped s) [] s s' -> hevs s' = hevs s -> Q tt s') ->
  wp (put_dev d y) s Q.
Proof using.
  intros Hd Hs Hp HQ. apply wp_modify, HQ; [|done].
  destruct (step_refl i s) as [A1 A2 A3 A4 A5]. split; try done.
  - eapply devs_insert; done.
  - rewrite (popped_insert _ _ x) by done. case_decide as Hm; [|done].
    subst. unfold popped. rewrite Hd. done.
Qed.

Lemma wp_add_stat i d k n s Q :
  (d < length (devs s))%nat ->
  (forall s', step i (popped s) [] s s' -> hevs s' = hevs s -> Q tt s') ->
  wp (add_stat d k n) s Q.
Proof using.
  intros Hd HQ. destruct (lookup_lt_is_Some_2 _ _ Hd) as [x Hx].
  unfold add_stat. apply wp_bind, (wp_get_dev d x); [done|].
  eapply wp_put_dev; [done|done|done|done].
Qed.

Lemma wp_add_ref i d n s Q :
  (d < length (devs s))%nat ->
  (forall s', step i (popped s) [] s s' -> hevs s' = hevs s -> Q tt s') ->
  wp (add_ref d n) s Q.
Proof using.
  intros Hd HQ. destruct (lookup_lt_is_Some_2 _ _ Hd) as [x Hx].
  unfold add_ref. apply wp_bind, (wp_get_dev d x); [done|].
  eapply wp_put_dev; [done|done|done|done].
Qed.

Lemma wp_emit_step i o s Q :
  (forall s', step i (popped s) [o] s s' -> hevs s' = hevs s -> Q tt s') -> wp (emit o) s Q.
Proof using.
  intros HQ. apply wp_emit, HQ; [|done]. destruct (step_refl i s) as [A1 A2 A3 A4 A5]. split; done.
Qed.

Lemma step_quiet i s s' :
  hevs s' = hevs s -> heap s' = heap s -> devs s' = devs s -> trace s' = trace s ->
  step i (popped s) [] s s'.
Proof using.
  intros E1 E2 E3 E4. destruct (step_refl i s) as [A1 A2 A3 A4 A5].
  split; unfold popped; rewrite ?E1, ?E2, ?E3, ?E4; done.
Qed.

Lemma wp_ktime i f s Q :
  (forall t s', step i (popped s) [] s s' -> hevs s' = hevs s -> Q t s') -> wp (ktime f) s Q.
Proof using. intros HQ. apply HQ; [apply step_quiet; done|done]. Qed.

Lemma wp_quiet i f s Q :
  (forall s, hevs (f s) = hevs s /\ heap (f s) = heap s /\ devs (f s) = devs s /\ trace (f s) = trace s) ->
  (forall s', step i (popped s) [] s s' -> hevs s' = hevs s -> Q tt s') -> wp (modify f) s Q.
Proof using.
  intros Hf HQ. destruct (Hf s) as (E1 & E2 & E3 & E4). apply wp_modify, HQ; [|done].
  apply step_quiet; done.
Qed.

Lemma wp_popped_time s Q :
  (main < length (devs s))%nat -> Q (popped s) s -> wp (popped_time main) s Q.
Proof using.
  intros Hm HQ. destruct (lookup_lt_is_Some_2 _ _ Hm) as [x Hx].
  unfold popped_time. apply wp_bind, (wp_get_dev main x); [done|]. apply wp_ret.
  unfold popped in HQ. rewrite Hx in HQ. done.
Qed.

Lemma step_devs_length i p t s s' : step i p t s s' -> length (devs s') = length (devs s).
Proof using. intros Hs. symmetry. eapply Forall2_length, Hs. Qed.

(** An event that is not before the popped time moves it. *)
Lemma wp_note_popped i d time ins s Q :
  (d < length (devs s))%nat -> (main < length (devs s))%nat -> popped s <= time ->
  (forall s', step i time [] s s' -> hevs s' = hevs s -> Q tt s') ->
  wp (note_popped main d time ins) s Q.
Proof using.
  intros Hd Hm Hp HQ. unfold note_popped. apply wp_bind.
  assert (wp (if decide (d = main) then ret tt else set_popped d time) s (fun _ s1 =>
    step i (popped s) [] s s1 /\ hevs s1 = hevs s)) as H1.
  { case_decide as Hdm; [apply wp_ret; split; [apply step_refl|done]|].
    destruct (lookup_lt_is_Some_2 _ _ Hd) as [x Hx].
    unfold set_popped. apply wp_bind, (wp_get_dev d x); [done|]. apply wp_modify. split; [|done].
    destruct (step_refl i s) as [A1 A2 A3 A4 A5]. split; try done.
    - eapply devs_insert; [done|]. split; done.
    - rewrite (popped_insert _ _ x), decide_False by done. done. }
  eapply wp_mono; [exact H1|]. intros [] s1 [S1 E1].
  pose proof (step_devs_length _ _ _ _ _ S1) as L1.
  apply wp_bind, wp_popped_time; [lia|]. rewrite (st_popped _ _ _ _ _ S1).
  destruct (Z.ltb_spec time (popped s)); [lia|].
  destruct (lookup_lt_is_Some_2 (devs s1) main) as [x Hx]; [lia|].
  apply wp_bind. unfold set_popped. apply wp_bind, (wp_get_dev main x); [done|].
  apply wp_modify. apply wp_modify. apply HQ; [|cbn; congruence].
  rewrite <- (app_nil_r []). eapply step_trans; [exact S1|].
  destruct (step_refl i s1) as [A1 A2 A3 A4 A5]. split; try done.
  - cbn. eapply devs_insert; [done|]. split; done.
  - unfold popped. cbn. rewrite list_lookup_insert_eq by (eapply lookup_lt_Some; done). done.
Qed.
End Wp.

(** ** The handlers *)

Section Run.
Context {M S : Type} `{EventRingLaws M} `{EventStreamLaws S}.
Context (ktimes : nat -> Z) (main : nat) (g : Clock.scaling) (clk : Clock.clock_dev) (nr_streams : Z).
(** The heap sorts by the time of the events. *)
Context (Hclk : heap_converts clk nr_streams = false).

Abbreviation ostate := (@ost M S).
Abbreviation stp := (step main).
Abbreviation pop := (popped main).

Lemma heapclock_id t : heapclock g clk nr_streams t = Some t.
Proof using Hclk. unfold heapclock. rewrite Hclk. done. Qed.

Lemma heapclock_to_perfclock_id t : heapclock_to_perfclock g clk nr_streams t = Some t.
Proof using Hclk. unfold heapclock_to_perfclock. rewrite Hclk. done. Qed.

(** The clock of the lost callback is defined. *)
Definition ev_total : Prop := forall t, is_Some (heapclock_to_evclock g clk nr_streams t).
Context (Hev : ev_total).

Definition lefts (h : @hev M S) : nat :=
  match h_src h with
  | PerfMmap x => length (ring_left (map x))
  | Stream x => length (stream_left (stream x))
  end.

(** The head of a source: an event with its time. *)
Definition headed (h : @hev M S) : Prop :=
  exists r, h_event h = Some r /\ r_time r = h_time h /\
    match h_src h with
    | PerfMmap x => r_type r = PERF_RECORD_SAMPLE /\
        exists r0, ring_last (map x) = Some r0 /\ r_type r0 = r_type r /\ r_tag r0 = r_tag r /\ r_size r0 = r_size r
    | Stream _ => r_type r = PERF_RECORD_SAMPLE \/ r_type r = PERF_RECORD_ORDER_TIME
    end.

Definition head_tags (h : @hev M S) : list Z :=
  match h_event h with Some r => sample_tag r | None => [] end.

(** How a handler leaves a ring buffer's source. *)
Record mm_after (i : nat) (h : @hev M S) (x : @mmev M) (used : nat) (s' : ostate) (h' : @hev M S) (x' : @mmev M)
    : Prop := MmAfter {
  ma_hev : hevs s' !! i = Some h';
  ma_src : h_src h' = PerfMmap x';
  ma_dev : h_dev h' = h_dev h;
  ma_left : (lefts h' + used <= lefts h)%nat
}.

Lemma wp_lost_callback i d l ins t0 t1 (s : ostate) Q :
  (forall s' o, stp i (pop s) [o] s s' -> hevs s' = hevs s -> samples [o] = [] -> Q tt s') ->
  wp (lost_callback g clk nr_streams d l ins t0 t1) s Q.
Proof using Hev.
  intros HQ. unfold lost_callback.
  destruct (Hev t0) as [a Ha], (Hev t1) as [b Hb]. rewrite Ha, Hb.
  apply wp_bind, wp_lift, wp_bind, wp_lift. apply (wp_emit_step main i). intros s' Hs Eh.
  eapply HQ; done.
Qed.

Lemma wp_process i d r ins w c (s : ostate) Q :
  (forall s', stp i (pop s) (if decide (r_type r = PERF_RECORD_SAMPLE) then [OSample d r ins w c]
                             else [ORecord d r ins w c]) s s' -> hevs s' = hevs s -> Q tt s') ->
  wp (perf_event_process_record d (Some r) ins w c) s Q.
Proof using.
  intros HQ. unfold perf_event_process_record. apply wp_bind, wp_lift.
  case_decide; apply (wp_emit_step main i); done.
Qed.

Lemma wp_fix i h r p (s : ostate) Q :
  hevs s !! i = Some h -> h_event h = Some r -> (h_dev h < length (devs s))%nat ->
  (forall s', stp i (pop s) [] s s' -> hevs s' !! i = Some (set_event h (set_r_time r p) p true) ->
     Q (Some (set_r_time r p)) s') ->
  wp (perf_mmap_fix_out_of_order g clk nr_streams true i p) s Q.
Proof using Hclk.
  intros Hi Hr Hd HQ. unfold perf_mmap_fix_out_of_order. apply wp_bind, (wp_get_hev i h); [done|].
  rewrite andb_false_r. apply wp_bind. rewrite Hr. apply wp_lift, wp_bind.
  rewrite heapclock_to_perfclock_id. apply wp_lift. cbn zeta.
  apply wp_bind, wp_modify, wp_bind. apply (wp_add_stat main i); [done|].
  intros s' Hs Eh. apply wp_ret, HQ.
  - rewrite <- (app_nil_r []). eapply step_trans; [apply step_put_hev|exact Hs].
  - rewrite Eh. cbn. apply list_lookup_insert_eq. eapply lookup_lt_Some. done.
Qed.

Lemma lookup_inserted i h0 h (s : ostate) :
  hevs s !! i = Some h0 -> hevs (set_hevs s (<[i := h]> (hevs s))) !! i = Some h.
Proof using. intros Hi. cbn. apply list_lookup_insert_eq. eapply lookup_lt_Some. done. Qed.

(** A ring buffer at the start of a run: nothing of it is processed but what
    is not a sample; its first sample is not before the popped time. *)
Definition init_post (i : nat) (h : @hev M S) (x : @mmev M) (s : ostate) (b : bool) (s' : ostate) : Prop :=
  exists t h' x', stp i (pop s) t s s' /\ samples t = [] /\
    mm_after i h x (if b then 1 else 0) s' h' x' /\ event_mono_time x' = event_mono_time x /\
    rtags (ring_left (map x)) = (if b then head_tags h' else []) ++ rtags (ring_left (map x')) /\
    (b = true -> headed h' /\ pop s <= h_time h').

Lemma init_post_trans i h x h1 x1 (s s1 : ostate) t1 b s' :
  stp i (pop s) t1 s s1 -> samples t1 = [] -> mm_after i h x 0 s1 h1 x1 ->
  event_mono_time x1 = event_mono_time x -> rtags (ring_left (map x)) = rtags (ring_left (map x1)) ->
  init_post i h1 x1 s1 b s' -> init_post i h x s b s'.
Proof using.
  intros S1 E1 A1 M1 T1 (t & h' & x' & S2 & E2 & A2 & M2 & T2 & Hb).
  rewrite (st_popped _ _ _ _ _ _ S1) in S2, Hb.
  exists (t1 ++ t), h', x'. split; [eapply step_trans; done|]. split; [rewrite samples_app, E1, E2; done|].
  destruct A1 as [_ _ D1 L1], A2 as [H2' Hs2 D2 L2]. split; [|split_and!; [congruence|congruence|done]].
  split; [done|done|congruence|lia].
Qed.

(** The head of the ring buffer is a sample: it becomes the head of the source. *)
Lemma wp_init_sample i h x m r w lost (s s1 : ostate) :
  h_src h = PerfMmap x -> ring_left (map x) = r :: ring_left m -> ring_last m = Some r ->
  r_type r = PERF_RECORD_SAMPLE ->
  (h_dev h < length (devs s))%nat -> (main < length (devs s))%nat ->
  stp i (pop s) [] s s1 -> hevs s1 !! i = Some (set_mm h (set_map x m)) ->
  wp (t ← lift (heapclock g clk nr_streams (r_time r));
      h' ← get_hev i;
      put_hev i (set_event h' r t w);;
      p ← popped_time main;
      (if t <? p then perf_mmap_fix_out_of_order g clk nr_streams true i p else ret None);;
      (if negb (r_lost lost =? 0) then
         '(h', x') ← get_mm i;
         lost_callback g clk nr_streams (h_dev h) lost (h_ins h') (event_mono_time x') (h_time h')
       else ret tt);;
      ret true) s1 (fun b s' => init_post i h x s b s').
Proof using Hclk Hev.
  intros Hx El Ela Ht Hd Hm S1 Hi1. set (h1 := set_mm h (set_map x m)) in *.
  pose proof (step_devs_length _ _ _ _ _ _ S1) as L1.
  apply wp_bind. rewrite heapclock_id. apply wp_lift.
  apply wp_bind, (wp_get_hev i h1); [done|]. apply wp_bind, wp_modify.
  set (h2 := set_event h1 r (r_time r) w). set (s2 := set_hevs s1 (<[i := h2]> (hevs s1))).
  assert (hevs s2 !! i = Some h2) as Hi2 by (eapply lookup_inserted; done).
  assert (stp i (pop s) [] s s2) as S2 by (eapply step_then_put; done).
  apply wp_bind, wp_popped_time; [cbn; lia|]. rewrite (st_popped _ _ _ _ _ _ S2).
  apply wp_bind.
  assert (wp (if r_time r <? pop s then perf_mmap_fix_out_of_order g clk nr_streams true i (pop s)
              else ret None) s2 (fun _ s3 => stp i (pop s) [] s s3 /\
    exists h3, hevs s3 !! i = Some h3 /\ h_src h3 = PerfMmap (set_map x m) /\ h_dev h3 = h_dev h /\
      headed h3 /\ head_tags h3 = sample_tag r /\ pop s <= h_time h3)) as Hfix.
  { destruct (Z.ltb_spec (r_time r) (pop s)) as [Hlt|Hge].
    - eapply wp_fix; [done|done|cbn; lia|]. intros s3 S3 Hi3. split; [eapply step_then0; done|].
      eexists. split_and!; [done|done|done| |done|cbn; lia]. eexists. split_and!; try done. cbn. eauto 10.
    - apply wp_ret. split; [done|]. exists h2. split_and!; try done. eexists. split_and!; try done.
      cbn. eauto 10. }
  eapply wp_mono; [exact Hfix|]. clear Hfix. intros _ s3 [S3 (h3 & Hi3 & Hx3 & Hd3 & Hh3 & Hg3 & Ht3)].
  assert (forall t' s4, stp i (pop s) t' s3 s4 -> hevs s4 = hevs s3 -> samples t' = [] ->
    init_post i h x s true s4) as Hfin.
  { intros t' s4 S4 E4 Es. exists ([] ++ t'), h3, (set_map x m).
    split; [eapply step_trans; done|]. split; [done|].
    split; [|rewrite El, Hg3, rtags_cons; auto].
    split; [congruence|done|done|]. unfold lefts. rewrite Hx, Hx3, El. cbn. lia. }
  apply wp_bind. destruct (r_lost lost =? 0); cbn [negb].
  - apply wp_ret, wp_ret. eapply (Hfin []); [|done|done].
    rewrite <- (st_popped _ _ _ _ _ _ S3). apply step_refl.
  - apply wp_bind, (wp_get_mm i h3 (set_map x m)); [done|done|]. cbn beta iota.
    apply (wp_lost_callback i). intros s4 o S4 E4 Eo. apply wp_ret.
    rewrite (st_popped _ _ _ _ _ _ S3) in S4. eapply Hfin; done.
Qed.

Lemma wp_mmap_init_loop fuel : forall i h x lost (s : ostate),
  hevs s !! i = Some h -> h_src h = PerfMmap x -> (h_dev h < length (devs s))%nat ->
  (main < length (devs s))%nat -> (length (ring_left (map x)) < fuel)%nat ->
  wp (mmap_init_loop main g clk nr_streams true fuel i lost) s (fun b s' => init_post i h x s b s').
Proof using Hclk Hev.
  induction fuel as [|fuel IH]; intros i h x lost s Hi Hx Hd Hm Hf; [lia|]. cbn [mmap_init_loop].
  apply wp_bind, (wp_get_mm i h x); [done|done|]. cbn beta iota.
  destruct (ring_read_event (map x)) as [m ev] eqn:Er.
  apply wp_bind, (wp_put_map i h x); [done|done|].
  set (h1 := set_mm h (set_map x m)). set (s1 := set_hevs s (<[i := h1]> (hevs s))).
  assert (hevs s1 !! i = Some h1) as Hi1 by (eapply lookup_inserted; done).
  assert (stp i (pop s) [] s s1) as S1 by apply step_put_hev.
  destruct ev as [[r w]|].
  - destruct (left_read_some _ _ _ _ Er) as [El Ela]. rewrite El in Hf. cbn in Hf.
    destruct (lookup_lt_is_Some_2 (devs s1) (h_dev h)) as [dv Hdv]; [done|].
    apply wp_bind, (wp_get_dev _ dv); [done|].
    destruct (decide (r_type r = PERF_RECORD_SAMPLE)) as [Ht|Ht].
    { rewrite bool_decide_true by done. cbn [negb]. eapply wp_init_sample; done. }
    rewrite bool_decide_false by done. cbn [negb]. apply wp_bind.
    assert (forall t1 s2 lost', stp i (pop s) t1 s s2 -> hevs s2 = hevs s1 -> samples t1 = [] ->
      wp (put_map i (ring_consume m);; mmap_init_loop main g clk nr_streams true fuel i lost') s2
        (fun b s' => init_post i h x s b s')) as Hgo.
    { intros t1 s2 lost' S2 E2 Et. apply wp_bind, (wp_put_map i h1 (set_map x m)); [congruence|done|].
      set (h3 := set_mm h1 (set_map (set_map x m) (ring_consume m))).
      set (s3 := set_hevs s2 (<[i := h3]> (hevs s2))).
      assert (hevs s3 !! i = Some h3) as Hi3 by (eapply lookup_inserted; rewrite E2; done).
      assert (stp i (pop s) t1 s s3) as S3 by (eapply step_then_put; done).
      pose proof (step_devs_length _ _ _ _ _ _ S3) as L3.
      eapply wp_mono; [apply (IH i h3 (set_map (set_map x m) (ring_consume m)) lost'); try done|].
      - rewrite L3. done.
      - rewrite L3. done.
      - cbn. rewrite left_consume. lia.
      - intros b s' Hb.
        eapply init_post_trans; [exact S3|exact Et|split; [exact Hi3|done|done|]|done| |exact Hb].
        + unfold lefts. rewrite Hx, El. cbn. rewrite left_consume. lia.
        + cbn. rewrite left_consume, El, rtags_cons, sample_tag_false; done. }
    assert (forall s2, stp i (pop s) [] s s2 -> hevs s2 = hevs s1 ->
      wp (if decide (r_type r = PERF_RECORD_LOST /\ has_lost dv = true)
          then put_map i (ring_consume m);; mmap_init_loop main g clk nr_streams true fuel i r
          else perf_event_process_record (h_dev h) (Some r) (h_ins h) w false;;
               put_map i (ring_consume m);; mmap_init_loop main g clk nr_streams true fuel i lost) s2
        (fun b s' => init_post i h x s b s')) as Hrest.
    { intros s2 S2 E2. case_decide as Hl; [eapply Hgo; done|].
      apply wp_bind, (wp_process i). intros s3 S3 E3. rewrite decide_False in S3 by done.
      eapply Hgo; [eapply step_then; done|congruence|done]. }
    destruct (decide (r_type r = PERF_RECORD_LOST)) as [Hl|Hl].
    + apply (wp_add_stat main i); [done|]. intros s2 S2 E2. apply Hrest; [eapply step_then0; done|done].
    + apply wp_ret. apply Hrest; done.
  - apply wp_bind, (wp_put_map i h1 (set_map x m)); [done|done|]. apply wp_ret.
    exists [], (set_mm h1 (set_map (set_map x m) (ring_read_done m))),
      (set_map (set_map x m) (ring_read_done m)).
    split; [eapply step_then_put; done|].
    split; [done|]. cbn. rewrite left_done, (left_read_none _ _ Er).
    split; [|done]. split; [eapply lookup_inserted; done|done|done|].
    unfold lefts. rewrite Hx. cbn. rewrite left_done, (left_read_none _ _ Er). lia.
Qed.

Lemma wp_mmap_event_init fuel i h x (s : ostate) :
  hevs s !! i = Some h -> h_src h = PerfMmap x -> (h_dev h < length (devs s))%nat ->
  (main < length (devs s))%nat -> (length (ring_left (map x)) < fuel)%nat ->
  wp (perf_mmap_event_init main g clk nr_streams true fuel i) s (fun b s' => init_post i h x s b s').
Proof using Hclk Hev.
  intros Hi Hx Hd Hm Hf. unfold perf_mmap_event_init.
  apply wp_bind, (wp_get_mm i h x); [done|done|]. cbn beta iota.
  destruct (ring_empty (map x)).
  - apply wp_ret. exists [], h, x. split; [apply step_refl|]. split; [done|]. split; [|done].
    split; [done|done|done|lia].
  - pose proof (left_init (map x)) as El. destruct (ring_read_init (map x)) as [m r]. cbn in El.
    apply wp_bind, (wp_put_map i h x); [done|done|].
    set (h1 := set_mm h (set_map x m)). set (s1 := set_hevs s (<[i := h1]> (hevs s))).
    assert (hevs s1 !! i = Some h1) as Hi1 by (eapply lookup_inserted; done).
    assert (mm_after i h x 0 s1 h1 (set_map x m)) as A1.
    { split; [done|done|done|]. unfold lefts. rewrite Hx. cbn. rewrite El. lia. }
    destruct (r <? 0).
    + apply wp_ret. exists [], h1, (set_map x m). split; [apply step_put_hev|]. cbn. rewrite El. done.
    + eapply wp_mono; [apply (wp_mmap_init_loop fuel i h1 (set_map x m)); try done|].
      * cbn. rewrite El. done.
      * intros b s' Hb. eapply init_post_trans; [apply step_put_hev|done|exact A1|done| |exact Hb].
        cbn. rewrite El. done.
Qed.

(** ** A pass over a ring buffer *)

(** Only the ring buffer's own state changes. *)
Record mm_upd (i : nat) (h : @hev M S) (x : @mmev M) (t : list out) (s s' : ostate) (x' : @mmev M)
    : Prop := MmUpd {
  mu_step : stp i (pop s) t s s';
  mu_hev : hevs s' !! i = Some (set_mm h x');
  mu_mono : event_mono_time x' = event_mono_time x
}.

Lemma set_mm_id (h : @hev M S) x : h_src h = PerfMmap x -> set_mm h x = h.
Proof using. destruct h. cbn. intros ->. done. Qed.

Lemma set_mm_mm (h : @hev M S) x y : set_mm (set_mm h x) y = set_mm h y.
Proof using. done. Qed.

Lemma mm_upd_refl i (h : @hev M S) x (s : ostate) :
  hevs s !! i = Some h -> h_src h = PerfMmap x -> mm_upd i h x [] s s x.
Proof using. intros Hi Hx. split; [apply step_refl|rewrite set_mm_id; done|done]. Qed.

Lemma mm_upd_put i h x t (s s' : ostate) x' x'' :
  mm_upd i h x t s s' x' -> event_mono_time x'' = event_mono_time x ->
  mm_upd i h x t s (set_hevs s' (<[i := set_mm h x'']> (hevs s'))) x''.
Proof using.
  intros [U1 U2 U3] Hm. split; [eapply step_then_put; done|eapply lookup_inserted; done|done].
Qed.

(** What touches no source. *)
Lemma mm_upd_frame i h x t t' (s s' s'' : ostate) x' :
  mm_upd i h x t s s' x' -> stp i (pop s') t' s' s'' -> hevs s'' = hevs s' ->
  mm_upd i h x (t ++ t') s s'' x'.
Proof using. intros [U1 U2 U3] Hs E. split; [eapply step_then; done|congruence|done]. Qed.

Lemma mm_upd_frame0 i h x t (s s' s'' : ostate) x' :
  mm_upd i h x t s s' x' -> stp i (pop s') [] s' s'' -> hevs s'' = hevs s' ->
  mm_upd i h x t s s'' x'.
Proof using. intros U Hs E. rewrite <- (app_nil_r t). eapply mm_upd_frame; done. Qed.

Lemma mm_upd_trans i h x t t' (s s' s'' : ostate) x' x'' :
  mm_upd i h x t s s' x' -> mm_upd i (set_mm h x') x' t' s' s'' x'' ->
  mm_upd i h x (t ++ t') s s'' x''.
Proof using.
  intros [U1 U2 U3] [V1 V2 V3]. split; [eapply step_then; done|done|congruence].
Qed.

Lemma mm_upd_devs i h x t (s s' : ostate) x' :
  mm_upd i h x t s s' x' -> length (devs s') = length (devs s).
Proof using. intros U. eapply step_devs_length, U. Qed.

Lemma wp_lost_detect i h x r (s : ostate) :
  hevs s !! i = Some h -> h_src h = PerfMmap x -> h_event h = Some r ->
  (h_dev h < length (devs s))%nat ->
  wp (lost_detect ktimes i) s (fun _ s' => exists x', mm_upd i h x [] s s' x' /\ map x' = map x).
Proof using.
  intros Hi Hx Hr Hd. pose proof (mm_upd_refl i h x s Hi Hx) as U0.
  destruct (lookup_lt_is_Some_2 _ _ Hd) as [dv Hdv].
  unfold lost_detect. apply wp_bind, (wp_get_mm i h x); [done|done|]. cbn beta iota.
  apply wp_bind. rewrite Hr. apply wp_lift, wp_bind, (wp_get_dev _ dv); [done|].
  destruct (has_lost dv); cbn [negb]; [|apply wp_ret; eauto].
  apply wp_bind. eapply (wp_mono _ _ (fun _ s' => exists x', mm_upd i h x [] s s' x' /\ map x' = map x)).
  - destruct (ring_end (map x) =? maybe_lost_end x); cbn [negb].
    + destruct (ring_empty (map x)); [|apply wp_ret; eauto].
      destruct (lost_pause x); [apply wp_ret; eauto|].
      apply wp_bind, (wp_add_stat main i); [done|]. intros s1 S1 E1.
      apply wp_bind, (wp_ktime main i). intros t s2 S2 E2. apply wp_bind, wp_modify.
      apply wp_bind, (wp_quiet main i); [done|]. intros s3 S3 E3. apply wp_ret.
      exists (set_pause x t true). split; [|done]. eapply mm_upd_frame0; [|exact S3|exact E3].
      eapply mm_upd_put; [|done].
      eapply mm_upd_frame0; [|exact S2|exact E2]. eapply mm_upd_frame0; done.
    + destruct (perf_mmap_has_space _ _).
      * apply wp_bind, wp_modify, wp_ret. eexists. split; [eapply mm_upd_put; [exact U0|done]|done].
      * apply wp_bind, wp_modify, wp_bind, (wp_add_stat main i); [done|]. intros s1 S1 E1. apply wp_ret.
        eexists. split; [eapply mm_upd_frame0; [eapply mm_upd_put; [exact U0|]|exact S1|exact E1]|]; done.
  - intros stop s1 (x1 & U1 & M1). destruct stop; [apply wp_ret; eauto|].
    apply wp_bind, (wp_get_mm i (set_mm h x1) x1); [apply U1|done|]. cbn beta iota.
    apply wp_bind. destruct (lost_pause x1); [|apply wp_ret, wp_ret; eauto].
    apply wp_bind, (wp_ktime main i). intros t s2 S2 E2. apply wp_bind, wp_modify.
    pose proof (mm_upd_devs _ _ _ _ _ _ _ U1) as L1. pose proof (step_devs_length _ _ _ _ _ _ S2) as L2.
    rewrite set_mm_mm. apply (wp_add_stat main i); [cbn; lia|]. intros s3 S3 E3. apply wp_ret.
    exists (set_pause x1 (pause_start_time x1) false). split; [|done].
    eapply mm_upd_frame0; [|exact S3|exact E3]. eapply mm_upd_put; [|apply U1].
    eapply mm_upd_frame0; done.
Qed.

Definition ev_samples (ev : option (option rec * bool)) : list Z :=
  match ev with
  | Some (Some r, _) => if decide (r_type r = PERF_RECORD_SAMPLE) then [r_time r] else []
  | _ => []
  end.

Definition ev_tags (ev : option (option rec * bool)) : list Z :=
  match ev with Some (Some r, _) => sample_tag r | _ => [] end.

Definition mm_left (x : @mmev M) : nat := length (ring_left (map x)).

(** The next sample of the ring buffer, or none. *)
Definition next_ok (next : option (rec * bool)) (x x' : @mmev M) : Prop :=
  match next with
  | Some (r, _) => r_type r = PERF_RECORD_SAMPLE /\ (mm_left x' < mm_left x)%nat /\
      ring_last (map x') = Some r /\ rtags (ring_left (map x)) = sample_tag r ++ rtags (ring_left (map x'))
  | None => (mm_left x' <= mm_left x)%nat /\ rtags (ring_left (map x)) = rtags (ring_left (map x'))
  end.

Lemma next_ok_trans next x x1 x' : (mm_left x1 < mm_left x)%nat ->
  rtags (ring_left (map x)) = rtags (ring_left (map x1)) -> next_ok next x1 x' -> next_ok next x x'.
Proof using.
  intros Hl Ht. destruct next as [[r w]|]; cbn; rewrite Ht.
  - intros (A1 & A2 & A3 & A4). split_and!; [done|lia|done|done].
  - intros [A1 A2]. split; [lia|done].
Qed.

(** Whatever [consume_loop] meets before the next sample is no sample. *)
Lemma wp_consume_loop fuel : forall i h x tgt te ev lost brk (s : ostate),
  hevs s !! i = Some h -> h_src h = PerfMmap x -> (h_dev h < length (devs s))%nat ->
  (mm_left x < fuel)%nat -> (forall w, ev <> Some (None, w)) ->
  wp (consume_loop fuel i tgt te ev lost brk) s (fun res s' =>
    exists t x', mm_upd i h x t s s' x' /\ samples t = ev_samples ev /\ stags t = ev_tags ev /\
      next_ok res.1.1 x x').
Proof using.
  induction fuel as [|fuel IH]; intros i h x tgt te ev lost brk s Hi Hx Hd Hf Hev0; [lia|].
  cbn [consume_loop]. apply wp_bind, (wp_get_mm i h x); [done|done|]. cbn beta iota.
  apply wp_bind.
  eapply (wp_mono _ _ (fun _ s1 => exists t, mm_upd i h x t s s1 x /\ samples t = ev_samples ev /\
    stags t = ev_tags ev /\ hevs s1 = hevs s)).
  { pose proof (mm_upd_refl i h x s Hi Hx) as U0.
    destruct ev as [[[r|] w]|]; [|by destruct (Hev0 w)|apply wp_ret; eauto].
    apply (wp_process i). intros s1 S1 E1. eexists. split; [eapply (mm_upd_frame _ _ _ []); done|].
    unfold ev_samples, ev_tags, sample_tag. cbn [app]. case_decide; done. }
  intros [] s1 (t1 & U1 & Et1 & Eg1 & E1). pose proof (mm_upd_devs _ _ _ _ _ _ _ U1) as L1.
  destruct (lookup_lt_is_Some_2 (devs s1) (h_dev h)) as [dv Hdv]; [lia|].
  apply wp_bind, (wp_get_dev _ dv); [done|]. cbn zeta.
  set (m := if (_ : bool) then ring_consume (map x) else map x).
  assert (ring_left m = ring_left (map x)) as Em by (unfold m; destruct (_ || _); [apply left_consume|done]).
  clearbody m. apply wp_bind.
  eapply (wp_mono _ _ (fun _ s2 => mm_upd i h x t1 s s2 x /\ hevs s2 = hevs s /\ devs s2 = devs s1)).
  { destruct (tgt && _); [|apply wp_ret; done]. apply wp_bind, wp_modify, wp_ret.
    split; [|done]. eapply mm_upd_frame0; [exact U1|apply step_quiet; done|done]. }
  intros brk' s2 (U2 & E2 & D2). destruct (ring_read_event m) as [m' next] eqn:Er.
  apply wp_bind, (wp_put_map i h x); [rewrite E2; done|done|].
  pose proof (mm_upd_put _ _ _ _ _ _ _ (set_map x m') U2 eq_refl) as U3.
  set (s3 := set_hevs s2 _) in *. pose proof (mm_upd_devs _ _ _ _ _ _ _ U3) as L3.
  destruct next as [[r w]|].
  - destruct (left_read_some _ _ _ _ Er) as [El Ela]. rewrite Em in El.
    assert (mm_left (set_map x m') < mm_left x)%nat as Hl by (unfold mm_left; rewrite El; cbn; lia).
    destruct (decide (r_type r = PERF_RECORD_SAMPLE)) as [Ht|Ht].
    { apply wp_ret. exists t1, (set_map x m'). cbn. rewrite El. done. }
    assert (rtags (ring_left (map x)) = rtags (ring_left m')) as Eg
      by (rewrite El, rtags_cons, sample_tag_false; done).
    assert (forall ev' lost' s4, mm_upd i h x t1 s s4 (set_map x m') -> ev_samples ev' = [] -> ev_tags ev' = [] ->
      (forall w, ev' <> Some (None, w)) ->
      wp (consume_loop fuel i tgt te ev' lost' brk') s4 (fun res s' =>
        exists t x', mm_upd i h x t s s' x' /\ samples t = ev_samples ev /\ stags t = ev_tags ev /\
          next_ok res.1.1 x x')) as Hgo.
    { intros ev' lost' s4 U4 Ee Eg' Hne. pose proof (mm_upd_devs _ _ _ _ _ _ _ U4) as L4.
      eapply wp_mono; [eapply (IH i _ _ tgt te ev'); [apply U4|done|cbn; lia|lia|done]|].
      intros res s' (t & x' & U5 & Et & Eg5 & Hr). exists (t1 ++ t), x'.
      split_and!; [eapply mm_upd_trans; done| | |eapply next_ok_trans; done].
      - rewrite samples_app, Et1, Et, Ee, app_nil_r. done.
      - rewrite stags_app, Eg1, Eg5, Eg', app_nil_r. done. }
    assert (ev_samples (Some (Some r, w)) = []) as Ee by (cbn; rewrite decide_False; done).
    assert (ev_tags (Some (Some r, w)) = []) as Egr by (apply sample_tag_false; done).
    destruct (decide (r_type r = PERF_RECORD_LOST)) as [Hlo|Hlo]; [|apply Hgo; done].
    apply wp_bind, (wp_add_stat main i); [lia|]. intros s4 S4 E4.
    pose proof (mm_upd_frame0 _ _ _ _ _ _ _ _ U3 S4 E4) as U4.
    destruct (has_lost dv); apply Hgo; done.
  - apply wp_bind, (wp_put_map i (set_mm h (set_map x m')) (set_map x m')); [apply U3|done|]. apply wp_ret.
    exists t1, (set_map (set_map x m') (ring_read_done m')).
    rewrite set_mm_mm. split; [eapply mm_upd_put; [exact U3|done]|]. split_and!; try done; cbn.
    + unfold mm_left. cbn. rewrite left_done, (left_read_none _ _ Er), Em. done.
Qed.

Lemma wp_report_lost i h x lost (s : ostate) :
  hevs s !! i = Some h -> h_src h = PerfMmap x ->
  wp (report_lost g clk nr_streams i lost) s (fun _ s' =>
    exists t, stp i (pop s) t s s' /\ hevs s' = hevs s /\ samples t = []).
Proof using Hev.
  intros Hi Hx. unfold report_lost. destruct (r_lost lost =? 0).
  { apply wp_ret. exists []. split; [apply step_refl|done]. }
  apply wp_bind, (wp_get_mm i h x); [done|done|]. cbn beta iota. apply wp_bind, wp_get_state, wp_bind.
  eapply (wp_mono _ _ (fun _ s1 => stp i (pop s) [] s s1 /\ hevs s1 = hevs s)).
  { destruct (event_mono_time x <? prev_lost_time s); [apply wp_ret; split; [apply step_refl|done]|].
    apply (wp_quiet main i); done. }
  intros [] s1 [S1 E1]. apply wp_bind, (wp_lost_callback i). intros s2 o S2 E2 Eo. apply wp_ret.
  exists ([] ++ [o]). split; [eapply step_then; done|]. split; [congruence|done].
Qed.

End Run.
