(* ===== verification/OrderInv.v ===== *)
(** * The invariant of the ordering

    What holds of the sources and of the trace between two passes of
    [Order.order_step], and that each pass keeps it. *)

From S2P Require Import Prelude MinHeap SampleLayout Clock Order OrderProof.
Import Order.

(** ** Times in order *)

(** [l] does not go back, and starts at [p] or after it. *)
Fixpoint ascending (p : Z) (l : list Z) : Prop :=
  match l with [] => True | x :: l => p <= x /\ ascending x l end.

Lemma ascending_le p q l : p <= q -> ascending q l -> ascending p l.
Proof. destruct l; cbn; [done|]. intuition lia. Qed.

(** [l] does not go back and ends at [p] or before it. *)
Fixpoint upto (l : list Z) (p : Z) : Prop :=
  match l with [] => True | x :: l => x <= p /\ ascending x l /\ upto l p end.

Lemma upto_le l p q : p <= q -> upto l p -> upto l q.
Proof. intros Hpq. induction l as [|x l IH]; cbn; [done|]. intuition lia. Qed.

Lemma ascending_snoc x l p : ascending x l -> x <= p -> upto l p -> ascending x (l ++ [p]).
Proof.
  revert x. induction l as [|y l IH]; intros x; cbn; [done|].
  intros [Hxy Hl] Hp (Hy & _ & Hu). auto.
Qed.

Lemma upto_snoc l p q : upto l p -> p <= q -> upto (l ++ [q]) q.
Proof.
  intros Hu Hpq. apply (upto_le _ _ _ Hpq) in Hu. induction l as [|x l IH]; cbn in *; [lia|].
  destruct Hu as (Hx & Ha & Hu). split; [done|]. split; [apply ascending_snoc; done|auto].
Qed.

Section Inv.
Context {M S : Type} `{EventRingLaws M} `{EventStreamLaws S}.
(** [K]: all the samples there are. *)
Context (main : nat) (K : list Z).

Abbreviation ostate := (@ost M S).
Abbreviation source_ev := (@hev M S).
Abbreviation pop := (popped main).

(** The events of a stream that the heap orders. *)
Definition stream_times (st : S) : list Z :=
  r_time <$> filter (fun r => r_type r = PERF_RECORD_SAMPLE \/ r_type r = PERF_RECORD_ORDER_TIME)
    (stream_left st).

(** A source, [p] being the popped time.  What is at the head of a ring buffer
    in the heap is before [p] only if [p] is the time of the last event of this
    ring buffer; a stream goes on from [p]. *)
Definition src_ok (p : Z) (inheap : bool) (h : source_ev) : Prop :=
  match h_src h with
  | PerfMmap x =>
      event_mono_time x <= p /\
      (inheap = true -> headed h /\ (p <= h_time h \/ event_mono_time x = p))
  | Stream x =>
      ascending p ((if inheap || h_unconsumed h then [h_time h] else []) ++ stream_times (stream x)) /\
      (inheap || h_unconsumed h = true -> headed h) /\ (inheap = true -> h_unconsumed h = false)
  end.

Definition is_stream (h : source_ev) : bool := match h_src h with Stream _ => true | PerfMmap _ => false end.

(** The samples of a source that were not handed to a device yet. *)
Definition owed (inheap : bool) (h : source_ev) : list Z :=
  match h_src h with
  | PerfMmap x => (if inheap then head_tags h else []) ++ rtags (ring_left (map x))
  | Stream x => (if inheap || h_unconsumed h then head_tags h else []) ++ rtags (stream_left (stream x))
  end.

Fixpoint owed_from (n : nat) (E : list nat) (l : list source_ev) : list Z :=
  match l with [] => [] | h :: l => owed (bool_decide (n ∈ E)) h ++ owed_from (Datatypes.S n) E l end.
Definition owed_all (E : list nat) (s : ostate) : list Z := owed_from 0 E (hevs s).

(** [E] are the sources in the heap; no source has [fuel] events left. *)
Record inv (fuel : nat) (E : list nat) (s : ostate) : Prop := Inv {
  inv_main : (main < length (devs s))%nat;
  inv_src i h : hevs s !! i = Some h ->
    (h_dev h < length (devs s))%nat /\ (lefts h < fuel)%nat /\ src_ok (pop s) (bool_decide (i ∈ E)) h;
  inv_E i : i ∈ E -> (i < length (hevs s))%nat;
  inv_nodup : NoDup E;
  inv_trace : upto (samples (trace s)) (pop s);
  inv_all : stags (trace s) ++ owed_all E s ≡ₚ K
}.

Definition streams_in (E : list nat) (s : ostate) : Prop :=
  forall i h, hevs s !! i = Some h -> is_stream h = true -> i ∈ E.

Lemma src_ok_raise p p' b h : src_ok p b h -> p <= p' -> (b = true -> p' <= h_time h) ->
  (is_stream h = true -> b = true) -> src_ok p' b h.
Proof using.
  unfold src_ok, is_stream. destruct (h_src h) as [x|x]; intros Hok Hp Ht Hs.
  - destruct Hok as [Hm Hb]. split; [lia|]. intros ->. destruct Hb as [Hh _]; [done|]. auto.
  - specialize (Hs eq_refl). subst b. cbn in *. destruct Hok as [[Ha Hl] Hb]. auto.
Qed.

Lemma owed_same n E E' (l : list source_ev) :
  (forall j, (n <= j)%nat -> j ∈ E' <-> j ∈ E) -> owed_from n E' l = owed_from n E l.
Proof using.
  revert n. induction l as [|h l IH]; intros n HE; [done|]. cbn.
  assert (n ∈ E' <-> n ∈ E) as Hn by (apply HE; lia).
  rewrite (bool_decide_ext _ _ Hn), (IH (Datatypes.S n)); [done|].
  intros j Hj. apply HE. lia.
Qed.

Lemma inv_perm fuel E E' s : E ≡ₚ E' -> inv fuel E s -> inv fuel E' s.
Proof using.
  intros HE [A1 A2 A3 A4 A5 A6].
  assert (forall i, i ∈ E <-> i ∈ E') as Hel by (intros i; rewrite HE; done).
  split; try done.
  - intros i h Hi. rewrite <- (bool_decide_ext _ _ (Hel i)). auto.
  - intros i. rewrite <- HE. auto.
  - rewrite <- HE. done.
  - unfold owed_all. rewrite (owed_same 0 E E'); [done|]. intros j _. rewrite HE. done.
Qed.

Lemma streams_perm E E' s : E ≡ₚ E' -> streams_in E s -> streams_in E' s.
Proof using. intros HE Hs i h Hi Hst. rewrite <- HE. eauto. Qed.

Lemma step_insert i p t h h' (s s' : ostate) : step main i p t s s' ->
  hevs s !! i = Some h -> hevs s' !! i = Some h' -> hevs s' = <[i := h']> (hevs s).
Proof using.
  intros Hs Hi Hi'. apply list_eq. intros j. destruct (decide (j = i)) as [->|Hj].
  - rewrite Hi', list_lookup_insert_eq; [done|]. eapply lookup_lt_Some; done.
  - rewrite list_lookup_insert_ne by done. apply Hs. done.
Qed.

Lemma owed_insert n E E' (l : list source_ev) i h h' (t : list Z) : l !! i = Some h ->
  (forall j, j <> (n + i)%nat -> j ∈ E' <-> j ∈ E) ->
  t ++ owed (bool_decide ((n + i)%nat ∈ E')) h' ≡ₚ owed (bool_decide ((n + i)%nat ∈ E)) h ->
  t ++ owed_from n E' (<[i := h']> l) ≡ₚ owed_from n E l.
Proof using.
  revert n i. induction l as [|a l IH]; intros n [|i] Hi HE Ho; try done.
  - injection Hi as ->. rewrite Nat.add_0_r in *. cbn. rewrite app_assoc, Ho.
    rewrite (owed_same (Datatypes.S n) E E'); [done|]. intros j Hj. apply HE. lia.
  - cbn. replace (n + Datatypes.S i)%nat with (Datatypes.S n + i)%nat in * by lia.
    rewrite <- (IH (Datatypes.S n) i Hi HE Ho). rewrite !app_assoc.
    assert (n ∈ E' <-> n ∈ E) as Hn by (apply HE; lia).
    rewrite (bool_decide_ext _ _ Hn), (Permutation_app_comm t). done.
Qed.

(** Source [i] changes, the popped time moves from [pop s] to [p]; a sample that
    the source no longer has was handed over. *)
Lemma inv_step fuel E E' i p t h h' (s s' : ostate) :
  inv fuel E s -> step main i p t s s' -> hevs s !! i = Some h -> hevs s' !! i = Some h' ->
  h_dev h' = h_dev h -> (lefts h' < fuel)%nat ->
  NoDup E' -> (forall j, j <> i -> j ∈ E' <-> j ∈ E) -> pop s <= p ->
  (forall j hj, j <> i -> hevs s !! j = Some hj -> src_ok p (bool_decide (j ∈ E)) hj) ->
  src_ok p (bool_decide (i ∈ E')) h' -> upto (samples (trace s) ++ samples t) p ->
  stags t ++ owed (bool_decide (i ∈ E')) h' ≡ₚ owed (bool_decide (i ∈ E)) h ->
  inv fuel E' s'.
Proof using.
  intros [A1 A2 A3 A4 A5 A6] Hs Hi Hi' Hd Hl HN HE Hp Ho Hok Ht Hw.
  pose proof (step_devs_length _ _ _ _ _ _ Hs) as Ld. pose proof (st_popped _ _ _ _ _ _ Hs) as Hp'.
  split; [lia| | |done| |].
  - intros j hj Hj. rewrite Ld, Hp'. destruct (decide (j = i)) as [->|Hne].
    + rewrite Hi' in Hj. injection Hj as <-. destruct (A2 _ _ Hi) as (B1 & B2 & B3).
      split_and!; [congruence|lia|done].
    + rewrite (st_other _ _ _ _ _ _ Hs j Hne) in Hj. destruct (A2 _ _ Hj) as (B1 & B2 & B3).
      split_and!; [done|done|]. rewrite (bool_decide_ext _ _ (HE j Hne)). auto.
  - intros j Hj. rewrite (step_insert _ _ _ _ _ _ _ Hs Hi Hi'), length_insert.
    destruct (decide (j = i)) as [->|Hne]; [eapply lookup_lt_Some; done|]. apply A3, HE; done.
  - rewrite (st_trace _ _ _ _ _ _ Hs), samples_app, Hp'. done.
  - rewrite (st_trace _ _ _ _ _ _ Hs), stags_app, <- app_assoc, <- A6. apply Permutation_app_head.
    unfold owed_all. rewrite (step_insert _ _ _ _ _ _ _ Hs Hi Hi'). eapply owed_insert; done.
Qed.

(** ** The heap *)

#[export] Instance less_than_weak (s : ostate) : StrictWeak (less_than s) := MinHeap.key_strict_weak (time_of s).

Abbreviation held s := (MinHeap.elems (heap s)).

Definition run_inv (fuel : nat) (s : ostate) : Prop :=
  inv fuel (held s) s /\ MinHeap.heap_wf 8 (heap s) /\ MinHeap.ordered (less_than s) (heap s) /\
  (hp_size (heap s) <= length (hp_data (heap s)))%nat.

(** Which sources are streams; [total] events are left. *)
Definition kinds (s : ostate) : list bool := is_stream <$> hevs s.
Definition total (s : ostate) : nat := sum_list (lefts <$> hevs s).

(** The passes that are left, at most. *)
Definition measure (s : ostate) : nat := (total s + hp_nr (heap s))%nat.

Lemma kinds_frame (s s' : ostate) : hevs s' = hevs s -> kinds s' = kinds s /\ total s' = total s.
Proof using. unfold kinds, total. intros ->. done. Qed.

Lemma kinds_step i p t h h' (s s' : ostate) : step main i p t s s' ->
  hevs s !! i = Some h -> hevs s' !! i = Some h' -> is_stream h' = is_stream h -> kinds s' = kinds s.
Proof using.
  intros Hs Hi Hi' Hk. unfold kinds. rewrite (step_insert _ _ _ _ _ _ _ Hs Hi Hi'), list_fmap_insert.
  apply list_insert_id. rewrite list_lookup_fmap, Hi, Hk. done.
Qed.

Lemma sum_insert (l : list source_ev) i h h' : l !! i = Some h ->
  (sum_list (lefts <$> <[i := h']> l) + lefts h = sum_list (lefts <$> l) + lefts h')%nat.
Proof using.
  revert i. induction l as [|a l IH]; intros [|i] Hi; try done.
  - injection Hi as ->. cbn. lia.
  - specialize (IH i Hi). change (<[Datatypes.S i := h']> (a :: l)) with (a :: <[i := h']> l).
    rewrite !fmap_cons. change (sum_list (?x :: ?k)) with (x + sum_list k)%nat. lia.
Qed.

Lemma less_than_frame (s s' : ostate) : hevs s' = hevs s -> less_than s' = less_than s.
Proof using. intros E. unfold less_than, time_of. rewrite E. done. Qed.

Lemma ordered_times (s s' : ostate) hp : (forall j, time_of s' j = time_of s j) ->
  MinHeap.ordered (less_than s) hp -> MinHeap.ordered (less_than s') hp.
Proof using.
  intros Ht Ho k Hk c x y Hc Hcn Hx Hy. unfold less_than. rewrite !Ht. eapply (Ho k Hk c); done.
Qed.

Lemma inv_set_heap fuel E h (s : ostate) : inv fuel E s -> inv fuel E (set_heap s h).
Proof using. intros [A1 A2 A3 A4 A5 A6]. split; done. Qed.

Lemma inv_quiet fuel E i t (s s' : ostate) :
  inv fuel E s -> step main i (pop s) t s s' -> hevs s' = hevs s -> samples t = [] -> inv fuel E s'.
Proof using.
  intros [A1 A2 A3 A4 A5 A6] Hs Eh Et. pose proof (step_devs_length _ _ _ _ _ _ Hs) as Ld.
  pose proof (st_popped _ _ _ _ _ _ Hs) as Hp.
  split; rewrite ?Eh, ?Ld, ?Hp; try done; rewrite (st_trace _ _ _ _ _ _ Hs).
  - rewrite samples_app, Et, app_nil_r. done.
  - rewrite stags_app, (stags_nil _ Et), app_nil_r. unfold owed_all. rewrite Eh. done.
Qed.

(** Nothing but the source at the root changed. *)
Lemma root_changed i p t (s s' : ostate) :
  step main i p t s s' -> NoDup (held s) -> MinHeap.heap_wf 8 (heap s) ->
  MinHeap.ordered (less_than s) (heap s) -> MinHeap.min_heap_peek (heap s) = Some i ->
  MinHeap.heap_from (less_than s') (hp_data (heap s)) (hp_nr (heap s)) 1.
Proof using.
  intros Hs HN [Hlen _] Ho Hpk k Hk c x y Hc Hcn Hx Hy.
  pose proof (MinHeap.parent_lt c ltac:(lia)) as Hpc. rewrite Hc in Hpc.
  unfold MinHeap.min_heap_peek in Hpk. destruct (hp_nr (heap s)) as [|n] eqn:En; [done|].
  assert (forall j z, (0 < j < Datatypes.S n)%nat -> hp_data (heap s) !! j = Some z ->
    time_of s' z = time_of s z) as Hsame.
  { intros j z Hj Hz. unfold time_of. rewrite (st_other _ _ _ _ _ _ Hs z); [done|]. intros ->.
    assert (j = O); [|lia]. unfold MinHeap.elems in HN. rewrite En in HN.
    eapply NoDup_lookup; [exact HN| |]; apply lookup_take_Some; eauto with lia. }
  unfold less_than. rewrite (Hsame k x), (Hsame c y) by (done || lia).
  eapply (Ho k); [lia|done|lia|done|done].
Qed.

Lemma root_min i j (s : ostate) : MinHeap.heap_wf 8 (heap s) -> MinHeap.ordered (less_than s) (heap s) ->
  MinHeap.min_heap_peek (heap s) = Some i -> j ∈ held s -> time_of s i <= time_of s j.
Proof using.
  intros Hw Ho Hpk Hj. pose proof (MinHeap.peek_min (less_than s) 8 (heap s) i Hw Ho Hpk) as Hall.
  eapply list.Forall_forall in Hall; [|done]. apply Z.ltb_ge in Hall. done.
Qed.

Lemma root_held i (s : ostate) : MinHeap.min_heap_peek (heap s) = Some i -> i ∈ held s.
Proof using.
  unfold MinHeap.min_heap_peek, MinHeap.elems. destruct (hp_nr (heap s)) as [|n]; [done|].
  destruct (hp_data (heap s)) as [|a l]; [done|]. cbn. intros [= ->]. apply list_elem_of_here.
Qed.

Lemma time_of_hev i h (s : ostate) : hevs s !! i = Some h -> time_of s i = h_time h.
Proof using. unfold time_of. intros ->. done. Qed.

(** The other sources when the root is processed: the popped time moves to the
    root's time if that is not before it, and stays otherwise. *)
Lemma others_ok fuel i h p j hj (s : ostate) :
  run_inv fuel s -> streams_in (held s) s -> MinHeap.min_heap_peek (heap s) = Some i ->
  hevs s !! i = Some h -> pop s <= p -> (p = pop s \/ p = h_time h) ->
  hevs s !! j = Some hj -> src_ok p (bool_decide (j ∈ held s)) hj.
Proof using.
  intros (Hinv & Hw & Ho & Hz) Hst Hpk Hi Hp Hcase Hj. destruct (inv_src _ _ _ Hinv _ _ Hj) as (_ & _ & Hok).
  destruct Hcase as [-> | ->]; [done|]. eapply src_ok_raise; [done|done| |].
  - intros HE%bool_decide_eq_true_1. pose proof (root_min i j s Hw Ho Hpk HE) as Hr.
    rewrite (time_of_hev _ _ _ Hi), (time_of_hev _ _ _ Hj) in Hr. done.
  - intros Hs. apply bool_decide_eq_true_2. eauto.
Qed.

End Inv.
