(* ===== verification/OrderPass.v ===== *)
(** * One pass of the ordering keeps its invariant *)

From S2P Require Import Prelude MinHeap SampleLayout Clock Order OrderProof OrderInv.
Import Order.

Section Advance.
Context {M S : Type} `{EventRingLaws M} `{EventStreamLaws S}.
Context (main : nat) (K : list Z).

Abbreviation ostate := (@ost M S).
Abbreviation stp := (step main).
Abbreviation pop := (popped main).
Abbreviation held s := (MinHeap.elems (heap s)).

(** The event at the root of the heap was processed: the state [s'] before the
    heap is updated. *)
Record advance (fuel : nat) (i : nat) (p : Z) (t : list out) (h h' : @hev M S) (s s' : ostate) : Prop := Advance {
  ad_run : run_inv main K fuel s;
  ad_streams : streams_in (held s) s;
  ad_peek : MinHeap.min_heap_peek (heap s) = Some i;
  ad_step : stp i p t s s';
  ad_old : hevs s !! i = Some h;
  ad_new : hevs s' !! i = Some h';
  ad_dev : h_dev h' = h_dev h;
  ad_left : (lefts h' <= lefts h)%nat;
  ad_kind : is_stream h' = is_stream h;
  ad_le : pop s <= p;
  ad_time : p = pop s \/ p = h_time h;
  ad_samples : samples t = [] \/ samples t = [p]
}.

Lemma advance_keeps fuel i p t h h' (s s' : ostate) E : advance fuel i p t h h' s s' ->
  NoDup E -> (forall j, j <> i -> j ∈ E <-> j ∈ held s) -> src_ok p (bool_decide (i ∈ E)) h' ->
  stags t ++ owed (bool_decide (i ∈ E)) h' ≡ₚ owed true h ->
  inv main K fuel E s'.
Proof using.
  intros Ad HN HE Hok Hw. pose proof (ad_run _ _ _ _ _ _ _ _ Ad) as (Hinv & _).
  destruct Ad as [A1 A2 A3 A4 A5 A6 A7 A8 A9 A10 A11 A12].
  eapply inv_step; try done.
  - destruct (inv_src _ _ _ _ _ Hinv _ _ A5) as (_ & Hf & _). lia.
  - intros j hj _ Hj. eapply others_ok; done.
  - pose proof (inv_trace _ _ _ _ _ Hinv) as Hu. destruct A12 as [-> | ->].
    + rewrite app_nil_r. eapply upto_le; done.
    + eapply upto_snoc; done.
  - rewrite (bool_decide_true (i ∈ held s)); [done|]. apply root_held. done.
Qed.

Lemma advance_streams fuel i p t h h' (s s' : ostate) E : advance fuel i p t h h' s s' ->
  (forall j, j <> i -> j ∈ E <-> j ∈ held s) -> (is_stream h = true -> i ∈ E) -> streams_in E s'.
Proof using.
  intros [A1 A2 A3 A4 A5 A6 A7 A8 A9 A10 A11 A12] HE HiE j hj Hj Hs.
  destruct (decide (j = i)) as [->|Hne].
  - rewrite A6 in Hj. injection Hj as <-. rewrite A9 in Hs. auto.
  - rewrite (st_other _ _ _ _ _ _ A4 j Hne) in Hj. apply HE; [done|]. eapply A2; done.
Qed.

Lemma advance_measure fuel i p t h h' (s s' : ostate) : advance fuel i p t h h' s s' ->
  (sum_list (lefts <$> hevs s') + lefts h = sum_list (lefts <$> hevs s) + lefts h')%nat.
Proof using.
  intros [A1 A2 A3 A4 A5 A6 A7 A8 A9 A10 A11 A12].
  rewrite (step_insert main _ _ _ _ _ _ _ A4 A5 A6). apply sum_insert. done.
Qed.

Lemma advance_kinds fuel i p t h h' (s s' : ostate) : advance fuel i p t h h' s s' -> kinds s' = kinds s.
Proof using. intros Ad. eapply kinds_step; apply Ad. Qed.

Lemma advance_loose fuel i p t h h' (s s' : ostate) : advance fuel i p t h h' s s' ->
  MinHeap.heap_wf 8 (heap s') /\
  MinHeap.heap_from (less_than s') (hp_data (heap s')) (hp_nr (heap s')) 1 /\
  MinHeap.min_heap_peek (heap s') = Some i /\ heap s' = heap s /\ (0 < hp_nr (heap s'))%nat /\
  NoDup (held s) /\ (hp_size (heap s') <= length (hp_data (heap s')))%nat.
Proof using.
  intros [(Hinv & Hw & Ho & Hz) A2 A3 A4 A5 A6 A7 A8 A9 A10 A11 A12].
  rewrite (st_heap _ _ _ _ _ _ A4). pose proof (inv_nodup _ _ _ _ _ Hinv) as HN.
  split_and!; try done.
  - eapply root_changed; done.
  - unfold MinHeap.min_heap_peek in A3. destruct (hp_nr (heap s)); [done|lia].
Qed.

(** The root stays in the heap, with its next event. *)
Lemma advance_sift fuel i p t h h' (s s' : ostate) Q : advance fuel i p t h h' s s' ->
  src_ok p true h' -> stags t ++ owed true h' ≡ₚ owed true h -> (lefts h' < lefts h)%nat ->
  (forall s2, run_inv main K fuel s2 -> streams_in (held s2) s2 -> (measure s2 < measure s)%nat ->
     hevs s2 = hevs s' -> Q tt s2) ->
  wp sift_root s' Q.
Proof using.
  intros Ad Hok Hwd Hl HQ. destruct (advance_loose _ _ _ _ _ _ _ _ Ad) as (Hw & Hf & Hpk & Hh & Hnr & HN & Hz).
  pose proof (MinHeap.sift_root_spec (less_than s') 8 ltac:(lia) (heap s') Hw Hnr Hf)
    as (B1 & B2 & B3 & B4 & B5 & B6). apply wp_modify.
  set (hp := MinHeap.min_heap_sift_down _ _ _ _) in *. clearbody hp. rewrite Hh in B2.
  assert (forall j, j <> i -> j ∈ MinHeap.elems hp <-> j ∈ held s) as HE by (intros j _; rewrite B2; done).
  assert (i ∈ MinHeap.elems hp) as Hi by (rewrite B2; apply root_held; congruence).
  apply HQ.
  - split; [|cbn; split_and!; [done|done|lia]]. apply inv_set_heap. eapply advance_keeps; [exact Ad|rewrite B2; done|exact HE| |];
      rewrite bool_decide_true; done.
  - eapply (advance_streams _ _ _ _ _ _ s s'); done.
  - unfold measure, total. cbn. rewrite B4, Hh. pose proof (advance_measure _ _ _ _ _ _ _ _ Ad). lia.
  - done.
Qed.

(** The root leaves the heap. *)
Lemma advance_pop fuel i p t h h' (s s' : ostate) Q : advance fuel i p t h h' s s' ->
  src_ok p false h' -> stags t ++ owed false h' ≡ₚ owed true h ->
  (forall s2, run_inv main K fuel s2 -> (is_stream h = false -> streams_in (held s2) s2) ->
     (measure s2 < measure s)%nat -> hevs s2 = hevs s' -> devs s2 = devs s' -> Q tt s2) ->
  wp pop_root s' Q.
Proof using.
  intros Ad Hok Hwd HQ. destruct (advance_loose _ _ _ _ _ _ _ _ Ad) as (Hw & Hf & Hpk & Hh & Hnr & HN & Hz).
  pose proof (MinHeap.pop_root_spec (less_than s') 8 ltac:(lia) (heap s') i Hw Hf Hpk)
    as (hp & E & B1 & B2 & B3 & B4 & B5 & B6). apply wp_modify. rewrite E. cbn [fst]. rewrite Hh in B2, B4.
  rewrite B2 in HN. apply list.NoDup_cons in HN as [Hni HN].
  assert (forall j, j <> i -> j ∈ MinHeap.elems hp <-> j ∈ held s) as HE.
  { intros j Hj. rewrite B2, elem_of_cons. split; [auto|]. intros [->|?]; done. }
  apply HQ.
  - split; [|cbn; split_and!; [done|done|lia]]. apply inv_set_heap. eapply advance_keeps; [exact Ad|done|exact HE| |];
      rewrite bool_decide_false; done.
  - intros Hs. eapply (advance_streams _ _ _ _ _ _ s s'); [exact Ad|exact HE|congruence].
  - unfold measure, total. cbn. pose proof (advance_measure _ _ _ _ _ _ _ _ Ad).
    pose proof (ad_left _ _ _ _ _ _ _ _ Ad). lia.
  - done.
  - done.
Qed.
End Advance.

Section Pass.
Context {M S : Type} `{EventRingLaws M} `{EventStreamLaws S}.
Context (ktimes : nat -> Z) (main : nat) (K : list Z) (g : Clock.scaling) (clk : Clock.clock_dev) (nr_streams : Z).
Context (Hclk : heap_converts clk nr_streams = false) (Hev : ev_total g clk nr_streams).

Abbreviation ostate := (@ost M S).
Abbreviation stp := (step main).
Abbreviation pop := (popped main).
Abbreviation held s := (MinHeap.elems (heap s)).

Definition pass_post (fuel : nat) (s : ostate) (go : bool) (s' : ostate) : Prop :=
  run_inv main K fuel s' /\ kinds s' = kinds s /\ (go = true -> streams_in (held s') s' /\ (measure s' < measure s)%nat).

Lemma run_inv_quiet fuel i t (s s' : ostate) :
  run_inv main K fuel s -> stp i (pop s) t s s' -> hevs s' = hevs s -> samples t = [] ->
  run_inv main K fuel s' /\ held s' = held s /\ measure s' = measure s /\ kinds s' = kinds s.
Proof using.
  intros (Hinv & Hw & Ho & Hz) Hs Eh Et. pose proof (st_heap _ _ _ _ _ _ Hs) as Ehp.
  destruct (kinds_frame _ _ Eh) as [Kd Td]. split; [|unfold measure; rewrite Ehp, Td; done]. split; [|rewrite Ehp; split_and!; [done| |done]].
  - rewrite Ehp. eapply inv_quiet; done.
  - rewrite (less_than_frame _ _ Eh). done.
Qed.

Lemma streams_frame E (s s' : ostate) : hevs s' = hevs s -> streams_in E s -> streams_in E s'.
Proof using. unfold streams_in. intros ->. done. Qed.

Lemma wp_mmap_head i h x (s : ostate) :
  hevs s !! i = Some h -> h_src h = PerfMmap x -> headed h -> (h_dev h < length (devs s))%nat ->
  wp (mmap_head g clk nr_streams true i) s (fun res s' =>
    exists r h' x', let time := Z.max (h_time h) (event_mono_time x) in
      res.1 = (Some r, time) /\ r_type r = PERF_RECORD_SAMPLE /\ r_time r = time /\
      stp i (pop s) [] s s' /\ hevs s' !! i = Some h' /\ h_src h' = PerfMmap x' /\
      event_mono_time x' = time /\ map x' = map x /\ h_dev h' = h_dev h /\ sample_tag r = head_tags h).
Proof using Hclk.
  intros Hi Hx (r & Hr & Hrt & Ht) Hd. rewrite Hx in Ht. destruct Ht as [Ht _]. unfold mmap_head.
  apply wp_bind, (wp_get_mm i h x); [done|done|]. cbn beta iota.
  destruct (Z.ltb_spec (h_time h) (event_mono_time x)).
  - apply wp_bind. eapply wp_fix; [done|done|done|done|]. intros s' Hs Hi'. apply wp_ret.
    rewrite Z.max_r by lia. eexists _, _, x. split_and!; try done. unfold head_tags. rewrite Hr. done.
  - apply wp_bind, wp_modify, wp_ret. rewrite Z.max_l by lia.
    exists r, (set_mm h (set_mono x (h_time h))), (set_mono x (h_time h)). rewrite Hr.
    split_and!; try done; [apply step_put_hev|eapply lookup_inserted; done|unfold head_tags; rewrite Hr; done].
Qed.

Lemma wp_mmap_next fuel i p t h h' x x' next lost (s s' : ostate) :
  advance main K fuel i p t h h' s s' -> h_src h' = PerfMmap x' -> event_mono_time x' = p ->
  stags t = head_tags h -> next_ok next x x' -> h_src h = PerfMmap x ->
  wp (mmap_next g clk nr_streams i (h_dev h) next lost) s' (fun _ s2 => pass_post fuel s true s2).
Proof using Hclk Hev.
  intros Ad Hx' Hm Hg Hn Hx. pose proof (ad_run _ _ _ _ _ _ _ _ _ _ Ad) as (Hinv & _).
  pose proof (ad_old _ _ _ _ _ _ _ _ _ _ Ad) as Hi. pose proof (ad_new _ _ _ _ _ _ _ _ _ _ Ad) as Hi'.
  pose proof (ad_step _ _ _ _ _ _ _ _ _ _ Ad) as Hs.
  unfold mmap_next. destruct next as [[r w]|].
  - destruct Hn as (Ht & Hl & Hla & Htg). apply wp_bind. rewrite (heapclock_id _ _ _ Hclk). apply wp_lift.
    apply wp_bind, (wp_get_hev i h'); [done|]. apply wp_bind, wp_modify.
    set (h2 := set_event h' r (r_time r) w). set (s1 := set_hevs s' (<[i := h2]> (hevs s'))).
    assert (advance main K fuel i p t h h2 s s1) as Ad2.
    { destruct Ad as [A1 A2 A3 A4 A5 A6 A7 A8 A9 A10 A11 A12]. split; try done.
      - eapply step_then_put; done.
      - eapply lookup_inserted; done. }
    apply wp_bind. eapply advance_sift; [exact Ad2| | |unfold lefts; cbn; rewrite Hx, Hx'; exact Hl|].
    { unfold src_ok. cbn. rewrite Hx'. split; [lia|]. intros _. split; [|auto].
      exists r. cbn. rewrite Hx'. eauto 10. }
    { unfold owed. cbn. rewrite Hg, Hx, Hx', Htg. done. }
    intros s2 Hrun Hst Hmeas Eh.
    eapply wp_mono; [eapply (wp_report_lost main _ _ _ Hev i h2 x'); [rewrite Eh; eapply lookup_inserted; done|done]|].
    intros _ s3 (t3 & S3 & E3 & Et3). destruct (run_inv_quiet _ _ _ _ _ Hrun S3 E3 Et3) as (R1 & R2 & R3 & R4).
    destruct (kinds_frame _ _ Eh) as [K2 _]. pose proof (advance_kinds _ _ _ _ _ _ _ _ _ _ Ad2) as K1.
    split_and!; [done|congruence|]. intros _. rewrite R2, R3. split; [eapply streams_frame; done|done].
  - apply wp_bind. eapply advance_pop; [exact Ad| | |].
    { unfold src_ok. rewrite Hx'. split; [lia|done]. }
    { destruct Hn as [_ Htg]. unfold owed. rewrite Hg, Hx, Hx', Htg. done. }
    intros s2 Hrun Hst Hmeas Eh Ed.
    apply wp_bind, (wp_add_ref main i).
    { rewrite Ed, (step_devs_length _ _ _ _ _ _ Hs). apply (inv_src _ _ _ _ _ Hinv _ _ Hi). }
    intros s3 S3 E3. apply wp_ret.
    destruct (run_inv_quiet _ _ _ _ _ Hrun S3 E3 eq_refl) as (R1 & R2 & R3 & R4).
    destruct (kinds_frame _ _ Eh) as [K2 _]. pose proof (advance_kinds _ _ _ _ _ _ _ _ _ _ Ad) as K1.
    split_and!; [done|congruence|]. intros _. rewrite R2, R3. split; [|done].
    eapply streams_frame; [done|]. apply Hst.
    rewrite <- (ad_kind _ _ _ _ _ _ _ _ _ _ Ad). unfold is_stream. rewrite Hx'. done.
Qed.

Lemma wp_mmap_process fuel i h x tm te lost (s : ostate) :
  run_inv main K fuel s -> streams_in (held s) s -> MinHeap.min_heap_peek (heap s) = Some i ->
  hevs s !! i = Some h -> h_src h = PerfMmap x ->
  wp (mmap_process main g clk nr_streams true fuel i tm te lost) s (fun res s' => pass_post fuel s res.2 s').
Proof using Hclk Hev.
  intros Hrun Hst Hpk Hi Hx. pose proof Hrun as (Hinv & _).
  pose proof (inv_main _ _ _ _ _ Hinv) as Hm.
  destruct (inv_src _ _ _ _ _ Hinv _ _ Hi) as (Hd & Hf & Hok).
  rewrite (bool_decide_true _ (root_held _ _ Hpk)) in Hok. unfold src_ok in Hok. rewrite Hx in Hok.
  destruct Hok as [Hmono Hhead]. destruct (Hhead eq_refl) as [Hh Htime]. clear Hhead.
  unfold mmap_process. apply wp_bind.
  eapply wp_mono; [apply (wp_mmap_head i h x); done|].
  intros [[ev time] w] s1 (r & h1 & x1 & Er & Ht & Hrt & S1 & Hi1 & Hx1 & Hm1 & Hmap & Hd1 & Hg1).
  cbn in Er. injection Er as -> ->. cbn beta iota.
  set (time := Z.max (h_time h) (event_mono_time x)) in *.
  assert (pop s <= time /\ (time = pop s \/ time = h_time h)) as [Hle Hcase] by lia.
  pose proof (step_devs_length _ _ _ _ _ _ S1) as L1. pose proof (st_popped _ _ _ _ _ _ S1) as P1.
  apply wp_bind, (wp_get_hev i h1); [done|].
  apply wp_bind, (wp_note_popped main i); [lia|lia|lia|]. intros s2 S2 E2.
  pose proof (step_devs_length _ _ _ _ _ _ S2) as L2.
  assert (stp i time [] s s2) as S12 by (apply (step_trans main i (pop s) time [] [] s s1 s2); done).
  assert (lefts h1 = lefts h) as Hl1 by (unfold lefts; rewrite Hx1, Hx, Hmap; done).
  apply wp_bind. eapply wp_mono; [apply (wp_consume_loop main fuel i h1 x1); try congruence|].
  { unfold lefts in Hf. rewrite Hx in Hf. unfold mm_left. rewrite Hmap. done. }
  intros [[next l] brk] s3 (t & x3 & U3 & Et & Eg & Hn). cbn [fst] in Hn. cbn beta iota.
  cbn in Et. rewrite decide_True, Hrt in Et by done. destruct U3 as [U1 U2 U3].
  rewrite (st_popped _ _ _ _ _ _ S12) in U1.
  assert (lefts (set_mm h1 x3) = mm_left x3) as Hl3 by done.
  assert (mm_left x1 = lefts h) as Hl by (unfold lefts, mm_left; rewrite Hx, Hmap; done).
  assert (advance main K fuel i time t h (set_mm h1 x3) s s3) as Ad.
  { split; try done.
    - apply (step_trans main i time time [] t s s2 s3); done.
    - rewrite Hl3, <- Hl. destruct next as [[]|]; cbn in Hn; lia.
    - unfold is_stream. rewrite Hx. done.
    - auto. }
  apply wp_bind. rewrite Hd1.
  eapply wp_mono; [apply (wp_mmap_next fuel i time t h (set_mm h1 x3) x x3 next l s s3 Ad)|].
  - done.
  - congruence.
  - rewrite Eg. done.
  - unfold next_ok, mm_left in *. rewrite Hmap in Hn. done.
  - done.
  - intros l' s4 (R1 & RK & R2). apply wp_ret. split_and!; auto.
Qed.

(** Source [i] keeps its place: only what the heap does not look at changes. *)
Lemma run_inv_same fuel i t h h' (s s' : ostate) :
  run_inv main K fuel s -> streams_in (held s) s -> stp i (pop s) t s s' -> samples t = [] ->
  hevs s !! i = Some h -> hevs s' !! i = Some h' ->
  h_dev h' = h_dev h -> lefts h' = lefts h -> h_time h' = h_time h -> is_stream h' = is_stream h ->
  (forall b, src_ok (pop s) b h -> src_ok (pop s) b h') -> (forall b, owed b h' = owed b h) ->
  run_inv main K fuel s' /\ heap s' = heap s /\ measure s' = measure s /\ kinds s' = kinds s /\
  streams_in (held s') s'.
Proof using.
  intros (Hinv & Hw & Ho & Hz) Hst Hs Et Hi Hi' Hd Hl Htm Hk Hok Hwd.
  pose proof (st_heap _ _ _ _ _ _ Hs) as Eh. rewrite Eh. split_and!.
  - unfold run_inv. rewrite Eh. split_and!; [|done| |done].
    + eapply (inv_step main K fuel _ _ i); try done.
      * rewrite Hl. apply (inv_src _ _ _ _ _ Hinv _ _ Hi).
      * apply Hinv.
      * intros j hj _ Hj. apply (inv_src _ _ _ _ _ Hinv _ _ Hj).
      * apply Hok. apply (inv_src _ _ _ _ _ Hinv _ _ Hi).
      * rewrite Et, app_nil_r. apply Hinv.
      * rewrite (stags_nil _ Et), Hwd. done.
    + eapply ordered_times; [|done]. intros j. unfold time_of. destruct (decide (j = i)) as [->|Hne].
      * rewrite Hi, Hi'. done.
      * rewrite (st_other _ _ _ _ _ _ Hs j Hne). done.
  - done.
  - unfold measure, total. rewrite Eh, (step_insert main _ _ _ _ _ _ _ Hs Hi Hi').
    pose proof (sum_insert (hevs s) i h h' Hi). lia.
  - eapply kinds_step; done.
  - intros j hj Hj Hsj. destruct (decide (j = i)) as [->|Hne].
    + apply (Hst _ _ Hi). congruence.
    + rewrite (st_other _ _ _ _ _ _ Hs j Hne) in Hj. eauto.
Qed.

Lemma wp_mmap_step fuel i h x tm te tt0 lost (s : ostate) :
  run_inv main K fuel s -> streams_in (held s) s -> MinHeap.min_heap_peek (heap s) = Some i ->
  hevs s !! i = Some h -> h_src h = PerfMmap x ->
  wp (mmap_step ktimes main g clk nr_streams true fuel i tm te tt0 lost) s
    (fun res s' => pass_post fuel s res.2 s').
Proof using Hclk Hev.
  intros Hrun Hst Hpk Hi Hx. unfold mmap_step.
  apply wp_bind, (wp_get_mm i h x); [done|done|]. cbn beta iota. destruct (tt0 <? h_time h).
  { apply wp_bind, (wp_quiet main i); [done|]. intros s1 S1 E1. apply wp_ret.
    destruct (run_inv_quiet _ _ _ _ _ Hrun S1 E1 eq_refl) as (R1 & _ & _ & RK). split; done. }
  pose proof Hrun as (Hinv & _). destruct (inv_src _ _ _ _ _ Hinv _ _ Hi) as (Hd & Hf & Hok).
  rewrite (bool_decide_true _ (root_held _ _ Hpk)) in Hok. unfold src_ok in Hok. rewrite Hx in Hok.
  destruct Hok as [_ Hhead]. destruct (Hhead eq_refl) as [(r & Hr & _) _]. clear Hhead.
  apply wp_bind. eapply wp_mono; [apply (wp_lost_detect ktimes main i h x r); done|].
  intros stop s1 (x1 & [U1 U2 U3] & Emap).
  destruct (run_inv_same fuel i [] h (set_mm h x1) s s1) as (R1 & R2 & R3 & RK & R4); try done.
  - unfold lefts. rewrite Hx. cbn. rewrite Emap. done.
  - unfold is_stream. rewrite Hx. done.
  - intros b. unfold src_ok, headed. rewrite Hx. cbn. rewrite U3, Emap. done.
  - intros b. unfold owed. rewrite Hx. cbn. rewrite Emap. done.
  - destruct stop; [apply wp_ret; split; done|].
    eapply wp_mono; [apply (wp_mmap_process fuel i (set_mm h x1) x1); try done; rewrite R2; done|].
    intros [l go] s2 (Q1 & QK & Q2). split_and!; [done|congruence|]. rewrite <- R3. done.
Qed.

(** ** A pass over a stream *)

(** What a stream will still give the heap. *)
Definition due (h : @hev M S) (x : @stev S) : list Z :=
  (if h_unconsumed h then [h_time h] else []) ++ stream_times (stream x).

(** Source [i] after the head of the stream was looked for. *)
Record st_after (i : nat) (h : @hev M S) (x : @stev S) (b : bool) (s s' : ostate) : Prop := StAfter {
  sa_step : exists t, stp i (pop s) t s s' /\ samples t = [];
  sa_head : exists h' x', hevs s' !! i = Some h' /\ h_src h' = Stream x' /\ h_dev h' = h_dev h /\
    h_unconsumed h' = false /\ due h x = (if b then [h_time h'] else []) ++ stream_times (stream x') /\
    (b = true -> headed h') /\ (lefts h' <= lefts h)%nat /\
    (b = true -> h_unconsumed h = false -> (lefts h' < lefts h)%nat) /\ owed b h' = owed false h
}.

Lemma stream_times_cons r st st' : stream_left st = r :: stream_left st' ->
  stream_times st = (if decide (r_type r = PERF_RECORD_SAMPLE \/ r_type r = PERF_RECORD_ORDER_TIME)
                     then [r_time r] else []) ++ stream_times st'.
Proof using. unfold stream_times. intros ->. rewrite filter_cons. case_decide; done. Qed.

Lemma wp_stream_init_loop fuel : forall i h x init (s : ostate),
  hevs s !! i = Some h -> h_src h = Stream x -> h_unconsumed h = false -> (lefts h < fuel)%nat ->
  wp (stream_init_loop fuel i init) s (fun b s' => st_after i h x b s s').
Proof using.
  induction fuel as [|fuel IH]; intros i h x init s Hi Hx Hu Hf; [lia|]. cbn [stream_init_loop].
  apply wp_bind, (wp_get_st i h x); [done|done|]. cbn beta iota.
  destruct (stream_read_event (stream x) init) as [st ev] eqn:Er.
  apply wp_bind, wp_modify. set (x1 := Stev st _ _). set (h1 := set_st h x1).
  set (s1 := set_hevs s (<[i := h1]> (hevs s))).
  assert (hevs s1 !! i = Some h1) as Hi1 by (eapply lookup_inserted; done).
  assert (stp i (pop s) [] s s1) as S1 by apply step_put_hev.
  assert (due h x = stream_times (stream x)) as Edue by (unfold due; rewrite Hu; done).
  destruct ev as [[[[r ins] w] c]|].
  - pose proof (stream_read_some _ _ _ _ _ _ _ Er) as El. pose proof (stream_times_cons _ _ _ El) as Et.
    assert (lefts h = Datatypes.S (length (stream_left st))) as Eh by (unfold lefts; rewrite Hx, El; done).
    case_decide as Hk.
    + rewrite bool_decide_true by done. cbn [negb]. apply wp_bind, (wp_get_hev i h1); [done|].
      apply wp_bind, wp_modify, wp_ret. split; [exists []; split; [eapply step_then_put; done|done]|].
      eexists _, x1. split; [eapply lookup_inserted; done|]. rewrite Edue, Et. unfold lefts at 1 3. cbn.
      unfold owed. cbn. rewrite Hx, Hu, El, rtags_cons.
      split_and!; try done; try lia. intros _. exists r. done.
    + rewrite bool_decide_false by done. cbn [negb]. apply wp_bind, (wp_process main i). intros s2 S2 E2.
      rewrite decide_False in S2 by auto.
      eapply wp_mono; [apply (IH i h1 x1 init); [congruence|done|done|cbn; lia]|].
      intros b s' [(t & S3 & Et3) (h' & x' & F1 & F2 & F3 & F4 & F5 & F6 & F7 & F8 & F9)]. split.
      * exists ([ORecord (h_dev h) r ins w c] ++ t).
        split; [eapply step_then; [|exact S3]; apply (step_then _ _ _ [] _ _ _ _ S1 S2)|].
        rewrite samples_app, Et3. done.
      * exists h', x'. assert (lefts h1 < lefts h)%nat by (rewrite Eh; cbn; lia).
        split_and!; try done; try lia.
        -- rewrite Edue, Et. rewrite <- F5. unfold due. cbn. rewrite Hu. done.
        -- rewrite F9. unfold owed. cbn. rewrite Hx, Hu, El, rtags_cons, sample_tag_false by auto. done.
  - apply wp_ret. split; [eauto|]. exists h1, x1.
    assert (stream_left st = stream_left (stream x)) as El by (eapply stream_read_none; done).
    split_and!; try done.
    + rewrite Edue. unfold stream_times. cbn. rewrite El. done.
    + unfold lefts. rewrite Hx. cbn. rewrite El. lia.
    + unfold owed. rewrite Hx. cbn. rewrite Hu, El. done.
Qed.

Lemma wp_stream_event_init fuel i h x init (s : ostate) :
  hevs s !! i = Some h -> h_src h = Stream x -> (lefts h < fuel)%nat ->
  (h_unconsumed h = true -> headed h) ->
  wp (stream_event_init fuel i init) s (fun b s' => st_after i h x b s s').
Proof using.
  intros Hi Hx Hf Hh. unfold stream_event_init. apply wp_bind, (wp_get_hev i h); [done|].
  destruct (h_unconsumed h) eqn:Hu; [|apply wp_stream_init_loop; done].
  apply wp_bind, wp_modify, wp_ret. split; [exists []; split; [apply step_put_hev|done]|].
  eexists _, x. split; [eapply lookup_inserted; done|]. unfold due, lefts, owed. rewrite Hu, Hx. cbn.
  split_and!; try done. intros _. specialize (Hh eq_refl). unfold headed in *. rewrite Hx in Hh. done.
Qed.

Lemma wp_stream_event_process fuel i h x (s : ostate) :
  run_inv main K fuel s -> streams_in (held s) s -> MinHeap.min_heap_peek (heap s) = Some i ->
  hevs s !! i = Some h -> h_src h = Stream x ->
  wp (stream_event_process ktimes main fuel i) s (fun more s' =>
    exists t h', advance main K fuel i (h_time h) t h h' s s' /\ src_ok (h_time h) more h' /\
      (more = true -> (lefts h' < lefts h)%nat) /\ stags t ++ owed more h' = owed true h).
Proof using.
  intros Hrun Hst Hpk Hi Hx. pose proof Hrun as (Hinv & _). pose proof (inv_main _ _ _ _ _ Hinv) as Hm.
  destruct (inv_src _ _ _ _ _ Hinv _ _ Hi) as (Hd & Hf & Hok).
  rewrite (bool_decide_true _ (root_held _ _ Hpk)) in Hok. unfold src_ok in Hok. rewrite Hx in Hok.
  cbn in Hok. destruct Hok as ((Hle & Hasc) & Hhead & Hu). specialize (Hu eq_refl).
  destruct (Hhead eq_refl) as (r & Hr & Hrt & _). unfold stream_event_process.
  apply wp_bind, (wp_get_st i h x); [done|done|]. cbn beta iota.
  apply wp_bind, (wp_note_popped main i); [done|done|done|]. intros s1 S1 E1. apply wp_bind. rewrite Hr.
  apply (wp_process main i). intros s2 S2 E2.
  set (t0 := if decide (r_type r = PERF_RECORD_SAMPLE) then _ else _) in S2.
  assert (samples t0 = [] \/ samples t0 = [h_time h]) as Ht0
    by (unfold t0; case_decide; cbn; rewrite ?Hrt; auto).
  assert (stags t0 = head_tags h) as Hg0 by (unfold t0, head_tags, sample_tag; rewrite Hr; case_decide; done).
  pose proof (step_then _ _ _ _ _ _ _ _ S1 S2) as S12. cbn [app] in S12. clear S2.
  apply wp_bind. eapply wp_mono.
  { apply (wp_stream_event_init fuel i h x); [congruence|done|done|congruence]. }
  intros more s3 [(t & S3 & Et) (h3 & x3 & F1 & F2 & F3 & F4 & F5 & F6 & F7 & F8 & F9)].
  pose proof (step_then _ _ _ _ _ _ _ _ S12 S3) as S13.
  assert (forall s4 x4, stp i (h_time h) (t0 ++ t) s s4 ->
    hevs s4 !! i = Some (set_st h3 x4) -> stream x4 = stream x3 ->
    exists t' h', advance main K fuel i (h_time h) t' h h' s s4 /\ src_ok (h_time h) more h' /\
      (more = true -> (lefts h' < lefts h)%nat) /\ stags t' ++ owed more h' = owed true h) as Hfin.
  { intros s4 x4 S4 Hi4 Hx4. exists (t0 ++ t), (set_st h3 x4).
    assert (lefts (set_st h3 x4) = lefts h3) as El by (unfold lefts; rewrite F2; cbn; rewrite Hx4; done).
    rewrite El. split_and!; [|unfold src_ok; cbn; rewrite F4, orb_false_r, Hx4|auto|].
    - split; try done; [lia|unfold is_stream; rewrite Hx; done|auto|].
      rewrite samples_app, Et, app_nil_r. done.
    - unfold due in F5. rewrite Hu in F5. cbn in F5. rewrite F5 in Hasc. split_and!; [done| |done].
      unfold headed in *. rewrite F2 in F6. auto.
    - rewrite stags_app, (stags_nil _ Et), app_nil_r, Hg0. unfold owed in F9 |- *. rewrite F2, Hx in F9.
      rewrite Hx. cbn in F9 |- *. rewrite Hx4. unfold head_tags in *. cbn. rewrite F9, Hu. done. }
  apply wp_bind, (wp_get_st i h3 x3); [done|done|]. cbn beta iota.
  pose proof (step_devs_length _ _ _ _ _ _ S13) as L3.
  assert (set_st h3 x3 = h3) as Eid by (destruct h3; cbn in F2; rewrite F2; done).
  destruct more; [destruct (empty_pause x3)|].
  - apply wp_bind, (wp_ktime main i). intros tn s4 S4 E4. apply wp_bind, wp_modify.
    pose proof (step_devs_length _ _ _ _ _ _ S4) as L4.
    apply wp_bind, (wp_add_stat main i); [cbn; lia|]. intros s5 S5 E5. apply wp_ret.
    eapply (Hfin _ (Stev (stream x3) (s_pause_start_time x3) false)); try done.
    + eapply step_then0; [|exact S5]. eapply step_then_put, step_then0; [exact S13|exact S4].
    + rewrite E5. eapply lookup_inserted. rewrite E4. exact F1.
  - apply wp_ret. eapply (Hfin s3 x3); try done. congruence.
  - apply wp_bind, (wp_ktime main i). intros tn s4 S4 E4. apply wp_bind, wp_modify.
    pose proof (step_devs_length _ _ _ _ _ _ S4) as L4.
    apply wp_bind, (wp_add_stat main i); [cbn; lia|]. intros s5 S5 E5. apply wp_ret.
    eapply (Hfin _ (Stev (stream x3) tn true)); try done.
    + eapply step_then0; [|exact S5]. eapply step_then_put, step_then0; [exact S13|exact S4].
    + rewrite E5. eapply lookup_inserted. rewrite E4. exact F1.
Qed.

Lemma wp_order_step fuel tm te tt0 lost (s : ostate) :
  run_inv main K fuel s -> streams_in (held s) s ->
  wp (order_step ktimes main g clk nr_streams true fuel tm te tt0 lost) s
    (fun res s' => pass_post fuel s res.2 s').
Proof using Hclk Hev.
  intros Hrun Hst. unfold order_step. apply wp_bind, wp_get_state.
  destruct (MinHeap.min_heap_peek (heap s)) as [i|] eqn:Hpk.
  2:{ apply wp_bind, (wp_quiet main 0); [done|]. intros s1 S1 E1. apply wp_ret.
      destruct (run_inv_quiet _ _ _ _ _ Hrun S1 E1 eq_refl) as (R1 & _ & _ & RK). split; done. }
  pose proof Hrun as (Hinv & _).
  destruct (lookup_lt_is_Some_2 (hevs s) i) as [h Hi].
  { apply (inv_E _ _ _ _ _ Hinv). apply root_held. done. }
  destruct (inv_src _ _ _ _ _ Hinv _ _ Hi) as (Hd & _).
  apply wp_bind, (wp_get_hev i h); [done|]. destruct (h_src h) as [x|x] eqn:Hx.
  { eapply wp_mmap_step; done. }
  apply wp_bind. eapply wp_mono; [apply (wp_stream_event_process fuel i h x); done|].
  intros more s1 (t & h' & Ad & Hok & Hl & Hwd%Permutation_refl'). destruct more.
  - apply wp_bind. eapply advance_sift; [exact Ad|done|done|auto|]. intros s2 R1 R2 R3 Eh. apply wp_ret.
    destruct (kinds_frame _ _ Eh) as [K2 _]. pose proof (advance_kinds _ _ _ _ _ _ _ _ _ _ Ad) as K1.
    split_and!; [done|congruence|done].
  - apply wp_bind. eapply advance_pop; [exact Ad|done|done|]. intros s2 R1 _ _ R4 R5.
    apply wp_bind, (wp_add_ref main i).
    { rewrite R5, (step_devs_length _ _ _ _ _ _ (ad_step _ _ _ _ _ _ _ _ _ _ Ad)). done. }
    intros s3 S3 E3. apply wp_bind, (wp_quiet main i); [done|]. intros s4 S4 E4. apply wp_ret.
    destruct (run_inv_quiet _ _ _ _ _ R1 S3 E3 eq_refl) as (Q1 & _ & _ & K3).
    destruct (run_inv_quiet _ _ _ _ _ Q1 S4 E4 eq_refl) as (Q2 & _ & _ & K4).
    destruct (kinds_frame _ _ R4) as [K2 _]. pose proof (advance_kinds _ _ _ _ _ _ _ _ _ _ Ad) as K1.
    split_and!; [done|congruence|done].
Qed.

(** The loop is left before its passes run out. *)
Lemma wp_order_loop n : forall fuel tm te tt0 lost (s : ostate),
  run_inv main K fuel s -> streams_in (held s) s ->
  wp (order_loop ktimes main g clk nr_streams true n fuel tm te tt0 lost) s
    (fun left s' => run_inv main K fuel s' /\ kinds s' = kinds s /\ ((measure s < n)%nat -> left = true)).
Proof using Hclk Hev.
  induction n as [|n IH]; intros fuel tm te tt0 lost s Hrun Hst; cbn [order_loop].
  - apply wp_ret. split_and!; [done|done|lia].
  - apply wp_bind. eapply wp_mono; [apply wp_order_step; done|].
    intros [l go] s1 (R1 & RK & R2). cbn in R2. destruct go; [|apply wp_ret; done].
    destruct (R2 eq_refl) as [R3 R4]. eapply wp_mono; [apply IH; done|].
    intros b s2 (Q1 & QK & Q2). split_and!; [done|congruence|]. intros Hn. apply Q2. lia.
Qed.

End Pass.
