(* ===== verification/OrderStart.v ===== *)
(** * The start and the end of a run of the ordering *)

From S2P Require Import Prelude MinHeap SampleLayout Clock Order OrderProof OrderInv OrderPass.
Import Order.

(** The sources of a device and of its children. *)
Fixpoint tree_events (t : dtree) : list nat :=
  match t with DNode events _ children => events ++ concat (tree_events <$> children) end.

(** A device with sources grows the heap for them. *)
Fixpoint tree_ok (t : dtree) : Prop :=
  match t with
  | DNode events heap_size children =>
      (events <> [] -> (0 < heap_size)%nat) /\ foldr (fun c P => tree_ok c /\ P) True children
  end.

Section Start.
Context {M S : Type} `{EventRingLaws M} `{EventStreamLaws S}.
Context (main : nat) (K : list Z) (g : Clock.scaling) (clk : Clock.clock_dev) (nr_streams : Z).
Context (Hclk : heap_converts clk nr_streams = false) (Hev : ev_total g clk nr_streams).

Abbreviation ostate := (@ost M S).
Abbreviation stp := (step main).
Abbreviation pop := (popped main).
Abbreviation held s := (MinHeap.elems (heap s)).

(** Before the heap is in order. *)
Definition start_inv (fuel : nat) (s : ostate) : Prop :=
  inv main K fuel (held s) s /\ (hp_nr (heap s) <= hp_size (heap s))%nat /\
  (hp_size (heap s) <= length (hp_data (heap s)))%nat.

(** The sources [l] were started; [r] is the result. *)
Record started (fuel : nat) (l : list nat) (s : ostate) (r : Z) (s' : ostate) : Prop := Started {
  sr_inv : start_inv fuel s';
  sr_kinds : kinds s' = kinds s;
  sr_total : (total s' <= total s)%nat;
  sr_old i : i ∈ held s -> i ∈ held s';
  sr_new i : i ∈ held s' -> i ∈ held s \/ i ∈ l;
  sr_streams i : r = 0 -> i ∈ l -> kinds s !! i = Some true -> i ∈ held s'
}.

Lemma started_app fuel l l' s1 s2 s3 r :
  started fuel l s1 0 s2 -> started fuel l' s2 r s3 -> started fuel (l ++ l') s1 r s3.
Proof using.
  intros [A1 A2 A3 A4 A5 A6] [B1 B2 B3 B4 B5 B6]. split; try done; try congruence; try lia; try auto.
  - intros i Hi. rewrite elem_of_app. destruct (B5 _ Hi) as [Hi'|]; [|auto].
    destruct (A5 _ Hi'); auto.
  - intros i Hr Hi Hk. apply elem_of_app in Hi as [Hi|Hi]; [auto|]. apply B6; [done|done|congruence].
Qed.

Lemma started_refl fuel s : start_inv fuel s -> started fuel [] s 0 s.
Proof using. intros Hs. split; auto. intros i _ Hi. inversion Hi. Qed.

(** Stopped early. *)
Lemma started_stop fuel l l' s1 s2 r : r <> 0 ->
  started fuel l s1 r s2 -> started fuel (l ++ l') s1 r s2.
Proof using.
  intros Hr [A1 A2 A3 A4 A5 A6]. split; try done.
  intros i Hi. rewrite elem_of_app. destruct (A5 _ Hi); auto.
Qed.

(** Source [i] was looked at; it has an event to sort if [b]. *)
Record looked (fuel : nat) (i : nat) (s : ostate) (b : bool) (s' : ostate) : Prop := Looked {
  lk_inv : inv main K fuel (if b then held s ++ [i] else held s) s';
  lk_heap : heap s' = heap s;
  lk_kinds : kinds s' = kinds s;
  lk_total : (total s' <= total s)%nat;
  lk_devs : length (devs s') = length (devs s)
}.

Lemma looked_step fuel i t b h h' (s s' : ostate) :
  start_inv fuel s -> i ∉ held s -> stp i (pop s) t s s' -> samples t = [] ->
  hevs s !! i = Some h -> hevs s' !! i = Some h' -> h_dev h' = h_dev h -> (lefts h' <= lefts h)%nat ->
  is_stream h' = is_stream h -> src_ok (pop s) b h' -> owed b h' = owed false h -> looked fuel i s b s'.
Proof using.
  intros (Hinv & _) Hn Hs Et Hi Hi' Hd Hl Hk Hok Hw.
  pose proof (inv_src _ _ _ _ _ Hinv _ _ Hi) as (_ & Hf & _).
  pose proof (inv_nodup _ _ _ _ _ Hinv) as HN.
  split; [|apply Hs| | |eapply step_devs_length; done].
  - eapply (inv_step main K fuel (held s) _ i); try done; try lia.
    + destruct b; [|done]. apply list.NoDup_app. split_and!; [done| |apply NoDup_singleton].
      intros j Hj ->%list_elem_of_singleton. done.
    + intros j Hj. destruct b; [|done]. rewrite elem_of_app, list_elem_of_singleton. split; [intros [? | ->]|]; auto; done.
    + intros j hj _ Hj. apply (inv_src _ _ _ _ _ Hinv _ _ Hj).
    + destruct b; [rewrite bool_decide_true|rewrite bool_decide_false]; try done.
      apply elem_of_app. right. apply list_elem_of_here.
    + rewrite Et, app_nil_r. apply Hinv.
    + rewrite (stags_nil _ Et), (bool_decide_false (i ∈ held s)) by done. cbn. rewrite <- Hw.
      destruct b; [rewrite bool_decide_true|rewrite bool_decide_false]; try done.
      apply elem_of_app. right. apply list_elem_of_here.
  - eapply kinds_step; done.
  - unfold total. rewrite (step_insert main _ _ _ _ _ _ _ Hs Hi Hi').
    pose proof (sum_insert (hevs s) i h h' Hi). lia.
Qed.

Lemma looked_mmap fuel i h x (s : ostate) :
  start_inv fuel s -> i ∉ held s -> hevs s !! i = Some h -> h_src h = PerfMmap x ->
  wp (perf_mmap_event_init main g clk nr_streams true fuel i) s (looked fuel i s).
Proof using Hclk Hev.
  intros Hst Hn Hi Hx. pose proof Hst as (Hinv & _).
  pose proof (inv_src _ _ _ _ _ Hinv _ _ Hi) as (Hd & Hf & Hok).
  assert (length (ring_left (map x)) < fuel)%nat as Hf' by (unfold lefts in Hf; rewrite Hx in Hf; done).
  eapply wp_mono; [apply (wp_mmap_event_init main g clk nr_streams Hclk Hev fuel i h x); try done; apply Hinv|].
  intros b s' (t & h' & x' & Hs & Et & [B1 B2 B3 B4] & Hm & Hg & Hb).
  eapply looked_step; try done; [lia|unfold is_stream; rewrite Hx, B2; done| |].
  2:{ unfold owed. rewrite Hx, B2, Hg. done. }
  unfold src_ok in *. rewrite Hx in Hok. rewrite B2, Hm. split; [apply Hok|].
  intros ->. destruct (Hb eq_refl). auto.
Qed.

Lemma looked_stream fuel i h x init (s : ostate) :
  start_inv fuel s -> i ∉ held s -> hevs s !! i = Some h -> h_src h = Stream x ->
  wp (stream_event_init fuel i init) s (looked fuel i s).
Proof using.
  intros Hst Hn Hi Hx. pose proof Hst as (Hinv & _).
  pose proof (inv_src _ _ _ _ _ Hinv _ _ Hi) as (Hd & Hf & Hok).
  rewrite bool_decide_false in Hok by done. unfold src_ok in Hok. rewrite Hx in Hok. cbn in Hok.
  destruct Hok as (Hasc & Hhead & _).
  eapply wp_mono; [apply (wp_stream_event_init main fuel i h x); done|].
  intros b s' [(t & Hs & Et) (h' & x' & F1 & F2 & F3 & F4 & F5 & F6 & F7 & _ & F9)].
  eapply looked_step; try done; [unfold is_stream; rewrite Hx, F2; done|].
  unfold src_ok. rewrite F2, F4, orb_false_r. unfold due in F5. rewrite F5 in Hasc. done.
Qed.

Lemma wp_heap_add fuel grow i (s s1 : ostate) Q :
  start_inv fuel s -> looked fuel i s true s1 -> (0 < grow)%nat ->
  (forall s2, start_inv fuel s2 -> held s2 = held s ++ [i] -> hevs s2 = hevs s1 -> devs s2 = devs s1 -> Q true s2) ->
  wp (heap_add true grow i) s1 Q.
Proof using.
  intros (_ & Hn & Hz) [L1 L2 L3 L4 L5] Hg HQ. unfold heap_add. apply wp_bind, wp_get_state. cbn zeta.
  rewrite andb_false_r, L2. apply wp_bind, wp_modify, wp_ret.
  set (hp := if (hp_nr (heap s) =? hp_size (heap s))%nat then _ else heap s).
  assert (hp_nr hp = hp_nr (heap s) /\ take (hp_nr hp) (hp_data hp) = held s /\
    (hp_nr hp < hp_size hp)%nat /\ (hp_size hp <= length (hp_data hp))%nat) as (E1 & E2 & E3 & E4).
  { unfold hp, MinHeap.elems. destruct (Nat.eqb_spec (hp_nr (heap s)) (hp_size (heap s))) as [Eq|Ne]; cbn.
    - rewrite length_app, repeat_length, take_app_le by lia. split_and!; [done|done|lia|lia].
    - split_and!; [done|done|lia|done]. }
  clearbody hp.
  assert (take (Datatypes.S (hp_nr hp)) (<[hp_nr hp := i]> (hp_data hp)) = held s ++ [i]) as Et.
  { rewrite (take_S_r _ _ i) by (apply list_lookup_insert_eq; lia). rewrite take_insert_ge by lia. congruence. }
  apply HQ; try done. unfold start_inv, MinHeap.elems. cbn. rewrite Et, length_insert.
  split; [apply inv_set_heap, L1|lia].
Qed.

Lemma start_frame fuel i (s s' : ostate) :
  start_inv fuel s -> stp i (pop s) [] s s' -> hevs s' = hevs s -> start_inv fuel s'.
Proof using.
  intros (A1 & A2) Hs Eh. unfold start_inv. rewrite (st_heap _ _ _ _ _ _ Hs). split; [|done].
  eapply inv_quiet; done.
Qed.

(** The source has nothing to sort. *)
Lemma started_none fuel i (s s' : ostate) r : start_inv fuel s -> looked fuel i s false s' ->
  (r <> 0 \/ kinds s !! i = Some false) -> started fuel [i] s r s'.
Proof using.
  intros (A1 & A2) [L1 L2 L3 L4 L5] Hr. split; try done; rewrite ?L2; auto.
  - unfold start_inv. rewrite L2. done.
  - intros j Hr0 ->%list_elem_of_singleton Hk. destruct Hr; congruence.
Qed.

(** The source went into the heap. *)
Lemma wp_started_add fuel grow i h l (s s1 : ostate) Q :
  start_inv fuel s -> looked fuel i s true s1 -> hevs s !! i = Some h -> (h_dev h < length (devs s1))%nat ->
  (0 < grow)%nat -> (forall s2, started fuel [i] s 0 s2 -> wp (heap_init_list main g clk nr_streams true fuel l grow) s2 Q) ->
  wp (ok ← heap_add true grow i;
      if (ok : bool) then (prof_dev_get (h_dev h);; heap_init_list main g clk nr_streams true fuel l grow)
      else ret (-1)) s1 Q.
Proof using.
  intros Hst Hlk Hi Hd Hg HQ. apply wp_bind. eapply wp_heap_add; [done|done|done|].
  intros s2 S2 E2 Eh Ed. apply wp_bind, (wp_add_ref main i); [congruence|]. intros s3 S3 E3.
  destruct (kinds_frame _ _ E3) as [K3 T3], (kinds_frame _ _ Eh) as [K2 T2].
  apply HQ. destruct Hlk as [L1 L2 L3 L4 L5].
  assert (held s3 = held s ++ [i]) as Eheld by (rewrite (st_heap _ _ _ _ _ _ S3); done).
  split; rewrite ?Eheld.
  - eapply start_frame; done.
  - congruence.
  - lia.
  - intros j Hj. apply elem_of_app. auto.
  - intros j Hj. apply elem_of_app in Hj. done.
  - intros j _ Hj _. apply elem_of_app. auto.
Qed.

Lemma wp_heap_init_list fuel grow : forall l (s : ostate),
  start_inv fuel s -> NoDup l -> (forall i, i ∈ l -> (i ∉ held s) /\ (i < length (kinds s))%nat) ->
  (l <> [] -> (0 < grow)%nat) ->
  wp (heap_init_list main g clk nr_streams true fuel l grow) s (started fuel l s).
Proof using Hclk Hev.
  induction l as [|i l IH]; intros s Hst HN Hl Hg; cbn [heap_init_list].
  { apply wp_ret, started_refl. done. }
  destruct (Hl i (list_elem_of_here _ _)) as [Hni Hlen]. unfold kinds in Hlen. rewrite length_fmap in Hlen.
  destruct (lookup_lt_is_Some_2 _ _ Hlen) as [h Hi]. apply list.NoDup_cons in HN as [Hil HN].
  specialize (Hg ltac:(done)). pose proof Hst as (Hinv & _).
  apply wp_bind, (wp_get_hev i h); [done|]. cbn zeta.
  assert (forall s2, started fuel [i] s 0 s2 ->
    wp (heap_init_list main g clk nr_streams true fuel l grow) s2 (started fuel (i :: l) s)) as Hgo.
  { intros s2 Hs2. pose proof Hs2 as [B1 B2 B3 B4 B5 B6]. eapply wp_mono; [apply IH; try done|].
    - intros j Hj. rewrite B2. split; [|apply Hl; apply list_elem_of_further; done].
      intros Hj2. destruct (B5 _ Hj2) as [Hj3|Hj3%list_elem_of_singleton]; [|congruence].
      eapply Hl; [apply list_elem_of_further; done|done].
    - intros r s3 Hs3. apply (started_app fuel [i] l s s2 s3); done. }
  assert (h_dev h < length (devs s))%nat as Hd by apply (inv_src _ _ _ _ _ Hinv _ _ Hi).
  assert (kinds s !! i = Some (is_stream h)) as Hk by (unfold kinds; rewrite list_lookup_fmap, Hi; done).
  unfold is_stream in Hk. destruct (h_src h) as [x|x] eqn:Hx; apply wp_bind.
  - eapply wp_mono; [apply (looked_mmap fuel i h x); done|]. intros b s1 Hlk. destruct b.
    + eapply wp_started_add; try done. rewrite (lk_devs _ _ _ _ _ Hlk). done.
    + apply Hgo, started_none; auto.
  - eapply wp_mono; [apply (looked_stream fuel i h x); done|]. intros b s1 Hlk. destruct b.
    + eapply wp_started_add; try done. rewrite (lk_devs _ _ _ _ _ Hlk). done.
    + apply wp_bind, wp_modify, wp_ret. apply (started_stop fuel [i] l); [done|].
      apply started_none; [done| |by left]. destruct Hlk as [L1 L2 L3 L4 L5]. split; try done.
      eapply (inv_quiet main K _ _ i []); [exact L1|apply step_quiet; done|done|done].
Qed.

(** The sources of a tree can be started: each once, none of them in the heap. *)
Definition startable (l : list nat) (s : ostate) : Prop :=
  NoDup l /\ forall i, i ∈ l -> (i ∉ held s) /\ (i < length (kinds s))%nat.

Lemma startable_app fuel l l' s s' : startable (l ++ l') s -> started fuel l s 0 s' -> startable l' s'.
Proof using.
  intros [HN Hl] [B1 B2 B3 B4 B5 B6]. apply list.NoDup_app in HN as (_ & Hdis & HN'). split; [done|].
  intros i Hi. rewrite B2. destruct (Hl i) as [Hni Hlen]; [apply elem_of_app; auto|].
  split; [|done]. intros Hi'. destruct (B5 _ Hi') as [|Hil]; [done|]. eapply Hdis; done.
Qed.

Lemma startable_l l l' s : startable (l ++ l') s -> startable l s.
Proof using.
  intros [HN Hl]. apply list.NoDup_app in HN as (HN & _). split; [done|].
  intros i Hi. apply Hl, elem_of_app. auto.
Qed.

Lemma wp_order_heap_init fuel : forall t (s : ostate),
  start_inv fuel s -> tree_ok t -> startable (tree_events t) s ->
  wp (order_heap_init main g clk nr_streams true fuel t) s (started fuel (tree_events t) s).
Proof using Hclk Hev.
  fix IH 1. intros [events grow children] s Hst [Hg Hc] Hs. cbn [order_heap_init tree_events] in *.
  apply wp_bind. eapply wp_mono.
  { apply wp_heap_init_list; [done|apply (startable_l _ _ _ Hs)|apply (startable_l _ _ _ Hs)|done]. }
  intros r s1 J1. destruct (Z.eqb_spec r 0) as [->|Hr]; cbn [negb]; [|apply wp_ret, started_stop; done].
  assert (startable (concat (tree_events <$> children)) s1) as Hs1 by (eapply startable_app; done).
  assert (start_inv fuel s1) as Hst1 by apply J1.
  eapply (wp_mono _ _ (started fuel (concat (tree_events <$> children)) s1)).
  2:{ intros r s2 J2. eapply started_app; done. }
  clear s Hst Hs J1 Hg events. revert s1 Hs1 Hst1. induction children as [|c l IHl]; intros s1 Hs1 Hst1.
  { apply wp_ret, started_refl. done. }
  destruct Hc as [Hc Hcl]. rewrite fmap_cons in *. cbn [concat] in *. apply wp_bind.
  eapply wp_mono; [apply IH; [done|done|apply (startable_l _ _ _ Hs1)]|].
  intros r s2 J2. destruct (Z.eqb_spec r 0) as [->|Hr]; cbn [negb]; [|apply wp_ret, started_stop; done].
  eapply wp_mono; [apply IHl; [done|eapply startable_app; done|apply J2]|].
  intros r s3 J3. eapply started_app; done.
Qed.

(** ** The end of a run *)

Lemma inv_fuel fuel fuel' E (s : ostate) : (fuel <= fuel')%nat -> inv main K fuel E s -> inv main K fuel' E s.
Proof using.
  intros Hf [A1 A2 A3 A4 A5]. split; try done. intros i h Hi. destruct (A2 _ _ Hi) as (B1 & B2 & B3).
  split_and!; [done|lia|done].
Qed.

Lemma put_back_one fuel i l h h' (s : ostate) :
  inv main K fuel (i :: l) s -> hevs s !! i = Some h -> h_dev h' = h_dev h ->
  (lefts h' <= Datatypes.S (lefts h))%nat ->
  (src_ok (pop s) true h -> src_ok (pop s) false h' /\ owed false h' = owed true h) ->
  inv main K (Datatypes.S fuel) l (set_hevs s (<[i := h']> (hevs s))).
Proof using.
  intros Hinv Hi Hd Hl Hok. pose proof (inv_src _ _ _ _ _ Hinv _ _ Hi) as (_ & Hf & Hs).
  rewrite bool_decide_true in Hs by apply list_elem_of_here. destruct (Hok Hs) as [Hok' Hw].
  pose proof (inv_nodup _ _ _ _ _ Hinv) as HN. apply list.NoDup_cons in HN as [Hni HN].
  eapply (inv_step main K _ (i :: l) _ i (pop s) []); try done.
  - apply (inv_fuel fuel); [lia|done].
  - apply step_put_hev.
  - eapply lookup_inserted; done.
  - lia.
  - intros j Hj. rewrite elem_of_cons. split; [auto|]. intros [->|?]; done.
  - intros j hj _ Hj. apply (inv_src _ _ _ _ _ Hinv _ _ Hj).
  - rewrite bool_decide_false by done. auto.
  - rewrite app_nil_r. apply Hinv.
  - rewrite (bool_decide_true (i ∈ i :: l)) by apply list_elem_of_here.
    rewrite (bool_decide_false (i ∈ l)) by done. rewrite Hw. done.
Qed.

Lemma wp_put_back : forall l fuel (s : ostate), inv main K fuel l s ->
  wp (put_back l) s (fun _ s' => inv main K (length l + fuel) [] s' /\ trace s' = trace s /\ heap s' = heap s /\
    kinds s' = kinds s).
Proof using.
  induction l as [|i l IH]; intros fuel s Hinv; cbn [put_back]; [apply wp_ret; done|].
  destruct (lookup_lt_is_Some_2 (hevs s) i) as [h Hi].
  { apply (inv_E _ _ _ _ _ Hinv), list_elem_of_here. }
  destruct (inv_src _ _ _ _ _ Hinv _ _ Hi) as (Hd & _ & Hsrc).
  rewrite bool_decide_true in Hsrc by apply list_elem_of_here.
  apply wp_bind, (wp_get_hev i h); [done|]. apply wp_bind.
  eapply (wp_mono _ _ (fun _ s1 => inv main K (Datatypes.S fuel) l s1 /\ trace s1 = trace s /\ heap s1 = heap s /\
    kinds s1 = kinds s /\ length (devs s1) = length (devs s))).
  { destruct (h_src h) as [x|x] eqn:Hx.
    - unfold src_ok in Hsrc. rewrite Hx in Hsrc. destruct Hsrc as [_ Hhead].
      destruct (Hhead eq_refl) as [(r & Hr & _ & Hlast) _]. clear Hhead. rewrite Hx in Hlast.
      destruct Hlast as (Hty & r0 & Hla & Ety & Etg & Esz). rewrite Hr.
      assert (ring_left (ring_consume (ring_unread_event (map x) r)) = r0 :: ring_left (map x)) as Eu
        by (rewrite left_consume; apply left_unread; done).
      apply (wp_put_map i h x); [done|done|]. split_and!; try done; [eapply put_back_one; try done|].
      + unfold lefts. rewrite Hx. cbn. rewrite Eu. done.
      + unfold src_ok, owed. rewrite Hx. cbn. intros [Hm _]. split; [done|].
        unfold head_tags. rewrite Hr, Eu, rtags_cons, !sample_tag_true by congruence. rewrite Etg. done.
      + eapply (kinds_step main i); [apply step_put_hev|done|eapply lookup_inserted; done|].
        unfold is_stream. rewrite Hx. done.
    - apply wp_modify. split_and!; try done; [eapply put_back_one; try done|].
      + unfold lefts. cbn. rewrite Hx. lia.
      + unfold src_ok, headed, owed. cbn. rewrite Hx. cbn. intros (Ha & Hh & _). done.
      + eapply (kinds_step main i); [apply step_put_hev|done|eapply lookup_inserted; done|unfold is_stream; rewrite Hx; done]. }
  intros [] s1 (I1 & E1 & Eh1 & K1 & L1). apply wp_bind, (wp_add_ref main i); [lia|]. intros s2 S2 E2.
  eapply wp_mono; [eapply IH, inv_quiet; done|]. intros [] s3 (I3 & E3 & Eh3 & K3). split_and!.
  - eapply inv_fuel; [|exact I3]. cbn. lia.
  - rewrite E3, (st_trace _ _ _ _ _ _ S2), app_nil_r. done.
  - rewrite Eh3, (st_heap _ _ _ _ _ _ S2). done.
  - destruct (kinds_frame _ _ E2) as [K2 _]. congruence.
Qed.

Lemma wp_stream_stop fuel (s : ostate) : inv main K fuel (held s) s ->
  wp stream_stop s (fun _ s' => inv main K (hp_nr (heap s) + fuel) [] s' /\ trace s' = trace s /\
    kinds s' = kinds s /\ heap s' = mkHeap 0 (hp_size (heap s)) (hp_data (heap s))).
Proof using.
  intros Hinv. unfold stream_stop. apply wp_bind, wp_get_state, wp_bind.
  eapply wp_mono; [apply (wp_put_back _ fuel)|].
  - eapply inv_perm; [|exact Hinv]. apply Permutation_rev.
  - intros [] s1 (I1 & E1 & Eh1 & K1). apply wp_modify. split; [|cbn; rewrite Eh1; done]. apply inv_set_heap.
    eapply inv_fuel; [|exact I1]. rewrite length_rev, length_take. lia.
Qed.

End Start.
