(* ===== verification/OrderMain.v ===== *)
(** * The ordering of events

    [Order.order_process] hands the samples of all sources to the devices in
    the order of their times, over any sequence of runs, and ends. *)

From Stdlib Require Import Sorted.
From S2P Require Import Prelude MinHeap SampleLayout Clock Order OrderProof OrderInv OrderPass OrderStart.
Import Order.

Section Main.
Context {M S : Type} `{EventRingLaws M} `{EventStreamLaws S}.
Context (ktimes : nat -> Z) (main : nat) (K : list Z) (g : Clock.scaling) (clk : Clock.clock_dev) (nr_streams : Z).

Abbreviation ostate := (@ost M S).
Abbreviation pop := (popped main).

(** Between two runs: the popped time is not after what a stream will give,
    the samples so far are in order up to it, and the heap is empty; [K] are
    all samples, handed over or still with their source. *)
Definition idle (s : ostate) : Prop :=
  (exists fuel, inv main K fuel [] s) /\ (hp_size (heap s) <= length (hp_data (heap s)))%nat.

(** The devices and sources a run works on: each source once, all streams. *)
Record layout (tree : dtree) (target : option nat) (s : ostate) : Prop := Layout {
  ly_tree : tree_ok tree;
  ly_nodup : NoDup (tree_events tree);
  ly_range i : i ∈ tree_events tree -> (i < length (hevs s))%nat;
  ly_streams i : kinds s !! i = Some true -> i ∈ tree_events tree;
  ly_target i : target = Some i -> kinds s !! i = Some false;
  ly_size : (2 * Z.of_nat (length (hevs s)) + 2) * 8 < 2 ^ 64
}.

Lemma layout_kinds tree target (s s' : ostate) : kinds s' = kinds s -> layout tree target s -> layout tree target s'.
Proof using.
  intros Hk [A1 A2 A3 A4 A5 A6].
  assert (length (hevs s') = length (hevs s)) as El.
  { apply (f_equal length) in Hk. unfold kinds in Hk. rewrite !length_fmap in Hk. done. }
  split; rewrite ?Hk, ?El; done.
Qed.

Context (Hclk : heap_converts clk nr_streams = false) (Hev : ev_total g clk nr_streams).

Definition run_post (s : ostate) (s' : ostate) : Prop := idle s' /\ kinds s' = kinds s.

Lemma inv_max fuel (s : ostate) : inv main K fuel [] s -> forall fuel',
  (forall h, h ∈ hevs s -> (lefts h < fuel')%nat) -> inv main K fuel' [] s.
Proof using.
  intros [A1 A2 A3 A4 A5 A7] fuel' Hf. split; try done. intros i h Hi. destruct (A2 _ _ Hi) as (B1 & B2 & B3).
  split_and!; [done| |done]. apply Hf. eapply list_elem_of_lookup_2. done.
Qed.

(** From the start of the sources to the end of the run. *)
Lemma wp_run n fuel tree tm te tt0 (s : ostate) :
  inv main K fuel [] s -> (hp_size (heap s) <= length (hp_data (heap s)))%nat -> layout tree tm s ->
  (total s + length (hevs s) < n)%nat ->
  wp (modify (fun s => set_heap s (mkHeap 0 (hp_size (heap s)) (hp_data (heap s))));;
      r ← order_heap_init main g clk nr_streams true fuel tree;
      left ← (if negb (r =? 0) then ret true
              else heapify;; order_loop ktimes main g clk nr_streams true n fuel tm te tt0 no_lost);
      stream_stop;; prof_dev_put main;; ret left) s
    (fun left s' => left = true /\ run_post s s').
Proof using Hclk Hev.
  intros Hinv Hz Hly Hn. apply wp_bind, wp_modify. set (s1 := set_heap s _).
  assert (start_inv main K fuel s1) as Hst by (split; [apply inv_set_heap; done|cbn; lia]).
  apply wp_bind. eapply wp_mono.
  { apply (wp_order_heap_init main K g clk nr_streams Hclk Hev fuel tree s1); [done|apply Hly|].
    split; [apply Hly|]. intros i Hi. split; [apply not_elem_of_nil|].
    unfold kinds. rewrite length_fmap. apply (ly_range _ _ _ Hly). done. }
  intros r s2 [B1 B2 B3 B4 B5 B6]. pose proof B1 as (Hinv2 & Hnr2 & Hz2).
  assert (length (hevs s2) = length (hevs s)) as El.
  { apply (f_equal length) in B2. unfold kinds in B2. rewrite !length_fmap in B2. done. }
  assert (hp_nr (heap s2) <= length (hevs s2))%nat as Hnr.
  { pose proof (inv_nodup _ _ _ _ _ Hinv2) as HN.
    apply (NoDup_submseteq _ (seq 0 (length (hevs s2)))) in HN.
    - apply submseteq_length in HN. unfold MinHeap.elems in HN. rewrite length_take, length_seq in HN. lia.
    - intros i Hi. apply elem_of_seq. apply (inv_E _ _ _ _ _ Hinv2) in Hi. lia. }
  apply wp_bind.
  eapply (wp_mono _ _ (fun left s3 => left = true /\ inv main K fuel (MinHeap.elems (heap s3)) s3 /\
    kinds s3 = kinds s2 /\ (hp_size (heap s3) <= length (hp_data (heap s3)))%nat)).
  { destruct (Z.eqb_spec r 0) as [->|Hr]; cbn [negb]; [|apply wp_ret; done].
    apply wp_bind, wp_modify.
    destruct (MinHeap.heapify_all_spec (less_than s2) 8 ltac:(lia) (heap s2)) as (C1 & C2 & C3 & C4 & C5 & C6).
    { split; [lia|]. pose proof (ly_size _ _ _ Hly). rewrite <- El in *. lia. }
    set (hp := MinHeap.min_heapify_all _ _ _) in *. clearbody hp.
    eapply wp_mono; [apply (wp_order_loop ktimes main K g clk nr_streams Hclk Hev n fuel)|].
    - split_and!; [|done|done|cbn; lia]. apply inv_set_heap. eapply inv_perm; [symmetry; exact C2|done].
    - cbn. intros i h Hi Hs. cbn in Hi. rewrite C2.
      assert (kinds s2 !! i = Some true) as Hk by (unfold kinds; rewrite list_lookup_fmap, Hi, <- Hs; done).
      rewrite B2 in Hk. apply B6; [done| |done]. apply (ly_streams _ _ _ Hly). done.
    - intros left s3 ((Hi3 & _ & _ & Hz3) & K3 & Hleft). split_and!; try done. apply Hleft.
      unfold measure. change (heap (set_heap s2 hp)) with hp. rewrite C4.
      change (total (set_heap s2 hp)) with (total s2).
      change (total s1) with (total s) in B3. lia. }
  intros left s3 (-> & I3 & K3 & Z3). apply wp_bind.
  eapply wp_mono; [apply (wp_stream_stop main K fuel); done|]. intros [] s4 (I4 & _ & K4 & E4).
  apply wp_bind, (wp_add_ref main 0); [apply (inv_main _ _ _ _ _ I4)|]. intros s5 S5 E5. apply wp_ret.
  destruct (kinds_frame _ _ E5) as [K5 _]. change (kinds s1) with (kinds s) in B2.
  split; [done|]. split; [split|congruence].
  - eexists. eapply inv_quiet; done.
  - rewrite (st_heap _ _ _ _ _ _ S5), E4. done.
Qed.

Lemma inv_read_init fuel i h x m (s : ostate) :
  inv main K fuel [] s -> hevs s !! i = Some h -> h_src h = PerfMmap x ->
  ring_left m = ring_left (map x) ->
  inv main K fuel [] (set_hevs s (<[i := set_mm h (set_map x m)]> (hevs s))).
Proof using.
  intros Hinv Hi Hx El. pose proof (inv_src _ _ _ _ _ Hinv _ _ Hi) as (_ & Hf & Hok).
  assert (bool_decide (i ∈ []) = false) as Hn by (apply bool_decide_eq_false_2, not_elem_of_nil).
  rewrite Hn in Hok.
  eapply (inv_step main K _ [] _ i (pop s) [] h (set_mm h (set_map x m))); try done; rewrite ?Hn.
  - apply step_put_hev.
  - eapply lookup_inserted; done.
  - unfold lefts in *. rewrite Hx in Hf. cbn. rewrite El. done.
  - constructor.
  - intros j hj _ Hj. apply (inv_src _ _ _ _ _ Hinv _ _ Hj).
  - unfold src_ok in *. rewrite Hx in Hok. cbn. split; [apply Hok|done].
  - rewrite app_nil_r. apply Hinv.
  - unfold owed. rewrite Hx. cbn. rewrite El. done.
Qed.

Lemma kind_mmap i (s : ostate) : kinds s !! i = Some false ->
  exists h x, hevs s !! i = Some h /\ h_src h = PerfMmap x.
Proof using.
  unfold kinds. rewrite list_lookup_fmap. destruct (hevs s !! i) as [h|]; [|done]. cbn. unfold is_stream.
  destruct (h_src h) as [x|x] eqn:E; intros [=]. exists h, x. done.
Qed.

(** The ring buffer of the target is looked at first. *)
Lemma wp_target target fuel tree (s : ostate) Q :
  inv main K fuel [] s -> layout tree target s ->
  (forall s' ok, inv main K fuel [] s' -> kinds s' = kinds s -> total s' = total s -> heap s' = heap s -> Q ok s') ->
  wp (match target with
      | Some i =>
          '(_, x) ← get_mm i;
          let '(m, r) := ring_read_init (map x) in
          put_map i m;; ret (negb (r <? 0) && negb (ring_empty m))
      | None => ret true
      end) s Q.
Proof using.
  intros Hinv Hly HQ. destruct target as [i|]; [|apply wp_ret; auto].
  destruct (kind_mmap i s (ly_target _ _ _ Hly i eq_refl)) as (h & x & Hi & Hx).
  apply wp_bind, (wp_get_mm i h x); [done|done|]. cbn beta iota.
  pose proof (left_init (map x)) as El. destruct (ring_read_init (map x)) as [m r]. cbn in El.
  apply wp_bind, (wp_put_map i h x); [done|done|]. apply wp_ret, HQ.
  - eapply inv_read_init; done.
  - eapply (kinds_step main i); [apply step_put_hev|done|eapply lookup_inserted; done|].
    unfold is_stream. rewrite Hx. done.
  - unfold total. cbn. pose proof (sum_insert (hevs s) i h (set_mm h (set_map x m)) Hi) as Hsum.
    assert (lefts (set_mm h (set_map x m)) = lefts h) as E by (unfold lefts; rewrite Hx; cbn; rewrite El; done).
    lia.
  - done.
Qed.

Lemma wp_order_process tree target target_tm inprocess n fuel (s : ostate) :
  inv main K fuel [] s -> (hp_size (heap s) <= length (hp_data (heap s)))%nat -> layout tree target s ->
  (total s + length (hevs s) < n)%nat ->
  wp (order_process ktimes main g clk nr_streams true n fuel tree inprocess target target_tm) s
    (fun left s' => left = true /\ run_post s s').
Proof using Hclk Hev.
  intros Hinv Hz Hly Hn. assert (idle s) as Hid by (split; eauto).
  unfold order_process. destruct inprocess; [apply wp_ret; done|].
  apply wp_bind. eapply wp_target; [done|done|]. intros s1 ok I1 K1 T1 E1.
  assert (length (hevs s1) = length (hevs s)) as El.
  { apply (f_equal length) in K1. unfold kinds in K1. rewrite !length_fmap in K1. done. }
  destruct ok; cbn [negb]; [|apply wp_ret; split; [done|split; [split; [eauto|congruence]|done]]].
  apply wp_bind, (wp_add_ref main 0); [apply (inv_main _ _ _ _ _ I1)|]. intros s2 S2 E2.
  pose proof (inv_quiet _ _ _ _ _ _ _ _ I1 S2 E2 eq_refl) as I2.
  destruct (kinds_frame _ _ E2) as [K2 T2]. pose proof (st_heap _ _ _ _ _ _ S2) as H2'.
  assert (layout tree target s2) as Hly2 by (eapply layout_kinds; [|exact Hly]; congruence).
  apply wp_bind. eapply (wp_mono _ _ (fun _ s3 => s3 = s2)).
  { destruct target as [i|]; [|apply wp_ret; done].
    destruct (kind_mmap i s2 (ly_target _ _ _ Hly2 i eq_refl)) as (h & x & Hi & Hx).
    apply wp_bind, (wp_get_mm i h x); [done|done|]. apply wp_ret. done. }
  intros te s3 ->. apply wp_bind. eapply (wp_mono _ _ (fun _ s3 => s3 = s2)).
  { destruct (negb (target_tm =? 0)); [rewrite (heapclock_id _ _ _ Hclk)|]; done. }
  intros tt0 s3 ->. eapply wp_mono.
  { apply (wp_run n fuel tree target te tt0 s2); [done|rewrite H2'; congruence|done|].
    rewrite T2, T1, E2, El. done. }
  intros left s4 [-> [Hi4 K4]]. split; [done|]. split; [done|congruence].
Qed.

(** In order, each at [popped] or before it. *)
Lemma ascending_sorted l : forall p, ascending p l -> StronglySorted Z.le (p :: l).
Proof using.
  induction l as [|x l IH]; intros p; cbn; [intros _; repeat constructor|].
  intros [Hpx Hl]. specialize (IH _ Hl). constructor; [done|]. constructor; [done|].
  apply StronglySorted_inv in IH as [_ Hx]. eapply List.Forall_impl; [|exact Hx]. cbn. lia.
Qed.

Lemma upto_sorted l p : upto l p -> StronglySorted Z.le l.
Proof using.
  destruct l as [|x l]; [constructor|]. intros (_ & Ha & _). apply ascending_sorted. done.
Qed.

(** C4: a run of [order_process] (order.c), on any number of ring buffers of a
    device and its children and of streams, started in any state a run can
    leave, always ends (the number of passes is bounded by the events left plus
    the number of sources) and leaves such a state again.  The samples handed to
    the devices, in all runs so far, are in the order of their times, although a
    ring buffer may deliver samples out of order; and no sample is lost,
    duplicated or invented: what was handed over plus what the sources still
    hold is what it was before. *)
Theorem order_process_correct (tree : dtree) (target : option nat) (target_tm : Z) (inprocess : bool)
    (n fuel : nat) (s : ostate) (Hidle : idle s) (Hly : layout tree target s)
    (Hfuel : forall h, h ∈ hevs s -> (lefts h < fuel)%nat)
    (Hn : (total s + length (hevs s) < n)%nat) :
  exists s', order_process ktimes main g clk nr_streams true n fuel tree inprocess target target_tm s
               = Some (true, s') /\
    idle s' /\ layout tree target s' /\
    StronglySorted Z.le (samples (trace s')) /\
    stags (trace s') ++ owed_all [] s' ≡ₚ stags (trace s) ++ owed_all [] s.
Proof using Hclk Hev.
  destruct Hidle as [[f0 Hinv0] Hz]. pose proof (inv_max _ _ Hinv0 fuel Hfuel) as Hinv.
  pose proof (wp_order_process tree target target_tm inprocess n fuel s Hinv Hz Hly Hn) as Hwp.
  unfold wp in Hwp. destruct (order_process _ _ _ _ _ _ _ _ _ _ _ _ s) as [[left s']|]; [|done].
  destruct Hwp as (-> & Hid & Hk). exists s'. split; [done|]. split; [done|].
  split; [eapply layout_kinds; done|]. destruct Hid as [[f1 Hinv1] _]. split.
  - eapply upto_sorted, (inv_trace _ _ _ _ _ Hinv1).
  - rewrite (inv_all _ _ _ _ _ Hinv1), (inv_all _ _ _ _ _ Hinv0). done.
Qed.

End Main.

(** ** A ring buffer and a stream *)

(** The events still to come, and the last one. *)
Record lring := LRing { lr_left : list rec; lr_last : option rec }.

#[export] Instance lring_ops : EventRing lring := {
  ring_empty m := match lr_left m with [] => true | _ => false end;
  ring_read_init m := (m, 0);
  ring_read_event m :=
    match lr_left m with [] => (m, None) | r :: l => (LRing l (Some r), Some (r, false)) end;
  ring_unread_event m r := match lr_last m with Some r0 => LRing (r0 :: lr_left m) None | None => m end;
  ring_consume m := m;
  ring_read_done m := m;
  ring_start m := 0;
  ring_end m := 0;
  ring_mask m := 4095
}.

#[export] Instance lring_laws : EventRingLaws lring.
Proof.
  refine {| ring_left := lr_left; ring_last := lr_last |}; try done.
  - intros [[|r0 l] last] m' r w; cbn; [done|]. intros [= <- <- _]. done.
  - intros [[|r0 l] last] m'; cbn; [|done]. intros [= <-]. done.
  - intros [l last] r r0; cbn. intros -> _. done.
Defined.

#[export] Instance lstream_ops : EventStream (list rec) := {
  stream_read_event l init := match l with [] => ([], None) | r :: l => (l, Some (r, 0, false, true)) end
}.

#[export] Instance lstream_laws : EventStreamLaws (list rec).
Proof.
  refine {| stream_left := fun l => l |}.
  - intros [|r0 l] st' b r ins w c; cbn; [done|]. intros [= <- <- _ _ _]. done.
  - intros [|r0 l] st' b; cbn; [|done]. intros [= <-]. done.
Defined.

Definition sample (time tag : Z) : rec := Rec PERF_RECORD_SAMPLE time 0 0 40 tag.
Definition ring_source (l : list rec) : @hev lring (list rec) :=
  Hev 0 None 0 0 false false false (PerfMmap (Mmev (LRing l None) 0 1 0 false)).

(** The second ring buffer has a lost event and a sample out of order. *)
Definition demo_state : @ost lring (list rec) :=
  Ost [ring_source [sample 10 1; sample 40 2; sample 50 3];
       ring_source [sample 30 4; Rec PERF_RECORD_LOST 0 7 2 24 0; sample 20 5; sample 60 6];
       Hev 0 None 0 0 false false false (Stream (Stev [sample 15 7; sample 35 8; sample 70 9] 0 false))]
    [Odev true 64 0 (fun _ => 0) 1] (mkHeap 0 0 []) 0 0 ORDER_BREAK_NONE [] 0.

Definition demo_tree : dtree := DNode [0%nat; 1%nat] 2 [DNode [2%nat] 1 []].
Definition demo_clk : Clock.clock_dev :=
  Clock.ClockDev Clock.CONVERT_NONE false (Clock.TscConv 0 1 0 false) (Clock.TscConv 0 1 0 false)
    (Clock.Vcpu 0 0 (Clock.Pvti 0 0 0 0 0 0)) 0 false 0 0 0.

(** The run ends when the stream does: a lower time could still come from it. *)
Example demo_run :
  (fun r => (r.1, samples (trace r.2), stags (trace r.2), owed_all [] r.2)) <$>
    order_process (fun _ => 0) 0 (Clock.Scaling 0 0) demo_clk 1 true 20 20 demo_tree false None 0 demo_state =
  Some (true, [10; 15; 30; 30; 35; 40; 50; 60; 70], [1; 7; 4; 5; 8; 2; 3; 6; 9], []).
Proof. vm_compute. reflexivity. Qed.

Lemma demo_idle : idle 0 [1; 2; 3; 4; 5; 6; 7; 8; 9] demo_state.
Proof.
  split; [|cbn; lia]. exists 9%nat. split; try (cbn; lia); try done.
  - intros [|[|[|i]]] h Hi; cbn in Hi; [| | |done]; injection Hi as <-; rewrite bool_decide_false by apply not_elem_of_nil.
    + unfold src_ok. cbn. intuition (lia || done).
    + unfold src_ok. cbn. intuition (lia || done).
    + unfold src_ok, stream_times. cbn. intuition (lia || done).
  - intros i Hi. inversion Hi.
  - constructor.
Qed.

Lemma demo_layout : layout demo_tree None demo_state.
Proof.
  split; try done.
  - cbn. intuition lia.
  - apply (bool_decide_eq_true_1 _). vm_compute. reflexivity.
  - intros i Hi. cbn in Hi |- *. repeat (apply elem_of_cons in Hi as [-> | Hi]; [lia|]). inversion Hi.
  - intros [|[|[|i]]]; cbn; [done|done| |done]. intros _. do 2 apply list_elem_of_further. apply list_elem_of_here.
Qed.

Lemma order_process_correct_witness :
  exists s', order_process (fun _ => 0) 0 (Clock.Scaling 0 0) demo_clk 1 true 20 20 demo_tree false None 0
               demo_state = Some (true, s') /\
    idle 0 [1; 2; 3; 4; 5; 6; 7; 8; 9] s' /\ layout demo_tree None s' /\
    StronglySorted Z.le (samples (trace s')) /\
    stags (trace s') ++ owed_all [] s' ≡ₚ [1; 2; 3; 4; 5; 6; 7; 8; 9].
Proof.
  apply (order_process_correct (fun _ => 0) 0 _ (Clock.Scaling 0 0) demo_clk 1 eq_refl
    ltac:(intros t; exists t; reflexivity) demo_tree None 0 false 20 20 demo_state demo_idle demo_layout).
  - intros h Hh. cbn in Hh. repeat (apply elem_of_cons in Hh as [-> | Hh]; [vm_compute; lia|]). inversion Hh.
  - vm_compute. lia.
Defined.
