(* ===== verification/OrderSetup.v ===== *)
(** * Set-up of the ordering (order.c)

    The size of a sample and the watermark of a device, and the wake-up settings of
    its events. *)

From S2P Require Import Prelude SampleLayout SampleProof Hweight SampleAbi.
Import SampleLayout SampleAbi.

Module OrderSetup.

(** ** Size of a sample *)

(** An event's attributes as far as they are used here; [wakeup] is the union
    of [wakeup_events] and [wakeup_watermark]. *)
Record attr := Attr {
  a_evsel : evsel;
  a_type : Z;
  a_config : Z;
  sample_max_stack : Z;
  watermark : bool;
  wakeup : Z;
  use_clockid : option Z;
  sample_stack_user : Z;
  exclude_callchain_user : bool
}.

Definition PERF_TYPE_TRACEPOINT : Z := 2.
Definition KPROBE : Z := 65536.
Definition KRETPROBE : Z := 65537.
Definition UPROBE : Z := 65538.
Definition URETPROBE : Z := 65539.

(** [round_up (x, 8)] of unsigned longs. *)
Definition round_up8 (x : Z) : Z := u64 (Z.lor (u64 (x - 1)) 7 + 1).

Section Size.
Context (perf_event_max_stack perf_event_max_contexts_per_stack kprobe_type uprobe_type : Z).
(** The size of the events of a type, negative if it is not known. *)
Context (tep__event_size : Z -> Z).

(** [-1]: not known. *)
Definition raw_size (a : attr) : Z :=
  if a_type a =? PERF_TYPE_TRACEPOINT then tep__event_size (a_config a)
  else if (a_type a =? kprobe_type) || (a_type a =? uprobe_type) then
    let ret := negb (Z.land (a_config a) 1 =? 0) in
    let type := if a_type a =? kprobe_type then if ret then KRETPROBE else KPROBE else a_type a in
    let type := if type =? uprobe_type then if ret then URETPROBE else UPROBE else type in
    tep__event_size type
  else -1.

Definition perf_sample_max_size (a : attr) : Z :=
  let e := a_evsel a in
  let on (bit size : Z) := if has (sample_type e) bit then size else 0 in
  s32 (on PERF_SAMPLE_IDENTIFIER 8 + on PERF_SAMPLE_IP 8 + on PERF_SAMPLE_TID 8 + on PERF_SAMPLE_TIME 8 +
       on PERF_SAMPLE_ADDR 8 + on PERF_SAMPLE_ID 8 + on PERF_SAMPLE_STREAM_ID 8 + on PERF_SAMPLE_CPU 8 +
       on PERF_SAMPLE_PERIOD 8 + on PERF_SAMPLE_READ (perf_evsel__read_size e) +
       on PERF_SAMPLE_CALLCHAIN
         (8 + 8 * (if negb (sample_max_stack a =? 0) then sample_max_stack a
                   else perf_event_max_stack + perf_event_max_contexts_per_stack)) +
       on PERF_SAMPLE_RAW (if raw_size a <? 0 then 8 else round_up8 (raw_size a + 4)) +
       on PERF_SAMPLE_REGS_USER (8 + hweight64 (sample_regs_user e) * 8) +
       on PERF_SAMPLE_WEIGHT 8 + on PERF_SAMPLE_DATA_SRC 8 + on PERF_SAMPLE_TRANSACTION 8 +
       on PERF_SAMPLE_REGS_INTR (8 + hweight64 (sample_regs_intr e) * 8) +
       on PERF_SAMPLE_PHYS_ADDR 8).

(** The least watermark of the sampling events; [-1UL] without one. *)
Definition event_watermark (a : attr) : Z :=
  if watermark a then wakeup a else u32 (wakeup a * u32 (perf_sample_max_size a)).

Fixpoint watermark_loop (l : list attr) (least : Z) : Z :=
  match l with
  | [] => least
  | a :: l =>
      if sample_period (a_evsel a) =? 0 then watermark_loop l least
      else watermark_loop l (if event_watermark a <? least then event_watermark a else least)
  end.
Definition perf_sample_watermark (evlist : list attr) : Z := watermark_loop evlist (2 ^ 64 - 1).
End Size.

(** ** Wake-ups *)

Definition set_wakeup (a : attr) (w : bool) (v : Z) : attr :=
  Attr (a_evsel a) (a_type a) (a_config a) (sample_max_stack a) w v (use_clockid a) (sample_stack_user a)
    (exclude_callchain_user a).

(** [env_watermark] is [env->watermark] if it is set. *)
Definition reduce_wakeup_times (pages : Z) (env_watermark : option Z) (has_parent : bool) (a : attr) : attr :=
  if pages =? 0 then a
  else if sample_period (a_evsel a) =? 0 then a
  else
    let '(wm, wakeup_watermark, wakeup_events) :=
      match env_watermark with
      | Some w => (w, 0, 0)
      | None =>
          if negb (watermark a) then if has_parent then (50, 0, 0) else (0, 0, wakeup a)
          else (50, wakeup a, 0)
      end in
    if wm =? 0 then set_wakeup a false (if wakeup_events =? 0 then 1 else wakeup_events)
    else
      let w := if wakeup_watermark =? 0
               then u32 (u32 (Z.shiftl pages 12) * u32 wm) / 100 else wakeup_watermark in
      set_wakeup a true w.

Definition CLOCK_MONOTONIC : Z := 1.
Definition PERF_REGS_MASK : Z := Z.land (2 ^ 24 - 1) (Z.lnot (2 ^ 12 + 2 ^ 13 + 2 ^ 14 + 2 ^ 15)).

Definition prof_dev_env2attr (pages : Z) (env_watermark : option Z) (has_parent : bool)
    (monotonic callchain : bool) (dwarf_record_size : Z) (a : attr) : attr :=
  let a := reduce_wakeup_times pages env_watermark has_parent a in
  let a := if monotonic
           then Attr (a_evsel a) (a_type a) (a_config a) (sample_max_stack a) (watermark a) (wakeup a)
                  (Some CLOCK_MONOTONIC) (sample_stack_user a) (exclude_callchain_user a)
           else a in
  let e := a_evsel a in
  if callchain && negb (dwarf_record_size =? 0) && has (sample_type e) PERF_SAMPLE_CALLCHAIN
  then
    let st := Z.lor (sample_type e) (Z.lor PERF_SAMPLE_REGS_USER PERF_SAMPLE_STACK_USER) in
    Attr (Evsel (sample_period e) st (read_format e) PERF_REGS_MASK (sample_regs_intr e) (nr_members e))
      (a_type a) (a_config a) (sample_max_stack a) (watermark a) (wakeup a) (use_clockid a)
      (u32 dwarf_record_size) false
  else a.

(** ** The size of a sample is large enough *)

(** The entries of a call chain: frames, and the markers of the contexts they
    belong to (PERF_CONTEXT_MAX and above). *)
Fixpoint words (n : nat) (bs : list Z) : list Z :=
  match n with O => [] | S n => le (take 8 bs) :: words n (drop 8 bs) end.
Definition chain_entries (bs : list Z) : list Z := words (Z.to_nat (le (take 8 bs))) (drop 8 bs).
Definition is_context (v : Z) : bool := 2 ^ 64 - 4095 <=? v.
Definition contexts (bs : list Z) : Z := len (filter (fun v => is_context v = true) (chain_entries bs)).
Definition frames (bs : list Z) : Z := len (filter (fun v => is_context v <> true) (chain_entries bs)).

Section Fits.
Context (perf_event_max_stack perf_event_max_contexts_per_stack kprobe_type uprobe_type : Z).
Context (tep__event_size : Z -> Z).

(** The size of the event's fields, if it is known. *)
Let raw (a : attr) : Z := raw_size kprobe_type uprobe_type tep__event_size a.

(** What the kernel promises of the fields of variable size: as many frames as
    [sample_max_stack] says, or [perf_event_max_stack] without it, and at most
    [perf_event_max_contexts_per_stack] contexts; raw data with its length word
    fills whole words, and is the event's fields when these are known. *)
Definition kernel_limits (a : attr) (f : abi_field) (bs : list Z) : Prop :=
  match f with
  | A_callchain =>
      frames bs <= (if sample_max_stack a =? 0 then perf_event_max_stack else sample_max_stack a) /\
      contexts bs <= perf_event_max_contexts_per_stack
  | A_raw => 0 <= raw a -> (8 | len bs) /\ len bs < 4 + raw a + 8
  | _ => True
  end.

(** The bytes of a field that the code leaves out: the formats it does not know,
    the contexts of a call chain with [sample_max_stack], and the raw data of an
    event of unknown size. *)
Definition left_out (a : attr) (f : abi_field) (bs : list Z) : Z :=
  match f with
  | A_branch_stack | A_stack_user | A_aux | A_cgroup | A_data_page_size | A_code_page_size => len bs
  | A_weight => if Z.testbit (sample_type (a_evsel a)) 14 then 0 else len bs
  | A_callchain => if sample_max_stack a =? 0 then 0 else 8 * contexts bs
  | A_raw => if raw a <? 0 then len bs - 8 else 0
  | _ => 0
  end.

Definition sum_left_out (a : attr) (segs : list (list Z)) : Z :=
  foldr (fun x s => left_out a x.1 x.2 + s) 0 (zip (abi_fields (a_evsel a)) segs).

(** Values of the attributes for which the sizes do not leave an [int]. *)
Record attr_ok (a : attr) : Prop := {
  ok_evsel : evsel_ok (a_evsel a);
  ok_members : nr_members (a_evsel a) < 2 ^ 20;
  ok_max_stack : 0 <= sample_max_stack a < 2 ^ 16;
  ok_stacks : 0 <= perf_event_max_stack < 2 ^ 20 /\ 0 <= perf_event_max_contexts_per_stack < 2 ^ 20;
  ok_raw : raw a < 2 ^ 24
}.

(** What the code counts for a field. *)
Definition counted (a : attr) (f : abi_field) : Z :=
  match f with
  | A_branch_stack | A_stack_user | A_aux | A_cgroup | A_data_page_size | A_code_page_size => 0
  | A_pid | A_tid => 4
  | A_read => 8 * read_words (read_format (a_evsel a)) (nr_members (a_evsel a))
  | A_callchain => 8 + 8 * (if negb (sample_max_stack a =? 0) then sample_max_stack a
                            else perf_event_max_stack + perf_event_max_contexts_per_stack)
  | A_raw => if raw a <? 0 then 8 else round_up8 (raw a + 4)
  | A_weight => if Z.testbit (sample_type (a_evsel a)) 14 then 8 else 0
  | A_regs_user => 8 + 8 * Hweight.weight 64 (sample_regs_user (a_evsel a))
  | A_regs_intr => 8 + 8 * Hweight.weight 64 (sample_regs_intr (a_evsel a))
  | _ => 8
  end.

Definition sum_counted (a : attr) (l : list abi_field) : Z := foldr (fun f s => counted a f + s) 0 l.

Lemma if_b2z (b : bool) v : (if b then v else 0) = b2z b * v.
Proof using. destruct b; unfold b2z; lia. Qed.

Lemma sum_filter a st l : sum_counted a (filter (fun f => asked st f = true) l) =
  foldr (fun f s => (if asked st f then counted a f else 0) + s) 0 l.
Proof using.
  induction l as [|x l IH]; [done|]. rewrite filter_cons. cbn [foldr]. rewrite <- IH.
  destruct (asked st x); [rewrite decide_True by done|rewrite decide_False by done]; done.
Qed.

Lemma max_size_counted a : evsel_ok (a_evsel a) ->
  perf_sample_max_size perf_event_max_stack perf_event_max_contexts_per_stack kprobe_type uprobe_type
    tep__event_size a = s32 (sum_counted a (abi_fields (a_evsel a))).
Proof using.
  intros [_ Hu Hi]. unfold perf_sample_max_size. f_equal. unfold abi_fields. rewrite sum_filter.
  rewrite read_words_size, !Hweight.hweight64_weight by done. fold (raw a). set (st := sample_type (a_evsel a)).
  repeat match goal with |- context [has st ?v] => let n := eval vm_compute in (Z.log2 v) in
    change (has st v) with (has st (2 ^ n)); rewrite (has_pow2 st n) by lia end.
  cbn [abi_order foldr counted]. unfold asked. cbn [abi_bits existsb]. fold st. rewrite !orb_false_r.
  assert ((if Z.testbit st 14 || Z.testbit st 24 then if Z.testbit st 14 then 8 else 0 else 0) = b2z (Z.testbit st 14) * 8) as ->
    by (destruct (Z.testbit st 14), (Z.testbit st 24); done).
  rewrite !if_b2z. lia.
Qed.

Lemma words_length n : forall bs, length (words n bs) = n.
Proof using. induction n as [|n IH]; intros bs; cbn; [done|]. rewrite IH. done. Qed.

Lemma filter_split {A} (P : A -> Prop) `{forall x, Decision (P x)} (l : list A) :
  (length (filter P l) + length (filter (fun x => ~ P x) l) = length l)%nat.
Proof using.
  induction l as [|x l IH]; [done|]. rewrite !filter_cons. cbn. destruct (decide (P x)).
  - rewrite decide_False by tauto. cbn. lia.
  - rewrite decide_True by done. cbn. lia.
Qed.

Lemma chain_parts nr ips : 0 <= nr < 2 ^ 64 -> frames (enc 8 nr ++ ips) + contexts (enc 8 nr ++ ips) = nr.
Proof using.
  intros Hnr. assert (len (chain_entries (enc 8 nr ++ ips)) = nr) as Hl.
  { unfold chain_entries. rewrite words_length, take_app_length', le_enc by (rewrite ?enc_length; done). lia. }
  unfold frames, contexts. pose proof (filter_split (fun v => is_context v = true) (chain_entries (enc 8 nr ++ ips))). lia.
Qed.

(** [round_up8] is the next multiple of 8. *)
Lemma round_up8_mult x : 0 < x < 2 ^ 63 -> round_up8 x = 8 * ((x - 1) / 8) + 8.
Proof using.
  intros Hx. unfold round_up8. rewrite (uwrap_small 64 ltac:(lia) (x - 1)) by (unfold in_u; lia).
  assert (Z.lor (x - 1) 7 = 7 + 8 * ((x - 1) / 8)) as ->.
  { apply Z.bits_inj'. intros i Hi. rewrite Z.lor_spec. change 7 with (Z.ones 3) at 1. destruct (decide (i < 3)).
    - rewrite Z.ones_spec_low, orb_true_r by lia. rewrite <- (Z.mod_pow2_bits_low _ 3) by lia. change (2 ^ 3) with 8.
      rewrite Z.mul_comm, Z.mod_add by lia. change (7 mod 8) with (Z.ones 3). rewrite Z.ones_spec_low by lia. done.
    - rewrite Z.ones_spec_high, orb_false_r by lia. replace i with ((i - 3) + 3) by lia. rewrite <- !Z.div_pow2_bits by lia.
      change (2 ^ 3) with 8. rewrite (Z.mul_comm 8 ((x - 1) / 8)), Z.div_add by lia. done. }
  pose proof (Z.div_mod (x - 1) 8 ltac:(lia)). pose proof (Z.mod_pos_bound (x - 1) 8 ltac:(lia)).
  rewrite uwrap_small by (unfold in_u; lia). lia.
Qed.

Lemma raw_fits n l : 0 <= n < 2 ^ 24 -> (8 | l) -> l < 4 + n + 8 -> l <= round_up8 (n + 4).
Proof using. intros Hn [q ->] Hl. rewrite round_up8_mult by lia. pose proof (Z.div_mod (n + 4 - 1) 8 ltac:(lia)).
  pose proof (Z.mod_pos_bound (n + 4 - 1) 8 ltac:(lia)). lia. Qed.

(** A field has the bytes the code counts and those it leaves out. *)
Lemma field_counted a f bs : attr_ok a -> abi_bytes false false (a_evsel a) f bs -> kernel_limits a f bs ->
  len bs <= counted a f + left_out a f bs.
Proof using.
  intros [_ _ _ _ Hraw] Hb Hk. destruct Hb as [f v Hf|v|v|cpu res|values Hl|nr ips Hn Hl|size data Hs Hl|nr hw lbr cntr Hn Hh Hl Hc|f Hf|
    abi regs Ha Hl|abi regs Ha Hl| |size data dyn Hs Hl Hd|size data Hs Hl]; cbn [counted left_out kernel_limits] in *.
  - rewrite enc_length. unfold u64_fields in Hf.
    repeat (apply elem_of_cons in Hf as [->|Hf]; [cbn [counted left_out]; repeat case_match; rewrite ?enc_length; lia|]).
    apply elem_of_nil in Hf. done.
  - rewrite enc_length. lia.
  - rewrite enc_length. lia.
  - rewrite length_app, !enc_length. lia.
  - lia.
  - pose proof (chain_parts nr ips Hn). rewrite length_app, enc_length.
    destruct (Z.eqb_spec (sample_max_stack a) 0); cbn [negb]; lia.
  - destruct (Z.ltb_spec (raw a) 0); [lia|]. destruct Hk as [Hd Hk]; [done|]. rewrite Z.add_0_r. apply raw_fits; [lia|done|done].
  - lia.
  - rewrite enc_length. pose proof (Hweight.weight_bound 64 (sample_regs_user (a_evsel a))).
    pose proof (Hweight.weight_bound 64 (sample_regs_intr (a_evsel a))). destruct Hf as [->| ->]; cbn [counted left_out]; lia.
  - rewrite length_app, enc_length. lia.
  - rewrite length_app, enc_length. lia.
  - rewrite enc_length. lia.
  - lia.
  - lia.
Qed.

Lemma counted_bound a f : attr_ok a -> 0 <= counted a f < 2 ^ 25.
Proof using.
  intros [[Hn _ _] Hm Hs [Hst1 Hst2] Hraw]. pose proof (Hweight.weight_bound 64 (sample_regs_user (a_evsel a))).
  pose proof (Hweight.weight_bound 64 (sample_regs_intr (a_evsel a))).
  destruct f; cbn [counted]; try lia.
  - unfold read_words. destruct (Z.testbit _ 0), (Z.testbit _ 1), (Z.testbit _ 2), (Z.testbit _ 3), (Z.testbit _ 4); cbn [b2z]; lia.
  - destruct (negb _); lia.
  - destruct (Z.ltb_spec (raw a) 0); [lia|]. rewrite round_up8_mult by lia. pose proof (Z.div_mod (raw a + 4 - 1) 8 ltac:(lia)).
    pose proof (Z.mod_pos_bound (raw a + 4 - 1) 8 ltac:(lia)). lia.
  - case_match; lia.
Qed.

Lemma sum_counted_bound a l : attr_ok a -> 0 <= sum_counted a l <= len l * 2 ^ 25.
Proof using.
  intros Ha. induction l as [|f l IH]; [done|]. cbn. fold (sum_counted a l). pose proof (counted_bound a f Ha). lia.
Qed.


End Fits.

Definition chain_evsel : evsel := Evsel 1 (PERF_SAMPLE_TIME + PERF_SAMPLE_CALLCHAIN + PERF_SAMPLE_CGROUP) 0 0 0 1.
Definition chain_attr : attr := Attr chain_evsel 1 0 2 false 4 None 0 false.
Definition chain_segs : list (list Z) :=
  [enc 8 77; enc 8 3 ++ (enc 8 (2 ^ 64 - 512) ++ enc 8 1 ++ enc 8 2); enc 8 5].

Lemma chain_record : abi_record false false chain_evsel chain_segs.
Proof.
  unfold abi_record. replace (abi_fields chain_evsel) with [A_time; A_callchain; A_cgroup] by (vm_compute; reflexivity).
  unfold chain_segs. apply Forall2_cons_2; [apply AB_u64; unfold u64_fields; rewrite !elem_of_cons; tauto|].
  apply Forall2_cons_2; [apply AB_callchain; [lia|vm_compute; reflexivity]|].
  apply Forall2_cons_2; [apply AB_u64; unfold u64_fields; rewrite !elem_of_cons; tauto|constructor].
Qed.


(** The contexts of a call chain with [sample_max_stack] are not counted. *)
Example contexts_not_counted :
  perf_sample_max_size 127 8 6 7 (fun _ => -1) chain_attr = 32 /\ len (concat (take 2 chain_segs)) = 40 /\
  frames (enc 8 3 ++ (enc 8 (2 ^ 64 - 512) ++ enc 8 1 ++ enc 8 2)) = sample_max_stack chain_attr.
Proof. vm_compute. done. Qed.

(** The user stack, which [prof_dev_env2attr] asks for, is not counted. *)
Example stack_user_not_counted :
  let a := prof_dev_env2attr 0 None false false true 4096 chain_attr in
  sample_stack_user a = 4096 /\ has (sample_type (a_evsel a)) PERF_SAMPLE_STACK_USER = true /\
  perf_sample_max_size 127 8 6 7 (fun _ => -1) a = 200.
Proof. vm_compute. done. Qed.

(** ** Wake-ups *)

(** C22: the wake-up of a sampling event ([reduce_wakeup_times], for [--watermark]
    0 to 100 and a ring buffer up to the size the 32-bit computation can hold):
    it is either after a positive number of events, or after a number of bytes,
    never more than the ring buffer has; a percentage that is given is the
    percentage of the ring buffer, 0 stands for every event. *)
Theorem wakeup_within_buffer (pages : Z) (env_watermark : option Z) (has_parent : bool) (a : attr) :
  0 < pages -> sample_period (a_evsel a) <> 0 -> 0 <= wakeup a ->
  (watermark a = true -> wakeup a <= pages * 4096) ->
  (forall w, env_watermark = Some w -> 0 <= w <= 100) -> pages * 100 < 2 ^ 20 ->
  let a' := reduce_wakeup_times pages env_watermark has_parent a in
  (watermark a' = false /\ 1 <= wakeup a' /\
   (env_watermark = Some 0 \/ (env_watermark = None /\ watermark a = false /\ has_parent = false))) \/
  (watermark a' = true /\ wakeup a' <= pages * 4096 /\
   (forall w, env_watermark = Some w -> w <> 0 /\ wakeup a' = pages * 4096 * w / 100)).
Proof.
  intros Hp Hs Hw0 Hw He Hb. cbn zeta. unfold reduce_wakeup_times.
  rewrite (proj2 (Z.eqb_neq pages 0)), (proj2 (Z.eqb_neq (sample_period _) 0)) by lia.
  assert (forall w, 0 <= w <= 100 -> u32 (u32 (Z.shiftl pages 12) * u32 w) / 100 = pages * 4096 * w / 100 /\
    pages * 4096 * w / 100 <= pages * 4096) as Hmul.
  { intros w Hr. rewrite Z.shiftl_mul_pow2 by lia. change (2 ^ 12) with 4096.
    rewrite (uwrap_small 32 ltac:(lia) (pages * 4096)), (uwrap_small 32 ltac:(lia) w) by (unfold in_u; lia).
    rewrite uwrap_small by (unfold in_u; nia). split; [done|]. apply Z.div_le_upper_bound; nia. }
  destruct env_watermark as [w|].
  - destruct (Z.eqb_spec w 0) as [->|Hw0'].
    + left. cbn. auto with lia.
    + right. cbn [Z.eqb]. destruct (Hmul w (He w eq_refl)) as [E1 E2]. cbn. rewrite E1.
      split_and!; [done|done|]. intros ? [= <-]. done.
  - destruct (watermark a) eqn:Ew; cbn [negb].
    + right. cbn. specialize (Hw eq_refl). destruct (Hmul 50 ltac:(lia)) as [E1 E2].
      split_and!; [done| |done]. destruct (wakeup a =? 0); [|done]. change (u32 50) with 50 in *. lia.
    + destruct has_parent.
      * right. cbn. destruct (Hmul 50 ltac:(lia)) as [E1 E2]. split_and!; [done| |done].
        change (u32 50) with 50 in *. lia.
      * left. cbn. destruct (Z.eqb_spec (wakeup a) 0); auto with lia.
Qed.

Lemma wakeup_within_buffer_witness :
  let a' := reduce_wakeup_times 64 (Some 25) false chain_attr in
  (watermark a' = false /\ 1 <= wakeup a' /\
   (Some 25 = Some 0 \/ (Some 25 = None /\ watermark chain_attr = false /\ false = false))) \/
  (watermark a' = true /\ wakeup a' <= 64 * 4096 /\
   (forall w, Some 25 = Some w -> w <> 0 /\ wakeup a' = 64 * 4096 * w / 100)).
Proof.
  apply (wakeup_within_buffer 64 (Some 25) false chain_attr); try (cbn; done || lia).
  intros w [= <-]. lia.
Defined.

(** With more pages the product overflows: half of 256 MiB is not half. *)
Example watermark_overflow :
  wakeup (reduce_wakeup_times 65536 (Some 50) false chain_attr) = 5368709 /\ 65536 * 4096 * 50 / 100 = 134217728.
Proof. vm_compute. done. Qed.

End OrderSetup.
