(* ===== verification/OrderDev.v ===== *)
(** * The sources of an ordered device (order.c)

    [order_init] gathers the ring buffers and streams of a device and of the
    devices that forward their events to it (its sources, which may have sources
    of their own) into one list, and allocates the heap for them; streams are
    registered and unregistered, another device is joined, and a device is taken
    down. A device is linked to one target, so the devices are trees. What an
    allocation returns is given per device; [None] is the dereference of [NULL].
    The popped time (0) and the watermark ([OrderSetup]) that [order_init] also
    sets are left out here.

    The theorem says that nothing is lost and that the heap of an ordered device
    is large enough for its list. *)

From S2P Require Import Prelude.

Module OrderDev.

(** ** Data *)

(** An entry of [heap_event_list]: the ring buffer [idx] of a device, or a stream. *)
Inductive entry := RingEntry (dev : nat) (idx : nat) | StreamEntry (stream : Z).

#[export] Instance entry_eq_dec : EqDecision entry.
Proof. solve_decision. Defined.

(** [data]: the number of elements of the array of the heap, which has the same
    capacity; [permap_event]: the array of the ring buffers was allocated. *)
Record order_ctx := OrderCtx {
  enabled : bool; heap_size : Z; nr_mmaps : nat; nr_streams : Z;
  data : option Z; permap_event : bool; heap_event_list : list entry;
}.

(** A device: its number, its ring buffers, whether its samples have a time, and
    its sources ([forward.source_list]). *)
Inductive prof_dev := ProfDev (id : nat) (mmaps : nat) (sample_time : bool) (order : order_ctx) (sources : list prof_dev).

Definition dev_id (d : prof_dev) : nat := let '(ProfDev i _ _ _ _) := d in i.
Definition order (d : prof_dev) : order_ctx := let '(ProfDev _ _ _ o _) := d in o.
Definition sources (d : prof_dev) : list prof_dev := let '(ProfDev _ _ _ _ l) := d in l.
Definition set_order (d : prof_dev) (o : order_ctx) : prof_dev := let '(ProfDev i m t _ l) := d in ProfDev i m t o l.
Definition set_list (o : order_ctx) (l : list entry) : order_ctx :=
  OrderCtx (enabled o) (heap_size o) (nr_mmaps o) (nr_streams o) (data o) (permap_event o) l.

Definition is_stream (x : entry) : bool := match x with StreamEntry _ => true | RingEntry _ _ => false end.

(** The ring buffers of the device [i]. *)
Definition rings (i mmaps : nat) : list entry := map (RingEntry i) (seq 0 mmaps).

(** ** The code *)

(** [order_deinit]: [lists] are the lists of the other devices, which may hold the
    ring buffers of this one. The last part is the streams that are freed. *)
Definition order_deinit (i : nat) (o : order_ctx) (lists : list (list entry))
    : option (order_ctx * list (list entry) * list entry) :=
  if negb (permap_event o) && negb (nr_mmaps o =? 0)%nat then None
  else
    let unlink := List.filter (fun x => negb (bool_decide (x ∈ rings i (nr_mmaps o)))) in
    Some (OrderCtx (enabled o) (heap_size o) (nr_mmaps o) (nr_streams o) None false [],
          map unlink lists, List.filter is_stream (unlink (heap_event_list o))).

Section Init.
(** [calloc] and [posix_memalign] succeed for the device. *)
Context (calloc memalign : nat -> bool).

(** [order_init]; the result of the sources is not used. *)
Fixpoint order_init (d : prof_dev) : option (prof_dev * Z) :=
  let '(ProfDev i mmaps tm o srcs) := d in
  if enabled o then Some (d, 0)
  else if negb tm then Some (d, -1)
  else
    srcs ← (fix each (l : list prof_dev) : option (list prof_dev) :=
              match l with
              | [] => Some []
              | s :: l => '(s, _) ← order_init s; l ← each l; Some (s :: l)
              end) srcs;
    let hs := foldr (fun s n => heap_size (order s) + n) 0 srcs + Z.of_nat mmaps + nr_streams o in
    if negb (calloc i) then
      Some (ProfDev i mmaps tm (OrderCtx false hs (nr_mmaps o) (nr_streams o) None (permap_event o) (heap_event_list o)) srcs, -1)
    else if negb (memalign i) then
      '(o, _, _) ← order_deinit i (OrderCtx false hs mmaps (nr_streams o) (Some hs) false (heap_event_list o)) [];
      Some (ProfDev i mmaps tm o srcs, -1)
    else
      Some (ProfDev i mmaps tm
              (OrderCtx true hs mmaps (nr_streams o) (Some hs) true
                 ((heap_event_list o ++ rings i mmaps) ++ concat (map (fun s => heap_event_list (order s)) srcs)))
              (map (fun s => set_order s (set_list (order s) [])) srcs), 0).

(** [order_together] of a device that is already the top one; [mem]: the last
    [calloc] succeeds. *)
Definition order_together (mem : bool) (main dev : prof_dev) : option (prof_dev * prof_dev * Z) :=
  '(main, r) ← order_init main;
  if r <? 0 then Some (main, dev, -1)
  else
    '(dev, r) ← order_init dev;
    if r <? 0 then Some (main, dev, -1)
    else if negb mem then Some (main, dev, -1)
    else
      let o := order main in
      let hs := heap_size o + heap_size (order dev) in
      Some (set_order main (OrderCtx (enabled o) hs (nr_mmaps o) (nr_streams o) (Some hs) (permap_event o)
                              (heap_event_list o ++ heap_event_list (order dev))),
            set_order dev (set_list (order dev) []), 0).
End Init.

(** [order_main_dev]: the number of steps up the parents, from their contexts. *)
Fixpoint order_main_dev (parents : list order_ctx) : nat :=
  match parents with
  | [] => O
  | p :: parents => if enabled p then S (order_main_dev parents) else O
  end.

(** On the context of the main device. [got]: the entry was allocated; [mem]: the
    array of the heap was. *)
Definition order_register (got mem : bool) (c : order_ctx) (stream : Z) : order_ctx * Z :=
  if negb got then (c, -1)
  else if enabled c && negb mem then (c, -1)
  else
    let hs := if enabled c then heap_size c + 1 else heap_size c in
    (OrderCtx (enabled c) hs (nr_mmaps c) (nr_streams c + 1) (if enabled c then Some hs else data c)
       (permap_event c) (StreamEntry stream :: heap_event_list c), 0).

Fixpoint remove_first (x : entry) (l : list entry) : option (list entry) :=
  match l with
  | [] => None
  | y :: l => if decide (y = x) then Some l else (y ::.) <$> remove_first x l
  end.

Definition order_unregister (c : order_ctx) (stream : Z) : order_ctx :=
  match remove_first (StreamEntry stream) (heap_event_list c) with
  | Some l => OrderCtx (enabled c) (heap_size c) (nr_mmaps c) (nr_streams c - 1) (data c) (permap_event c) l
  | None => c
  end.

(** ** The invariant *)

(** The array of an ordered device has room for its list; the list of a device
    that is not ordered are the streams that were registered. *)
Definition ctx_ok (o : order_ctx) : Prop :=
  if enabled o then data o = Some (heap_size o) /\ Z.of_nat (length (heap_event_list o)) <= heap_size o
  else Z.of_nat (length (heap_event_list o)) <= nr_streams o.

(** Of a device and its sources. *)
Fixpoint dev_all (P : nat -> nat -> bool -> order_ctx -> Prop) (d : prof_dev) : Prop :=
  let '(ProfDev i m t o srcs) := d in
  P i m t o /\ foldr (fun s Q => dev_all P s /\ Q) True srcs.

Definition dev_ok : prof_dev -> Prop := dev_all (fun _ _ _ o => ctx_ok o).

(** Every device of the tree samples the time. *)
Definition timed : prof_dev -> Prop := dev_all (fun _ _ t _ => t = true).

(** The entries of the lists of a device and its sources. *)
Fixpoint entries (d : prof_dev) : list entry :=
  let '(ProfDev _ _ _ o srcs) := d in heap_event_list o ++ concat (map entries srcs).

(** The ring buffers that are not in a list: those of the devices that are not
    ordered. *)
Fixpoint waiting (d : prof_dev) : list entry :=
  let '(ProfDev i m _ o srcs) := d in
  (if enabled o then [] else rings i m) ++ concat (map waiting srcs).

(** Below an ordered device the devices are ordered and their lists empty. *)
Fixpoint gathered (d : prof_dev) : Prop :=
  let '(ProfDev _ _ _ o srcs) := d in
  if enabled o then concat (map entries srcs) = [] /\ concat (map waiting srcs) = [] else foldr (fun s Q => gathered s /\ Q) True srcs.

(** ** Trees *)

Lemma prof_dev_tree_ind (P : prof_dev -> Prop) :
  (forall i m t o srcs, Forall P srcs -> P (ProfDev i m t o srcs)) -> forall d, P d.
Proof.
  intros H. fix IH 1. intros [i m t o srcs]. apply H. induction srcs as [|s srcs IHs]; constructor; [apply IH|exact IHs].
Qed.

Lemma foldr_forall {A} (P : A -> Prop) l : foldr (fun x Q => P x /\ Q) True l <-> Forall P l.
Proof. induction l as [|x l IH]; simpl; [done|]. rewrite list.Forall_cons, IH. done. Qed.

Lemma dev_all_eq P i m t o srcs : dev_all P (ProfDev i m t o srcs) <-> P i m t o /\ Forall (dev_all P) srcs.
Proof. simpl. rewrite foldr_forall. done. Qed.

Section Proof.
Context (calloc memalign : nat -> bool) (Hmem : forall i, memalign i = true).

Fixpoint init_all (l : list prof_dev) : option (list prof_dev) :=
  match l with
  | [] => Some []
  | s :: l => '(s, _) ← order_init calloc memalign s; l ← init_all l; Some (s :: l)
  end.

Lemma order_init_eq i mmaps tm o srcs : order_init calloc memalign (ProfDev i mmaps tm o srcs) =
  if enabled o then Some (ProfDev i mmaps tm o srcs, 0)
  else if negb tm then Some (ProfDev i mmaps tm o srcs, -1)
  else
    srcs ← init_all srcs;
    let hs := foldr (fun s n => heap_size (order s) + n) 0 srcs + Z.of_nat mmaps + nr_streams o in
    if negb (calloc i) then
      Some (ProfDev i mmaps tm (OrderCtx false hs (nr_mmaps o) (nr_streams o) None (permap_event o) (heap_event_list o)) srcs, -1)
    else
      Some (ProfDev i mmaps tm
              (OrderCtx true hs mmaps (nr_streams o) (Some hs) true
                 ((heap_event_list o ++ rings i mmaps) ++ concat (map (fun s => heap_event_list (order s)) srcs)))
              (map (fun s => set_order s (set_list (order s) [])) srcs), 0).
Proof using Hmem. simpl. rewrite Hmem. done. Qed.

(** What [order_init] makes of a device. *)
Record initialised (d d' : prof_dev) : Prop := {
  in_ok : dev_ok d';
  in_timed : timed d';
  in_size : Z.of_nat (length (heap_event_list (order d'))) <= heap_size (order d');
  in_all : entries d' ++ waiting d' ≡ₚ entries d ++ waiting d;
  in_done : (forall i, calloc i = true) -> gathered d ->
    enabled (order d') = true /\ gathered d' /\ entries d' = heap_event_list (order d') /\ waiting d' = [];
}.

Lemma rings_length i m : length (rings i m) = m.
Proof. unfold rings. rewrite length_map, length_seq. done. Qed.

Lemma entries_clear d : entries d ≡ₚ heap_event_list (order d) ++ entries (set_order d (set_list (order d) [])).
Proof. destruct d. simpl. done. Qed.

(** The lists of the sources move to the list of the device. *)
Lemma entries_move l : concat (map entries l) ≡ₚ
  concat (map (fun s => heap_event_list (order s)) l) ++ concat (map (fun s => entries (set_order s (set_list (order s) []))) l).
Proof.
  induction l as [|s l IH]; simpl; [done|]. rewrite IH, (entries_clear s). solve_Permutation.
Qed.

Lemma waiting_clear d : waiting (set_order d (set_list (order d) [])) = waiting d.
Proof. destruct d. done. Qed.

Lemma sources_size l l' : Forall2 initialised l l' ->
  Z.of_nat (length (concat (map (fun s => heap_event_list (order s)) l'))) <= foldr (fun s n => heap_size (order s) + n) 0 l'.
Proof.
  induction 1 as [|s s' l l' Hs _ IH]; simpl; [done|]. rewrite length_app. pose proof (in_size _ _ Hs). lia.
Qed.

Lemma sources_all l l' : Forall2 initialised l l' ->
  concat (map entries l') ++ concat (map waiting l') ≡ₚ concat (map entries l) ++ concat (map waiting l).
Proof.
  induction 1 as [|s s' l l' Hs _ IH]; simpl; [done|]. pose proof (in_all _ _ Hs) as Ha.
  transitivity ((entries s' ++ waiting s') ++ (concat (map entries l') ++ concat (map waiting l'))); [solve_Permutation|].
  rewrite Ha, IH. solve_Permutation.
Qed.

Lemma init_all_spec srcs : Forall timed srcs -> Forall dev_ok srcs ->
  Forall (fun d => timed d -> dev_ok d ->
    exists d' r, order_init calloc memalign d = Some (d', r) /\ initialised d d' /\
      r = if enabled (order d') then 0 else -1) srcs ->
  exists srcs', init_all srcs = Some srcs' /\ Forall2 initialised srcs srcs'.
Proof using.
  intros Ht Ho H. induction H as [|s srcs Hs _ IH]; [exists []; split; [done|constructor]|].
  apply list.Forall_cons in Ht as [Ht1 Ht]. apply list.Forall_cons in Ho as [Ho1 Ho].
  destruct (Hs Ht1 Ho1) as (s' & r & E & Hi & _). destruct (IH Ht Ho) as (srcs' & E' & H2). simpl. rewrite E. simpl.
  rewrite E'. exists (s' :: srcs'). split; [done|]. constructor; done.
Qed.

Lemma forall2_right (P : prof_dev -> Prop) l l' : Forall2 initialised l l' -> (forall d d', initialised d d' -> P d') -> Forall P l'.
Proof. intros H HP. induction H; constructor; eauto. Qed.

Lemma clear_forall (P : nat -> nat -> bool -> order_ctx -> Prop) l : (forall i m t o, P i m t o -> P i m t (set_list o [])) ->
  Forall (dev_all P) l -> Forall (dev_all P) (map (fun s => set_order s (set_list (order s) [])) l).
Proof.
  intros HP H. induction H as [|[i m t o srcs] l Hs _ IH]; constructor; [|done].
  rewrite dev_all_eq in Hs. simpl set_order. apply dev_all_eq. destruct Hs. split; [apply HP; done|done].
Qed.

Lemma ctx_ok_clear o : ctx_ok o -> ctx_ok (set_list o []).
Proof. unfold ctx_ok. simpl. destruct (enabled o); intros H; [destruct H; split; [done|]|]; lia. Qed.

(** With every allocation, all lists of the sources have moved and are empty. *)
Lemma sources_done l l' : (forall i, calloc i = true) -> Forall2 initialised l l' -> Forall gathered l ->
  concat (map entries (map (fun s => set_order s (set_list (order s) [])) l')) = [] /\
  concat (map waiting (map (fun s => set_order s (set_list (order s) [])) l')) = [].
Proof.
  intros Hc H Hg. induction H as [|s s' l l' Hs _ IH]; [done|]. apply list.Forall_cons in Hg as [Hg1 Hg].
  destruct (IH Hg) as [IH1 IH2]. destruct (in_done _ _ Hs Hc Hg1) as (He & Hg' & Hl & Hw).
  simpl. rewrite IH1, IH2, !app_nil_r. rewrite waiting_clear. split; [|done].
  destruct s' as [i m t o srcs]. simpl in *. apply (f_equal length) in Hl. rewrite length_app in Hl.
  apply nil_length_inv. lia.
Qed.

Lemma order_init_spec d : timed d -> dev_ok d ->
  exists d' r, order_init calloc memalign d = Some (d', r) /\ initialised d d' /\
    r = if enabled (order d') then 0 else -1.
Proof using Hmem.
  induction d as [i m t o srcs IH] using prof_dev_tree_ind. intros Ht Ho. unfold timed, dev_ok in Ht, Ho.
  rewrite dev_all_eq in Ht, Ho. destruct Ht as [-> Hts], Ho as [Hoo Hos]. rewrite order_init_eq. unfold ctx_ok in Hoo.
  destruct (enabled o) eqn:Eo.
  { eexists _, _. split; [reflexivity|]. split; [|simpl; rewrite Eo; done]. destruct Hoo as [Hd Hl]. split.
    - apply dev_all_eq. unfold ctx_ok. rewrite Eo. done.
    - apply dev_all_eq. done.
    - done.
    - done.
    - intros _ Hg. simpl in *. rewrite Eo in *. destruct Hg as [G1 G2]. rewrite G1, G2, app_nil_r. done. }
  destruct (init_all_spec srcs Hts Hos IH) as (srcs' & -> & H2). simpl. pose proof (sources_size _ _ H2) as Hsz.
  pose proof (sources_all _ _ H2) as Hall. set (hs := foldr _ 0 srcs' + Z.of_nat m + nr_streams o).
  assert (Forall dev_ok srcs') as Hok by (apply (forall2_right _ _ _ H2); intros ? ?; apply in_ok).
  assert (Forall timed srcs') as Htm by (apply (forall2_right _ _ _ H2); intros ? ?; apply in_timed).
  destruct (calloc i) eqn:Ec; simpl; eexists _, _; (split; [reflexivity|]; split; [|done]).
  - split.
    + apply dev_all_eq. split; [|apply clear_forall; [intros ????; apply ctx_ok_clear|done]]. unfold ctx_ok. simpl. split; [done|].
      rewrite !length_app, rings_length. lia.
    + apply dev_all_eq. split; [done|]. apply clear_forall; done.
    + simpl. rewrite !length_app, rings_length. lia.
    + simpl. rewrite Eo, map_map, map_map. rewrite (map_ext _ _ waiting_clear).
      transitivity (heap_event_list o ++ rings i m ++ (concat (map entries srcs') ++ concat (map waiting srcs'))).
      { rewrite (entries_move srcs'). solve_Permutation. }
      rewrite Hall. solve_Permutation.
    + intros Hc Hg. simpl in *. rewrite Eo, foldr_forall in Hg. destruct (sources_done _ _ Hc H2 Hg) as [-> ->].
      rewrite app_nil_r. done.
  - split.
    + apply dev_all_eq. split; [|done]. unfold ctx_ok. simpl. done.
    + apply dev_all_eq. done.
    + simpl. lia.
    + simpl. rewrite Eo.
      transitivity (heap_event_list o ++ rings i m ++ (concat (map entries srcs') ++ concat (map waiting srcs'))); [solve_Permutation|].
      rewrite Hall. solve_Permutation.
    + intros Hc. rewrite Hc in Ec. done.
Qed.

End Proof.

(** ** Streams *)

(** The streams of a list. *)
Definition streams (c : order_ctx) : Z := Z.of_nat (length (List.filter is_stream (heap_event_list c))).

Lemma remove_first_length x l l' : is_stream x = true -> remove_first x l = Some l' ->
  length l = S (length l') /\ length (List.filter is_stream l) = S (length (List.filter is_stream l')).
Proof.
  intros Hx. revert l'. induction l as [|y l IH]; intros l'; cbn [remove_first]; [done|]. case_decide as E.
  - intros [= <-]. subst y. simpl. rewrite Hx. done.
  - destruct (remove_first x l) as [r|]; [|done]. intros [= <-]. destruct (IH _ eq_refl) as [H1 H2]. simpl.
    destruct (is_stream y); simpl; lia.
Qed.

(** What registering and unregistering a stream keep. *)
Definition stream_ops_ok (c : order_ctx) : Prop := forall got mem stream,
  let '(c', r) := order_register got mem c stream in
  ctx_ok c' /\ ctx_ok (order_unregister c stream) /\
  nr_streams c' - streams c' = nr_streams c - streams c /\
  nr_streams (order_unregister c stream) - streams (order_unregister c stream) = nr_streams c - streams c /\
  (r = -1 /\ c' = c \/
   r = 0 /\ nr_streams (order_unregister c' stream) = nr_streams c /\
   heap_event_list (order_unregister c' stream) = heap_event_list c).

Lemma streams_ok c : ctx_ok c -> stream_ops_ok c.
Proof.
  intros Hc got mem stream.
  assert (ctx_ok (order_unregister c stream) /\
    nr_streams (order_unregister c stream) - streams (order_unregister c stream) = nr_streams c - streams c) as [H1 H2].
  { unfold order_unregister, streams, ctx_ok in *. destruct (remove_first _ _) as [l|] eqn:E; [|done].
    apply remove_first_length in E as [E1 E2]; [|done]. simpl. destruct (enabled c); [split; [split; [tauto|]|]|split]; lia. }
  unfold order_register. destruct got; cbn [negb]; [|split_and!; auto].
  destruct (enabled c) eqn:En; cbn [andb].
  - destruct mem; cbn [negb]; [|split_and!; auto]. unfold ctx_ok, streams in *. simpl. rewrite En in *. split_and!; try done; try lia.
    right. unfold order_unregister. simpl. rewrite decide_True by done. simpl. split_and!; [done|lia|done].
  - unfold ctx_ok, streams in *. simpl. rewrite En in *. split_and!; try done; try lia.
    right. unfold order_unregister. simpl. rewrite decide_True by done. simpl. split_and!; [done|lia|done].
Qed.

(** ** The theorem *)

Lemma order_ok d : dev_ok d -> ctx_ok (order d).
Proof. destruct d. unfold dev_ok. rewrite dev_all_eq. intros []. done. Qed.

Lemma dev_ok_set d o : dev_ok d -> ctx_ok o -> dev_ok (set_order d o).
Proof. destruct d. unfold dev_ok. simpl set_order. rewrite !dev_all_eq. intros []. done. Qed.

Lemma entries_set d l : entries (set_order d (set_list (order d) (heap_event_list (order d) ++ l))) ≡ₚ l ++ entries d.
Proof. destruct d. simpl. solve_Permutation. Qed.

Lemma together_spec calloc memalign mem main dev : (forall i, memalign i = true) ->
  timed main -> timed dev -> dev_ok main -> dev_ok dev ->
  exists main' dev' r, order_together calloc memalign mem main dev = Some (main', dev', r) /\ dev_ok main' /\ dev_ok dev' /\
    (entries main' ++ entries dev') ++ (waiting main' ++ waiting dev') ≡ₚ
    (entries main ++ entries dev) ++ (waiting main ++ waiting dev) /\
    (r = 0 -> heap_event_list (order dev') = []).
Proof.
  intros Hm Tm Td Om Od. unfold order_together.
  destruct (order_init_spec calloc memalign Hm main Tm Om) as (m1 & r1 & -> & Hi1 & Er1). simpl.
  destruct (Z.ltb_spec r1 0) as [|Hr1].
  { eexists _, _, _. split; [reflexivity|]. split_and!; [apply (in_ok _ _ _ Hi1)|done| |done].
    transitivity ((entries m1 ++ waiting m1) ++ entries dev ++ waiting dev); [solve_Permutation|].
    rewrite (in_all _ _ _ Hi1). solve_Permutation. }
  destruct (order_init_spec calloc memalign Hm dev Td Od) as (d1 & r2 & -> & Hi2 & Er2). simpl.
  assert ((entries m1 ++ entries d1) ++ (waiting m1 ++ waiting d1) ≡ₚ (entries main ++ entries dev) ++ (waiting main ++ waiting dev)) as Hp.
  { transitivity ((entries m1 ++ waiting m1) ++ entries d1 ++ waiting d1); [solve_Permutation|].
    rewrite (in_all _ _ _ Hi1), (in_all _ _ _ Hi2). solve_Permutation. }
  pose proof (in_ok _ _ _ Hi1) as O1. pose proof (in_ok _ _ _ Hi2) as O2.
  destruct (Z.ltb_spec r2 0) as [|Hr2]; [eexists _, _, _; split; [reflexivity|]; split_and!; done|].
  destruct mem; simpl; [|eexists _, _, _; split; [reflexivity|]; split_and!; done].
  eexists _, _, _. split; [reflexivity|]. pose proof (in_size _ _ _ Hi2) as S2.
  assert (enabled (order m1) = true) as E1 by (destruct (enabled (order m1)); [done|lia]). split_and!.
  - apply dev_ok_set; [done|]. apply order_ok in O1. unfold ctx_ok in *. simpl. rewrite E1 in *. split; [done|].
    rewrite length_app. destruct O1. lia.
  - apply dev_ok_set; [done|]. apply ctx_ok_clear, order_ok. done.
  - rewrite <- Hp, waiting_clear. destruct m1 as [i m t o srcs]. simpl. rewrite (entries_clear d1). solve_Permutation.
  - intros _. destruct d1. done.
Qed.

(** C23: when the arrays of the ring buffers are allocated and the devices sample
    the time, [order_init] and [order_together] never fault, and whatever other
    allocation fails, the heap of an ordered device has room for every entry of
    its list and no ring buffer or stream is lost: each is in one of the lists or
    belongs to a device that is not ordered. With memory, [order_init] gathers all
    of them in the list of the device. Registering and unregistering streams keep
    the heap large enough and the number of streams right; they undo each other. *)
Theorem order_lists_fit (calloc memalign : nat -> bool) (mem : bool) (main dev : prof_dev) :
  (forall i, memalign i = true) -> timed main -> timed dev -> dev_ok main -> dev_ok dev ->
  (exists d r, order_init calloc memalign main = Some (d, r) /\ dev_ok d /\
    entries d ++ waiting d ≡ₚ entries main ++ waiting main /\ r = (if enabled (order d) then 0 else -1) /\
    ((forall i, calloc i = true) -> gathered main ->
     r = 0 /\ gathered d /\ heap_event_list (order d) ≡ₚ entries main ++ waiting main)) /\
  (exists main' dev' r, order_together calloc memalign mem main dev = Some (main', dev', r) /\ dev_ok main' /\ dev_ok dev' /\
    (entries main' ++ entries dev') ++ (waiting main' ++ waiting dev') ≡ₚ
    (entries main ++ entries dev) ++ (waiting main ++ waiting dev) /\
    (r = 0 -> heap_event_list (order dev') = [])) /\
  stream_ops_ok (order main).
Proof.
  intros Hm Tm Td Om Od. split; [|split; [apply together_spec; done|apply streams_ok, order_ok, Om]].
  destruct (order_init_spec calloc memalign Hm main Tm Om) as (d & r & E & Hi & Er). exists d, r.
  split_and!; [done|apply (in_ok _ _ _ Hi)|apply (in_all _ _ _ Hi)|done|]. intros Hc Hg.
  destruct (in_done _ _ _ Hi Hc Hg) as (He & Hg' & Hl & Hw). rewrite He in Er. split_and!; [done|done|].
  rewrite <- (in_all _ _ _ Hi), Hl, Hw, app_nil_r. done.
Qed.

Definition empty_ctx : order_ctx := OrderCtx false 0 0 0 None false [].

(** A device with two ring buffers, a stream and a source with a stream. *)
Definition demo_source : prof_dev :=
  ProfDev 1 1 true (order_register true true empty_ctx 70).1 [].
Definition demo_dev : prof_dev :=
  ProfDev 0 2 true (order_register true true empty_ctx 60).1 [demo_source].

Lemma order_lists_fit_witness :
  dev_ok demo_dev /\ timed demo_dev /\
  exists d, order_init (fun _ => true) (fun _ => true) demo_dev = Some (d, 0) /\
  heap_event_list (order d) ≡ₚ [StreamEntry 60; StreamEntry 70; RingEntry 0 0; RingEntry 0 1; RingEntry 1 0].
Proof.
  assert (dev_ok demo_dev) as Ho by (vm_compute; repeat split; discriminate).
  assert (timed demo_dev) as Ht by (vm_compute; done).
  split; [exact Ho|]. split; [exact Ht|].
  destruct (order_lists_fit (fun _ => true) (fun _ => true) true demo_dev demo_dev ltac:(done) Ht Ht Ho Ho)
    as ((d & r & E & _ & _ & _ & H) & _). destruct H as (-> & _ & Hp); [done|vm_compute; done|]. exists d. split; [exact E|exact Hp].
Defined.

(** A source without a time is not counted, but its streams are moved: the heap is
    too small for the list. *)
Example source_not_counted :
  let src := ProfDev 1 0 false (order_register true true empty_ctx 70).1 [] in
  (d ← order_init (fun _ => true) (fun _ => true) (ProfDev 0 1 true empty_ctx [src]);
   Some (data (order d.1), length (heap_event_list (order d.1)))) = Some (Some 1, 2%nat).
Proof. reflexivity. Qed.

(** Without memory for the ring buffers the array is used all the same. *)
Example failed_init_uses_null :
  order_init (fun _ => true) (fun _ => false) (ProfDev 0 1 true empty_ctx []) = None.
Proof. reflexivity. Qed.

(** The streams of a source are not in the number of streams of its target. *)
Example moved_streams_not_counted :
  (d ← order_init (fun _ => true) (fun _ => true) (ProfDev 0 2 true empty_ctx [demo_source]);
   Some (nr_streams (order d.1), streams (order d.1))) = Some (0, 1).
Proof. reflexivity. Qed.

(** Taking a device down unlinks its ring buffers from every list. *)
Lemma deinit_unlinks i o lists o' lists' fr : order_deinit i o lists = Some (o', lists', fr) ->
  heap_event_list o' = [] /\ Forall (fun l => forall k, (k < nr_mmaps o)%nat -> RingEntry i k ∉ l) lists' /\
  Forall2 (fun l l' => sublist l' l) lists lists'.
Proof.
  unfold order_deinit. destruct (negb (permap_event o) && _); [done|]. intros [= <- <- <-]. split_and!; [done| |].
  - apply list.Forall_forall. intros l Hl k Hk Hin. apply list_elem_of_fmap in Hl as (l0 & -> & _).
    apply list_elem_of_In, List.filter_In in Hin as [_ Hn]. apply negb_true_iff, bool_decide_eq_false in Hn. apply Hn.
    unfold rings. apply list_elem_of_fmap. exists k. split; [done|]. apply list_elem_of_In, in_seq. lia.
  - induction lists as [|l lists IH]; constructor; [|exact IH]. clear. induction l as [|x l IH]; simpl; [constructor|].
    destruct (negb _); constructor; exact IH.
Qed.

End OrderDev.
