(* ===== verification/Rbtree.v ===== *)
(** * Red-black trees (rbtree.c, rbtree.h, rbtree_augmented.h)

    The insertion and the removal of a node with their rotations and color
    changes. The nodes of a tree point to their parents; a node of a tree is here
    its subtree with the path from it to the root, each step of which is the
    parent with its other subtree. Moving to the parent is taking a step off the
    path. [None] is the dereference of [NULL].

    The lemmas say that both keep the five rules of the comment in rbtree.c, that
    the nodes in order change only by the node itself, and that [rb_first],
    [rb_next], [rb_last] and [rb_prev] walk over them. *)

From S2P Require Import Prelude.

Module Rbtree.

Inductive color := RB_RED | RB_BLACK.

Inductive tree (A : Type) := Leaf | Node (c : color) (rb_left : tree A) (x : A) (rb_right : tree A).
Arguments Leaf {A}.
Arguments Node {A}.

(** A parent: the node is its left child, with the right subtree given, or its
    right child. *)
Inductive frame (A : Type) := LeftOf (c : color) (x : A) (rb_right : tree A) | RightOf (c : color) (rb_left : tree A) (x : A).
Arguments LeftOf {A}.
Arguments RightOf {A}.

(** ** The code *)

Section Code.
Context {A : Type}.
Implicit Types (t l r : tree A) (x : A) (f : frame A) (p : list (frame A)).

Definition up (t : tree A) (f : frame A) : tree A :=
  match f with LeftOf c x r => Node c t x r | RightOf c l x => Node c l x t end.

(** The tree of a node and the path to the root. *)
Fixpoint plug (t : tree A) (p : list (frame A)) : tree A :=
  match p with [] => t | f :: p => plug (up t f) p end.

Definition rb_is_red (t : tree A) : bool := match t with Node RB_RED _ _ _ => true | _ => false end.

(** [if (tmp) rb_set_parent_color (tmp, ..., color)] *)
Definition set_color (c : color) (t : tree A) : tree A :=
  match t with Leaf => Leaf | Node _ l x r => Node c l x r end.

Definition frame_color (f : frame A) : color := match f with LeftOf c _ _ | RightOf c _ _ => c end.

(** [__rb_insert]: the red node with the subtrees [l] and [r]. *)
Fixpoint __rb_insert (l : tree A) (x : A) (r : tree A) (p : list (frame A)) : option (tree A) :=
  match p with
  | [] => Some (Node RB_BLACK l x r)
  | parent :: p' =>
      match frame_color parent with
      | RB_BLACK => Some (plug (Node RB_RED l x r) p)
      | RB_RED =>
          match p' with
          | [] => None
          | LeftOf gc gx tmp :: p'' =>
              if rb_is_red tmp then
                (* case 1 *)
                __rb_insert (set_color RB_BLACK (up (Node RB_RED l x r) parent)) gx (set_color RB_BLACK tmp) p''
              else
                match parent with
                | RightOf _ pl px =>
                    (* cases 2 and 3 *)
                    Some (plug (Node gc (Node RB_RED pl px (set_color RB_BLACK l)) x
                                  (Node RB_RED (set_color RB_BLACK r) gx tmp)) p'')
                | LeftOf _ px pr =>
                    (* case 3 *)
                    Some (plug (Node gc (Node RB_RED l x r) px (Node RB_RED (set_color RB_BLACK pr) gx tmp)) p'')
                end
          | RightOf gc tmp gx :: p'' =>
              if rb_is_red tmp then
                __rb_insert (set_color RB_BLACK tmp) gx (set_color RB_BLACK (up (Node RB_RED l x r) parent)) p''
              else
                match parent with
                | LeftOf _ px pr =>
                    Some (plug (Node gc (Node RB_RED tmp gx (set_color RB_BLACK l)) x
                                  (Node RB_RED (set_color RB_BLACK r) px pr)) p'')
                | RightOf _ pl px =>
                    Some (plug (Node gc (Node RB_RED tmp gx (set_color RB_BLACK pl)) px (Node RB_RED l x r)) p'')
                end
          end
      end
  end.

(** [rb_link_node] at the end of the path and [rb_insert_color] *)
Definition rb_insert_color (x : A) (p : list (frame A)) : option (tree A) := __rb_insert Leaf x Leaf p.

(** Cases 2 to 4 of [____rb_erase_color] for a parent of color [pc] with the node
    [n] at the left and the sibling at the right: what takes the place of the
    parent, and whether the loop goes on with it. *)
Definition sibling_right (pc : color) (n : tree A) (px : A) (sibling : tree A) : option (tree A * bool) :=
  match sibling with
  | Leaf => None
  | Node sc sl sx sr =>
      if rb_is_red sr then
        (* case 4 *)
        Some (Node pc (Node RB_BLACK n px sl) sx (set_color RB_BLACK sr), false)
      else
        match sl with
        | Node RB_RED sll slx slr =>
            (* cases 3 and 4 *)
            Some (Node pc (Node RB_BLACK n px sll) slx (Node RB_BLACK (set_color RB_BLACK slr) sx sr), false)
        | _ =>
            (* case 2 *)
            Some (Node RB_BLACK n px (Node RB_RED sl sx sr), match pc with RB_RED => false | RB_BLACK => true end)
        end
  end.

Definition sibling_left (pc : color) (sibling : tree A) (px : A) (n : tree A) : option (tree A * bool) :=
  match sibling with
  | Leaf => None
  | Node sc sl sx sr =>
      if rb_is_red sl then
        Some (Node pc (set_color RB_BLACK sl) sx (Node RB_BLACK sr px n), false)
      else
        match sr with
        | Node RB_RED srl srx srr =>
            Some (Node pc (Node RB_BLACK sl sx (set_color RB_BLACK srl)) srx (Node RB_BLACK srr px n), false)
        | _ =>
            Some (Node RB_BLACK (Node RB_RED sl sx sr) px n, match pc with RB_RED => false | RB_BLACK => true end)
        end
  end.

(** One round of the loop, case 1 first. *)
Definition erase_round (n : tree A) (f : frame A) : option (tree A * bool) :=
  match f with
  | LeftOf pc px (Node RB_RED sl sx sr) =>
      match sl with
      | Leaf => None
      | _ => '(t, b) ← sibling_right RB_RED n px (set_color RB_BLACK sl); Some (Node pc t sx sr, b)
      end
  | LeftOf pc px sibling => sibling_right pc n px sibling
  | RightOf pc (Node RB_RED sl sx sr) px =>
      match sr with
      | Leaf => None
      | _ => '(t, b) ← sibling_left RB_RED (set_color RB_BLACK sr) px n; Some (Node pc sl sx t, b)
      end
  | RightOf pc sibling px => sibling_left pc sibling px n
  end.

(** [____rb_erase_color] with the parent at the head of the path. *)
Fixpoint rb_erase_color (n : tree A) (p : list (frame A)) : option (tree A) :=
  match p with
  | [] => Some n
  | f :: p => '(t, b) ← erase_round n f; if (b : bool) then rb_erase_color t p else Some (plug t p)
  end.

(** The successor in the right subtree: its color, its element, its right subtree
    and the path from it. *)
Fixpoint successor (c : color) (l : tree A) (x : A) (r : tree A) (p : list (frame A))
    : color * A * tree A * list (frame A) :=
  match l with
  | Leaf => (c, x, r, p)
  | Node c' l' x' r' => successor c' l' x' r' (LeftOf c x r :: p)
  end.

(** [rb_erase] of the node with color [c] and the subtrees [l] and [r]. *)
Definition rb_erase (c : color) (l : tree A) (r : tree A) (p : list (frame A)) : option (tree A) :=
  match l, r with
  | Leaf, Leaf => match c with RB_BLACK => rb_erase_color Leaf p | RB_RED => Some (plug Leaf p) end
  | Leaf, child => Some (plug (set_color c child) p)
  | tmp, Leaf => Some (plug (set_color c tmp) p)
  | _, Node rc rl rx rr =>
      let '(sc, sx, child2, q) := successor rc rl rx rr [] in
      let p := q ++ RightOf c l sx :: p in
      match child2 with
      | Leaf => match sc with RB_BLACK => rb_erase_color Leaf p | RB_RED => Some (plug Leaf p) end
      | _ => Some (plug (set_color RB_BLACK child2) p)
      end
  end.

(** [rb_first], [rb_last] *)
Fixpoint rb_first (t : tree A) : option A :=
  match t with Leaf => None | Node _ Leaf x _ => Some x | Node _ l _ _ => rb_first l end.

Fixpoint rb_last (t : tree A) : option A :=
  match t with Leaf => None | Node _ _ x Leaf => Some x | Node _ _ _ r => rb_last r end.

(** The way up of [rb_next]: the first parent whose left child the node is under. *)
Fixpoint next_up (p : list (frame A)) : option A :=
  match p with [] => None | LeftOf _ x _ :: _ => Some x | RightOf _ _ _ :: p => next_up p end.

Fixpoint prev_up (p : list (frame A)) : option A :=
  match p with [] => None | RightOf _ _ x :: _ => Some x | LeftOf _ _ _ :: p => prev_up p end.

Definition rb_next (r : tree A) (p : list (frame A)) : option A :=
  match r with Leaf => next_up p | _ => rb_first r end.

Definition rb_prev (l : tree A) (p : list (frame A)) : option A :=
  match l with Leaf => prev_up p | _ => rb_last l end.

End Code.

(** ** The nodes in order *)

Section Order.
Context {A : Type}.
Implicit Types (t l r : tree A) (x : A) (f : frame A) (p : list (frame A)).

Fixpoint inorder t : list A := match t with Leaf => [] | Node _ l x r => inorder l ++ x :: inorder r end.

(** The nodes before and after a place. *)
Fixpoint before p : list A :=
  match p with [] => [] | LeftOf _ _ _ :: p => before p | RightOf _ l x :: p => before p ++ inorder l ++ [x] end.

Fixpoint after p : list A :=
  match p with [] => [] | LeftOf _ x r :: p => x :: inorder r ++ after p | RightOf _ _ _ :: p => after p end.

Lemma inorder_plug t p : inorder (plug t p) = before p ++ inorder t ++ after p.
Proof.
  revert t. induction p as [|f p IH]; intros t; simpl; [rewrite app_nil_r; done|]. rewrite IH. destruct f; simpl;
    rewrite <- ?app_assoc; done.
Qed.

Lemma plug_app t p q : plug t (p ++ q) = plug (plug t p) q.
Proof. revert t. induction p as [|f p IH]; intros t; simpl; [done|]. apply IH. Qed.

Lemma inorder_color c t : inorder (set_color c t) = inorder t.
Proof. destruct t; done. Qed.

Ltac lists := repeat (progress simpl || rewrite <- app_assoc || rewrite app_nil_r || rewrite inorder_color); try done.

Lemma insert_inorder_aux (n : nat) : forall l x r p t, (length p <= n)%nat -> __rb_insert l x r p = Some t ->
  inorder t = before p ++ (inorder l ++ x :: inorder r) ++ after p.
Proof.
  induction n as [|n IH]; intros l x r p t Hn H.
  { destruct p; [|simpl in Hn; lia]. injection H as <-. lists. }
  destruct p as [|f [|g p]]; cbn [__rb_insert] in H.
  - injection H as <-. lists.
  - destruct (frame_color f); [done|]. injection H as <-. destruct f; lists.
  - destruct (frame_color f) eqn:Ef; [|injection H as <-; simpl; rewrite inorder_plug; destruct f, g; lists].
    destruct g as [gc gx u|gc u gx]; destruct (rb_is_red u).
    + apply IH in H; [|simpl in Hn; lia]. rewrite H. destruct f; lists.
    + destruct f; injection H as <-; rewrite inorder_plug; lists.
    + apply IH in H; [|simpl in Hn; lia]. rewrite H. destruct f; lists.
    + destruct f; injection H as <-; rewrite inorder_plug; lists.
Qed.

(** The node comes to its place and nothing else changes. *)
Lemma insert_inorder x p t : rb_insert_color x p = Some t -> inorder t = before p ++ x :: after p.
Proof. intros H. apply (insert_inorder_aux (length p)) in H; [|done]. rewrite H. done. Qed.

Lemma sibling_right_inorder pc n px s t b : sibling_right pc n px s = Some (t, b) -> inorder t = inorder n ++ px :: inorder s.
Proof.
  unfold sibling_right. destruct s as [|sc sl sx sr]; [done|]. destruct (rb_is_red sr); [intros [= <- <-]; lists|].
  destruct sl as [|[] sll slx slr]; intros [= <- <-]; lists.
Qed.

Lemma sibling_left_inorder pc n px s t b : sibling_left pc s px n = Some (t, b) -> inorder t = inorder s ++ px :: inorder n.
Proof.
  unfold sibling_left. destruct s as [|sc sl sx sr]; [done|]. destruct (rb_is_red sl); [intros [= <- <-]; lists|].
  destruct sr as [|[] srl srx srr]; intros [= <- <-]; lists.
Qed.

Lemma erase_round_inorder n f t b : erase_round n f = Some (t, b) -> inorder t = inorder (up n f).
Proof.
  destruct f as [pc px s|pc s px]; simpl.
  - destruct s as [|[] sl sx sr]; [apply sibling_right_inorder| |apply sibling_right_inorder].
    destruct sl as [|slc sll slx slr]; [done|]. destruct (sibling_right RB_RED n px _) as [[t0 b0]|] eqn:E; [|done].
    apply sibling_right_inorder in E. simpl. intros [= <- <-]. simpl. rewrite E. lists.
  - destruct s as [|[] sl sx sr]; [apply sibling_left_inorder| |apply sibling_left_inorder].
    destruct sr as [|src srl srx srr]; [done|]. destruct (sibling_left RB_RED _ px n) as [[t0 b0]|] eqn:E; [|done].
    apply sibling_left_inorder in E. simpl. intros [= <- <-]. simpl. rewrite E. lists.
Qed.

Lemma erase_color_inorder p : forall n t, rb_erase_color n p = Some t -> inorder t = before p ++ inorder n ++ after p.
Proof.
  induction p as [|f p IH]; intros n t H; simpl in H; [injection H as <-; lists|].
  destruct (erase_round n f) as [[t0 b]|] eqn:E; [|done]. simpl in H. apply erase_round_inorder in E.
  transitivity (before p ++ inorder t0 ++ after p).
  - destruct b; [apply IH; done|]. injection H as <-. apply inorder_plug.
  - rewrite E. destruct f; lists.
Qed.

Lemma successor_inorder l : forall c x r p c' x' r' q, successor c l x r p = (c', x', r', q) ->
  before q = before p /\ x' :: inorder r' ++ after q = inorder l ++ x :: inorder r ++ after p /\
  exists q', q = q' ++ p.
Proof.
  induction l as [|lc ll IH lx lr _]; intros c x r p c' x' r' q; simpl.
  - intros [= <- <- <- <-]. split_and!; [done|done|]. exists []. done.
  - intros H. apply IH in H as (Hb & Ha & q' & ->). simpl in *. split_and!; [done|rewrite Ha; lists|].
    exists (q' ++ [LeftOf c x r]). rewrite <- app_assoc. done.
Qed.

Lemma before_app p q : before (p ++ q) = before q ++ before p.
Proof. induction p as [|[] p IH]; simpl; [rewrite app_nil_r; done|done|]. rewrite IH, <- app_assoc. done. Qed.

Lemma after_app p q : after (p ++ q) = after p ++ after q.
Proof. induction p as [|[] p IH]; simpl; [done| |done]. rewrite IH, <- app_assoc. done. Qed.

(** The node goes and nothing else changes. *)
Lemma erase_inorder c l r p t : rb_erase c l r p = Some t -> inorder t = before p ++ (inorder l ++ inorder r) ++ after p.
Proof.
  unfold rb_erase. destruct l as [|lc ll lx lr], r as [|rc rl rx rr].
  - destruct c; [|apply erase_color_inorder]. intros [= <-]. rewrite inorder_plug. lists.
  - intros [= <-]. rewrite inorder_plug. lists.
  - intros [= <-]. rewrite inorder_plug. lists.
  - destruct (successor rc rl rx rr []) as [[[sc sx] child2] q] eqn:E. apply successor_inorder in E as (Hb & Ha & _).
    simpl in Hb. rewrite app_nil_r in Ha.
    assert (forall t', inorder t' = before (q ++ RightOf c (Node lc ll lx lr) sx :: p) ++ inorder child2 ++ after (q ++ RightOf c (Node lc ll lx lr) sx :: p) ->
      inorder t' = before p ++ (inorder (Node lc ll lx lr) ++ inorder (Node rc rl rx rr)) ++ after p) as Hgo.
    { intros t' ->. rewrite before_app, after_app, Hb, app_nil_r. cbn [before after].
      change (inorder (Node rc rl rx rr)) with (inorder rl ++ rx :: inorder rr). rewrite <- Ha. lists. }
    intros H. apply Hgo. destruct child2 as [|cc cl cx cr].
    + destruct sc; [injection H as <-; apply inorder_plug|apply erase_color_inorder; done].
    + injection H as <-. rewrite inorder_plug; done.
Qed.

(** *** Walks *)

Lemma rb_first_head t : rb_first t = head (inorder t).
Proof.
  induction t as [|c l IHl x r _]; simpl; [done|]. destruct l as [|lc ll lx lr]; [done|]. rewrite IHl. simpl.
  destruct (inorder ll); done.
Qed.

Lemma inorder_some c l x r : exists y, list.last (inorder (Node c l x r)) = Some y.
Proof. simpl. rewrite last_app_cons, last_cons. destruct (list.last (inorder r)); eauto. Qed.

Lemma rb_last_last t : rb_last t = list.last (inorder t).
Proof.
  induction t as [|c l _ x r IHr]; simpl; [done|]. rewrite last_app_cons, last_cons, <- IHr.
  destruct r as [|rc rl rx rr]; [done|]. destruct (inorder_some rc rl rx rr) as [y Hy]. rewrite <- IHr in Hy.
  rewrite Hy. done.
Qed.

Lemma rb_next_head r p : rb_next r p = head (inorder r ++ after p).
Proof.
  destruct r as [|rc rl rx rr]; cbn [rb_next].
  - simpl. induction p as [|[] p IH]; simpl; done.
  - rewrite rb_first_head. simpl. destruct (inorder rl); done.
Qed.

Lemma rb_prev_last l p : rb_prev l p = list.last (before p ++ inorder l).
Proof.
  destruct l as [|lc ll lx lr]; cbn [rb_prev].
  - simpl. rewrite app_nil_r. induction p as [|[] p IH]; simpl; [done|done|]. rewrite app_assoc, last_snoc. done.
  - rewrite rb_last_last, last_app. destruct (inorder_some lc ll lx lr) as [y ->]. done.
Qed.

End Order.

(** ** The rules *)

Section Rules.
Context {A : Type}.
Implicit Types (t l r : tree A) (x : A) (f : frame A) (p : list (frame A)).

(** The rules of rbtree.c for a subtree: its root has the color [c], leaves are
    black, red nodes have black children, and every path to a leaf has [n] black
    nodes. *)
Inductive rbt : nat -> color -> tree A -> Prop :=
  | rbt_leaf : rbt 0 RB_BLACK Leaf
  | rbt_red n l x r : rbt n RB_BLACK l -> rbt n RB_BLACK r -> rbt n RB_RED (Node RB_RED l x r)
  | rbt_black n c1 c2 l x r : rbt n c1 l -> rbt n c2 r -> rbt (S n) RB_BLACK (Node RB_BLACK l x r).

(** Of a path: a subtree with [n] black nodes fits at its end, a red one too if
    [ok]. The root is black. *)
Inductive hole : nat -> bool -> list (frame A) -> Prop :=
  | hole_root n : hole n false []
  | hole_left_black n c ok x r p : rbt n c r -> hole (S n) ok p -> hole n true (LeftOf RB_BLACK x r :: p)
  | hole_left_red n x r p : rbt n RB_BLACK r -> hole n true p -> hole n false (LeftOf RB_RED x r :: p)
  | hole_right_black n c ok x l p : rbt n c l -> hole (S n) ok p -> hole n true (RightOf RB_BLACK l x :: p)
  | hole_right_red n x l p : rbt n RB_BLACK l -> hole n true p -> hole n false (RightOf RB_RED l x :: p).

Definition fits (c : color) (ok : bool) : Prop := c = RB_BLACK \/ ok = true.

Create HintDb rbt.
Hint Constructors rbt hole : rbt.
Hint Unfold fits : rbt.

Lemma plug_rbt n ok p : hole n ok p -> forall c t, rbt n c t -> fits c ok -> exists m, rbt m RB_BLACK (plug t p).
Proof.
  induction 1 as [n|n c' ok x r p Hr _ IH|n x r p Hr _ IH|n c' ok x l p Hl _ IH|n x l p Hl _ IH]; intros c t Ht Hf; simpl.
  - destruct Hf as [->|]; [eauto|done].
  - apply (IH RB_BLACK); eauto with rbt.
  - destruct Hf as [->|]; [|done]. apply (IH RB_RED); eauto with rbt.
  - apply (IH RB_BLACK); eauto with rbt.
  - destruct Hf as [->|]; [|done]. apply (IH RB_RED); eauto with rbt.
Qed.

(** A place in a tree that follows the rules. *)
Lemma rbt_plug p : forall t m, rbt m RB_BLACK (plug t p) -> exists n c ok, rbt n c t /\ hole n ok p /\ fits c ok.
Proof.
  induction p as [|f p IH]; intros t m H; simpl in H.
  - exists m, RB_BLACK, false. split_and!; [done|constructor|left; done].
  - destruct (IH _ _ H) as (n & c & ok & Ht & Hh & Hf). destruct f as [fc x r|fc l x]; simpl in Ht.
    + inversion Ht as [|n0 l0 x0 r0 Hl Hr|n0 c1 c2 l0 x0 r0 Hl Hr]; subst.
      * destruct Hf as [| ->]; [done|]. exists n, RB_BLACK, false. split_and!; [done|constructor; done|left; done].
      * exists n0, c1, true. split_and!; [done|econstructor; done|right; done].
    + inversion Ht as [|n0 l0 x0 r0 Hl Hr|n0 c1 c2 l0 x0 r0 Hl Hr]; subst.
      * destruct Hf as [| ->]; [done|]. exists n, RB_BLACK, false. split_and!; [done|constructor; done|left; done].
      * exists n0, c2, true. split_and!; [done|econstructor; done|right; done].
Qed.

Lemma set_black_black n t : rbt n RB_BLACK t -> set_color RB_BLACK t = t.
Proof. inversion 1; done. Qed.

Lemma set_black_red n t : rbt n RB_RED t -> rbt (S n) RB_BLACK (set_color RB_BLACK t).
Proof. inversion 1; subst. simpl. econstructor; done. Qed.

Lemma rbt_not_red n c t : rbt n c t -> rb_is_red t = false -> rbt n RB_BLACK t.
Proof. intros H. inversion H; subst; done. Qed.

Lemma rbt_is_red n c t : rbt n c t -> rb_is_red t = true -> rbt n RB_RED t.
Proof. intros H. inversion H; subst; done. Qed.

(** *** Insertion *)

(** The parent of a red node that has to be repaired is red, its parent black. *)
Lemma hole_red n ok f p : hole n ok (f :: p) -> frame_color f = RB_RED ->
  hole n true p /\ exists t, rbt n RB_BLACK t /\ (f = LeftOf RB_RED (match f with LeftOf _ x _ | RightOf _ _ x => x end) t \/
                                                   f = RightOf RB_RED t (match f with LeftOf _ x _ | RightOf _ _ x => x end)).
Proof. inversion 1; subst; simpl; intros [=]; split; try done; eexists; split; try done; auto. Qed.

Lemma red_up n t f : rbt n RB_RED t -> forall t', rbt n RB_BLACK t' ->
  (f = LeftOf RB_RED (match f with LeftOf _ x _ | RightOf _ _ x => x end) t' \/
   f = RightOf RB_RED t' (match f with LeftOf _ x _ | RightOf _ _ x => x end)) ->
  rbt (S n) RB_BLACK (set_color RB_BLACK (up t f)).
Proof. intros Ht t' Ht' [-> | ->]; simpl; econstructor; done. Qed.

Lemma insert_rbt_aux (k : nat) : forall n ok l x r p, (length p <= k)%nat -> hole n ok p -> rbt n RB_BLACK l -> rbt n RB_BLACK r ->
  exists t m, __rb_insert l x r p = Some t /\ rbt m RB_BLACK t.
Proof.
  induction k as [|k IH]; intros n ok l x r p Hk Hh Hl Hr.
  { destruct p; [|simpl in Hk; lia]. eexists _, _. split; [done|]. econstructor; done. }
  assert (rbt n RB_RED (Node RB_RED l x r)) as Hn by (constructor; done).
  destruct p as [|f p]; [eexists _, _; split; [done|]; econstructor; done|].
  destruct (frame_color f) eqn:Ef.
  2: { assert (ok = true) as -> by (inversion Hh; subst; done).
       destruct (plug_rbt _ _ _ Hh _ _ Hn ltac:(right; done)) as [m Hm]. exists (plug (Node RB_RED l x r) (f :: p)), m. split; [|done].
       cbn [__rb_insert]. rewrite Ef. done. }
  destruct (hole_red _ _ _ _ Hh Ef) as (Hp & tp & Htp & Ff). cbn [__rb_insert]. rewrite Ef.
  inversion Hp as [|n0 c ok' gx u p'' Hu Hp'| |n0 c ok' gx u p'' Hu Hp'|]; subst; destruct (rb_is_red u) eqn:Eu.
  - apply (IH (S n) ok'); [simpl in Hk; lia|done|eapply red_up; done|apply set_black_red; eapply rbt_is_red; done].
  - apply (rbt_not_red _ _ _ Hu) in Eu. destruct Ff as [-> | ->]; rewrite !(set_black_black n) by done;
      (eexists; edestruct (plug_rbt _ _ _ Hp') as [m Hm]; [|left; reflexivity|exists m; split; [reflexivity|exact Hm]]);
      econstructor; constructor; done.
  - apply (IH (S n) ok'); [simpl in Hk; lia|done|apply set_black_red; eapply rbt_is_red; done|eapply red_up; done].
  - apply (rbt_not_red _ _ _ Hu) in Eu. destruct Ff as [-> | ->]; rewrite !(set_black_black n) by done;
      (eexists; edestruct (plug_rbt _ _ _ Hp') as [m Hm]; [|left; reflexivity|exists m; split; [reflexivity|exact Hm]]);
      econstructor; constructor; done.
Qed.

(** A node that is linked to a leaf of the tree. *)
Lemma insert_rbt x p m : rbt m RB_BLACK (plug Leaf p) -> exists t m', rb_insert_color x p = Some t /\ rbt m' RB_BLACK t.
Proof.
  intros H. destruct (rbt_plug _ _ _ H) as (n & c & ok & Hl & Hh & _). inversion Hl; subst.
  apply (insert_rbt_aux (length p) 0 ok); [done|done|constructor|constructor].
Qed.

(** *** Removal *)

(** What a round leaves: a subtree that fits, or one that misses a black node, in
    the place of a black parent. *)
Definition repaired (n : nat) (pc : color) (t : tree A) (b : bool) : Prop :=
  if b then pc = RB_BLACK /\ rbt (S n) RB_BLACK t
  else match pc with RB_RED => exists c, rbt (S n) c t | RB_BLACK => rbt (S (S n)) RB_BLACK t end.

Lemma recolor_repaired n pc l x r : rbt (S n) RB_BLACK l -> rbt (S n) RB_BLACK r -> repaired n pc (Node pc l x r) false.
Proof. intros Hl Hr. destruct pc; simpl; [exists RB_RED; constructor; done|econstructor; done]. Qed.

Lemma sibling_right_rbt n pc t px s : rbt n RB_BLACK t -> rbt (S n) RB_BLACK s ->
  exists t' b, sibling_right pc t px s = Some (t', b) /\ repaired n pc t' b.
Proof.
  intros Ht Hs. inversion Hs as [| |n0 c1 c2 sl sx sr Hl Hr]; subst. simpl. destruct (rb_is_red sr) eqn:Er.
  - eexists _, _. split; [reflexivity|]. apply recolor_repaired; [econstructor; done|].
    apply set_black_red. eapply rbt_is_red; done.
  - apply (rbt_not_red _ _ _ Hr) in Er. destruct sl as [|slc sll slx slr]; [|destruct slc].
    + eexists _, _. split; [reflexivity|]. inversion Hl; subst. destruct pc; simpl;
        [exists RB_BLACK; econstructor; [done|constructor; [constructor|done]]|].
      split; [done|]. econstructor; [done|constructor; [constructor|done]].
    + inversion Hl as [|n0 l0 x0 r0 Hll Hlr|]; subst. eexists _, _. split; [reflexivity|].
      rewrite (set_black_black n) by done. apply recolor_repaired; econstructor; done.
    + apply rbt_not_red in Hl; [|done]. eexists _, _. split; [reflexivity|]. destruct pc; simpl;
        [exists RB_BLACK; econstructor; [done|constructor; done]|].
      split; [done|]. econstructor; [done|constructor; done].
Qed.

Lemma sibling_left_rbt n pc t px s : rbt n RB_BLACK t -> rbt (S n) RB_BLACK s ->
  exists t' b, sibling_left pc s px t = Some (t', b) /\ repaired n pc t' b.
Proof.
  intros Ht Hs. inversion Hs as [| |n0 c1 c2 sl sx sr Hl Hr]; subst. simpl. destruct (rb_is_red sl) eqn:El.
  - eexists _, _. split; [reflexivity|]. apply recolor_repaired; [|econstructor; done].
    apply set_black_red. eapply rbt_is_red; done.
  - apply (rbt_not_red _ _ _ Hl) in El. destruct sr as [|src srl srx srr]; [|destruct src].
    + eexists _, _. split; [reflexivity|]. inversion Hr; subst. destruct pc; simpl;
        [exists RB_BLACK; econstructor; [constructor; [done|constructor]|done]|].
      split; [done|]. econstructor; [constructor; [done|constructor]|done].
    + inversion Hr as [|n0 l0 x0 r0 Hll Hlr|]; subst. eexists _, _. split; [reflexivity|].
      rewrite (set_black_black n) by done. apply recolor_repaired; econstructor; done.
    + apply rbt_not_red in Hr; [|done]. eexists _, _. split; [reflexivity|]. destruct pc; simpl;
        [exists RB_BLACK; econstructor; [constructor; done|done]|].
      split; [done|]. econstructor; [constructor; done|done].
Qed.

(** The sibling of a node that misses a black node. *)
Lemma erase_round_rbt n ok t f p : hole (S n) ok (f :: p) -> rbt n RB_BLACK t ->
  exists t' b, erase_round t f = Some (t', b) /\ repaired n (frame_color f) t' b /\
  exists ok', hole (match frame_color f with RB_RED => S n | RB_BLACK => S (S n) end) ok' p /\ (frame_color f = RB_RED -> ok' = true).
Proof.
  intros Hh Ht. inversion Hh as [|n0 c ok' x s p0 Hs Hp|n0 x s p0 Hs Hp|n0 c ok' x s p0 Hs Hp|n0 x s p0 Hs Hp]; subst; simpl.
  - destruct s as [|sc sl sx sr]; [inversion Hs|]. destruct sc.
    + inversion Hs as [|n0 l0 x0 r0 Hl Hr|]; subst. destruct (sibling_right_rbt n RB_RED t x sl Ht Hl) as (t' & b & E & Hrep).
      rewrite (set_black_black _ _ Hl). destruct sl as [|slc sll slx slr]; [inversion Hl|]. rewrite E. simpl.
      eexists _, _. split; [reflexivity|]. split; [|exists ok'; split; done].
      destruct b; simpl in Hrep; [destruct Hrep; done|]. destruct Hrep as [c' Hc]. simpl. econstructor; done.
    + apply rbt_not_red in Hs; [|done]. destruct (sibling_right_rbt n RB_BLACK t x _ Ht Hs) as (t' & b & E & Hrep).
      exists t', b. split_and!; [done|done|]. exists ok'. done.
  - assert (exists t' b, sibling_right RB_RED t x s = Some (t', b) /\ repaired n RB_RED t' b) as (t' & b & E & Hrep)
      by (apply sibling_right_rbt; done).
    inversion Hs; subst. exists t', b. split_and!; [done|done|]. exists true. done.
  - destruct s as [|sc sl sx sr]; [inversion Hs|]. destruct sc.
    + inversion Hs as [|n0 l0 x0 r0 Hl Hr|]; subst. destruct (sibling_left_rbt n RB_RED t x sr Ht Hr) as (t' & b & E & Hrep).
      rewrite (set_black_black _ _ Hr). destruct sr as [|src srl srx srr]; [inversion Hr|]. rewrite E. simpl.
      eexists _, _. split; [reflexivity|]. split; [|exists ok'; split; done].
      destruct b; simpl in Hrep; [destruct Hrep; done|]. destruct Hrep as [c' Hc]. simpl. econstructor; done.
    + apply rbt_not_red in Hs; [|done]. destruct (sibling_left_rbt n RB_BLACK t x _ Ht Hs) as (t' & b & E & Hrep).
      exists t', b. split_and!; [done|done|]. exists ok'. done.
  - assert (exists t' b, sibling_left RB_RED s x t = Some (t', b) /\ repaired n RB_RED t' b) as (t' & b & E & Hrep)
      by (apply sibling_left_rbt; done).
    inversion Hs; subst. exists t', b. split_and!; [done|done|]. exists true. done.
Qed.

Lemma erase_color_rbt p : forall n ok t, hole (S n) ok p -> rbt n RB_BLACK t ->
  exists t' m, rb_erase_color t p = Some t' /\ rbt m RB_BLACK t'.
Proof.
  induction p as [|f p IH]; intros n ok t Hh Ht; [exists t, n; done|]. cbn [rb_erase_color].
  destruct (erase_round_rbt n ok t f p Hh Ht) as (t' & b & -> & Hrep & ok' & Hp & Hok). simpl. destruct b; simpl in Hrep.
  - destruct Hrep as [E Ht']. rewrite E in Hp. apply (IH (S n) ok'); done.
  - destruct (frame_color f).
    + destruct Hrep as [c Hc]. destruct (plug_rbt _ _ _ Hp c t' Hc) as [m Hm]; [right; auto|]. eauto.
    + destruct (plug_rbt _ _ _ Hp RB_BLACK t' Hrep) as [m Hm]; [left; done|]. eauto.
Qed.

(** A leaf in the place of a node without children. *)
Lemma erase_leaf_rbt n c ok x p : rbt n c (Node c Leaf x Leaf) -> hole n ok p ->
  exists t m, match c with RB_BLACK => rb_erase_color Leaf p | RB_RED => Some (plug Leaf p) end = Some t /\ rbt m RB_BLACK t.
Proof.
  intros Hn Hh. inversion Hn as [|n0 l0 x0 r0 Hl Hr|n0 c1 c2 l0 x0 r0 Hl Hr]; subst; inversion Hl; subst.
  - destruct (plug_rbt _ _ _ Hh RB_BLACK Leaf) as [m Hm]; [constructor|left; done|]. eauto.
  - eapply erase_color_rbt; [done|constructor].
Qed.

(** The one child of a node. *)
Lemma one_child n c cc l x r cx : rbt n c (Node c Leaf x (Node cc l cx r)) \/ rbt n c (Node c (Node cc l cx r) x Leaf) ->
  c = RB_BLACK /\ n = 1%nat /\ rbt 1 RB_BLACK (Node RB_BLACK l cx r).
Proof.
  intros [Hn|Hn]; inversion Hn as [|n0 l0 x0 r0 Hl Hr|n0 c1 c2 l0 x0 r0 Hl Hr]; subst.
  - inversion Hl; subst. inversion Hr.
  - inversion Hl; subst. inversion Hr; subst. split_and!; [done|done|]. econstructor; done.
  - inversion Hr; subst. inversion Hl.
  - inversion Hr; subst. inversion Hl; subst. split_and!; [done|done|]. econstructor; done.
Qed.

Lemma successor_app l : forall c x r p q c' x' r' s, successor c l x r p = (c', x', r', s) ->
  successor c l x r (p ++ q) = (c', x', r', s ++ q).
Proof.
  induction l as [|lc ll IH lx lr _]; intros c x r p q c' x' r' s; simpl; [intros [= <- <- <- <-]; done|].
  intros H. apply (IH _ _ _ _ q) in H. done.
Qed.

Lemma successor_hole l : forall n c ok x r p c' x' r' s, rbt n c (Node c l x r) -> hole n ok p -> fits c ok ->
  successor c l x r p = (c', x', r', s) ->
  exists m ok', rbt m c' (Node c' Leaf x' r') /\ hole m ok' s /\ fits c' ok'.
Proof.
  induction l as [|lc ll IH lx lr _]; intros n c ok x r p c' x' r' s Hn Hh Hf; cbn [successor].
  - intros [= <- <- <- <-]. eauto.
  - intros H. inversion Hn as [|n0 l0 x0 r0 Hl Hr|n0 c1 c2 l0 x0 r0 Hl Hr]; subst.
    + destruct Hf as [| ->]; [done|]. assert (lc = RB_BLACK) as -> by (inversion Hl; done).
      eapply (IH _ _ false) in H; [done|done|constructor; done|left; done].
    + assert (c1 = lc) as -> by (inversion Hl; done). eapply (IH _ _ true) in H; [done|done|econstructor; done|right; done].
Qed.

Lemma erase_rbt c l x r p m : rbt m RB_BLACK (plug (Node c l x r) p) -> exists t m', rb_erase c l r p = Some t /\ rbt m' RB_BLACK t.
Proof.
  intros H. destruct (rbt_plug _ _ _ H) as (n & c0 & ok & Hn & Hh & Hf). assert (c0 = c) as -> by (inversion Hn; done).
  assert (forall t p n ok, rbt 1 RB_BLACK t -> hole n ok p -> n = 1%nat -> exists t' m', Some (plug t p) = Some t' /\ rbt m' RB_BLACK t') as Hplug.
  { intros t p0 n0 ok0 Ht Hp ->. destruct (plug_rbt _ _ _ Hp RB_BLACK t Ht) as [m' Hm]; [left; done|]. eauto. }
  unfold rb_erase. destruct l as [|lc ll lx lr], r as [|rc rl rx rr].
  - eapply erase_leaf_rbt; done.
  - destruct (one_child n c rc rl x rr rx) as (-> & -> & Hc); [left; done|]. eapply Hplug; done.
  - destruct (one_child n c lc ll x lr lx) as (-> & -> & Hc); [right; done|]. eapply Hplug; done.
  - destruct (successor rc rl rx rr []) as [[[sc sx] child2] q] eqn:E.
    apply (successor_app _ _ _ _ _ (RightOf c (Node lc ll lx lr) sx :: p)) in E. simpl in E.
    assert (exists m0 ok0, rbt m0 sc (Node sc Leaf sx child2) /\ hole m0 ok0 (q ++ RightOf c (Node lc ll lx lr) sx :: p) /\ fits sc ok0)
      as (m0 & ok0 & Hs & Hq & _).
    { inversion Hn as [|n0 l0 x0 r0 Hl Hr|n0 c1 c2 l0 x0 r0 Hl Hr]; subst.
      - destruct Hf as [| ->]; [done|]. assert (rc = RB_BLACK) as -> by (inversion Hr; done).
        eapply (successor_hole _ _ _ false) in E; [done|done|constructor; done|left; done].
      - assert (c2 = rc) as -> by (inversion Hr; done).
        eapply (successor_hole _ _ _ true) in E; [done|done|econstructor; done|right; done]. }
    destruct child2 as [|cc cl cx cr]; [eapply erase_leaf_rbt; done|].
    destruct (one_child m0 sc cc cl sx cr cx) as (-> & -> & Hc); [left; done|]. eapply Hplug; done.
Qed.

(** *** Height *)

Fixpoint height t : nat := match t with Leaf => 0 | Node _ l _ r => S (Nat.max (height l) (height r)) end.

(** The longest path is at most twice the shortest, which the number of nodes bounds. *)
Lemma rbt_height n c t : rbt n c t ->
  (height t <= 2 * n + match c with RB_RED => 1 | RB_BLACK => 0 end)%nat /\ (2 ^ n <= S (length (inorder t)))%nat.
Proof.
  induction 1 as [|n l x r _ [Hl1 Hl2] _ [Hr1 Hr2]|n c1 c2 l x r _ [Hl1 Hl2] _ [Hr1 Hr2]]; simpl.
  - lia.
  - rewrite length_app. simpl. lia.
  - rewrite length_app. simpl. destruct c1, c2; lia.
Qed.

End Rules.

End Rbtree.
