(* ===== verification/Rblist.v ===== *)
(** * Trees of a comparison (rblist.c)

    The functions of rblist.c on the red-black trees of Rbtree. What they find,
    link and remove is what the list of the nodes from left to right says, which is
    how the trees appear in the other files, and the tree stays balanced. *)

From stdpp Require Import sorting.
From S2P Require Import Prelude Rbtree.

(** ** Sorted lists *)

Lemma sorted_app {A} (R : A -> A -> Prop) a b : StronglySorted R (a ++ b) <->
  StronglySorted R a /\ StronglySorted R b /\ forall x y, x ∈ a -> y ∈ b -> R x y.
Proof.
  induction a as [|x a IH]; simpl.
  - split; [intros H; split_and!; [constructor|done|]|tauto]. intros x y Hx. inversion Hx.
  - split.
    + intros H. apply StronglySorted_inv in H as [H Hx]. apply IH in H as (Ha & Hb & Hab).
      rewrite list.Forall_app, !list.Forall_forall in Hx. destruct Hx as [Hxa Hxb]. split_and!; [|done|].
      * constructor; [done|]. apply list.Forall_forall. done.
      * intros y z [->|Hy]%elem_of_cons Hz; auto.
    + intros (Ha & Hb & Hab). apply StronglySorted_inv in Ha as [Ha Hx]. constructor.
      * apply IH. split_and!; try done. intros y z Hy Hz. apply Hab; [|done]. apply list_elem_of_further. done.
      * apply list.Forall_app. split; [done|]. apply list.Forall_forall. intros y Hy. apply Hab; [|done].
        apply list_elem_of_here.
Qed.

Lemma sorted_ext {A} (R R' : A -> A -> Prop) l :
  (forall x y, x ∈ l -> y ∈ l -> R x y -> R' x y) -> StronglySorted R l -> StronglySorted R' l.
Proof.
  intros HR H. induction H as [|x l Hl IH Hx]; [constructor|]. constructor.
  - apply IH. intros y z Hy Hz. apply HR; apply list_elem_of_further; done.
  - rewrite list.Forall_forall in *. intros y Hy. apply HR; auto; [apply list_elem_of_here|].
    apply list_elem_of_further. done.
Qed.

Lemma sorted_sublist {A} (R : A -> A -> Prop) l l' : sublist l' l -> StronglySorted R l -> StronglySorted R l'.
Proof.
  induction 1 as [|x l l' Hs IH|x l l' Hs IH]; intros H; [done| |]; apply StronglySorted_inv in H as [H Hx]; auto.
  constructor; [auto|]. eapply list.Forall_forall. intros y Hy. rewrite list.Forall_forall in Hx.
  apply Hx. eapply elem_of_sublist; done.
Qed.

Module Rblist.

Import Rbtree.

(** [struct rblist]: the tree, its cached leftmost node, the number of nodes. *)
Record rblist (A : Type) := { rb_root : tree A; rb_leftmost : option A; nr_entries : Z }.
Arguments rb_root {A}.
Arguments rb_leftmost {A}.
Arguments nr_entries {A}.

(** ** The code *)

(** A place of a tree: a node with its subtrees and its path, or a leaf with the
    flag of the descents. *)
Inductive place (A : Type) :=
  | Taken (c : color) (l : tree A) (x : A) (r : tree A) (p : list (frame A))
  | Free (p : list (frame A)) (leftmost : bool).
Arguments Taken {A}.
Arguments Free {A}.

Section Code.
Context {A : Type} `{!EqDecision A}.

Section Search.
(** [node_cmp] with the entry: of a node of the tree. *)
Context (node_cmp : A -> Z).

(** The descent of [rblist__add_node], [__rblist__findnew] and
    [rblist__find_remove]. *)
Fixpoint descend (t : tree A) (p : list (frame A)) (leftmost : bool) : place A :=
  match t with
  | Leaf => Free p leftmost
  | Node c l x r =>
      let rc := node_cmp x in
      if 0 <? rc then descend l (LeftOf c x r :: p) leftmost
      else if rc <? 0 then descend r (RightOf c l x :: p) false
      else Taken c l x r p
  end.

(** The loop of [rblist__find_first]. *)
Fixpoint find_first_loop (t : tree A) (match_ : option A) : option A :=
  match t with
  | Leaf => match_
  | Node _ l x r => if 0 <=? node_cmp x then find_first_loop l (Some x) else find_first_loop r match_
  end.

End Search.

(** [rb_link_node] and [rb_insert_color_cached], [++nr_entries] *)
Definition rb_insert_color_cached (n : A) (p : list (frame A)) (leftmost : bool) (rb : rblist A) : option (rblist A) :=
  t ← rb_insert_color n p;
  Some {| rb_root := t; rb_leftmost := if leftmost then Some n else rb_leftmost rb; nr_entries := nr_entries rb |}.

Definition link (n : A) (p : list (frame A)) (leftmost : bool) (rb : rblist A) : option (rblist A) :=
  rb ← rb_insert_color_cached n p leftmost rb;
  Some {| rb_root := rb_root rb; rb_leftmost := rb_leftmost rb; nr_entries := (nr_entries rb + 1) mod 2 ^ 32 |}.

(** [new]: what [node_new] returns. *)
Definition rblist__add_node (node_cmp : A -> Z) (new : option A) (rb : rblist A) : option (Z * rblist A) :=
  match descend node_cmp (rb_root rb) [] true with
  | Taken _ _ _ _ _ => Some (- 17, rb)
  | Free p leftmost =>
      match new with
      | None => Some (- 12, rb)
      | Some n => rb ← link n p leftmost rb; Some (0, rb)
      end
  end.

Definition __rblist__findnew (node_cmp : A -> Z) (new : option A) (create : bool) (rb : rblist A) : option (option A * rblist A) :=
  match descend node_cmp (rb_root rb) [] true with
  | Taken _ _ parent _ _ => Some (Some parent, rb)
  | Free p leftmost =>
      if create then
        match new with
        | Some n => rb ← link n p leftmost rb; Some (Some n, rb)
        | None => Some (None, rb)
        end
      else Some (None, rb)
  end.

Definition rblist__find (node_cmp : A -> Z) (rb : rblist A) : option (option A * rblist A) := __rblist__findnew node_cmp None false rb.

Definition rblist__findnew (node_cmp : A -> Z) (new : option A) (rb : rblist A) : option (option A * rblist A) :=
  __rblist__findnew node_cmp new true rb.

(** [None]: the cached leftmost node, which is dereferenced, is [NULL]. *)
Definition rblist__find_first (node_cmp : A -> Z) (rb : rblist A) : option (option A) :=
  first ← rb_leftmost rb;
  Some (if 0 <=? node_cmp first then Some first else find_first_loop node_cmp (rb_root rb) None).

Definition rb_erase_cached (c : color) (l : tree A) (x : A) (r : tree A) (p : list (frame A)) (rb : rblist A) : option (rblist A) :=
  let leftmost := if decide (rb_leftmost rb = Some x) then rb_next r p else rb_leftmost rb in
  t ← rb_erase c l r p;
  Some {| rb_root := t; rb_leftmost := leftmost; nr_entries := nr_entries rb |}.

(** [rb_erase_cached], [--nr_entries] and [node_delete], which frees the node. *)
Definition unlink (c : color) (l : tree A) (x : A) (r : tree A) (p : list (frame A)) (rb : rblist A) : option (rblist A) :=
  rb ← rb_erase_cached c l x r p rb;
  Some {| rb_root := rb_root rb; rb_leftmost := rb_leftmost rb; nr_entries := (nr_entries rb - 1) mod 2 ^ 32 |}.

(** The place that the pointer to a node means; [None]: it is not in the tree. *)
Fixpoint node_place (x : A) (t : tree A) (p : list (frame A)) : option (color * tree A * tree A * list (frame A)) :=
  match t with
  | Leaf => None
  | Node c l y r =>
      if decide (x = y) then Some (c, l, r, p)
      else match node_place x l (LeftOf c y r :: p) with
           | Some q => Some q
           | None => node_place x r (RightOf c l y :: p)
           end
  end.

Definition rblist__remove_node (rb_node : A) (rb : rblist A) : option (rblist A) :=
  '(c, l, r, p) ← node_place rb_node (rb_root rb) [];
  unlink c l rb_node r p rb.

(** The result and the node that is freed. *)
Definition rblist__find_remove (node_cmp : A -> Z) (rb : rblist A) : option (Z * option A * rblist A) :=
  match descend node_cmp (rb_root rb) [] true with
  | Free _ _ => Some (0, None, rb)
  | Taken c l node r p => rb ← unlink c l node r p rb; Some (1, Some node, rb)
  end.

Definition rblist__init : rblist A := {| rb_root := Leaf; rb_leftmost := None; nr_entries := 0 |}.

(** The loop of [rblist__exit], and the nodes that it frees. *)
Fixpoint exit_loop (fuel : nat) (next : option A) (rb : rblist A) : option (list A * rblist A) :=
  match next with
  | None => Some ([], rb)
  | Some pos =>
      match fuel with
      | O => None
      | S fuel =>
          '(c, l, r, p) ← node_place pos (rb_root rb) [];
          rb ← rblist__remove_node pos rb;
          '(freed, rb) ← exit_loop fuel (rb_next r p) rb;
          Some (pos :: freed, rb)
      end
  end.

Definition rblist__exit (rb : rblist A) : option (list A * rblist A) :=
  exit_loop (length (inorder (rb_root rb))) (rb_leftmost rb) rb.

(** The loop of [rblist__entry]. *)
Fixpoint entry_loop (idx : nat) (node : option A) (rb : rblist A) : option (option A) :=
  match node with
  | None => Some None
  | Some x =>
      match idx with
      | O => Some (Some x)
      | S idx => '(c, l, r, p) ← node_place x (rb_root rb) []; entry_loop idx (rb_next r p) rb
      end
  end.

Definition rblist__entry (idx : nat) (rb : rblist A) : option (option A) := entry_loop idx (rb_leftmost rb) rb.

End Code.

(** ** On lists *)

(** The nodes before the entry, the node equal to it, the nodes after. *)
Fixpoint split_at {A} (cmp : A -> Z) (l : list A) : list A * option A * list A :=
  match l with
  | [] => ([], None, [])
  | x :: l =>
      if 0 <? cmp x then ([], None, x :: l)
      else if cmp x <? 0 then let '(a, m, r) := split_at cmp l in (x :: a, m, r)
      else ([], Some x, l)
  end.

(** The comparison of the nodes with the entry goes from smaller to greater. *)
Definition ordered {A} (cmp : A -> Z) (l : list A) : Prop :=
  StronglySorted (fun x y => 0 <= cmp x -> 0 < cmp y) l.

Lemma ordered_app {A} (cmp : A -> Z) a b : ordered cmp (a ++ b) <->
  ordered cmp a /\ ordered cmp b /\ forall x y, x ∈ a -> y ∈ b -> 0 <= cmp x -> 0 < cmp y.
Proof. apply sorted_app. Qed.

Lemma ordered_node {A} (cmp : A -> Z) l x r : ordered cmp (l ++ x :: r) ->
  ordered cmp l /\ ordered cmp r /\ (0 <= cmp x -> forall y, y ∈ r -> 0 < cmp y) /\
  (cmp x <= 0 -> forall y, y ∈ l -> cmp y < 0).
Proof.
  intros H. apply ordered_app in H as (Hl & Hxr & Hlx). apply StronglySorted_inv in Hxr as [Hr Hx].
  rewrite list.Forall_forall in Hx. split_and!; try done; [auto|]. intros Hc y Hy.
  destruct (Z.le_gt_cases 0 (cmp y)) as [H0|H0]; [|lia].
  specialize (Hlx y x Hy (list_elem_of_here _ _) H0). lia.
Qed.

(** What [split_at] computes. *)
Lemma split_at_spec {A} (cmp : A -> Z) l : ordered cmp l -> let '(a, m, r) := split_at cmp l in
  l = a ++ option_list m ++ r /\ (forall x, x ∈ a -> cmp x < 0) /\ (forall x, m = Some x -> cmp x = 0) /\
  (forall x, x ∈ r -> 0 < cmp x).
Proof.
  induction l as [|x l IH]; simpl; intros H; [split_and!; try done; intros x Hx; inversion Hx|].
  apply StronglySorted_inv in H as [H Hx]. rewrite list.Forall_forall in Hx.
  destruct (Z.ltb_spec 0 (cmp x)); [|destruct (Z.ltb_spec (cmp x) 0)].
  - split_and!; try done; [intros y Hy; inversion Hy|]. intros y [->|Hy]%elem_of_cons; [done|]. apply Hx; [done|lia].
  - specialize (IH H). destruct (split_at cmp l) as [[a m] r]. destruct IH as (-> & Ha & Hm & Hr).
    split_and!; try done. intros y [->|Hy]%elem_of_cons; auto.
  - split_and!; try done; [intros y Hy; inversion Hy|intros y [= ->]; lia|]. intros y Hy. apply Hx; [done|lia].
Qed.

(** There is one way to split. *)
Lemma split_unique {A} (cmp : A -> Z) a m r : (forall x, x ∈ a -> cmp x < 0) -> (forall x, m = Some x -> cmp x = 0) ->
  (forall x, x ∈ r -> 0 < cmp x) -> split_at cmp (a ++ option_list m ++ r) = (a, m, r).
Proof.
  intros Ha Hm Hr. induction a as [|x a IH]; simpl.
  - destruct m as [x|]; simpl.
    + rewrite (Hm x eq_refl). done.
    + destruct r as [|x r]; [done|]. simpl. destruct (Z.ltb_spec 0 (cmp x)) as [|Hle]; [done|].
      specialize (Hr x (list_elem_of_here _ _)). lia.
  - specialize (Ha x (list_elem_of_here _ _)) as Hx.
    destruct (Z.ltb_spec 0 (cmp x)); [lia|]. destruct (Z.ltb_spec (cmp x) 0); [|lia].
    rewrite IH; [done|]. intros y Hy. apply Ha, list_elem_of_further, Hy.
Qed.

(** ** The tree and the list *)

(** Where a descent ends. *)
Lemma descend_inorder {A} (cmp : A -> Z) t : forall p b0, ordered cmp (inorder t) ->
  let '(a, m, r) := split_at cmp (inorder t) in
  match descend cmp t p b0 with
  | Taken c tl x tr q => m = Some x /\ plug (Node c tl x tr) q = plug t p /\
      before q ++ inorder tl = before p ++ a /\ inorder tr ++ after q = r ++ after p
  | Free q b => m = None /\ plug Leaf q = plug t p /\ before q = before p ++ a /\ after q = r ++ after p /\
      b = b0 && bool_decide (a = [])
  end.
Proof.
  induction t as [|c l IHl x r IHr]; intros p b0 H; simpl.
  { rewrite app_nil_r, andb_true_r. done. }
  simpl in H. destruct (ordered_node _ _ _ _ H) as (Hl & Hr & Hx1 & Hx2).
  pose proof (split_at_spec cmp _ Hl) as Sl. pose proof (split_at_spec cmp _ Hr) as Sr.
  destruct (Z.ltb_spec 0 (cmp x)); [|destruct (Z.ltb_spec (cmp x) 0)].
  - specialize (IHl (LeftOf c x r :: p) b0 Hl). destruct (split_at cmp (inorder l)) as [[a m] q]. destruct Sl as (El & Ha & Hm & Hq).
    assert (split_at cmp (inorder l ++ x :: inorder r) = (a, m, q ++ x :: inorder r)) as ->.
    { rewrite El, <- !app_assoc. apply split_unique; [done|done|].
      intros y [Hy|[->|Hy]%elem_of_cons]%elem_of_app; [auto|done|]. apply Hx1; [lia|done]. }
    simpl in IHl. rewrite <- app_assoc. exact IHl.
  - specialize (IHr (RightOf c l x :: p) false Hr). destruct (split_at cmp (inorder r)) as [[a m] q]. destruct Sr as (Er & Ha & Hm & Hq).
    assert (split_at cmp (inorder l ++ x :: inorder r) = (inorder l ++ x :: a, m, q)) as ->.
    { rewrite Er. change (x :: a ++ option_list m ++ q) with ((x :: a) ++ option_list m ++ q). rewrite app_assoc.
      apply split_unique; [|done|done]. intros y [Hy|[->|Hy]%elem_of_cons]%elem_of_app; [|done|auto]. apply Hx2; [lia|done]. }
    simpl in IHr. rewrite <- !app_assoc in IHr. simpl in IHr.
    rewrite (bool_decide_eq_false_2 (inorder l ++ x :: a = [])), andb_false_r; [exact IHr|]. destruct (inorder l); done.
  - change (inorder l ++ x :: inorder r) with (inorder l ++ option_list (Some x) ++ inorder r).
    rewrite split_unique; [done|apply Hx2; lia|intros y [= <-]; lia|apply Hx1; lia].
Qed.

Lemma descend_root {A} (cmp : A -> Z) t l : inorder t = l -> ordered cmp l ->
  let '(a, m, r) := split_at cmp l in
  match descend cmp t [] true with
  | Taken c tl x tr q => m = Some x /\ plug (Node c tl x tr) q = t /\ before q ++ inorder tl = a /\ inorder tr ++ after q = r
  | Free q b => m = None /\ plug Leaf q = t /\ before q = a /\ after q = r /\ b = bool_decide (a = [])
  end.
Proof.
  intros <- H. pose proof (descend_inorder cmp t [] true H) as Hd. destruct (split_at cmp (inorder t)) as [[a m] r].
  cbn [plug before after app andb] in Hd. rewrite app_nil_r in Hd. exact Hd.
Qed.

(** A descent depends on the signs at the nodes of the tree only. *)
Lemma descend_ext {A} (f g : A -> Z) t : forall p b, (forall x, x ∈ inorder t -> Z.sgn (f x) = Z.sgn (g x)) -> descend f t p b = descend g t p b.
Proof.
  induction t as [|c l IHl x r IHr]; intros p b H; simpl; [done|]. simpl in H.
  rewrite IHl, IHr by (intros y Hy; apply H; set_solver). pose proof (H x ltac:(set_solver)) as Hx.
  destruct (Z.ltb_spec 0 (f x)), (Z.ltb_spec 0 (g x)), (Z.ltb_spec (f x) 0), (Z.ltb_spec (g x) 0); done || (exfalso; lia).
Qed.

Lemma find_app {A} (f : A -> bool) a b :
  List.find f (a ++ b) = match List.find f a with Some x => Some x | None => List.find f b end.
Proof. induction a as [|x a IH]; simpl; [done|]. destruct (f x); done. Qed.

Lemma find_none_iff {A} (f : A -> bool) l : (forall x, x ∈ l -> f x = false) -> List.find f l = None.
Proof.
  induction l as [|x l IH]; intros H; simpl; [done|]. rewrite (H x) by apply list_elem_of_here.
  apply IH. intros y Hy. apply H, list_elem_of_further, Hy.
Qed.

Lemma find_first_inorder {A} (cmp : A -> Z) t d : ordered cmp (inorder t) ->
  find_first_loop cmp t d = match List.find (fun x => 0 <=? cmp x) (inorder t) with Some x => Some x | None => d end.
Proof.
  revert d. induction t as [|c l IHl x r IHr]; intros d H; simpl; [done|].
  simpl in H. destruct (ordered_node _ _ _ _ H) as (Hl & Hr & Hx1 & Hx2). rewrite find_app. simpl.
  destruct (Z.leb_spec 0 (cmp x)).
  - rewrite IHl by done. destruct (List.find _ (inorder l)); done.
  - rewrite IHr by done. replace (List.find (fun x => 0 <=? cmp x) (inorder l)) with (@None A); [done|].
    symmetry. apply find_none_iff. intros y Hy. apply Hx2 in Hy; [|lia]. apply Z.leb_gt. done.
Qed.

(** ** Comparisons that order the nodes *)

(** A three-way comparison whose sign is that of a total preorder. *)
Class KeyOrder {K} (cmp : K -> K -> Z) := {
  ko_anti : forall a b, 0 < cmp a b <-> cmp b a < 0;
  ko_trans : forall a b c, cmp a b <= 0 -> cmp b c <= 0 -> cmp a c <= 0;
  ko_trans_lt : forall a b c, cmp a b < 0 -> cmp b c <= 0 -> cmp a c < 0;
}.

(** [if (a > b) return 1; else if (a < b) return -1;], or 0 *)
Definition zcmp (a b : Z) : Z := if b <? a then 1 else if a <? b then -1 else 0.

(** The first comparison that is not 0. *)
Definition lex {K} (c1 c2 : K -> K -> Z) (a b : K) : Z := if c1 a b =? 0 then c2 a b else c1 a b.

(** A comparison that is only made when a flag is set. *)
Definition flagged {K} (flag : bool) (c : K -> K -> Z) (a b : K) : Z := if flag then c a b else 0.

Ltac zcmp_cases := unfold zcmp in *; repeat
  match goal with |- context [?a <? ?b] => destruct (Z.ltb_spec a b) | H : context [?a <? ?b] |- _ => destruct (Z.ltb_spec a b) end.

#[export] Instance zcmp_order : KeyOrder zcmp.
Proof. split; [intros a b|intros a b c H1 H2|intros a b c H1 H2]; zcmp_cases; lia. Qed.

#[export] Instance const_order {K} : KeyOrder (fun _ _ : K => 0).
Proof. split; intros; lia. Qed.

Lemma on_order {K L} (f : L -> K) (c : K -> K -> Z) : KeyOrder c -> KeyOrder (fun a b => c (f a) (f b)).
Proof. intros []. split; eauto. Qed.

Lemma rev_order {K} (c : K -> K -> Z) : KeyOrder c -> KeyOrder (fun a b => c b a).
Proof.
  intros [H1 H2 H3]. split; [intros a b; apply H1|eauto|].
  intros a b d Hba Hdb. destruct (Z.lt_ge_cases (c d a) 0) as [|Hge]; [done|].
  assert (c a d <= 0) as Had by (destruct (Z.le_gt_cases (c a d) 0) as [|Hgt]; [done|apply H1 in Hgt; lia]).
  pose proof (H2 _ _ _ Had Hdb) as Hab. apply H1 in Hba. lia.
Qed.

Lemma flagged_order {K} flag (c : K -> K -> Z) : KeyOrder c -> KeyOrder (flagged flag c).
Proof. destruct flag; [done|]. intros _. apply const_order. Qed.

Lemma ko_sym {K} (c : K -> K -> Z) `{!KeyOrder c} a b : c a b = 0 <-> c b a = 0.
Proof. pose proof (ko_anti a b). pose proof (ko_anti b a). lia. Qed.

Lemma ko_refl {K} (c : K -> K -> Z) `{!KeyOrder c} a : c a a = 0.
Proof. pose proof (ko_anti a a). lia. Qed.

(** Equal keys compare alike. *)
Lemma ko_eq {K} (c : K -> K -> Z) `{!KeyOrder c} a b d : c a b = 0 -> (c a d < 0 <-> c b d < 0) /\ (c a d = 0 <-> c b d = 0).
Proof.
  intros H. pose proof (proj1 (ko_sym c a b) H) as H'.
  pose proof (fun x y z => ko_trans (cmp := c) x y z) as T. pose proof (fun x y z => ko_trans_lt (cmp := c) x y z) as L.
  pose proof (ko_anti (cmp := c) a d). pose proof (ko_anti (cmp := c) b d).
  pose proof (ko_anti (cmp := c) d a). pose proof (ko_anti (cmp := c) d b).
  pose proof (T a b d). pose proof (T b a d). pose proof (L d a b). pose proof (L d b a).
  pose proof (L a d b). pose proof (L b d a). lia.
Qed.

Lemma lex_order {K} (c1 c2 : K -> K -> Z) : KeyOrder c1 -> KeyOrder c2 -> KeyOrder (lex c1 c2).
Proof.
  intros H1 H2. unfold lex. split.
  - intros a b. pose proof (ko_sym c1 a b) as S. pose proof (ko_anti (cmp := c1) a b). pose proof (ko_anti (cmp := c2) a b).
    destruct (Z.eqb_spec (c1 a b) 0), (Z.eqb_spec (c1 b a) 0); lia.
  - intros a b d. pose proof (ko_eq c1 a b d). pose proof (ko_trans (cmp := c2) a b d).
    pose proof (ko_trans_lt (cmp := c1) a b d).
    destruct (Z.eqb_spec (c1 a b) 0), (Z.eqb_spec (c1 b d) 0), (Z.eqb_spec (c1 a d) 0); lia.
  - intros a b d. pose proof (ko_eq c1 a b d). pose proof (ko_trans_lt (cmp := c2) a b d).
    pose proof (ko_trans_lt (cmp := c1) a b d).
    destruct (Z.eqb_spec (c1 a b) 0), (Z.eqb_spec (c1 b d) 0), (Z.eqb_spec (c1 a d) 0); lia.
Qed.

(** ** Nodes with keys *)

Section Keyed.
Context {A K : Type} (key : A -> K) (cmp : K -> K -> Z) `{!KeyOrder cmp}.

Definition sorted_by (l : list A) : Prop := StronglySorted (fun x y => cmp (key x) (key y) < 0) l.

(** [rblist__find] and [rblist__findnew] on the nodes from left to right: the
    nodes before, the node that is there or new, the nodes after. *)
Definition find_node (k : K) (l : list A) : option A := (split_at (fun x => cmp (key x) k) l).1.2.

Definition findnew_node (k : K) (new : option A) (l : list A) : option (list A * A * list A) :=
  let '(a, m, r) := split_at (fun x => cmp (key x) k) l in
  match m with Some x => Some (a, x, r) | None => n ← new; Some (a, n, r) end.

Lemma sorted_by_ordered l k : sorted_by l -> ordered (fun x => cmp (key x) k) l.
Proof.
  apply sorted_ext. intros x y _ _ Hxy Hx. apply ko_anti.
  assert (cmp k (key x) <= 0) as Hk. { pose proof (ko_anti (cmp := cmp) k (key x)). lia. }
  destruct (Z.lt_ge_cases (cmp k (key y)) 0) as [|Hge]; [done|].
  assert (cmp (key y) k <= 0) as Hy. { pose proof (ko_anti (cmp := cmp) (key y) k). lia. }
  pose proof (ko_trans _ _ _ Hy Hk) as Hyx. pose proof (ko_anti (cmp := cmp) (key y) (key x)) as [_ Hc]. lia.
Qed.

(** What is found is in the list, and a node of the list is found by its key. *)
Lemma find_node_elem l k x : sorted_by l -> find_node k l = Some x <-> x ∈ l /\ cmp (key x) k = 0.
Proof.
  intros Hs. unfold find_node. pose proof (split_at_spec _ _ (sorted_by_ordered l k Hs)) as H.
  destruct (split_at _ l) as [[a m] r]. destruct H as (-> & Ha & Hm & Hr). simpl. split.
  - intros ->. split; [|auto]. set_solver.
  - intros [[Hx|[Hx|Hx]%elem_of_app]%elem_of_app Hk]; [apply Ha in Hx; lia| |apply Hr in Hx; lia].
    destruct m; simpl in Hx; [|inversion Hx]. apply list_elem_of_singleton in Hx as ->. done.
Qed.

(** A node that is found or new, with its key kept: the list stays sorted, and the
    node is found by the keys that equal its own. *)
Lemma findnew_update l k new a x r x' : sorted_by l -> (forall n, new = Some n -> cmp (key n) k = 0) ->
  findnew_node k new l = Some (a, x, r) -> key x' = key x ->
  sorted_by (a ++ x' :: r) /\ cmp (key x) k = 0 /\
  (find_node k l = Some x \/ find_node k l = None /\ new = Some x) /\
  forall j, find_node j (a ++ x' :: r) = if cmp k j =? 0 then Some x' else find_node j l.
Proof.
  intros Hs Hn Hf Hk. unfold findnew_node in Hf.
  pose proof (split_at_spec _ _ (sorted_by_ordered l k Hs)) as H. unfold find_node at 1 2.
  destruct (split_at _ l) as [[a0 m] r0]. destruct H as (El & Ha & Hm & Hr).
  assert (a0 = a /\ r0 = r /\ cmp (key x) k = 0 /\ (m = Some x \/ m = None /\ new = Some x)) as (-> & -> & Hx & Hor).
  { destruct m as [y|]; [injection Hf as -> -> ->; split_and!; auto|]. destruct new as [n|]; [|done]. injection Hf as -> -> ->. split_and!; auto. }
  assert (sorted_by (a ++ x' :: r)) as Hs'.
  { unfold sorted_by in *. rewrite El in Hs. apply sorted_app in Hs as (Sa & Smr & Sar). apply sorted_app.
    apply sorted_app in Smr as (_ & Sr & _).
    assert (forall y, cmp (key y) k < 0 -> cmp (key y) (key x) < 0) as L.
    { intros y Hy. eapply ko_trans_lt; [exact Hy|]. apply ko_sym in Hx; [lia|done]. }
    assert (forall y, 0 < cmp (key y) k -> cmp (key x) (key y) < 0) as G.
    { intros y Hy. apply ko_anti in Hy. apply (proj1 (ko_eq cmp _ _ (key y) Hx)). done. }
    split_and!; [done| |].
    - constructor; [done|]. apply list.Forall_forall. intros y Hy. rewrite Hk. auto.
    - intros y z Hy [->|Hz]%elem_of_cons; [rewrite Hk; auto|]. apply Sar; [done|]. set_solver. }
  split_and!; [done|done|done|]. intros j. apply option_eq. intros y. rewrite find_node_elem by done.
  destruct (Z.eqb_spec (cmp k j) 0) as [Hj|Hj].
  - split; [|intros [= <-]; rewrite Hk; split; [set_solver|apply (proj2 (ko_eq cmp _ _ j Hx)); done]].
    intros [Hy Hyj]. assert (cmp (key y) k = 0) as Hyk.
    { apply ko_sym; [done|]. apply (proj2 (ko_eq cmp _ _ (key y) Hj)). apply ko_sym; done. }
    apply elem_of_app in Hy as [Hy|[->|Hy]%elem_of_cons]; [apply Ha in Hy; lia|done|apply Hr in Hy; lia].
  - rewrite find_node_elem by done. rewrite El. rewrite !elem_of_app, elem_of_cons.
    assert (y = x' -> cmp (key y) j <> 0) as N1.
    { intros ->. rewrite Hk. intros E. apply Hj. apply (proj2 (ko_eq cmp _ _ j Hx)). done. }
    assert (m = Some y -> cmp (key y) j <> 0) as N2.
    { intros Ey E. apply Hj. apply (proj2 (ko_eq cmp _ _ j (Hm _ Ey))). done. }
    assert (y ∈ option_list m <-> m = Some y) as Em by (destruct m; simpl; set_solver +). tauto.
Qed.

Lemma findnew_none l k new : findnew_node k new l = None <-> find_node k l = None /\ new = None.
Proof.
  unfold findnew_node, find_node. destruct (split_at _ l) as [[a m] r]. simpl.
  destruct m; [naive_solver|]. destruct new; naive_solver.
Qed.

End Keyed.

(** ** Every sequence of calls *)

Section Runs.
Context {A K : Type} `{!EqDecision A} (key : A -> K) (cmp : K -> K -> Z) `{!KeyOrder cmp}.

(** The calls, with what [node_new] returns in them. *)
Inductive call :=
  | Add (k : K) (new : option A)
  | Find (k : K)
  | Findnew (k : K) (new : option A)
  | Find_first (k : K)
  | Find_remove (k : K)
  | Remove_node (x : A)
  | Entry (idx : nat)
  | Exit.

(** What a call returns, and the nodes that it frees. *)
Inductive answer := Int (z : Z) (freed : list A) | Pointer (n : option A).

(** A new node has the key of the entry. *)
Definition call_ok (c : call) : Prop :=
  match c with Add k new | Findnew k new => forall n, new = Some n -> cmp (key n) k = 0 | _ => True end.

Definition code_step (c : call) (rb : rblist A) : option (answer * rblist A) :=
  let node_cmp k := fun x => cmp (key x) k in
  match c with
  | Add k new => '(z, rb) ← rblist__add_node (node_cmp k) new rb; Some (Int z [], rb)
  | Find k => '(n, rb) ← rblist__find (node_cmp k) rb; Some (Pointer n, rb)
  | Findnew k new => '(n, rb) ← rblist__findnew (node_cmp k) new rb; Some (Pointer n, rb)
  | Find_first k => n ← rblist__find_first (node_cmp k) rb; Some (Pointer n, rb)
  | Find_remove k => '(z, n, rb) ← rblist__find_remove (node_cmp k) rb; Some (Int z (option_list n), rb)
  | Remove_node x => rb ← rblist__remove_node x rb; Some (Int 0 [x], rb)
  | Entry idx => n ← rblist__entry idx rb; Some (Pointer n, rb)
  | Exit => '(freed, rb) ← rblist__exit rb; Some (Int 0 freed, rb)
  end.

Fixpoint without (x : A) (l : list A) : option (list A) :=
  match l with
  | [] => None
  | y :: l => if decide (x = y) then Some l else l ← without x l; Some (y :: l)
  end.

(** The same calls on the list of the nodes in order. *)
Definition list_step (c : call) (l : list A) : option (answer * list A) :=
  let split k := split_at (fun x => cmp (key x) k) l in
  match c with
  | Add k new =>
      let '(a, m, r) := split k in
      Some (match m, new with
            | Some _, _ => (Int (- 17) [], l)
            | None, None => (Int (- 12) [], l)
            | None, Some n => (Int 0 [], a ++ n :: r)
            end)
  | Find k => Some (Pointer (split k).1.2, l)
  | Findnew k new =>
      let '(a, m, r) := split k in
      Some (match m, new with
            | Some x, _ => (Pointer (Some x), l)
            | None, None => (Pointer None, l)
            | None, Some n => (Pointer (Some n), a ++ n :: r)
            end)
  | Find_first k =>
      match l with [] => None | _ => Some (Pointer (List.find (fun x => 0 <=? cmp (key x) k) l), l) end
  | Find_remove k =>
      let '(a, m, r) := split k in
      Some (match m with Some x => (Int 1 [x], a ++ r) | None => (Int 0 [], l) end)
  | Remove_node x => l ← without x l; Some (Int 0 [x], l)
  | Entry idx => Some (Pointer (l !! idx), l)
  | Exit => Some (Int 0 l, [])
  end.

Fixpoint calls {S : Type} (step : call -> S -> option (answer * S)) (cs : list call) (s : S) : option (list answer * S) :=
  match cs with
  | [] => Some ([], s)
  | c :: cs => '(a, s) ← step c s; '(r, s) ← calls step cs s; Some (a :: r, s)
  end.

(** The tree of a list: its nodes are those of the list, in order, the tree follows
    the rules, and the leftmost node and the number of nodes are right. *)
Definition tree_of (l : list A) (rb : rblist A) : Prop :=
  inorder (rb_root rb) = l /\ sorted_by key cmp l /\ (exists m, rbt m RB_BLACK (rb_root rb)) /\
  rb_leftmost rb = head l /\ nr_entries rb = Z.of_nat (length l) mod 2 ^ 32.

Lemma without_spec x l :
  match without x l with Some l' => exists a r, l = a ++ x :: r /\ l' = a ++ r | None => x ∉ l end.
Proof.
  induction l as [|y l IH]; simpl; [set_solver|]. destruct (decide (x = y)) as [->|Hn]; [exists [], l; done|].
  destruct (without x l) as [l'|]; simpl; [|set_solver]. destruct IH as (a & r & -> & ->). exists (y :: a), r. done.
Qed.

Lemma sorted_nodup l : sorted_by key cmp l -> NoDup l.
Proof.
  induction 1 as [|x l _ IH Hx]; constructor; [|done]. intros Hin. rewrite list.Forall_forall in Hx.
  apply Hx in Hin. rewrite ko_refl in Hin; [lia|done].
Qed.

Lemma link_tree l rb n k p a r b : tree_of l rb -> cmp (key n) k = 0 ->
  split_at (fun x => cmp (key x) k) l = (a, None, r) ->
  plug Leaf p = rb_root rb -> before p = a -> after p = r -> b = bool_decide (a = []) ->
  exists rb', link n p b rb = Some rb' /\ tree_of (a ++ n :: r) rb'.
Proof.
  intros (Hl & Hs & [m Hm] & H1 & H2) Hn Hsp Hp Ha Hr Hb. rewrite <- Hp in Hm.
  destruct (insert_rbt n p m Hm) as (t & m' & Et & Ht). unfold link, rb_insert_color_cached. rewrite Et. simpl.
  eexists. split; [reflexivity|]. pose proof (insert_inorder n p t Et) as Hi. rewrite Ha, Hr in Hi.
  pose proof (split_at_spec _ _ (sorted_by_ordered key cmp l k Hs)) as Hsplit. rewrite Hsp in Hsplit.
  destruct Hsplit as (El & _). simpl in El.
  assert (sorted_by key cmp (a ++ n :: r)) as Hs'.
  { eapply (findnew_update key cmp l k (Some n) a n r n); [done|intros ? [= <-]; done| |done].
    unfold findnew_node. rewrite Hsp. done. }
  unfold tree_of. simpl. split_and!; [done|done|eauto| |].
  - rewrite Hb, H1, El. destruct a; done.
  - rewrite H2, El, Zplus_mod_idemp_l, !length_app. f_equal. simpl. lia.
Qed.

Lemma unlink_tree l rb c tl x tr p a r : tree_of l rb -> plug (Node c tl x tr) p = rb_root rb ->
  before p ++ inorder tl = a -> inorder tr ++ after p = r ->
  l = a ++ x :: r /\ rb_next tr p = head r /\ exists rb', unlink c tl x tr p rb = Some rb' /\ tree_of (a ++ r) rb'.
Proof.
  intros (Hl & Hs & [m Hm] & H1 & H2) Hp Ha Hr. rewrite <- Hp in Hm.
  assert (l = a ++ x :: r) as El.
  { rewrite <- Hl, <- Hp, inorder_plug, <- Ha, <- Hr. simpl. rewrite <- !app_assoc. done. }
  destruct (erase_rbt _ _ _ _ _ _ Hm) as (t & m' & Et & Ht). pose proof (erase_inorder _ _ _ _ _ Et) as Hi.
  pose proof (rb_next_head tr p) as Hnext. rewrite Hr in Hnext. split_and!; [done|done|].
  unfold unlink, rb_erase_cached. rewrite Et. simpl. eexists. split; [reflexivity|].
  pose proof (sorted_nodup l Hs) as Hnd. unfold tree_of. simpl. split_and!; [| |eauto| |].
  - rewrite Hi, <- Ha, <- Hr, <- !app_assoc. done.
  - eapply sorted_sublist; [|exact Hs]. rewrite El. apply sublist_app; [done|]. apply sublist_cons. done.
  - rewrite H1, El. destruct a as [|y a]; simpl; [rewrite decide_True; done|].
    rewrite decide_False; [done|]. intros [= ->]. rewrite El in Hnd. simpl in Hnd. apply list.NoDup_cons in Hnd as [Hnd _]. set_solver.
  - rewrite H2, Zminus_mod_idemp_l, El, !length_app. f_equal. simpl. lia.
Qed.

Lemma node_place_spec (x : A) t : forall p,
  match node_place x t p with
  | Some (c, l, r, q) => plug (Node c l x r) q = plug t p
  | None => x ∉ inorder t
  end.
Proof.
  induction t as [|c l IHl y r IHr]; intros p; simpl; [set_solver|]. destruct (decide (x = y)) as [->|Hn]; [done|].
  specialize (IHl (LeftOf c y r :: p)). specialize (IHr (RightOf c l y :: p)).
  destruct (node_place x l _) as [[[[c' l'] r'] q]|]; [done|]. destruct (node_place x r _) as [[[[c' l'] r'] q]|]; [done|].
  set_solver.
Qed.

Lemma nodup_split (x : A) a : forall r a' r', NoDup (a ++ x :: r) -> a ++ x :: r = a' ++ x :: r' -> a = a' /\ r = r'.
Proof.
  induction a as [|y a IH]; intros r [|y' a'] r'; simpl; intros Hnd E; simplify_eq; [done| | |].
  - apply list.NoDup_cons in Hnd as [Hnd _]. set_solver.
  - apply list.NoDup_cons in Hnd as [Hnd _]. set_solver.
  - apply list.NoDup_cons in Hnd as [_ Hnd]. destruct (IH r a' r' Hnd) as [-> ->]; done.
Qed.

(** The node after [x] and the tree without it. *)
Lemma remove_tree l rb a x r : tree_of l rb -> l = a ++ x :: r ->
  exists c tl tr p rb', node_place x (rb_root rb) [] = Some (c, tl, tr, p) /\ rb_next tr p = head r /\
    unlink c tl x tr p rb = Some rb' /\ tree_of (a ++ r) rb'.
Proof.
  intros Ht El. pose proof Ht as (Hl & Hs & _). pose proof (node_place_spec x (rb_root rb) []) as Hpl.
  destruct (node_place x (rb_root rb) []) as [[[[c tl] tr] p]|]; [|rewrite Hl, El in Hpl; set_solver].
  destruct (unlink_tree l rb c tl x tr p _ _ Ht Hpl eq_refl eq_refl) as (El' & Hn & rb' & E & Ht').
  pose proof (sorted_nodup l Hs) as Hnd.
  assert (before p ++ inorder tl = a /\ inorder tr ++ after p = r) as [Ea Er].
  { rewrite El in El', Hnd. destruct (nodup_split _ _ _ _ _ Hnd El'). done. }
  exists c, tl, tr, p, rb'. rewrite Ea, Er in *. done.
Qed.

Lemma exit_tree l : forall rb fuel, tree_of l rb -> (length l <= fuel)%nat ->
  exists rb', exit_loop fuel (rb_leftmost rb) rb = Some (l, rb') /\ tree_of [] rb'.
Proof.
  induction l as [|x l IH]; intros rb fuel Ht Hf; pose proof Ht as (_ & _ & _ & -> & _).
  - exists rb. destruct fuel; done.
  - destruct fuel as [|fuel]; [simpl in Hf; lia|].
    destruct (remove_tree _ rb [] x l Ht eq_refl) as (c & tl & tr & p & rb' & E & En & Eu & Ht'). simpl.
    unfold rblist__remove_node. rewrite E. simpl. rewrite Eu. simpl. rewrite En.
    destruct (IH rb' fuel Ht') as (rb'' & E' & Ht''); [simpl in Hf; lia|]. pose proof Ht' as (_ & _ & _ & Hm & _).
    rewrite Hm in E'. cbn [app] in E'. rewrite E'. exists rb''. done.
Qed.

Lemma entry_tree rb idx : forall l a, tree_of (a ++ l) rb -> entry_loop idx (head l) rb = Some (l !! idx).
Proof.
  induction idx as [|idx IH]; intros [|x l] a Ht; try done. simpl.
  destruct (remove_tree _ rb a x l Ht eq_refl) as (c & tl & tr & p & rb' & E & En & _ & _). rewrite E. simpl.
  rewrite En. apply (IH l (a ++ [x])). rewrite <- app_assoc. done.
Qed.

(** A call on the tree of a list does what it does on the list. *)
Lemma step_tree c l rb : call_ok c -> tree_of l rb ->
  match list_step c l with
  | Some (res, l') => exists rb', code_step c rb = Some (res, rb') /\ tree_of l' rb'
  | None => code_step c rb = None
  end.
Proof.
  intros Hc Ht. pose proof Ht as (Hl & Hs & _ & H1 & _).
  pose proof (fun k => descend_root (fun x => cmp (key x) k) (rb_root rb) l Hl) as Hd.
  pose proof (fun k => sorted_by_ordered key cmp l k Hs) as Ho.
  destruct c as [k new|k|k new|k|k|x|idx| ]; cbn [list_step code_step call_ok] in *;
    unfold rblist__add_node, rblist__find, rblist__findnew, __rblist__findnew, rblist__find_remove.
  - specialize (Hd k (Ho k)). destruct (split_at _ l) as [[a m] r] eqn:Esp.
    destruct (descend _ _ _ _) as [c tl x tr p|p b].
    + destruct Hd as [-> _]. exists rb. done.
    + destruct Hd as (-> & Hp & Ha & Hr & Hb). destruct new as [n|]; [|exists rb; done].
      destruct (link_tree l rb n k p a r b Ht (Hc n eq_refl) Esp Hp Ha Hr Hb) as (rb' & -> & Ht'). exists rb'. done.
  - specialize (Hd k (Ho k)). destruct (split_at _ l) as [[a m] r] eqn:Esp.
    destruct (descend _ _ _ _) as [c tl x tr p|p b]; destruct Hd as [-> _]; exists rb; done.
  - specialize (Hd k (Ho k)). destruct (split_at _ l) as [[a m] r] eqn:Esp.
    destruct (descend _ _ _ _) as [c tl x tr p|p b].
    + destruct Hd as [-> _]. exists rb. done.
    + destruct Hd as (-> & Hp & Ha & Hr & Hb). destruct new as [n|]; [|exists rb; done].
      destruct (link_tree l rb n k p a r b Ht (Hc n eq_refl) Esp Hp Ha Hr Hb) as (rb' & -> & Ht'). exists rb'. done.
  - unfold rblist__find_first. rewrite H1. destruct l as [|x l]; [done|]. exists rb. split; [|done]. simpl.
    rewrite find_first_inorder by (rewrite Hl; apply Ho). rewrite Hl. simpl.
    destruct (0 <=? cmp (key x) k); [done|]. destruct (List.find _ l); done.
  - specialize (Hd k (Ho k)). destruct (split_at _ l) as [[a m] r] eqn:Esp.
    destruct (descend _ _ _ _) as [c tl x tr p|p b].
    + destruct Hd as (-> & Hp & Ha & Hr).
      destruct (unlink_tree l rb c tl x tr p a r Ht Hp Ha Hr) as (_ & _ & rb' & -> & Ht'). exists rb'. done.
    + destruct Hd as [-> _]. exists rb. done.
  - pose proof (without_spec x l) as Hw. unfold rblist__remove_node. destruct (without x l) as [l'|]; simpl.
    + destruct Hw as (a & r & El & ->).
      destruct (remove_tree _ rb a x r Ht El) as (c & tl & tr & p & rb' & -> & _ & E & Ht'). simpl. rewrite E.
      exists rb'. done.
    + pose proof (node_place_spec x (rb_root rb) []) as Hp. destruct (node_place x _ _) as [[[[c tl] tr] p]|]; [|done].
      exfalso. apply Hw. rewrite <- Hl. simpl in Hp. rewrite <- Hp, inorder_plug. simpl. set_solver.
  - unfold rblist__entry. rewrite H1, (entry_tree rb idx l []) by done. exists rb. done.
  - unfold rblist__exit. rewrite Hl. destruct (exit_tree l rb (length l) Ht) as (rb' & -> & Ht'); [done|]. exists rb'. done.
Qed.

Lemma calls_tree cs : forall l rb, Forall call_ok cs -> tree_of l rb ->
  match calls list_step cs l with
  | Some (res, l') => exists rb', calls code_step cs rb = Some (res, rb') /\ tree_of l' rb'
  | None => calls code_step cs rb = None
  end.
Proof.
  induction cs as [|c cs IH]; intros l rb Hok Ht; simpl; [exists rb; done|].
  apply list.Forall_cons in Hok as [Hc Hok]. pose proof (step_tree c l rb Hc Ht) as Hs.
  destruct (list_step c l) as [[a l']|]; simpl; [|rewrite Hs; done]. destruct Hs as (rb' & -> & Ht'). simpl.
  specialize (IH l' rb' Hok Ht'). destruct (calls list_step cs l') as [[res l'']|]; simpl; [|rewrite IH; done].
  destruct IH as (rb'' & -> & Ht''). exists rb''. done.
Qed.

Lemma tree_of_height l rb : tree_of l rb -> (2 ^ (height (rb_root rb) / 2) <= S (length l))%nat.
Proof.
  intros (<- & _ & [m Hm] & _). apply rbt_height in Hm as [H1 H2]. etransitivity; [|exact H2].
  apply Nat.pow_le_mono_r; [done|]. apply Nat.Div0.div_le_upper_bound. lia.
Qed.

(** *** For the components that keep nodes in a tree *)

Lemma tree_of_init : tree_of [] rblist__init.
Proof. split_and!; try done; [constructor|]. exists 0%nat. constructor. Qed.

Lemma find_tree k l rb : tree_of l rb -> rblist__find (fun x => cmp (key x) k) rb = Some (find_node key cmp k l, rb).
Proof.
  intros Ht. pose proof Ht as (Hl & Hs & _). pose proof (descend_root _ _ _ Hl (sorted_by_ordered key cmp l k Hs)) as Hd.
  unfold rblist__find, __rblist__findnew, find_node. destruct (split_at _ l) as [[a m] r].
  destruct (descend _ _ _ _); destruct Hd as [-> _]; done.
Qed.

Lemma descend_tree k l rb : tree_of l rb ->
  match descend (fun x => cmp (key x) k) (rb_root rb) [] true with
  | Taken _ _ x _ _ => x ∈ l /\ cmp (key x) k = 0
  | Free p b => (forall x, x ∈ l -> cmp (key x) k <> 0) /\
      forall n, cmp (key n) k = 0 -> exists l' rb', link n p b rb = Some rb' /\ tree_of l' rb' /\ l' ≡ₚ n :: l
  end.
Proof.
  intros Ht. pose proof Ht as (Hl & Hs & _). pose proof (sorted_by_ordered key cmp l k Hs) as Ho.
  pose proof (descend_root _ _ _ Hl Ho) as Hd. pose proof (split_at_spec _ _ Ho) as Hsp.
  destruct (split_at _ l) as [[a m] r] eqn:Esp. destruct Hsp as (El & Ha & Hm & Hr).
  destruct (descend _ _ _ _) as [c tl x tr p|p b].
  - destruct Hd as [-> _]. split; [rewrite El; set_solver|auto].
  - destruct Hd as (-> & Hp & Hb & Haf & Eb). split.
    { intros x Hx. rewrite El in Hx. apply elem_of_app in Hx as [Hx%Ha|[Hx|Hx%Hr]%elem_of_app]; [lia|set_solver|lia]. }
    intros n Hn. destruct (link_tree l rb n k p a r b Ht Hn Esp Hp Hb Haf Eb) as (rb' & -> & Ht').
    exists (a ++ n :: r), rb'. split_and!; [done|done|]. rewrite El. simpl. rewrite Permutation_middle. done.
Qed.

(** A node that is there, or a new one. *)
Lemma findnew_tree k new l rb : (forall n, new = Some n -> cmp (key n) k = 0) -> tree_of l rb ->
  (exists x, x ∈ l /\ cmp (key x) k = 0 /\ rblist__findnew (fun x => cmp (key x) k) new rb = Some (Some x, rb)) \/
  ((forall x, x ∈ l -> cmp (key x) k <> 0) /\ exists l' rb', rblist__findnew (fun x => cmp (key x) k) new rb = Some (new, rb') /\
    tree_of l' rb' /\ l' ≡ₚ option_list new ++ l).
Proof.
  intros Hn Ht. pose proof (descend_tree k l rb Ht) as Hd. unfold rblist__findnew, __rblist__findnew.
  destruct (descend _ _ _ _) as [c tl x tr p|p b]; [left; exists x; naive_solver|]. right. destruct Hd as [Hno Hd]. split; [done|].
  destruct new as [n|]; [|exists l, rb; done]. destruct (Hd n (Hn n eq_refl)) as (l' & rb' & -> & Ht' & Hp). exists l', rb'. done.
Qed.

Lemma add_tree k n l rb : cmp (key n) k = 0 -> tree_of l rb ->
  (exists x, x ∈ l /\ cmp (key x) k = 0 /\ rblist__add_node (fun x => cmp (key x) k) (Some n) rb = Some (- 17, rb)) \/
  ((forall x, x ∈ l -> cmp (key x) k <> 0) /\ exists l' rb', rblist__add_node (fun x => cmp (key x) k) (Some n) rb = Some (0, rb') /\
    tree_of l' rb' /\ l' ≡ₚ n :: l).
Proof.
  intros Hn Ht. pose proof (descend_tree k l rb Ht) as Hd. unfold rblist__add_node.
  destruct (descend _ _ _ _) as [c tl x tr p|p b]; [left; exists x; naive_solver|]. right. destruct Hd as [Hno Hd]. split; [done|].
  destruct (Hd n Hn) as (l' & rb' & -> & Ht' & Hp). exists l', rb'. done.
Qed.

Lemma remove_node_tree x l rb : x ∈ l -> tree_of l rb ->
  exists a r rb', rblist__remove_node x rb = Some rb' /\ l = a ++ x :: r /\ tree_of (a ++ r) rb'.
Proof.
  intros Hx Ht. apply list_elem_of_split in Hx as (a & r & El).
  destruct (remove_tree l rb a x r Ht El) as (c & tl & tr & p & rb' & E & _ & Eu & Ht').
  exists a, r, rb'. unfold rblist__remove_node. rewrite E. done.
Qed.

Lemma exit_node_tree l rb : tree_of l rb -> exists rb', rblist__exit rb = Some (l, rb') /\ tree_of [] rb'.
Proof. intros Ht. unfold rblist__exit. pose proof Ht as [Hl _]. rewrite Hl. apply exit_tree; done. Qed.

Lemma tree_of_nodup l rb : tree_of l rb -> NoDup l.
Proof. intros (_ & Hs & _). apply sorted_nodup. done. Qed.

(** *** Trees that are kept without their first node or their number *)

(** The tree of a list. *)
Definition root_of (l : list A) (t : tree A) : Prop :=
  inorder t = l /\ sorted_by key cmp l /\ exists m, rbt m RB_BLACK t.

Definition whole (t : tree A) : rblist A :=
  {| rb_root := t; rb_leftmost := head (inorder t); nr_entries := Z.of_nat (length (inorder t)) mod 2 ^ 32 |}.

Lemma root_whole l t : root_of l t -> tree_of l (whole t).
Proof. intros (<- & Hs & Hm). done. Qed.

Lemma root_nil : root_of [] Leaf.
Proof. split_and!; [done|constructor|]. exists 0%nat. constructor. Qed.

Lemma root_nodup l t : root_of l t -> NoDup l.
Proof. intros (_ & Hs & _). apply sorted_nodup. done. Qed.

Lemma root_first l t : root_of l t -> rb_first t = head l.
Proof. intros (<- & _). apply rb_first_head. Qed.

Lemma root_empty l t : root_of l t -> (t = Leaf <-> l = []).
Proof. intros (<- & _). destruct t as [|c tl x tr]; [done|]. simpl. split; [done|]. destruct (inorder tl); done. Qed.

Lemma root_descend k l t : root_of l t ->
  match descend (fun x => cmp (key x) k) t [] true with
  | Taken _ _ x _ _ => x ∈ l /\ cmp (key x) k = 0
  | Free p b => (forall x, x ∈ l -> cmp (key x) k <> 0) /\
      forall n, cmp (key n) k = 0 -> exists l' t', rb_insert_color n p = Some t' /\ root_of l' t' /\ l' ≡ₚ n :: l /\
        (if b then Some n else head l) = head l'
  end.
Proof.
  intros Ht. pose proof (descend_tree k l (whole t) (root_whole l t Ht)) as Hd. cbn [rb_root whole] in Hd.
  destruct (descend _ t [] true) as [c tl x tr p|p b]; [exact Hd|]. destruct Hd as [Hno Hd]. split; [done|].
  intros n Hn. destruct (Hd n Hn) as (l' & rb' & El & (H1 & H2 & H3 & H4 & _) & P). unfold link, rb_insert_color_cached in El.
  destruct (rb_insert_color n p) as [t'|]; [|done]. simpl in El. injection El as <-. simpl in *. exists l', t'.
  pose proof Ht as (<- & _). split_and!; done.
Qed.

Lemma root_erase x l t a r : root_of l t -> l = a ++ x :: r ->
  exists c tl tr p t', node_place x t [] = Some (c, tl, tr, p) /\ rb_next tr p = head r /\
    rb_erase c tl tr p = Some t' /\ root_of (a ++ r) t'.
Proof.
  intros Ht El. destruct (remove_tree l (whole t) a x r (root_whole l t Ht) El) as (c & tl & tr & p & rb' & E & En & Eu & H1 & H2 & H3 & _).
  cbn [rb_root whole] in E. unfold unlink, rb_erase_cached in Eu. destruct (rb_erase c tl tr p) as [t'|] eqn:Ee; [|done].
  simpl in Eu. injection Eu as <-. simpl in *. exists c, tl, tr, p, t'. split_and!; try done.
Qed.

(** C37: any sequence of calls of rblist.c on an empty [rblist] returns and frees
    what the same calls on a sorted list do, and fails only where they do (the first
    node of an empty list is asked for, or a node is removed that is not there);
    after it the nodes of the tree from left to right are the sorted list, the
    cached leftmost node and the number of nodes are right, no red node has a red
    child, all paths have as many black nodes, and the height is at most twice the
    logarithm of the number of nodes. *)
Theorem rblist_refines (cs : list call) : Forall call_ok cs ->
  match calls list_step cs [] with
  | Some (res, l) => exists rb, calls code_step cs rblist__init = Some (res, rb) /\ tree_of l rb /\
      (2 ^ (height (rb_root rb) / 2) <= S (length l))%nat
  | None => calls code_step cs rblist__init = None
  end.
Proof.
  intros Hok. pose proof (calls_tree cs [] rblist__init Hok tree_of_init) as H. destruct (calls list_step cs []) as [[res l]|]; [|done].
  destruct H as (rb & E & Ht'). exists rb. split_and!; [done|done|]. apply tree_of_height. done.
Qed.

End Runs.

(** A tree stays the tree of a list when the keys of its nodes do not change. *)
Lemma tree_of_ext {A K} (key key' : A -> K) cmp l rb : (forall x, x ∈ l -> key x = key' x) ->
  tree_of key cmp l rb -> tree_of key' cmp l rb.
Proof.
  intros He (H1 & H2 & H3 & H4 & H5). split_and!; try done. revert H2. apply sorted_ext.
  intros x y Hx Hy. rewrite !He; done.
Qed.

Definition sample_calls : list (@call Z Z) :=
  [Add 5 (Some 5); Add 3 (Some 3); Findnew 8 (Some 8); Add 1 (Some 1); Add 4 (Some 4); Add 3 (Some 3); Add 9 None;
   Findnew 7 (Some 7); Add 2 (Some 2); Find_remove 3; Find_first 6; Remove_node 5; Find 6; Entry 2; Find_remove 3].

Lemma rblist_refines_witness :
  Forall (call_ok id zcmp) sample_calls /\
  exists rb, calls (code_step id zcmp) sample_calls rblist__init =
    Some ([Int 0 []; Int 0 []; Pointer (Some 8); Int 0 []; Int 0 []; Int (-17) []; Int (-12) []; Pointer (Some 7); Int 0 [];
           Int 1 [3]; Pointer (Some 7); Int 0 [5]; Pointer None; Pointer (Some 4); Int 0 []], rb) /\
  tree_of id zcmp [1; 2; 4; 7; 8] rb.
Proof.
  assert (Forall (call_ok id zcmp) sample_calls) as Hok.
  { unfold sample_calls. repeat apply Forall_cons_2; try apply Forall_nil_2; simpl; try done; intros n [= <-]; reflexivity. }
  pose proof (rblist_refines id zcmp sample_calls Hok) as H. split; [exact Hok|].
  destruct (calls (list_step id zcmp) sample_calls []) as [[res l]|] eqn:E; [|vm_compute in E; discriminate E].
  vm_compute in E. injection E as <- <-. destruct H as (rb & E' & Ht & _). exists rb. split; [exact E'|exact Ht].
Defined.

End Rblist.
