(* ===== verification/MultiTrace.v ===== *)
(** * Pairs of events (multi-trace.c)

    The engine of multi-trace, kmemprof, syscalls, nested-trace and rundelay:
    an event is paired with the event before it that has the same key.  Events
    that wait for their pair are in the tree [backup], by key; with --detail all
    events are also in the tree [timeline], by time, and wait in [pending_list]
    until nothing earlier can come.

    A node is a [struct timeline_node] on the C heap, [nodes] maps the pointers
    to it; [None] is the use of a node that was freed.  A tree is the list of
    its nodes from left to right (rblist.c); the two list heads of a node, which
    are a union in the code, are the lists [needed_list] and [pending_list]. *)

From S2P Require Import Prelude.

Module MultiTrace.

(** ** Data *)

(** A tracepoint as far as this code looks at it. *)
Record tp := Tp { tp_id : Z; tp_evsel : Z; untraced : bool }.

(** An event; [e_evsel] is the event selector found for it, [e_tag] what
    identifies it. *)
Record ev := Ev { e_time : Z; e_evsel : option Z; e_ins : nat; e_size : Z; e_tag : Z }.

(** struct timeline_node *)
Record node := Node {
  time : Z;
  key : Z;
  n_tp : tp;
  tp1 : option tp;
  unneeded : bool;
  need_find_prev : bool;
  need_backup : bool;
  need_remove_from_backup : bool;
  maybe_unpaired : bool;
  ins : nat;
  seq : Z;
  event : ev
}.

Definition set_unneeded (n : node) (b : bool) : node :=
  Node (time n) (key n) (n_tp n) (tp1 n) b (need_find_prev n) (need_backup n) (need_remove_from_backup n)
    (maybe_unpaired n) (ins n) (seq n) (event n).
Definition set_unpaired (n : node) (b : bool) : node :=
  Node (time n) (key n) (n_tp n) (tp1 n) (unneeded n) (need_find_prev n) (need_backup n)
    (need_remove_from_backup n) b (ins n) (seq n) (event n).
Definition set_need (n : node) (find_prev backup : bool) : node :=
  Node (time n) (key n) (n_tp n) (tp1 n) (unneeded n) find_prev backup (need_remove_from_backup n)
    (maybe_unpaired n) (ins n) (seq n) (event n).

Record timeline_stat := TlStat {
  tl_new : Z; tl_delete : Z; tl_unneeded : Z; tl_pending : Z;
  tl_mem_bytes : Z; tl_unneeded_bytes : Z; tl_pending_bytes : Z
}.
Record backup_stat := BkStat { b_new : Z; b_delete : Z; b_mem_bytes : Z }.

Inductive remaining_reason := REMAINING_LOST | REMAINING_SYSCALLS | REMAINING_EXIT.

Record lost_node := LostNode {
  l_ins : nat; l_reclaim : bool; start_time : Z; end_time : Z; lost_id : Z; lost : Z
}.

(** What the engine calls: [start] is the first node of the detail, if there is
    one. *)
Inductive call :=
  | Two (tp1 : Z) (tp2 : option Z) (key tag1 : Z) (tag2 : option Z) (start : option (option nat))
  | Remaining (tp1 : Z) (key tag1 recent_time : Z) (rr : remaining_reason) (start : option (option nat))
  | Lost (ins : nat) (l : option lost_node)
  | Bug.     (* the message that a node is dropped that is in no tree by key, or still on a list *)

Record ctx := Ctx {
  nodes : gmap nat node;
  next : nat;                  (* nodes allocated so far *)
  backup : list nat;
  timeline : list nat;
  needed_list : list nat;
  pending_list : list nat;
  perins_list : list (list nat);
  timeline_lost_list : list lost_node;
  perins_lost_list : list (list lost_node);
  recent_time : Z;
  event_handled : Z;
  tl_stat : timeline_stat;
  bk_stat : backup_stat;
  calls : list call
}.

Definition set_nodes (c : ctx) (m : gmap nat node) : ctx :=
  Ctx m (next c) (backup c) (timeline c) (needed_list c) (pending_list c) (perins_list c)
    (timeline_lost_list c) (perins_lost_list c) (recent_time c) (event_handled c) (tl_stat c) (bk_stat c) (calls c).
Definition set_next (c : ctx) (n : nat) : ctx :=
  Ctx (nodes c) n (backup c) (timeline c) (needed_list c) (pending_list c) (perins_list c)
    (timeline_lost_list c) (perins_lost_list c) (recent_time c) (event_handled c) (tl_stat c) (bk_stat c) (calls c).
Definition set_backup (c : ctx) (l : list nat) : ctx :=
  Ctx (nodes c) (next c) l (timeline c) (needed_list c) (pending_list c) (perins_list c)
    (timeline_lost_list c) (perins_lost_list c) (recent_time c) (event_handled c) (tl_stat c) (bk_stat c) (calls c).
Definition set_timeline (c : ctx) (l : list nat) : ctx :=
  Ctx (nodes c) (next c) (backup c) l (needed_list c) (pending_list c) (perins_list c)
    (timeline_lost_list c) (perins_lost_list c) (recent_time c) (event_handled c) (tl_stat c) (bk_stat c) (calls c).
Definition set_needed (c : ctx) (l : list nat) : ctx :=
  Ctx (nodes c) (next c) (backup c) (timeline c) l (pending_list c) (perins_list c)
    (timeline_lost_list c) (perins_lost_list c) (recent_time c) (event_handled c) (tl_stat c) (bk_stat c) (calls c).
Definition set_pending (c : ctx) (l : list nat) : ctx :=
  Ctx (nodes c) (next c) (backup c) (timeline c) (needed_list c) l (perins_list c)
    (timeline_lost_list c) (perins_lost_list c) (recent_time c) (event_handled c) (tl_stat c) (bk_stat c) (calls c).
Definition set_perins (c : ctx) (l : list (list nat)) : ctx :=
  Ctx (nodes c) (next c) (backup c) (timeline c) (needed_list c) (pending_list c) l
    (timeline_lost_list c) (perins_lost_list c) (recent_time c) (event_handled c) (tl_stat c) (bk_stat c) (calls c).
Definition set_lost (c : ctx) (l : list lost_node) (p : list (list lost_node)) : ctx :=
  Ctx (nodes c) (next c) (backup c) (timeline c) (needed_list c) (pending_list c) (perins_list c)
    l p (recent_time c) (event_handled c) (tl_stat c) (bk_stat c) (calls c).
Definition set_recent (c : ctx) (t : Z) : ctx :=
  Ctx (nodes c) (next c) (backup c) (timeline c) (needed_list c) (pending_list c) (perins_list c)
    (timeline_lost_list c) (perins_lost_list c) t (event_handled c) (tl_stat c) (bk_stat c) (calls c).
Definition set_handled (c : ctx) (n : Z) : ctx :=
  Ctx (nodes c) (next c) (backup c) (timeline c) (needed_list c) (pending_list c) (perins_list c)
    (timeline_lost_list c) (perins_lost_list c) (recent_time c) n (tl_stat c) (bk_stat c) (calls c).
Definition set_tl_stat (c : ctx) (s : timeline_stat) : ctx :=
  Ctx (nodes c) (next c) (backup c) (timeline c) (needed_list c) (pending_list c) (perins_list c)
    (timeline_lost_list c) (perins_lost_list c) (recent_time c) (event_handled c) s (bk_stat c) (calls c).
Definition set_bk_stat (c : ctx) (s : backup_stat) : ctx :=
  Ctx (nodes c) (next c) (backup c) (timeline c) (needed_list c) (pending_list c) (perins_list c)
    (timeline_lost_list c) (perins_lost_list c) (recent_time c) (event_handled c) (tl_stat c) s (calls c).
Definition add_call (c : ctx) (x : call) : ctx :=
  Ctx (nodes c) (next c) (backup c) (timeline c) (needed_list c) (pending_list c) (perins_list c)
    (timeline_lost_list c) (perins_lost_list c) (recent_time c) (event_handled c) (tl_stat c) (bk_stat c)
    (calls c ++ [x]).

(** One more, or one less, unneeded event. *)
Definition count_unneeded (c : ctx) (sign size : Z) : ctx :=
  let s := tl_stat c in
  set_tl_stat c (TlStat (tl_new s) (tl_delete s) (tl_unneeded s + sign) (tl_pending s) (tl_mem_bytes s)
    (tl_unneeded_bytes s + sign * size) (tl_pending_bytes s)).
Definition count_pending (c : ctx) (sign size : Z) : ctx :=
  let s := tl_stat c in
  set_tl_stat c (TlStat (tl_new s) (tl_delete s) (tl_unneeded s) (tl_pending s + sign) (tl_mem_bytes s)
    (tl_unneeded_bytes s) (tl_pending_bytes s + sign * size)).
Definition count_node (c : ctx) (new : bool) (size : Z) : ctx :=
  let s := tl_stat c in
  set_tl_stat c
    (if new then TlStat (tl_new s + 1) (tl_delete s) (tl_unneeded s) (tl_pending s) (tl_mem_bytes s + size)
                   (tl_unneeded_bytes s) (tl_pending_bytes s)
     else TlStat (tl_new s) (tl_delete s + 1) (tl_unneeded s) (tl_pending s) (tl_mem_bytes s - size)
            (tl_unneeded_bytes s) (tl_pending_bytes s)).
Definition count_backup (c : ctx) (new : bool) (size : Z) : ctx :=
  let s := bk_stat c in
  set_bk_stat c (if new then BkStat (b_new s + 1) (b_delete s) (b_mem_bytes s + size)
                 else BkStat (b_new s) (b_delete s + 1) (b_mem_bytes s - size)).

(** [list_del] of a node from whatever list it is on. *)
Definition list_del (i : nat) (l : list nat) : list nat := filter (fun j => j <> i) l.

(** ** The monad *)

Definition MT (A : Type) : Type := ctx -> option (A * ctx).
Definition ret {A} (x : A) : MT A := fun c => Some (x, c).
Definition bind {A B} (m : MT A) (k : A -> MT B) : MT B :=
  fun c => match m c with Some (x, c) => k x c | None => None end.
#[global] Instance mt_mbind : MBind MT := fun A B k m => bind m k.
Definition modify (f : ctx -> ctx) : MT unit := fun c => Some (tt, f c).
Definition get : MT ctx := fun c => Some (c, c).
Definition fail {A} : MT A := fun c => None.
Definition lift {A} (o : option A) : MT A := fun c => match o with Some x => Some (x, c) | None => None end.

Definition load (i : nat) : MT node := fun c => match nodes c !! i with Some n => Some (n, c) | None => None end.
Definition store (i : nat) (n : node) : MT unit := modify (fun c => set_nodes c (<[i := n]> (nodes c))).
(** [free]: of a node that is allocated. *)
Definition free (i : nat) : MT unit :=
  n ← load i; modify (fun c => set_nodes c (delete i (nodes c))).

(** The local variable [current] of [multi_trace_sample]; the nodes of the heap
    are from 1 on. *)
Definition current : nat := 0.

(** What the options and the environment say. *)
Class Opts := {
  tp_list : list (list tp);       (* the tracepoints of each -e option *)
  need_timeline : bool;           (* --detail *)
  nested : bool;
  impl_based_on_call : bool;
  cycle : bool;
  order : bool;
  before_event1 : Z;
  after_event2 : Z;
  greater_than : Z;
  lost_ins : bool;                (* LOST_AFFECT_INS_EVENT *)
  object_find : Z -> option Z -> bool;   (* [impl->object_find] finds an object *)
  remaining_break : list call -> bool;   (* [class->remaining] breaks, given the calls so far *)
  alloc_ok : Z -> bool;           (* [malloc] succeeds for the event with this number *)
  ins_key : nat -> Z;             (* the cpu or thread of an instance *)
  get_key : tp -> ev -> option Z; (* the program of key=, [None] without one *)
  get_role : tp -> ev -> option Z;       (* the program of role= *)
  sched_wakeup_unnecessary : tp -> ev -> bool;
  extra_evsel : option Z;         (* the extra event of syscalls *)
  extra_pid : ev -> Z
}.

Section Engine.
Context `{opts : Opts}.

(** ** The trees *)

(** [node_cmp]: of a node of the tree with the entry. *)
Definition cmp_of (d : Z) (k : Z) : Z := if d <? 0 then -1 else if 0 <? d then 1 else k.

Definition perf_event_backup_node_cmp (b e : node) : Z := cmp_of (key b - key e) 0.
Definition nested_perf_event_backup_node_cmp (b e : node) : Z :=
  cmp_of (key b - key e) (cmp_of (time e - time b) 0).
Definition timeline_node_cmp (b e : node) : Z :=
  cmp_of (time b - time e) (cmp_of (key b - key e) (cmp_of (seq b - seq e) 0)).

Definition backup_cmp (b e : node) : Z :=
  if nested then nested_perf_event_backup_node_cmp b e else perf_event_backup_node_cmp b e.

(** The nodes before the entry, the node that equals it, the nodes after. *)
Fixpoint locate (cmp : node -> node -> Z) (e : node) (l : list nat)
    : MT (list nat * option nat * list nat) :=
  match l with
  | [] => ret ([], None, [])
  | i :: l =>
      b ← load i;
      let rc := cmp b e in
      if 0 <? rc then ret ([], None, i :: l)
      else if rc <? 0 then '(a, x, r) ← locate cmp e l; ret (i :: a, x, r)
      else ret ([], Some i, l)
  end.

(** The first node that is not before the entry; [first] is dereferenced
    without a test. *)
Definition rblist__find_first (cmp : node -> node -> Z) (e : node) (l : list nat) : MT (option nat) :=
  match l with
  | [] => fail
  | _ => '(_, x, r) ← locate cmp e l; ret (match x with Some i => Some i | None => head r end)
  end.

(** ** Nodes of [backup] *)

(** With a timeline the node is the one on it; otherwise it is a copy. *)
Definition perf_event_backup_node_new (e : nat) : MT (option nat) :=
  if need_timeline then
    modify (fun c => set_needed c (needed_list c ++ [e]));; ret (Some e)
  else
    n ← load e;
    if alloc_ok (seq n) then
      c ← get;
      let i := next c in
      store i (set_unneeded (set_unpaired n false) false);;
      l ← lift (perins_list c !! ins n);
      modify (fun c => set_next (set_perins c (<[ins n := l ++ [i]]> (perins_list c))) (S i));;
      modify (fun c => count_backup c true (e_size (event n)));;
      ret (Some i)
    else ret None.

Definition perf_event_backup_node_delete (i : nat) : MT unit :=
  b ← load i;
  if need_timeline then
    store i (set_unneeded b true);;
    modify (fun c => set_needed c (list_del i (needed_list c)));;
    modify (fun c => count_unneeded c 1 (e_size (event b)))
  else
    modify (fun c => set_perins c (list_del i <$> perins_list c));;
    modify (fun c => count_backup c false (e_size (event b)));;
    free i.

Definition backup_remove (i : nat) : MT unit :=
  modify (fun c => set_backup c (list_del i (backup c)));; perf_event_backup_node_delete i.

(** [rblist__findnew]: the node, and whether it is new. *)
Definition backup_findnew (e : nat) : MT (option nat * bool) :=
  c ← get;
  n ← load e;
  '(a, x, r) ← locate backup_cmp n (backup c);
  match x with
  | Some i => ret (Some i, false)
  | None =>
      i ← perf_event_backup_node_new e;
      match i with
      | Some i => modify (fun c => set_backup c (a ++ i :: r));; ret (Some i, true)
      | None => ret (None, false)
      end
  end.

Fixpoint remove_all (l : list nat) : MT unit :=
  match l with [] => ret tt | i :: l => backup_remove i;; remove_all l end.
(** [rblist__exit (&ctx->backup)] *)
Definition backup_exit : MT unit := c ← get; remove_all (backup c).

(** ** Nodes of [timeline] *)

Definition timeline_node_new (e : nat) : MT (option nat) :=
  n ← load e;
  if alloc_ok (seq n) then
    c ← get;
    let i := next c in
    let traced := negb (untraced (n_tp n)) in
    let b := set_unpaired n false in
    let b := if traced then set_unneeded b false else b in
    store i b;;
    modify (fun c => set_next c (S i));;
    (if traced then
       modify (fun c => set_pending c (pending_list c ++ [i]));;
       modify (fun c => count_pending c 1 (e_size (event n)))
     else ret tt);;
    (if unneeded b then modify (fun c => count_unneeded c 1 (e_size (event n))) else ret tt);;
    modify (fun c => count_node c true (e_size (event n)));;
    ret (Some i)
  else ret None.

Definition timeline_node_delete (i : nat) : MT unit :=
  b ← load i;
  c ← get;
  (if decide (i ∈ needed_list c ++ pending_list c) then
     modify (fun c => set_needed c (list_del i (needed_list c)));;
     modify (fun c => set_pending c (list_del i (pending_list c)));;
     modify (fun c => add_call c Bug)
   else ret tt);;
  modify (fun c => count_node c false (e_size (event b)));;
  (if unneeded b then modify (fun c => count_unneeded c (-1) (e_size (event b))) else ret tt);;
  free i.

Definition timeline_remove (i : nat) : MT unit :=
  modify (fun c => set_timeline c (list_del i (timeline c)));; timeline_node_delete i.

Inductive add_result := ADDED | EEXIST | ENOMEM.

(** [rblist__add_node (&ctx->timeline, &current)] *)
Definition timeline_add (e : nat) : MT add_result :=
  c ← get;
  n ← load e;
  '(a, x, r) ← locate timeline_node_cmp n (timeline c);
  match x with
  | Some _ => ret EEXIST
  | None =>
      i ← timeline_node_new e;
      match i with
      | Some i => modify (fun c => set_timeline c (a ++ i :: r));; ret ADDED
      | None => ret ENOMEM
      end
  end.

(** The time before which nothing is needed, 0 if that is not by time. *)
Definition needed_from (c : ctx) : MT Z :=
  if before_event1 =? 0 then ret 0
  else
    match head (needed_list c), head (pending_list c), head (rev (timeline c)) with
    | Some i, _, _ | None, Some i, _ | None, None, Some i =>
        n ← load i;
        ret (if before_event1 <? time n then u64 (time n - before_event1) else 0)
    | None, None, None => ret 0
    end.

(** The loop over the leftmost nodes. *)
Fixpoint free_loop (l : list nat) (unneeded_before : Z) : MT unit :=
  match l with
  | [] => ret tt
  | i :: l =>
      tl ← load i;
      if ((unneeded_before =? 0) && unneeded tl) || (time tl <? unneeded_before) then
        (if unneeded tl then ret tt
         else c ← get; if decide (i ∈ backup c) then backup_remove i else modify (fun c => add_call c Bug));;
        timeline_remove i;;
        free_loop l unneeded_before
      else ret tt
  end.

Definition timeline_free_unneeded : MT unit :=
  c ← get; b ← needed_from c; free_loop (timeline c) b.

(** ** Events that are left *)

(** The first node of the detail around an event at [t] with the key [k];
    [None]: no detail is wanted. *)
Definition iter_start (t k : Z) (i : nat) : MT (option (option nat)) :=
  if negb need_timeline then ret None
  else if before_event1 =? 0 then ret (Some (Some i))
  else
    c ← get;
    n ← load i;
    let e := Node (u64 (t - before_event1)) k (n_tp n) None false false false false false 0 0 (event n) in
    s ← rblist__find_first timeline_node_cmp e (timeline c);
    ret (Some s).

(** [true]: [REMAINING_BREAK] *)
Definition multi_trace_call_remaining (i : nat) (rr : remaining_reason) : MT bool :=
  left ← load i;
  if object_find (tp_id (n_tp left)) None then
    s ← iter_start (time left) (key left) i;
    c ← get;
    (if greater_than <? u64 (recent_time c - time left) then store i (set_unpaired left true) else ret tt);;
    modify (fun c => add_call c
      (Remaining (tp_id (n_tp left)) (key left) (e_tag (event left)) (recent_time c) rr s));;
    c ← get;
    ret (remaining_break (calls c))
  else ret false.

Fixpoint remaining_loop (l : list nat) (rr : remaining_reason) : MT unit :=
  match l with
  | [] => ret tt
  | i :: l =>
      stop ← multi_trace_call_remaining i rr;
      if (stop : bool) then ret tt else remaining_loop l rr
  end.
Definition multi_trace_handle_remaining (rr : remaining_reason) : MT unit :=
  c ← get; remaining_loop (backup c) rr.

(** The nodes of [backup] with the key. *)
Fixpoint with_key (k : Z) (l : list nat) : MT (list nat) :=
  match l with
  | [] => ret []
  | i :: l => n ← load i; r ← with_key k l; ret (if key n =? k then i :: r else r)
  end.

Fixpoint reclaim_loop (l : list nat) (stopped : bool) (rr : remaining_reason) : MT unit :=
  match l with
  | [] => ret tt
  | i :: l =>
      stopped ← (if stopped then ret true else multi_trace_call_remaining i rr);
      backup_remove i;;
      reclaim_loop l stopped rr
  end.
Definition reclaim (k : Z) (rr : remaining_reason) : MT unit :=
  c ← get; l ← with_key k (backup c); reclaim_loop l false rr.

Definition lost_reclaim (i : nat) : MT unit :=
  if lost_ins then reclaim (ins_key i) REMAINING_LOST
  else multi_trace_handle_remaining REMAINING_LOST;; backup_exit.

(** A lost event; [alloc]: [malloc] succeeds. *)
Fixpoint insert_lost (x : lost_node) (l : list lost_node) : list lost_node :=
  match l with
  | [] => [x]
  | y :: l => if start_time x <? start_time y then x :: y :: l else y :: insert_lost x l
  end.

Definition multi_trace_lost (alloc : bool) (i : nat) (id n lost_start lost_end : Z) : MT unit :=
  if negb order && (after_event2 =? 0) then
    modify (fun c => add_call c (Lost i None));;
    lost_reclaim i;;
    (if need_timeline then timeline_free_unneeded else ret tt)
  else if alloc then
    let x := LostNode i false lost_start lost_end id n in
    if lost_ins then
      c ← get;
      l ← lift (perins_lost_list c !! i);
      modify (fun c => set_lost c (timeline_lost_list c) (<[i := l ++ [x]]> (perins_lost_list c)))
    else modify (fun c => set_lost c (insert_lost x (timeline_lost_list c)) (perins_lost_list c))
  else ret tt.

(** ** An event *)

(** The node [i] is not backed up after all. *)
Definition drop_backup (i : nat) : MT unit :=
  n ← load i;
  if need_backup n then
    store i (set_unneeded (set_need n (need_find_prev n) false) true);;
    modify (fun c => count_unneeded c 1 (e_size (event n)))
  else ret tt.

Definition put_lost_list (p : nat) (l : list lost_node) : MT unit :=
  modify (fun c => if lost_ins then set_lost c (timeline_lost_list c) (<[p := l]> (perins_lost_list c))
                   else set_lost c l (perins_lost_list c)).

(** The lost events before the node, from the first. *)
Fixpoint event_lost_loop (l : list lost_node) (i : nat) : MT unit :=
  match l with
  | [] => ret tt
  | x :: l =>
      n ← load i;
      if time n <? start_time x then ret tt
      else if time n =? start_time x then drop_backup i
      else
        (if negb (l_reclaim x) then
           c ← get;
           let recent := recent_time c in
           modify (fun c => set_recent c (start_time x));;
           modify (fun c => add_call c (Lost (ins n) (Some x)));;
           lost_reclaim (ins n);;
           modify (fun c => set_recent c recent);;
           put_lost_list (ins n) (LostNode (l_ins x) true (start_time x) (end_time x) (lost_id x) (lost x) :: l)
         else ret tt);;
        n ← load i;
        if time n <? end_time x then
          store i (set_need n false (need_backup n));; drop_backup i
        else put_lost_list (ins n) l;; event_lost_loop l i
  end.

Definition multi_trace_event_lost (i : nat) : MT unit :=
  n ← load i;
  c ← get;
  l ← lift (if lost_ins then perins_lost_list c !! ins n else Some (timeline_lost_list c));
  event_lost_loop l i.

(** The first node of [backup] with the key, and the tracepoint if there is
    one. *)
Fixpoint find_prev (k : Z) (t : option tp) (l : list nat) : MT (option nat) :=
  match l with
  | [] => ret None
  | i :: l =>
      n ← load i;
      if (key n =? k) && match t with Some t => tp_id (n_tp n) =? tp_id t | None => true end
      then ret (Some i) else find_prev k t l
  end.
Definition multi_trace_find_prev (k : Z) (t : option tp) : MT (option nat) :=
  c ← get; find_prev k t (backup c).

(** [true]: [need_free] is set. *)
Definition multi_trace_tryto_call_two (i : nat) : MT bool :=
  n ← load i;
  if negb (need_find_prev n) then ret false
  else
    p ← multi_trace_find_prev (key n) (tp1 n);
    match p with
    | Some p =>
        prev ← load p;
        store p (set_unpaired prev false);;
        (if object_find (tp_id (n_tp prev)) (Some (tp_id (n_tp n))) && (time prev <? time n) then
           s ← iter_start (time prev) (key n) p;
           modify (fun c => add_call c
             (Two (tp_id (n_tp prev)) (Some (tp_id (n_tp n))) (key n) (e_tag (event prev))
                (Some (e_tag (event n))) s))
         else ret tt);;
        if need_remove_from_backup n then backup_remove p;; ret true else ret false
    | None =>
        (if impl_based_on_call && object_find (tp_id (n_tp n)) None then
           modify (fun c => add_call c
             (Two (tp_id (n_tp n)) None (key n) (e_tag (event n)) None None))
         else ret tt);;
        ret false
    end.

(** The result says whether the event was backed up, and [need_free]. *)
Fixpoint backup_retry (fuel : nat) (i : nat) (need_free : bool) : MT (bool * bool) :=
  match fuel with
  | O => fail
  | S fuel =>
      let not_needed :=
        n ← load i;
        store i (set_unneeded n true);;
        modify (fun c => count_unneeded c 1 (e_size (event n)));;
        ret (false, true) in
      '(x, new) ← backup_findnew i;
      match x with
      | Some j =>
          if (new : bool) then ret (true, need_free)
          else
            n ← load i;
            exist ← load j;
            if time n <? time exist then not_needed
            else backup_remove j;; backup_retry fuel i true
      | None => not_needed
      end
  end.

Definition multi_trace_tryto_backup (i : nat) : MT (bool * bool) :=
  n ← load i;
  if need_backup n then backup_retry 2 i false else ret (false, true).

(** [tail] is the newest event, if there is a deadline for the pending ones. *)
Definition deadline (tail : option Z) : Z :=
  match tail with
  | Some t => if after_event2 =? 0 then 2 ^ 64 - 1 else u64 (t - after_event2)
  | None => 2 ^ 64 - 1
  end.

Definition multi_trace_first_pending (tail : option Z) : MT (option nat) :=
  c ← get;
  match pending_list c with
  | [] => ret None
  | i :: l =>
      first ← load i;
      if time first <=? deadline tail then
        modify (fun c => set_pending c l);;
        store i (set_unneeded first (negb (need_backup first)));;
        modify (fun c => count_pending c (-1) (e_size (event first)));;
        (if negb (need_backup first) then modify (fun c => count_unneeded c 1 (e_size (event first)))
         else ret tt);;
        ret (Some i)
      else ret None
  end.

Fixpoint pending_loop (fuel : nat) (tail : Z) (need_free : bool) : MT bool :=
  match fuel with
  | O => fail
  | S fuel =>
      first ← multi_trace_first_pending (Some tail);
      match first with
      | None => ret need_free
      | Some i =>
          multi_trace_event_lost i;;
          f1 ← multi_trace_tryto_call_two i;
          '(_, f2) ← multi_trace_tryto_backup i;
          pending_loop fuel tail (need_free || f1 || f2)
      end
  end.

(** The tracepoint of an event: the -e option, and the traced one before it. *)
Fixpoint find_in (evsel : Z) (l : list tp) (before : option tp) : option (tp * option tp) :=
  match l with
  | [] => None
  | t :: l =>
      if tp_evsel t =? evsel then Some (t, before)
      else find_in evsel l (if negb (untraced t) then Some t else before)
  end.

Fixpoint find_tp (evsel : Z) (ll : list (list tp)) (i : nat) : option (nat * tp * option tp) :=
  match ll with
  | [] => None
  | l :: ll =>
      match find_in evsel l None with
      | Some (t, before) => Some (i, t, before)
      | None => find_tp evsel ll (S i)
      end
  end.

(** [need_find_prev], [need_backup], [need_remove_from_backup] and [tp1]. *)
Definition needs (i : nat) (t : tp) (before : option tp) (e : ev) : bool * bool * bool * option tp :=
  if negb nested then
    let role := default 3 (get_role t e) in
    ((negb (i =? 0)%nat || cycle) && Z.testbit role 1,
     (if negb (S i =? length tp_list)%nat then negb (sched_wakeup_unnecessary t e) else cycle)
       && Z.testbit role 0,
     true, None)
  else
    (impl_based_on_call || bool_decide (is_Some before), bool_decide (before = None),
     bool_decide (is_Some before), before).

Definition multi_trace_sample (e : ev) : MT unit :=
  modify (fun c => if recent_time c <? e_time e then set_recent c (e_time e) else c);;
  match e_evsel e with
  | None => ret tt
  | Some evsel =>
      match find_tp evsel tp_list 0 with
      | None =>
          if decide (extra_evsel = Some evsel) then reclaim (extra_pid e) REMAINING_SYSCALLS else ret tt
      | Some (i, t, before) =>
          let '(fp, bk, rm, t1) := needs i t before e in
          let k := default (ins_key (e_ins e)) (get_key t e) in
          c ← get;
          store current (Node (e_time e) k t t1 (negb bk || untraced t) fp bk rm false (e_ins e)
                          (event_handled c) e);;
          modify (fun c => set_handled c (event_handled c + 1));;
          (if need_timeline then
             c ← get;
             cur ← load current;
             if bool_decide (timeline c = []) && unneeded cur && (before_event1 =? 0) && (after_event2 =? 0)
             then ret tt
             else
               r ← timeline_add current;
               match r with
               | ADDED =>
                   c ← get;
                   need_free ← pending_loop (S (length (pending_list c))) (time cur) (unneeded cur);
                   if (need_free : bool) then timeline_free_unneeded else ret tt
               | _ => ret tt
               end
           else if untraced t then ret tt
           else
             multi_trace_event_lost current;;
             multi_trace_tryto_call_two current;;
             multi_trace_tryto_backup current;;
             ret tt);;
          free current
      end
  end.

(** The end of a run. *)
Fixpoint drain_pending (fuel : nat) : MT unit :=
  match fuel with
  | O => fail
  | S fuel =>
      first ← multi_trace_first_pending None;
      match first with Some _ => drain_pending fuel | None => ret tt end
  end.
Fixpoint timeline_remove_all (l : list nat) : MT unit :=
  match l with [] => ret tt | i :: l => timeline_remove i;; timeline_remove_all l end.

Definition multi_trace_flush : MT unit :=
  multi_trace_handle_remaining REMAINING_EXIT;;
  c ← get;
  drain_pending (S (length (pending_list c)));;
  backup_exit;;
  c ← get;
  timeline_remove_all (timeline c).

(** ** A run *)

Inductive input :=
  | Sample (e : ev)
  | LostEvent (alloc : bool) (i : nat) (id n lost_start lost_end : Z).

Definition handle (x : input) : MT unit :=
  match x with
  | Sample e => multi_trace_sample e
  | LostEvent alloc i id n s e => multi_trace_lost alloc i id n s e
  end.

Fixpoint run (l : list input) : MT unit :=
  match l with [] => ret tt | x :: l => handle x;; run l end.

(** The state that [monitor_ctx_init] leaves for [nr_ins] instances. *)
Definition init_ctx (nr_ins : nat) : ctx :=
  Ctx ∅ 1 [] [] [] [] (replicate nr_ins []) [] (if lost_ins then replicate nr_ins [] else []) 0 0
    (TlStat 0 0 0 0 0 0 0) (BkStat 0 0 0) [].

(** The earliest time that is still needed, [ULLONG_MAX] if there is none;
    [than]: --than is given; [comm_interval]: the interval with --perins. *)
Fixpoint first_times (l : list (list nat)) (t : option Z) : MT (option Z) :=
  match l with
  | [] => ret t
  | [] :: l => first_times l t
  | (i :: _) :: l =>
      n ← load i;
      first_times l (match t with Some t => if time n <? t then Some (time n) else Some t | None => Some (time n) end)
  end.

Definition multi_trace_minevtime (than : bool) (comm_interval : option Z) : MT Z :=
  c ← get;
  m ← (if than then
         t ← (if need_timeline
              then match timeline c with [] => ret None | i :: _ => n ← load i; ret (Some (time n)) end
              else first_times (perins_list c) None);
         ret (match t with Some t => if t <? 2 ^ 64 - 1 then t else 2 ^ 64 - 1 | None => 2 ^ 64 - 1 end)
       else ret (2 ^ 64 - 1));
  ret (match comm_interval with
       | Some d => let mintime := if negb (d =? 0) && (u64 (d * 1000000) <? recent_time c)
                                  then u64 (recent_time c - u64 (d * 1000000)) else 0 in
                   if mintime <? m then mintime else m
       | None => m
       end).

(** ** Walking over the detail *)

Inductive event_iter_cmd_t := CMD_RESET | CMD_EVENT1 | CMD_EVENT2 | CMD_PREV | CMD_NEXT.

Record event_iter := Iter { it_start : option nat; it_event1 : nat; it_event2 : option nat; it_curr : option nat }.

Fixpoint rb_next (i : nat) (l : list nat) : option nat :=
  match l with
  | [] => None
  | j :: l => if (j =? i)%nat then head l else rb_next i l
  end.
Definition rb_prev (i : nat) (l : list nat) : option nat := rb_next i (rev l).

(** The node the iterator is at; [None] of the result: the end.  A move to a
    node that is not there dereferences NULL. *)
Definition event_iter_cmd (it : event_iter) (cmd : event_iter_cmd_t) : MT (event_iter * option node) :=
  let move (x : option nat) :=
    i ← lift x;
    n ← load i;
    ret (Iter (it_start it) (it_event1 it) (it_event2 it) (Some i), Some n) in
  match cmd with
  | CMD_RESET => move (it_start it)
  | CMD_EVENT1 => move (Some (it_event1 it))
  | CMD_EVENT2 => move (it_event2 it)
  | CMD_PREV | CMD_NEXT =>
      match it_curr it with
      | None => ret (it, None)
      | Some i =>
          c ← get;
          match (if match cmd with CMD_PREV => true | _ => false end
                 then rb_prev i (timeline c) else rb_next i (timeline c)) with
          | None => ret (Iter (it_start it) (it_event1 it) (it_event2 it) None, None)
          | Some j => move (Some j)
          end
      end
  end.

End Engine.
End MultiTrace.
