(* ===== verification/MultiProof.v ===== *)
(** * Lemmas on pairs of events

    Weakest preconditions, the order of the trees and sums over nodes. *)

From stdpp Require Import sorting.
From S2P Require Import Prelude Rblist MultiTrace.
Import MultiTrace.

(** ** Weakest preconditions *)

Definition wpm {A} (m : MT A) (c : ctx) (Q : A -> ctx -> Prop) : Prop :=
  match m c with Some (x, c') => Q x c' | None => False end.

Lemma wpm_bind {A B} (m : MT A) (k : A -> MT B) c Q :
  wpm m c (fun x c' => wpm (k x) c' Q) -> wpm (m ≫= k) c Q.
Proof. unfold wpm, mbind, mt_mbind, bind. destruct (m c) as [[x c']|]; done. Qed.

Lemma wpm_mono {A} (m : MT A) c (Q Q' : A -> ctx -> Prop) :
  wpm m c Q -> (forall x c', Q x c' -> Q' x c') -> wpm m c Q'.
Proof. unfold wpm. destruct (m c) as [[x c']|]; auto. Qed.

Lemma wpm_ret {A} (x : A) c Q : Q x c -> wpm (ret x) c Q.
Proof. done. Qed.

Lemma wpm_modify f c Q : Q tt (f c) -> wpm (modify f) c Q.
Proof. done. Qed.

Lemma wpm_get c Q : Q c c -> wpm get c Q.
Proof. done. Qed.

Lemma wpm_lift {A} (x : A) o c Q : o = Some x -> Q x c -> wpm (lift o) c Q.
Proof. intros ->. done. Qed.

Lemma wpm_load i n c Q : nodes c !! i = Some n -> Q n c -> wpm (load i) c Q.
Proof. unfold wpm, load. intros ->. done. Qed.

Lemma wpm_store i n c Q : Q tt (set_nodes c (<[i := n]> (nodes c))) -> wpm (store i n) c Q.
Proof. done. Qed.

Lemma wpm_free i n c Q : nodes c !! i = Some n ->
  Q tt (set_nodes c (delete i (nodes c))) -> wpm (free i) c Q.
Proof. intros Hi HQ. unfold free. apply wpm_bind, (wpm_load i n); done. Qed.

(** The result of a run that meets its postcondition. *)
Lemma wpm_run (m : MT unit) c (Q : ctx -> Prop) : wpm m c (fun _ => Q) -> exists c', m c = Some (tt, c') /\ Q c'.
Proof. unfold wpm. destruct (m c) as [[[] c']|]; [eauto|done]. Qed.

Ltac wstep :=
  lazymatch goal with
  | |- wpm (mbind _ _) _ _ => apply wpm_bind
  | |- wpm (ret _) _ _ => apply wpm_ret
  | |- wpm (modify _) _ _ => apply wpm_modify
  | |- wpm get _ _ => apply wpm_get
  | |- wpm (store _ _) _ _ => apply wpm_store
  | |- wpm (match ?x with pair _ _ => _ end) _ _ => destruct x
  end.

(** ** [list_del] *)

Lemma elem_of_list_del i j l : j ∈ list_del i l <-> j ∈ l /\ j <> i.
Proof. unfold list_del. rewrite list_elem_of_filter. tauto. Qed.

Lemma nodup_list_del i l : NoDup l -> NoDup (list_del i l).
Proof. apply list.NoDup_filter. Qed.

Lemma list_del_notin i l : i ∉ l -> list_del i l = l.
Proof.
  intros Hi. unfold list_del. induction l as [|j l IH]; [done|]. apply not_elem_of_cons in Hi as [Hne Hi].
  rewrite list.filter_cons_True by done. rewrite IH; done.
Qed.

Lemma list_del_head i l : i ∉ l -> list_del i (i :: l) = l.
Proof. intros Hi. unfold list_del. rewrite list.filter_cons_False by auto. apply list_del_notin. done. Qed.

Lemma list_del_cons_ne i j l : j <> i -> list_del i (j :: l) = j :: list_del i l.
Proof. intros Hne. unfold list_del. rewrite list.filter_cons_True; done. Qed.

Lemma list_del_app i a b : list_del i (a ++ b) = list_del i a ++ list_del i b.
Proof. apply list.filter_app. Qed.

Lemma list_del_perm i l : NoDup l -> i ∈ l -> l ≡ₚ i :: list_del i l.
Proof.
  induction l as [|j l IH]; intros HN Hi; [inversion Hi|]. apply list.NoDup_cons in HN as [Hj HN].
  destruct (decide (j = i)) as [->|Hne].
  - rewrite list_del_head by done. done.
  - rewrite list_del_cons_ne by done. apply elem_of_cons in Hi as [->|Hi]; [done|].
    rewrite (IH HN Hi) at 1. apply perm_swap.
Qed.

#[global] Instance list_del_proper i : Proper ((≡ₚ) ==> (≡ₚ)) (list_del i).
Proof. intros l l' Hl. unfold list_del. rewrite Hl. done. Qed.

Lemma list_del_length i l : NoDup l -> i ∈ l -> Z.of_nat (length (list_del i l)) = Z.of_nat (length l) - 1.
Proof. intros HN Hi. rewrite (list_del_perm i l HN Hi) at 2. simpl. lia. Qed.

(** ** Sums over pointers *)

Definition sumz (f : nat -> Z) (l : list nat) : Z := foldr (fun i s => f i + s) 0 l.

Lemma sumz_app f a b : sumz f (a ++ b) = sumz f a + sumz f b.
Proof. induction a as [|i a IH]; simpl; [done|]. rewrite IH. lia. Qed.

#[global] Instance sumz_proper f : Proper ((≡ₚ) ==> eq) (sumz f).
Proof. induction 1; simpl; lia. Qed.

Lemma sumz_ext f g l : (forall i, i ∈ l -> f i = g i) -> sumz f l = sumz g l.
Proof.
  induction l as [|i l IH]; intros H; simpl; [done|].
  rewrite (H i) by apply list_elem_of_here. rewrite IH; [done|]. intros j Hj. apply H, list_elem_of_further, Hj.
Qed.

Lemma sumz_del f i l : NoDup l -> i ∈ l -> sumz f (list_del i l) = sumz f l - f i.
Proof. intros HN Hi. rewrite (list_del_perm i l HN Hi) at 2. simpl. lia. Qed.

(** One of the terms changes. *)
Lemma sumz_upd f g i l : NoDup l -> i ∈ l -> (forall j, j ∈ l -> j <> i -> g j = f j) ->
  sumz g l = sumz f l + (g i - f i).
Proof.
  intros HN Hi H. rewrite (list_del_perm i l HN Hi). simpl. rewrite (sumz_ext g f); [lia|].
  intros j [Hj Hne]%elem_of_list_del. auto.
Qed.

(** ** Sorted lists of pointers *)

Lemma sorted_del (R : nat -> nat -> Prop) i l : StronglySorted R l -> StronglySorted R (list_del i l).
Proof.
  induction 1 as [|j l Hl IH Hj]; [constructor|].
  unfold list_del. rewrite filter_cons. destruct (decide (j <> i)) as [Hne|Hne]; [|done].
  constructor; [done|]. rewrite list.Forall_forall in *. intros k [Hk _]%elem_of_list_del. auto.
Qed.

(** ** The order of the trees *)

#[global] Instance node_inhabited : Inhabited node :=
  populate (Node 0 0 (Tp 0 0 false) None false false false false false 0 0 (Ev 0 None 0 0 0)).

(** The comparisons are lexicographic. *)
Definition lexc (a b : Z * Z * Z) : Z :=
  let '(a1, a2, a3) := a in
  let '(b1, b2, b3) := b in
  cmp_of (a1 - b1) (cmp_of (a2 - b2) (cmp_of (a3 - b3) 0)).

Definition tkey (n : node) : Z * Z * Z := (time n, key n, seq n).
Definition bkey `{Opts} (n : node) : Z * Z * Z := (key n, if nested then - time n else 0, 0).

Lemma timeline_cmp_lex b e : timeline_node_cmp b e = lexc (tkey b) (tkey e).
Proof. done. Qed.

Lemma backup_cmp_lex `{Opts} b e : backup_cmp b e = lexc (bkey b) (bkey e).
Proof.
  unfold backup_cmp, bkey, nested_perf_event_backup_node_cmp, perf_event_backup_node_cmp.
  destruct nested; unfold lexc; [|done].
  replace (- time b - - time e) with (time e - time b) by lia. done.
Qed.

Ltac lex :=
  unfold lexc, cmp_of in *;
  repeat match goal with
  | x : (_ * _)%type |- _ => destruct x
  | |- context [Z.ltb ?a ?b] => destruct (Z.ltb_spec a b)
  | H : context [Z.ltb ?a ?b] |- _ => destruct (Z.ltb_spec a b)
  end; try lia.

Lemma lexc_flip a b : lexc a b < 0 <-> 0 < lexc b a.
Proof. lex. Qed.
Lemma lexc_eq a b : lexc a b = 0 <-> a = b.
Proof. split; [|intros ->]; lex. intros _. repeat f_equal; lia. Qed.
Lemma lexc_trans a b c : lexc a b < 0 -> lexc b c < 0 -> lexc a c < 0.
Proof. lex. Qed.

(** The pointers [i] and [j] of the heap [m] are in this order. *)
Definition before (k : node -> Z * Z * Z) (m : gmap nat node) (i j : nat) : Prop :=
  lexc (k (m !!! i)) (k (m !!! j)) < 0.

Definition alive (m : gmap nat node) (l : list nat) : Prop := forall i, i ∈ l -> is_Some (m !! i).

Lemma alive_lookup m l i : alive m l -> i ∈ l -> m !! i = Some (m !!! i).
Proof. intros H Hi. apply lookup_lookup_total. auto. Qed.

Lemma alive_cons m i l : alive m (i :: l) -> alive m l.
Proof. intros H j Hj. apply H, list_elem_of_further, Hj. Qed.

(** Where an entry belongs in a tree. *)
Lemma locate_spec cmp k e l c : (forall b e, cmp b e = lexc (k b) (k e)) ->
  alive (nodes c) l -> StronglySorted (before k (nodes c)) l ->
  wpm (locate cmp e l) c (fun '(a, x, r) c' => c' = c /\ l = a ++ option_list x ++ r /\
    (forall i, i ∈ a -> lexc (k (nodes c !!! i)) (k e) < 0) /\
    (forall i, x = Some i -> k (nodes c !!! i) = k e) /\
    (forall i, i ∈ r -> lexc (k e) (k (nodes c !!! i)) < 0)).
Proof.
  intros Hcmp. induction l as [|i l IH]; intros Ha Hs; simpl.
  { apply wpm_ret. split_and!; try done; intros i Hi; inversion Hi. }
  wstep. apply (wpm_load i (nodes c !!! i)); [apply (alive_lookup _ (i :: l)); [done|apply list_elem_of_here]|].
  rewrite Hcmp. apply StronglySorted_inv in Hs as [Hs Hi]. rewrite list.Forall_forall in Hi. unfold before in Hi.
  destruct (Z.ltb_spec 0 (lexc (k (nodes c !!! i)) (k e))) as [Hgt|Hle].
  { apply wpm_ret. split_and!; try done.
    - intros j Hj. inversion Hj.
    - intros j [->|Hj]%elem_of_cons; [apply lexc_flip; done|]. apply lexc_trans with (k (nodes c !!! i)); [|auto].
      apply lexc_flip. done. }
  destruct (Z.ltb_spec (lexc (k (nodes c !!! i)) (k e)) 0) as [Hlt|Hge].
  - wstep. eapply wpm_mono; [apply IH; [eapply alive_cons; done|done]|].
    intros [[a x] r] c' (-> & -> & Ha' & Hx & Hr). apply wpm_ret. split_and!; try done.
    intros j [->|Hj]%elem_of_cons; auto.
  - assert (k (nodes c !!! i) = k e) as Heq by (apply lexc_eq; lia). apply wpm_ret. split_and!; try done.
    + intros j Hj. inversion Hj.
    + intros j [= ->]. done.
    + intros j Hj. rewrite <- Heq. auto.
Qed.

(** The entry is put there. *)
Lemma sorted_put k m a i r : StronglySorted (before k m) (a ++ r) ->
  (forall j, j ∈ a -> before k m j i) -> (forall j, j ∈ r -> before k m i j) ->
  StronglySorted (before k m) (a ++ i :: r).
Proof.
  rewrite !sorted_app. intros (Ha & Hr & Har) Hai Hir. split_and!; [done| |].
  - constructor; [done|]. apply list.Forall_forall. done.
  - intros x y Hx [->|Hy]%elem_of_cons; auto.
Qed.

Lemma wpm_find_first cmp e l c : (exists k, (forall b e, cmp b e = lexc (k b) (k e)) /\
    StronglySorted (before k (nodes c)) l) -> l <> [] -> alive (nodes c) l ->
  wpm (rblist__find_first cmp e l) c (fun _ c' => c' = c).
Proof.
  intros (k & Hcmp & Hs) Hne Ha. unfold rblist__find_first. destruct l as [|i l]; [done|]. wstep.
  eapply wpm_mono; [apply (locate_spec cmp k); done|]. intros [[a x] r] c' (-> & _). apply wpm_ret. done.
Qed.

(** ** Heaps that differ in what nobody looks at *)

(** What is fixed when a node is made, and all that the invariants look at. *)
Definition core (n : node) := (time n, key n, n_tp n, ins n, seq n, event n).
Definition view (n : node) := (core n, unneeded n, need_backup n).

(** The pointers of [l] have the same cores. *)
Definition same_core (m m' : gmap nat node) (l : list nat) : Prop :=
  forall i, i ∈ l -> core (m' !!! i) = core (m !!! i).

Lemma core_tkey n n' : core n = core n' -> tkey n = tkey n'.
Proof. unfold core, tkey. intros [=]. congruence. Qed.
Lemma core_bkey `{Opts} n n' : core n = core n' -> bkey n = bkey n'.
Proof. unfold core, bkey. intros [=]. destruct nested; congruence. Qed.
Lemma core_time n n' : core n = core n' -> time n = time n'.
Proof. unfold core. intros [=]. done. Qed.
Lemma core_seq n n' : core n = core n' -> seq n = seq n'.
Proof. unfold core. intros [=]. done. Qed.
Lemma core_ins n n' : core n = core n' -> ins n = ins n'.
Proof. unfold core. intros [=]. done. Qed.
Lemma core_size n n' : core n = core n' -> e_size (event n) = e_size (event n').
Proof. unfold core. intros [=]. congruence. Qed.

Lemma same_core_refl m l : same_core m m l.
Proof. done. Qed.

Lemma same_core_insert m l i n' : core n' = core (m !!! i) -> same_core m (<[i := n']> m) l.
Proof. intros Hc j _. rewrite lookup_total_insert. destruct (decide (i = j)) as [->|Hne]; done. Qed.

Lemma same_core_fresh m l i n : i ∉ l -> same_core m (<[i := n]> m) l.
Proof. intros Hi j Hj. rewrite lookup_total_insert_ne; [done|]. intros ->. done. Qed.

Lemma same_core_delete m l i : i ∉ l -> same_core m (delete i m) l.
Proof. intros Hi j Hj. rewrite lookup_total_delete_ne; [done|]. intros ->. done. Qed.

Lemma same_core_trans m1 m2 m3 l : same_core m1 m2 l -> same_core m2 m3 l -> same_core m1 m3 l.
Proof. intros H1 H2 i Hi. rewrite (H2 i Hi). auto. Qed.

Lemma same_core_sub m m' l l' : (forall i, i ∈ l' -> i ∈ l) -> same_core m m' l -> same_core m m' l'.
Proof. intros Hs H i Hi. auto. Qed.

Lemma sorted_core k m m' l : (forall n n', core n = core n' -> k n = k n') -> same_core m m' l ->
  StronglySorted (before k m) l -> StronglySorted (before k m') l.
Proof.
  intros Hk Hm. apply sorted_ext. intros x y Hx Hy. unfold before.
  rewrite (Hk _ _ (Hm x Hx)), (Hk _ _ (Hm y Hy)). done.
Qed.

Definition earlier (m : gmap nat node) (i j : nat) : Prop := time (m !!! i) <= time (m !!! j).

Lemma sorted_earlier_core m m' l : same_core m m' l ->
  StronglySorted (earlier m) l -> StronglySorted (earlier m') l.
Proof.
  intros Hm. apply sorted_ext. intros x y Hx Hy. unfold earlier.
  rewrite (core_time _ _ (Hm x Hx)), (core_time _ _ (Hm y Hy)). done.
Qed.

(** Keys in [backup] are different. *)
Lemma sorted_unique k m l i j : StronglySorted (before k m) l -> i ∈ l -> j ∈ l -> k (m !!! i) = k (m !!! j) -> i = j.
Proof.
  intros Hs Hi Hj He. apply list_elem_of_split in Hi as (a & b & ->). rewrite sorted_app in Hs.
  destruct Hs as (_ & Hs & Hab). apply StronglySorted_inv in Hs as [_ Hs]. rewrite list.Forall_forall in Hs.
  assert (lexc (k (m !!! i)) (k (m !!! i)) = 0) as H0 by (apply lexc_eq; done).
  apply elem_of_app in Hj as [Hj|[->|Hj]%elem_of_cons]; [|done|].
  - specialize (Hab j i Hj (list_elem_of_here _ _)). unfold before in Hab. rewrite He in *. lia.
  - specialize (Hs j Hj). unfold before in Hs. rewrite He in *. lia.
Qed.
