(* ===== verification/MultiOps.v ===== *)
(** * What both modes of the pairing engine share

    The steps that take events out of [backup], walk over it or read it, proved
    against an interface: what an invariant has to offer for them to be safe.
    The timeline mode and the plain mode each implement it. *)

From stdpp Require Import sorting.
From S2P Require Import Prelude Rblist MultiTrace MultiProof.
Import MultiTrace.

(** ** What changes *)

(** Events only leave [backup], and nothing but flags of its nodes changes. *)
Record shrinks (c c' : ctx) : Prop := Shrinks {
  s_next : next c' = next c;
  s_timeline : timeline c' = timeline c;
  s_pending : pending_list c' = pending_list c;
  s_handled : event_handled c' = event_handled c;
  s_recent : recent_time c' = recent_time c;
  s_tlost : timeline_lost_list c' = timeline_lost_list c;
  s_plost : perins_lost_list c' = perins_lost_list c;
  s_backup : sublist (backup c') (backup c);
  s_same : forall j, j ∉ backup c -> nodes c' !! j = nodes c !! j;
  s_core : forall j, j ∈ backup c' -> core <$> nodes c' !! j = core <$> nodes c !! j
}.

#[global] Instance shrinks_preorder : PreOrder shrinks.
Proof.
  split; [intros c; split; done|]. intros c1 c2 c3 [] []. split; try congruence.
  - etrans; done.
  - intros j Hj. rewrite s_same1; [auto|]. intros Hj'. apply Hj. eapply elem_of_sublist; done.
  - intros j Hj. rewrite s_core1 by done. apply s_core0. eapply elem_of_sublist; done.
Qed.

(** The event [i] is dealt with: it may enter [backup], or a copy of it. *)
Record advances (i : nat) (c c' : ctx) : Prop := Advances {
  a_next : (next c <= next c')%nat;
  a_timeline : timeline c' = timeline c;
  a_pending : pending_list c' = pending_list c;
  a_handled : event_handled c' = event_handled c;
  a_recent : recent_time c' = recent_time c;
  a_backup : forall j, j ∈ backup c' -> j ∈ backup c \/ j = i \/ (next c <= j)%nat;
  a_same : forall j, j ∉ backup c -> j <> i -> (j < next c)%nat -> nodes c' !! j = nodes c !! j;
  a_core : core <$> nodes c' !! i = core <$> nodes c !! i
}.

#[global] Instance advances_preorder i : PreOrder (advances i).
Proof.
  split; [intros c; split; auto|]. intros c1 c2 c3 [] []. split; try congruence; [lia| |].
  - intros j Hj. destruct (a_backup1 j Hj) as [Hj'|[?|?]]; [apply a_backup0; done|auto|]. right. right. lia.
  - intros j Hj Hi Hn. rewrite a_same1; [auto| |done|lia]. intros Hj'. destruct (a_backup0 j Hj') as [?|[?|?]]; [done|done|lia].
Qed.

Lemma shrinks_advances i c c' : (i ∉ backup c) -> shrinks c c' -> advances i c c'.
Proof.
  intros Hi []. split; auto; [lia| |].
  - intros j Hj. left. eapply elem_of_sublist; done.
  - rewrite s_same0; done.
Qed.

Lemma core_lookup (m m' : gmap nat node) j : core <$> m' !! j = core <$> m !! j -> core (m' !!! j) = core (m !!! j).
Proof. rewrite !lookup_total_alt. destruct (m' !! j), (m !! j); simpl in *; congruence. Qed.

Lemma shrinks_core c c' j : shrinks c c' -> j ∈ backup c' -> core (nodes c' !!! j) = core (nodes c !!! j).
Proof. intros Hs Hj. apply core_lookup, (s_core _ _ Hs), Hj. Qed.

Lemma with_key_spec k l : forall c, alive (nodes c) l ->
  wpm (with_key k l) c (fun r c' => c' = c /\ r = filter (fun i => key (nodes c !!! i) = k) l).
Proof.
  induction l as [|i l IH]; intros c Ha; simpl; [wstep; done|]. wstep.
  apply (wpm_load i (nodes c !!! i)); [eapply alive_lookup; [done|apply list_elem_of_here]|]. wstep.
  eapply wpm_mono; [apply IH; eapply alive_cons; done|]. intros r c' [-> ->]. wstep. split; [done|].
  rewrite filter_cons. destruct (Z.eqb_spec (key (nodes c !!! i)) k); destruct (decide _); done.
Qed.

Definition fits (k : Z) (t : option tp) (n : node) : bool :=
  (key n =? k) && match t with Some t => tp_id (n_tp n) =? tp_id t | None => true end.

Lemma find_prev_spec k t l : forall c, alive (nodes c) l ->
  wpm (find_prev k t l) c (fun x c' => c' = c /\ x = head (filter (fun i => fits k t (nodes c !!! i) = true) l)).
Proof.
  induction l as [|i l IH]; intros c Ha; simpl; [wstep; done|]. wstep.
  apply (wpm_load i (nodes c !!! i)); [eapply alive_lookup; [done|apply list_elem_of_here]|].
  change (_ && _) with (fits k t (nodes c !!! i)). rewrite filter_cons.
  destruct (fits k t (nodes c !!! i)); [wstep; done|]. apply IH. eapply alive_cons. done.
Qed.

Lemma count_unneeded_0 c s : count_unneeded c 0 s = c.
Proof.
  unfold count_unneeded, set_tl_stat. destruct c as [? ? ? ? ? ? ? ? ? ? ? []]. simpl. do 2 f_equal; lia.
Qed.


(** ** The interface *)

Class EngineInv `{Opts} (nr : nat) (I : ctx -> Prop) : Prop := {
  ei_nodup c : I c -> NoDup (backup c);
  ei_alive c : I c -> alive (nodes c) (backup c);
  ei_lostlen c : I c -> lost_ins = true -> length (perins_lost_list c) = nr;
  ei_remove c i Q : I c -> i ∈ backup c ->
    (forall c', I c' -> shrinks c c' -> backup c' = list_del i (backup c) -> calls c' = calls c -> Q tt c') ->
    wpm (backup_remove i) c Q;
  ei_iter c t k i : I c -> i ∈ backup c -> wpm (iter_start t k i) c (fun _ c' => c' = c);
  ei_unpaired c i b : I c -> i ∈ backup c ->
    I (set_nodes c (<[i := set_unpaired (nodes c !!! i) b]> (nodes c)));
  ei_call c x : x <> Bug -> I c -> I (add_call c x);
  ei_recent c t : I c -> I (set_recent c t);
  ei_lost c l p : length p = length (perins_lost_list c) -> I c -> I (set_lost c l p)
}.

(** The event [i] is being dealt with. *)
Class HeldInv `{Opts} (nr : nat) (i : nat) (I : ctx -> Prop) : Prop := {
  hi_engine :: EngineInv nr I;
  hi_apart c : I c -> (i ∉ backup c);
  hi_alive c : I c -> is_Some (nodes c !! i);
  hi_next c : I c -> (i < next c)%nat;
  hi_ins c : I c -> (ins (nodes c !!! i) < nr)%nat;
  hi_drop c : I c -> need_backup (nodes c !!! i) = true ->
    I (count_unneeded (set_nodes c (<[i := set_unneeded (set_need (nodes c !!! i) (need_find_prev (nodes c !!! i)) false) true]>
      (nodes c))) 1 (e_size (event (nodes c !!! i))));
  hi_forget c : I c ->
    I (set_nodes c (<[i := set_need (nodes c !!! i) false (need_backup (nodes c !!! i))]> (nodes c)))
}.

Section Loops.
Context `{opts : Opts} (nr : nat) (I : ctx -> Prop) `{!EngineInv nr I}.

Lemma remove_all_spec l : forall c Q, I c -> NoDup l -> (forall i, i ∈ l -> i ∈ backup c) ->
  (forall c', I c' -> shrinks c c' -> (forall j, j ∈ backup c' -> j ∉ l) -> calls c' = calls c -> Q tt c') ->
  wpm (remove_all l) c Q.
Proof using All.
  induction l as [|i l IH]; intros c Q Hinv HN Hl HQ; simpl.
  { wstep. apply HQ; try done. intros j _ Hj. inversion Hj. }
  apply list.NoDup_cons in HN as [Hi HN]. wstep.
  apply ei_remove; [done|apply Hl, list_elem_of_here|]. intros c' Hinv' Hs Hb Hc.
  apply IH; [done|done| |].
  - intros j Hj. rewrite Hb, elem_of_list_del. split; [apply Hl, list_elem_of_further, Hj|]. intros ->. done.
  - intros c'' Hinv'' Hs' Hb' Hc'. apply HQ; [done|etrans; done| |congruence].
    intros j Hj. rewrite not_elem_of_cons. split; [|auto]. intros ->.
    pose proof (elem_of_sublist _ _ _ Hj (s_backup _ _ Hs')) as Hj'. rewrite Hb in Hj'.
    apply elem_of_list_del in Hj' as [_ Hj']. done.
Qed.

Lemma backup_exit_spec c Q : I c ->
  (forall c', I c' -> shrinks c c' -> backup c' = [] -> calls c' = calls c -> Q tt c') -> wpm backup_exit c Q.
Proof using All.
  intros Hinv HQ. unfold backup_exit. wstep. wstep.
  apply remove_all_spec; [done|apply ei_nodup; done|done|]. intros c' Hinv' Hs Hb Hc.
  apply HQ; try done. destruct (backup c') as [|j l] eqn:E; [done|]. exfalso. apply (Hb j).
  - apply list_elem_of_here.
  - eapply elem_of_sublist; [|apply Hs]. rewrite E. apply list_elem_of_here.
Qed.

Lemma unpaired_shrinks c i b : I c -> i ∈ backup c ->
  shrinks c (set_nodes c (<[i := set_unpaired (nodes c !!! i) b]> (nodes c))).
Proof using All.
  intros Hinv Hi. pose proof (alive_lookup _ _ _ (ei_alive c Hinv) Hi) as Hl. split; try done; simpl.
  - intros j Hj. rewrite lookup_insert_ne; [done|]. intros ->. done.
  - intros j _. destruct (decide (i = j)) as [->|Hne]; [rewrite lookup_insert_eq, Hl|rewrite lookup_insert_ne]; done.
Qed.

Lemma call_remaining_spec c i rr Q : I c -> i ∈ backup c ->
  (forall x c', I c' -> shrinks c c' -> backup c' = backup c -> Q x c') -> wpm (multi_trace_call_remaining i rr) c Q.
Proof using All.
  intros Hinv Hi HQ. pose proof (alive_lookup _ _ _ (ei_alive c Hinv) Hi) as Hl.
  unfold multi_trace_call_remaining. wstep. apply (wpm_load i (nodes c !!! i)); [done|].
  destruct (object_find _ None); [|apply wpm_ret, HQ; done].
  wstep. eapply wpm_mono; [apply ei_iter; done|]. intros s c' ->. wstep. wstep. wstep.
  destruct (greater_than <? _); repeat wstep.
  - apply HQ; [apply ei_call, ei_unpaired; done| |done]. etrans; [apply unpaired_shrinks; done|]. split; done.
  - apply HQ; [apply ei_call; done| |done]. split; done.
Qed.

Lemma handle_remaining_spec c rr Q : I c ->
  (forall c', I c' -> shrinks c c' -> backup c' = backup c -> Q tt c') -> wpm (multi_trace_handle_remaining rr) c Q.
Proof using All.
  intros Hinv HQ. unfold multi_trace_handle_remaining. wstep. wstep.
  assert (forall l c', I c' -> shrinks c c' -> backup c' = backup c -> (forall i, i ∈ l -> i ∈ backup c) ->
    wpm (remaining_loop l rr) c' Q) as H; [|apply H; done].
  induction l as [|i l IH]; intros c' Hinv' Hs Hb Hl; simpl; [wstep; auto|].
  wstep. apply call_remaining_spec; [done|rewrite Hb; apply Hl, list_elem_of_here|].
  intros x c'' Hinv'' Hs' Hb'. assert (shrinks c c'') by (etrans; done). destruct x.
  - wstep. apply HQ; [done|done|congruence].
  - apply IH; [done|done|congruence|]. intros j Hj. apply Hl, list_elem_of_further, Hj.
Qed.

Lemma reclaim_loop_spec rr l : forall c st Q, I c -> NoDup l -> (forall i, i ∈ l -> i ∈ backup c) ->
  (forall c', I c' -> shrinks c c' -> Q tt c') -> wpm (reclaim_loop l st rr) c Q.
Proof using All.
  induction l as [|i l IH]; intros c st Q Hinv HN Hl HQ; simpl; [wstep; apply HQ; done|].
  apply list.NoDup_cons in HN as [Hi HN].
  assert (forall (x : bool) c1, I c1 -> shrinks c c1 -> backup c1 = backup c ->
    wpm (backup_remove i ;; reclaim_loop l x rr) c1 Q) as Hrest.
  { intros x c1 Hinv1 Hs1 Hb1. wstep. apply ei_remove; [done|rewrite Hb1; apply Hl, list_elem_of_here|].
    intros c2 Hinv2 Hs2 Hb2 _. apply IH; [done|done| |].
    - intros j Hj. rewrite Hb2, Hb1.
      apply elem_of_list_del. split; [apply Hl, list_elem_of_further, Hj|]. intros ->. done.
    - intros c3 Hinv3 Hs3. apply HQ; [done|]. do 2 (etrans; [done|]). done. }
  wstep. destruct st; [wstep; apply Hrest; done|].
  apply call_remaining_spec; [done|apply Hl, list_elem_of_here|]. intros x c1 Hinv1 Hs1 Hb1. apply Hrest; done.
Qed.

Lemma reclaim_spec c k rr Q : I c ->
  (forall c', I c' -> shrinks c c' -> Q tt c') -> wpm (reclaim k rr) c Q.
Proof using All.
  intros Hinv HQ. unfold reclaim. wstep. wstep. wstep.
  eapply wpm_mono; [apply with_key_spec, ei_alive; done|]. intros r c0 [-> ->]. apply reclaim_loop_spec; try done.
  - apply list.NoDup_filter, ei_nodup. done.
  - intros i Hi. apply list_elem_of_filter in Hi as [_ Hi]. done.
Qed.

Lemma lost_reclaim_spec c i Q : I c ->
  (forall c', I c' -> shrinks c c' -> Q tt c') -> wpm (lost_reclaim i) c Q.
Proof using All.
  intros Hinv HQ. unfold lost_reclaim. destruct lost_ins; [apply reclaim_spec; done|]. wstep.
  apply handle_remaining_spec; [done|]. intros c1 Hinv1 Hs1 _. apply backup_exit_spec; [done|].
  intros c2 Hinv2 Hs2 _ _. apply HQ; [done|]. etrans; done.
Qed.

Lemma put_lost_list_spec c p l i Q : I c ->
  (forall c', I c' -> advances i c c' -> Q tt c') -> wpm (put_lost_list p l) c Q.
Proof using All.
  intros Hinv HQ. unfold put_lost_list. wstep. destruct lost_ins; (apply HQ; [apply ei_lost; [|done]|split; auto]).
  - apply length_insert.
  - done.
Qed.

End Loops.

(** ** The event that is dealt with *)

(** What [multi_trace_tryto_call_two] does for the node [n]. *)
Definition prev_of `{Opts} (n : node) (c : ctx) : option nat :=
  if need_find_prev n then head (filter (fun j => fits (key n) (tp1 n) (nodes c !!! j) = true) (backup c)) else None.

Definition pair_found `{Opts} (n prev : node) : bool :=
  object_find (tp_id (n_tp prev)) (Some (tp_id (n_tp n))) && (time prev <? time n).

Definition two_result `{Opts} (n : node) (c c' : ctx) : Prop :=
  match prev_of n c with
  | Some p =>
      let prev := nodes c !!! p in
      backup c' = (if need_remove_from_backup n then list_del p (backup c) else backup c) /\
      if pair_found n prev
      then exists s, calls c' = calls c ++ [Two (tp_id (n_tp prev)) (Some (tp_id (n_tp n))) (key n)
                                           (e_tag (event prev)) (Some (e_tag (event n))) s]
      else calls c' = calls c
  | None => backup c' = backup c /\ (impl_based_on_call = false -> calls c' = calls c)
  end.

Definition lost_same (c c' : ctx) : Prop :=
  timeline_lost_list c' = timeline_lost_list c /\ perins_lost_list c' = perins_lost_list c.

(** What [multi_trace_tryto_backup] does when memory is there: the node [x] with
    the fields of [n] replaces the one that compares equal. *)
Definition backup_result `{Opts} (n : node) (c c' : ctx) : Prop :=
  calls c' = calls c /\ lost_same c c' /\
  if need_backup n then
    exists x, core (nodes c' !!! x) = core n /\ (x ∉ backup c) /\
      (forall j, j ∈ backup c' <-> j = x \/ (j ∈ backup c /\ bkey (nodes c !!! j) <> bkey n)) /\
      (forall j, j ∈ backup c -> j ∈ backup c' -> j <> x -> core (nodes c' !!! j) = core (nodes c !!! j))
  else backup c' = backup c /\ nodes c' = nodes c.

Section Held.
Context `{opts : Opts} (nr i : nat) (I : ctx -> Prop) `{!HeldInv nr i I}.

Lemma advances_flags c n' (d s : Z) : is_Some (nodes c !! i) -> core n' = core (nodes c !!! i) ->
  advances i c (count_unneeded (set_nodes c (<[i := n']> (nodes c))) d s).
Proof using.
  intros Hi Hn. split; auto; simpl.
  - intros j _ Hne _. rewrite lookup_insert_ne; done.
  - rewrite lookup_insert_eq, (lookup_lookup_total _ _ Hi). simpl. congruence.
Qed.

Lemma drop_backup_spec c Q : I c -> (forall c', I c' -> advances i c c' -> Q tt c') -> wpm (drop_backup i) c Q.
Proof using All.
  intros Hinv HQ. pose proof (hi_alive c Hinv) as Ha. unfold drop_backup. wstep.
  apply (wpm_load i (nodes c !!! i)); [apply lookup_lookup_total; done|].
  destruct (need_backup (nodes c !!! i)) eqn:E; [|wstep; apply HQ; done]. do 3 wstep. apply HQ.
  - apply hi_drop; done.
  - apply advances_flags; done.
Qed.

Lemma shrinks_held c c' : I c -> shrinks c c' -> advances i c c' /\ nodes c' !! i = nodes c !! i.
Proof using All.
  intros Hinv Hs. pose proof (hi_apart c Hinv). split; [apply shrinks_advances; done|]. apply (s_same _ _ Hs). done.
Qed.

Lemma event_lost_loop_spec l : forall c Q, I c ->
  (forall c', I c' -> advances i c c' -> Q tt c') -> wpm (event_lost_loop l i) c Q.
Proof using All.
  induction l as [|x l IH]; intros c Q Hinv HQ; simpl; [wstep; apply HQ; done|].
  wstep. apply (wpm_load i (nodes c !!! i)); [apply lookup_lookup_total, hi_alive; done|].
  destruct (_ <? start_time x); [wstep; apply HQ; done|].
  destruct (_ =? start_time x); [apply drop_backup_spec; done|].
  assert (forall c1, I c1 -> advances i c c1 ->
    wpm (n ← load i; if time n <? end_time x then store i (set_need n false (need_backup n));; drop_backup i
         else put_lost_list (ins n) l;; event_lost_loop l i) c1 Q) as Hrest.
  { intros c1 Hinv1 Ha. pose proof (hi_alive c1 Hinv1) as Hal. wstep.
    apply (wpm_load i (nodes c1 !!! i)); [apply lookup_lookup_total; done|].
    destruct (_ <? end_time x).
    - wstep. wstep. apply drop_backup_spec; [apply hi_forget; done|]. intros c3 Hinv3 Ha3. apply HQ; [done|].
      etrans; [done|]. etrans; [|done]. rewrite <- (count_unneeded_0 (set_nodes _ _) 0). apply advances_flags; done.
    - wstep. apply (put_lost_list_spec nr I c1 _ _ i); [done|]. intros c2 Hinv2 Ha2. apply IH; [done|].
      intros c3 Hinv3 Ha3. apply HQ; [done|]. do 2 (etrans; [done|]). done. }
  wstep. destruct (negb _); [|wstep; apply Hrest; done].
  do 6 wstep. wstep.
  apply (lost_reclaim_spec nr I); [apply ei_call; [done|]; apply ei_recent; done|].
  intros c1 Hinv1 Hs1. wstep. wstep.
  assert (advances i c (set_recent c1 (recent_time c))) as Ha1.
  { destruct (shrinks_held _ _ (ei_call _ (Lost (ins (nodes c !!! i)) (Some x)) ltac:(done) (ei_recent c (start_time x) Hinv)) Hs1) as [[] _].
    split; done. }
  apply (put_lost_list_spec nr I _ _ _ i); [apply ei_recent; done|]. intros c2 Hinv2 Ha2.
  apply Hrest; [done|]. etrans; done.
Qed.

Lemma event_lost_spec c Q : I c ->
  (forall c', I c' -> advances i c c' -> Q tt c') -> wpm (multi_trace_event_lost i) c Q.
Proof using All.
  intros Hinv HQ. unfold multi_trace_event_lost. wstep.
  apply (wpm_load i (nodes c !!! i)); [apply lookup_lookup_total, hi_alive; done|]. wstep. wstep. wstep.
  destruct lost_ins eqn:E.
  - destruct (lookup_lt_is_Some_2 (perins_lost_list c) (ins (nodes c !!! i))) as [l Hl].
    { rewrite (ei_lostlen c Hinv E). apply hi_ins. done. }
    apply (wpm_lift l); [done|]. apply event_lost_loop_spec; done.
  - apply (wpm_lift (timeline_lost_list c)); [done|]. apply event_lost_loop_spec; done.
Qed.

Lemma prev_of_backup n c p : prev_of n c = Some p -> p ∈ backup c.
Proof using.
  unfold prev_of. destruct (need_find_prev n); [|done]. destruct (filter _ _) as [|q r] eqn:E; [done|]. intros [= ->].
  assert (p ∈ p :: r) as Hq by apply list_elem_of_here. rewrite <- E in Hq. apply list_elem_of_filter in Hq as [_ ?]. done.
Qed.

(** The event is handled as the second of a pair. *)
Lemma call_two_spec c n Q : I c -> nodes c !! i = Some n ->
  (forall b c', I c' -> shrinks c c' -> two_result n c c' -> Q b c') -> wpm (multi_trace_tryto_call_two i) c Q.
Proof using All.
  intros Hinv Hn HQ. unfold multi_trace_tryto_call_two. wstep. apply (wpm_load i n); [done|]. unfold two_result in HQ.
  pose proof (prev_of_backup n c) as Hpb. unfold prev_of in HQ, Hpb.
  destruct (need_find_prev n); cbn [negb]; [|wstep; apply HQ; done]. unfold multi_trace_find_prev. wstep. wstep. wstep.
  eapply wpm_mono; [apply find_prev_spec, ei_alive; done|].
  intros x c0 [-> Hx]. rewrite <- Hx in HQ, Hpb. destruct x as [p|].
  - specialize (Hpb p eq_refl). pose proof (alive_lookup _ _ _ (ei_alive c Hinv) Hpb) as Hpl.
    wstep. apply (wpm_load p (nodes c !!! p)); [done|]. wstep. wstep.
    set (c1 := set_nodes _ _). assert (I c1) as Hinv1 by (apply ei_unpaired; done).
    assert (shrinks c c1) as Hs1 by (apply (unpaired_shrinks nr I); done).
    assert (forall c2, I c2 -> shrinks c c2 -> backup c2 = backup c ->
      (if pair_found n (nodes c !!! p)
      then exists s, calls c2 = calls c ++ [Two (tp_id (n_tp (nodes c !!! p))) (Some (tp_id (n_tp n))) (key n)
                                           (e_tag (event (nodes c !!! p))) (Some (e_tag (event n))) s]
      else calls c2 = calls c) ->
      wpm (if need_remove_from_backup n then backup_remove p;; ret true else ret false) c2 Q) as Hrest.
    { intros c2 Hinv2 Hs2 Hb2 Hc2. destruct (need_remove_from_backup n); [|wstep; apply HQ; done]. wstep.
      apply ei_remove; [done|rewrite Hb2; done|]. intros c3 Hinv3 Hs3 Hb3 Hc3. wstep.
      apply HQ; [done|etrans; done|]. split; [congruence|]. rewrite Hc3. done. }
    wstep. unfold pair_found in Hrest. destruct (_ && _); [|wstep; apply Hrest; done].
    wstep. eapply wpm_mono; [apply ei_iter; done|]. intros s c2 ->. wstep.
    apply Hrest; [apply ei_call; done| |done|eauto]. etrans; [done|]. split; done.
  - wstep. destruct impl_based_on_call; simpl.
    + destruct (object_find _ None); wstep; wstep; (apply HQ; [|split; done|done]); [apply ei_call; done|done].
    + wstep. wstep. apply HQ; done.
Qed.

End Held.
