(* ===== verification/MultiInv.v ===== *)
(** * The invariant of the timeline

    The state of the pairing engine with --detail: every allocated node is on
    the timeline, what is kept is in [backup] or pending and in order of time,
    and the statistics are the sums over the nodes. *)

From stdpp Require Import sorting.
From S2P Require Import Prelude Rblist MultiTrace MultiProof MultiOps.
Import MultiTrace.

Section Timeline.
Context `{opts : Opts}.

Definition size_of (m : gmap nat node) (i : nat) : Z := e_size (event (m !!! i)).
Definition flag_of (m : gmap nat node) (i : nat) : Z := if unneeded (m !!! i) then 1 else 0.

Definition stat_ok (c : ctx) : Prop :=
  let s := tl_stat c in
  let m := nodes c in
  tl_new s - tl_delete s = Z.of_nat (length (timeline c)) /\
  tl_unneeded s = sumz (flag_of m) (timeline c) /\
  tl_pending s = Z.of_nat (length (pending_list c)) /\
  tl_mem_bytes s = sumz (size_of m) (timeline c) /\
  tl_unneeded_bytes s = sumz (fun i => flag_of m i * size_of m i) (timeline c) /\
  tl_pending_bytes s = sumz (size_of m) (pending_list c).

(** [h] is the node that has left [pending_list] and is not yet dealt with,
    [T] the time of the newest event. *)
Definition kept (h : list nat) (c : ctx) : list nat := needed_list c ++ h ++ pending_list c.

Record tinv (nr : nat) (T : Z) (h : list nat) (c : ctx) : Prop := Tinv {
  t_next : (0 < next c)%nat;
  t_fresh : forall i, i ∈ timeline c -> (0 < i < next c)%nat;
  t_heap : forall i, i <> current -> is_Some (nodes c !! i) <-> i ∈ timeline c;
  t_nodup : NoDup (timeline c);
  t_kept : NoDup (kept h c);
  t_sub : forall i, i ∈ kept h c -> i ∈ timeline c;
  t_backup : backup c ≡ₚ needed_list c;
  t_unneeded : forall i, i ∈ timeline c -> unneeded (nodes c !!! i) = false <->
    i ∈ needed_list c \/ i ∈ pending_list c \/ (i ∈ h /\ need_backup (nodes c !!! i) = true);
  t_sorted : StronglySorted (before tkey (nodes c)) (timeline c);
  t_bsorted : StronglySorted (before bkey (nodes c)) (backup c);
  t_chron : StronglySorted (earlier (nodes c)) (kept h c);
  t_last : forall i, i ∈ timeline c -> 0 <= time (nodes c !!! i) <= T;
  t_seq : forall i, i ∈ timeline c -> seq (nodes c !!! i) < event_handled c;
  t_ins : forall i, i ∈ timeline c -> (ins (nodes c !!! i) < nr)%nat;
  t_lost : lost_ins = true -> length (perins_lost_list c) = nr;
  t_bug : Bug ∉ calls c;
  t_stat : stat_ok c
}.

(** Contexts that differ in what the invariant does not look at. *)
Definition eqv (c c' : ctx) : Prop :=
  (forall i, i <> current -> view <$> nodes c' !! i = view <$> nodes c !! i) /\
  next c' = next c /\ backup c' = backup c /\ timeline c' = timeline c /\ needed_list c' = needed_list c /\
  pending_list c' = pending_list c /\ event_handled c' = event_handled c /\ tl_stat c' = tl_stat c /\
  length (perins_lost_list c') = length (perins_lost_list c) /\ (Bug ∈ calls c' -> Bug ∈ calls c).

#[global] Instance eqv_preorder : PreOrder eqv.
Proof.
  split.
  - intros c. split_and!; done.
  - intros c1 c2 c3 (A & ? & ? & ? & ? & ? & ? & ? & ? & ?) (B & ? & ? & ? & ? & ? & ? & ? & ? & ?).
    split_and!; try congruence; auto. intros i Hi. rewrite B by done. auto.
Qed.

Lemma eqv_nodes c c' i : eqv c c' -> i <> current -> view (nodes c' !!! i) = view (nodes c !!! i).
Proof.
  intros [H _] Hi. specialize (H i Hi). rewrite !lookup_total_alt.
  destruct (nodes c' !! i), (nodes c !! i); simpl in *; congruence.
Qed.

Lemma eqv_alive c c' i : eqv c c' -> i <> current -> is_Some (nodes c' !! i) <-> is_Some (nodes c !! i).
Proof. intros [H _] Hi. rewrite <- !(fmap_is_Some view). rewrite H; done. Qed.

Lemma view_inv n n' : view n = view n' ->
  time n = time n' /\ key n = key n' /\ n_tp n = n_tp n' /\ ins n = ins n' /\ seq n = seq n' /\
  event n = event n' /\ unneeded n = unneeded n' /\ need_backup n = need_backup n'.
Proof. unfold view, core. intros [=]. split_and!; done. Qed.

Lemma tinv_eqv nr T h c c' : eqv c c' -> tinv nr T h c -> tinv nr T h c'.
Proof.
  intros He Hinv. assert (forall i, i ∈ timeline c -> i <> current) as Hcur
    by (intros i Hi ->; apply (t_fresh _ _ _ _ Hinv) in Hi; unfold current in Hi; lia).
  pose proof (fun i Hi => eqv_nodes _ _ i He (Hcur i Hi)) as Hv.
  assert (same_core (nodes c) (nodes c') (timeline c)) as Hc
    by (intros i Hi; specialize (Hv i Hi); unfold view in Hv; congruence).
  pose proof (fun i => eqv_alive _ _ i He) as Ha.
  destruct He as (_ & E1 & E2 & E3 & E4 & E5 & E6 & E7 & E8 & E9).
  pose proof (fun l H => same_core_sub _ _ (timeline c) l H Hc) as Hcl.
  assert (forall i, i ∈ backup c -> i ∈ timeline c) as Hbt
    by (intros i Hi; apply (t_sub _ _ _ _ Hinv), elem_of_app; left; rewrite <- (t_backup _ _ _ _ Hinv); done).
  destruct Hinv.
  assert (forall i, i ∈ timeline c -> unneeded (nodes c' !!! i) = unneeded (nodes c !!! i)) as Vu
    by (intros i Hi; apply view_inv, Hv, Hi).
  assert (forall i, i ∈ timeline c -> size_of (nodes c') i = size_of (nodes c) i) as Vs
    by (intros i Hi; unfold size_of; f_equal; apply view_inv, Hv, Hi).
  assert (forall i, i ∈ timeline c -> flag_of (nodes c') i = flag_of (nodes c) i) as Vf
    by (intros i Hi; unfold flag_of; rewrite Vu; done).
  split; unfold kept, stat_ok in *; rewrite ?E1, ?E2, ?E3, ?E4, ?E5, ?E6, ?E7, ?E8; auto.
  - intros i Hi. rewrite Ha; auto.
  - intros i Hi. rewrite Vu, t_unneeded0 by done.
    destruct (view_inv _ _ (Hv i Hi)) as (_ & _ & _ & _ & _ & _ & _ & ->). done.
  - eapply sorted_core; [apply core_tkey| |done]. done.
  - eapply sorted_core; [apply core_bkey| |done]. auto.
  - eapply sorted_earlier_core; [|done]. auto.
  - intros i Hi. destruct (view_inv _ _ (Hv i Hi)) as (-> & _). auto.
  - intros i Hi. destruct (view_inv _ _ (Hv i Hi)) as (_ & _ & _ & _ & -> & _). auto.
  - intros i Hi. destruct (view_inv _ _ (Hv i Hi)) as (_ & _ & _ & -> & _). auto.
  - destruct t_stat0 as (? & A1 & ? & A2 & A3 & A4).
    split_and!; try done; [rewrite A1|rewrite A2|rewrite A3|rewrite A4]; apply sumz_ext; intros i Hi;
      rewrite ?Vs, ?Vf; auto using list_elem_of_further. apply t_sub0. rewrite !elem_of_app. auto.
Qed.

(** The flags of the node [i] change, and where it is linked. *)
Lemma tinv_update nr T h h' c c' i n' : tinv nr T h c -> i ∈ timeline c ->
  nodes c' = <[i := n']> (nodes c) -> core n' = core (nodes c !!! i) ->
  next c' = next c -> timeline c' = timeline c -> event_handled c' = event_handled c ->
  perins_lost_list c' = perins_lost_list c -> calls c' = calls c ->
  sublist (kept h' c') (kept h c) -> backup c' ≡ₚ needed_list c' ->
  StronglySorted (before bkey (nodes c)) (backup c') ->
  (unneeded n' = false <-> i ∈ needed_list c' \/ i ∈ pending_list c' \/ (i ∈ h' /\ need_backup n' = true)) ->
  (forall j, j <> i -> (j ∈ needed_list c' <-> j ∈ needed_list c) /\
     (j ∈ pending_list c' <-> j ∈ pending_list c) /\ (j ∈ h' <-> j ∈ h)) ->
  let d := (if unneeded n' then 1 else 0) - flag_of (nodes c) i in
  tl_stat c' = TlStat (tl_new (tl_stat c)) (tl_delete (tl_stat c)) (tl_unneeded (tl_stat c) + d)
    (Z.of_nat (length (pending_list c'))) (tl_mem_bytes (tl_stat c))
    (tl_unneeded_bytes (tl_stat c) + d * size_of (nodes c) i) (sumz (size_of (nodes c)) (pending_list c')) ->
  tinv nr T h' c'.
Proof.
  intros [] Hi En Hn E1 E2 E3 E4 E5 Hk Hb Hbs Hu Hj d Es.
  assert (same_core (nodes c) (nodes c') (timeline c)) as Hc by (rewrite En; apply same_core_insert; done).
  assert (forall j, j ∈ kept h' c' -> j ∈ timeline c) as Hsub
    by (intros j Hjk; apply t_sub0; eapply elem_of_sublist; done).
  assert (forall j, j ∈ timeline c -> view (nodes c' !!! j) = view (if decide (j = i) then n' else nodes c !!! j)) as Hv.
  { intros j _. rewrite En, lookup_total_insert. destruct (decide (i = j)), (decide (j = i)); congruence. }
  assert (forall j, j ∈ timeline c -> size_of (nodes c') j = size_of (nodes c) j) as Hsz
    by (intros j Hjt; unfold size_of; apply core_size, Hc, Hjt).
  assert (forall j, j ∈ timeline c -> j <> i -> flag_of (nodes c') j = flag_of (nodes c) j) as Hf
    by (intros j _ Hne; unfold flag_of; rewrite En, lookup_total_insert_ne; done).
  assert (flag_of (nodes c') i - flag_of (nodes c) i = d) as Hd
    by (unfold flag_of, d; rewrite En, lookup_total_insert_eq; done).
  split; unfold stat_ok; rewrite ?E1, ?E2, ?E3, ?E4, ?E5; auto.
  - intros j Hjc. rewrite En, lookup_insert_is_Some. rewrite <- t_heap0 by done.
    destruct (decide (i = j)) as [->|Hne]; [|tauto]. split; [intros _; apply t_heap0; done|tauto].
  - eapply sublist_NoDup; done.
  - intros j Hjt. destruct (decide (j = i)) as [->|Hne].
    + rewrite En, lookup_total_insert_eq. done.
    + rewrite En, lookup_total_insert_ne by done. destruct (Hj j Hne) as (-> & -> & ->). auto.
  - eapply sorted_core; [apply core_tkey|exact Hc|done].
  - eapply sorted_core; [apply core_bkey| |done]. eapply same_core_sub; [|exact Hc]. intros j Hjb.
    apply Hsub, elem_of_app. left. rewrite <- Hb. done.
  - eapply sorted_earlier_core; [|eapply sorted_sublist; done]. eapply same_core_sub; [|exact Hc]. done.
  - intros j Hjt. rewrite (core_time _ _ (Hc j Hjt)). auto.
  - intros j Hjt. rewrite (core_seq _ _ (Hc j Hjt)). auto.
  - intros j Hjt. rewrite (core_ins _ _ (Hc j Hjt)). auto.
  - destruct t_stat0 as (? & A1 & A0 & A2 & A3 & A4). rewrite Es. cbn [tl_new tl_delete tl_unneeded tl_pending
      tl_mem_bytes tl_unneeded_bytes tl_pending_bytes]. split_and!; try done.
    + rewrite (sumz_upd (flag_of (nodes c)) _ i) by done. lia.
    + rewrite A2. symmetry. apply sumz_ext. done.
    + rewrite (sumz_upd (fun j => flag_of (nodes c) j * size_of (nodes c) j) _ i); [|done|done|].
      * rewrite Hsz by done. rewrite A3. lia.
      * intros j Hjt Hne. cbv beta. rewrite Hsz, Hf; done.
    + symmetry. apply sumz_ext. intros j Hjp. apply Hsz, Hsub, elem_of_app. right.
      apply elem_of_app. right. done.
Qed.

(** ** What leaves [backup] *)

Lemma tinv_alive nr T h c i : tinv nr T h c -> i ∈ timeline c -> nodes c !! i = Some (nodes c !!! i).
Proof.
  intros [] Hi. apply lookup_lookup_total, t_heap0; [|done]. destruct (t_fresh0 i Hi) as [? _]. unfold current. lia.
Qed.

Lemma tinv_backup_timeline nr T h c i : tinv nr T h c -> i ∈ backup c -> i ∈ timeline c.
Proof. intros [] Hi. apply t_sub0, elem_of_app. left. rewrite <- t_backup0. done. Qed.

Lemma tinv_kept_timeline nr T h c i : tinv nr T h c -> i ∈ pending_list c \/ i ∈ h -> i ∈ timeline c.
Proof.
  intros [] Hi. apply t_sub0, elem_of_app. right. apply elem_of_app. tauto.
Qed.

(** The lists of kept nodes are disjoint. *)
Lemma tinv_disjoint nr T h c i : tinv nr T h c -> i ∈ needed_list c -> (i ∉ pending_list c) /\ i ∉ h.
Proof.
  intros [] Hi. unfold kept in *. apply list.NoDup_app in t_kept0 as (_ & Hd & _). specialize (Hd i Hi).
  rewrite not_elem_of_app in Hd. tauto.
Qed.

Lemma tinv_hold_apart nr T c i : tinv nr T [i] c -> (i ∉ needed_list c) /\ i ∉ pending_list c.
Proof.
  intros Hinv. pose proof (t_kept _ _ _ _ Hinv) as HN. unfold kept in HN. simpl in HN.
  apply list.NoDup_app in HN as (_ & Hd & HN). apply list.NoDup_cons in HN as [? _]. split; [|done].
  intros Hx. apply (Hd i Hx). apply list_elem_of_here.
Qed.

Lemma tinv_nodup_needed nr T h c : tinv nr T h c -> NoDup (needed_list c).
Proof. intros []. unfold kept in *. apply list.NoDup_app in t_kept0 as (? & _). done. Qed.

Context (Hmode : need_timeline = true).

Lemma backup_remove_spec nr T h c i Q : tinv nr T h c -> i ∈ backup c ->
  (forall c', tinv nr T h c' -> shrinks c c' -> backup c' = list_del i (backup c) -> calls c' = calls c -> Q tt c') ->
  wpm (backup_remove i) c Q.
Proof using Hmode.
  intros Hinv Hi HQ. pose proof (tinv_backup_timeline _ _ _ _ _ Hinv Hi) as Ht.
  pose proof (tinv_alive _ _ _ _ _ Hinv Ht) as Hl.
  assert (i ∈ needed_list c) as Hn by (rewrite <- (t_backup _ _ _ _ Hinv); done).
  destruct (tinv_disjoint _ _ _ _ _ Hinv Hn) as [Hp Hh].
  assert (unneeded (nodes c !!! i) = false) as Hu by (apply (t_unneeded _ _ _ _ Hinv i Ht); auto).
  unfold backup_remove, perf_event_backup_node_delete. wstep. wstep. wstep.
  apply (wpm_load i (nodes c !!! i)); [done|].
  rewrite Hmode. do 5 wstep. apply HQ; [| |done|done].
  - eapply (tinv_update nr T h h c _ i (set_unneeded (nodes c !!! i) true)); try done.
    + unfold kept. simpl. apply sublist_app; [|done]. apply sublist_filter.
    + simpl. rewrite (t_backup _ _ _ _ Hinv). done.
    + simpl. apply sorted_del, Hinv.
    + simpl. rewrite elem_of_list_del. split; [done|]. intros [[_ H]|[H|[H _]]]; tauto.
    + intros j Hj. simpl. rewrite elem_of_list_del. tauto.
    + simpl. unfold count_unneeded, flag_of. simpl. rewrite Hu. destruct (t_stat _ _ _ _ Hinv) as (? & ? & A1 & ? & ? & A2).
      rewrite A1, A2. f_equal; lia.
  - split; try done.
    + apply sublist_filter.
    + intros j Hj. simpl. rewrite lookup_insert_ne; [done|]. intros ->. done.
    + intros j _. simpl. destruct (decide (i = j)) as [->|Hne]; [|rewrite lookup_insert_ne; done].
      rewrite lookup_insert_eq, Hl. done.
Qed.

Lemma tinv_backup_nodup nr T h c : tinv nr T h c -> NoDup (backup c).
Proof using. intros Hinv. rewrite (t_backup _ _ _ _ Hinv). eapply tinv_nodup_needed; done. Qed.

Lemma iter_start_spec nr T h c t k i : tinv nr T h c -> i ∈ timeline c ->
  wpm (iter_start t k i) c (fun _ c' => c' = c).
Proof using Hmode.
  intros Hinv Hi. unfold iter_start. rewrite Hmode. cbn [negb]. destruct (before_event1 =? 0); [done|].
  wstep. wstep. wstep. apply (wpm_load i (nodes c !!! i)); [eapply tinv_alive; done|]. wstep.
  eapply wpm_mono; [apply wpm_find_first|].
  - exists tkey. split; [apply timeline_cmp_lex|apply Hinv].
  - intros E. rewrite E in Hi. inversion Hi.
  - intros j Hj. eexists. eapply tinv_alive; done.
  - intros s c' ->. wstep. done.
Qed.

(** Flags of the node that is dealt with. *)
Lemma tinv_hold nr T c i n' : tinv nr T [i] c -> core n' = core (nodes c !!! i) ->
  unneeded n' = negb (need_backup n') ->
  let d := (if unneeded n' then 1 else 0) - flag_of (nodes c) i in
  tinv nr T [i] (count_unneeded (set_nodes c (<[i := n']> (nodes c))) d (size_of (nodes c) i)).
Proof using.
  intros Hinv Hn Hu d. assert (i ∈ timeline c) as Ht by (eapply tinv_kept_timeline; [done|right; apply list_elem_of_here]).
  destruct (tinv_hold_apart _ _ _ _ Hinv) as [Hin Hip].
  eapply (tinv_update nr T [i] [i] c _ i n'); try done.
  - apply Hinv.
  - apply Hinv.
  - simpl. rewrite list_elem_of_singleton, Hu. destruct (need_backup n'); simpl; [tauto|]. split; [done|]. intros [?|[?|[_ ?]]]; done.
  - destruct (t_stat _ _ _ _ Hinv) as (? & ? & A1 & ? & ? & A2). simpl. unfold count_unneeded. simpl.
    rewrite A1, A2. f_equal; lia.
Qed.

Lemma tinv_hold_flag nr T c i : tinv nr T [i] c ->
  unneeded (nodes c !!! i) = negb (need_backup (nodes c !!! i)).
Proof using.
  intros Hinv. assert (i ∈ timeline c) as Ht by (eapply tinv_kept_timeline; [done|right; apply list_elem_of_here]).
  pose proof (t_unneeded _ _ _ _ Hinv i Ht) as Hu.
  destruct (tinv_hold_apart _ _ _ _ Hinv) as [Hin Hip].
  destruct (unneeded (nodes c !!! i)), (need_backup (nodes c !!! i)); simpl; try done.
  - exfalso. assert (true = false); [|done]. apply Hu. rewrite list_elem_of_singleton. auto.
  - exfalso. destruct Hu as [Hu _]. destruct (Hu eq_refl) as [?|[?|[_ ?]]]; done.
Qed.

Lemma set_recent_spec nr T h c t : tinv nr T h c -> tinv nr T h (set_recent c t).
Proof using. intros Hinv. eapply tinv_eqv; [|done]. split_and!; done. Qed.

Lemma add_call_spec nr T h c x : x <> Bug -> tinv nr T h c -> tinv nr T h (add_call c x).
Proof using.
  intros Hx Hinv. eapply tinv_eqv; [|done]. split_and!; try done. simpl.
  intros [?|Hb%list_elem_of_singleton]%elem_of_app; [done|]. congruence.
Qed.

(** ** The interface of the steps that both modes share *)

#[global] Instance tinv_engine nr T h : EngineInv nr (tinv nr T h).
Proof using Hmode.
  split.
  - intros c. apply tinv_backup_nodup.
  - intros c Hinv i Hi. eexists. apply (tinv_alive _ _ _ _ _ Hinv), (tinv_backup_timeline _ _ _ _ _ Hinv), Hi.
  - intros c Hinv. apply Hinv.
  - intros c i Q. apply backup_remove_spec.
  - intros c t k i Hinv Hi. apply (iter_start_spec nr T h), (tinv_backup_timeline _ _ _ _ _ Hinv), Hi; done.
  - intros c i b Hinv Hi. pose proof (tinv_backup_timeline _ _ _ _ _ Hinv Hi) as Ht.
    pose proof (tinv_alive _ _ _ _ _ Hinv Ht) as Hl. eapply tinv_eqv; [|done]. split_and!; try done. intros j _. simpl.
    destruct (decide (i = j)) as [->|Hne]; [rewrite lookup_insert_eq, Hl|rewrite lookup_insert_ne]; done.
  - intros c x. apply add_call_spec.
  - intros c t. apply set_recent_spec.
  - intros c l p Hp Hinv. eapply tinv_eqv; [|done]. split_and!; done.
Qed.

#[global] Instance tinv_held nr T i : HeldInv nr i (tinv nr T [i]).
Proof using Hmode.
  assert (forall c, tinv nr T [i] c -> i ∈ timeline c) as Ht
    by (intros c Hinv; apply (tinv_kept_timeline _ _ _ _ _ Hinv); right; apply list_elem_of_here).
  split.
  - apply tinv_engine.
  - intros c Hinv Hi. rewrite (t_backup _ _ _ _ Hinv) in Hi. destruct (tinv_hold_apart _ _ _ _ Hinv) as [Hx _]. apply Hx, Hi.
  - intros c Hinv. eexists. apply (tinv_alive _ _ _ _ _ Hinv). auto.
  - intros c Hinv. apply (t_fresh _ _ _ _ Hinv i). auto.
  - intros c Hinv. apply (t_ins _ _ _ _ Hinv i). auto.
  - intros c Hinv Hb. pose proof (tinv_hold_flag _ _ _ _ Hinv) as Hf. rewrite Hb in Hf.
    pose proof (tinv_hold nr T c i (set_unneeded (set_need (nodes c !!! i) (need_find_prev (nodes c !!! i)) false) true))
      as Hx. unfold flag_of in Hx. rewrite Hf in Hx. simpl in Hx. apply Hx; done.
  - intros c Hinv. set (n' := set_need (nodes c !!! i) false (need_backup (nodes c !!! i))).
    rewrite <- (count_unneeded_0 (set_nodes _ _) (size_of (nodes c) i)).
    replace 0 with ((if unneeded n' then 1 else 0) - flag_of (nodes c) i) by (unfold flag_of, n'; simpl; lia).
    apply tinv_hold; [done|done|]. unfold n'. simpl. eapply tinv_hold_flag. done.
Qed.

(** The node goes into [backup], or is let go. *)
Lemma tinv_link nr T c i a r : tinv nr T [i] c -> need_backup (nodes c !!! i) = true ->
  backup c = a ++ r -> (forall j, j ∈ a -> before bkey (nodes c) j i) -> (forall j, j ∈ r -> before bkey (nodes c) i j) ->
  tinv nr T [] (set_backup (set_needed c (needed_list c ++ [i])) (a ++ i :: r)).
Proof using.
  intros Hinv Hn Hb Ha Hr. assert (i ∈ timeline c) as Ht by (eapply tinv_kept_timeline; [done|right; apply list_elem_of_here]).
  pose proof (tinv_alive _ _ _ _ _ Hinv Ht) as Hl. pose proof (tinv_hold_flag _ _ _ _ Hinv) as Hf. rewrite Hn in Hf.
  destruct (tinv_hold_apart _ _ _ _ Hinv) as [Hin Hip].
  eapply (tinv_update nr T [i] [] c _ i (nodes c !!! i)); try done.
  - simpl. rewrite insert_id; done.
  - unfold kept. simpl. rewrite <- app_assoc. done.
  - simpl. pose proof (t_backup _ _ _ _ Hinv) as Hp. rewrite Hb in Hp. rewrite <- Permutation_middle, Hp.
    rewrite Permutation_app_comm. done.
  - simpl. apply sorted_put; [|done|done]. rewrite <- Hb. apply Hinv.
  - simpl. rewrite Hf. split; [|done]. intros _. left. apply elem_of_app. right. apply list_elem_of_here.
  - intros j Hj. simpl. rewrite elem_of_app, !list_elem_of_singleton, elem_of_nil. tauto.
  - destruct (t_stat _ _ _ _ Hinv) as (? & ? & A1 & ? & ? & A2). simpl. unfold flag_of. rewrite Hf, <- A1, <- A2.
    destruct (tl_stat c). simpl. f_equal; lia.
Qed.

Lemma tinv_release nr T c i : tinv nr T [i] c -> need_backup (nodes c !!! i) = false -> tinv nr T [] c.
Proof using.
  intros Hinv Hn. assert (i ∈ timeline c) as Ht by (eapply tinv_kept_timeline; [done|right; apply list_elem_of_here]).
  pose proof (tinv_alive _ _ _ _ _ Hinv Ht) as Hl. pose proof (tinv_hold_flag _ _ _ _ Hinv) as Hf. rewrite Hn in Hf.
  destruct (tinv_hold_apart _ _ _ _ Hinv) as [Hin Hip].
  eapply (tinv_update nr T [i] [] c _ i (nodes c !!! i)); try done; try apply Hinv.
  - rewrite insert_id; done.
  - unfold kept. simpl. apply sublist_app; [done|]. apply sublist_cons. done.
  - rewrite Hf. split; [done|]. rewrite elem_of_nil. tauto.
  - intros j Hj. rewrite list_elem_of_singleton, elem_of_nil. tauto.
  - destruct (t_stat _ _ _ _ Hinv) as (? & ? & A1 & ? & ? & A2). simpl. unfold flag_of. rewrite Hf, <- A1, <- A2.
    destruct (tl_stat c). simpl. f_equal; lia.
Qed.

Lemma findnew_spec nr T i c (Q : option nat * bool -> ctx -> Prop) : tinv nr T [i] c ->
  need_backup (nodes c !!! i) = true ->
  (forall c', tinv nr T [] c' -> advances i c c' -> calls c' = calls c -> lost_same c c' -> nodes c' = nodes c ->
     backup c' ≡ₚ i :: backup c -> (forall j, j ∈ backup c -> bkey (nodes c !!! j) <> bkey (nodes c !!! i)) ->
     Q (Some i, true) c') ->
  (forall j, j ∈ backup c -> bkey (nodes c !!! j) = bkey (nodes c !!! i) -> Q (Some j, false) c) ->
  wpm (backup_findnew i) c Q.
Proof using Hmode.
  intros Hinv Hn HQ1 HQ2. assert (i ∈ timeline c) as Ht
    by (eapply tinv_kept_timeline; [done|right; apply list_elem_of_here]).
  unfold backup_findnew. wstep. wstep. wstep. apply (wpm_load i (nodes c !!! i)); [eapply tinv_alive; done|].
  wstep. eapply wpm_mono; [apply (locate_spec backup_cmp bkey)|].
  - apply backup_cmp_lex.
  - intros j Hj. eexists. apply (tinv_alive _ _ _ _ _ Hinv), (tinv_backup_timeline _ _ _ _ _ Hinv), Hj.
  - apply Hinv.
  - intros [[a x] r] c' (-> & Hb & Ha & Hx & Hr). destruct x as [j|].
    + wstep. apply HQ2; [|auto]. rewrite Hb. simpl. apply elem_of_app. right. apply list_elem_of_here.
    + simpl in Hb. unfold perf_event_backup_node_new. rewrite Hmode. do 6 wstep.
      assert (a ++ i :: r ≡ₚ i :: backup c) as Hp by (rewrite Hb; symmetry; apply Permutation_middle).
      apply HQ1; try done.
      * apply tinv_link; done.
      * split; auto. simpl. intros j. rewrite Hp, elem_of_cons. tauto.
      * intros j Hj He. apply (lexc_eq (bkey (nodes c !!! j)) (bkey (nodes c !!! i))) in He as He'.
        rewrite Hb, elem_of_app in Hj. destruct Hj as [Hj|Hj]; [specialize (Ha j Hj); lia|].
        specialize (Hr j Hj). rewrite He in *. lia.
Qed.

Lemma tryto_backup_spec nr T i c Q : tinv nr T [i] c ->
  (forall x c', tinv nr T [] c' -> advances i c c' -> backup_result (nodes c !!! i) c c' -> Q x c') ->
  wpm (multi_trace_tryto_backup i) c Q.
Proof using Hmode.
  intros Hinv HQ. assert (i ∈ timeline c) as Ht by (eapply tinv_kept_timeline; [done|right; apply list_elem_of_here]).
  unfold backup_result in HQ. pose proof (hi_apart (HeldInv := tinv_held nr T i) c Hinv) as Hapart.
  unfold multi_trace_tryto_backup. wstep. apply (wpm_load i (nodes c !!! i)); [eapply tinv_alive; done|].
  destruct (need_backup (nodes c !!! i)) eqn:Hn; [|wstep; apply HQ; [eapply tinv_release| |]; done].
  cbn [backup_retry]. wstep. apply (findnew_spec nr T); [done|done| |].
  { intros c' Hinv' Ha' Hc' Hl' En' Hb' Hne. wstep. apply HQ; [done|done|]. split_and!; [done|done|]. exists i.
    rewrite En'. split_and!; [done|done| |done]. intros j. rewrite Hb', elem_of_cons. split; [|tauto]. intros [?|Hj]; auto. }
  intros j Hj He. wstep. apply (wpm_load i (nodes c !!! i)); [eapply tinv_alive; done|]. wstep.
  pose proof (tinv_backup_timeline _ _ _ _ _ Hinv Hj) as Hjt.
  apply (wpm_load j (nodes c !!! j)); [eapply tinv_alive; done|].
  assert (earlier (nodes c) j i) as Hle.
  { pose proof (t_chron _ _ _ _ Hinv) as Hc. unfold kept in Hc. apply sorted_app in Hc as (_ & _ & Hc).
    apply Hc; [rewrite <- (t_backup _ _ _ _ Hinv); done|]. apply list_elem_of_here. }
  unfold earlier in Hle. destruct (Z.ltb_spec (time (nodes c !!! i)) (time (nodes c !!! j))) as [Hlt|Hge]; [lia|].
  wstep. apply (backup_remove_spec nr T [i]); [done|done|]. intros c1 Hinv1 Hs1 Hb1 Hc1.
  destruct (shrinks_held nr i (tinv nr T [i]) _ _ Hinv Hs1) as [Ha1 Hi1].
  assert (nodes c1 !!! i = nodes c !!! i) as Hi1' by (rewrite !lookup_total_alt, Hi1; done).
  assert (forall j', j' ∈ backup c1 -> bkey (nodes c1 !!! j') = bkey (nodes c !!! j')) as Hbk
    by (intros j' Hj'; apply core_bkey, shrinks_core; done).
  assert (forall j', j' ∈ backup c -> bkey (nodes c !!! j') = bkey (nodes c !!! i) -> j' = j) as Huniq
    by (intros j' Hj' He'; apply (sorted_unique bkey (nodes c) (backup c)); [apply Hinv|done|done|congruence]).
  wstep. apply (findnew_spec nr T); [done|rewrite Hi1'; done| |].
  - intros c2 Hinv2 Ha2 Hc2 [Hl2 Hl2'] En2 Hb2 Hne2. wstep. apply HQ; [done|etrans; done|].
    split_and!; [congruence|destruct Hs1; split; congruence|]. exists i.
    rewrite En2. split_and!; [congruence|done| |].
    + intros j'. rewrite Hb2, elem_of_cons, Hb1, elem_of_list_del. split; (intros [?|[Hj' Hx]]; [auto|right; split; [done|]]).
      * intros He'. apply Hx, Huniq; done.
      * intros ->. done.
    + intros j' Hj' Hj2 Hne. apply (shrinks_core c c1); [done|]. rewrite Hb2, elem_of_cons in Hj2. tauto.
  - intros j' Hj' He'. exfalso. rewrite Hbk, Hi1' in He' by done. rewrite Hb1 in Hj'.
    apply elem_of_list_del in Hj' as [Hj' Hne]. apply Hne, Huniq; done.
Qed.

(** ** The pending events *)

(** The first of [pending_list] leaves it. *)
Record pops (i : nat) (c c' : ctx) : Prop := Pops {
  o_next : next c' = next c;
  o_backup : backup c' = backup c;
  o_timeline : timeline c' = timeline c;
  o_pending : pending_list c = i :: pending_list c';
  o_handled : event_handled c' = event_handled c;
  o_recent : recent_time c' = recent_time c;
  o_tlost : timeline_lost_list c' = timeline_lost_list c;
  o_plost : perins_lost_list c' = perins_lost_list c;
  o_calls : calls c' = calls c;
  o_node : nodes c' !!! i = set_unneeded (nodes c !!! i) (negb (need_backup (nodes c !!! i)));
  o_same : forall j, j <> i -> nodes c' !! j = nodes c !! j
}.

Lemma tinv_pop nr T h c i l : tinv nr T h c -> pending_list c = i :: l ->
  let n := nodes c !!! i in
  let d := if need_backup n then 0 else 1 in
  tinv nr T (h ++ [i]) (count_unneeded (count_pending (set_nodes (set_pending c l)
    (<[i := set_unneeded n (negb (need_backup n))]> (nodes c))) (-1) (e_size (event n))) d (e_size (event n))).
Proof using.
  intros Hinv E n d.
  assert (i ∈ timeline c) as Ht by (eapply tinv_kept_timeline; [done|left; rewrite E; apply list_elem_of_here]).
  assert (unneeded n = false) as Hu
    by (apply (t_unneeded _ _ _ _ Hinv i Ht); right; left; rewrite E; apply list_elem_of_here).
  pose proof (t_kept _ _ _ _ Hinv) as HN. unfold kept in HN. rewrite E in HN. simpl in HN.
  apply list.NoDup_app in HN as (_ & Hd & HN). apply list.NoDup_app in HN as (_ & _ & HN).
  apply list.NoDup_cons in HN as [Hil _].
  assert (i ∉ needed_list c) as Hin
    by (intros Hx; apply (Hd i Hx), elem_of_app; right; apply list_elem_of_here).
  eapply (tinv_update nr T h (h ++ [i]) c _ i); try done; try apply Hinv.
  - unfold kept. simpl. rewrite E, <- app_assoc. done.
  - simpl. rewrite elem_of_app, list_elem_of_singleton.
    destruct (need_backup n); simpl; [tauto|]. split; [done|]. intros [?|[?|[_ ?]]]; done.
  - intros j Hj. simpl. rewrite E, elem_of_cons, elem_of_app, list_elem_of_singleton. tauto.
  - destruct (t_stat _ _ _ _ Hinv) as (? & ? & A1 & ? & ? & A2). simpl. unfold flag_of. fold n. rewrite Hu.
    rewrite E in A1, A2. simpl in A1, A2. unfold size_of in *. rewrite A1, A2. fold n. unfold d.
    destruct (need_backup n); simpl; f_equal; lia.
Qed.

Lemma first_pending_spec nr T h tail c Q : tinv nr T h c ->
  ((forall i l, pending_list c = i :: l -> deadline tail < time (nodes c !!! i)) -> Q None c) ->
  (forall i c', tinv nr T (h ++ [i]) c' -> pops i c c' -> Q (Some i) c') ->
  wpm (multi_trace_first_pending tail) c Q.
Proof using.
  intros Hinv HQ0 HQ. unfold multi_trace_first_pending. wstep. wstep.
  destruct (pending_list c) as [|i l] eqn:E; [wstep; apply HQ0; done|].
  assert (i ∈ timeline c) as Ht by (eapply tinv_kept_timeline; [done|left; rewrite E; apply list_elem_of_here]).
  wstep. apply (wpm_load i (nodes c !!! i)); [eapply tinv_alive; done|].
  destruct (Z.leb_spec (time (nodes c !!! i)) (deadline tail)); [|wstep; apply HQ0; congruence].
  pose proof (tinv_pop nr T h c i l Hinv E) as Hinv'.
  do 6 wstep. wstep. cbv zeta in Hinv'. destruct (need_backup (nodes c !!! i)) eqn:Hb; cbn [negb] in *; do 2 wstep.
  - rewrite count_unneeded_0 in Hinv'. apply (HQ i); [done|]. split; try done; simpl.
    + rewrite lookup_total_insert_eq, Hb. done.
    + intros j Hj. rewrite lookup_insert_ne; done.
  - apply (HQ i); [done|]. split; try done; simpl.
    + rewrite lookup_total_insert_eq, Hb. done.
    + intros j Hj. rewrite lookup_insert_ne; done.
Qed.

(** The first pending event is dealt with. *)
Lemma current_lt nr T h c : tinv nr T h c -> (current ∉ timeline c) /\ (current < next c)%nat.
Proof using.
  intros Hinv. split; [|apply (t_next _ _ _ _ Hinv)]. intros Hx. apply (t_fresh _ _ _ _ Hinv) in Hx. unfold current in Hx. lia.
Qed.

Lemma pending_step nr T i c Q : tinv nr T [i] c ->
  (forall f1 x f2 c', tinv nr T [] c' -> advances i c c' -> Q f1 (x, f2) c') ->
  wpm (multi_trace_event_lost i) c (fun _ c1 => wpm (multi_trace_tryto_call_two i) c1 (fun f1 c2 =>
    wpm (multi_trace_tryto_backup i) c2 (Q f1))).
Proof using Hmode.
  intros Hinv HQ. apply (event_lost_spec nr i (tinv nr T [i])); [done|]. intros c1 Hinv1 Ha1.
  pose proof (hi_alive (HeldInv := tinv_held nr T i) c1 Hinv1) as [n Hn].
  apply (call_two_spec nr i (tinv nr T [i]) c1 n); [done|done|]. intros f1 c2 Hinv2 Hs2 _.
  destruct (shrinks_held nr i (tinv nr T [i]) _ _ Hinv1 Hs2) as [Ha2 _].
  apply (tryto_backup_spec nr T); [done|]. intros [x f2] c3 Hinv3 Ha3 _. apply HQ; [done|].
  do 2 (etrans; [done|]). done.
Qed.

Lemma pending_loop_spec nr T fuel : forall tail f c Q, tinv nr T [] c -> (length (pending_list c) < fuel)%nat ->
  (forall x c', tinv nr T [] c' -> nodes c' !! current = nodes c !! current -> Q x c') ->
  wpm (pending_loop fuel tail f) c Q.
Proof using Hmode.
  induction fuel as [|fuel IH]; intros tail f c Q Hinv Hf HQ; [lia|]. cbn [pending_loop]. wstep.
  apply (first_pending_spec nr T []); [done|intros _; wstep; auto|]. intros i c1 Hinv1 Hp1. simpl in Hinv1.
  repeat wstep. eapply wpm_mono; [apply (pending_step nr T i c1 (fun f1 xf c' => wpm (let '(_, f2) := xf in
    pending_loop fuel tail (f || f1 || f2)) c' Q)); [done|]|].
  - intros f1 x f2 c2 Hinv2 Ha2. rewrite (o_pending _ _ _ Hp1) in Hf. simpl in Hf.
    apply IH; [done|rewrite (a_pending _ _ _ Ha2); lia|]. intros y c' Hinv' Hcur. apply HQ; [done|].
    destruct (current_lt _ _ _ _ Hinv1) as [Hct Hcn].
    assert (current <> i) as Hci by (intros <-; apply Hct; eapply tinv_kept_timeline; [done|right; apply list_elem_of_here]).
    rewrite Hcur, (a_same _ _ _ Ha2), (o_same _ _ _ Hp1); try done. intros Hb. apply Hct.
    eapply tinv_backup_timeline; done.
  - intros u c2 Hw. wstep. eapply wpm_mono; [exact Hw|]. intros f1 c3 H3. wstep. exact H3.
Qed.

End Timeline.
