(* ===== verification/MultiSafe.v ===== *)
(** * Safety of the pairing engine with a timeline

    A sample is put on the timeline, unneeded events are freed, and whatever the
    sequence of samples and lost events, no freed event is used, what is kept is
    never dropped and the statistics agree with the state; the end of a run
    frees everything. *)

From stdpp Require Import sorting.
From S2P Require Import Prelude Rblist MultiTrace MultiProof MultiOps MultiInv.
Import MultiTrace.

Module MultiSafe.

Section Timeline.
Context `{opts : Opts}.
Context (Hmode : need_timeline = true).

#[local] Instance timeline_engine nr T h : EngineInv nr (tinv nr T h) := tinv_engine Hmode nr T h.

(** ** Freeing *)

(** Only nodes of the timeline that are not kept go. *)
Record prunes (c c' : ctx) : Prop := Prunes {
  p_next : next c' = next c;
  p_backup : backup c' = backup c;
  p_needed : needed_list c' = needed_list c;
  p_pending : pending_list c' = pending_list c;
  p_handled : event_handled c' = event_handled c;
  p_recent : recent_time c' = recent_time c;
  p_tlost : timeline_lost_list c' = timeline_lost_list c;
  p_plost : perins_lost_list c' = perins_lost_list c;
  p_calls : calls c' = calls c;
  p_timeline : sublist (timeline c') (timeline c);
  p_nodes : forall j, j ∈ timeline c' \/ j = current -> nodes c' !! j = nodes c !! j
}.

#[global] Instance prunes_preorder : PreOrder prunes.
Proof.
  split; [intros c; split; done|]. intros c1 c2 c3 [] []. split; try congruence; [etrans; done|].
  intros j Hj. rewrite p_nodes1 by done. apply p_nodes0. destruct Hj as [Hj|Hj]; [left|by right].
  eapply elem_of_sublist; done.
Qed.

Section Shrink.
Context (nr : nat) (T : Z) (h : list nat) (c : ctx) (i : nat).
Context (Hinv : tinv nr T h c) (Hi : i ∈ timeline c) (Hin : i ∉ needed_list c) (Hip : i ∉ pending_list c).

Lemma shrink_same j : j ∈ list_del i (timeline c) -> delete i (nodes c) !!! j = nodes c !!! j.
Proof using. clear. intros [_ Hne]%elem_of_list_del. rewrite lookup_total_delete_ne; done. Qed.

Lemma shrink_core l : (forall j, j ∈ l -> j ∈ list_del i (timeline c)) -> same_core (nodes c) (delete i (nodes c)) l.
Proof using. clear. intros Hl j Hj. rewrite shrink_same; auto. Qed.

Lemma shrink_kept j : j ∈ needed_list c ++ list_del i h ++ pending_list c -> j ∈ list_del i (timeline c).
Proof using Hinv Hin Hip.
  rewrite !elem_of_app, elem_of_list_del. intros Hj. apply elem_of_list_del. split.
  - apply (t_sub _ _ _ _ Hinv). unfold kept. rewrite !elem_of_app. tauto.
  - intros ->. tauto.
Qed.

Lemma shrink_sublist : sublist (needed_list c ++ list_del i h ++ pending_list c) (kept h c).
Proof using. clear. unfold kept. repeat apply sublist_app; try done. apply sublist_filter. Qed.

Lemma shrink_stat : let f := flag_of (nodes c) i in let s := e_size (event (nodes c !!! i)) in
  stat_ok (set_nodes (count_unneeded (count_node (set_timeline c (list_del i (timeline c))) false s) (- f) s)
    (delete i (nodes c))).
Proof using Hinv Hi Hin Hip.
  intros f s. destruct (t_stat _ _ _ _ Hinv) as (A1 & A2 & A3 & A4 & A5 & A6). unfold stat_ok. simpl.
  pose proof (t_nodup _ _ _ _ Hinv) as HN.
  assert (forall f g : nat -> Z, (forall j, j ∈ list_del i (timeline c) -> f j = g j) ->
    sumz f (list_del i (timeline c)) = sumz g (timeline c) - g i) as Hsum.
  { intros f' g Hfg. rewrite (sumz_ext f' g) by done. apply sumz_del; done. }
  rewrite (Hsum _ (flag_of (nodes c))) by (intros j Hj; unfold flag_of; rewrite shrink_same; done).
  rewrite (Hsum _ (size_of (nodes c))) by (intros j Hj; unfold size_of; rewrite shrink_same; done).
  rewrite (Hsum _ (fun j => flag_of (nodes c) j * size_of (nodes c) j))
    by (intros j Hj; unfold size_of, flag_of; rewrite shrink_same; done).
  rewrite list_del_length by done. change (size_of (nodes c) i) with s. fold f.
  rewrite (sumz_ext (size_of (delete i (nodes c))) (size_of (nodes c)) (pending_list c)).
  - split_and!; lia.
  - intros j Hj. unfold size_of. rewrite shrink_same; [done|]. apply shrink_kept. rewrite !elem_of_app. auto.
Qed.

Lemma tinv_shrink : let f := flag_of (nodes c) i in let s := e_size (event (nodes c !!! i)) in
  tinv nr T (list_del i h) (set_nodes (count_unneeded (count_node (set_timeline c (list_del i (timeline c))) false s)
    (- f) s) (delete i (nodes c))).
Proof using Hinv Hi Hin Hip.
  pose proof shrink_stat as Hstat. pose proof shrink_core as Hc. pose proof shrink_same as Hsame.
  destruct Hinv. split; try done; simpl.
  - intros j [Hj _]%elem_of_list_del. auto.
  - intros j Hj. rewrite lookup_delete_is_Some, elem_of_list_del, <- t_heap by done. split; intros [? ?]; auto.
  - apply nodup_list_del. done.
  - eapply sublist_NoDup; [done|apply shrink_sublist].
  - intros j Hj. apply shrink_kept. done.
  - intros j Hj. rewrite Hsame by done. apply elem_of_list_del in Hj as [Hj Hne]. rewrite t_unneeded by done.
    rewrite elem_of_list_del. tauto.
  - eapply sorted_core; [apply core_tkey|apply Hc; done|apply sorted_del; done].
  - eapply sorted_core; [apply core_bkey|apply Hc|done]. intros j Hj. apply shrink_kept, elem_of_app. left.
    rewrite <- t_backup. done.
  - eapply sorted_earlier_core; [apply Hc, shrink_kept|]. eapply sorted_sublist; [apply shrink_sublist|done].
  - intros j Hj. rewrite Hsame by done. apply elem_of_list_del in Hj as [Hj _]. auto.
  - intros j Hj. rewrite Hsame by done. apply elem_of_list_del in Hj as [Hj _]. auto.
  - intros j Hj. rewrite Hsame by done. apply elem_of_list_del in Hj as [Hj _]. auto.
Qed.

End Shrink.

Lemma timeline_remove_spec nr T h c i Q : tinv nr T h c -> i ∈ timeline c -> (i ∉ needed_list c) -> (i ∉ pending_list c) ->
  (forall c', tinv nr T (list_del i h) c' -> prunes c c' -> timeline c' = list_del i (timeline c) -> Q tt c') ->
  wpm (timeline_remove i) c Q.
Proof using.
  intros Hinv Hi Hin Hip HQ. pose proof (tinv_alive _ _ _ _ _ Hinv Hi) as Hl.
  assert (i <> current) as Hcur by (apply (t_fresh _ _ _ _ Hinv) in Hi; unfold current; lia).
  set (f := flag_of (nodes c) i).
  assert (forall c', c' = count_unneeded (count_node (set_timeline c (list_del i (timeline c))) false
    (e_size (event (nodes c !!! i)))) (- f) (e_size (event (nodes c !!! i))) ->
    Q tt (set_nodes c' (delete i (nodes c)))) as HQ'.
  { intros c' ->. apply HQ; [apply tinv_shrink; done| |done]. split; try done; [apply sublist_filter|].
    intros j [[_ Hne]%elem_of_list_del| ->]; apply lookup_delete_ne; done. }
  unfold timeline_remove, timeline_node_delete. do 3 wstep.
  apply (wpm_load i (nodes c !!! i)); [done|]. do 3 wstep. simpl.
  rewrite decide_False by (rewrite not_elem_of_app; done). do 4 wstep. unfold f, flag_of in HQ'.
  destruct (unneeded (nodes c !!! i)); wstep.
  - apply (wpm_free i (nodes c !!! i)); [done|]. apply HQ'. done.
  - apply (wpm_free i (nodes c !!! i)); [done|]. apply HQ'. rewrite count_unneeded_0. done.
Qed.

(** Nothing that is kept is before the time that [needed_from] computes. *)
Lemma needed_from_spec nr T c : 0 <= before_event1 -> tinv nr T [] c ->
  wpm (needed_from c) c (fun b c' => c' = c /\ forall i, i ∈ kept [] c -> b <= time (nodes c !!! i)).
Proof using.
  intros Hb Hinv.
  assert (forall i l, i ∈ timeline c -> (forall j, j ∈ l -> earlier (nodes c) i j) -> kept [] c = i :: l \/ kept [] c = [] ->
    wpm (n ← load i; ret (if before_event1 <? time n then u64 (time n - before_event1) else 0)) c
      (fun b c' => c' = c /\ forall j, j ∈ kept [] c -> b <= time (nodes c !!! j))) as Hfirst.
  { intros i l Hi Hl Hk. wstep. apply (wpm_load i (nodes c !!! i)); [eapply tinv_alive; done|]. wstep. split; [done|].
    destruct (t_last _ _ _ _ Hinv i Hi) as [H0 _].
    intros j Hj. destruct Hk as [Hk|Hk]; rewrite Hk in Hj; [|inversion Hj].
    assert (time (nodes c !!! i) <= time (nodes c !!! j)) as Hle
      by (apply elem_of_cons in Hj as [->|Hj]; [lia|]; apply Hl; done).
    destruct (Z.ltb_spec before_event1 (time (nodes c !!! i))); [|lia].
    unfold u64, uwrap. pose proof (Z.mod_le (time (nodes c !!! i) - before_event1) (2 ^ 64)). lia. }
  unfold needed_from. destruct (before_event1 =? 0).
  { wstep. split; [done|]. intros i Hi. apply (t_last _ _ _ _ Hinv), (t_sub _ _ _ _ Hinv), Hi. }
  pose proof (t_chron _ _ _ _ Hinv) as Hc.
  assert (forall i l, kept [] c = i :: l -> i ∈ timeline c /\ forall j, j ∈ l -> earlier (nodes c) i j) as Hhd.
  { intros i l E. rewrite E in Hc. apply StronglySorted_inv in Hc as [_ Hc]. rewrite list.Forall_forall in Hc.
    split; [|done]. apply (t_sub _ _ _ _ Hinv). rewrite E. apply list_elem_of_here. }
  unfold kept in Hhd, Hfirst |- *. simpl in *. destruct (needed_list c) as [|i l]; simpl in *.
  - destruct (pending_list c) as [|i l]; simpl in *.
    + destruct (rev (timeline c)) as [|i l] eqn:E; simpl.
      * wstep. split; [done|]. intros j Hj. inversion Hj.
      * apply (Hfirst i []); [|intros j Hj; inversion Hj|auto]. apply list_elem_of_In, in_rev. rewrite E. left. done.
    + destruct (Hhd i l) as [Hi Hl]; [done|]. apply (Hfirst i l); auto.
  - destruct (Hhd i (l ++ pending_list c)) as [Hi Hl]; [done|]. apply (Hfirst i (l ++ pending_list c)); auto.
Qed.

Lemma free_loop_spec nr T l : forall b c Q, tinv nr T [] c -> timeline c = l ->
  (forall i, i ∈ kept [] c -> b <= time (nodes c !!! i)) ->
  (forall c', tinv nr T [] c' -> prunes c c' -> Q tt c') -> wpm (free_loop l b) c Q.
Proof using.
  induction l as [|i l IH]; intros b c Q Hinv El Hb HQ; simpl; [wstep; apply HQ; done|].
  assert (i ∈ timeline c) as Hi by (rewrite El; apply list_elem_of_here).
  wstep. apply (wpm_load i (nodes c !!! i)); [eapply tinv_alive; done|].
  destruct (_ || _) eqn:Econd; [|wstep; apply HQ; done].
  assert (unneeded (nodes c !!! i) = true) as Hu.
  { destruct (unneeded (nodes c !!! i)) eqn:Hu; [done|]. exfalso. rewrite andb_false_r in Econd. simpl in Econd.
    apply Z.ltb_lt in Econd. apply (t_unneeded _ _ _ _ Hinv i Hi) in Hu.
    assert (i ∈ kept [] c) as Hk by (unfold kept; simpl; rewrite elem_of_nil in Hu; rewrite elem_of_app; tauto).
    specialize (Hb i Hk). lia. }
  assert (i ∉ kept [] c) as Hk.
  { unfold kept. simpl. rewrite elem_of_app. intros Hx.
    assert (unneeded (nodes c !!! i) = false); [|congruence]. apply (t_unneeded _ _ _ _ Hinv i Hi). tauto. }
  rewrite Hu. wstep. wstep. wstep. unfold kept in Hk. simpl in Hk. apply not_elem_of_app in Hk as [Hk1 Hk2].
  apply (timeline_remove_spec nr T []); [done|done|done|done|]. intros c1 Hinv1 Hp1 Ht1. change (list_del i []) with ([] : list nat) in Hinv1.
  assert (timeline c1 = l) as El1.
  { rewrite Ht1, El, list_del_head; [done|]. pose proof (t_nodup _ _ _ _ Hinv) as HN. rewrite El in HN.
    apply list.NoDup_cons in HN as [? _]. done. }
  assert (kept [] c1 = kept [] c) as Hkk by (unfold kept; rewrite (p_needed _ _ Hp1), (p_pending _ _ Hp1); done).
  apply IH; [done|done| |].
  - rewrite Hkk. intros j Hj. rewrite !lookup_total_alt, (p_nodes _ _ Hp1 j); [rewrite <- lookup_total_alt; auto|].
    left. apply (t_sub _ _ _ _ Hinv1). rewrite Hkk. done.
  - intros c2 Hinv2 Hp2. apply HQ; [done|]. etrans; done.
Qed.

Lemma free_unneeded_spec nr T c Q : 0 <= before_event1 -> tinv nr T [] c ->
  (forall c', tinv nr T [] c' -> prunes c c' -> Q tt c') -> wpm timeline_free_unneeded c Q.
Proof using.
  intros Hb Hinv HQ. unfold timeline_free_unneeded. do 3 wstep.
  eapply wpm_mono; [eapply needed_from_spec; done|]. intros b c' [-> Hbt]. eapply free_loop_spec; done.
Qed.

(** ** A sample *)

(** The node that is made of [current]. *)
Definition made (n : node) : node :=
  let b := set_unpaired n false in if untraced (n_tp n) then b else set_unneeded b false.

Record grows (i : nat) (n : node) (c c' : ctx) : Prop := Grows {
  g_nodes : nodes c' = <[i := made n]> (nodes c);
  g_backup : backup c' = backup c;
  g_needed : needed_list c' = needed_list c;
  g_pending : pending_list c' = pending_list c ++ (if untraced (n_tp n) then [] else [i]);
  g_timeline : timeline c' ≡ₚ i :: timeline c;
  g_handled : event_handled c' = event_handled c;
  g_recent : recent_time c' = recent_time c;
  g_tlost : timeline_lost_list c' = timeline_lost_list c;
  g_plost : perins_lost_list c' = perins_lost_list c;
  g_calls : calls c' = calls c
}.

Section Grow.
Context (nr : nat) (T : Z) (c c' : ctx) (n : node) (a r : list nat).
Context (Hinv : tinv nr T [] c) (HT : T <= time n) (H0 : 0 <= time n) (Hseq : seq n < event_handled c).
Context (Hins : (ins n < nr)%nat) (Hun : untraced (n_tp n) = true -> unneeded n = true).
Context (Hg : grows (next c) n c c') (Et : timeline c = a ++ r) (Et' : timeline c' = a ++ next c :: r).
Context (En : next c' = S (next c)).
Context (Ha : forall j, j ∈ a -> lexc (tkey (nodes c !!! j)) (tkey n) < 0).
Context (Hr : forall j, j ∈ r -> lexc (tkey n) (tkey (nodes c !!! j)) < 0).

Lemma grow_fresh : next c ∉ timeline c.
Proof using Hinv. intros Hx. apply (t_fresh _ _ _ _ Hinv) in Hx as [_ Hx]. destruct (Nat.lt_irrefl _ Hx). Qed.

Lemma made_core : core (made n) = core n.
Proof using. clear. unfold made. destruct (untraced _); done. Qed.

Lemma made_unneeded : unneeded (made n) = untraced (n_tp n).
Proof using Hun. unfold made. destruct (untraced (n_tp n)); simpl; auto. Qed.

Lemma grow_old j : j ∈ timeline c -> nodes c' !!! j = nodes c !!! j.
Proof using Hinv Hg.
  intros Hj. rewrite (g_nodes _ _ _ _ Hg), lookup_total_insert_ne; [done|]. intros <-. apply grow_fresh. done.
Qed.

Lemma grow_new : nodes c' !!! next c = made n.
Proof using Hg. rewrite (g_nodes _ _ _ _ Hg), lookup_total_insert_eq. done. Qed.

Lemma grow_elem j : j ∈ timeline c' <-> j = next c \/ j ∈ timeline c.
Proof using Hg. rewrite (g_timeline _ _ _ _ Hg), elem_of_cons. done. Qed.

Lemma grow_kept : kept [] c' = kept [] c ++ (if untraced (n_tp n) then [] else [next c]).
Proof using Hg. unfold kept. rewrite (g_needed _ _ _ _ Hg), (g_pending _ _ _ _ Hg). simpl. rewrite app_assoc. done. Qed.

Lemma grow_one j : j ∈ (if untraced (n_tp n) then [] else [next c]) <-> untraced (n_tp n) = false /\ j = next c.
Proof using.
  clear. destruct (untraced _); [rewrite elem_of_nil|rewrite list_elem_of_singleton]; [|tauto].
  split; [done|]. intros [? _]. done.
Qed.

Lemma grow_core l : (forall j, j ∈ l -> j ∈ timeline c) -> same_core (nodes c) (nodes c') l.
Proof using Hinv Hg. intros Hl j Hj. rewrite grow_old; auto. Qed.

Lemma grow_kept_old j : j ∈ needed_list c \/ j ∈ pending_list c -> j ∈ timeline c.
Proof using Hinv. intros Hj. apply (t_sub _ _ _ _ Hinv). unfold kept. simpl. rewrite elem_of_app. done. Qed.

Lemma grow_flags j : j ∈ timeline c' -> unneeded (nodes c' !!! j) = false <->
  j ∈ needed_list c' \/ j ∈ pending_list c' \/ (j ∈ [] /\ need_backup (nodes c' !!! j) = true).
Proof using Hinv Hg Hun.
  rewrite (g_needed _ _ _ _ Hg), (g_pending _ _ _ _ Hg), elem_of_app, grow_one. intros [->|Hj]%grow_elem.
  - rewrite grow_new, made_unneeded. split; [tauto|]. rewrite elem_of_nil. intros [Hx|[[Hx|[? _]]|[[] _]]]; [| |done].
    + destruct grow_fresh. auto using grow_kept_old.
    + destruct grow_fresh. auto using grow_kept_old.
  - rewrite grow_old, (t_unneeded _ _ _ _ Hinv j Hj) by done. rewrite elem_of_nil. split; [tauto|].
    intros [?|[[?|[_ ->]]|[[] _]]]; [auto|auto|]. destruct grow_fresh. done.
Qed.

Lemma grow_sorted : StronglySorted (before tkey (nodes c')) (timeline c').
Proof using Hinv Hg Et Et' Ha Hr.
  rewrite Et'. apply sorted_put.
  - rewrite <- Et. eapply sorted_core; [apply core_tkey|apply grow_core; done|apply Hinv].
  - intros j Hj. unfold before. rewrite grow_new, (core_tkey _ _ made_core), grow_old; [auto|]. rewrite Et, elem_of_app. auto.
  - intros j Hj. unfold before. rewrite grow_new, (core_tkey _ _ made_core), grow_old; [auto|]. rewrite Et, elem_of_app. auto.
Qed.

Lemma grow_chron : StronglySorted (earlier (nodes c')) (kept [] c').
Proof using Hinv Hg HT Hun.
  rewrite grow_kept. apply sorted_app. split_and!.
  - eapply sorted_earlier_core; [apply grow_core, Hinv|apply Hinv].
  - destruct (untraced _); repeat constructor.
  - intros x y Hx [_ ->]%grow_one. pose proof (t_sub _ _ _ _ Hinv x Hx) as Hxt.
    unfold earlier. rewrite grow_new, (core_time _ _ made_core), grow_old by done.
    etrans; [apply (t_last _ _ _ _ Hinv x Hxt)|done].
Qed.

Lemma grow_stat :
  let p := if untraced (n_tp n) then 0 else 1 in
  let s := e_size (event n) in
  tl_stat c' = TlStat (tl_new (tl_stat c) + 1) (tl_delete (tl_stat c)) (tl_unneeded (tl_stat c) + (1 - p))
    (tl_pending (tl_stat c) + p) (tl_mem_bytes (tl_stat c) + s) (tl_unneeded_bytes (tl_stat c) + (1 - p) * s)
    (tl_pending_bytes (tl_stat c) + p * s) -> stat_ok c'.
Proof using Hinv Hg Hun.
  clear HT H0 Hseq Hins En. intros p s Es. destruct (t_stat _ _ _ _ Hinv) as (A1 & A2 & A3 & A4 & A5 & A6).
  assert (forall f g : nat -> Z, (forall j, j ∈ timeline c -> f j = g j) ->
    sumz f (timeline c') = f (next c) + sumz g (timeline c)) as Hsum
    by (intros f g Hfg; rewrite (g_timeline _ _ _ _ Hg); simpl; rewrite (sumz_ext f g); done).
  assert (forall j, j ∈ timeline c -> size_of (nodes c') j = size_of (nodes c) j) as Hsz
    by (intros j Hj; unfold size_of; rewrite grow_old; done).
  assert (forall j, j ∈ timeline c -> flag_of (nodes c') j = flag_of (nodes c) j) as Hfl
    by (intros j Hj; unfold flag_of; rewrite grow_old; done).
  assert (flag_of (nodes c') (next c) = 1 - p /\ size_of (nodes c') (next c) = s) as [Hfi Hsi].
  { unfold flag_of, size_of. rewrite grow_new, made_unneeded, (core_size _ _ made_core). unfold p.
    destruct (untraced _); done. }
  unfold stat_ok. rewrite Es. cbn [tl_new tl_delete tl_unneeded tl_pending tl_mem_bytes tl_unneeded_bytes tl_pending_bytes].
  rewrite (Hsum _ (flag_of (nodes c))), (Hsum _ (size_of (nodes c))) by done.
  rewrite (Hsum _ (fun j => flag_of (nodes c) j * size_of (nodes c) j)) by (intros j Hj; rewrite Hfl, Hsz; done).
  rewrite Hfi, Hsi, (g_pending _ _ _ _ Hg), sumz_app, length_app, A6.
  rewrite (sumz_ext (size_of (nodes c')) (size_of (nodes c)) (pending_list c))
    by (intros j Hj; apply Hsz; auto using grow_kept_old).
  split_and!; try lia.
  - rewrite (g_timeline _ _ _ _ Hg). simpl. lia.
  - unfold p. destruct (untraced _); simpl; lia.
  - unfold p. destruct (untraced _); simpl; lia.
Qed.

Lemma tinv_grow : stat_ok c' -> tinv nr (time n) [] c'.
Proof using Hinv HT H0 Hseq Hins Hun Hg Et Et' En Ha Hr.
  intros Hs. destruct Hg. split; auto using grow_flags, grow_sorted, grow_chron.
  - lia.
  - intros j [->|Hj]%grow_elem; [pose proof (t_next _ _ _ _ Hinv); lia|]. apply (t_fresh _ _ _ _ Hinv) in Hj. lia.
  - intros j Hj. rewrite g_nodes0, lookup_insert_is_Some, grow_elem, <- (t_heap _ _ _ _ Hinv) by done.
    destruct (decide (next c = j)) as [->|Hne]; [tauto|]. split; [tauto|]. intros [->|?]; auto.
  - rewrite g_timeline0. apply list.NoDup_cons. split; [apply grow_fresh|apply Hinv].
  - rewrite grow_kept. apply list.NoDup_app. split_and!; [apply Hinv| |].
    + intros j Hj [_ ->]%grow_one. apply grow_fresh, (t_sub _ _ _ _ Hinv), Hj.
    + destruct (untraced _); [apply NoDup_nil_2|apply NoDup_singleton].
  - intros j Hj. apply grow_elem. rewrite grow_kept, elem_of_app, grow_one in Hj.
    destruct Hj as [?|[_ ->]]; [right; apply (t_sub _ _ _ _ Hinv); done|auto].
  - rewrite g_backup0, g_needed0. apply Hinv.
  - rewrite g_backup0. eapply sorted_core; [apply core_bkey|apply grow_core|apply Hinv]. intros j Hj.
    eapply tinv_backup_timeline; done.
  - intros j [->|Hj]%grow_elem; [rewrite grow_new, (core_time _ _ made_core); lia|]. rewrite grow_old by done.
    destruct (t_last _ _ _ _ Hinv j Hj). lia.
  - intros j [->|Hj]%grow_elem; rewrite g_handled0; [rewrite grow_new, (core_seq _ _ made_core); done|].
    rewrite grow_old by done. apply (t_seq _ _ _ _ Hinv j Hj).
  - intros j [->|Hj]%grow_elem; [rewrite grow_new, (core_ins _ _ made_core); done|]. rewrite grow_old by done.
    apply (t_ins _ _ _ _ Hinv j Hj).
  - rewrite g_plost0. apply Hinv.
  - rewrite g_calls0. apply Hinv.
Qed.

End Grow.

Lemma timeline_add_spec nr T c n (Q : add_result -> ctx -> Prop) : tinv nr T [] c -> nodes c !! current = Some n ->
  T <= time n -> 0 <= time n -> (forall i, i ∈ timeline c -> seq (nodes c !!! i) < seq n) -> seq n < event_handled c ->
  (ins n < nr)%nat -> (untraced (n_tp n) = true -> unneeded n = true) ->
  (alloc_ok (seq n) = false -> Q ENOMEM c) ->
  (forall c', alloc_ok (seq n) = true -> tinv nr (time n) [] c' -> grows (next c) n c c' -> Q ADDED c') ->
  wpm (timeline_add current) c Q.
Proof using.
  intros Hinv Hn HT H0 Hsq Hseq Hins Hun HQ1 HQ2. unfold timeline_add. wstep. wstep. wstep.
  apply (wpm_load current n); [done|]. wstep.
  eapply wpm_mono; [apply (locate_spec timeline_node_cmp tkey); [apply timeline_cmp_lex| |apply Hinv]|].
  { intros j Hj. eexists. eapply tinv_alive; done. }
  intros [[a x] r] c' (-> & Et & Ha & Hx & Hr). destruct x as [i|].
  { exfalso. specialize (Hx i eq_refl). assert (i ∈ timeline c) as Hi
      by (rewrite Et; simpl; apply elem_of_app; right; apply list_elem_of_here).
    specialize (Hsq i Hi). unfold tkey in Hx. injection Hx as _ _ Hx. lia. }
  simpl in Et. unfold timeline_node_new. wstep. wstep. apply (wpm_load current n); [done|].
  destruct (alloc_ok (seq n)) eqn:Eal; [|do 2 wstep; auto]. do 6 wstep. wstep.
  assert (forall c', timeline c' = a ++ next c :: r -> grows (next c) n c c' -> next c' = S (next c) -> stat_ok c' ->
    Q ADDED c') as HQ.
  { intros c' Et' Hg Hnx Hs. apply HQ2; [done| |done]. eapply (tinv_grow nr T c c' n a r); done. }
  assert (forall c', nodes c' = <[next c := made n]> (nodes c) -> backup c' = backup c -> needed_list c' = needed_list c ->
    pending_list c' = pending_list c ++ (if untraced (n_tp n) then [] else [next c]) ->
    timeline c' = a ++ next c :: r -> event_handled c' = event_handled c -> recent_time c' = recent_time c ->
    timeline_lost_list c' = timeline_lost_list c -> perins_lost_list c' = perins_lost_list c ->
    calls c' = calls c -> grows (next c) n c c') as Hg.
  { intros c' ? ? ? ? Et' ? ? ? ? ?. split; try done. rewrite Et', Et. symmetry. apply Permutation_middle. }
  destruct (untraced (n_tp n)) eqn:Eu; cbn [negb] in *.
  - assert (unneeded (set_unpaired n false) = true) as -> by (apply Hun; done). do 8 wstep.
    apply HQ; [done| |done|]; [apply Hg; try done; simpl; [unfold made; rewrite Eu; done|rewrite app_nil_r; done]|].
    eapply grow_stat; [done| |apply Hg; try done; simpl; [unfold made; rewrite Eu; done|rewrite app_nil_r; done]|].
    + intros _. apply Hun. done.
    + rewrite Eu. simpl. f_equal; lia.
  - repeat wstep. cbn [unneeded set_unneeded]. repeat wstep.
    apply HQ; [done| |done|]; [apply Hg; try done; simpl; unfold made; rewrite Eu; done|].
    eapply grow_stat; [done| |apply Hg; try done; simpl; unfold made; rewrite Eu; done|].
    + rewrite Eu. done.
    + rewrite Eu. simpl. f_equal; lia.
Qed.

Lemma tinv_mono nr T T' h c : T <= T' -> tinv nr T h c -> tinv nr T' h c.
Proof using. intros HT []. split; try done. intros i Hi. destruct (t_last i Hi). lia. Qed.

(** The local variable is not part of the state. *)
Lemma tinv_off nr T h c m t k : (forall i, i <> current -> m !! i = nodes c !! i) -> event_handled c <= k ->
  tinv nr T h c -> tinv nr T h (set_handled (set_nodes (set_recent c t) m) k).
Proof using.
  intros Hm Hk Hinv. assert (tinv nr T h (set_handled c k)) as Hinv'.
  { destruct Hinv. split; try done. intros i Hi. specialize (t_seq i Hi). simpl. lia. }
  eapply tinv_eqv; [|exact Hinv']. split_and!; try done. intros i Hi. simpl. rewrite Hm; done.
Qed.

(** The state between two events. *)
Definition rest (nr : nat) (T : Z) (c : ctx) : Prop := tinv nr T [] c /\ nodes c !! current = None.

Lemma rest_eqv nr T c c' : eqv c c' -> nodes c' !! current = nodes c !! current -> rest nr T c -> rest nr T c'.
Proof using. intros He Hc [Hinv Hn]. split; [eapply tinv_eqv; done|congruence]. Qed.

Lemma current_apart nr T h c : tinv nr T h c -> current ∉ timeline c.
Proof using. intros Hinv Hx. apply (t_fresh _ _ _ _ Hinv) in Hx. unfold current in Hx. lia. Qed.

Lemma shrinks_rest nr T c c' : rest nr T c -> tinv nr T [] c' -> shrinks c c' -> rest nr T c'.
Proof using.
  intros [Hinv Hn] Hinv' Hs. split; [done|]. rewrite (s_same _ _ Hs); [done|]. intros Hb.
  apply (current_apart _ _ _ _ Hinv). apply (tinv_backup_timeline _ _ _ _ _ Hinv). done.
Qed.

Lemma prunes_rest nr T c c' : rest nr T c -> tinv nr T [] c' -> prunes c c' -> rest nr T c'.
Proof using. intros [Hinv Hn] Hinv' Hp. split; [done|]. rewrite (p_nodes _ _ Hp); auto. Qed.

Context (Hbefore : 0 <= before_event1).

(** What is done with [current]. *)
Lemma timeline_sample_spec nr T c n Q : tinv nr T [] c -> nodes c !! current = Some n ->
  T <= time n -> 0 <= time n -> (forall i, i ∈ timeline c -> seq (nodes c !!! i) < seq n) -> seq n < event_handled c ->
  (ins n < nr)%nat -> (untraced (n_tp n) = true -> unneeded n = true) ->
  (forall c', tinv nr (time n) [] c' -> is_Some (nodes c' !! current) -> Q tt c') ->
  wpm (r ← timeline_add current;
       match r with
       | ADDED =>
           c ← get;
           need_free ← pending_loop (S (length (pending_list c))) (time n) (unneeded n);
           if (need_free : bool) then timeline_free_unneeded else ret tt
       | _ => ret tt
       end) c Q.
Proof using Hmode Hbefore.
  intros Hinv Hn HT H0 Hsq Hseq Hins Hun HQ. wstep. eapply timeline_add_spec; try done.
  { intros _. wstep. apply HQ; [apply (tinv_mono nr T); done|eauto]. }
  intros c1 _ Hinv1 Hg1. wstep. wstep. wstep. apply (pending_loop_spec Hmode nr (time n)); [done|lia|].
  intros x c2 Hinv2 Hc2. assert (is_Some (nodes c2 !! current)) as Hs2.
  { rewrite Hc2, (g_nodes _ _ _ _ Hg1), lookup_insert_ne; [eauto|].
    pose proof (t_next _ _ _ _ Hinv). unfold current. lia. }
  destruct x; [|wstep; auto]. apply (free_unneeded_spec nr (time n)); [done|done|]. intros c3 Hinv3 Hp3. apply HQ; [done|].
  rewrite (p_nodes _ _ Hp3); auto.
Qed.

Lemma sample_spec nr T c e Q : rest nr T c -> T <= e_time e -> 0 <= e_time e -> (e_ins e < nr)%nat ->
  (forall c', rest nr (e_time e) c' -> Q tt c') -> wpm (multi_trace_sample e) c Q.
Proof using Hmode Hbefore.
  intros [Hinv Hcur] HT H0 Hins HQ. unfold multi_trace_sample. wstep. wstep.
  set (c0 := if recent_time c <? e_time e then set_recent c (e_time e) else c).
  assert (rest nr (e_time e) c0) as Hrest.
  { eapply (rest_eqv _ _ c); [|unfold c0; destruct (_ <? _); done|].
    - unfold c0. destruct (_ <? _); split_and!; done.
    - split; [apply (tinv_mono nr T); done|done]. }
  assert (tinv nr T [] c0 /\ event_handled c0 = event_handled c /\ nodes c0 = nodes c /\ timeline c0 = timeline c)
    as (Hinv0 & Eh & Enodes & Etl).
  { unfold c0. destruct (_ <? _); split_and!; try done. apply set_recent_spec. done. }
  clearbody c0. destruct (e_evsel e) as [evsel|]; [|wstep; auto].
  destruct (find_tp evsel tp_list 0) as [[[i t] bf]|].
  - destruct (needs i t bf e) as [[[fp bk] rm] t1]. set (k := default _ _). do 6 wstep.
    set (n := Node _ _ _ _ _ _ _ _ _ _ _ _). set (c1 := set_handled _ _).
    assert (tinv nr T [] c1) as Hinv1.
    { unfold c1. replace (set_nodes c0 _) with (set_nodes (set_recent c0 (recent_time c0)) (<[current := n]> (nodes c0))) by
        (destruct c0; done). apply tinv_off; [|simpl; lia|done]. intros j Hj. rewrite lookup_insert_ne; done. }
    assert (nodes c1 !! current = Some n) as Hn1 by apply lookup_insert_eq.
    wstep. assert (forall c2, tinv nr (e_time e) [] c2 -> is_Some (nodes c2 !! current) -> wpm (free current) c2 Q) as Hend.
    { intros c2 Hinv2 [n2 Hn2]. apply (wpm_free _ n2); [done|]. apply HQ. split; [|apply lookup_delete_eq].
      replace (set_nodes c2 _) with
        (set_handled (set_nodes (set_recent c2 (recent_time c2)) (delete current (nodes c2))) (event_handled c2)) by
        (destruct c2; done). apply tinv_off; [|lia|done]. intros j Hj. rewrite lookup_delete_ne; done. }
    rewrite Hmode. wstep. wstep. wstep. apply (wpm_load current n); [done|]. change (time n) with (e_time e).
    destruct (_ && _); [wstep; apply Hend; [apply (tinv_mono nr T); done|eauto]|].
    apply (timeline_sample_spec nr T c1 n); try done.
    + intros j Hj. unfold c1. simpl. rewrite lookup_total_insert_ne.
      * apply (t_seq _ _ _ _ Hinv0 j). unfold c1 in Hj. done.
      * intros <-. apply (current_apart _ _ _ _ Hinv0). done.
    + unfold c1, n. simpl. lia.
    + simpl. intros ->. apply orb_true_r.
  - destruct (decide _); [|wstep; auto]. destruct Hrest as [Hr1 Hr2].
    apply (reclaim_spec nr (tinv nr (e_time e) [])); [done|]. intros c' Hinv' Hs. apply HQ.
    apply (shrinks_rest nr (e_time e) c0); [split; done|done|done].
Qed.

Lemma rest_call nr T c x : x <> Bug -> rest nr T c -> rest nr T (add_call c x).
Proof using. intros Hx [Hinv Hn]. split; [apply add_call_spec|]; done. Qed.

Lemma lost_spec nr T c al i id n s e Q : rest nr T c -> (i < nr)%nat ->
  (forall c', rest nr T c' -> Q tt c') -> wpm (multi_trace_lost al i id n s e) c Q.
Proof using Hmode Hbefore.
  intros Hrest Hi HQ. unfold multi_trace_lost. destruct (_ && _).
  - wstep. wstep. wstep. pose proof (rest_call nr T c (Lost i None) ltac:(done) Hrest) as Hrest1.
    destruct (Hrest1) as [Hinv1 _]. apply (lost_reclaim_spec nr (tinv nr T [])); [done|]. intros c1 Hinv2 Hs.
    pose proof (shrinks_rest _ _ _ _ Hrest1 Hinv2 Hs) as Hrest2.
    rewrite Hmode. apply (free_unneeded_spec nr T); [done|done|]. intros c2 Hinv3 Hp. apply HQ.
    apply (prunes_rest nr T c1); done.
  - destruct al; [|wstep; auto]. destruct Hrest as [Hinv Hn]. destruct lost_ins eqn:E.
    + do 3 wstep. destruct (lookup_lt_is_Some_2 (perins_lost_list c) i) as [l Hl];
        [rewrite (t_lost _ _ _ _ Hinv E); done|].
      apply (wpm_lift l); [done|]. wstep. apply HQ. apply (rest_eqv nr T c); [|done|split; done].
      split_and!; try done. simpl. apply length_insert.
    + wstep. apply HQ. apply (rest_eqv nr T c); [|done|split; done]. split_and!; done.
Qed.

(** ** A run *)

(** Samples come in the order of time, and from known instances. *)
Fixpoint feasible (nr : nat) (T : Z) (l : list input) : Prop :=
  match l with
  | [] => True
  | Sample e :: l => T <= e_time e < 2 ^ 64 /\ (e_ins e < nr)%nat /\ feasible nr (e_time e) l
  | LostEvent _ i _ _ _ _ :: l => (i < nr)%nat /\ feasible nr T l
  end.

Lemma run_spec nr l : forall T c Q, rest nr T c -> 0 <= T < 2 ^ 64 -> feasible nr T l ->
  (forall T' c', T' < 2 ^ 64 -> rest nr T' c' -> Q tt c') -> wpm (run l) c Q.
Proof using Hmode Hbefore.
  induction l as [|x l IH]; intros T c Q Hrest H0 Hf HQ; simpl; [wstep; apply (HQ T); [lia|done]|].
  destruct x; simpl in Hf; wstep.
  - destruct Hf as (HT & Hi & Hf). apply (sample_spec nr T); [done|lia|lia|done|]. intros c' Hrest'.
    apply (IH (e_time e)); try done. lia.
  - destruct Hf as [Hi Hf]. apply (lost_spec nr T); [done|done|]. intros c' Hrest'. apply (IH T); done.
Qed.

Lemma init_rest nr : rest nr 0 (init_ctx nr).
Proof using.
  assert (forall i : nat, i ∉ []) as Hno by (intros i Hi; inversion Hi).
  split; [|apply lookup_empty]. split; unfold kept; simpl; try done; try (apply NoDup_nil_2); try (apply SSorted_nil);
    try (intros i Hi; destruct (Hno i Hi)).
  - lia.
  - intros i _. rewrite lookup_empty. split; [intros [? [=]]|intros Hi; destruct (Hno i Hi)].
  - intros ->. apply length_replicate.
  - intros Hx. inversion Hx.
Qed.

(** ** The end of a run *)

Lemma drain_spec nr T fuel : T < 2 ^ 64 -> forall h c Q, tinv nr T h c -> (length (pending_list c) < fuel)%nat ->
  (forall h' c', tinv nr T h' c' -> pending_list c' = [] ->
     nodes c' !! current = nodes c !! current -> Q tt c') ->
  wpm (drain_pending fuel) c Q.
Proof using.
  intros HT. induction fuel as [|fuel IH]; intros h c Q Hinv Hf HQ; [lia|]. cbn [drain_pending]. wstep.
  apply (first_pending_spec nr T h); [done| |].
  - intros Hd. wstep. apply (HQ h); try done. destruct (pending_list c) as [|i l] eqn:E; [done|]. exfalso.
    assert (i ∈ timeline c) as Ht by (eapply tinv_kept_timeline; [done|left; rewrite E; apply list_elem_of_here]).
    specialize (Hd i l eq_refl). simpl in Hd. destruct (t_last _ _ _ _ Hinv i Ht). lia.
  - intros i c1 Hinv1 Hp1. rewrite (o_pending _ _ _ Hp1) in Hf. simpl in Hf. apply (IH (h ++ [i])); [done|lia|].
    intros h' c2 Hinv2 Hp2 Hc2. apply (HQ h'); [done|done|]. rewrite Hc2. apply (o_same _ _ _ Hp1).
    intros <-. apply (current_apart _ _ _ _ Hinv1). eapply tinv_kept_timeline; [done|]. right.
    rewrite elem_of_app. right. apply list_elem_of_here.
Qed.

Lemma timeline_remove_all_spec nr T l : forall h c Q, tinv nr T h c -> timeline c = l ->
  needed_list c = [] -> pending_list c = [] ->
  (forall h' c', tinv nr T h' c' -> timeline c' = [] -> prunes c c' -> Q tt c') ->
  wpm (timeline_remove_all l) c Q.
Proof using.
  induction l as [|i l IH]; intros h c Q Hinv El Hn Hp HQ; simpl; [wstep; apply (HQ h); done|]. wstep.
  apply (timeline_remove_spec nr T h); [done|rewrite El; apply list_elem_of_here| | |].
  - rewrite Hn. apply not_elem_of_nil.
  - rewrite Hp. apply not_elem_of_nil.
  - intros c1 Hinv1 Hp1 Ht1. apply (IH (list_del i h)); [done| | | |].
    + rewrite Ht1, El, list_del_head; [done|]. pose proof (t_nodup _ _ _ _ Hinv) as HN. rewrite El in HN.
      apply list.NoDup_cons in HN as [? _]. done.
    + rewrite (p_needed _ _ Hp1). done.
    + rewrite (p_pending _ _ Hp1). done.
    + intros h' c2 Hinv2 Ht2 Hp2. apply (HQ h'); [done|done|]. etrans; done.
Qed.

Lemma flush_spec nr T c Q : rest nr T c -> T < 2 ^ 64 ->
  (forall h c', tinv nr T h c' -> nodes c' !! current = None -> timeline c' = [] -> pending_list c' = [] -> backup c' = [] ->
     needed_list c' = [] -> Q tt c') ->
  wpm multi_trace_flush c Q.
Proof using Hmode.
  intros Hrest HT HQ. unfold multi_trace_flush. wstep.
  destruct (Hrest) as [Hinv _]. apply (handle_remaining_spec nr (tinv nr T [])); [done|]. intros c1 Hinv1 Hs1 _.
  pose proof (shrinks_rest _ _ _ _ Hrest Hinv1 Hs1) as [_ Hn1]. do 3 wstep.
  apply (drain_spec nr T _ HT []); [done|lia|]. intros h c2 Hinv2 Hp2 Hc2.
  assert (nodes c2 !! current = None) as Hn2 by congruence.
  wstep. apply (backup_exit_spec nr (tinv nr T h)); [done|]. intros c3 Hinv3 Hs3 Hb3 _. do 2 wstep.
  assert (needed_list c3 = []) as Hnd3 by (apply Permutation_nil_r; rewrite <- Hb3; symmetry; apply Hinv3).
  assert (pending_list c3 = []) as Hp3 by (rewrite (s_pending _ _ Hs3); done).
  apply (timeline_remove_all_spec nr T (timeline c3) h); try done. intros h' c4 Hinv4 Ht4 Hp4. destruct Hp4.
  apply (HQ h'); try congruence. rewrite p_nodes0 by auto. rewrite (s_same _ _ Hs3); [done|]. intros Hb.
  apply (current_apart _ _ _ _ Hinv2). eapply tinv_backup_timeline; done.
Qed.

Lemma rest_heap nr T c i : rest nr T c -> is_Some (nodes c !! i) <-> i ∈ timeline c.
Proof using.
  intros [Hinv Hn]. destruct (decide (i = current)) as [->|Hne]; [|apply (t_heap _ _ _ _ Hinv); done].
  rewrite Hn. split; [intros [? [=]]|]. intros Hx. destruct (current_apart _ _ _ _ Hinv Hx).
Qed.

End Timeline.

(** ** Properties *)

(** C6: with --detail, for samples that come in the order of time and any lost
    events in between, the pairing engine never uses or frees an event that is
    already freed (the run has a result), never finds an event it wants to drop
    still in use, every allocated event is on the timeline, and the events that
    are not marked as unneeded are the ones that wait in the backup tree or in
    the pending list. *)
Theorem multi_trace_safe `{Opts} nr l : need_timeline = true -> 0 <= before_event1 -> feasible nr 0 l ->
  exists c, run l (init_ctx nr) = Some (tt, c) /\ (Bug ∉ calls c) /\
    (forall i, is_Some (nodes c !! i) <-> i ∈ timeline c) /\
    (forall i n, nodes c !! i = Some n -> unneeded n = false <-> i ∈ backup c \/ i ∈ pending_list c).
Proof.
  intros Hmode Hb Hf. apply wpm_run, (run_spec Hmode Hb nr l 0); [apply init_rest|done|done|].
  intros T c _ Hrest. pose proof (fun i => rest_heap nr T c i Hrest) as Hheap. destruct Hrest as [Hinv _].
  split_and!; [apply Hinv|done|]. intros i n Hi. assert (i ∈ timeline c) as Ht by (apply Hheap; eauto).
  pose proof (t_unneeded _ _ _ _ Hinv i Ht) as Hu. rewrite (lookup_total_correct _ _ _ Hi), elem_of_nil in Hu.
  rewrite Hu, (t_backup _ _ _ _ Hinv). tauto.
Qed.

(** The statistics that SIGUSR1 prints are true at any point of such a run:
    created minus deleted events, unneeded events, pending events and the bytes
    of each are the counts and sums over the nodes that exist. *)
Theorem timeline_statistics `{Opts} nr l : need_timeline = true -> 0 <= before_event1 -> feasible nr 0 l ->
  exists c, run l (init_ctx nr) = Some (tt, c) /\ stat_ok c.
Proof.
  intros Hmode Hb Hf. apply wpm_run, (run_spec Hmode Hb nr l 0); [apply init_rest|done|done|].
  intros T c _ [Hinv _]. apply Hinv.
Qed.

(** C28: the end of such a run returns and frees every event: no node is left on
    the heap, the trees and lists are empty, and as many events were deleted as
    were created. *)
Theorem multi_trace_flush_frees `{Opts} nr l : need_timeline = true -> 0 <= before_event1 -> feasible nr 0 l ->
  exists c, (run l;; multi_trace_flush) (init_ctx nr) = Some (tt, c) /\ nodes c = ∅ /\
    timeline c = [] /\ backup c = [] /\ needed_list c = [] /\ pending_list c = [] /\
    tl_delete (tl_stat c) = tl_new (tl_stat c) /\ tl_mem_bytes (tl_stat c) = 0 /\ tl_unneeded (tl_stat c) = 0.
Proof.
  intros Hmode Hb Hf. apply wpm_run. wstep. apply (run_spec Hmode Hb nr l 0); [apply init_rest|done|done|].
  intros T c HT Hrest. apply (flush_spec Hmode nr T); [done|done|]. intros h c' Hinv Hn Ht Hp Hbk Hnd.
  destruct (t_stat _ _ _ _ Hinv) as (A1 & A2 & _ & A4 & _ & _). rewrite Ht in A1, A2, A4. simpl in *.
  split_and!; try done; [|lia]. apply map_empty. intros i. destruct (decide (i = current)) as [->|Hne]; [done|].
  apply eq_None_not_Some. rewrite (t_heap _ _ _ _ Hinv i Hne), Ht. apply not_elem_of_nil.
Qed.

(** *** Witnesses *)

(** Two -e options, the first with an untraced event; details from 20ns before
    to 30ns after. *)
Definition demo_opts : Opts := {|
  tp_list := [[Tp 1 11 false; Tp 3 13 true]; [Tp 2 12 false]];
  need_timeline := true; nested := false; impl_based_on_call := false; cycle := false; order := true;
  before_event1 := 20; after_event2 := 30; greater_than := 0; lost_ins := false;
  object_find := fun _ _ => true; remaining_break := fun _ => false; alloc_ok := fun _ => true;
  ins_key := Z.of_nat; get_key := fun _ _ => None; get_role := fun _ _ => None;
  sched_wakeup_unnecessary := fun _ _ => false; extra_evsel := None; extra_pid := fun _ => 0
|}.

Definition demo_inputs : list input :=
  [Sample (Ev 100 (Some 11) 0 64 1); Sample (Ev 105 (Some 13) 1 48 2); Sample (Ev 120 (Some 12) 0 64 3);
   LostEvent true 1 7 2 130 140; Sample (Ev 150 (Some 11) 1 64 4); Sample (Ev 400 (Some 12) 1 64 5);
   Sample (Ev 500 (Some 13) 1 48 6)].

Lemma demo_feasible : feasible 2 0 demo_inputs.
Proof. cbn. lia. Qed.

Lemma multi_trace_safe_witness :
  exists c, run (opts := demo_opts) demo_inputs (init_ctx (opts := demo_opts) 2) = Some (tt, c) /\ (Bug ∉ calls c) /\
    (forall i, is_Some (nodes c !! i) <-> i ∈ timeline c) /\
    (forall i n, nodes c !! i = Some n -> unneeded n = false <-> i ∈ backup c \/ i ∈ pending_list c).
Proof. apply (multi_trace_safe (H := demo_opts) 2 demo_inputs); [reflexivity|cbn; lia|exact demo_feasible]. Defined.

Lemma timeline_statistics_witness :
  exists c, run (opts := demo_opts) demo_inputs (init_ctx (opts := demo_opts) 2) = Some (tt, c) /\ stat_ok c.
Proof. apply (timeline_statistics (H := demo_opts) 2 demo_inputs); [reflexivity|cbn; lia|exact demo_feasible]. Defined.

Lemma multi_trace_flush_frees_witness :
  exists c, (run (opts := demo_opts) demo_inputs;; multi_trace_flush (opts := demo_opts)) (init_ctx (opts := demo_opts) 2) =
    Some (tt, c) /\ nodes c = ∅ /\
    timeline c = [] /\ backup c = [] /\ needed_list c = [] /\ pending_list c = [] /\
    tl_delete (tl_stat c) = tl_new (tl_stat c) /\ tl_mem_bytes (tl_stat c) = 0 /\ tl_unneeded (tl_stat c) = 0.
Proof. apply (multi_trace_flush_frees (H := demo_opts) 2 demo_inputs); [reflexivity|cbn; lia|exact demo_feasible]. Defined.

(** What the engine calls in that run. *)
Example demo_calls :
  (fun p => calls p.2) <$> (run (opts := demo_opts) demo_inputs) (init_ctx (opts := demo_opts) 2) =
  Some [Two 1 (Some 2) 0 1 (Some 3) (Some (Some 1%nat)); Lost 1 (Some (LostNode 1 false 130 140 7 2));
        Two 1 (Some 2) 1 4 (Some 5) (Some (Some 4%nat))].
Proof. vm_compute. reflexivity. Qed.

End MultiSafe.
