(* ===== verification/MultiPlain.v ===== *)
(** * The pairing engine without a timeline

    Without --detail an event that waits is a copy in [backup], on the list of
    its instance.  The copies are exactly the allocated nodes, their statistics
    are right, and the list of each instance is in order of time. *)

From stdpp Require Import sorting.
From S2P Require Import Prelude Rblist MultiTrace MultiProof MultiOps MultiInv MultiSafe.
Import MultiTrace.

Module MultiPlain.

(** ** The lists of the instances *)

Lemma concat_del i (L : list (list nat)) : concat (list_del i <$> L) = list_del i (concat L).
Proof. induction L as [|l L IH]; simpl; [done|]. rewrite list_del_app. f_equal. done. Qed.

Lemma concat_insert (L : list (list nat)) k l i : L !! k = Some l -> concat (<[k := l ++ [i]]> L) ≡ₚ i :: concat L.
Proof.
  revert k. induction L as [|l' L IH]; intros k Hk; [done|]. destruct k as [|k]; simpl in *.
  - injection Hk as ->. rewrite <- app_assoc. simpl. symmetry. apply Permutation_middle.
  - rewrite (IH k Hk). symmetry. apply Permutation_middle.
Qed.

Lemma elem_of_concat (L : list (list nat)) i : i ∈ concat L <-> exists l, l ∈ L /\ i ∈ l.
Proof. rewrite list_elem_of_In, in_concat. setoid_rewrite list_elem_of_In. done. Qed.

Lemma elem_of_insert {A} (L : list A) k x y : y ∈ <[k := x]> L -> y = x \/ y ∈ L.
Proof.
  intros [j Hj]%list_elem_of_lookup. apply list_lookup_insert_Some in Hj as [(_ & -> & _)|[_ Hj]]; [by left|right].
  apply list_elem_of_lookup. eauto.
Qed.

Section Plain.
Context `{opts : Opts}.

Definition bstat_ok (c : ctx) : Prop :=
  b_new (bk_stat c) - b_delete (bk_stat c) = Z.of_nat (length (backup c)) /\
  b_mem_bytes (bk_stat c) = sumz (size_of (nodes c)) (backup c).

Record pinv (nr : nat) (T : Z) (c : ctx) : Prop := Pinv {
  p_next : (0 < next c)%nat;
  p_fresh : forall i, i ∈ backup c -> (0 < i < next c)%nat;
  p_heap : forall i, i <> current -> is_Some (nodes c !! i) <-> i ∈ backup c;
  p_nodup : NoDup (backup c);
  p_perins : concat (perins_list c) ≡ₚ backup c;
  p_len : length (perins_list c) = nr;
  p_sorted : StronglySorted (before bkey (nodes c)) (backup c);
  p_chron : forall l, l ∈ perins_list c -> StronglySorted (earlier (nodes c)) l;
  p_last : forall i, i ∈ backup c -> 0 <= time (nodes c !!! i) <= T;
  p_lost : lost_ins = true -> length (perins_lost_list c) = nr;
  p_bug : Bug ∉ calls c;
  p_timeline : timeline c = [];
  p_pending : pending_list c = [];
  p_stat : bstat_ok c
}.

(** Contexts with the same copies. *)
Definition peqv (c c' : ctx) : Prop :=
  (forall i, i <> current -> core <$> nodes c' !! i = core <$> nodes c !! i) /\
  next c' = next c /\ backup c' = backup c /\ perins_list c' = perins_list c /\ bk_stat c' = bk_stat c /\
  length (perins_lost_list c') = length (perins_lost_list c) /\ (Bug ∈ calls c' -> Bug ∈ calls c) /\
  timeline c' = timeline c /\ pending_list c' = pending_list c.

Lemma current_copy nr T c : pinv nr T c -> current ∉ backup c.
Proof. intros Hinv Hx. apply (p_fresh _ _ _ Hinv) in Hx. unfold current in Hx. lia. Qed.

Lemma pinv_list nr T c l i : pinv nr T c -> l ∈ perins_list c -> i ∈ l -> i ∈ backup c.
Proof. intros Hinv Hl Hi. rewrite <- (p_perins _ _ _ Hinv). apply elem_of_concat. eauto. Qed.

Lemma pinv_peqv nr T c c' : peqv c c' -> pinv nr T c -> pinv nr T c'.
Proof.
  intros (Hc & E1 & E2 & E3 & E4 & E5 & E6 & E7 & E8) Hinv.
  assert (same_core (nodes c) (nodes c') (backup c)) as Hs.
  { intros i Hi. apply core_lookup, Hc. intros ->. apply (current_copy _ _ _ Hinv Hi). }
  pose proof (fun l H => same_core_sub _ _ (backup c) l H Hs) as Hsl.
  pose proof (fun l i => pinv_list nr T c l i Hinv) as Hli. destruct Hinv.
  split; unfold bstat_ok; rewrite ?E1, ?E2, ?E3, ?E4, ?E5, ?E7, ?E8; auto.
  - intros i Hi. rewrite <- (fmap_is_Some core), Hc, fmap_is_Some by done. auto.
  - eapply sorted_core; [apply core_bkey|exact Hs|done].
  - intros l Hl. eapply sorted_earlier_core; [|auto]. apply Hsl. eauto.
  - intros i Hi. rewrite (core_time _ _ (Hs i Hi)). auto.
  - destruct p_stat0 as [A1 A2]. split; [done|]. rewrite A2. apply sumz_ext. intros i Hi. unfold size_of.
    symmetry. apply core_size, Hs, Hi.
Qed.

Lemma pinv_mono nr T T' c : T <= T' -> pinv nr T c -> pinv nr T' c.
Proof. intros HT []. split; auto. intros i Hi. destruct (p_last0 i Hi). lia. Qed.

Lemma pinv_alive nr T c i : pinv nr T c -> i ∈ backup c -> nodes c !! i = Some (nodes c !!! i).
Proof.
  intros Hinv Hi. apply lookup_lookup_total, (p_heap _ _ _ Hinv); [|done]. intros ->. apply (current_copy _ _ _ Hinv Hi).
Qed.

(** A copy goes. *)
Lemma pinv_delete nr T c c' i : pinv nr T c -> i ∈ backup c ->
  nodes c' = delete i (nodes c) -> next c' = next c -> backup c' = list_del i (backup c) ->
  perins_list c' = list_del i <$> perins_list c -> perins_lost_list c' = perins_lost_list c -> calls c' = calls c ->
  timeline c' = timeline c -> pending_list c' = pending_list c ->
  bk_stat c' = BkStat (b_new (bk_stat c)) (b_delete (bk_stat c) + 1) (b_mem_bytes (bk_stat c) - size_of (nodes c) i) ->
  pinv nr T c'.
Proof.
  intros Hinv Hi En E1 E2 E3 E4 E5 E7 E8 E6.
  assert (forall l, (forall j, j ∈ l -> j <> i) -> same_core (nodes c) (nodes c') l) as Hs.
  { intros l Hl j Hj. rewrite En, lookup_total_delete_ne; [done|]. specialize (Hl j Hj). done. }
  assert (forall l j, j ∈ list_del i l -> j <> i) as Hne by (intros l j Hj; apply elem_of_list_del in Hj as [_ ?]; done).
  destruct Hinv. split; unfold bstat_ok; rewrite ?E1, ?E2, ?E3, ?E4, ?E5, ?E7, ?E8; auto.
  - intros j [Hj _]%elem_of_list_del. auto.
  - intros j Hj. rewrite En, lookup_delete_is_Some, elem_of_list_del, <- p_heap0 by done. split; intros [? ?]; auto.
  - apply nodup_list_del. done.
  - rewrite concat_del, p_perins0. done.
  - rewrite length_fmap. done.
  - eapply sorted_core; [apply core_bkey|apply Hs, Hne|apply sorted_del; done].
  - intros l Hl. apply list_elem_of_fmap in Hl as (l' & -> & Hl').
    eapply sorted_earlier_core; [apply Hs, Hne|]. apply sorted_del. auto.
  - intros j Hj. pose proof (Hne _ _ Hj). apply elem_of_list_del in Hj as [Hj _].
    rewrite En, lookup_total_delete_ne by done. auto.
  - destruct p_stat0 as [A1 A2]. rewrite E6. simpl. split; [rewrite list_del_length by done; lia|].
    rewrite (sumz_ext _ (size_of (nodes c))); [rewrite sumz_del by done; lia|]. intros j Hj. unfold size_of.
    apply core_size, (Hs _ (Hne _) j Hj).
Qed.

(** A copy comes. *)
Lemma pinv_insert nr T c c' i n a r l : pinv nr T c -> i = next c -> 0 <= time n <= T -> T <= time n ->
  perins_list c !! ins n = Some l ->
  nodes c' = <[i := n]> (nodes c) -> next c' = S i -> backup c = a ++ r -> backup c' = a ++ i :: r ->
  perins_list c' = <[ins n := l ++ [i]]> (perins_list c) -> perins_lost_list c' = perins_lost_list c ->
  calls c' = calls c -> timeline c' = timeline c -> pending_list c' = pending_list c ->
  (forall j, j ∈ a -> lexc (bkey (nodes c !!! j)) (bkey n) < 0) ->
  (forall j, j ∈ r -> lexc (bkey n) (bkey (nodes c !!! j)) < 0) ->
  bk_stat c' = BkStat (b_new (bk_stat c) + 1) (b_delete (bk_stat c)) (b_mem_bytes (bk_stat c) + e_size (event n)) ->
  pinv nr T c'.
Proof.
  intros Hinv Hi Ht HT Hl En E1 Eb Eb' E3 E4 E5 E7 E8 Ha Hr E6.
  assert (i ∉ backup c) as Hfresh by (intros Hx; apply (p_fresh _ _ _ Hinv) in Hx; lia).
  assert (forall j, j ∈ backup c -> nodes c' !!! j = nodes c !!! j) as Hold
    by (intros j Hj; rewrite En, lookup_total_insert_ne; [done|]; intros ->; done).
  assert (forall l, (forall j, j ∈ l -> j ∈ backup c) -> same_core (nodes c) (nodes c') l) as Hs
    by (intros l' Hl' j Hj; rewrite Hold; auto).
  assert (nodes c' !!! i = n) as Hnew by (rewrite En, lookup_total_insert_eq; done).
  assert (backup c' ≡ₚ i :: backup c) as Hp by (rewrite Eb', Eb; symmetry; apply Permutation_middle).
  assert (forall j, j ∈ backup c' <-> j = i \/ j ∈ backup c) as Hel by (intros j; rewrite Hp, elem_of_cons; done).
  pose proof (fun l i => pinv_list nr T c l i Hinv) as Hli.
  destruct Hinv. split; unfold bstat_ok; rewrite ?E1, ?E4, ?E5, ?E7, ?E8; auto; try lia.
  - intros j [->|Hj]%Hel; [lia|]. specialize (p_fresh0 j Hj). lia.
  - intros j Hj. rewrite En, lookup_insert_is_Some, Hel, <- p_heap0 by done.
    destruct (decide (i = j)) as [->|Hne]; [tauto|]. split; [tauto|]. intros [?|?]; [congruence|auto].
  - rewrite Hp. apply list.NoDup_cons. done.
  - rewrite E3, Hp, (concat_insert _ _ _ _ Hl), p_perins0. done.
  - rewrite E3, length_insert. done.
  - rewrite Eb'. apply sorted_put.
    + rewrite <- Eb. eapply sorted_core; [apply core_bkey|apply Hs; done|done].
    + intros j Hj. unfold before. rewrite Hnew, Hold; [auto|]. rewrite Eb, elem_of_app. auto.
    + intros j Hj. unfold before. rewrite Hnew, Hold; [auto|]. rewrite Eb, elem_of_app. auto.
  - rewrite E3. intros l' Hl'. assert (l' = l ++ [i] \/ l' ∈ perins_list c) as [->|Hl''].
    { apply elem_of_insert in Hl'. done. }
    + apply sorted_app. assert (l ∈ perins_list c) as Hlin by (apply list_elem_of_lookup; eauto). split_and!.
      * eapply sorted_earlier_core; [apply Hs; eauto|]. auto.
      * repeat constructor.
      * intros x y Hx ->%list_elem_of_singleton. unfold earlier. rewrite Hnew, Hold by eauto.
        destruct (p_last0 x); [eauto|lia].
    + eapply sorted_earlier_core; [apply Hs; eauto|]. auto.
  - intros j [->|Hj]%Hel; [rewrite Hnew; done|]. rewrite Hold by done. auto.
  - destruct p_stat0 as [A1 A2]. rewrite E6, Hp. simpl. split; [lia|].
    replace (size_of (nodes c') i) with (e_size (event n)) by (unfold size_of; rewrite Hnew; done).
    rewrite (sumz_ext (size_of (nodes c')) (size_of (nodes c))); [lia|].
    intros j Hj. unfold size_of. rewrite Hold; done.
Qed.

Context (Hmode : need_timeline = false).

(** The state with what is known of [current]. *)
Definition pst (P : option node -> Prop) (nr : nat) (T : Z) (c : ctx) : Prop :=
  pinv nr T c /\ P (nodes c !! current).

Lemma plain_remove_spec P nr T c i Q : pst P nr T c -> i ∈ backup c ->
  (forall c', pst P nr T c' -> shrinks c c' -> backup c' = list_del i (backup c) -> calls c' = calls c -> Q tt c') ->
  wpm (backup_remove i) c Q.
Proof using Hmode.
  intros [Hinv HP] Hi HQ. pose proof (pinv_alive _ _ _ _ Hinv Hi) as Hl.
  assert (i <> current) as Hcur by (intros ->; apply (current_copy _ _ _ Hinv Hi)).
  unfold backup_remove, perf_event_backup_node_delete. do 3 wstep. apply (wpm_load i (nodes c !!! i)); [done|].
  rewrite Hmode. do 4 wstep. apply (wpm_free i (nodes c !!! i)); [done|]. apply HQ; [split| |done|done].
  - eapply (pinv_delete nr T c _ i); done.
  - simpl. rewrite lookup_delete_ne; done.
  - split; try done; simpl.
    + apply sublist_filter.
    + intros j Hj. rewrite lookup_delete_ne; [done|]. intros ->. done.
    + intros j [Hj Hne]%elem_of_list_del. rewrite lookup_delete_ne; done.
Qed.

Lemma pst_peqv P nr T c c' : peqv c c' -> nodes c' !! current = nodes c !! current -> pst P nr T c -> pst P nr T c'.
Proof using. intros He Hc [Hinv HP]. split; [eapply pinv_peqv; done|]. rewrite Hc. done. Qed.

#[local] Instance plain_engine P nr T : EngineInv nr (pst P nr T).
Proof using Hmode.
  split.
  - intros c [Hinv _]. apply Hinv.
  - intros c [Hinv _] i Hi. eexists. apply (pinv_alive _ _ _ _ Hinv Hi).
  - intros c [Hinv _]. apply Hinv.
  - intros c i Q. apply plain_remove_spec.
  - intros c t k i Hinv Hi. unfold iter_start. rewrite Hmode. cbn [negb]. wstep. done.
  - intros c i b Hp Hi. pose proof (pinv_alive _ _ _ _ (proj1 Hp) Hi) as Hl.
    eapply pst_peqv; [| |exact Hp]; [split_and!; try done|]; simpl.
    + intros j _. destruct (decide (i = j)) as [->|Hne]; [rewrite lookup_insert_eq, Hl|rewrite lookup_insert_ne]; done.
    + apply lookup_insert_ne. intros ->. apply (current_copy _ _ _ (proj1 Hp) Hi).
  - intros c x Hx Hp. eapply pst_peqv; [| |exact Hp]; [split_and!; try done|done]. simpl.
    intros [?|Hb%list_elem_of_singleton]%elem_of_app; [done|]. congruence.
  - intros c t Hp. eapply pst_peqv; [| |exact Hp]; [split_and!; done|done].
  - intros c l p Hlen Hp. eapply pst_peqv; [| |exact Hp]; [split_and!; done|done].
Qed.

(** [current] is the event [n0], up to its flags. *)
Definition is_event (n0 : node) (o : option node) : Prop := exists n, o = Some n /\ core n = core n0.

Lemma is_event_lookup n0 c : is_event n0 (nodes c !! current) ->
  nodes c !! current = Some (nodes c !!! current) /\ core (nodes c !!! current) = core n0.
Proof using. intros (n & Hn & Hc). rewrite (lookup_total_correct _ _ _ Hn). done. Qed.

(** The flags of [current] are not part of the invariant. *)
Lemma pst_current n0 nr T c n' d s : core n' = core n0 -> pst (is_event n0) nr T c ->
  pst (is_event n0) nr T (count_unneeded (set_nodes c (<[current := n']> (nodes c))) d s).
Proof using.
  intros Hn [Hinv _]. split; [|exists n'; split; [apply lookup_insert_eq|done]].
  eapply pinv_peqv; [|exact Hinv]. split_and!; try done. intros j Hj. simpl. rewrite lookup_insert_ne; done.
Qed.

#[local] Instance plain_held n0 nr T : (ins n0 < nr)%nat -> HeldInv nr current (pst (is_event n0) nr T).
Proof using Hmode.
  intros Hins. split.
  - apply plain_engine.
  - intros c [Hinv _]. apply (current_copy _ _ _ Hinv).
  - intros c [_ (n & Hn & _)]. rewrite Hn. eauto.
  - intros c [Hinv _]. apply Hinv.
  - intros c [_ Hc]. apply is_event_lookup in Hc as [_ Hc]. rewrite (core_ins _ _ Hc). done.
  - intros c Hp _. pose proof (is_event_lookup _ _ (proj2 Hp)) as [_ Hc]. apply pst_current; done.
  - intros c Hp. pose proof (is_event_lookup _ _ (proj2 Hp)) as [_ Hc].
    rewrite <- (count_unneeded_0 (set_nodes _ _) 0). apply pst_current; done.
Qed.

Section Current.
Context (n0 : node) (nr : nat) (Hins : (ins n0 < nr)%nat) (H0 : 0 <= time n0).

#[local] Instance current_held : HeldInv nr current (pst (is_event n0) nr (time n0)) := plain_held n0 nr (time n0) Hins.

(** The copy of [current]. *)
Definition copied (n : node) : node := set_unneeded (set_unpaired n false) false.

Lemma plain_findnew_spec c (Q : option nat * bool -> ctx -> Prop) : pst (is_event n0) nr (time n0) c ->
  (alloc_ok (seq n0) = false -> Q (None, false) c) ->
  (forall c', pst (is_event n0) nr (time n0) c' -> advances current c c' -> calls c' = calls c -> lost_same c c' ->
     nodes c' = <[next c := copied (nodes c !!! current)]> (nodes c) ->
     backup c' ≡ₚ next c :: backup c ->
     (forall j, j ∈ backup c -> bkey (nodes c !!! j) <> bkey (nodes c !!! current)) -> Q (Some (next c), true) c') ->
  (forall j, j ∈ backup c -> bkey (nodes c !!! j) = bkey (nodes c !!! current) -> Q (Some j, false) c) ->
  wpm (backup_findnew current) c Q.
Proof using Hmode Hins H0.
  intros [Hinv Hev] HQ0 HQ1 HQ2. destruct (is_event_lookup _ _ Hev) as [Hn Hc].
  set (n := nodes c !!! current) in *. unfold backup_findnew. do 3 wstep. apply (wpm_load current n); [done|]. wstep.
  eapply wpm_mono; [apply (locate_spec backup_cmp bkey)|].
  - apply backup_cmp_lex.
  - intros j Hj. eexists. apply (pinv_alive _ _ _ _ Hinv Hj).
  - apply Hinv.
  - intros [[a x] r] c' (-> & Hb & Ha & Hx & Hr). destruct x as [j|].
    { wstep. apply HQ2; [|auto]. rewrite Hb. simpl. apply elem_of_app. right. apply list_elem_of_here. }
    simpl in Hb. unfold perf_event_backup_node_new. rewrite Hmode. do 2 wstep. apply (wpm_load current n); [done|].
    rewrite (core_seq _ _ Hc). destruct (alloc_ok (seq n0)); [|do 2 wstep; auto]. do 5 wstep.
    destruct (lookup_lt_is_Some_2 (perins_list c) (ins n)) as [l Hl];
      [rewrite (p_len _ _ _ Hinv), (core_ins _ _ Hc); done|].
    apply (wpm_lift l); [done|]. repeat wstep.
    assert (current <> next c) as Hcn by (pose proof (p_next _ _ _ Hinv); unfold current; lia).
    assert (a ++ next c :: r ≡ₚ next c :: backup c) as Hp by (rewrite Hb; symmetry; apply Permutation_middle).
    apply HQ1; try done.
    + split; [|exists n; split; [simpl; rewrite lookup_insert_ne; done|done]].
      eapply (pinv_insert nr (time n0) c _ (next c) (copied n) a r l); try done.
      * simpl. rewrite (core_time _ _ Hc). lia.
      * simpl. rewrite (core_time _ _ Hc). lia.
    + split; simpl; auto.
      * intros j. rewrite Hp, elem_of_cons. intros [->|?]; auto.
      * intros j _ _ Hj. rewrite lookup_insert_ne; [done|lia].
      * rewrite lookup_insert_ne; done.
    + intros j Hj He. apply (lexc_eq (bkey (nodes c !!! j)) (bkey n)) in He as He'.
      rewrite Hb, elem_of_app in Hj. destruct Hj as [Hj|Hj]; [specialize (Ha j Hj); lia|].
      specialize (Hr j Hj). rewrite He in *. lia.
Qed.

(** There is no memory for the copy. *)
Lemma plain_unneeded_spec c (Q : bool * bool -> ctx -> Prop) : pst (is_event n0) nr (time n0) c ->
  (forall c', pst (is_event n0) nr (time n0) c' -> advances current c c' -> Q (false, true) c') ->
  wpm (n ← load current;
       store current (set_unneeded n true);;
       modify (fun c => count_unneeded c 1 (e_size (event n)));;
       ret (false, true)) c Q.
Proof using.
  intros Hp HQ. destruct (is_event_lookup _ _ (proj2 Hp)) as [Hn Hc]. wstep.
  apply (wpm_load current (nodes c !!! current)); [done|]. repeat wstep. apply HQ.
  - apply pst_current; done.
  - apply advances_flags; [rewrite Hn; eauto|done].
Qed.

Lemma plain_tryto_backup_spec c Q : pst (is_event n0) nr (time n0) c ->
  (forall x c', pst (is_event n0) nr (time n0) c' -> advances current c c' ->
     (alloc_ok (seq n0) = true -> backup_result (nodes c !!! current) c c') -> Q x c') ->
  wpm (multi_trace_tryto_backup current) c Q.
Proof using Hmode Hins H0.
  intros Hp HQ. destruct (is_event_lookup _ _ (proj2 Hp)) as [Hn Hc]. set (n := nodes c !!! current) in *.
  pose proof (proj1 Hp) as Hinv. unfold backup_result in HQ.
  unfold multi_trace_tryto_backup. wstep. apply (wpm_load current n); [done|].
  destruct (need_backup n) eqn:Hnb; [|wstep; apply HQ; done].
  assert (next c ∉ backup c) as Hfr by (intros Hx; apply (p_fresh _ _ _ Hinv) in Hx; lia).
  cbn [backup_retry]. wstep. apply plain_findnew_spec; [done| | |].
  { intros Hal. apply plain_unneeded_spec; [done|]. intros c' Hp' Ha'. apply HQ; [done|done|congruence]. }
  { intros c' Hp' Ha' Hc' Hl' En' Hb' Hne. wstep. apply HQ; [done|done|]. intros _. split_and!; [done|done|]. exists (next c).
    rewrite En'. split_and!; [rewrite lookup_total_insert_eq; done|done| |].
    - intros j. rewrite Hb', elem_of_cons. split; [|tauto]. intros [?|Hj]; auto.
    - intros j _ _ Hx. rewrite lookup_total_insert_ne; done. }
  intros j Hj He. wstep. apply (wpm_load current n); [done|]. wstep.
  apply (wpm_load j (nodes c !!! j)); [apply (pinv_alive _ _ _ _ Hinv Hj)|].
  destruct (p_last _ _ _ Hinv j Hj) as [_ Hle]. rewrite (core_time _ _ Hc).
  destruct (Z.ltb_spec (time n0) (time (nodes c !!! j))) as [Hlt|Hge]; [lia|].
  wstep. apply plain_remove_spec with (P := is_event n0) (nr := nr) (T := time n0); [done|done|]. intros c1 Hp1 Hs1 Hb1 Hc1.
  destruct (shrinks_held nr current (pst (is_event n0) nr (time n0)) _ _ Hp Hs1) as [Ha1 Hi1].
  assert (nodes c1 !!! current = n) as Hi1' by (apply lookup_total_correct; congruence).
  assert (forall j', j' ∈ backup c1 -> bkey (nodes c1 !!! j') = bkey (nodes c !!! j')) as Hbk
    by (intros j' Hj'; apply core_bkey, shrinks_core; done).
  assert (forall j', j' ∈ backup c -> bkey (nodes c !!! j') = bkey n -> j' = j) as Huniq
    by (intros j' Hj' He'; apply (sorted_unique bkey (nodes c) (backup c)); [apply Hinv|done|done|]; etrans; [exact He'|symmetry; exact He]).
  wstep. apply plain_findnew_spec; [done| | |].
  - intros Hal. apply plain_unneeded_spec; [done|]. intros c' Hp' Ha'. apply HQ; [done|etrans; done|congruence].
  - intros c2 Hp2 Ha2 Hc2 [Hl2 Hl2'] En2 Hb2 Hne2. wstep. apply HQ; [done|etrans; done|]. intros _.
    split_and!; [congruence|destruct Hs1; split; congruence|]. exists (next c).
    rewrite Hi1' in En2. rewrite En2, (s_next _ _ Hs1).
    split_and!; [rewrite lookup_total_insert_eq; done|done| |].
    + intros j'. rewrite Hb2, elem_of_cons, Hb1, elem_of_list_del, (s_next _ _ Hs1). split; (intros [?|[Hj' Hx]]; [auto|right; split; [done|]]).
      * intros He'. apply Hx, Huniq; done.
      * intros ->. done.
    + intros j' Hj' Hj2 Hne. rewrite lookup_total_insert_ne by done. apply (shrinks_core c c1); [done|].
      rewrite Hb2, elem_of_cons, (s_next _ _ Hs1) in Hj2. tauto.
  - intros j' Hj' He'. exfalso. rewrite Hbk, Hi1' in He' by done. rewrite Hb1 in Hj'.
    apply elem_of_list_del in Hj' as [Hj' Hne]. apply Hne, Huniq; done.
Qed.

End Current.

(** ** A sample *)

(** The state between two events. *)
Definition prest (nr : nat) (T : Z) (c : ctx) : Prop := pst (fun o => o = None) nr T c.

(** The local variable is not part of the state. *)
Lemma pinv_off nr T c c' m t k : c' = set_handled (set_nodes (set_recent c t) m) k ->
  (forall i, i <> current -> m !! i = nodes c !! i) -> pinv nr T c -> pinv nr T c'.
Proof using.
  intros -> Hm Hinv. eapply pinv_peqv; [|exact Hinv]. split_and!; try done. intros i Hi. simpl. rewrite Hm; done.
Qed.

(** What is done with [current]. *)
Lemma plain_current_spec nr n c Q : (ins n < nr)%nat -> 0 <= time n -> pinv nr (time n) c ->
  nodes c !! current = Some n -> (forall c', pst (is_event n) nr (time n) c' -> Q tt c') ->
  wpm (multi_trace_event_lost current;; multi_trace_tryto_call_two current;; multi_trace_tryto_backup current;; ret tt) c Q.
Proof using Hmode.
  intros Hins H0 Hinv Hn HQ. pose proof (plain_held n nr (time n) Hins) as Hheld.
  assert (pst (is_event n) nr (time n) c) as Hp by (split; [done|]; exists n; done).
  wstep. apply (event_lost_spec nr current (pst (is_event n) nr (time n))); [done|]. intros c1 Hp1 _.
  destruct (is_event_lookup _ _ (proj2 Hp1)) as [Hn1 _]. wstep.
  apply (call_two_spec nr current (pst (is_event n) nr (time n)) c1 (nodes c1 !!! current)); [done|done|].
  intros f c2 Hp2 _ _. wstep. apply (plain_tryto_backup_spec n nr); [done|done|done|]. intros x c3 Hp3 _ _. wstep. auto.
Qed.

Lemma plain_sample_spec nr T c e Q : prest nr T c -> T <= e_time e -> 0 <= e_time e -> (e_ins e < nr)%nat ->
  (forall c', prest nr (e_time e) c' -> Q tt c') -> wpm (multi_trace_sample e) c Q.
Proof using Hmode.
  intros [Hinv Hcur] HT H0 Hins HQ. unfold multi_trace_sample. wstep. wstep.
  set (c0 := if recent_time c <? e_time e then set_recent c (e_time e) else c).
  assert (prest nr (e_time e) c0) as Hp0.
  { eapply (pst_peqv _ _ _ c); [unfold c0; destruct (_ <? _); split_and!; done|unfold c0; destruct (_ <? _); done|].
    split; [apply (pinv_mono nr T); done|done]. }
  clearbody c0. destruct (e_evsel e) as [evsel|]; [|wstep; auto].
  destruct (find_tp evsel tp_list 0) as [[[i t] bf]|].
  - destruct (needs i t bf e) as [[[fp bk] rm] t1]. set (k := default _ _). do 6 wstep.
    set (n := Node _ _ _ _ _ _ _ _ _ _ _ _). set (c1 := set_handled _ _).
    assert (pinv nr (time n) c1) as Hinv1.
    { apply (pinv_off nr (e_time e) c0 c1 (<[current := n]> (nodes c0)) (recent_time c0) (event_handled c0 + 1)); [| |apply Hp0].
      - unfold c1. destruct c0. done.
      - intros j Hj. rewrite lookup_insert_ne; done. }
    assert (nodes c1 !! current = Some n) as Hn1 by apply lookup_insert_eq.
    wstep. assert (forall c2, pst (is_event n) nr (time n) c2 -> wpm (free current) c2 Q) as Hend.
    { intros c2 [Hinv2 (n2 & Hn2 & _)]. apply (wpm_free _ n2); [done|]. apply HQ. split; [|apply lookup_delete_eq].
      apply (pinv_off nr (e_time e) c2 _ (delete current (nodes c2)) (recent_time c2) (event_handled c2)); [| |done].
      - destruct c2. done.
      - intros j Hj. rewrite lookup_delete_ne; done. }
    rewrite Hmode. destruct (untraced t).
    + wstep. apply Hend. split; [done|]. exists n. done.
    + apply (plain_current_spec nr n); done.
  - destruct (decide _); [|wstep; auto].
    apply (reclaim_spec nr (prest nr (e_time e))); [done|]. intros c' Hp' _. auto.
Qed.

Lemma plain_lost_spec nr T c al i id n s e Q : prest nr T c -> (i < nr)%nat ->
  (forall c', prest nr T c' -> Q tt c') -> wpm (multi_trace_lost al i id n s e) c Q.
Proof using Hmode.
  intros Hp Hi HQ. pose proof (plain_engine (fun o => o = None) nr T) as He. unfold multi_trace_lost. destruct (_ && _).
  - do 3 wstep. apply (lost_reclaim_spec nr (prest nr T)); [apply (ei_call (EngineInv := He)); done|]. intros c1 Hp1 _.
    rewrite Hmode. wstep. auto.
  - destruct al; [|wstep; auto]. destruct lost_ins eqn:E.
    + do 3 wstep. destruct (lookup_lt_is_Some_2 (perins_lost_list c) i) as [l Hl];
        [rewrite (p_lost _ _ _ (proj1 Hp) E); done|].
      apply (wpm_lift l); [done|]. wstep. apply HQ, (ei_lost (EngineInv := He)); [apply length_insert|done].
    + wstep. apply HQ, (ei_lost (EngineInv := He)); done.
Qed.

Lemma plain_run_spec nr l : forall T c Q, prest nr T c -> 0 <= T -> MultiSafe.feasible nr T l ->
  (forall T' c', prest nr T' c' -> Q tt c') -> wpm (run l) c Q.
Proof using Hmode.
  induction l as [|x l IH]; intros T c Q Hp H0 Hf HQ; simpl; [wstep; eauto|]. destruct x; simpl in Hf; wstep.
  - destruct Hf as (HT & Hi & Hf). apply (plain_sample_spec nr T); [done|lia|lia|done|]. intros c' Hp'.
    apply (IH (e_time e)); try done. lia.
  - destruct Hf as [Hi Hf]. apply (plain_lost_spec nr T); [done|done|]. intros c' Hp'. apply (IH T); done.
Qed.

Lemma init_prest nr : prest nr 0 (init_ctx nr).
Proof using.
  assert (forall i : nat, i ∉ []) as Hno by (intros i Hi; inversion Hi).
  split; [|apply lookup_empty]. split; simpl; try done; try (apply NoDup_nil_2); try (apply SSorted_nil);
    try (intros i Hi; destruct (Hno i Hi)).
  - lia.
  - intros i _. rewrite lookup_empty. split; [intros [? [=]]|intros Hi; destruct (Hno i Hi)].
  - induction nr; simpl; done.
  - apply length_replicate.
  - intros l Hl. apply elem_of_replicate in Hl as [-> _]. constructor.
  - intros ->. apply length_replicate.
  - intros Hx. inversion Hx.
Qed.

Lemma plain_flush_spec nr T c Q : prest nr T c ->
  (forall c', prest nr T c' -> backup c' = [] -> Q tt c') -> wpm multi_trace_flush c Q.
Proof using Hmode.
  intros Hp HQ. unfold multi_trace_flush. wstep.
  apply (handle_remaining_spec nr (prest nr T)); [done|]. intros c1 Hp1 _ _. do 3 wstep.
  rewrite (p_pending _ _ _ (proj1 Hp1)). cbn [length drain_pending]. wstep. unfold multi_trace_first_pending.
  do 2 wstep. rewrite (p_pending _ _ _ (proj1 Hp1)). wstep. wstep. wstep.
  apply (backup_exit_spec nr (prest nr T)); [done|]. intros c2 Hp2 _ Hb2 _. do 2 wstep.
  rewrite (p_timeline _ _ _ (proj1 Hp2)). cbn [timeline_remove_all]. wstep. auto.
Qed.

Lemma prest_heap nr T c i : prest nr T c -> is_Some (nodes c !! i) <-> i ∈ backup c.
Proof using.
  intros [Hinv Hn]. destruct (decide (i = current)) as [->|Hne]; [|apply (p_heap _ _ _ Hinv); done].
  rewrite Hn. split; [intros [? [=]]|]. intros Hx. destruct (current_copy _ _ _ Hinv Hx).
Qed.

(** ** The earliest time that is still needed *)

Lemma first_times_spec c L : (forall l i, l ∈ L -> i ∈ l -> is_Some (nodes c !! i)) ->
  (forall l, l ∈ L -> StronglySorted (earlier (nodes c)) l) -> forall t,
  wpm (first_times L t) c (fun r c' => c' = c /\ (forall t', t = Some t' -> exists r', r = Some r' /\ r' <= t') /\
    forall l i, l ∈ L -> i ∈ l -> exists r', r = Some r' /\ r' <= time (nodes c !!! i)).
Proof using.
  induction L as [|l L IH]; intros Ha Hs t.
  { cbn [first_times]. wstep. split_and!; [done|intros t' ->; eauto with lia|]. intros l i Hl. inversion Hl. }
  assert (forall l i, l ∈ L -> i ∈ l -> is_Some (nodes c !! i)) as Ha' by (intros; eapply Ha; [apply list_elem_of_further|]; done).
  assert (forall l, l ∈ L -> StronglySorted (earlier (nodes c)) l) as Hs' by (intros; apply Hs, list_elem_of_further; done).
  destruct l as [|i l]; cbn [first_times].
  { eapply wpm_mono; [apply IH; done|]. intros r c' (-> & H1 & H2). split_and!; [done|done|].
    intros l' j [->|Hl]%elem_of_cons Hj; [inversion Hj|eauto]. }
  wstep. apply (wpm_load i (nodes c !!! i)).
  { apply lookup_lookup_total, (Ha (i :: l)); apply list_elem_of_here. }
  eapply wpm_mono; [apply IH; done|]. intros r c' (-> & H1 & H2).
  assert (exists r', r = Some r' /\ r' <= time (nodes c !!! i) /\ forall t', t = Some t' -> r' <= t') as (r' & -> & Hr & Ht).
  { destruct t as [t|].
    - destruct (Z.ltb_spec (time (nodes c !!! i)) t);
        (edestruct H1 as (r' & -> & ?); [done|]; exists r'; split_and!; [done|lia|intros t' [= ->]; lia]).
    - edestruct H1 as (r' & -> & ?); [done|]. exists r'. done. }
  split_and!; [done|intros t' ->; eauto|]. intros l' j [->|Hl]%elem_of_cons Hj; [|eauto]. exists r'. split; [done|].
  specialize (Hs (i :: l) (list_elem_of_here _ _)). apply StronglySorted_inv in Hs as [_ Hs]. rewrite list.Forall_forall in Hs.
  apply elem_of_cons in Hj as [->|Hj]; [done|]. specialize (Hs j Hj). unfold earlier in Hs. lia.
Qed.

End Plain.

(** What the end of the computation does with the earliest time found. *)
Lemma minevtime_rest `{Opts} c (m : MT (option Z)) ci (P : Z -> Prop) :
  (forall a b, a <= b -> P b -> P a) ->
  wpm m c (fun t c' => c' = c /\ P (default (2 ^ 64 - 1) t)) ->
  wpm (m ← (t ← m; ret (match t with Some t => if t <? 2 ^ 64 - 1 then t else 2 ^ 64 - 1 | None => 2 ^ 64 - 1 end));
       ret (match ci with
            | Some d => let mintime := if negb (d =? 0) && (u64 (d * 1000000) <? recent_time c)
                                       then u64 (recent_time c - u64 (d * 1000000)) else 0 in
                        if mintime <? m then mintime else m
            | None => m
            end)) c (fun t c' => c' = c /\ P t).
Proof.
  intros HP Hm. wstep. wstep. eapply wpm_mono; [exact Hm|]. intros t c' [-> Ht]. wstep. wstep. split; [done|].
  set (x := match t with Some _ => _ | None => _ end).
  assert (P x) as Hx.
  { unfold x. destruct t as [t|]; [|done]. simpl in Ht. destruct (Z.ltb_spec t (2 ^ 64 - 1)); [done|].
    apply (HP _ t); [lia|done]. }
  clearbody x. destruct ci as [d|]; [|done]. cbv zeta. set (y := if _ && _ then _ else _). clearbody y.
  destruct (Z.ltb_spec y x); [|done]. apply (HP _ x); [lia|done].
Qed.

Lemma minevtime_plain `{Opts} nr T c ci : need_timeline = false -> prest nr T c ->
  wpm (multi_trace_minevtime true ci) c (fun t c' => c' = c /\ forall i n, nodes c !! i = Some n -> t <= time n).
Proof.
  intros Hmode Hp. pose proof (fun i => prest_heap nr T c i Hp) as Hheap. destruct Hp as [Hinv _].
  unfold multi_trace_minevtime. wstep. wstep. rewrite Hmode.
  apply (minevtime_rest c _ ci (fun t => forall i n, nodes c !! i = Some n -> t <= time n)).
  { intros a b Hab Hb i n Hi. specialize (Hb i n Hi). lia. }
  eapply wpm_mono; [apply first_times_spec|].
  - intros l i Hl Hi. apply Hheap. eapply pinv_list; done.
  - apply Hinv.
  - intros r c' (-> & _ & Hr). split; [done|]. intros i n Hi. assert (i ∈ backup c) as Hb by (apply Hheap; eauto).
    rewrite <- (p_perins _ _ _ Hinv) in Hb. apply elem_of_concat in Hb as (l & Hl & Hil).
    destruct (Hr l i Hl Hil) as (r' & -> & Hle). rewrite (lookup_total_correct _ _ _ Hi) in Hle. done.
Qed.

Lemma minevtime_timeline `{Opts} nr T c ci : need_timeline = true -> MultiSafe.rest nr T c ->
  wpm (multi_trace_minevtime true ci) c (fun t c' => c' = c /\ forall i n, nodes c !! i = Some n -> t <= time n).
Proof.
  intros Hmode Hp. pose proof (fun i => MultiSafe.rest_heap nr T c i Hp) as Hheap. destruct Hp as [Hinv _].
  unfold multi_trace_minevtime. wstep. wstep. rewrite Hmode.
  apply (minevtime_rest c _ ci (fun t => forall i n, nodes c !! i = Some n -> t <= time n)).
  { intros a b Hab Hb i n Hi. specialize (Hb i n Hi). lia. }
  pose proof (t_sorted _ _ _ _ Hinv) as Hs. destruct (timeline c) as [|i l] eqn:E.
  - wstep. split; [done|]. intros i n Hi. assert (i ∈ []) as Hx by (apply Hheap; eauto). inversion Hx.
  - wstep. apply (wpm_load i (nodes c !!! i)).
    { apply lookup_lookup_total, Hheap, list_elem_of_here. }
    wstep. split; [done|]. simpl. intros j n Hj. assert (j ∈ i :: l) as Hx by (apply Hheap; eauto).
    rewrite <- (lookup_total_correct _ _ _ Hj). apply elem_of_cons in Hx as [->|Hx]; [done|].
    apply StronglySorted_inv in Hs as [_ Hs]. rewrite list.Forall_forall in Hs. specialize (Hs j Hx).
    unfold before, tkey in Hs. lex.
Qed.

(** ** Properties *)

(** C29: without --detail, for samples that come in the order of time and any
    lost events in between, no freed event is used, the allocated events are
    exactly the ones that wait in the backup tree, each of them once on the list
    of an instance, the statistics are right, and the end of the run frees them
    all. *)
Theorem plain_mode_safe `{Opts} nr l : need_timeline = false -> MultiSafe.feasible nr 0 l ->
  exists c, run l (init_ctx nr) = Some (tt, c) /\
    (forall i, is_Some (nodes c !! i) <-> i ∈ backup c) /\ concat (perins_list c) ≡ₚ backup c /\ bstat_ok c /\
    exists c', multi_trace_flush c = Some (tt, c') /\ nodes c' = ∅ /\ b_delete (bk_stat c') = b_new (bk_stat c').
Proof.
  intros Hmode Hf. apply wpm_run, (plain_run_spec Hmode nr l 0); [apply init_prest|done|done|].
  intros T c Hp. split_and!; [intros i; eapply prest_heap; done|apply Hp|apply Hp|].
  apply wpm_run, (plain_flush_spec Hmode nr T); [done|]. intros c' Hp' Hb.
  destruct (p_stat _ _ _ (proj1 Hp')) as [A1 _]. rewrite Hb in A1. simpl in A1. split; [|lia].
  apply map_empty. intros i. apply eq_None_not_Some. rewrite (prest_heap _ _ _ _ Hp'), Hb. apply not_elem_of_nil.
Qed.

(** In both modes the time that [multi_trace_minevtime] reports (with --than)
    is never later than an event that is still kept, so what other devices drop
    before that time is not needed for it. *)
Theorem minevtime_bound `{Opts} nr l ci : 0 <= before_event1 -> MultiSafe.feasible nr 0 l ->
  exists c t, run l (init_ctx nr) = Some (tt, c) /\ multi_trace_minevtime true ci c = Some (t, c) /\
    forall i n, nodes c !! i = Some n -> t <= time n.
Proof.
  intros Hb Hf. enough (wpm (run l) (init_ctx nr) (fun _ c => wpm (multi_trace_minevtime true ci) c (fun t c' => c' = c /\
    forall i n, nodes c !! i = Some n -> t <= time n))) as Hx.
  { apply wpm_run in Hx as (c & Hc & Hx). unfold wpm in Hx. exists c.
    destruct (multi_trace_minevtime true ci c) as [[t c']|]; [|done]. destruct Hx as [-> Hx]. eauto. }
  destruct need_timeline eqn:Hmode.
  - apply (MultiSafe.run_spec Hmode Hb nr l 0); [apply MultiSafe.init_rest|done|done|]. intros T c _ Hrest.
    apply (minevtime_timeline nr T); done.
  - apply (plain_run_spec Hmode nr l 0); [apply init_prest|done|done|]. intros T c Hrest.
    apply (minevtime_plain nr T); done.
Qed.

(** *** Witnesses *)

Definition plain_opts : Opts := {|
  tp_list := [[Tp 1 11 false; Tp 3 13 true]; [Tp 2 12 false]];
  need_timeline := false; nested := false; impl_based_on_call := false; cycle := false; order := true;
  before_event1 := 0; after_event2 := 0; greater_than := 0; lost_ins := true;
  object_find := fun _ _ => true; remaining_break := fun _ => false; alloc_ok := fun _ => true;
  ins_key := Z.of_nat; get_key := fun _ _ => None; get_role := fun _ _ => None;
  sched_wakeup_unnecessary := fun _ _ => false; extra_evsel := None; extra_pid := fun _ => 0
|}.

Definition plain_inputs : list input :=
  [Sample (Ev 100 (Some 11) 0 64 1); Sample (Ev 120 (Some 12) 0 64 3); LostEvent true 1 7 2 130 140;
   Sample (Ev 150 (Some 11) 1 64 4); Sample (Ev 160 (Some 11) 0 64 5)].

Lemma plain_feasible : MultiSafe.feasible 2 0 plain_inputs.
Proof. cbn. lia. Qed.

Lemma plain_mode_safe_witness :
  exists c, run (opts := plain_opts) plain_inputs (init_ctx (opts := plain_opts) 2) = Some (tt, c) /\
    (forall i, is_Some (nodes c !! i) <-> i ∈ backup c) /\ concat (perins_list c) ≡ₚ backup c /\ bstat_ok c /\
    exists c', multi_trace_flush (opts := plain_opts) c = Some (tt, c') /\ nodes c' = ∅ /\
      b_delete (bk_stat c') = b_new (bk_stat c').
Proof. apply (plain_mode_safe (H := plain_opts) 2 plain_inputs); [reflexivity|exact plain_feasible]. Defined.

Lemma minevtime_bound_witness :
  exists c t, run (opts := plain_opts) plain_inputs (init_ctx (opts := plain_opts) 2) = Some (tt, c) /\
    multi_trace_minevtime (opts := plain_opts) true None c = Some (t, c) /\
    forall i n, nodes c !! i = Some n -> t <= time n.
Proof. apply (minevtime_bound (H := plain_opts) 2 plain_inputs None); [cbn; lia|exact plain_feasible]. Defined.

End MultiPlain.
