(* ===== verification/MultiPair.v ===== *)
(** * The pairs that the engine finds

    A specification without trees and without memory: the partner of an event
    is the last event before it with the same key that may be a first one,
    unless an event that looked for its partner came in between.  Both modes of
    the engine call [two] for exactly these pairs, in the order of the second
    events. *)

From stdpp Require Import sorting.
From S2P Require Import Prelude Rblist MultiTrace MultiProof MultiOps MultiInv MultiSafe MultiPlain.
Import MultiTrace.

Module MultiPair.

(** ** Specification *)

(** What an event is for the pairing: [r_fp] it looks for its partner, [r_bk] it
    may be the partner of a later one. *)
Record role := Role { r_key : Z; r_time : Z; r_tp : Z; r_tag : Z; r_fp : bool; r_bk : bool }.

Fixpoint partner (k : Z) (hist : list role) : option role :=
  match hist with
  | [] => None
  | f :: hist =>
      if r_key f =? k then if r_bk f then Some f else if r_fp f then None else partner k hist
      else partner k hist
  end.

Section Pairs.
Context `{opts : Opts}.

Definition pair_of (hist : list role) (x : role) : list call :=
  if r_fp x then
    match partner (r_key x) hist with
    | Some f => if object_find (r_tp f) (Some (r_tp x)) && (r_time f <? r_time x)
                then [Two (r_tp f) (Some (r_tp x)) (r_key x) (r_tag f) (Some (r_tag x)) None] else []
    | None => []
    end
  else [].

(** The calls for the events [l] after the history [hist]. *)
Fixpoint pairs (hist : list role) (l : list role) : list call :=
  match l with [] => [] | x :: l => pair_of hist x ++ pairs (x :: hist) l end.

(** *** What the options say of an event

    The tracepoints of all -e options in their order, with the number of the option. *)
Definition numbered : list (nat * tp) := concat (imap (fun i l => pair i <$> l) tp_list).

(** The first of them with the selector of the event. *)
Definition traced_as (evsel : Z) : option (nat * tp) := find (fun '(_, t) => tp_evsel t =? evsel) numbered.

(** [role=EXPR]: bit 0, the event may be event1; bit 1, it may be event2 (the help of
    the option in monitor.c); without it the event may be both. *)
Definition allows (bit : Z) (t : tp) (e : ev) : bool :=
  match get_role t e with Some r => Z.odd (Z.shiftr r bit) | None => true end.

(** An event is an event2 of the events of earlier options, and an event1 for later
    ones; with --cycle the options form a circle. A wake-up that the scheduler makes
    unnecessary starts nothing. *)
Definition as_event2 (i : nat) (t : tp) (e : ev) : bool := allows 1 t e && (cycle || bool_decide (0 < i)%nat).

Definition as_event1 (i : nat) (t : tp) (e : ev) : bool :=
  allows 0 t e && (if decide (S i = length tp_list) then cycle else negb (sched_wakeup_unnecessary t e)).

(** The role of an event; [None]: it takes no part. *)
Definition classify (e : ev) : option role :=
  '(i, t) ← e_evsel e ≫= traced_as;
  if untraced t then None
  else Some (Role (default (ins_key (e_ins e)) (get_key t e)) (e_time e) (tp_id t) (e_tag e) (as_event2 i t e) (as_event1 i t e)).

(** A call without the place where its details start. *)
Definition erase (x : call) : call :=
  match x with Two a b k t1 t2 _ => Two a b k t1 t2 None | x => x end.

Lemma pairs_app hist a b : pairs hist (a ++ b) = pairs hist a ++ pairs (rev a ++ hist) b.
Proof.
  revert hist. induction a as [|x a IH]; intros hist; simpl; [done|]. rewrite IH, <- !app_assoc. done.
Qed.

(** ** What waits *)

Definition role_of (n : node) : role :=
  Role (key n) (time n) (tp_id (n_tp n)) (e_tag (event n)) (need_find_prev n) (need_backup n).

Definition sig_of (n : node) : Z * Z * Z := (time n, tp_id (n_tp n), e_tag (event n)).
Definition sig (x : role) : Z * Z * Z := (r_time x, r_tp x, r_tag x).

Definition waits (c : ctx) (k : Z) (v : Z * Z * Z) : Prop :=
  exists j, j ∈ backup c /\ key (nodes c !!! j) = k /\ sig_of (nodes c !!! j) = v.

(** [backup] holds the partners of what may come. *)
Definition paired (hist : list role) (c : ctx) : Prop :=
  forall k v, waits c k v <-> sig <$> partner k hist = Some v.

Lemma core_sig n n' : core n = core n' -> sig_of n = sig_of n' /\ key n = key n'.
Proof. unfold core, sig_of. intros [=]. split; congruence. Qed.

Lemma waits_frame c c' : backup c' = backup c -> (forall j, j ∈ backup c -> core (nodes c' !!! j) = core (nodes c !!! j)) ->
  forall k v, waits c' k v <-> waits c k v.
Proof.
  intros Hb Hc k v. unfold waits. rewrite Hb. split; intros (j & Hj & Hk & Hv); exists j; split; try done;
    destruct (core_sig _ _ (Hc j Hj)) as [A B]; split; congruence.
Qed.

Lemma paired_frame hist c c' : backup c' = backup c ->
  (forall j, j ∈ backup c -> core (nodes c' !!! j) = core (nodes c !!! j)) -> paired hist c -> paired hist c'.
Proof. intros Hb Hc Hp k v. rewrite (waits_frame c c') by done. apply Hp. Qed.

Context (Hnested : nested = false) (Hcall : impl_based_on_call = false).

Lemma bkey_key n n' : bkey n = bkey n' <-> key n = key n'.
Proof using Hnested. unfold bkey. rewrite Hnested. split; [intros [=]; done|congruence]. Qed.

(** The nodes of events that are not nested. *)
Definition flat (n : node) : Prop := need_remove_from_backup n = true /\ tp1 n = None.

Lemma prev_of_none n c : tp1 n = None -> need_find_prev n = true -> prev_of n c = None ->
  forall j, j ∈ backup c -> key (nodes c !!! j) <> key n.
Proof using.
  unfold prev_of. intros Ht -> Hp j Hj Hk. rewrite Ht in Hp. destruct (filter _ _) as [|q r] eqn:E; [|done].
  assert (j ∈ ([] : list nat)) as Hx; [|inversion Hx]. rewrite <- E. apply list_elem_of_filter. split; [|done].
  unfold fits. rewrite Hk, Z.eqb_refl. done.
Qed.

Lemma prev_of_some n c p : prev_of n c = Some p ->
  need_find_prev n = true /\ p ∈ backup c /\ key (nodes c !!! p) = key n.
Proof using.
  intros Hp. pose proof (prev_of_backup n c p Hp) as Hb. unfold prev_of in Hp. destruct (need_find_prev n); [|done].
  split_and!; [done|done|]. destruct (filter _ _) as [|q r] eqn:E; [done|]. injection Hp as ->.
  assert (p ∈ p :: r) as Hq by apply list_elem_of_here. rewrite <- E in Hq. apply list_elem_of_filter in Hq as [Hf _].
  unfold fits in Hf. apply andb_prop in Hf as [Hf _]. apply Z.eqb_eq in Hf. done.
Qed.

Definition unique_keys (c : ctx) : Prop :=
  forall i j, i ∈ backup c -> j ∈ backup c -> key (nodes c !!! i) = key (nodes c !!! j) -> i = j.

(** After the event looked for its partner. *)
Lemma waits_two n c c1 k v : flat n -> unique_keys c -> two_result n c c1 -> shrinks c c1 ->
  waits c1 k v <-> waits c k v /\ (need_find_prev n = true -> k <> key n).
Proof using.
  intros [Hrm Ht] Hu Hr Hs. unfold two_result in Hr. rewrite Hrm in Hr.
  assert (forall j, j ∈ backup c1 -> sig_of (nodes c1 !!! j) = sig_of (nodes c !!! j) /\ key (nodes c1 !!! j) = key (nodes c !!! j)) as Hc
    by (intros j Hj; apply core_sig, shrinks_core; done).
  unfold waits. destruct (prev_of n c) as [p|] eqn:Ep.
  - destruct Hr as [Hb _]. destruct (prev_of_some _ _ _ Ep) as (Hfp & Hp & Hpk). split.
    + intros (j & Hj & Hk & Hv). destruct (Hc j Hj) as [A B]. rewrite Hb in Hj. apply elem_of_list_del in Hj as [Hj Hne].
      split; [exists j; split_and!; [done|congruence|congruence]|]. intros _ ->. apply Hne, Hu; [done|done|congruence].
    + intros [(j & Hj & Hk & Hv) Hne]. assert (j ∈ backup c1) as Hj1.
      { rewrite Hb. apply elem_of_list_del. split; [done|]. intros ->. apply (Hne Hfp). congruence. }
      destruct (Hc j Hj1) as [A B]. exists j. split_and!; [done|congruence|congruence].
  - destruct Hr as [Hb _]. split.
    + intros (j & Hj & Hk & Hv). destruct (Hc j Hj) as [A B]. rewrite Hb in Hj.
      split; [exists j; split_and!; [done|congruence|congruence]|]. intros Hfp ->.
      apply (prev_of_none n c Ht Hfp Ep j Hj). congruence.
    + intros [(j & Hj & Hk & Hv) _]. rewrite <- Hb in Hj. destruct (Hc j Hj) as [A B].
      exists j. split_and!; [done|congruence|congruence].
Qed.

(** After the event was put into [backup]. *)
Lemma waits_backup n c c1 k v : backup_result n c c1 ->
  waits c1 k v <-> if need_backup n then (k = key n /\ v = sig_of n) \/ (k <> key n /\ waits c k v) else waits c k v.
Proof using Hnested.
  unfold backup_result. intros (_ & _ & Hr). destruct (need_backup n).
  - destruct Hr as (x & Hx & Hxb & Hb & Hc). destruct (core_sig _ _ Hx) as [Hxs Hxk]. unfold waits. split.
    + intros (j & Hj & Hk & Hv). destruct (decide (j = x)) as [->|Hne]; [left; split; congruence|right].
      pose proof Hj as Hj'. apply Hb in Hj' as [?|[Hj' Hjk]]; [done|]. rewrite bkey_key in Hjk.
      destruct (core_sig _ _ (Hc j Hj' Hj Hne)) as [A B]. split; [congruence|]. exists j. split_and!; [done|congruence|congruence].
    + intros [[-> ->]|[Hne (j & Hj & Hk & Hv)]]; [exists x; split_and!; [apply Hb; auto|done|done]|].
      assert (j ∈ backup c1) as Hj1 by (apply Hb; right; split; [done|]; rewrite bkey_key; congruence).
      assert (j <> x) as Hjx by (intros ->; done). exists j.
      destruct (core_sig _ _ (Hc j Hj Hj1 Hjx)) as [A B]. split_and!; [done|congruence|congruence].
  - destruct Hr as [Hb En]. apply waits_frame; [done|]. rewrite En. done.
Qed.

(** An event goes through the engine. *)
Lemma pair_step hist n c c1 c2 : flat n -> unique_keys c -> paired hist c ->
  two_result n c c1 -> shrinks c c1 -> backup_result n c1 c2 ->
  paired (role_of n :: hist) c2 /\ map erase (calls c2) = map erase (calls c) ++ pair_of hist (role_of n).
Proof using Hnested Hcall.
  intros Hf Hu Hp Hr Hs Hb. split.
  - intros k v. pose proof (waits_two n c c1 k v Hf Hu Hr Hs) as W1. rewrite (Hp k v) in W1.
    rewrite (waits_backup n c1 c2 k v Hb). simpl. destruct (Z.eqb_spec (key n) k) as [<-|Hne].
    + destruct (need_backup n); simpl.
      * change (sig (role_of n)) with (sig_of n). split; [intros [[_ ->]|[? _]]; done|]. intros [= ->]. auto.
      * rewrite W1. destruct (need_find_prev n); simpl; [|split; [tauto|]; intros Hx; split; done]. split; [|done]. intros [_ Hx]. destruct (Hx eq_refl eq_refl).
    + assert (k <> key n) as Hne' by done. destruct (need_backup n); rewrite W1; [|tauto]. split; [|tauto].
      intros [[? _]|?]; [done|tauto].
  - destruct Hb as [-> _]. unfold pair_of. simpl. unfold two_result in Hr.
    assert (forall p, prev_of n c = Some p -> exists f, partner (key n) hist = Some f /\ sig f = sig_of (nodes c !!! p)) as Hpart.
    { intros p Ep. destruct (prev_of_some _ _ _ Ep) as (_ & Hpb & Hpk).
      assert (waits c (key n) (sig_of (nodes c !!! p))) as Hw by (exists p; done).
      apply Hp in Hw. destruct (partner (key n) hist) as [f|]; [|done]. simpl in Hw.
      exists f. split; [done|]. congruence. }
    destruct (prev_of n c) as [p|] eqn:Ep.
    + destruct (Hpart p eq_refl) as (f & -> & Hsig). destruct (prev_of_some _ _ _ Ep) as (-> & _ & _).
      injection Hsig as Ht Htp Htag. destruct Hr as [_ Hr]. unfold pair_found in Hr. rewrite Ht, Htp, Htag.
      destruct (_ && _); [|rewrite Hr, app_nil_r; done]. destruct Hr as [s ->]. rewrite map_app. done.
    + destruct Hr as [_ Hr]. rewrite (Hr Hcall). destruct (need_find_prev n) eqn:Hfp; [|rewrite app_nil_r; done].
      destruct (partner (key n) hist) as [f|] eqn:Ef; [|rewrite app_nil_r; done]. exfalso.
      assert (waits c (key n) (sig f)) as (j & Hj & Hk & _) by (apply Hp; rewrite Ef; done).
      apply (prev_of_none n c (proj2 Hf) Hfp Ep j Hj Hk).
Qed.

(** ** Runs without lost events *)

Definition lost_free (c : ctx) : Prop :=
  timeline_lost_list c = [] /\ forall l, l ∈ perins_lost_list c -> l = [].

Lemma event_lost_nop nr i I c : HeldInv nr i I -> I c -> lost_free c ->
  wpm (multi_trace_event_lost i) c (fun _ c' => c' = c).
Proof using.
  intros HI Hinv [Ht Hp]. unfold multi_trace_event_lost. wstep.
  apply (wpm_load i (nodes c !!! i)); [apply lookup_lookup_total, hi_alive; done|]. do 3 wstep. destruct lost_ins eqn:E.
  - destruct (lookup_lt_is_Some_2 (perins_lost_list c) (ins (nodes c !!! i))) as [l Hl];
      [rewrite (ei_lostlen c Hinv E); apply hi_ins; done|].
    apply (wpm_lift l); [done|]. rewrite (Hp l); [done|]. apply list_elem_of_lookup. eauto.
  - apply (wpm_lift []); [congruence|]. done.
Qed.

Lemma lost_free_frame c c' : timeline_lost_list c' = timeline_lost_list c -> perins_lost_list c' = perins_lost_list c ->
  lost_free c -> lost_free c'.
Proof using. unfold lost_free. intros -> ->. done. Qed.

Context (Halloc : forall k, alloc_ok k = true) (Hextra : extra_evsel = None).

(** *** The code finds the same tracepoint and the same role *)

Lemma find_in_traced evsel l bf : find_in evsel l bf = None <-> find (fun t => tp_evsel t =? evsel) l = None.
Proof using. revert bf. induction l as [|t l IH]; intros bf; simpl; [done|]. case_match; [done|apply IH]. Qed.

Lemma find_in_first evsel l bf t b : find_in evsel l bf = Some (t, b) -> find (fun t => tp_evsel t =? evsel) l = Some t.
Proof using. revert bf. induction l as [|t' l IH]; intros bf; simpl; [done|]. case_match; [intros [= -> _]; done|apply IH]. Qed.

Lemma find_over_app {A} (f : A -> bool) l l' : find f (l ++ l') = match find f l with Some x => Some x | None => find f l' end.
Proof using. induction l as [|x l IH]; [done|]. simpl. destruct (f x); [done|exact IH]. Qed.

Lemma find_pair evsel (i : nat) l : find (fun '(_, t) => tp_evsel t =? evsel) (pair i <$> l) = pair i <$> find (fun t => tp_evsel t =? evsel) l.
Proof using. induction l as [|t l IH]; [done|]. simpl. case_match; [done|exact IH]. Qed.

Lemma find_tp_traced evsel : (fun '(i, t, _) => (i, t)) <$> find_tp evsel tp_list 0 = traced_as evsel.
Proof using.
  unfold traced_as, numbered.
  assert (forall ll k, (fun '(i, t, _) => (i, t)) <$> find_tp evsel ll k = find (fun '(_, t) => tp_evsel t =? evsel) (concat (imap (fun i l => pair (k + i)%nat <$> l) ll))) as H.
  { induction ll as [|l ll IH]; intros k; [done|]. cbn [find_tp imap concat]. rewrite find_over_app, find_pair, Nat.add_0_r.
    replace (imap ((fun i l => pair (k + i)%nat <$> l) ∘ S) ll) with (imap (fun i l => pair (S k + i)%nat <$> l) ll)
      by (apply imap_ext; intros; simpl; rewrite Nat.add_succ_r; done).
    destruct (find_in evsel l None) as [[t b]|] eqn:E.
    - rewrite (find_in_first _ _ _ _ _ E). done.
    - rewrite (proj1 (find_in_traced _ _ _) E). apply IH. }
  apply (H tp_list 0%nat).
Qed.

Lemma allows_bit t e bit : 0 <= bit < 2 -> allows bit t e = Z.testbit (default 3 (get_role t e)) bit.
Proof using.
  intros Hb. unfold allows. destruct (get_role t e) as [r|]; simpl; [|assert (bit = 0 \/ bit = 1) as [-> | ->] by lia; done].
  rewrite <- Z.bit0_odd, Z.shiftr_spec by lia. done.
Qed.

Lemma needs_roles i t bf e fp bk rm t1 : needs i t bf e = (fp, bk, rm, t1) -> fp = as_event2 i t e /\ bk = as_event1 i t e.
Proof using Hnested.
  unfold needs, as_event2, as_event1. rewrite Hnested, !allows_bit by lia. cbn [negb]. intros [= <- <- _ _]. split.
  - rewrite andb_comm. f_equal. rewrite orb_comm. f_equal. destruct i; done.
  - rewrite andb_comm. f_equal. change (match length tp_list with O => false | S m => (i =? m)%nat end) with (S i =? length tp_list)%nat.
    destruct (Nat.eqb_spec (S i) (length tp_list)), (decide (S i = length tp_list)); done.
Qed.

(** The role in terms of what the code computes. *)
Lemma classify_code e : classify e =
  match e_evsel e with
  | None => None
  | Some evsel =>
      match find_tp evsel tp_list 0 with
      | None => None
      | Some (i, t, before) =>
          if untraced t then None
          else let '(fp, bk, _, _) := needs i t before e in
               Some (Role (default (ins_key (e_ins e)) (get_key t e)) (e_time e) (tp_id t) (e_tag e) fp bk)
      end
  end.
Proof using Hnested.
  unfold classify. destruct (e_evsel e) as [evsel|]; [|done]. cbn [mbind option_bind]. rewrite <- find_tp_traced.
  destruct (find_tp evsel tp_list 0) as [[[i t] bf]|]; [|done]. cbn [fmap option_fmap option_map mbind option_bind]. destruct (untraced t); [done|].
  destruct (needs i t bf e) as [[[fp bk] rm] t1] eqn:E. destruct (needs_roles _ _ _ _ _ _ _ _ E) as [-> ->]. done.
Qed.

(** The node that [multi_trace_sample] makes for a traced event. *)
Lemma needs_flat i t bf e : let '(_, _, rm, t1) := needs i t bf e in rm = true /\ t1 = None.
Proof using Hnested. unfold needs. rewrite Hnested. done. Qed.

Definition roles (e : ev) : list role := option_list (classify e).

Definition ev_of (x : input) : option role := match x with Sample e => classify e | _ => None end.

(** ** Without a timeline *)

Section PlainPairs.
Context (Hmode : need_timeline = false).

Lemma plain_current_pairs nr n c hist Q : (ins n < nr)%nat -> 0 <= time n -> flat n ->
  MultiPlain.pst (MultiPlain.is_event n) nr (time n) c -> nodes c !! current = Some n -> lost_free c -> paired hist c ->
  (forall c', MultiPlain.pst (MultiPlain.is_event n) nr (time n) c' -> lost_free c' -> paired (role_of n :: hist) c' ->
     map erase (calls c') = map erase (calls c) ++ pair_of hist (role_of n) -> Q tt c') ->
  wpm (multi_trace_event_lost current;; multi_trace_tryto_call_two current;; multi_trace_tryto_backup current;; ret tt) c Q.
Proof using Hmode Hnested Hcall Halloc.
  intros Hins H0 Hf Hp Hn Hlf Hpa HQ. pose proof (MultiPlain.plain_held Hmode n nr (time n) Hins) as Hheld.
  set (I := MultiPlain.pst (MultiPlain.is_event n) nr (time n)) in *.
  wstep. eapply wpm_mono; [eapply (event_lost_nop nr current I); done|]. intros u c0 ->.
  wstep. apply (call_two_spec nr current I c n); [done|done|]. intros f c1 Hp1 Hs1 Hr1.
  wstep. apply (MultiPlain.plain_tryto_backup_spec Hmode n nr); [done|done|done|]. intros x c2 Hp2 Ha2 Hb2. wstep.
  assert (nodes c1 !!! current = n) as Hn1.
  { apply lookup_total_correct. rewrite (s_same _ _ Hs1); [done|]. apply (hi_apart (HeldInv := Hheld) c Hp). }
  specialize (Hb2 (Halloc _)). rewrite Hn1 in Hb2.
  assert (unique_keys c) as Hu.
  { intros i j Hi Hj Hk. apply (sorted_unique bkey (nodes c) (backup c)); [apply (proj1 Hp)|done|done|]. apply bkey_key. done. }
  destruct (pair_step hist n c c1 c2 Hf Hu Hpa Hr1 Hs1 Hb2) as [Hpa2 Hc2]. apply HQ; try done.
  destruct Hb2 as (_ & [Hl2 Hl2'] & _). apply (lost_free_frame c); [rewrite Hl2; apply Hs1|rewrite Hl2'; apply Hs1|done].
Qed.

(** [current] is not part of the state. *)
Lemma paired_off hist c m t k : (current ∉ backup c) -> (forall i, i <> current -> m !! i = nodes c !! i) ->
  paired hist c -> paired hist (set_handled (set_nodes (set_recent c t) m) k).
Proof using.
  intros Hc Hm. apply paired_frame; [done|]. intros j Hj. simpl. rewrite !lookup_total_alt, Hm; [done|]. intros ->. done.
Qed.

Lemma plain_sample_pairs nr T c hist e Q : MultiPlain.prest nr T c -> T <= e_time e -> 0 <= e_time e -> (e_ins e < nr)%nat ->
  lost_free c -> paired hist c ->
  (forall c', MultiPlain.prest nr (e_time e) c' -> lost_free c' -> paired (rev (roles e) ++ hist) c' ->
     map erase (calls c') = map erase (calls c) ++ pairs hist (roles e) -> Q tt c') ->
  wpm (multi_trace_sample e) c Q.
Proof using Hmode Hnested Hcall Halloc Hextra.
  intros Hp HT H0 Hins Hlf Hpa HQ.
  assert (forall c', MultiPlain.prest nr (e_time e) c' -> lost_free c' -> match classify e with
    | Some x => paired (x :: hist) c' /\ map erase (calls c') = map erase (calls c) ++ pair_of hist x
    | None => paired hist c' /\ calls c' = calls c end -> Q tt c') as HQ'.
  { intros c' Hp' Hl' Hx. unfold roles in HQ. destruct (classify e) as [x|]; destruct Hx as [Hx1 Hx2]; apply HQ; try done; simpl.
    - rewrite app_nil_r. done.
    - rewrite app_nil_r, Hx2. done. }
  clear HQ. unfold multi_trace_sample. wstep. wstep.
  set (c0 := if recent_time c <? e_time e then set_recent c (e_time e) else c).
  assert (MultiPlain.prest nr (e_time e) c0 /\ lost_free c0 /\ paired hist c0 /\ calls c0 = calls c) as (Hp0 & Hl0 & Hpa0 & Hc0).
  { split_and!; try (unfold c0; destruct (_ <? _); done).
    eapply (MultiPlain.pst_peqv _ _ _ c); [unfold c0; destruct (_ <? _); split_and!; done|unfold c0; destruct (_ <? _); done|].
    destruct Hp. split; [apply (MultiPlain.pinv_mono nr T); done|done]. }
  clearbody c0. rewrite classify_code in HQ'. destruct (e_evsel e) as [evsel|]; [|wstep; apply HQ'; done].
  destruct (find_tp evsel tp_list 0) as [[[i t] bf]|]; [|rewrite decide_False by congruence; wstep; apply HQ'; done].
  pose proof (needs_flat i t bf e) as Hflat. destruct (needs i t bf e) as [[[fp bk] rm] t1]. set (k := default _ _) in *. do 6 wstep.
  set (n := Node _ _ _ _ _ _ _ _ _ _ _ _). set (c1 := set_handled _ _).
  pose proof (MultiPlain.current_copy _ _ _ (proj1 Hp0)) as Hcur0.
  assert (c1 = set_handled (set_nodes (set_recent c0 (recent_time c0)) (<[current := n]> (nodes c0))) (event_handled c0 + 1)) as Ec1
    by (unfold c1; destruct c0; done).
  assert (forall j, j <> current -> <[current := n]> (nodes c0) !! j = nodes c0 !! j) as Hoff
    by (intros j Hj; rewrite lookup_insert_ne; done).
  assert (nodes c1 !! current = Some n) as Hn1 by apply lookup_insert_eq.
  assert (MultiPlain.pst (MultiPlain.is_event n) nr (time n) c1) as Hp1.
  { split; [apply (MultiPlain.pinv_off nr (e_time e) c0 c1 _ _ _ Ec1 Hoff), Hp0|]. exists n. done. }
  assert (lost_free c1 /\ paired hist c1 /\ calls c1 = calls c) as (Hl1 & Hpa1 & Hc1).
  { split_and!; [done|rewrite Ec1; apply paired_off; done|done]. }
  clearbody c1. wstep. set (R := fun c' => if untraced t then paired hist c' /\ calls c' = calls c else
    paired (role_of n :: hist) c' /\ map erase (calls c') = map erase (calls c) ++ pair_of hist (role_of n)).
  assert (forall c2, MultiPlain.pst (MultiPlain.is_event n) nr (time n) c2 -> lost_free c2 -> R c2 ->
    wpm (free current) c2 Q) as Hend.
  { intros c2 [Hinv2 (n2 & Hn2 & _)] Hl2 HR. apply (wpm_free _ n2); [done|].
    assert (set_nodes c2 (delete current (nodes c2)) = set_handled (set_nodes (set_recent c2 (recent_time c2))
      (delete current (nodes c2))) (event_handled c2)) as E2 by (destruct c2; done).
    assert (forall j, j <> current -> delete current (nodes c2) !! j = nodes c2 !! j) as Hoff2
      by (intros j Hj; rewrite lookup_delete_ne; done).
    pose proof (MultiPlain.current_copy _ _ _ Hinv2) as Hcur2.
    apply HQ'; [split; [|apply lookup_delete_eq]|done|].
    - apply (MultiPlain.pinv_off nr (e_time e) c2 _ _ _ _ E2 Hoff2 Hinv2).
    - unfold R in HR. destruct (untraced t); destruct HR as [HR1 HR2]; (split; [rewrite E2; apply paired_off; done|done]). }
  rewrite Hmode. unfold R in Hend. destruct (untraced t).
  - wstep. apply Hend; done.
  - apply (plain_current_pairs nr n c1 hist); try done. intros c2 Hp2 Hl2 Hpa2 Hc2. apply Hend; [done|done|].
    rewrite Hc1 in Hc2. done.
Qed.

Lemma plain_run_pairs nr es : forall T c hist Q, MultiPlain.prest nr T c -> 0 <= T ->
  MultiSafe.feasible nr T (map Sample es) -> lost_free c -> paired hist c ->
  (forall c', map erase (calls c') = map erase (calls c) ++ pairs hist (omap classify es) -> Q tt c') ->
  wpm (run (map Sample es)) c Q.
Proof using Hmode Hnested Hcall Halloc Hextra.
  induction es as [|e es IH]; intros T c hist Q Hp H0 Hf Hl Hpa HQ; simpl.
  { wstep. apply HQ. simpl. rewrite app_nil_r. done. }
  destruct Hf as (HT & Hi & Hf). wstep. apply (plain_sample_pairs nr T c hist); try done; [lia|lia|].
  intros c1 Hp1 Hl1 Hpa1 Hc1. apply (IH (e_time e) c1 (rev (roles e) ++ hist)); try done; [lia|].
  intros c2 Hc2. apply HQ. rewrite Hc2, Hc1, <- app_assoc. f_equal. rewrite <- pairs_app. f_equal.
  unfold roles. simpl. destruct (classify e); done.
Qed.

End PlainPairs.

(** ** With a timeline *)

Section TimelinePairs.
Context (Hmode : need_timeline = true) (Hbefore : 0 <= before_event1).

#[local] Instance held_event nr T i : HeldInv nr i (tinv nr T [i]) := tinv_held Hmode nr T i.

Lemma timeline_step nr T i n c hist (Q : bool -> bool * bool -> ctx -> Prop) : tinv nr T [i] c -> nodes c !! i = Some n ->
  flat n -> lost_free c -> paired hist c ->
  (forall f1 xf c', tinv nr T [] c' -> advances i c c' -> lost_free c' -> paired (role_of n :: hist) c' ->
     map erase (calls c') = map erase (calls c) ++ pair_of hist (role_of n) -> Q f1 xf c') ->
  wpm (multi_trace_event_lost i) c (fun _ c1 => wpm (multi_trace_tryto_call_two i) c1 (fun f1 c2 =>
    wpm (multi_trace_tryto_backup i) c2 (Q f1))).
Proof using Hmode Hnested Hcall.
  intros Hinv Hn Hf Hl Hpa HQ. eapply wpm_mono; [apply (event_lost_nop nr i (tinv nr T [i])); [apply _|done|done]|].
  intros u c0 ->. apply (call_two_spec nr i (tinv nr T [i]) c n); [done|done|]. intros f1 c1 Hinv1 Hs1 Hr1.
  destruct (shrinks_held nr i (tinv nr T [i]) _ _ Hinv Hs1) as [Ha1 Hi1].
  assert (nodes c1 !!! i = n) as Hn1 by (apply lookup_total_correct; congruence).
  apply (tryto_backup_spec Hmode nr T); [done|]. intros xf c2 Hinv2 Ha2 Hb2. rewrite Hn1 in Hb2.
  assert (unique_keys c) as Hu.
  { intros x y Hx Hy Hk. apply (sorted_unique bkey (nodes c) (backup c)); [apply Hinv|done|done|]. apply bkey_key. done. }
  destruct (pair_step hist n c c1 c2 Hf Hu Hpa Hr1 Hs1 Hb2) as [Hpa2 Hc2]. apply HQ; try done; [etrans; done|].
  destruct Hb2 as (_ & [Hl2 Hl2'] & _). apply (lost_free_frame c); [rewrite Hl2; apply Hs1|rewrite Hl2'; apply Hs1|done].
Qed.

(** [hist] are the events that were dealt with, [pend] the pending ones. *)
Record tl_state (hist pend : list role) (c : ctx) : Prop := TlState {
  ts_lost : lost_free c;
  ts_paired : paired hist c;
  ts_pend : (fun j => role_of (nodes c !!! j)) <$> pending_list c = pend;
  ts_flat : forall j, j ∈ pending_list c -> flat (nodes c !!! j)
}.

Lemma tl_state_frame hist pend c c' : lost_same c c' -> backup c' = backup c -> pending_list c' = pending_list c ->
  (forall j, j ∈ backup c -> core (nodes c' !!! j) = core (nodes c !!! j)) ->
  (forall j, j ∈ pending_list c -> nodes c' !!! j = nodes c !!! j) -> tl_state hist pend c -> tl_state hist pend c'.
Proof using.
  intros [Hl1 Hl2] Hb Hp Hc Hn []. split.
  - apply (lost_free_frame c); done.
  - apply (paired_frame hist c); done.
  - rewrite Hp, <- ts_pend0. apply list_fmap_ext. intros k j Hj. rewrite Hn; [done|]. apply list_elem_of_lookup. eauto.
  - rewrite Hp. intros j Hj. rewrite Hn by done. auto.
Qed.

Lemma pending_apart nr T h c j : tinv nr T h c -> j ∈ pending_list c -> (j ∉ backup c) /\ (j ∉ h) /\ (j < next c)%nat.
Proof using.
  intros Hinv Hj. split_and!.
  - rewrite (t_backup _ _ _ _ Hinv). intros Hx. destruct (tinv_disjoint _ _ _ _ _ Hinv Hx) as [Hy _]. done.
  - pose proof (t_kept _ _ _ _ Hinv) as HN. unfold kept in HN. apply list.NoDup_app in HN as (_ & _ & HN).
    apply list.NoDup_app in HN as (_ & HN & _). intros Hx. apply (HN j Hx Hj).
  - apply (t_fresh _ _ _ _ Hinv), (tinv_kept_timeline _ _ _ _ _ Hinv). auto.
Qed.

Lemma pending_loop_pairs nr T fuel : T < 2 ^ 64 -> forall tail f hist pend c Q, tinv nr T [] c ->
  (length (pending_list c) < fuel)%nat -> tl_state hist pend c ->
  (forall x c' d p, pend = d ++ p -> (after_event2 = 0 -> p = []) -> tinv nr T [] c' -> tl_state (rev d ++ hist) p c' ->
     nodes c' !! current = nodes c !! current ->
     map erase (calls c') = map erase (calls c) ++ pairs hist d -> Q x c') ->
  wpm (pending_loop fuel tail f) c Q.
Proof using Hmode Hnested Hcall.
  intros HT. induction fuel as [|fuel IH]; intros tail f hist pend c Q Hinv Hf Hst HQ; [lia|]. cbn [pending_loop]. wstep.
  apply (first_pending_spec nr T []); [done| |].
  { intros Hd. wstep. apply (HQ f c [] pend); try done; [|simpl; rewrite app_nil_r; done]. intros Ha.
    rewrite <- (ts_pend _ _ _ Hst). destruct (pending_list c) as [|i l] eqn:E; [done|]. exfalso.
    specialize (Hd i l eq_refl). unfold deadline in Hd. rewrite Ha, Z.eqb_refl in Hd.
    assert (i ∈ timeline c) as Ht by (apply (tinv_kept_timeline _ _ _ _ _ Hinv); left; rewrite E; apply list_elem_of_here).
    destruct (t_last _ _ _ _ Hinv i Ht). lia. }
  intros i c1 Hinv1 Hp1. simpl in Hinv1. pose proof (hi_alive (HeldInv := held_event nr T i) c1 Hinv1) as Hal.
  pose proof (lookup_lookup_total _ _ Hal) as Hn1. set (n := nodes c1 !!! i) in *.
  assert (i ∉ pending_list c1) as Hip by (apply (tinv_hold_apart _ _ _ _ Hinv1)).
  assert (forall j, j <> i -> nodes c1 !!! j = nodes c !!! j) as Hsame
    by (intros j Hj; rewrite !lookup_total_alt, (o_same _ _ _ Hp1); done).
  destruct Hst as [Hl Hpa Hpend Hflat]. rewrite (o_pending _ _ _ Hp1) in Hf, Hpend, Hflat. simpl in Hf, Hpend.
  assert (role_of n = role_of (nodes c !!! i) /\ flat n) as [Hrn Hfn].
  { unfold n. rewrite (o_node _ _ _ Hp1). split; [done|]. apply (Hflat i), list_elem_of_here. }
  assert (i ∉ backup c) as Hib by (rewrite <- (o_backup _ _ _ Hp1); apply (hi_apart (HeldInv := held_event nr T i) c1 Hinv1)).
  repeat wstep. eapply wpm_mono; [apply (timeline_step nr T i n c1 hist (fun f1 xf c' => wpm (let '(_, f2) := xf in
    pending_loop fuel tail (f || f1 || f2)) c' Q)); try done|].
  - apply (lost_free_frame c); [apply Hp1|apply Hp1|done].
  - apply (paired_frame hist c); [apply Hp1| |done]. intros j Hj. rewrite Hsame; [done|]. intros ->. done.
  - intros f1 [x f2] c2 Hinv2 Ha2 Hl2 Hpa2 Hc2.
    assert (forall j, j ∈ pending_list c1 -> nodes c2 !!! j = nodes c !!! j) as Hpn.
    { intros j Hj. destruct (pending_apart nr T [i] c1 j Hinv1 Hj) as (Hjb & Hji & Hjn).
      assert (j <> i) as Hne by (intros ->; done).
      rewrite <- Hsame by done. rewrite !lookup_total_alt, (a_same _ _ _ Ha2); done. }
    apply (IH tail _ (role_of n :: hist) ((fun j => role_of (nodes c !!! j)) <$> pending_list c1)); [done| | |].
    + rewrite (a_pending _ _ _ Ha2). lia.
    + split; [done|done| |].
      * rewrite (a_pending _ _ _ Ha2). apply list_fmap_ext. intros k j Hj. rewrite Hpn; [done|].
        apply list_elem_of_lookup. eauto.
      * rewrite (a_pending _ _ _ Ha2). intros j Hj. rewrite Hpn by done. apply Hflat, list_elem_of_further, Hj.
    + intros y c' d p Hd Ha Hinv' Hst' Hcur' Hc'. apply (HQ y c' (role_of n :: d) p); try done.
      * rewrite <- Hpend, Hrn. simpl. f_equal. exact Hd.
      * simpl. rewrite <- app_assoc. done.
      * rewrite Hcur'. destruct (current_lt _ _ _ _ Hinv1) as [Hct Hcn].
        assert (current <> i) as Hci by (intros <-; apply Hct; apply (tinv_kept_timeline _ _ _ _ _ Hinv1); right; apply list_elem_of_here).
        rewrite (a_same _ _ _ Ha2), (o_same _ _ _ Hp1); try done. intros Hb. apply Hct.
        apply (tinv_backup_timeline _ _ _ _ _ Hinv1 Hb).
      * rewrite Hc', Hc2, (o_calls _ _ _ Hp1), <- app_assoc. done.
  - intros u c2 Hw. wstep. eapply wpm_mono; [exact Hw|]. intros f1 c3 H3. wstep. exact H3.
Qed.

(** The state between two events. *)
Definition tl_rest (nr : nat) (T : Z) (hist pend : list role) (c : ctx) : Prop :=
  MultiSafe.rest nr T c /\ tl_state hist pend c /\ (after_event2 = 0 -> pend = []).

Lemma off_timeline nr T h c j : tinv nr T h c -> j ∈ backup c \/ j ∈ pending_list c -> j <> current.
Proof using.
  intros Hinv Hj ->. apply (MultiSafe.current_apart _ _ _ _ Hinv).
  destruct Hj as [Hj|Hj]; [apply (tinv_backup_timeline _ _ _ _ _ Hinv Hj)|apply (tinv_kept_timeline _ _ _ _ _ Hinv); auto].
Qed.

Lemma tl_state_off nr T hist pend c m t k : tinv nr T [] c -> (forall i, i <> current -> m !! i = nodes c !! i) ->
  tl_state hist pend c -> tl_state hist pend (set_handled (set_nodes (set_recent c t) m) k).
Proof using.
  intros Hinv Hm. apply tl_state_frame; try done; simpl; intros j Hj; rewrite !lookup_total_alt, Hm; try done;
    apply (off_timeline _ _ _ _ _ Hinv); auto.
Qed.

Lemma tl_state_grow nr T hist pend c c' n : tinv nr T [] c -> MultiSafe.grows (next c) n c c' -> flat n ->
  tl_state hist pend c -> tl_state hist (pend ++ (if untraced (n_tp n) then [] else [role_of n])) c'.
Proof using.
  intros Hinv Hg Hf [Hl Hpa Hpend Hflat].
  assert (forall j, j ∈ backup c \/ j ∈ pending_list c -> nodes c' !!! j = nodes c !!! j) as Hold.
  { intros j Hj. rewrite (MultiSafe.g_nodes _ _ _ _ Hg), lookup_total_insert_ne; [done|]. intros <-.
    assert (next c ∈ timeline c) as Hx; [|apply (t_fresh _ _ _ _ Hinv) in Hx; lia].
    destruct Hj as [Hj|Hj]; [apply (tinv_backup_timeline _ _ _ _ _ Hinv Hj)|apply (tinv_kept_timeline _ _ _ _ _ Hinv); auto]. }
  assert (nodes c' !!! next c = MultiSafe.made n) as Hnew by (rewrite (MultiSafe.g_nodes _ _ _ _ Hg), lookup_total_insert_eq; done).
  assert (role_of (MultiSafe.made n) = role_of n /\ flat (MultiSafe.made n)) as [Hrm Hfm]
    by (unfold MultiSafe.made; destruct (untraced (n_tp n)); done).
  split.
  - apply (lost_free_frame c); [apply Hg|apply Hg|done].
  - apply (paired_frame hist c); [apply Hg| |done]. intros j Hj. rewrite Hold; auto.
  - rewrite (MultiSafe.g_pending _ _ _ _ Hg), fmap_app, <- Hpend. f_equal.
    + apply list_fmap_ext. intros k j Hj. rewrite Hold; [done|]. right. apply list_elem_of_lookup. eauto.
    + destruct (untraced _); simpl; [done|]. rewrite Hnew, Hrm. done.
  - rewrite (MultiSafe.g_pending _ _ _ _ Hg). intros j [Hj|Hj]%elem_of_app; [rewrite Hold by auto; auto|].
    destruct (untraced _); [inversion Hj|]. apply list_elem_of_singleton in Hj as ->. rewrite Hnew. done.
Qed.

Lemma tl_state_prune nr T hist pend c c' : tinv nr T [] c' -> MultiSafe.prunes c c' ->
  tl_state hist pend c -> tl_state hist pend c'.
Proof using.
  intros Hinv Hp. assert (forall j, j ∈ backup c \/ j ∈ pending_list c -> nodes c' !!! j = nodes c !!! j) as Hs.
  { intros j Hj. rewrite <- (MultiSafe.p_backup _ _ Hp), <- (MultiSafe.p_pending _ _ Hp) in Hj.
    rewrite !lookup_total_alt, (MultiSafe.p_nodes _ _ Hp); [done|]. left.
    destruct Hj as [Hj|Hj]; [apply (tinv_backup_timeline _ _ _ _ _ Hinv Hj)|apply (tinv_kept_timeline _ _ _ _ _ Hinv); auto]. }
  apply tl_state_frame; [split; apply Hp|apply Hp|apply Hp| |]; intros j Hj; rewrite Hs; auto.
Qed.

(** An event that is skipped because nothing waits. *)
Lemma tl_state_skip nr T hist pend c rs : tinv nr T [] c -> timeline c = [] -> (forall x, x ∈ rs -> r_bk x = false) ->
  (length rs <= 1)%nat -> tl_state hist pend c ->
  pend = [] /\ tl_state (rev rs ++ hist) [] c /\ pairs hist rs = [].
Proof using.
  intros Hinv Ht Hrs Hlen [Hl Hpa Hpend Hflat].
  assert (pending_list c = []) as Hp0.
  { destruct (pending_list c) as [|j l] eqn:E; [done|]. exfalso. assert (j ∈ timeline c) as Hx
      by (apply (tinv_kept_timeline _ _ _ _ _ Hinv); left; rewrite E; apply list_elem_of_here). rewrite Ht in Hx. inversion Hx. }
  assert (forall k v, ~ waits c k v) as Hw.
  { intros k v (j & Hj & _). apply (tinv_backup_timeline _ _ _ _ _ Hinv) in Hj. rewrite Ht in Hj. inversion Hj. }
  assert (forall k, partner k hist = None) as Hno.
  { intros k. destruct (partner k hist) as [f|] eqn:E; [|done]. destruct (Hw k (sig f)). apply Hpa. rewrite E. done. }
  destruct rs as [|x rs]; [|destruct rs; [|simpl in Hlen; lia]].
  - split_and!; [rewrite <- Hpend, Hp0; done| |done]. split; [done|done|rewrite Hp0; done|rewrite Hp0; intros j Hj; inversion Hj].
  - specialize (Hrs x (list_elem_of_here _ _)). split_and!; [rewrite <- Hpend, Hp0; done| |].
    + split; [done| |rewrite Hp0; done|rewrite Hp0; intros j Hj; inversion Hj]. intros k v. simpl. rewrite Hrs, !Hno.
      split; [intros Hx; destruct (Hw k v Hx)|]. destruct (_ =? _); [destruct (r_fp x)|]; done.
    + simpl. unfold pair_of. rewrite Hno. destruct (r_fp x); done.
Qed.

(** What is done with [current]. *)
Lemma timeline_current_pairs nr T c n hist pend Q : tinv nr T [] c -> nodes c !! current = Some n ->
  T <= time n -> 0 <= time n < 2 ^ 64 -> (forall i, i ∈ timeline c -> seq (nodes c !!! i) < seq n) -> seq n < event_handled c ->
  (ins n < nr)%nat -> (untraced (n_tp n) = true -> unneeded n = true) -> flat n -> tl_state hist pend c ->
  let rs := if untraced (n_tp n) then [] else [role_of n] in
  (forall c' d p, pend ++ rs = d ++ p -> (after_event2 = 0 -> p = []) -> tinv nr (time n) [] c' -> is_Some (nodes c' !! current) ->
     tl_state (rev d ++ hist) p c' -> map erase (calls c') = map erase (calls c) ++ pairs hist d -> Q tt c') ->
  wpm (r ← timeline_add current;
       match r with
       | ADDED =>
           c ← get;
           need_free ← pending_loop (S (length (pending_list c))) (time n) (unneeded n);
           if (need_free : bool) then timeline_free_unneeded else ret tt
       | _ => ret tt
       end) c Q.
Proof using Hmode Hbefore Hnested Hcall Halloc.
  intros Hinv Hn HT H0 Hsq Hseq Hins Hun Hf Hst rs HQ. wstep. apply (MultiSafe.timeline_add_spec nr T c n); try done; [lia| |].
  { rewrite Halloc. done. }
  intros c1 _ Hinv1 Hg1. wstep. wstep. wstep. pose proof (tl_state_grow _ _ _ _ _ _ _ Hinv Hg1 Hf Hst) as Hst1.
  apply (pending_loop_pairs nr (time n) _ (proj2 H0) _ _ hist (pend ++ rs)); [done|lia|done|].
  intros x c2 d p Hd Ha Hinv2 Hst2 Hcur2 Hc2. rewrite (MultiSafe.g_calls _ _ _ _ Hg1) in Hc2.
  assert (is_Some (nodes c2 !! current)) as Hs2.
  { rewrite Hcur2, (MultiSafe.g_nodes _ _ _ _ Hg1), lookup_insert_ne; [eauto|].
    pose proof (t_next _ _ _ _ Hinv). unfold current. lia. }
  destruct x; [|wstep; apply (HQ c2 d p); done].
  apply (MultiSafe.free_unneeded_spec nr (time n)); [done|done|]. intros c3 Hinv3 Hp3. apply (HQ c3 d p); try done.
  - rewrite (MultiSafe.p_nodes _ _ Hp3); auto.
  - apply (tl_state_prune nr (time n) _ _ c2); done.
  - rewrite (MultiSafe.p_calls _ _ Hp3). done.
Qed.

Lemma timeline_sample_pairs nr T c hist pend e Q : tl_rest nr T hist pend c -> T <= e_time e -> 0 <= e_time e < 2 ^ 64 ->
  (e_ins e < nr)%nat ->
  (forall c' d p, pend ++ roles e = d ++ p -> tl_rest nr (e_time e) (rev d ++ hist) p c' ->
     map erase (calls c') = map erase (calls c) ++ pairs hist d -> Q tt c') ->
  wpm (multi_trace_sample e) c Q.
Proof using Hmode Hbefore Hnested Hcall Halloc Hextra.
  intros ([Hinv Hcur] & Hst & Hpe) HT H0 Hins HQ. unfold multi_trace_sample. wstep. wstep.
  set (c0 := if recent_time c <? e_time e then set_recent c (e_time e) else c).
  assert (tinv nr T [] c0 /\ nodes c0 !! current = None /\ tl_state hist pend c0 /\ calls c0 = calls c)
    as (Hinv0 & Hcur0 & Hst0 & Hc0).
  { unfold c0. destruct (_ <? _); split_and!; try done; [apply set_recent_spec; done|].
    apply (tl_state_frame hist pend c); done. }
  clearbody c0.
  assert (forall c', tinv nr T [] c' -> nodes c' !! current = None -> tl_state hist pend c' -> calls c' = calls c ->
    roles e = [] -> Q tt c') as Hnone.
  { intros c' Hinv' Hcur' Hst' Hc' Hr. rewrite Hr in HQ.
    apply (HQ c' [] pend); [rewrite app_nil_r; done| |simpl; rewrite app_nil_r, Hc'; done].
    split_and!; [split; [apply (MultiSafe.tinv_mono nr T); done|done]|done|done]. }
  unfold roles in HQ, Hnone. rewrite classify_code in HQ, Hnone. destruct (e_evsel e) as [evsel|]; [|wstep; apply Hnone; done].
  destruct (find_tp evsel tp_list 0) as [[[i t] bf]|]; [|rewrite decide_False by congruence; wstep; apply Hnone; done].
  clear Hnone. pose proof (needs_flat i t bf e) as Hflat. destruct (needs i t bf e) as [[[fp bk] rm] t1].
  set (k := default _ _) in *. do 6 wstep. set (n := Node _ _ _ _ _ _ _ _ _ _ _ _). set (c1 := set_handled _ _).
  assert (c1 = set_handled (set_nodes (set_recent c0 (recent_time c0)) (<[current := n]> (nodes c0))) (event_handled c0 + 1)) as Ec1
    by (unfold c1; destruct c0; done).
  assert (forall j, j <> current -> <[current := n]> (nodes c0) !! j = nodes c0 !! j) as Hoff
    by (intros j Hj; rewrite lookup_insert_ne; done).
  assert (tinv nr T [] c1) as Hinv1 by (rewrite Ec1; apply MultiSafe.tinv_off; [done|lia|done]).
  assert (tl_state hist pend c1) as Hst1 by (rewrite Ec1; apply (tl_state_off nr T); done).
  assert (nodes c1 !! current = Some n) as Hn1 by apply lookup_insert_eq.
  assert (forall j, j ∈ timeline c1 -> seq (nodes c1 !!! j) < seq n) as Hsq.
  { intros j Hj. unfold c1. simpl. rewrite lookup_total_insert_ne.
    - apply (t_seq _ _ _ _ Hinv0 j Hj).
    - intros <-. apply (MultiSafe.current_apart _ _ _ _ Hinv0 Hj). }
  assert (calls c1 = calls c /\ seq n < event_handled c1) as [Hc1 Hseq] by (split; [done|unfold c1, n; simpl; lia]).
  set (rs := if untraced t then [] else [role_of n]). replace (option_list _) with rs in HQ by (unfold rs; destruct (untraced t); done).
  clearbody c1. wstep.
  assert (forall c2 d p, pend ++ rs = d ++ p -> (after_event2 = 0 -> p = []) -> tinv nr (e_time e) [] c2 ->
    is_Some (nodes c2 !! current) -> tl_state (rev d ++ hist) p c2 ->
    map erase (calls c2) = map erase (calls c) ++ pairs hist d -> wpm (free current) c2 Q) as Hend.
  { intros c2 d p Hd Ha Hinv2 [n2 Hn2] Hst2 Hc2. apply (wpm_free _ n2); [done|].
    assert (set_nodes c2 (delete current (nodes c2)) = set_handled (set_nodes (set_recent c2 (recent_time c2))
      (delete current (nodes c2))) (event_handled c2)) as E2 by (destruct c2; done).
    assert (forall j, j <> current -> delete current (nodes c2) !! j = nodes c2 !! j) as Hoff2
      by (intros j Hj; rewrite lookup_delete_ne; done).
    apply (HQ _ d p Hd); [|done]. split_and!; [split; [|apply lookup_delete_eq]| |done]; rewrite E2.
    - apply MultiSafe.tinv_off; [done|lia|done].
    - apply (tl_state_off nr (e_time e)); done. }
  rewrite Hmode. wstep. wstep. wstep. apply (wpm_load current n); [done|]. change (time n) with (e_time e).
  destruct (bool_decide (timeline c1 = []) && _ && _ && _) eqn:Eskip.
  - wstep. rewrite !andb_true_iff, bool_decide_eq_true in Eskip. destruct Eskip as [[[Ht Hu] _] _].
    destruct (tl_state_skip nr T hist pend c1 rs) as (-> & Hst2 & Hps); try done.
    { unfold rs, n in *. simpl in Hu. destruct (untraced t); [intros x Hx; inversion Hx|].
      intros x ->%list_elem_of_singleton. simpl. rewrite orb_false_r in Hu. destruct bk; done. }
    { unfold rs. destruct (untraced t); simpl; lia. }
    apply (Hend c1 rs []); [rewrite app_nil_r; done|done|apply (MultiSafe.tinv_mono nr T); done|eauto|done|].
    rewrite Hps, Hc1, app_nil_r. done.
  - rewrite <- Hc1 in Hend. apply (timeline_current_pairs nr T c1 n hist pend); try done.
    simpl. intros ->. apply orb_true_r.
Qed.

Lemma timeline_run_pairs nr es : forall T c hist pend Q, tl_rest nr T hist pend c -> 0 <= T ->
  MultiSafe.feasible nr T (map Sample es) ->
  (forall c' d p, pend ++ omap classify es = d ++ p -> (after_event2 = 0 -> p = []) ->
     length (pending_list c') = length p ->
     map erase (calls c') = map erase (calls c) ++ pairs hist d -> Q tt c') ->
  wpm (run (map Sample es)) c Q.
Proof using Hmode Hbefore Hnested Hcall Halloc Hextra.
  induction es as [|e es IH]; intros T c hist pend Q Hr H0 Hf HQ; simpl.
  { wstep. destruct Hr as (_ & Hst & Ha). apply (HQ c [] pend); try done; simpl; rewrite ?app_nil_r; [done| |done].
    rewrite <- (ts_pend _ _ _ Hst), length_fmap. done. }
  destruct Hf as (HT & Hi & Hf). wstep. apply (timeline_sample_pairs nr T c hist pend); try done; [lia|lia|].
  intros c1 d1 p1 Hd1 Hr1 Hc1. apply (IH (e_time e) c1 (rev d1 ++ hist) p1); try done; [lia|].
  intros c2 d2 p2 Hd2 Ha2 Hlen Hc2. apply (HQ c2 (d1 ++ d2) p2); try done.
  - rewrite <- app_assoc, <- Hd2, app_assoc, <- Hd1, <- app_assoc. f_equal.
    unfold roles. simpl. destruct (classify e); done.
  - rewrite Hc2, Hc1, <- app_assoc, pairs_app. done.
Qed.

End TimelinePairs.

Lemma paired_init nr : paired [] (init_ctx nr) /\ lost_free (init_ctx nr).
Proof using.
  split; [intros k v; simpl; split; [intros (j & Hj & _); inversion Hj|done]|]. split; [done|]. simpl.
  destruct lost_ins; [|intros l Hl; inversion Hl]. intros l Hl. apply elem_of_replicate in Hl as [-> _]. done.
Qed.

Lemma tl_rest_init nr : tl_rest nr 0 [] [] (init_ctx nr).
Proof using.
  destruct (paired_init nr). split_and!; [apply MultiSafe.init_rest| |done]. split; try done. intros j Hj. inversion Hj.
Qed.

End Pairs.

(** ** Properties *)

(** C5: without --detail the engine calls [two] for exactly the pairs of the
    specification, in the order of the second events: the partner of an event is
    the last event before it with the same key that may be a first one, unless
    another event asked for it in between. Which events may be a first and a second
    one is [classify]: the numbers of the tracepoints, [--cycle], and the role bits as
    the help of the program gives them (bit 0 event1, bit 1 event2). The samples come
    in order, without losses, allocations succeed, and the analyzer is neither nested
    nor based on calls. *)
Theorem plain_pairs_correct `{Opts} nr es : need_timeline = false -> nested = false -> impl_based_on_call = false ->
  (forall k, alloc_ok k = true) -> extra_evsel = None -> MultiSafe.feasible nr 0 (map Sample es) ->
  exists c, run (map Sample es) (init_ctx nr) = Some (tt, c) /\
    map erase (calls c) = pairs [] (omap classify es).
Proof.
  intros Hmode Hn Hc Ha He Hf. destruct (paired_init nr) as [Hp Hl]. apply wpm_run.
  apply (plain_run_pairs Hn Hc Ha He Hmode nr es 0 _ []); [apply MultiPlain.init_prest|done|done|done|done|].
  intros c ->. done.
Qed.

(** C30: with --detail the engine calls [two] for exactly the pairs of the
    specification among the events whose detail is complete, in the order of the
    second events; the other events, the newest ones, are the pending ones, and
    there are none when no detail after the second event is asked for. The roles
    and the conditions are those of the pairs without --detail. *)
Theorem detail_pairs_correct `{Opts} nr es : need_timeline = true -> 0 <= before_event1 -> nested = false ->
  impl_based_on_call = false -> (forall k, alloc_ok k = true) -> extra_evsel = None ->
  MultiSafe.feasible nr 0 (map Sample es) ->
  exists c seen pending, run (map Sample es) (init_ctx nr) = Some (tt, c) /\
    omap classify es = seen ++ pending /\ length (pending_list c) = length pending /\
    (after_event2 = 0 -> pending = []) /\ map erase (calls c) = pairs [] seen.
Proof.
  intros Hmode Hb Hn Hc Ha He Hf.
  assert (wpm (run (map Sample es)) (init_ctx nr) (fun _ c => exists seen pending,
    omap classify es = seen ++ pending /\ length (pending_list c) = length pending /\
    (after_event2 = 0 -> pending = []) /\ map erase (calls c) = pairs [] seen)) as Hw.
  { apply (timeline_run_pairs Hn Hc Ha He Hmode Hb nr es 0 _ [] []); [apply tl_rest_init|done|done|].
    intros c d p Hd Hp Hlen Hcalls. exists d, p. split_and!; done. }
  apply wpm_run in Hw as (c & Hrun & d & p & Hx). eauto.
Qed.

Definition with_detail (b : bool) (o : Opts) : Opts := {|
  tp_list := @tp_list o; need_timeline := b; nested := @nested o; impl_based_on_call := @impl_based_on_call o;
  cycle := @cycle o; order := @order o; before_event1 := @before_event1 o; after_event2 := @after_event2 o;
  greater_than := @greater_than o; lost_ins := @lost_ins o; object_find := @object_find o;
  remaining_break := @remaining_break o; alloc_ok := @alloc_ok o; ins_key := @ins_key o; get_key := @get_key o;
  get_role := @get_role o; sched_wakeup_unnecessary := @sched_wakeup_unnecessary o; extra_evsel := @extra_evsel o;
  extra_pid := @extra_pid o
|}.

(** --detail does not change which pairs are found: on the same events, the
    engine with a timeline and the engine without one make the same calls of
    [two], up to the place where the details start (no detail after the second
    event is asked for). *)
Theorem detail_same_pairs (o : Opts) nr es : 0 <= @before_event1 o -> @after_event2 o = 0 -> @nested o = false ->
  @impl_based_on_call o = false -> (forall k, @alloc_ok o k = true) -> @extra_evsel o = None ->
  MultiSafe.feasible nr 0 (map Sample es) ->
  exists c c', run (opts := with_detail true o) (map Sample es) (init_ctx (opts := with_detail true o) nr) = Some (tt, c) /\
    run (opts := with_detail false o) (map Sample es) (init_ctx (opts := with_detail false o) nr) = Some (tt, c') /\
    map erase (calls c) = map erase (calls c').
Proof.
  intros Hb Haf Hn Hc Ha He Hf.
  destruct (paired_init (opts := with_detail false o) nr) as [Hp Hl].
  assert (wpm (run (opts := with_detail false o) (map Sample es)) (init_ctx (opts := with_detail false o) nr)
    (fun _ c => map erase (calls c) = pairs (opts := o) [] (omap (classify (opts := o)) es))) as H1.
  { apply (plain_run_pairs (opts := with_detail false o) Hn Hc Ha He eq_refl nr es 0 _ []);
      [apply MultiPlain.init_prest|done|done|done|done|]. intros c ->. done. }
  assert (wpm (run (opts := with_detail true o) (map Sample es)) (init_ctx (opts := with_detail true o) nr)
    (fun _ c => map erase (calls c) = pairs (opts := o) [] (omap (classify (opts := o)) es))) as H2.
  { apply (timeline_run_pairs (opts := with_detail true o) Hn Hc Ha He eq_refl Hb nr es 0 _ [] []);
      [apply (tl_rest_init (opts := with_detail true o))|done|done|]. intros c d p Hd Hpd _ ->. rewrite (Hpd Haf), app_nil_r in Hd. simpl in Hd.
    rewrite <- Hd. done. }
  apply wpm_run in H1 as (c' & R1 & E1). apply wpm_run in H2 as (c & R2 & E2). exists c, c'. split_and!; [done|done|congruence].
Qed.

(** *** Witnesses *)

Definition pair_events : list ev :=
  [Ev 100 (Some 11) 0 64 1; Ev 101 (Some 11) 1 64 2; Ev 110 (Some 13) 0 48 3; Ev 120 (Some 12) 0 64 4;
   Ev 130 (Some 11) 1 64 5; Ev 140 (Some 12) 1 64 6; Ev 150 (Some 12) 1 64 7].

Lemma pair_feasible : MultiSafe.feasible 2 0 (map Sample pair_events).
Proof. cbn. lia. Qed.

Lemma plain_pairs_correct_witness :
  exists c, run (opts := MultiPlain.plain_opts) (map Sample pair_events) (init_ctx (opts := MultiPlain.plain_opts) 2) = Some (tt, c) /\
    map erase (calls c) = pairs (opts := MultiPlain.plain_opts) [] (omap (classify (opts := MultiPlain.plain_opts)) pair_events).
Proof.
  apply (plain_pairs_correct (H := MultiPlain.plain_opts) 2 pair_events); try reflexivity. exact pair_feasible.
Defined.

Lemma detail_pairs_correct_witness :
  exists c seen pending, run (opts := MultiSafe.demo_opts) (map Sample pair_events) (init_ctx (opts := MultiSafe.demo_opts) 2) = Some (tt, c) /\
    omap (classify (opts := MultiSafe.demo_opts)) pair_events = seen ++ pending /\ length (pending_list c) = length pending /\
    (@after_event2 MultiSafe.demo_opts = 0 -> pending = []) /\ map erase (calls c) = pairs (opts := MultiSafe.demo_opts) [] seen.
Proof.
  apply (detail_pairs_correct (H := MultiSafe.demo_opts) 2 pair_events); try reflexivity; [cbn; lia|exact pair_feasible].
Defined.

Lemma detail_same_pairs_witness :
  let o := MultiPlain.plain_opts in
  exists c c', run (opts := with_detail true o) (map Sample pair_events) (init_ctx (opts := with_detail true o) 2) = Some (tt, c) /\
    run (opts := with_detail false o) (map Sample pair_events) (init_ctx (opts := with_detail false o) 2) = Some (tt, c') /\
    map erase (calls c) = map erase (calls c').
Proof.
  apply (detail_same_pairs MultiPlain.plain_opts 2 pair_events); try reflexivity; exact pair_feasible.
Defined.

(** The pairs of these events: event 5 replaces event 2, event 7 has no
    partner. *)
Example pair_calls :
  pairs (opts := MultiPlain.plain_opts) [] (omap (classify (opts := MultiPlain.plain_opts)) pair_events) =
  [Two 1 (Some 2) 0 1 (Some 4) None; Two 1 (Some 2) 1 5 (Some 6) None].
Proof. vm_compute. reflexivity. Qed.

End MultiPair.
