(* ===== verification/Latency.v ===== *)
(** * Latency distributions (latency_helpers.c)

    [Module Latency] models the distribution that the profilers keep per instance
    and key: a list of nodes sorted by the comparison of the code, which is the
    tree of rblist.c from left to right. The functions take a distribution that
    may be [NULL]. What a function prints and what it frees are lists of nodes.
    [malloc] and [tdigest_new] may fail in each call; the t-digest is a parameter
    (a sketch in floating point numbers, lib/tdigest.c).

    The theorems say what the nodes hold after any sequence of operations, in
    terms of the inputs since the nodes were last printed or reset, and what the
    sorted print shows. *)

From stdpp Require Import sorting.
From S2P Require Import Prelude RingBuf Rblist.

Module Latency.
Import Rblist.

Section Dist.
Context {TD : Type}.
(** [tdigest_new(100)] when it succeeds, and [tdigest_add(td, lat, 1)]. *)
Context (tdigest_new : TD) (tdigest_add : TD -> Z -> TD).

(** ** Data *)

Record latency_node := LatencyNode {
  td : option TD; instance : Z; key : Z;
  ln_min : Z; ln_max : Z; ln_n : Z; ln_than : Z; ln_sum : Z;
  extra : list Z;
}.

(** The [node_delete] function of the tree. *)
Inductive deleter := latency_stat_node_delete | empty.

Record latency_dist := LatencyDist {
  lat : list latency_node; node_delete : deleter; ref : Z;
  perins : bool; perkey : bool; quantile : bool; extra_size : Z;
}.

Definition set_lat (d : latency_dist) (l : list latency_node) : latency_dist :=
  LatencyDist l (node_delete d) (ref d) (perins d) (perkey d) (quantile d) (extra_size d).

Definition set_ref (d : latency_dist) (n : Z) : latency_dist :=
  LatencyDist (lat d) (node_delete d) n (perins d) (perkey d) (quantile d) (extra_size d).

Definition set_quantile (d : latency_dist) (q : bool) : latency_dist :=
  LatencyDist (lat d) (node_delete d) (ref d) (perins d) (perkey d) q (extra_size d).

(** ** Comparisons and nodes *)

Definition node_key (n : latency_node) : Z * Z := (instance n, key n).

(** Of the instance and key of a node, with those of the entry. *)
Definition latency_stat_node_cmp (perins perkey : bool) (n e : Z * Z) : Z :=
  if perins && (e.1 <? n.1) then 1
  else if perins && (n.1 <? e.1) then -1
  else if perkey && (e.2 <? n.2) then 1
  else if perkey && (n.2 <? e.2) then -1
  else 0.

Definition latency_stat__sorted_node_cmp (perins perkey : bool) (n e : latency_node) : Z :=
  if perins && (instance e <? instance n) then 1
  else if perins && (instance n <? instance e) then -1
  else if ln_sum e <? ln_sum n then -1
  else if ln_sum n <? ln_sum e then 1
  else if perkey && (key e <? key n) then 1
  else if perkey && (key n <? key e) then -1
  else 0.

(** [mem], [tdmem]: [malloc] and [tdigest_new] succeed. *)
Definition latency_stat_node_new (d : latency_dist) (e : Z * Z) (mem tdmem : bool) : option latency_node :=
  if mem then
    if quantile d && negb tdmem then None
    else Some (LatencyNode (if quantile d then Some tdigest_new else None) e.1 e.2 (2 ^ 64 - 1) 0 0 0 0
                 (replicate (Z.to_nat (extra_size d)) 0))
  else None.

(** ** Operations *)

Definition latency_dist_new (perins perkey : bool) (extra_size : Z) (mem : bool) : option latency_dist :=
  if mem then Some (LatencyDist [] latency_stat_node_delete 1 perins perkey false extra_size) else None.

Definition latency_dist_new_quantile (perins perkey : bool) (extra_size : Z) (mem : bool) : option latency_dist :=
  match latency_dist_new perins perkey extra_size mem with
  | Some d => Some (set_quantile d true)
  | None => None
  end.

(** [rblist__remove_node] of the first node: what is freed. *)
Definition freed (del : deleter) (n : latency_node) : list latency_node :=
  match del with latency_stat_node_delete => [n] | empty => [] end.

(** [rblist__exit] *)
Fixpoint exit_loop (del : deleter) (next : list latency_node) : list latency_node :=
  match next with [] => [] | pos :: next => freed del pos ++ exit_loop del next end.

(** The outer [option]: the assertions of refcount.h. *)
Definition latency_dist_ref (dist : option latency_dist) : option (option latency_dist) :=
  match dist with
  | None => Some None
  | Some d => n ← RingBuf.refcount_inc (ref d); Some (Some (set_ref d n))
  end.

Definition latency_dist_free (dist : option latency_dist) : option (option latency_dist * list latency_node) :=
  match dist with
  | None => Some (None, [])
  | Some d =>
      '(n, z) ← RingBuf.refcount_dec_and_test (ref d);
      if (z : bool) then Some (None, exit_loop (node_delete d) (lat d)) else Some (Some (set_ref d n), [])
  end.

(** The body of [latency_dist_input] for the node [ln]; [None]: [ln->td] is used
    and is [NULL]. *)
Definition account (q : bool) (ln : latency_node) (lat greater_than : Z) : option latency_node :=
  td' ← (if q then t ← td ln; Some (Some (tdigest_add t lat)) else Some (td ln));
  Some (LatencyNode td' (instance ln) (key ln)
    (if lat <? ln_min ln then lat else ln_min ln)
    (if ln_max ln <? lat then lat else ln_max ln)
    (uwrap 64 (ln_n ln + 1))
    (if negb (greater_than =? 0) && (greater_than <? lat) then uwrap 64 (ln_than ln + 1) else ln_than ln)
    (uwrap 64 (ln_sum ln + lat)) (extra ln)).

(** Returns the node and the distribution. *)
Definition latency_dist_input (dist : option latency_dist) (instance key l greater_than : Z) (mem tdmem : bool)
    : option (option latency_node * option latency_dist) :=
  match dist with
  | None => Some (None, None)
  | Some d =>
      match findnew_node node_key (latency_stat_node_cmp (perins d) (perkey d)) (instance, key)
              (latency_stat_node_new d (instance, key) mem tdmem) (lat d) with
      | Some (a, ln, r) =>
          ln ← account (quantile d) ln l greater_than;
          Some (Some ln, Some (set_lat d (a ++ ln :: r)))
      | None => Some (None, Some d)
      end
  end.

Fixpoint greater_loop (nodes : list latency_node) (than : Z) : bool :=
  match nodes with [] => false | ln :: next => if than <? ln_max ln then true else greater_loop next than end.

Definition rblist__empty (l : list latency_node) : bool := match l with [] => true | _ => false end.

Definition latency_dist_greater_than (dist : option latency_dist) (than : Z) : bool :=
  match dist with
  | None => false
  | Some d => if rblist__empty (lat d) then false else greater_loop (lat d) than
  end.

(** The loop that prints each node and removes it: what it prints and frees. *)
Fixpoint print_loop (del : deleter) (next : list latency_node) : list latency_node * list latency_node :=
  match next with
  | [] => ([], [])
  | ln :: next => let '(printed, fr) := print_loop del next in (ln :: printed, freed del ln ++ fr)
  end.

Definition latency_dist_print (dist : option latency_dist)
    : option latency_dist * list latency_node * list latency_node :=
  match dist with
  | None => (None, [], [])
  | Some d =>
      if rblist__empty (lat d) then (Some d, [], [])
      else let '(printed, fr) := print_loop (node_delete d) (lat d) in (Some (set_lat d []), printed, fr)
  end.

(** [rblist__add_node] to the sorted tree: a node equal to one that is there is
    not linked. *)
Definition sorted_add (d : latency_dist) (n : latency_node) (sorted : list latency_node) : list latency_node :=
  let '(a, m, r) := split_at (fun x => latency_stat__sorted_node_cmp (perins d) (perkey d) x n) sorted in
  match m with Some _ => sorted | None => a ++ n :: r end.

(** The loop that moves the first node to [sorted] until there is none; nothing is
    freed, [node_delete] is [empty]. *)
Fixpoint sort_loop (d : latency_dist) (nodes sorted : list latency_node) : list latency_node :=
  match nodes with
  | [] => sorted
  | rbn :: nodes => sort_loop d nodes (sorted_add d rbn sorted)
  end.

Definition latency_dist_print_sorted (dist : option latency_dist)
    : option latency_dist * list latency_node * list latency_node :=
  match dist with
  | None => (None, [], [])
  | Some d =>
      if rblist__empty (lat d) then (Some d, [], [])
      else
        let sorted := sort_loop d (lat d) [] in
        let '(printed, fr) := print_loop latency_stat_node_delete sorted in
        (Some (LatencyDist [] latency_stat_node_delete (ref d) (perins d) (perkey d) (quantile d) (extra_size d)),
         printed, fr)
  end.

Definition latency_dist_find (dist : option latency_dist) (instance key : Z) : option latency_node :=
  match dist with
  | None => None
  | Some d => find_node node_key (latency_stat_node_cmp (perins d) (perkey d)) (instance, key) (lat d)
  end.

Definition latency_dist_empty (dist : option latency_dist) : bool :=
  match dist with None => true | Some d => rblist__empty (lat d) end.

(** The distribution and what is freed. *)
Definition latency_dist_reset (dist : option latency_dist) : option latency_dist * list latency_node :=
  match dist with
  | None => (None, [])
  | Some d => (Some (set_lat d []), exit_loop (node_delete d) (lat d))
  end.

(** ** The comparisons are orders *)

Lemma node_cmp_lex pi pk n e : latency_stat_node_cmp pi pk n e =
  lex (flagged pi (fun a b => zcmp a.1 b.1)) (flagged pk (fun a b => zcmp a.2 b.2)) n e.
Proof. unfold latency_stat_node_cmp, lex, flagged. destruct pi, pk; simpl; zcmp_cases; try done; lia. Qed.

#[export] Instance node_cmp_order pi pk : KeyOrder (latency_stat_node_cmp pi pk).
Proof.
  assert (KeyOrder (lex (flagged pi (fun a b : Z * Z => zcmp a.1 b.1)) (flagged pk (fun a b => zcmp a.2 b.2)))) as [? ? ?].
  { apply lex_order; apply flagged_order; [apply (on_order fst zcmp)|apply (on_order snd zcmp)]; apply zcmp_order. }
  split; intros *; rewrite !node_cmp_lex; eauto.
Qed.

Lemma sorted_cmp_lex pi pk n e : latency_stat__sorted_node_cmp pi pk n e =
  lex (flagged pi (fun a b => zcmp (instance a) (instance b)))
    (lex (fun a b => zcmp (ln_sum b) (ln_sum a)) (flagged pk (fun a b => zcmp (key a) (key b)))) n e.
Proof. unfold latency_stat__sorted_node_cmp, lex, flagged. destruct pi, pk; simpl; zcmp_cases; try done; lia. Qed.

#[export] Instance sorted_cmp_order pi pk : KeyOrder (latency_stat__sorted_node_cmp pi pk).
Proof.
  assert (KeyOrder (lex (flagged pi (fun a b : latency_node => zcmp (instance a) (instance b)))
    (lex (fun a b => zcmp (ln_sum b) (ln_sum a)) (flagged pk (fun a b => zcmp (key a) (key b)))))) as [? ? ?].
  { apply lex_order; [|apply lex_order]; try apply flagged_order; [apply (on_order instance zcmp)| |apply (on_order key zcmp)];
      try apply zcmp_order. apply (rev_order (fun a b => zcmp (ln_sum a) (ln_sum b))), (on_order ln_sum zcmp), zcmp_order. }
  split; intros *; rewrite !sorted_cmp_lex; eauto.
Qed.

(** ** Sequences of operations *)

Inductive op := Input (instance key lat greater_than : Z) (mem tdmem : bool) | Print | Print_sorted | Reset.

Definition step (dist : option latency_dist) (o : op) : option (option latency_dist) :=
  match o with
  | Input i k l gt mem tdmem => r ← latency_dist_input dist i k l gt mem tdmem; Some r.2
  | Print => Some (latency_dist_print dist).1.1
  | Print_sorted => Some (latency_dist_print_sorted dist).1.1
  | Reset => Some (latency_dist_reset dist).1
  end.

Fixpoint run (dist : option latency_dist) (ops : list op) : option (option latency_dist) :=
  match ops with [] => Some dist | o :: ops => dist ← step dist o; run dist ops end.

(** ** What a distribution stands for *)

(** An input: the instance, the key, the latency and the threshold. *)
Local Notation input := (Z * Z * Z * Z)%type.

(** The inputs that count for the node of an instance and a key. *)
Definition same_class (pi pk : bool) (i k : Z) (r : input) : bool :=
  let '(i', k', _, _) := r in implb pi (i' =? i) && implb pk (k' =? k).

(** The inputs since the last print or reset. The first input of a class is lost
    when there is no memory for its node. *)
Definition remember (pi pk q : bool) (h : list input) (o : op) : list input :=
  match o with
  | Input i k l gt mem tdmem =>
      if existsb (same_class pi pk i k) h || mem && (negb q || tdmem) then h ++ [(i, k, l, gt)] else h
  | Print | Print_sorted | Reset => []
  end.

Definition lat_of (r : input) : Z := r.1.2.

Definition total (l : list Z) : Z := foldr Z.add 0 l.

(** The statistics of the inputs [c] in the node of the instance [i] and key [k]. *)
Definition node_of (q : bool) (size i k : Z) (c : list input) : latency_node :=
  LatencyNode (if q then Some (fold_left tdigest_add (map lat_of c) tdigest_new) else None) i k
    (fold_left Z.min (map lat_of c) (2 ^ 64 - 1)) (fold_left Z.max (map lat_of c) 0)
    (uwrap 64 (Z.of_nat (length c)))
    (uwrap 64 (Z.of_nat (length (List.filter (fun '(_, _, l, gt) => negb (gt =? 0) && (gt <? l)) c))))
    (uwrap 64 (total (map lat_of c))) (replicate (Z.to_nat size) 0).

(** The node of a class: it has the instance and key of its first input. *)
Definition stats (pi pk q : bool) (size : Z) (h : list input) (i k : Z) : option latency_node :=
  match List.filter (same_class pi pk i k) h with
  | [] => None
  | ((i0, k0, _, _) :: _) as c => Some (node_of q size i0 k0 c)
  end.

(** ** Proofs *)

Lemma account_node_of q size i k c i' k' l gt :
  account q (node_of q size i k c) l gt = Some (node_of q size i k (c ++ [(i', k', l, gt)])).
Proof.
  unfold account, node_of. simpl. rewrite !map_app, !fold_left_app. simpl.
  rewrite List.filter_app, !length_app. cbn [length List.filter]. change (lat_of (i', k', l, gt)) with l.
  assert (total (map lat_of c ++ [l]) = total (map lat_of c) + l) as ->.
  { unfold total. induction (map lat_of c) as [|x xs IH]; simpl; [lia|]. rewrite IH. lia. }
  assert (forall m : Z, (if l <? m then l else m) = Z.min m l) as -> by (intros m; destruct (Z.ltb_spec l m); lia).
  assert (forall m : Z, (if m <? l then l else m) = Z.max m l) as -> by (intros m; destruct (Z.ltb_spec m l); lia).
  rewrite !uwrap_add_l by lia. rewrite Nat2Z.inj_add.
  destruct (negb (gt =? 0) && (gt <? l)); simpl; rewrite ?Nat.add_0_r, ?Nat2Z.inj_add; destruct q; done.
Qed.

Lemma same_class_cmp pi pk i k i' k' l gt :
  same_class pi pk i k (i', k', l, gt) = (latency_stat_node_cmp pi pk (i', k') (i, k) =? 0).
Proof.
  unfold same_class, latency_stat_node_cmp. simpl.
  destruct pi, pk; simpl; zcmp_cases; simpl; try done;
    destruct (Z.eqb_spec i' i); try (simpl; lia); destruct (Z.eqb_spec k' k); try (simpl; lia); try done; lia.
Qed.

(** Inputs of one class have one class. *)
Lemma same_class_eq pi pk i k j m : latency_stat_node_cmp pi pk (i, k) (j, m) = 0 ->
  forall r, same_class pi pk i k r = same_class pi pk j m r.
Proof.
  intros H [[[i' k'] l] gt]. rewrite !same_class_cmp. apply eq_bool_prop_intro. rewrite !Is_true_true, !Z.eqb_eq.
  pose proof (ko_eq _ _ _ (i', k') H) as [_ E].
  rewrite (ko_sym _ (i', k') (i, k)), (ko_sym _ (i', k') (j, m)). done.
Qed.

Lemma stats_eq pi pk q size h i k j m : latency_stat_node_cmp pi pk (i, k) (j, m) = 0 ->
  stats pi pk q size h i k = stats pi pk q size h j m.
Proof. intros H. unfold stats. rewrite (List.filter_ext _ _ (same_class_eq _ _ _ _ _ _ H)). done. Qed.

Lemma stats_none pi pk q size h i k :
  stats pi pk q size h i k = None <-> existsb (same_class pi pk i k) h = false.
Proof.
  unfold stats. induction h as [|[[[i' k'] l] gt] h IH]; simpl; [done|].
  destruct (implb pi (i' =? i) && implb pk (k' =? k)); done.
Qed.

(** One more input of the class. *)
Lemma stats_snoc_same pi pk q size h i k l gt :
  stats pi pk q size (h ++ [(i, k, l, gt)]) i k =
  account q (default (node_of q size i k []) (stats pi pk q size h i k)) l gt.
Proof.
  unfold stats. rewrite List.filter_app. cbn [List.filter]. rewrite same_class_cmp, ko_refl by apply _. simpl.
  destruct (List.filter (same_class pi pk i k) h) as [|[[[i0 k0] l0] gt0] c]; simpl default.
  - rewrite account_node_of with (i' := i) (k' := k). done.
  - rewrite account_node_of with (i' := i) (k' := k). done.
Qed.

Lemma stats_snoc_other pi pk q size h i k l gt j m : latency_stat_node_cmp pi pk (i, k) (j, m) <> 0 ->
  stats pi pk q size (h ++ [(i, k, l, gt)]) j m = stats pi pk q size h j m.
Proof.
  intros H. unfold stats. rewrite List.filter_app. cbn [List.filter]. rewrite same_class_cmp.
  rewrite (proj2 (Z.eqb_neq _ _) H), app_nil_r. done.
Qed.

Lemma account_key q ln l gt ln' : account q ln l gt = Some ln' -> node_key ln' = node_key ln.
Proof. unfold account. destruct q; [destruct (td ln); [|done]|]; simpl; intros [= <-]; done. Qed.

Lemma node_new_eq d i k mem tdmem : latency_stat_node_new d (i, k) mem tdmem =
  if mem && (negb (quantile d) || tdmem) then Some (node_of (quantile d) (extra_size d) i k []) else None.
Proof. unfold latency_stat_node_new. destruct mem, tdmem, (quantile d); done. Qed.

Local Notation dcmp d := (latency_stat_node_cmp (perins d) (perkey d)).
Local Notation dstats d := (stats (perins d) (perkey d) (quantile d) (extra_size d)).

(** The nodes are sorted, and they are those of the inputs [h]. *)
Record repr (d : latency_dist) (h : list input) : Prop := {
  repr_sorted : sorted_by node_key (dcmp d) (lat d);
  repr_delete : node_delete d = latency_stat_node_delete;
  repr_find : forall i k, find_node node_key (dcmp d) (i, k) (lat d) = dstats d h i k;
}.

(** The options of a distribution do not change. *)
Definition same_options (d d' : latency_dist) : Prop :=
  (perins d', perkey d', quantile d', extra_size d') = (perins d, perkey d, quantile d, extra_size d).

Lemma repr_nil d : lat d = [] -> node_delete d = latency_stat_node_delete -> repr d [].
Proof. intros Hl Hd. split; rewrite ?Hl; [constructor|done|done]. Qed.

Lemma repr_lat_nil d h : repr d h -> lat d = [] <-> h = [].
Proof.
  intros [Hs _ Hf]. split.
  - intros Hl. destruct h as [|[[[i k] l] gt] h]; [done|]. specialize (Hf i k). rewrite Hl in Hf. symmetry in Hf.
    apply stats_none in Hf. cbn [existsb] in Hf. rewrite same_class_cmp, ko_refl in Hf by apply _. done.
  - intros ->. destruct (lat d) as [|n l] eqn:El; [done|]. specialize (Hf (instance n) (key n)).
    assert (find_node node_key (dcmp d) (instance n, key n) (n :: l) = Some n) as Hn.
    { apply find_node_elem; [apply _|done|]. split; [apply list_elem_of_here|]. apply ko_refl, _. }
    rewrite Hn in Hf. done.
Qed.

Lemma input_repr d h i k l gt mem tdmem : repr d h ->
  exists n d', latency_dist_input (Some d) i k l gt mem tdmem = Some (n, Some d') /\
  repr d' (remember (perins d) (perkey d) (quantile d) h (Input i k l gt mem tdmem)) /\ same_options d d' /\
  n = if existsb (same_class (perins d) (perkey d) i k) h || mem && (negb (quantile d) || tdmem)
      then latency_dist_find (Some d') i k else None.
Proof.
  intros [Hs Hd Hf]. unfold latency_dist_input. simpl. rewrite node_new_eq.
  set (new := if mem && _ then _ else None).
  destruct (findnew_node node_key (dcmp d) (i, k) new (lat d)) as [[[a x] r]|] eqn:E.
  - assert (dstats d h i k = Some x \/ dstats d h i k = None /\ new = Some x) as Hx.
    { rewrite <- Hf. eapply (findnew_update _ _ _ _ _ _ _ _ x); [done| |exact E|done].
      intros n. unfold new. destruct (mem && _); [|done]. intros [= <-]. apply ko_refl, _. }
    assert (x = default (node_of (quantile d) (extra_size d) i k []) (dstats d h i k) /\
      (existsb (same_class (perins d) (perkey d) i k) h || mem && (negb (quantile d) || tdmem)) = true) as [-> ->].
    { destruct Hx as [Hx|[Hx Hn]]; rewrite Hx; simpl.
      - split; [done|]. destruct (existsb _ h) eqn:Eh; [done|]. apply (stats_none _ _ (quantile d) (extra_size d)) in Eh. congruence.
      - unfold new in Hn. destruct (mem && _); [|done]. rewrite orb_true_r. split; congruence. }
    pose proof (stats_snoc_same (perins d) (perkey d) (quantile d) (extra_size d) h i k l gt) as Hst.
    destruct (account _ _ l gt) as [x'|] eqn:Ea.
    2: { exfalso. revert Ea. unfold stats. destruct (List.filter _ h) as [|[[[? ?] ?] ?] c]; simpl default;
           rewrite account_node_of with (i' := i) (k' := k); done. }
    destruct (findnew_update node_key (dcmp d) (lat d) (i, k) new a (default (node_of (quantile d) (extra_size d) i k [])
      (dstats d h i k)) r x' Hs) with (2 := E) as (Hs' & _ & _ & Hj).
    { intros n. unfold new. destruct (mem && _); [|done]. intros [= <-]. apply ko_refl, _. }
    { exact (account_key _ _ _ _ _ Ea). }
    eexists _, _. split; [reflexivity|]. split_and!; [|done|].
    + split; [done|done|]. intros j m. simpl. rewrite Hj. destruct (Z.eqb_spec (dcmp d (i, k) (j, m)) 0) as [Hc|Hc].
      * rewrite <- (stats_eq _ _ _ _ _ _ _ _ _ Hc). done.
      * rewrite stats_snoc_other by done. apply Hf.
    + simpl. rewrite Hj, ko_refl by apply _. done.
  - apply findnew_none in E as [E Hn]. rewrite Hf in E.
    assert ((existsb (same_class (perins d) (perkey d) i k) h || mem && (negb (quantile d) || tdmem)) = false) as Eo.
    { apply stats_none in E. rewrite E. unfold new in Hn. destruct (mem && _); done. }
    eexists _, _. split; [reflexivity|]. simpl. rewrite Eo. split_and!; [split; done|done|done].
Qed.

Lemma step_repr d h o : repr d h -> exists d', step (Some d) o = Some (Some d') /\
  repr d' (remember (perins d) (perkey d) (quantile d) h o) /\ same_options d d'.
Proof.
  intros Hr. destruct o as [i k l gt mem tdmem| | |].
  - destruct (input_repr d h i k l gt mem tdmem Hr) as (n & d' & E & Hr' & Ho & _).
    exists d'. unfold step. rewrite E. done.
  - unfold step, latency_dist_print. pose proof (proj1 (repr_lat_nil _ _ Hr)) as Hn. pose proof (repr_delete _ _ Hr) as Hd.
    destruct (lat d) as [|x l] eqn:El; simpl.
    + exists d. rewrite <- (Hn eq_refl). done.
    + destruct (print_loop (node_delete d) l) as [p f]. eexists. split; [reflexivity|]. split; [apply repr_nil; done|done].
  - unfold step, latency_dist_print_sorted. pose proof (proj1 (repr_lat_nil _ _ Hr)) as Hn. simpl.
    destruct (lat d) as [|x l] eqn:El; cbn [rblist__empty].
    + exists d. rewrite <- (Hn eq_refl). done.
    + destruct (print_loop _ _) as [p f]. eexists. split; [reflexivity|]. split; [apply repr_nil; done|done].
  - eexists. split; [reflexivity|]. split; [apply repr_nil; [done|apply (repr_delete _ _ Hr)]|done].
Qed.

Lemma run_repr ops d h : repr d h -> exists d', run (Some d) ops = Some (Some d') /\
  repr d' (fold_left (remember (perins d) (perkey d) (quantile d)) ops h) /\ same_options d d'.
Proof.
  revert d h. induction ops as [|o ops IH]; intros d h Hr; simpl; [exists d; done|].
  destruct (step_repr d h o Hr) as (d1 & -> & Hr1 & Ho). simpl. destruct (IH _ _ Hr1) as (d2 & -> & Hr2 & Ho2).
  exists d2. split; [done|]. unfold same_options in *. injection Ho as H1 H2 H3 H4. rewrite H1, H2, H3, H4 in *. done.
Qed.

Lemma new_repr pi pk (q : bool) size : exists d,
  (if q then latency_dist_new_quantile else latency_dist_new) pi pk size true = Some d /\ repr d [] /\
  (perins d, perkey d, quantile d, extra_size d) = (pi, pk, q, size).
Proof. destruct q; eexists; (split; [reflexivity|]; split; [apply repr_nil; done|done]). Qed.

(** The state after [latency_dist_new] and the operations. *)
Lemma new_run_repr pi pk (q : bool) size ops : exists d,
  run ((if q then latency_dist_new_quantile else latency_dist_new) pi pk size true) ops = Some (Some d) /\
  repr d (fold_left (remember pi pk q) ops []) /\
  (perins d, perkey d, quantile d, extra_size d) = (pi, pk, q, size).
Proof.
  destruct (new_repr pi pk q size) as (d0 & -> & Hr & E). injection E as E1 E2 E3 E4.
  destruct (run_repr ops d0 [] Hr) as (d & -> & Hr' & Ho). exists d. split; [done|].
  unfold same_options in Ho. injection Ho as H1 H2 H3 H4. rewrite E1, E2, E3 in Hr'. split; congruence.
Qed.

(** *** The maximum *)

Lemma greater_loop_exists l than : greater_loop l than = true <-> exists n, n ∈ l /\ than < ln_max n.
Proof.
  induction l as [|n l IH]; simpl; [split; [done|intros (n & Hn & _); inversion Hn]|].
  destruct (Z.ltb_spec than (ln_max n)) as [Hl|Hl].
  - split; [|done]. exists n. split; [apply list_elem_of_here|done].
  - rewrite IH. split; intros (x & Hx & Hm); exists x; (split; [|done]); [apply list_elem_of_further; done|].
    apply elem_of_cons in Hx as [->|Hx]; [lia|done].
Qed.

Lemma fold_max_gt l m than : than < fold_left Z.max l m <-> than < m \/ exists x, x ∈ l /\ than < x.
Proof.
  revert m. induction l as [|y l IH]; intros m; simpl; [split; [auto|intros [|(x & Hx & _)]; [done|inversion Hx]]|].
  rewrite IH. setoid_rewrite elem_of_cons. split.
  - intros [H|(x & Hx & H)]; [|naive_solver]. destruct (Z.max_spec m y) as [[_ E]|[_ E]]; rewrite E in H; naive_solver.
  - intros [H|(x & [->|Hx] & H)]; [left; lia|left; lia|naive_solver].
Qed.

Lemma stats_max pi pk q size h i k n than : 0 <= than -> stats pi pk q size h i k = Some n ->
  (than < ln_max n <-> exists r, r ∈ h /\ same_class pi pk i k r = true /\ than < lat_of r).
Proof.
  intros Ht. unfold stats. destruct (List.filter _ h) as [|[[[i0 k0] l0] gt0] c] eqn:E; [done|].
  intros [= <-]. rewrite <- E. simpl ln_max. rewrite fold_max_gt. split.
  - intros [|(x & Hx & H)]; [lia|]. apply list_elem_of_fmap in Hx as (r & -> & Hr). exists r.
    apply list_elem_of_In, List.filter_In in Hr as [Hr Hc]. apply list_elem_of_In in Hr. done.
  - intros (r & Hr & Hc & H). right. exists (lat_of r). split; [|done]. apply list_elem_of_fmap. exists r. split; [done|].
    apply list_elem_of_In, List.filter_In. split; [|done]. apply list_elem_of_In. done.
Qed.

Lemma greater_repr d h than : repr d h -> 0 <= than ->
  latency_dist_greater_than (Some d) than = existsb (fun r => than <? lat_of r) h.
Proof.
  intros [Hs _ Hf] Ht. apply eq_bool_prop_intro. rewrite !Is_true_true, existsb_exists.
  transitivity (greater_loop (lat d) than = true).
  { unfold latency_dist_greater_than. destruct (lat d); done. }
  rewrite greater_loop_exists. split.
  - intros (n & Hn & Hm). assert (dstats d h (instance n) (key n) = Some n) as Hst.
    { rewrite <- Hf. apply find_node_elem; [apply _|done|]. split; [done|]. apply ko_refl, _. }
    apply (stats_max _ _ _ _ _ _ _ _ than Ht Hst) in Hm as (r & Hr & _ & Hl). exists r.
    split; [apply list_elem_of_In; done|]. apply Z.ltb_lt. done.
  - intros ([[[i k] l] gt] & Hr & Hl). apply list_elem_of_In in Hr.
    destruct (dstats d h i k) as [n|] eqn:Hst.
    + exists n. split.
      * rewrite <- Hf in Hst. apply find_node_elem in Hst; [tauto|apply _|done].
      * apply (stats_max _ _ _ _ _ _ _ _ than Ht Hst). exists (i, k, l, gt). split; [done|].
        rewrite same_class_cmp, ko_refl by apply _. split; [done|]. apply Z.ltb_lt. done.
    + apply stats_none in Hst. exfalso. apply not_true_iff_false in Hst. apply Hst, existsb_exists.
      exists (i, k, l, gt). split; [apply list_elem_of_In; done|]. rewrite same_class_cmp, ko_refl by apply _. done.
Qed.

(** *** The sorted print *)

Lemma print_loop_eq l : print_loop latency_stat_node_delete l = (l, l).
Proof. induction l as [|x l IH]; simpl; [done|]. rewrite IH. done. Qed.

(** Nodes that the sorted comparison does not tell apart have one class. *)
Lemma sorted_cmp_class pi pk n e : latency_stat__sorted_node_cmp pi pk n e = 0 ->
  latency_stat_node_cmp pi pk (node_key n) (node_key e) = 0.
Proof.
  unfold latency_stat__sorted_node_cmp, latency_stat_node_cmp. simpl. destruct pi, pk; simpl; zcmp_cases; lia.
Qed.

Local Notation scmp d := (latency_stat__sorted_node_cmp (perins d) (perkey d)).

Lemma sorted_add_ok d n l : sorted_by id (scmp d) l -> (forall y, y ∈ l -> dcmp d (node_key y) (node_key n) <> 0) ->
  sorted_by id (scmp d) (sorted_add d n l) /\ Permutation (sorted_add d n l) (n :: l).
Proof.
  intros Hs Hn. unfold sorted_add.
  pose proof (split_at_spec _ _ (sorted_by_ordered id (scmp d) l n Hs)) as Hsp. unfold id in Hsp.
  destruct (split_at (fun x => scmp d x n) l) as [[a m] r] eqn:E. destruct Hsp as (El & Ha & Hm & Hr).
  destruct m as [y|]; [destruct (Hn y)|].
  - rewrite El. set_solver +.
  - apply sorted_cmp_class. auto.
  - simpl in El. split; [|rewrite El; symmetry; apply Permutation_middle].
    eapply (findnew_update id (scmp d) l n (Some n) a n r n Hs); [|unfold findnew_node, id; rewrite E; done|done].
    intros x [= <-]. apply ko_refl, _.
Qed.

Lemma sort_loop_ok d nodes sorted : sorted_by node_key (dcmp d) nodes -> sorted_by id (scmp d) sorted ->
  (forall x y, x ∈ nodes -> y ∈ sorted -> dcmp d (node_key y) (node_key x) <> 0) ->
  sorted_by id (scmp d) (sort_loop d nodes sorted) /\ Permutation (sort_loop d nodes sorted) (nodes ++ sorted).
Proof.
  revert sorted. induction nodes as [|n nodes IH]; intros sorted Hn Hs Hd; simpl; [done|].
  apply StronglySorted_inv in Hn as [Hn Hx]. rewrite list.Forall_forall in Hx.
  destruct (sorted_add_ok d n sorted Hs) as [Hs' Hp]. { intros y Hy. apply Hd; [apply list_elem_of_here|done]. }
  destruct (IH (sorted_add d n sorted) Hn Hs') as [H1 H2].
  - intros x y Hin Hy. rewrite Hp in Hy. apply elem_of_cons in Hy as [->|Hy].
    + specialize (Hx x Hin). lia.
    + apply Hd; [apply list_elem_of_further|]; done.
  - split; [done|]. rewrite H2, Hp. symmetry. apply Permutation_middle.
Qed.

(** The order of the sorted print: by instance, then the greatest total first,
    then by key. *)
Definition before (pi pk : bool) (a b : latency_node) : Prop :=
  pi = true /\ instance a < instance b \/
  (pi = true -> instance a = instance b) /\
    (ln_sum b < ln_sum a \/ ln_sum a = ln_sum b /\ pk = true /\ key a < key b).

Lemma sorted_cmp_before pi pk a b : latency_stat__sorted_node_cmp pi pk a b < 0 -> before pi pk a b.
Proof.
  unfold latency_stat__sorted_node_cmp, before. destruct pi, pk; simpl; zcmp_cases; intros; try lia;
    try (right; split; [lia|left; lia]); try (right; split; [done|left; lia]);
    try (right; split; [lia|right; repeat split; lia]); try (right; split; [done|right; repeat split; lia]).
Qed.

(** C38: after any sequence of inputs, prints and resets of a new distribution, with
    any allocation failing, [latency_dist_find] returns the statistics of the
    inputs of that class since the last print or reset (the minimum, the maximum,
    the number, the number above the threshold, the sum and the t-digest), and no
    node when there was none; [latency_dist_greater_than] says whether one of the
    inputs is above the value and [latency_dist_empty] whether there is none. *)
Theorem latency_stats_correct pi pk (q : bool) size ops :
  let h := fold_left (remember pi pk q) ops [] in
  exists d, run ((if q then latency_dist_new_quantile else latency_dist_new) pi pk size true) ops = Some (Some d) /\
  (forall i k, latency_dist_find (Some d) i k = stats pi pk q size h i k) /\
  (forall than, 0 <= than -> latency_dist_greater_than (Some d) than = existsb (fun r => than <? lat_of r) h) /\
  (latency_dist_empty (Some d) = true <-> h = []).
Proof.
  intros h. destruct (new_run_repr pi pk q size ops) as (d & E & Hr & Eo). injection Eo as <- <- <- <-. fold h in Hr.
  exists d. split_and!; [exact E|apply (repr_find _ _ Hr)|intros than; apply greater_repr, Hr|].
  rewrite <- (repr_lat_nil _ _ Hr). unfold latency_dist_empty. destruct (lat d); done.
Qed.

(** C39: after any sequence of operations [latency_dist_print_sorted] prints every
    node once, by instance (when there is a node per instance), the greatest sum
    first, then by key; it frees what it printed and leaves the distribution empty
    with its [node_delete] restored. *)
Theorem latency_print_sorted_correct pi pk (q : bool) size ops :
  exists d, run ((if q then latency_dist_new_quantile else latency_dist_new) pi pk size true) ops = Some (Some d) /\
  let '(d', printed, fr) := latency_dist_print_sorted (Some d) in
  Permutation printed (lat d) /\ StronglySorted (before pi pk) printed /\ fr = printed /\
  d' = Some (set_lat d []) /\ node_delete d = latency_stat_node_delete.
Proof.
  destruct (new_run_repr pi pk q size ops) as (d & E & Hr & Eo). injection Eo as <- <- <- <-.
  exists d. split; [exact E|]. pose proof (repr_sorted _ _ Hr) as Hs. pose proof (repr_delete _ _ Hr) as Hd.
  destruct (sort_loop_ok d (lat d) [] Hs) as [H1 H2]; [constructor|intros x y _ Hy; inversion Hy|].
  rewrite app_nil_r in H2. unfold latency_dist_print_sorted. destruct (lat d) as [|x l] eqn:El; cbn [rblist__empty].
  - split_and!; [done|constructor|done|destruct d; simpl in *; subst; done|done].
  - rewrite print_loop_eq. split_and!; [done| |done|unfold set_lat; rewrite Hd; done|done].
    eapply sorted_ext; [|exact H1]. intros a b _ _. apply sorted_cmp_before.
Qed.

End Dist.

(** Two instances, one reset and a failing allocation; the digest lists what it got. *)
Definition example_ops : list op :=
  [Input 1 7 50 0 true true; Reset; Input 2 7 90 60 true true; Input 1 7 30 60 true true;
   Input 2 7 10 60 false false; Input 2 8 99 60 true false].

Lemma latency_stats_correct_witness :
  let h := fold_left (remember true true true) example_ops [] in
  exists d, run [] (fun t l => t ++ [l]) (latency_dist_new_quantile true true 0 true) example_ops = Some (Some d) /\
  latency_dist_find (Some d) 2 7 = Some (LatencyNode (Some [90; 10]) 2 7 10 90 2 1 100 []) /\
  latency_dist_find (Some d) 2 8 = None /\ latency_dist_greater_than (Some d) 80 = true.
Proof.
  intros h. destruct (latency_stats_correct [] (fun t l => t ++ [l]) true true true 0 example_ops) as (d & E & H1 & H2 & _).
  exists d. split; [exact E|]. split; [rewrite H1; vm_compute; reflexivity|].
  split; [rewrite H1; vm_compute; reflexivity|]. rewrite H2 by lia. vm_compute. reflexivity.
Defined.

End Latency.
