(* ===== verification/Count.v ===== *)
(** * Count distributions (count_helpers.c)

    [Module Count] models the counters per instance, id and key: a list of nodes
    sorted by the comparison of the code (the tree of rblist.c from left to
    right), each with an array of [hist_size] counts. A function returns [None]
    where the code dereferences [NULL], divides by 0 or indexes outside the array;
    the theorem says that it never does for a distribution that was allocated with
    room for a count, and what the nodes hold. *)

From stdpp Require Import sorting.
From S2P Require Import Prelude Rblist.

Module Count.
Import Rblist.

(** ** Data *)

Record count_node := CountNode {
  n_ins : Z; n_id : Z; n_key : Z; n_max : Z; n_sum : Z; hist_len : Z; hist : list Z;
}.

Record count_dist := CountDist {
  dist : list count_node; ins : bool; id : bool; key : bool; hist_size : Z; max : Z;
}.

Definition node_key (n : count_node) : Z * Z * Z := (n_ins n, n_id n, n_key n).

(** Of the instance, id and key of a node, with those of the entry. *)
Definition count_dist_node_cmp (ins id key : bool) (n e : Z * Z * Z) : Z :=
  if ins && (e.1.1 <? n.1.1) then 1
  else if ins && (n.1.1 <? e.1.1) then -1
  else if id && (e.1.2 <? n.1.2) then 1
  else if id && (n.1.2 <? e.1.2) then -1
  else if key && (e.2 <? n.2) then 1
  else if key && (n.2 <? e.2) then -1
  else 0.

(** ** Operations *)

(** [mem]: [malloc] succeeds. *)
Definition count_dist_node_new (d : count_dist) (e : Z * Z * Z) (mem : bool) : option count_node :=
  if mem then Some (CountNode e.1.1 e.1.2 e.2 0 0 0 (replicate (Z.to_nat (hist_size d)) 0)) else None.

Definition count_dist_new (ins id key : bool) (hist_size : Z) (mem : bool) : option count_dist :=
  if mem then Some (CountDist [] ins id key hist_size 0) else None.

(** The entry that is looked up. *)
Definition entry (d : count_dist) (i j k : Z) : Z * Z * Z :=
  (if ins d then i else 0, if id d then j else 0, if key d then k else 0).

(** [n->hist[i] += count], the two maxima and the sum: the node and [dist->max]. *)
Definition add_count (d : count_dist) (n : count_node) (i count : Z) : option (count_node * Z) :=
  v ← (if 0 <=? i then hist n !! Z.to_nat i else None);
  let v := uwrap 64 (v + count) in
  Some (CountNode (n_ins n) (n_id n) (n_key n) (if n_max n <? v then v else n_max n) (uwrap 64 (n_sum n + count))
          (hist_len n) (<[Z.to_nat i := v]> (hist n)),
        if max d <? v then v else max d).

Definition set_len (n : count_node) (len : Z) : count_node :=
  CountNode (n_ins n) (n_id n) (n_key n) (n_max n) (n_sum n) len (hist n).

Definition set_dist (d : count_dist) (l : list count_node) (m : Z) : count_dist :=
  CountDist l (ins d) (id d) (key d) (hist_size d) m.

(** The fields of [dist] are read before it is tested. *)
Definition count_dist_input (p : option count_dist) (i j k count : Z) (mem : bool) : option (option count_dist) :=
  d ← p;
  let e := entry d i j k in
  match findnew_node node_key (count_dist_node_cmp (ins d) (id d) (key d)) e (count_dist_node_new d e mem) (dist d) with
  | Some (a, n, r) =>
      '(n, m) ← add_count d n (hist_len n) count;
      if hist_size d =? 0 then None
      else Some (Some (set_dist d (a ++ set_len n (Z.rem (hist_len n + 1) (hist_size d)) :: r) m))
  | None => Some (Some d)
  end.

Definition count_dist_insert (p : option count_dist) (i j k slot count : Z) (mem : bool) : option (option count_dist) :=
  d ← p;
  let e := entry d i j k in
  match findnew_node node_key (count_dist_node_cmp (ins d) (id d) (key d)) e (count_dist_node_new d e mem) (dist d) with
  | Some (a, n, r) =>
      if uwrap 64 (hist_size d) =? 0 then None
      else
        let slot := slot mod uwrap 64 (hist_size d) in
        '(n, m) ← add_count d n slot count;
        let n := if uwrap 64 (hist_len n) <? slot then set_len n (swrap 32 slot) else n in
        Some (Some (set_dist d (a ++ n :: r) m))
  | None => Some (Some d)
  end.

(** The nodes that are printed, in order. *)
Definition count_dist_print (p : option count_dist) : list count_node :=
  match p with None => [] | Some d => dist d end.

Definition count_dist_max (p : option count_dist) : Z := match p with None => 0 | Some d => max d end.

Definition count_dist_reset (p : option count_dist) : option count_dist :=
  match p with None => None | Some d => Some (set_dist d [] 0) end.

(** The nodes that are freed with the distribution. *)
Definition count_dist_free (p : option count_dist) : list count_node :=
  match p with None => [] | Some d => dist d end.

Definition count_dist_empty (p : option count_dist) : bool :=
  match p with None => true | Some d => match dist d with [] => true | _ => false end end.

(** ** Sequences of operations and what the nodes stand for *)

Inductive op :=
  | Input (i j k count : Z) (mem : bool) | Insert (i j k slot count : Z) (mem : bool) | Reset.

Definition step (p : option count_dist) (o : op) : option (option count_dist) :=
  match o with
  | Input i j k count mem => count_dist_input p i j k count mem
  | Insert i j k slot count mem => count_dist_insert p i j k slot count mem
  | Reset => Some (count_dist_reset p)
  end.

Fixpoint run (p : option count_dist) (ops : list op) : option (option count_dist) :=
  match ops with [] => Some p | o :: ops => p ← step p o; run p ops end.

(** A count for the next slot, or for a given slot. *)
Inductive event := Next (count : Z) | At (slot count : Z).

(** The key of an operation, with 0 for the parts that are not used. *)
Definition masked (fi fd fk : bool) (i j k : Z) : Z * Z * Z :=
  (if fi then i else 0, if fd then j else 0, if fk then k else 0).

Notation hist_t := (list ((Z * Z * Z) * event)).

(** The events of a key. *)
Definition events (h : hist_t) (k : Z * Z * Z) : list event := map snd (List.filter (fun x => bool_decide (x.1 = k)) h).

(** The history with an event of the key [k]; the first one of a key is lost when
    there is no memory for its node. *)
Definition put (h : hist_t) (k : Z * Z * Z) (e : event) (mem : bool) : hist_t :=
  match events h k with [] => if mem then h ++ [(k, e)] else h | _ => h ++ [(k, e)] end.

(** The events since the last reset. *)
Definition remember (fi fd fk : bool) (h : hist_t) (o : op) : hist_t :=
  match o with
  | Input i j k count mem => put h (masked fi fd fk i j k) (Next count) mem
  | Insert i j k slot count mem => put h (masked fi fd fk i j k) (At slot count) mem
  | Reset => []
  end.

(** The slot that is next: an input goes on to the next one, around the end; an
    insertion beyond it moves it there. *)
Definition next_slot (size : Z) (len : Z) (e : event) : Z :=
  match e with Next _ => (len + 1) mod size | At slot _ => Z.max len (slot mod size) end.

Definition slot_of (size : Z) (len : Z) (e : event) : Z :=
  match e with Next _ => len | At slot _ => slot mod size end.

Definition count_of (e : event) : Z := match e with Next c | At _ c => c end.

(** The total of the counts for the slot [j], and of all. *)
Fixpoint slot_sum (size len : Z) (c : list event) (j : Z) : Z :=
  match c with
  | [] => 0
  | e :: c => (if slot_of size len e =? j then count_of e else 0) + slot_sum size (next_slot size len e) c j
  end.

Definition sum_of (c : list event) : Z := foldr (fun e s => count_of e + s) 0 c.

(** A node that holds the counts of the events [c] and fits the array. Its maximum is
    the greatest total that a slot has had, after any number of the events. *)
Record node_ok (size m : Z) (c : list event) (n : count_node) : Prop := {
  ok_len : hist_len n = fold_left (next_slot size) c 0;
  ok_range : 0 <= hist_len n < size;
  ok_size : Z.of_nat (length (hist n)) = size;
  ok_hist : forall j, 0 <= j < size -> hist n !! Z.to_nat j = Some (uwrap 64 (slot_sum size 0 c j));
  ok_sum : n_sum n = uwrap 64 (sum_of c);
  ok_max_le : 0 <= n_max n <= m;
  ok_max_bound : forall p j, p `prefix_of` c -> 0 <= j < size -> uwrap 64 (slot_sum size 0 p j) <= n_max n;
  ok_max_reached : exists p j, p `prefix_of` c /\ 0 <= j < size /\ n_max n = uwrap 64 (slot_sum size 0 p j);
}.

(** The nodes are sorted, there is one for each key of the history and no other,
    and the maximum is that of one of the nodes. *)
Record repr (d : count_dist) (h : hist_t) : Prop := {
  repr_sorted : sorted_by node_key (count_dist_node_cmp (ins d) (id d) (key d)) (dist d);
  repr_mask : forall n, n ∈ dist d -> node_key n = entry d (n_ins n) (n_id n) (n_key n);
  repr_max : max d = 0 \/ exists n, n ∈ dist d /\ max d = n_max n;
  repr_max0 : 0 <= max d;
  repr_find : forall i j k,
    match find_node node_key (count_dist_node_cmp (ins d) (id d) (key d)) (entry d i j k) (dist d), events h (entry d i j k) with
    | None, [] => True
    | Some n, (_ :: _) as c => node_ok (hist_size d) (max d) c n
    | _, _ => False
    end;
}.

(** ** The comparison *)

Lemma count_cmp_lex fi fd fk n e : count_dist_node_cmp fi fd fk n e =
  lex (flagged fi (fun a b => zcmp a.1.1 b.1.1))
    (lex (flagged fd (fun a b => zcmp a.1.2 b.1.2)) (flagged fk (fun a b => zcmp a.2 b.2))) n e.
Proof. unfold count_dist_node_cmp, lex, flagged. destruct fi, fd, fk; simpl; zcmp_cases; try done; lia. Qed.

#[export] Instance node_cmp_order fi fd fk : KeyOrder (count_dist_node_cmp fi fd fk).
Proof.
  assert (KeyOrder (lex (flagged fi (fun a b : Z * Z * Z => zcmp a.1.1 b.1.1))
    (lex (flagged fd (fun a b => zcmp a.1.2 b.1.2)) (flagged fk (fun a b => zcmp a.2 b.2))))) as [? ? ?].
  { apply lex_order; [|apply lex_order]; apply flagged_order;
      [apply (on_order (fun a : Z * Z * Z => a.1.1) zcmp)|apply (on_order (fun a : Z * Z * Z => a.1.2) zcmp)
      |apply (on_order (fun a : Z * Z * Z => a.2) zcmp)]; apply zcmp_order. }
  split; intros *; rewrite !count_cmp_lex; eauto.
Qed.

(** The keys are equal when the comparison says so, with the unused parts 0. *)
Lemma masked_cmp fi fd fk i j k i' j' k' :
  count_dist_node_cmp fi fd fk (masked fi fd fk i j k) (masked fi fd fk i' j' k') = 0 <->
  masked fi fd fk i j k = masked fi fd fk i' j' k'.
Proof.
  split; [|intros ->; apply ko_refl, _]. unfold count_dist_node_cmp, masked.
  destruct fi, fd, fk; simpl; zcmp_cases; intros; try done; repeat f_equal; lia.
Qed.

(** ** One event *)

Lemma slot_sum_snoc size len c e j : slot_sum size len (c ++ [e]) j =
  slot_sum size len c j + if slot_of size (fold_left (next_slot size) c len) e =? j then count_of e else 0.
Proof. revert len. induction c as [|x c IH]; intros len; simpl; [lia|]. rewrite IH. lia. Qed.

Lemma sum_of_snoc c e : sum_of (c ++ [e]) = sum_of c + count_of e.
Proof. unfold sum_of. induction c as [|x c IH]; simpl; [lia|]. rewrite IH. lia. Qed.

Lemma prefix_of_snoc (p c : list event) e : p `prefix_of` c ++ [e] -> p `prefix_of` c \/ p = c ++ [e].
Proof.
  intros [k E]. destruct k as [|x k _] using rev_ind; [rewrite app_nil_r in E; auto|].
  rewrite app_assoc in E. apply app_inj_tail in E as [-> _]. left. exists k. done.
Qed.

Lemma node_ok_mono size m m' c n : m <= m' -> node_ok size m c n -> node_ok size m' c n.
Proof. intros Hm []. split; try done. lia. Qed.

Lemma node_ok_new size m k : 0 < size -> 0 <= m ->
  node_ok size m [] (CountNode k.1.1 k.1.2 k.2 0 0 0 (replicate (Z.to_nat size) 0)).
Proof.
  intros Hs Hm. split; simpl; [done|lia|rewrite length_replicate; lia| |done|lia| |].
  - intros j Hj. rewrite lookup_replicate_2 by lia. done.
  - intros p j Hp _. apply prefix_nil_inv in Hp as ->. done.
  - exists [], 0. split_and!; [done|lia|lia|done].
Qed.

Lemma next_slot_range size len e : 0 < size -> 0 <= len < size ->
  0 <= next_slot size len e < size /\ 0 <= slot_of size len e < size.
Proof.
  intros Hs Hl. destruct e as [c|s c]; simpl.
  - pose proof (Z.mod_pos_bound (len + 1) size Hs). lia.
  - pose proof (Z.mod_pos_bound s size Hs). lia.
Qed.

(** The counts of a node with one more event. *)
Lemma add_count_ok d n c e : 0 < hist_size d -> node_ok (hist_size d) (max d) c n ->
  exists n' m', add_count d n (slot_of (hist_size d) (hist_len n) e) (count_of e) = Some (n', m') /\
  hist_len n' = hist_len n /\ node_key n' = node_key n /\ max d <= m' /\
  (m' = n_max n' \/ m' = max d /\ (n_max n = max d -> n_max n' = max d)) /\
  node_ok (hist_size d) m' (c ++ [e]) (set_len n' (next_slot (hist_size d) (hist_len n) e)).
Proof.
  intros Hs [Hlen Hr Hsz Hh Hsum Hm0 Hmb (q & j0 & Hq & Hj0 & Hm)]. destruct (next_slot_range _ _ e Hs Hr) as [Hn Hi].
  unfold add_count. rewrite (proj2 (Z.leb_le _ _) (proj1 Hi)), Hh by done. simpl.
  set (s := slot_of _ _ e) in *. set (v := uwrap 64 (uwrap 64 _ + count_of e)).
  eexists _, _. split; [reflexivity|]. simpl. split_and!; [done|done| | |].
  - destruct (Z.ltb_spec (max d) v); lia.
  - destruct (Z.ltb_spec (max d) v), (Z.ltb_spec (n_max n) v); auto; [lia|right; split; [done|]; lia].
  - split; simpl.
    + rewrite fold_left_app, <- Hlen. done.
    + done.
    + rewrite length_insert. done.
    + intros j Hj. rewrite slot_sum_snoc, <- Hlen. fold s. destruct (Z.eqb_spec s j) as [->|Hne].
      * rewrite list_lookup_insert_eq by lia. unfold v. rewrite uwrap_add_l by lia. done.
      * rewrite list_lookup_insert_ne by lia. rewrite Z.add_0_r. auto.
    + rewrite sum_of_snoc, Hsum, uwrap_add_l by lia. done.
    + pose proof (uwrap_range 64 ltac:(lia) (uwrap 64 (slot_sum (hist_size d) 0 c s) + count_of e)) as [Hv _]. fold v in Hv.
      destruct (Z.ltb_spec (n_max n) v), (Z.ltb_spec (max d) v); lia.
    + intros p j Hp Hj. apply prefix_of_snoc in Hp as [Hp| ->]; [specialize (Hmb p j Hp Hj); destruct (Z.ltb_spec (n_max n) v); lia|].
      rewrite slot_sum_snoc, <- Hlen. fold s. destruct (Z.eqb_spec s j) as [->|Hne].
      * rewrite <- uwrap_add_l by lia. fold v. destruct (Z.ltb_spec (n_max n) v); lia.
      * rewrite Z.add_0_r. specialize (Hmb c j (reflexivity _) Hj). destruct (Z.ltb_spec (n_max n) v); lia.
    + destruct (Z.ltb_spec (n_max n) v).
      * exists (c ++ [e]), s. split_and!; [done|lia|lia|]. rewrite slot_sum_snoc, <- Hlen. fold s. rewrite Z.eqb_refl. unfold v.
        rewrite uwrap_add_l by lia. done.
      * exists q, j0. split_and!; [apply prefix_app_r; done|lia|lia|done].
Qed.

(** ** The distribution *)

Local Notation dcmp d := (count_dist_node_cmp (ins d) (id d) (key d)).

Lemma events_snoc h k e k' : events (h ++ [(k, e)]) k' = events h k' ++ if bool_decide (k = k') then [e] else [].
Proof. unfold events. rewrite List.filter_app, map_app. simpl. destruct (bool_decide (k = k')); done. Qed.

(** The node that an event goes to. *)
Lemma found_node d h i j k mem a n r : 0 < hist_size d -> repr d h ->
  findnew_node node_key (dcmp d) (entry d i j k) (count_dist_node_new d (entry d i j k) mem) (dist d) = Some (a, n, r) ->
  node_ok (hist_size d) (max d) (events h (entry d i j k)) n /\ node_key n = entry d i j k /\
  forall e, put h (entry d i j k) e mem = h ++ [(entry d i j k, e)].
Proof.
  intros Hs [Hso Hma Hmx Hm0 Hf] E.
  destruct (findnew_update node_key (dcmp d) (dist d) (entry d i j k) (count_dist_node_new d (entry d i j k) mem) a n r n Hso)
    with (2 := E) as (_ & Hk & Hx & _); [|done|].
  { intros n0. unfold count_dist_node_new. destruct mem; [|done]. intros [= <-]. apply ko_refl, _. }
  specialize (Hf i j k). unfold put. destruct Hx as [Hx|[Hx Hn]]; rewrite Hx in Hf.
  - destruct (events h (entry d i j k)) as [|e0 c]; [done|]. split_and!; [done| |done].
    apply find_node_elem in Hx as [Hin _]; [|apply _|done]. rewrite (Hma _ Hin) in Hk |- *.
    apply masked_cmp in Hk. exact Hk.
  - destruct (events h (entry d i j k)) as [|e0 c]; [|done]. unfold count_dist_node_new in Hn. destruct mem; [|done].
    injection Hn as <-. split_and!; [exact (node_ok_new _ _ (entry d i j k) Hs Hm0)|done|done].
Qed.

Lemma entry_masked d i j k n : node_key n = entry d i j k -> node_key n = entry d (n_ins n) (n_id n) (n_key n).
Proof. unfold node_key, entry. intros [= -> -> ->]. destruct (ins d), (id d), (key d); done. Qed.

(** The node with its event in the place of the old one. *)
Lemma update_repr d h i j k mem a n r e n' m' : 0 < hist_size d -> repr d h ->
  findnew_node node_key (dcmp d) (entry d i j k) (count_dist_node_new d (entry d i j k) mem) (dist d) = Some (a, n, r) ->
  node_key n' = node_key n -> max d <= m' -> (m' = n_max n' \/ m' = max d /\ (n_max n = max d -> n_max n' = max d)) ->
  node_ok (hist_size d) m' (events h (entry d i j k) ++ [e]) n' ->
  repr (set_dist d (a ++ n' :: r) m') (h ++ [(entry d i j k, e)]).
Proof.
  intros Hs Hr E Hk Hm Hmax Hok. destruct (found_node _ _ _ _ _ _ _ _ _ Hs Hr E) as (_ & Hkn & _).
  destruct Hr as [Hso Hma Hmx Hm0 Hf].
  destruct (findnew_update node_key (dcmp d) (dist d) (entry d i j k) (count_dist_node_new d (entry d i j k) mem) a n r n' Hso)
    with (2 := E) as (Hso' & _ & Hx & Hj); [|done|].
  { intros n0. unfold count_dist_node_new. destruct mem; [|done]. intros [= <-]. apply ko_refl, _. }
  assert (forall y, y ∈ a ++ n' :: r <-> y = n' \/ y ∈ dist d /\ dcmp d (entry d i j k) (node_key y) <> 0) as Hel.
  { intros y. transitivity (find_node node_key (dcmp d) (node_key y) (a ++ n' :: r) = Some y).
    { rewrite (find_node_elem _ _ _ _ _ Hso'). rewrite ko_refl by apply _. tauto. }
    rewrite Hj. destruct (Z.eqb_spec (dcmp d (entry d i j k) (node_key y)) 0) as [Hc|Hc].
    - split; [intros [= ->]; auto|]. intros [->|[_ ?]]; done.
    - rewrite (find_node_elem _ _ _ _ _ Hso). rewrite ko_refl by apply _. split; [tauto|]. intros [->|?]; [|tauto].
      rewrite Hk, Hkn, ko_refl in Hc by apply _. done. }
  split; simpl.
  - done.
  - intros y [->|[Hy _]]%Hel; [|apply Hma, Hy]. apply (entry_masked d i j k). congruence.
  - destruct Hmax as [->|[-> Hmax]]; [right; exists n'; rewrite Hel; auto|].
    destruct Hmx as [Hmx|(y & Hy & Hmx)]; [auto|]. right.
    destruct (decide (dcmp d (entry d i j k) (node_key y) = 0)) as [Hc|Hc]; [|exists y; rewrite Hel; auto].
    exists n'. rewrite Hel. split; [auto|]. symmetry. apply Hmax. rewrite Hmx. f_equal.
    assert (find_node node_key (dcmp d) (entry d i j k) (dist d) = Some y) as Hy'.
    { apply find_node_elem; [apply _|done|]. split; [done|]. apply ko_sym; [apply _|done]. }
    destruct Hx as [Hx|[Hx _]]; congruence.
  - lia.
  - intros i' j' k'. change (entry (set_dist d _ _) i' j' k') with (entry d i' j' k'). rewrite events_snoc, Hj.
    specialize (Hf i' j' k'). destruct (Z.eqb_spec (dcmp d (entry d i j k) (entry d i' j' k')) 0) as [Hc|Hc].
    + apply masked_cmp in Hc. change (entry d i j k = entry d i' j' k') in Hc. rewrite bool_decide_eq_true_2 by done.
      rewrite <- Hc. destruct (events h (entry d i j k)); exact Hok.
    + rewrite bool_decide_eq_false_2, app_nil_r by (intros He; apply Hc; rewrite He; apply ko_refl, _).
      destruct (find_node _ _ _ _), (events h (entry d i' j' k')); try done. eapply node_ok_mono; done.
Qed.

(** An event for a key without memory for a node. *)
Lemma unfound_node d h i j k mem e : repr d h ->
  findnew_node node_key (dcmp d) (entry d i j k) (count_dist_node_new d (entry d i j k) mem) (dist d) = None ->
  put h (entry d i j k) e mem = h.
Proof.
  intros Hr [E Hn]%findnew_none. pose proof (repr_find _ _ Hr i j k) as Hf. rewrite E in Hf. unfold put.
  destruct (events h (entry d i j k)); [|done]. destruct mem; done.
Qed.

Definition same_options (d d' : count_dist) : Prop :=
  (ins d', id d', key d', hist_size d') = (ins d, id d, key d, hist_size d).

Lemma count_step_repr d h o : 0 < hist_size d < 2 ^ 31 -> repr d h -> exists d', step (Some d) o = Some (Some d') /\
  repr d' (remember (ins d) (id d) (key d) h o) /\ same_options d d'.
Proof.
  intros Hs Hr. destruct o as [i j k count mem|i j k slot count mem|]; simpl.
  - unfold count_dist_input. simpl. change (masked _ _ _ i j k) with (entry d i j k).
    destruct (findnew_node _ _ _ _ _) as [[[a n] r]|] eqn:E.
    2: { rewrite (unfound_node _ _ _ _ _ _ _ Hr E). eexists. done. }
    destruct (found_node _ _ _ _ _ _ _ _ _ (proj1 Hs) Hr E) as (Hok & _ & ->).
    destruct (add_count_ok d n _ (Next count) (proj1 Hs) Hok) as (n' & m' & Ea & Hl & Hk & Hm & Hmax & Hok').
    simpl in Ea. rewrite Ea. simpl. destruct (Z.eqb_spec (hist_size d) 0); [lia|].
    pose proof (ok_range _ _ _ _ Hok) as Hrn. rewrite Hl, Z.rem_mod_nonneg by lia.
    eexists. split; [reflexivity|]. split; [|done]. eapply update_repr; [lia|done|exact E|exact Hk|done|exact Hmax|exact Hok'].
  - unfold count_dist_insert. simpl. change (masked _ _ _ i j k) with (entry d i j k).
    destruct (findnew_node _ _ _ _ _) as [[[a n] r]|] eqn:E.
    2: { rewrite (unfound_node _ _ _ _ _ _ _ Hr E). eexists. done. }
    destruct (found_node _ _ _ _ _ _ _ _ _ (proj1 Hs) Hr E) as (Hok & _ & ->).
    destruct (add_count_ok d n _ (At slot count) (proj1 Hs) Hok) as (n' & m' & Ea & Hl & Hk & Hm & Hmax & Hok').
    simpl in Ea. pose proof (Z.mod_pos_bound slot (hist_size d) (proj1 Hs)) as Hb.
    pose proof (ok_range _ _ _ _ Hok) as Hrn. rewrite (uwrap_small 64) by (unfold in_u; lia).
    destruct (Z.eqb_spec (hist_size d) 0); [lia|]. rewrite Ea. simpl. rewrite Hl, (uwrap_small 64) by (unfold in_u; lia).
    eexists. split; [reflexivity|]. split; [|done]. eapply (update_repr _ _ _ _ _ _ _ _ _ (At slot count)); [lia|done|exact E| |done| |].
    + destruct (hist_len n <? slot mod hist_size d); exact Hk.
    + destruct (hist_len n <? slot mod hist_size d); exact Hmax.
    + simpl in Hok'. destruct (Z.ltb_spec (hist_len n) (slot mod hist_size d)) as [Hlt|Hge].
      * rewrite (swrap_small 32) by (unfold in_s; lia). rewrite Z.max_r in Hok' by lia. done.
      * rewrite Z.max_l, <- Hl in Hok' by lia. destruct n'; exact Hok'.
  - eexists. split; [reflexivity|]. split; [|done]. split; simpl; [constructor|intros n Hn; inversion Hn|auto|done|done].
Qed.

Lemma count_run_repr ops d h : 0 < hist_size d < 2 ^ 31 -> repr d h -> exists d', run (Some d) ops = Some (Some d') /\
  repr d' (fold_left (remember (ins d) (id d) (key d)) ops h) /\ same_options d d'.
Proof.
  revert d h. induction ops as [|o ops IH]; intros d h Hs Hr; simpl; [exists d; done|].
  destruct (count_step_repr d h o Hs Hr) as (d1 & -> & Hr1 & Ho). unfold same_options in *. injection Ho as H1 H2 H3 H4.
  simpl. destruct (IH d1 _ ltac:(lia) Hr1) as (d2 & -> & Hr2 & Ho2). exists d2.
  rewrite H1, H2, H3, H4 in *. done.
Qed.

Lemma max_of (l : list Z) m : 0 <= m -> (m = 0 \/ m ∈ l) -> (forall x, x ∈ l -> x <= m) -> m = foldr Z.max 0 l.
Proof.
  intros H0 Hin Hle. apply Z.le_antisymm.
  - destruct Hin as [->|Hin]; [clear; induction l; simpl; lia|].
    clear - Hin. induction Hin as [x l|x y l Hin IH]; simpl; lia.
  - clear Hin. induction l as [|x l IH]; simpl; [done|]. apply Z.max_lub; [apply Hle, list_elem_of_here|].
    apply IH. intros y Hy. apply Hle, list_elem_of_further, Hy.
Qed.

(** The node of a key that is in the list. *)
Lemma repr_node d h n : repr d h -> n ∈ dist d ->
  events h (node_key n) <> [] /\ node_ok (hist_size d) (max d) (events h (node_key n)) n.
Proof.
  intros [Hso Hma _ _ Hf] Hn. pose proof (Hf (n_ins n) (n_id n) (n_key n)) as H. rewrite <- (Hma _ Hn) in H.
  assert (find_node node_key (dcmp d) (node_key n) (dist d) = Some n) as E.
  { apply find_node_elem; [apply _|done|]. split; [done|]. apply ko_refl, _. }
  rewrite E in H. destruct (events h (node_key n)); done.
Qed.

(** C40: with room for at least one count, a new distribution goes through any
    sequence of inputs, insertions and resets, with any allocation failing,
    without a fault, and stays well formed: the nodes are in strict order of their
    keys, one for each key that was counted since the last reset; the array of a
    node has [hist_size] counts, each of them the total of the counts that went to
    its slot, and [hist_len] is an index of it; [sum] is the total, [max] is the
    greatest count that a slot of the node has had, and the maximum of the
    distribution is that of its nodes. *)
Theorem count_dist_well_formed fi fd fk size ops : 0 < size < 2 ^ 31 ->
  let h := fold_left (remember fi fd fk) ops [] in
  exists d, run (count_dist_new fi fd fk size true) ops = Some (Some d) /\
  let printed := count_dist_print (Some d) in
  sorted_by node_key (count_dist_node_cmp fi fd fk) printed /\
  (forall n, n ∈ printed -> events h (node_key n) <> [] /\ node_ok size (count_dist_max (Some d)) (events h (node_key n)) n) /\
  (forall i j k, events h (masked fi fd fk i j k) <> [] -> exists n, n ∈ printed /\ node_key n = masked fi fd fk i j k) /\
  count_dist_max (Some d) = foldr Z.max 0 (map n_max printed).
Proof.
  intros Hs h. set (d0 := CountDist [] fi fd fk size 0).
  assert (repr d0 []) as Hr0 by (split; simpl; [constructor|intros n Hn; inversion Hn|auto|done|done]).
  destruct (count_run_repr ops d0 [] Hs Hr0) as (d & E & Hr & Ho). change (repr d h) in Hr.
  unfold same_options in Ho. injection Ho as H1 H2 H3 H4. exists d. split; [exact E|]. simpl.
  pose proof (fun n => repr_node d h n Hr) as Hn. rewrite H4 in Hn. destruct Hr as [Hso Hma Hmx Hm0 Hf].
  rewrite H1, H2, H3 in *. split_and!; [done|done| |].
  - intros i j k He. specialize (Hf i j k). unfold entry in Hf. rewrite H1, H2, H3 in Hf. fold (masked fi fd fk i j k) in Hf.
    destruct (find_node _ _ _ _) as [n|] eqn:En; [|destruct (events h _); done].
    apply find_node_elem in En as [Hin Hc]; [|apply _|done]. exists n. split; [done|]. rewrite (Hma n Hin) in Hc |- *.
    unfold entry in *. rewrite H1, H2, H3 in *. apply masked_cmp in Hc. exact Hc.
  - apply max_of; [done| |].
    + destruct Hmx as [|(n & Hin & ->)]; [auto|]. right. apply list_elem_of_fmap. eauto.
    + intros x Hx. apply list_elem_of_fmap in Hx as (n & -> & Hin). apply (Hn n Hin).
Qed.

Lemma count_dist_well_formed_witness :
  exists d, run (count_dist_new true true false 2 true)
    [Insert 1 5 9 3 10 true; Input 1 5 0 7 false; Input 1 5 0 100 true; Insert 0 5 0 0 4 false] = Some (Some d) /\
  count_dist_max (Some d) = 100 /\ forall n, n ∈ count_dist_print (Some d) -> hist n !! 1%nat = Some 17.
Proof.
  destruct (count_dist_well_formed true true false 2
    [Insert 1 5 9 3 10 true; Input 1 5 0 7 false; Input 1 5 0 100 true; Insert 0 5 0 0 4 false] ltac:(lia))
    as (d & E & _ & Hn & _ & _). exists d. split; [exact E|].
  vm_compute in E. injection E as <-. split; [reflexivity|]. intros n [->|Hin]%elem_of_cons; [reflexivity|inversion Hin].
Defined.

End Count.
