(* ===== verification/Localtime.v ===== *)
(** * Dates without locks (localtime.c)

    [nolocks_localtime] turns seconds into the fields of a date.  It is compared
    with the Gregorian calendar in closed form: the seconds of the date are the
    seconds given, and all fields are in range. *)

From S2P Require Import Prelude.

Module Localtime.

(** ** The code *)

Record tm := Tm {
  tm_sec : Z; tm_min : Z; tm_hour : Z; tm_mday : Z; tm_mon : Z; tm_year : Z; tm_wday : Z; tm_yday : Z; tm_isdst : Z
}.

Definition is_leap_year (year : Z) : Z :=
  if negb (Z.rem year 4 =? 0) then 0
  else if negb (Z.rem year 100 =? 0) then 1
  else if negb (Z.rem year 400 =? 0) then 0
  else 1.

Definition INT_MAX : Z := 2 ^ 31 - 1.

(** The loop over the years: the year, and the days left; [None] also when the
    year overflows. *)
Fixpoint year_loop (fuel : nat) (year days : Z) : option (Z * Z) :=
  match fuel with
  | O => None
  | S fuel =>
      let days_this_year := 365 + is_leap_year year in
      if days <? days_this_year then Some (year, days)
      else if year =? INT_MAX then None
      else year_loop fuel (year + 1) (days - days_this_year)
  end.

Definition mdays (year : Z) : list Z := [31; 28 + is_leap_year year; 31; 30; 31; 30; 31; 31; 30; 31; 30; 31].

(** The loop over the months, from the month [mon] with the lengths [l]; [None]
    is a read past the array. *)
Fixpoint month_loop (l : list Z) (mon days : Z) : option (Z * Z) :=
  match l with
  | [] => None
  | d :: l => if d <=? days then month_loop l (mon + 1) (days - d) else Some (mon, days)
  end.

Definition nolocks_localtime (t tz dst : Z) : option tm :=
  let t := t - tz + 3600 * dst in
  let days := Z.quot t 86400 in
  let seconds := Z.rem t 86400 in
  '(year, yday) ← year_loop (S (Z.to_nat days)) 1970 days;
  '(mon, d) ← month_loop (mdays year) 0 yday;
  Some (Tm (Z.rem (Z.rem seconds 3600) 60) (Z.quot (Z.rem seconds 3600) 60) (Z.quot seconds 3600)
          (d + 1) mon (year - 1900) (Z.rem (days + 4) 7) yday dst).

(** ** The calendar *)

Definition leap (y : Z) : bool := (y mod 4 =? 0) && negb (y mod 100 =? 0) || (y mod 400 =? 0).

(** Leap years up to the year [y]. *)
Definition leaps (y : Z) : Z := y / 4 - y / 100 + y / 400.

(** Days from 1970-01-01 to the first day of the year. *)
Definition days_before_year (y : Z) : Z := 365 * (y - 1970) + leaps (y - 1) - leaps 1969.

Definition month_days (y m : Z) : Z :=
  if m =? 1 then if leap y then 29 else 28 else if (m =? 3) || (m =? 5) || (m =? 8) || (m =? 10) then 30 else 31.

(** Days of the year before the month. *)
Definition days_before_month (y m : Z) : Z :=
  (nth (Z.to_nat m) [0; 31; 59; 90; 120; 151; 181; 212; 243; 273; 304; 334] 0) + (if leap y && (2 <=? m) then 1 else 0).

Definition civil_seconds (x : tm) : Z :=
  let y := tm_year x + 1900 in
  (days_before_year y + days_before_month y (tm_mon x) + (tm_mday x - 1)) * 86400 +
  tm_hour x * 3600 + tm_min x * 60 + tm_sec x.

Definition valid (x : tm) : Prop :=
  0 <= tm_sec x < 60 /\ 0 <= tm_min x < 60 /\ 0 <= tm_hour x < 24 /\ 0 <= tm_mon x < 12 /\
  1 <= tm_mday x <= month_days (tm_year x + 1900) (tm_mon x) /\
  tm_yday x = days_before_month (tm_year x + 1900) (tm_mon x) + (tm_mday x - 1).

(** ** Proofs *)

Lemma is_leap_year_spec y : 0 <= y -> is_leap_year y = if leap y then 1 else 0.
Proof.
  intros Hy. unfold is_leap_year, leap. rewrite !Z.rem_mod_nonneg by lia.
  destruct (Z.eqb_spec (y mod 4) 0), (Z.eqb_spec (y mod 100) 0), (Z.eqb_spec (y mod 400) 0); simpl; try done;
    exfalso; Z.to_euclidean_division_equations; lia.
Qed.

Lemma leaps_step y : 1 <= y -> leaps y = leaps (y - 1) + (if leap y then 1 else 0).
Proof.
  intros Hy. unfold leaps, leap.
  destruct (Z.eqb_spec (y mod 4) 0), (Z.eqb_spec (y mod 100) 0), (Z.eqb_spec (y mod 400) 0); simpl;
    Z.to_euclidean_division_equations; lia.
Qed.

Lemma days_before_next y : 1 <= y -> days_before_year (y + 1) = days_before_year y + 365 + (if leap y then 1 else 0).
Proof.
  intros Hy. unfold days_before_year. replace (y + 1 - 1) with y by lia. rewrite (leaps_step y) by lia. lia.
Qed.

(** The loop ends within the year that holds the day. *)
Lemma year_loop_spec fuel : forall y d, 1970 <= y -> 0 <= d -> d < Z.of_nat fuel -> y + d / 365 <= INT_MAX ->
  exists y' d', year_loop fuel y d = Some (y', d') /\ y <= y' /\ 0 <= d' < 365 + (if leap y' then 1 else 0) /\
    days_before_year y' + d' = days_before_year y + d.
Proof.
  induction fuel as [|fuel IH]; intros y d Hy Hd Hf Hm; [lia|]. cbn [year_loop]. rewrite is_leap_year_spec by lia.
  set (n := if leap y then 1 else 0). assert (0 <= n <= 1) as Hn by (unfold n; destruct (leap y); lia).
  destruct (Z.ltb_spec d (365 + n)) as [Hlt|Hge].
  - exists y, d. fold n. split_and!; (done || lia).
  - assert (1 <= d / 365) by (Z.to_euclidean_division_equations; lia).
    destruct (Z.eqb_spec y INT_MAX) as [->|Hne]; [lia|].
    destruct (IH (y + 1) (d - (365 + n))) as (y' & d' & E & H1 & H2 & H3); try lia.
    { assert ((d - (365 + n)) / 365 <= d / 365 - 1) by (Z.to_euclidean_division_equations; lia). lia. }
    exists y', d'. split_and!; try done; try lia. rewrite H3, days_before_next by lia. fold n. lia.
Qed.

Lemma month_loop_spec y d : 1970 <= y -> 0 <= d < 365 + (if leap y then 1 else 0) ->
  exists m d', month_loop (mdays y) 0 d = Some (m, d') /\ 0 <= m < 12 /\ 0 <= d' < month_days y m /\
    d = days_before_month y m + d'.
Proof.
  intros Hy Hd. unfold mdays, month_days, days_before_month. rewrite is_leap_year_spec by lia.
  destruct (leap y); cbn [month_loop];
    repeat match goal with
    | |- context [?a <=? ?b] =>
        lazymatch b with context [d] => destruct (Z.leb_spec a b) end
    end; try lia;
    lazymatch goal with |- exists m d', Some (?a, ?b) = _ /\ _ =>
      let a' := eval vm_compute in a in exists a', b end; (split; [reflexivity|]); cbn; cbv [Z.to_nat Pos.to_nat Pos.iter_op Nat.add]; lia.
Qed.

(** C36: [nolocks_localtime] returns, and what it returns is the date of the
    calendar: every field is in its range, the date and time of day count up to
    the given seconds (with time zone and daylight saving), and the day of the
    week is right. *)
Theorem nolocks_localtime_correct t tz dst : let s := t - tz + 3600 * dst in 0 <= s < 2 ^ 55 ->
  exists x, nolocks_localtime t tz dst = Some x /\ valid x /\ civil_seconds x = s /\
    tm_wday x = (s / 86400 + 4) mod 7 /\ tm_isdst x = dst.
Proof.
  intros s Hs. unfold nolocks_localtime. fold s.
  rewrite !(Z.quot_div_nonneg s), !(Z.rem_mod_nonneg s) by lia.
  assert (0 <= s / 86400) as Hd by (apply Z.div_pos; lia).
  assert (s / 86400 < 2 ^ 40) as Hd2 by (apply Z.div_lt_upper_bound; lia).
  destruct (year_loop_spec (S (Z.to_nat (s / 86400))) 1970 (s / 86400)) as (y & d & E & Hy & Hyd & Hsum); try lia.
  { unfold INT_MAX. assert (s / 86400 / 365 < 2 ^ 31 - 2000) by (apply Z.div_lt_upper_bound; [lia|];
      apply Z.div_lt_upper_bound; lia). lia. }
  rewrite E. cbn [mbind option_bind]. destruct (month_loop_spec y d Hy Hyd) as (m & d' & Em & Hm & Hd' & Edm).
  rewrite Em. cbn [mbind option_bind]. eexists. split; [reflexivity|].
  pose proof (Z.mod_pos_bound s 86400 ltac:(lia)) as Hsec. set (r := s mod 86400) in *.
  rewrite !(Z.quot_div_nonneg r), !(Z.rem_mod_nonneg r) by lia.
  pose proof (Z.mod_pos_bound r 3600 ltac:(lia)) as Hr.
  rewrite Z.quot_div_nonneg, Z.rem_mod_nonneg, (Z.rem_mod_nonneg (s / 86400 + 4)) by lia.
  change (days_before_year 1970) with 0 in Hsum.
  unfold valid, civil_seconds. cbn [tm_sec tm_min tm_hour tm_mday tm_mon tm_year tm_wday tm_yday tm_isdst].
  replace (y - 1900 + 1900) with y by lia. split_and!; try done; try lia.
  all: unfold r in *; Z.to_euclidean_division_equations; lia.
Qed.

Lemma nolocks_localtime_correct_witness :
  exists x, nolocks_localtime 951782399 0 0 = Some x /\ valid x /\ civil_seconds x = 951782399 /\
    tm_wday x = (951782399 / 86400 + 4) mod 7 /\ tm_isdst x = 0.
Proof. apply (nolocks_localtime_correct 951782399 0 0). lia. Defined.

(** 2000-02-28 23:59:59 and the day after, which exists only in a leap year. *)
Example localtime_leap :
  nolocks_localtime 951782399 0 0 = Some (Tm 59 59 23 28 1 100 1 58 0) /\
  nolocks_localtime 951782400 0 0 = Some (Tm 0 0 0 29 1 100 2 59 0).
Proof. split; vm_compute; reflexivity. Qed.

End Localtime.
