(* ===== verification/Comm.v ===== *)
(** * Names of tasks (comm.c)

    The service that knows the name of every task: it learns them from /proc and
    from the events of new, renamed and freed tasks, keeps the name of a freed task
    until no device has an older event left, and tells the profilers when it
    forgets it. The two trees are those of rblist.c on red-black trees ([Rblist]),
    the nodes are in a heap: [None] is the use of a node that is not in it. *)

From stdpp Require Import sorting.
From S2P Require Import Prelude RingBuf Rbtree Rblist.

Module Comm.

Import Rblist.

(** [comm] is [None] until it is written; [exit_empty]: [RB_EMPTY_NODE (&exit_node)]. *)
Record pid_comm_node := { pid : Z; update_time : Z; comm : option string; flush : bool; exit_empty : bool }.

(** A node is its number, [fresh] is the next one that [malloc] returns. *)
Record comm_ctx := {
  heap : gmap nat pid_comm_node;
  fresh : nat;
  pid_comm : rblist nat;
  exited : rblist nat;
  cached_node : option nat;
  ref : Z;
}.

(** A call of the registered callbacks with [NOTIFY_COMM_DELETE]: the pid and the
    time. *)
Definition note : Type := Z * Z.

(** [task_newtask] with [comm], [task_rename] with [newcomm], [sched_process_free]
    with [comm]; [mem]: [malloc] has memory for a node. *)
Record sample := { common_type : Z; time : Z; s_pid : Z; s_comm : string; mem : bool }.

(** ** The code *)

(** [b->pid - e->pid]: the kernel gives pids from 0 to 2^22, so that the difference
    fits an [int]. *)
Definition pid_cmp (b e : Z) : Z := b - e.

Definition exit_cmp (b e : Z * Z) : Z :=
  if e.1 <? b.1 then 1 else if b.1 <? e.1 then -1 else b.2 - e.2.

Definition pid_key (h : gmap nat pid_comm_node) (i : nat) : Z := match h !! i with Some b => pid b | None => 0 end.

Definition exit_key (h : gmap nat pid_comm_node) (i : nat) : Z * Z :=
  match h !! i with Some b => (update_time b, pid b) | None => (0, 0) end.

Definition pid_comm_node_cmp (h : gmap nat pid_comm_node) (e : Z) (rbn : nat) : Z := pid_cmp (pid_key h rbn) e.

Definition pid_comm_exit_cmp (h : gmap nat pid_comm_node) (e : Z * Z) (rbn : nat) : Z := exit_cmp (exit_key h rbn) e.

Definition pid_comm_node_new (p : Z) : pid_comm_node :=
  {| pid := p; update_time := 0; comm := None; flush := false; exit_empty := true |}.

(** [free], of a node that is there *)
Definition free_node (h : gmap nat pid_comm_node) (i : nat) : option (gmap nat pid_comm_node) :=
  _ ← h !! i; Some (delete i h).

Definition pid_comm_node_delete (i : nat) (c : comm_ctx) : option comm_ctx :=
  h ← free_node (heap c) i;
  Some {| heap := h; fresh := fresh c; pid_comm := pid_comm c; exited := exited c;
          cached_node := if decide (cached_node c = Some i) then None else cached_node c; ref := ref c |}.

Definition pid_comm_exit_delete (h : gmap nat pid_comm_node) (i : nat) : option note :=
  b ← h !! i; Some (pid b, update_time b).

Definition set_heap (c : comm_ctx) (h : gmap nat pid_comm_node) : comm_ctx :=
  {| heap := h; fresh := fresh c; pid_comm := pid_comm c; exited := exited c; cached_node := cached_node c; ref := ref c |}.

Definition set_pid_comm (c : comm_ctx) (rb : rblist nat) : comm_ctx :=
  {| heap := heap c; fresh := fresh c; pid_comm := rb; exited := exited c; cached_node := cached_node c; ref := ref c |}.

Definition set_exited (c : comm_ctx) (rb : rblist nat) : comm_ctx :=
  {| heap := heap c; fresh := fresh c; pid_comm := pid_comm c; exited := rb; cached_node := cached_node c; ref := ref c |}.

Definition set_cached (c : comm_ctx) (n : option nat) : comm_ctx :=
  {| heap := heap c; fresh := fresh c; pid_comm := pid_comm c; exited := exited c; cached_node := n; ref := ref c |}.

Definition set_ref (c : comm_ctx) (n : Z) : comm_ctx :=
  {| heap := heap c; fresh := fresh c; pid_comm := pid_comm c; exited := exited c; cached_node := cached_node c; ref := n |}.

(** [rblist__findnew (&ctx->pid_comm, &new)] with [pid_comm_node_new]. *)
Definition findnew_pid (p : Z) (has_mem : bool) (c : comm_ctx) : option (option nat * comm_ctx) :=
  let h := <[fresh c := pid_comm_node_new p]> (heap c) in
  '(rbn, rb) ← rblist__findnew (pid_comm_node_cmp h p) (if has_mem then Some (fresh c) else None) (pid_comm c);
  Some (rbn, if decide (rbn = Some (fresh c))
             then {| heap := h; fresh := S (fresh c); pid_comm := rb; exited := exited c; cached_node := cached_node c; ref := ref c |}
             else set_pid_comm c rb).

(** [if (node->update_time < time) ...] *)
Definition touch (time : Z) (name : string) (i : nat) (c : comm_ctx) : option (list note * comm_ctx) :=
  node ← heap c !! i;
  if update_time node <? time then
    '(notes, c) ← (if exit_empty node then Some ([], c)
                   else rb ← rblist__remove_node i (exited c);
                        n ← pid_comm_exit_delete (heap c) i;
                        Some ([n], set_exited c rb));
    let node := {| pid := pid node; update_time := time; comm := Some name; flush := false; exit_empty := true |} in
    Some (notes, set_heap c (<[i := node]> (heap c)))
  else Some ([], c).

(** [rblist__add_node (&ctx->exited, node)]: the node is linked if no node equals
    it. *)
Definition add_exited (i : nat) (c : comm_ctx) : option comm_ctx :=
  node ← heap c !! i;
  '(err, rb) ← rblist__add_node (pid_comm_exit_cmp (heap c) (update_time node, pid node)) (Some i) (exited c);
  let node := {| pid := pid node; update_time := update_time node; comm := comm node; flush := flush node;
                 exit_empty := if err =? 0 then false else exit_empty node |} in
  Some (set_heap (set_exited c rb) (<[i := node]> (heap c))).

Definition comm_update (has_mem : bool) (time : Z) (exit : bool) (p : Z) (name : string) (c : comm_ctx)
    : option (list note * comm_ctx) :=
  '(rbn, c) ← findnew_pid p has_mem c;
  match rbn with
  | None => Some ([], c)
  | Some i =>
      '(notes, c) ← touch time name i c;
      if exit then c ← add_exited i c; Some (notes, c) else Some (notes, c)
  end.

(** The loop of [comm_gc]. *)
Fixpoint gc_loop (fuel : nat) (time_before : Z) (c : comm_ctx) : option (list note * comm_ctx) :=
  match rb_leftmost (exited c) with
  | None => Some ([], c)
  | Some i =>
      node ← heap c !! i;
      if time_before <=? update_time node then Some ([], c)
      else match fuel with
           | O => None
           | S fuel =>
               ex ← rblist__remove_node i (exited c);
               n ← pid_comm_exit_delete (heap c) i;
               rb ← rblist__remove_node i (pid_comm c);
               c ← pid_comm_node_delete i (set_pid_comm (set_exited c ex) rb);
               '(notes, c) ← gc_loop fuel time_before c;
               Some (n :: notes, c)
           end
  end.

(** As many rounds as nodes have exited. *)
Definition comm_gc (time_before : Z) (c : comm_ctx) : option (list note * comm_ctx) :=
  gc_loop (length (Rbtree.inorder (rb_root (exited c)))) time_before c.

Section Code.
(** The ids of the three tracepoints. *)
Context (task_newtask task_rename sched_process_free : Z).

Definition comm_sample (s : sample) (c : comm_ctx) : option (list note * comm_ctx) :=
  if common_type s =? task_newtask then comm_update (mem s) (time s) false (s_pid s) (s_comm s) c
  else if common_type s =? task_rename then comm_update (mem s) (time s) false (s_pid s) (s_comm s) c
  else if common_type s =? sched_process_free then comm_update (mem s) (time s) true (s_pid s) (s_comm s) c
  else Some ([], c).

(** The samples that the ring buffers of the device have. *)
Fixpoint comm_samples (l : list sample) (c : comm_ctx) : option (list note * comm_ctx) :=
  match l with
  | [] => Some ([], c)
  | s :: l => '(n1, c) ← comm_sample s c; '(n2, c) ← comm_samples l c; Some (n1 ++ n2, c)
  end.

(** The tasks of /proc, the name of which is read or not. *)
Fixpoint enabled_loop (tasks : list (Z * option string * bool)) (c : comm_ctx) : option (list note * comm_ctx) :=
  match tasks with
  | [] => Some ([], c)
  | (tid, comm, has_mem) :: tasks =>
      '(n1, c) ← match comm with Some name => comm_update has_mem 1 false tid name c | None => Some ([], c) end;
      '(n2, c) ← enabled_loop tasks c;
      Some (n1 ++ n2, c)
  end.

Definition comm_enabled (has_mem : bool) (tasks : list (Z * option string * bool)) (c : comm_ctx) : option (list note * comm_ctx) :=
  '(n1, c) ← comm_update has_mem 1 false 0 "swapper" c;
  '(n2, c) ← enabled_loop tasks c;
  Some (n1 ++ n2, c).

Definition comm_init : comm_ctx :=
  {| heap := ∅; fresh := 0; pid_comm := rblist__init; exited := rblist__init; cached_node := None; ref := 1 |}.

Fixpoint notes_of (h : gmap nat pid_comm_node) (l : list nat) : option (list note) :=
  match l with [] => Some [] | i :: l => n ← pid_comm_exit_delete h i; ns ← notes_of h l; Some (n :: ns) end.

Fixpoint delete_all (l : list nat) (c : comm_ctx) : option comm_ctx :=
  match l with [] => Some c | i :: l => c ← pid_comm_node_delete i c; delete_all l c end.

(** The callbacks of the first [rblist__exit], the nodes that the second leaves. *)
Definition comm_deinit (c : comm_ctx) : option (list note * gmap nat pid_comm_node) :=
  '(l, rb) ← rblist__exit (exited c);
  notes ← notes_of (heap c) l;
  '(l, rb') ← rblist__exit (pid_comm c);
  c ← delete_all l (set_pid_comm (set_exited c rb) rb');
  Some (notes, heap c).

(** [pending]: what [prof_dev_flush] delivers. *)
Definition global_comm_get (p : Z) (pending : list sample) (c : comm_ctx) : option (option (option string) * list note * comm_ctx) :=
  hit ← match cached_node c with
        | Some i => node ← heap c !! i; Some (if pid node =? p then Some (comm node) else None)
        | None => Some None
        end;
  match hit with
  | Some name => Some (Some name, [], c)
  | None =>
      '(rbn, _) ← rblist__find (pid_comm_node_cmp (heap c) p) (pid_comm c);
      stale ← match rbn with Some i => node ← heap c !! i; Some (flush node) | None => Some true end;
      '(rbn, notes, c) ← (if (stale : bool) then
                            '(notes, c) ← comm_samples pending c;
                            '(rbn, _) ← rblist__find (pid_comm_node_cmp (heap c) p) (pid_comm c);
                            Some (rbn, notes, c)
                          else Some (rbn, [], c));
      match rbn with
      | Some i => node ← heap c !! i; Some (Some (comm node), notes, set_cached c (Some i))
      | None => Some (None, notes, c)
      end
  end.

Definition global_comm_flush (p : Z) (c : comm_ctx) : option comm_ctx :=
  if p =? 0 then Some c
  else '(rbn, _) ← rblist__find (pid_comm_node_cmp (heap c) p) (pid_comm c);
       match rbn with
       | None => Some c
       | Some i =>
           node ← heap c !! i;
           Some (set_heap c (<[i := {| pid := pid node; update_time := update_time node; comm := comm node; flush := true;
                                       exit_empty := exit_empty node |}]> (heap c)))
       end.

(** ** The service *)

(** What the profilers and the device call. [Ref]: [opened] says that
    [prof_dev_open] opens the device, with the tasks of /proc. *)
Inductive call :=
  | Ref (opened : bool) (has_mem : bool) (tasks : list (Z * option string * bool))
  | Unref
  | Sample (s : sample)
  | Interval (minevtime : Z)
  | Get (p : Z) (pending : list sample)
  | Flush (p : Z).

Inductive answer := Int (z : Z) | Name (n : option (option string)) | Void | Closed (left : nat).

Definition step (call : call) (global_comm_ctx : option comm_ctx) : option (answer * list note * option comm_ctx) :=
  match call, global_comm_ctx with
  | Ref opened has_mem tasks, None =>
      if opened then '(notes, c) ← comm_enabled has_mem tasks comm_init; Some (Int 0, notes, Some c)
      else Some (Int (-1), [], None)
  | Ref _ _ _, Some c => n ← RingBuf.refcount_inc (ref c); Some (Int 0, [], Some (set_ref c n))
  | Unref, None => Some (Void, [], None)
  | Unref, Some c =>
      '(n, zero) ← RingBuf.refcount_dec_and_test (ref c);
      if (zero : bool) then '(notes, h) ← comm_deinit c; Some (Closed (size h), notes, None)
      else Some (Void, [], Some (set_ref c n))
  | Sample s, Some c => '(notes, c) ← comm_sample s c; Some (Void, notes, Some c)
  | Interval t, Some c => '(notes, c) ← comm_gc t c; Some (Void, notes, Some c)
  | Get p pending, Some c => '(name, notes, c) ← global_comm_get p pending c; Some (Name name, notes, Some c)
  | Flush p, Some c => c ← global_comm_flush p c; Some (Void, [], Some c)
  | Get _ _, None => Some (Name None, [], None)
  | Flush _, None | Sample _, None | Interval _, None => Some (Void, [], None)
  end.

End Code.

(** ** The names as a map *)

Record entry := { e_time : Z; e_name : option string; e_flush : bool; e_exited : bool }.

(** An update of a task: an older one changes nothing; an update of a task that has
    exited says that its pid is another task now. *)
Definition touched (time : Z) (name : string) (p : Z) (e : entry) : list note * entry :=
  if e_time e <? time
  then (if e_exited e then [(p, e_time e)] else [], {| e_time := time; e_name := Some name; e_flush := false; e_exited := false |})
  else ([], e).

Definition update_entry (time : Z) (exit : bool) (name : string) (p : Z) (e : entry) : list note * entry :=
  let '(notes, e) := touched time name p e in
  (notes, {| e_time := e_time e; e_name := e_name e; e_flush := e_flush e; e_exited := e_exited e || exit |}).

(** The tasks that have exited, by the time and the pid. *)
Definition exit_le (x y : Z * Z) : Prop := x.1 < y.1 \/ x.1 = y.1 /\ x.2 <= y.2.

#[export] Instance exit_le_dec x y : Decision (exit_le x y).
Proof. unfold exit_le. apply _. Defined.

Definition exits (m : gmap Z entry) : list (Z * Z) :=
  merge_sort exit_le ((fun pe => (e_time pe.2, pe.1)) <$> filter (fun pe => e_exited pe.2 = true) (map_to_list m)).

Definition notes_for (l : list (Z * Z)) : list note := (fun k => (k.2, k.1)) <$> l.

(** The names known now, by pid, and the references to the service. *)
Record table := { t_known : gmap Z entry; t_refs : Z }.

Definition m_update (has_mem : bool) (time : Z) (exit : bool) (p : Z) (name : string) (m : gmap Z entry) : list note * gmap Z entry :=
  match m !! p, has_mem with
  | None, false => ([], m)
  | e, _ =>
      let '(notes, e) := update_entry time exit name p (default {| e_time := 0; e_name := None; e_flush := false; e_exited := false |} e) in
      (notes, <[p := e]> m)
  end.

(** Those that exited before a time are forgotten. *)
Definition m_gc (time_before : Z) (m : gmap Z entry) : list note * gmap Z entry :=
  (notes_for (filter (fun k => k.1 < time_before) (exits m)),
   filter (fun pe => ~ (e_exited pe.2 = true /\ e_time pe.2 < time_before)) m).

Section Spec.
Context (task_newtask task_rename sched_process_free : Z).

Definition m_sample (s : sample) (m : gmap Z entry) : list note * gmap Z entry :=
  if (common_type s =? task_newtask) || (common_type s =? task_rename) then m_update (mem s) (time s) false (s_pid s) (s_comm s) m
  else if common_type s =? sched_process_free then m_update (mem s) (time s) true (s_pid s) (s_comm s) m
  else ([], m).

Fixpoint m_samples (l : list sample) (m : gmap Z entry) : list note * gmap Z entry :=
  match l with
  | [] => ([], m)
  | s :: l => let '(n1, m) := m_sample s m in let '(n2, m) := m_samples l m in (n1 ++ n2, m)
  end.

Fixpoint m_tasks (l : list (Z * option string * bool)) (m : gmap Z entry) : list note * gmap Z entry :=
  match l with
  | [] => ([], m)
  | (tid, comm, has_mem) :: l =>
      let '(n1, m) := match comm with Some name => m_update has_mem 1 false tid name m | None => ([], m) end in
      let '(n2, m) := m_tasks l m in (n1 ++ n2, m)
  end.

(** A name that is not known, or that was flushed, is looked up after the pending
    events. *)
Definition m_get (p : Z) (pending : list sample) (m : gmap Z entry) : option (option string) * list note * gmap Z entry :=
  let '(notes, m) := if match m !! p with Some e => e_flush e | None => true end then m_samples pending m else ([], m) in
  (e_name <$> m !! p, notes, m).

Definition m_flush (p : Z) (m : gmap Z entry) : gmap Z entry :=
  if p =? 0 then m
  else alter (fun e => {| e_time := e_time e; e_name := e_name e; e_flush := true; e_exited := e_exited e |}) p m.

Definition m_step (call : call) (st : option table) : option (answer * list note * option table) :=
  match call, st with
  | Ref opened has_mem tasks, None =>
      if opened then
        let '(n1, m) := m_update has_mem 1 false 0 "swapper" ∅ in
        let '(n2, m) := m_tasks tasks m in Some (Int 0, n1 ++ n2, Some {| t_known := m; t_refs := 1 |})
      else Some (Int (-1), [], None)
  | Ref _ _ _, Some t => n ← RingBuf.refcount_inc (t_refs t); Some (Int 0, [], Some {| t_known := t_known t; t_refs := n |})
  | Unref, None => Some (Void, [], None)
  | Unref, Some t =>
      '(n, zero) ← RingBuf.refcount_dec_and_test (t_refs t);
      if (zero : bool) then Some (Closed 0, notes_for (exits (t_known t)), None)
      else Some (Void, [], Some {| t_known := t_known t; t_refs := n |})
  | Sample s, Some t => let '(notes, m) := m_sample s (t_known t) in Some (Void, notes, Some {| t_known := m; t_refs := t_refs t |})
  | Interval time, Some t => let '(notes, m) := m_gc time (t_known t) in Some (Void, notes, Some {| t_known := m; t_refs := t_refs t |})
  | Get p pending, Some t =>
      let '(name, notes, m) := m_get p pending (t_known t) in Some (Name name, notes, Some {| t_known := m; t_refs := t_refs t |})
  | Flush p, Some t => Some (Void, [], Some {| t_known := m_flush p (t_known t); t_refs := t_refs t |})
  | Get _ _, None => Some (Name None, [], None)
  | Flush _, None | Sample _, None | Interval _, None => Some (Void, [], None)
  end.

(** No look-up of a pid whose name was flushed and is still to be renewed, when it
    is the last one that was found: [last] is the pid of the last look-up that
    found a name. *)
Definition found (call : call) (r : answer) (last : option Z) : option Z :=
  match call, r with Get p _, Name (Some _) => Some p | _, _ => last end.

Fixpoint in_turn (last : option Z) (ks : list call) (st : option table) : Prop :=
  match ks with
  | [] => True
  | k :: ks =>
      match k, st with
      | Get p _, Some t => last = Some p -> forall e, t_known t !! p = Some e -> e_flush e = false
      | _, _ => True
      end /\
      match m_step k st with Some (r, _, st) => in_turn (found k r last) ks st | None => True end
  end.

End Spec.

End Comm.
