(* ===== verification/CommProof.v ===== *)
(** * Names of tasks: the service is the map of names

    The relation between the trees and the heap of comm.c and the map, that every
    operation keeps it, and the theorem. *)

From stdpp Require Import sorting.
From S2P Require Import Prelude RingBuf Rbtree Rblist Comm.

Module CommProof.

Import Rblist Comm.

(** ** The map with the last pid

    Between the service and the map: the map with the pid that was looked up last,
    whose name is returned without looking at its flush mark. *)

Record names := { known : gmap Z entry; last_pid : option Z; refs : Z }.

Definition set_known (a : names) (m : gmap Z entry) : names := {| known := m; last_pid := last_pid a; refs := refs a |}.

Definition s_update (has_mem : bool) (time : Z) (exit : bool) (p : Z) (name : string) (a : names) : list note * names :=
  match known a !! p, has_mem with
  | None, false => ([], a)
  | e, _ =>
      let '(notes, e) := update_entry time exit name p (default {| e_time := 0; e_name := None; e_flush := false; e_exited := false |} e) in
      (notes, set_known a (<[p := e]> (known a)))
  end.

(** Those that exited before a time are forgotten. *)
Definition s_gc (time_before : Z) (a : names) : list note * names :=
  let gone := filter (fun k => k.1 < time_before) (exits (known a)) in
  (notes_for gone,
   {| known := filter (fun pe => ~ (e_exited pe.2 = true /\ e_time pe.2 < time_before)) (known a);
      last_pid := p ← last_pid a; if decide (p ∈ gone.*2) then None else Some p;
      refs := refs a |}).

Section Spec.
Context (task_newtask task_rename sched_process_free : Z).

Definition s_sample (s : sample) (a : names) : list note * names :=
  if common_type s =? task_newtask then s_update (mem s) (time s) false (s_pid s) (s_comm s) a
  else if common_type s =? task_rename then s_update (mem s) (time s) false (s_pid s) (s_comm s) a
  else if common_type s =? sched_process_free then s_update (mem s) (time s) true (s_pid s) (s_comm s) a
  else ([], a).

Fixpoint s_samples (l : list sample) (a : names) : list note * names :=
  match l with
  | [] => ([], a)
  | s :: l => let '(n1, a) := s_sample s a in let '(n2, a) := s_samples l a in (n1 ++ n2, a)
  end.

Fixpoint s_tasks (l : list (Z * option string * bool)) (a : names) : list note * names :=
  match l with
  | [] => ([], a)
  | (tid, comm, has_mem) :: l =>
      let '(n1, a) := match comm with Some name => s_update has_mem 1 false tid name a | None => ([], a) end in
      let '(n2, a) := s_tasks l a in (n1 ++ n2, a)
  end.

Definition s_get (p : Z) (pending : list sample) (a : names) : option (option string) * list note * names :=
  if decide (last_pid a = Some p) then (e_name <$> known a !! p, [], a)
  else
    let '(notes, a) := if match known a !! p with Some e => e_flush e | None => true end then s_samples pending a else ([], a) in
    match known a !! p with
    | Some e => (Some (e_name e), notes, {| known := known a; last_pid := Some p; refs := refs a |})
    | None => (None, notes, a)
    end.

Definition s_flush (p : Z) (a : names) : names :=
  match known a !! p with
  | Some e => if p =? 0 then a
              else set_known a (<[p := {| e_time := e_time e; e_name := e_name e; e_flush := true; e_exited := e_exited e |}]> (known a))
  | None => a
  end.

Definition s_step (call : call) (st : option names) : option (answer * list note * option names) :=
  match call, st with
  | Ref opened has_mem tasks, None =>
      if opened then
        let '(n1, a) := s_update has_mem 1 false 0 "swapper" {| known := ∅; last_pid := None; refs := 1 |} in
        let '(n2, a) := s_tasks tasks a in Some (Int 0, n1 ++ n2, Some a)
      else Some (Int (-1), [], None)
  | Ref _ _ _, Some a => n ← RingBuf.refcount_inc (refs a); Some (Int 0, [], Some {| known := known a; last_pid := last_pid a; refs := n |})
  | Unref, None => Some (Void, [], None)
  | Unref, Some a =>
      '(n, zero) ← RingBuf.refcount_dec_and_test (refs a);
      if (zero : bool) then Some (Closed 0, notes_for (exits (known a)), None)
      else Some (Void, [], Some {| known := known a; last_pid := last_pid a; refs := n |})
  | Sample s, Some a => let '(notes, a) := s_sample s a in Some (Void, notes, Some a)
  | Interval t, Some a => let '(notes, a) := s_gc t a in Some (Void, notes, Some a)
  | Get p pending, Some a => let '(name, notes, a) := s_get p pending a in Some (Name name, notes, Some a)
  | Flush p, Some a => Some (Void, [], Some (s_flush p a))
  | Get _ _, None => Some (Name None, [], None)
  | Flush _, None | Sample _, None | Interval _, None => Some (Void, [], None)
  end.

End Spec.

#[export] Instance pid_cmp_order : KeyOrder pid_cmp.
Proof. split; unfold pid_cmp; intros; lia. Qed.

#[export] Instance exit_cmp_order : KeyOrder exit_cmp.
Proof.
  split; unfold exit_cmp; intros; repeat match goal with
    | |- context [?x <? ?y] => destruct (Z.ltb_spec x y) | H : context [?x <? ?y] |- _ => destruct (Z.ltb_spec x y) end; lia.
Qed.

Lemma exit_cmp_eq a b : exit_cmp a b = 0 <-> a = b.
Proof.
  unfold exit_cmp. destruct a as [t p], b as [t' p']; simpl. destruct (Z.ltb_spec t' t), (Z.ltb_spec t t').
  all: split; [|intros [= -> ->]; lia]; intros; try lia. f_equal; lia.
Qed.

Definition entry_of (n : pid_comm_node) : entry :=
  {| e_time := update_time n; e_name := comm n; e_flush := flush n; e_exited := negb (exit_empty n) |}.

(** The nodes of the two trees, in order. *)
Record rel (l1 l2 : list nat) (c : comm_ctx) (a : names) : Prop := {
  rel_pid : tree_of (pid_key (heap c)) pid_cmp l1 (pid_comm c);
  rel_exit : tree_of (exit_key (heap c)) exit_cmp l2 (exited c);
  rel_heap : forall i, i ∈ l1 <-> is_Some (heap c !! i);
  rel_fresh : forall i, is_Some (heap c !! i) -> (i < fresh c)%nat;
  rel_link : forall i, i ∈ l2 <-> exists n, heap c !! i = Some n /\ exit_empty n = false;
  rel_known : forall p e, known a !! p = Some e <-> exists i n, heap c !! i = Some n /\ pid n = p /\ entry_of n = e;
  rel_cached : match cached_node c with Some i => exists n, heap c !! i = Some n /\ last_pid a = Some (pid n) | None => last_pid a = None end;
  rel_ref : ref c = refs a;
}.

Lemma cons_elem (i j : nat) l : i ∉ l -> j ∈ l <-> j <> i /\ j ∈ i :: l.
Proof. rewrite elem_of_cons. intros Hi. split; [|tauto]. intros Hj. split; [intros ->; done|auto]. Qed.

Definition forget (p : Z) (a : names) : names :=
  {| known := delete p (known a); last_pid := if decide (last_pid a = Some p) then None else last_pid a; refs := refs a |}.

Section Rel.
Context {l1 l2 : list nat} {c : comm_ctx} {a : names} (H : rel l1 l2 c a).

(** A pid has one node. *)
Lemma rel_inj i j n n' : heap c !! i = Some n -> heap c !! j = Some n' -> pid n = pid n' -> i = j.
Proof using H.
  intros Hi Hj Hp. destruct (rel_pid _ _ _ _ H) as (_ & Hs & _).
  pose proof (find_node_elem _ _ l1 (pid n) i Hs) as Fi. pose proof (find_node_elem _ _ l1 (pid n) j Hs) as Fj.
  unfold pid_key, pid_cmp in Fi, Fj. rewrite Hi in Fi. rewrite Hj in Fj.
  assert (i ∈ l1) by (apply (rel_heap _ _ _ _ H); eauto). assert (j ∈ l1) by (apply (rel_heap _ _ _ _ H); eauto).
  destruct Fi as [_ Fi], Fj as [_ Fj]. rewrite Fi in Fj by (split; [done|lia]). specialize (Fj ltac:(split; [done|lia])). congruence.
Qed.

Lemma rel_lookup i n : heap c !! i = Some n -> known a !! pid n = Some (entry_of n).
Proof using H. intros Hi. apply (rel_known _ _ _ _ H). eauto. Qed.

Lemma rel_elem i n : heap c !! i = Some n -> i ∈ l1.
Proof using H. intros Hi. apply (rel_heap _ _ _ _ H). eauto. Qed.

(** Another state of a node, linked or not. *)
Lemma rel_put i n n' l2' ex : heap c !! i = Some n -> pid n' = pid n ->
  tree_of (exit_key (<[i := n']> (heap c))) exit_cmp l2' ex ->
  (forall j, j <> i -> j ∈ l2' <-> j ∈ l2) -> (i ∈ l2' <-> exit_empty n' = false) ->
  rel l1 l2' (set_heap (set_exited c ex) (<[i := n']> (heap c))) (set_known a (<[pid n := entry_of n']> (known a))).
Proof using H.
  intros Hi Hp Hex Hj Hii. split; simpl.
  - eapply tree_of_ext; [|apply H]. intros j _. unfold pid_key. destruct (decide (j = i)) as [->|Hn].
    + rewrite lookup_insert_eq, Hi. done.
    + rewrite lookup_insert_ne by done. done.
  - done.
  - intros j. rewrite (rel_heap _ _ _ _ H). destruct (decide (j = i)) as [->|Hn].
    + rewrite lookup_insert_eq, Hi. split; eauto.
    + rewrite lookup_insert_ne by done. done.
  - intros j. destruct (decide (j = i)) as [->|Hn]; [intros _; apply (rel_fresh _ _ _ _ H); eauto|].
    rewrite lookup_insert_ne by done. apply (rel_fresh _ _ _ _ H).
  - intros j. destruct (decide (j = i)) as [->|Hn].
    + rewrite lookup_insert_eq, Hii. naive_solver.
    + rewrite Hj, lookup_insert_ne by done. apply (rel_link _ _ _ _ H).
  - intros p e. destruct (decide (p = pid n)) as [->|Hn].
    + rewrite lookup_insert_eq. split.
      * intros [= <-]. exists i, n'. rewrite lookup_insert_eq. done.
      * intros (j & m & Hm & Hpm & <-). destruct (decide (j = i)) as [->|Hne]; [rewrite lookup_insert_eq in Hm; congruence|].
        rewrite lookup_insert_ne in Hm by done. destruct Hne. eapply rel_inj; done.
    + rewrite lookup_insert_ne, (rel_known _ _ _ _ H) by done. split; intros (j & m & Hm & Hpm & <-); exists j, m.
      * rewrite lookup_insert_ne; [done|]. intros ->. congruence.
      * destruct (decide (j = i)) as [->|Hne]; [rewrite lookup_insert_eq in Hm; congruence|].
        rewrite lookup_insert_ne in Hm by done. done.
  - pose proof (rel_cached _ _ _ _ H) as Hc. destruct (cached_node c) as [j|]; [|done]. destruct Hc as (m & Hm & ->).
    destruct (decide (j = i)) as [->|Hne]; [exists n'; rewrite lookup_insert_eq; split; congruence|].
    exists m. rewrite lookup_insert_ne by done. done.
  - apply H.
Qed.

(** A node that is freed. *)
Lemma rel_delete i n l1' l2' rb ex c' : heap c !! i = Some n ->
  tree_of (pid_key (heap c)) pid_cmp l1' rb -> tree_of (exit_key (heap c)) exit_cmp l2' ex ->
  l1 ≡ₚ i :: l1' -> l2 ≡ₚ i :: l2' -> pid_comm_node_delete i (set_pid_comm (set_exited c ex) rb) = Some c' ->
  rel l1' l2' c' (forget (pid n) a).
Proof using H.
  intros Hi Hrb Hex P1 P2. unfold pid_comm_node_delete, free_node. cbn [heap set_pid_comm set_exited]. rewrite Hi.
  cbn [mbind option_bind]. intros [= <-].
  assert (NoDup (i :: l1')) as N1 by (rewrite <- P1; exact (tree_of_nodup _ _ _ _ (rel_pid _ _ _ _ H))).
  assert (NoDup (i :: l2')) as N2 by (rewrite <- P2; exact (tree_of_nodup _ _ _ _ (rel_exit _ _ _ _ H))).
  apply list.NoDup_cons in N1 as [N1 _], N2 as [N2 _].
  assert (forall j, j ∈ l1' <-> j <> i /\ j ∈ l1) as E1 by (intros j; rewrite P1; apply cons_elem; done).
  assert (forall j, j ∈ l2' <-> j <> i /\ j ∈ l2) as E2 by (intros j; rewrite P2; apply cons_elem; done).
  split; simpl.
  - eapply tree_of_ext; [|done]. intros j Hj. unfold pid_key. rewrite lookup_delete_ne; [done|]. set_solver.
  - eapply tree_of_ext; [|done]. intros j Hj. unfold exit_key. rewrite lookup_delete_ne; [done|]. set_solver.
  - intros j. rewrite E1, (rel_heap _ _ _ _ H), lookup_delete_is_Some. naive_solver.
  - intros j. rewrite lookup_delete_is_Some. intros [_ Hs]. apply (rel_fresh _ _ _ _ H). done.
  - intros j. rewrite E2, (rel_link _ _ _ _ H). setoid_rewrite lookup_delete_Some. naive_solver.
  - intros p e. rewrite lookup_delete_Some, (rel_known _ _ _ _ H). setoid_rewrite lookup_delete_Some. split.
    + intros [Hne (j & m & Hm & Hp & He)]. exists j, m. split_and!; try done. intros <-. congruence.
    + intros (j & m & [Hne Hm] & Hp & He). split; [|eauto]. intros E. apply Hne. eapply rel_inj; [done..|]. congruence.
  - pose proof (rel_cached _ _ _ _ H) as Hc. destruct (cached_node c) as [j|].
    + destruct Hc as (m & Hm & ->). destruct (decide (j = i)) as [->|Hne].
      * rewrite Hi in Hm. injection Hm as <-. rewrite !decide_True by done. done.
      * rewrite decide_False by congruence. exists m. rewrite decide_False.
        -- rewrite lookup_delete_ne by done. done.
        -- intros [= E]. apply Hne. eapply rel_inj; done.
    + rewrite Hc, !decide_False by done. done.
  - apply H.
Qed.

End Rel.

Definition new_entry : entry := {| e_time := 0; e_name := None; e_flush := false; e_exited := false |}.

(** A node is found by its pid. *)
Lemma find_rel l1 l2 c a p : rel l1 l2 c a ->
  match known a !! p with
  | Some e => exists i n, rblist__find (pid_comm_node_cmp (heap c) p) (pid_comm c) = Some (Some i, pid_comm c) /\
                heap c !! i = Some n /\ pid n = p /\ entry_of n = e
  | None => rblist__find (pid_comm_node_cmp (heap c) p) (pid_comm c) = Some (None, pid_comm c)
  end.
Proof.
  intros H. pose proof (rel_pid _ _ _ _ H) as Ht. pose proof Ht as (_ & Hs & _).
  pose proof (find_tree (pid_key (heap c)) pid_cmp p l1 (pid_comm c) Ht) as Hf. unfold pid_comm_node_cmp.
  destruct (find_node (pid_key (heap c)) pid_cmp p l1) as [i|] eqn:E.
  - apply find_node_elem in E as [Hi Hk]; [|apply _|done]. apply (rel_heap _ _ _ _ H) in Hi as [n Hn].
    assert (pid n = p) as <- by (unfold pid_key, pid_cmp in Hk; rewrite Hn in Hk; lia).
    rewrite (rel_lookup H i n Hn). exists i, n. done.
  - destruct (known a !! p) as [e|] eqn:Ek; [|done]. apply (rel_known _ _ _ _ H) in Ek as (i & n & Hn & Hp & <-).
    assert (find_node (pid_key (heap c)) pid_cmp p l1 = Some i) as E'; [|congruence].
    apply find_node_elem; [apply _|done|]. split; [exact (rel_elem H i n Hn)|]. unfold pid_key, pid_cmp. rewrite Hn. lia.
Qed.

Lemma set_known_id a p e : known a !! p = Some e -> set_known a (<[p := e]> (known a)) = a.
Proof. intros Hp. destruct a as [m lp r]. unfold set_known. simpl in *. rewrite insert_id by done. done. Qed.

Lemma set_pid_comm_id c : set_pid_comm c (pid_comm c) = c.
Proof. destruct c. done. Qed.

(** The node of a new pid. *)
Lemma rel_new l1 l2 c a p l1' rb : rel l1 l2 c a -> known a !! p = None ->
  tree_of (pid_key (<[fresh c := pid_comm_node_new p]> (heap c))) pid_cmp l1' rb -> l1' ≡ₚ fresh c :: l1 ->
  rel l1' l2 {| heap := <[fresh c := pid_comm_node_new p]> (heap c); fresh := S (fresh c); pid_comm := rb; exited := exited c;
                cached_node := cached_node c; ref := ref c |} (set_known a (<[p := new_entry]> (known a))).
Proof.
  intros H Hno Ht P. assert (heap c !! fresh c = None) as Hf.
  { apply eq_None_not_Some. intros Hs. apply (rel_fresh _ _ _ _ H) in Hs. lia. }
  assert (forall i n, heap c !! i = Some n -> fresh c <> i) as Hne by (intros i n Hi <-; congruence).
  split; simpl.
  - done.
  - eapply tree_of_ext; [|apply H]. intros i Hi. apply (rel_link _ _ _ _ H) in Hi as (n & Hn & _). unfold exit_key.
    rewrite lookup_insert_ne; [done|]. eapply Hne; done.
  - intros i. rewrite P, elem_of_cons, (rel_heap _ _ _ _ H), lookup_insert_is_Some. destruct (decide (fresh c = i)); naive_solver.
  - intros i. rewrite lookup_insert_is_Some. intros [<-|[_ Hs]]; [lia|]. apply (rel_fresh _ _ _ _ H) in Hs. lia.
  - intros i. rewrite (rel_link _ _ _ _ H). setoid_rewrite lookup_insert_Some. split; intros (n & Hn & He); exists n.
    + split; [|done]. right. split; [eapply Hne; done|done].
    + destruct Hn as [[<- <-]|[_ Hn]]; done.
  - intros q e. rewrite lookup_insert_Some, (rel_known _ _ _ _ H). setoid_rewrite lookup_insert_Some. split.
    + intros [[<- <-]|[Hq (i & n & Hn & Hp & He)]]; [exists (fresh c), (pid_comm_node_new p); auto|].
      exists i, n. split_and!; try done. right. split; [eapply Hne; done|done].
    + intros (i & n & [[<- <-]|[Hi Hn]] & Hp & He); [left; done|]. right. split; [|eauto]. intros ->.
      pose proof (rel_lookup H i n Hn). congruence.
  - pose proof (rel_cached _ _ _ _ H) as Hc. destruct (cached_node c) as [i|]; [|done]. destruct Hc as (n & Hn & ->).
    exists n. rewrite lookup_insert_ne; [done|]. eapply Hne; done.
  - apply H.
Qed.

Lemma findnew_rel l1 l2 c a p has_mem : rel l1 l2 c a ->
  match known a !! p, has_mem with
  | None, false => findnew_pid p has_mem c = Some (None, c)
  | e, _ => exists i n l1' c', findnew_pid p has_mem c = Some (Some i, c') /\ heap c' !! i = Some n /\ pid n = p /\
              entry_of n = default new_entry e /\ rel l1' l2 c' (set_known a (<[p := entry_of n]> (known a)))
  end.
Proof.
  intros H. assert (heap c !! fresh c = None) as Hf.
  { apply eq_None_not_Some. intros Hs. apply (rel_fresh _ _ _ _ H) in Hs. lia. }
  assert (tree_of (pid_key (<[fresh c := pid_comm_node_new p]> (heap c))) pid_cmp l1 (pid_comm c)) as Ht.
  { eapply tree_of_ext; [|apply H]. intros i Hi. apply (rel_heap _ _ _ _ H) in Hi as [n Hn]. unfold pid_key.
    rewrite lookup_insert_ne; [done|]. congruence. }
  assert (forall i, i ∈ l1 -> pid_cmp (pid_key (<[fresh c := pid_comm_node_new p]> (heap c)) i) p = 0 ->
    exists n, heap c !! i = Some n /\ pid n = p /\ i <> fresh c) as Hkey.
  { intros i Hi Hk. apply (rel_heap _ _ _ _ H) in Hi as [n Hn]. exists n. assert (i <> fresh c) as Hne by congruence.
    unfold pid_key, pid_cmp in Hk. rewrite lookup_insert_ne, Hn in Hk by done. split_and!; [done|lia|done]. }
  destruct (findnew_tree (pid_key (<[fresh c := pid_comm_node_new p]> (heap c))) pid_cmp p
              (if has_mem then Some (fresh c) else None) l1 (pid_comm c))
    as [(i & Hi & Hk & E)|(Hno & l1' & rb & E & Ht' & P)]; [|exact Ht| |].
  { intros n Hn. destruct has_mem; [|done]. injection Hn as <-. unfold pid_key, pid_cmp. rewrite lookup_insert_eq. simpl. lia. }
  - destruct (Hkey i Hi Hk) as (n & Hn & Hp & Hne). pose proof (rel_lookup H i n Hn) as Hl. rewrite Hp in Hl. rewrite Hl.
    exists i, n, l1, c. unfold findnew_pid, pid_comm_node_cmp. rewrite E. simpl. rewrite decide_False by congruence.
    rewrite set_pid_comm_id, set_known_id by done. done.
  - assert (known a !! p = None) as Hk; [|rewrite Hk].
    { apply eq_None_not_Some. intros [e He]. apply (rel_known _ _ _ _ H) in He as (i & n & Hn & Hp & _).
      apply (Hno i); [exact (rel_elem H i n Hn)|]. unfold pid_key, pid_cmp. rewrite lookup_insert_ne, Hn by congruence. lia. }
    unfold findnew_pid, pid_comm_node_cmp. rewrite E. simpl. destruct has_mem; simpl in *.
    + rewrite decide_True by done. exists (fresh c), (pid_comm_node_new p), l1'. eexists. split; [reflexivity|].
      simpl. rewrite lookup_insert_eq. split_and!; try done. apply (rel_new l1); done.
    + assert (rb = pid_comm c) as ->; [|rewrite set_pid_comm_id; done]. revert E. unfold rblist__findnew, __rblist__findnew.
      destruct (descend _ _ _ _); simpl; congruence.
Qed.

Lemma exit_key_ext h i n (l : list nat) : i ∉ l -> forall j, j ∈ l -> exit_key h j = exit_key (<[i := n]> h) j.
Proof. intros Hi j Hj. unfold exit_key. rewrite lookup_insert_ne; [done|]. intros ->. done. Qed.

Lemma set_exited_id c : set_exited c (exited c) = c.
Proof. destruct c. done. Qed.

Lemma touch_rel l1 l2 c a i n time name : rel l1 l2 c a -> heap c !! i = Some n ->
  exists notes c' n' l2', touch time name i c = Some (notes, c') /\ heap c' !! i = Some n' /\ pid n' = pid n /\
    touched time name (pid n) (entry_of n) = (notes, entry_of n') /\
    rel l1 l2' c' (set_known a (<[pid n := entry_of n']> (known a))).
Proof.
  intros H Hn. unfold touch, touched. rewrite Hn. simpl. destruct (Z.ltb_spec (update_time n) time).
  2: { exists [], c, n, l2. rewrite set_known_id by (apply (rel_lookup H i n Hn)). done. }
  destruct (exit_empty n) eqn:Ee; simpl.
  - eexists [], _, _, l2. split; [reflexivity|]. simpl. rewrite lookup_insert_eq. split; [reflexivity|]. split_and!; try done.
    assert (i ∉ l2) as Hi. { rewrite (rel_link _ _ _ _ H). intros (m & Hm & He). congruence. }
    rewrite <- (set_exited_id c) at 1. eapply (rel_put H); [exact Hn|done| |done|done].
    eapply tree_of_ext; [apply exit_key_ext; done|]. apply H.
  - assert (i ∈ l2) as Hi by (apply (rel_link _ _ _ _ H); eauto).
    destruct (remove_node_tree _ _ i l2 (exited c) Hi (rel_exit _ _ _ _ H)) as (x & y & ex & -> & El & Hex).
    simpl. unfold pid_comm_exit_delete. rewrite Hn. simpl.
    pose proof (tree_of_nodup _ _ _ _ (rel_exit _ _ _ _ H)) as Hnd. rewrite El in Hnd.
    assert (i ∉ x ++ y) as Hni.
    { rewrite <- Permutation_middle in Hnd. apply list.NoDup_cons in Hnd as [Hnd _]. done. }
    eexists _, _, _, (x ++ y). split; [reflexivity|]. simpl. rewrite lookup_insert_eq. split; [reflexivity|]. split_and!; try done.
    change (heap (set_exited c ex)) with (heap c). eapply (rel_put H); [exact Hn|done| | |].
    + eapply tree_of_ext; [apply exit_key_ext; done|done].
    + intros j Hj. rewrite El, !elem_of_app, elem_of_cons. naive_solver.
    + simpl. split; [done|]. intros [=].
Qed.

Lemma add_rel l1 l2 c a i n : rel l1 l2 c a -> heap c !! i = Some n ->
  exists c' n' l2', add_exited i c = Some c' /\ heap c' !! i = Some n' /\ pid n' = pid n /\
    entry_of n' = {| e_time := e_time (entry_of n); e_name := e_name (entry_of n); e_flush := e_flush (entry_of n); e_exited := true |} /\
    rel l1 l2' c' (set_known a (<[pid n := entry_of n']> (known a))).
Proof.
  intros H Hn. unfold add_exited. rewrite Hn. simpl.
  assert (forall n', update_time n' = update_time n -> pid n' = pid n -> forall j, exit_key (heap c) j = exit_key (<[i := n']> (heap c)) j) as Hkey.
  { intros n' Ht Hp j. unfold exit_key. destruct (decide (j = i)) as [->|Hj]; [rewrite lookup_insert_eq, Hn, Ht, Hp; done|].
    rewrite lookup_insert_ne; done. }
  destruct (add_tree (exit_key (heap c)) exit_cmp (update_time n, pid n) i l2 (exited c)) as [(x & Hx & Hk & E)|(Hno & l2' & ex & E & Ht & P)].
  { unfold exit_key. rewrite Hn. apply exit_cmp_eq. done. }
  { apply H. }
  - assert (x = i) as ->.
    { apply (rel_link _ _ _ _ H) in Hx as (m & Hm & _). apply exit_cmp_eq in Hk. unfold exit_key in Hk. rewrite Hm in Hk.
      injection Hk as _ Hp. eapply (rel_inj H); done. }
    pose proof Hx as Hx'. apply (rel_link _ _ _ _ H) in Hx' as (m & Hm & He). assert (m = n) as -> by congruence.
    unfold pid_comm_exit_cmp. rewrite E. simpl. eexists _, _, l2. split; [reflexivity|]. simpl. rewrite lookup_insert_eq. split; [reflexivity|].
    split_and!; [done|unfold entry_of; simpl; rewrite He; done|]. eapply (rel_put H); [exact Hn|done| |done|simpl; rewrite He; done].
    eapply tree_of_ext; [|apply H]. intros j _. apply Hkey; done.
  - unfold pid_comm_exit_cmp. rewrite E. simpl. eexists _, _, l2'. split; [reflexivity|]. simpl. rewrite lookup_insert_eq. split; [reflexivity|].
    split_and!; try done. eapply (rel_put H); [exact Hn|done| | |].
    + eapply tree_of_ext; [|exact Ht]. intros j _. apply Hkey; done.
    + intros j Hj. rewrite P, elem_of_cons. naive_solver.
    + rewrite P, elem_of_cons. naive_solver.
Qed.

Lemma set_known_twice a p e e' : set_known (set_known a (<[p := e]> (known a))) (<[p := e']> (<[p := e]> (known a))) = set_known a (<[p := e']> (known a)).
Proof. unfold set_known. simpl. rewrite insert_insert_eq. done. Qed.

(** Every state of the service is that of a map. *)
Definition is_map (c : comm_ctx) (a : names) : Prop := exists l1 l2, rel l1 l2 c a.

Lemma update_rel c a has_mem time exit p name : is_map c a ->
  exists c', comm_update has_mem time exit p name c = Some ((s_update has_mem time exit p name a).1, c') /\
    is_map c' (s_update has_mem time exit p name a).2.
Proof.
  intros (l1 & l2 & H). unfold comm_update. pose proof (findnew_rel l1 l2 c a p has_mem H) as Hf.
  destruct (match known a !! p, has_mem with None, false => true | _, _ => false end) eqn:Em.
  { unfold s_update. destruct (known a !! p); [destruct has_mem; done|]. destruct has_mem; [done|]. rewrite Hf. exists c. split; [done|]. exists l1, l2. done. }
  assert (exists i n l1' c', findnew_pid p has_mem c = Some (Some i, c') /\ heap c' !! i = Some n /\ pid n = p /\
    entry_of n = default new_entry (known a !! p) /\ rel l1' l2 c' (set_known a (<[p := entry_of n]> (known a))))
    as (i & n & l1' & c1 & -> & Hn & Hp & He & H1).
  { destruct (known a !! p); [|destruct has_mem; [|done]]; exact Hf. }
  simpl. destruct (touch_rel l1' l2 c1 _ i n time name H1 Hn) as (notes & c2 & n2 & l2' & -> & Hn2 & Hp2 & Ht & H2). simpl.
  rewrite Hp in *. simpl in H2. rewrite set_known_twice in H2.
  assert (s_update has_mem time exit p name a =
    (notes, set_known a (<[p := {| e_time := e_time (entry_of n2); e_name := e_name (entry_of n2); e_flush := e_flush (entry_of n2);
                                    e_exited := e_exited (entry_of n2) || exit |}]> (known a)))) as Es.
  { transitivity (let '(notes, e) := update_entry time exit name p (default new_entry (known a !! p)) in (notes, set_known a (<[p := e]> (known a)))).
    - unfold s_update. destruct (known a !! p); [|destruct has_mem]; done.
    - rewrite <- He. unfold update_entry. rewrite Ht. done. }
  rewrite Es. simpl. destruct exit.
  - destruct (add_rel l1' l2' c2 _ i n2 H2 Hn2) as (c3 & n3 & l2'' & -> & Hn3 & Hp3 & He3 & H3). simpl.
    exists c3. split; [done|]. exists l1', l2''. rewrite Hp2 in H3. simpl in H3. rewrite set_known_twice in H3.
    rewrite He3 in H3. rewrite orb_true_r. exact H3.
  - exists c2. split; [done|]. exists l1', l2'. rewrite orb_false_r. exact H2.
Qed.

(** *** The tasks that have exited *)

Lemma elem_exits m t p : (t, p) ∈ exits m <-> exists e, m !! p = Some e /\ e_exited e = true /\ e_time e = t.
Proof.
  unfold exits. rewrite merge_sort_Permutation, list_elem_of_fmap. split.
  - intros ([q e] & [= -> ->] & Hf). apply list_elem_of_filter in Hf as [He Hm]. apply elem_of_map_to_list in Hm. eauto.
  - intros (e & Hm & He & <-). exists (p, e). split; [done|]. apply list_elem_of_filter. rewrite elem_of_map_to_list. done.
Qed.

#[local] Instance exit_le_trans : Transitive exit_le.
Proof. intros x y z. unfold exit_le. lia. Qed.

#[local] Instance exit_le_total : Total exit_le.
Proof. intros x y. unfold exit_le. lia. Qed.

#[local] Instance exit_le_anti : AntiSymm (=) exit_le.
Proof. intros [t p] [t' p']. unfold exit_le. simpl. intros ? ?. f_equal; lia. Qed.

Lemma exits_nodup m : NoDup (exits m).
Proof.
  unfold exits. rewrite merge_sort_Permutation. apply NoDup_fmap_2_strong.
  - intros [p e] [p' e'] Hp Hp' [= _ ->]. apply list_elem_of_filter in Hp as [_ Hp], Hp' as [_ Hp'].
    apply elem_of_map_to_list in Hp, Hp'. congruence.
  - apply list.NoDup_filter, NoDup_map_to_list.
Qed.

Lemma sorted_keys {A} (key : A -> Z * Z) l : sorted_by key exit_cmp l -> StronglySorted exit_le (key <$> l) /\ NoDup (key <$> l).
Proof.
  induction 1 as [|x l _ [IH1 IH2] Hx]; simpl; [split; constructor|]. rewrite list.Forall_forall in Hx.
  assert (forall k, k ∈ key <$> l -> exit_cmp (key x) k < 0) as Hk by (intros k (y & -> & Hy)%list_elem_of_fmap; auto). split.
  - constructor; [done|]. apply list.Forall_forall. intros k Hin. apply Hk in Hin. revert Hin. unfold exit_cmp, exit_le.
    destruct (Z.ltb_spec k.1 (key x).1), (Z.ltb_spec (key x).1 k.1); lia.
  - constructor; [|done]. intros Hin. apply Hk in Hin. assert (exit_cmp (key x) (key x) = 0) by (apply exit_cmp_eq; done). lia.
Qed.

Lemma exits_rel l1 l2 c a : rel l1 l2 c a -> exits (known a) = exit_key (heap c) <$> l2.
Proof.
  intros H. destruct (rel_exit _ _ _ _ H) as (_ & Hs & _). destruct (sorted_keys _ _ Hs) as [S1 N1].
  apply (StronglySorted_unique exit_le); [|done|].
  - unfold exits. apply StronglySorted_merge_sort; apply _.
  - apply NoDup_Permutation; [apply exits_nodup|done|]. intros [t p]. rewrite elem_exits, list_elem_of_fmap. split.
    + intros (e & Hm & He & <-). apply (rel_known _ _ _ _ H) in Hm as (i & n & Hn & <- & <-). exists i.
      unfold exit_key. rewrite Hn. split; [done|]. apply (rel_link _ _ _ _ H). exists n. simpl in He. apply negb_true_iff in He. done.
    + intros (i & E & Hi). apply (rel_link _ _ _ _ H) in Hi as (n & Hn & He). unfold exit_key in E. rewrite Hn in E.
      injection E as -> ->. exists (entry_of n). split_and!; [apply (rel_lookup H i n Hn)|simpl; rewrite He; done|done].
Qed.

Lemma s_gc_none t a : (forall k, k ∈ exits (known a) -> t <= k.1) -> s_gc t a = ([], a).
Proof.
  intros Hk. unfold s_gc.
  assert (filter (fun k => k.1 < t) (exits (known a)) = []) as ->.
  { destruct (filter _ _) as [|k l] eqn:E; [done|]. assert (k ∈ k :: l) as Hin by apply list_elem_of_here. rewrite <- E in Hin.
    apply list_elem_of_filter in Hin as [Hlt Hin]. apply Hk in Hin. lia. }
  destruct a as [m lp r]. simpl in *. rewrite map_filter_id.
  - destruct lp; done.
  - intros p e Hp [He Ht]. specialize (Hk (e_time e, p)). simpl in Hk. enough (t <= e_time e) by (simpl in *; lia).
    apply Hk, elem_exits. eauto.
Qed.

Lemma s_gc_first t a p e rest : exits (known a) = (e_time e, p) :: rest -> known a !! p = Some e -> e_exited e = true -> e_time e < t ->
  exits (delete p (known a)) = rest ->
  s_gc t a = ((p, e_time e) :: (s_gc t (forget p a)).1, (s_gc t (forget p a)).2).
Proof.
  intros Hex Hp He Ht Hrest. unfold s_gc. simpl. rewrite Hex, Hrest. rewrite filter_cons_True by done. simpl. f_equal. f_equal.
  - rewrite map_filter_delete, delete_id; [done|]. apply map_lookup_filter_None. right. intros e' He'. naive_solver.
  - destruct (last_pid a) as [q|]; simpl; [|done]. destruct (decide (Some q = Some p)) as [[= ->]|Hn]; simpl.
    + rewrite decide_True; [done|]. apply list_elem_of_here.
    + destruct (decide (q ∈ (filter (fun k : Z * Z => k.1 < t) rest).*2)) as [Hin|Hin].
      * rewrite decide_True; [done|]. apply list_elem_of_further. done.
      * rewrite decide_False; [done|]. rewrite elem_of_cons. intros [->|]; done.
Qed.

Lemma gc_rel t l2 : forall l1 c a fuel, rel l1 l2 c a -> (length l2 <= fuel)%nat ->
  exists c', gc_loop fuel t c = Some ((s_gc t a).1, c') /\ is_map c' (s_gc t a).2.
Proof.
  induction l2 as [|i l2 IH]; intros l1 c a fuel H Hf; pose proof (exits_rel _ _ _ _ H) as Hex; simpl in Hex;
    pose proof (rel_exit _ _ _ _ H) as (_ & Hs & _ & Hlm & _); simpl in Hlm.
  { rewrite s_gc_none by (rewrite Hex; intros k Hk; inversion Hk). exists c. destruct fuel; simpl; rewrite Hlm; split; try done; exists l1, []; done. }
  destruct (proj1 (rel_link _ _ _ _ H i)) as (n & Hn & He); [apply list_elem_of_here|].
  destruct fuel as [|fuel]; [simpl in Hf; lia|]. cbn [gc_loop]. rewrite Hlm, Hn. cbn [mbind option_bind].
  assert (exit_key (heap c) i = (update_time n, pid n)) as Hki by (unfold exit_key; rewrite Hn; done). rewrite Hki in Hex.
  destruct (Z.leb_spec t (update_time n)) as [Hle|Hlt].
  - rewrite s_gc_none; [exists c; split; [done|]; exists l1, (i :: l2); done|].
    destruct (sorted_keys _ _ Hs) as [S1 _]. simpl in S1. rewrite Hki in S1. apply StronglySorted_inv in S1 as [_ S1].
    rewrite list.Forall_forall in S1. rewrite Hex. intros k [->|Hk]%elem_of_cons; [done|]. apply S1 in Hk. unfold exit_le in Hk. simpl in Hk. lia.
  - destruct (remove_tree _ _ _ _ [] i l2 (rel_exit _ _ _ _ H) eq_refl) as (cc & tl & tr & p & ex & E & _ & Eu & Hex').
    assert (rblist__remove_node i (exited c) = Some ex) as -> by (unfold rblist__remove_node; rewrite E; done). cbn [mbind option_bind].
    unfold pid_comm_exit_delete. rewrite Hn. cbn [mbind option_bind].
    destruct (remove_node_tree _ _ i l1 (pid_comm c) (rel_elem H i n Hn) (rel_pid _ _ _ _ H)) as (x & y & rb & -> & El & Hrb). cbn [mbind option_bind].
    destruct (pid_comm_node_delete i (set_pid_comm (set_exited c ex) rb)) as [c1|] eqn:Ed.
    2: { unfold pid_comm_node_delete, free_node in Ed. simpl in Ed. rewrite Hn in Ed. done. }
    assert (l1 ≡ₚ i :: (x ++ y)) as P1 by (rewrite El; symmetry; apply Permutation_middle).
    pose proof (rel_delete H i n (x ++ y) l2 rb ex c1 Hn Hrb Hex' P1 (Permutation_refl _) Ed) as H1. cbn [mbind option_bind].
    destruct (IH _ _ _ fuel H1) as (c2 & -> & H2); [simpl in Hf; lia|]. exists c2. cbn [mbind option_bind].
    rewrite (s_gc_first t a (pid n) (entry_of n) (exit_key (heap c) <$> l2)); [done|done|apply (rel_lookup H i n Hn)|simpl; rewrite He; done|done|].
    pose proof (exits_rel _ _ _ _ H1) as Hx. simpl in Hx. rewrite Hx.
    apply list_fmap_ext. intros k j Hj. apply list_elem_of_lookup_2 in Hj. apply (rel_link _ _ _ _ H1) in Hj as (m & Hm & _).
    unfold pid_comm_node_delete, free_node in Ed. simpl in Ed. rewrite Hn in Ed. injection Ed as <-. simpl in Hm.
    apply lookup_delete_Some in Hm as [Hne Hm]. unfold exit_key. simpl. rewrite lookup_delete_ne by done. done.
Qed.

(** *** The operations *)

Lemma comm_gc_rel t c a : is_map c a -> exists c', comm_gc t c = Some ((s_gc t a).1, c') /\ is_map c' (s_gc t a).2.
Proof.
  intros (l1 & l2 & H). unfold comm_gc. destruct (rel_exit _ _ _ _ H) as (-> & _). eapply gc_rel; [exact H|done].
Qed.

Lemma notes_rel h l : (forall i, i ∈ l -> is_Some (h !! i)) -> notes_of h l = Some (notes_for (exit_key h <$> l)).
Proof.
  induction l as [|i l IH]; intros Hl; simpl; [done|]. destruct (Hl i) as [n Hn]; [apply list_elem_of_here|].
  unfold pid_comm_exit_delete. rewrite Hn. simpl. rewrite IH by (intros j Hj; apply Hl, list_elem_of_further, Hj). simpl.
  assert (exit_key h i = (update_time n, pid n)) as -> by (unfold exit_key; rewrite Hn; done). done.
Qed.

Lemma delete_all_rel l : forall c, NoDup l -> (forall i, i ∈ l <-> is_Some (heap c !! i)) -> exists c', delete_all l c = Some c' /\ heap c' = ∅.
Proof.
  induction l as [|i l IH]; intros c Hnd Hl; simpl.
  - exists c. split; [done|]. apply map_empty. intros i. apply eq_None_not_Some. rewrite <- Hl. intros Hi. inversion Hi.
  - apply list.NoDup_cons in Hnd as [Hi Hnd]. destruct (proj1 (Hl i)) as [n Hn]; [apply list_elem_of_here|].
    unfold pid_comm_node_delete, free_node. rewrite Hn. simpl. apply IH; [done|]. intros j. simpl. rewrite (cons_elem i j l Hi), Hl, lookup_delete_is_Some.
    naive_solver.
Qed.

Lemma deinit_rel c a : is_map c a -> comm_deinit c = Some (notes_for (exits (known a)), ∅).
Proof.
  intros (l1 & l2 & H). unfold comm_deinit.
  destruct (exit_node_tree _ _ l2 _ (rel_exit _ _ _ _ H)) as (ex & -> & _). cbn [mbind option_bind].
  rewrite notes_rel, <- (exits_rel _ _ _ _ H) by (intros i (n & Hn & _)%(rel_link _ _ _ _ H); eauto). cbn [mbind option_bind].
  destruct (exit_node_tree _ _ l1 _ (rel_pid _ _ _ _ H)) as (rb & -> & _). cbn [mbind option_bind].
  destruct (delete_all_rel l1 (set_pid_comm (set_exited c ex) rb)) as (c' & -> & Hh).
  - exact (tree_of_nodup _ _ _ _ (rel_pid _ _ _ _ H)).
  - apply H.
  - simpl. rewrite Hh. done.
Qed.

Lemma flush_rel p c a : is_map c a -> exists c', global_comm_flush p c = Some c' /\ is_map c' (s_flush p a).
Proof.
  intros (l1 & l2 & H). unfold global_comm_flush, s_flush. pose proof (find_rel l1 l2 c a p H) as Hf.
  destruct (Z.eqb_spec p 0) as [->|Hp].
  { exists c. split; [done|]. exists l1, l2. destruct (known a !! 0); done. }
  destruct (known a !! p) as [e|]; [|rewrite Hf; exists c; split; [done|]; exists l1, l2; done].
  destruct Hf as (i & n & -> & Hn & <- & <-). simpl. rewrite Hn. simpl. eexists. split; [reflexivity|]. exists l1, l2.
  rewrite <- (set_exited_id c) at 1.
  eapply (rel_put H i n {| pid := pid n; update_time := update_time n; comm := comm n; flush := true; exit_empty := exit_empty n |}); try done.
  - eapply tree_of_ext; [|apply H]. intros j _. unfold exit_key. destruct (decide (j = i)) as [->|Hj].
    + rewrite lookup_insert_eq, Hn. done.
    + rewrite lookup_insert_ne; done.
  - rewrite (rel_link _ _ _ _ H). simpl. split; [intros (m & Hm & He); congruence|eauto].
Qed.

Section Steps.
Context (task_newtask task_rename sched_process_free : Z).

Lemma sample_rel s c a : is_map c a -> exists c', comm_sample task_newtask task_rename sched_process_free s c = Some ((s_sample task_newtask task_rename sched_process_free s a).1, c') /\
  is_map c' (s_sample task_newtask task_rename sched_process_free s a).2.
Proof.
  intros H. unfold comm_sample, s_sample. repeat (case_match; [apply update_rel; done|]). exists c. done.
Qed.

Lemma samples_rel l : forall c a, is_map c a -> exists c', comm_samples task_newtask task_rename sched_process_free l c = Some ((s_samples task_newtask task_rename sched_process_free l a).1, c') /\
  is_map c' (s_samples task_newtask task_rename sched_process_free l a).2.
Proof.
  induction l as [|s l IH]; intros c a H; simpl; [exists c; done|].
  destruct (sample_rel s c a H) as (c1 & -> & H1). destruct (s_sample _ _ _ s a) as [n1 a1]. simpl in *.
  destruct (IH c1 a1 H1) as (c2 & -> & H2). destruct (s_samples _ _ _ l a1) as [n2 a2]. simpl in *. exists c2. done.
Qed.

Lemma tasks_rel l : forall c a, is_map c a -> exists c', enabled_loop l c = Some ((s_tasks l a).1, c') /\ is_map c' (s_tasks l a).2.
Proof.
  induction l as [|[[tid name] has_mem] l IH]; intros c a H; simpl; [exists c; done|].
  assert (exists c1, match name with Some name => comm_update has_mem 1 false tid name c | None => Some ([], c) end =
    Some ((match name with Some name => s_update has_mem 1 false tid name a | None => ([], a) end).1, c1) /\
    is_map c1 (match name with Some name => s_update has_mem 1 false tid name a | None => ([], a) end).2) as (c1 & E & H1).
  { destruct name; [apply update_rel; done|exists c; done]. }
  rewrite E. destruct (match name with Some name => s_update has_mem 1 false tid name a | None => ([], a) end) as [n1 a1].
  simpl in *. destruct (IH c1 a1 H1) as (c2 & -> & H2). destruct (s_tasks l a1) as [n2 a2]. simpl in *. exists c2. done.
Qed.

Lemma cache_rel l1 l2 c a i n : rel l1 l2 c a -> heap c !! i = Some n ->
  rel l1 l2 (set_cached c (Some i)) {| known := known a; last_pid := Some (pid n); refs := refs a |}.
Proof. intros [] Hn. split; simpl; try done. eauto. Qed.

(** The node that is found is returned and cached. *)
Lemma return_rel c a p (notes : list note) : is_map c a ->
  exists name a' c', match known a !! p with
    | Some e => (Some (e_name e), notes, {| known := known a; last_pid := Some p; refs := refs a |})
    | None => (None, notes, a)
    end = (name, notes, a') /\ is_map c' a' /\
  exists rbn, rblist__find (pid_comm_node_cmp (heap c) p) (pid_comm c) = Some (rbn, pid_comm c) /\
    match rbn with
    | Some i => node ← heap c !! i; Some (Some (comm node), notes, set_cached c (Some i))
    | None => Some (None, notes, c)
    end = Some (name, notes, c').
Proof.
  intros (l1 & l2 & H). pose proof (find_rel l1 l2 c a p H) as Hf. destruct (known a !! p) as [e|].
  - destruct Hf as (i & n & -> & Hn & <- & <-). eexists _, _, _. split; [reflexivity|]. split; [exists l1, l2; apply cache_rel; done|].
    exists (Some i). split; [done|]. rewrite Hn. done.
  - eexists _, _, c. split; [reflexivity|]. split; [exists l1, l2; done|]. exists None. done.
Qed.

Lemma get_rel p pending c a : is_map c a ->
  exists c', global_comm_get task_newtask task_rename sched_process_free p pending c =
    Some ((s_get task_newtask task_rename sched_process_free p pending a).1, c') /\
  is_map c' (s_get task_newtask task_rename sched_process_free p pending a).2.
Proof.
  intros Hm. pose proof Hm as (l1 & l2 & H). unfold global_comm_get, s_get. pose proof (rel_cached _ _ _ _ H) as Hc.
  destruct (decide (last_pid a = Some p)) as [Hl|Hl].
  { destruct (cached_node c) as [i|]; [|congruence]. destruct Hc as (n & Hn & Hc). assert (pid n = p) as <- by congruence.
    rewrite Hn. simpl. rewrite Z.eqb_refl, (rel_lookup H i n Hn). exists c. done. }
  assert (match cached_node c with Some i => node ← heap c !! i; Some (if pid node =? p then Some (comm node) else None) | None => Some None end = Some None) as ->.
  { destruct (cached_node c) as [i|]; [|done]. destruct Hc as (n & Hn & Hc). rewrite Hn. simpl.
    destruct (Z.eqb_spec (pid n) p); [congruence|done]. }
  cbn [mbind option_bind]. pose proof (find_rel l1 l2 c a p H) as Hf.
  assert (exists rbn, rblist__find (pid_comm_node_cmp (heap c) p) (pid_comm c) = Some (rbn, pid_comm c) /\
    match rbn with Some i => node ← heap c !! i; Some (flush node) | None => Some true end =
    Some (match known a !! p with Some e => e_flush e | None => true end)) as (rbn & E & Es).
  { destruct (known a !! p) as [e|]; [|exists None; done]. destruct Hf as (i & n & -> & Hn & _ & <-). exists (Some i). rewrite Hn. done. }
  rewrite E. cbn [mbind option_bind]. rewrite Es. cbn [mbind option_bind].
  destruct (match known a !! p with Some e => e_flush e | None => true end).
  - destruct (samples_rel pending c a Hm) as (c1 & -> & H1). destruct (s_samples _ _ _ pending a) as [notes a1]. cbn [fst snd mbind option_bind] in *.
    destruct (return_rel c1 a1 p notes H1) as (name & a' & c' & -> & H' & rbn' & -> & E'). cbn [mbind option_bind]. rewrite E'. exists c'. done.
  - cbn [mbind option_bind]. destruct (return_rel c a p [] Hm) as (name & a' & c' & -> & H' & rbn' & E2 & E'). rewrite E in E2. injection E2 as <-.
    rewrite E'. exists c'. done.
Qed.

Definition rel_state (c : option comm_ctx) (a : option names) : Prop :=
  match c, a with Some c, Some a => is_map c a | None, None => True | _, _ => False end.

Lemma init_rel : is_map comm_init {| known := ∅; last_pid := None; refs := 1 |}.
Proof.
  exists [], []. split; simpl.
  - apply tree_of_init.
  - apply tree_of_init.
  - intros i. rewrite lookup_empty. split; [intros Hi; inversion Hi|intros [n Hn]; done].
  - intros i [n Hn]. rewrite lookup_empty in Hn. done.
  - intros i. rewrite lookup_empty. split; [intros Hi; inversion Hi|intros (n & Hn & _); done].
  - intros p e. rewrite lookup_empty. split; [done|]. intros (i & n & Hn & _). rewrite lookup_empty in Hn. done.
  - done.
  - done.
Qed.

Lemma set_ref_rel c a n : is_map c a -> is_map (set_ref c n) {| known := known a; last_pid := last_pid a; refs := n |}.
Proof. intros (l1 & l2 & []). exists l1, l2. split; simpl; done. Qed.

Abbreviation code_step := (step task_newtask task_rename sched_process_free).
Abbreviation map_step := (s_step task_newtask task_rename sched_process_free).

(** A call does on the trees what it does on the map. *)
Lemma step_rel k c a : rel_state c a ->
  match map_step k a with
  | Some (r, notes, a') => exists c', code_step k c = Some (r, notes, c') /\ rel_state c' a'
  | None => code_step k c = None
  end.
Proof.
  destruct c as [c|], a as [a|]; try done; simpl; intros H.
  - destruct k as [opened has_mem tasks| |s|t|p pending|p]; cbn [step s_step].
    + pose proof H as (l1 & l2 & Hr). rewrite (rel_ref _ _ _ _ Hr). destruct (RingBuf.refcount_inc (refs a)) as [n|]; [|done].
      simpl. eexists. split; [reflexivity|]. apply set_ref_rel. done.
    + pose proof H as (l1 & l2 & Hr). rewrite (rel_ref _ _ _ _ Hr).
      destruct (RingBuf.refcount_dec_and_test (refs a)) as [[n []]|]; [| |done]; cbn [mbind option_bind].
      * rewrite (deinit_rel c a H). simpl. exists None. done.
      * eexists. split; [reflexivity|]. apply set_ref_rel. done.
    + destruct (sample_rel s c a H) as (c' & -> & H'). destruct (s_sample _ _ _ s a). simpl. eexists. done.
    + destruct (comm_gc_rel t c a H) as (c' & -> & H'). destruct (s_gc t a). simpl. eexists. done.
    + destruct (get_rel p pending c a H) as (c' & -> & H'). destruct (s_get _ _ _ p pending a) as [[name notes] a']. simpl. eexists. done.
    + destruct (flush_rel p c a H) as (c' & -> & H'). simpl. eexists. done.
  - destruct k as [opened has_mem tasks| |s|t|p pending|p]; cbn [step s_step]; try (exists None; done).
    destruct opened; [|exists None; done]. unfold comm_enabled.
    destruct (update_rel _ _ has_mem 1 false 0 "swapper" init_rel) as (c1 & -> & H1).
    destruct (s_update has_mem 1 false 0 "swapper" _) as [n1 a1]. cbn [fst snd mbind option_bind] in *.
    destruct (tasks_rel tasks c1 a1 H1) as (c2 & -> & H2). destruct (s_tasks tasks a1) as [n2 a2]. simpl. eexists. done.
Qed.

(** The answers and the callbacks of a sequence of calls. *)
Fixpoint runs {S} (f : call -> S -> option (answer * list note * S)) (ks : list call) (s : S) : option (list (answer * list note) * S) :=
  match ks with
  | [] => Some ([], s)
  | k :: ks => '(r, n, s) ← f k s; '(l, s) ← runs f ks s; Some ((r, n) :: l, s)
  end.

Lemma runs_rel ks : forall c a, rel_state c a ->
  match runs map_step ks a with
  | Some (l, a') => exists c', runs code_step ks c = Some (l, c') /\ rel_state c' a'
  | None => runs code_step ks c = None
  end.
Proof.
  induction ks as [|k ks IH]; intros c a H; cbn [runs]; [exists c; done|]. pose proof (step_rel k c a H) as Hs.
  destruct (map_step k a) as [[[r n] a1]|]; cbn [mbind option_bind]; [|rewrite Hs; done].
  destruct Hs as (c1 & -> & H1). cbn [mbind option_bind]. specialize (IH c1 a1 H1).
  destruct (runs map_step ks a1) as [[l a2]|]; cbn [mbind option_bind]; [|rewrite IH; done].
  destruct IH as (c2 & -> & H2). exists c2. done.
Qed.

(** *** The map without the last pid *)

Lemma set_known_same a : set_known a (known a) = a.
Proof using. destruct a. done. Qed.

Lemma s_update_map has_mem time exit p name a :
  s_update has_mem time exit p name a = ((m_update has_mem time exit p name (known a)).1, set_known a (m_update has_mem time exit p name (known a)).2).
Proof using.
  unfold s_update, m_update. destruct (known a !! p) as [e|] eqn:Ep; [|destruct has_mem]; simpl; try (rewrite set_known_same; done);
    destruct (update_entry _ _ _ _ _); done.
Qed.

Lemma s_sample_map s a : s_sample task_newtask task_rename sched_process_free s a =
  ((m_sample task_newtask task_rename sched_process_free s (known a)).1, set_known a (m_sample task_newtask task_rename sched_process_free s (known a)).2).
Proof using.
  unfold s_sample, m_sample. destruct (common_type s =? task_newtask), (common_type s =? task_rename), (common_type s =? sched_process_free); simpl;
    try apply s_update_map; rewrite set_known_same; done.
Qed.

Lemma s_samples_map l : forall a, s_samples task_newtask task_rename sched_process_free l a =
  ((m_samples task_newtask task_rename sched_process_free l (known a)).1, set_known a (m_samples task_newtask task_rename sched_process_free l (known a)).2).
Proof using.
  induction l as [|s l IH]; intros a; simpl; [rewrite set_known_same; done|]. rewrite s_sample_map.
  destruct (m_sample _ _ _ s (known a)) as [n1 m1]. simpl. rewrite IH. simpl. destruct (m_samples _ _ _ l m1). done.
Qed.

Lemma s_tasks_map l : forall a, s_tasks l a = ((m_tasks l (known a)).1, set_known a (m_tasks l (known a)).2).
Proof using.
  induction l as [|[[tid name] has_mem] l IH]; intros a; simpl; [rewrite set_known_same; done|].
  destruct name as [name|]; [rewrite s_update_map; destruct (m_update _ _ _ _ _ (known a)) as [n1 m1]|]; simpl;
    rewrite IH; simpl; destruct (m_tasks l _); done.
Qed.

Lemma s_flush_map p a : s_flush p a = set_known a (m_flush p (known a)).
Proof using.
  unfold s_flush, m_flush. destruct (Z.eqb_spec p 0).
  - rewrite set_known_same. destruct (known a !! p); done.
  - destruct (known a !! p) as [e|] eqn:Ep.
    + unfold set_known. f_equal. rewrite alter_alt, Ep. done.
    + rewrite alter_alt, Ep. symmetry. apply set_known_same.
Qed.

Abbreviation table_step := (m_step task_newtask task_rename sched_process_free).

(** The last pid of the service is that of the last look-up that found a name. *)
Definition sim (a : option names) (t : option table) (last : option Z) : Prop :=
  match a, t with
  | Some a, Some t => known a = t_known t /\ refs a = t_refs t /\ (forall p, last_pid a = Some p -> last = Some p)
  | None, None => True
  | _, _ => False
  end.

Lemma last_known c a p : is_map c a -> last_pid a = Some p -> is_Some (known a !! p).
Proof using.
  intros (l1 & l2 & H) Hp. pose proof (rel_cached _ _ _ _ H) as Hc. destruct (cached_node c) as [i|]; [|congruence].
  destruct Hc as (n & Hn & Hl). assert (pid n = p) as <- by congruence. rewrite (rel_lookup H _ _ Hn). eauto.
Qed.

Lemma get_sim p pending c a last : is_map c a -> (forall q, last_pid a = Some q -> last = Some q) ->
  (last = Some p -> forall e, known a !! p = Some e -> e_flush e = false) ->
  let '(name, notes, m) := m_get task_newtask task_rename sched_process_free p pending (known a) in
  exists a', s_get task_newtask task_rename sched_process_free p pending a = (name, notes, a') /\ known a' = m /\ refs a' = refs a /\
    (forall q, last_pid a' = Some q -> found (Get p pending) (Name name) last = Some q).
Proof using.
  intros Hm Hlast Hturn. unfold s_get, m_get. destruct (decide (last_pid a = Some p)) as [Hl|Hl].
  - destruct (last_known c a p Hm Hl) as [e He]. rewrite He, (Hturn (Hlast p Hl) e He), He. simpl. exists a. split_and!; try done.
    intros q Hq. congruence.
  - destruct (match known a !! p with Some e => e_flush e | None => true end).
    + rewrite s_samples_map. destruct (m_samples _ _ _ pending (known a)) as [notes m]. simpl.
      destruct (m !! p) as [e|]; simpl; eexists; split_and!; try reflexivity; simpl; auto.
    + destruct (known a !! p) as [e|]; simpl; eexists; split_and!; try reflexivity; simpl; auto.
Qed.

Lemma step_sim k c a t last : rel_state c a -> sim a t last ->
  match k, t with
  | Get p _, Some t => last = Some p -> forall e, t_known t !! p = Some e -> e_flush e = false
  | _, _ => True
  end ->
  match table_step k t with
  | Some (r, notes, t') => exists a', map_step k a = Some (r, notes, a') /\ sim a' t' (found k r last)
  | None => map_step k a = None
  end.
Proof using.
  destruct c as [c|], a as [a|], t as [t|]; try done; intros Hr Hs Hturn.
  - destruct Hs as (Hk & Href & Hlast). destruct k as [opened has_mem tasks| |s|time|p pending|p]; cbn [m_step s_step found].
    + rewrite Href. destruct (RingBuf.refcount_inc (t_refs t)); [|done]. simpl. eexists. split; [reflexivity|]. done.
    + rewrite Href, Hk. destruct (RingBuf.refcount_dec_and_test (t_refs t)) as [[n []]|]; [| |done]; simpl; eexists; (split; [reflexivity|]); done.
    + rewrite s_sample_map, Hk. destruct (m_sample _ _ _ s (t_known t)) as [n m]. simpl. eexists. split; [reflexivity|]. done.
    + unfold s_gc, m_gc. rewrite Hk. simpl. eexists. split; [reflexivity|]. split_and!; try done. simpl.
      intros q Hq. destruct (last_pid a) as [q'|]; [|done]. simpl in Hq. case_decide; [done|]. apply Hlast. congruence.
    + rewrite <- Hk in Hturn |- *. pose proof (get_sim p pending c a last Hr Hlast Hturn) as Hg.
      destruct (m_get _ _ _ p pending (known a)) as [[name notes] m]. destruct Hg as (a' & -> & Hk' & Hr' & Hl').
      eexists. split; [reflexivity|]. simpl in *. split_and!; [done|congruence|done].
    + rewrite s_flush_map, Hk. eexists. split; [reflexivity|]. done.
  - destruct k as [opened has_mem tasks| |s|time|p pending|p]; cbn [m_step s_step found]; try (eexists; split; [reflexivity|]; done).
    destruct opened; [|eexists; split; [reflexivity|]; done]. rewrite s_update_map. simpl.
    destruct (m_update has_mem 1 false 0 "swapper" ∅) as [n1 m1]. simpl. rewrite s_tasks_map. simpl. destruct (m_tasks tasks m1) as [n2 m2].
    simpl. eexists. split; [reflexivity|]. done.
Qed.

(** The service is the map as long as the look-ups are in turn; *)
Lemma runs_sim ks : forall c a t last, rel_state c a -> sim a t last -> in_turn task_newtask task_rename sched_process_free last ks t ->
  match runs table_step ks t with
  | Some (l, t') => exists a' last', runs map_step ks a = Some (l, a') /\ sim a' t' last'
  | None => runs map_step ks a = None
  end.
Proof using.
  induction ks as [|k ks IH]; intros c a t last Hr Hs Hturn; cbn [runs]; [eauto|]. destruct Hturn as [Ht Hturn].
  pose proof (step_sim k c a t last Hr Hs Ht) as Hstep. destruct (table_step k t) as [[[r n] t1]|]; cbn [mbind option_bind]; [|rewrite Hstep; done].
  destruct Hstep as (a1 & E & Hs1). pose proof (step_rel k c a Hr) as Hc. rewrite E in Hc |- *. destruct Hc as (c1 & _ & Hr1). cbn [mbind option_bind].
  specialize (IH c1 a1 t1 _ Hr1 Hs1 Hturn). destruct (runs table_step ks t1) as [[l t2]|]; cbn [mbind option_bind]; [|rewrite IH; done].
  destruct IH as (a2 & last2 & -> & Hs2). simpl. eauto.
Qed.

(** whatever the look-ups, both fail together and nothing is left when the service
    is closed. *)
Definition same_refs (a : option names) (t : option table) : Prop :=
  match a, t with Some a, Some t => refs a = t_refs t | None, None => True | _, _ => False end.

Definition closed_empty (r : answer) : Prop := match r with Closed n => n = 0%nat | _ => True end.

Lemma step_refs k a t : same_refs a t ->
  match table_step k t with
  | Some (_, _, t') => exists r notes a', map_step k a = Some (r, notes, a') /\ closed_empty r /\ same_refs a' t'
  | None => map_step k a = None
  end.
Proof using.
  destruct a as [a|], t as [t|]; try done; intros Hr; simpl in Hr.
  - destruct k as [opened has_mem tasks| |s|time|p pending|p]; cbn [m_step s_step].
    + rewrite Hr. destruct (RingBuf.refcount_inc (t_refs t)); [|done]. simpl. eexists _, _, _. split; [reflexivity|]. done.
    + rewrite Hr. destruct (RingBuf.refcount_dec_and_test (t_refs t)) as [[n []]|]; [| |done]; simpl; eexists _, _, _; (split; [reflexivity|]); done.
    + rewrite s_sample_map. destruct (m_sample _ _ _ s (t_known t)). simpl. eexists _, _, _. split; [reflexivity|]. done.
    + simpl. eexists _, _, _. split; [reflexivity|]. done.
    + destruct (m_get _ _ _ p pending (t_known t)) as [[name notes] m].
      destruct (s_get _ _ _ p pending a) as [[name' notes'] a'] eqn:E. eexists _, _, _. split; [reflexivity|]. split; [done|].
      simpl. rewrite <- Hr. revert E. unfold s_get. case_decide; [intros [= _ _ <-]; done|]. rewrite s_samples_map.
      destruct (match known a !! p with Some e => e_flush e | None => true end); simpl; case_match; intros [= _ _ <-]; done.
    + rewrite s_flush_map. simpl. eexists _, _, _. split; [reflexivity|]. done.
  - destruct k as [opened has_mem tasks| |s|time|p pending|p]; cbn [m_step s_step]; try (eexists _, _, _; split; [reflexivity|]; done).
    destruct opened; [|eexists _, _, _; split; [reflexivity|]; done]. rewrite s_update_map. simpl.
    destruct (m_update has_mem 1 false 0 "swapper" ∅) as [n1 m1]. simpl. rewrite s_tasks_map. simpl. destruct (m_tasks tasks m1) as [n2 m2].
    eexists _, _, _. split; [reflexivity|]. done.
Qed.

Lemma runs_refs ks : forall a t, same_refs a t ->
  match runs table_step ks t with
  | Some (_, t') => exists l a', runs map_step ks a = Some (l, a') /\ Forall (fun x => closed_empty x.1) l
  | None => runs map_step ks a = None
  end.
Proof using.
  induction ks as [|k ks IH]; intros a t Hs; cbn [runs]; [exists [], a; auto|].
  pose proof (step_refs k a t Hs) as Hstep. destruct (table_step k t) as [[[r n] t1]|]; cbn [mbind option_bind]; [|rewrite Hstep; done].
  destruct Hstep as (r' & n' & a1 & -> & Hc & Hs1). cbn [mbind option_bind]. specialize (IH a1 t1 Hs1).
  destruct (runs table_step ks t1) as [[l t2]|]; cbn [mbind option_bind]; [|rewrite IH; done].
  destruct IH as (l' & a2 & -> & Hl). simpl. eexists _, _. split; [reflexivity|]. constructor; done.
Qed.

(** The trees and the heap hold the names of the table. *)
Definition holds_table (c : option comm_ctx) (t : option table) : Prop :=
  match c, t with
  | Some c, Some t => exists a, is_map c a /\ known a = t_known t /\ refs a = t_refs t
  | None, None => True
  | _, _ => False
  end.

(** C31: over any sequence of references, events, garbage collections, look-ups and
    flushes, with any allocation of a node failing, the service fails only where the
    reference count does, uses no freed node, keeps its trees and its cached node
    consistent and frees every node when the last reference goes; and it returns the
    names and makes the callbacks that a map from pids to names does, in which a
    look-up of an unknown or flushed name first takes the pending events, as long as
    no pid is looked up that is flushed, not renewed since, and the last one that was
    found ([in_turn]: for such a pid the old name is returned, see
    [cached_name_not_flushed]). *)
Theorem comm_refines (ks : list call) :
  match runs table_step ks None with
  | None => runs code_step ks None = None
  | Some (l, t) => exists l' c, runs code_step ks None = Some (l', c) /\
      match c with Some c => exists a, is_map c a | None => True end /\
      Forall (fun x => closed_empty x.1) l' /\
      (in_turn task_newtask task_rename sched_process_free None ks None -> l' = l /\ holds_table c t)
  end.
Proof using.
  pose proof (runs_refs ks None None I) as Hf. pose proof (runs_rel ks None None I) as Hr.
  pose proof (runs_sim ks None None None None I I) as Hs.
  destruct (runs table_step ks None) as [[l t]|]; [|rewrite Hf in Hr; done].
  destruct Hf as (l' & a & E & Hl). rewrite E in Hr, Hs. destruct Hr as (c & Ec & Hc). exists l', c. split; [done|].
  split; [destruct c as [c|]; [|done]; destruct a as [a|]; [|done]; eauto|]. split; [done|]. intros Ht.
  destruct (Hs Ht) as (a' & last' & [= <- <-] & Hsim). split; [done|].
  destruct c as [c|], a as [a|], t as [t|]; try done. destruct Hsim as (H1 & H2 & _). exists a. done.
Qed.

End Steps.

(** ** Examples *)

Definition event (ty t p : Z) (name : string) : sample := {| common_type := ty; time := t; s_pid := p; s_comm := name; mem := true |}.

(** A task of /proc, a new task that is renamed and freed; its name is kept until no
    older event is left. *)
Example names_of_tasks :
  runs (step 1 2 3) [Ref true true [(7, Some "init"%string, true)]; Sample (event 1 10 8 "sh"); Get 8 []; Sample (event 2 20 8 "make");
                     Get 8 []; Sample (event 3 30 8 "make"); Interval 30; Get 8 []; Interval 31; Get 8 []; Get 7 []; Unref] None =
  Some ([(Int 0, []); (Void, []); (Name (Some (Some "sh"%string)), []); (Void, []); (Name (Some (Some "make"%string)), []); (Void, []); (Void, []);
         (Name (Some (Some "make"%string)), []); (Void, [(8, 30)]); (Name None, []); (Name (Some (Some "init"%string)), []); (Closed 0, [])], None).
Proof. vm_compute. reflexivity. Qed.

Definition task_calls : list call :=
  [Ref true true [(7, Some "init"%string, true)]; Sample (event 1 10 8 "sh"); Get 8 []; Flush 8; Get 7 []; Get 8 [event 2 20 8 "make"]; Get 8 [];
   Sample (event 3 30 8 "make"); Interval 31; Unref].

Lemma comm_refines_witness :
  in_turn 1 2 3 None task_calls None /\
  exists l t c, runs (m_step 1 2 3) task_calls None = Some (l, t) /\ runs (step 1 2 3) task_calls None = Some (l, c) /\ holds_table c t.
Proof.
  assert (in_turn 1 2 3 None task_calls None) as Ht.
  { vm_compute. repeat match goal with |- _ /\ _ => split | |- True => exact I end; intros; simplify_eq; reflexivity. }
  split; [exact Ht|]. pose proof (comm_refines 1 2 3 task_calls) as H.
  destruct (runs (m_step 1 2 3) task_calls None) as [[l t]|] eqn:E; [|vm_compute in E; discriminate E].
  destruct H as (l' & c & Hc & _ & _ & H). destruct (H Ht) as [-> Hh]. exists l, t, c. split; [reflexivity|]. split; [exact Hc|exact Hh].
Defined.

Definition last_answer (r : list (answer * list note) * option comm_ctx) : option answer := '(x, _) ← list.last r.1; Some x.

(** [global_comm_flush] asks for the pending events at the next look-up, but a
    look-up of the cached node does not see it: the old name is returned. After
    another pid the new name is. *)
Example cached_name_not_flushed :
  let pending := [event 2 20 8 "make"] in
  let start := [Ref true true []; Sample (event 1 10 8 "sh"); Get 8 []; Flush 8] in
  (runs (step 1 2 3) (start ++ [Get 8 pending]) None ≫= last_answer) = Some (Name (Some (Some "sh"%string))) /\
  (runs (step 1 2 3) (start ++ [Get 0 []; Get 8 pending]) None ≫= last_answer) = Some (Name (Some (Some "make"%string))).
Proof. vm_compute. done. Qed.

End CommProof.
