(* ===== verification/KeyValue.v ===== *)
(** * Values by call chain (stack_helpers.c)

    The table from call chains to values and counts that the profilers add to and
    print. Its tree is the list of its nodes in the order of the keys, as rblist.c
    keeps it ([Rblist]); the value that a caller changes through the pointer it gets
    is changed by the function it gives. *)

From stdpp Require Import sorting.
From S2P Require Import Prelude Rblist.

Module KeyValue.

Import Rblist.

(** [struct key_value] with the value before it; [nr] is the length of the key. *)
Record key_value (V : Type) := { n : Z; key : list Z; value : V }.
Arguments n {V}.
Arguments key {V}.
Arguments value {V}.

(** ** The code *)

(** The loop over the addresses of [key_value_node_cmp], then the lengths. *)
Fixpoint key_cmp (kv k : list Z) : Z :=
  match kv, k with
  | x :: kv, y :: k => if y <? x then 1 else if x <? y then -1 else key_cmp kv k
  | _, _ => Z.of_nat (length kv) - Z.of_nat (length k)
  end.

Section Code.
Context {V : Type}.

Definition key_value_node_new (zero : V) (k : list Z) : key_value V := {| n := 0; key := k; value := zero |}.

(** [keyvalue_pairs_add_key] with what the caller does to the value; [mem]:
    [malloc] has memory for a node. [None] is the NULL that it returns. *)
Definition keyvalue_pairs_add_key (mem : bool) (zero : V) (k : list Z) (f : V -> V) (pairs : list (key_value V)) : option (list (key_value V)) :=
  '(a, kv, r) ← findnew_node key key_cmp k (if mem then Some (key_value_node_new zero k) else None) pairs;
  Some (a ++ {| n := u32 (n kv + 1); key := key kv; value := f (value kv) |} :: r).

(** [keyvalue_pairs_sorted_firstn]: what [f] is called with; [mem]: [calloc] has
    memory for the array that is sorted. *)
Definition keyvalue_pairs_sorted_firstn (qsort : (key_value V -> key_value V -> Z) -> list (key_value V) -> list (key_value V))
    (mem : bool) (cmp : option (V -> V -> Z)) (first : nat) (pairs : list (key_value V)) : list (key_value V) :=
  if negb mem then [] else
  let kv_cmp x y := match cmp with Some cmp => cmp (value x) (value y) | None => s32 (n y - n x) end in
  let sorted := qsort kv_cmp pairs in
  if bool_decide (first <> 0%nat /\ (first < length sorted)%nat) then take first sorted else sorted.

Definition keyvalue_pairs_sorted_foreach (qsort : (key_value V -> key_value V -> Z) -> list (key_value V) -> list (key_value V))
    (mem : bool) (cmp : V -> V -> Z) (pairs : list (key_value V)) : list (key_value V) :=
  keyvalue_pairs_sorted_firstn qsort mem (Some cmp) 0 pairs.

End Code.

(** ** What the table holds *)

Lemma key_cmp_eq a : forall b, key_cmp a b = 0 <-> a = b.
Proof.
  induction a as [|x a IH]; intros [|y b]; simpl; try (split; [|congruence]; lia); [done|].
  destruct (Z.ltb_spec y x), (Z.ltb_spec x y); try (split; [lia|intros [= -> ->]; lia]). assert (x = y) as -> by lia.
  rewrite IH. split; congruence.
Qed.

Lemma key_cmp_anti a : forall b, 0 < key_cmp a b <-> key_cmp b a < 0.
Proof.
  induction a as [|x a IH]; intros [|y b]; simpl; try lia.
  destruct (Z.ltb_spec y x), (Z.ltb_spec x y); try lia. apply IH.
Qed.

Lemma key_cmp_trans a : forall b c, key_cmp a b <= 0 -> key_cmp b c <= 0 -> key_cmp a c <= 0 /\ (key_cmp a b < 0 -> key_cmp a c < 0).
Proof.
  induction a as [|x a IH]; intros [|y b] [|z c]; simpl; try lia.
  destruct (Z.ltb_spec y x), (Z.ltb_spec x y), (Z.ltb_spec z y), (Z.ltb_spec y z), (Z.ltb_spec z x), (Z.ltb_spec x z); try lia; eauto.
Qed.

#[export] Instance key_cmp_order : KeyOrder key_cmp.
Proof.
  split.
  - apply key_cmp_anti.
  - intros a b c H1 H2. apply (key_cmp_trans a b c H1 H2).
  - intros a b c H1 H2. apply (key_cmp_trans a b c); lia.
Qed.

Section Table.
Context {V : Type} (zero : V).

Abbreviation sorted := (sorted_by (key (V := V)) key_cmp).
Abbreviation found := (find_node (key (V := V)) key_cmp).

Lemma add_key_found pairs k f : sorted pairs ->
  exists pairs', keyvalue_pairs_add_key true zero k f pairs = Some pairs' /\ sorted pairs' /\
  forall j, found j pairs' = if decide (k = j)
    then let kv := default (key_value_node_new zero k) (found k pairs) in
         Some {| n := u32 (n kv + 1); key := k; value := f (value kv) |}
    else found j pairs.
Proof.
  intros Hs. unfold keyvalue_pairs_add_key.
  destruct (findnew_node key key_cmp k _ pairs) as [[[a kv] r]|] eqn:E; [|apply findnew_none in E as [_ [=]]]. simpl.
  assert (forall m, Some (key_value_node_new zero k) = Some m -> key_cmp (key m) k = 0) as Hm.
  { intros m [= <-]. apply key_cmp_eq. done. }
  destruct (findnew_update key key_cmp pairs k (Some (key_value_node_new zero k)) a kv r {| n := u32 (n kv + 1); key := key kv; value := f (value kv) |})
    as (Hs' & Hk & Hor & Hf); [exact Hs|exact Hm|exact E|done|].
  eexists. split; [reflexivity|]. split; [exact Hs'|]. apply key_cmp_eq in Hk. intros j. rewrite Hf.
  destruct (decide (k = j)) as [->|Hj].
  - rewrite (proj2 (Z.eqb_eq _ _)) by (apply key_cmp_eq; done). rewrite Hk.
    destruct Hor as [-> | [-> [= <-]]]; done.
  - destruct (Z.eqb_spec (key_cmp k j) 0) as [Hc|Hc]; [|done]. apply key_cmp_eq in Hc. done.
Qed.

(** Any number of additions, with memory. *)
Fixpoint add_keys (l : list (list Z * (V -> V))) (pairs : list (key_value V)) : option (list (key_value V)) :=
  match l with [] => Some pairs | (k, f) :: l => pairs ← keyvalue_pairs_add_key true zero k f pairs; add_keys l pairs end.

(** The functions that were applied to the value of a key. *)
Definition of_key (k : list Z) (l : list (list Z * (V -> V))) : list (V -> V) := (filter (fun kf => kf.1 = k) l).*2.

Lemma of_key_cons k k0 f l : of_key k ((k0, f) :: l) = if decide (k0 = k) then f :: of_key k l else of_key k l.
Proof. unfold of_key. rewrite filter_cons. simpl. destruct (decide (k0 = k)); done. Qed.

Lemma add_keys_found l : forall pairs, sorted pairs -> exists pairs', add_keys l pairs = Some pairs' /\ sorted pairs' /\
  forall k, found k pairs' = match of_key k l with
    | [] => found k pairs
    | fs => let kv := default (key_value_node_new zero k) (found k pairs) in
            Some {| n := u32 (n kv + Z.of_nat (length fs)); key := k; value := foldl (fun v f => f v) (value kv) fs |}
    end.
Proof.
  induction l as [|[k0 f] l IH]; intros pairs Hs; simpl; [exists pairs; done|].
  destruct (add_key_found pairs k0 f Hs) as (p1 & -> & Hs1 & Hf1). simpl. destruct (IH p1 Hs1) as (p2 & -> & Hs2 & Hf2).
  exists p2. split_and!; [done|done|]. intros k. rewrite Hf2, Hf1, of_key_cons.
  destruct (decide (k0 = k)) as [->|Hk]; simpl; [|done]. destruct (of_key k l) as [|g fs]; simpl; [done|]. do 2 f_equal.
  unfold uwrap. rewrite Zplus_mod_idemp_l. f_equal. lia.
Qed.

End Table.

End KeyValue.
