(* ===== verification/Kmemleak.v ===== *)
(** * Memory leaks (kmemleak.c)

    The profiler that matches allocations with frees and reports the allocations
    that were not freed, and at a loss of events those that it knows so far. The
    live allocations are in a red-black tree by pointer, a report moves them to one
    by time. What is printed is a list of lines. [None] is a dereference of
    [NULL] or of a node that is not in its tree. *)

From stdpp Require Import sorting.
From S2P Require Import Prelude Rbtree Rblist KeyValue.

Module Kmemleak.

Import Rbtree Rblist.

(** A sample of a tracepoint: the fields of [struct sample_type_header], the size of
    the record, the call chain and the raw data. *)
Record sample := { s_id : Z; s_time : Z; s_pid : Z; s_cpu : Z; header_size : Z; chain : list Z; raw : list Z }.

#[export] Instance sample_eq_dec : EqDecision sample.
Proof. solve_decision. Defined.

(** [b_id]: the number of the [malloc] of the node. *)
Record perf_event_backup := { b_id : nat; ptr : Z; b_comm : string; callchain : bool; event : sample }.

#[export] Instance backup_eq_dec : EqDecision perf_event_backup.
Proof. solve_decision. Defined.

Record kmemleak_stat := { alloc_num : Z; alloc_mem : Z; total_alloc : Z; total_free : Z }.

Record kmemleak_lost_node := { ins : Z; reclaim : bool; start_time : Z; end_time : Z; lost_id : Z; lost : Z }.

(** [fresh]: the number of the next [malloc]; [freed]: the nodes that were freed. *)
Record kmemleak_ctx := {
  alloc : tree perf_event_backup;
  stat : kmemleak_stat;
  lost_list : list kmemleak_lost_node;
  fresh : nat;
  freed : list nat;
}.

(** The options and the context that does not change. *)
Record options := { report_leaked_bytes : bool; collect_comm : bool; verbose : bool; verbose_event : bool; greater_than : Z }.

(** What a tracepoint has: its expressions for the pointer and the size. *)
Record tp := { stack : bool; dwarf_unwind : bool; mem_ptr : sample -> Z; mem_size : option (sample -> Z) }.

Record comm_entry := { ce_comm : string; ce_bytes : Z; ce_n : Z }.

Record leaked_bytes := { leaked : Z; lb_pid : Z; comms : list comm_entry; max_comm : Z }.

(** What is printed. *)
Inductive line :=
  | Stats (from_sigusr1 : bool) (s : kmemleak_stat)
  | Report (nr_entries : Z)
  | Event (s : sample) (cc : bool)
  | Leaked_header
  | Leak (kv : KeyValue.key_value leaked_bytes)
  | Lost (id lost ins : Z) (now : bool)
  | In_advance.

(** The time of day at a report, and whether there is memory for the table of the
    leaked bytes, for the array that sorts it, and, when the allocation with a
    number is counted, for a node of the table and for more task names. *)
Record moment := { now : Z; kv_mem : bool; sort_mem : bool; node_mem : nat -> bool; comms_mem : nat -> bool }.

(** [offsetof (struct perf_event_backup, event)] *)
Definition backup_offset : Z := 56.

Definition backup_size (b : perf_event_backup) : Z := backup_offset + header_size (event b).

(** ** The tree of the allocations *)

Definition ptr_cmp (p : Z) (b : perf_event_backup) : Z := zcmp (ptr b) p.

Definition alloc_find (root : tree perf_event_backup) (p : Z) : option perf_event_backup :=
  match descend (ptr_cmp p) root [] true with Taken _ _ b _ _ => Some b | Free _ _ => None end.

Definition alloc_insert (root : tree perf_event_backup) (new : perf_event_backup) : option (Z * tree perf_event_backup) :=
  match descend (ptr_cmp (ptr new)) root [] true with
  | Taken _ _ _ _ _ => Some (- 17, root)
  | Free p _ => t ← rb_insert_color new p; Some (0, t)
  end.

Definition set_alloc (c : kmemleak_ctx) (t : tree perf_event_backup) : kmemleak_ctx :=
  {| alloc := t; stat := stat c; lost_list := lost_list c; fresh := fresh c; freed := freed c |}.

Definition set_stat (c : kmemleak_ctx) (s : kmemleak_stat) : kmemleak_ctx :=
  {| alloc := alloc c; stat := s; lost_list := lost_list c; fresh := fresh c; freed := freed c |}.

Definition set_lost_list (c : kmemleak_ctx) (l : list kmemleak_lost_node) : kmemleak_ctx :=
  {| alloc := alloc c; stat := stat c; lost_list := l; fresh := fresh c; freed := freed c |}.

Definition set_freed (c : kmemleak_ctx) (l : list nat) : kmemleak_ctx :=
  {| alloc := alloc c; stat := stat c; lost_list := lost_list c; fresh := fresh c; freed := l |}.

Definition alloc_erase (c : kmemleak_ctx) (b : perf_event_backup) : option kmemleak_ctx :=
  let size := backup_size b in
  '(col, l, r, p) ← node_place b (alloc c) [];
  t ← rb_erase col l r p;
  Some {| alloc := t;
          stat := {| alloc_num := u64 (alloc_num (stat c) - 1); alloc_mem := u64 (alloc_mem (stat c) - size);
                     total_alloc := total_alloc (stat c); total_free := total_free (stat c) |};
          lost_list := lost_list c; fresh := fresh c; freed := b_id b :: freed c |}.

(** The loop of [alloc_free_all]. *)
Fixpoint free_all_loop (fuel : nat) (node : option perf_event_backup) (c : kmemleak_ctx) : option kmemleak_ctx :=
  match node with
  | None => Some c
  | Some b =>
      match fuel with
      | O => None
      | S fuel => '(_, _, r, p) ← node_place b (alloc c) []; c ← alloc_erase c b; free_all_loop fuel (rb_next r p) c
      end
  end.

Definition alloc_free_all (c : kmemleak_ctx) : option kmemleak_ctx :=
  free_all_loop (length (inorder (alloc c))) (rb_first (alloc c)) c.

Section Code.
Context (env : options).
(** [tp_from_evsel] of the event in the lists of the two options; [unwind]: the key
    that [keyvalue_pairs_add_callchain] makes; [evclock_to_realtime_ns]; [qsort]. *)
Context (tp_alloc tp_free : Z -> option tp) (unwind : sample -> list Z) (realtime : Z -> Z).
Context (qsort : forall A, (A -> A -> Z) -> list A -> list A).

(** [name]: what [global_comm_get] returns. *)
Definition alloc_new (c : kmemleak_ctx) (p : Z) (cc : bool) (s : sample) (name : option string) : perf_event_backup * kmemleak_ctx :=
  let comm := if collect_comm env then match name with Some n => String.substring 0 15 n | None => "<...>"%string end else ""%string in
  let b := {| b_id := fresh c; ptr := p; b_comm := comm; callchain := cc; event := s |} in
  (b, {| alloc := alloc c;
         stat := {| alloc_num := u64 (alloc_num (stat c) + 1); alloc_mem := u64 (alloc_mem (stat c) + backup_size b);
                    total_alloc := total_alloc (stat c); total_free := total_free (stat c) |};
         lost_list := lost_list c; fresh := S (fresh c); freed := freed c |}).

(** ** Reports *)

Definition report_kmemleak_stat (c : kmemleak_ctx) (from_sigusr1 : bool) : list line :=
  if total_alloc (stat c) =? 0 then [] else [Stats from_sigusr1 (stat c)].

(** The search in [leaked->comms]. *)
Fixpoint bump_comm (name : string) (bytes : Z) (l : list comm_entry) : option (list comm_entry) :=
  match l with
  | [] => None
  | e :: l =>
      if String.eqb (ce_comm e) name then Some ({| ce_comm := ce_comm e; ce_bytes := u64 (ce_bytes e + bytes); ce_n := ce_n e + 1 |} :: l)
      else l ← bump_comm name bytes l; Some (e :: l)
  end.

(** A name that is not there is added at the end, after a [realloc] when the array is
    full; without memory for it the name is not counted. *)
Definition add_comm (mem : bool) (name : string) (bytes : Z) (l : list comm_entry) (max : Z) : list comm_entry * Z :=
  match bump_comm name bytes l with
  | Some l => (l, max)
  | None =>
      let more := l ++ [{| ce_comm := name; ce_bytes := bytes; ce_n := 1 |}] in
      if max <=? Z.of_nat (length l)
      then if mem then (more, if max =? 0 then 4 else max * 2) else (l, max)
      else (more, max)
  end.

(** What [collect_leaked_bytes] does to the value of a call chain. *)
Definition leak_more (mem : bool) (b : perf_event_backup) (bytes : Z) (v : leaked_bytes) : leaked_bytes :=
  let '(names, max) := if collect_comm env && negb (String.eqb (b_comm b) "") then add_comm mem (b_comm b) bytes (comms v) (max_comm v)
                       else (comms v, max_comm v) in
  {| leaked := u64 (leaked v + bytes);
     lb_pid := if lb_pid v =? 0 then s_pid (event b) else lb_pid v;
     comms := names; max_comm := max |}.

Definition no_leak : leaked_bytes := {| leaked := 0; lb_pid := 0; comms := []; max_comm := 0 |}.

Definition bytes_alloc (t : tp) (s : sample) : Z := match mem_size t with Some f => u64 (f s) | None => 0 end.

Definition leak_key (t : tp) (s : sample) : list Z := if dwarf_unwind t then unwind s else chain s.

(** The value of a node that has no memory is NULL, and is used: [None]. *)
Definition collect_leaked_bytes (at_ : moment) (kv : list (KeyValue.key_value leaked_bytes)) (b : perf_event_backup)
    : option (list (KeyValue.key_value leaked_bytes)) :=
  if callchain b then
    t ← tp_alloc (s_id (event b));
    KeyValue.keyvalue_pairs_add_key (node_mem at_ (b_id b)) no_leak (leak_key t (event b))
      (leak_more (comms_mem at_ (b_id b)) b (bytes_alloc t (event b))) kv
  else Some kv.

(** [b->leaked] from large to small, then the pids. *)
Definition __leak_cmp (b1 b2 : leaked_bytes) : Z :=
  if leaked b1 <? leaked b2 then 1 else if leaked b2 <? leaked b1 then -1 else s32 (lb_pid b1 - lb_pid b2).

Definition __comm_cmp (a b : comm_entry) : Z :=
  if negb (ce_bytes b =? ce_bytes a) then (if ce_bytes a <? ce_bytes b then 1 else -1) else s32 (ce_n b - ce_n a).

Definition __print_leak (kv : KeyValue.key_value leaked_bytes) : line :=
  let v := KeyValue.value kv in
  Leak {| KeyValue.n := KeyValue.n kv; KeyValue.key := KeyValue.key kv;
          KeyValue.value := {| leaked := leaked v; lb_pid := lb_pid v; comms := qsort comm_entry __comm_cmp (comms v); max_comm := max_comm v |} |}.

(** The comparison of [sorted_insert], which never finds an equal node. *)
Definition sorted_cmp (new b : perf_event_backup) : Z :=
  if s_time (event new) <? s_time (event b) then 1
  else if s_time (event b) <? s_time (event new) then -1
  else if ptr new <? ptr b then 1 else -1.

Definition sorted_insert (sorted : rblist perf_event_backup) (new : perf_event_backup) : option (rblist perf_event_backup) :=
  match descend (sorted_cmp new) (rb_root sorted) [] true with
  | Taken _ _ _ _ _ => None
  | Free p leftmost => rb_insert_color_cached new p leftmost sorted
  end.

(** All nodes go from the tree of the allocations to the sorted tree. *)
Fixpoint move_loop (fuel : nat) (node : option perf_event_backup) (t : tree perf_event_backup) (sorted : rblist perf_event_backup)
    : option (tree perf_event_backup * rblist perf_event_backup) :=
  match node with
  | None => Some (t, sorted)
  | Some b =>
      match fuel with
      | O => None
      | S fuel =>
          '(c, l, r, p) ← node_place b t [];
          t ← rb_erase c l r p;
          sorted ← sorted_insert sorted b;
          move_loop fuel (rb_next r p) t sorted
      end
  end.

(** Whether an allocation is old enough. *)
Definition selected (time_ns : Z) (s : sample) : bool :=
  if time_ns =? 0 then true
  else let realtime_ns := realtime (s_time s) in
       if realtime_ns =? 0 then true else greater_than env <? u64 (time_ns - realtime_ns).

(** A node of the sorted tree: the table of the leaked bytes, or the event. *)
Definition report_entry (at_ : moment) (time_ns : Z) (kv_pairs : option (list (KeyValue.key_value leaked_bytes))) (b : perf_event_backup)
    : option (list line * option (list (KeyValue.key_value leaked_bytes))) :=
  let sel := selected time_ns (event b) in
  let lines := if (match kv_pairs with None => sel | Some _ => false end) || verbose env then [Event (event b) (callchain b)] else [] in
  match kv_pairs with
  | Some kv => if sel then kv ← collect_leaked_bytes at_ kv b; Some (lines, Some kv) else Some (lines, Some kv)
  | None => Some (lines, None)
  end.

(** The lines, the nodes that are freed, the table. *)
Fixpoint print_loop (at_ : moment) (fuel : nat) (time_ns : Z) (node : option perf_event_backup) (sorted : rblist perf_event_backup)
    (kv_pairs : option (list (KeyValue.key_value leaked_bytes))) : option (list line * list nat * option (list (KeyValue.key_value leaked_bytes))) :=
  match node with
  | None => Some ([], [], kv_pairs)
  | Some b =>
      match fuel with
      | O => None
      | S fuel =>
          '(c, l, r, p) ← node_place b (rb_root sorted) [];
          '(lines, kv_pairs) ← report_entry at_ time_ns kv_pairs b;
          sorted ← rb_erase_cached c l b r p sorted;
          '(more, gone, kv_pairs) ← print_loop at_ fuel time_ns (rb_next r p) sorted kv_pairs;
          Some (lines ++ more, b_id b :: gone, kv_pairs)
      end
  end.

(** The header line and the table around the lines of the entries. *)
Definition report_head (kv_pairs : option (list (KeyValue.key_value leaked_bytes))) (nr : Z) : list line :=
  if (match kv_pairs with None => true | Some _ => false end) || verbose env then [Report nr] else [].

Definition report_tail (at_ : moment) (kv_pairs : option (list (KeyValue.key_value leaked_bytes))) : list line :=
  match kv_pairs with
  | None => []
  | Some kv => Leaked_header :: (__print_leak <$> KeyValue.keyvalue_pairs_sorted_foreach (qsort _) (sort_mem at_) __leak_cmp kv)
  end.

Definition report_kmemleak (at_ : moment) (c : kmemleak_ctx) : option (list line * kmemleak_ctx) :=
  let stats := report_kmemleak_stat c false in
  match alloc c with
  | Leaf => Some (stats, c)
  | _ =>
      let nr := u32 (alloc_num (stat c)) in
      let size := length (inorder (alloc c)) in
      '(t, sorted) ← move_loop size (rb_first (alloc c)) (alloc c) rblist__init;
      let time_ns := if greater_than env =? 0 then 0 else now at_ in
      let kv_pairs := if report_leaked_bytes env && kv_mem at_ then Some [] else None in
      '(lines, gone, kv_pairs') ← print_loop at_ size time_ns (rb_leftmost sorted) sorted kv_pairs;
      Some (stats ++ report_head kv_pairs nr ++ lines ++ report_tail at_ kv_pairs',
            {| alloc := t;
               stat := {| alloc_num := 0; alloc_mem := 0; total_alloc := total_alloc (stat c); total_free := total_free (stat c) |};
               lost_list := lost_list c; fresh := fresh c; freed := reverse gone ++ freed c |})
  end.

(** ** Lost events *)

Definition lost_reclaim (at_ : moment) (c : kmemleak_ctx) : option (list line * kmemleak_ctx) :=
  let empty := match alloc c with Leaf => true | _ => false end in
  let lines := match lost_list c with [] => [] | n :: _ => [Lost (lost_id n) (lost n) (ins n) (negb empty)] end in
  if empty then Some (lines, c)
  else '(more, c) ← report_kmemleak at_ c; Some (lines ++ In_advance :: more, c).

(** Before the first node with a later start. *)
Fixpoint insert_lost (n : kmemleak_lost_node) (l : list kmemleak_lost_node) : list kmemleak_lost_node :=
  match l with
  | [] => [n]
  | pos :: l => if start_time n <? start_time pos then n :: pos :: l else pos :: insert_lost n l
  end.

Definition kmemleak_lost (mem : bool) (n : kmemleak_lost_node) (c : kmemleak_ctx) : kmemleak_ctx :=
  if mem then set_lost_list c (insert_lost {| ins := ins n; reclaim := false; start_time := start_time n; end_time := end_time n;
                                              lost_id := lost_id n; lost := lost n |} (lost_list c))
  else c.

(** The loop of [kmemleak_event_lost]: the lines, whether the event is unsafe. *)
Fixpoint event_lost_loop (at_ : moment) (time : Z) (l : list kmemleak_lost_node) (c : kmemleak_ctx) : option (list line * bool * kmemleak_ctx) :=
  match l with
  | [] => Some ([], false, set_lost_list c [])
  | n :: next =>
      if time <=? start_time n then Some ([], false, set_lost_list c (n :: next))
      else
        '(lines, c) ← (if reclaim n then Some ([], c) else lost_reclaim at_ (set_lost_list c (n :: next)));
        let n := {| ins := ins n; reclaim := true; start_time := start_time n; end_time := end_time n; lost_id := lost_id n; lost := lost n |} in
        if time <? end_time n then Some (lines, true, set_lost_list c (n :: next))
        else '(more, unsafe, c) ← event_lost_loop at_ time next (set_lost_list c next);
             Some (lines ++ more, unsafe, c)
  end.

Definition kmemleak_event_lost (at_ : moment) (s : sample) (c : kmemleak_ctx) : option (list line * bool * kmemleak_ctx) :=
  event_lost_loop at_ (s_time s) (lost_list c) c.

(** ** Samples *)

(** The tracepoint, and whether it allocates: [add_tp_list] keeps its list in
    [tp->private]. *)
Definition tp_of (s : sample) : option (tp * bool) :=
  match tp_alloc (s_id s) with
  | Some t => Some (t, true)
  | None => t ← tp_free (s_id s); Some (t, false)
  end.

Definition count_alloc (c : kmemleak_ctx) : kmemleak_ctx :=
  set_stat c {| alloc_num := alloc_num (stat c); alloc_mem := alloc_mem (stat c); total_alloc := u64 (total_alloc (stat c) + 1);
                total_free := total_free (stat c) |}.

Definition count_free (c : kmemleak_ctx) : kmemleak_ctx :=
  set_stat c {| alloc_num := alloc_num (stat c); alloc_mem := alloc_mem (stat c); total_alloc := total_alloc (stat c);
                total_free := u64 (total_free (stat c) + 1) |}.

(** [is_alloc]: [mem] says whether [malloc] has memory. *)
Definition sample_alloc (t : tp) (s : sample) (mem : bool) (name : option string) (c : kmemleak_ctx) : option kmemleak_ctx :=
  if negb mem then Some c
  else
    let p := u64 (mem_ptr t s) in
    let '(b, c) := alloc_new c p (stack t) s name in
    '(rc, root) ← alloc_insert (alloc c) b;
    c ← (if rc =? -17 then
           old ← alloc_find (alloc c) p;
           c ← alloc_erase c old;
           '(_, root) ← alloc_insert (alloc c) b;
           Some (set_alloc c root)
         else Some (set_alloc c root));
    Some (count_alloc c).

Definition sample_free (t : tp) (s : sample) (c : kmemleak_ctx) : option kmemleak_ctx :=
  let p := u64 (mem_ptr t s) in
  c ← match alloc_find (alloc c) p with Some b => alloc_erase c b | None => Some c end;
  Some (count_free c).

Definition kmemleak_sample (at_ : moment) (s : sample) (mem : bool) (name : option string) (c : kmemleak_ctx)
    : option (list line * kmemleak_ctx) :=
  match tp_of s with
  | None => Some ([], c)
  | Some (t, is_alloc) =>
      let lines := if verbose_event env then [Event s (stack t)] else [] in
      '(more, unsafe, c) ← kmemleak_event_lost at_ s c;
      if (unsafe : bool) then Some (lines ++ more, c)
      else c ← (if (is_alloc : bool) then sample_alloc t s mem name c else sample_free t s c);
           Some (lines ++ more, c)
  end.

Definition kmemleak_sigusr (sigusr1 : bool) (c : kmemleak_ctx) : list line := if sigusr1 then report_kmemleak_stat c true else [].

Definition monitor_ctx_init : kmemleak_ctx :=
  {| alloc := Leaf; stat := {| alloc_num := 0; alloc_mem := 0; total_alloc := 0; total_free := 0 |}; lost_list := []; fresh := 0; freed := [] |}.

(** The last report, and everything is freed. *)
Definition kmemleak_exit (at_ : moment) (c : kmemleak_ctx) : option (list line * kmemleak_ctx) :=
  '(lines, c) ← report_kmemleak at_ c;
  c ← alloc_free_all (set_lost_list c []);
  Some (lines, c).

Inductive input :=
  | Sample (s : sample) (mem : bool) (name : option string)
  | Lost_events (n : kmemleak_lost_node) (mem : bool)
  | Sigusr (sigusr1 : bool).

Definition step (at_ : moment) (i : input) (c : kmemleak_ctx) : option (list line * kmemleak_ctx) :=
  match i with
  | Sample s mem name => kmemleak_sample at_ s mem name c
  | Lost_events n mem => Some ([], kmemleak_lost mem n c)
  | Sigusr b => Some (kmemleak_sigusr b c, c)
  end.

End Code.

End Kmemleak.
