(* ===== verification/KmemleakProof.v ===== *)
(** * Memory leaks: the reports are those of a map of the live allocations

    The specification keeps the live allocations in a map by pointer and sorts them
    for a report; the lemmas relate the trees to it. *)

From stdpp Require Import sorting.
From S2P Require Import Prelude Rbtree Rblist KeyValue Kmemleak.

Module KmemleakProof.

Import Rbtree Rblist Kmemleak.

(** ** The specification *)

Record live := { objs : gmap Z perf_event_backup; n_alloc : Z; n_free : Z; losses : list kmemleak_lost_node; next_id : nat }.

Definition total (l : list perf_event_backup) : Z := foldr (fun b z => backup_size b + z) 0 l.

Definition values (m : gmap Z perf_event_backup) : list perf_event_backup := (map_to_list m).*2.

Definition stats_of (l : list perf_event_backup) (a : live) : kmemleak_stat :=
  {| alloc_num := u64 (Z.of_nat (length l)); alloc_mem := u64 (total l); total_alloc := n_alloc a; total_free := n_free a |}.

Definition set_objs (a : live) (m : gmap Z perf_event_backup) : live :=
  {| objs := m; n_alloc := n_alloc a; n_free := n_free a; losses := losses a; next_id := next_id a |}.

Definition set_losses (a : live) (l : list kmemleak_lost_node) : live :=
  {| objs := objs a; n_alloc := n_alloc a; n_free := n_free a; losses := l; next_id := next_id a |}.

(** By time, then by pointer. *)
Definition time_key (b : perf_event_backup) : Z * Z := (s_time (event b), ptr b).

Definition time_le (x y : perf_event_backup) : Prop :=
  s_time (event x) < s_time (event y) \/ s_time (event x) = s_time (event y) /\ ptr x <= ptr y.

#[export] Instance time_le_dec x y : Decision (time_le x y).
Proof. unfold time_le. apply _. Defined.

Definition by_time (m : gmap Z perf_event_backup) : list perf_event_backup := merge_sort time_le (values m).

Section Spec.
Context (env : options) (tp_alloc tp_free : Z -> option tp) (unwind : sample -> list Z) (realtime : Z -> Z).
Context (qsort : forall A, (A -> A -> Z) -> list A -> list A).

Abbreviation report_entry := (report_entry env tp_alloc unwind realtime).

Fixpoint entry_lines (at_ : moment) (time_ns : Z) (kv : option (list (KeyValue.key_value leaked_bytes))) (l : list perf_event_backup)
    : option (list line * option (list (KeyValue.key_value leaked_bytes))) :=
  match l with
  | [] => Some ([], kv)
  | b :: l => '(x, kv) ← report_entry at_ time_ns kv b; '(y, kv) ← entry_lines at_ time_ns kv l; Some (x ++ y, kv)
  end.

Definition s_stats (a : live) (from_sigusr1 : bool) : list line :=
  if n_alloc a =? 0 then [] else [Stats from_sigusr1 (stats_of (values (objs a)) a)].

(** All live allocations, sorted, and none is left. *)
Definition s_report (at_ : moment) (a : live) : option (list line * live) :=
  if decide (objs a = ∅) then Some (s_stats a false, a)
  else
    let kv := if report_leaked_bytes env && kv_mem at_ then Some [] else None in
    '(lines, kv') ← entry_lines at_ (if greater_than env =? 0 then 0 else now at_) kv (by_time (objs a));
    Some (s_stats a false ++ report_head env kv (u32 (u64 (Z.of_nat (length (values (objs a)))))) ++ lines ++ report_tail qsort at_ kv',
          set_objs a ∅).

Definition s_reclaim (at_ : moment) (a : live) : option (list line * live) :=
  let lines := match losses a with [] => [] | n :: _ => [Lost (lost_id n) (lost n) (ins n) (bool_decide (objs a <> ∅))] end in
  if decide (objs a = ∅) then Some (lines, a)
  else '(more, a) ← s_report at_ a; Some (lines ++ In_advance :: more, a).

Fixpoint s_lost_loop (at_ : moment) (time : Z) (l : list kmemleak_lost_node) (a : live) : option (list line * bool * live) :=
  match l with
  | [] => Some ([], false, set_losses a [])
  | n :: next =>
      if time <=? start_time n then Some ([], false, set_losses a (n :: next))
      else
        '(lines, a) ← (if reclaim n then Some ([], a) else s_reclaim at_ (set_losses a (n :: next)));
        let n := {| ins := ins n; reclaim := true; start_time := start_time n; end_time := end_time n; lost_id := lost_id n; lost := lost n |} in
        if time <? end_time n then Some (lines, true, set_losses a (n :: next))
        else '(more, unsafe, a) ← s_lost_loop at_ time next (set_losses a next);
             Some (lines ++ more, unsafe, a)
  end.

(** An allocation replaces the one with the same pointer, a free removes it. *)
Definition s_alloc (t : tp) (s : sample) (mem : bool) (name : option string) (a : live) : live :=
  if mem then
    let p := u64 (mem_ptr t s) in
    let comm := if collect_comm env then match name with Some n => String.substring 0 15 n | None => "<...>"%string end else ""%string in
    {| objs := <[p := {| b_id := next_id a; ptr := p; b_comm := comm; callchain := stack t; event := s |}]> (objs a);
       n_alloc := u64 (n_alloc a + 1); n_free := n_free a; losses := losses a; next_id := S (next_id a) |}
  else a.

Definition s_free (t : tp) (s : sample) (a : live) : live :=
  {| objs := delete (u64 (mem_ptr t s)) (objs a); n_alloc := n_alloc a; n_free := u64 (n_free a + 1); losses := losses a; next_id := next_id a |}.

Definition s_sample (at_ : moment) (s : sample) (mem : bool) (name : option string) (a : live) : option (list line * live) :=
  match tp_of tp_alloc tp_free s with
  | None => Some ([], a)
  | Some (t, is_alloc) =>
      let lines := if verbose_event env then [Event s (stack t)] else [] in
      '(more, unsafe, a) ← s_lost_loop at_ (s_time s) (losses a) a;
      Some (lines ++ more, if (unsafe : bool) then a else if (is_alloc : bool) then s_alloc t s mem name a else s_free t s a)
  end.

Definition s_step (at_ : moment) (i : input) (a : live) : option (list line * live) :=
  match i with
  | Sample s mem name => s_sample at_ s mem name a
  | Lost_events n mem =>
      Some ([], if (mem : bool) then set_losses a (insert_lost {| ins := ins n; reclaim := false; start_time := start_time n;
                                              end_time := end_time n; lost_id := lost_id n; lost := lost n |} (losses a)) else a)
  | Sigusr b => Some (if (b : bool) then s_stats a true else [], a)
  end.

Definition s_init : live := {| objs := ∅; n_alloc := 0; n_free := 0; losses := []; next_id := 0 |}.

End Spec.

(** ** The relation *)

(** [l]: the live allocations in the order of their pointers. *)
Record rel (tp_alloc : Z -> option tp) (l : list perf_event_backup) (c : kmemleak_ctx) (a : live) : Prop := {
  rel_root : root_of ptr zcmp l (alloc c);
  rel_objs : forall p b, objs a !! p = Some b <-> b ∈ l /\ ptr b = p;
  rel_stat : stat c = stats_of l a;
  rel_lost : lost_list c = losses a;
  rel_fresh : fresh c = next_id a;
  rel_freed : freed c ++ (b_id <$> l) ≡ₚ seq 0 (fresh c);
  rel_tp : forall b, b ∈ l -> is_Some (tp_alloc (s_id (event b)));
}.

Lemma zcmp_eq a b : zcmp a b = 0 <-> a = b.
Proof. unfold zcmp. destruct (Z.ltb_spec b a), (Z.ltb_spec a b); lia. Qed.

Lemma total_app l l' : total (l ++ l') = total l + total l'.
Proof. induction l as [|b l IH]; simpl; [done|]. rewrite IH. lia. Qed.

Lemma total_perm l l' : l ≡ₚ l' -> total l = total l'.
Proof. induction 1; simpl; lia. Qed.

Section Rel.
Context {tp_alloc : Z -> option tp} {l : list perf_event_backup} {c : kmemleak_ctx} {a : live} (H : rel tp_alloc l c a).

Lemma rel_nodup : NoDup l.
Proof using H. exact (root_nodup _ _ _ _ (rel_root _ _ _ _ H)). Qed.

Lemma ptr_inj b b' : b ∈ l -> b' ∈ l -> ptr b = ptr b' -> b = b'.
Proof using H.
  intros Hb Hb' E. pose proof (proj2 (rel_objs _ _ _ _ H (ptr b) b) (conj Hb eq_refl)) as H1.
  pose proof (proj2 (rel_objs _ _ _ _ H (ptr b) b') (conj Hb' (eq_sym E))). congruence.
Qed.

Lemma rel_values : values (objs a) ≡ₚ l.
Proof using H.
  apply NoDup_Permutation.
  - unfold values. apply NoDup_fmap_2_strong; [|apply NoDup_map_to_list].
    intros [p b] [p' b'] Hp Hp' Eb. apply elem_of_map_to_list in Hp, Hp'. simpl in Eb. subst b'.
    apply (rel_objs _ _ _ _ H) in Hp as [_ <-], Hp' as [_ <-]. done.
  - apply rel_nodup.
  - intros b. unfold values. rewrite list_elem_of_fmap. split.
    + intros ([p b'] & -> & Hp). apply elem_of_map_to_list in Hp. apply (rel_objs _ _ _ _ H) in Hp as [Hp _]. done.
    + intros Hb. exists (ptr b, b). split; [done|]. apply elem_of_map_to_list, (rel_objs _ _ _ _ H). done.
Qed.

Lemma rel_stats : stat c = stats_of (values (objs a)) a.
Proof using H. rewrite (rel_stat _ _ _ _ H). unfold stats_of. rewrite (Permutation_length rel_values), (total_perm _ _ rel_values). done. Qed.

Lemma rel_empty : objs a = ∅ <-> alloc c = Leaf.
Proof using H.
  rewrite (root_empty _ _ _ _ (rel_root _ _ _ _ H)). split; intros E.
  - pose proof rel_values as Hv. rewrite E in Hv. unfold values in Hv. rewrite map_to_list_empty in Hv. symmetry in Hv. apply Permutation_nil_r in Hv. done.
  - apply map_empty. intros p. apply eq_None_not_Some. intros [b Hb]. apply (rel_objs _ _ _ _ H) in Hb as [Hb _]. rewrite E in Hb. inversion Hb.
Qed.

Lemma find_live p : alloc_find (alloc c) p = objs a !! p.
Proof using H.
  unfold alloc_find. pose proof (root_descend ptr zcmp p l (alloc c) (rel_root _ _ _ _ H)) as Hd. unfold ptr_cmp.
  destruct (descend _ _ _ _) as [cc tl x tr q|q b].
  - destruct Hd as [Hx Hp]. apply (proj1 (zcmp_eq _ _)) in Hp. symmetry. apply (rel_objs _ _ _ _ H p x). split; [exact Hx|exact Hp].
  - destruct Hd as [Hno _]. symmetry. apply eq_None_not_Some. intros [y Hy]. apply (rel_objs _ _ _ _ H) in Hy as [Hy <-].
    apply (Hno y Hy), zcmp_eq. done.
Qed.

(** A node that is erased and freed. *)
Lemma erase_rel b : objs a !! ptr b = Some b ->
  exists l' c', alloc_erase c b = Some c' /\ l ≡ₚ b :: l' /\ rel tp_alloc l' c' (set_objs a (delete (ptr b) (objs a))).
Proof using H.
  intros Hb. apply (rel_objs _ _ _ _ H) in Hb as [Hb _]. pose proof Hb as Hb'. apply list_elem_of_split in Hb' as (x & y & El).
  destruct (root_erase ptr zcmp b l (alloc c) x y (rel_root _ _ _ _ H) El) as (cc & tl & tr & p & t & E & _ & Ee & Ht).
  assert (l ≡ₚ b :: (x ++ y)) as P by (rewrite El; symmetry; apply Permutation_middle).
  pose proof rel_nodup as Hnd. rewrite P in Hnd. apply list.NoDup_cons in Hnd as [Hni _].
  unfold alloc_erase. rewrite E. simpl. rewrite Ee. simpl. exists (x ++ y). eexists. split; [reflexivity|]. split; [done|].
  pose proof (rel_stat _ _ _ _ H) as Hst. split; simpl.
  - done.
  - intros q b'. rewrite lookup_delete_Some, (rel_objs _ _ _ _ H). rewrite P, elem_of_cons. split.
    + intros (Hne & [->|Hin] & Hq); [congruence|done].
    + intros [Hin Hq]. split_and!; auto. intros Eq. assert (b = b') as <-; [|done].
      apply ptr_inj; [done| |congruence]. rewrite P. apply list_elem_of_further. done.
  - rewrite Hst. unfold stats_of. simpl. rewrite (total_perm _ _ P), (Permutation_length P). simpl. unfold uwrap.
    rewrite !Zminus_mod_idemp_l. do 2 f_equal; lia.
  - apply H.
  - apply H.
  - rewrite <- (rel_freed _ _ _ _ H). simpl. rewrite P. simpl. rewrite Permutation_middle. done.
  - intros b' Hin. apply (rel_tp _ _ _ _ H). rewrite P. apply list_elem_of_further. done.
Qed.

End Rel.

(** A new node in the place of a pointer that is not there. *)
Lemma insert_root l t b : root_of ptr zcmp l t -> (forall x, x ∈ l -> ptr x <> ptr b) ->
  exists l' t', alloc_insert t b = Some (0, t') /\ root_of ptr zcmp l' t' /\ l' ≡ₚ b :: l.
Proof.
  intros Ht Hno. unfold alloc_insert. pose proof (root_descend ptr zcmp (ptr b) l t Ht) as Hd. unfold ptr_cmp.
  destruct (descend _ _ _ _) as [cc tl x tr q|q lm].
  - destruct Hd as [Hx Hp]. apply (proj1 (zcmp_eq _ _)) in Hp. destruct (Hno x Hx Hp).
  - destruct Hd as [_ Hd]. destruct (Hd b) as (l' & t' & -> & Ht' & P & _); [apply zcmp_eq; done|]. exists l', t'. done.
Qed.

Lemma insert_taken l t b x : root_of ptr zcmp l t -> x ∈ l -> ptr x = ptr b -> alloc_insert t b = Some (- 17, t).
Proof.
  intros Ht Hx Hp. unfold alloc_insert. pose proof (root_descend ptr zcmp (ptr b) l t Ht) as Hd. unfold ptr_cmp.
  destruct (descend _ _ _ _) as [cc tl y tr q|q lm]; [done|]. destruct Hd as [Hno _]. destruct (Hno x Hx). apply zcmp_eq. done.
Qed.

Section Samples.
Context (env : options) (tp_alloc : Z -> option tp).

(** The state after [alloc_new]: the node is counted but not linked. *)
Lemma link_rel l c a b l' t' : rel tp_alloc l c a -> objs a !! ptr b = None -> b_id b = fresh c -> is_Some (tp_alloc (s_id (event b))) ->
  root_of ptr zcmp l' t' -> l' ≡ₚ b :: l ->
  rel tp_alloc l' (count_alloc {| alloc := t';
     stat := {| alloc_num := u64 (alloc_num (stat c) + 1); alloc_mem := u64 (alloc_mem (stat c) + backup_size b);
                total_alloc := total_alloc (stat c); total_free := total_free (stat c) |};
     lost_list := lost_list c; fresh := S (fresh c); freed := freed c |})
   {| objs := <[ptr b := b]> (objs a); n_alloc := u64 (n_alloc a + 1); n_free := n_free a; losses := losses a; next_id := S (next_id a) |}.
Proof.
  intros H Hno Hid Htp Ht P. split; simpl.
  - done.
  - intros p x. rewrite lookup_insert_Some, (rel_objs _ _ _ _ H), P, elem_of_cons. split.
    + intros [[<- <-]|[Hne [Hx Hp]]]; auto.
    + intros [[->|Hx] <-]; [auto|]. right. split_and!; try done. intros E.
      pose proof (proj2 (rel_objs _ _ _ _ H (ptr x) x) (conj Hx eq_refl)). congruence.
  - rewrite (rel_stat _ _ _ _ H). unfold stats_of. simpl. rewrite (total_perm _ _ P), (Permutation_length P). simpl. unfold uwrap.
    rewrite !Zplus_mod_idemp_l. do 2 f_equal; lia.
  - apply H.
  - rewrite (rel_fresh _ _ _ _ H). done.
  - rewrite P. cbn [fmap list_fmap]. rewrite Hid. change (0%nat :: seq 1 (fresh c)) with (seq 0 (S (fresh c))). rewrite seq_S, <- (rel_freed _ _ _ _ H), Nat.add_0_l.
    rewrite <- app_assoc. apply Permutation_app; [done|]. apply Permutation_cons_append.
  - intros x. rewrite P, elem_of_cons. intros [->|Hx]; [done|]. apply (rel_tp _ _ _ _ H). done.
Qed.

Lemma alloc_rel l c a t s mem name : rel tp_alloc l c a -> is_Some (tp_alloc (s_id s)) ->
  exists l' c', sample_alloc env t s mem name c = Some c' /\ rel tp_alloc l' c' (s_alloc env t s mem name a).
Proof.
  intros H Htp. unfold sample_alloc, s_alloc. destruct mem; simpl; [|exists l, c; done]. rewrite <- (rel_fresh _ _ _ _ H).
  set (b := {| b_id := fresh c; ptr := u64 (mem_ptr t s); b_comm := _; callchain := stack t; event := s |}).
  destruct (objs a !! ptr b) as [old|] eqn:Eo.
  - pose proof (proj1 (rel_objs _ _ _ _ H (ptr b) old) Eo) as [Hold Hp].
    rewrite (insert_taken l (alloc c) b old (rel_root _ _ _ _ H) Hold Hp). simpl.
    change (u64 (mem_ptr t s)) with (ptr b) at 1. rewrite (find_live H), Eo. cbn [mbind option_bind].
    rewrite <- Hp in Eo. destruct (erase_rel H old Eo) as (l1 & c1 & Ee & P1 & H1). rewrite Hp in H1.
    unfold alloc_erase in Ee |- *. cbn [alloc stat lost_list fresh freed]. destruct (node_place old (alloc c) []) as [[[[cc tl] tr] q]|]; [|done].
    cbn [mbind option_bind] in *. destruct (rb_erase cc tl tr q) as [t1|]; [|done]. cbn [mbind option_bind] in *. injection Ee as <-. cbn [alloc] in *.
    destruct (insert_root l1 t1 b (rel_root _ _ _ _ H1)) as (l2 & t2 & -> & Ht2 & P2).
    { intros x Hx Hpx. pose proof (proj2 (rel_objs _ _ _ _ H1 (ptr b) x) (conj Hx Hpx)) as E. simpl in E. rewrite lookup_delete_eq in E. done. }
    cbn [mbind option_bind]. exists l2. eexists. split; [reflexivity|].
    pose proof (link_rel l1 _ _ b l2 t2 H1 (lookup_delete_eq _ _) eq_refl Htp Ht2 P2) as HR. simpl in HR. rewrite insert_delete_eq in HR.
    unfold count_alloc, set_alloc, set_stat in *. simpl in *.
    replace (u64 (u64 (alloc_num (stat c) + 1) - 1)) with (u64 (alloc_num (stat c) - 1 + 1)) by (unfold uwrap; rewrite Zminus_mod_idemp_l; f_equal; lia).
    replace (u64 (u64 (alloc_mem (stat c) + backup_size b) - backup_size old)) with (u64 (u64 (alloc_mem (stat c) - backup_size old) + backup_size b))
      by (unfold uwrap; rewrite Zminus_mod_idemp_l, Zplus_mod_idemp_l; f_equal; lia).
    replace (u64 (alloc_num (stat c) - 1 + 1)) with (u64 (u64 (alloc_num (stat c) - 1) + 1)) by (unfold uwrap; rewrite Zplus_mod_idemp_l; done).
    rewrite <- (rel_fresh _ _ _ _ H) in HR. exact HR.
  - destruct (insert_root l (alloc c) b (rel_root _ _ _ _ H)) as (l1 & t1 & -> & Ht1 & P1).
    { intros x Hx Hpx. pose proof (proj2 (rel_objs _ _ _ _ H (ptr b) x) (conj Hx Hpx)). congruence. }
    simpl. exists l1. eexists. split; [reflexivity|]. pose proof (link_rel l c a b l1 t1 H Eo eq_refl Htp Ht1 P1) as HR.
    rewrite <- (rel_fresh _ _ _ _ H) in HR. exact HR.
Qed.

Lemma free_rel l c a t s : rel tp_alloc l c a -> exists l' c', sample_free t s c = Some c' /\ rel tp_alloc l' c' (s_free t s a).
Proof.
  intros H. unfold sample_free, s_free. rewrite (find_live H).
  assert (forall l c a, rel tp_alloc l c a -> rel tp_alloc l (count_free c)
    {| objs := objs a; n_alloc := n_alloc a; n_free := u64 (n_free a + 1); losses := losses a; next_id := next_id a |}) as Hc.
  { intros l0 c0 a0 []. split; try done. unfold count_free, set_stat, stats_of. simpl. rewrite rel_stat0. done. }
  destruct (objs a !! u64 (mem_ptr t s)) as [b|] eqn:E.
  - pose proof (proj1 (rel_objs _ _ _ _ H _ b) E) as [_ Hp]. rewrite <- Hp in E.
    destruct (erase_rel H b E) as (l1 & c1 & -> & _ & H1). simpl. exists l1. eexists. split; [reflexivity|].
    rewrite <- Hp. apply (Hc l1 c1 _ H1).
  - simpl. exists l. eexists. split; [reflexivity|]. rewrite delete_id by done. apply Hc. done.
Qed.

End Samples.

(** ** Reports *)

Definition time_cmp (b e : Z * Z) : Z := if e.1 <? b.1 then 1 else if b.1 <? e.1 then -1 else zcmp b.2 e.2.

#[export] Instance time_cmp_order : KeyOrder time_cmp.
Proof.
  split; unfold time_cmp, zcmp; intros; repeat match goal with
    | |- context [?x <? ?y] => destruct (Z.ltb_spec x y) | H : context [?x <? ?y] |- _ => destruct (Z.ltb_spec x y) end; lia.
Qed.

Lemma time_cmp_refl b : time_cmp b b = 0.
Proof. unfold time_cmp, zcmp. rewrite !Z.ltb_irrefl. done. Qed.

(** The sorted tree and its first node. *)
Definition cached (l : list perf_event_backup) (rb : rblist perf_event_backup) : Prop :=
  root_of time_key time_cmp l (rb_root rb) /\ rb_leftmost rb = head l.

Lemma sorted_insert_rel l rb b : cached l rb -> (forall x, x ∈ l -> ptr x <> ptr b) ->
  exists l' rb', sorted_insert rb b = Some rb' /\ cached l' rb' /\ l' ≡ₚ b :: l.
Proof.
  intros [Ht Hm] Hno. unfold sorted_insert.
  rewrite (descend_ext _ (fun x => time_cmp (time_key x) (time_key b))).
  - pose proof (root_descend time_key time_cmp (time_key b) l (rb_root rb) Ht) as Hd.
    destruct (descend _ _ _ _) as [cc tl x tr q|q lm].
    + destruct Hd as [Hx Hk]. destruct (Hno x Hx). revert Hk. unfold time_cmp, zcmp, time_key. simpl.
      destruct (Z.ltb_spec (s_time (event b)) (s_time (event x))), (Z.ltb_spec (s_time (event x)) (s_time (event b))); try lia.
      destruct (Z.ltb_spec (ptr b) (ptr x)), (Z.ltb_spec (ptr x) (ptr b)); lia.
    + destruct Hd as [_ Hd]. destruct (Hd b (time_cmp_refl _)) as (l' & t' & E & Ht' & P & Hh). unfold rb_insert_color_cached. rewrite E. simpl.
      exists l'. eexists. split; [reflexivity|]. split; [|done]. split; [done|]. simpl. rewrite Hm. done.
  - destruct Ht as (<- & _). intros x Hx. apply Hno in Hx. unfold sorted_cmp, time_cmp, zcmp, time_key. simpl.
    destruct (Z.ltb_spec (s_time (event b)) (s_time (event x))), (Z.ltb_spec (s_time (event x)) (s_time (event b))); try done.
    destruct (Z.ltb_spec (ptr b) (ptr x)), (Z.ltb_spec (ptr x) (ptr b)); try done. lia.
Qed.

Lemma move_rel l : forall t s rb fuel, root_of ptr zcmp l t -> cached s rb -> NoDup (ptr <$> (l ++ s)) -> (length l <= fuel)%nat ->
  exists s' rb', move_loop fuel (head l) t rb = Some (Leaf, rb') /\ cached s' rb' /\ s' ≡ₚ l ++ s.
Proof.
  induction l as [|b l IH]; intros t s rb fuel Ht Hs Hnd Hf.
  - exists s, rb. destruct t as [|c tl x tr]; [destruct fuel; done|]. destruct Ht as (Ht & _). simpl in Ht. destruct (inorder tl); done.
  - destruct fuel as [|fuel]; [simpl in Hf; lia|].
    destruct (root_erase ptr zcmp b (b :: l) t [] l Ht eq_refl) as (c & tl & tr & p & t' & E & En & Ee & Ht').
    cbn [head move_loop]. rewrite E. cbn [mbind option_bind]. rewrite Ee. cbn [mbind option_bind].
    simpl in Hnd. apply list.NoDup_cons in Hnd as [Hb Hnd].
    destruct (sorted_insert_rel s rb b Hs) as (s1 & rb1 & -> & Hs1 & P1).
    { intros x Hx E'. apply Hb. rewrite <- E'. apply list_elem_of_fmap_2. rewrite elem_of_app. auto. }
    cbn [mbind option_bind]. rewrite En. destruct (IH t' s1 rb1 fuel) as (s2 & rb2 & E2 & Hs2 & P2); [done|done| |simpl in Hf; lia|].
    { rewrite P1. rewrite <- Permutation_middle. simpl. apply list.NoDup_cons. done. }
    exists s2, rb2. split; [done|]. split; [done|]. rewrite P2, P1. rewrite <- Permutation_middle. done.
Qed.

#[local] Instance time_le_trans : Transitive time_le.
Proof. intros x y z. unfold time_le. lia. Qed.

#[local] Instance time_le_total : Total time_le.
Proof. intros x y. unfold time_le. lia. Qed.

Lemma cached_sorted l rb : cached l rb -> StronglySorted time_le l.
Proof.
  intros [(_ & Hs & _) _]. eapply sorted_ext; [|exact Hs]. intros x y _ _. unfold time_cmp, zcmp, time_key, time_le. simpl.
  destruct (Z.ltb_spec (s_time (event y)) (s_time (event x))), (Z.ltb_spec (s_time (event x)) (s_time (event y))); try lia.
  destruct (Z.ltb_spec (ptr y) (ptr x)), (Z.ltb_spec (ptr x) (ptr y)); lia.
Qed.

Lemma by_time_unique tp_alloc l c a s rb : rel tp_alloc l c a -> cached s rb -> s ≡ₚ l -> by_time (objs a) = s.
Proof.
  intros H Hs P. unfold by_time. pose proof (rel_values H) as Hv.
  assert (merge_sort time_le (values (objs a)) ≡ₚ l) as Pm by (rewrite merge_sort_Permutation; done).
  apply (StronglySorted_unique_strong time_le).
  - intros x y Hx Hy H1 H2. apply (ptr_inj H); [rewrite <- Pm; done|rewrite <- P; done|]. unfold time_le in *. lia.
  - apply StronglySorted_merge_sort; apply _.
  - eapply cached_sorted; done.
  - rewrite Pm, P. done.
Qed.

Section Reports.
Context (env : options) (tp_alloc tp_free : Z -> option tp) (unwind : sample -> list Z) (realtime : Z -> Z).
Context (qsort : forall A, (A -> A -> Z) -> list A -> list A).

(** There is memory for the nodes of the table of the leaked bytes. *)
Definition nodes_mem (at_ : moment) : Prop := forall i, node_mem at_ i = true.

Lemma report_entry_some at_ time_ns kv b : nodes_mem at_ -> is_Some (tp_alloc (s_id (event b))) ->
  exists lines kv', report_entry env tp_alloc unwind realtime at_ time_ns kv b = Some (lines, kv').
Proof.
  intros Hmem [t Ht]. unfold report_entry. destruct kv as [kv|]; [|eauto]. case_match; [|eauto].
  unfold collect_leaked_bytes. rewrite Ht, Hmem. destruct (callchain b); simpl; [|eauto]. unfold KeyValue.keyvalue_pairs_add_key.
  destruct (findnew_node KeyValue.key KeyValue.key_cmp _ _ kv) as [[[x y] z]|] eqn:E; simpl; [eauto|].
  apply findnew_none in E as [_ [=]].
Qed.

Lemma print_rel at_ time_ns s : nodes_mem at_ -> forall rb kv fuel, cached s rb -> (length s <= fuel)%nat -> (forall b, b ∈ s -> is_Some (tp_alloc (s_id (event b)))) ->
  exists lines kv', entry_lines env tp_alloc unwind realtime at_ time_ns kv s = Some (lines, kv') /\
    print_loop env tp_alloc unwind realtime at_ fuel time_ns (head s) rb kv = Some (lines, b_id <$> s, kv').
Proof.
  intros Hmem. induction s as [|b s IH]; intros rb kv fuel Hs Hf Htp; [eexists _, _; split; [reflexivity|]; destruct fuel; done|].
  destruct fuel as [|fuel]; [simpl in Hf; lia|]. destruct Hs as [Ht Hm]. simpl in Hm.
  destruct (root_erase time_key time_cmp b (b :: s) (rb_root rb) [] s Ht eq_refl) as (c & tl & tr & p & t' & E & En & Ee & Ht').
  cbn [entry_lines print_loop head]. rewrite E. cbn [mbind option_bind].
  destruct (report_entry_some at_ time_ns kv b Hmem) as (x & kv1 & ->); [apply Htp, list_elem_of_here|]. cbn [mbind option_bind].
  unfold rb_erase_cached. rewrite Ee. cbn [mbind option_bind]. rewrite En.
  destruct (IH {| rb_root := t'; rb_leftmost := if decide (rb_leftmost rb = Some b) then head s else rb_leftmost rb; nr_entries := nr_entries rb |}
               kv1 fuel) as (y & kv2 & -> & E2).
  - split; [done|]. simpl. rewrite decide_True by done. done.
  - simpl in Hf. lia.
  - intros x' Hx. apply Htp, list_elem_of_further, Hx.
  - cbn [mbind option_bind]. rewrite E2. cbn [mbind option_bind]. eexists _, _. done.
Qed.

Lemma report_stat_rel l c a b : rel tp_alloc l c a -> report_kmemleak_stat c b = s_stats a b.
Proof. intros H. unfold report_kmemleak_stat, s_stats. rewrite (rel_stats H). done. Qed.

(** A report prints what the map says and leaves no allocation. *)
Lemma report_rel at_ l c a : nodes_mem at_ -> rel tp_alloc l c a ->
  exists lines c' a' l', report_kmemleak env tp_alloc unwind realtime qsort at_ c = Some (lines, c') /\
    s_report env tp_alloc unwind realtime qsort at_ a = Some (lines, a') /\ rel tp_alloc l' c' a' /\ a' = set_objs a ∅.
Proof.
  intros Hmem H. unfold report_kmemleak, s_report. rewrite (report_stat_rel l c a false H). pose proof (rel_empty H) as He.
  destruct (decide (objs a = ∅)) as [Hn|Hn].
  { rewrite (proj1 He Hn). eexists _, c, a, l. split_and!; try done. destruct a; simpl in *; rewrite Hn; done. }
  destruct (alloc c) as [|col tl x tr] eqn:Ea; [destruct Hn; apply He; done|]. rewrite <- Ea. clear He col tl x tr Ea.
  pose proof (rel_root _ _ _ _ H) as Hroot. rewrite (root_first _ _ _ _ Hroot). pose proof Hroot as (-> & _).
  destruct (move_rel l (alloc c) [] rblist__init (length l) Hroot) as (s & rb & -> & Hs & P).
  { split; [apply root_nil|done]. }
  { rewrite app_nil_r. apply NoDup_fmap_2_strong; [|apply (rel_nodup H)]. intros; eapply (ptr_inj H); done. }
  { done. }
  rewrite app_nil_r in P. cbn [mbind option_bind]. rewrite (by_time_unique _ _ _ _ _ _ H Hs P). destruct Hs as [Hs1 Hs2]. rewrite Hs2.
  destruct (print_rel at_ (if greater_than env =? 0 then 0 else now at_) s Hmem rb (if report_leaked_bytes env && kv_mem at_ then Some [] else None) (length l))
    as (lines & kv' & -> & ->).
  { split; done. }
  { rewrite P. done. }
  { intros b Hb. apply (rel_tp _ _ _ _ H). rewrite <- P. done. }
  cbn [mbind option_bind]. eexists _, _, _, []. split; [reflexivity|]. split.
  { rewrite (rel_stat _ _ _ _ H). simpl. rewrite (Permutation_length (rel_values H)). done. }
  split; [|done]. split; simpl.
  - apply root_nil.
  - intros p b. rewrite lookup_empty. split; [done|]. intros [Hb _]. inversion Hb.
  - rewrite (rel_stat _ _ _ _ H). done.
  - apply H.
  - apply H.
  - rewrite app_nil_r, reverse_Permutation, P, Permutation_app_comm. apply H.
  - intros b Hb. inversion Hb.
Qed.

End Reports.

(** ** Every sequence of inputs *)

Section Runs.
Context (env : options) (tp_alloc tp_free : Z -> option tp) (unwind : sample -> list Z) (realtime : Z -> Z).
Context (qsort : forall A, (A -> A -> Z) -> list A -> list A).

Abbreviation code_step := (step env tp_alloc tp_free unwind realtime qsort).
Abbreviation map_step := (s_step env tp_alloc tp_free unwind realtime qsort).

Definition related (c : kmemleak_ctx) (a : live) : Prop := exists l, rel tp_alloc l c a.

(** Two runs that print the same and stay related. *)
Definition agree {X} (x : option (X * kmemleak_ctx)) (y : option (X * live)) : Prop :=
  exists r c a, x = Some (r, c) /\ y = Some (r, a) /\ related c a.

Lemma set_lost_rel c a l : related c a -> related (set_lost_list c l) (set_losses a l).
Proof. intros [l0 []]. exists l0. split; done. Qed.

Lemma reclaim_rel at_ c a : nodes_mem at_ -> related c a ->
  agree (lost_reclaim env tp_alloc unwind realtime qsort at_ c) (s_reclaim env tp_alloc unwind realtime qsort at_ a).
Proof.
  intros Hmem [l H]. unfold lost_reclaim, s_reclaim. pose proof (rel_empty H) as He. rewrite (rel_lost _ _ _ _ H).
  destruct (decide (objs a = ∅)) as [Hn|Hn].
  - rewrite (proj1 He Hn), bool_decide_eq_false_2 by (intros Hx; done). eexists _, c, a. split_and!; [reflexivity|reflexivity|exists l; done].
  - rewrite bool_decide_eq_true_2 by done. destruct (report_rel env tp_alloc unwind realtime qsort at_ l c a Hmem H) as (lines & c' & a' & l' & E & -> & H' & _).
    destruct (alloc c) as [|col tl x tr]; [destruct Hn; apply He; done|]. rewrite E. eexists _, c', a'. split_and!; [reflexivity|reflexivity|exists l'; done].
Qed.

Lemma lost_loop_rel at_ time l : nodes_mem at_ -> forall c a, related c a ->
  agree (event_lost_loop env tp_alloc unwind realtime qsort at_ time l c) (s_lost_loop env tp_alloc unwind realtime qsort at_ time l a).
Proof.
  intros Hmem. induction l as [|n next IH]; intros c a H; cbn [event_lost_loop s_lost_loop].
  { eexists _, _, _. split_and!; [reflexivity|reflexivity|]. apply set_lost_rel. done. }
  destruct (time <=? start_time n).
  { eexists _, _, _. split_and!; [reflexivity|reflexivity|]. apply set_lost_rel. done. }
  assert (agree (if reclaim n then Some ([], c) else lost_reclaim env tp_alloc unwind realtime qsort at_ (set_lost_list c (n :: next)))
    (if reclaim n then Some ([], a) else s_reclaim env tp_alloc unwind realtime qsort at_ (set_losses a (n :: next)))) as (lines & c1 & a1 & -> & -> & H1).
  { destruct (reclaim n); [eexists _, c, a; done|]. apply reclaim_rel, set_lost_rel; done. }
  cbn [mbind option_bind]. destruct (time <? end_time _).
  { eexists _, _, _. split_and!; [reflexivity|reflexivity|]. apply set_lost_rel. done. }
  destruct (IH (set_lost_list c1 next) (set_losses a1 next)) as ([more unsafe] & c2 & a2 & -> & -> & H2); [apply set_lost_rel; done|].
  cbn [mbind option_bind]. eexists _, _, _. done.
Qed.

Lemma step_live at_ i c a : nodes_mem at_ -> related c a -> agree (code_step at_ i c) (map_step at_ i a).
Proof.
  intros Hmem H. destruct i as [s mem name|n mem|b]; cbn [step s_step].
  - unfold kmemleak_sample, s_sample. destruct (tp_of tp_alloc tp_free s) as [[t is_alloc]|] eqn:Et; [|eexists _, c, a; done].
    assert (lost_list c = losses a) as El by (destruct H as [l H]; apply H). unfold kmemleak_event_lost. rewrite El.
    destruct (lost_loop_rel at_ (s_time s) (losses a) Hmem c a H) as ([more unsafe] & c1 & a1 & -> & -> & [l1 H1]). cbn [mbind option_bind].
    destruct unsafe; [eexists _, c1, a1; split_and!; try done; exists l1; done|]. destruct is_alloc.
    + assert (is_Some (tp_alloc (s_id s))) as Htp. { unfold tp_of in Et. destruct (tp_alloc (s_id s)); [eauto|]. destruct (tp_free (s_id s)); done. }
      destruct (alloc_rel env tp_alloc l1 c1 a1 t s mem name H1 Htp) as (l2 & c2 & -> & H2). eexists _, c2, _. split_and!; [reflexivity|reflexivity|]. exists l2. done.
    + destruct (free_rel tp_alloc l1 c1 a1 t s H1) as (l2 & c2 & -> & H2). eexists _, c2, _. split_and!; [reflexivity|reflexivity|]. exists l2. done.
  - eexists _, _, _. split_and!; [reflexivity|reflexivity|]. unfold kmemleak_lost. destruct mem; [|done].
    assert (lost_list c = losses a) as -> by (destruct H as [l H]; apply H). apply set_lost_rel. done.
  - eexists _, c, a. split_and!; [reflexivity| |done]. unfold kmemleak_sigusr. destruct b; [|done]. destruct H as [l H].
    rewrite (report_stat_rel tp_alloc l c a true H). done.
Qed.

Fixpoint runs {S} (f : moment -> input -> S -> option (list line * S)) (l : list (moment * input)) (s : S) : option (list (list line) * S) :=
  match l with
  | [] => Some ([], s)
  | (at_, i) :: l => '(x, s) ← f at_ i s; '(y, s) ← runs f l s; Some (x :: y, s)
  end.

Lemma runs_live l : Forall (fun x => nodes_mem x.1) l -> forall c a, related c a -> agree (runs code_step l c) (runs map_step l a).
Proof.
  induction 1 as [|[at_ i] l Hmem _ IH]; intros c a H; cbn [runs]; [eexists _, c, a; done|].
  destruct (step_live at_ i c a Hmem H) as (x & c1 & a1 & -> & -> & H1). cbn [mbind option_bind].
  destruct (IH c1 a1 H1) as (y & c2 & a2 & -> & -> & H2). cbn [mbind option_bind]. eexists _, _, _. done.
Qed.

Lemma init_live : related monitor_ctx_init s_init.
Proof.
  exists []. split; try done; simpl; [apply root_nil| |].
  - intros p b. rewrite lookup_empty. split; [done|]. intros [Hb _]. inversion Hb.
  - intros b Hb. inversion Hb.
Qed.

(** The end: a last report, after which every node that was allocated was freed once. *)
Lemma exit_rel at_ c a : nodes_mem at_ -> related c a -> exists lines c' a', kmemleak_exit env tp_alloc unwind realtime qsort at_ c = Some (lines, c') /\
  s_report env tp_alloc unwind realtime qsort at_ a = Some (lines, a') /\ freed c' ≡ₚ seq 0 (fresh c').
Proof.
  intros Hmem [l H]. unfold kmemleak_exit. destruct (report_rel env tp_alloc unwind realtime qsort at_ l c a Hmem H) as (lines & c' & a' & l' & -> & -> & H' & Ea).
  cbn [mbind option_bind]. assert (alloc c' = Leaf) as El by (apply (rel_empty H'); rewrite Ea; done).
  assert (l' = []) as -> by (apply (root_empty _ _ _ _ (rel_root _ _ _ _ H')); done).
  unfold alloc_free_all. simpl. rewrite El. simpl. eexists _, _, a'. split_and!; [reflexivity|reflexivity|]. simpl.
  rewrite <- (rel_freed _ _ _ _ H'), app_nil_r. done.
Qed.


End Runs.

End KmemleakProof.
