(* ===== verification/KmemleakMain.v ===== *)
(** * Memory leaks: losses of events and leaked bytes *)

From stdpp Require Import sorting.
From S2P Require Import Prelude Rbtree Rblist KeyValue Kmemleak KmemleakProof.

Module KmemleakMain.

Import Rbtree Rblist Kmemleak KmemleakProof.

(** ** Losses *)

Definition start_le (x y : kmemleak_lost_node) : Prop := start_time x <= start_time y.

Abbreviation by_start := (StronglySorted start_le).

Lemma insert_lost_sorted n l : by_start l -> by_start (insert_lost n l) /\ forall x, x ∈ insert_lost n l <-> x = n \/ x ∈ l.
Proof.
  induction l as [|y l IH]; intros Hs; simpl.
  - split; [repeat constructor|]. set_solver.
  - pose proof Hs as Hs'. apply StronglySorted_inv in Hs' as [Hl Hy]. rewrite list.Forall_forall in Hy.
    destruct (Z.ltb_spec (start_time n) (start_time y)).
    + split; [|set_solver]. constructor; [done|]. apply list.Forall_forall. intros x [->|Hx]%elem_of_cons; [unfold start_le; lia|].
      apply Hy in Hx. unfold start_le in *. lia.
    + destruct (IH Hl) as [IH1 IH2]. split; [|set_solver]. constructor; [done|]. apply list.Forall_forall. intros x Hx. apply IH2 in Hx as [->|Hx]; [done|auto].
Qed.

Lemma filter_all {A} (P : A -> Prop) `{!forall x, Decision (P x)} (l : list A) : (forall x, x ∈ l -> P x) -> filter P l = l.
Proof.
  induction l as [|x l IH]; intros Hl; [done|]. rewrite filter_cons_True by (apply Hl, list_elem_of_here). rewrite IH; [done|].
  intros y Hy. apply Hl, list_elem_of_further, Hy.
Qed.

Section Losses.
Context (env : options) (tp_alloc tp_free : Z -> option tp) (unwind : sample -> list Z) (realtime : Z -> Z).
Context (qsort : forall A, (A -> A -> Z) -> list A -> list A).

Abbreviation code_step := (step env tp_alloc tp_free unwind realtime qsort).

(** *** What an event finds *)

(** A range that was taken into account has begun, and nothing is live since. *)
Definition settled (T : Z) (l : list kmemleak_lost_node) (c : kmemleak_ctx) : Prop :=
  forall n, n ∈ l -> reclaim n = true -> alloc c = Leaf /\ start_time n < T.

Lemma settled_le T T' l c : T <= T' -> settled T l c -> settled T' l c.
Proof. intros HT Hs n Hn Hr. destruct (Hs n Hn Hr). split; [done|lia]. Qed.

(** After a report nothing is live. *)
Lemma reclaim_leaf at_ c a : nodes_mem at_ -> related tp_alloc c a ->
  exists lines c' a', lost_reclaim env tp_alloc unwind realtime qsort at_ c = Some (lines, c') /\ related tp_alloc c' a' /\ alloc c' = Leaf /\
    n_alloc a' = n_alloc a /\ n_free a' = n_free a.
Proof.
  intros Hmem [l H]. unfold lost_reclaim. destruct (alloc c) as [|col tl x tr] eqn:Ea.
  - eexists _, c, a. split_and!; [reflexivity|exists l; done|done|done|done].
  - destruct (report_rel env tp_alloc unwind realtime qsort at_ l c a Hmem H) as (lines & c' & a' & l' & -> & _ & H' & E).
    eexists _, c', a'. split_and!; [reflexivity|exists l'; done| |rewrite E; done|rewrite E; done]. apply (rel_empty H'). rewrite E. done.
Qed.

Lemma lost_loop_spec at_ time l : nodes_mem at_ -> forall c a, related tp_alloc c a -> by_start l -> settled time l c ->
  exists lines unsafe c' a', event_lost_loop env tp_alloc unwind realtime qsort at_ time l c = Some (lines, unsafe, c') /\
    related tp_alloc c' a' /\ n_alloc a' = n_alloc a /\ n_free a' = n_free a /\
    (unsafe = true <-> exists n, n ∈ l /\ start_time n < time < end_time n) /\
    (unsafe = false -> lost_list c' = filter (fun n => time <= start_time n) l) /\
    ((exists n, n ∈ l /\ start_time n < time) -> alloc c' = Leaf) /\
    ((forall n, n ∈ l -> time <= start_time n) -> c' = set_lost_list c l) /\
    by_start (lost_list c') /\ settled time (lost_list c') c'.
Proof.
  intros Hmem. induction l as [|n next IH]; intros c a H Hs Hset; cbn [event_lost_loop].
  { eexists _, _, _, (set_losses a []). split; [reflexivity|]. split_and!; try done.
    - apply set_lost_rel. done.
    - split; [done|]. intros (n & Hn & _). inversion Hn.
    - intros (n & Hn & _). inversion Hn. }
  pose proof Hs as Hs0. apply StronglySorted_inv in Hs as [Hs Hn]. rewrite list.Forall_forall in Hn. unfold start_le in Hn.
  destruct (Z.leb_spec time (start_time n)) as [Hle|Hlt].
  { assert (forall m, m ∈ n :: next -> time <= start_time m) as Hall.
    { intros m [->|Hm]%elem_of_cons; [done|]. apply Hn in Hm. lia. }
    eexists _, _, _, (set_losses a (n :: next)). split; [reflexivity|]. split_and!; try done.
    - apply set_lost_rel. done.
    - split; [done|]. intros (m & Hm & Hr). apply Hall in Hm. lia.
    - intros _. simpl. symmetry. apply filter_all. done.
    - intros (m & Hm & Hr). apply Hall in Hm. lia. }
  assert (exists lines1 c1 a1, (if reclaim n then Some ([], c) else lost_reclaim env tp_alloc unwind realtime qsort at_ (set_lost_list c (n :: next))) = Some (lines1, c1) /\
    related tp_alloc c1 a1 /\ alloc c1 = Leaf /\ n_alloc a1 = n_alloc a /\ n_free a1 = n_free a) as (lines1 & c1 & a1 & -> & H1 & Hl1 & Ea & Ef).
  { destruct (reclaim n) eqn:Er.
    - exists [], c, a. split_and!; try done. apply (Hset n (list_elem_of_here _ _) Er).
    - destruct (reclaim_leaf at_ (set_lost_list c (n :: next)) (set_losses a (n :: next)) Hmem) as (lines1 & c1 & a1 & E & H1 & Hl & ? & ?);
        [apply set_lost_rel; done|]. exists lines1, c1, a1. done. }
  assert (~ (forall m, m ∈ n :: next -> time <= start_time m)) as Hnot.
  { intros Hall. specialize (Hall n (list_elem_of_here _ _)). lia. }
  cbn [mbind option_bind end_time]. destruct (Z.ltb_spec time (end_time n)) as [He|He].
  { assert (exists m, m ∈ n :: next /\ start_time m < time < end_time m) as Hm.
    { exists n. split; [apply list_elem_of_here|done]. }
    eexists _, true, _, (set_losses a1 _). split; [reflexivity|]. split_and!; try done; [apply set_lost_rel; done| |].
    - simpl. constructor; [done|]. apply list.Forall_forall. done.
    - intros m [->|Hm']%elem_of_cons Hr; [done|]. split; [done|]. apply (Hset m); [apply list_elem_of_further, Hm'|done]. }
  destruct (IH (set_lost_list c1 next) (set_losses a1 next)) as (more & unsafe & c2 & a2 & -> & H2 & Ea2 & Ef2 & Hu & Hok & Hleaf & Hnone & Hby & Hset2).
  { apply set_lost_rel. done. }
  { done. }
  { intros m Hm Hr. split; [done|]. apply (Hset m); [apply list_elem_of_further, Hm|done]. }
  cbn [mbind option_bind]. eexists _, _, _, a2. split; [reflexivity|]. simpl in Ea2, Ef2. split_and!; try done; try congruence.
  - rewrite Hu. split; [intros (m & Hm & Hr); exists m; split; [apply list_elem_of_further|]; done|].
    intros (m & [->|Hm]%elem_of_cons & Hr); [lia|eauto].
  - intros Hf. rewrite filter_cons_False by lia. auto.
  - intros _. destruct (decide (Exists (fun m => start_time m < time) next)) as [Hx|Hx].
    + apply Hleaf. apply list.Exists_exists in Hx as (m & Hm & Hr). eauto.
    + rewrite Hnone; [done|]. intros m Hm. destruct (Z.le_gt_cases time (start_time m)) as [|Hgt]; [done|].
      destruct Hx. apply list.Exists_exists. exists m. split; [done|lia].
Qed.

(** The state between the inputs. *)
Definition losses_ok (T : Z) (c : kmemleak_ctx) (a : live) : Prop :=
  related tp_alloc c a /\ by_start (lost_list c) /\ settled T (lost_list c) c.

Lemma related_lost c a : related tp_alloc c a -> lost_list c = losses a.
Proof. intros [l H]. apply H. Qed.

Lemma related_totals c a : related tp_alloc c a -> total_alloc (stat c) = n_alloc a /\ total_free (stat c) = n_free a.
Proof. intros [l H]. rewrite (rel_stat _ _ _ _ H). done. Qed.

(** An event is dropped inside a lost range; after one, it finds nothing. *)
Definition sample_result (s : sample) (mem : bool) (name : option string) (t : tp) (is_alloc : bool) (c c' : kmemleak_ctx) : Prop :=
  let inside := exists n, n ∈ lost_list c /\ start_time n < s_time s < end_time n in
  (inside -> alloc c' = Leaf /\ total_alloc (stat c') = total_alloc (stat c) /\ total_free (stat c') = total_free (stat c)) /\
  (~ inside ->
     lost_list c' = filter (fun n => s_time s <= start_time n) (lost_list c) /\
     total_alloc (stat c') = (if is_alloc && mem then u64 (total_alloc (stat c) + 1) else total_alloc (stat c)) /\
     total_free (stat c') = (if is_alloc then total_free (stat c) else u64 (total_free (stat c) + 1)) /\
     ((exists n, n ∈ lost_list c /\ start_time n < s_time s) -> forall b, b ∈ inorder (alloc c') -> event b = s) /\
     ((forall n, n ∈ lost_list c -> s_time s <= start_time n) ->
        (if is_alloc then sample_alloc env t s mem name c else sample_free t s c) = Some c')).

Lemma sample_losses at_ s mem name t is_alloc T c a : nodes_mem at_ -> losses_ok T c a -> T <= s_time s ->
  tp_of tp_alloc tp_free s = Some (t, is_alloc) ->
  exists lines c' a', kmemleak_sample env tp_alloc tp_free unwind realtime qsort at_ s mem name c = Some (lines, c') /\
    losses_ok (s_time s) c' a' /\ sample_result s mem name t is_alloc c c'.
Proof.
  intros Hmem (Hr & Hby & Hset) HT Htp. unfold kmemleak_sample, kmemleak_event_lost. rewrite Htp.
  destruct (lost_loop_spec at_ (s_time s) (lost_list c) Hmem c a Hr Hby (settled_le _ _ _ _ HT Hset))
    as (lines & unsafe & c1 & a1 & -> & H1 & Ea & Ef & Hu & Hok & Hleaf & Hnone & Hby1 & Hset1). cbn [mbind option_bind].
  destruct (related_totals c a Hr) as [Ta Tf]. destruct (related_totals c1 a1 H1) as [Ta1 Tf1]. unfold sample_result.
  destruct unsafe.
  - assert (exists n, n ∈ lost_list c /\ start_time n < s_time s < end_time n) as Hin by (apply Hu; done).
    eexists _, c1, a1. split; [reflexivity|]. split; [done|]. split; [|done]. intros _. split_and!; [|congruence|congruence].
    apply Hleaf. destruct Hin as (n & Hn & ?). exists n. split; [done|lia].
  - assert (~ exists n, n ∈ lost_list c /\ start_time n < s_time s < end_time n) as Hout by (rewrite <- Hu; done).
    destruct H1 as [l1 H1]. specialize (Hok eq_refl).
    assert (exists l2 c2, (if is_alloc then sample_alloc env t s mem name c1 else sample_free t s c1) = Some c2 /\
      rel tp_alloc l2 c2 (if is_alloc then s_alloc env t s mem name a1 else s_free t s a1)) as (l2 & c2 & E2 & H2).
    { destruct is_alloc; [|apply (free_rel _ l1); done]. apply (alloc_rel _ _ l1); [done|]. unfold tp_of in Htp.
      destruct (tp_alloc (s_id s)); [eauto|]. destruct (tp_free (s_id s)); done. }
    rewrite E2. cbn [mbind option_bind]. set (a2 := if is_alloc then s_alloc env t s mem name a1 else s_free t s a1) in *.
    assert (lost_list c2 = lost_list c1) as El.
    { rewrite (rel_lost _ _ _ _ H2), (rel_lost _ _ _ _ H1). subst a2. destruct is_alloc; [unfold s_alloc; destruct mem|]; done. }
    destruct (related_totals c2 a2) as [Ta2 Tf2]; [exists l2; done|].
    eexists _, c2, a2. split; [reflexivity|]. split; [|split; [done|]].
    + split; [exists l2; done|]. rewrite El. split; [done|]. intros n Hn Hrn. destruct (Hset1 n Hn Hrn) as [_ Hlt].
      rewrite Hok in Hn. apply list_elem_of_filter in Hn as [Hge _]. lia.
    + intros _. split; [congruence|]. rewrite Ta2, Tf2, Ta, Tf, <- Ea, <- Ef. split; [|split; [|split]].
      * subst a2. destruct is_alloc; [unfold s_alloc; destruct mem|]; done.
      * subst a2. destruct is_alloc; [unfold s_alloc; destruct mem|]; done.
      * intros Hbefore b Hb. apply Hleaf in Hbefore. apply (rel_empty H1) in Hbefore.
        destruct (rel_root _ _ _ _ H2) as (El2 & _). rewrite El2 in Hb.
        pose proof (proj2 (rel_objs _ _ _ _ H2 (ptr b) b) (conj Hb eq_refl)) as Hobj. subst a2. destruct is_alloc.
        -- unfold s_alloc in Hobj. destruct mem; simpl in Hobj; rewrite Hbefore in Hobj; [|rewrite lookup_empty in Hobj; done].
           apply lookup_insert_Some in Hobj as [[_ <-]|[_ Hobj]]; [done|rewrite lookup_empty in Hobj; done].
        -- simpl in Hobj. rewrite Hbefore, delete_empty, lookup_empty in Hobj. done.
      * intros Hall. rewrite (Hnone Hall) in E2. destruct c; exact E2.
Qed.

(** The times of the samples. *)
Definition times (l : list (moment * input)) : list Z :=
  omap (fun x => match x.2 with Sample s _ _ => Some (s_time s) | _ => None end) l.

Lemma step_losses at_ i T c a : nodes_mem at_ -> losses_ok T c a ->
  (forall s mem name, i = Sample s mem name -> T <= s_time s) ->
  exists lines c' a' T', code_step at_ i c = Some (lines, c') /\ losses_ok T' c' a' /\ T' ∈ T :: times [(at_, i)].
Proof.
  intros Hmem Hok Ht. destruct i as [s mem name|n mem|b]; cbn [step].
  - destruct (tp_of tp_alloc tp_free s) as [[t is_alloc]|] eqn:Etp.
    + destruct (sample_losses at_ s mem name t is_alloc T c a Hmem Hok (Ht _ _ _ eq_refl) Etp) as (lines & c' & a' & E & Hok' & _).
      exists lines, c', a', (s_time s). split_and!; [done|done|]. simpl. set_solver.
    + unfold kmemleak_sample. rewrite Etp. eexists _, c, a, T. split_and!; [done|done|]. set_solver.
  - unfold kmemleak_lost. destruct mem; [|eexists _, c, a, T; split_and!; [done|done|set_solver]].
    eexists _, _, (set_losses a _), T. split; [reflexivity|]. split; [|set_solver].
    destruct Hok as (Hr & Hby & Hset). destruct (insert_lost_sorted {| ins := ins n; reclaim := false; start_time := start_time n;
      end_time := end_time n; lost_id := lost_id n; lost := lost n |} (lost_list c) Hby) as [Hs Hin].
    split; [apply set_lost_rel, Hr|]. split; [exact Hs|]. intros m Hm Hrm. simpl in Hm. apply Hin in Hm as [->|Hm]; [done|].
    apply (Hset m Hm Hrm).
  - eexists _, c, a, T. split_and!; [done|done|]. set_solver.
Qed.

Lemma runs_losses l : Forall (fun x => nodes_mem x.1) l -> forall T c a, losses_ok T c a -> StronglySorted Z.le (T :: times l) ->
  exists out c' a' T', runs code_step l c = Some (out, c') /\ losses_ok T' c' a' /\ T' ∈ T :: times l.
Proof.
  induction 1 as [|[at_ i] l Hmem _ IH]; intros T c a Hok Hs; cbn [runs]; [eexists _, c, a, T; split_and!; [done|done|set_solver]|].
  apply StronglySorted_inv in Hs as [Hs HT]. rewrite list.Forall_forall in HT.
  destruct (step_losses at_ i T c a Hmem Hok) as (x & c1 & a1 & T1 & -> & Hok1 & HT1).
  { intros s mem name ->. apply HT. simpl. set_solver. }
  assert (times ((at_, i) :: l) = times [(at_, i)] ++ times l) as Et by (destruct i; done).
  cbn [mbind option_bind]. destruct (IH T1 c1 a1 Hok1) as (y & c2 & a2 & T2 & -> & Hok2 & HT2).
  { rewrite Et in Hs, HT. constructor; [destruct i; simpl in Hs; [apply StronglySorted_inv in Hs as [Hs _]| |]; done|].
    apply list.Forall_forall. intros z Hz. destruct i as [s mem name|n mem|b]; simpl in *; apply elem_of_cons in HT1 as [->|HT1];
      try (apply HT; set_solver); try (apply elem_of_nil in HT1; done).
    apply list_elem_of_singleton in HT1 as ->. apply StronglySorted_inv in Hs as [_ Hs]. rewrite list.Forall_forall in Hs. auto. }
  cbn [mbind option_bind]. eexists _, c2, a2, T2. split_and!; [done|done|]. rewrite Et. set_solver.
Qed.


End Losses.

(** ** Leaked bytes *)

Section Leaks.
Context (env : options) (tp_alloc : Z -> option tp) (unwind : sample -> list Z) (realtime : Z -> Z) (at_ : moment).

Abbreviation entry_lines := (entry_lines env tp_alloc unwind realtime at_).

(** The bytes and the call chain of an allocation. *)
Definition bytes_of (b : perf_event_backup) : Z := match tp_alloc (s_id (event b)) with Some t => bytes_alloc t (event b) | None => 0 end.

Definition chain_of (b : perf_event_backup) : list Z := match tp_alloc (s_id (event b)) with Some t => leak_key unwind t (event b) | None => [] end.

(** The allocations that a report counts for a call chain. *)
Definition group (time_ns : Z) (k : list Z) (l : list perf_event_backup) : list perf_event_backup :=
  filter (fun b => selected env realtime time_ns (event b) = true /\ callchain b = true /\ chain_of b = k) l.

Definition sum_bytes (l : list perf_event_backup) : Z := foldr (fun b z => bytes_of b + z) 0 l.

(** Those with the name of a task. *)
Definition named (name : string) (l : list perf_event_backup) : list perf_event_backup :=
  filter (fun b => collect_comm env = true /\ b_comm b = name /\ name <> ""%string) l.

Definition find_comm (name : string) (l : list comm_entry) : option comm_entry := List.find (fun e => String.eqb (ce_comm e) name) l.

Definition first_pid (l : list perf_event_backup) : Z :=
  match List.find (fun b => negb (s_pid (event b) =? 0)) l with Some b => s_pid (event b) | None => 0 end.

Lemma bump_comm_found name bytes l :
  match bump_comm name bytes l with
  | Some l' => exists e, find_comm name l = Some e /\ forall j, find_comm j l' =
      if decide (name = j) then Some {| ce_comm := name; ce_bytes := u64 (ce_bytes e + bytes); ce_n := ce_n e + 1 |} else find_comm j l
  | None => find_comm name l = None
  end.
Proof.
  unfold find_comm. induction l as [|e l IH]; simpl; [done|].
  destruct (String.eqb_spec (ce_comm e) name) as [En|Hn].
  - exists e. split; [done|]. intros j. simpl. rewrite En. destruct (String.eqb_spec name j), (decide (name = j)); done.
  - destruct (bump_comm name bytes l) as [l'|]; simpl; [|done]. destruct IH as (e' & He & IH). exists e'. split; [done|].
    intros j. rewrite IH. destruct (String.eqb_spec (ce_comm e) j), (decide (name = j)); congruence.
Qed.

Lemma find_comm_snoc j l e : find_comm j (l ++ [e]) = match find_comm j l with Some x => Some x | None => if String.eqb (ce_comm e) j then Some e else None end.
Proof. unfold find_comm. induction l as [|x l IH]; simpl; [done|]. destruct (String.eqb (ce_comm x) j); [done|apply IH]. Qed.

Lemma add_comm_found name bytes l max j : find_comm j (add_comm true name bytes l max).1 =
  if decide (name = j)
  then Some match find_comm name l with
            | Some e => {| ce_comm := name; ce_bytes := u64 (ce_bytes e + bytes); ce_n := ce_n e + 1 |}
            | None => {| ce_comm := name; ce_bytes := bytes; ce_n := 1 |}
            end
  else find_comm j l.
Proof.
  unfold add_comm. pose proof (bump_comm_found name bytes l) as Hb. destruct (bump_comm name bytes l) as [l'|].
  - destruct Hb as (e & -> & ->). done.
  - rewrite Hb. assert (forall z, find_comm j (if max <=? Z.of_nat (length l) then (l ++ [{| ce_comm := name; ce_bytes := bytes; ce_n := 1 |}], z)
      else (l ++ [{| ce_comm := name; ce_bytes := bytes; ce_n := 1 |}], max)).1 =
      find_comm j (l ++ [{| ce_comm := name; ce_bytes := bytes; ce_n := 1 |}])) as -> by (intros z; destruct (max <=? _); done).
    rewrite find_comm_snoc. simpl. destruct (decide (name = j)) as [<-|Hj].
    + rewrite Hb, String.eqb_refl. done.
    + destruct (String.eqb_spec name j); [done|]. destruct (find_comm j l); done.
Qed.

Abbreviation more := (fun v b => leak_more env true b (bytes_of b) v).

Lemma leak_more_fields mem b bytes v : leaked (leak_more env mem b bytes v) = u64 (leaked v + bytes) /\
  lb_pid (leak_more env mem b bytes v) = (if lb_pid v =? 0 then s_pid (event b) else lb_pid v) /\
  comms (leak_more env mem b bytes v) = if collect_comm env && negb (String.eqb (b_comm b) "")
    then (add_comm mem (b_comm b) bytes (comms v) (max_comm v)).1 else comms v.
Proof. unfold leak_more. destruct (_ && _); [|done]. destruct (add_comm _ _ _ _ _). done. Qed.

Lemma leaked_fold g : forall v, leaked (foldl more v g) = match g with [] => leaked v | _ => u64 (leaked v + sum_bytes g) end.
Proof.
  induction g as [|b g IH]; intros v; cbn [foldl]; [done|]. rewrite IH. destruct (leak_more_fields true b (bytes_of b) v) as (-> & _). unfold uwrap. destruct g; simpl; [f_equal; lia|].
  rewrite Zplus_mod_idemp_l. f_equal. lia.
Qed.

Lemma pid_fold g : forall v, lb_pid (foldl more v g) = if lb_pid v =? 0 then first_pid g else lb_pid v.
Proof.
  induction g as [|b g IH]; intros v; cbn [foldl]; [destruct (Z.eqb_spec (lb_pid v) 0); done|]. rewrite IH.
  destruct (leak_more_fields true b (bytes_of b) v) as (_ & -> & _). unfold first_pid. simpl.
  destruct (Z.eqb_spec (lb_pid v) 0) as [E|E]; [|destruct (Z.eqb_spec (lb_pid v) 0); done].
  destruct (Z.eqb_spec (s_pid (event b)) 0); done.
Qed.

Lemma bytes_range b : 0 <= bytes_of b < 2 ^ 64.
Proof. unfold bytes_of, bytes_alloc. destruct (tp_alloc _) as [t|]; [|lia]. destruct (mem_size t); [|lia]. apply Z.mod_pos_bound. lia. Qed.

Lemma comms_fold name g : forall v, find_comm name (comms (foldl more v g)) = match named name g with
  | [] => find_comm name (comms v)
  | h => Some {| ce_comm := name; ce_bytes := u64 (match find_comm name (comms v) with Some e => ce_bytes e | None => 0 end + sum_bytes h);
                 ce_n := match find_comm name (comms v) with Some e => ce_n e | None => 0 end + Z.of_nat (length h) |}
  end.
Proof.
  induction g as [|b g IH]; intros v; cbn [foldl]; [done|]. rewrite IH. unfold named. rewrite filter_cons.
  destruct (leak_more_fields true b (bytes_of b) v) as (_ & _ & ->).
  destruct (collect_comm env) eqn:Ec; cbn [andb].
  2: { rewrite decide_False by (intros [? _]; done). done. }
  destruct (String.eqb_spec (b_comm b) "") as [Eb|Eb]; cbn [negb].
  { rewrite decide_False; [done|]. intros (_ & <- & ?). done. }
  rewrite add_comm_found. destruct (decide (b_comm b = name)) as [En|En].
  2: { rewrite (decide_False (P := true = true /\ b_comm b = name /\ name <> ""%string)) by (intros (_ & ? & _); done). done. }
  subst name. rewrite decide_True by done. pose proof (bytes_range b) as Hr. destruct (filter _ g) as [|b' h]; simpl.
  - destruct (find_comm (b_comm b) (comms v)) as [e|]; do 2 f_equal; rewrite ?Z.add_0_l, ?Z.add_0_r; [done|]. symmetry. apply Z.mod_small. lia.
  - destruct (find_comm (b_comm b) (comms v)) as [e|]; simpl; do 2 f_equal; try lia; unfold uwrap; rewrite ?Zplus_mod_idemp_l; f_equal; lia.
Qed.

Lemma fold_more g : forall v, foldl (fun v f => f v) v ((fun b => leak_more env true b (bytes_of b)) <$> g) = foldl more v g.
Proof. induction g as [|b g IH]; intros v; [done|]. rewrite fmap_cons. cbn [foldl]. apply IH. Qed.

(** The additions of a report to the table. *)
(** There is memory for the table. *)
Definition counted (b : perf_event_backup) : Prop :=
  is_Some (tp_alloc (s_id (event b))) /\ node_mem at_ (b_id b) = true /\ comms_mem at_ (b_id b) = true.

Lemma entry_lines_keys time_ns l : forall kv, (forall b, b ∈ l -> counted b) ->
  exists lines, entry_lines time_ns (Some kv) l = kv' ← KeyValue.add_keys no_leak
    ((fun b => (chain_of b, leak_more env true b (bytes_of b))) <$> filter (fun b => selected env realtime time_ns (event b) = true /\ callchain b = true) l) kv;
    Some (lines, Some kv').
Proof.
  induction l as [|b l IH]; intros kv Htp; [exists []; done|]. cbn [KmemleakProof.entry_lines]. unfold report_entry.
  assert (forall x, x ∈ l -> counted x) as Htp' by (intros x Hx; apply Htp, list_elem_of_further, Hx).
  destruct (Htp b (list_elem_of_here _ _)) as ([t Et] & Em & Em'). set (lines := if false || verbose env then _ else _). rewrite filter_cons.
  destruct (selected env realtime time_ns (event b)) eqn:Es.
  2: { rewrite decide_False by (intros [? _]; done). cbn [mbind option_bind]. destruct (IH kv Htp') as [more ->]. exists (lines ++ more).
       destruct (KeyValue.add_keys _ _ kv); done. }
  unfold collect_leaked_bytes. rewrite Et, Em, Em'. destruct (callchain b) eqn:Ec.
  2: { rewrite decide_False by (intros [_ ?]; done). cbn [mbind option_bind]. destruct (IH kv Htp') as [more ->]. exists (lines ++ more).
       destruct (KeyValue.add_keys _ _ kv); done. }
  rewrite decide_True by done. rewrite fmap_cons. cbn [KeyValue.add_keys mbind option_bind].
  assert (chain_of b = leak_key unwind t (event b)) as -> by (unfold chain_of; rewrite Et; done).
  assert (bytes_of b = bytes_alloc t (event b)) as -> by (unfold bytes_of; rewrite Et; done).
  destruct (KeyValue.keyvalue_pairs_add_key _ _ _ _ kv) as [kv1|]; [|exists []; done]. cbn [mbind option_bind].
  destruct (IH kv1 Htp') as [more ->]. exists (lines ++ more). destruct (KeyValue.add_keys _ _ kv1); done.
Qed.

Lemma of_key_group time_ns k l : KeyValue.of_key k
    ((fun b => (chain_of b, leak_more env true b (bytes_of b))) <$> filter (fun b => selected env realtime time_ns (event b) = true /\ callchain b = true) l) =
  (fun b => leak_more env true b (bytes_of b)) <$> group time_ns k l.
Proof.
  unfold group. induction l as [|b l IH]; [done|]. rewrite !filter_cons.
  destruct (decide (selected env realtime time_ns (event b) = true /\ callchain b = true)) as [[Es Ec]|Hn].
  - rewrite fmap_cons, KeyValue.of_key_cons, IH. destruct (decide (chain_of b = k)) as [Ek|Ek].
    + rewrite decide_True by done. done.
    + rewrite decide_False by (intros (_ & _ & ?); done). done.
  - rewrite decide_False by (intros (? & ? & _); tauto). done.
Qed.

(** C34: the table of leaked bytes of a report has a line for exactly the call chains
    of the allocations that it counts, with their number, the sum of their sizes, the
    first pid, and for every task name the number and the sum of its allocations.
    The events are those of [--alloc], and there is memory for the table. *)
Theorem leaked_bytes_correct (time_ns : Z) (l : list perf_event_backup) :
  (forall b, b ∈ l -> is_Some (tp_alloc (s_id (event b))) /\ node_mem at_ (b_id b) = true /\ comms_mem at_ (b_id b) = true) ->
  exists lines kv, entry_lines time_ns (Some []) l = Some (lines, Some kv) /\
  sorted_by KeyValue.key KeyValue.key_cmp kv /\
  forall k, let g := group time_ns k l in
    match find_node KeyValue.key KeyValue.key_cmp k kv with
    | None => g = []
    | Some e => g <> [] /\ KeyValue.key e = k /\ KeyValue.n e = u32 (Z.of_nat (length g)) /\
        leaked (KeyValue.value e) = u64 (sum_bytes g) /\ lb_pid (KeyValue.value e) = first_pid g /\
        forall name, match find_comm name (comms (KeyValue.value e)) with
          | None => named name g = []
          | Some ce => named name g <> [] /\ ce_bytes ce = u64 (sum_bytes (named name g)) /\ ce_n ce = Z.of_nat (length (named name g))
          end
    end.
Proof.
  intros Htp. destruct (entry_lines_keys time_ns l [] Htp) as [lines E]. rewrite E.
  destruct (KeyValue.add_keys_found no_leak
    ((fun b => (chain_of b, leak_more env true b (bytes_of b))) <$> filter (fun b => selected env realtime time_ns (event b) = true /\ callchain b = true) l) [])
    as (kv & -> & Hs & Hf); [constructor|].
  cbn [mbind option_bind]. exists lines, kv. split_and!; [done|done|]. intros k.
  cbv zeta. rewrite Hf, of_key_group. generalize (group time_ns k l). intros g.
  assert (foldl (fun v f => f v) no_leak ((fun b => leak_more env true b (bytes_of b)) <$> g) = foldl more no_leak g) as Efold.
  { apply fold_more. }
  destruct g as [|b g]; [done|]. rewrite fmap_cons in *. cbn [KeyValue.key KeyValue.n KeyValue.value find_node split_at default fst snd] in *.
  split_and!; try done.
  - simpl. rewrite length_fmap. done.
  - change (KeyValue.value (KeyValue.key_value_node_new no_leak k)) with no_leak. rewrite Efold, leaked_fold. done.
  - change (KeyValue.value (KeyValue.key_value_node_new no_leak k)) with no_leak. rewrite Efold, pid_fold. done.
  - intros name. change (KeyValue.value (KeyValue.key_value_node_new no_leak k)) with no_leak. rewrite Efold, comms_fold.
    destruct (named name (b :: g)) as [|x y]; [done|]. simpl. split_and!; [done|done|lia].
Qed.

End Leaks.

(** ** Examples *)

Definition kmalloc : tp := {| stack := true; dwarf_unwind := false; mem_ptr := fun s => nth 0 (raw s) 0; mem_size := Some (fun s => nth 1 (raw s) 0) |}.
Definition kfree : tp := {| stack := false; dwarf_unwind := false; mem_ptr := fun s => nth 0 (raw s) 0; mem_size := None |}.

Definition alloc_tps (id : Z) : option tp := if id =? 1 then Some kmalloc else None.
Definition free_tps (id : Z) : option tp := if id =? 2 then Some kfree else None.

Definition opts (bytes : bool) : options :=
  {| report_leaked_bytes := bytes; collect_comm := true; verbose := false; verbose_event := false; greater_than := 0 |}.

Definition malloc_at (t p size : Z) (ch : list Z) : sample := {| s_id := 1; s_time := t; s_pid := 9; s_cpu := 0; header_size := 100; chain := ch; raw := [p; size] |}.
Definition free_at (t p : Z) : sample := {| s_id := 2; s_time := t; s_pid := 9; s_cpu := 0; header_size := 80; chain := []; raw := [p] |}.

Definition noon : moment := {| now := 0; kv_mem := true; sort_mem := true; node_mem := fun _ => true; comms_mem := fun _ => true |}.
Definition input_at (s : sample) : moment * input := (noon, Sample s true (Some "sh"%string)).
Definition no_sort (A : Type) (cmp : A -> A -> Z) (l : list A) : list A := l.

Definition backups : list perf_event_backup :=
  [{| b_id := 0; ptr := 64; b_comm := "sh"; callchain := true; event := malloc_at 1 64 10 [7; 8] |};
   {| b_id := 2; ptr := 32; b_comm := "ls"; callchain := true; event := malloc_at 3 32 30 [7; 8] |};
   {| b_id := 1; ptr := 96; b_comm := "sh"; callchain := true; event := malloc_at 4 96 5 [7; 9] |}].

Lemma leaked_bytes_correct_witness :
  exists lines kv, entry_lines (opts true) alloc_tps chain id noon 0 (Some []) backups = Some (lines, Some kv) /\
  forall e, find_node KeyValue.key KeyValue.key_cmp [7; 8] kv = Some e -> KeyValue.n e = 2 /\ leaked (KeyValue.value e) = 40.
Proof.
  destruct (leaked_bytes_correct (opts true) alloc_tps chain id noon 0 backups) as (lines & kv & E & _ & H).
  - intros b Hb. unfold backups in Hb. rewrite !elem_of_cons in Hb. destruct Hb as [-> | [-> | [-> | Hb]]]; [split; [eexists; reflexivity|done]..|inversion Hb].
  - exists lines, kv. split; [exact E|]. intros e He. specialize (H [7; 8]). cbv zeta in H. rewrite He in H.
    destruct H as (_ & _ & -> & -> & _). split; reflexivity.
Defined.

(** Three allocations, one of them freed, and a loss of the events from 50 to 60. *)
Definition inputs : list (moment * input) :=
  [input_at (malloc_at 10 64 8 [1]); input_at (malloc_at 20 96 4 [1]); input_at (malloc_at 21 32 2 [2]); input_at (free_at 30 96);
   (noon, Lost_events {| ins := 0; reclaim := false; start_time := 50; end_time := 60; lost_id := 5; lost := 3 |} true)].

Lemma inputs_mem : Forall (fun x => nodes_mem x.1) inputs.
Proof. repeat constructor. Qed.



(** Without memory for a node of the table its NULL is used. *)
Example node_without_memory :
  report_kmemleak (opts true) alloc_tps chain id no_sort
    {| now := 0; kv_mem := true; sort_mem := true; node_mem := fun _ => false; comms_mem := fun _ => true |}
    (match runs (step (opts true) alloc_tps free_tps chain id no_sort) [input_at (malloc_at 10 64 8 [1])] monitor_ctx_init with
     | Some (_, c) => c | None => monitor_ctx_init end) = None.
Proof. vm_compute. reflexivity. Qed.

(** Of three allocations one is freed; the others are reported at the loss of events
    from 50 to 60, the event at 55 is dropped and the last one is reported at the end. *)
Example leaks_and_a_loss :
  let run := runs (step (opts true) alloc_tps free_tps chain id no_sort)
    [input_at (malloc_at 10 64 8 [1]); input_at (malloc_at 20 96 4 [1]); input_at (malloc_at 21 32 2 [2]); input_at (free_at 30 96);
     (noon, Lost_events {| ins := 0; reclaim := false; start_time := 50; end_time := 60; lost_id := 5; lost := 3 |} true);
     input_at (free_at 55 64); input_at (malloc_at 70 64 1 [2])] monitor_ctx_init in
  match run with
  | Some (out, c) =>
      nth 5 out [] = [Lost 5 3 0 true; In_advance; Stats false {| alloc_num := 2; alloc_mem := 312; total_alloc := 3; total_free := 1 |}; Leaked_header;
        Leak {| KeyValue.n := 1; KeyValue.key := [1]; KeyValue.value := {| leaked := 8; lb_pid := 9; comms := [{| ce_comm := "sh"; ce_bytes := 8; ce_n := 1 |}]; max_comm := 4 |} |};
        Leak {| KeyValue.n := 1; KeyValue.key := [2]; KeyValue.value := {| leaked := 2; lb_pid := 9; comms := [{| ce_comm := "sh"; ce_bytes := 2; ce_n := 1 |}]; max_comm := 4 |} |}]
      /\ (ptr <$> inorder (alloc c)) = [64] /\ lost_list c = [] /\ freed c = [2; 0; 1]%nat
  | None => False
  end.
Proof. vm_compute. done. Qed.

End KmemleakMain.
