(* ===== verification/ProfDev.v ===== *)
(** * Devices (monitor.c, monitor.h)

    The life of the profiler devices: opening with a parent, cloning, forwarding to a
    target, enabling, the delivery of events, flushing, disabling, closing and the
    release of the last reference. Closing a device processes the events it still has,
    and processing an event may close a device, so that the functions call each other;
    they are written over the function [rec] that makes the calls, and [exec] ties them
    with fuel. A device is its number; [Fault] is the use of a device that was freed.
    The perf events themselves, failing system calls and what a profiler's own
    callbacks do are not part of the model: [sample] only counts. Two more things are
    left out: the users of a device ([dev_users], [prof_dev_use]), which keep a
    reference to the profilers that are event sources in a tracepoint list (tep.c)
    until the [deinit] of the list's device, and to ptraced devices; and the ordering
    of the events of a device ([order.enabled], [Order]), which hands them over later.
    The theorems are on runs without these ([ProfDevMain.allowed]). *)

From S2P Require Import Prelude.

Module ProfDev.

Inductive dev_state := EXIT | OFF | INACTIVE | ACTIVE.

#[export] Instance dev_state_eq_dec : EqDecision dev_state.
Proof. solve_decision. Defined.

(** A record of the ring buffer: a sample, another known type, or an unknown one;
    [passed]: what the user-space filter says, [e_time]: its time in the clock of the
    devices. *)
Inductive record_type := SAMPLE | KNOWN | UNKNOWN.

Record event := { e_type : record_type; passed : bool; e_time : Z }.

(** [struct prof_dev]. [nr_fds] are the files of its events, [ring] the records in its
    ring buffers; [samples] counts the calls of [prof->sample], [forwarded] the events
    handed to the target. *)
Record prof_dev := {
  refcount : Z;
  normal : bool;
  state : dev_state;
  inflush : bool;
  inclose : bool;
  clone : bool;
  nr_fds : Z;
  nr_pollfd : Z;
  ftrace_filter : bool;
  enabled_after : Z;
  exit_n : Z;
  sampled_events : Z;
  parent : option nat;
  child_list : list nat;
  target : option nat;
  source_list : list nat;
  ring : list event;
  samples : Z;
  forwarded : Z;
}.

(** The devices and [running]. *)
Record world := { devs : gmap nat prof_dev; running : Z }.

(** ** Results *)

Inductive res (A : Type) := Ok (a : A) | Fault | Timeout.
Arguments Ok {A}.
Arguments Fault {A}.
Arguments Timeout {A}.

#[export] Instance res_bind : MBind res := fun A B f m => match m with Ok a => f a | Fault => Fault | Timeout => Timeout end.

Definition of_option {A} (o : option A) : res A := match o with Some a => Ok a | None => Fault end.

(** [dev->...] *)
Definition deref (w : world) (d : nat) : res prof_dev := of_option (devs w !! d).

Definition set_devs (w : world) (m : gmap nat prof_dev) : world := {| devs := m; running := running w |}.

(** [dev->... = ...] *)
Definition update (f : prof_dev -> prof_dev) (d : nat) (w : world) : res world :=
  v ← deref w d; Ok (set_devs w (<[d := f v]> (devs w))).

Definition set_refcount (n : Z) (v : prof_dev) : prof_dev :=
  {| refcount := n; normal := normal v; state := state v; inflush := inflush v; inclose := inclose v; clone := clone v; nr_fds := nr_fds v; nr_pollfd := nr_pollfd v;
     ftrace_filter := ftrace_filter v; enabled_after := enabled_after v; exit_n := exit_n v; sampled_events := sampled_events v; parent := parent v;
     child_list := child_list v; target := target v; source_list := source_list v; ring := ring v; samples := samples v; forwarded := forwarded v |}.

Definition set_state (s : dev_state) (v : prof_dev) : prof_dev :=
  {| refcount := refcount v; normal := normal v; state := s; inflush := inflush v; inclose := inclose v; clone := clone v; nr_fds := nr_fds v; nr_pollfd := nr_pollfd v;
     ftrace_filter := ftrace_filter v; enabled_after := enabled_after v; exit_n := exit_n v; sampled_events := sampled_events v; parent := parent v;
     child_list := child_list v; target := target v; source_list := source_list v; ring := ring v; samples := samples v; forwarded := forwarded v |}.

Definition set_inflush (b : bool) (v : prof_dev) : prof_dev :=
  {| refcount := refcount v; normal := normal v; state := state v; inflush := b; inclose := inclose v; clone := clone v; nr_fds := nr_fds v; nr_pollfd := nr_pollfd v;
     ftrace_filter := ftrace_filter v; enabled_after := enabled_after v; exit_n := exit_n v; sampled_events := sampled_events v; parent := parent v;
     child_list := child_list v; target := target v; source_list := source_list v; ring := ring v; samples := samples v; forwarded := forwarded v |}.

Definition set_inclose (v : prof_dev) : prof_dev :=
  {| refcount := refcount v; normal := normal v; state := state v; inflush := inflush v; inclose := true; clone := clone v; nr_fds := nr_fds v; nr_pollfd := nr_pollfd v;
     ftrace_filter := ftrace_filter v; enabled_after := enabled_after v; exit_n := exit_n v; sampled_events := sampled_events v; parent := parent v;
     child_list := child_list v; target := target v; source_list := source_list v; ring := ring v; samples := samples v; forwarded := forwarded v |}.

Definition set_nr_pollfd (n : Z) (v : prof_dev) : prof_dev :=
  {| refcount := refcount v; normal := normal v; state := state v; inflush := inflush v; inclose := inclose v; clone := clone v; nr_fds := nr_fds v; nr_pollfd := n;
     ftrace_filter := ftrace_filter v; enabled_after := enabled_after v; exit_n := exit_n v; sampled_events := sampled_events v; parent := parent v;
     child_list := child_list v; target := target v; source_list := source_list v; ring := ring v; samples := samples v; forwarded := forwarded v |}.

Definition set_ring (r : list event) (v : prof_dev) : prof_dev :=
  {| refcount := refcount v; normal := normal v; state := state v; inflush := inflush v; inclose := inclose v; clone := clone v; nr_fds := nr_fds v; nr_pollfd := nr_pollfd v;
     ftrace_filter := ftrace_filter v; enabled_after := enabled_after v; exit_n := exit_n v; sampled_events := sampled_events v; parent := parent v;
     child_list := child_list v; target := target v; source_list := source_list v; ring := r; samples := samples v; forwarded := forwarded v |}.

(** The counters of the events. *)
Definition set_counts (n s f : Z) (v : prof_dev) : prof_dev :=
  {| refcount := refcount v; normal := normal v; state := state v; inflush := inflush v; inclose := inclose v; clone := clone v; nr_fds := nr_fds v; nr_pollfd := nr_pollfd v;
     ftrace_filter := ftrace_filter v; enabled_after := enabled_after v; exit_n := exit_n v; sampled_events := n; parent := parent v;
     child_list := child_list v; target := target v; source_list := source_list v; ring := ring v; samples := s; forwarded := f |}.

Definition set_links (p : option nat) (c : bool) (ch : list nat) (t : option nat) (so : list nat) (v : prof_dev) : prof_dev :=
  {| refcount := refcount v; normal := normal v; state := state v; inflush := inflush v; inclose := inclose v; clone := c; nr_fds := nr_fds v; nr_pollfd := nr_pollfd v;
     ftrace_filter := ftrace_filter v; enabled_after := enabled_after v; exit_n := exit_n v; sampled_events := sampled_events v; parent := p;
     child_list := ch; target := t; source_list := so; ring := ring v; samples := samples v; forwarded := forwarded v |}.

Definition set_running (n : Z) (w : world) : world := {| devs := devs w; running := n |}.

Definition list_del (d : nat) (l : list nat) : list nat := filter (fun x => x <> d) l.

(** ** References *)

(** The lists when [d], which is [v], is freed: its children go to its parent, and it
    leaves the lists of its parent and its target. *)
Definition unlinked (d : nat) (v : prof_dev) (y : nat) (u : prof_dev) : prof_dev :=
  let child := bool_decide (y ∈ child_list v) in
  set_links (if child then parent v else parent u)
            (if child then match parent v with Some _ => clone v | None => false end else clone u)
            (if bool_decide (parent v = Some y) then list_del d (child_list u) ++ child_list v else child_list u)
            (target u)
            (if bool_decide (target v = Some y) then list_del d (source_list u) else source_list u) u.

(** [prof_dev_free]: the children, the parent and the target are used. *)
Definition prof_dev_free (d : nat) (w : world) : res world :=
  v ← deref w d;
  if forallb (fun c => bool_decide (is_Some (devs w !! c))) (child_list v ++ option_list (parent v) ++ option_list (target v))
  then Ok (set_devs w (delete d (map_imap (fun y u => Some (unlinked d v y u)) (devs w))))
  else Fault.

(** Whether there is a reference. *)
Definition prof_dev_get (d : nat) (w : world) : res (bool * world) :=
  v ← deref w d;
  if 0 <? refcount v then w ← update (set_refcount (refcount v + 1)) d w; Ok (true, w) else Ok (false, w).

(** Whether the device was freed. *)
Definition prof_dev_put (d : nat) (w : world) : res (bool * world) :=
  v ← deref w d;
  w ← update (set_refcount (refcount v - 1)) d w;
  if refcount v - 1 =? 0 then w ← prof_dev_free d w; Ok (true, w) else Ok (false, w).

(** ** Opening *)

(** [prof_dev_open_internal] up to the point where it enables the device. *)
Definition prof_dev_open (d : nat) (p : option nat) (is_clone is_normal filter_ : bool) (n after fds : Z) (w : world) : res world :=
  ps ← match p with Some p => v ← deref w p; Ok (Some (state v)) | None => Ok None end;
  let st := match ps with
            | Some s => if negb is_clone && bool_decide (s <> ACTIVE) then OFF else INACTIVE
            | None => INACTIVE
            end in
  let v := {| refcount := 1; normal := is_normal; state := st; inflush := false; inclose := false;
              clone := match p with Some _ => is_clone | None => false end; nr_fds := fds; nr_pollfd := 0; ftrace_filter := filter_; enabled_after := after;
              exit_n := n; sampled_events := 0; parent := p; child_list := []; target := None; source_list := []; ring := []; samples := 0; forwarded := 0 |} in
  w ← match p with Some p => update (fun u => set_links (parent u) (clone u) (child_list u ++ [d]) (target u) (source_list u) u) p w | None => Ok w end;
  Ok (set_devs w (<[d := v]> (devs w))).

(** [prof_dev_forward] when it has memory. *)
Definition prof_dev_forward (d t : nat) (w : world) : res world :=
  w ← update (fun u => set_links (parent u) (clone u) (child_list u) (Some t) (source_list u) u) d w;
  update (fun u => set_links (parent u) (clone u) (child_list u) (target u) (source_list u ++ [d]) u) t w.

(** ** Calls *)

Inductive flush_how := FLUSH_NORMAL | FLUSH_FINAL.

(** A loop [for_each_source_dev_get] or [for_each_child_dev_get] over the lists of a
    device, with what it does to each. *)
Inductive list_kind := SOURCES | CHILDREN.
Inductive action := ENABLE | DISABLE | CLOSE | FLUSH (how : flush_how) | INTERVAL.

Inductive task :=
  | Enable (d : nat)
  | Disable (d : nat)
  | Close (d : nat)
  | Flush (d : nat) (how : flush_how)
  | Interval (d : nat)
  | Handle (d : nat)
  | Process (d : nat) (e : event)
  | Each (k : list_kind) (a : action) (d : nat) (tmp : option nat).

Definition list_of (k : list_kind) (v : prof_dev) : list nat := match k with SOURCES => source_list v | CHILDREN => child_list v end.

(** [list_next_entry] in the list. *)
Fixpoint list_next_entry (c : nat) (l : list nat) : option nat :=
  match l with [] => None | x :: l => if decide (x = c) then head l else list_next_entry c l end.

Section Calls.
Context (rec : task -> world -> res world).

(** [running ++] and [running --] of a normal device *)
Definition run_more (v : prof_dev) (w : world) : world :=
  if normal v && (0 <=? running w) then set_running (running w + 1) w else w.

Definition run_less (v : prof_dev) (w : world) : world :=
  if normal v && (0 <? running w) then set_running (running w - 1) w else w.

Definition prof_dev_enable (d : nat) (w : world) : res world :=
  v ← deref w d;
  if bool_decide (state v = ACTIVE \/ state v = EXIT) then Ok w
  else
    w ← update (set_nr_pollfd (nr_pollfd v + nr_fds v)) d w;
    '(_, w) ← prof_dev_get d w;
    w ← update (set_state ACTIVE) d w;
    let w := run_more v w in
    w ← rec (Each CHILDREN ENABLE d (head (child_list v))) w;
    '(_, w) ← prof_dev_put d w;
    Ok w.

Definition prof_dev_disable (d : nat) (w : world) : res world :=
  v ← deref w d;
  if bool_decide (state v <> ACTIVE) then Ok w
  else
    '(_, w) ← prof_dev_get d w;
    w ← update (set_state INACTIVE) d w;
    let w := run_less v w in
    w ← rec (Each SOURCES DISABLE d (head (source_list v))) w;
    v ← deref w d;
    w ← rec (Each CHILDREN DISABLE d (head (child_list v))) w;
    w ← rec (Flush d FLUSH_FINAL) w;
    '(_, w) ← prof_dev_put d w;
    Ok w.

Definition prof_dev_flush (d : nat) (how : flush_how) (w : world) : res world :=
  v ← deref w d;
  if inflush v then Ok w
  else
    '(_, w) ← prof_dev_get d w;
    w ← update (set_inflush true) d w;
    w ← rec (Handle d) w;
    w ← match how with
        | FLUSH_FINAL => Ok w
        | FLUSH_NORMAL => v ← deref w d; rec (Each SOURCES (FLUSH how) d (head (source_list v))) w
        end;
    w ← update (set_inflush false) d w;
    '(_, w) ← prof_dev_put d w;
    Ok w.

Definition prof_dev_close (d : nat) (w : world) : res world :=
  v ← deref w d;
  if inclose v then Ok w
  else
    w ← update set_inclose d w;
    w ← rec (Disable d) w;
    w ← update (set_state EXIT) d w;
    v ← deref w d;
    w ← rec (Each SOURCES CLOSE d (head (source_list v))) w;
    v ← deref w d;
    w ← rec (Each CHILDREN CLOSE d (head (child_list v))) w;
    '(_, w) ← prof_dev_put d w;
    Ok w.

(** The loop of [perf_event_handle_mmap] over the records of a device that does not
    order its events. *)
Definition handle_mmap (d : nat) (w : world) : res world :=
  v ← deref w d;
  match ring v with
  | [] => Ok w
  | e :: r => w ← update (set_ring r) d w; w ← rec (Process d e) w; rec (Handle d) w
  end.

(** [PERF_RECORD_SAMPLE] and [PERF_RECORD_DEV] of [perf_event_process_record];
    [raw]: the filter of the device applies. *)
Definition process_sample (d : nat) (raw : bool) (e : event) (w : world) : res world :=
  v ← deref w d;
  let n := if exit_n v =? 0 then sampled_events v else sampled_events v + 1 in
  if (exit_n v =? 0) || (n <=? exit_n v) then
    if (raw && ftrace_filter v && negb (passed e)) || (e_time e <? enabled_after v) then
      update (set_counts (if 0 <? n then n - 1 else n) (samples v) (forwarded v)) d w
    else
      w ← update (set_counts n (samples v + 1) (forwarded v)) d w;
      if negb (exit_n v =? 0) && (exit_n v <=? n) then rec (Close d) w else Ok w
  else
    w ← update (set_counts n (samples v) (forwarded v)) d w;
    if negb (exit_n v =? 0) && (exit_n v <=? n) then rec (Close d) w else Ok w.

(** A record of an unknown type counts too. *)
Definition process_unknown (d : nat) (w : world) : res world :=
  v ← deref w d;
  let n := if exit_n v =? 0 then sampled_events v else sampled_events v + 1 in
  w ← update (set_counts n (samples v) (forwarded v)) d w;
  if negb (exit_n v =? 0) && (exit_n v <=? n) then rec (Close d) w else Ok w.

(** [perf_event_forward]: whether the event goes on to the target. *)
Definition perf_event_forward (d : nat) (e : event) (w : world) : res (bool * world) :=
  v ← deref w d;
  if ftrace_filter v && negb (passed e) then Ok (false, w)
  else if e_time e <? enabled_after v then Ok (false, w)
  else if exit_n v =? 0 then w ← update (set_counts (sampled_events v) (samples v) (forwarded v + 1)) d w; Ok (true, w)
  else
    let n := sampled_events v + 1 in
    if exit_n v <? n then
      w ← update (set_counts n (samples v) (forwarded v)) d w;
      w ← rec (Close d) w;
      Ok (false, w)
    else w ← update (set_counts n (samples v) (forwarded v + 1)) d w; Ok (true, w).

Definition perf_event_process_record (d : nat) (e : event) (w : world) : res world :=
  v ← deref w d;
  match e_type e, target v with
  | SAMPLE, Some t =>
      '(go, w) ← perf_event_forward d e w;
      if (go : bool) then process_sample t false e w else Ok w
  | SAMPLE, None => process_sample d true e w
  | KNOWN, _ => Ok w
  | UNKNOWN, _ => process_unknown d w
  end.

(** [interval_handle]: the records of the device, then its sources. *)
Definition interval_handle (d : nat) (w : world) : res world :=
  '(_, w) ← prof_dev_get d w;
  w ← rec (Handle d) w;
  v ← deref w d;
  w ← rec (Each SOURCES INTERVAL d (head (source_list v))) w;
  '(_, w) ← prof_dev_put d w;
  Ok w.

(** What a loop does to one device. *)
Definition act (k : list_kind) (a : action) (d c : nat) (w : world) : res world :=
  v ← deref w c;
  let independent := match k with SOURCES => false | CHILDREN => clone v || bool_decide (target v = Some d) end in
  match a with
  | ENABLE => rec (Enable c) w
  | DISABLE => if independent then Ok w else rec (Disable c) w
  | CLOSE => if independent then Ok w else rec (Close c) w
  | FLUSH how => rec (Flush c how) w
  | INTERVAL => rec (Interval c) w
  end.

(** [for_each_dev_get]: the next one is read before the reference is dropped. *)
Definition for_each_dev_get (k : list_kind) (a : action) (d : nat) (tmp : option nat) (w : world) : res world :=
  match tmp with
  | None => Ok w
  | Some c =>
      '(ok, w) ← prof_dev_get c w;
      if (ok : bool) then
        w ← act k a d c w;
        v ← deref w d;
        _ ← deref w c;
        let next := list_next_entry c (list_of k v) in
        '(_, w) ← prof_dev_put c w;
        rec (Each k a d next) w
      else Ok w
  end.

Definition body (t : task) : world -> res world :=
  match t with
  | Enable d => prof_dev_enable d
  | Disable d => prof_dev_disable d
  | Close d => prof_dev_close d
  | Flush d how => prof_dev_flush d how
  | Interval d => interval_handle d
  | Handle d => handle_mmap d
  | Process d e => perf_event_process_record d e
  | Each k a d tmp => for_each_dev_get k a d tmp
  end.

(** [perf_event_handle]: the records; when the last file hangs up the device is
    closed. *)
Definition perf_event_handle (d : nat) (hup : bool) (w : world) : res world :=
  '(_, w) ← prof_dev_get d w;
  w ← rec (Handle d) w;
  w ← (if hup then
         v ← deref w d;
         w ← update (set_nr_pollfd (nr_pollfd v - 1)) d w;
         if nr_pollfd v - 1 =? 0 then rec (Close d) w else Ok w
       else Ok w);
  '(_, w) ← prof_dev_put d w;
  Ok w.

(** [prof_dev_clone]: the new device has the environment of its parent and forwards to
    the same target. *)
Definition prof_dev_clone (d p : nat) (is_normal filter_ : bool) (after fds : Z) (w : world) : res world :=
  '(ok, w) ← prof_dev_get p w;
  if (ok : bool) then
    v ← deref w p;
    w ← (if bool_decide (state v = EXIT) then Ok w
         else
           w ← prof_dev_open d (Some p) true is_normal filter_ (exit_n v) after fds w;
           '(_, w) ← prof_dev_get d w;
           w ← rec (Enable d) w;
           v ← deref w p;
           w ← match target v with Some t => prof_dev_forward d t w | None => Ok w end;
           '(_, w) ← prof_dev_put d w;
           Ok w);
    '(_, w) ← prof_dev_put p w;
    Ok w
  else Ok w.

(** *** What happens to the devices *)

(** A device is opened, cloned, forwarded or enabled; the kernel writes records; the
    loop finds records or the hang-up of a file, or a timer expires; a device is
    flushed, disabled or closed. *)
Inductive op :=
  | Opened (d : nat) (p : option nat) (is_normal filter_ : bool) (n after fds : Z)
  | Cloned (d p : nat) (is_normal filter_ : bool) (after fds : Z)
  | Forwarded (d t : nat)
  | Enabled (d : nat)
  | Arrived (d : nat) (l : list event)
  | Polled (d : nat) (hup : bool)
  | Ticked (d : nat)
  | Flushed (d : nat)
  | Disabled (d : nat)
  | Closed (d : nat).

Definition step (o : op) (w : world) : res world :=
  match o with
  | Opened d p is_normal filter_ n after fds => prof_dev_open d p false is_normal filter_ n after fds w
  | Cloned d p is_normal filter_ after fds => prof_dev_clone d p is_normal filter_ after fds w
  | Forwarded d t => prof_dev_forward d t w
  | Enabled d => rec (Enable d) w
  | Arrived d l => v ← deref w d; update (set_ring (ring v ++ l)) d w
  | Polled d hup => perf_event_handle d hup w
  | Ticked d => rec (Interval d) w
  | Flushed d => rec (Flush d FLUSH_NORMAL) w
  | Disabled d => rec (Disable d) w
  | Closed d => rec (Close d) w
  end.

End Calls.

Fixpoint exec (fuel : nat) (t : task) (w : world) : res world :=
  match fuel with O => Timeout | S fuel => body (exec fuel) t w end.

End ProfDev.
