(* ===== verification/ProfDevProof.v ===== *)
(** * Devices: references and links

    The invariant of the devices for the references that the calls on the stack hold,
    what calls on a device leave of the others, and that taking and dropping a
    reference, with the release of the device, keep both. *)

From S2P Require Import Prelude ProfDev.

Module ProfDevProof.

Import ProfDev.

(** ** The invariant *)

Definition active (v : prof_dev) : bool := normal v && bool_decide (state v = ACTIVE).

(** The normal devices that are active. *)
Definition active_set (w : world) : gset nat := dom (filter (fun kv => active kv.2 = true) (devs w)).

(** A device with a limit has handed over no more events than the limit. *)
Definition counted (v : prof_dev) : Prop :=
  0 <= exit_n v /\ (exit_n v = 0 \/ samples v + forwarded v <= sampled_events v /\ samples v + forwarded v <= exit_n v /\ 0 <= sampled_events v).

(** [G]: the references of the calls on the stack; [C]: the devices that they are
    closing. The reference of [prof_dev_open] goes to the call that closes. *)
Record inv (C : nat -> Prop) (G : nat -> nat) (w : world) : Prop := {
  inv_ref : forall x v, devs w !! x = Some v -> refcount v = (if inclose v then 0 else 1) + Z.of_nat (G x) /\ 1 <= refcount v;
  inv_held : forall x, (0 < G x)%nat -> is_Some (devs w !! x);
  inv_parent : forall x v p, devs w !! x = Some v -> parent v = Some p -> (p < x)%nat /\ exists u, devs w !! p = Some u /\ x ∈ child_list u;
  inv_child : forall x v, devs w !! x = Some v -> NoDup (child_list v) /\ forall c, c ∈ child_list v -> exists u, devs w !! c = Some u /\ parent u = Some x;
  inv_target : forall x v t, devs w !! x = Some v -> target v = Some t -> (t < x)%nat /\ exists u, devs w !! t = Some u /\ x ∈ source_list u /\ exit_n u = 0;
  inv_source : forall x v, devs w !! x = Some v -> NoDup (source_list v) /\ forall s, s ∈ source_list v -> exists u, devs w !! s = Some u /\ target u = Some x;
  inv_closed : forall x v, devs w !! x = Some v -> inclose v = true -> ~ C x -> source_list v = [] /\ state v = EXIT;
  inv_closing : forall x, C x -> (0 < G x)%nat;
  inv_exit : forall x v, devs w !! x = Some v -> state v = EXIT -> inclose v = true;
  inv_running : running w = Z.of_nat (size (active_set w));
  inv_count : forall x v, devs w !! x = Some v -> counted v;
}.

(** One more reference. *)
Definition hold (G : nat -> nat) (d : nat) : nat -> nat := fun x => if decide (x = d) then S (G x) else G x.

Lemma hold_eq G d : hold G d d = S (G d).
Proof. unfold hold. rewrite decide_True by done. done. Qed.

Lemma hold_ne G d x : x <> d -> hold G d x = G x.
Proof. intros H. unfold hold. rewrite decide_False by done. done. Qed.

(** What of a device does not change in calls on others: all but the lists and the
    counts of the events. *)
Definition core (v : prof_dev) : prof_dev := set_counts 0 0 (forwarded v) (set_links (parent v) (clone v) [] (target v) [] v).

(** [w'] after calls on [d] and devices with larger numbers. *)
Record later (d : nat) (w w' : world) : Prop := {
  later_core : forall x v, (x < d)%nat -> devs w !! x = Some v -> exists v', devs w' !! x = Some v' /\ core v' = core v;
  later_live : forall x, is_Some (devs w' !! x) -> is_Some (devs w !! x);
  later_source : forall x v v', devs w !! x = Some v -> devs w' !! x = Some v' -> source_list v' `sublist_of` source_list v;
  later_same : (forall x, is_Some (devs w !! x) -> is_Some (devs w' !! x)) ->
    forall x v v', devs w !! x = Some v -> devs w' !! x = Some v' -> child_list v' = child_list v /\ source_list v' = source_list v;
  later_flags : forall x v v', devs w !! x = Some v -> devs w' !! x = Some v' ->
    (inclose v = true -> inclose v' = true) /\ (state v' = ACTIVE -> state v = ACTIVE) /\ inflush v' = inflush v /\
    (length (ring v') <= length (ring v))%nat /\ target v' = target v;
  later_parent : forall x v v', devs w !! x = Some v -> devs w' !! x = Some v' -> parent v' = parent v \/ exists p, parent v = Some p /\ devs w' !! p = None;
}.

Lemma later_refl d w : later d w w.
Proof. split; intros; simplify_eq; eauto. Qed.

Lemma later_weaken d d' w w' : (d' <= d)%nat -> later d w w' -> later d' w w'.
Proof. intros Hle []. split; try done. intros x v Hx. apply later_core0. lia. Qed.

Lemma later_trans d w1 w2 w3 : later d w1 w2 -> later d w2 w3 -> later d w1 w3.
Proof.
  intros H1 H2. assert (forall x v3, devs w3 !! x = Some v3 -> exists v2, devs w2 !! x = Some v2) as Hmid.
  { intros x v3 H3. destruct (later_live _ _ _ H2 x) as [v2 Hv]; eauto. }
  split.
  - intros x v Hx Hv. destruct (later_core _ _ _ H1 x v Hx Hv) as (v2 & Hv2 & E2). destruct (later_core _ _ _ H2 x v2 Hx Hv2) as (v3 & Hv3 & E3).
    exists v3. split; congruence.
  - intros x Hx. apply (later_live _ _ _ H1), (later_live _ _ _ H2). done.
  - intros x v1 v3 Hv1 Hv3. destruct (Hmid x v3 Hv3) as [v2 Hv2].
    transitivity (source_list v2); [eapply (later_source _ _ _ H2)|eapply (later_source _ _ _ H1)]; done.
  - intros Hall x v1 v3 Hv1 Hv3. destruct (Hmid x v3 Hv3) as [v2 Hv2].
    destruct (later_same _ _ _ H1) with (x := x) (v := v1) (v' := v2) as [E1 E1']; [|done|done|].
    { intros y Hy. apply (later_live _ _ _ H2), Hall, Hy. }
    destruct (later_same _ _ _ H2) with (x := x) (v := v2) (v' := v3) as [E2 E2']; [|done|done|split; congruence].
    intros y Hy. apply Hall, (later_live _ _ _ H1), Hy.
  - intros x v1 v3 Hv1 Hv3. destruct (Hmid x v3 Hv3) as [v2 Hv2].
    destruct (later_flags _ _ _ H1 x v1 v2 Hv1 Hv2) as (? & ? & ? & ? & ?), (later_flags _ _ _ H2 x v2 v3 Hv2 Hv3) as (? & ? & ? & ? & ?).
    split_and!; [auto|auto|congruence|lia|congruence].
  - intros x v1 v3 Hv1 Hv3. destruct (Hmid x v3 Hv3) as [v2 Hv2].
    destruct (later_parent _ _ _ H1 x v1 v2 Hv1 Hv2) as [E1|(p & Hp & Hn)].
    + destruct (later_parent _ _ _ H2 x v2 v3 Hv2 Hv3) as [E2|(p & Hp & Hn)]; [left; congruence|]. right. exists p. split; congruence.
    + right. exists p. split; [done|]. destruct (devs w3 !! p) as [u|] eqn:E; [|done]. destruct (Hmid p u E). congruence.
Qed.

(** *** Changes of one device that the links do not see *)

(** The fields of the links and the references. *)
Definition same_links (v v' : prof_dev) : Prop :=
  parent v' = parent v /\ child_list v' = child_list v /\ target v' = target v /\ source_list v' = source_list v /\ exit_n v' = exit_n v /\ normal v' = normal v.

Lemma elem_active w x : x ∈ active_set w <-> exists v, devs w !! x = Some v /\ active v = true.
Proof. unfold active_set. rewrite elem_of_dom. unfold is_Some. setoid_rewrite map_lookup_filter_Some. done. Qed.

Lemma active_elem w d v : devs w !! d = Some v -> d ∈ active_set w <-> active v = true.
Proof. intros Hd. rewrite elem_active, Hd. naive_solver. Qed.

(** What a device that is replaced does to the active ones. *)
Lemma active_switch w w' d v v' : devs w !! d = Some v -> devs w' = <[d := v']> (devs w) ->
  active_set w' = (if active v' then {[d]} ∪ active_set w else active_set w ∖ {[d]}).
Proof.
  intros Hd E. apply set_eq. intros x.
  assert (x ∈ active_set w' <-> if decide (x = d) then active v' = true else x ∈ active_set w) as ->.
  { rewrite elem_active, E. destruct (decide (x = d)) as [->|Hne]; [rewrite lookup_insert_eq; naive_solver|rewrite elem_active, lookup_insert_ne by done; done]. }
  destruct (active v'), (decide (x = d)); set_solver.
Qed.

Lemma active_insert w w' d v v' : devs w !! d = Some v -> devs w' = <[d := v']> (devs w) -> active v' = active v -> active_set w' = active_set w.
Proof.
  intros Hd E Ha. rewrite (active_switch w w' d v v' Hd E), Ha. pose proof (active_elem w d v Hd) as Hin. destruct (active v); set_solver.
Qed.

Lemma inv_update C C' G G' w w' d v v' : inv C G w -> devs w !! d = Some v -> devs w' = <[d := v']> (devs w) ->
  running w' = Z.of_nat (size (active_set w')) -> same_links v v' -> counted v' ->
  (refcount v' = (if inclose v' then 0 else 1) + Z.of_nat (G' d)) -> 1 <= refcount v' ->
  (forall x, x <> d -> G' x = G x /\ (C x <-> C' x)) -> (C' d -> (0 < G' d)%nat) ->
  (inclose v' = true -> ~ C' d -> source_list v' = [] /\ state v' = EXIT) -> (state v' = EXIT -> inclose v' = true) ->
  inv C' G' w'.
Proof.
  intros H Hd E Hrun (L1 & L2 & L3 & L4 & L5 & L6) Hc Hr Hr1 HG HC Hcl Hex.
  assert (forall x u, <[d := v']> (devs w) !! x = Some u -> exists u0, devs w !! x = Some u0 /\ same_links u0 u /\ (x <> d -> u = u0)) as Hback.
  { intros x u. rewrite lookup_insert_Some. intros [[<- <-]|[Hne Hu]]; [exists v; unfold same_links; naive_solver|].
    exists u. unfold same_links. naive_solver. }
  assert (forall x u0, devs w !! x = Some u0 -> exists u, <[d := v']> (devs w) !! x = Some u /\ same_links u0 u) as Hfwd.
  { intros x u0 Hu. destruct (decide (x = d)) as [->|Hne]; [rewrite lookup_insert_eq|rewrite lookup_insert_ne by done].
    - exists v'. split; [done|]. unfold same_links. rewrite Hd in Hu. injection Hu as <-. done.
    - exists u0. unfold same_links. done. }
  split; rewrite ?E.
  - intros x u. rewrite lookup_insert_Some. intros [[<- <-]|[Hne Hu]]; [done|]. destruct (HG x) as [-> _]; [done|]. apply (inv_ref _ _ _ H x u Hu).
  - intros x Hx. destruct (decide (x = d)) as [->|Hne]; [rewrite lookup_insert_eq; eauto|]. rewrite lookup_insert_ne by done.
    apply (inv_held _ _ _ H). destruct (HG x Hne) as [<- _]. done.
  - intros x u p Hu Hp. destruct (Hback x u Hu) as (u0 & Hu0 & (E1 & _) & _). rewrite E1 in Hp.
    destruct (inv_parent _ _ _ H x u0 p Hu0 Hp) as (Hlt & q & Hq & Hin). split; [done|]. destruct (Hfwd p q Hq) as (q' & Hq' & (_ & L & _)).
    exists q'. rewrite L. done.
  - intros x u Hu. destruct (Hback x u Hu) as (u0 & Hu0 & (_ & L & _) & _). rewrite L. destruct (inv_child _ _ _ H x u0 Hu0) as [Hnd Hch]. split; [done|].
    intros y Hy. destruct (Hch y Hy) as (q & Hq & Hp). destruct (Hfwd y q Hq) as (q' & Hq' & (L' & _)). exists q'. split; congruence.
  - intros x u t Hu Ht. destruct (Hback x u Hu) as (u0 & Hu0 & (_ & _ & L & _) & _). rewrite L in Ht.
    destruct (inv_target _ _ _ H x u0 t Hu0 Ht) as (Hlt & q & Hq & Hin & Hn). split; [done|].
    destruct (Hfwd t q Hq) as (q' & Hq' & (_ & _ & _ & E4 & E5 & _)). exists q'. rewrite E4, E5. done.
  - intros x u Hu. destruct (Hback x u Hu) as (u0 & Hu0 & (_ & _ & _ & L & _) & _). rewrite L. destruct (inv_source _ _ _ H x u0 Hu0) as [Hnd Hso]. split; [done|].
    intros y Hy. destruct (Hso y Hy) as (q & Hq & Hp). destruct (Hfwd y q Hq) as (q' & Hq' & (_ & _ & L' & _)). exists q'. split; congruence.
  - intros x u. rewrite lookup_insert_Some. intros [[<- <-]|[Hne Hu]]; [done|]. intros Hi Hn. apply (inv_closed _ _ _ H x u Hu Hi).
    intros HC'. apply Hn, (HG x); done.
  - intros x Hx. destruct (decide (x = d)) as [->|Hne]; [auto|]. destruct (HG x Hne) as [-> HCx]. apply (inv_closing _ _ _ H), HCx, Hx.
  - intros x u. rewrite lookup_insert_Some. intros [[<- <-]|[Hne Hu]]; [done|]. apply (inv_exit _ _ _ H x u Hu).
  - done.
  - intros x u. rewrite lookup_insert_Some. intros [[<- <-]|[Hne Hu]]; [done|]. apply (inv_count _ _ _ H x u Hu).
Qed.

(** The same with the same references and calls. *)
Lemma inv_set C G w d v v' : inv C G w -> devs w !! d = Some v -> same_links v v' -> counted v' ->
  refcount v' = refcount v -> inclose v' = inclose v -> state v' = state v -> inv C G (set_devs w (<[d := v']> (devs w))).
Proof.
  intros H Hd Hl Hc Hr Hi Hs. destruct (inv_ref _ _ _ H d v Hd) as [E1 E2]. pose proof (proj1 Hl) as L1. destruct Hl as (L & L2 & L3 & L4 & L5 & L6).
  eapply (inv_update C C G G w _ d v v'); rewrite ?Hr, ?Hi, ?Hs; try done.
  - simpl. rewrite (active_insert w (set_devs w (<[d := v']> (devs w))) d v v' Hd eq_refl); [apply H|]. unfold active. rewrite Hs, L6. done.
  - apply (inv_closing _ _ _ H).
  - rewrite L4. apply (inv_closed _ _ _ H d v Hd).
  - apply (inv_exit _ _ _ H d v Hd).
Qed.

(** A change of device [d] itself. *)
Lemma later_update w d v v' : devs w !! d = Some v -> same_links v v' -> (inclose v = true -> inclose v' = true) -> (state v' = ACTIVE -> state v = ACTIVE) ->
  inflush v' = inflush v -> (length (ring v') <= length (ring v))%nat -> later d w (set_devs w (<[d := v']> (devs w))).
Proof.
  intros Hd (L1 & L2 & L3 & L4 & L5 & L6) Hi Hs Hf Hr. split; simpl.
  - intros x u Hx Hu. exists u. rewrite lookup_insert_ne by lia. done.
  - intros x. destruct (decide (x = d)) as [->|Hne]; [eauto|]. rewrite lookup_insert_ne by done. done.
  - intros x u u' Hu. rewrite lookup_insert_Some. intros [[<- <-]|[Hne Hu']]; [|by simplify_eq]. rewrite Hd in Hu. injection Hu as <-. rewrite L4. done.
  - intros _ x u u' Hu. rewrite lookup_insert_Some. intros [[<- <-]|[Hne Hu']]; [|by simplify_eq]. rewrite Hd in Hu. injection Hu as <-. done.
  - intros x u u' Hu. rewrite lookup_insert_Some. intros [[<- <-]|[Hne Hu']].
    + rewrite Hd in Hu. injection Hu as <-. done.
    + simplify_eq. split_and!; auto.
  - intros x u u' Hu. rewrite lookup_insert_Some. intros [[<- <-]|[Hne Hu']]; [|by simplify_eq; auto]. rewrite Hd in Hu. injection Hu as <-. auto.
Qed.

(** *** References *)

Lemma get_inv C G w d v : inv C G w -> devs w !! d = Some v ->
  exists w', prof_dev_get d w = Ok (true, w') /\ inv C (hold G d) w' /\ later d w w' /\ devs w' !! d = Some (set_refcount (refcount v + 1) v).
Proof.
  intros H Hd. destruct (inv_ref _ _ _ H d v Hd) as [Hr Hr1]. unfold prof_dev_get, deref. rewrite Hd. simpl.
  destruct (Z.ltb_spec 0 (refcount v)); [|lia]. unfold update, deref. rewrite Hd. simpl. eexists. split; [reflexivity|]. split_and!.
  - eapply (inv_update C C G (hold G d) w _ d v); try done; simpl.
    + erewrite (active_insert w _ d v); [apply H|done|done|done].
    + apply (inv_count _ _ _ H d v Hd).
    + rewrite hold_eq. lia.
    + lia.
    + intros x Hx. rewrite hold_ne by done. done.
    + rewrite hold_eq. lia.
    + apply (inv_closed _ _ _ H d v Hd).
    + apply (inv_exit _ _ _ H d v Hd).
  - eapply later_update; done.
  - simpl. apply lookup_insert_eq.
Qed.

Lemma elem_list_del d x l : x ∈ list_del d l <-> x <> d /\ x ∈ l.
Proof. unfold list_del. rewrite list_elem_of_filter. done. Qed.

Lemma list_del_nodup d l : NoDup l -> NoDup (list_del d l).
Proof. apply list.NoDup_filter. Qed.

Lemma list_del_sublist d l : list_del d l `sublist_of` l.
Proof.
  unfold list_del. induction l as [|x l IH]; [done|]. rewrite filter_cons. destruct (decide (x <> d)); [apply sublist_skip|apply sublist_cons]; done.
Qed.

Section Free.
Context (C : nat -> Prop) (G : nat -> nat) (w : world) (d : nat) (v : prof_dev).
Context (H : inv C (hold G d) w) (Hd : devs w !! d = Some v) (Hso : source_list v = []) (Hst : state v = EXIT) (HG : G d = 0%nat) (HC : ~ C d).

(** The devices after the release. *)
Definition freed : gmap nat prof_dev := delete d (map_imap (fun y u => Some (unlinked d v y u)) (devs w)).

Lemma freed_lookup y u' : freed !! y = Some u' <-> y <> d /\ exists u, devs w !! y = Some u /\ u' = unlinked d v y u.
Proof using.
  unfold freed. rewrite lookup_delete_Some, map_lookup_imap. destruct (devs w !! y) as [u|]; simpl; naive_solver.
Qed.

Lemma freed_some y u : devs w !! y = Some u -> y <> d -> freed !! y = Some (unlinked d v y u).
Proof using. intros Hy Hne. apply freed_lookup. eauto. Qed.

(** Whose child a device is. *)
Lemma child_iff y u : devs w !! y = Some u -> y ∈ child_list v <-> parent u = Some d.
Proof using All.
  intros Hy. split.
  - intros Hin. destruct (proj2 (inv_child _ _ _ H d v Hd) y Hin) as (u' & Hu' & Hp). congruence.
  - intros Hp. destruct (inv_parent _ _ _ H y u d Hy Hp) as (_ & u' & Hu' & Hin). congruence.
Qed.

Lemma source_iff y u : devs w !! y = Some u -> target u <> Some d.
Proof using All.
  intros Hy Ht. destruct (inv_target _ _ _ H y u d Hy Ht) as (_ & u' & Hu' & Hin & _). rewrite Hd in Hu'. injection Hu' as <-. rewrite Hso in Hin. inversion Hin.
Qed.

Lemma free_parent y u p : freed !! y = Some u -> parent u = Some p -> (p < y)%nat /\ exists q, freed !! p = Some q /\ y ∈ child_list q.
Proof using All.
  intros (Hne & u0 & Hu0 & ->)%freed_lookup. simpl. destruct (bool_decide_reflect (y ∈ child_list v)) as [Hin|Hin]; intros Hp.
  - destruct (inv_parent _ _ _ H d v p Hd Hp) as (Hlt & q & Hq & Hdq). pose proof (proj1 (child_iff y u0 Hu0) Hin) as Hpy.
    destruct (inv_parent _ _ _ H y u0 d Hu0 Hpy) as (Hlt' & _). split; [lia|]. exists (unlinked d v p q).
    split; [apply freed_some; [done|lia]|]. simpl. rewrite bool_decide_eq_true_2 by done. apply elem_of_app. auto.
  - destruct (inv_parent _ _ _ H y u0 p Hu0 Hp) as (Hlt & q & Hq & Hyq). split; [done|].
    assert (p <> d) as Hpd by (intros ->; apply Hin, (child_iff y u0 Hu0); done).
    exists (unlinked d v p q). split; [apply freed_some; done|]. simpl. case_match; [|done]. apply elem_of_app. left. apply elem_list_del. done.
Qed.

Lemma free_child y u : freed !! y = Some u -> NoDup (child_list u) /\ forall c, c ∈ child_list u -> exists q, freed !! c = Some q /\ parent q = Some y.
Proof using All.
  intros (Hne & u0 & Hu0 & ->)%freed_lookup. simpl. destruct (inv_child _ _ _ H y u0 Hu0) as [Hnd Hch]. destruct (inv_child _ _ _ H d v Hd) as [Hnd' Hch'].
  assert (forall c, c ∈ child_list u0 -> c ∉ child_list v) as Hdis.
  { intros c Hc Hc'. destruct (Hch c Hc) as (q & Hq & Hp). destruct (Hch' c Hc') as (q' & Hq' & Hp'). congruence. }
  destruct (bool_decide_reflect (parent v = Some y)) as [Hp|Hp].
  - split.
    + apply list.NoDup_app. split_and!; [apply list_del_nodup; done| |done]. intros c Hc. apply elem_list_del in Hc as [_ Hc]. auto.
    + intros c [Hc|Hc]%elem_of_app.
      * apply elem_list_del in Hc as [Hcd Hc]. destruct (Hch c Hc) as (q & Hq & Hpq). exists (unlinked d v c q). split; [apply freed_some; done|].
        simpl. rewrite bool_decide_eq_false_2 by auto. done.
      * destruct (Hch' c Hc) as (q & Hq & Hpq). destruct (inv_parent _ _ _ H c q d Hq Hpq) as [Hlt _]. exists (unlinked d v c q).
        split; [apply freed_some; [done|lia]|]. simpl. rewrite bool_decide_eq_true_2 by done. done.
  - split; [done|]. intros c Hc. destruct (Hch c Hc) as (q & Hq & Hpq). exists (unlinked d v c q). split.
    + apply freed_some; [done|]. intros ->. apply Hp. congruence.
    + simpl. rewrite bool_decide_eq_false_2 by auto. done.
Qed.

Lemma free_target y u t : freed !! y = Some u -> target u = Some t -> (t < y)%nat /\ exists q, freed !! t = Some q /\ y ∈ source_list q /\ exit_n q = 0.
Proof using All.
  intros (Hne & u0 & Hu0 & ->)%freed_lookup. simpl. intros Ht. destruct (inv_target _ _ _ H y u0 t Hu0 Ht) as (Hlt & q & Hq & Hin & Hn). split; [done|].
  assert (t <> d) as Htd by (intros ->; apply (source_iff y u0 Hu0); done). exists (unlinked d v t q). split; [apply freed_some; done|]. simpl.
  split; [|done]. case_match; [|done]. apply elem_list_del. done.
Qed.

Lemma free_source y u : freed !! y = Some u -> NoDup (source_list u) /\ forall s, s ∈ source_list u -> exists q, freed !! s = Some q /\ target q = Some y.
Proof using All.
  intros (Hne & u0 & Hu0 & ->)%freed_lookup. simpl. destruct (inv_source _ _ _ H y u0 Hu0) as [Hnd Hs].
  destruct (bool_decide_reflect (target v = Some y)) as [Ht|Ht].
  - split; [apply list_del_nodup; done|]. intros s [Hsd Hin]%elem_list_del. destruct (Hs s Hin) as (q & Hq & Hqt). exists (unlinked d v s q).
    split; [apply freed_some; done|done].
  - split; [done|]. intros s Hin. destruct (Hs s Hin) as (q & Hq & Hqt). exists (unlinked d v s q). split; [|done]. apply freed_some; [done|].
    intros ->. apply Ht. congruence.
Qed.

Lemma free_active : active_set (set_devs w freed) = active_set w.
Proof using All.
  apply set_eq. intros x. rewrite !elem_active. simpl. split.
  - intros (u' & (Hne & u & Hu & ->)%freed_lookup & Ha). exists u. done.
  - intros (u & Hu & Ha). exists (unlinked d v x u). split; [|done]. apply freed_some; [done|]. intros ->. rewrite Hd in Hu. injection Hu as <-.
    unfold active in Ha. rewrite Hst in Ha. apply andb_true_iff in Ha as [_ Ha]. done.
Qed.

Lemma free_inv : inv C G (set_devs w freed).
Proof using All.
  split; simpl.
  - intros y u (Hne & u0 & Hu0 & ->)%freed_lookup. simpl. destruct (inv_ref _ _ _ H y u0 Hu0) as [E1 E2]. rewrite hold_ne in E1 by done. done.
  - intros y Hy. assert (y <> d) as Hne by (intros ->; lia). destruct (inv_held _ _ _ H y) as [u Hu]; [rewrite hold_ne; done|].
    eexists. apply freed_some; done.
  - apply free_parent.
  - apply free_child.
  - apply free_target.
  - apply free_source.
  - intros y u (Hne & u0 & Hu0 & ->)%freed_lookup. simpl. intros Hi Hn. destruct (inv_closed _ _ _ H y u0 Hu0 Hi Hn) as [-> Hs].
    split; [case_match; done|done].
  - intros y Hy. assert (y <> d) as Hne by (intros ->; auto). rewrite <- (hold_ne G d y Hne). apply (inv_closing _ _ _ H), Hy.
  - intros y u (Hne & u0 & Hu0 & ->)%freed_lookup. simpl. apply (inv_exit _ _ _ H y u0 Hu0).
  - rewrite free_active. apply H.
  - intros y u (Hne & u0 & Hu0 & ->)%freed_lookup. apply (inv_count _ _ _ H y u0 Hu0).
Qed.

Lemma free_later : later d w (set_devs w freed).
Proof using All.
  split; simpl.
  - intros x u Hx Hu. exists (unlinked d v x u). split; [apply freed_some; [done|lia]|]. unfold core, unlinked. simpl.
    rewrite (bool_decide_eq_false_2 (x ∈ child_list v)); [done|]. intros Hin. destruct (proj2 (inv_child _ _ _ H d v Hd) x Hin) as (q & Hq & Hp).
    destruct (inv_parent _ _ _ H x q d Hq Hp). lia.
  - intros x [u (Hne & u0 & Hu0 & ->)%freed_lookup]. eauto.
  - intros x u u' Hu (Hne & u0 & Hu0 & ->)%freed_lookup. simplify_eq. simpl. case_match; [apply list_del_sublist|done].
  - intros Hall. exfalso. destruct (Hall d) as [u (Hne & _)%freed_lookup]; eauto.
  - intros x u u' Hu (Hne & u0 & Hu0 & ->)%freed_lookup. simplify_eq. simpl. split_and!; auto.
  - intros x u u' Hu (Hne & u0 & Hu0 & ->)%freed_lookup. rewrite Hu in Hu0. injection Hu0 as <-. simpl. case_bool_decide as Hin; [|auto].
    right. exists d. split; [apply (child_iff x u Hu), Hin|]. unfold freed. apply lookup_delete_eq.
Qed.

Lemma free_ok : prof_dev_free d (set_devs w (<[d := set_refcount 0 v]> (devs w))) = Ok (set_devs w freed).
Proof using All.
  unfold prof_dev_free, deref. simpl. rewrite lookup_insert_eq. simpl.
  assert (forall c, is_Some (devs w !! c) -> is_Some (<[d := set_refcount 0 v]> (devs w) !! c)) as Hin.
  { intros c Hc. destruct (decide (c = d)) as [->|Hne]; [rewrite lookup_insert_eq; eauto|rewrite lookup_insert_ne; done]. }
  rewrite (proj2 (forallb_forall _ _)).
  - do 2 f_equal. unfold freed. apply map_eq. intros y. destruct (decide (y = d)) as [->|Hne]; [rewrite !lookup_delete_eq; done|].
    rewrite !lookup_delete_ne, !map_lookup_imap, lookup_insert_ne by done. done.
  - intros c Hc. apply bool_decide_eq_true_2, Hin. apply list_elem_of_In in Hc. apply elem_of_app in Hc as [Hc|[Hc|Hc]%elem_of_app].
    + destruct (proj2 (inv_child _ _ _ H d v Hd) c Hc) as (q & Hq & _). eauto.
    + destruct (parent v) as [p|] eqn:Ep; simpl in Hc; [|inversion Hc]. apply list_elem_of_singleton in Hc as ->.
      destruct (inv_parent _ _ _ H d v p Hd Ep) as (_ & q & Hq & _). eauto.
    + destruct (target v) as [t|] eqn:Et; simpl in Hc; [|inversion Hc]. apply list_elem_of_singleton in Hc as ->.
      destruct (inv_target _ _ _ H d v t Hd Et) as (_ & q & Hq & _). eauto.
Qed.

End Free.

(** The last reference goes: the device was closed and is freed. *)
Lemma put_inv C G w d v : inv C (hold G d) w -> devs w !! d = Some v -> (C d -> (0 < G d)%nat) ->
  exists b w', prof_dev_put d w = Ok (b, w') /\ inv C G w' /\ later d w w' /\
    (refcount v <> 1 /\ devs w' = <[d := set_refcount (refcount v - 1) v]> (devs w) \/ refcount v = 1 /\ devs w' = freed w d v) /\
    running w' = running w.
Proof.
  intros H Hd HC. destruct (inv_ref _ _ _ H d v Hd) as [Hr Hr1]. rewrite hold_eq in Hr.
  unfold prof_dev_put, update, deref. rewrite Hd. simpl. destruct (Z.eqb_spec (refcount v - 1) 0) as [E|E].
  - assert (inclose v = true /\ G d = 0%nat) as [Hi HG] by (destruct (inclose v); lia).
    assert (~ C d) as HnC by (intros Hc; specialize (HC Hc); lia). destruct (inv_closed _ _ _ H d v Hd Hi HnC) as [Hso Hst].
    rewrite E. rewrite (free_ok C G w d v) by done. exists true, (set_devs w (freed w d v)). split; [done|].
    split; [apply free_inv; done|]. split; [eapply free_later; done|]. split; [right; split; [lia|done]|done].
  - exists false. eexists. split; [reflexivity|]. split; [|split; [apply later_update with v; done|split; [left; split; [lia|done]|done]]].
    eapply (inv_update C C (hold G d) G w _ d v); try done; simpl.
    + erewrite (active_insert w _ d v); [apply H|done|done|done].
    + apply (inv_count _ _ _ H d v Hd).
    + lia.
    + lia.
    + intros x Hx. rewrite hold_ne by done. done.
    + apply (inv_closed _ _ _ H d v Hd).
    + apply (inv_exit _ _ _ H d v Hd).
Qed.

End ProfDevProof.
