(* ===== verification/ProfDevLoop.v ===== *)
(** * Devices: the loops over sources and children

    Calls that return, and the loop [for_each_dev_get]: while the devices it visits are
    closed and freed, and their children move into the list, it uses live devices only
    and ends. *)

From S2P Require Import Prelude ProfDev ProfDevProof.

Module ProfDevLoop.

Import ProfDev ProfDevProof.

(** ** Calls that return *)

(** With enough fuel the result is [Ok] of something in [Q]. *)
Definition wp {A} (f : (task -> world -> res world) -> res A) (Q : A -> Prop) : Prop :=
  exists a, Q a /\ exists n, forall m, (n <= m)%nat -> f (exec m) = Ok a.

Lemma wp_ok {A} (a : A) (Q : A -> Prop) : Q a -> wp (fun _ => Ok a) Q.
Proof. intros H. exists a. split; [done|]. exists 0%nat. done. Qed.

Lemma wp_weaken {A} f (Q Q' : A -> Prop) : wp f Q -> (forall a, Q a -> Q' a) -> wp f Q'.
Proof. intros (a & Ha & Hn) H. exists a. auto. Qed.

Lemma wp_then {A B} f (g : (task -> world -> res world) -> A -> res B) (P : A -> Prop) (Q : B -> Prop) :
  wp f P -> (forall a, P a -> wp (fun r => g r a) Q) -> wp (fun r => f r ≫= g r) Q.
Proof.
  intros (a & Ha & n & Hn) H. destruct (H a Ha) as (b & Hb & n' & Hn'). exists b. split; [done|]. exists (n + n')%nat. intros m Hm.
  rewrite Hn by lia. apply Hn'. lia.
Qed.

Lemma wp_task t w Q : wp (fun r => body r t w) Q -> wp (fun r => r t w) Q.
Proof.
  intros (a & Ha & n & Hn). exists a. split; [done|]. exists (S n). intros [|m] Hm; [lia|]. apply Hn. lia.
Qed.

(** ** What the loop needs of the devices it visits *)

(** The numbers of the devices are below [N]. *)
Definition bounded (N : nat) (w : world) : Prop := forall x, is_Some (devs w !! x) -> (x < N)%nat.

Lemma later_bounded N d w w' : later d w w' -> bounded N w -> bounded N w'.
Proof. intros Hl Hb x Hx. apply Hb, (later_live _ _ _ Hl), Hx. Qed.

Section Loop.
Context (N : nat).

Definition spec (t : task) (d : nat) : Prop := forall C G w,
  inv C G w -> bounded N w -> is_Some (devs w !! d) -> (forall x, (d < x)%nat -> G x = 0%nat) -> wp (fun r => r t w) (fun w' => inv C G w' /\ later d w w').

Definition closing (d : nat) (w : world) : Prop := forall v, devs w !! d = Some v -> inclose v = true.

Definition close_spec (d : nat) : Prop := forall C G w,
  inv C G w -> bounded N w -> is_Some (devs w !! d) -> (forall x, (d < x)%nat -> G x = 0%nat) ->
  wp (fun r => r (Close d) w) (fun w' => inv C G w' /\ later d w w' /\ closing d w').

Record good (d : nat) : Prop := {
  good_disable : spec (Disable d) d;
  good_close : close_spec d;
  good_flush : forall how, spec (Flush d how) d;
  good_interval : spec (Interval d) d;
}.

Lemma act_spec C G k a d c w : a <> ENABLE -> good c -> inv C (hold G c) w -> bounded N w -> (forall x, (c < x)%nat -> G x = 0%nat) ->
  wp (fun r => act r k a d c w) (fun w' => inv C (hold G c) w' /\ later c w w' /\ (k = SOURCES -> a = CLOSE -> closing c w')).
Proof.
  intros Ha Hg H Hb HG. destruct (inv_held _ _ _ H c) as [v Hv]; [rewrite hold_eq; lia|].
  assert (forall x, (c < x)%nat -> hold G c x = 0%nat) as HG' by (intros x Hx; rewrite hold_ne by lia; auto).
  unfold act, deref. rewrite Hv. simpl.
  assert (wp (fun _ => Ok w) (fun w' => inv C (hold G c) w' /\ later c w w')) as Hskip by (apply wp_ok; split; [done|apply later_refl]).
  assert (forall f, ~ (k = SOURCES /\ a = CLOSE) -> wp f (fun w' => inv C (hold G c) w' /\ later c w w') ->
    wp f (fun w' => inv C (hold G c) w' /\ later c w w' /\ (k = SOURCES -> a = CLOSE -> closing c w'))) as Hweak.
  { intros f Hn Hf. eapply wp_weaken; [exact Hf|]. intros w' [? ?]. split_and!; [done|done|]. intros. exfalso. auto. }
  assert (wp (fun r => r (Close c) w) (fun w' => inv C (hold G c) w' /\ later c w w' /\ closing c w')) as Hclose by (apply (good_close c Hg); eauto).
  destruct a as [| | |how|]; [done| | | |].
  - apply Hweak; [naive_solver|]. case_match; [done|]. apply (good_disable c Hg); eauto.
  - destruct k; [eapply wp_weaken; [exact Hclose|naive_solver]|]. apply Hweak; [naive_solver|]. case_match; [done|].
    eapply wp_weaken; [exact Hclose|naive_solver].
  - apply Hweak; [naive_solver|]. apply (good_flush c Hg); eauto.
  - apply Hweak; [naive_solver|]. apply (good_interval c Hg); eauto.
Qed.

(** ** Lists *)

Lemma list_next_entry_split c l1 l2 : c ∉ l1 -> list_next_entry c (l1 ++ c :: l2) = head l2.
Proof.
  induction l1 as [|x l1 IH]; intros Hc; simpl; [rewrite decide_True by done; done|].
  apply not_elem_of_cons in Hc as [Hne Hc]. rewrite decide_False by done. auto.
Qed.

Lemma list_del_split c l1 l2 : NoDup (l1 ++ c :: l2) -> list_del c (l1 ++ c :: l2) = l1 ++ l2.
Proof.
  assert (forall l, c ∉ l -> list_del c l = l) as Hid.
  { unfold list_del. induction l as [|x l IH]; intros Hc; [done|]. apply not_elem_of_cons in Hc as [Hne Hc].
    rewrite filter_cons_True by done. rewrite IH; done. }
  intros (Hn1 & Hd & Hn2)%list.NoDup_app. apply list.NoDup_cons in Hn2 as [Hc Hn2]. unfold list_del. rewrite list.filter_app, filter_cons_False by auto.
  f_equal; apply Hid; [|done]. intros Hc1. apply (Hd c Hc1). left.
Qed.

Lemma split_at_unique (c : nat) l1 l2 m1 m2 : l1 ++ c :: l2 = m1 ++ c :: m2 -> c ∉ l1 -> c ∉ m1 -> l1 = m1 /\ l2 = m2.
Proof.
  revert m1. induction l1 as [|x l1 IH]; intros [|y m1]; simpl; intros E Hl Hm.
  - injection E as ->. done.
  - injection E as -> E. destruct Hm. left.
  - injection E as -> E. destruct Hl. left.
  - injection E as -> E. apply not_elem_of_cons in Hl as [_ Hl], Hm as [_ Hm]. destruct (IH m1 E Hl Hm) as [-> ->]. done.
Qed.

Lemma sublist_first (c : nat) l m1 m2 : m1 ++ c :: m2 `sublist_of` c :: l -> c ∉ l -> c ∉ m1 -> m1 = [].
Proof.
  intros Hsub Hl Hm. destruct m1 as [|x m1]; [done|]. simpl in Hsub. apply sublist_cons_r in Hsub as [Hsub|(l' & E & _)].
  - exfalso. apply Hl. eapply elem_of_sublist; [|exact Hsub]. right. apply elem_of_app. right. left.
  - injection E as -> _. exfalso. apply Hm. left.
Qed.

(** The devices after the loop are among those before. *)
Lemma later_size d w w' : later d w w' -> (size (devs w') <= size (devs w))%nat /\
  (size (devs w') = size (devs w) -> forall x, is_Some (devs w !! x) -> is_Some (devs w' !! x)).
Proof.
  intros H. assert (dom (devs w') ⊆ dom (devs w)) as Hsub by (intros x; rewrite !elem_of_dom; apply H). rewrite <- !size_dom. split.
  - apply subseteq_size, Hsub.
  - intros Hsz x Hx. apply elem_of_dom. rewrite (set_subseteq_size_eq (dom (devs w')) (dom (devs w))); [apply elem_of_dom; done|done|lia].
Qed.

(** ** The loop *)

(** A device of the list is younger than the device of the list. *)
Lemma list_younger C G w k d v c : inv C G w -> devs w !! d = Some v -> c ∈ list_of k v -> (d < c)%nat /\ is_Some (devs w !! c).
Proof.
  intros H Hd Hc. destruct k; simpl in Hc.
  - destruct (proj2 (inv_source _ _ _ H d v Hd) c Hc) as (u & Hu & Ht). destruct (inv_target _ _ _ H c u d Hu Ht). eauto.
  - destruct (proj2 (inv_child _ _ _ H d v Hd) c Hc) as (u & Hu & Ht). destruct (inv_parent _ _ _ H c u d Hu Ht). eauto.
Qed.

Lemma list_nodup C G w k d v : inv C G w -> devs w !! d = Some v -> NoDup (list_of k v).
Proof. intros H Hd. destruct k; [apply (inv_source _ _ _ H d v Hd)|apply (inv_child _ _ _ H d v Hd)]. Qed.

(** It stays in the list as long as both live. *)
Lemma list_stays C G C' G' w w' k d c v v' : inv C G w -> inv C' G' w' -> later c w w' -> devs w !! d = Some v -> devs w' !! d = Some v' ->
  c ∈ list_of k v -> is_Some (devs w' !! c) -> c ∈ list_of k v'.
Proof.
  intros H H' Hl Hd Hd' Hc [u' Hu']. destruct k; simpl in *.
  - destruct (proj2 (inv_source _ _ _ H d v Hd) c Hc) as (u & Hu & Ht). destruct (later_flags _ _ _ Hl c u u' Hu Hu') as (_ & _ & _ & _ & E).
    rewrite <- E in Ht. destruct (inv_target _ _ _ H' c u' d Hu' Ht) as (_ & q & Hq & Hin & _). congruence.
  - destruct (proj2 (inv_child _ _ _ H d v Hd) c Hc) as (u & Hu & Ht). destruct (later_parent _ _ _ Hl c u u' Hu Hu') as [E|(p & Hp & Hn)]; [|congruence].
    rewrite <- E in Ht. destruct (inv_parent _ _ _ H' c u' d Hu' Ht) as (_ & q & Hq & Hin). congruence.
Qed.

(** The list when the reference of one of its devices is dropped. *)
Lemma put_list C G w w' k d c v u l1 l2 : inv C G w -> devs w !! d = Some v -> devs w !! c = Some u -> list_of k v = l1 ++ c :: l2 ->
  (devs w' = <[c := set_refcount (refcount u - 1) u]> (devs w) \/ devs w' = freed w c u) ->
  exists v' l', devs w' !! d = Some v' /\ list_of k v' = l1 ++ l' /\ (forall x, head l2 = Some x -> x ∈ l') /\
    (devs w' = freed w c u -> k = SOURCES -> l' = l2).
Proof.
  intros H Hd Hc El Hw'. destruct (list_younger _ _ _ k d v c H Hd) as [Hlt _]; [rewrite El; apply elem_of_app; right; left|].
  pose proof (list_nodup _ _ _ k d v H Hd) as Hnd. rewrite El in Hnd.
  assert (forall x, head l2 = Some x -> x ∈ l2) as Hh by (intros x; destruct l2; [done|intros [= ->]; left]).
  assert (d <> c) as Hne by lia. destruct Hw' as [-> | ->].
  { exists v, (c :: l2). rewrite lookup_insert_ne by done. split_and!; [done|done|right; auto|]. intros E. exfalso.
    assert (<[c := set_refcount (refcount u - 1) u]> (devs w) !! c = freed w c u !! c) as E' by (rewrite E; done).
    unfold freed in E'. rewrite lookup_insert_eq, lookup_delete_eq in E'. done. }
  exists (unlinked c u d v). rewrite (freed_some w c u d v Hd Hne). destruct k; simpl in *.
  - assert (target u = Some d) as ->.
    { destruct (proj2 (inv_source _ _ _ H d v Hd) c) as (q & Hq & Ht); [rewrite El; apply elem_of_app; right; left|]. congruence. }
    rewrite bool_decide_eq_true_2 by done. exists l2. rewrite El, list_del_split by done. done.
  - assert (parent u = Some d) as ->.
    { destruct (proj2 (inv_child _ _ _ H d v Hd) c) as (q & Hq & Ht); [rewrite El; apply elem_of_app; right; left|]. congruence. }
    rewrite bool_decide_eq_true_2 by done. exists (l2 ++ child_list u). rewrite El, list_del_split, <- app_assoc by done. split_and!; [done|done| |done]. intros x Hx. apply elem_of_app. auto.
Qed.

(** One turn: the device [c] of the list is held, visited and let go; what follows it in
    the list comes next. *)
Lemma turn_spec C G w k a d c v l1 l2 Q : a <> ENABLE -> (forall c, (d < c)%nat -> good c) -> inv C G w -> bounded N w -> (forall x, (d < x)%nat -> G x = 0%nat) ->
  devs w !! d = Some v -> list_of k v = l1 ++ c :: l2 ->
  (forall w' v' next, inv C G w' -> later (S d) w w' -> devs w' !! d = Some v' -> (forall c', next = Some c' -> c' ∈ list_of k v') ->
     (size (devs w') = size (devs w) -> list_of k v' = list_of k v /\ next = head l2) ->
     (k = SOURCES -> a = CLOSE -> (size (devs w') < size (devs w))%nat /\ (l1 = [] -> next = head (source_list v'))) ->
     wp (fun r => r (Each k a d next) w') Q) ->
  wp (fun r => r (Each k a d (Some c)) w) Q.
Proof.
  intros Ha Hgood H Hb HG Hd El Hnext.
  assert (c ∈ list_of k v) as Hin by (rewrite El; apply elem_of_app; right; left).
  destruct (list_younger _ _ _ k d v c H Hd Hin) as [Hlt [u Hu]].
  apply wp_task. cbn [body]. unfold for_each_dev_get.
  destruct (get_inv C G w c u H Hu) as (w1 & -> & H1 & Hl1 & Hu1). cbn [mbind res_bind].
  eapply wp_then; [apply (act_spec C G k a d c w1 Ha (Hgood c Hlt) H1 (later_bounded _ _ _ _ Hl1 Hb)); intros; apply HG; lia|]. intros w2 (H2 & Hl2 & Hcl).
  assert (later c w w2) as Hl by (eapply later_trans; eassumption).
  destruct (later_core _ _ _ Hl d v Hlt Hd) as (v2 & Hd2 & _).
  destruct (inv_held _ _ _ H2 c) as [u2 Hu2]; [rewrite hold_eq; lia|].
  unfold deref. rewrite Hd2, Hu2. cbn [of_option mbind res_bind].
  assert (c ∈ list_of k v2) as Hin2 by (eapply (list_stays C G C (hold G c) w w2 k d c); eauto).
  destruct (list_elem_of_split _ _ Hin2) as (l1' & l2' & El2).
  pose proof (list_nodup _ _ _ k d v2 H2 Hd2) as Hnd2. rewrite El2 in Hnd2 |- *.
  assert (c ∉ l1') as Hc1 by (apply list.NoDup_app in Hnd2 as (_ & Hdis & _); intros Hc; apply (Hdis c Hc); left).
  rewrite list_next_entry_split by done.
  destruct (put_inv C G w2 c u2 H2 Hu2) as (b & w3 & -> & H3 & Hl3 & Hput & _); [intros Hc; apply (inv_closing _ _ _ H c Hc)|]. cbn [mbind res_bind].
  destruct (put_list C (hold G c) w2 w3 k d c v2 u2 l1' l2' H2 Hd2 Hu2 El2) as (v3 & l' & Hd3 & El3 & Hhead & Hfreed); [naive_solver|].
  assert (later c w w3) as Hl' by (eapply later_trans; eassumption).
  eapply (Hnext w3 v3); try done.
  - eapply later_weaken; [|exact Hl']. lia.
  - intros c' Hc'. rewrite El3. apply elem_of_app. auto.
  - intros Hsz. destruct (later_size _ _ _ Hl) as [Hs1 Hs1'], (later_size _ _ _ Hl3) as [Hs2 Hs2'].
    assert (list_of k v2 = list_of k v) as E2.
    { destruct (later_same _ _ _ Hl (Hs1' ltac:(lia)) d v v2 Hd Hd2) as [E2 E2']. destruct k; done. }
    assert (list_of k v3 = list_of k v2) as E3.
    { destruct (later_same _ _ _ Hl3 (Hs2' ltac:(lia)) d v2 v3 Hd2 Hd3) as [E3 E3']. destruct k; done. }
    split; [congruence|]. rewrite El2, El in E2. apply split_at_unique in E2 as [_ ->]; [done|done|]. pose proof (list_nodup _ _ _ k d v H Hd) as Hnd. rewrite El in Hnd.
    apply list.NoDup_app in Hnd as (_ & Hdis & _). intros Hc. apply (Hdis c Hc). left.
  - intros -> ->. pose proof (Hcl eq_refl eq_refl u2 Hu2) as Hi. destruct (inv_ref _ _ _ H2 c u2 Hu2) as [Hr _].
    rewrite Hi, hold_eq, (HG c Hlt) in Hr. destruct Hput as [[? _]|[_ Ew3]]; [lia|]. split.
    + destruct (later_size _ _ _ Hl') as [Hs Hs']. destruct (decide (size (devs w3) = size (devs w))) as [E|E]; [|lia].
      destruct (Hs' E c) as [q Hq]; [eauto|]. rewrite Ew3 in Hq. apply freed_lookup in Hq as [? _]. done.
    + intros ->. simpl in El, El2, El3. pose proof (later_source _ _ _ Hl d v v2 Hd Hd2) as Hsub. rewrite El, El2 in Hsub.
      pose proof (list_nodup _ _ _ SOURCES d v H Hd) as Hnd. simpl in Hnd. rewrite El in Hnd. apply list.NoDup_cons in Hnd as [Hc _].
      rewrite El3, (Hfreed Ew3 eq_refl), (sublist_first c l2 l1' l2') by done. done.
Qed.

(** Enough turns for the devices and what is left of the list. *)
Lemma each_spec k a d : a <> ENABLE -> (forall c, (d < c)%nat -> good c) -> forall sz n C G w v tmp, (size (devs w) <= sz)%nat -> inv C G w -> bounded N w ->
  (forall x, (d < x)%nat -> G x = 0%nat) -> devs w !! d = Some v ->
  (forall c, tmp = Some c -> exists l1 l2, list_of k v = l1 ++ c :: l2 /\ (length l2 < n)%nat) ->
  wp (fun r => r (Each k a d tmp) w) (fun w' => inv C G w' /\ later (S d) w w' /\
    (k = SOURCES -> a = CLOSE -> tmp = head (source_list v) -> forall v', devs w' !! d = Some v' -> source_list v' = [])).
Proof.
  intros Ha Hgood. induction sz as [sz IHsz] using (well_founded_induction lt_wf). induction n as [|n IHn]; intros C G w v tmp Hsz H Hb HG Hd Htmp.
  - destruct tmp as [c|]; [destruct (Htmp c eq_refl) as (l1 & l2 & _ & Hn); lia|]. apply wp_task. cbn [body for_each_dev_get].
    apply wp_ok. split_and!; [done|apply later_refl|]. intros _ _ Hh v' Hv'. destruct (source_list v) eqn:E; [|done]. congruence.
  - destruct tmp as [c|].
    2: { apply wp_task. cbn [body for_each_dev_get]. apply wp_ok. split_and!; [done|apply later_refl|]. intros _ _ Hh v' Hv'.
         destruct (source_list v) eqn:E; [|done]. congruence. }
    destruct (Htmp c eq_refl) as (l1 & l2 & El & Hlen). eapply (turn_spec C G w k a d c v l1 l2); try done.
    intros w' v' next H' Hl Hd' Hin Hsame Hclose.
    assert (wp (fun r => r (Each k a d next) w') (fun w'' => inv C G w'' /\ later (S d) w' w'' /\
      (k = SOURCES -> a = CLOSE -> next = head (source_list v') -> forall v'', devs w'' !! d = Some v'' -> source_list v'' = []))) as Hrest.
    { pose proof (later_bounded _ _ _ _ Hl Hb) as Hb'. destruct (later_size _ _ _ Hl) as [Hle _]. destruct (decide (size (devs w') = size (devs w))) as [E|E].
      - destruct (Hsame E) as [El' ->]. apply (IHn C G w' v'); try done; [lia|]. intros c' Hc'. destruct l2 as [|y l2]; [done|]. injection Hc' as ->.
        exists (l1 ++ [c]), l2. rewrite El', El, <- app_assoc. simpl in *. split; [done|lia].
      - apply (IHsz (size (devs w')) ltac:(lia) (S (length (list_of k v'))) C G w' v'); try done. intros c' Hc'.
        destruct (list_elem_of_split _ _ (Hin c' Hc')) as (m1 & m2 & Em). exists m1, m2. split; [done|]. rewrite Em, length_app. simpl. lia. }
    eapply wp_weaken; [exact Hrest|]. intros w'' (H'' & Hl'' & Hend). split_and!; [done|eapply later_trans; eassumption|].
    intros Ek Ea Hh v'' Hv''. destruct (Hclose Ek Ea) as [_ Hfirst]. apply (Hend Ek Ea); [|done]. apply Hfirst.
    subst k. pose proof (list_nodup _ _ _ SOURCES d v H Hd) as Hnd. simpl in *. rewrite El in Hh, Hnd. destruct l1 as [|x l1]; [done|].
    injection Hh as <-. simpl in Hnd. apply list.NoDup_cons in Hnd as [Hx _]. destruct Hx. apply elem_of_app. right. left.
Qed.

(** From the head of the list. *)
Lemma each_head C G w k a d v : a <> ENABLE -> (forall c, (d < c)%nat -> good c) -> inv C G w -> bounded N w -> (forall x, (d < x)%nat -> G x = 0%nat) ->
  devs w !! d = Some v ->
  wp (fun r => r (Each k a d (head (list_of k v))) w) (fun w' => inv C G w' /\ later (S d) w w' /\
    (k = SOURCES -> a = CLOSE -> forall v', devs w' !! d = Some v' -> source_list v' = [])).
Proof.
  intros Ha Hgood H Hb HG Hd.
  eapply wp_weaken; [eapply (each_spec k a d Ha Hgood (size (devs w)) (S (length (list_of k v))) C G w v); try done|].
  - intros c Hc. destruct (list_of k v) as [|y l]; [done|]. injection Hc as ->. exists [], l. split; [done|simpl; lia].
  - intros w' (H' & Hl & Hend). split_and!; [done|done|]. intros -> ->. apply Hend; done.
Qed.

End Loop.

End ProfDevLoop.
