(* ===== verification/ProfDevLevel.v ===== *)
(** * Devices: the calls on one device

    Disabling, closing, flushing and the handling of records of a device, which call
    each other, with calls on younger devices in the loops: each keeps the invariant
    and returns. Closing sets [inclose], disabling leaves [ACTIVE], flushing sets
    [inflush] and handling takes a record, so that the calls on the same device end. *)

From S2P Require Import Prelude ProfDev ProfDevProof ProfDevLoop.

Module ProfDevLevel.

Import ProfDev ProfDevProof ProfDevLoop.

(** What the calls on the device itself use up. *)
Definition measure (v : prof_dev) : nat :=
  (if inclose v then 0 else 1) + (if decide (state v = ACTIVE) then 1 else 0) + (if inflush v then 0 else 1) + length (ring v).

Lemma later_measure d w w' x v v' : later d w w' -> devs w !! x = Some v -> devs w' !! x = Some v' -> (measure v' <= measure v)%nat.
Proof.
  intros Hl Hv Hv'. destruct (later_flags _ _ _ Hl x v v' Hv Hv') as (H1 & H2 & H3 & H4 & _). unfold measure. rewrite H3.
  destruct (inclose v), (inclose v'), (decide (state v = ACTIVE)), (decide (state v' = ACTIVE)); try lia; naive_solver.
Qed.

(** ** Steps *)

(** A device that is held, after the reference is dropped. *)
Lemma put_held C G w d : inv C (hold G d) w -> (C d -> (0 < G d)%nat) -> exists b w', prof_dev_put d w = Ok (b, w') /\ inv C G w' /\ later d w w'.
Proof.
  intros H HC. destruct (inv_held _ _ _ H d) as [v Hv]; [rewrite hold_eq; lia|].
  destruct (put_inv C G w d v H Hv HC) as (b & w' & ? & ? & ? & _). eauto.
Qed.

(** The loop over younger devices leaves the device. *)
Lemma later_self d w w' v : later (S d) w w' -> devs w !! d = Some v ->
  exists v', devs w' !! d = Some v' /\ state v' = state v /\ inclose v' = inclose v /\ source_list v' `sublist_of` source_list v.
Proof.
  intros Hl Hv. destruct (later_core _ _ _ Hl d v) as (v' & Hv' & E); [lia|done|]. exists v'. split; [done|].
  split; [apply (f_equal state) in E; done|]. split; [apply (f_equal inclose) in E; done|]. apply (later_source _ _ _ Hl d); done.
Qed.

(** The counts of events. *)
Lemma inv_counts C G w d v n s f : inv C G w -> devs w !! d = Some v -> counted (set_counts n s f v) ->
  inv C G (set_devs w (<[d := set_counts n s f v]> (devs w))).
Proof. intros H Hd Hc. eapply (inv_set C G w d v); try done. Qed.

Lemma later_counts d x w v n s : devs w !! x = Some v -> later d w (set_devs w (<[x := set_counts n s (forwarded v) v]> (devs w))).
Proof.
  intros Hx. pose proof (later_update w x v (set_counts n s (forwarded v) v) Hx) as Hl.
  specialize (Hl ltac:(repeat split; done) ltac:(done) ltac:(done) eq_refl ltac:(simpl; lia)). destruct Hl. split; try done.
  simpl. intros y u Hy Hu. destruct (decide (y = x)) as [->|Hne]; [rewrite lookup_insert_eq; eexists; split; [done|]; simplify_eq; done|].
  rewrite lookup_insert_ne by done. eauto.
Qed.

(** An active device becomes inactive. *)
Lemma stop_inv C G w d v : inv C G w -> devs w !! d = Some v -> state v = ACTIVE ->
  inv C G (run_less v (set_devs w (<[d := set_state INACTIVE v]> (devs w)))).
Proof.
  intros H Hd Hs. assert (devs (run_less v (set_devs w (<[d := set_state INACTIVE v]> (devs w)))) = <[d := set_state INACTIVE v]> (devs w)) as E.
  { unfold run_less. case_match; done. }
  destruct (inv_ref _ _ _ H d v Hd) as [E1 E2].
  eapply (inv_update C C G G w _ d v (set_state INACTIVE v)); try done; [|apply (inv_count _ _ _ H d v Hd)|apply (inv_closing _ _ _ H)|].
  - rewrite (active_switch w _ d v _ Hd E). pose proof (inv_running _ _ _ H) as Hr. pose proof (active_elem w d v Hd) as Hin.
    unfold run_less, active in *. rewrite Hs in Hin. simpl in *. destruct (normal v); simpl in *.
    + assert (d ∈ active_set w) as Hd' by (apply Hin; done). assert (size (active_set w) <> 0%nat) as Hne.
      { intros Hz. apply size_empty_inv in Hz. set_solver. }
      destruct (Z.ltb_spec 0 (running w)); [|lia]. simpl. rewrite size_difference, size_singleton by set_solver. lia.
    + replace (active_set w ∖ {[d]}) with (active_set w); [done|]. set_solver.
  - intros Hi HnC. exfalso. destruct (inv_closed _ _ _ H d v Hd Hi HnC). congruence.
Qed.

(** The call that closes has the sources gone. *)
Lemma inv_unclose C C' G w d v : inv C' G w -> devs w !! d = Some v -> source_list v = [] -> state v = EXIT ->
  (forall x, x <> d -> C' x -> C x) -> (forall x, C x -> (0 < G x)%nat) -> inv C G w.
Proof.
  intros H Hd Hso Hst HC HG. destruct H. split; try done. intros x u Hu Hi Hn. destruct (decide (x = d)) as [->|Hne]; [simplify_eq; done|].
  apply (inv_closed0 x u Hu Hi). auto.
Qed.

Lemma later_ext d w w' w'' : devs w'' = devs w' -> later d w w' -> later d w w''.
Proof. intros E []. split; rewrite ?E; done. Qed.

(** [inflush] around other calls. *)
Lemma later_around d w1 w2 w4 w5 v1 v4 : devs w1 !! d = Some v1 -> devs w2 = <[d := set_inflush true v1]> (devs w1) -> later d w2 w4 ->
  devs w4 !! d = Some v4 -> devs w5 = <[d := set_inflush false v4]> (devs w4) -> inflush v1 = false -> later d w1 w5.
Proof.
  intros H1 E2 Hl H4 E5 Hf.
  assert (forall x, is_Some (devs w1 !! x) <-> is_Some (devs w2 !! x)) as Hdom.
  { intros x. rewrite E2. destruct (decide (x = d)) as [->|Hne]; [rewrite lookup_insert_eq, H1; split; eauto|rewrite lookup_insert_ne by done; done]. }
  assert (forall x, is_Some (devs w4 !! x) <-> is_Some (devs w5 !! x)) as Hdom'.
  { intros x. rewrite E5. destruct (decide (x = d)) as [->|Hne]; [rewrite lookup_insert_eq, H4; split; eauto|rewrite lookup_insert_ne by done; done]. }
  assert (forall x v v', devs w1 !! x = Some v -> devs w5 !! x = Some v' -> exists u u', devs w2 !! x = Some u /\ devs w4 !! x = Some u' /\
    u = (if decide (x = d) then set_inflush true v else v) /\ v' = (if decide (x = d) then set_inflush false u' else u') /\ (x = d -> inflush v = false)) as Hcase.
  { intros x v v' Hv. rewrite E2, E5. destruct (decide (x = d)) as [->|Hne].
    - rewrite !lookup_insert_eq. intros [= <-]. exists (set_inflush true v), v4. naive_solver.
    - rewrite !lookup_insert_ne by done. intros Hv'. exists v, v'. naive_solver. }
  split.
  - intros x v Hx Hv. destruct (later_core _ _ _ Hl x v Hx) as (v' & Hv' & E); [rewrite E2, lookup_insert_ne by lia; done|].
    exists v'. rewrite E5, lookup_insert_ne by lia. done.
  - intros x Hx. apply Hdom, (later_live _ _ _ Hl), Hdom', Hx.
  - intros x v v' Hv Hv'. destruct (Hcase x v v' Hv Hv') as (u & u' & Hu & Hu' & -> & -> & _). pose proof (later_source _ _ _ Hl x _ _ Hu Hu').
    destruct (decide (x = d)); done.
  - intros Hall x v v' Hv Hv'. destruct (Hcase x v v' Hv Hv') as (u & u' & Hu & Hu' & -> & -> & _).
    pose proof (later_same _ _ _ Hl (fun y Hy => proj2 (Hdom' y) (Hall y (proj2 (Hdom y) Hy))) x _ _ Hu Hu'). destruct (decide (x = d)); done.
  - intros x v v' Hv Hv'. destruct (Hcase x v v' Hv Hv') as (u & u' & Hu & Hu' & -> & -> & Hi).
    pose proof (later_flags _ _ _ Hl x _ _ Hu Hu') as (F1 & F2 & F3 & F4 & F5). destruct (decide (x = d)) as [->|Hne]; [|done].
    simpl in *. rewrite Hi by done. done.
  - intros x v v' Hv Hv'. destruct (Hcase x v v' Hv Hv') as (u & u' & Hu & Hu' & -> & -> & _).
    destruct (later_parent _ _ _ Hl x _ _ Hu Hu') as [E|(p & Hp & Hn)]; [left; destruct (decide (x = d)); done|]. right. exists p.
    split; [destruct (decide (x = d)); done|]. destruct (devs w5 !! p) eqn:Ep; [|done]. destruct (proj2 (Hdom' p)) as [q Hq]; [eauto|]. congruence.
Qed.

(** ** The calls on a device *)

Section Level.
Context (N d : nat) (Hup : forall c, (d < c)%nat -> good N c).

(** A call on [d] that uses up to [n]; [held]: the caller has a reference. *)
Definition level (n : nat) (held : Prop) (t : task) (P : world -> Prop) : Prop := forall C G w v,
  inv C G w -> bounded N w -> devs w !! d = Some v -> (measure v <= n)%nat -> (forall x, (d < x)%nat -> G x = 0%nat) -> (held -> (0 < G d)%nat) ->
  wp (fun r => r t w) (fun w' => inv C G w' /\ later d w w' /\ P w').

(** The device is not active. *)
Definition stopped (w : world) : Prop := forall v, devs w !! d = Some v -> state v <> ACTIVE.

Lemma hold_above G : (forall x, (d < x)%nat -> G x = 0%nat) -> forall x, (d < x)%nat -> hold G d x = 0%nat.
Proof using. intros HG x Hx. rewrite hold_ne by lia. auto. Qed.

Lemma later_stopped w w' : later d w w' -> stopped w -> stopped w'.
Proof using.
  intros Hl Hs v' Hv' E. destruct (later_live _ _ _ Hl d) as [v Hv]; [eauto|].
  apply (Hs v Hv), (later_flags _ _ _ Hl d v v' Hv Hv'), E.
Qed.

Lemma later_closing w w' : later d w w' -> closing d w -> closing d w'.
Proof using.
  intros Hl Hs v' Hv'. destruct (later_live _ _ _ Hl d) as [v Hv]; [eauto|].
  apply (later_flags _ _ _ Hl d v v' Hv Hv'), (Hs v Hv).
Qed.

Lemma later_up w w' : later (S d) w w' -> later d w w'.
Proof using. apply later_weaken. lia. Qed.

(** Its beginning. *)
Lemma disable_start C G w v : inv C G w -> devs w !! d = Some v -> state v = ACTIVE ->
  exists w1 w2 v2, prof_dev_get d w = Ok (true, w1) /\ update (set_state INACTIVE) d w1 = Ok w2 /\ inv C (hold G d) (run_less v w2) /\
    later d w (run_less v w2) /\ devs (run_less v w2) !! d = Some v2 /\ source_list v2 = source_list v /\ state v2 = INACTIVE /\ (measure v2 < measure v)%nat.
Proof using.
  intros H Hd Hact. destruct (get_inv C G w d v H Hd) as (w1 & Hget & H1 & Hl1 & Hd1). set (v1 := set_refcount (refcount v + 1) v) in *.
  exists w1, (set_devs w1 (<[d := set_state INACTIVE v1]> (devs w1))), (set_state INACTIVE v1).
  assert (devs (run_less v (set_devs w1 (<[d := set_state INACTIVE v1]> (devs w1)))) = <[d := set_state INACTIVE v1]> (devs w1)) as E2.
  { unfold run_less. case_match; done. }
  split; [done|]. split; [unfold update, deref; rewrite Hd1; done|]. split; [apply (stop_inv C (hold G d) w1 d v1 H1 Hd1 Hact)|]. split.
  - eapply later_trans; [exact Hl1|]. apply (later_ext d w1 (set_devs w1 (<[d := set_state INACTIVE v1]> (devs w1)))); [exact E2|]. apply (later_update w1 d v1); done.
  - rewrite E2, lookup_insert_eq. split_and!; [done|done|done|]. unfold measure. simpl. rewrite Hact. simpl. lia.
Qed.

Lemma disable_level n : (forall n', (n' < n)%nat -> level n' False (Flush d FLUSH_FINAL) (fun _ => True)) -> level n False (Disable d) stopped.
Proof using Hup.
  intros Hflush C G w v H Hb Hd Hn HG _. apply wp_task. cbn [body]. unfold prof_dev_disable, deref. rewrite Hd. cbn [of_option mbind res_bind].
  case_bool_decide as Hs; [apply wp_ok; split_and!; [done|apply later_refl|]; intros v' Hv'; congruence|].
  destruct (disable_start C G w v H Hd) as (w1 & w1' & v2 & -> & Hup1 & H2 & L2 & Hd2 & Eso & Est & Hm); [destruct (state v); naive_solver|].
  cbn [mbind res_bind]. rewrite Hup1. cbn [mbind res_bind]. set (w2 := run_less v w1') in *. rewrite <- Eso.
  assert (stopped w2) as Hst2 by (intros u Hu; rewrite Hd2 in Hu; injection Hu as <-; congruence).
  eapply wp_then; [apply (each_head N C (hold G d) w2 SOURCES DISABLE d v2); try done;
    [exact (later_bounded _ _ _ _ L2 Hb)|apply hold_above, HG]|]. intros w3 (H3 & Hl3 & _).
  destruct (later_self d w2 w3 _ Hl3 Hd2) as (v3 & Hd3 & _). rewrite Hd3. cbn [of_option mbind res_bind].
  assert (later d w w3) as L3 by (eapply later_trans; [exact L2|apply later_up, Hl3]).
  eapply wp_then; [apply (each_head N C (hold G d) w3 CHILDREN DISABLE d v3); try done;
    [exact (later_bounded _ _ _ _ L3 Hb)|apply hold_above, HG]|]. intros w4 (H4 & Hl4 & _).
  destruct (later_self d w3 w4 _ Hl4 Hd3) as (v4 & Hd4 & _).
  pose proof (later_trans _ _ _ _ (later_up _ _ Hl3) (later_up _ _ Hl4)) as L24.
  pose proof (later_trans _ _ _ _ L2 L24) as L4.
  eapply wp_then; [eapply (Hflush (measure v4)); [|exact H4|exact (later_bounded _ _ _ _ L4 Hb)|exact Hd4|lia|apply hold_above, HG|done]|].
  { pose proof (later_measure d w2 w4 d _ _ L24 Hd2 Hd4). lia. }
  intros w5 (H5 & Hl5 & _). destruct (put_held C G w5 d H5) as (b & w6 & -> & H6 & Hl6); [apply (inv_closing _ _ _ H)|]. cbn [mbind res_bind].
  pose proof (later_trans _ _ _ _ Hl5 Hl6) as L46. apply wp_ok. split_and!; [done|exact (later_trans _ _ _ _ L4 L46)|]. eapply later_stopped; [exact L46|]. eapply later_stopped; [exact L24|done].
Qed.

(** The device is marked: the caller's call has the first reference. *)
Lemma close_start C G w v : inv C G w -> devs w !! d = Some v -> inclose v = false ->
  exists w1 v1, update set_inclose d w = Ok w1 /\ inv (fun x => C x \/ x = d) (hold G d) w1 /\ later d w w1 /\
    devs w1 !! d = Some v1 /\ closing d w1 /\ (measure v1 < measure v)%nat.
Proof using.
  intros H Hd Hi. destruct (inv_ref _ _ _ H d v Hd) as [E1 E2]. rewrite Hi in E1.
  exists (set_devs w (<[d := set_inclose v]> (devs w))), (set_inclose v). split; [unfold update, deref; rewrite Hd; done|]. split_and!.
  - eapply (inv_update C (fun x => C x \/ x = d) G (hold G d) w _ d v); try done; simpl.
    + erewrite (active_insert w _ d v); [apply H|done|done|done].
    + apply (inv_count _ _ _ H d v Hd).
    + rewrite hold_eq. lia.
    + intros x Hx. rewrite hold_ne by done. naive_solver.
    + rewrite hold_eq. lia.
    + intros _ Hn. exfalso. auto.
  - apply (later_update w d v); done.
  - apply lookup_insert_eq.
  - intros u Hu. simpl in Hu. rewrite lookup_insert_eq in Hu. injection Hu as <-. done.
  - unfold measure. simpl. rewrite Hi. lia.
Qed.

(** The state after the device is disabled. *)
Lemma exit_step C G w v : inv C G w -> devs w !! d = Some v -> inclose v = true -> C d -> state v <> ACTIVE ->
  exists w1 v1, update (set_state EXIT) d w = Ok w1 /\ inv C G w1 /\ later d w w1 /\ devs w1 !! d = Some v1 /\ state v1 = EXIT /\ inclose v1 = true.
Proof using.
  intros H Hd Hi HC Hs. destruct (inv_ref _ _ _ H d v Hd) as [E1 E2].
  exists (set_devs w (<[d := set_state EXIT v]> (devs w))), (set_state EXIT v). split; [unfold update, deref; rewrite Hd; done|]. split_and!; try done.
  - eapply (inv_update C C G G w _ d v); try done; simpl.
    + erewrite (active_insert w _ d v); [apply H|done|done|]. unfold active. simpl. rewrite !bool_decide_eq_false_2 by done. done.
    + apply (inv_count _ _ _ H d v Hd).
    + intros _. apply (inv_closing _ _ _ H d HC).
  - apply (later_update w d v); done.
  - apply lookup_insert_eq.
Qed.

Lemma close_level n : (forall n', (n' < n)%nat -> level n' False (Disable d) stopped) -> level n False (Close d) (closing d).
Proof using Hup.
  intros Hdis C G w v H Hb Hd Hn HG _. apply wp_task. cbn [body]. unfold prof_dev_close, deref. rewrite Hd. cbn [of_option mbind res_bind].
  destruct (inclose v) eqn:Hi; [apply wp_ok; split_and!; [done|apply later_refl|]; intros v' Hv'; congruence|].
  destruct (close_start C G w v H Hd Hi) as (w1 & v1 & -> & H1 & L1 & Hd1 & Hc1 & Hm). cbn [mbind res_bind].
  set (C' := fun x => C x \/ x = d) in *.
  eapply wp_then; [eapply (Hdis (measure v1)); [lia|exact H1|exact (later_bounded _ _ _ _ L1 Hb)|exact Hd1|done|apply hold_above, HG|done]|].
  intros w2 (H2 & Hl2 & Hst2). pose proof (later_trans _ _ _ _ L1 Hl2) as L2. destruct (inv_held _ _ _ H2 d) as [v2 Hd2]; [rewrite hold_eq; lia|].
  destruct (exit_step C' (hold G d) w2 v2 H2 Hd2) as (w3 & v3 & -> & H3 & Hl3 & Hd3 & Hs3 & Hi3);
    [apply (later_closing _ _ Hl2 Hc1 v2 Hd2)|right; done|apply (Hst2 v2 Hd2)|]. cbn [mbind res_bind].
  pose proof (later_trans _ _ _ _ L2 Hl3) as L3. rewrite Hd3. cbn [of_option mbind res_bind].
  eapply wp_then; [apply (each_head N C' (hold G d) w3 SOURCES CLOSE d v3); try done;
    [exact (later_bounded _ _ _ _ L3 Hb)|apply hold_above, HG]|]. intros w4 (H4 & Hl4 & Hso). specialize (Hso eq_refl eq_refl).
  destruct (later_self d w3 w4 _ Hl4 Hd3) as (v4 & Hd4 & Hs4 & _). rewrite Hd4. cbn [of_option mbind res_bind].
  pose proof (later_trans _ _ _ _ L3 (later_up _ _ Hl4)) as L4.
  eapply wp_then; [apply (each_head N C' (hold G d) w4 CHILDREN CLOSE d v4); try done;
    [exact (later_bounded _ _ _ _ L4 Hb)|apply hold_above, HG]|]. intros w5 (H5 & Hl5 & _).
  destruct (later_self d w4 w5 _ Hl5 Hd4) as (v5 & Hd5 & Hs5 & _ & Hsub). rewrite (Hso v4 Hd4) in Hsub. apply sublist_nil_r in Hsub.
  assert (inv C (hold G d) w5) as H5'.
  { eapply (inv_unclose C C'); [exact H5|exact Hd5|done|congruence|unfold C'; naive_solver|]. intros x Hx. apply (inv_closing _ _ _ H5). left. done. }
  destruct (put_held C G w5 d H5') as (b & w6 & -> & H6 & Hl6); [apply (inv_closing _ _ _ H)|]. cbn [mbind res_bind].
  pose proof (later_trans _ _ _ _ (later_up _ _ Hl5) Hl6) as L46. pose proof (later_trans _ _ _ _ L4 L46) as L6.
  apply wp_ok. split_and!; [done|done|]. eapply later_closing; [exact L46|]. eapply later_closing; [apply later_up, Hl4|].
  intros u Hu. congruence.
Qed.

(** [inflush] is set. *)
Lemma flush_mark C G w v b : inv C G w -> devs w !! d = Some v ->
  update (set_inflush b) d w = Ok (set_devs w (<[d := set_inflush b v]> (devs w))) /\ inv C G (set_devs w (<[d := set_inflush b v]> (devs w))).
Proof using.
  intros H Hd. split; [unfold update, deref; rewrite Hd; done|]. eapply (inv_set C G w d v); try done. apply (inv_count _ _ _ H d v Hd).
Qed.

Lemma flush_level n how : (forall n', (n' < n)%nat -> level n' True (Handle d) (fun _ => True)) -> level n False (Flush d how) (fun _ => True).
Proof using Hup.
  intros Hhandle C G w v H Hb Hd Hn HG _. apply wp_task. cbn [body]. unfold prof_dev_flush, deref. rewrite Hd. cbn [of_option mbind res_bind].
  destruct (inflush v) eqn:Hi; [apply wp_ok; split_and!; [done|apply later_refl|done]|].
  destruct (get_inv C G w d v H Hd) as (w1 & -> & H1 & L1 & Hd1). cbn [mbind res_bind]. set (v1 := set_refcount (refcount v + 1) v) in *.
  destruct (flush_mark C (hold G d) w1 v1 true H1 Hd1) as [-> H2]. cbn [mbind res_bind]. set (w2 := set_devs w1 (<[d := set_inflush true v1]> (devs w1))) in *.
  assert (devs w2 !! d = Some (set_inflush true v1)) as Hd2 by apply lookup_insert_eq.
  assert (bounded N w2) as Hb2.
  { intros x Hx. apply (later_bounded _ _ _ _ L1 Hb). unfold w2 in Hx. simpl in Hx. destruct (decide (x = d)) as [->|Hne]; [eauto|].
    rewrite lookup_insert_ne in Hx by done. done. }
  eapply wp_then; [eapply (Hhandle (measure (set_inflush true v1)));
    [unfold measure in *; simpl in *; rewrite Hi in Hn; lia|exact H2|exact Hb2|exact Hd2|done|apply hold_above, HG|intros _; rewrite hold_eq; lia]|].
  intros w3 (H3 & Hl3 & _). destruct (inv_held _ _ _ H3 d) as [v3 Hd3]; [rewrite hold_eq; lia|].
  eapply (wp_then _ _ (fun w4 => inv C (hold G d) w4 /\ later d w2 w4)).
  { destruct how; [|apply wp_ok; done]. rewrite Hd3. cbn [of_option mbind res_bind].
    eapply wp_weaken; [apply (each_head N C (hold G d) w3 SOURCES (FLUSH FLUSH_NORMAL) d v3); try done;
      [exact (later_bounded _ _ _ _ Hl3 Hb2)|apply hold_above, HG]|]. intros w4 (H4 & Hl4 & _). split; [done|exact (later_trans _ _ _ _ Hl3 (later_up _ _ Hl4))]. }
  intros w4 [H4 Hl4]. destruct (inv_held _ _ _ H4 d) as [v4 Hd4]; [rewrite hold_eq; lia|].
  destruct (flush_mark C (hold G d) w4 v4 false H4 Hd4) as [-> H5]. cbn [mbind res_bind].
  pose proof (later_around d w1 w2 w4 (set_devs w4 (<[d := set_inflush false v4]> (devs w4))) v1 v4 Hd1 eq_refl Hl4 Hd4 eq_refl Hi) as L15.
  destruct (put_held C G _ d H5) as (b & w6 & -> & H6 & Hl6); [apply (inv_closing _ _ _ H)|]. cbn [mbind res_bind].
  apply wp_ok. split_and!; [done|exact (later_trans _ _ _ _ L1 (later_trans _ _ _ _ L15 Hl6))|done].
Qed.

Lemma handle_level n : (forall n' e, (n' < n)%nat -> level n' True (Process d e) (fun _ => True)) ->
  (forall n', (n' < n)%nat -> level n' True (Handle d) (fun _ => True)) -> level n True (Handle d) (fun _ => True).
Proof using.
  intros Hproc Hhandle C G w v H Hb Hd Hn HG Hheld. apply wp_task. cbn [body]. unfold handle_mmap, deref. rewrite Hd. cbn [of_option mbind res_bind].
  destruct (ring v) as [|e r] eqn:Er; [apply wp_ok; split_and!; [done|apply later_refl|done]|].
  unfold update, deref. rewrite Hd. cbn [of_option mbind res_bind].
  set (w1 := set_devs w (<[d := set_ring r v]> (devs w))).
  assert (inv C G w1) as H1 by (eapply (inv_set C G w d v); try done; apply (inv_count _ _ _ H d v Hd)).
  assert (later d w w1) as L1 by (apply (later_update w d v); try done; rewrite Er; simpl; lia).
  assert (devs w1 !! d = Some (set_ring r v)) as Hd1 by apply lookup_insert_eq.
  assert (measure (set_ring r v) < n)%nat as Hm by (unfold measure in *; simpl; rewrite Er in Hn; simpl in Hn; lia).
  eapply wp_then; [eapply (Hproc (measure (set_ring r v)) e Hm); [exact H1|exact (later_bounded _ _ _ _ L1 Hb)|exact Hd1|done|done|done]|].
  intros w2 (H2 & Hl2 & _). destruct (inv_held _ _ _ H2 d (Hheld I)) as [v2 Hd2]. pose proof (later_trans _ _ _ _ L1 Hl2) as L2.
  pose proof (later_measure d w1 w2 d _ _ Hl2 Hd1 Hd2) as Hm2.
  eapply wp_weaken; [eapply (Hhandle (measure v2)); [lia|exact H2|exact (later_bounded _ _ _ _ L2 Hb)|exact Hd2|done|done|done]|].
  intros w3 (H3 & Hl3 & _). split_and!; [done|exact (later_trans _ _ _ _ L2 Hl3)|done].
Qed.

(** *** Records *)

Section Process.
Context (n : nat) (Hclose : level n False (Close d) (closing d)).

(** The counts change, and the device may be closed. *)
Lemma counts_step C G w v m s f (b : bool) : inv C G w -> bounded N w -> devs w !! d = Some v -> (measure v <= n)%nat -> (forall x, (d < x)%nat -> G x = 0%nat) ->
  counted (set_counts m s f v) ->
  wp (fun r => update (set_counts m s f) d w ≫= fun w => if b then r (Close d) w else Ok w) (fun w' => inv C G w' /\ later d w w').
Proof using Hclose.
  intros H Hb Hd Hn HG Hc. unfold update, deref. rewrite Hd. cbn [of_option mbind res_bind].
  pose proof (inv_counts C G w d v m s f H Hd Hc) as H1. set (w1 := set_devs w (<[d := set_counts m s f v]> (devs w))) in *.
  assert (later d w w1) as L1 by (apply (later_update w d v); done).
  destruct b; [|apply wp_ok; done].
  eapply wp_weaken; [eapply (Hclose C G w1 (set_counts m s f v)); try done; [exact (later_bounded _ _ _ _ L1 Hb)|apply lookup_insert_eq]|].
  intros w2 (H2 & L2 & _). split; [done|exact (later_trans _ _ _ _ L1 L2)].
Qed.

Lemma update_step C G w v m s f : inv C G w -> devs w !! d = Some v -> counted (set_counts m s f v) ->
  exists w', update (set_counts m s f) d w = Ok w' /\ inv C G w' /\ later d w w' /\ devs w' !! d = Some (set_counts m s f v).
Proof using.
  intros H Hd Hc. unfold update, deref. rewrite Hd. eexists. split; [reflexivity|].
  split; [apply inv_counts; done|]. split; [apply (later_update w d v); done|apply lookup_insert_eq].
Qed.

Lemma sample_self C G w v raw e : inv C G w -> bounded N w -> devs w !! d = Some v -> (measure v <= n)%nat -> (forall x, (d < x)%nat -> G x = 0%nat) ->
  wp (fun r => process_sample r d raw e w) (fun w' => inv C G w' /\ later d w w').
Proof using Hclose.
  intros H Hb Hd Hn HG. pose proof (inv_count _ _ _ H d v Hd) as [Hx Hc]. unfold process_sample, deref. rewrite Hd. cbn [of_option mbind res_bind].
  set (m := if exit_n v =? 0 then sampled_events v else sampled_events v + 1).
  destruct ((exit_n v =? 0) || (m <=? exit_n v)) eqn:Em.
  - destruct ((raw && ftrace_filter v && negb (passed e)) || (e_time e <? enabled_after v)).
    + edestruct (update_step C G w v) as (w' & -> & ? & ? & _); [done|done| |apply wp_ok; done].
      unfold counted, m in *. simpl. destruct (Z.eqb_spec (exit_n v) 0); [lia|]. destruct (Z.ltb_spec 0 (sampled_events v + 1)); lia.
    + eapply counts_step; try done. unfold counted, m in *. simpl. destruct (Z.eqb_spec (exit_n v) 0); simpl in Em; lia.
  - eapply counts_step; try done. unfold counted, m in *. simpl. destruct (Z.eqb_spec (exit_n v) 0); simpl in Em; lia.
Qed.

Lemma unknown_self C G w v : inv C G w -> bounded N w -> devs w !! d = Some v -> (measure v <= n)%nat -> (forall x, (d < x)%nat -> G x = 0%nat) ->
  wp (fun r => process_unknown r d w) (fun w' => inv C G w' /\ later d w w').
Proof using Hclose.
  intros H Hb Hd Hn HG. pose proof (inv_count _ _ _ H d v Hd) as [Hx Hc]. unfold process_unknown, deref. rewrite Hd. cbn [of_option mbind res_bind].
  eapply counts_step; try done. unfold counted in *. simpl. destruct (Z.eqb_spec (exit_n v) 0); lia.
Qed.

(** A target without a limit takes the event. *)
Lemma sample_target C G w t u e : inv C G w -> devs w !! t = Some u -> exit_n u = 0 ->
  wp (fun r => process_sample r t false e w) (fun w' => inv C G w' /\ later d w w').
Proof using.
  intros H Ht Hx. unfold process_sample, update, deref. rewrite Ht. cbn [of_option mbind res_bind]. rewrite Hx. simpl.
  assert (forall m s, counted (set_counts m s (forwarded u) u)) as Hc by (intros; unfold counted; simpl; lia).
  case_match; apply wp_ok; (split; [apply inv_counts; auto|apply later_counts; done]).
Qed.

Lemma forward_self C G w v t e : inv C G w -> bounded N w -> devs w !! d = Some v -> (measure v <= n)%nat -> (forall x, (d < x)%nat -> G x = 0%nat) ->
  target v = Some t ->
  wp (fun r => perf_event_forward r d e w) (fun '(go, w') => inv C G w' /\ later d w w' /\ (go = true -> exists u, devs w' !! t = Some u /\ exit_n u = 0)).
Proof using Hclose.
  intros H Hb Hd Hn HG Ht. pose proof (inv_count _ _ _ H d v Hd) as [Hx Hc]. unfold perf_event_forward, deref. rewrite Hd. cbn [of_option mbind res_bind].
  assert (forall m s f, counted (set_counts m s f v) -> wp (fun _ => update (set_counts m s f) d w ≫= fun w => Ok (true, w))
    (fun '(go, w') => inv C G w' /\ later d w w' /\ (go = true -> exists u, devs w' !! t = Some u /\ exit_n u = 0))) as Hgo.
  { intros m s f Hm. destruct (update_step C G w v m s f H Hd Hm) as (w' & -> & H' & L' & Hd'). apply wp_ok. split_and!; [done|done|].
    intros _. destruct (inv_target _ _ _ H' d _ t Hd') as (_ & u & Hu & _ & Hxu); [done|]. eauto. }
  destruct (ftrace_filter v && negb (passed e)); [apply wp_ok; split_and!; [done|apply later_refl|done]|].
  destruct (e_time e <? enabled_after v); [apply wp_ok; split_and!; [done|apply later_refl|done]|].
  destruct (Z.eqb_spec (exit_n v) 0) as [E|E]; [apply Hgo; unfold counted; simpl; lia|].
  destruct (Z.ltb_spec (exit_n v) (sampled_events v + 1)) as [E'|E']; [|apply Hgo; unfold counted; simpl; lia].
  destruct (update_step C G w v (sampled_events v + 1) (samples v) (forwarded v) H Hd) as (w1 & -> & H1 & L1 & Hd1); [unfold counted; simpl; lia|].
  cbn [mbind res_bind]. eapply wp_then; [eapply (Hclose C G w1); try done; exact (later_bounded _ _ _ _ L1 Hb)|].
  intros w2 (H2 & L2 & _). apply wp_ok. split_and!; [done|exact (later_trans _ _ _ _ L1 L2)|done].
Qed.

Lemma process_level e : level n True (Process d e) (fun _ => True).
Proof using Hclose.
  intros C G w v H Hb Hd Hn HG _. apply wp_task. cbn [body]. unfold perf_event_process_record, deref. rewrite Hd. cbn [of_option mbind res_bind].
  assert (forall f, wp f (fun w' => inv C G w' /\ later d w w') -> wp f (fun w' => inv C G w' /\ later d w w' /\ True)) as Hweak.
  { intros f Hf. eapply wp_weaken; [exact Hf|naive_solver]. }
  destruct (e_type e); [destruct (target v) as [t|] eqn:Et| |].
  - apply Hweak. eapply wp_then; [eapply (forward_self C G w v t e); done|]. intros [go w1] (H1 & L1 & Hgo).
    destruct go; [|apply wp_ok; done]. destruct (Hgo eq_refl) as (u & Hu & Hx).
    eapply wp_weaken; [apply (sample_target C G w1 t u e H1 Hu Hx)|]. intros w2 [H2 L2]. split; [done|exact (later_trans _ _ _ _ L1 L2)].
  - apply Hweak. eapply sample_self; done.
  - apply wp_ok. split_and!; [done|apply later_refl|done].
  - apply Hweak. eapply unknown_self; done.
Qed.

End Process.

(** ** Together *)

Lemma all_level n : level n False (Close d) (closing d) /\ level n False (Disable d) stopped /\ (forall how, level n False (Flush d how) (fun _ => True)) /\
  level n True (Handle d) (fun _ => True) /\ (forall e, level n True (Process d e) (fun _ => True)).
Proof using Hup.
  induction n as [n IH] using (well_founded_induction lt_wf).
  assert (level n False (Close d) (closing d)) as Hc by (apply close_level; intros; apply IH; done).
  split_and!; [done| | | |].
  - apply disable_level. intros n' Hn'. apply (IH n' Hn').
  - intros how. apply flush_level. intros n' Hn'. apply (IH n' Hn').
  - apply handle_level; [intros n' e Hn'; apply (IH n' Hn')|intros n' Hn'; apply (IH n' Hn')].
  - intros e. apply process_level. done.
Qed.

Lemma interval_spec : spec N (Interval d) d.
Proof using Hup.
  intros C G w H Hb [v Hd] HG. apply wp_task. cbn [body]. unfold interval_handle.
  destruct (get_inv C G w d v H Hd) as (w1 & -> & H1 & L1 & Hd1). cbn [mbind res_bind].
  destruct (all_level (measure v)) as (_ & _ & _ & Hhandle & _).
  eapply wp_then; [eapply Hhandle; [exact H1|exact (later_bounded _ _ _ _ L1 Hb)|exact Hd1|done|apply hold_above, HG|intros _; rewrite hold_eq; lia]|].
  intros w2 (H2 & L2 & _). pose proof (later_trans _ _ _ _ L1 L2) as L02. destruct (inv_held _ _ _ H2 d) as [v2 Hd2]; [rewrite hold_eq; lia|].
  unfold deref. rewrite Hd2. cbn [of_option mbind res_bind].
  eapply wp_then; [apply (each_head N C (hold G d) w2 SOURCES INTERVAL d v2); try done; [exact (later_bounded _ _ _ _ L02 Hb)|apply hold_above, HG]|].
  intros w3 (H3 & L3 & _). destruct (put_held C G w3 d H3) as (b & w4 & -> & H4 & L4); [apply (inv_closing _ _ _ H)|]. cbn [mbind res_bind].
  apply wp_ok. split; [done|]. exact (later_trans _ _ _ _ (later_trans _ _ _ _ L02 (later_up _ _ L3)) L4).
Qed.

Lemma good_level : good N d.
Proof using Hup.
  split.
  - intros C G w H Hb [v Hd] HG. eapply wp_weaken; [apply (proj1 (proj2 (all_level (measure v))) C G w v); done|naive_solver].
  - intros C G w H Hb [v Hd] HG. eapply (proj1 (all_level (measure v))); done.
  - intros how C G w H Hb [v Hd] HG. eapply wp_weaken; [apply (proj1 (proj2 (proj2 (all_level (measure v)))) how C G w v); done|naive_solver].
  - apply interval_spec.
Qed.

End Level.

(** Younger devices first. *)
Lemma good_all N d : good N d.
Proof.
  assert (forall k d, (N - d <= k)%nat -> good N d) as H; [|apply (H (N - d)%nat); lia].
  induction k as [|k IH]; intros x Hx.
  - split; [| |intros how|]; intros C G w H Hb Hl; specialize (Hb x Hl); lia.
  - apply good_level. intros c Hc. apply IH. lia.
Qed.

(** The records of a device, when it is held. *)
Lemma handle_spec N C G w d : inv C G w -> bounded N w -> (0 < G d)%nat -> (forall x, (d < x)%nat -> G x = 0%nat) ->
  wp (fun r => r (Handle d) w) (fun w' => inv C G w' /\ later d w w').
Proof.
  intros H Hb Hh HG. destruct (inv_held _ _ _ H d Hh) as [v Hd].
  eapply wp_weaken; [apply (proj1 (proj2 (proj2 (proj2 (all_level N d (fun c _ => good_all N c) (measure v))))) C G w v); done|naive_solver].
Qed.

End ProfDevLevel.
