(* ===== verification/ProfDevOpen.v ===== *)
(** * Devices: opening, forwarding and enabling

    The operations that add: a new device with its parent, the link to a target, and
    enabling with the loop over the children, which frees nothing. *)

From S2P Require Import Prelude ProfDev ProfDevProof ProfDevLoop ProfDevLevel.

Module ProfDevOpen.

Import ProfDev ProfDevProof ProfDevLoop ProfDevLevel.

(** ** Enabling *)

(** A device but for its state, its files and the references. *)
Definition dull (v : prof_dev) : prof_dev := set_refcount 0 (set_nr_pollfd 0 (set_state OFF v)).

Record higher (w w' : world) : Prop := {
  higher_dull : forall x v, devs w !! x = Some v -> exists v', devs w' !! x = Some v' /\ dull v' = dull v;
  higher_live : forall x, is_Some (devs w' !! x) -> is_Some (devs w !! x);
}.

Lemma higher_refl w : higher w w.
Proof. split; eauto. Qed.

Lemma higher_trans w1 w2 w3 : higher w1 w2 -> higher w2 w3 -> higher w1 w3.
Proof.
  intros [H1 H1'] [H2 H2']. split; [|auto]. intros x v Hv. destruct (H1 x v Hv) as (v2 & Hv2 & E2). destruct (H2 x v2 Hv2) as (v3 & Hv3 & E3).
  exists v3. split; congruence.
Qed.

Lemma higher_insert w w' d v v' : devs w !! d = Some v -> devs w' = <[d := v']> (devs w) -> dull v' = dull v -> higher w w'.
Proof.
  intros Hd E Hv. split; rewrite E.
  - intros x u Hu. destruct (decide (x = d)) as [->|Hne]; [rewrite lookup_insert_eq; exists v'|rewrite lookup_insert_ne by done; exists u; done].
    split; congruence.
  - intros x. destruct (decide (x = d)) as [->|Hne]; [eauto|rewrite lookup_insert_ne by done; done].
Qed.

Lemma higher_bounded N w w' : higher w w' -> bounded N w -> bounded N w'.
Proof. intros H Hb x Hx. apply Hb, (higher_live _ _ H), Hx. Qed.

(** What a device keeps. *)
Lemma dull_eq v v' : dull v' = dull v -> inclose v' = inclose v /\ child_list v' = child_list v /\ source_list v' = source_list v /\
  target v' = target v /\ exit_n v' = exit_n v /\ parent v' = parent v.
Proof.
  intros E. split_and!; [apply (f_equal inclose) in E|apply (f_equal child_list) in E|apply (f_equal source_list) in E|apply (f_equal target) in E|
    apply (f_equal exit_n) in E|apply (f_equal parent) in E]; done.
Qed.

Lemma get_higher w d b w' : prof_dev_get d w = Ok (b, w') -> higher w w'.
Proof.
  unfold prof_dev_get, update, deref. destruct (devs w !! d) as [v|] eqn:Hd; [|done]. cbn [of_option mbind res_bind].
  case_match; intros [= <- <-]; [|apply higher_refl]. eapply higher_insert; [exact Hd|done|done].
Qed.

(** A reference that is not the last one. *)
Lemma put_more C G w d : inv C (hold G d) w -> (C d -> (0 < G d)%nat) -> (forall v, devs w !! d = Some v -> inclose v = false \/ (0 < G d)%nat) ->
  exists b w', prof_dev_put d w = Ok (b, w') /\ inv C G w' /\ higher w w'.
Proof.
  intros H HC Hi. destruct (inv_held _ _ _ H d) as [v Hd]; [rewrite hold_eq; lia|]. destruct (inv_ref _ _ _ H d v Hd) as [Hr _]. rewrite hold_eq in Hr.
  destruct (put_inv C G w d v H Hd HC) as (b & w' & Hput & H' & _ & [[_ E]|[E _]] & _).
  - exists b, w'. split_and!; [done|done|]. eapply higher_insert; [exact Hd|exact E|done].
  - exfalso. destruct (Hi v Hd) as [Hf|Hg]; [rewrite Hf in Hr|destruct (inclose v)]; lia.
Qed.

Lemma not_last C G w d v : inv C G w -> devs w !! d = Some v -> inclose v = false \/ (0 < G d)%nat.
Proof. intros H Hd. destruct (inv_ref _ _ _ H d v Hd) as [Hr Hr1]. destruct (inclose v); [right; lia|auto]. Qed.

(** A device becomes active. *)
Lemma start_inv C G w d v : inv C G w -> devs w !! d = Some v -> state v <> ACTIVE -> state v <> EXIT ->
  inv C G (run_more v (set_devs w (<[d := set_state ACTIVE v]> (devs w)))).
Proof.
  intros H Hd Hs Hx. assert (devs (run_more v (set_devs w (<[d := set_state ACTIVE v]> (devs w)))) = <[d := set_state ACTIVE v]> (devs w)) as E.
  { unfold run_more. case_match; done. }
  destruct (inv_ref _ _ _ H d v Hd) as [E1 E2].
  eapply (inv_update C C G G w _ d v (set_state ACTIVE v)); try done; [|apply (inv_count _ _ _ H d v Hd)|apply (inv_closing _ _ _ H)|].
  - rewrite (active_switch w _ d v _ Hd E). pose proof (inv_running _ _ _ H) as Hr. pose proof (active_elem w d v Hd) as Hin.
    unfold run_more, active in *. rewrite (bool_decide_eq_false_2 (state v = ACTIVE)), andb_false_r in Hin by done. simpl in *.
    assert (d ∉ active_set w) as Hd' by (rewrite Hin; done). destruct (normal v); simpl.
    + destruct (Z.leb_spec 0 (running w)); [|lia]. simpl. rewrite size_union, size_singleton by set_solver. lia.
    + replace (active_set w ∖ {[d]}) with (active_set w); [done|]. set_solver.
  - intros Hi HnC. exfalso. destruct (inv_closed _ _ _ H d v Hd Hi HnC). congruence.
Qed.

Definition enable_spec (N d : nat) : Prop := forall C G w, inv C G w -> bounded N w -> is_Some (devs w !! d) ->
  wp (fun r => r (Enable d) w) (fun w' => inv C G w' /\ higher w w').

(** The loop over the children. *)
Lemma each_enable N d : (forall c, (d < c)%nat -> enable_spec N c) -> forall l2 l1 C G w v, inv C G w -> bounded N w -> devs w !! d = Some v ->
  child_list v = l1 ++ l2 -> wp (fun r => r (Each CHILDREN ENABLE d (head l2)) w) (fun w' => inv C G w' /\ higher w w').
Proof.
  intros Hup. induction l2 as [|c l2 IH]; intros l1 C G w v H Hb Hd El; apply wp_task; cbn [body head for_each_dev_get].
  { apply wp_ok. split; [done|apply higher_refl]. }
  destruct (list_younger C G w CHILDREN d v c H Hd) as [Hlt [u Hu]]; [simpl; rewrite El; apply elem_of_app; right; left|].
  destruct (get_inv C G w c u H Hu) as (w1 & Hget & H1 & L1 & Hu1). pose proof (get_higher _ _ _ _ Hget) as M1. rewrite Hget. cbn [mbind res_bind].
  unfold act, deref. rewrite Hu1. cbn [of_option mbind res_bind].
  eapply wp_then; [apply (Hup c Hlt C (hold G c) w1); eauto using higher_bounded|]. intros w2 [H2 M2].
  pose proof (higher_trans _ _ _ M1 M2) as M02.
  destruct (higher_dull _ _ M02 d v Hd) as (v2 & Hd2 & Ev2). destruct (higher_dull _ _ M02 c u Hu) as (u2 & Hu2 & Eu2).
  rewrite Hd2, Hu2. cbn [of_option mbind res_bind]. simpl list_of. pose proof (dull_eq _ _ Ev2) as (_ & Ec & _). rewrite Ec, El.
  pose proof (proj1 (inv_child _ _ _ H d v Hd)) as Hnd. rewrite El in Hnd. apply list.NoDup_app in Hnd as (_ & Hdis & _).
  rewrite list_next_entry_split by (intros Hc; apply (Hdis c Hc); left).
  destruct (put_more C G w2 c H2) as (b & w3 & -> & H3 & M3); [apply (inv_closing _ _ _ H)| |].
  { intros u2' Hu2'. rewrite Hu2 in Hu2'. injection Hu2' as <-. destruct (dull_eq _ _ Eu2) as [-> _]. apply (not_last C G w c u H Hu). }
  cbn [mbind res_bind]. pose proof (higher_trans _ _ _ M02 M3) as M03. destruct (higher_dull _ _ M03 d v Hd) as (v3 & Hd3 & Ev3).
  eapply wp_weaken; [apply (IH (l1 ++ [c]) C G w3 v3); try done; [eauto using higher_bounded|]|].
  - destruct (dull_eq _ _ Ev3) as (_ & -> & _). rewrite El, <- app_assoc. done.
  - intros w4 [H4 M4]. split; [done|exact (higher_trans _ _ _ M03 M4)].
Qed.

Lemma enable_level N d : (forall c, (d < c)%nat -> enable_spec N c) -> enable_spec N d.
Proof.
  intros Hup C G w H Hb [v Hd]. apply wp_task. cbn [body]. unfold prof_dev_enable, deref. rewrite Hd. cbn [of_option mbind res_bind].
  case_bool_decide as Hs; [apply wp_ok; split; [done|apply higher_refl]|].
  set (v0 := set_nr_pollfd (nr_pollfd v + nr_fds v) v). set (w0 := set_devs w (<[d := v0]> (devs w))). assert (devs w0 !! d = Some v0) as Hd0 by apply lookup_insert_eq.
  assert (update (set_nr_pollfd (nr_pollfd v + nr_fds v)) d w = Ok w0) as -> by (unfold update, deref; rewrite Hd; done). cbn [mbind res_bind].
  assert (inv C G w0) as H0 by (eapply (inv_set C G w d v); try done; apply (inv_count _ _ _ H d v Hd)).
  assert (higher w w0) as M0 by (eapply higher_insert; [exact Hd|done|done]).
  destruct (get_inv C G w0 d v0 H0 Hd0) as (w1 & Hget & H1 & _ & Hd1). pose proof (get_higher _ _ _ _ Hget) as M1. rewrite Hget. cbn [mbind res_bind].
  set (v1 := set_refcount (refcount v0 + 1) v0) in *. unfold update, deref. rewrite Hd1. cbn [of_option mbind res_bind].
  pose proof (start_inv C (hold G d) w1 d v1 H1 Hd1) as H2. change (run_more v1) with (run_more v) in H2.
  set (w2 := run_more v (set_devs w1 (<[d := set_state ACTIVE v1]> (devs w1)))) in *.
  assert (devs w2 = <[d := set_state ACTIVE v1]> (devs w1)) as E2 by (unfold w2, run_more; case_match; done).
  pose proof (higher_trans _ _ _ M0 (higher_trans _ _ _ M1 (higher_insert _ _ _ _ _ Hd1 E2 eq_refl))) as M2.
  eapply wp_then; [apply (each_enable N d Hup (child_list v) [] C (hold G d) w2 (set_state ACTIVE v1));
    [apply H2; intros E; apply Hs; auto|eauto using higher_bounded|rewrite E2; apply lookup_insert_eq|done]|]. intros w3 [H3 M3].
  pose proof (higher_trans _ _ _ M2 M3) as M03.
  destruct (put_more C G w3 d H3) as (b & w4 & -> & H4 & M4); [apply (inv_closing _ _ _ H)| |cbn [mbind res_bind]; apply wp_ok; eauto using higher_trans].
  intros v3 Hd3. destruct (higher_dull _ _ M03 d v Hd) as (v3' & Hd3' & E3). rewrite Hd3 in Hd3'. injection Hd3' as <-.
  destruct (dull_eq _ _ E3) as [-> _]. apply (not_last C G w d v H Hd).
Qed.

Lemma enable_all N d : enable_spec N d.
Proof.
  assert (forall k d, (N - d <= k)%nat -> enable_spec N d) as H; [|apply (H (N - d)%nat); lia].
  induction k as [|k IH]; intros x Hx.
  - intros C G w H Hb Hl. specialize (Hb x Hl). lia.
  - apply enable_level. intros c Hc. apply IH. lia.
Qed.

(** ** Opening *)

(** A number that no device has had. *)
Definition fresh (d : nat) (w : world) : Prop := forall x, is_Some (devs w !! x) -> (x < d)%nat.

(** The device [u] after [d] was opened with parent [p]. *)
Definition adopted (d : nat) (p : option nat) (x : nat) (u : prof_dev) : prof_dev :=
  if bool_decide (p = Some x) then set_links (parent u) (clone u) (child_list u ++ [d]) (target u) (source_list u) u else u.

Lemma adopted_eq d p x u : let u' := adopted d p x u in refcount u' = refcount u /\ inclose u' = inclose u /\ parent u' = parent u /\ target u' = target u /\
  source_list u' = source_list u /\ exit_n u' = exit_n u /\ state u' = state u /\ active u' = active u /\ (counted u -> counted u').
Proof. unfold adopted. case_bool_decide; simpl; split_and!; done. Qed.

Section Opening.
Context (C : nat -> Prop) (G : nat -> nat) (w w' : world) (d : nat) (p : option nat) (v : prof_dev).
Context (H : inv C G w) (Hf : fresh d w) (Hp : forall q, p = Some q -> is_Some (devs w !! q)).
Context (Hd : devs w' !! d = Some v) (Hw : forall x, x <> d -> devs w' !! x = adopted d p x <$> devs w !! x) (Hrun : running w' = running w).
Context (Hv : refcount v = 1 /\ inclose v = false /\ parent v = p /\ child_list v = [] /\ target v = None /\ source_list v = [] /\ active v = false /\ state v <> EXIT /\ counted v).

Lemma fresh_none : devs w !! d = None.
Proof using All. destruct (devs w !! d) eqn:E; [|done]. specialize (Hf d). rewrite E in Hf. specialize (Hf ltac:(eauto)). lia. Qed.

Lemma fresh_held : G d = 0%nat.
Proof using All. destruct (G d) as [|g] eqn:E; [done|]. destruct (inv_held _ _ _ H d) as [u Hu]; [lia|]. rewrite fresh_none in Hu. done. Qed.

Lemma open_old x u : x <> d -> devs w' !! x = Some u -> exists u0, devs w !! x = Some u0 /\ u = adopted d p x u0.
Proof using All. intros Hx. rewrite Hw by done. intros (u0 & E & Hu)%fmap_Some. exists u0. naive_solver. Qed.

Lemma open_new x u0 : devs w !! x = Some u0 -> x <> d /\ devs w' !! x = Some (adopted d p x u0).
Proof using All. intros Hu. assert (x <> d) as Hx by (intros ->; rewrite fresh_none in Hu; done). rewrite Hw, Hu by done. done. Qed.

Lemma open_links x u : devs w' !! x = Some u ->
  (forall q, parent u = Some q -> (q < x)%nat /\ exists u', devs w' !! q = Some u' /\ x ∈ child_list u') /\
  (NoDup (child_list u) /\ forall c, c ∈ child_list u -> exists u', devs w' !! c = Some u' /\ parent u' = Some x).
Proof using All.
  destruct Hv as (_ & _ & V1 & V2 & _). intros Hx. destruct (decide (x = d)) as [->|Hne].
  - rewrite Hd in Hx. injection Hx as <-. rewrite V1, V2. split; [|split; [constructor|intros c Hc; inversion Hc]].
    intros q Hq. destruct (Hp q Hq) as [u Hu]. split; [apply Hf; eauto|]. destruct (open_new q u Hu) as [_ Hu']. eexists. split; [exact Hu'|].
    unfold adopted. rewrite bool_decide_eq_true_2 by done. simpl. apply elem_of_app. right. left.
  - destruct (open_old x u Hne Hx) as (u0 & Hu0 & ->). destruct (adopted_eq d p x u0) as (_ & _ & Ep & _). rewrite Ep. split.
    + intros q Hq. destruct (inv_parent _ _ _ H x u0 q Hu0 Hq) as (Hlt & u' & Hu' & Hin). split; [done|].
      destruct (open_new q u' Hu') as [_ E]. eexists. split; [exact E|]. unfold adopted. case_bool_decide; [simpl; apply elem_of_app; auto|done].
    + destruct (inv_child _ _ _ H x u0 Hu0) as [Hnd Hch].
      assert (forall c, c ∈ child_list u0 -> exists u', devs w' !! c = Some u' /\ parent u' = Some x) as Hold.
      { intros c Hc. destruct (Hch c Hc) as (u' & Hu' & Hpar). destruct (open_new c u' Hu') as [_ E]. eexists. split; [exact E|].
        destruct (adopted_eq d p c u') as (_ & _ & -> & _). done. }
      unfold adopted. case_bool_decide as Hpx; simpl; [|auto]. split.
      * apply list.NoDup_app. split_and!; [done| |apply NoDup_singleton]. intros c Hc Hcd. apply list_elem_of_singleton in Hcd as ->.
        destruct (Hch d Hc) as (u' & Hu' & _). rewrite fresh_none in Hu'. done.
      * intros c [Hc|Hc]%elem_of_app; [auto|]. apply list_elem_of_singleton in Hc as ->. exists v. split; [done|congruence].
Qed.

Lemma open_active : active_set w' = active_set w.
Proof using All.
  apply set_eq. intros x. rewrite !elem_active. split.
  - intros (u & Hu & Ha). destruct (decide (x = d)) as [->|Hne]; [exfalso; destruct Hv as (_ & _ & _ & _ & _ & _ & V & _); congruence|].
    destruct (open_old x u Hne Hu) as (u0 & Hu0 & ->). exists u0. split; [done|]. destruct (adopted_eq d p x u0) as (_ & _ & _ & _ & _ & _ & _ & <- & _). done.
  - intros (u & Hu & Ha). destruct (open_new x u Hu) as [_ E]. eexists. split; [exact E|].
    destruct (adopted_eq d p x u) as (_ & _ & _ & _ & _ & _ & _ & -> & _). done.
Qed.

Lemma open_inv : inv C G w'.
Proof using All.
  pose proof Hv as (V0 & V1 & V2 & V3 & V4 & V5 & V6 & V7 & V8).
  assert (forall (P : nat -> prof_dev -> Prop), P d v -> (forall x u, devs w !! x = Some u -> P x (adopted d p x u)) -> forall x u, devs w' !! x = Some u -> P x u) as Hcase.
  { intros P Pd Pold x u Hx. destruct (decide (x = d)) as [->|Hne]; [congruence|]. destruct (open_old x u Hne Hx) as (u0 & Hu0 & ->). auto. }
  split.
  - apply Hcase; [rewrite V0, V1, fresh_held; lia|]. intros x u Hu. destruct (adopted_eq d p x u) as (-> & -> & _). apply (inv_ref _ _ _ H x u Hu).
  - intros x Hx. destruct (inv_held _ _ _ H x Hx) as [u Hu]. destruct (open_new x u Hu) as [_ E]. eauto.
  - intros x u q Hu. apply (open_links x u Hu).
  - intros x u Hu. apply (open_links x u Hu).
  - intros x u t Hu. revert t. revert x u Hu.
    refine (Hcase (fun x u => forall t, target u = Some t -> (t < x)%nat /\ exists q, devs w' !! t = Some q /\ x ∈ source_list q /\ exit_n q = 0) _ _); [congruence|].
    intros x u Hu t. destruct (adopted_eq d p x u) as (_ & _ & _ & -> & _). intros Ht.
    destruct (inv_target _ _ _ H x u t Hu Ht) as (Hlt & u' & Hu' & Hin & Hx). split; [done|]. destruct (open_new t u' Hu') as [_ E].
    eexists. split; [exact E|]. destruct (adopted_eq d p t u') as (_ & _ & _ & _ & -> & -> & _). done.
  - apply Hcase; [rewrite V5; split; [constructor|intros s Hs; inversion Hs]|]. intros x u Hu. destruct (adopted_eq d p x u) as (_ & _ & _ & _ & -> & _).
    destruct (inv_source _ _ _ H x u Hu) as [Hnd Hs]. split; [done|]. intros s Hin. destruct (Hs s Hin) as (u' & Hu' & Ht).
    destruct (open_new s u' Hu') as [_ E]. eexists. split; [exact E|]. destruct (adopted_eq d p s u') as (_ & _ & _ & -> & _). done.
  - refine (Hcase (fun x u => inclose u = true -> ~ C x -> source_list u = [] /\ state u = EXIT) _ _); [congruence|]. intros x u Hu. destruct (adopted_eq d p x u) as (_ & -> & _ & _ & -> & _ & -> & _). apply (inv_closed _ _ _ H x u Hu).
  - apply (inv_closing _ _ _ H).
  - refine (Hcase (fun x u => state u = EXIT -> inclose u = true) _ _); [done|]. intros x u Hu. destruct (adopted_eq d p x u) as (_ & -> & _ & _ & _ & _ & -> & _). apply (inv_exit _ _ _ H x u Hu).
  - rewrite Hrun, open_active. apply H.
  - apply Hcase; [done|]. intros x u Hu. destruct (adopted_eq d p x u) as (_ & _ & _ & _ & _ & _ & _ & _ & Hc). apply Hc, (inv_count _ _ _ H x u Hu).
Qed.

End Opening.

Lemma open_spec C G w d p cl nm fl n after fds : inv C G w -> fresh d w -> (forall q, p = Some q -> is_Some (devs w !! q)) -> 0 <= n ->
  exists w' v, prof_dev_open d p cl nm fl n after fds w = Ok w' /\ inv C G w' /\ devs w' !! d = Some v /\ target v = None /\ inclose v = false /\
    (forall x, x <> d -> devs w' !! x = adopted d p x <$> devs w !! x).
Proof.
  intros H Hf Hp Hn. unfold prof_dev_open.
  assert (forall q, p = Some q -> q <> d) as Hne by (intros q Hq ->; specialize (Hf d (Hp d Hq)); lia).
  destruct p as [q|].
  - destruct (Hp q eq_refl) as [u Hu]. unfold update, deref. rewrite Hu. cbn [of_option mbind res_bind]. do 2 eexists. split; [reflexivity|].
    match goal with |- inv C G ?w1 /\ devs _ !! d = Some ?v1 /\ _ => set (w' := w1) end.
    assert (forall x, x <> d -> devs w' !! x = adopted d (Some q) x <$> devs w !! x) as Hw.
    { intros x Hx. unfold w'. simpl. rewrite lookup_insert_ne by done. unfold adopted. destruct (decide (x = q)) as [->|Hxq].
      - rewrite lookup_insert_eq, Hu, bool_decide_eq_true_2 by done. done.
      - rewrite lookup_insert_ne, bool_decide_eq_false_2 by congruence. destruct (devs w !! x); done. }
    split_and!; [|apply lookup_insert_eq|done|done|done].
    eapply (open_inv C G w w' d (Some q)); try done; [apply lookup_insert_eq|]. simpl. split_and!; try done; [|case_match; done|unfold counted; simpl; lia].
    unfold active. simpl. apply andb_false_iff. right. apply bool_decide_eq_false_2. case_match; done.
  - cbn [mbind res_bind]. do 2 eexists. split; [reflexivity|].
    match goal with |- inv C G ?w1 /\ devs _ !! d = Some ?v1 /\ _ => set (w' := w1) end.
    assert (forall x, x <> d -> devs w' !! x = adopted d None x <$> devs w !! x) as Hw.
    { intros x Hx. unfold w'. simpl. rewrite lookup_insert_ne by done. unfold adopted. rewrite bool_decide_eq_false_2 by done. destruct (devs w !! x); done. }
    split_and!; [|apply lookup_insert_eq|done|done|done].
    eapply (open_inv C G w w' d None); try done; [apply lookup_insert_eq|]. simpl. split_and!; try done; [|unfold counted; simpl; lia].
    unfold active. simpl. rewrite andb_false_r. done.
Qed.

(** ** Forwarding *)

(** The device [u] after [d] forwards to [t]. *)
Definition linked (d t x : nat) (u : prof_dev) : prof_dev :=
  if decide (x = d) then set_links (parent u) (clone u) (child_list u) (Some t) (source_list u) u
  else if decide (x = t) then set_links (parent u) (clone u) (child_list u) (target u) (source_list u ++ [d]) u
  else u.

Lemma linked_eq d t x u : let u' := linked d t x u in refcount u' = refcount u /\ inclose u' = inclose u /\ parent u' = parent u /\ child_list u' = child_list u /\
  exit_n u' = exit_n u /\ state u' = state u /\ active u' = active u /\ (counted u -> counted u').
Proof. unfold linked. destruct (decide (x = d)), (decide (x = t)); simpl; split_and!; done. Qed.

Lemma linked_target d t x u : target (linked d t x u) = if decide (x = d) then Some t else target u.
Proof. unfold linked. destruct (decide (x = d)), (decide (x = t)); done. Qed.

Lemma linked_source d t x u : d <> t -> source_list (linked d t x u) = if decide (x = t) then source_list u ++ [d] else source_list u.
Proof. intros Hne. unfold linked. destruct (decide (x = d)), (decide (x = t)); subst; done. Qed.

Section Forwarding.
Context (C : nat -> Prop) (G : nat -> nat) (w w' : world) (d t : nat) (v u : prof_dev).
Context (H : inv C G w) (Hd : devs w !! d = Some v) (Hnt : target v = None) (Ht : devs w !! t = Some u) (Hlt : (t < d)%nat) (Hx : exit_n u = 0) (Hi : inclose u = false).
Context (Hw : forall x, devs w' !! x = linked d t x <$> devs w !! x) (Hrun : running w' = running w).

Lemma forward_old x q : devs w' !! x = Some q -> exists q0, devs w !! x = Some q0 /\ q = linked d t x q0.
Proof using Hw. rewrite Hw. intros (q0 & E & Hq)%fmap_Some. exists q0. naive_solver. Qed.

Lemma forward_new x q0 : devs w !! x = Some q0 -> devs w' !! x = Some (linked d t x q0).
Proof using Hw. intros E. rewrite Hw, E. done. Qed.

Lemma forward_target x q s : devs w' !! x = Some q -> target q = Some s -> (s < x)%nat /\ exists q', devs w' !! s = Some q' /\ x ∈ source_list q' /\ exit_n q' = 0.
Proof using All.
  intros (q0 & Hq0 & ->)%forward_old. rewrite linked_target. assert (d <> t) as Hne by lia. destruct (decide (x = d)) as [->|Hxd].
  - intros [= <-]. split; [done|]. eexists. split; [apply (forward_new t u Ht)|]. rewrite linked_source, decide_True by done.
    destruct (linked_eq d t t u) as (_ & _ & _ & _ & -> & _). split; [apply elem_of_app; right; left|done].
  - intros Hs. destruct (inv_target _ _ _ H x q0 s Hq0 Hs) as (Hlt' & q' & Hq' & Hin & Hn). split; [done|]. eexists. split; [apply (forward_new s q' Hq')|].
    destruct (linked_eq d t s q') as (_ & _ & _ & _ & -> & _). rewrite linked_source by done. split; [case_match; [apply elem_of_app; auto|done]|done].
Qed.

Lemma forward_source x q : devs w' !! x = Some q -> NoDup (source_list q) /\ forall s, s ∈ source_list q -> exists q', devs w' !! s = Some q' /\ target q' = Some x.
Proof using All.
  intros (q0 & Hq0 & ->)%forward_old. assert (d <> t) as Hne by lia. rewrite linked_source by done. destruct (inv_source _ _ _ H x q0 Hq0) as [Hnd Hs].
  assert (d ∉ source_list q0) as Hnd' by (intros Hin; destruct (Hs d Hin) as (q' & Hq' & E); congruence).
  assert (forall s, s ∈ source_list q0 -> exists q', devs w' !! s = Some q' /\ target q' = Some x) as Hold.
  { intros s Hin. destruct (Hs s Hin) as (q' & Hq' & E). eexists. split; [apply (forward_new s q' Hq')|]. rewrite linked_target, decide_False by congruence. done. }
  destruct (decide (x = t)) as [->|Hxt]; [|auto]. split.
  - apply list.NoDup_app. split_and!; [done| |apply NoDup_singleton]. intros s Hin Hsd. apply list_elem_of_singleton in Hsd as ->. auto.
  - intros s [Hin|Hin]%elem_of_app; [auto|]. apply list_elem_of_singleton in Hin as ->. eexists. split; [apply (forward_new d v Hd)|].
    rewrite linked_target, decide_True by done. done.
Qed.

Lemma forward_active : active_set w' = active_set w.
Proof using All.
  apply set_eq. intros x. rewrite !elem_active. split.
  - intros (q & (q0 & Hq0 & ->)%forward_old & Ha). exists q0. split; [done|]. destruct (linked_eq d t x q0) as (_ & _ & _ & _ & _ & _ & <- & _). done.
  - intros (q & Hq & Ha). eexists. split; [apply (forward_new x q Hq)|]. destruct (linked_eq d t x q) as (_ & _ & _ & _ & _ & _ & -> & _). done.
Qed.

Lemma forward_inv : inv C G w'.
Proof using All.
  assert (d <> t) as Hne by lia. split.
  - intros x q (q0 & Hq0 & ->)%forward_old. destruct (linked_eq d t x q0) as (-> & -> & _). apply (inv_ref _ _ _ H x q0 Hq0).
  - intros x Hg. destruct (inv_held _ _ _ H x Hg) as [q Hq]. rewrite (forward_new x q Hq). eauto.
  - intros x q p (q0 & Hq0 & ->)%forward_old. destruct (linked_eq d t x q0) as (_ & _ & -> & _). intros Hp.
    destruct (inv_parent _ _ _ H x q0 p Hq0 Hp) as (Hlt' & q' & Hq' & Hin). split; [done|]. eexists. split; [apply (forward_new p q' Hq')|].
    destruct (linked_eq d t p q') as (_ & _ & _ & -> & _). done.
  - intros x q (q0 & Hq0 & ->)%forward_old. destruct (linked_eq d t x q0) as (_ & _ & _ & -> & _). destruct (inv_child _ _ _ H x q0 Hq0) as [Hnd Hch].
    split; [done|]. intros c Hc. destruct (Hch c Hc) as (q' & Hq' & E). eexists. split; [apply (forward_new c q' Hq')|].
    destruct (linked_eq d t c q') as (_ & _ & -> & _). done.
  - apply forward_target.
  - apply forward_source.
  - intros x q (q0 & Hq0 & ->)%forward_old. destruct (linked_eq d t x q0) as (_ & -> & _ & _ & _ & -> & _). rewrite linked_source by done.
    intros Hc Hn. destruct (decide (x = t)) as [->|Hxt]; [congruence|]. apply (inv_closed _ _ _ H x q0 Hq0 Hc Hn).
  - apply (inv_closing _ _ _ H).
  - intros x q (q0 & Hq0 & ->)%forward_old. destruct (linked_eq d t x q0) as (_ & -> & _ & _ & _ & -> & _). apply (inv_exit _ _ _ H x q0 Hq0).
  - rewrite Hrun, forward_active. apply H.
  - intros x q (q0 & Hq0 & ->)%forward_old. destruct (linked_eq d t x q0) as (_ & _ & _ & _ & _ & _ & _ & Hc). apply Hc, (inv_count _ _ _ H x q0 Hq0).
Qed.

End Forwarding.

Lemma forward_spec C G w d t v u : inv C G w -> devs w !! d = Some v -> target v = None -> devs w !! t = Some u -> (t < d)%nat -> exit_n u = 0 -> inclose u = false ->
  exists w', prof_dev_forward d t w = Ok w' /\ inv C G w' /\ (forall x, devs w' !! x = linked d t x <$> devs w !! x).
Proof.
  intros H Hd Hnt Ht Hlt Hx Hi. unfold prof_dev_forward, update, deref. rewrite Hd. cbn [of_option mbind res_bind devs set_devs].
  rewrite lookup_insert_ne, Ht by lia. cbn [of_option mbind res_bind]. eexists. split; [reflexivity|].
  match goal with |- inv C G ?w1 /\ _ => set (w' := w1) end.
  assert (forall x, devs w' !! x = linked d t x <$> devs w !! x) as Hw.
  { intros x. unfold w', linked. simpl. destruct (decide (x = t)) as [->|Hxt].
    - rewrite lookup_insert_eq, Ht. simpl. rewrite decide_False by lia. done.
    - rewrite lookup_insert_ne by done. destruct (decide (x = d)) as [->|Hxd]; [rewrite lookup_insert_eq, Hd; done|].
      rewrite lookup_insert_ne by done. destruct (devs w !! x); done. }
  split; [|done]. eapply (forward_inv C G w w' d t v u); done.
Qed.

End ProfDevOpen.
