(* ===== verification/ProfDevMain.v ===== *)
(** * Devices: the runs of the program

    Any sequence of openings, clonings, forwardings, events and closings, where a
    target has no limit on its events: every call returns and uses only devices that
    are not freed, and between the calls each device has one reference. With a limit on
    the target, a freed device is used. *)

From S2P Require Import Prelude ProfDev ProfDevProof ProfDevLoop ProfDevLevel ProfDevOpen.

Module ProfDevMain.

Import ProfDev ProfDevProof ProfDevLoop ProfDevLevel ProfDevOpen.

(** Between the calls. *)
Definition ok (w : world) : Prop := inv (fun _ => False) (fun _ => 0%nat) w.

Lemma bounded_exists w : exists N, bounded N w.
Proof.
  exists (S (max_list (elements (dom (devs w))))). intros x Hx. apply elem_of_dom, elem_of_elements in Hx. apply max_list_elem_of_le in Hx. lia.
Qed.

Lemma ok_open w d v : ok w -> devs w !! d = Some v -> refcount v = 1 /\ inclose v = false.
Proof. intros H Hd. destruct (inv_ref _ _ _ H d v Hd) as [Hr Hr1]. destruct (inclose v); [lia|]. split; [lia|done]. Qed.

(** ** Operations *)

Lemma poll_spec w d hup : ok w -> is_Some (devs w !! d) -> wp (fun r => perf_event_handle r d hup w) ok.
Proof.
  intros H [v Hd]. destruct (bounded_exists w) as [N Hb]. unfold perf_event_handle.
  destruct (get_inv _ _ w d v H Hd) as (w1 & -> & H1 & L1 & Hd1). cbn [mbind res_bind].
  eapply wp_then; [apply (handle_spec N _ _ w1 d H1); [exact (later_bounded _ _ _ _ L1 Hb)|rewrite hold_eq; lia|apply hold_above; done]|].
  intros w2 [H2 L2]. pose proof (later_trans _ _ _ _ L1 L2) as L02. destruct (inv_held _ _ _ H2 d) as [v2 Hd2]; [rewrite hold_eq; lia|].
  eapply (wp_then _ _ (inv (fun _ => False) (hold (fun _ => 0%nat) d))).
  - destruct hup; [|apply wp_ok; done]. unfold update, deref. rewrite Hd2. cbn [of_option mbind res_bind].
    set (v3 := set_nr_pollfd (nr_pollfd v2 - 1) v2). set (w3 := set_devs w2 (<[d := v3]> (devs w2))).
    assert (inv (fun _ => False) (hold (fun _ => 0%nat) d) w3) as H3 by (eapply (inv_set _ _ w2 d v2); try done; apply (inv_count _ _ _ H2 d v2 Hd2)).
    assert (later d w2 w3) as L3 by (apply (later_update w2 d v2); done).
    case_match; [|apply wp_ok; done].
    eapply wp_weaken; [apply (good_close N d (good_all N d) _ _ w3 H3); [exact (later_bounded _ _ _ _ (later_trans _ _ _ _ L02 L3) Hb)| |apply hold_above; done]|naive_solver].
    unfold w3. simpl. rewrite lookup_insert_eq. eauto.
  - intros w3 H3. destruct (put_held _ (fun _ => 0%nat) w3 d H3) as (b & w4 & -> & H4 & _); [done|]. cbn [mbind res_bind]. apply wp_ok. done.
Qed.

Lemma clone_spec w d p nm fl after fds : ok w -> fresh d w -> is_Some (devs w !! p) -> wp (fun r => prof_dev_clone r d p nm fl after fds w) ok.
Proof.
  intros H Hf [v Hp]. unfold prof_dev_clone. destruct (ok_open w p v H Hp) as [_ Hip].
  destruct (get_inv _ _ w p v H Hp) as (w1 & Hget & H1 & L1 & Hp1). pose proof (get_higher _ _ _ _ Hget) as M1. rewrite Hget. cbn [mbind res_bind].
  unfold deref. rewrite Hp1. cbn [of_option mbind res_bind]. set (v1 := set_refcount (refcount v + 1) v) in *.
  set (G := hold (fun _ => 0%nat) p) in *.
  eapply (wp_then _ _ (fun w => inv (fun _ => False) G w)).
  2: { intros w2 H2. destruct (put_held _ (fun _ => 0%nat) w2 p H2) as (b & w3 & -> & H3 & _); [done|]. cbn [mbind res_bind]. apply wp_ok. done. }
  case_bool_decide; [apply wp_ok; done|].
  assert (fresh d w1) as Hf1 by (intros x Hx; apply Hf, (higher_live _ _ M1), Hx).
  destruct (open_spec _ G w1 d (Some p) true nm fl (exit_n v1) after fds H1 Hf1) as (w2 & u2 & -> & H2 & Hd2 & Ht2 & Hi2 & Hw2);
    [intros q [= <-]; eauto|apply (inv_count _ _ _ H p v Hp)|]. cbn [mbind res_bind].
  assert (p < d)%nat as Hpd by (apply Hf; eauto).
  destruct (get_inv _ G w2 d u2 H2 Hd2) as (w3 & Hget3 & H3 & _ & Hd3). pose proof (get_higher _ _ _ _ Hget3) as M3. rewrite Hget3. cbn [mbind res_bind].
  destruct (bounded_exists w3) as [N Hb3].
  eapply wp_then; [apply (enable_all N d _ _ w3 H3 Hb3); eauto|]. intros w4 [H4 M4]. pose proof (higher_trans _ _ _ M3 M4) as M24.
  destruct (higher_dull _ _ M24 d u2 Hd2) as (u4 & Hd4 & Eu4). pose proof (Hw2 p ltac:(lia)) as Hp2. rewrite Hp1 in Hp2. simpl in Hp2.
  destruct (higher_dull _ _ M24 p _ Hp2) as (v4 & Hp4 & Ev4). rewrite Hp4. cbn [of_option mbind res_bind].
  eapply (wp_then _ _ (fun w => inv (fun _ => False) (hold G d) w)).
  2: { intros w5 H5. destruct (put_held _ G w5 d H5) as (b & w6 & -> & H6 & _); [done|]. cbn [mbind res_bind]. apply wp_ok. done. }
  destruct (target v4) as [t|] eqn:Et; [|apply wp_ok; done].
  destruct (inv_target _ _ _ H4 p v4 t Hp4 Et) as (Hlt & u & Hu & _ & Hx).
  destruct (forward_spec _ _ w4 d t u4 u H4 Hd4) as (w5 & -> & H5 & _); [destruct (dull_eq _ _ Eu4) as (_ & _ & _ & -> & _); done|done|lia|done| |apply wp_ok; done].
  destruct (inv_ref _ _ _ H4 t u Hu) as [Hr Hr1]. rewrite hold_ne in Hr by lia. unfold G in Hr. rewrite hold_ne in Hr by lia. destruct (inclose u); [lia|done].
Qed.

(** What may happen to devices that nobody uses and that do not order their events.
    Forwarding is not among it: the sources are those of a tracepoint list, which uses
    them. *)
Definition allowed (o : op) (w : world) : Prop :=
  match o with
  | Opened d p _ _ n _ _ => fresh d w /\ (forall q, p = Some q -> is_Some (devs w !! q)) /\ 0 <= n
  | Cloned d p _ _ _ _ => fresh d w /\ is_Some (devs w !! p)
  | Forwarded _ _ => False
  | Enabled d | Arrived d _ | Polled d _ | Ticked d | Flushed d | Disabled d | Closed d => is_Some (devs w !! d)
  end.

Lemma step_spec o w : ok w -> allowed o w -> wp (fun r => step r o w) ok.
Proof.
  intros H Ha. destruct (bounded_exists w) as [N Hb].
  destruct o as [d p nm fl n after fds|d p nm fl after fds|d t|d|d l|d hup|d|d|d|d]; simpl in Ha; cbn [step].
  - destruct Ha as (Hf & Hp & Hn). destruct (open_spec _ _ w d p false nm fl n after fds H Hf Hp Hn) as (w' & v & -> & H' & _). apply wp_ok. done.
  - apply clone_spec; naive_solver.
  - done.
  - eapply wp_weaken; [apply (enable_all N d _ _ w H Hb Ha)|naive_solver].
  - destruct Ha as [v Hd]. unfold update, deref. rewrite Hd. cbn [of_option mbind res_bind]. apply wp_ok.
    eapply (inv_set _ _ w d v); try done. apply (inv_count _ _ _ H d v Hd).
  - apply poll_spec; done.
  - eapply wp_weaken; [apply (good_interval N d (good_all N d) _ _ w H Hb Ha); done|naive_solver].
  - eapply wp_weaken; [apply (good_flush N d (good_all N d) FLUSH_NORMAL _ _ w H Hb Ha); done|naive_solver].
  - eapply wp_weaken; [apply (good_disable N d (good_all N d) _ _ w H Hb Ha); done|naive_solver].
  - eapply wp_weaken; [apply (good_close N d (good_all N d) _ _ w H Hb Ha); done|naive_solver].
Qed.

(** ** Runs *)

(** The operation returns. *)
Definition steps_to (o : op) (w w' : world) : Prop := exists n, forall m, (n <= m)%nat -> step (exec m) o w = Ok w'.

Definition no_devices : world := {| devs := ∅; running := 0 |}.

Inductive reach : world -> Prop :=
  | reach_init : reach no_devices
  | reach_step w o w' : reach w -> allowed o w -> steps_to o w w' -> reach w'.

Lemma ok_init : ok no_devices.
Proof. split; simpl; intros; try (rewrite lookup_empty in *; done); try lia; done. Qed.

Lemma steps_to_inj o w w1 w2 : steps_to o w w1 -> steps_to o w w2 -> w1 = w2.
Proof. intros [n1 H1] [n2 H2]. specialize (H1 (n1 + n2)%nat ltac:(lia)). specialize (H2 (n1 + n2)%nat ltac:(lia)). congruence. Qed.

Lemma ok_step o w : ok w -> allowed o w -> exists w', steps_to o w w' /\ ok w'.
Proof. intros H Ha. destruct (step_spec o w H Ha) as (w' & Hw' & Hn). exists w'. done. Qed.

Lemma reach_ok w : reach w -> ok w.
Proof.
  induction 1 as [|w o w' _ IH Ha Hs]; [apply ok_init|]. destruct (ok_step o w IH Ha) as (w'' & Hs' & H'). rewrite (steps_to_inj _ _ _ _ Hs Hs'). done.
Qed.

(** C7: along any run of openings with or without a parent, clonings, enablings,
    arriving records, polls with or without a hang-up, timers, flushes, disablings and
    closings, on devices that nobody uses ([prof_dev_use]: no profilers as event
    sources of a tracepoint list, so no forwarding, and no ptrace) and that do not order
    their events, every operation on a live device returns with the devices in order,
    and so never uses a freed one, also where the records it processes reach a limit
    [-N] and close devices: each live device has exactly the reference of its opening
    and is not being closed, parents and children name each other and are live, a
    device with a limit has handed over at most that many events, and [running] is the
    number of normal devices that are active. *)
Theorem devices_safe w : reach w ->
  (forall o, allowed o w -> exists w', steps_to o w w' /\ reach w') /\
  (forall d v, devs w !! d = Some v ->
     refcount v = 1 /\ inclose v = false /\ state v <> EXIT /\
     (forall p, parent v = Some p -> exists u, devs w !! p = Some u /\ d ∈ child_list u) /\
     (forall c, c ∈ child_list v -> exists u, devs w !! c = Some u /\ parent u = Some d) /\
     (exit_n v <> 0 -> samples v + forwarded v <= exit_n v)) /\
  running w = Z.of_nat (size (active_set w)).
Proof.
  intros Hr. pose proof (reach_ok w Hr) as H. split_and!.
  - intros o Ha. destruct (ok_step o w H Ha) as (w' & Hs & _). exists w'. split; [done|]. eapply reach_step; eauto.
  - intros d v Hd. destruct (ok_open w d v H Hd) as [Href Hi]. destruct (inv_count _ _ _ H d v Hd) as [_ Hc]. split_and!; try done.
    + intros Hx. rewrite (inv_exit _ _ _ H d v Hd Hx) in Hi. done.
    + intros p Hp. apply (inv_parent _ _ _ H d v p Hd Hp).
    + apply (inv_child _ _ _ H d v Hd).
    + intros Hn. lia.
  - apply H.
Qed.

(** C35: in such runs closing a device, which stops it, processes the records it still
    has and closes its children, returns and frees it; its parent and the other older
    devices stay as they are, but for their lists and counts of events. *)
Theorem close_frees w d v : reach w -> devs w !! d = Some v ->
  exists w', steps_to (Closed d) w w' /\ devs w' !! d = None /\
    (forall x u, (x < d)%nat -> devs w !! x = Some u -> exists u', devs w' !! x = Some u' /\ core u' = core u).
Proof.
  intros Hr Hd. pose proof (reach_ok w Hr) as H. destruct (bounded_exists w) as [N Hb].
  destruct (good_close N d (good_all N d) _ _ w H Hb ltac:(eauto) ltac:(done)) as (w' & (H' & L & Hc) & n & Hn).
  exists w'. assert (devs w' !! d = None) as Hnone.
  { destruct (devs w' !! d) as [u|] eqn:E; [|done]. destruct (ok_open w' d u H' E) as [_ Hi]. rewrite (Hc u E) in Hi. done. }
  split_and!; [exists n; done|done|apply (later_core _ _ _ L)].
Qed.

(** ** Runs that are evaluated *)

Definition run (fuel : nat) (l : list op) (w : world) : res world := foldl (fun r o => w ← r; step (exec fuel) o w) (Ok w) l.

Definition an_event : event := {| e_type := SAMPLE; passed := true; e_time := 5 |}.

(** A target [-N n] with a source, enabled, and an event in the buffer of the source. *)
Definition forwarding (n : Z) : list op :=
  [Opened 0 None true false n 0 1; Opened 1 (Some 0%nat) true false 0 0 1; Forwarded 1 0; Enabled 0; Arrived 1 [an_event]].

(** The live devices of a result, with their references, samples and forwarded events. *)
Definition shown (r : res world) : res (list (nat * (Z * Z * Z))) :=
  match r with Ok w => Ok ((fun '(d, v) => (d, (refcount v, samples v, forwarded v))) <$> map_to_list (devs w)) | Fault => Fault | Timeout => Timeout end.

(** Without a limit the event arrives at the target; with the limit 1 the target is
    closed by the event while the source is held by its caller, and is freed first: the
    source is freed with a link to it. *)
Example target_limit_fault :
  shown (run 100 (forwarding 0 ++ [Polled 1 false]) no_devices) = Ok [(1%nat, (1, 0, 1)); (0%nat, (1, 1, 0))] /\
  shown (run 100 (forwarding 1 ++ [Polled 1 false]) no_devices) = Fault.
Proof. split; vm_compute; reflexivity. Qed.

(** A clone 3 of a child 1 of device 0; [more]: device 0 has another child after it. *)
Definition cloning (more : bool) : list op :=
  [Opened 0 None true false 0 0 1; Opened 1 (Some 0%nat) true false 0 0 1] ++
  (if more then [Opened 2 (Some 0%nat) true false 0 0 1] else []) ++ [Enabled 0; Cloned 3 1 true false 0 1; Closed 0].

(** A clone moves to the list of device 0 when its parent is freed: whether closing
    device 0 closes it too depends on the place of the parent in the list. *)
Example clone_closed_by_place :
  shown (run 100 (cloning false) no_devices) = Ok [(3%nat, (1, 0, 0))] /\ shown (run 100 (cloning true) no_devices) = Ok [].
Proof. split; vm_compute; reflexivity. Qed.

(** *** Witnesses *)

Lemma fresh_dec d w : bool_decide (map_Forall (fun x (_ : prof_dev) => (x < d)%nat) (devs w)) = true -> fresh d w.
Proof. intros Hd x [u Hu]. apply bool_decide_eq_true_1 in Hd. apply (Hd x u Hu). Qed.

(** A device with a child that has the limit 1, enabled, and an event of the child. *)
Definition limited : list op :=
  [Opened 0 None true false 0 0 1; Opened 1 (Some 0%nat) true false 1 0 1; Enabled 0; Arrived 1 [an_event]].

(** The devices after the first [k] operations. *)
Definition after (k : nat) : world := match run 30 (take k limited) no_devices with Ok w => w | _ => no_devices end.

(** A step that is evaluated. *)
Lemma reach_eval k o : reach (after k) -> allowed o (after k) -> (forall m, step (exec (30 + m)) o (after k) = Ok (after (S k))) -> reach (after (S k)).
Proof.
  intros Hr Ha Hs. eapply reach_step; [exact Hr|exact Ha|]. exists 30%nat. intros m Hm. replace m with (30 + (m - 30))%nat by lia. apply Hs.
Qed.

Lemma reach_limited : reach (after 4).
Proof.
  apply (reach_eval 3 (Arrived 1 [an_event])); [|simpl; eexists; vm_compute; reflexivity|intros m; vm_compute; reflexivity].
  apply (reach_eval 2 (Enabled 0)); [|simpl; eexists; vm_compute; reflexivity|intros m; vm_compute; reflexivity].
  apply (reach_eval 1 (Opened 1 (Some 0%nat) true false 1 0 1)); [| |intros m; vm_compute; reflexivity].
  - apply (reach_eval 0 (Opened 0 None true false 0 0 1)); [apply reach_init|simpl; split_and!; [apply fresh_dec; vm_compute; reflexivity|done|lia]|].
    intros m. vm_compute. reflexivity.
  - simpl. split_and!; [apply fresh_dec; vm_compute; reflexivity| |lia]. intros q [= <-]. eexists. vm_compute. reflexivity.
Qed.

Lemma devices_safe_witness : running (after 4) = Z.of_nat (size (active_set (after 4))) /\ (exists w', steps_to (Polled 1 false) (after 4) w' /\ reach w').
Proof.
  destruct (devices_safe (after 4) reach_limited) as (H1 & _ & H2). split; [exact H2|]. apply H1. simpl. eexists. vm_compute. reflexivity.
Defined.

Lemma close_frees_witness : exists w', steps_to (Closed 1) (after 4) w' /\ devs w' !! 1%nat = None /\ is_Some (devs w' !! 0%nat).
Proof.
  destruct (devs (after 4) !! 1%nat) as [v|] eqn:E; [|vm_compute in E; discriminate E].
  destruct (close_frees (after 4) 1 v reach_limited E) as (w' & Hs & Hn & Hold). exists w'. split; [exact Hs|]. split; [exact Hn|].
  destruct (devs (after 4) !! 0%nat) as [u|] eqn:E0; [|vm_compute in E0; discriminate E0].
  destruct (Hold 0%nat u ltac:(lia) E0) as (u' & Hu' & _). exists u'. exact Hu'.
Defined.

End ProfDevMain.
